(* ===== verification/_CoqProject ===== *)
-Q . S2P
Prelude.v
Glob.v
PatternTrie.v
NodeTable.v
Trie.v
Msg.v
YQueue.v
YPipe.v
Conflate.v
Wire.v
Encoder.v
Decoder.v
Allocator.v
PipeArray.v
Dist.v
Fq.v
Mtrie.v
Pipe.v
PipeFlow.v
Sockets.v
XSub.v
XPub.v
Router.v
Monitor.v
Options.v
Mailbox.v
SocketBase.v
Own.v
OwnTree.v
Mechanism.v
Engine.v
EngineStream.v
Timers.v
Spot.v
Poller.v
Proxy.v
Ctx.v
Address.v
Pair.v
Endpoints.v
Api.v
Session.v
IoThread.v
