(* ===== verification/Prelude.v ===== *)
(** * ServerLink: a verification of its messaging core

    ServerLink (src/src/) is a C++ messaging library in the ZeroMQ family.  An
    application thread owns sockets; I/O threads own sessions and protocol engines.
    The two sides exchange messages through pipes: a pair of lock-free queues
    ([ypipe]) and a handful of commands.  A socket distributes outgoing messages to
    its pipes ([dist_t]) and takes incoming ones from them in turn ([fq_t]);
    publishers keep the subscriptions of every pipe in a multi-trie ([mtrie_t]),
    subscribers keep their own in a trie ([trie_t]).  Engines turn messages into
    frames ([v2_encoder_t], [v3_1_encoder_t]) and frames into messages
    ([v2_decoder_t]) that may refer to the receive buffer
    ([shared_message_memory_allocator]).  [msg_t] is the value all of them pass on.
    The spot layer selects topics with glob patterns.  Sessions own the engine of a
    connection and connect again when it is lost; sockets, sessions, connecters and
    listeners form a tree of objects that is shut down by commands through mailboxes.

    ** Conventions

    A definition translates one function (or one loop or branch of it) of the file
    its own file's comment names, with the source's name where it is free.  Effects
    are explicit state passing.  [outcome] (below) has [Done], [Abort] for a failed
    [slk_assert], and [Undef] for undefined behaviour (an index out of range, a dead
    object, the wrong member of a union): a theorem that an operation is [Done]
    says that no assertion fails and no access is invalid.  Machine integers are [Z]
    with the wrap-around written out ([u8], [u16], [u32], [u64], [s32]).  Pointers
    are identifiers into finite maps, so that sharing, leaks and double frees are
    visible.  Where the code loops, the model has fuel: the theorems show that the
    fuel given ([S _active], [S _matching], the four steps of an encoder or decoder
    frame, the length of a table) always suffices, since they state [Done].

    ** Files

    - Prelude.v (this file): outcomes, machine integers, result codes, checked list
      access, tactics and hints.
    - Glob.v: src/pattern/glob_pattern.cpp.  [compile] and the matcher; the matcher
      decides an inductive meaning of patterns, and printing a pattern and compiling
      it gives the pattern back.
    - PatternTrie.v: src/pattern/pattern_trie.cpp as a multiset of patterns.
    - NodeTable.v: the child table of trie nodes, shared by trie and mtrie.
    - Trie.v: src/pipe/trie.cpp; a simulation with a multiset of prefixes.
    - Mtrie.v: src/pipe/mtrie_impl.hpp; a simulation with a finite map from prefixes
      to sets of pipes.
    - Msg.v: src/msg/msg.cpp, msg.hpp, metadata.cpp, util/atomic_counter.hpp.  A heap
      of contents, metadata and groups; the ownership invariant [heap_inv] says that
      every reference count is the number of handles; a pool of messages refines a
      pool of byte strings.
    - YQueue.v, YPipe.v: src/util/yqueue.hpp, ypipe.hpp, atomic_ptr.hpp.  The chunked
      queue refines a list; under every interleaving of writer and reader the pipe
      gives the results of a three-part queue.
    - Conflate.v: src/util/ypipe_conflate.hpp, dbuffer.hpp as a one-place register.
    - Wire.v, Encoder.v, Decoder.v: src/protocol/wire.hpp, encoder.hpp, v2_encoder.cpp,
      v3_1_encoder.cpp, raw_encoder.cpp, decoder.hpp, v2_decoder.cpp and the loop of
      stream_engine_base.cpp that feeds the decoder.  Whatever the sizes of the reads
      and the buffers, decoding the encoded stream gives the messages back; oversized
      frames are refused.
    - Allocator.v: src/protocol/decoder_allocators.cpp: a receive buffer lives exactly
      as long as it is used, and its table of contents is never overrun.
    - PipeArray.v, Dist.v, Fq.v: src/core/array.hpp, src/pipe/dist.cpp, fq.cpp.  The
      classes [OutPipes] and [InPipes] state what the sockets' components need of
      pipes.  The distributor refines four sets of pipes and sends exactly one handle
      to every pipe that accepts; the fair queue refines two sets, never misses a
      ready message and is fair.
    - Pipe.v, PipeFlow.v: src/pipe/pipe.cpp, both ends of a pipe over YPipe with the
      commands between their threads.  Under every interleaving termination is safe and
      completes, and a writer that was stopped by its high-water mark goes on when the
      reader has read enough.
    - Sockets.v, XSub.v, XPub.v, Router.v, Pair.v: src/core/xsub.cpp, sub.cpp, xpub.cpp,
      pub.cpp, router.cpp, pair.cpp.  What a subscriber receives is what its
      subscriptions match, or what an earlier poll took while they matched; a publisher sends
      to the pipes whose subscriptions match; a router puts the routing id of the pipe before
      every message it receives and sends messages where their first part says; two PAIR sockets over the pipe of Pipe.v get each other's messages
      in order, and all of them.
    - Options.v, SocketBase.v, Endpoints.v: src/core/options.cpp, socket_base.cpp, the
      inproc endpoints of ctx.cpp.  Options stay in their ranges; [recv] and [send] with
      their waits, for any socket type (class [SocketType]); bind, connect and
      term_endpoint over the tables of the socket.
    - Mailbox.v: src/io/mailbox.cpp, signaler.cpp.  No command is left without a signal, for
      any number of senders, and all commands are received.
    - Own.v, OwnTree.v: src/core/own.cpp, object.cpp.  The tree of objects shuts down safely
      and completely, in whatever order the commands arrive, if every command was counted
      ([send_bind] may be told not to count, see [uncounted_bind]).
    - Session.v: src/core/session_base.cpp, src/transport/stream_connecter_base.cpp,
      tcp_connecter.cpp, ipc_connecter.cpp, the accept loop of the listeners, and the timers of
      src/io/poller_base.cpp.  No assertion of a session fails and no timer outlives it; the
      intervals of the connecter are those of the exponential backoff.
    - IoThread.v: src/io/asio/poller.cpp, io_thread.cpp.  A descriptor whose events are wanted
      is waited for exactly once, unless a wait of it failed ([failed_wait_is_deaf]).
    - Mechanism.v, Engine.v, EngineStream.v: src/auth/, src/protocol/stream_engine_base.cpp,
      zmtp_engine.cpp.  Two engines, with reads and writes of any sizes: what one socket
      sends the other one receives, in order, each message once.
    - Ctx.v: src/core/ctx.cpp, src/io/reaper.cpp.  Slots of the context are never shared or
      lost; the shutdown with the reaper waits for every socket.
    - Poller.v, Proxy.v, Timers.v: src/io/socket_poller.cpp, src/core/proxy.cpp,
      src/util/timers.cpp, clock.cpp.  The poller reports what the sockets
      answer when it looks at them, and keeps its timeout; the proxy forwards every message
      whole; timers refine a map of due times.
    - Address.v: src/transport/ip_resolver.cpp, tcp_address.cpp, ipc_address.cpp,
      inproc_address.cpp, address.cpp.
    - Monitor.v: src/monitor/.
    - Spot.v: src/spot/topic_registry.cpp, subscription_manager.cpp, spot_pubsub.cpp.
      The manager of subscriptions refines two sets of pairs, of topics or patterns with their
      subscribers; the sockets are the class [SpotSockets].
    - Api.v: the part of src/serverlink.cpp that does more than to check arguments: messages,
      sending and receiving, [slk_poll] and the functions of the poller, with the error codes.  What [slk_poll]
      returns is its last look at the items.

    ** What is not modelled

    Calls of the operating system and of asio are parameters or actions: opening, tuning and
    closing sockets and descriptors, name services, clocks, randomness, threads and the loop
    that runs asio.  spot_node.cpp is left out because nothing creates a spot_node_t, and
    mailbox_safe.cpp because nothing uses it.  blob_t and the raw decoder only manage memory.
    The other functions of the C interface check their arguments and call one operation of a
    class.  The parts of router.cpp under SL_ENABLE_MONITORING, which is off by default, and the
    variants for other platforms are left out.  Memory ordering is sequentially consistent.
    Destructors that only release memory are left out, except where a reference count decides.

    Some lemmas state what the code does against its intention, among them
    [set_group_short_over_long], [add_refs_long_group], [codec_v2_topic_255],
    [dbuffer_busy_leaks], [fq_terminated_mid_message], [mtrie_num_prefixes_drift],
    [rcvhwm_change_stalls], [disconnect_after_peer_closed], [long_routing_id_released],
    [closed_mid_message], [disconnected_reconnects], [accept_error_is_final],
    [reused_handle_waits_twice], [slk_poll_fds_now], [slk_poll_waits_on] and [map_errno_clashes]. *)
From stdpp Require Export base option list numbers sets gmap strings.
From Stdlib Require Export ZArith Lia.

Declare Scope sl_scope.
Delimit Scope sl_scope with sl.

(** * Outcomes

    The C++ code leaves the normal flow in two ways that matter here: a failed
    [slk_assert]/[errno_assert]/[alloc_assert] calls [slk_abort], and a read or
    write outside an object, through a null pointer or through the wrong member
    of a union has undefined behaviour.  Both are values of the model, so that
    "no assertion of the code fails" and "no access is out of bounds" are
    statements about the definitions. *)
Inductive outcome (A : Type) : Type :=
| Done (a : A)
| Abort
| Undef.
Arguments Done {A} _.
Arguments Abort {A}.
Arguments Undef {A}.

#[export] Instance outcome_ret : MRet outcome := @Done.
#[export] Instance outcome_bind : MBind outcome := λ A B f m,
  match m with Done a => f a | Abort => Abort | Undef => Undef end.
#[export] Instance outcome_fmap : FMap outcome := λ A B f m,
  match m with Done a => Done (f a) | Abort => Abort | Undef => Undef end.

#[export] Instance outcome_eq_dec {A} `{EqDecision A} : EqDecision (outcome A).
Proof. solve_decision. Defined.

(** [slk_assert (b)]: continue when [b] holds, abort otherwise. *)
Definition slk_assert (b : bool) : outcome () := if b then Done () else Abort.

Notation "'assert!' b ';;' k" := (slk_assert b ≫= λ _, k)
  (at level 100, b at level 50, k at level 200, right associativity,
   format "'assert!'  b  ';;' '//' k") : sl_scope.

(** The value of a result that completed. *)
Definition outcome_option {A} (m : outcome A) : option A :=
  match m with Done a => Some a | _ => None end.

Lemma bind_Done {A B} (a : A) (f : A → outcome B) : (Done a ≫= f) = f a.
Proof. done. Qed.

Lemma bind_Done_inv {A B} (m : outcome A) (f : A → outcome B) b :
  (m ≫= f) = Done b → ∃ a, m = Done a ∧ f a = Done b.
Proof. destruct m as [a| |]; simpl; [eauto|done|done]. Qed.

Lemma slk_assert_true (b : bool) : b = true → slk_assert b = Done ().
Proof. by intros ->. Qed.

Lemma slk_assert_decide (P : Prop) `{Decision P} :
  P → slk_assert (bool_decide P) = Done ().
Proof. intros HP. by rewrite bool_decide_eq_true_2. Qed.

Lemma slk_assert_bind {A} (P : Prop) `{Decision P} (k : () → outcome A) :
  P → (slk_assert (bool_decide P) ≫= k) = k ().
Proof. intros HP. by rewrite slk_assert_decide. Qed.

(** * Machine integers

    A w-bit unsigned integer is a [Z]; the wrap-around of every arithmetic
    operation the code performs at that width is written out with these. *)

Definition u8 (z : Z) : Z := z `mod` 2 ^ 8.
Definition u16 (z : Z) : Z := z `mod` 2 ^ 16.
Definition u32 (z : Z) : Z := z `mod` 2 ^ 32.
Definition u64 (z : Z) : Z := z `mod` 2 ^ 64.

Open Scope Z_scope.
Open Scope sl_scope.

(** Conversion of a value to the 32-bit two's complement [int]. *)
Definition s32 (z : Z) : Z := (z + 2 ^ 31) `mod` 2 ^ 32 - 2 ^ 31.

(** An octet. *)
Definition is_byte (b : Z) : Prop := 0 ≤ b < 256.
Abbreviation bytes_ok := (Forall is_byte).

#[export] Instance is_byte_dec b : Decision (is_byte b).
Proof. unfold is_byte. apply _. Defined.

Lemma u8_range z : 0 ≤ u8 z < 2 ^ 8.
Proof. by apply Z.mod_pos_bound. Qed.
Lemma u16_range z : 0 ≤ u16 z < 2 ^ 16.
Proof. by apply Z.mod_pos_bound. Qed.
Lemma u32_range z : 0 ≤ u32 z < 2 ^ 32.
Proof. by apply Z.mod_pos_bound. Qed.
Lemma u64_range z : 0 ≤ u64 z < 2 ^ 64.
Proof. by apply Z.mod_pos_bound. Qed.

Lemma u8_small z : 0 ≤ z < 256 → u8 z = z.
Proof. intros. apply Z.mod_small. lia. Qed.
Lemma u16_small z : 0 ≤ z < 65536 → u16 z = z.
Proof. intros. apply Z.mod_small. lia. Qed.
Lemma u32_small z : 0 ≤ z < 4294967296 → u32 z = z.
Proof. intros. apply Z.mod_small. lia. Qed.
Lemma u64_small z : 0 ≤ z < 18446744073709551616 → u64 z = z.
Proof. intros. apply Z.mod_small. lia. Qed.
Lemma s32_small z : - 2147483648 ≤ z < 2147483648 → s32 z = z.
Proof. intros. unfold s32. rewrite Z.mod_small; lia. Qed.

(** * Result codes

    A function that returns 0, or -1 with [errno] set. *)
Inductive errno_t :=
| EAGAIN | EFAULT | EINVAL | ENOMEM | EMSGSIZE | EPROTO | EHOSTUNREACH
| EFSM | ENOTSUP | EADDRINUSE | ENOENT | ECONNREFUSED | ENOTCONN | EINTR | ETERM | EPROTONOSUPPORT | EEXIST
| ENODEV | EMFILE | ENOTSOCK | EMTHREAD | ENAMETOOLONG.

#[export] Instance errno_eq_dec : EqDecision errno_t.
Proof. solve_decision. Defined.

Inductive rc_t := RcOk | RcErr (e : errno_t).

#[export] Instance rc_eq_dec : EqDecision rc_t.
Proof. solve_decision. Defined.

(** * Indexed access to arrays

    A [T *] table or a [std::vector] accessed by index.  An index outside the
    table is undefined behaviour in the source and [Undef] here. *)
Definition geti {A} (l : list A) (i : Z) : outcome A :=
  if decide (0 ≤ i) then
    match l !! Z.to_nat i with Some x => Done x | None => Undef end
  else Undef.

Definition seti {A} (l : list A) (i : Z) (x : A) : outcome (list A) :=
  if decide (0 ≤ i < Z.of_nat (length l)) then Done (<[Z.to_nat i := x]> l)
  else Undef.

Lemma geti_Some {A} (l : list A) (i : nat) x :
  l !! i = Some x → geti l (Z.of_nat i) = Done x.
Proof.
  intros H. unfold geti. rewrite decide_True by lia. by rewrite Nat2Z.id, H.
Qed.

Lemma geti_Done {A} (l : list A) i x :
  geti l i = Done x ↔ 0 ≤ i ∧ l !! Z.to_nat i = Some x.
Proof.
  unfold geti. case_decide; [|naive_solver lia].
  destruct (l !! Z.to_nat i) eqn:E; naive_solver.
Qed.

Lemma geti_in_range {A} (l : list A) i :
  0 ≤ i < Z.of_nat (length l) → ∃ x, geti l i = Done x.
Proof.
  intros Hi. destruct (lookup_lt_is_Some_2 l (Z.to_nat i)) as [x Hx]; [lia|].
  exists x. apply geti_Done. split; [lia|done].
Qed.

Lemma seti_in_range {A} (l : list A) i x :
  0 ≤ i < Z.of_nat (length l) → seti l i x = Done (<[Z.to_nat i := x]> l).
Proof. intros. unfold seti. by rewrite decide_True. Qed.

Lemma seti_Done {A} (l l' : list A) i x :
  seti l i x = Done l' → 0 ≤ i < Z.of_nat (length l) ∧ l' = <[Z.to_nat i := x]> l.
Proof. unfold seti. case_decide; naive_solver. Qed.

Lemma delete_list_insert {A} (l : list A) i x : delete i (<[i := x]> l) = delete i l.
Proof. revert i. induction l as [|y l IH]; intros [|i]; simpl; [done..|]. f_equal. apply IH. Qed.

Lemma take_take_le {A} (l : list A) n m : (n ≤ m)%nat → take n (take m l) = take n l.
Proof. intros. rewrite take_take. f_equal. lia. Qed.

(** An update exchanges the old element for the new one. *)
Lemma insert_swap {A} (l : list A) i x y : l !! i = Some x → x :: <[i := y]> l ≡ₚ y :: l.
Proof.
  intros Hx. pose proof (delete_Permutation l i x Hx) as H1.
  pose proof (delete_Permutation (<[i := y]> l) i y) as H2. rewrite delete_list_insert in H2.
  rewrite H2 by (apply list_lookup_insert_eq; by eapply lookup_lt_Some). rewrite H1 at 2.
  apply Permutation_swap.
Qed.

(** * Automation *)

Create HintDb serverlink.
Create Rewrite HintDb serverlink.

(** Run the monadic program of the goal: rewrite with the lemmas given by
    [Hint Rewrite ... : serverlink] and reduce the binds. *)
Ltac run := repeat (progress (autorewrite with serverlink; cbn [mbind outcome_bind mret outcome_ret fmap outcome_fmap])).

(** Invert a hypothesis that a chain of binds completed. *)
Ltac inv_done :=
  repeat match goal with
  | H : mbind _ _ = Done _ |- _ =>
      let a := fresh "a" in let H1 := fresh "H" in
      apply bind_Done_inv in H as (a & H1 & H)
  | H : slk_assert ?b = Done _ |- _ =>
      let E := fresh "Hassert" in destruct b eqn:E; [clear H|discriminate H]
  | H : mret _ = Done _ |- _ => injection H as H
  | H : Done _ = Done _ |- _ => injection H as H
  | H : Abort = Done _ |- _ => discriminate H
  | H : Undef = Done _ |- _ => discriminate H
  end; simplify_eq.

(** Discharge the outermost assertion of the goal with [tac]. *)
Ltac assert_ok_by tac :=
  match goal with
  | |- context [slk_assert (bool_decide ?P) ≫= ?k] =>
      rewrite (slk_assert_bind P k) by tac
  end.
Tactic Notation "assert_ok" := assert_ok_by lia.
Tactic Notation "assert_ok" "by" tactic3(tac) := assert_ok_by tac.

(** Decide the comparisons the code makes ([if (c < min)] and the like). *)
Ltac zcases :=
  repeat match goal with
  | |- context [decide ?P] => destruct (decide P)
  | |- context [bool_decide ?P] => destruct (bool_decide_reflect P)
  | |- context [Z.ltb ?a ?b] => destruct (Z.ltb_spec a b)
  | |- context [Z.leb ?a ?b] => destruct (Z.leb_spec a b)
  | |- context [Z.eqb ?a ?b] => destruct (Z.eqb_spec a b)
  end.

#[export] Hint Rewrite @slk_assert_true using (first [done | by zcases; lia]) : serverlink.
