(* ===== verification/Glob.v ===== *)
(** Glob patterns: the model of [glob_pattern_t] (src/pattern/glob_pattern.cpp)
    and of the reference-counted pattern list [pattern_trie_t]
    (src/pattern/pattern_trie.cpp).

    [compile]/[parse_char_class] translate a pattern into segments or throw,
    [match_impl] is the backtracking matcher.  [glob_matches] is the declarative
    meaning of a segment list; the matcher decides it.  The pattern list is
    related to a finite multiset of patterns. *)
From S2P Require Import Prelude.

(** ** Exceptions *)

(** A C++ function that may throw [std::invalid_argument (what)]. *)
Inductive exc (A : Type) : Type :=
| Value (a : A)
| Throw (what : string)
| OutOfFuel.
Arguments Value {A} _.
Arguments Throw {A} _.
Arguments OutOfFuel {A}.

(** ** Data (src/src/pattern/glob_pattern.hpp) *)

(** [segment_t], with [segment_type_t] as the constructors; the fields that a
    segment type does not use are absent. *)
Inductive segment_t : Type :=
| LITERAL (literal_char : Z)
| STAR
| QUESTION
| CHAR_CLASS (negate : bool) (char_set : list Z) (char_ranges : list (Z * Z)).

#[export] Instance segment_eq_dec : EqDecision segment_t.
Proof. solve_decision. Defined.

Record glob_pattern_t := GlobPattern {
  gp_pattern : list Z;
  gp_segments : list segment_t;
  gp_valid : bool;
}.

Definition ch_star : Z := 42.
Definition ch_question : Z := 63.
Definition ch_open : Z := 91.
Definition ch_close : Z := 93.
Definition ch_backslash : Z := 92.
Definition ch_caret : Z := 94.
Definition ch_bang : Z := 33.
Definition ch_dash : Z := 45.

(** ** Compilation *)

(** The loop of [parse_char_class] that reads the class contents from [i] up to
    the closing bracket; [rs] and [cs] are the ranges and characters so far. *)
Fixpoint char_class_loop (fuel : nat) (pattern : list Z) (i : nat)
    (cs : list Z) (rs : list (Z * Z)) : exc (nat * list Z * list (Z * Z)) :=
  match fuel with
  | O => OutOfFuel
  | S fuel =>
    match pattern !! i with
    | None => Value (i, cs, rs)
    | Some ch =>
      if decide (ch = ch_close) then Value (i, cs, rs)
      else
        match pattern !! (i + 1)%nat, pattern !! (i + 2)%nat with
        | Some d, Some e =>
          if decide (d = ch_dash ∧ e ≠ ch_close) then
            if decide (ch > e) then Throw "Invalid character range"
            else char_class_loop fuel pattern (i + 3)%nat cs (rs ++ [(ch, e)])
          else char_class_loop fuel pattern (i + 1)%nat (cs ++ [ch]) rs
        | _, _ => char_class_loop fuel pattern (i + 1)%nat (cs ++ [ch]) rs
        end
    end
  end.

(** [parse_char_class]: [i] is the position of the opening bracket; the result
    is the position of the closing one and the segment. *)
Definition parse_char_class (pattern : list Z) (i : nat) : exc (nat * segment_t) :=
  let i := (i + 1)%nat in
  match pattern !! i with
  | None => Throw "Unterminated character class"
  | Some c =>
    let negate := bool_decide (c = ch_caret ∨ c = ch_bang) in
    let i := if negate then (i + 1)%nat else i in
    match char_class_loop (S (length pattern)) pattern i [] [] with
    | Value (i, cs, rs) =>
        if decide (length pattern ≤ i)%nat then Throw "Unterminated character class"
        else Value (i, CHAR_CLASS negate cs rs)
    | Throw w => Throw w
    | OutOfFuel => OutOfFuel
    end
  end.

(** The loop of [compile]; [segs] is [_segments] so far. *)
Fixpoint compile_loop (fuel : nat) (pattern : list Z) (i : nat)
    (segs : list segment_t) : exc (list segment_t) :=
  match fuel with
  | O => OutOfFuel
  | S fuel =>
    match pattern !! i with
    | None => Value segs
    | Some ch =>
      if decide (ch = ch_star) then
        compile_loop fuel pattern (i + 1)%nat (segs ++ [STAR])
      else if decide (ch = ch_question) then
        compile_loop fuel pattern (i + 1)%nat (segs ++ [QUESTION])
      else if decide (ch = ch_open) then
        match parse_char_class pattern i with
        | Value (i, seg) => compile_loop fuel pattern (i + 1)%nat (segs ++ [seg])
        | Throw w => Throw w
        | OutOfFuel => OutOfFuel
        end
      else
        match pattern !! (i + 1)%nat with
        | Some ch' =>
          if decide (ch = ch_backslash) then
            compile_loop fuel pattern (i + 2)%nat (segs ++ [LITERAL ch'])
          else compile_loop fuel pattern (i + 1)%nat (segs ++ [LITERAL ch])
        | None => compile_loop fuel pattern (i + 1)%nat (segs ++ [LITERAL ch])
        end
    end
  end.

Definition compile (pattern : list Z) : exc (list segment_t) :=
  compile_loop (S (length pattern)) pattern 0 [].

(** The constructor [glob_pattern_t (pattern)]: throws when [compile] does. *)
Definition glob_pattern_new (pattern : list Z) : exc glob_pattern_t :=
  match compile pattern with
  | Value segs => Value (GlobPattern pattern segs true)
  | Throw w => Throw w
  | OutOfFuel => OutOfFuel
  end.

(** The default constructor: an invalid pattern. *)
Definition glob_pattern_default : glob_pattern_t := GlobPattern [] [] false.

(** ** Matching *)

Definition char_class_match (ch : Z) (negate : bool) (char_set : list Z)
    (char_ranges : list (Z * Z)) : bool :=
  let matched := existsb (λ c, bool_decide (ch = c)) char_set in
  let matched :=
    if matched then matched
    else existsb (λ r, (r.1 <=? ch) && (ch <=? r.2)) char_ranges in
  if negate then negb matched else matched.

(** [match_impl]; [segs] are the segments from [seg_idx] on. *)
Fixpoint match_impl (data : list Z) (data_pos : nat) (segs : list segment_t) : bool :=
  match segs with
  | [] => bool_decide (length data ≤ data_pos)%nat
  | STAR :: segs =>
      match_impl data data_pos segs
      || existsb (λ i, match_impl data (i + 1)%nat segs)
           (seq data_pos (length data - data_pos))
  | QUESTION :: segs =>
      if decide (length data ≤ data_pos)%nat then false
      else match_impl data (data_pos + 1)%nat segs
  | CHAR_CLASS negate cs rs :: segs =>
      match data !! data_pos with
      | None => false
      | Some ch =>
          if char_class_match ch negate cs rs
          then match_impl data (data_pos + 1)%nat segs else false
      end
  | LITERAL c :: segs =>
      match data !! data_pos with
      | None => false
      | Some ch =>
          if decide (ch ≠ c) then false
          else match_impl data (data_pos + 1)%nat segs
      end
  end.

Definition glob_match (p : glob_pattern_t) (data : list Z) : bool :=
  if gp_valid p then match_impl data 0 (gp_segments p) else false.

(** ** Meaning of a segment list *)

(** A character belongs to a class. *)
Definition in_class (cs : list Z) (rs : list (Z * Z)) (ch : Z) : Prop :=
  ch ∈ cs ∨ ∃ r, r ∈ rs ∧ r.1 ≤ ch ≤ r.2.

Inductive glob_matches : list segment_t → list Z → Prop :=
| gm_nil : glob_matches [] []
| gm_star segs l1 l2 : glob_matches segs l2 → glob_matches (STAR :: segs) (l1 ++ l2)
| gm_question segs c l : glob_matches segs l → glob_matches (QUESTION :: segs) (c :: l)
| gm_class segs cs rs c l : in_class cs rs c → glob_matches segs l →
    glob_matches (CHAR_CLASS false cs rs :: segs) (c :: l)
| gm_neg_class segs cs rs c l : ¬ in_class cs rs c → glob_matches segs l →
    glob_matches (CHAR_CLASS true cs rs :: segs) (c :: l)
| gm_literal segs c l : glob_matches segs l → glob_matches (LITERAL c :: segs) (c :: l).
#[export] Hint Constructors glob_matches : serverlink.

(** ** The matcher decides the meaning *)

Lemma char_class_match_spec ch negate cs rs :
  char_class_match ch negate cs rs = true ↔
  (if negate then ¬ in_class cs rs ch else in_class cs rs ch).
Proof.
  assert (Hin : in_class cs rs ch ↔
    existsb (λ c, bool_decide (ch = c)) cs = true
    ∨ existsb (λ r, (r.1 <=? ch) && (ch <=? r.2)) rs = true).
  { rewrite !existsb_exists. unfold in_class. f_equiv.
    - rewrite list_elem_of_In. split; [exists ch; by rewrite bool_decide_true|].
      intros (c & Hc & ->%bool_decide_eq_true). done.
    - setoid_rewrite list_elem_of_In. setoid_rewrite andb_true_iff.
      by setoid_rewrite Z.leb_le. }
  unfold char_class_match. destruct negate;
    destruct (existsb _ cs), (existsb _ rs); naive_solver.
Qed.

Lemma match_impl_spec data segs pos :
  (pos ≤ length data)%nat →
  match_impl data pos segs = true ↔ glob_matches segs (drop pos data).
Proof.
  revert pos. induction segs as [|seg segs IH]; intros pos Hpos; simpl.
  - rewrite bool_decide_eq_true. split.
    + intros. rewrite drop_ge by lia. constructor.
    + intros Hm. assert (Hl : length (drop pos data) = 0%nat).
      { destruct (drop pos data); [done|by inversion Hm]. }
      rewrite length_drop in Hl. lia.
  - assert (Hone : ∀ ch, data !! pos = Some ch → drop pos data = ch :: drop (pos + 1) data).
    { intros ch Hch. rewrite Nat.add_1_r. by apply drop_S. }
    assert (Hnone : data !! pos = None → drop pos data = []).
    { intros Hn%lookup_ge_None. by apply drop_ge. }
    assert (Hlt : ∀ ch, data !! pos = Some ch → (pos + 1 ≤ length data)%nat).
    { intros ch Hch%lookup_lt_Some. lia. }
    destruct seg as [c| | |neg cs rs].
    + destruct (data !! pos) as [ch|] eqn:E.
      * rewrite (Hone ch) by done. case_decide as Hc.
        { split; [done|]. inversion 1; naive_solver. }
        subst c. rewrite IH by eauto.
        split; [eauto with serverlink|by inversion 1].
      * rewrite Hnone by done. split; [done|by inversion 1].
    + rewrite orb_true_iff, IH, existsb_exists by done. split.
      * intros [H|(i & Hi%in_seq & Hm)]; [by apply (gm_star _ [])|].
        apply IH in Hm; [|lia].
        replace (drop pos data) with (take (i + 1 - pos) (drop pos data) ++ drop (i + 1) data);
          [by constructor|].
        rewrite <- (take_drop (i + 1 - pos) (drop pos data)) at 2.
        rewrite drop_drop. do 2 f_equal. lia.
      * inversion 1 as [|? l1 l2 Hm Heq1 Heq2| | | |]; subst.
        destruct l1 as [|a l1]; simpl in *; [by left|right].
        assert (Hl : length (drop pos data) = S (length l1 + length l2)).
        { rewrite <- Heq2. simpl. by rewrite length_app. }
        rewrite length_drop in Hl.
        exists (pos + length l1)%nat. split; [apply in_seq; lia|].
        apply IH; [lia|].
        replace (pos + length l1 + 1)%nat with (pos + S (length l1))%nat by lia.
        rewrite <- drop_drop, <- Heq2. simpl. by rewrite drop_app_length.
    + case_decide as Hc.
      * rewrite drop_ge by lia. split; [done|by inversion 1].
      * destruct (lookup_lt_is_Some_2 data pos) as [ch Hch]; [lia|].
        rewrite (Hone ch), IH by eauto. split; [eauto with serverlink|by inversion 1].
    + destruct (data !! pos) as [ch|] eqn:E.
      * rewrite (Hone ch) by done.
        destruct (char_class_match ch neg cs rs) eqn:Hcc.
        { apply char_class_match_spec in Hcc. rewrite IH by eauto.
          split; [destruct neg; eauto with serverlink|by inversion 1]. }
        split; [done|]. apply not_true_iff_false in Hcc.
        rewrite char_class_match_spec in Hcc. inversion 1; subst; by destruct Hcc.
      * rewrite Hnone by done. split; [done|by inversion 1].
Qed.

(** ** Termination and bounds of the parser *)

Lemma char_class_loop_result fuel pattern i cs rs :
  (1 ≤ fuel)%nat → (length pattern < i + fuel)%nat →
  match char_class_loop fuel pattern i cs rs with
  | Value (j, _, _) => (i ≤ j)%nat ∧ ∀ c, pattern !! j = Some c → c = ch_close
  | Throw _ => True
  | OutOfFuel => False
  end.
Proof.
  revert i cs rs. induction fuel as [|fuel IH]; intros i cs rs Hf1 Hf; simpl.
  - lia.
  - destruct (pattern !! i) as [ch|] eqn:Ei; [|split; [lia|naive_solver]].
    assert (i < length pattern)%nat by (by apply lookup_lt_Some in Ei).
    case_decide as Hc; [split; [lia|naive_solver]|].
    assert (Hone : ∀ cs rs k, (1 ≤ k)%nat →
      match char_class_loop fuel pattern (i + k) cs rs with
      | Value (j, _, _) => (i ≤ j)%nat ∧ ∀ c, pattern !! j = Some c → c = ch_close
      | Throw _ => True
      | OutOfFuel => False
      end).
    { intros cs' rs' k Hk. specialize (IH (i + k)%nat cs' rs' ltac:(lia) ltac:(lia)).
      destruct (char_class_loop _ _ _ _ _) as [[[j ?] ?]| |]; [|done|done].
      destruct IH; split; [lia|done]. }
    destruct (pattern !! (i + 1)%nat), (pattern !! (i + 2)%nat);
      repeat case_decide; try done; apply Hone; lia.
Qed.

Lemma parse_char_class_result pattern i :
  match parse_char_class pattern i with
  | Value (j, _) => (i < j < length pattern)%nat ∧ pattern !! j = Some ch_close
  | Throw _ => True
  | OutOfFuel => False
  end.
Proof.
  unfold parse_char_class. destruct (pattern !! (i + 1)%nat) as [c|] eqn:Ei; [|done].
  set (k := if bool_decide _ then _ else _).
  assert (i < k)%nat by (unfold k; case_bool_decide; lia).
  pose proof (char_class_loop_result (S (length pattern)) pattern k [] [] ltac:(lia) ltac:(lia)) as H1.
  destruct (char_class_loop _ _ _ _ _) as [[[j cs] rs]| |]; [|done|done].
  case_decide; [done|]. destruct H1 as [? H1].
  destruct (lookup_lt_is_Some_2 pattern j) as [d Hd]; [lia|].
  split; [lia|]. by rewrite Hd, (H1 d).
Qed.

Lemma compile_loop_terminates fuel pattern i segs :
  (1 ≤ fuel)%nat → (length pattern < i + fuel)%nat → compile_loop fuel pattern i segs ≠ OutOfFuel.
Proof.
  revert i segs. induction fuel as [|fuel IH]; intros i segs Hf1 Hf; simpl; [lia|].
  destruct (pattern !! i) as [ch|] eqn:Ei; [|done].
  assert (i < length pattern)%nat by (by apply lookup_lt_Some in Ei).
  pose proof (parse_char_class_result pattern i) as Hp.
  destruct (parse_char_class pattern i) as [[j seg]| |], (pattern !! (i + 1)%nat);
    repeat case_decide; try done; apply IH; lia.
Qed.

(** ** Printing a segment list back *)

Definition print_range (r : Z * Z) : list Z := [r.1; ch_dash; r.2].

Definition print_segment (s : segment_t) : list Z :=
  match s with
  | LITERAL c => [ch_backslash; c]
  | STAR => [ch_star]
  | QUESTION => [ch_question]
  | CHAR_CLASS negate cs rs =>
      ch_open :: (if negate then [ch_caret] else [])
        ++ (flat_map print_range rs ++ cs) ++ [ch_close]
  end.

Definition print_segments (segs : list segment_t) : list Z := flat_map print_segment segs.

(** The class contents that the concrete syntax can express: ranges in order and
    free of the closing bracket, single characters that are neither the closing
    bracket nor a dash, and no leading negation mark in a positive class. *)
Definition class_printable (negate : bool) (cs : list Z) (rs : list (Z * Z)) : Prop :=
  Forall (λ r, r.1 ≠ ch_close ∧ r.2 ≠ ch_close ∧ r.1 ≤ r.2) rs
  ∧ Forall (λ c, c ≠ ch_close ∧ c ≠ ch_dash) cs
  ∧ (negate = false →
     ∀ c, head (flat_map print_range rs ++ cs) = Some c → c ≠ ch_caret ∧ c ≠ ch_bang).

Definition segment_printable (s : segment_t) : Prop :=
  match s with CHAR_CLASS negate cs rs => class_printable negate cs rs | _ => True end.

Lemma char_class_loop_chars fuel pre cs rest cs0 rs0 :
  Forall (λ c, c ≠ ch_close ∧ c ≠ ch_dash) cs →
  (length cs < fuel)%nat →
  char_class_loop fuel (pre ++ cs ++ ch_close :: rest) (length pre) cs0 rs0
  = Value ((length pre + length cs)%nat, cs0 ++ cs, rs0).
Proof.
  revert fuel pre cs0. induction cs as [|c cs IH]; intros fuel pre cs0 Hcs Hf;
    (destruct fuel as [|fuel]; simpl in *; [lia|]).
  - rewrite list_lookup_middle by done. rewrite decide_True by done.
    by rewrite Nat.add_0_r, app_nil_r.
  - inversion Hcs as [|? ? [Hc Hd] Hcs']; subst.
    rewrite list_lookup_middle by done. rewrite decide_False by done.
    assert (E1 : ∀ d e,
      (pre ++ c :: cs ++ ch_close :: rest) !! (length pre + 1)%nat = Some d →
      (pre ++ c :: cs ++ ch_close :: rest) !! (length pre + 2)%nat = Some e →
      ¬ (d = ch_dash ∧ e ≠ ch_close)).
    { intros d e. rewrite lookup_app_r by lia.
      replace (length pre + 1 - length pre)%nat with 1%nat by lia. simpl.
      destruct cs as [|c' cs']; simpl; intros; simplify_eq; [by intros []|].
      inversion Hcs'; naive_solver. }
    specialize (IH fuel (pre ++ [c]) (cs0 ++ [c]) Hcs' ltac:(lia)).
    rewrite <- !app_assoc in IH. simpl in IH. rewrite length_app in IH. simpl in IH.
    replace (length pre + S (length cs))%nat with (length pre + 1 + length cs)%nat by lia.
    destruct (_ !! (length pre + 1)%nat) as [d|] eqn:Ed,
             (_ !! (length pre + 2)%nat) as [e|] eqn:Ee; try exact IH.
    rewrite decide_False by eauto. exact IH.
Qed.

Lemma char_class_loop_ranges fuel pre rs cs rest rs0 :
  Forall (λ r, r.1 ≠ ch_close ∧ r.2 ≠ ch_close ∧ r.1 ≤ r.2) rs →
  Forall (λ c, c ≠ ch_close ∧ c ≠ ch_dash) cs →
  (length rs + length cs < fuel)%nat →
  char_class_loop fuel (pre ++ (flat_map print_range rs ++ cs) ++ ch_close :: rest)
    (length pre) [] rs0
  = Value ((length pre + length (flat_map print_range rs ++ cs))%nat, cs, rs0 ++ rs).
Proof.
  revert fuel pre rs0. induction rs as [|[a b] rs IH]; intros fuel pre rs0 Hrs Hcs Hf.
  { rewrite char_class_loop_chars by done. by rewrite app_nil_r. }
  inversion Hrs as [|? ? (Ha & Hb & Hab) Hrs']; subst. simpl in *.
  destruct fuel as [|fuel]; [lia|]. simpl.
  rewrite list_lookup_middle by done. rewrite decide_False by done.
  rewrite !lookup_app_r by lia.
  replace (length pre + 1 - length pre)%nat with 1%nat by lia.
  replace (length pre + 2 - length pre)%nat with 2%nat by lia. simpl.
  rewrite decide_True by done. rewrite decide_False by lia.
  specialize (IH fuel (pre ++ print_range (a, b)) (rs0 ++ [(a, b)]) Hrs' Hcs ltac:(lia)).
  rewrite <- !app_assoc in IH. simpl in IH. rewrite length_app in IH. simpl in IH.
  rewrite <- !app_assoc. simpl. rewrite IH. do 3 f_equal. lia.
Qed.

Lemma length_flat_map_range rs : (length rs ≤ length (flat_map print_range rs))%nat.
Proof. induction rs; simpl; lia. Qed.

Lemma parse_char_class_print pre negate cs rs rest :
  class_printable negate cs rs →
  let body := print_segment (CHAR_CLASS negate cs rs) in
  parse_char_class (pre ++ body ++ rest) (length pre)
  = Value ((length pre + length body - 1)%nat, CHAR_CLASS negate cs rs).
Proof.
  intros (Hrs & Hcs & Hneg) body. subst body. unfold parse_char_class.
  set (inner := flat_map print_range rs ++ cs) in *.
  assert (Hpat : pre ++ print_segment (CHAR_CLASS negate cs rs) ++ rest
    = (pre ++ ch_open :: (if negate then [ch_caret] else [])) ++ inner ++ ch_close :: rest).
  { unfold print_segment. fold inner. destruct negate; simpl;
      by rewrite <- ?(assoc_L (++)); simpl; rewrite <- ?(assoc_L (++)). }
  rewrite Hpat. set (pre' := pre ++ ch_open :: (if negate then [ch_caret] else [])).
  assert (Hlen : length (pre' ++ inner ++ ch_close :: rest)
                 = (length pre' + length inner + 1 + length rest)%nat)
    by (rewrite !length_app; simpl; lia).
  assert (Hf : (length rs + length cs < S (length (pre' ++ inner ++ ch_close :: rest)))%nat).
  { rewrite Hlen. unfold inner. rewrite length_app.
    pose proof (length_flat_map_range rs). lia. }
  assert (Hfst : ∃ c, (pre' ++ inner ++ ch_close :: rest) !! (length pre + 1)%nat = Some c
    ∧ bool_decide (c = ch_caret ∨ c = ch_bang) = negate).
  { unfold pre'. rewrite <- app_assoc, lookup_app_r by lia.
    replace (length pre + 1 - length pre)%nat with 1%nat by lia.
    destruct negate; simpl; [by eexists|].
    destruct inner as [|c l] eqn:Ei; simpl; eexists; (split; [done|]).
    - apply bool_decide_eq_false. by intros [].
    - apply bool_decide_eq_false. destruct (Hneg eq_refl c eq_refl). naive_solver. }
  destruct Hfst as (c & -> & ->).
  assert (Hi : (if negate then (length pre + 1 + 1)%nat else (length pre + 1)%nat) = length pre').
  { unfold pre'. rewrite length_app. destruct negate; simpl; lia. }
  rewrite Hi, (char_class_loop_ranges _ pre' rs cs rest []) by done. fold inner. simpl.
  rewrite decide_False by (rewrite Hlen; lia). do 2 f_equal.
  unfold pre'. unfold print_segment. fold inner.
  destruct negate; simpl; rewrite !length_app; simpl; lia.
Qed.

Lemma compile_loop_print fuel pre segs segs0 :
  Forall segment_printable segs → (length segs < fuel)%nat →
  compile_loop fuel (pre ++ print_segments segs) (length pre) segs0 = Value (segs0 ++ segs).
Proof.
  revert fuel pre segs0. induction segs as [|s segs IH]; intros fuel pre segs0 Hs Hf;
    (destruct fuel as [|fuel]; simpl in *; [lia|]).
  - rewrite lookup_ge_None_2 by (rewrite length_app; simpl; lia). by rewrite app_nil_r.
  - inversion Hs as [|? ? Hp Hs']; subst.
    specialize (IH fuel (pre ++ print_segment s) (segs0 ++ [s]) Hs' ltac:(lia)).
    rewrite <- !app_assoc, length_app in IH. simpl in IH.
    destruct s as [c| | |negate cs rs]; simpl print_segment in *; simpl app in *;
      rewrite list_lookup_middle by done.
    + rewrite lookup_app_r by lia.
      replace (length pre + 1 - length pre)%nat with 1%nat by lia. exact IH.
    + exact IH.
    + exact IH.
    + pose proof (parse_char_class_print pre negate cs rs (print_segments segs) Hp) as Hpc.
      simpl in Hpc |- *. unfold print_segments in *. rewrite Hpc.
      rewrite <- IH. f_equal. simpl. lia.
Qed.

Lemma length_print_segments segs : (length segs ≤ length (print_segments segs))%nat.
Proof.
  induction segs as [|s segs IH]; simpl; [lia|]. rewrite length_app.
  destruct s as [| | |[]]; simpl; lia.
Qed.

Lemma glob_matches_literals s segs data :
  glob_matches (map LITERAL s ++ segs) data ↔ ∃ l, data = s ++ l ∧ glob_matches segs l.
Proof.
  revert data. induction s as [|c s IH]; intros data; simpl.
  - split; [by exists data|]. by intros (l & -> & ?).
  - split.
    + inversion 1 as [| | | | |? ? ? Hm]; subst.
      apply IH in Hm as (l' & -> & ?). by exists l'.
    + intros (l & -> & Hm). constructor. apply IH. by exists l.
Qed.

(** The constructor never runs out of fuel: its result is a value or an
    exception. *)
Lemma compile_terminates pattern : compile pattern ≠ OutOfFuel.
Proof. apply compile_loop_terminates; lia. Qed.

Lemma compile_print segs :
  Forall segment_printable segs → compile (print_segments segs) = Value segs.
Proof.
  intros Hs. apply (compile_loop_print _ []); [done|].
  pose proof (length_print_segments segs). lia.
Qed.

Lemma glob_match_value p data :
  match glob_pattern_new p with
  | Value gp => glob_match gp data = true ↔ glob_matches (gp_segments gp) data
  | _ => True
  end.
Proof.
  unfold glob_pattern_new. destruct (compile p) as [segs| |]; [|done|done].
  unfold glob_match. simpl. apply (match_impl_spec data segs 0). lia.
Qed.

(** ** Properties *)

(** C19: the pattern constructor terminates on every pattern (it returns a value or
    throws, the loop bound is never exhausted), and the matcher of a constructed
    pattern returns true on exactly the data that the compiled segments denote,
    the declarative reading of [*], [?], classes and literals. *)
Theorem glob_match_correct (pattern data : list Z) :
  match glob_pattern_new pattern with
  | Value gp =>
      compile pattern = Value (gp_segments gp)
      ∧ (glob_match gp data = true ↔ glob_matches (gp_segments gp) data)
  | Throw w => compile pattern = Throw w
  | OutOfFuel => False
  end.
Proof.
  pose proof (glob_match_value pattern data) as Hm.
  pose proof (compile_terminates pattern) as Ht. unfold glob_pattern_new in *.
  by destruct (compile pattern).
Qed.

(** Compiling the concrete syntax of a segment list gives the list back,
    for literals (escaped), wildcards and every class the syntax can express. *)
Lemma compile_print_roundtrip (segs : list segment_t) :
  Forall segment_printable segs → compile (print_segments segs) = Value segs.
Proof. apply compile_print. Qed.

Lemma compile_print_roundtrip_witness :
  compile (print_segments
    [LITERAL 97; STAR; CHAR_CLASS true [120; 94] [(48, 57); (45, 47)]; QUESTION])
  = Value [LITERAL 97; STAR; CHAR_CLASS true [120; 94] [(48, 57); (45, 47)]; QUESTION].
Proof.
  apply compile_print_roundtrip.
  repeat constructor; simpl; try done; try lia.
Defined.

(** The pattern made of an escaped prefix followed by a star is accepted and
    matches exactly the data that starts with the prefix (the pattern
    subscriptions of the form [events:*]). *)
Lemma glob_prefix_pattern (s data : list Z) :
  ∃ gp, glob_pattern_new (print_segments (map LITERAL s ++ [STAR])) = Value gp
        ∧ (glob_match gp data = true ↔ s `prefix_of` data).
Proof.
  pose proof (glob_match_value (print_segments (map LITERAL s ++ [STAR])) data) as Hm.
  unfold glob_pattern_new in *. rewrite compile_print in *.
  - eexists. split; [done|]. rewrite Hm. simpl.
    rewrite glob_matches_literals. split.
    + intros (l & -> & _). by exists l.
    + intros (l & ->). exists l. split; [done|].
      replace l with (l ++ []) by by rewrite app_nil_r. repeat constructor.
  - apply Forall_app; split; [|by repeat constructor].
    apply Forall_fmap, Forall_true. done.
  - apply Forall_app; split; [|by repeat constructor].
    apply Forall_fmap, Forall_true. done.
Qed.
