(* ===== verification/PatternTrie.v ===== *)
(** The reference-counted list of glob patterns: the model of [pattern_trie_t]
    (src/pattern/pattern_trie.cpp).  The operations run under [_mutex], so each
    is one atomic step on the list.  [pt_count] reads the list as a multiset of
    patterns; the operations are specified by what they do to it. *)
From S2P Require Import Prelude Glob.

Record pattern_entry_t := PatternEntry {
  pattern_str : list Z;
  matcher : glob_pattern_t;
  refcount : Z;  (* uint32_t *)
}.

(** [_patterns]. *)
Abbreviation pattern_trie_t := (list pattern_entry_t).

(** The constructor of an entry; throws when the pattern does not compile. *)
Definition pattern_entry_new (pat : list Z) : exc pattern_entry_t :=
  match glob_pattern_new pat with
  | Value gp => Value (PatternEntry pat gp 1)
  | Throw w => Throw w
  | OutOfFuel => OutOfFuel
  end.

(** [find_pattern]: the position of the entry, [None] for [end ()]. *)
Definition find_pattern (t : pattern_trie_t) (pattern : list Z) : option nat :=
  fst <$> list_find (λ e, pattern_str e = pattern) t.

Definition entry_set_refcount (n : Z) (e : pattern_entry_t) : pattern_entry_t :=
  PatternEntry (pattern_str e) (matcher e) n.

Definition pattern_trie_add (t : pattern_trie_t) (pattern : list Z) : bool * pattern_trie_t :=
  match find_pattern t pattern with
  | Some it => (false, alter (λ e, entry_set_refcount (u32 (refcount e + 1)) e) it t)
  | None =>
      match pattern_entry_new pattern with
      | Value e => (true, t ++ [e])
      | _ => (false, t)
      end
  end.

Definition pattern_trie_rm (t : pattern_trie_t) (pattern : list Z) : bool * pattern_trie_t :=
  match find_pattern t pattern with
  | None => (false, t)
  | Some it =>
      let t := alter (λ e, entry_set_refcount (u32 (refcount e - 1)) e) it t in
      match t !! it with
      | Some e => if decide (refcount e = 0) then (true, delete it t) else (true, t)
      | None => (true, t)
      end
  end.

Definition pattern_trie_check (t : pattern_trie_t) (data : list Z) : bool :=
  existsb (λ e, glob_match (matcher e) data) t.

Definition num_patterns (t : pattern_trie_t) : Z := Z.of_nat (length t).

(** [apply]: the patterns the callback is called with, in order. *)
Definition pattern_trie_apply (t : pattern_trie_t) : list (list Z) := map pattern_str t.

(** ** The multiset of patterns *)

Fixpoint pt_count (t : pattern_trie_t) (p : list Z) : Z :=
  match t with
  | [] => 0
  | e :: t => if decide (pattern_str e = p) then refcount e else pt_count t p
  end.

(** An entry is well formed: counted at least once and carrying the compiled
    form of its own pattern. *)
Definition entry_wf (e : pattern_entry_t) : Prop :=
  1 ≤ refcount e < 2 ^ 32 ∧ glob_pattern_new (pattern_str e) = Value (matcher e).

Definition pt_wf (t : pattern_trie_t) : Prop :=
  NoDup (map pattern_str t) ∧ Forall entry_wf t.

(** The pattern compiles. *)
Definition pattern_valid (p : list Z) : bool :=
  match glob_pattern_new p with Value _ => true | _ => false end.

Lemma find_pattern_Some t p i :
  find_pattern t p = Some i →
  ∃ e l1 l2, t = l1 ++ e :: l2 ∧ length l1 = i ∧ pattern_str e = p
             ∧ Forall (λ e, pattern_str e ≠ p) l1.
Proof.
  unfold find_pattern. destruct (list_find _ t) as [[j e]|] eqn:E; [|done].
  simpl. intros [= ->]. apply list_find_Some in E as (Hi & He & Hl).
  exists e, (take i t), (drop (S i) t).
  rewrite length_take, min_l by (apply lookup_lt_Some in Hi; lia).
  repeat split; [by rewrite take_drop_middle|done|].
  apply Forall_lookup. intros k e' Hk. apply lookup_take_Some in Hk as [Hk ?].
  by apply (Hl k).
Qed.

Lemma pt_count_absent t p : p ∉ map pattern_str t → pt_count t p = 0.
Proof.
  induction t as [|e t IH]; simpl; [done|]. intros [? ?]%not_elem_of_cons.
  rewrite decide_False by done. auto.
Qed.

Lemma find_pattern_None t p :
  find_pattern t p = None → p ∉ map pattern_str t.
Proof.
  unfold find_pattern. destruct (list_find _ t) as [[]|] eqn:E; [done|].
  intros _. apply list_find_None in E.
  intros (e & -> & He)%list_elem_of_fmap. rewrite Forall_forall in E. by apply (E e).
Qed.

(** The count in a list that is split at the entry for [p]. *)
Lemma pt_count_mid l1 e l2 q :
  NoDup (map pattern_str (l1 ++ e :: l2)) →
  pt_count (l1 ++ e :: l2) q =
    if decide (pattern_str e = q) then refcount e else pt_count (l1 ++ l2) q.
Proof.
  induction l1 as [|e1 l1 IH]; simpl; [done|].
  intros [Hni Hnd]%NoDup_cons. rewrite IH by done.
  case_decide as H1; [|done]. rewrite decide_False; [done|].
  intros H2. apply Hni. rewrite map_app. set_solver.
Qed.

Lemma pt_count_app t e q :
  NoDup (map pattern_str (t ++ [e])) →
  pt_count (t ++ [e]) q = if decide (pattern_str e = q) then refcount e else pt_count t q.
Proof. intros H. rewrite (pt_count_mid t e [] q H). by rewrite app_nil_r. Qed.

Lemma pt_count_nonneg t p : pt_wf t → 0 ≤ pt_count t p < 2 ^ 32.
Proof.
  intros [_ Hf]. induction Hf as [|e t [? _] Hf IH]; simpl; [lia|]. case_decide; lia.
Qed.

(** Replacing the entry for [p] by one with another count. *)
Lemma pt_update_mid l1 e l2 n :
  pt_wf (l1 ++ e :: l2) → 1 ≤ n < 2 ^ 32 →
  pt_wf (l1 ++ entry_set_refcount n e :: l2)
  ∧ ∀ q, pt_count (l1 ++ entry_set_refcount n e :: l2) q =
         if decide (pattern_str e = q) then n else pt_count (l1 ++ e :: l2) q.
Proof.
  intros [Hnd Hf] Hn.
  assert (Hnd' : NoDup (map pattern_str (l1 ++ entry_set_refcount n e :: l2)))
    by (by rewrite map_app in *).
  split.
  - split; [done|]. apply Forall_app in Hf as [? Hf2].
    inversion Hf2 as [|? ? [_ ?] ?]; subst. apply Forall_app; split; [done|].
    by constructor.
  - intros q. rewrite !pt_count_mid by done. simpl. by case_decide.
Qed.

Lemma pt_delete_mid l1 e l2 :
  pt_wf (l1 ++ e :: l2) →
  pt_wf (l1 ++ l2)
  ∧ ∀ q, pt_count (l1 ++ l2) q =
         if decide (pattern_str e = q) then 0 else pt_count (l1 ++ e :: l2) q.
Proof.
  intros [Hnd Hf]. split.
  - split.
    + rewrite map_app in *. simpl in Hnd.
      eapply sublist_NoDup; [exact Hnd|]. apply sublist_app; [done|by constructor].
    + apply Forall_app in Hf as [? Hf2]. inversion Hf2; subst. by apply Forall_app.
  - intros q. rewrite (pt_count_mid l1 e l2) by done. case_decide as Hq; [|done].
    subst q. apply pt_count_absent. rewrite map_app in *. simpl in Hnd.
    apply NoDup_app in Hnd as (_ & Hdis & [Hni _]%NoDup_cons).
    rewrite elem_of_app. intros [H|H]; [|done]. apply (Hdis _ H). set_solver.
Qed.

Lemma pt_count_present l1 e l2 p :
  pt_wf (l1 ++ e :: l2) → pattern_str e = p →
  pt_count (l1 ++ e :: l2) p = refcount e ∧ 1 ≤ refcount e < 2 ^ 32
  ∧ pattern_valid p = true.
Proof.
  intros [Hnd Hf] <-. rewrite pt_count_mid, decide_True by done.
  apply Forall_app in Hf as [_ Hf]. inversion Hf as [|? ? [? Hm] ?]; subst.
  split; [done|]. split; [done|]. unfold pattern_valid. by rewrite Hm.
Qed.

Lemma alter_middle {A} (f : A → A) l1 x l2 :
  alter f (length l1) (l1 ++ x :: l2) = l1 ++ f x :: l2.
Proof. rewrite <- (Nat.add_0_r (length l1)). by rewrite alter_app_r. Qed.

(** The multiset after [add]. *)
Definition pt_added (t : pattern_trie_t) (p q : list Z) : Z :=
  if decide (q = p) then (if pattern_valid p then pt_count t p + 1 else 0) else pt_count t q.

(** The multiset after [rm]. *)
Definition pt_removed (t : pattern_trie_t) (p q : list Z) : Z :=
  if decide (q = p) then Z.max 0 (pt_count t p - 1) else pt_count t q.

Lemma pattern_trie_add_spec t p :
  pt_wf t → pt_count t p + 1 < 2 ^ 32 →
  pt_wf (pattern_trie_add t p).2
  ∧ (pattern_trie_add t p).1 = bool_decide (pt_count t p = 0) && pattern_valid p
  ∧ ∀ q, pt_count (pattern_trie_add t p).2 q = pt_added t p q.
Proof.
  intros Hwf Hlt. unfold pattern_trie_add, pt_added.
  destruct (find_pattern t p) as [i|] eqn:Ef.
  - apply find_pattern_Some in Ef as (e & l1 & l2 & -> & <- & He & _).
    destruct (pt_count_present l1 e l2 p Hwf He) as (Hc & Hr & Hv).
    simpl. rewrite alter_middle, u32_small by lia.
    destruct (pt_update_mid l1 e l2 (refcount e + 1) Hwf) as [Hwf' Hq]; [lia|].
    split; [done|]. split; [by rewrite bool_decide_false by lia|].
    intros q. rewrite Hq, Hc, Hv, He. destruct (decide (p = q)), (decide (q = p)); congruence.
  - apply find_pattern_None in Ef.
    rewrite (pt_count_absent t p) by done. rewrite bool_decide_true by done.
    unfold pattern_valid, pattern_entry_new.
    destruct (glob_pattern_new p) as [gp| |] eqn:Eg; simpl.
    + assert (Hnd : NoDup (map pattern_str (t ++ [PatternEntry p gp 1]))).
      { rewrite map_app. apply NoDup_app. destruct Hwf. simpl.
        split; [done|]. split; [set_solver|]. apply NoDup_singleton. }
      split; [|split; [done|]].
      * split; [done|]. apply Forall_app; split; [by destruct Hwf|].
        constructor; [|done]. split; simpl; [lia|done].
      * intros q. rewrite pt_count_app by done. simpl.
        destruct (decide (p = q)), (decide (q = p)); [done|congruence|congruence|done].
    + split; [done|]. split; [done|]. intros q. case_decide; [|done].
      subst. by apply pt_count_absent.
    + split; [done|]. split; [done|]. intros q. case_decide; [|done].
      subst. by apply pt_count_absent.
Qed.

Lemma pattern_trie_rm_spec t p :
  pt_wf t →
  pt_wf (pattern_trie_rm t p).2
  ∧ (pattern_trie_rm t p).1 = bool_decide (pt_count t p ≠ 0)
  ∧ ∀ q, pt_count (pattern_trie_rm t p).2 q = pt_removed t p q.
Proof.
  intros Hwf. unfold pattern_trie_rm, pt_removed.
  destruct (find_pattern t p) as [i|] eqn:Ef.
  - apply find_pattern_Some in Ef as (e & l1 & l2 & -> & <- & He & _).
    destruct (pt_count_present l1 e l2 p Hwf He) as (Hc & Hr & Hv).
    rewrite alter_middle, list_lookup_middle by done. rewrite u32_small by lia. simpl.
    case_decide as Hz; simpl; (split; [|split; [by rewrite bool_decide_true by lia|]]).
    + rewrite delete_middle. by apply (pt_delete_mid _ e).
    + intros q. rewrite delete_middle.
      rewrite (proj2 (pt_delete_mid l1 e l2 Hwf)), He, Hc.
      destruct (decide (p = q)), (decide (q = p)); [lia|congruence|congruence|done].
    + apply pt_update_mid; [done|lia].
    + intros q. rewrite (proj2 (pt_update_mid l1 e l2 (refcount e - 1) Hwf ltac:(lia))), He, Hc.
      destruct (decide (p = q)), (decide (q = p)); [lia|congruence|congruence|done].
  - apply find_pattern_None, pt_count_absent in Ef. simpl. rewrite Ef.
    split; [done|]. split; [done|]. intros q. case_decide; [subst; lia|done].
Qed.

Lemma pattern_trie_check_spec t data :
  pt_wf t →
  pattern_trie_check t data = true ↔
  ∃ p gp, 0 < pt_count t p ∧ glob_pattern_new p = Value gp ∧ glob_match gp data = true.
Proof.
  intros Hwf. unfold pattern_trie_check. rewrite existsb_exists. split.
  - intros (e & (l1 & l2 & ->)%in_split & Hm). exists (pattern_str e), (matcher e).
    destruct (pt_count_present l1 e l2 _ Hwf eq_refl) as (-> & ? & _).
    destruct Hwf as [_ Hf]. apply Forall_app in Hf as [_ Hf].
    inversion Hf as [|? ? [? ?] ?]; subst. split; [lia|done].
  - intros (p & gp & Hc & Hg & Hm).
    assert (Hin : p ∈ map pattern_str t).
    { apply dec_stable. intros Hni. rewrite pt_count_absent in Hc by done. lia. }
    apply list_elem_of_fmap in Hin as (e & -> & He).
    exists e. split; [by apply list_elem_of_In|].
    destruct Hwf as [_ Hf]. rewrite Forall_forall in Hf. destruct (Hf e He). congruence.
Qed.

(** ** Properties *)

(** One step of the pattern list.  [add] counts a compilable pattern once more,
    keeps the list unchanged for a pattern that does not compile, and returns
    true exactly for a new, compilable pattern; [rm] counts it once less and
    returns true exactly when the pattern was present; both keep the list well
    formed, so every entry carries its own compiled matcher and is counted at
    least once. *)
Lemma pattern_trie_multiset (t : list pattern_entry_t) (p : list Z) :
  pt_wf t → pt_count t p + 1 < 2 ^ 32 →
  (pt_wf (pattern_trie_add t p).2
   ∧ (pattern_trie_add t p).1 = bool_decide (pt_count t p = 0) && pattern_valid p
   ∧ ∀ q, pt_count (pattern_trie_add t p).2 q = pt_added t p q)
  ∧ (pt_wf (pattern_trie_rm t p).2
   ∧ (pattern_trie_rm t p).1 = bool_decide (pt_count t p ≠ 0)
   ∧ ∀ q, pt_count (pattern_trie_rm t p).2 q = pt_removed t p q).
Proof.
  intros Hwf Hlt. split; [by apply pattern_trie_add_spec|by apply pattern_trie_rm_spec].
Qed.

(** The list that holds the pattern [a*] twice. *)
Definition pt_example : list pattern_entry_t :=
  (pattern_trie_add (pattern_trie_add [] [97; 42]).2 [97; 42]).2.

Lemma pt_example_wf : pt_wf pt_example.
Proof.
  split; [apply NoDup_singleton|]. constructor; [|constructor].
  split; [simpl; vm_compute; split; [intros H; discriminate H|reflexivity]|].
  vm_compute. reflexivity.
Qed.

Lemma pattern_trie_multiset_witness :
  pt_count pt_example [97; 42] = 2
  ∧ (pattern_trie_rm pt_example [97; 42]).1 = true
  ∧ pt_count (pattern_trie_rm pt_example [97; 42]).2 [97; 42] = 1.
Proof.
  destruct (pattern_trie_multiset pt_example [97; 42] pt_example_wf eq_refl)
    as [_ (_ & Hb & Hq)].
  split; [reflexivity|]. split; [rewrite Hb; reflexivity|rewrite Hq; reflexivity].
Defined.

(** [check] returns true exactly when some pattern that is counted at least once
    matches the data. *)
Lemma pattern_trie_check_correct (t : list pattern_entry_t) (data : list Z) :
  pt_wf t →
  pattern_trie_check t data = true ↔
  ∃ p gp, 0 < pt_count t p ∧ glob_pattern_new p = Value gp
          ∧ glob_matches (gp_segments gp) data.
Proof.
  intros Hwf. rewrite pattern_trie_check_spec by done.
  split; intros (p & gp & Hc & Hg & Hm); exists p, gp;
    (split; [done|]; split; [done|]);
    pose proof (glob_match_value p data) as Hv; rewrite Hg in Hv; by apply Hv.
Qed.

Lemma pattern_trie_check_correct_witness :
  pattern_trie_check pt_example [97; 98] = true
  ∧ ∃ p gp, 0 < pt_count pt_example p ∧ glob_pattern_new p = Value gp
          ∧ glob_matches (gp_segments gp) [97; 98].
Proof.
  split; [reflexivity|].
  apply (pattern_trie_check_correct pt_example [97; 98] pt_example_wf). reflexivity.
Defined.
