(* ===== verification/NodeTable.v ===== *)
(** The child table of a trie node, shared by [trie_t] (src/pipe/trie.cpp) and
    [mtrie_t] (src/pipe/mtrie_impl.hpp): the fields [_min], [_count],
    [_live_nodes] and the union [_next], the code that extends the table to
    reach a new character, and its well-formedness.

    A node whose [_count] is 1 keeps the only child in [_next.node]; a node with
    [_count > 1] keeps a dense array [_next.table] that covers the characters
    [_min .. _min + _count - 1]. *)
From S2P Require Import Prelude.

(** The union [_next]; [NextUninit] is its state in a fresh node. *)
Inductive next_t (T : Type) : Type :=
| NextUninit
| NextNode (node : option T)
| NextTable (table : list (option T)).
Arguments NextUninit {T}.
Arguments NextNode {T} _.
Arguments NextTable {T} _.

Record ntab (T : Type) : Type := NTab {
  nt_min : Z;    (* unsigned char *)
  nt_count : Z;  (* unsigned short *)
  nt_live : Z;   (* unsigned short, [_live_nodes] *)
  nt_next : next_t T;
}.
Arguments NTab {T} _ _ _ _.
Arguments nt_min {T} _.
Arguments nt_count {T} _.
Arguments nt_live {T} _.
Arguments nt_next {T} _.

Section ntab.
Context {T : Type}.
Implicit Types (nt : ntab T) (c : Z) (tab : list (option T)).

Definition nt_new : ntab T := NTab 0 0 0 NextUninit.

(** Reading one member of the union when the other is live is undefined. *)
Definition get_node (n : next_t T) : outcome (option T) :=
  match n with NextNode p => Done p | _ => Undef end.
Definition get_table (n : next_t T) : outcome (list (option T)) :=
  match n with NextTable t => Done t | _ => Undef end.

(** [c < _min || c >= _min + _count] *)
Definition nt_out_of_range (c : Z) nt : bool :=
  (c <? nt_min nt) || (nt_min nt + nt_count nt <=? c).

(** "The character is out of range of currently handled characters. We have to
    extend the table." *)
Definition nt_extend (c : Z) (nt : ntab T) : outcome (ntab T) :=
  let '(NTab min count live next) := nt in
  if nt_out_of_range c nt then
    if decide (count = 0) then
      Done (NTab c 1 live (NextNode None))
    else if decide (count = 1) then
      let oldc := min in
      oldp ← get_node next;
      let count := u16 ((if min <? c then c - min else min - c) + 1) in
      let table := replicate (Z.to_nat count) None in
      let min := Z.min min c in
      table ← seti table (oldc - min) oldp;
      Done (NTab min count live (NextTable table))
    else if min <? c then
      let old_count := count in
      let count := u16 (c - min + 1) in
      table ← get_table next;
      Done (NTab min count live
        (NextTable (table ++ replicate (Z.to_nat (count - old_count)) None)))
    else
      let old_count := count in
      let count := u16 (min + old_count - c) in
      table ← get_table next;
      Done (NTab c count live
        (NextTable (replicate (Z.to_nat (min - c)) None ++ table)))
  else Done nt.

(** [_count == 1 ? _next.node : _next.table[c - _min]] *)
Definition nt_slot (c : Z) (nt : ntab T) : outcome (option T) :=
  if decide (nt_count nt = 1) then get_node (nt_next nt)
  else table ← get_table (nt_next nt); geti table (c - nt_min nt).

(** Write the slot of [c], with [live] as the new [_live_nodes]. *)
Definition nt_store (c : Z) (n : option T) (live : Z) (nt : ntab T) : outcome (ntab T) :=
  if decide (nt_count nt = 1) then
    Done (NTab (nt_min nt) (nt_count nt) live (NextNode n))
  else
    table ← get_table (nt_next nt);
    table ← seti table (c - nt_min nt) n;
    Done (NTab (nt_min nt) (nt_count nt) live (NextTable table)).

(** The loops that look for a live slot:
    [for (i = start; i < _count; ++i) if (_next.table[pos (i)]) break;]
    with [n] iterations left; [None] when no slot is live. *)
Fixpoint scan_live (tab : list (option T)) (pos : Z → Z) (i : Z) (n : nat)
    : outcome (option Z) :=
  match n with
  | O => Done None
  | S n =>
      o ← geti tab (pos i);
      match o with Some _ => Done (Some i) | None => scan_live tab pos (i + 1) n end
  end.

(** ** Well-formedness *)

Definition live1 (o : option T) : Z := match o with Some _ => 1 | None => 0 end.

(** The number of live children of a table. *)
Fixpoint count_some tab : Z :=
  match tab with [] => 0 | o :: tab => live1 o + count_some tab end.

(** The child for a character, if there is one. *)
Definition nt_child nt c : option T :=
  if decide (nt_min nt ≤ c < nt_min nt + nt_count nt) then
    match nt_next nt with
    | NextUninit => None
    | NextNode n => n
    | NextTable tab => mjoin (tab !! Z.to_nat (c - nt_min nt))
    end
  else None.

(** The state of the table, up to the slot of [c]: [full] is false while the
    slot of [c] may still have to be filled. *)
Definition nt_shape_at (full : bool) (c : Z) nt : Prop :=
  let '(NTab min count live next) := nt in
  is_byte min ∧ 1 ≤ count ∧ min + count ≤ 256 ∧
  match next with
  | NextUninit => False
  | NextNode n => count = 1 ∧ live = live1 n ∧ (full = true → is_Some n)
  | NextTable tab =>
      2 ≤ count ∧ Z.of_nat (length tab) = count ∧ live = count_some tab
      ∧ (1 ≤ live)
      ∧ ((full = false ∧ c = min) ∨ is_Some (mjoin (tab !! 0%nat)))
      ∧ ((full = false ∧ c = min + count - 1) ∨ is_Some (mjoin (tab !! (length tab - 1)%nat)))
  end.

(** A well-formed table: empty, or trimmed so that its first and last slots are
    live, with [_live_nodes] the number of live slots. *)
Definition nt_shape nt : Prop :=
  (nt_count nt = 0 ∧ nt_live nt = 0) ∨ nt_shape_at true 0 nt.

Lemma count_some_app tab1 tab2 : count_some (tab1 ++ tab2) = count_some tab1 + count_some tab2.
Proof. induction tab1 as [|o tab1 IH]; simpl; [lia|]. rewrite IH. lia. Qed.

Lemma count_some_replicate n : count_some (replicate n None) = 0.
Proof. induction n; simpl; lia. Qed.

Lemma count_some_bounds tab : 0 ≤ count_some tab ≤ Z.of_nat (length tab).
Proof. induction tab as [|[] tab IH]; simpl; lia. Qed.

Lemma count_some_insert tab i o o' :
  tab !! i = Some o →
  count_some (<[i:=o']> tab)
  = count_some tab - live1 o + live1 o'.
Proof.
  revert i. induction tab as [|x tab IH]; intros [|i] Hi; simplify_eq/=; [lia|].
  rewrite (IH _ Hi). lia.
Qed.

Lemma count_some_pos tab : 0 < count_some tab ↔ ∃ i n, tab !! i = Some (Some n).
Proof.
  induction tab as [|x tab IH]; simpl.
  - split; [lia|]. intros (i & n & H). by rewrite lookup_nil in H.
  - pose proof (count_some_bounds tab). destruct x as [x|]; simpl; split.
    + intros _. by exists 0%nat, x.
    + lia.
    + intros Hc. destruct (proj1 IH) as (i & n & Hi); [lia|]. by exists (S i), n.
    + intros ([|i] & n & Hi); simplify_eq/=. cut (0 < count_some tab); [lia|].
      apply IH. eauto.
Qed.

(** Two live slots make [_live_nodes] at least 2. *)
Lemma count_some_two tab i j n m :
  (i < j)%nat → tab !! i = Some (Some n) → tab !! j = Some (Some m) → 2 ≤ count_some tab.
Proof.
  intros Hij Hi Hj. rewrite <- (take_drop j tab), count_some_app.
  assert (0 < count_some (take j tab)).
  { apply count_some_pos. exists i, n. rewrite lookup_take. by rewrite decide_True by lia. }
  assert (0 < count_some (drop j tab)); [|lia].
  apply count_some_pos. exists 0%nat, m. by rewrite lookup_drop, Nat.add_0_r.
Qed.

Lemma mjoin_Some_lookup tab i n : mjoin (tab !! i) = Some n ↔ tab !! i = Some (Some n).
Proof. destruct (tab !! i) as [[]|]; naive_solver. Qed.

Lemma geti_live tab z i n :
  mjoin (tab !! i) = Some n → z = Z.of_nat i → geti tab z = Done (Some n).
Proof. intros H%mjoin_Some_lookup ->. by apply geti_Some. Qed.

Lemma nt_child_empty nt c : nt_count nt = 0 → nt_child nt c = None.
Proof. intros H. unfold nt_child. rewrite decide_False; [done|lia]. Qed.

(** The children of a dense table. *)
Lemma nt_child_table min count live tab d :
  Z.of_nat (length tab) = count →
  nt_child (NTab min count live (NextTable tab)) d
  = if decide (min ≤ d) then mjoin (tab !! Z.to_nat (d - min)) else None.
Proof.
  intros Hl. unfold nt_child. simpl. repeat case_decide; try done; try lia.
  rewrite lookup_ge_None_2; [done|lia].
Qed.

Lemma nt_child_node c live n d :
  nt_child (NTab c 1 live (NextNode n)) d = if decide (d = c) then n else None.
Proof. unfold nt_child. simpl. repeat case_decide; try done; lia. Qed.

(** Shifting a table by [k] empty slots. *)
Lemma mjoin_lookup_shift k tab i :
  mjoin ((replicate k None ++ tab) !! i) = if decide (k ≤ i)%nat then mjoin (tab !! (i - k)%nat) else None.
Proof.
  case_decide.
  - rewrite lookup_app_r by (rewrite length_replicate; lia). by rewrite length_replicate.
  - rewrite lookup_app_l by (rewrite length_replicate; lia).
    by rewrite lookup_replicate_2 by lia.
Qed.

Lemma mjoin_lookup_pad k tab i :
  mjoin ((tab ++ replicate k None) !! i) = mjoin (tab !! i).
Proof.
  destruct (decide (i < length tab)%nat); [by rewrite lookup_app_l|].
  rewrite lookup_app_r, (lookup_ge_None_2 tab) by lia.
  destruct (replicate k None !! _) as [o|] eqn:E; [|done].
  apply lookup_replicate in E as [-> _]. done.
Qed.

(** ** Extending the table *)

(** The table made from a single child [n0] at [min] to reach the character [c]. *)
Lemma nt_singleton_shape c min n0 live (lo := Z.min min c) (cnt := Z.abs (c - min) + 1) :
  0 ≤ c < 256 → 0 ≤ min < 256 → c ≠ min → live = 1 →
  let nt' := NTab lo cnt live (NextTable
    (<[Z.to_nat (min - lo):=Some n0]> (replicate (Z.to_nat cnt) None))) in
  nt_shape_at false c nt' ∧ nt_min nt' ≤ c < nt_min nt' + nt_count nt'
  ∧ nt_live nt' = live
  ∧ ∀ d, nt_child nt' d = nt_child (NTab min 1 live (NextNode (Some n0))) d.
Proof.
  intros Hc Hmin Hne ->. simpl.
  set (tab := <[Z.to_nat (min - lo):=Some n0]> (replicate (Z.to_nat cnt) None)).
  assert (Hl : Z.of_nat (length tab) = cnt)
    by (unfold tab, cnt; rewrite length_insert, length_replicate; lia).
  assert (Hlk : ∀ i, mjoin (tab !! i) =
    if decide (i = Z.to_nat (min - lo)) then Some n0 else None).
  { intros i. unfold tab. case_decide.
    - subst. rewrite list_lookup_insert_eq; [done|]. rewrite length_replicate. lia.
    - rewrite list_lookup_insert_ne by done.
      destruct (replicate _ None !! i) as [o|] eqn:E; [|done].
      by apply lookup_replicate in E as [-> _]. }
  split_and!; try (unfold is_byte; lia).
  - unfold tab. rewrite (count_some_insert _ _ None);
      [by rewrite count_some_replicate|]. apply lookup_replicate_2. lia.
  - rewrite Hlk. case_decide; [by right|left; split; [done|lia]].
  - rewrite Hlk. case_decide; [by right|left; split; [done|lia]].
  - intros d. rewrite nt_child_table, nt_child_node, Hlk by done.
    repeat case_decide; try done; lia.
Qed.

Lemma nt_extend_spec c nt :
  is_byte c → nt_shape nt →
  ∃ nt', nt_extend c nt = Done nt' ∧ nt_shape_at false c nt'
    ∧ nt_min nt' ≤ c < nt_min nt' + nt_count nt'
    ∧ nt_live nt' = nt_live nt
    ∧ ∀ d, nt_child nt' d = nt_child nt d.
Proof.
  intros Hc Hs. destruct nt as [min count live next].
  unfold nt_extend, nt_out_of_range. simpl.
  destruct Hs as [[Hcnt Hlive]|(Hmin & Hcnt & Hmax & Hn)]; simpl in *.
  { subst. replace ((c <? min) || (min + 0 <=? c)) with true by (symmetry; zcases; simpl; try done; lia).
    rewrite decide_True by done. eexists. split; [done|]. simpl.
    unfold is_byte in *. repeat split; try lia; try done.
    intros d. rewrite nt_child_node, nt_child_empty by done. by case_decide. }
  destruct ((c <? min) || (min + count <=? c)) eqn:Hr.
  2:{ eexists. split; [done|]. simpl. apply orb_false_iff in Hr as [?%Z.ltb_ge ?%Z.leb_gt].
      split; [|repeat split; lia || done].
      split; [done|]. split; [done|]. split; [done|].
      destruct next as [|n|tab]; [done| |]; naive_solver. }
  rewrite decide_False by lia. unfold is_byte in *.
  destruct next as [|n|tab]; [done| |].
  - destruct Hn as (-> & Hlive & [n0 ->]%(λ H, H eq_refl)). rewrite decide_True by done. simpl.
    assert (Hcm : c ≠ min).
    { intros ->. rewrite Z.ltb_irrefl in Hr. simpl in Hr. apply Z.leb_le in Hr. lia. }
    replace (u16 ((if min <? c then c - min else min - c) + 1)) with (Z.abs (c - min) + 1)
      by (destruct (Z.ltb_spec min c); rewrite u16_small; lia).
    rewrite seti_in_range by (rewrite length_replicate; lia).
    eexists. split; [done|]. by apply nt_singleton_shape.
  - destruct Hn as (Hcnt2 & Hlen & Hlive & Hpos & Hfst & Hlst).
    rewrite decide_False by lia. simpl in *.
    destruct Hfst as [[? _]|Hfst]; [done|]. destruct Hlst as [[? _]|Hlst]; [done|].
    destruct (Z.ltb_spec min c) as [Hlt|Hlt]; simpl.
    + assert (min + count ≤ c) by (destruct (Z.ltb_spec c min), (Z.leb_spec (min + count) c); done || lia).
      rewrite u16_small by lia. eexists. split; [done|].
      assert (Hl : Z.of_nat (length (tab ++ replicate (Z.to_nat (c - min + 1 - count)) None))
        = c - min + 1) by (rewrite length_app, length_replicate; lia).
      simpl. rewrite count_some_app, count_some_replicate, mjoin_lookup_pad.
      split_and!; try lia; auto with lia.
      intros d. rewrite !nt_child_table by done. by rewrite mjoin_lookup_pad.
    + assert (c < min) by (destruct (Z.ltb_spec c min), (Z.leb_spec (min + count) c); done || lia).
      rewrite u16_small by lia. eexists. split; [done|].
      assert (Hl : Z.of_nat (length (replicate (Z.to_nat (min - c)) None ++ tab))
        = min + count - c) by (rewrite length_app, length_replicate; lia).
      simpl. rewrite count_some_app, count_some_replicate, !mjoin_lookup_shift.
      split_and!; try lia; auto with lia.
      * right. rewrite decide_True by (rewrite length_app, length_replicate; lia).
        rewrite length_app, length_replicate.
        by replace (Z.to_nat (min - c) + length tab - 1 - Z.to_nat (min - c))%nat
          with (length tab - 1)%nat by lia.
      * intros d. rewrite !nt_child_table by done. rewrite mjoin_lookup_shift.
        repeat case_decide; try done; try lia. do 2 f_equal. lia.
Qed.

(** ** Reading and writing a slot *)

Lemma nt_shape_in_range nt c : nt_shape nt → nt_out_of_range c nt = false → nt_shape_at true 0 nt.
Proof.
  intros [[Hc _]|?] Hr; [|done]. unfold nt_out_of_range in Hr. rewrite Hc in Hr.
  exfalso. revert Hr. zcases; simpl; try done. lia.
Qed.

Lemma nt_out_of_range_spec c nt :
  nt_out_of_range c nt = false ↔ nt_min nt ≤ c < nt_min nt + nt_count nt.
Proof. unfold nt_out_of_range. zcases; simpl; split; try done; lia. Qed.

Lemma nt_out_of_range_child c nt : nt_out_of_range c nt = true → nt_child nt c = None.
Proof.
  intros H. unfold nt_child. rewrite decide_False; [done|].
  rewrite <- nt_out_of_range_spec. by rewrite H.
Qed.

Lemma nt_slot_spec full a c nt :
  nt_shape_at full a nt → nt_min nt ≤ c < nt_min nt + nt_count nt →
  nt_slot c nt = Done (nt_child nt c).
Proof.
  destruct nt as [min count live next]. unfold nt_slot. simpl.
  intros (_ & _ & _ & Hn) Hc. destruct next as [|n|tab]; [done| |].
  - destruct Hn as (-> & _). rewrite decide_True by done. simpl.
    rewrite nt_child_node, decide_True; [done|lia].
  - destruct Hn as (? & Hl & _). rewrite decide_False by lia. simpl.
    rewrite nt_child_table, decide_True by lia.
    destruct (geti_in_range tab (c - min)) as [o Ho]; [lia|].
    rewrite Ho. apply geti_Done in Ho as [_ Ho]. by rewrite Ho.
Qed.

Lemma nt_store_spec c n nt live :
  nt_shape_at false c nt → nt_min nt ≤ c < nt_min nt + nt_count nt →
  live = nt_live nt - live1 (nt_child nt c) + 1 →
  ∃ nt', nt_store c (Some n) live nt = Done nt' ∧ nt_shape nt' ∧ nt_live nt' = live
    ∧ nt_count nt' = nt_count nt
    ∧ ∀ d, nt_child nt' d = if decide (d = c) then Some n else nt_child nt d.
Proof.
  destruct nt as [min count lv next]. unfold nt_store. simpl.
  intros (Hmin & Hcnt & Hmax & Hn) Hc ->. destruct next as [|n0|tab]; [done| |].
  - destruct Hn as (-> & -> & _). rewrite decide_True by done.
    assert (c = min) as -> by lia.
    eexists. split; [done|]. rewrite nt_child_node, decide_True by done.
    replace (live1 n0 - live1 n0 + 1) with 1 by lia.
    split; [right; simpl; split_and!; done|].
    split_and!; [done|done|].
    intros d. rewrite !nt_child_node. by case_decide.
  - destruct Hn as (Hcnt2 & Hl & -> & Hpos & Hfst & Hlst). rewrite decide_False by lia. simpl.
    rewrite seti_in_range by lia. simpl. eexists. split; [done|].
    assert (Hl' : Z.of_nat (length (<[Z.to_nat (c - min):=Some n]> tab)) = count)
      by (by rewrite length_insert).
    destruct (lookup_lt_is_Some_2 tab (Z.to_nat (c - min))) as [o Ho]; [lia|].
    assert (Hch : nt_child (NTab min count (count_some tab) (NextTable tab)) c = o)
      by (rewrite nt_child_table, decide_True, Ho by lia; done).
    rewrite Hch.
    assert (Hins : ∀ i, mjoin (<[Z.to_nat (c - min):=Some n]> tab !! i)
      = if decide (i = Z.to_nat (c - min)) then Some n else mjoin (tab !! i)).
    { intros i. case_decide; [subst; rewrite list_lookup_insert_eq by lia; done|].
      by rewrite list_lookup_insert_ne. }
    split.
    { right. simpl. split_and!; try done.
      - rewrite (count_some_insert _ _ o) by done. simpl. lia.
      - destruct o; simpl; lia.
      - right. rewrite Hins. case_decide; [done|]. destruct Hfst as [[_ ->]|?]; [lia|done].
      - right. rewrite Hins, length_insert. case_decide; [done|].
        destruct Hlst as [[_ ->]|?]; [lia|done]. }
    split; [done|]. split; [done|]. intros d.
    rewrite !nt_child_table, Hins by done. repeat case_decide; try done; lia.
Qed.

(** A live child keeps the table in the shape that [nt_store] needs. *)
Lemma nt_shape_weaken c nt : nt_shape_at true 0 nt → nt_shape_at false c nt.
Proof.
  destruct nt as [min count live [|n|tab]]; simpl; intros (? & ? & ? & Hn);
    split_and!; try done; naive_solver.
Qed.

(** ** Trimming the table *)

Lemma count_some_none tab : (∀ i, mjoin (tab !! i) = None) → count_some tab = 0.
Proof.
  intros H. pose proof (count_some_bounds tab).
  destruct (decide (0 < count_some tab)) as [Hp|]; [|lia].
  apply count_some_pos in Hp as (i & n & Hi). specialize (H i). by rewrite Hi in H.
Qed.

(** The slots outside [k .. k + m - 1] are free, so the table can be cut to them. *)
Lemma nt_cut_spec min count live tab k m :
  Z.of_nat (length tab) = count → (k + m ≤ length tab)%nat →
  (∀ i, (i < k)%nat ∨ (k + m ≤ i)%nat → mjoin (tab !! i) = None) →
  (∀ d, nt_child (NTab (min + Z.of_nat k) (Z.of_nat m) live (NextTable (take m (drop k tab)))) d
        = nt_child (NTab min count live (NextTable tab)) d)
  ∧ count_some (take m (drop k tab)) = count_some tab
  ∧ length (take m (drop k tab)) = m.
Proof.
  intros Hl Hkm Hnone.
  assert (Hlen : length (take m (drop k tab)) = m) by (rewrite length_take, length_drop; lia).
  split_and!; [| |done].
  - intros d. rewrite !nt_child_table by lia.
    rewrite lookup_take, lookup_drop. repeat case_decide; try lia; try done.
    + do 2 f_equal. lia.
    + symmetry. apply Hnone. lia.
    + symmetry. apply Hnone. lia.
  - rewrite <- (take_drop k tab) at 2. rewrite <- (take_drop m (drop k tab)) at 2.
    rewrite !count_some_app, (count_some_none (take k tab)), (count_some_none (drop m _)); [lia| |].
    + intros i. rewrite !lookup_drop. apply Hnone. lia.
    + intros i. rewrite lookup_take. case_decide; [apply Hnone; lia|done].
Qed.

Lemma scan_live_spec tab pos i n :
  (∀ j, i ≤ j < i + Z.of_nat n → 0 ≤ pos j < Z.of_nat (length tab)) →
  ∃ r, scan_live tab pos i n = Done r ∧
    match r with
    | Some k => i ≤ k < i + Z.of_nat n ∧ is_Some (mjoin (tab !! Z.to_nat (pos k)))
                ∧ ∀ j, i ≤ j < k → mjoin (tab !! Z.to_nat (pos j)) = None
    | None => ∀ j, i ≤ j < i + Z.of_nat n → mjoin (tab !! Z.to_nat (pos j)) = None
    end.
Proof.
  revert i. induction n as [|n IH]; intros i Hpos; simpl.
  { exists None. split; [done|]. intros j Hj. lia. }
  destruct (geti_in_range tab (pos i)) as [o Ho]; [apply Hpos; lia|]. rewrite Ho. simpl.
  apply geti_Done in Ho as [_ Ho].
  destruct o as [x|].
  { exists (Some i). split; [done|]. rewrite Ho. split_and!; [lia|lia|done|]. intros; lia. }
  destruct (IH (i + 1)) as (r & Hr & Hspec); [intros; apply Hpos; lia|].
  exists r. split; [done|]. destruct r as [k|].
  - destruct Hspec as (? & ? & Hj). split_and!; [lia|lia|done|].
    intros j Hj'. destruct (decide (j = i)) as [->|]; [by rewrite Ho|apply Hj; lia].
  - intros j Hj. destruct (decide (j = i)) as [->|]; [by rewrite Ho|apply Hspec; lia].
Qed.

Lemma count_some_cut_le tab k m :
  (k + m ≤ length tab)%nat →
  (∀ i, (i < k)%nat ∨ (k + m ≤ i)%nat → mjoin (tab !! i) = None) →
  count_some tab ≤ Z.of_nat m.
Proof.
  intros Hkm Hnone.
  destruct (nt_cut_spec 0 _ 0 tab k m eq_refl Hkm Hnone) as (_ & <- & Hlen).
  rewrite <- Hlen at 2. apply count_some_bounds.
Qed.

(** Cutting a table to the slots [k .. k + m - 1], both ends live. *)
Lemma nt_cut_shape min count live tab k m :
  is_byte min → Z.of_nat (length tab) = count → min + count ≤ 256 →
  (k + m ≤ length tab)%nat → live = count_some tab → 2 ≤ live →
  (∀ i, (i < k)%nat ∨ (k + m ≤ i)%nat → mjoin (tab !! i) = None) →
  is_Some (mjoin (tab !! k)) → is_Some (mjoin (tab !! (k + m - 1)%nat)) →
  let nt' := NTab (min + Z.of_nat k) (Z.of_nat m) live (NextTable (take m (drop k tab))) in
  nt_shape nt'
  ∧ ∀ d, nt_child nt' d = nt_child (NTab min count live (NextTable tab)) d.
Proof.
  intros Hmin Hl Hmax Hkm -> Hm Hnone [x Hx] [y Hy]. simpl.
  pose proof (count_some_cut_le tab k m Hkm Hnone).
  destruct (nt_cut_spec min count (count_some tab) tab k m Hl Hkm Hnone) as (Hch & Hcs & Hlen).
  split; [|done]. right. unfold is_byte in *. simpl.
  split_and!; try (unfold is_byte; lia).
  - right. rewrite lookup_take, lookup_drop, decide_True, Nat.add_0_r, Hx by lia. done.
  - right. rewrite Hlen, lookup_take, lookup_drop, decide_True by lia.
    replace (k + (m - 1))%nat with (k + m - 1)%nat by lia. by rewrite Hy.
Qed.

(** A table with a single live slot, in the single-node representation. *)
Lemma nt_single_spec min count tab i n :
  is_byte min → Z.of_nat (length tab) = count → min + count ≤ 256 →
  count_some tab = 1 → mjoin (tab !! i) = Some n →
  let nt' := NTab (min + Z.of_nat i) 1 1 (NextNode (Some n)) in
  nt_shape nt'
  ∧ ∀ d, nt_child nt' d = nt_child (NTab min count 1 (NextTable tab)) d.
Proof.
  intros Hmin Hl Hmax Hcs Hi. simpl.
  assert (Hil : (i < length tab)%nat).
  { apply mjoin_Some_lookup in Hi. by apply lookup_lt_Some in Hi. }
  split.
  { right. unfold is_byte in *. simpl. unfold is_byte. split_and!; done || lia. }
  intros d. rewrite nt_child_node, nt_child_table by done. case_decide.
  - subst d. rewrite decide_True by lia. replace (Z.to_nat _) with i by lia. done.
  - case_decide; [|done]. destruct (mjoin (tab !! Z.to_nat (d - min))) as [m|] eqn:E; [|done].
    exfalso. apply mjoin_Some_lookup in E, Hi.
    assert (2 ≤ count_some tab); [|lia].
    destruct (decide (Z.to_nat (d - min) < i)%nat).
    + by eapply (count_some_two tab (Z.to_nat (d - min)) i).
    + eapply (count_some_two tab i (Z.to_nat (d - min))); [lia|done|done].
Qed.

(** Clearing a live slot of a well-formed table. *)
Lemma nt_clear_spec min count live tab c n (tab' := <[Z.to_nat (c - min):=None]> tab) :
  nt_shape_at true 0 (NTab min count live (NextTable tab)) →
  nt_child (NTab min count live (NextTable tab)) c = Some n →
  2 ≤ live ≤ 256 ∧ min ≤ c < min + count ∧ Z.of_nat (length tab') = count
  ∧ count_some tab' = live - 1
  ∧ (c ≠ min → is_Some (mjoin (tab' !! 0%nat)))
  ∧ (c ≠ min + count - 1 → is_Some (mjoin (tab' !! (length tab' - 1)%nat)))
  ∧ mjoin (tab' !! Z.to_nat (c - min)) = None
  ∧ ∀ live' d, nt_child (NTab min count live' (NextTable tab')) d
      = if decide (d = c) then None else nt_child (NTab min count live (NextTable tab)) d.
Proof.
  simpl. intros (Hmin & _ & Hmax & Hcnt & Hl & -> & Hpos & Hfst & Hlst) Hch.
  destruct Hfst as [[? _]|[x Hx]]; [done|]. destruct Hlst as [[? _]|[y Hy]]; [done|].
  assert (Hlen : length tab' = length tab) by (unfold tab'; by rewrite length_insert).
  assert (Hrng : min ≤ c < min + count).
  { apply dec_stable. intros Hr. unfold nt_child in Hch. simpl in Hch.
    by rewrite decide_False in Hch. }
  assert (Hins : ∀ i, mjoin (tab' !! i)
    = if decide (i = Z.to_nat (c - min)) then None else mjoin (tab !! i)).
  { intros i. unfold tab'. case_decide; [subst; rewrite list_lookup_insert_eq by lia; done|].
    by rewrite list_lookup_insert_ne. }
  assert (Hc : tab !! Z.to_nat (c - min) = Some (Some n)).
  { rewrite nt_child_table, decide_True in Hch by lia. by apply mjoin_Some_lookup. }
  unfold is_byte in *. pose proof (count_some_bounds tab).
  split_and!; try lia.
  - eapply (count_some_two tab 0 (length tab - 1)%nat); [lia| |]; by apply mjoin_Some_lookup.
  - unfold tab'. rewrite (count_some_insert _ _ (Some n)) by done. simpl. lia.
  - intros. rewrite Hins, decide_False by lia. by rewrite Hx.
  - intros. rewrite Hins, Hlen, decide_False by lia. by rewrite Hy.
  - rewrite Hins, decide_True; done.
  - intros live' d. rewrite !nt_child_table, Hins by lia. repeat case_decide; try done; lia.
Qed.

(** The first child of a table with at least three was cleared: the scan from the
    left finds the new first one, and the table is cut before it. *)
Lemma nt_trim_left min count live tab n (tab' := <[Z.to_nat (min - min):=None]> tab) :
  nt_shape_at true 0 (NTab min count live (NextTable tab)) →
  nt_child (NTab min count live (NextTable tab)) min = Some n → live - 1 ≠ 1 →
  ∃ k, scan_live tab' (λ i, i) 1 (Z.to_nat (count - 1)) = Done (Some k) ∧ 1 ≤ k < count
    ∧ (let nt' := NTab (min + k) (count - k) (live - 1)
                    (NextTable (take (Z.to_nat (count - k)) (drop (Z.to_nat k) tab'))) in
       nt_shape nt' ∧ ∀ d, nt_child nt' d
         = if decide (d = min) then None else nt_child (NTab min count live (NextTable tab)) d).
Proof.
  intros Hs Hch H1. pose proof (nt_clear_spec min count live tab min n Hs Hch)
    as (Hlive & Hrng & Hl & Hcs & _ & Hlst & Hmid & Hchild).
  destruct Hs as (Hmin & _ & Hmax & Hcnt & Hlen & _). unfold is_byte in *. fold tab' in Hl, Hcs, Hlst, Hmid, Hchild.
  destruct (scan_live_spec tab' (λ i, i) 1 (Z.to_nat (count - 1))) as (r & -> & Hr); [lia|].
  destruct Hlst as [y Hy]; [lia|]. destruct r as [k|].
  2:{ specialize (Hr (count - 1) ltac:(lia)).
      replace (Z.to_nat (count - 1)) with (length tab' - 1)%nat in Hr by lia. by rewrite Hr in Hy. }
  destruct Hr as (Hk & [x Hx] & Hnone). exists k. split; [done|]. split; [lia|].
  destruct (nt_cut_shape min count (live - 1) tab' (Z.to_nat k) (Z.to_nat (count - k))) as [Hsh Hch']; try lia; try done.
  { intros i [Hi|Hi]; [|rewrite lookup_ge_None_2 by lia; done].
    destruct (decide (i = 0%nat)) as [->|];
      [by replace (Z.to_nat (min - min)) with 0%nat in Hmid by lia|].
    replace i with (Z.to_nat (Z.of_nat i)) by lia. apply Hnone. lia. }
  { replace (Z.to_nat k + Z.to_nat (count - k) - 1)%nat with (length tab' - 1)%nat by lia. by rewrite Hy. }
  rewrite !Z2Nat.id in Hsh, Hch' by lia. split; [done|]. intros d. by rewrite Hch', Hchild.
Qed.

(** Likewise for the last child and the scan from the right. *)
Lemma nt_trim_right min count live tab n c (tab' := <[Z.to_nat (c - min):=None]> tab) :
  nt_shape_at true 0 (NTab min count live (NextTable tab)) →
  nt_child (NTab min count live (NextTable tab)) c = Some n → live - 1 ≠ 1 → c = min + count - 1 →
  ∃ k, scan_live tab' (λ i, count - 1 - i) 1 (Z.to_nat (count - 1)) = Done (Some k) ∧ 1 ≤ k < count
    ∧ (let nt' := NTab min (count - k) (live - 1) (NextTable (take (Z.to_nat (count - k)) tab')) in
       nt_shape nt' ∧ ∀ d, nt_child nt' d
         = if decide (d = c) then None else nt_child (NTab min count live (NextTable tab)) d).
Proof.
  intros Hs Hch H1 Hce. pose proof (nt_clear_spec min count live tab c n Hs Hch)
    as (Hlive & Hrng & Hl & Hcs & Hfst & _ & Hmid & Hchild).
  destruct Hs as (Hmin & _ & Hmax & Hcnt & Hlen & _). unfold is_byte in *. fold tab' in Hl, Hcs, Hfst, Hmid, Hchild.
  destruct (scan_live_spec tab' (λ i, count - 1 - i) 1 (Z.to_nat (count - 1))) as (r & -> & Hr); [lia|].
  destruct Hfst as [y Hy]; [lia|]. destruct r as [k|].
  2:{ specialize (Hr (count - 1) ltac:(lia)).
      replace (Z.to_nat (count - 1 - (count - 1))) with 0%nat in Hr by lia. by rewrite Hr in Hy. }
  destruct Hr as (Hk & [x Hx] & Hnone). exists k. split; [done|]. split; [lia|].
  assert (Hmid' : mjoin (tab' !! (length tab' - 1)%nat) = None).
  { replace (length tab' - 1)%nat with (Z.to_nat (c - min)) by lia. done. }
  destruct (nt_cut_shape min count (live - 1) tab' 0 (Z.to_nat (count - k))) as [Hsh Hch']; try lia; try done.
  { intros i [Hi|Hi]; [lia|].
    destruct (decide (i < length tab')%nat); [|by rewrite lookup_ge_None_2 by lia].
    destruct (decide (i = length tab' - 1)%nat) as [->|]; [done|].
    replace i with (Z.to_nat (count - 1 - (count - 1 - Z.of_nat i))) by lia. apply Hnone. lia. }
  { replace (0 + Z.to_nat (count - k) - 1)%nat with (Z.to_nat (count - 1 - k)) by lia. done. }
  rewrite Z.add_0_r, Z2Nat.id in Hsh, Hch' by lia. split; [done|]. intros d. by rewrite Hch', Hchild.
Qed.

Lemma nt_live_bounds nt : nt_shape nt → 0 ≤ nt_live nt ≤ 256.
Proof.
  destruct nt as [min count live next]. intros [[_ Hl]|(Hb & ? & ? & Hn)]; simpl in *; [lia|].
  unfold is_byte in *. destruct next as [|[n|]|tab]; simpl in *; [done|lia|lia|].
  destruct Hn as (? & ? & -> & _). pose proof (count_some_bounds tab). lia.
Qed.

Lemma nt_live_child nt c n : nt_shape nt → nt_child nt c = Some n → 0 < nt_live nt.
Proof.
  intros [[H0 _]|Hs] Hc; [by rewrite nt_child_empty in Hc|].
  destruct nt as [min count live [|o|tab]]; destruct Hs as (_ & _ & _ & Hn); simpl; [done| |].
  - destruct Hn as (-> & -> & _). rewrite nt_child_node in Hc. case_decide; [by subst|done].
  - destruct Hn as (_ & _ & _ & ? & _). lia.
Qed.

Lemma nt_count_child nt : nt_shape nt → nt_count nt ≠ 0 → is_Some (nt_child nt (nt_min nt)).
Proof.
  intros [[? _]|Hs] Hc; [done|].
  destruct nt as [min count live [|o|tab]]; destruct Hs as (_ & ? & _ & Hn); simpl in *; [done| |].
  - destruct Hn as (-> & _ & Ho). rewrite nt_child_node, decide_True by done. auto.
  - destruct Hn as (_ & Hl & _ & _ & [[? _]|Hf] & _); [done|].
    rewrite nt_child_table, decide_True, Z.sub_diag by lia. done.
Qed.

End ntab.

#[export] Hint Resolve nt_shape_weaken : serverlink.
