(* ===== verification/Trie.v ===== *)
(** The subscription trie: the model of [trie_t] and [trie_with_size_t]
    (src/pipe/trie.cpp, src/pipe/trie.hpp), which holds the subscriptions of an
    XSUB socket.

    A node is its reference count and its child table; the recursion of [add]
    and [rm] follows the prefix.  The abstract state is the map from prefixes to
    reference counts ([trie_lookup]); each operation is specified by its effect
    on that map, and [trie_wf] is the invariant that makes every assertion and
    every table access of the code succeed. *)
From S2P Require Import Prelude NodeTable.

#[warnings="-register-all"]
Inductive trie_t : Type := Trie (refcnt : Z) (nt : ntab trie_t).

Definition t_refcnt (t : trie_t) : Z := let '(Trie r _) := t in r.
Definition t_nt (t : trie_t) : ntab trie_t := let '(Trie _ nt) := t in nt.

(** The constructor. *)
Definition trie_new : trie_t := Trie 0 nt_new.

Definition trie_is_redundant (t : trie_t) : bool :=
  bool_decide (t_refcnt t = 0) && bool_decide (nt_live (t_nt t) = 0).

(** "If next node does not exist, create one": the node and [_live_nodes]. *)
Definition trie_next_node (nt : ntab trie_t) (slot : option trie_t) : outcome (trie_t * Z) :=
  match slot with
  | Some n => Done (n, nt_live nt)
  | None =>
      let live := u16 (nt_live nt + 1) in
      assert! (if decide (nt_count nt = 1) then bool_decide (live = 1)
               else bool_decide (1 < live));;
      Done (trie_new, live)
  end.

Fixpoint trie_add (prefix : list Z) (t : trie_t) : outcome (bool * trie_t) :=
  let '(Trie refcnt nt) := t in
  match prefix with
  | [] =>
      let refcnt := u32 (refcnt + 1) in
      Done (bool_decide (refcnt = 1), Trie refcnt nt)
  | c :: prefix =>
      nt ← nt_extend c nt;
      slot ← nt_slot c nt;
      '(node, live) ← trie_next_node nt slot;
      '(ret, node) ← trie_add prefix node;
      nt ← nt_store c (Some node) live nt;
      Done (ret, Trie refcnt nt)
  end.

(** "Prune redundant nodes": the child of [c] was deleted. *)
Definition trie_prune (c : Z) (nt : ntab trie_t) : outcome (ntab trie_t) :=
  let '(NTab min count live next) := nt in
  assert! bool_decide (0 < count);;
  if decide (count = 1) then
    let live := u16 (live - 1) in
    assert! bool_decide (live = 0);;
    Done (NTab min 0 live (NextNode None))
  else
    table ← get_table next;
    table ← seti table (c - min) None;
    assert! bool_decide (1 < live);;
    let live := u16 (live - 1) in
    if decide (live = 1) then
      (* switch to the single-node representation *)
      '(node, min) ←
        (if decide (c = min) then
           node ← geti table (count - 1); Done (node, u8 (min + (count - 1)))
         else if decide (c = min + count - 1) then
           node ← geti table 0; Done (node, min)
         else Done (None, min));
      assert! bool_decide (is_Some node);;
      Done (NTab min 1 live (NextNode node))
    else if decide (c = min) then
      (* compact the table from the left *)
      found ← scan_live table (λ i, i) 1 (Z.to_nat (count - 1));
      let new_min := match found with Some i => u8 (i + min) | None => min end in
      assert! bool_decide (new_min ≠ min);;
      assert! bool_decide (min < new_min);;
      assert! bool_decide (new_min - min < count);;
      let count := u16 (count - (new_min - min)) in
      Done (NTab new_min count live
        (NextTable (take (Z.to_nat count) (drop (Z.to_nat (new_min - min)) table))))
    else if decide (c = min + count - 1) then
      (* compact the table from the right *)
      found ← scan_live table (λ i, count - 1 - i) 1 (Z.to_nat (count - 1));
      let new_count := match found with Some i => u16 (count - i) | None => count end in
      assert! bool_decide (new_count ≠ count);;
      Done (NTab min new_count live (NextTable (take (Z.to_nat new_count) table)))
    else Done (NTab min count live (NextTable table)).

Fixpoint trie_rm (prefix : list Z) (t : trie_t) : outcome (bool * trie_t) :=
  let '(Trie refcnt nt) := t in
  match prefix with
  | [] =>
      if decide (refcnt = 0) then Done (false, t)
      else
        let refcnt := u32 (refcnt - 1) in
        Done (bool_decide (refcnt = 0), Trie refcnt nt)
  | c :: prefix =>
      if bool_decide (nt_count nt = 0) || nt_out_of_range c nt then Done (false, t)
      else
        next_node ← nt_slot c nt;
        match next_node with
        | None => Done (false, t)
        | Some next_node =>
            '(ret, next_node) ← trie_rm prefix next_node;
            nt ← (if trie_is_redundant next_node then trie_prune c nt
                  else nt_store c (Some next_node) (nt_live nt) nt);
            Done (ret, Trie refcnt nt)
        end
  end.

(** [check]: the loop follows the data; [t] is [current]. *)
Fixpoint trie_check (t : trie_t) (data : list Z) : outcome bool :=
  let '(Trie refcnt nt) := t in
  if decide (refcnt ≠ 0) then Done true
  else
    match data with
    | [] => Done false
    | c :: data =>
        if nt_out_of_range c nt then Done false
        else if decide (nt_count nt = 1) then
          node ← get_node (nt_next nt);
          match node with Some n => trie_check n data | None => Undef end
        else
          table ← get_table (nt_next nt);
          slot ← geti table (c - nt_min nt);
          match slot with Some n => trie_check n data | None => Done false end
    end.

(** [realloc] of the shared buffer to [n] bytes: the first bytes are kept. *)
Definition realloc_buf (buff : list Z) (n : Z) : list Z :=
  take (Z.to_nat n) buff ++ replicate (Z.to_nat n - length buff) 0.

(** "If there are multiple subnodes": the loop of [apply_helper] over the table,
    from slot [c] on; [helper] is the recursive call. *)
Section apply_table.
Context (helper : trie_t → list Z → Z → Z → outcome (list Z * list (list Z))).
Context (min count buffsize maxbuffsize : Z).
Fixpoint apply_table (c : Z) (tab : list (option trie_t)) (buff : list Z)
    (calls : list (list Z)) {struct tab} : outcome (list Z * list (list Z)) :=
  match tab with
  | [] => if decide (c = count) then Done (buff, calls) else Undef
  | slot :: tab =>
      if decide (c = count) then Done (buff, calls)
      else
        buff ← seti buff buffsize (u8 (min + c));
        match slot with
        | None => apply_table (c + 1) tab buff calls
        | Some n =>
            '(buff, calls') ← helper n buff (buffsize + 1) maxbuffsize;
            apply_table (c + 1) tab buff (calls ++ calls')
        end
  end.
End apply_table.

(** [apply_helper]: the buffer after the call and the arguments of the calls of
    [func_], in order.  [buff] is shared by the whole traversal, [maxbuffsize]
    is passed by value. *)
Fixpoint trie_apply_helper (t : trie_t) (buff : list Z) (buffsize maxbuffsize : Z)
    : outcome (list Z * list (list Z)) :=
  let '(Trie refcnt (NTab min count live next)) := t in
  calls ← (if decide (refcnt ≠ 0) then
             if decide (buffsize ≤ Z.of_nat (length buff))
             then Done [take (Z.to_nat buffsize) buff] else Undef
           else Done []);
  let '(buff, maxbuffsize) :=
    if decide (maxbuffsize ≤ buffsize)
    then (realloc_buf buff (buffsize + 256), buffsize + 256) else (buff, maxbuffsize) in
  if decide (count = 0) then Done (buff, calls)
  else if decide (count = 1) then
    buff ← seti buff buffsize min;
    match next with
    | NextNode (Some n) =>
        '(buff, calls') ← trie_apply_helper n buff (buffsize + 1) maxbuffsize;
        Done (buff, calls ++ calls')
    | _ => Undef
    end
  else
    match next with
    | NextTable table =>
        apply_table trie_apply_helper min count buffsize maxbuffsize 0 table buff calls
    | _ => Undef
    end.

Definition trie_apply (t : trie_t) : outcome (list (list Z)) :=
  '(_, calls) ← trie_apply_helper t [] 0 0;
  Done calls.

(** ** [trie_with_size_t] *)

Record trie_with_size_t := TrieWithSize {
  tws_num_prefixes : Z;  (* atomic_counter_t, uint32_t *)
  tws_trie : trie_t;
}.

Definition tws_add (prefix : list Z) (t : trie_with_size_t) : outcome (bool * trie_with_size_t) :=
  '(isnew, tr) ← trie_add prefix (tws_trie t);
  if isnew : bool then Done (true, TrieWithSize (u32 (tws_num_prefixes t + 1)) tr)
  else Done (false, TrieWithSize (tws_num_prefixes t) tr).

Definition tws_rm (prefix : list Z) (t : trie_with_size_t) : outcome (bool * trie_with_size_t) :=
  '(removed, tr) ← trie_rm prefix (tws_trie t);
  if removed : bool then Done (true, TrieWithSize (u32 (tws_num_prefixes t - 1)) tr)
  else Done (false, TrieWithSize (tws_num_prefixes t) tr).

(** ** The abstract state *)

(** The reference count of a prefix, 0 for a prefix that is not in the trie. *)
Fixpoint trie_lookup (p : list Z) (t : trie_t) : Z :=
  match p with
  | [] => t_refcnt t
  | c :: p => match nt_child (t_nt t) c with Some n => trie_lookup p n | None => 0 end
  end.

(** The invariant: counts fit their width, every table is trimmed and its
    [_live_nodes] exact, and no child is redundant. *)
Inductive trie_wf : trie_t → Prop :=
| trie_wf_intro refcnt nt :
    0 ≤ refcnt < 2 ^ 32 → nt_shape nt →
    (∀ c n, nt_child nt c = Some n → trie_is_redundant n = false) →
    (∀ c n, nt_child nt c = Some n → trie_wf n) →
    trie_wf (Trie refcnt nt).

(** ** Lemmas *)

Lemma trie_prune_spec c nt n :
  nt_shape_at true 0 nt → nt_child nt c = Some n →
  ∃ nt', trie_prune c nt = Done nt' ∧ nt_shape nt'
    ∧ ∀ d, nt_child nt' d = if decide (d = c) then None else nt_child nt d.
Proof.
  destruct nt as [min count live [|no|tab]]; intros Hs Hch; [by destruct Hs as (_&_&_&[])| |].
  - destruct Hs as (Hmin & _ & Hmax & -> & -> & Hn). rewrite nt_child_node in Hch.
    case_decide; [subst|done]. simpl.
    eexists. split; [done|]. split; [by left|].
    intros d. rewrite nt_child_empty by done. rewrite nt_child_node. by repeat case_decide.
  - pose proof (nt_clear_spec min count live tab c n Hs Hch)
      as (Hlive & Hrng & Hl & Hcs & Hfst & Hlst & Hmid & Hchild).
    pose proof Hs as (Hmin & _ & Hmax & Hcnt & Hlen & _). unfold is_byte in *.
    unfold trie_prune. assert_ok.
    rewrite decide_False by lia. cbn [get_table mbind outcome_bind]. rewrite seti_in_range by lia.
    cbn [mbind outcome_bind]. set (tab' := <[Z.to_nat (c - min):=None]> tab) in *.
    assert_ok. rewrite u16_small by lia.
    destruct (decide (live - 1 = 1)) as [H1|H1].
    + (* one child left: it is at the end that was not pruned *)
      rewrite H1 in *.
      assert (Hsingle : ∃ i m, mjoin (tab' !! i) = Some m ∧
        (if decide (c = min) then
           node ← geti tab' (count - 1); Done (node, u8 (min + (count - 1)))
         else if decide (c = min + count - 1) then
           node ← geti tab' 0; Done (node, min)
         else Done (None, min)) = Done (Some m, min + Z.of_nat i)).
      { destruct (decide (c = min)) as [->|Hcm].
        - destruct Hlst as [m Hm]; [lia|]. exists (length tab' - 1)%nat, m. split; [done|].
          rewrite (geti_live _ _ (length tab' - 1)%nat m) by (done || lia). simpl.
          rewrite u8_small by lia. do 2 f_equal. lia.
        - destruct Hfst as [m Hm]; [done|]. exists 0%nat, m. split; [done|].
          rewrite decide_True; [rewrite (geti_live _ _ 0%nat m) by (done || lia); simpl;
            do 2 f_equal; lia|].
          destruct (decide (c = min + count - 1)) as [|Hce]; [done|]. destruct (Hlst Hce) as [y Hy].
          assert (2 ≤ count_some tab'); [|lia].
          apply (count_some_two tab' 0 (length tab' - 1)%nat m y); [lia| |];
            by apply mjoin_Some_lookup. }
      destruct Hsingle as (i & m & Hm & ->). simpl.
      eexists. split; [done|].
      destruct (nt_single_spec min count tab' i m) as [? Hc']; [done|done|lia|lia|done|].
      split; [done|]. intros d. by rewrite Hc', Hchild.
    + destruct (decide (c = min)) as [->|Hcm];
        [|destruct (decide (c = min + count - 1)) as [Hce|Hce]].
      * (* from the left *)
        unfold tab'. destruct (nt_trim_left min count live tab n) as (k & -> & Hk & Hsh & Hch'); [done|done|done|].
        rewrite bind_Done, u8_small by lia. do 3 assert_ok. rewrite u16_small by lia.
        replace (k + min - min) with k by lia. rewrite (Z.add_comm k).
        eexists. split; [done|]. by split.
      * (* from the right *)
        unfold tab'. destruct (nt_trim_right min count live tab n c) as (k & -> & Hk & Hsh & Hch'); [done..|].
        rewrite bind_Done, u16_small by lia. assert_ok. eexists. split; [done|]. by split.
      * eexists. split; [done|]. split; [|apply Hchild].
        right. simpl. split_and!; try (unfold is_byte; lia); eauto.
Qed.

Lemma trie_new_wf : trie_wf trie_new.
Proof.
  assert (H : ∀ c, nt_child (T := trie_t) nt_new c = None) by (intros; by apply nt_child_empty).
  constructor; [lia|by left| |]; intros c n; by rewrite H.
Qed.

Lemma trie_lookup_new p : trie_lookup p trie_new = 0.
Proof. destruct p as [|c p]; [done|]. simpl. by rewrite nt_child_empty. Qed.

Lemma trie_lookup_cons c p refcnt nt :
  trie_lookup (c :: p) (Trie refcnt nt) = trie_lookup p (default trie_new (nt_child nt c)).
Proof. simpl. destruct (nt_child nt c); [done|]. by rewrite trie_lookup_new. Qed.

Lemma trie_child_wf refcnt nt c :
  trie_wf (Trie refcnt nt) → trie_wf (default trie_new (nt_child nt c)).
Proof.
  inversion 1 as [? ? ? ? ? Hwf]; subst. destruct (nt_child nt c) as [n|] eqn:E; [eauto|].
  apply trie_new_wf.
Qed.

(** Replacing the table by one in which only the child of [c] changed. *)
Lemma trie_wf_update refcnt nt nt' c o :
  trie_wf (Trie refcnt nt) → nt_shape nt' →
  (∀ d, nt_child nt' d = if decide (d = c) then o else nt_child nt d) →
  (∀ n, o = Some n → trie_wf n ∧ trie_is_redundant n = false) →
  trie_wf (Trie refcnt nt').
Proof.
  inversion 1 as [? ? Hr Hs Hred Hwf]; subst. intros Hs' Hch Ho.
  constructor; [done|done| |]; intros d n; rewrite Hch; case_decide; intros E;
    first [by apply Ho|by eapply Hred|by eapply Hwf].
Qed.

Lemma trie_lookup_update refcnt nt nt' c o q :
  (∀ d, nt_child nt' d = if decide (d = c) then o else nt_child nt d) →
  trie_lookup q (Trie refcnt nt')
  = match q with
    | d :: q' => if decide (d = c) then trie_lookup q' (default trie_new o)
                 else trie_lookup q (Trie refcnt nt)
    | [] => refcnt
    end.
Proof.
  intros Hch. destruct q as [|d q]; [done|]. rewrite trie_lookup_cons, Hch.
  case_decide; [done|]. by rewrite trie_lookup_cons.
Qed.

Lemma trie_not_redundant_live refcnt nt :
  0 < nt_live nt → trie_is_redundant (Trie refcnt nt) = false.
Proof.
  intros. unfold trie_is_redundant. simpl. rewrite (bool_decide_false (nt_live nt = 0)) by lia.
  apply andb_false_r.
Qed.

(** Creating the child of [c], when there is none. *)
Lemma trie_child_create c (nt : ntab trie_t) :
  nt_shape_at false c nt → nt_min nt ≤ c < nt_min nt + nt_count nt →
  trie_next_node nt (nt_child nt c)
  = Done (default trie_new (nt_child nt c), nt_live nt - live1 (nt_child nt c) + 1).
Proof.
  intros Hs Hc. unfold trie_next_node.
  destruct (nt_child nt c) as [n|] eqn:E; simpl; [do 2 f_equal; lia|].
  destruct nt as [min count live next]. destruct Hs as (Hb & ? & ? & Hn).
  unfold is_byte in *. simpl in *. destruct next as [|n|tab]; [done| |].
  - destruct Hn as (-> & -> & _). rewrite nt_child_node, decide_True in E by lia. by subst.
  - destruct Hn as (? & Hl & -> & ? & _). pose proof (count_some_bounds tab).
    rewrite u16_small, decide_False, slk_assert_decide by lia. simpl. do 2 f_equal. lia.
Qed.

Lemma trie_add_spec p t :
  bytes_ok p → trie_wf t → trie_lookup p t + 1 < 2 ^ 32 →
  ∃ t', trie_add p t = Done (bool_decide (trie_lookup p t = 0), t')
    ∧ trie_wf t' ∧ trie_is_redundant t' = false
    ∧ ∀ q, trie_lookup q t' = if decide (q = p) then trie_lookup p t + 1 else trie_lookup q t.
Proof.
  revert t. induction p as [|c p IH]; intros [refcnt nt] Hp Hwf Hlt.
  - inversion Hwf as [? ? Hr Hs Hred Hch]; subst. simpl in *. rewrite u32_small by lia.
    eexists. split; [do 2 f_equal; apply bool_decide_ext; lia|].
    split; [constructor; auto with lia|]. split.
    + unfold trie_is_redundant. simpl. rewrite bool_decide_false by lia. done.
    + intros [|d q]; [done|]. by rewrite decide_False.
  - inversion Hp as [|? ? Hc Hp']; subst.
    inversion Hwf as [? ? Hr Hs _ _]; subst.
    destruct (nt_extend_spec c nt Hc Hs) as (nt1 & He & Hs1 & Hrng & Hl1 & Hch1).
    rewrite trie_lookup_cons in *. rewrite <- Hch1 in *.
    assert (Hwfn : trie_wf (default trie_new (nt_child nt1 c)))
      by (rewrite Hch1; by eapply trie_child_wf).
    destruct (IH _ Hp' Hwfn Hlt) as (n' & Hadd & Hwf' & Hred' & Hq').
    pose proof (nt_live_bounds nt Hs) as Hlb.
    destruct (nt_store_spec c n' nt1 (nt_live nt1 - live1 (nt_child nt1 c) + 1) Hs1 Hrng eq_refl)
      as (nt' & Hst & Hs' & Hlive' & _ & Hch').
    simpl. rewrite He. simpl. rewrite (nt_slot_spec _ _ _ _ Hs1 Hrng). simpl.
    rewrite (trie_child_create c nt1 Hs1 Hrng). simpl. rewrite Hadd. simpl. rewrite Hst. simpl.
    assert (Hch2 : ∀ d, nt_child nt' d = if decide (d = c) then Some n' else nt_child nt d)
      by (intros d; by rewrite Hch', Hch1).
    eexists. split; [done|]. split; [|split].
    + eapply trie_wf_update; [done|done|done|]. by intros ? [= <-].
    + apply trie_not_redundant_live. eapply nt_live_child; [done|].
      by rewrite (Hch2 c), decide_True.
    + intros q. rewrite (trie_lookup_update _ _ _ _ _ _ Hch2).
      destruct q as [|d q]; [by rewrite decide_False|].
      destruct (decide (d = c)) as [->|Hd].
      * simpl default. rewrite Hq', trie_lookup_cons, Hch1.
        repeat case_decide; congruence.
      * rewrite decide_False by congruence. done.
Qed.

Lemma trie_lookup_nonneg p t : trie_wf t → 0 ≤ trie_lookup p t < 2 ^ 32.
Proof.
  revert t. induction p as [|c p IH]; intros [refcnt nt] Hwf.
  - by inversion Hwf.
  - rewrite trie_lookup_cons. apply IH. by eapply trie_child_wf.
Qed.

Lemma trie_redundant_lookup p t : trie_wf t → trie_is_redundant t = true → trie_lookup p t = 0.
Proof.
  intros Hwf Hred. unfold trie_is_redundant in Hred.
  apply andb_true_iff in Hred as [H1%bool_decide_eq_true H2%bool_decide_eq_true].
  destruct t as [refcnt nt]. simpl in *. destruct p as [|c p]; [done|]. simpl.
  destruct (nt_child nt c) as [n|] eqn:E; [|done].
  inversion Hwf; subst. by pose proof (nt_live_child nt c n ltac:(done) E); lia.
Qed.

Lemma trie_rm_spec p t :
  trie_wf t →
  ∃ t', trie_rm p t = Done (bool_decide (trie_lookup p t = 1), t')
    ∧ trie_wf t'
    ∧ ∀ q, trie_lookup q t' =
        if decide (q = p) then Z.max 0 (trie_lookup p t - 1) else trie_lookup q t.
Proof.
  revert t. induction p as [|c p IH]; intros [refcnt nt] Hwf.
  - inversion Hwf as [? ? Hr Hs Hred Hch]; subst. simpl. case_decide as H0.
    + subst. eexists. split; [done|]. split; [done|].
      intros [|d q]; [done|]. by rewrite decide_False.
    + rewrite u32_small by lia. eexists. split; [do 2 f_equal; apply bool_decide_ext; lia|].
      split; [constructor; auto with lia|].
      intros [|d q]; [simpl; lia|]. by rewrite decide_False.
  - rewrite trie_lookup_cons.
    assert (Hsame : nt_child nt c = None →
      ∀ q, trie_lookup q (Trie refcnt nt)
        = if decide (q = c :: p) then Z.max 0 (trie_lookup p (default trie_new (nt_child nt c)) - 1)
          else trie_lookup q (Trie refcnt nt)).
    { intros Hn q. case_decide; [|done]. subst q. rewrite trie_lookup_cons, Hn. simpl.
      by rewrite trie_lookup_new. }
    simpl. destruct (bool_decide (nt_count nt = 0) || nt_out_of_range c nt) eqn:Hr.
    { assert (Hn : nt_child nt c = None).
      { apply orb_true_iff in Hr as [H0%bool_decide_eq_true|Hr];
          [by apply nt_child_empty|by apply nt_out_of_range_child]. }
      eexists. split; [|split; [done|by apply Hsame]].
      rewrite Hn. simpl. by rewrite trie_lookup_new. }
    apply orb_false_iff in Hr as [_ Hr]. inversion Hwf as [? ? Hrc Hs _ _]; subst.
    pose proof (nt_shape_in_range nt c Hs Hr) as Hs1.
    apply nt_out_of_range_spec in Hr as Hrng.
    rewrite (nt_slot_spec _ _ _ _ Hs1 Hrng). simpl.
    destruct (nt_child nt c) as [n|] eqn:En.
    2:{ eexists. split; [|split; [done|by apply Hsame]]. simpl. by rewrite trie_lookup_new. }
    assert (Hwfn : trie_wf n) by (by pose proof (trie_child_wf refcnt nt c Hwf); rewrite En in *).
    destruct (IH n Hwfn) as (n' & Hrm & Hwfn' & Hq'). rewrite Hrm. simpl.
    assert (Hnt : ∃ nt' o, (if trie_is_redundant n' then trie_prune c nt
                            else nt_store c (Some n') (nt_live nt) nt) = Done nt'
      ∧ nt_shape nt' ∧ (∀ d, nt_child nt' d = if decide (d = c) then o else nt_child nt d)
      ∧ (∀ m, o = Some m → trie_wf m ∧ trie_is_redundant m = false)
      ∧ ∀ q, trie_lookup q (default trie_new o) = trie_lookup q n').
    { destruct (trie_is_redundant n') eqn:Hred.
      - destruct (trie_prune_spec c nt n Hs1 En) as (nt' & ? & ? & ?).
        exists nt', None. split_and!; try done. intros q. simpl.
        by rewrite trie_lookup_new, trie_redundant_lookup.
      - destruct (nt_store_spec c n' nt (nt_live nt)) as (nt' & ? & ? & _ & _ & ?);
          [auto with serverlink|done|rewrite En; simpl; lia|].
        exists nt', (Some n'). split_and!; try done. by intros ? [= <-]. }
    destruct Hnt as (nt' & o & -> & Hs' & Hch & Ho & Hlk). simpl.
    eexists. split; [done|]. split; [by eapply trie_wf_update|].
    intros q. rewrite (trie_lookup_update _ _ _ _ _ _ Hch).
    destruct q as [|d q]; [by rewrite decide_False|].
    destruct (decide (d = c)) as [->|Hd].
    + rewrite Hlk, Hq'. rewrite trie_lookup_cons, En. simpl.
      repeat case_decide; congruence.
    + rewrite decide_False by congruence. done.
Qed.

Lemma trie_check_spec t data :
  trie_wf t →
  ∃ b, trie_check t data = Done b
    ∧ (b = true ↔ ∃ p, p `prefix_of` data ∧ 0 < trie_lookup p t).
Proof.
  revert t. induction data as [|c data IH]; intros [refcnt nt] Hwf;
    inversion Hwf as [? ? Hr Hs _ _]; subst; simpl; case_decide as H0.
  1,3: eexists; (split; [done|]); split; [|done]; intros _; exists []; simpl;
    split; [apply prefix_nil|lia].
  - eexists. split; [done|]. split; [done|]. intros (p & ->%prefix_nil_inv & Hp). simpl in *. lia.
  - assert (Hcons : ∀ (P : Prop), (P ↔ ∃ p, p `prefix_of` data ∧
        0 < trie_lookup p (default trie_new (nt_child nt c))) →
      (P ↔ ∃ p, p `prefix_of` c :: data ∧ 0 < trie_lookup p (Trie refcnt nt))).
    { intros P ->. split.
      - intros (p & Hp & Hl). exists (c :: p). rewrite trie_lookup_cons.
        split; [by apply prefix_cons|done].
      - intros ([|d p] & Hp & Hl); [simpl in Hl; lia|].
        apply prefix_cons_inv_1 in Hp as Hd. apply prefix_cons_inv_2 in Hp. subst d.
        exists p. by rewrite trie_lookup_cons in Hl. }
    assert (Hnone : nt_child nt c = None →
      ∃ b, Done false = Done b ∧ (b = true ↔ ∃ p, p `prefix_of` c :: data ∧
        0 < trie_lookup p (Trie refcnt nt))).
    { intros Hn. exists false. split; [done|]. apply Hcons. rewrite Hn. simpl.
      split; [done|]. intros (p & _ & Hp). rewrite trie_lookup_new in Hp. lia. }
    assert (Hsome : ∀ n, nt_child nt c = Some n →
      ∃ b, trie_check n data = Done b ∧ (b = true ↔ ∃ p, p `prefix_of` c :: data ∧
        0 < trie_lookup p (Trie refcnt nt))).
    { intros n Hn. pose proof (trie_child_wf refcnt nt c Hwf) as Hwfn. rewrite Hn in Hwfn.
      destruct (IH n Hwfn) as (b & -> & Hb). exists b. split; [done|]. apply Hcons.
      by rewrite Hn. }
    destruct (nt_out_of_range c nt) eqn:Hr'; [by apply Hnone, nt_out_of_range_child|].
    pose proof (nt_shape_in_range nt c Hs Hr') as Hs1.
    apply nt_out_of_range_spec in Hr' as Hrng.
    pose proof (nt_slot_spec _ _ _ _ Hs1 Hrng) as Hslot. unfold nt_slot in Hslot.
    case_decide as Hc1.
    + rewrite Hslot. simpl. destruct (nt_child nt c) as [n|] eqn:En; [by apply Hsome|].
      exfalso. destruct nt as [min count live [|o|tab]]; destruct Hs1 as (_ & _ & _ & Hn);
        simpl in *; [done| |lia].
      destruct Hn as (-> & _ & [n ->]%(λ H, H eq_refl)).
      rewrite nt_child_node, decide_True in En by lia. done.
    + destruct (get_table (nt_next nt)) as [tab| |]; simpl in *; [|done|done].
      rewrite Hslot. simpl. destruct (nt_child nt c) as [n|] eqn:En; [by apply Hsome|by apply Hnone].
Qed.

(** ** Enumeration *)

(** What a call of [apply_helper] on [t] guarantees: no access outside the
    buffer, the path in the buffer and its capacity kept, and one call of the
    callback for each subscription below the path. *)
Definition apply_ok (t : trie_t) : Prop :=
  ∀ (buff : list Z) (bs mbs : Z),
    0 ≤ bs ≤ Z.of_nat (length buff) → mbs ≤ Z.of_nat (length buff) →
    ∃ buff' calls, trie_apply_helper t buff bs mbs = Done (buff', calls)
      ∧ take (Z.to_nat bs) buff' = take (Z.to_nat bs) buff
      ∧ bs ≤ Z.of_nat (length buff') ∧ mbs ≤ Z.of_nat (length buff')
      ∧ NoDup calls
      ∧ ∀ p : list Z, p ∈ calls ↔ ∃ q, p = take (Z.to_nat bs) buff ++ q ∧ 0 < trie_lookup q t.

(** The buffer with the next character of the path. *)
Lemma path_extend (buff : list Z) bs c :
  0 ≤ bs < Z.of_nat (length buff) →
  take (Z.to_nat (bs + 1)) (<[Z.to_nat bs:=c]> buff) = take (Z.to_nat bs) buff ++ [c].
Proof.
  intros H. replace (Z.to_nat (bs + 1)) with (S (Z.to_nat bs)) by lia.
  rewrite (take_S_r _ _ c) by (apply list_lookup_insert_eq; lia).
  by rewrite take_insert_ge by lia.
Qed.

Lemma take_path_back {A} (l1 l2 : list A) bs :
  0 ≤ bs → take (Z.to_nat (bs + 1)) l1 = take (Z.to_nat (bs + 1)) l2 →
  take (Z.to_nat bs) l1 = take (Z.to_nat bs) l2.
Proof.
  intros Hbs H. apply (f_equal (take (Z.to_nat bs))) in H.
  rewrite !take_take in H. by rewrite !min_l in H by lia.
Qed.

Lemma apply_table_spec min count bs mbs c tab buff calls :
  (∀ i n, tab !! i = Some (Some n) → apply_ok n) →
  0 ≤ min → 0 ≤ c → c + Z.of_nat (length tab) = count → min + count ≤ 256 →
  0 ≤ bs < mbs → mbs ≤ Z.of_nat (length buff) →
  ∃ buff' calls',
    apply_table trie_apply_helper min count bs mbs c tab buff calls = Done (buff', calls ++ calls')
    ∧ take (Z.to_nat bs) buff' = take (Z.to_nat bs) buff
    ∧ mbs ≤ Z.of_nat (length buff')
    ∧ NoDup calls'
    ∧ ∀ p : list Z, p ∈ calls' ↔ ∃ i n q, tab !! i = Some (Some n)
        ∧ p = take (Z.to_nat bs) buff ++ (min + c + Z.of_nat i) :: q ∧ 0 < trie_lookup q n.
Proof.
  revert c buff calls. induction tab as [|slot tab IH]; intros c buff calls Hok Hmin Hc Hcnt Hmax Hbs Hmbs;
    simpl in *.
  { rewrite decide_True by lia. exists buff, []. rewrite app_nil_r.
    split_and!; try done; [constructor|]. intros p. split; [by intros ?%elem_of_nil|].
    intros (i & n & q & Hi & _). by rewrite lookup_nil in Hi. }
  rewrite decide_False by lia. rewrite seti_in_range by lia. simpl.
  rewrite u8_small by lia. set (buff1 := <[Z.to_nat bs:=min + c]> buff).
  assert (Hl1 : length buff1 = length buff) by apply length_insert.
  assert (Ht1 : take (Z.to_nat bs) buff1 = take (Z.to_nat bs) buff) by (apply take_insert_ge; lia).
  assert (Hok' : ∀ i n, tab !! i = Some (Some n) → apply_ok n) by (intros i n; apply (Hok (S i))).
  destruct slot as [n|].
  - destruct (Hok 0%nat n eq_refl buff1 (bs + 1) mbs) as (buff2 & calls2 & Hh & Ht2 & _ & Hm2 & Hnd2 & Hin2);
      [lia|lia|].
    rewrite Hh. simpl.
    destruct (IH (c + 1) buff2 (calls ++ calls2)) as (buff3 & calls3 & -> & Ht3 & Hm3 & Hnd3 & Hin3);
      try done; try lia.
    apply take_path_back in Ht2; [|lia].
    assert (Hp : take (Z.to_nat (bs + 1)) buff1 = take (Z.to_nat bs) buff ++ [min + c])
      by (apply path_extend; lia).
    exists buff3, (calls2 ++ calls3). rewrite <- app_assoc.
    split_and!; [done|congruence|done| |].
    + apply NoDup_app. split_and!; [done| |done].
      intros p (q & -> & _)%Hin2 (i & m & q' & _ & Hq & _)%Hin3.
      rewrite Hp, Ht2, Ht1, <- app_assoc in Hq. apply app_inj_1 in Hq as [_ Hq]; [|done].
      simpl in Hq. injection Hq as Hq _. lia.
    + intros p. rewrite elem_of_app, Hin2, Hin3, Hp, Ht2, Ht1. split.
      * intros [(q & -> & Hq)|(i & m & q & Hi & -> & Hq)].
        -- exists 0%nat, n, q. rewrite <- app_assoc.
           split_and!; [done| |done]. simpl. do 2 f_equal. lia.
        -- exists (S i), m, q. split_and!; [done| |done]. do 2 f_equal. lia.
      * intros ([|i] & m & q & Hi & -> & Hq); simplify_eq/=.
        -- left. exists q. rewrite <- app_assoc. split; [|done]. simpl. do 2 f_equal. lia.
        -- right. exists i, m, q. split_and!; [done| |done]. do 2 f_equal. lia.
  - destruct (IH (c + 1) buff1 calls) as (buff3 & calls3 & -> & Ht3 & Hm3 & Hnd3 & Hin3);
      try done; try lia.
    exists buff3, calls3. split_and!; [done|congruence|done|done|].
    intros p. rewrite Hin3, Ht1. split.
    + intros (i & m & q & Hi & -> & Hq). exists (S i), m, q.
      split_and!; [done| |done]. do 2 f_equal. lia.
    + intros ([|i] & m & q & Hi & -> & Hq); simplify_eq/=.
      exists i, m, q. split_and!; [done| |done]. do 2 f_equal. lia.
Qed.

Lemma realloc_buf_spec buff n :
  0 ≤ n → Z.of_nat (length (realloc_buf buff n)) = n
  ∧ ∀ k, (k ≤ length buff)%nat → Z.of_nat k ≤ n → take k (realloc_buf buff n) = take k buff.
Proof.
  intros Hn. unfold realloc_buf. split.
  - rewrite length_app, length_take, length_replicate. lia.
  - intros k Hk Hkn. rewrite take_app_le by (rewrite length_take; lia).
    rewrite take_take. by rewrite min_l by lia.
Qed.

(** The calls below a node are the node's own subscription and those of its
    children, one group per character. *)
Lemma apply_calls_spec refcnt (nt : ntab trie_t) (path : list Z) (own sub : list (list Z)) :
  own = (if decide (refcnt ≠ 0) then [path] else []) → 0 ≤ refcnt →
  NoDup sub →
  (∀ p : list Z, p ∈ sub ↔ ∃ c n q, nt_child nt c = Some n ∧ p = path ++ c :: q
      ∧ 0 < trie_lookup q n) →
  NoDup (own ++ sub) ∧
  ∀ p : list Z, p ∈ own ++ sub ↔ ∃ q, p = path ++ q ∧ 0 < trie_lookup q (Trie refcnt nt).
Proof.
  intros -> Hr Hnd Hsub. split.
  - apply NoDup_app. split_and!; [case_decide; [apply NoDup_singleton|constructor]| |done].
    intros p Hp. case_decide; [|by apply elem_of_nil in Hp].
    apply list_elem_of_singleton in Hp as ->. intros (c & n & q & _ & Hq & _)%Hsub.
    rewrite <- (app_nil_r path) in Hq at 1. by apply app_inv_head in Hq.
  - intros p. rewrite elem_of_app, Hsub. split.
    + intros [Hp|(c & n & q & Hc & -> & Hq)].
      * case_decide; [|by apply elem_of_nil in Hp]. apply list_elem_of_singleton in Hp as ->.
        exists []. rewrite app_nil_r. simpl. split; [done|lia].
      * exists (c :: q). simpl. by rewrite Hc.
    + intros ([|c q] & -> & Hq).
      * left. simpl in Hq. rewrite decide_True by lia. rewrite app_nil_r. set_solver.
      * right. simpl in Hq. destruct (nt_child nt c) as [n|] eqn:E; [|lia]. by exists c, n, q.
Qed.

Lemma apply_helper_ok t : trie_wf t → apply_ok t.
Proof.
  induction 1 as [refcnt nt Hr Hs _ Hwf IH]. intros buff bs mbs Hbs Hmbs.
  destruct nt as [min count live next]. simpl.
  set (own := if decide (refcnt ≠ 0) then [take (Z.to_nat bs) buff] else []).
  assert (Hown : (if decide (refcnt ≠ 0) then
      if decide (bs ≤ Z.of_nat (length buff)) then Done [take (Z.to_nat bs) buff] else Undef
    else Done []) = Done own).
  { unfold own. case_decide; [|done]. by rewrite decide_True by lia. }
  rewrite Hown. cbn [mbind outcome_bind].
  set (pair := if decide (mbs ≤ bs) then _ else _).
  assert (Hb1 : ∃ buff1 mbs1, pair = (buff1, mbs1) ∧ bs < mbs1 ≤ Z.of_nat (length buff1)
    ∧ mbs ≤ mbs1 ∧ take (Z.to_nat bs) buff1 = take (Z.to_nat bs) buff).
  { unfold pair. destruct (decide (mbs ≤ bs)).
    - destruct (realloc_buf_spec buff (bs + 256)) as [Hl Ht]; [lia|].
      eexists _, _. split; [done|]. rewrite Hl. split_and!; try lia. apply Ht; lia.
    - eexists _, _. split; [done|]. split_and!; try lia. done. }
  destruct Hb1 as (buff1 & mbs1 & -> & Hb1 & Hm1 & Ht1).
  assert (Hfinish : ∀ buff' sub,
    take (Z.to_nat bs) buff' = take (Z.to_nat bs) buff1 → mbs1 ≤ Z.of_nat (length buff') →
    NoDup sub →
    (∀ p : list Z, p ∈ sub ↔ ∃ c n q, nt_child (NTab min count live next) c = Some n
       ∧ p = take (Z.to_nat bs) buff ++ c :: q ∧ 0 < trie_lookup q n) →
    ∃ buff'' calls, Done (buff', own ++ sub) = Done (buff'', calls)
      ∧ take (Z.to_nat bs) buff'' = take (Z.to_nat bs) buff
      ∧ bs ≤ Z.of_nat (length buff'') ∧ mbs ≤ Z.of_nat (length buff'')
      ∧ NoDup calls
      ∧ ∀ p : list Z, p ∈ calls ↔ ∃ q, p = take (Z.to_nat bs) buff ++ q
          ∧ 0 < trie_lookup q (Trie refcnt (NTab min count live next))).
  { intros buff' sub Ht Hl Hnd Hsub. eexists _, _. split; [done|].
    destruct (apply_calls_spec refcnt (NTab min count live next) (take (Z.to_nat bs) buff) own sub)
      as [? ?]; try done; [lia|].
    split_and!; try done; [congruence|lia|lia]. }
  destruct Hs as [[Hc0 _]|(Hmin & Hcnt & Hmax & Hn)]; simpl in *.
  { rewrite decide_True by done. rewrite <- (app_nil_r own). apply Hfinish; [done|lia|constructor|].
    intros p. split; [by intros ?%elem_of_nil|]. intros (c & n & q & Hc & _).
    by rewrite nt_child_empty in Hc. }
  rewrite decide_False by lia. unfold is_byte in *. destruct next as [|o|tab]; [done| |].
  - destruct Hn as (-> & _ & [n ->]%(λ H, H eq_refl)). rewrite decide_True by done.
    rewrite seti_in_range by lia. cbn [mbind outcome_bind].
    destruct (IH min n) with (buff := <[Z.to_nat bs:=min]> buff1) (bs := bs + 1) (mbs := mbs1)
      as (buff2 & calls2 & Hh & Ht2 & _ & Hm2 & Hnd2 & Hin2);
      [by rewrite nt_child_node, decide_True|rewrite length_insert; lia|rewrite length_insert; lia|].
    rewrite Hh. cbn [mbind outcome_bind]. apply take_path_back in Ht2 as Ht2'; [|lia].
    rewrite take_insert_ge in Ht2' by lia. apply Hfinish; [done|done|done|].
    intros p. rewrite Hin2, path_extend, Ht1 by lia. setoid_rewrite nt_child_node. split.
    + intros (q & -> & Hq). exists min, n, q. rewrite decide_True by done.
      by rewrite <- app_assoc.
    + intros (c & m & q & Hc & -> & Hq).
      destruct (decide (c = min)) as [->|]; simplify_eq.
      exists q. by rewrite <- app_assoc.
  - destruct Hn as (Hcnt2 & Hl & _). rewrite decide_False by lia.
    destruct (apply_table_spec min count bs mbs1 0 tab buff1 own)
      as (buff2 & calls2 & -> & Ht2 & Hm2 & Hnd2 & Hin2); try lia.
    { intros i n Hi. apply (IH (min + Z.of_nat i)).
      rewrite nt_child_table, decide_True by lia.
      replace (Z.to_nat (min + Z.of_nat i - min)) with i by lia. by rewrite Hi. }
    apply Hfinish; [done|done|done|]. intros p. rewrite Hin2, Ht1. split.
    + intros (i & n & q & Hi & -> & Hq). exists (min + Z.of_nat i), n, q.
      rewrite nt_child_table, decide_True by lia.
      replace (Z.to_nat (min + Z.of_nat i - min)) with i by lia. rewrite Hi.
      split_and!; [done| |done]. do 2 f_equal. lia.
    + intros (c & n & q & Hc & -> & Hq). rewrite nt_child_table in Hc by done.
      destruct (decide (min ≤ c)); [|done]. apply mjoin_Some_lookup in Hc.
      exists (Z.to_nat (c - min)), n, q. split_and!; [done| |done]. do 2 f_equal. lia.
Qed.

Lemma trie_apply_spec t :
  trie_wf t →
  ∃ calls, trie_apply t = Done calls ∧ NoDup calls
    ∧ ∀ p : list Z, p ∈ calls ↔ 0 < trie_lookup p t.
Proof.
  intros Hwf. destruct (apply_helper_ok t Hwf [] 0 0) as (b & calls & H & _ & _ & _ & Hnd & Hin);
    [simpl; lia..|].
  exists calls. unfold trie_apply. rewrite H. split; [done|]. split; [done|].
  intros p. rewrite Hin. simpl. split; [by intros (q & -> & ?)|]. intros. by exists p.
Qed.

(** Every node that is not redundant leads to a subscription. *)
Lemma trie_not_redundant_sub t :
  trie_wf t → trie_is_redundant t = false → ∃ p, 0 < trie_lookup p t.
Proof.
  induction 1 as [refcnt nt Hr Hs Hred _ IH]. unfold trie_is_redundant. simpl.
  destruct (decide (refcnt = 0)) as [H0|H0]; [|intros _; exists []; simpl; lia].
  rewrite bool_decide_true by done. simpl. intros Hl%bool_decide_eq_false.
  destruct (nt_count_child nt Hs) as [n Hn].
  { intros Hc. destruct Hs as [[_ ?]|Hs]; [done|]. destruct nt; destruct Hs as (_ & ? & _).
    simpl in *. lia. }
  destruct (IH _ n Hn) as [p Hp]; [by eapply Hred|].
  exists (nt_min nt :: p). simpl. by rewrite Hn.
Qed.

(** ** The abstract specification: a multiset of prefixes *)

Inductive sub_op := SubAdd (prefix : list Z) | SubRm (prefix : list Z).

Definition op_prefix (o : sub_op) : list Z := match o with SubAdd p | SubRm p => p end.

Definition prefix_counts := list Z → Z.

(** [add] reports whether the prefix is new, [rm] whether its last occurrence
    was removed. *)
Definition counts_step (m : prefix_counts) (o : sub_op) : bool * prefix_counts :=
  match o with
  | SubAdd p => (bool_decide (m p = 0), λ q, if decide (q = p) then m p + 1 else m q)
  | SubRm p => (bool_decide (m p = 1), λ q, if decide (q = p) then Z.max 0 (m p - 1) else m q)
  end.

Fixpoint counts_run (m : prefix_counts) (os : list sub_op) : list bool * prefix_counts :=
  match os with
  | [] => ([], m)
  | o :: os =>
      let '(b, m) := counts_step m o in
      let '(bs, m) := counts_run m os in (b :: bs, m)
  end.

Definition tws_step (t : trie_with_size_t) (o : sub_op) : outcome (bool * trie_with_size_t) :=
  match o with SubAdd p => tws_add p t | SubRm p => tws_rm p t end.

Fixpoint tws_run (t : trie_with_size_t) (os : list sub_op)
    : outcome (list bool * trie_with_size_t) :=
  match os with
  | [] => Done ([], t)
  | o :: os =>
      '(b, t) ← tws_step t o;
      '(bs, t) ← tws_run t os;
      Done (b :: bs, t)
  end.

Definition tws_new : trie_with_size_t := TrieWithSize 0 trie_new.

(** The simulation relation; [n] bounds every count. *)
Record tws_rel (n : Z) (m : prefix_counts) (t : trie_with_size_t) : Prop := {
  rel_wf : trie_wf (tws_trie t);
  rel_counts : ∀ p, trie_lookup p (tws_trie t) = m p;
  rel_bound : ∀ p, m p ≤ n;
  rel_size : ∃ calls, trie_apply (tws_trie t) = Done calls
               ∧ tws_num_prefixes t = Z.of_nat (length calls)
               ∧ tws_num_prefixes t ≤ n;
}.

(** The number of live prefixes after a step that changed the count of [p] only. *)
Lemma live_prefixes_change (t t' : trie_t) (p : list Z) calls calls' :
  NoDup calls → (∀ q : list Z, q ∈ calls ↔ 0 < trie_lookup q t) →
  NoDup calls' → (∀ q : list Z, q ∈ calls' ↔ 0 < trie_lookup q t') →
  (∀ q, q ≠ p → trie_lookup q t' = trie_lookup q t) →
  Z.of_nat (length calls') + (if decide (0 < trie_lookup p t) then 1 else 0)
  = Z.of_nat (length calls) + (if decide (0 < trie_lookup p t') then 1 else 0).
Proof.
  intros Hnd Hin Hnd' Hin' Heq.
  pose (f := λ l : list (list Z), filter (λ q, q ≠ p) l).
  assert (Hsplit : ∀ l : list (list Z), NoDup l →
    Z.of_nat (length l) = Z.of_nat (length (f l)) + (if decide (p ∈ l) then 1 else 0)).
  { intros l Hl. induction Hl as [|x l Hx Hl IH]; [done|].
    unfold f in *. rewrite filter_cons. simpl.
    destruct (decide (x = p)) as [->|Hxp].
    - rewrite decide_False by (by intros H). rewrite decide_False in IH by done.
      rewrite decide_True by set_solver. lia.
    - rewrite decide_True by done. simpl.
      destruct (decide (p ∈ l)); [rewrite decide_True by set_solver|rewrite decide_False by set_solver]; lia. }
  assert (Hperm : length (f calls) = length (f calls')).
  { apply Permutation_length, NoDup_Permutation; [by apply NoDup_filter..|].
    intros q. unfold f. rewrite !list_elem_of_filter, Hin, Hin'. split; intros [Hq ?];
      (split; [done|]); [by rewrite Heq|by rewrite <- Heq]. }
  rewrite (Hsplit calls), (Hsplit calls'), Hperm by done.
  rewrite (decide_ext (p ∈ calls) (0 < trie_lookup p t)) by done.
  rewrite (decide_ext (p ∈ calls') (0 < trie_lookup p t')) by done. lia.
Qed.

Lemma tws_step_simulates n m t o :
  bytes_ok (op_prefix o) → n + 1 < 2 ^ 32 → tws_rel n m t →
  ∃ t', tws_step t o = Done ((counts_step m o).1, t') ∧ tws_rel (n + 1) (counts_step m o).2 t'.
Proof.
  intros Hb Hn [Hwf Hcnt Hbd (calls & Hap & Hsz & Hszn)].
  destruct (trie_apply_spec _ Hwf) as (calls0 & Hap0 & Hnd & Hin).
  rewrite Hap in Hap0. injection Hap0 as <-.
  assert (Hfin : ∀ (b : bool) (t' : trie_t) m' num',
    trie_wf t' → (∀ q, trie_lookup q t' = m' q) →
    (∀ q, q ≠ op_prefix o → m' q = m q) → m' (op_prefix o) ≤ n + 1 →
    num' + (if decide (0 < m (op_prefix o)) then 1 else 0)
      = tws_num_prefixes t + (if decide (0 < m' (op_prefix o)) then 1 else 0) →
    num' ≤ n + 1 →
    ∃ t'', Done (b, TrieWithSize num' t') = Done (b, t'') ∧ tws_rel (n + 1) m' t'').
  { intros b t' m' num' Hwf' Hm' Hq Hp Hnum Hle. eexists. split; [done|].
    destruct (trie_apply_spec _ Hwf') as (calls' & Hap' & Hnd' & Hin').
    pose proof (live_prefixes_change _ _ (op_prefix o) _ _ Hnd Hin Hnd' Hin') as Hlen.
    rewrite Hm', Hcnt in Hlen. split; simpl; [done|done| |].
    - intros q. destruct (decide (q = op_prefix o)) as [->|]; [done|].
      rewrite Hq by done. specialize (Hbd q). lia.
    - exists calls'. split; [done|]. split; [|done].
      enough (Z.of_nat (length calls') + (if decide (0 < m (op_prefix o)) then 1 else 0)
        = Z.of_nat (length calls) + (if decide (0 < m' (op_prefix o)) then 1 else 0)) by lia.
      apply Hlen. intros q Hqo. by rewrite Hm', Hcnt, Hq. }
  assert (Hpos : 0 < m (op_prefix o) → 0 < tws_num_prefixes t).
  { rewrite <- Hcnt, <- Hin, Hsz. destruct calls; simpl; [by intros ?%elem_of_nil|lia]. }
  destruct o as [p|p]; simpl in *.
  - destruct (trie_add_spec p _ Hb Hwf) as (t' & Hadd & Hwf' & _ & Hl');
      [rewrite Hcnt; specialize (Hbd p); lia|].
    unfold tws_add. rewrite Hadd. cbn [mbind outcome_bind]. rewrite Hcnt in *.
    pose proof (trie_lookup_nonneg p _ Hwf) as Hp0. rewrite Hcnt in Hp0. specialize (Hbd p).
    rewrite u32_small by lia.
    case_bool_decide as Hm0; apply Hfin; try done.
    all: try (intros q; rewrite Hl', ?Hcnt; by case_decide).
    all: intros; repeat case_decide; congruence || lia.
  - destruct (trie_rm_spec p _ Hwf) as (t' & Hrm & Hwf' & Hl').
    unfold tws_rm. rewrite Hrm. cbn [mbind outcome_bind]. rewrite Hcnt in *.
    pose proof (trie_lookup_nonneg p _ Hwf) as Hp0. rewrite Hcnt in Hp0. specialize (Hbd p).
    case_bool_decide as Hm1; rewrite ?u32_small by lia; apply Hfin; try done.
    all: try (intros q; rewrite Hl', ?Hcnt; by case_decide).
    all: intros; repeat case_decide; congruence || lia.
Qed.

Lemma tws_run_simulates os n m t :
  Forall (λ o, bytes_ok (op_prefix o)) os → n + Z.of_nat (length os) < 2 ^ 32 → tws_rel n m t →
  ∃ t', tws_run t os = Done ((counts_run m os).1, t')
    ∧ tws_rel (n + Z.of_nat (length os)) (counts_run m os).2 t'.
Proof.
  revert n m t. induction os as [|o os IH]; intros n m t Hos Hn Hrel; simpl in *.
  - exists t. split; [done|]. by rewrite Z.add_0_r.
  - inversion Hos; subst.
    destruct (tws_step_simulates n m t o) as (t1 & -> & Hrel1); [done|lia|done|]. simpl.
    destruct (counts_step m o) as [b m1]. simpl in *.
    destruct (IH (n + 1) m1 t1) as (t2 & -> & Hrel2); [done|lia|done|]. simpl.
    destruct (counts_run m1 os) as [bs m2]. simpl in *.
    exists t2. split; [done|]. by replace (n + Z.of_nat (S (length os)))
      with (n + 1 + Z.of_nat (length os)) by lia.
Qed.

Lemma tws_new_rel : tws_rel 0 (λ _, 0) tws_new.
Proof.
  split; simpl; [apply trie_new_wf|apply trie_lookup_new|lia|]. by exists [].
Qed.

(** ** Properties *)

(** C8: refinement.  Every sequence of [add] and [rm] calls on a fresh subscription
    trie completes (no assertion of the code fails, no table access is out of
    range, the union is always read through its live member) and returns what
    the multiset of prefixes returns; afterwards [check] accepts exactly the data
    with a subscribed prefix, [apply] enumerates each subscribed prefix once and
    [num_prefixes] is their number. *)
Theorem trie_refines_multiset (os : list sub_op) (data : list Z) :
  Forall (λ o, bytes_ok (op_prefix o)) os → Z.of_nat (length os) < 2 ^ 32 →
  let '(bs, m) := counts_run (λ _, 0) os in
  ∃ t calls b,
    tws_run tws_new os = Done (bs, t)
    ∧ trie_check (tws_trie t) data = Done b
    ∧ (b = true ↔ ∃ p, p `prefix_of` data ∧ 0 < m p)
    ∧ trie_apply (tws_trie t) = Done calls
    ∧ NoDup calls ∧ (∀ p : list Z, p ∈ calls ↔ 0 < m p)
    ∧ tws_num_prefixes t = Z.of_nat (length calls).
Proof.
  intros Hos Hn.
  destruct (tws_run_simulates os 0 (λ _, 0) tws_new Hos Hn tws_new_rel) as (t & Hrun & Hrel).
  destruct (counts_run _ os) as [bs m]. simpl in *.
  destruct Hrel as [Hwf Hcnt _ (calls & Hap & Hsz & _)].
  destruct (trie_check_spec _ data Hwf) as (b & Hb & Hb').
  destruct (trie_apply_spec _ Hwf) as (calls' & Hap' & Hnd & Hin).
  rewrite Hap in Hap'. injection Hap' as <-.
  exists t, calls, b. setoid_rewrite Hcnt in Hb'. setoid_rewrite Hcnt in Hin. done.
Qed.

Definition trie_example_ops : list sub_op :=
  [SubAdd [97; 98]; SubAdd [97; 122]; SubAdd [97]; SubAdd [97; 98]; SubRm [97; 122];
   SubRm [97]; SubRm [5]].

Lemma trie_refines_multiset_witness :
  ∃ t, tws_run tws_new trie_example_ops
       = Done ([true; true; true; false; true; true; false], t)
    ∧ trie_apply (tws_trie t) = Done [[97; 98]].
Proof.
  assert (Hb : Forall (λ o, bytes_ok (op_prefix o)) trie_example_ops).
  { repeat constructor; unfold is_byte; lia. }
  pose proof (trie_refines_multiset trie_example_ops [97; 98; 1] Hb eq_refl) as H.
  destruct H as (t & calls & b & Hrun & _). exists t. split; [exact Hrun|].
  assert (Ht : tws_run tws_new trie_example_ops = tws_run tws_new trie_example_ops) by done.
  rewrite Hrun in Ht at 1. vm_compute in Ht. injection Ht as ->. vm_compute. reflexivity.
Defined.

(** The trie keeps no dead memory: after any run that ends with every count at
    zero, the root has no children and is redundant (the destructor frees nothing
    but the root). *)
Lemma trie_empty_is_redundant (os : list sub_op) :
  Forall (λ o, bytes_ok (op_prefix o)) os → Z.of_nat (length os) < 2 ^ 32 →
  (∀ p, (counts_run (λ _, 0) os).2 p = 0) →
  ∃ t, tws_run tws_new os = Done ((counts_run (λ _, 0) os).1, t)
    ∧ trie_is_redundant (tws_trie t) = true ∧ nt_count (t_nt (tws_trie t)) = 0
    ∧ tws_num_prefixes t = 0.
Proof.
  intros Hos Hn H0.
  destruct (tws_run_simulates os 0 (λ _, 0) tws_new Hos Hn tws_new_rel)
    as (t & Hrun & [Hwf Hcnt _ (calls & Hap & Hsz & _)]).
  assert (Hall : ∀ p, trie_lookup p (tws_trie t) = 0) by (intros p; by rewrite Hcnt).
  exists t. split; [done|]. split; [|split].
  - destruct (trie_is_redundant (tws_trie t)) eqn:E; [done|].
    destruct (trie_not_redundant_sub _ Hwf E) as [p Hp]. rewrite Hall in Hp. lia.
  - destruct (tws_trie t) as [refcnt nt]. inversion Hwf as [? ? ? Hs Hred Hch]; subst. simpl.
    apply dec_stable. intros Hc. destruct (nt_count_child nt Hs Hc) as [n Hnc].
    destruct (trie_not_redundant_sub n) as [p Hp]; [eauto..|].
    specialize (Hall (nt_min nt :: p)). simpl in Hall. rewrite Hnc in Hall. lia.
  - destruct (trie_apply_spec _ Hwf) as (calls' & Hap' & _ & Hin).
    rewrite Hap in Hap'. injection Hap' as <-. rewrite Hsz.
    destruct calls as [|p calls]; [done|]. exfalso.
    assert (Hp : 0 < trie_lookup p (tws_trie t)) by (apply Hin; set_solver).
    rewrite Hall in Hp. lia.
Qed.

Lemma trie_empty_is_redundant_witness :
  ∃ t, tws_run tws_new [SubAdd [97; 98]; SubAdd [98]; SubRm [97; 98]; SubRm [98]]
       = Done ([true; true; true; true], t)
    ∧ trie_is_redundant (tws_trie t) = true ∧ nt_count (t_nt (tws_trie t)) = 0
    ∧ tws_num_prefixes t = 0.
Proof.
  apply (trie_empty_is_redundant [SubAdd [97; 98]; SubAdd [98]; SubRm [97; 98]; SubRm [98]]).
  - repeat constructor; unfold is_byte; lia.
  - reflexivity.
  - intros p. simpl. repeat case_decide; subst; simplify_eq; lia.
Defined.
