(* ===== verification/Msg.v ===== *)
(** Messages: the model of [msg_t] (src/msg/msg.cpp, src/msg/msg.hpp) with the
    heap objects a message refers to: reference-counted contents ([content_t]),
    metadata blocks (src/msg/metadata.cpp) and long group names.

    A message is a record with the fields of the union's [base] member and the
    body selected by [type].  The heap maps addresses to live objects, so that a
    freed object is an absent key: reading it is [Undef].  [malloc] may fail, by
    the policy [h_malloc].

    [heap_inv] is the ownership discipline of the code: a content is referred to
    by exactly one unshared message or by [refcnt] shared ones.  The operations
    preserve it, free a content exactly when its last reference goes, and never
    touch a freed object. *)
From S2P Require Import Prelude.

(** ** Constants *)

Definition msg_more : Z := 1.
Definition msg_command : Z := 2.
Definition msg_ping : Z := 4.
Definition msg_pong : Z := 8.
Definition msg_subscribe : Z := 12.
Definition msg_cancel : Z := 16.
Definition msg_close_cmd : Z := 20.
Definition msg_credential : Z := 32.
Definition msg_routing_id : Z := 64.
Definition msg_shared : Z := 128.
Definition CMD_TYPE_MASK : Z := 28.

Definition type_min : Z := 101.
Definition type_vsm : Z := 101.
Definition type_lmsg : Z := 102.
Definition type_delimiter : Z := 103.
Definition type_cmsg : Z := 104.
Definition type_zclmsg : Z := 105.
Definition type_join : Z := 106.
Definition type_leave : Z := 107.
Definition type_max : Z := 107.

(** [msg_t_size] less the pointer to the metadata (8 bytes), the three bytes
    [size], [type] and [flags], the group (16) and the routing id (4), on a
    64-bit platform. *)
Definition msg_t_size : Z := 64.
Definition max_vsm_size : Z := msg_t_size - (8 + 3 + 16 + 4).
Definition ping_cmd_name_size : Z := 5.
Definition cancel_cmd_name_size : Z := 7.
Definition sub_cmd_name_size : Z := 10.
Definition SL_GROUP_MAX_LENGTH : Z := 255.
(** [sizeof (content_t)] and [sizeof (long_group_t)]. *)
Definition sizeof_content : Z := 40.
Definition sizeof_long_group : Z := 264.

(** ** Data *)

(** Where the data of a message is: the trailing bytes of its content block, or
    user memory at an address and offset. *)
Inductive dptr := DNull | DOwn | DExt (addr : nat) (off : Z).

#[export] Instance dptr_eq_dec : EqDecision dptr.
Proof. solve_decision. Defined.

Record content_t := Content {
  ct_data : dptr;
  ct_own : list Z;        (* the bytes allocated behind the block *)
  ct_size : Z;
  ct_ffn : option nat;    (* the deallocation function, NULL is [None] *)
  ct_hint : Z;
  ct_refcnt : Z;          (* atomic_counter_t, uint32_t *)
}.

(** [group_t]: [GOverwritten] is a union whose [type] says long while its
    pointer was overwritten by the characters of a short name. *)
Inductive group_t := GShort (name : list Z) | GLong (content : nat) | GOverwritten (name : list Z).

(** The members of the union besides the base fields. *)
Inductive body_t :=
| BVsm (data : list Z) (size : Z)
| BContent (content : nat)
| BCmsg (data : dptr) (size : Z)
| BNone.

Record msg_t := Msg {
  m_type : Z;
  m_flags : Z;
  m_metadata : option nat;
  m_routing_id : Z;
  m_group : group_t;
  m_body : body_t;
}.

#[export] Instance content_eq_dec : EqDecision content_t.
Proof. solve_decision. Defined.
#[export] Instance group_eq_dec : EqDecision group_t.
Proof. solve_decision. Defined.
#[export] Instance body_eq_dec : EqDecision body_t.
Proof. solve_decision. Defined.
#[export] Instance msg_eq_dec : EqDecision msg_t.
Proof. solve_decision. Defined.

Record heap := Heap {
  h_malloc : Z → bool;
  h_contents : gmap nat content_t;
  h_metadata : gmap nat Z;              (* reference counts *)
  h_groups : gmap nat (list Z * Z);     (* long_group_t: name, refcnt *)
  h_ext : gmap nat (list Z);            (* user memory *)
  h_ffn_log : list (nat * dptr * Z);    (* calls of deallocation functions *)
}.

Definition h_set_contents (f : gmap nat content_t → gmap nat content_t) (h : heap) : heap :=
  Heap (h_malloc h) (f (h_contents h)) (h_metadata h) (h_groups h) (h_ext h) (h_ffn_log h).
Definition h_set_metadata (f : gmap nat Z → gmap nat Z) (h : heap) : heap :=
  Heap (h_malloc h) (h_contents h) (f (h_metadata h)) (h_groups h) (h_ext h) (h_ffn_log h).
Definition h_set_groups (f : gmap nat (list Z * Z) → gmap nat (list Z * Z)) (h : heap) : heap :=
  Heap (h_malloc h) (h_contents h) (h_metadata h) (f (h_groups h)) (h_ext h) (h_ffn_log h).
Definition h_set_ext (f : gmap nat (list Z) → gmap nat (list Z)) (h : heap) : heap :=
  Heap (h_malloc h) (h_contents h) (h_metadata h) (h_groups h) (f (h_ext h)) (h_ffn_log h).
Definition h_log (e : nat * dptr * Z) (h : heap) : heap :=
  Heap (h_malloc h) (h_contents h) (h_metadata h) (h_groups h) (h_ext h) (h_ffn_log h ++ [e]).

Definition m_set_flags (f : Z) (m : msg_t) : msg_t :=
  Msg (m_type m) f (m_metadata m) (m_routing_id m) (m_group m) (m_body m).
Definition m_set_type (t : Z) (m : msg_t) : msg_t :=
  Msg t (m_flags m) (m_metadata m) (m_routing_id m) (m_group m) (m_body m).
Definition m_set_metadata (md : option nat) (m : msg_t) : msg_t :=
  Msg (m_type m) (m_flags m) md (m_routing_id m) (m_group m) (m_body m).
Definition m_set_routing_id (r : Z) (m : msg_t) : msg_t :=
  Msg (m_type m) (m_flags m) (m_metadata m) r (m_group m) (m_body m).
Definition m_set_group (g : group_t) (m : msg_t) : msg_t :=
  Msg (m_type m) (m_flags m) (m_metadata m) (m_routing_id m) g (m_body m).
Definition m_set_body (b : body_t) (m : msg_t) : msg_t :=
  Msg (m_type m) (m_flags m) (m_metadata m) (m_routing_id m) (m_group m) b.

(** A live content, and the counters behind the other pointers. *)
Definition get_content (h : heap) (id : nat) : outcome content_t :=
  match h_contents h !! id with Some c => Done c | None => Undef end.
Definition get_body_content (m : msg_t) : outcome nat :=
  match m_body m with BContent id => Done id | _ => Undef end.

(** ** atomic_counter_t (src/util/atomic_counter.hpp) *)

(** [add]: the new value and the returned old one. *)
Definition counter_add (v inc : Z) : Z * Z := (u32 (v + inc), v).
(** [sub]: the new value and whether it is not zero. *)
Definition counter_sub (v dec : Z) : Z * bool :=
  (u32 (v - dec), bool_decide (u32 (v - dec) ≠ 0)).
Arguments counter_add : simpl never.
Arguments counter_sub : simpl never.

(** ** Type and flag tests *)

Definition msg_check (m : msg_t) : bool := (type_min <=? m_type m) && (m_type m <=? type_max).
Definition has_flag (m : msg_t) (f : Z) : bool := bool_decide (Z.land (m_flags m) f ≠ 0).
Definition cmd_type (m : msg_t) : Z := Z.land (m_flags m) CMD_TYPE_MASK.
Definition is_routing_id (m : msg_t) : bool := bool_decide (Z.land (m_flags m) msg_routing_id = msg_routing_id).
Definition is_credential (m : msg_t) : bool := bool_decide (Z.land (m_flags m) msg_credential = msg_credential).
Definition is_delimiter (m : msg_t) : bool := bool_decide (m_type m = type_delimiter).
Definition is_vsm (m : msg_t) : bool := bool_decide (m_type m = type_vsm).
Definition is_cmsg (m : msg_t) : bool := bool_decide (m_type m = type_cmsg).
Definition is_lmsg (m : msg_t) : bool := bool_decide (m_type m = type_lmsg).
Definition is_zcmsg (m : msg_t) : bool := bool_decide (m_type m = type_zclmsg).
Definition is_join (m : msg_t) : bool := bool_decide (m_type m = type_join).
Definition is_leave (m : msg_t) : bool := bool_decide (m_type m = type_leave).
Definition is_ping (m : msg_t) : bool := bool_decide (cmd_type m = msg_ping).
Definition is_pong (m : msg_t) : bool := bool_decide (cmd_type m = msg_pong).
Definition is_close_cmd (m : msg_t) : bool := bool_decide (cmd_type m = msg_close_cmd).
Definition is_subscribe (m : msg_t) : bool := bool_decide (cmd_type m = msg_subscribe).
Definition is_cancel (m : msg_t) : bool := bool_decide (cmd_type m = msg_cancel).

Definition set_flags (f : Z) (m : msg_t) : msg_t := m_set_flags (Z.lor (m_flags m) f) m.
Definition reset_flags (f : Z) (m : msg_t) : msg_t := m_set_flags (Z.land (m_flags m) (Z.lxor 255 f)) m.

(** ** Data access *)

Definition msg_size (h : heap) (m : msg_t) : outcome Z :=
  assert! msg_check m;;
  if decide (m_type m = type_vsm) then
    match m_body m with BVsm _ size => Done size | _ => Undef end
  else if decide (m_type m = type_lmsg ∨ m_type m = type_zclmsg) then
    id ← get_body_content m; c ← get_content h id; Done (ct_size c)
  else if decide (m_type m = type_cmsg) then
    match m_body m with BCmsg _ size => Done size | _ => Undef end
  else Abort.

(** [data ()]: the memory the message's bytes are in, from the pointer on. *)
Definition ext_from (h : heap) (addr : nat) (off : Z) : outcome (list Z) :=
  match h_ext h !! addr with
  | Some l => if decide (0 ≤ off ≤ Z.of_nat (length l)) then Done (drop (Z.to_nat off) l) else Undef
  | None => Undef
  end.

Definition ptr_bytes (h : heap) (p : dptr) (own : list Z) : outcome (list Z) :=
  match p with DNull => Done [] | DOwn => Done own | DExt a off => ext_from h a off end.

Definition msg_data (h : heap) (m : msg_t) : outcome (list Z) :=
  assert! msg_check m;;
  if decide (m_type m = type_vsm) then
    match m_body m with BVsm data _ => Done data | _ => Undef end
  else if decide (m_type m = type_lmsg ∨ m_type m = type_zclmsg) then
    id ← get_body_content m; c ← get_content h id; ptr_bytes h (ct_data c) (ct_own c)
  else if decide (m_type m = type_cmsg) then
    match m_body m with BCmsg data _ => ptr_bytes h data [] | _ => Undef end
  else Abort.

(** The bytes of the message: [size ()] bytes at [data ()]. *)
Definition msg_bytes (h : heap) (m : msg_t) : outcome (list Z) :=
  n ← msg_size h m; d ← msg_data h m;
  if decide (n ≤ Z.of_nat (length d)) then Done (take (Z.to_nat n) d) else Undef.

(** [memcpy] of [bs] over the start of a memory block. *)
Definition overwrite (bs mem : list Z) : outcome (list Z) :=
  if decide (length bs ≤ length mem)%nat then Done (bs ++ drop (length bs) mem) else Undef.

(** [memcpy (data (), bs, size)] for a message whose memory is its own. *)
Definition msg_memcpy (h : heap) (m : msg_t) (bs : list Z) : outcome (heap * msg_t) :=
  assert! msg_check m;;
  match m_body m with
  | BVsm data size => data ← overwrite bs data; Done (h, m_set_body (BVsm data size) m)
  | BContent id =>
      c ← get_content h id;
      match ct_data c with
      | DOwn =>
          own ← overwrite bs (ct_own c);
          Done (h_set_contents <[id := Content DOwn own (ct_size c) (ct_ffn c) (ct_hint c) (ct_refcnt c)]> h, m)
      | _ => Undef
      end
  | _ => Undef
  end.

(** ** Initialisation *)

(** The fields every [init] function sets. *)
Definition msg_base (type : Z) (body : body_t) : msg_t := Msg type 0 None 0 (GShort []) body.

Definition msg_init : msg_t := msg_base type_vsm (BVsm (replicate (Z.to_nat max_vsm_size) 0) 0).

Definition new_content (h : heap) (c : content_t) : nat * heap :=
  let id := fresh (dom (h_contents h)) in (id, h_set_contents <[id := c]> h).

Definition msg_init_size (h : heap) (size : Z) : rc_t * heap * msg_t :=
  if decide (size ≤ max_vsm_size) then
    (RcOk, h, msg_base type_vsm (BVsm (replicate (Z.to_nat max_vsm_size) 0) (u8 size)))
  else if decide (u64 (sizeof_content + size) > size ∧ h_malloc h (u64 (sizeof_content + size)) = true) then
    let '(id, h) := new_content h (Content DOwn (replicate (Z.to_nat size) 0) size None 0 0) in
    (RcOk, h, msg_base type_lmsg (BContent id))
  else (RcErr ENOMEM, h, msg_base type_lmsg BNone).

(** [init_buffer (buf_, size_)]; [buf] are the bytes at [buf_], [None] is NULL. *)
Definition msg_init_buffer (h : heap) (buf : option (list Z)) (size : Z)
    : outcome (rc_t * heap * msg_t) :=
  let '(rc, h, m) := msg_init_size h size in
  match rc with
  | RcErr e => Done (RcErr e, h, m)
  | RcOk =>
      if decide (size ≠ 0) then
        match buf with
        | None => Abort
        | Some bs =>
            if decide (size ≤ Z.of_nat (length bs)) then
              '(h, m) ← msg_memcpy h m (take (Z.to_nat size) bs); Done (RcOk, h, m)
            else Undef
        end
      else Done (RcOk, h, m)
  end.

(** [init_external_storage]: [content] is the address of the supplied storage. *)
Definition msg_init_external_storage (h : heap) (content : option nat) (data : dptr)
    (size : Z) (ffn : option nat) (hint : Z) : outcome (rc_t * heap * msg_t) :=
  assert! bool_decide (data ≠ DNull);;
  match content with
  | None => Abort
  | Some id =>
      Done (RcOk, h_set_contents <[id := Content data [] size ffn hint 0]> h,
            msg_base type_zclmsg (BContent id))
  end.

Definition msg_init_data (h : heap) (data : dptr) (size : Z) (ffn : option nat) (hint : Z)
    : outcome (rc_t * heap * msg_t) :=
  assert! bool_decide (data ≠ DNull ∨ size = 0);;
  match ffn with
  | None => Done (RcOk, h, msg_base type_cmsg (BCmsg data size))
  | Some f =>
      if h_malloc h sizeof_content then
        let '(id, h) := new_content h (Content data [] size (Some f) hint 0) in
        Done (RcOk, h, msg_base type_lmsg (BContent id))
      else Done (RcErr ENOMEM, h, msg_base type_lmsg BNone)
  end.

(** [init (data_, size_, ffn_, hint_, content_)] *)
Definition msg_init_any (h : heap) (data : dptr) (size : Z) (ffn : option nat) (hint : Z)
    (content : option nat) : outcome (rc_t * heap * msg_t) :=
  if decide (size < max_vsm_size) then
    let '(rc, h, m) := msg_init_size h size in
    match rc with
    | RcOk =>
        mem ← ptr_bytes h data [];
        if decide (size ≤ Z.of_nat (length mem)) then
          '(h, m) ← msg_memcpy h m (take (Z.to_nat size) mem); Done (RcOk, h, m)
        else Undef
    | RcErr e => Done (RcErr e, h, m)
    end
  else
    match content with
    | Some _ => msg_init_external_storage h content data size ffn hint
    | None => msg_init_data h data size ffn hint
    end.

Definition msg_init_delimiter : msg_t := msg_base type_delimiter BNone.
Definition msg_init_join : msg_t := msg_base type_join BNone.
Definition msg_init_leave : msg_t := msg_base type_leave BNone.

(** [init_subscribe]/[init_cancel] with the flag to set. *)
Definition msg_init_cmd (flag : Z) (h : heap) (size : Z) (topic : option (list Z))
    : outcome (rc_t * heap * msg_t) :=
  let '(rc, h, m) := msg_init_size h size in
  match rc with
  | RcErr e => Done (RcErr e, h, m)
  | RcOk =>
      let m := set_flags flag m in
      if decide (size ≠ 0) then
        match topic with
        | None => Abort
        | Some bs =>
            if decide (size ≤ Z.of_nat (length bs)) then
              '(h, m) ← msg_memcpy h m (take (Z.to_nat size) bs); Done (RcOk, h, m)
            else Undef
        end
      else Done (RcOk, h, m)
  end.

Definition msg_init_subscribe : heap → Z → option (list Z) → outcome (rc_t * heap * msg_t) :=
  msg_init_cmd msg_subscribe.
Definition msg_init_cancel : heap → Z → option (list Z) → outcome (rc_t * heap * msg_t) :=
  msg_init_cmd msg_cancel.

(** ** Release *)

(** The last reference of a content is gone: the deallocation function, if any, is
    called, and the content leaves the heap (its block is freed, or, for a
    zero-copy message, its storage belongs to the decoder's buffer again). *)
Definition content_release (h : heap) (id : nat) (c : content_t) : heap :=
  h_set_contents (delete id)
    (match ct_ffn c with Some f => h_log (f, ct_data c, ct_hint c) h | None => h end).

Definition content_set_refcnt (c : content_t) (n : Z) : content_t :=
  Content (ct_data c) (ct_own c) (ct_size c) (ct_ffn c) (ct_hint c) n.

(** [if (!(flags & shared) || !refcnt.sub (1)) { ...release... }] *)
Definition content_close (h : heap) (m : msg_t) (id : nat) : outcome heap :=
  c ← get_content h id;
  if has_flag m msg_shared then
    let '(n, nonzero) := counter_sub (ct_refcnt c) 1 in
    let h := h_set_contents <[id := content_set_refcnt c n]> h in
    if nonzero : bool then Done h else Done (content_release h id c)
  else Done (content_release h id c).

(** [metadata->drop_ref ()] and [SL_DELETE] when it returns true. *)
Definition metadata_drop (h : heap) (md : nat) : outcome heap :=
  match h_metadata h !! md with
  | None => Undef
  | Some n =>
      let '(n, nonzero) := counter_sub n 1 in
      if nonzero : bool then Done (h_set_metadata <[md := n]> h)
      else Done (h_set_metadata (delete md) h)
  end.

Definition group_drop (h : heap) (g : group_t) : outcome heap :=
  match g with
  | GShort _ => Done h
  | GOverwritten _ => Undef
  | GLong id =>
      match h_groups h !! id with
      | None => Undef
      | Some (name, n) =>
          let '(n, nonzero) := counter_sub n 1 in
          if nonzero : bool then Done (h_set_groups <[id := (name, n)]> h)
          else Done (h_set_groups (delete id) h)
      end
  end.

(** [close]: the new heap and the message left behind, of invalid type. *)
Definition msg_close (h : heap) (m : msg_t) : outcome (rc_t * heap * msg_t) :=
  if negb (msg_check m) then Done (RcErr EFAULT, h, m)
  else
    h ← (if decide (m_type m = type_lmsg) then
           id ← get_body_content m; content_close h m id
         else Done h);
    h ← (if is_zcmsg m then
           id ← get_body_content m;
           c ← get_content h id;
           assert! bool_decide (is_Some (ct_ffn c));;
           content_close h m id
         else Done h);
    h ← (match m_metadata m with None => Done h | Some md => metadata_drop h md end);
    h ← group_drop h (m_group m);
    Done (RcOk, h, m_set_type 0 (m_set_metadata None m)).

(** [move (src_)] into the message [m]: the new [*this] and [src_]. *)
Definition msg_move (h : heap) (m src : msg_t) : outcome (rc_t * heap * msg_t * msg_t) :=
  if negb (msg_check src) then Done (RcErr EFAULT, h, m, src)
  else
    '(rc, h, m) ← msg_close h m;
    match rc with
    | RcErr e => Done (RcErr e, h, m, src)
    | RcOk => Done (RcOk, h, src, msg_init)
    end.

Definition metadata_add_ref (h : heap) (md : nat) : outcome heap :=
  match h_metadata h !! md with
  | None => Undef
  | Some n => Done (h_set_metadata <[md := (counter_add n 1).1]> h)
  end.

Definition group_add_ref (h : heap) (g : group_t) : outcome heap :=
  match g with
  | GShort _ => Done h
  | GOverwritten _ => Undef
  | GLong id =>
      match h_groups h !! id with
      | None => Undef
      | Some (name, n) => Done (h_set_groups <[id := (name, (counter_add n 1).1)]> h)
      end
  end.

(** Add [refs] references: to a shared content, or turning an unshared one into
    a content shared by [refs + 1] messages. *)
Definition content_share (h : heap) (m : msg_t) (refs : Z) : outcome (heap * msg_t) :=
  id ← get_body_content m;
  c ← get_content h id;
  if has_flag m msg_shared then
    Done (h_set_contents <[id := content_set_refcnt c (counter_add (ct_refcnt c) refs).1]> h, m)
  else
    Done (h_set_contents <[id := content_set_refcnt c (u32 (refs + 1))]> h, set_flags msg_shared m).

(** [copy (src_)] into the message [m]. *)
Definition msg_copy (h : heap) (m src : msg_t) : outcome (rc_t * heap * msg_t * msg_t) :=
  if negb (msg_check src) then Done (RcErr EFAULT, h, m, src)
  else
    '(rc, h, m) ← msg_close h m;
    match rc with
    | RcErr e => Done (RcErr e, h, m, src)
    | RcOk =>
        '(h, src) ← (if is_lmsg src || is_zcmsg src then content_share h src 1
                     else Done (h, src));
        h ← (match m_metadata src with None => Done h | Some md => metadata_add_ref h md end);
        h ← group_add_ref h (m_group src);
        Done (RcOk, h, src, src)
    end.

(** [move (src_)] and [copy (src_)] where [src_] is the message itself: it has been closed when it is moved or copied. *)
Definition msg_move_self (h : heap) (m : msg_t) : outcome (rc_t * heap * msg_t) :=
  if negb (msg_check m) then Done (RcErr EFAULT, h, m)
  else
    '(rc, h, m) ← msg_close h m;
    match rc with
    | RcErr e => Done (RcErr e, h, m)
    | RcOk => Done (RcOk, h, msg_init)
    end.

Definition msg_copy_self (h : heap) (m : msg_t) : outcome (rc_t * heap * msg_t) :=
  if negb (msg_check m) then Done (RcErr EFAULT, h, m)
  else
    '(rc, h, m) ← msg_close h m;
    match rc with
    | RcErr e => Done (RcErr e, h, m)
    | RcOk =>
        '(h, m) ← (if is_lmsg m || is_zcmsg m then content_share h m 1 else Done (h, m));
        h ← (match m_metadata m with None => Done h | Some md => metadata_add_ref h md end);
        h ← group_add_ref h (m_group m);
        Done (RcOk, h, m)
    end.

(** [add_refs (refs_)] *)
Definition msg_add_refs (h : heap) (m : msg_t) (refs : Z) : outcome (heap * msg_t) :=
  assert! bool_decide (0 ≤ refs);;
  assert! bool_decide (m_metadata m = None);;
  if decide (refs = 0) then Done (h, m)
  else if bool_decide (m_type m = type_lmsg) || is_zcmsg m then content_share h m refs
  else Done (h, m).

(** [rm_refs (refs_)] *)
Definition msg_rm_refs (h : heap) (m : msg_t) (refs : Z) : outcome (bool * heap * msg_t) :=
  assert! bool_decide (0 ≤ refs);;
  assert! bool_decide (m_metadata m = None);;
  if decide (refs = 0) then Done (true, h, m)
  else if decide ((m_type m ≠ type_zclmsg ∧ m_type m ≠ type_lmsg) ∨ has_flag m msg_shared = false) then
    '(_, h, m) ← msg_close h m; Done (false, h, m)
  else
    id ← get_body_content m;
    c ← get_content h id;
    let '(n, nonzero) := counter_sub (ct_refcnt c) refs in
    let h := h_set_contents <[id := content_set_refcnt c n]> h in
    if nonzero : bool then Done (true, h, m)
    else Done (false, content_release h id c, m).

(** ** Other operations *)

Definition msg_shrink (h : heap) (m : msg_t) (new_size : Z) : outcome (heap * msg_t) :=
  assert! msg_check m;;
  size ← msg_size h m;
  assert! bool_decide (new_size ≤ size);;
  if decide (m_type m = type_vsm) then
    match m_body m with BVsm d _ => Done (h, m_set_body (BVsm d (u8 new_size)) m) | _ => Undef end
  else if decide (m_type m = type_lmsg ∨ m_type m = type_zclmsg) then
    id ← get_body_content m; c ← get_content h id;
    Done (h_set_contents <[id := Content (ct_data c) (ct_own c) new_size (ct_ffn c) (ct_hint c) (ct_refcnt c)]> h, m)
  else if decide (m_type m = type_cmsg) then
    match m_body m with BCmsg d _ => Done (h, m_set_body (BCmsg d new_size) m) | _ => Undef end
  else Abort.

Definition msg_set_metadata (h : heap) (m : msg_t) (md : option nat) : outcome (heap * msg_t) :=
  match md with
  | None => Abort
  | Some id =>
      assert! bool_decide (m_metadata m = None);;
      h ← metadata_add_ref h id;
      Done (h, m_set_metadata (Some id) m)
  end.

Definition msg_reset_metadata (h : heap) (m : msg_t) : outcome (heap * msg_t) :=
  match m_metadata m with
  | None => Done (h, m)
  | Some md => h ← metadata_drop h md; Done (h, m_set_metadata None m)
  end.

(** [command_body_size ()] and [command_body ()]: the offset of the body in the
    data, if any. *)
Definition command_body_size (h : heap) (m : msg_t) : outcome Z :=
  if is_ping m || is_pong m then n ← msg_size h m; Done (u64 (n - ping_cmd_name_size))
  else if negb (has_flag m msg_command) && (is_subscribe m || is_cancel m) then msg_size h m
  else if is_subscribe m then n ← msg_size h m; Done (u64 (n - sub_cmd_name_size))
  else if is_cancel m then n ← msg_size h m; Done (u64 (n - cancel_cmd_name_size))
  else Done 0.

Definition command_body (h : heap) (m : msg_t) : outcome (option Z) :=
  if is_ping m || is_pong m then _ ← msg_data h m; Done (Some ping_cmd_name_size)
  else if negb (has_flag m msg_command) && (is_subscribe m || is_cancel m) then _ ← msg_data h m; Done (Some 0)
  else if is_subscribe m then _ ← msg_data h m; Done (Some sub_cmd_name_size)
  else if is_cancel m then _ ← msg_data h m; Done (Some cancel_cmd_name_size)
  else Done None.

Definition msg_set_routing_id (m : msg_t) (routing_id : Z) : rc_t * msg_t :=
  if decide (routing_id ≠ 0) then (RcOk, m_set_routing_id routing_id m) else (RcErr EINVAL, m).

Definition msg_reset_routing_id (m : msg_t) : msg_t := m_set_routing_id 0 m.

(** [group ()] *)
Definition msg_group (h : heap) (m : msg_t) : outcome (list Z) :=
  match m_group m with
  | GShort n => Done n
  | GOverwritten _ => Undef
  | GLong id => match h_groups h !! id with Some (n, _) => Done n | None => Undef end
  end.

(** [set_group (group_, length_)].  The short branch does not write the type
    byte, so over a long group it leaves the type long and the pointer
    overwritten. *)
Definition msg_set_group (h : heap) (m : msg_t) (group : list Z) : outcome (rc_t * heap * msg_t) :=
  if decide (Z.of_nat (length group) > SL_GROUP_MAX_LENGTH) then Done (RcErr EINVAL, h, m)
  else if decide (Z.of_nat (length group) > 14) then
    assert! h_malloc h sizeof_long_group;;
    let id := fresh (dom (h_groups h)) in
    Done (RcOk, h_set_groups <[id := (group, 1)]> h, m_set_group (GLong id) m)
  else
    Done (RcOk, h,
     m_set_group (match m_group m with GShort _ => GShort group | _ => GOverwritten group end) m).

(** [set_group (group_)] of a C string: the characters before the first NUL, at
    most [SL_GROUP_MAX_LENGTH] ([strnlen]). *)
Fixpoint strnlen (s : list Z) (max : nat) : nat :=
  match s, max with
  | c :: s, S max => if decide (c = 0) then 0%nat else S (strnlen s max)
  | _, _ => 0%nat
  end.

Definition msg_set_group_str (h : heap) (m : msg_t) (s : list Z) : outcome (rc_t * heap * msg_t) :=
  msg_set_group h m (take (strnlen s (Z.to_nat SL_GROUP_MAX_LENGTH)) s).

(** ** Ownership *)

(** The message refers to the content [id]. *)
Definition owns (id : nat) (m : msg_t) : Prop :=
  m_body m = BContent id ∧ (m_type m = type_lmsg ∨ m_type m = type_zclmsg).
(** The message holds a reference of the metadata, of the long group. *)
Definition holds_md (md : nat) (m : msg_t) : Prop := msg_check m = true ∧ m_metadata m = Some md.
Definition holds_group (g : nat) (m : msg_t) : Prop := msg_check m = true ∧ m_group m = GLong g.

#[export] Instance owns_dec id m : Decision (owns id m).
Proof. unfold owns. apply _. Defined.
#[export] Instance holds_md_dec md m : Decision (holds_md md m).
Proof. unfold holds_md. apply _. Defined.
#[export] Instance holds_group_dec g m : Decision (holds_group g m).
Proof. unfold holds_group. apply _. Defined.

Abbreviation shared m := (has_flag m msg_shared = true).

(** The body agrees with the type, and the group is not overwritten. *)
Definition msg_shape (m : msg_t) : Prop :=
  (m_type m = type_vsm → ∃ d n, m_body m = BVsm d n ∧ Z.of_nat (length d) = max_vsm_size
                                ∧ 0 ≤ n ≤ max_vsm_size)
  ∧ (m_type m = type_lmsg ∨ m_type m = type_zclmsg → ∃ id, m_body m = BContent id)
  ∧ (m_type m = type_cmsg → ∃ d n, m_body m = BCmsg d n)
  ∧ (∀ n, m_group m ≠ GOverwritten n).

(** A content and the messages that refer to it: one unshared message, or
    [refcnt] shared ones. *)
Definition content_ok (c : content_t) (os : list msg_t) : Prop :=
  Forall (λ m, m_type m = type_zclmsg → is_Some (ct_ffn c)) os ∧
  ((∃ m, os = [m] ∧ ¬ shared m)
   ∨ (Forall (λ m, shared m) os ∧ 0 < ct_refcnt c ∧ ct_refcnt c = Z.of_nat (length os))).

Definition count (P : msg_t → Prop) `{!∀ m, Decision (P m)} (ms : list msg_t) : Z :=
  Z.of_nat (length (filter P ms)).

Definition content_inv (h : heap) (ms : list msg_t) : Prop :=
  ∀ id, match h_contents h !! id with
        | Some c => content_ok c (filter (owns id) ms)
        | None => filter (owns id) ms = []
        end.

Definition md_inv (ext : nat → Z) (h : heap) (ms : list msg_t) : Prop :=
  ∀ md, match h_metadata h !! md with
        | Some n => 0 < n ∧ n = ext md + count (holds_md md) ms
        | None => ext md = 0 ∧ count (holds_md md) ms = 0
        end.

Definition group_inv (h : heap) (ms : list msg_t) : Prop :=
  ∀ g, match h_groups h !! g with
       | Some (_, n) => 0 < n ∧ n = count (holds_group g) ms
       | None => count (holds_group g) ms = 0
       end.

(** The ownership invariant of a heap and all the messages in use; [ext] counts
    the metadata references held outside messages (by the sessions). *)
Record heap_inv (ext : nat → Z) (h : heap) (ms : list msg_t) : Prop := {
  inv_len : Z.of_nat (length ms) < 2 ^ 32;
  inv_ext : ∀ md, 0 ≤ ext md ∧ ext md + Z.of_nat (length ms) < 2 ^ 32;
  inv_shape : Forall msg_shape ms;
  inv_content : content_inv h ms;
  inv_md : md_inv ext h ms;
  inv_group : group_inv h ms;
}.

(** The invariant does not depend on the order of the messages. *)
#[export] Instance count_Proper P `{!∀ m, Decision (P m)} : Proper ((≡ₚ) ==> (=)) (count P).
Proof. intros ms ms' Hp. unfold count. by rewrite Hp. Qed.

#[export] Instance content_ok_Proper c : Proper ((≡ₚ) ==> iff) (content_ok c).
Proof.
  assert (H : ∀ os os', os ≡ₚ os' → content_ok c os → content_ok c os').
  { intros os os' Hp [Hz [(m & -> & Hm)|(Hs & ? & Hl)]]; (split; [by rewrite <- Hp|]).
    - left. exists m. apply Permutation_singleton_l in Hp. done.
    - right. rewrite <- Hp. done. }
  intros os os' Hp. split; apply H; by rewrite Hp.
Qed.

#[export] Instance heap_inv_Proper ext h : Proper ((≡ₚ) ==> iff) (heap_inv ext h).
Proof.
  assert (H : ∀ ms ms', ms ≡ₚ ms' → heap_inv ext h ms → heap_inv ext h ms').
  { intros ms ms' Hp [H1 H2 H3 H4 H5 H6]. split.
    - by rewrite <- Hp.
    - intros md. by rewrite <- Hp.
    - by rewrite <- Hp.
    - intros id. specialize (H4 id). destruct (h_contents h !! id); [by rewrite <- Hp|].
      apply Permutation_nil_r. by rewrite <- Hp, H4.
    - intros md. specialize (H5 md). destruct (h_metadata h !! md); by rewrite <- Hp.
    - intros g. specialize (H6 g). destruct (h_groups h !! g) as [[]|]; by rewrite <- Hp. }
  intros ms ms' Hp. split; apply H; by rewrite Hp.
Qed.

Lemma count_cons P `{!∀ m, Decision (P m)} m ms :
  count P (m :: ms) = (if decide (P m) then 1 else 0) + count P ms.
Proof. unfold count. rewrite filter_cons. case_decide; simpl; lia. Qed.

Lemma count_bounds P `{!∀ m, Decision (P m)} ms : 0 ≤ count P ms ≤ Z.of_nat (length ms).
Proof. unfold count. pose proof (length_filter P ms). lia. Qed.

Lemma counter_sub_spec n r :
  0 ≤ r ≤ n → n < 2 ^ 32 → counter_sub n r = (n - r, bool_decide (n ≠ r)).
Proof.
  intros Hr Hn. unfold counter_sub. rewrite u32_small by lia. f_equal. apply bool_decide_ext. lia.
Qed.

(** The objects of [h'] were there in [h], with the same data. *)
Definition content_eqv (c c' : content_t) : Prop := content_set_refcnt c 0 = content_set_refcnt c' 0.

Record heap_frame (h h' : heap) : Prop := {
  frame_malloc : h_malloc h' = h_malloc h;
  frame_ext : h_ext h' = h_ext h;
  frame_content : ∀ id c', h_contents h' !! id = Some c' →
    ∃ c, h_contents h !! id = Some c ∧ content_eqv c c';
}.

#[export] Instance heap_frame_PreOrder : PreOrder heap_frame.
Proof.
  split.
  - intros h. split; [done|done|]. intros id c Hc. by exists c.
  - intros h1 h2 h3 [? ? H1] [? ? H2]. split; [congruence..|].
    intros id c3 (c2 & Hc2 & ?)%H2. apply H1 in Hc2 as (c1 & ? & ?).
    exists c1. split; [done|]. unfold content_eqv in *. congruence.
Qed.

(** The bytes of a message depend on its type and body, its content and user
    memory. *)
Lemma msg_bytes_ext h h' m m' :
  m_type m' = m_type m → m_body m' = m_body m → h_ext h' = h_ext h →
  (∀ id, owns id m → ∃ c c', h_contents h !! id = Some c ∧ h_contents h' !! id = Some c'
                             ∧ content_eqv c c') →
  msg_bytes h' m' = msg_bytes h m.
Proof.
  intros Et Eb He Hcont.
  assert (Hptr : ∀ p own, ptr_bytes h' p own = ptr_bytes h p own).
  { intros p own. unfold ptr_bytes, ext_from. by rewrite He. }
  unfold msg_bytes, msg_size, msg_data, msg_check, get_body_content. rewrite Et, Eb.
  destruct ((type_min <=? m_type m) && (m_type m <=? type_max)); simpl; [|done].
  destruct (decide (m_type m = type_vsm)); [done|].
  destruct (decide (m_type m = type_lmsg ∨ m_type m = type_zclmsg)) as [Ht|].
  - destruct (m_body m) as [| id | |] eqn:Hb; simpl; try done.
    destruct (Hcont id) as (c & c' & H1 & H2 & Hv); [done|]. unfold get_content. rewrite H1, H2. simpl.
    destruct c, c'. unfold content_eqv, content_set_refcnt in Hv. simpl in *.
    injection Hv as <- <- <- <- <-. by rewrite Hptr.
  - destruct (decide (m_type m = type_cmsg)); [|done].
    destruct (m_body m); simpl; try done. by rewrite Hptr.
Qed.

Lemma content_inv_owned h ms m id :
  content_inv h ms → m ∈ ms → owns id m → is_Some (h_contents h !! id).
Proof.
  intros Hinv Hm Ho. specialize (Hinv id). destruct (h_contents h !! id); [done|].
  assert (Hin : m ∈ filter (owns id) ms) by (by apply list_elem_of_filter).
  rewrite Hinv in Hin. by apply elem_of_nil in Hin.
Qed.

(** The messages [rm], all of the content [id], are gone, and nothing else changed. *)
Lemma content_inv_update h h' id rm ms :
  content_inv h (rm ++ ms) → Forall (owns id) rm →
  (∀ id', id' ≠ id → h_contents h' !! id' = h_contents h !! id') →
  match h_contents h' !! id with
  | Some c => content_ok c (filter (owns id) ms) | None => filter (owns id) ms = [] end →
  content_inv h' ms.
Proof.
  intros Hinv Hrm Hne Hh' id'. destruct (decide (id' = id)) as [->|Hd]; [done|].
  specialize (Hinv id'). rewrite <- Hne, filter_app in Hinv by done.
  replace (filter (owns id') rm) with (@nil msg_t) in Hinv; [done|].
  symmetry. clear -Hrm Hd. induction Hrm as [|m rm Hm Hrm IH]; [done|].
  rewrite filter_cons_False; [done|]. intros [Hb _]. destruct Hm as [Hb' _]. congruence.
Qed.

Lemma content_release_spec h id c c0 rm ms :
  h_contents h !! id = Some c →
  content_inv h (rm ++ ms) → Forall (owns id) rm → filter (owns id) ms = [] →
  let h' := content_release (h_set_contents <[id := c0]> h) id c in
  content_inv h' ms ∧ heap_frame h h' ∧ h_metadata h' = h_metadata h ∧ h_groups h' = h_groups h.
Proof.
  intros Hc Hinv Hrm Hnil h'.
  assert (Hh' : h_contents h' = delete id (h_contents h)).
  { subst h'. unfold content_release. destruct (ct_ffn c); simpl; by rewrite delete_insert_eq. }
  split; [|split].
  - eapply content_inv_update; [done|done| |]; rewrite Hh'; [intros; by simplify_map_eq|].
    by rewrite lookup_delete_eq.
  - split; [by subst h'; unfold content_release; destruct (ct_ffn c)..|].
    intros id' c'. rewrite Hh'. intros [? ?]%lookup_delete_Some. by exists c'.
  - by subst h'; unfold content_release; destruct (ct_ffn c).
Qed.

(** [rm], shared messages of the content [id], give their references up. *)
Lemma content_sub_spec h rm ms id c :
  content_inv h (rm ++ ms) → Z.of_nat (length (rm ++ ms)) < 2 ^ 32 →
  Forall (λ m, owns id m ∧ shared m) rm → rm ≠ [] → h_contents h !! id = Some c →
  ∃ h', (let '(n, nonzero) := counter_sub (ct_refcnt c) (Z.of_nat (length rm)) in
         let h := h_set_contents <[id := content_set_refcnt c n]> h in
         if nonzero : bool then (true, h) else (false, content_release h id c))
        = (bool_decide (filter (owns id) ms ≠ []), h')
    ∧ content_inv h' ms ∧ heap_frame h h' ∧ h_metadata h' = h_metadata h ∧ h_groups h' = h_groups h.
Proof.
  intros Hinv Hlen Hrm Hne Hc. pose proof (Hinv id) as Hid. rewrite Hc, filter_app in Hid.
  assert (Ho : Forall (owns id) rm) by (eapply Forall_impl; [exact Hrm|]; by intros ? []).
  assert (Hfr : filter (owns id) rm = rm).
  { clear -Ho. induction Ho as [|m rm Hm Ho IH]; [done|]. by rewrite filter_cons_True, IH. }
  rewrite Hfr in Hid. destruct Hid as [Hz [(m' & Hone & Hns)|(Hsh & Hpos & Href)]].
  { destruct rm as [|m rm]; [done|]. inversion Hrm as [|? ? [? ?]]; subst. by simplify_eq/=. }
  rewrite length_app, Nat2Z.inj_add in Href, Hlen. pose proof (length_filter (owns id) ms).
  rewrite counter_sub_spec by lia.
  rewrite (bool_decide_ext _ (filter (owns id) ms ≠ [])); last first.
  { rewrite <- length_zero_iff_nil. lia. }
  case_bool_decide as Hn.
  - eexists. split; [done|]. split; [|split; [split; [done|done|]|done]].
    + eapply content_inv_update; [done|done|simpl; intros; by simplify_map_eq|].
      simpl. rewrite lookup_insert_eq. apply Forall_app in Hz as [_ Hz]. apply Forall_app in Hsh as [_ Hsh].
      split; [done|]. right. rewrite <- length_zero_iff_nil in Hn. simpl. split_and!; [done|lia..].
    + intros id' c' Hc'. simpl in Hc'. destruct (decide (id' = id)) as [->|Hd]; simplify_map_eq.
      * by exists c.
      * by exists c'.
  - eexists. split; [done|]. eapply content_release_spec; [done..|].
    destruct (filter (owns id) ms); [done|]. by destruct Hn.
Qed.

(** Dropping the reference of a message to its content. *)
Lemma content_close_spec h m ms id :
  content_inv h (m :: ms) → Z.of_nat (length (m :: ms)) < 2 ^ 32 → owns id m →
  ∃ h', content_close h m id = Done h' ∧ content_inv h' ms ∧ heap_frame h h'
    ∧ h_metadata h' = h_metadata h ∧ h_groups h' = h_groups h.
Proof.
  intros Hinv Hlen Ho. destruct (content_inv_owned h (m :: ms) m id) as [c Hc]; [done|by left|done|].
  unfold content_close, get_content. rewrite Hc, bind_Done.
  destruct (has_flag m msg_shared) eqn:Hs.
  - destruct (content_sub_spec h [m] ms id c) as (h' & Hr & ?); [done|done|by apply Forall_singleton|done..|].
    exists h'. split; [|done]. simpl length in Hr. change (Z.of_nat 1) with 1 in Hr.
    destruct (counter_sub (ct_refcnt c) 1) as [n []]; by simplify_eq/=.
  - pose proof (Hinv id) as Hid. rewrite Hc, filter_cons_True in Hid by done.
    destruct Hid as [_ [(m' & [= <- Hnil] & _)|(Hsh & _)]]; [|inversion Hsh; congruence].
    destruct (content_release_spec h id c c [m] ms) as (? & ? & ? & ?); [done..|by constructor|done|].
    exists (content_release h id c). split; [done|].
    replace (content_release h id c) with (content_release (h_set_contents <[id:=c]> h) id c); [done|].
    unfold content_release, h_set_contents. destruct h; simpl in *. by rewrite insert_id.
Qed.

(** A message that holds nothing of a kind does not matter to its invariant. *)
Lemma content_inv_skip h m ms : (∀ id, ¬ owns id m) → content_inv h (m :: ms) ↔ content_inv h ms.
Proof.
  intros Hm. split; intros H id; specialize (H id);
    rewrite filter_cons_False in * by apply Hm; done.
Qed.
Lemma md_inv_skip ext h m ms : (∀ md, ¬ holds_md md m) → md_inv ext h (m :: ms) ↔ md_inv ext h ms.
Proof.
  intros Hm. split; intros H md; specialize (H md); rewrite count_cons in *;
    rewrite decide_False in * by apply Hm; done.
Qed.
Lemma group_inv_skip h m ms : (∀ g, ¬ holds_group g m) → group_inv h (m :: ms) ↔ group_inv h ms.
Proof.
  intros Hm. split; intros H g; specialize (H g); rewrite count_cons in *;
    rewrite decide_False in * by apply Hm; done.
Qed.

Lemma metadata_drop_spec ext h m ms md :
  md_inv ext h (m :: ms) → (∀ md, 0 ≤ ext md ∧ ext md + Z.of_nat (length (m :: ms)) < 2 ^ 32) →
  holds_md md m →
  ∃ f, metadata_drop h md = Done (h_set_metadata f h) ∧ md_inv ext (h_set_metadata f h) ms.
Proof.
  intros Hinv Hext Hm. pose proof (Hinv md) as Hmd. pose proof (Hext md) as He.
  pose proof (count_bounds (holds_md md) ms) as Hb. rewrite count_cons, decide_True in Hmd by done.
  unfold metadata_drop. destruct (h_metadata h !! md) as [n|] eqn:Hn; [|lia].
  simpl in He. rewrite counter_sub_spec by lia.
  assert (Hne : ∀ md', md' ≠ md → ¬ holds_md md' m).
  { intros md' Hd [_ H1]. destruct Hm as [_ H2]. congruence. }
  case_bool_decide; eexists; (split; [done|]); intros md'; simpl; specialize (Hinv md');
    rewrite count_cons in Hinv; (destruct (decide (md' = md)) as [->|Hd];
    [|rewrite decide_False in Hinv by auto; by simplify_map_eq]).
  - rewrite lookup_insert_eq. lia.
  - rewrite lookup_delete_eq. lia.
Qed.

Lemma group_drop_spec h m ms :
  group_inv h (m :: ms) → Z.of_nat (length (m :: ms)) < 2 ^ 32 →
  msg_check m = true → (∀ n, m_group m ≠ GOverwritten n) →
  ∃ f, group_drop h (m_group m) = Done (h_set_groups f h) ∧ group_inv (h_set_groups f h) ms.
Proof.
  intros Hinv Hlen Hck Hover. unfold group_drop.
  destruct (m_group m) as [n|g|n] eqn:Hg; [|..|by destruct (Hover n)].
  { exists id. split; [by destruct h|].
    apply (group_inv_skip _ m); [|by destruct h]. intros g [_ H]. congruence. }
  assert (Hm : holds_group g m) by done. pose proof (Hinv g) as Hgi.
  pose proof (count_bounds (holds_group g) ms) as Hb. rewrite count_cons, decide_True in Hgi by done.
  destruct (h_groups h !! g) as [[name n]|] eqn:Hn; [|lia].
  simpl in Hlen. rewrite counter_sub_spec by lia.
  assert (Hne : ∀ g', g' ≠ g → ¬ holds_group g' m) by (intros g' Hd [_ ?]; congruence).
  case_bool_decide; eexists; (split; [done|]); intros g'; simpl; specialize (Hinv g');
    rewrite count_cons in Hinv; (destruct (decide (g' = g)) as [->|Hd];
    [|rewrite decide_False in Hinv by auto; by simplify_map_eq]).
  - rewrite lookup_insert_eq. lia.
  - rewrite lookup_delete_eq. lia.
Qed.

(** The content part of [close]. *)
Definition close_content (h : heap) (m : msg_t) : outcome heap :=
  h ← (if decide (m_type m = type_lmsg) then id ← get_body_content m; content_close h m id else Done h);
  if is_zcmsg m then
    id ← get_body_content m;
    c ← get_content h id;
    assert! bool_decide (is_Some (ct_ffn c));;
    content_close h m id
  else Done h.

Lemma close_content_spec h m ms :
  content_inv h (m :: ms) → Z.of_nat (length (m :: ms)) < 2 ^ 32 → msg_shape m →
  ∃ h', close_content h m = Done h' ∧ content_inv h' ms ∧ heap_frame h h'
    ∧ h_metadata h' = h_metadata h ∧ h_groups h' = h_groups h.
Proof.
  intros Hinv Hlen (_ & Hbody & _). unfold close_content, is_zcmsg, get_body_content.
  destruct (decide (m_type m = type_lmsg)) as [Ht|Ht].
  - destruct Hbody as [id Hid]; [by left|].
    destruct (content_close_spec h m ms id) as (h' & Hc & ?); [done..|by split; [|left]|].
    exists h'. rewrite Hid, bind_Done, Hc, Ht. done.
  - rewrite bind_Done. case_bool_decide as Hz.
    + destruct Hbody as [id Hid]; [by right|].
      assert (Ho : owns id m) by (by split; [|right]).
      destruct (content_close_spec h m ms id) as (h' & Hc & ?); [done..|].
      exists h'. rewrite Hid, bind_Done. specialize (Hinv id).
      rewrite filter_cons_True in Hinv by done. unfold get_content.
      destruct (h_contents h !! id) as [c|]; [|done]. destruct Hinv as [Hf _].
      inversion Hf; subst. rewrite bind_Done. assert_ok by auto. done.
    + exists h. split; [done|]. split; [|done].
      apply (content_inv_skip _ m); [|done]. intros id [_ [|]]; done.
Qed.

(** [close] of one of the messages in use releases what only it refers to. *)
Lemma msg_close_spec ext h m ms :
  heap_inv ext h (m :: ms) → msg_check m = true →
  ∃ h', msg_close h m = Done (RcOk, h', m_set_type 0 (m_set_metadata None m))
    ∧ heap_inv ext h' ms ∧ heap_frame h h'.
Proof.
  intros [Hlen Hext Hsh Hc Hmd Hg] Hck. inversion Hsh as [|? ? Hm Hms]; subst.
  destruct (close_content_spec h m ms) as (h1 & Hr1 & Hc1 & Hf1 & Em1 & Eg1); [done..|].
  assert (Hstep : ∃ f, (match m_metadata m with None => Done h1 | Some md => metadata_drop h1 md end)
      = Done (h_set_metadata f h1) ∧ md_inv ext (h_set_metadata f h1) ms).
  { assert (Hmd1 : md_inv ext h1 (m :: ms)) by (intros md; rewrite Em1; apply Hmd).
    destruct (m_metadata m) as [md|] eqn:Em.
    - by apply (metadata_drop_spec ext h1 m).
    - exists id. split; [by destruct h1|]. apply (md_inv_skip _ _ m); [|by destruct h1].
      intros md [_ ?]. congruence. }
  destruct Hstep as (f & Hr2 & Hmd2).
  destruct (group_drop_spec (h_set_metadata f h1) m ms) as (g & Hr3 & Hg3); [|done|done|apply Hm|].
  { intros k. simpl. rewrite Eg1. apply Hg. }
  exists (h_set_groups g (h_set_metadata f h1)). split; [|split].
  - unfold msg_close. rewrite Hck. unfold close_content in Hr1.
    apply bind_Done_inv in Hr1 as (h0 & Hr0 & Hr1). simpl negb. cbv iota.
    by rewrite Hr0, bind_Done, Hr1, bind_Done, Hr2, bind_Done, Hr3.
  - split; [simpl in *; lia| |done|done|done|done].
    intros md. specialize (Hext md). simpl in Hext. lia.
  - destruct Hf1. by split.
Qed.

Lemma msg_bytes_frame h h' ms m :
  heap_frame h h' → content_inv h' ms → m ∈ ms → msg_bytes h' m = msg_bytes h m.
Proof.
  intros [_ He Hc] Hinv Hm. apply msg_bytes_ext; [done..|].
  intros id Ho. destruct (content_inv_owned h' ms m id) as [c' Hc']; [done..|].
  destruct (Hc id c' Hc') as (c & ? & ?). eauto.
Qed.

(** ** References *)

(** The message after its content became shared. *)
Definition as_shared (m : msg_t) : msg_t :=
  if has_flag m msg_shared then m else set_flags msg_shared m.

Lemma as_shared_shared m : shared (as_shared m).
Proof.
  unfold as_shared. destruct (has_flag m msg_shared) eqn:H; [done|].
  unfold has_flag, set_flags. simpl. apply bool_decide_eq_true_2.
  intros Hz. apply (f_equal (λ z, Z.testbit z 7)) in Hz.
  rewrite Z.land_spec, Z.lor_spec in Hz. change (Z.testbit msg_shared 7) with true in Hz.
  rewrite orb_true_r in Hz. done.
Qed.

Lemma as_shared_fields m :
  m_type (as_shared m) = m_type m ∧ m_body (as_shared m) = m_body m
  ∧ m_metadata (as_shared m) = m_metadata m ∧ m_group (as_shared m) = m_group m.
Proof. unfold as_shared. by destruct (has_flag m msg_shared). Qed.

Lemma owns_as_shared id m : owns id (as_shared m) ↔ owns id m.
Proof. destruct (as_shared_fields m) as (H1 & H2 & _). unfold owns. by rewrite H1, H2. Qed.

Lemma filter_replicate (P : msg_t → Prop) `{!∀ m, Decision (P m)} n m :
  filter P (replicate n m) = if decide (P m) then replicate n m else [].
Proof.
  induction n as [|n IH]; [by destruct (decide (P m))|]. simpl replicate.
  rewrite filter_cons, IH. by destruct (decide (P m)).
Qed.

(** Sharing a content with [k] more messages. *)
Lemma content_share_spec h m ms id (k : nat) :
  content_inv h (m :: ms) → Z.of_nat (length ms + k + 1) < 2 ^ 32 → owns id m →
  ∃ h', content_share h m (Z.of_nat k) = Done (h', as_shared m)
    ∧ content_inv h' (replicate (S k) (as_shared m) ++ ms) ∧ heap_frame h h'
    ∧ h_metadata h' = h_metadata h ∧ h_groups h' = h_groups h.
Proof.
  intros Hinv Hlen Ho. pose proof Ho as [Hbody Htype].
  destruct (content_inv_owned h (m :: ms) m id) as [c Hc]; [done|by left|done|].
  pose proof (Hinv id) as Hid. rewrite Hc, filter_cons_True in Hid by done.
  destruct Hid as [Hz Hcase].
  assert (Hgoal : ∀ n, n = Z.of_nat (S k + length (filter (owns id) ms)) →
    Forall (λ m, shared m) (filter (owns id) ms) →
    let h' := h_set_contents <[id := content_set_refcnt c n]> h in
    content_inv h' (replicate (S k) (as_shared m) ++ ms) ∧ heap_frame h h'
    ∧ h_metadata h' = h_metadata h ∧ h_groups h' = h_groups h).
  { intros n Hn Hsh h'. split; [|split; [split; [done|done|]|done]].
    - intros id'. subst h'. cbn [h_contents h_set_contents]. rewrite filter_app, filter_replicate.
      destruct (decide (id' = id)) as [->|Hd].
      + rewrite lookup_insert_eq, decide_True by (by apply owns_as_shared). split; [|right; split_and!].
        * inversion Hz; subst. apply Forall_app_2; [|done]. apply Forall_replicate.
          by rewrite (proj1 (as_shared_fields m)).
        * apply Forall_app_2; [|done]. apply Forall_replicate, as_shared_shared.
        * simpl. lia.
        * rewrite length_app, length_replicate. done.
      + assert (¬ owns id' m) by (intros [? _]; congruence).
        rewrite lookup_insert_ne, decide_False by (by rewrite ?owns_as_shared).
        specialize (Hinv id'). by rewrite filter_cons_False in Hinv.
    - intros id' c' Hc'. simpl in Hc'. destruct (decide (id' = id)) as [->|Hd]; simplify_map_eq.
      + by exists c.
      + by exists c'. }
  pose proof (length_filter (owns id) ms).
  unfold content_share, get_body_content, get_content. rewrite Hbody, bind_Done, Hc, bind_Done.
  destruct Hcase as [(m' & [= <- Hnil] & Hns)|(Hsh & Hpos & Href)].
  - rewrite Hnil in Hgoal. rewrite (not_true_is_false _ Hns). unfold as_shared in *.
    rewrite (not_true_is_false _ Hns) in *. eexists. split; [done|].
    apply Hgoal; [|done]. rewrite u32_small by lia. simpl. lia.
  - inversion Hsh as [|? ? Hm Hsh']; subst. unfold as_shared in *. rewrite Hm in *.
    eexists. split; [done|]. apply Hgoal; [|done]. simpl in Href. unfold counter_add. simpl.
    rewrite u32_small by lia. lia.
Qed.

Lemma metadata_add_ref_spec ext h m ms md :
  md_inv ext h (m :: ms) → (∀ md, 0 ≤ ext md ∧ ext md + Z.of_nat (length (m :: m :: ms)) < 2 ^ 32) →
  holds_md md m →
  ∃ f, metadata_add_ref h md = Done (h_set_metadata f h) ∧ md_inv ext (h_set_metadata f h) (m :: m :: ms).
Proof.
  intros Hinv Hext Hm. pose proof (Hinv md) as Hmd. pose proof (Hext md) as He.
  pose proof (count_bounds (holds_md md) ms) as Hb. rewrite count_cons, decide_True in Hmd by done.
  unfold metadata_add_ref. destruct (h_metadata h !! md) as [n|] eqn:Hn; [|lia].
  eexists. split; [done|]. intros md'. simpl. specialize (Hinv md'). rewrite count_cons in Hinv |- *.
  rewrite count_cons. destruct (decide (md' = md)) as [->|Hd].
  - rewrite lookup_insert_eq, decide_True by done. unfold counter_add. simpl in *.
    rewrite u32_small by lia. lia.
  - assert (¬ holds_md md' m) by (intros [_ ?]; destruct Hm; congruence).
    rewrite !decide_False in * by done. by simplify_map_eq.
Qed.

Lemma group_add_ref_spec h m ms :
  group_inv h (m :: ms) → Z.of_nat (length (m :: m :: ms)) < 2 ^ 32 →
  msg_check m = true → (∀ n, m_group m ≠ GOverwritten n) →
  ∃ f, group_add_ref h (m_group m) = Done (h_set_groups f h) ∧ group_inv (h_set_groups f h) (m :: m :: ms).
Proof.
  intros Hinv Hlen Hck Hover. unfold group_add_ref.
  destruct (m_group m) as [n|g|n] eqn:Hg; [|..|by destruct (Hover n)].
  { exists id. split; [by destruct h|].
    apply (group_inv_skip _ m); [|by destruct h]. intros g [_ H]. congruence. }
  assert (Hm : holds_group g m) by done. pose proof (Hinv g) as Hgi.
  pose proof (count_bounds (holds_group g) ms) as Hb. rewrite count_cons, decide_True in Hgi by done.
  destruct (h_groups h !! g) as [[name n]|] eqn:Hn; [|lia].
  eexists. split; [done|]. intros g'. simpl. specialize (Hinv g'). rewrite count_cons in Hinv |- *.
  rewrite count_cons. destruct (decide (g' = g)) as [->|Hd].
  - rewrite lookup_insert_eq, decide_True by done. unfold counter_add. simpl in *.
    rewrite u32_small by lia. lia.
  - assert (¬ holds_group g' m) by (intros [_ ?]; congruence).
    rewrite !decide_False in * by done. by simplify_map_eq.
Qed.

(** The message as its references are added to. *)
Definition counted (m : msg_t) : bool := is_lmsg m || is_zcmsg m.
Definition copy_of (m : msg_t) : msg_t := if counted m then as_shared m else m.

Lemma counted_spec m : counted m = true ↔ (m_type m = type_lmsg ∨ m_type m = type_zclmsg).
Proof. unfold counted, is_lmsg, is_zcmsg. rewrite orb_true_iff, !bool_decide_eq_true. done. Qed.

Lemma copy_of_fields m :
  m_type (copy_of m) = m_type m ∧ m_body (copy_of m) = m_body m
  ∧ m_metadata (copy_of m) = m_metadata m ∧ m_group (copy_of m) = m_group m.
Proof. unfold copy_of. destruct (counted m); [apply as_shared_fields|done]. Qed.

Lemma copy_of_check m : msg_check (copy_of m) = msg_check m.
Proof. unfold msg_check. by rewrite (proj1 (copy_of_fields m)). Qed.

Lemma copy_of_shape m : msg_shape m → msg_shape (copy_of m).
Proof.
  destruct (copy_of_fields m) as (H1 & H2 & _ & H4). unfold msg_shape. by rewrite H1, H2, H4.
Qed.

Lemma copy_of_bytes h m : msg_bytes h (copy_of m) = msg_bytes h m.
Proof.
  destruct (copy_of_fields m) as (H1 & H2 & _).
  unfold msg_bytes, msg_size, msg_data, msg_check, get_body_content. by rewrite H1, H2.
Qed.

(** Only the contents matter to the messages' flags. *)
Lemma count_cons_ext P `{!∀ m, Decision (P m)} m m' ms :
  (P m' ↔ P m) → count P (m' :: ms) = count P (m :: ms).
Proof. intros HP. rewrite !count_cons. by rewrite (decide_ext _ _ _ _ HP). Qed.

Lemma md_inv_copy_of ext h m ms : md_inv ext h (m :: ms) → md_inv ext h (copy_of m :: ms).
Proof.
  intros H md. specialize (H md). rewrite (count_cons_ext _ m); [done|].
  unfold holds_md. rewrite copy_of_check. by destruct (copy_of_fields m) as (_ & _ & -> & _).
Qed.
Lemma group_inv_copy_of h m ms : group_inv h (m :: ms) → group_inv h (copy_of m :: ms).
Proof.
  intros H g. specialize (H g). rewrite (count_cons_ext _ m); [done|].
  unfold holds_group. rewrite copy_of_check. by destruct (copy_of_fields m) as (_ & _ & _ & ->).
Qed.

(** Sharing when the message has a counted content, nothing otherwise. *)
Lemma share_spec h m ms (k : nat) :
  content_inv h (m :: ms) → Z.of_nat (length ms + k + 1) < 2 ^ 32 → msg_shape m →
  ∃ h', (if counted m then content_share h m (Z.of_nat k) else Done (h, m)) = Done (h', copy_of m)
    ∧ content_inv h' (replicate (S k) (copy_of m) ++ ms) ∧ heap_frame h h'
    ∧ h_metadata h' = h_metadata h ∧ h_groups h' = h_groups h.
Proof.
  intros Hinv Hlen (_ & Hbody & _). unfold copy_of. destruct (counted m) eqn:Hc.
  - apply counted_spec in Hc. destruct (Hbody Hc) as [id Hid]. by apply content_share_spec with id.
  - exists h. split; [done|]. split; [|done].
    assert (Ho : ∀ id, ¬ owns id m).
    { intros id [_ Ht]. apply counted_spec in Ht. congruence. }
    apply content_inv_skip in Hinv; [|done]. intros id. specialize (Hinv id).
    by rewrite filter_app, filter_replicate, decide_False.
Qed.

(** [copy] leaves two handles of the source's content. *)
Lemma msg_copy_spec ext h m src ms :
  heap_inv ext h (m :: src :: ms) → msg_check m = true → msg_check src = true →
  ∃ h', msg_copy h m src = Done (RcOk, h', copy_of src, copy_of src)
    ∧ heap_inv ext h' (copy_of src :: copy_of src :: ms) ∧ heap_frame h h'.
Proof.
  intros Hinv Hm Hsrc. destruct (msg_close_spec ext h m (src :: ms)) as (h0 & Hcl & Hinv0 & Hf0); [done..|].
  pose proof (inv_len _ _ _ Hinv) as Hlen. pose proof (inv_ext _ _ _ Hinv) as Hext.
  destruct Hinv0 as [_ _ Hsh0 Hc0 Hmd0 Hg0]. inversion Hsh0 as [|? ? Hshs Hshms]; subst.
  destruct (share_spec h0 src ms 1) as (h1 & Hr1 & Hc1 & Hf1 & Em1 & Eg1); [done|simpl in *; lia|done|].
  assert (Hmd1 : md_inv ext h1 (copy_of src :: ms)).
  { apply md_inv_copy_of. intros md. rewrite Em1. apply Hmd0. }
  assert (Hstep : ∃ f, (match m_metadata (copy_of src) with None => Done h1 | Some md => metadata_add_ref h1 md end)
      = Done (h_set_metadata f h1) ∧ md_inv ext (h_set_metadata f h1) (copy_of src :: copy_of src :: ms)).
  { destruct (m_metadata (copy_of src)) as [md|] eqn:Em.
    - apply metadata_add_ref_spec; [done|done|]. split; [by rewrite copy_of_check|done].
    - exists id. split; [by destruct h1|]. apply md_inv_skip; [|by destruct h1].
      intros md [_ ?]. congruence. }
  destruct Hstep as (f & Hr2 & Hmd2).
  destruct (group_add_ref_spec (h_set_metadata f h1) (copy_of src) ms) as (g & Hr3 & Hg3).
  { apply group_inv_copy_of. intros k. simpl. rewrite Eg1. apply Hg0. }
  { done. } { by rewrite copy_of_check. } { apply copy_of_shape, Hshs. }
  exists (h_set_groups g (h_set_metadata f h1)). split; [|split].
  - unfold msg_copy. rewrite Hsrc. simpl negb. cbv iota. rewrite Hcl, bind_Done. cbv iota.
    unfold counted in Hr1. change (Z.of_nat 1) with 1 in Hr1.
    by rewrite Hr1, bind_Done, Hr2, bind_Done, Hr3.
  - split; [done|done| |done|done|done]. by repeat constructor; try apply copy_of_shape.
  - transitivity h0; [done|]. destruct Hf1. by split.
Qed.

(** The empty message holds nothing. *)
Lemma heap_inv_idle ext h m ms :
  heap_inv ext h ms → msg_shape m → (∀ id, ¬ owns id m) → (∀ md, ¬ holds_md md m) →
  (∀ g, ¬ holds_group g m) →
  Z.of_nat (length (m :: ms)) < 2 ^ 32 → (∀ md, ext md + Z.of_nat (length (m :: ms)) < 2 ^ 32) →
  heap_inv ext h (m :: ms).
Proof.
  intros [H1 H2 H3 H4 H5 H6] Hs Ho Hmd Hg Hl He. split; [done| | | | |].
  - intros md. split; [apply H2|apply He].
  - by constructor.
  - by apply content_inv_skip.
  - by apply md_inv_skip.
  - by apply group_inv_skip.
Qed.

Lemma msg_init_shape : msg_shape msg_init.
Proof. unfold msg_shape. simpl. split_and!; [|by intros [|]|done|done]. intros _. eexists _, _. done. Qed.

(** [move] hands the source's references over and leaves an empty message. *)
Lemma msg_move_spec ext h m src ms :
  heap_inv ext h (m :: src :: ms) → msg_check m = true → msg_check src = true →
  ∃ h', msg_move h m src = Done (RcOk, h', src, msg_init)
    ∧ heap_inv ext h' (src :: msg_init :: ms) ∧ heap_frame h h'.
Proof.
  intros Hinv Hm Hsrc. destruct (msg_close_spec ext h m (src :: ms)) as (h0 & Hcl & Hinv0 & Hf0); [done..|].
  exists h0. split; [|split; [|done]].
  - unfold msg_move. rewrite Hsrc. simpl negb. cbv iota. by rewrite Hcl, bind_Done.
  - rewrite Permutation_swap. apply heap_inv_idle; [done|apply msg_init_shape|..].
    + by intros id [? [|]].
    + by intros md [? ?].
    + by intros md [? ?].
    + apply (inv_len _ _ _ Hinv).
    + apply (inv_ext _ _ _ Hinv).
Qed.

(** A message [add_refs] may be called on: no metadata (asserted) and no long
    group (whose references [add_refs] does not count). *)
Definition plain (m : msg_t) : Prop := m_metadata m = None ∧ ∃ g, m_group m = GShort g.

Lemma plain_copy_of m : plain m → plain (copy_of m).
Proof. unfold plain. by destruct (copy_of_fields m) as (_ & _ & -> & ->). Qed.

Lemma heap_inv_add ext h h' m ms (k : nat) :
  heap_inv ext h (m :: ms) → plain m → Z.of_nat (length ms + k) < 2 ^ 32 →
  (∀ md, ext md + Z.of_nat (length ms + k) < 2 ^ 32) →
  content_inv h' (replicate k (copy_of m) ++ ms) →
  h_metadata h' = h_metadata h → h_groups h' = h_groups h →
  heap_inv ext h' (replicate k (copy_of m) ++ ms).
Proof.
  intros [_ Hext Hs _ Hmd Hg] Hpl Hlen Hl2 Hc Em Eg. inversion Hs; subst.
  apply md_inv_skip in Hmd; [|intros md [_ ?]; destruct Hpl; congruence].
  apply group_inv_skip in Hg; [|intros g [_ ?]; destruct Hpl as [_ [? ?]]; congruence].
  assert (Hl : length (replicate k (copy_of m) ++ ms) = (length ms + k)%nat).
  { rewrite length_app, length_replicate. lia. }
  apply plain_copy_of in Hpl. split; rewrite ?Hl; try done.
  - intros md. split; [apply Hext|apply Hl2].
  - apply Forall_app_2; [|done]. by apply Forall_replicate, copy_of_shape.
  - clear -Hmd Hpl Em. induction k as [|k IH]; simpl; [intros md; rewrite Em; apply Hmd|].
    apply md_inv_skip; [|done]. intros md [_ ?]. destruct Hpl; congruence.
  - clear -Hg Hpl Eg. induction k as [|k IH]; simpl; [intros g; rewrite Eg; apply Hg|].
    apply group_inv_skip; [|done]. intros g [_ ?]. destruct Hpl as [_ [? ?]]; congruence.
Qed.

(** [add_refs (k)] entitles the caller to [k] more handles. *)
Lemma msg_add_refs_spec ext h m ms (k : nat) :
  heap_inv ext h (m :: ms) → plain m → (0 < k)%nat →
  Z.of_nat (length ms + S k) < 2 ^ 32 → (∀ md, ext md + Z.of_nat (length ms + S k) < 2 ^ 32) →
  ∃ h', msg_add_refs h m (Z.of_nat k) = Done (h', copy_of m)
    ∧ heap_inv ext h' (replicate (S k) (copy_of m) ++ ms) ∧ heap_frame h h'.
Proof.
  intros Hinv Hpl Hk Hlen Hl2. pose proof Hinv as [_ _ Hs Hc _ _]. inversion Hs; subst.
  destruct (share_spec h m ms k) as (h' & Hr & Hc' & Hf & Em & Eg); [done|lia|done|].
  exists h'. split; [|split; [|done]].
  - unfold msg_add_refs. assert_ok. assert_ok by apply Hpl. rewrite decide_False by lia. exact Hr.
  - by apply (heap_inv_add ext h).
Qed.

(** [rm_refs (k)] on a shared content gives [k] handles up; the result says
    whether a handle is left. *)
Lemma msg_rm_refs_spec ext h m ms (k : nat) id :
  heap_inv ext h (replicate k m ++ ms) → plain m → (0 < k)%nat → owns id m → shared m →
  ∃ h', msg_rm_refs h m (Z.of_nat k) = Done (bool_decide (filter (owns id) ms ≠ []), h', m)
    ∧ heap_inv ext h' ms ∧ heap_frame h h'.
Proof.
  intros [Hlen Hext Hs Hc Hmd Hg] Hpl Hk Ho Hsh.
  destruct (content_inv_owned h (replicate k m ++ ms) m id) as [c Hcid]; [done| |done|].
  { apply elem_of_app. left. apply elem_of_replicate. split; [done|lia]. }
  destruct (content_sub_spec h (replicate k m) ms id c) as (h' & Hr & Hc' & Hf & Em & Eg);
    [done|done|by apply Forall_replicate|by destruct k; [lia|]|done|].
  exists h'. split; [|split; [|done]].
  - unfold msg_rm_refs. assert_ok. assert_ok by apply Hpl. rewrite decide_False by lia.
    destruct Ho as [Hb Ht]. rewrite decide_False by (rewrite Hsh; intros [[? ?]|?]; by destruct Ht).
    unfold get_body_content, get_content. rewrite Hb, bind_Done, Hcid, bind_Done.
    rewrite length_replicate in Hr. destruct (counter_sub (ct_refcnt c) (Z.of_nat k)) as [n []];
      simpl in Hr; injection Hr as Hb1 <-; by rewrite Hb1.
  - rewrite length_app in Hlen. setoid_rewrite length_app in Hext.
    assert (Hrep : md_inv ext h ms ∧ group_inv h ms).
    { clear -Hmd Hg Hpl. induction k as [|k IH]; [done|]. apply IH.
      - eapply md_inv_skip, Hmd. intros md [_ ?]. destruct Hpl; congruence.
      - eapply group_inv_skip, Hg. intros g [_ ?]. destruct Hpl as [_ [? ?]]; congruence. }
    destruct Hrep as [Hmd' Hg']. split; [lia| |by apply Forall_app in Hs as [_ Hs]|done| |].
    + intros md. specialize (Hext md). lia.
    + intros md. rewrite Em. apply Hmd'.
    + intros g. rewrite Eg. apply Hg'.
Qed.

(** ** Initialisation *)

(** Whether [init_size (n)] finds memory. *)
Definition alloc_ok (h : heap) (n : Z) : bool := (n <=? max_vsm_size) || h_malloc h (sizeof_content + n).

(** A fresh content owned by one fresh message. *)
Lemma new_content_inv h c m ms id :
  content_inv h ms → h_contents h !! id = None →
  m_type m = type_lmsg → m_body m = BContent id → has_flag m msg_shared = false →
  content_inv (h_set_contents <[id := c]> h) (m :: ms).
Proof.
  intros Hinv Hid Ht Hb Hns id'. simpl. specialize (Hinv id').
  destruct (decide (id' = id)) as [->|Hd].
  - rewrite Hid in Hinv. rewrite lookup_insert_eq, filter_cons_True by (by split; [|left]).
    rewrite Hinv. split; [|left; exists m; split; [done|congruence]].
    apply Forall_singleton. intros Hz. by rewrite Ht in Hz.
  - rewrite lookup_insert_ne, filter_cons_False by (congruence || (intros [? _]; congruence)). done.
Qed.

Lemma overwrite_all bs mem :
  length bs = length mem → overwrite bs mem = Done bs.
Proof.
  intros Hl. unfold overwrite. rewrite decide_True by lia. by rewrite drop_ge, app_nil_r by lia.
Qed.

(** A very small message holding [bs], and the empty rest of its buffer. *)
Lemma vsm_msg_spec ext h ms bs d :
  heap_inv ext h ms → Z.of_nat (length bs) ≤ max_vsm_size →
  Z.of_nat (S (length ms)) < 2 ^ 32 → (∀ md, ext md + Z.of_nat (S (length ms)) < 2 ^ 32) →
  Z.of_nat (length d) = max_vsm_size → take (length bs) d = bs →
  let m := msg_base type_vsm (BVsm d (u8 (Z.of_nat (length bs)))) in
  heap_inv ext h (m :: ms) ∧ msg_bytes h m = Done bs.
Proof.
  intros Hinv Hv Hl1 Hl2 Hd Htk m. assert (Hvs : max_vsm_size = 33) by done. split.
  - apply heap_inv_idle; [done| |by intros ? [? [|]]|by intros ? []|by intros ? []|done|done].
    split_and!; [intros _|by intros [|]|done|done]. exists d, (u8 (Z.of_nat (length bs))).
    split; [done|]. rewrite u8_small by lia. lia.
  - unfold msg_bytes, m. simpl. rewrite u8_small, decide_True by lia. by rewrite Nat2Z.id, Htk.
Qed.

(** A long message holding [bs] in a content of its own. *)
Lemma lmsg_msg_spec ext h ms bs id :
  heap_inv ext h ms → h_contents h !! id = None →
  Z.of_nat (S (length ms)) < 2 ^ 32 → (∀ md, ext md + Z.of_nat (S (length ms)) < 2 ^ 32) →
  let h' := h_set_contents <[id := Content DOwn bs (Z.of_nat (length bs)) None 0 0]> h in
  let m := msg_base type_lmsg (BContent id) in
  heap_inv ext h' (m :: ms) ∧ msg_bytes h' m = Done bs
  ∧ (∀ m', m' ∈ ms → msg_bytes h' m' = msg_bytes h m').
Proof.
  intros [_ Hext Hs Hc Hmd Hg] Hid Hl1 Hl2 h' m. split_and!.
  - split; [done| | | | |].
    + intros md. split; [apply Hext|apply Hl2].
    + constructor; [|done]. split_and!; [done|by intros _; exists id|done|done].
    + by apply new_content_inv.
    + apply md_inv_skip; [by intros ? []|done].
    + apply group_inv_skip; [by intros ? []|done].
  - unfold msg_bytes, m, msg_size, msg_data, get_body_content. simpl.
    unfold get_content. simpl. rewrite lookup_insert_eq. simpl. rewrite decide_True by lia.
    by rewrite Nat2Z.id, firstn_all.
  - intros m' Hm'. apply msg_bytes_ext; [done..|]. intros id' Ho.
    destruct (content_inv_owned h ms m' id') as [c' Hc']; [done..|]. exists c', c'.
    split; [done|]. split; [|done]. simpl. rewrite lookup_insert_ne; [done|congruence].
Qed.

(** [init_buffer]: the message holds the bytes, or the heap is as before. *)
Lemma msg_init_buffer_spec ext h ms bs :
  heap_inv ext h ms → Z.of_nat (length bs) < 2 ^ 63 →
  Z.of_nat (S (length ms)) < 2 ^ 32 → (∀ md, ext md + Z.of_nat (S (length ms)) < 2 ^ 32) →
  if alloc_ok h (Z.of_nat (length bs)) then
    ∃ h' m, msg_init_buffer h (Some bs) (Z.of_nat (length bs)) = Done (RcOk, h', m)
      ∧ (heap_inv ext h' (m :: ms) ∧ msg_bytes h' m = Done bs
         ∧ (∀ m', m' ∈ ms → msg_bytes h' m' = msg_bytes h m'))
      ∧ msg_check m = true ∧ plain m ∧ h_malloc h' = h_malloc h
  else ∃ m, msg_init_buffer h (Some bs) (Z.of_nat (length bs)) = Done (RcErr ENOMEM, h, m).
Proof.
  intros Hinv Hlen Hl1 Hl2. unfold alloc_ok, msg_init_buffer, msg_init_size.
  assert (Hvs : max_vsm_size = 33) by done.
  destruct (Z.leb_spec (Z.of_nat (length bs)) max_vsm_size) as [Hv|Hv]; simpl orb; cbv iota.
  - rewrite decide_True by done. set (mem := replicate _ 0).
    assert (Hmem : Z.of_nat (length mem) = max_vsm_size) by done.
    destruct (decide (Z.of_nat (length bs) ≠ 0)) as [Hne|He].
    + rewrite decide_True by lia. rewrite Nat2Z.id, firstn_all.
      unfold msg_memcpy, overwrite. simpl. rewrite decide_True by lia. simpl.
      destruct (vsm_msg_spec ext h ms bs (bs ++ drop (length bs) mem)); [done..| | |].
      * rewrite length_app, length_drop. lia.
      * by rewrite take_app_length.
      * eexists h, _. split; [done|]. split; [done|]. split; [done|]. split; [by split; eauto|done].
    + destruct (vsm_msg_spec ext h ms bs mem); [done..| |].
      * by destruct bs; [|simpl in He; lia].
      * eexists h, _. split; [done|]. split; [done|]. split; [done|]. split; [by split; eauto|done].
  - rewrite decide_False, u64_small by (unfold sizeof_content; lia).
    destruct (h_malloc h (sizeof_content + Z.of_nat (length bs))) eqn:Hal; last first.
    { rewrite decide_False by (intros [_ ?]; congruence). by eexists. }
    rewrite decide_True by (unfold sizeof_content; lia). unfold new_content.
    set (id := fresh (dom (h_contents h))).
    destruct (lmsg_msg_spec ext h ms bs id) as (H1 & H2 & H3); [done| |done|done|].
    { apply not_elem_of_dom, is_fresh. }
    rewrite decide_True, decide_True by lia. rewrite Nat2Z.id, firstn_all.
    unfold msg_memcpy, get_content. simpl. rewrite lookup_insert_eq. simpl.
    rewrite overwrite_all by (by rewrite length_replicate). simpl.
    eexists _, _. split; [done|]. unfold h_set_contents in *. simpl in *. rewrite insert_insert_eq.
    split; [done|]. split; [done|]. split; [by split; eauto|done].
Qed.

(** ** Programs over a pool of messages

    A program that keeps [msg_t] objects in slots and initialises, copies, moves
    and closes them.  The abstract pool holds the bytes of each open slot. *)
Inductive msg_op :=
| OpSet (i : nat) (bs : list Z)      (* close, then init_buffer *)
| OpCopy (i j : nat)                 (* slot i .copy (slot j) *)
| OpMove (i j : nat)                 (* slot i .move (slot j) *)
| OpClose (i : nat).

Definition pool_step (p : heap * list msg_t) (op : msg_op) : outcome (heap * list msg_t) :=
  let '(h, ms) := p in
  match op with
  | OpClose i =>
      match ms !! i with
      | Some m => '(_, h, m) ← msg_close h m; Done (h, <[i := m]> ms)
      | None => Done p
      end
  | OpSet i bs =>
      match ms !! i with
      | Some m =>
          '(_, h, m) ← msg_close h m;
          '(rc, h, m') ← msg_init_buffer h (Some bs) (Z.of_nat (length bs));
          Done (h, <[i := if decide (rc = RcOk) then m' else m]> ms)
      | None => Done p
      end
  | OpCopy i j =>
      match ms !! i, ms !! j with
      | Some m, Some src =>
          if decide (i = j) then '(_, h, m) ← msg_copy_self h m; Done (h, <[i := m]> ms)
          else '(_, h, m, src) ← msg_copy h m src; Done (h, <[i := m]> (<[j := src]> ms))
      | _, _ => Done p
      end
  | OpMove i j =>
      match ms !! i, ms !! j with
      | Some m, Some src =>
          if decide (i = j) then '(_, h, m) ← msg_move_self h m; Done (h, <[i := m]> ms)
          else '(_, h, m, src) ← msg_move h m src; Done (h, <[i := m]> (<[j := src]> ms))
      | _, _ => Done p
      end
  end.

Fixpoint pool_run (p : heap * list msg_t) (ops : list msg_op) : outcome (heap * list msg_t) :=
  match ops with
  | [] => Done p
  | op :: ops => p ← pool_step p op; pool_run p ops
  end.

(** The specification: slots of byte strings; an operation on a closed slot is
    refused with [EFAULT].  Copied onto itself a message ends closed, moved onto itself
    it ends empty. *)
Abbreviation abs_pool := (list (option (list Z))).

Definition abs_step (malloc : Z → bool) (a : abs_pool) (op : msg_op) : abs_pool :=
  match op with
  | OpClose i => <[i := None]> a
  | OpSet i bs =>
      let n := Z.of_nat (length bs) in
      <[i := if (n <=? max_vsm_size) || malloc (sizeof_content + n) then Some bs else None]> a
  | OpCopy i j =>
      match a !! i, a !! j with
      | Some (Some _), Some (Some bs) => <[i := if decide (i = j) then None else Some bs]> a
      | _, _ => a
      end
  | OpMove i j =>
      match a !! i, a !! j with
      | Some (Some _), Some (Some bs) => if decide (i = j) then <[i := Some []]> a else <[i := Some bs]> (<[j := Some []]> a)
      | _, _ => a
      end
  end.

(** A slot of the pool and its abstraction. *)
Definition slot_rel (h : heap) (m : msg_t) (a : option (list Z)) : Prop :=
  match a with
  | Some bs => msg_check m = true ∧ msg_bytes h m = Done bs ∧ plain m
  | None => msg_check m = false
  end.

Lemma msg_init_slot h : slot_rel h msg_init (Some []).
Proof. split_and!; [done|done|]. split; [done|by eexists]. Qed.

Definition no_ext : nat → Z := λ _, 0.

Definition pool_rel (p : heap * list msg_t) (a : abs_pool) : Prop :=
  heap_inv no_ext p.1 p.2 ∧ Forall2 (slot_rel p.1) p.2 a.

(** The pool after slot [i] changed, when the bytes of the others did not. *)
Lemma pool_rel_update h h' ms a i m x :
  Forall2 (slot_rel h) ms a → (i < length ms)%nat →
  heap_inv no_ext h' (m :: delete i ms) → slot_rel h' m x →
  (∀ m', m' ∈ delete i ms → msg_bytes h' m' = msg_bytes h m') →
  pool_rel (h', <[i := m]> ms) (<[i := x]> a).
Proof.
  intros Ha Hi Hinv Hm Hbytes. split; simpl.
  - rewrite (delete_Permutation (<[i := m]> ms) i m) by (by apply list_lookup_insert_eq).
    by rewrite delete_list_insert.
  - apply Forall2_same_length_lookup_2.
    + rewrite !length_insert. by eapply Forall2_length.
    + intros k mk ak [(-> & -> & _)|[Hk1 Hk1']]%list_lookup_insert_Some Hk2.
      * apply list_lookup_insert_Some in Hk2 as [(_ & -> & _)|[? _]]; done.
      * rewrite list_lookup_insert_ne in Hk2 by done.
        pose proof (Forall2_lookup_lr _ _ _ _ _ _ Ha Hk1' Hk2) as Hrel.
        unfold slot_rel in *. destruct ak; [|done]. rewrite Hbytes; [done|].
        apply list_elem_of_lookup. destruct (decide (k < i)%nat).
        -- exists k. by rewrite list_lookup_delete_lt.
        -- exists (k - 1)%nat. rewrite list_lookup_delete_ge by lia. by replace (S (k - 1)) with k by lia.
Qed.

(** A step that only drops or shares references keeps the abstraction. *)
Lemma pool_rel_frame h h' ms a :
  heap_inv no_ext h' ms → heap_frame h h' → Forall2 (slot_rel h) ms a → pool_rel (h', ms) a.
Proof.
  intros Hinv Hf Ha. split; [done|]. simpl. apply Forall2_same_length_lookup_2.
  { by eapply Forall2_length. }
  intros k m x Hm Hx. pose proof (Forall2_lookup_lr _ _ _ _ _ _ Ha Hm Hx) as Hrel.
  unfold slot_rel in *. destruct x; [|done].
  rewrite (msg_bytes_frame h h' ms); [done|done|apply Hinv|]. by eapply list_elem_of_lookup_2.
Qed.

(** Two slots and the rest, before and after both change. *)
Lemma pool_two {A} (l : list A) i j x y :
  i ≠ j → l !! i = Some x → l !! j = Some y →
  ∃ rest, l ≡ₚ x :: y :: rest ∧ ∀ x' y', <[i := x']> (<[j := y']> l) ≡ₚ x' :: y' :: rest.
Proof.
  intros Hij Hx Hy.
  assert (Hrest : ∃ rest, l ≡ₚ x :: y :: rest).
  { pose proof (delete_Permutation l i x Hx) as Hd. assert (y ∈ delete i l) as [rest Hr]%elem_of_Permutation.
    { apply list_elem_of_lookup. destruct (decide (j < i)%nat).
      - exists j. by rewrite list_lookup_delete_lt.
      - exists (j - 1)%nat. rewrite list_lookup_delete_ge by lia. by replace (S (j - 1)) with j by lia. }
    exists rest. by rewrite <- Hr. }
  destruct Hrest as [rest Hr]. exists rest. split; [done|]. intros x' y'.
  pose proof (insert_swap (<[j := y']> l) i x x') as H1. rewrite list_lookup_insert_ne in H1 by done.
  pose proof (insert_swap l j y y' Hy) as H2.
  apply (Permutation_cons_inv (a:=x)), (Permutation_cons_inv (a:=y)).
  rewrite H1 by done. rewrite Permutation_swap, H2, Hr. solve_Permutation.
Qed.

(** [close] of a slot, open or not. *)
Lemma close_slot_spec h ms i m :
  heap_inv no_ext h ms → ms !! i = Some m →
  ∃ rc h' m', msg_close h m = Done (rc, h', m') ∧ msg_check m' = false ∧ heap_frame h h'
    ∧ heap_inv no_ext h' (delete i ms) ∧ heap_inv no_ext h' (m' :: delete i ms).
Proof.
  intros Hinv Hm. rewrite (delete_Permutation ms i m Hm) in Hinv.
  pose proof (inv_len _ _ _ Hinv) as Hl. pose proof (inv_shape _ _ _ Hinv) as Hs.
  assert (Hidle : ∀ m', msg_check m' = false →
    (∀ id, ¬ owns id m') ∧ (∀ md, ¬ holds_md md m') ∧ (∀ g, ¬ holds_group g m')).
  { intros m' Hc. split_and!; [intros id [_ [Ht|Ht]]|intros md [? _]|intros g [? _]]; try congruence;
      unfold msg_check in Hc; by rewrite Ht in Hc. }
  destruct (msg_check m) eqn:Hck.
  - destruct (msg_close_spec no_ext h m (delete i ms)) as (h' & Hcl & Hinv' & Hf); [done..|].
    eexists _, h', _. split; [done|]. split; [done|]. split; [done|]. split; [done|].
    set (m' := m_set_type _ _). destruct (Hidle m') as (H1 & H2 & H3); [done|].
    apply heap_inv_idle; [done| |done..]. inversion Hs as [|? ? Hsm _]; subst. by split_and!; [|intros [|]| |apply Hsm].
  - unfold msg_close. rewrite Hck. simpl. eexists _, h, m. split; [done|]. split; [done|].
    split; [done|]. split; [|done]. destruct (Hidle m) as (H1 & H2 & H3); [done|].
    destruct Hinv as [? He ? ? ? ?]. split; [simpl in *; lia| |by inversion Hs|..].
    + intros md. specialize (He md). simpl in He. lia.
    + by eapply content_inv_skip.
    + by eapply md_inv_skip.
    + by eapply group_inv_skip.
Qed.

(** Each operation on the pool completes and does what the abstract one does. *)
Lemma pool_step_close h ms a i :
  pool_rel (h, ms) a →
  ∃ h' ms', pool_step (h, ms) (OpClose i) = Done (h', ms') ∧ h_malloc h' = h_malloc h
    ∧ pool_rel (h', ms') (abs_step (h_malloc h) a (OpClose i)).
Proof.
  intros [Hinv Ha]. simpl in *. destruct (ms !! i) as [m|] eqn:Hm; last first.
  { exists h, ms. split; [done|]. split; [done|]. rewrite list_insert_ge; [done|].
    rewrite <- (Forall2_length _ _ _ Ha). by apply lookup_ge_None. }
  destruct (close_slot_spec h ms i m) as (rc & h' & m' & -> & Hck & Hf & _ & Hinv'); [done..|].
  simpl. eexists _, _. split; [done|]. split; [apply Hf|]. apply (pool_rel_frame h); [|done|].
  - rewrite (delete_Permutation (<[i := m']> ms) i m'), delete_list_insert; [done|].
    apply list_lookup_insert_eq. by eapply lookup_lt_Some.
  - by apply Forall2_insert.
Qed.

Lemma pool_step_set h ms a i bs :
  pool_rel (h, ms) a → Z.of_nat (length bs) < 2 ^ 63 →
  ∃ h' ms', pool_step (h, ms) (OpSet i bs) = Done (h', ms') ∧ h_malloc h' = h_malloc h
    ∧ pool_rel (h', ms') (abs_step (h_malloc h) a (OpSet i bs)).
Proof.
  intros [Hinv Ha] Hbs. simpl in *. destruct (ms !! i) as [m|] eqn:Hm; last first.
  { exists h, ms. split; [done|]. split; [done|]. rewrite list_insert_ge; [done|].
    rewrite <- (Forall2_length _ _ _ Ha). by apply lookup_ge_None. }
  destruct (close_slot_spec h ms i m) as (rc & h1 & m' & -> & Hck & Hf & Hinv1 & Hinv1'); [done..|].
  pose proof (inv_len _ _ _ Hinv1') as Hl1. pose proof (inv_ext _ _ _ Hinv1') as Hl2.
  assert (Hi : (i < length ms)%nat) by (by eapply lookup_lt_Some).
  destruct (pool_rel_frame h h1 (<[i := m']> ms) (<[i := None]> a)) as [_ Ha1]; [|done|by apply Forall2_insert|].
  { rewrite (delete_Permutation (<[i := m']> ms) i m'), delete_list_insert; [done|].
    by apply list_lookup_insert_eq. }
  simpl in Ha1. pose proof (msg_init_buffer_spec no_ext h1 (delete i ms) bs Hinv1 Hbs Hl1 (λ md, proj2 (Hl2 md))) as Hinit.
  unfold alloc_ok in Hinit. rewrite (frame_malloc _ _ Hf) in Hinit. rewrite bind_Done. cbv iota beta.
  destruct (_ || _).
  - destruct Hinit as (h2 & m2 & -> & (Hinv2 & Hb2 & Hfr2) & Hck2 & Hpl2 & Hml). simpl.
    eexists _, _. split; [done|]. split; [done|].
    rewrite <- (list_insert_insert_eq ms i m2 m'), <- (list_insert_insert_eq a i (Some bs) None).
    eapply (pool_rel_update h1); [done|by rewrite length_insert|..];
      rewrite ?delete_list_insert; [done|by split_and!|done].
  - destruct Hinit as (m2 & ->). simpl. eexists _, _. split; [done|]. split; [apply Hf|].
    split; [|done]. simpl. rewrite (delete_Permutation (<[i := m']> ms) i m'), delete_list_insert; [done|].
    by apply list_lookup_insert_eq.
Qed.

(** Copy and move share the treatment of refused operands. *)
Lemma pool_step_two h ms a i j :
  pool_rel (h, ms) a → i ≠ j →
  (∀ m src x y, ms !! i = Some m → ms !! j = Some src → a !! i = Some x → a !! j = Some y →
     msg_check m = true → msg_check src = true → slot_rel h src y →
     (∃ h' , msg_copy h m src = Done (RcOk, h', copy_of src, copy_of src)
        ∧ h_malloc h' = h_malloc h
        ∧ pool_rel (h', <[i := copy_of src]> (<[j := copy_of src]> ms)) (<[i := y]> a))
     ∧ (∃ h', msg_move h m src = Done (RcOk, h', src, msg_init)
        ∧ h_malloc h' = h_malloc h
        ∧ pool_rel (h', <[i := src]> (<[j := msg_init]> ms)) (<[i := y]> (<[j := Some []]> a)))).
Proof.
  intros [Hinv Ha] Hij m src x y Hm Hs Hx Hy Hcm Hcs Hrel. simpl in *.
  destruct (pool_two ms i j m src) as (rest & Hp & Hp'); [done..|]. rewrite Hp in Hinv. split.
  - destruct (msg_copy_spec no_ext h m src rest) as (h' & Hcp & Hinv' & Hf); [done..|].
    exists h'. split; [done|]. split; [apply Hf|]. apply (pool_rel_frame h); [by rewrite Hp'|done|].
    rewrite <- (list_insert_id a j y) by done.
    apply Forall2_insert; [apply Forall2_insert; [done|]|];
      (destruct y; simpl in *; rewrite ?copy_of_bytes, ?copy_of_check; [|done]); destruct Hrel as (? & ? & ?%plain_copy_of); done.
  - destruct (msg_move_spec no_ext h m src rest) as (h' & Hmv & Hinv' & Hf); [done..|].
    exists h'. split; [done|]. split; [apply Hf|]. apply (pool_rel_frame h); [by rewrite Hp'|done|].
    apply Forall2_insert; [|done]. apply Forall2_insert; [done|apply msg_init_slot].
Qed.

Lemma slot_rel_lookup h ms a i m :
  Forall2 (slot_rel h) ms a → ms !! i = Some m → ∃ x, a !! i = Some x ∧ slot_rel h m x.
Proof. intros Ha Hm. destruct (Forall2_lookup_l _ _ _ _ _ Ha Hm) as (x & ? & ?). eauto. Qed.

Definition op_sized (op : msg_op) : Prop :=
  match op with OpSet _ bs => Z.of_nat (length bs) < 2 ^ 63 | _ => True end.

(** Copy and move onto itself *)
Lemma pool_step_self h ms a i m x :
  pool_rel (h, ms) a → ms !! i = Some m → a !! i = Some x →
  (∃ h' ms', ('(_, h, m) ← msg_copy_self h m; Done (h, <[i := m]> ms)) = Done (h', ms') ∧ h_malloc h' = h_malloc h
     ∧ pool_rel (h', ms') (match x with Some _ => <[i := None]> a | None => a end))
  ∧ (∃ h' ms', ('(_, h, m) ← msg_move_self h m; Done (h, <[i := m]> ms)) = Done (h', ms') ∧ h_malloc h' = h_malloc h
     ∧ pool_rel (h', ms') (match x with Some _ => <[i := Some []]> a | None => a end)).
Proof.
  intros Hrel Hm Hx. pose proof Hrel as [Hinv Ha]. simpl in *.
  pose proof (Forall2_lookup_lr _ _ _ _ _ _ Ha Hm Hx) as Hr. unfold msg_copy_self, msg_move_self. destruct x as [bs|]; simpl in Hr; last first.
  { rewrite Hr. simpl. rewrite list_insert_id by done. split; by eexists _, _. }
  destruct Hr as (Hck & _ & [Hmd [g Hg]]). rewrite Hck. simpl.
  assert (Hi : (i < length ms)%nat) by (by eapply lookup_lt_Some).
  rewrite (delete_Permutation ms i m Hm) in Hinv.
  destruct (msg_close_spec no_ext h m (delete i ms)) as (h' & -> & Hinv' & Hf); [done..|]. rewrite !bind_Done. cbv beta iota.
  pose proof (inv_len _ _ _ Hinv) as Hl. pose proof (inv_ext _ _ _ Hinv) as Hl2. pose proof (inv_shape _ _ _ Hinv) as Hs.
  split.
  - simpl. rewrite Hg. simpl. eexists _, _. split; [done|]. split; [apply Hf|]. apply (pool_rel_frame h); [|done|by apply Forall2_insert].
    rewrite (delete_Permutation (<[i := _]> ms) i (m_set_type 0 (m_set_metadata None m))), delete_list_insert by (by apply list_lookup_insert_eq).
    apply heap_inv_idle; [done| |by intros id [_ [?|?]]|by intros md [? _]|by intros g' [? _]|..].
    + inversion Hs as [|? ? Hsm _]; subst. by split_and!; [|intros [|]| |apply Hsm].
    + simpl in *. lia.
    + intros md. specialize (Hl2 md). simpl in *. lia.
  - simpl. eexists _, _. split; [done|]. split; [apply Hf|]. apply (pool_rel_frame h); [|done|].
    + rewrite (delete_Permutation (<[i := _]> ms) i msg_init), delete_list_insert by (by apply list_lookup_insert_eq).
      apply heap_inv_idle; [done|apply msg_init_shape|by intros id [_ [?|?]]|by intros md [_ ?]|by intros g' [_ ?]|..].
      * simpl in *. lia.
      * intros md. specialize (Hl2 md). simpl in *. lia.
    + apply Forall2_insert; [done|apply msg_init_slot].
Qed.

Lemma pool_step_ok h ms a op :
  pool_rel (h, ms) a → op_sized op →
  ∃ h' ms', pool_step (h, ms) op = Done (h', ms') ∧ h_malloc h' = h_malloc h
    ∧ pool_rel (h', ms') (abs_step (h_malloc h) a op).
Proof.
  intros Hrel Hsz. destruct op as [i bs|i j|i j|i];
    [by apply pool_step_set| | |by apply pool_step_close]; pose proof Hrel as [_ Ha]; simpl in Ha.
  all: simpl; destruct (ms !! i) as [m|] eqn:Hm; last first.
  1, 3: replace (a !! i) with (@None (option (list Z))); [by eexists _, _|]; symmetry;
    apply lookup_ge_None; rewrite <- (Forall2_length _ _ _ Ha); by apply lookup_ge_None.
  all: destruct (slot_rel_lookup h ms a i m) as (x & Hx & Hxr); [done..|]; rewrite Hx.
  all: destruct (ms !! j) as [src|] eqn:Hs; last first.
  1, 3: replace (a !! j) with (@None (option (list Z))); [by destruct x; eexists _, _|]; symmetry;
    apply lookup_ge_None; rewrite <- (Forall2_length _ _ _ Ha); by apply lookup_ge_None.
  all: destruct (slot_rel_lookup h ms a j src) as (y & Hy & Hyr); [done..|]; rewrite Hy.
  all: destruct (decide (i = j)) as [->|Hij].
  1: { rewrite Hy in Hx. simplify_eq. destruct (pool_step_self h ms a j m x) as [Hc _]; [done..|]. by destruct x. }
  2: { rewrite Hy in Hx. simplify_eq. destruct (pool_step_self h ms a j m x) as [_ Hv]; [done..|]. by destruct x. }
  all: destruct y as [bs|]; simpl in Hyr;
    [|unfold msg_copy, msg_move; rewrite Hyr; simpl;
      rewrite (list_insert_id ms j), (list_insert_id ms i) by done; destruct x; by eexists _, _].
  all: destruct x as [bs'|]; simpl in Hxr;
    [|unfold msg_copy, msg_move, msg_close; rewrite Hxr, (proj1 Hyr); simpl;
      rewrite (list_insert_id ms j), (list_insert_id ms i) by done; by eexists _, _].
  all: destruct (pool_step_two h ms a i j Hrel Hij m src _ _ Hm Hs Hx Hy
    (proj1 Hxr) (proj1 Hyr) Hyr) as [(h1 & Hc & Hml & Hr1) (h2 & Hmv & Hml2 & Hr2)].
  - rewrite Hc. simpl. by eexists _, _.
  - rewrite Hmv. simpl. by eexists _, _.
Qed.

Lemma pool_run_ok ops h ms a :
  pool_rel (h, ms) a → Forall op_sized ops →
  ∃ h' ms', pool_run (h, ms) ops = Done (h', ms')
    ∧ pool_rel (h', ms') (fold_left (abs_step (h_malloc h)) ops a).
Proof.
  revert h ms a. induction ops as [|op ops IH]; intros h ms a Hrel Hsz; simpl; [by eexists _, _|].
  inversion Hsz; subst. destruct (pool_step_ok h ms a op) as (h1 & ms1 & Hst & Hml & Hrel1); [done..|].
  cbn [pool_step] in Hst. rewrite Hst. simpl. rewrite <- Hml. apply IH; [|done]. by rewrite Hml.
Qed.

Definition empty_heap (malloc : Z → bool) : heap := Heap malloc ∅ ∅ ∅ ∅ [].

Lemma empty_pool_rel malloc n :
  Z.of_nat n < 2 ^ 32 → pool_rel (empty_heap malloc, replicate n msg_init) (replicate n (Some [])).
Proof.
  intros Hn. split; simpl.
  - induction n as [|n IH]; simpl.
    + split; [done|done|done|..]; intros k; simpl; by rewrite lookup_empty.
    + apply heap_inv_idle; [apply IH; lia|apply msg_init_shape|by intros ? [? [|]]|by intros ? []
        |by intros ? []|..]; simpl; rewrite length_replicate; unfold no_ext; lia.
  - apply Forall2_same_length_lookup_2; [by rewrite !length_replicate|].
    intros i m x Hm Hx. apply lookup_replicate in Hm as [-> _], Hx as [-> _]. apply msg_init_slot.
Qed.



(** [add_refs (k)] on a message with a counted content entitles the caller to
    [k] more handles of the same bytes, and [rm_refs (j)] for [j <= k] gives [j] of
    them up and reports that some are left; the ownership invariant holds
    throughout and no other message's bytes change. *)
Lemma msg_add_rm_refs ext h m ms id (k j : nat) :
  heap_inv ext h (m :: ms) → plain m → owns id m → (0 < j ≤ k)%nat →
  Z.of_nat (length ms + S k) < 2 ^ 32 → (∀ md, ext md + Z.of_nat (length ms + S k) < 2 ^ 32) →
  ∃ h1 h2, msg_add_refs h m (Z.of_nat k) = Done (h1, as_shared m)
    ∧ heap_inv ext h1 (replicate (S k) (as_shared m) ++ ms)
    ∧ msg_bytes h1 (as_shared m) = msg_bytes h m
    ∧ msg_rm_refs h1 (as_shared m) (Z.of_nat j) = Done (true, h2, as_shared m)
    ∧ heap_inv ext h2 (replicate (S k - j) (as_shared m) ++ ms)
    ∧ (∀ m', m' ∈ replicate (S k - j) (as_shared m) ++ ms → msg_bytes h2 m' = msg_bytes h m').
Proof.
  intros Hinv Hpl Ho Hj Hl1 Hl2. destruct (msg_add_refs_spec ext h m ms k) as (h1 & Hadd & Hinv1 & Hf1); [done|done|lia|done..|].
  assert (Hco : copy_of m = as_shared m).
  { unfold copy_of. destruct Ho as [_ Ht%counted_spec]. by rewrite Ht. }
  rewrite Hco in Hadd, Hinv1. pose proof Hinv1 as Hinv1'.
  replace (S k) with (j + (S k - j))%nat in Hinv1' by lia.
  rewrite replicate_add, <- app_assoc in Hinv1'.
  destruct (msg_rm_refs_spec ext h1 (as_shared m) (replicate (S k - j) (as_shared m) ++ ms) j id)
    as (h2 & Hrm & Hinv2 & Hf2).
  - done.
  - rewrite <- Hco. by apply plain_copy_of.
  - lia.
  - by apply owns_as_shared.
  - apply as_shared_shared.
  - exists h1, h2. split; [done|]. split; [done|]. split; [|split; [|split; [done|]]].
    + rewrite (msg_bytes_frame h h1 (replicate (S k) (as_shared m) ++ ms)), <- Hco; [apply copy_of_bytes|done|apply Hinv1|].
      by left.
    + rewrite Hrm. rewrite bool_decide_eq_true_2; [done|].
      replace (S k - j)%nat with (S (k - j)) by lia. simpl.
      rewrite filter_cons_True; [done|]. by apply owns_as_shared.
    + intros m' Hm'. apply (msg_bytes_frame h h2 (replicate (S k - j) (as_shared m) ++ ms));
        [by transitivity h1|apply Hinv2|done].
Qed.

Definition witness_heap : heap :=
  h_set_contents <[0%nat := Content DOwn [1; 2] 2 None 0 0]> (empty_heap (λ _, true)).

Lemma msg_add_rm_refs_witness :
  ∃ h1 h2, msg_add_refs witness_heap (msg_base type_lmsg (BContent 0)) 2
             = Done (h1, as_shared (msg_base type_lmsg (BContent 0)))
    ∧ msg_rm_refs h1 (as_shared (msg_base type_lmsg (BContent 0))) 1
      = Done (true, h2, as_shared (msg_base type_lmsg (BContent 0))).
Proof.
  destruct (msg_add_rm_refs no_ext witness_heap (msg_base type_lmsg (BContent 0)) [] 0 2 1)
    as (h1 & h2 & H1 & _ & _ & H2 & _).
  - apply (lmsg_msg_spec no_ext (empty_heap (λ _, true)) [] [1; 2] 0);
      [apply (empty_pool_rel _ 0); lia|done|done|unfold no_ext; simpl; lia].
  - split; [done|]. by exists [].
  - split; [done|by left].
  - lia.
  - simpl. lia.
  - unfold no_ext. simpl. lia.
  - by exists h1, h2.
Defined.

(** A short group name set over a long one leaves the type byte long and the
    pointer to the long name overwritten: the next [group ()] or [close ()] goes
    through a pointer made of the name's characters. *)
Lemma set_group_short_over_long h m long short :
  14 < Z.of_nat (length long) ≤ SL_GROUP_MAX_LENGTH → Z.of_nat (length short) ≤ 14 →
  m_type m = type_vsm → m_metadata m = None → h_malloc h sizeof_long_group = true →
  ∃ h1 m1 m2, msg_set_group h m long = Done (RcOk, h1, m1) ∧ msg_group h1 m1 = Done long
    ∧ msg_set_group h1 m1 short = Done (RcOk, h1, m2)
    ∧ msg_group h1 m2 = Undef ∧ msg_close h1 m2 = Undef.
Proof.
  intros Hl Hs Ht Hmd Hal. unfold msg_set_group. rewrite decide_False, decide_True by lia.
  rewrite Hal. eexists _, _, _. split; [done|]. split; [|split].
  - unfold msg_group. simpl. by rewrite lookup_insert_eq.
  - rewrite decide_False, decide_False by (unfold SL_GROUP_MAX_LENGTH in *; lia). done.
  - split; [done|]. unfold msg_close, msg_check, is_zcmsg. simpl. by rewrite Ht, Hmd.
Qed.

Lemma set_group_short_over_long_witness :
  ∃ h1 m1 m2, msg_set_group (empty_heap (λ _, true)) msg_init (replicate 20 65) = Done (RcOk, h1, m1)
    ∧ msg_set_group h1 m1 [66] = Done (RcOk, h1, m2) ∧ msg_close h1 m2 = Undef.
Proof.
  destruct (set_group_short_over_long (empty_heap (λ _, true)) msg_init (replicate 20 65) [66])
    as (h1 & m1 & m2 & H1 & _ & H2 & _ & H3);
    [vm_compute; split; congruence|vm_compute; congruence|reflexivity|reflexivity|reflexivity|].
  exists h1, m1, m2. auto.
Defined.

(** [add_refs] does not count the references of a long group: after
    [add_refs (1)] on a message with a long group, closing both handles frees the
    group at the first [close] and goes through the freed pointer at the second. *)
Lemma add_refs_long_group h id c long :
  h_contents h !! id = Some c → 14 < Z.of_nat (length long) ≤ SL_GROUP_MAX_LENGTH →
  h_malloc h sizeof_long_group = true →
  ∃ h1 m1 h2 m2 h3 m3, msg_set_group h (msg_base type_lmsg (BContent id)) long = Done (RcOk, h1, m1)
    ∧ msg_add_refs h1 m1 1 = Done (h2, m2)
    ∧ msg_close h2 m2 = Done (RcOk, h3, m3) ∧ msg_close h3 m2 = Undef.
Proof.
  intros Hc Hl Hal. unfold msg_set_group. rewrite decide_False, decide_True by lia. rewrite Hal.
  set (g := fresh _). eexists _, _, _, _, _, _. split; [done|]. split; [|split].
  - unfold msg_add_refs, content_share, get_content. simpl. rewrite Hc. simpl. done.
  - unfold msg_close, content_close, get_content. simpl. rewrite lookup_insert_eq. simpl.
    rewrite lookup_insert_eq. simpl. done.
  - unfold msg_close, content_close, get_content. simpl.
    rewrite !lookup_insert_eq. simpl. unfold content_release. simpl.
    destruct (ct_ffn c); simpl; by rewrite lookup_delete_eq.
Qed.

Lemma add_refs_long_group_witness :
  ∃ h1 m1 h2 m2 h3 m3,
    msg_set_group witness_heap (msg_base type_lmsg (BContent 0)) (replicate 20 65) = Done (RcOk, h1, m1)
    ∧ msg_add_refs h1 m1 1 = Done (h2, m2)
    ∧ msg_close h2 m2 = Done (RcOk, h3, m3) ∧ msg_close h3 m2 = Undef.
Proof.
  apply (add_refs_long_group witness_heap 0 (Content DOwn [1; 2] 2 None 0 0) (replicate 20 65));
    [reflexivity|vm_compute; split; congruence|reflexivity].
Defined.
