(* ===== verification/YQueue.v ===== *)
(** The chunked queue of src/util/yqueue.hpp.

    The heap of chunks is explicit, so that the links between chunks, the spare
    chunk and the release of chunks are part of the state: a freed chunk is an
    absent key and touching it is [Undef].  A slot address is a chunk and a
    position, which is what [&_queue.front ()] and [&_queue.back ()] are to
    src/util/ypipe.hpp.  A failing [malloc] ends the process ([alloc_assert]) and
    is not modelled.

    [yq_rep] says which addresses the queue's elements occupy, in order, and that
    the chunks in memory are exactly the linked ones and the spare one. *)
From S2P Require Import Prelude.

Section yqueue.
Context {T : Type} (N : nat).

(** ** State *)

(** [chunk_t]; an element that was never written is [None]. *)
Record chunk_t := Chunk {
  ck_values : list (option T);
  ck_prev : option nat;
  ck_next : option nat;
}.

Abbreviation addr := (nat * nat)%type.

Record yqueue_t := YQueue {
  yq_chunks : gmap nat chunk_t;
  yq_begin_chunk : nat;
  yq_begin_pos : nat;
  yq_back_chunk : option nat;
  yq_back_pos : nat;
  yq_end_chunk : nat;
  yq_end_pos : nat;
  yq_spare_chunk : option nat;
}.

Definition yq_set_chunks (q : yqueue_t) (m : gmap nat chunk_t) : yqueue_t :=
  YQueue m (yq_begin_chunk q) (yq_begin_pos q) (yq_back_chunk q) (yq_back_pos q)
    (yq_end_chunk q) (yq_end_pos q) (yq_spare_chunk q).

Definition get_chunk (m : gmap nat chunk_t) (c : nat) : outcome chunk_t :=
  match m !! c with Some ch => Done ch | None => Undef end.

Definition chunk_set_next (n : option nat) (ch : chunk_t) : chunk_t := Chunk (ck_values ch) (ck_prev ch) n.
Definition chunk_set_prev (p : option nat) (ch : chunk_t) : chunk_t := Chunk (ck_values ch) p (ck_next ch).

(** ** Operations *)

Definition allocate_chunk (m : gmap nat chunk_t) : nat * gmap nat chunk_t :=
  let c := fresh (dom m) in (c, <[c := Chunk (replicate N None) None None]> m).

Definition yq_new : yqueue_t :=
  let '(c, m) := allocate_chunk ∅ in YQueue m c 0 None 0 c 0 None.

(** The element at an address. *)
Definition yq_load (q : yqueue_t) (a : addr) : outcome (option T) :=
  ch ← get_chunk (yq_chunks q) a.1;
  match ck_values ch !! a.2 with Some v => Done v | None => Undef end.

Definition yq_store (q : yqueue_t) (a : addr) (v : T) : outcome yqueue_t :=
  ch ← get_chunk (yq_chunks q) a.1;
  if decide (a.2 < length (ck_values ch))%nat then
    Done (yq_set_chunks q (<[a.1 := Chunk (<[a.2 := Some v]> (ck_values ch)) (ck_prev ch) (ck_next ch)]> (yq_chunks q)))
  else Undef.

(** [&front ()] and [&back ()] *)
Definition yq_front (q : yqueue_t) : addr := (yq_begin_chunk q, yq_begin_pos q).
Definition yq_back (q : yqueue_t) : outcome addr :=
  match yq_back_chunk q with Some c => Done (c, yq_back_pos q) | None => Undef end.

Definition yq_push (q : yqueue_t) : outcome yqueue_t :=
  let back_chunk := Some (yq_end_chunk q) in
  let back_pos := yq_end_pos q in
  if decide (S (yq_end_pos q) ≠ N) then
    Done (YQueue (yq_chunks q) (yq_begin_chunk q) (yq_begin_pos q) back_chunk back_pos
            (yq_end_chunk q) (S (yq_end_pos q)) (yq_spare_chunk q))
  else
    let '(sc, m) := match yq_spare_chunk q with
                    | Some sc => (sc, yq_chunks q)
                    | None => allocate_chunk (yq_chunks q)
                    end in
    e ← get_chunk m (yq_end_chunk q);
    let m := <[yq_end_chunk q := chunk_set_next (Some sc) e]> m in
    s ← get_chunk m sc;
    let m := <[sc := chunk_set_prev (Some (yq_end_chunk q)) s]> m in
    Done (YQueue m (yq_begin_chunk q) (yq_begin_pos q) back_chunk back_pos sc 0 None).

Definition yq_unpush (q : yqueue_t) : outcome yqueue_t :=
  back ← (if decide (yq_back_pos q ≠ 0%nat) then Done (yq_back_chunk q, yq_back_pos q - 1)%nat
          else
            match yq_back_chunk q with
            | None => Undef
            | Some b => ch ← get_chunk (yq_chunks q) b; Done (ck_prev ch, N - 1)%nat
            end);
  if decide (yq_end_pos q ≠ 0%nat) then
    Done (YQueue (yq_chunks q) (yq_begin_chunk q) (yq_begin_pos q) back.1 back.2
            (yq_end_chunk q) (yq_end_pos q - 1)%nat (yq_spare_chunk q))
  else
    e ← get_chunk (yq_chunks q) (yq_end_chunk q);
    match ck_prev e with
    | None => Undef
    | Some p =>
        ch ← get_chunk (yq_chunks q) p;
        match ck_next ch with
        | None => Undef
        | Some n =>
            Done (YQueue (<[p := chunk_set_next None ch]> (delete n (yq_chunks q)))
                    (yq_begin_chunk q) (yq_begin_pos q) back.1 back.2 p (N - 1)%nat (yq_spare_chunk q))
        end
    end.

Definition yq_pop (q : yqueue_t) : outcome yqueue_t :=
  if decide (S (yq_begin_pos q) = N) then
    o ← get_chunk (yq_chunks q) (yq_begin_chunk q);
    match ck_next o with
    | None => Undef
    | Some b =>
        ch ← get_chunk (yq_chunks q) b;
        let m := <[b := chunk_set_prev None ch]> (yq_chunks q) in
        let m := match yq_spare_chunk q with Some cs => delete cs m | None => m end in
        Done (YQueue m b 0 (yq_back_chunk q) (yq_back_pos q) (yq_end_chunk q) (yq_end_pos q)
                (Some (yq_begin_chunk q)))
    end
  else
    Done (YQueue (yq_chunks q) (yq_begin_chunk q) (S (yq_begin_pos q)) (yq_back_chunk q)
            (yq_back_pos q) (yq_end_chunk q) (yq_end_pos q) (yq_spare_chunk q)).

(** ** Representation *)

(** The addresses of the slots of a list of chunks, in order. *)
Definition chunk_addrs (c : nat) : list addr := (λ j, (c, j)) <$> seq 0 N.
Definition addrs (cs : list nat) : list addr := cs ≫= chunk_addrs.

Definition next_of (m : gmap nat chunk_t) (c : nat) : option nat := m !! c ≫= ck_next.
Definition prev_of (m : gmap nat chunk_t) (c : nat) : option nat := m !! c ≫= ck_prev.

(** The chunks [cs] are doubly linked. *)
Fixpoint links (m : gmap nat chunk_t) (cs : list nat) : Prop :=
  match cs with
  | c :: (c' :: _) as cs' => next_of m c = Some c' ∧ prev_of m c' = Some c ∧ links m cs'
  | _ => True
  end.

(** The queue has its elements at the addresses [win]; [cs] are its chunks, [pre]
    and [post] the unused addresses before and behind the elements. *)
Record yq_rep_at (q : yqueue_t) (cs : list nat) (pre win post : list addr) : Prop := {
  rep_links : links (yq_chunks q) cs;
  rep_sizes : ∀ c ch, yq_chunks q !! c = Some ch → length (ck_values ch) = N;
  rep_nodup : NoDup (cs ++ option_list (yq_spare_chunk q));
  rep_dom : ∀ c, is_Some (yq_chunks q !! c) ↔ c ∈ cs ++ option_list (yq_spare_chunk q);
  rep_addrs : addrs cs = pre ++ win ++ post;
  rep_begin : head cs = Some (yq_begin_chunk q);
  rep_begin_pos : length pre = yq_begin_pos q ∧ (yq_begin_pos q < N)%nat;
  rep_end : last cs = Some (yq_end_chunk q);
  rep_end_pos : (length post + yq_end_pos q = N)%nat ∧ (yq_end_pos q < N)%nat;
  rep_back : ∀ a, last win = Some a → yq_back q = Done a;
}.

Definition yq_rep (q : yqueue_t) (win : list addr) : Prop :=
  ∃ cs pre post, yq_rep_at q cs pre win post.

(** ** Addresses and links *)

Lemma length_chunk_addrs c : length (chunk_addrs c) = N.
Proof. unfold chunk_addrs. by rewrite length_fmap, length_seq. Qed.

Lemma addrs_cons c cs : addrs (c :: cs) = chunk_addrs c ++ addrs cs.
Proof. done. Qed.

Lemma addrs_app cs cs' : addrs (cs ++ cs') = addrs cs ++ addrs cs'.
Proof. apply bind_app. Qed.

Lemma addrs_snoc cs c : addrs (cs ++ [c]) = addrs cs ++ chunk_addrs c.
Proof. rewrite addrs_app. unfold addrs. simpl. by rewrite app_nil_r. Qed.

Lemma elem_of_chunk_addrs a c : a ∈ chunk_addrs c ↔ a.1 = c ∧ (a.2 < N)%nat.
Proof.
  unfold chunk_addrs. rewrite list_elem_of_fmap. destruct a as [c' j]. simpl. split.
  - intros (j' & [= -> ->] & [_ ?]%elem_of_seq). lia.
  - intros [-> ?]. exists j. split; [done|]. apply elem_of_seq. lia.
Qed.

Lemma elem_of_addrs a cs : a ∈ addrs cs ↔ a.1 ∈ cs ∧ (a.2 < N)%nat.
Proof.
  unfold addrs. rewrite list_elem_of_bind. split.
  - intros (c & [<- ?]%elem_of_chunk_addrs & ?). done.
  - intros [? ?]. exists a.1. rewrite elem_of_chunk_addrs. done.
Qed.

Lemma addrs_NoDup cs : NoDup cs → NoDup (addrs cs).
Proof.
  induction 1 as [|c cs Hc Hcs IH]; [constructor|]. rewrite addrs_cons. apply NoDup_app. split_and!; [| |done].
  - apply NoDup_fmap_2; [intros ? ?; congruence|apply NoDup_seq].
  - intros a Ha%elem_of_chunk_addrs Ha'%elem_of_addrs. destruct Ha as [Ha _], Ha' as [? _]. by subst c.
Qed.

Lemma links_snoc m cs c :
  links m (cs ++ [c]) ↔ links m cs ∧ ∀ e, last cs = Some e → next_of m e = Some c ∧ prev_of m c = Some e.
Proof.
  induction cs as [|c0 [|c1 cs] IH]; [done| |].
  - simpl. split; [intros (? & ? & _); split; [done|]; intros ? [= <-]; done|].
    intros [_ H]. destruct (H c0); done.
  - change ((c0 :: c1 :: cs) ++ [c]) with (c0 :: (c1 :: cs) ++ [c]).
    change (last (c0 :: c1 :: cs)) with (last (c1 :: cs)).
    assert (Heq : links m (c0 :: (c1 :: cs) ++ [c]) ↔
      next_of m c0 = Some c1 ∧ prev_of m c1 = Some c0 ∧ links m ((c1 :: cs) ++ [c])) by done.
    rewrite Heq, IH. simpl. tauto.
Qed.

(** The links of [cs] depend on [next] but at the last chunk, [prev] but at the
    first. *)
Lemma links_ext m m' cs :
  (∀ c, c ∈ cs → last cs ≠ Some c → next_of m' c = next_of m c) →
  (∀ c, c ∈ cs → head cs ≠ Some c → prev_of m' c = prev_of m c) →
  NoDup cs → links m cs → links m' cs.
Proof.
  induction cs as [|c0 [|c1 cs] IH]; intros Hn Hp Hd Hl; [done..|].
  destruct Hl as (H1 & H2 & H3). apply NoDup_cons in Hd as [Hc0 Hd].
  assert (Hne : c0 ≠ c1) by (intros ->; apply Hc0; by left).
  split; [|split].
  - rewrite Hn; [done|by left|]. intros Hl. by apply Hc0, last_Some_elem_of.
  - rewrite Hp; [done|right; by left|]. simpl. congruence.
  - apply IH; [| |done|done].
    + intros c Hc Hl. apply Hn; [by right|done].
    + intros c Hc Hh. apply Hp; [by right|]. simpl. intros [= ->]. done.
Qed.

Lemma chunk_addrs_lookup c j : (j < N)%nat → chunk_addrs c !! j = Some (c, j).
Proof. intros Hj. unfold chunk_addrs. rewrite list_lookup_fmap, lookup_seq_lt by done. done. Qed.

Lemma chunk_addrs_split c j :
  (j < N)%nat → chunk_addrs c = take j (chunk_addrs c) ++ (c, j) :: drop (S j) (chunk_addrs c).
Proof. intros Hj. symmetry. by apply take_drop_middle, chunk_addrs_lookup. Qed.

(** The free addresses behind the elements are those of the end chunk. *)
Lemma rep_post_eq q cs pre win post :
  yq_rep_at q cs pre win post →
  ∃ cs0, cs = cs0 ++ [yq_end_chunk q]
    ∧ pre ++ win = addrs cs0 ++ take (yq_end_pos q) (chunk_addrs (yq_end_chunk q))
    ∧ post = (yq_end_chunk q, yq_end_pos q) :: drop (S (yq_end_pos q)) (chunk_addrs (yq_end_chunk q)).
Proof.
  intros []. apply last_Some in rep_end0 as [cs0 ->]. exists cs0. split; [done|].
  rewrite addrs_snoc in rep_addrs0. destruct rep_end_pos0 as [Hl Hlt].
  rewrite (chunk_addrs_split _ _ Hlt) in rep_addrs0. rewrite !app_assoc in rep_addrs0.
  apply app_inj_2 in rep_addrs0 as [-> ->]; [done|].
  simpl. rewrite length_drop, length_chunk_addrs. lia.
Qed.

Lemma rep_pre_eq q cs pre win post :
  yq_rep_at q cs pre win post →
  ∃ cs1, cs = yq_begin_chunk q :: cs1
    ∧ pre = take (yq_begin_pos q) (chunk_addrs (yq_begin_chunk q))
    ∧ win ++ post = (yq_begin_chunk q, yq_begin_pos q)
        :: drop (S (yq_begin_pos q)) (chunk_addrs (yq_begin_chunk q)) ++ addrs cs1.
Proof.
  intros []. destruct cs as [|c cs1]; [done|]. injection rep_begin0 as ->. exists cs1. split; [done|].
  rewrite addrs_cons in rep_addrs0. destruct rep_begin_pos0 as [Hl Hlt].
  rewrite (chunk_addrs_split _ _ Hlt) in rep_addrs0. rewrite <- app_assoc in rep_addrs0.
  apply app_inj_1 in rep_addrs0 as [<- <-]; [done|].
  rewrite length_take, length_chunk_addrs. lia.
Qed.

Lemma rep_NoDup q win : yq_rep q win → NoDup win.
Proof.
  intros (cs & pre & post & []). apply NoDup_app in rep_nodup0 as (Hnd & _ & _).
  apply addrs_NoDup in Hnd. rewrite rep_addrs0 in Hnd.
  apply NoDup_app in Hnd as (_ & _ & Hnd). by apply NoDup_app in Hnd as (? & _ & _).
Qed.

(** [front ()] is the first element. *)
Lemma yq_front_spec q a win : yq_rep q (a :: win) → yq_front q = a.
Proof.
  intros (cs & pre & post & Hrep). destruct (rep_pre_eq _ _ _ _ _ Hrep) as (cs1 & _ & _ & Hw).
  simpl in Hw. injection Hw as -> _. done.
Qed.

Lemma yq_back_spec q win a : yq_rep q (win ++ [a]) → yq_back q = Done a.
Proof. intros (cs & pre & post & []). apply rep_back0. by rewrite last_snoc. Qed.

Lemma rep_in_chunks q cs pre win post a :
  yq_rep_at q cs pre win post → a ∈ win → a.1 ∈ cs ∧ (a.2 < N)%nat.
Proof. intros [] Ha. apply elem_of_addrs. rewrite rep_addrs0. set_solver. Qed.

(** Every element is in memory. *)
Lemma yq_load_spec q win a : yq_rep q win → a ∈ win → ∃ v, yq_load q a = Done v.
Proof.
  intros (cs & pre & post & Hrep) Ha. destruct (rep_in_chunks _ _ _ _ _ _ Hrep Ha) as [Hc Hj].
  destruct (proj2 (rep_dom _ _ _ _ _ Hrep a.1)) as [ch Hch]; [set_solver|].
  unfold yq_load, get_chunk. rewrite Hch, bind_Done.
  destruct (lookup_lt_is_Some_2 (ck_values ch) a.2) as [v Hv].
  - by rewrite (rep_sizes _ _ _ _ _ Hrep _ _ Hch).
  - exists v. by rewrite Hv.
Qed.

(** A memory whose chunks have the same values loads the same. *)
Lemma yq_load_ext q q' a :
  ck_values <$> yq_chunks q' !! a.1 = ck_values <$> yq_chunks q !! a.1 → yq_load q' a = yq_load q a.
Proof.
  intros H. unfold yq_load, get_chunk.
  destruct (yq_chunks q' !! a.1), (yq_chunks q !! a.1); simpl in *; simplify_eq; [|done]. by rewrite H.
Qed.

(** [front () = v] and [back () = v]. *)
Lemma yq_store_spec q win a v :
  yq_rep q win → a ∈ win →
  ∃ q', yq_store q a v = Done q' ∧ yq_rep q' win ∧ yq_load q' a = Done (Some v)
    ∧ (∀ a', a' ≠ a → yq_load q' a' = yq_load q a').
Proof.
  intros (cs & pre & post & Hrep) Ha. destruct (rep_in_chunks _ _ _ _ _ _ Hrep Ha) as [Hc Hj].
  destruct (proj2 (rep_dom _ _ _ _ _ Hrep a.1)) as [ch Hch]; [set_solver|].
  pose proof (rep_sizes _ _ _ _ _ Hrep _ _ Hch) as Hsz.
  unfold yq_store, get_chunk. rewrite Hch, bind_Done, decide_True by lia. eexists. split; [done|].
  set (ch' := Chunk _ _ _).
  assert (Hnp : ∀ f : chunk_t → option nat, f ch' = f ch → ∀ c,
    (<[a.1 := ch']> (yq_chunks q) !! c ≫= f) = (yq_chunks q !! c ≫= f)).
  { intros f Hf c. destruct (decide (c = a.1)) as [->|Hd].
    - rewrite lookup_insert_eq, Hch. done.
    - by rewrite lookup_insert_ne. }
  split_and!.
  - exists cs, pre, post. destruct Hrep. split; simpl; try done.
    + eapply links_ext; [| | |exact rep_links0]; [intros; by apply Hnp..|].
      by apply NoDup_app in rep_nodup0 as (? & _ & _).
    + intros c ch0 [[<- <-]|[_ ?]]%lookup_insert_Some; [|by eapply rep_sizes0].
      simpl. by rewrite length_insert.
    + intros c. rewrite <- rep_dom0. rewrite lookup_insert_is_Some'. split; [|by right].
      intros [<-|?]; [by rewrite Hch|done].
  - unfold yq_load, get_chunk. simpl. rewrite lookup_insert_eq, bind_Done. simpl.
    by rewrite list_lookup_insert_eq by lia.
  - intros a' Hne. unfold yq_load, get_chunk. simpl. destruct (decide (a'.1 = a.1)) as [He|Hd].
    + rewrite He, lookup_insert_eq, Hch, !bind_Done. simpl.
      rewrite list_lookup_insert_ne; [done|]. intros He2. apply Hne. destruct a, a'. simpl in *. congruence.
    + by rewrite lookup_insert_ne.
Qed.

(** ** The operations keep the representation *)

Lemma yq_new_rep : (0 < N)%nat → yq_rep yq_new [].
Proof.
  intros HN. exists [fresh (dom (∅ : gmap nat chunk_t))], [], (addrs [fresh (dom (∅ : gmap nat chunk_t))]).
  set (c := fresh _). split; simpl; [done| | | |done|done|lia|done| |done].
  - intros c' ch [[<- <-]|[_ ?]]%lookup_insert_Some; [|done]. apply length_replicate.
  - apply NoDup_singleton.
  - intros c'. rewrite lookup_insert_is_Some', lookup_empty, list_elem_of_singleton.
    split; [intros [?|[? ?]]; [done|done]|by left].
  - unfold addrs. simpl. rewrite app_nil_r, length_chunk_addrs. lia.
Qed.

(** The chunk a [push] appends: the spare one, or a new one. *)
Definition yq_take_chunk (q : yqueue_t) : nat * gmap nat chunk_t :=
  match yq_spare_chunk q with
  | Some sc => (sc, yq_chunks q)
  | None => allocate_chunk (yq_chunks q)
  end.

Lemma yq_take_chunk_spec q cs pre win post :
  yq_rep_at q cs pre win post →
  ∃ sc m s, yq_take_chunk q = (sc, m) ∧ (sc ∉ cs) ∧ m !! sc = Some s ∧ length (ck_values s) = N
    ∧ (∀ c, c ∈ cs → m !! c = yq_chunks q !! c)
    ∧ (∀ c, is_Some (m !! c) ↔ c ∈ cs ++ [sc]).
Proof.
  intros []. unfold yq_take_chunk. apply NoDup_app in rep_nodup0 as (Hnd & Hdisj & _).
  destruct (yq_spare_chunk q) as [sc|].
  - destruct (proj2 (rep_dom0 sc)) as [s Hs]; [set_solver|].
    exists sc, (yq_chunks q), s. split_and!; [done|set_solver|done|by eapply rep_sizes0|done|done].
  - unfold allocate_chunk. set (sc := fresh _).
    assert (Hsc : yq_chunks q !! sc = None) by (apply not_elem_of_dom, is_fresh).
    assert (Hn : sc ∉ cs).
    { intros Hin. destruct (proj2 (rep_dom0 sc)) as [? ?]; [set_solver|congruence]. }
    eexists sc, _, _. split_and!; [done|done|by rewrite lookup_insert_eq|apply length_replicate| |].
    + intros c Hc. rewrite lookup_insert_ne; [done|]. by intros ->.
    + intros c. rewrite lookup_insert_is_Some', rep_dom0. set_solver.
Qed.

Lemma yq_push_spec q win :
  yq_rep q win →
  ∃ q' a, yq_push q = Done q' ∧ yq_rep q' (win ++ [a]) ∧ yq_front q' = yq_front q
    ∧ (∀ a', a' ∈ win → yq_load q' a' = yq_load q a').
Proof.
  intros (cs & pre & post & Hrep). destruct (rep_post_eq _ _ _ _ _ Hrep) as (cs0 & Hcs & Hpw & Hpost).
  pose proof Hrep as []. destruct rep_end_pos0 as [Hl Hlt].
  assert (Hadd : addrs cs = pre ++ (win ++ [(yq_end_chunk q, yq_end_pos q)])
                   ++ drop (S (yq_end_pos q)) (chunk_addrs (yq_end_chunk q))).
  { rewrite rep_addrs0, Hpost, <- !app_assoc. done. }
  unfold yq_push. destruct (decide (S (yq_end_pos q) ≠ N)) as [Hne|He%dec_stable].
  - eexists _, (yq_end_chunk q, yq_end_pos q). split; [done|]. split; [|done].
    exists cs, pre. eexists. split; simpl; try done.
    + rewrite length_drop, length_chunk_addrs. lia.
    + intros a. rewrite last_snoc. by intros [= <-].
  - fold (yq_take_chunk q). destruct (yq_take_chunk_spec _ _ _ _ _ Hrep) as (sc & m & s & -> & Hsc & Hs & Hsz & Hm & Hdom).
    assert (Hin : yq_end_chunk q ∈ cs) by (by apply last_Some_elem_of).
    assert (Hsce : sc ≠ yq_end_chunk q) by (by intros ->).
    assert (Hend : ∃ e, yq_chunks q !! yq_end_chunk q = Some e).
    { apply rep_dom0. set_solver. }
    destruct Hend as [e Hend]. unfold get_chunk. rewrite (Hm _ Hin), Hend, bind_Done.
    rewrite lookup_insert_ne, Hs, bind_Done by done.
    eexists _, (yq_end_chunk q, yq_end_pos q). split; [done|].
    apply NoDup_app in rep_nodup0 as (Hnd & _ & _). split; [|split; [done|]].
    + exists (cs ++ [sc]), pre, (chunk_addrs sc). split; simpl.
      * apply links_snoc. split.
        -- eapply links_ext; [| |done|exact rep_links0]; intros c Hc Hl'; unfold next_of, prev_of.
           ++ rewrite !lookup_insert_ne by congruence. by rewrite Hm.
           ++ rewrite lookup_insert_ne by congruence. destruct (decide (c = yq_end_chunk q)) as [->|].
              ** rewrite lookup_insert_eq, Hend. done.
              ** rewrite lookup_insert_ne by done. by rewrite Hm.
        -- intros e' He'. rewrite rep_end0 in He'. injection He' as <-. unfold next_of, prev_of.
           rewrite lookup_insert_ne, !lookup_insert_eq by done. done.
      * intros c ch [[<- <-]|[? [[<- <-]|[? Hc]]%lookup_insert_Some]]%lookup_insert_Some; simpl; [done| |].
        -- by eapply rep_sizes0.
        -- assert (c ∈ cs) by (assert (c ∈ cs ++ [sc]) by (by apply Hdom); set_solver).
           rewrite Hm in Hc by done. by eapply rep_sizes0.
      * rewrite app_nil_r. apply NoDup_app. split_and!; [done|set_solver|apply NoDup_singleton].
      * intros c. rewrite app_nil_r, !lookup_insert_is_Some', Hdom. set_solver.
      * rewrite addrs_snoc, Hadd. rewrite <- !app_assoc. f_equal. f_equal. simpl.
        rewrite drop_ge by (rewrite length_chunk_addrs; lia). done.
      * by destruct cs.
      * done.
      * by rewrite last_snoc.
      * rewrite length_chunk_addrs. lia.
      * intros a. rewrite last_snoc. by intros [= <-].
    + intros a' Ha'. destruct (rep_in_chunks _ _ _ _ _ _ Hrep Ha') as [Hc _].
      apply yq_load_ext. simpl. rewrite lookup_insert_ne by (by intros ->).
      destruct (decide (a'.1 = yq_end_chunk q)) as [->|].
      * rewrite lookup_insert_eq, Hend. done.
      * rewrite lookup_insert_ne by done. by rewrite Hm.
Qed.

Lemma yq_pop_spec q a win :
  yq_rep q (a :: win) →
  ∃ q', yq_pop q = Done q' ∧ yq_rep q' win ∧ (∀ b, yq_back q = Done b → yq_back q' = Done b)
    ∧ (∀ a', a' ∈ win → yq_load q' a' = yq_load q a').
Proof.
  intros (cs & pre & post & Hrep). destruct (rep_pre_eq _ _ _ _ _ Hrep) as (cs1 & Hcs & Hpre & Hw).
  pose proof (yq_front_spec q a win (ex_intro _ cs (ex_intro _ pre (ex_intro _ post Hrep)))) as Hfr.
  pose proof Hrep as []. destruct rep_begin_pos0 as [Hl Hlt].
  simpl in Hw. injection Hw as Ha Hw. unfold yq_pop.
  assert (Hlast : ∀ b, last win = Some b → last (a :: win) = Some b) by (by intros b; destruct win).
  destruct (decide (S (yq_begin_pos q) = N)) as [He|Hne]; last first.
  { eexists. split; [done|]. split; [|done]. exists cs, (pre ++ [a]), post. split; simpl; try done.
    - rewrite rep_addrs0, <- app_assoc. done.
    - rewrite length_app. simpl. lia.
    - intros b Hb. by apply rep_back0, Hlast. }
  rewrite drop_ge in Hw by (rewrite length_chunk_addrs; lia). simpl in Hw.
  destruct cs1 as [|b cs1].
  { exfalso. apply (f_equal length) in Hw. destruct rep_end_pos0. rewrite length_app in Hw.
    unfold addrs in Hw. simpl in Hw. lia. }
  subst cs. destruct rep_links0 as (Hn & Hp & Hlinks). unfold next_of in Hn.
  destruct (yq_chunks q !! yq_begin_chunk q) as [o|] eqn:Ho; [|done]. simpl in Hn.
  apply NoDup_app in rep_nodup0 as (Hnd & Hdisj & Hnds). apply NoDup_cons in Hnd as [Hb0 Hnd].
  assert (Hchb : is_Some (yq_chunks q !! b)) by (apply rep_dom0; set_solver).
  destruct Hchb as [ch Hch]. unfold get_chunk. rewrite Ho, bind_Done, Hn, Hch, bind_Done.
  set (m := <[b := chunk_set_prev None ch]> (yq_chunks q)).
  set (m' := match yq_spare_chunk q with Some cs => delete cs m | None => m end).
  assert (Hm' : ∀ c, c ∈ yq_begin_chunk q :: b :: cs1 → m' !! c = m !! c).
  { intros c Hc. subst m'. destruct (yq_spare_chunk q) as [sp|]; [|done].
    apply lookup_delete_ne. intros ->. apply (Hdisj c Hc). set_solver. }
  eexists. split; [done|]. split; [|split; [done|]].
  - exists (b :: cs1), [], post. split; cbn [yq_chunks yq_spare_chunk yq_begin_chunk yq_begin_pos
      yq_end_chunk yq_end_pos].
    + apply (links_ext (yq_chunks q)); [| |exact Hnd|exact Hlinks]; intros c Hc Hne; unfold next_of, prev_of;
        rewrite Hm' by set_solver; subst m; simpl in *.
      * destruct (decide (c = b)) as [->|]; [by rewrite lookup_insert_eq, Hch|by rewrite lookup_insert_ne].
      * by rewrite lookup_insert_ne by congruence.
    + intros c ch0 Hc. assert (Hc' : m !! c = Some ch0).
      { subst m'. destruct (yq_spare_chunk q); [|done]. by apply lookup_delete_Some in Hc as [_ ?]. }
      apply lookup_insert_Some in Hc' as [[<- <-]|[_ ?]]; simpl; by eapply rep_sizes0.
    + apply (NoDup_app (b :: cs1)). split; [done|]. split; [set_solver|apply NoDup_singleton].
    + intros c. transitivity (c ∈ yq_begin_chunk q :: b :: cs1); [|set_solver]. split.
      * intros [ch0 Hc]. subst m' m.
        assert (Hin : c ∈ (yq_begin_chunk q :: b :: cs1) ++ option_list (yq_spare_chunk q)).
        { apply rep_dom0. destruct (yq_spare_chunk q); [apply lookup_delete_Some in Hc as [_ Hc]|];
            apply lookup_insert_Some in Hc as [[<- _]|[_ ?]]; eauto. }
        apply elem_of_app in Hin as [?|Hin]; [done|]. destruct (yq_spare_chunk q) as [sp|]; [|set_solver].
        apply list_elem_of_singleton in Hin as ->. by rewrite lookup_delete_eq in Hc.
      * intros Hc. rewrite Hm' by done. subst m. apply lookup_insert_is_Some'. right. apply rep_dom0. set_solver.
    + done.
    + done.
    + simpl; lia.
    + done.
    + done.
    + intros b0 Hb. by apply rep_back0, Hlast.
  - intros a' Ha'. apply yq_load_ext. simpl.
    assert (Hin : a' ∈ addrs (b :: cs1)) by (rewrite <- Hw; set_solver).
    apply elem_of_addrs in Hin as [Hin _]. rewrite Hm' by set_solver. subst m.
    destruct (decide (a'.1 = b)) as [->|]; [by rewrite lookup_insert_eq, Hch|by rewrite lookup_insert_ne].
Qed.

(** The predecessor of an address in the order of the chunks. *)
Lemma rep_back_prev q cs pre win a b post :
  yq_rep_at q cs pre (win ++ [a; b]) post →
  (b.2 ≠ 0%nat ∧ a = (b.1, b.2 - 1)%nat)
  ∨ (b.2 = 0%nat ∧ a.2 = (N - 1)%nat ∧ prev_of (yq_chunks q) b.1 = Some a.1).
Proof.
  intros Hrep. destruct (rep_in_chunks _ _ _ _ _ b Hrep) as [Hb Hb2]; [set_solver|].
  pose proof Hrep as []. apply NoDup_app in rep_nodup0 as (Hnd & _ & _).
  apply list_elem_of_split in Hb as (l1 & l2 & ->).
  assert (HL : addrs (l1 ++ b.1 :: l2) = (addrs l1 ++ take b.2 (chunk_addrs b.1)) ++ b
                 :: drop (S b.2) (chunk_addrs b.1) ++ addrs l2).
  { rewrite addrs_app, addrs_cons, (chunk_addrs_split b.1 b.2) at 1 by done.
    rewrite <- !app_assoc. by destruct b. }
  assert (HR : addrs (l1 ++ b.1 :: l2) = (pre ++ win ++ [a]) ++ b :: post).
  { rewrite rep_addrs0, <- !app_assoc. done. }
  pose proof (addrs_NoDup _ Hnd) as Hnda. rewrite HL in HR.
  assert (Heq : addrs l1 ++ take b.2 (chunk_addrs b.1) = pre ++ win ++ [a]).
  { apply (f_equal (λ l, l !! length (addrs l1 ++ take b.2 (chunk_addrs b.1)))) in HR as Hk.
    rewrite list_lookup_middle in Hk by done. symmetry in Hk.
    assert (Hk2 : ((pre ++ win ++ [a]) ++ b :: post) !! length (pre ++ win ++ [a]) = Some b).
    { by rewrite list_lookup_middle. }
    rewrite HL, HR in Hnda. pose proof (NoDup_lookup _ _ _ _ Hnda Hk Hk2) as Hlen.
    by apply app_inj_1 in HR as [? _]. }
  destruct (decide (b.2 = 0%nat)) as [H0|H0].
  - right. split; [done|]. rewrite H0 in Heq. simpl in Heq. rewrite app_nil_r in Heq.
    rewrite app_assoc in Heq. destruct l1 as [|c l1 _] using rev_ind; [by destruct (pre ++ win)|].
    rewrite addrs_snoc in Heq.
    assert (HN : (N - 1 < N)%nat) by lia.
    rewrite (chunk_addrs_split c (N - 1) HN) in Heq.
    rewrite drop_ge in Heq by (rewrite length_chunk_addrs; lia). rewrite app_assoc in Heq.
    apply app_inj_tail in Heq as [_ <-]. split; [done|].
    rewrite <- app_assoc in rep_links0. simpl in rep_links0.
    clear -rep_links0. induction l1 as [|x [|y l1] IH]; [apply rep_links0..|].
    apply IH. apply rep_links0.
  - left. split; [done|]. rewrite app_assoc in Heq.
    assert (HN : (b.2 - 1 < N)%nat) by lia.
    rewrite (chunk_addrs_split b.1 (b.2 - 1) HN), take_app in Heq.
    rewrite length_take, length_chunk_addrs in Heq.
    replace (b.2 - (b.2 - 1) `min` N)%nat with 1%nat in Heq by lia. simpl in Heq. rewrite take_0, app_assoc in Heq.
    by apply app_inj_tail in Heq as [_ <-].
Qed.

Lemma yq_unpush_spec q win a b :
  yq_rep q (win ++ [a; b]) →
  ∃ q', yq_unpush q = Done q' ∧ yq_rep q' (win ++ [a]) ∧ yq_front q' = yq_front q
    ∧ (∀ a', a' ∈ win ++ [a] → yq_load q' a' = yq_load q a').
Proof.
  intros (cs & pre & post & Hrep). pose proof (rep_back_prev _ _ _ _ _ _ _ Hrep) as Hprev.
  destruct (rep_post_eq _ _ _ _ _ Hrep) as (cs0 & Hcs & Hpw & Hpost). pose proof Hrep as [].
  specialize (rep_back0 b). rewrite (app_assoc win [a] [b] : win ++ [a; b] = _), last_snoc in rep_back0.
  specialize (rep_back0 eq_refl). unfold yq_back in rep_back0.
  destruct (yq_back_chunk q) as [bc|] eqn:Hbc; [|done]. injection rep_back0 as <-. simpl in Hprev.
  unfold yq_unpush. rewrite Hbc.
  assert (Hstep : (if decide (yq_back_pos q ≠ 0%nat) then Done (Some bc, yq_back_pos q - 1)%nat
    else ch ← get_chunk (yq_chunks q) bc; Done (ck_prev ch, N - 1)%nat) = Done (Some a.1, a.2)).
  { destruct Hprev as [[H0 ->]|(H0 & H1 & H2)]; [by rewrite decide_True|].
    rewrite decide_False by lia. unfold prev_of in H2. unfold get_chunk.
    destruct (yq_chunks q !! bc); [|done]. simpl in *. by rewrite H2, H1. }
  rewrite Hstep, bind_Done. clear Hstep. simpl. destruct rep_end_pos0 as [Hl Hlt].
  assert (Hlast : ∀ x, last (win ++ [a]) = Some x → x = (a.1, a.2)).
  { intros x. rewrite last_snoc. intros [= <-]. by destruct a. }
  destruct (decide (yq_end_pos q ≠ 0%nat)) as [Hne|He%dec_stable].
  { eexists. split; [done|]. split; [|done]. exists cs, pre, ((bc, yq_back_pos q) :: post).
    split; simpl; try done.
    - rewrite rep_addrs0, <- !app_assoc. done.
    - lia.
    - intros x Hx. by rewrite (Hlast x). }
  rewrite He in Hpw. simpl in Hpw. rewrite app_nil_r in Hpw.
  destruct cs0 as [|p cs0 _] using rev_ind; [by destruct pre, win|].
  subst cs. apply links_snoc in rep_links0 as [Hlinks Hlk]. destruct (Hlk p) as [Hn Hp]; [by rewrite last_snoc|].
  unfold next_of, prev_of, get_chunk in *. destruct (yq_chunks q !! yq_end_chunk q) as [e|] eqn:Hend; [|done].
  simpl in *. rewrite Hp. destruct (yq_chunks q !! p) as [ch|] eqn:Hch; [|done]. simpl in *. rewrite Hn.
  apply NoDup_app in rep_nodup0 as (Hnd & Hdisj & Hnds). apply NoDup_app in Hnd as (Hnd & Hne & _).
  assert (Hpe : p ≠ yq_end_chunk q) by (intros ->; apply (Hne (yq_end_chunk q)); set_solver).
  eexists. split; [done|]. split; [|split; [done|]].
  - exists (cs0 ++ [p]), pre, [(bc, yq_back_pos q)].
    split; cbn [yq_chunks yq_spare_chunk yq_begin_chunk yq_begin_pos yq_end_chunk yq_end_pos].
    + apply (links_ext (yq_chunks q)); [| |done|done]; intros c Hc Hx; unfold next_of, prev_of.
      * rewrite last_snoc in Hx. rewrite lookup_insert_ne, lookup_delete_ne; [done|set_solver|congruence].
      * destruct (decide (c = p)) as [->|]; [by rewrite lookup_insert_eq, Hch|].
        rewrite lookup_insert_ne, lookup_delete_ne by set_solver. done.
    + intros c ch0 [[<- <-]|[_ [_ ?]%lookup_delete_Some]]%lookup_insert_Some; simpl; by eapply rep_sizes0.
    + apply NoDup_app. split_and!; [done|set_solver|done].
    + intros c. rewrite lookup_insert_is_Some', lookup_delete_is_Some, rep_dom0. set_solver.
    + rewrite <- Hpw, <- !app_assoc. done.
    + rewrite <- rep_begin0. by destruct cs0.
    + done.
    + by rewrite last_snoc.
    + simpl. lia.
    + intros x Hx. unfold yq_back. simpl. by rewrite (Hlast x).
  - intros a' Ha'. apply yq_load_ext. cbn [yq_chunks].
    assert (Hin : a' ∈ addrs (cs0 ++ [p])) by (rewrite <- Hpw; set_solver).
    apply elem_of_addrs in Hin as [Hin _]. destruct (decide (a'.1 = p)) as [->|].
    + by rewrite lookup_insert_eq, Hch.
    + rewrite lookup_insert_ne, lookup_delete_ne by set_solver. done.
Qed.

(** ** Sequences of operations *)

(** The writer and the reader's use of the queue: [back () = v] after [push ()],
    [pop ()] and [unpush ()]. *)
Inductive yq_op := QPush (v : T) | QPop | QUnpush.

Definition yq_step (q : yqueue_t) (op : yq_op) : outcome yqueue_t :=
  match op with
  | QPush v => q ← yq_push q; a ← yq_back q; yq_store q a v
  | QPop => yq_pop q
  | QUnpush => yq_unpush q
  end.

Fixpoint yq_run (q : yqueue_t) (ops : list yq_op) : outcome yqueue_t :=
  match ops with
  | [] => Done q
  | op :: ops => q ← yq_step q op; yq_run q ops
  end.

(** The specification: a list, with the caller's obligation that [pop] and
    [unpush] find an element ([unpush] leaves one, as the terminator of ypipe). *)
Definition list_step (l : list T) (op : yq_op) : option (list T) :=
  match op with
  | QPush v => Some (l ++ [v])
  | QPop => match l with _ :: l => Some l | [] => None end
  | QUnpush => if decide (2 ≤ length l)%nat then Some (take (length l - 1) l) else None
  end.

Fixpoint list_run (l : list T) (ops : list yq_op) : option (list T) :=
  match ops with
  | [] => Some l
  | op :: ops => l ← list_step l op; list_run l ops
  end.

(** The queue holds [l]. *)
Definition yq_holds (q : yqueue_t) (l : list T) : Prop :=
  ∃ win, yq_rep q win ∧ Forall2 (λ a v, yq_load q a = Done (Some v)) win l.

Lemma yq_vals_ext q q' win l :
  (∀ a, a ∈ win → yq_load q' a = yq_load q a) →
  Forall2 (λ a (v : T), yq_load q a = Done (Some v)) win l →
  Forall2 (λ a v, yq_load q' a = Done (Some v)) win l.
Proof.
  intros Hext Hall. induction Hall as [|a v win l Hv Hall IH]; constructor.
  - rewrite Hext; [done|by left].
  - apply IH. intros a' Ha'. apply Hext. by right.
Qed.

Lemma yq_step_ok q l l' op :
  yq_holds q l → list_step l op = Some l' → ∃ q', yq_step q op = Done q' ∧ yq_holds q' l'.
Proof.
  intros (win & Hrep & Hall) Hstep. destruct op as [v| |]; simpl in *.
  - injection Hstep as <-. destruct (yq_push_spec q win Hrep) as (q1 & a & -> & Hrep1 & _ & Hld).
    rewrite bind_Done, (yq_back_spec q1 win a), bind_Done by done.
    destruct (yq_store_spec q1 (win ++ [a]) a v) as (q2 & -> & Hrep2 & Hv & Hoth); [done|set_solver|].
    exists q2. split; [done|]. exists (win ++ [a]). split; [done|].
    apply Forall2_app; [|by repeat constructor]. apply (yq_vals_ext q); [|done].
    intros a' Ha'. rewrite Hoth; [by apply Hld|]. intros ->.
    apply rep_NoDup in Hrep1. apply NoDup_app in Hrep1 as (_ & Hd & _). apply (Hd a Ha'). set_solver.
  - destruct Hall as [|a v win l Hv Hall]; simplify_eq.
    destruct (yq_pop_spec q a win Hrep) as (q' & Hpop & Hrep' & _ & Hld). exists q'. split; [done|].
    exists win. split; [done|]. by apply (yq_vals_ext q).
  - destruct (decide (2 ≤ length l)%nat) as [Hlen|]; [|done]. injection Hstep as <-.
    pose proof (Forall2_length _ _ _ Hall) as Hlw.
    destruct win as [|b win _] using rev_ind; [simpl in *; lia|].
    destruct win as [|a win _] using rev_ind; [simpl in *; lia|].
    rewrite <- app_assoc in Hrep. destruct (yq_unpush_spec q win a b Hrep) as (q' & Hun & Hrep' & _ & Hld).
    exists q'. split; [done|]. exists (win ++ [a]). split; [done|].
    apply (yq_vals_ext q); [done|]. apply (Forall2_take _ _ _ (length l - 1)%nat) in Hall.
    rewrite <- Hlw, length_app in Hall at 1. simpl in Hall.
    replace (length (win ++ [a]) + 1 - 1)%nat with (length (win ++ [a])) in Hall by lia.
    by rewrite take_app_length in Hall.
Qed.

(** No chunk leaks: at most two besides the elements' own, and the spare one. *)
Lemma yq_chunks_bound q win :
  yq_rep q win → (size (yq_chunks q) * N ≤ length win + 3 * N)%nat.
Proof.
  intros (cs & pre & post & []).
  assert (Hdom : dom (yq_chunks q) = list_to_set (cs ++ option_list (yq_spare_chunk q))).
  { apply set_eq. intros c. rewrite elem_of_dom, elem_of_list_to_set. apply rep_dom0. }
  rewrite <- size_dom, Hdom, size_list_to_set, length_app by done.
  assert (Hl : (length (addrs cs) = length cs * N)%nat).
  { clear. induction cs as [|c cs IH]; [done|]. rewrite addrs_cons, length_app, length_chunk_addrs, IH. simpl. lia. }
  rewrite rep_addrs0, !length_app in Hl. destruct rep_begin_pos0, rep_end_pos0.
  destruct (yq_spare_chunk q); simpl; lia.
Qed.

End yqueue.

Arguments yq_op : clear implicits.

(** Any sequence of pushes, pops and rollbacks that respects the caller's
    obligations completes, without touching a freed chunk, and leaves the queue
    holding exactly the list of the abstract deque, with its front and back at the
    ends; the chunks in memory are those of the elements, two partly used ones and
    one spare at most. *)
Lemma yqueue_refines_list {T} (N : nat) (ops : list (yq_op T)) l :
  (0 < N)%nat → list_run [] ops = Some l →
  ∃ q win, yq_run N (yq_new N) ops = Done q
    ∧ Forall2 (λ a v, yq_load q a = Done (Some v)) win l
    ∧ (∀ a, head win = Some a → yq_front q = a) ∧ (∀ a, last win = Some a → yq_back q = Done a)
    ∧ (size (yq_chunks q) * N ≤ length l + 3 * N)%nat.
Proof.
  intros HN Hrun.
  assert (Hgen : ∀ q l0, yq_holds N q l0 → list_run l0 ops = Some l →
    ∃ q', yq_run N q ops = Done q' ∧ yq_holds N q' l).
  { clear Hrun. induction ops as [|op ops IH]; intros q l0 Hq Hr; simpl in *; [exists q; by simplify_eq|].
    destruct (list_step l0 op) as [l1|] eqn:Hs; [|done].
    destruct (yq_step_ok N q l0 l1 op Hq Hs) as (q1 & -> & Hq1). by apply (IH q1 l1). }
  destruct (Hgen (yq_new N) []) as (q & Hq & win & Hrep & Hall); [|done|].
  { exists []. split; [by apply yq_new_rep|constructor]. }
  exists q, win. split; [done|]. split; [done|]. split_and!.
  - intros a Ha. destruct win; [done|]. injection Ha as ->. by eapply yq_front_spec.
  - intros a Ha. apply last_Some in Ha as [win' ->]. by eapply yq_back_spec.
  - rewrite <- (Forall2_length _ _ _ Hall). by apply yq_chunks_bound.
Qed.

Lemma yqueue_refines_list_witness :
  ∃ q : yqueue_t, yq_run 2 (yq_new 2) [QPush 1; QPush 2; QPush 3; QPop; QPop; QPush 4; QUnpush] = Done q
    ∧ (size (yq_chunks q) * 2 ≤ 1 + 3 * 2)%nat.
Proof.
  destruct (yqueue_refines_list 2 [QPush 1; QPush 2; QPush 3; QPop; QPop; QPush 4; QUnpush] [3])
    as (q & win & Hr & _ & _ & _ & Hb); [lia|reflexivity|].
  exists q. split; [exact Hr|exact Hb].
Defined.
