(* ===== verification/YPipe.v ===== *)
(** The lock-free pipe of src/util/ypipe.hpp over the queue of YQueue, with the
    pointers [_w], [_f], [_r] and the shared [_c], and its step relation.

    The pointer comparisons and the compare-and-swap on [_c] are on slot
    addresses, as in the code, so that a chunk recycled by the queue may return an
    address that was used before.

    Writer and reader run concurrently.  Each operation accesses the shared
    pointer [_c] at most once, except [flush], whose compare-and-swap and store are
    separate steps, and [read], whose [check_read] and removal are separate steps;
    everything else an operation touches belongs to its thread. *)
From S2P Require Import Prelude YQueue.

Section ypipe.
Context {T : Type} (N : nat).

Abbreviation addr := (nat * nat)%type.
Abbreviation queue := (@yqueue_t T).

Record ypipe_t := YPipe {
  yp_queue : queue;
  yp_w : addr;
  yp_f : addr;
  yp_r : option addr;
  yp_c : option addr;
}.

(** [atomic_ptr_t::cas]: the new value and the returned old one. *)
Definition ptr_cas (c cmp val : option addr) : option addr * option addr :=
  (if decide (c = cmp) then val else c, c).

Definition ypipe_new : outcome ypipe_t :=
  q ← yq_push N (yq_new N);
  b ← yq_back q;
  Done (YPipe q b b (Some b) (Some b)).

Definition ypipe_write (p : ypipe_t) (value : T) (incomplete : bool) : outcome ypipe_t :=
  b ← yq_back (yp_queue p);
  q ← yq_store (yp_queue p) b value;
  q ← yq_push N q;
  b ← yq_back q;
  Done (YPipe q (yp_w p) (if incomplete then yp_f p else b) (yp_r p) (yp_c p)).

(** An element that was never written has no value to return. *)
Definition yq_value (q : queue) (a : addr) : outcome T :=
  v ← yq_load q a; match v with Some v => Done v | None => Undef end.

Definition ypipe_unwrite (p : ypipe_t) : outcome (option T * ypipe_t) :=
  b ← yq_back (yp_queue p);
  if decide (yp_f p = b) then Done (None, p)
  else
    q ← yq_unpush N (yp_queue p);
    b ← yq_back q;
    v ← yq_value q b;
    Done (Some v, YPipe q (yp_w p) (yp_f p) (yp_r p) (yp_c p)).

(** [flush] up to its compare-and-swap: [Some] is the result when it succeeded or
    there was nothing to flush, [None] when [_c] has to be set. *)
Definition ypipe_flush_cas (p : ypipe_t) : option bool * ypipe_t :=
  if decide (yp_w p = yp_f p) then (Some true, p)
  else
    let '(c, old) := ptr_cas (yp_c p) (Some (yp_w p)) (Some (yp_f p)) in
    if decide (old ≠ Some (yp_w p)) then (None, YPipe (yp_queue p) (yp_w p) (yp_f p) (yp_r p) c)
    else (Some true, YPipe (yp_queue p) (yp_f p) (yp_f p) (yp_r p) c).

(** The reader is asleep: [_c] is set to [_f]. *)
Definition ypipe_flush_set (p : ypipe_t) : bool * ypipe_t :=
  (false, YPipe (yp_queue p) (yp_f p) (yp_f p) (yp_r p) (Some (yp_f p))).

Definition ypipe_flush (p : ypipe_t) : bool * ypipe_t :=
  match ypipe_flush_cas p with
  | (Some b, p) => (b, p)
  | (None, p) => ypipe_flush_set p
  end.

Definition ypipe_check_read (p : ypipe_t) : bool * ypipe_t :=
  let front := yq_front (yp_queue p) in
  if decide (yp_r p ≠ Some front ∧ yp_r p ≠ None) then (true, p)
  else
    let '(c, old) := ptr_cas (yp_c p) (Some front) None in
    (bool_decide (¬ (old = Some front ∨ old = None)), YPipe (yp_queue p) (yp_w p) (yp_f p) old c).

(** [*value = _queue.front (); _queue.pop ()] *)
Definition ypipe_take (p : ypipe_t) : outcome (T * ypipe_t) :=
  v ← yq_value (yp_queue p) (yq_front (yp_queue p));
  q ← yq_pop N (yp_queue p);
  Done (v, YPipe q (yp_w p) (yp_f p) (yp_r p) (yp_c p)).

Definition ypipe_read (p : ypipe_t) : outcome (option T * ypipe_t) :=
  let '(b, p) := ypipe_check_read p in
  if b then '(v, p) ← ypipe_take p; Done (Some v, p) else Done (None, p).

Definition ypipe_probe (p : ypipe_t) (fn : T → bool) : outcome (bool * ypipe_t) :=
  let '(rc, p) := ypipe_check_read p in
  assert! rc;;
  v ← yq_value (yp_queue p) (yq_front (yp_queue p));
  Done (fn v, p).

(** ** The steps of the two threads *)

Inductive action :=
| AWrite (v : T) (incomplete : bool)
| AUnwrite
| AFlush          (* up to the compare-and-swap *)
| AFlushSet       (* the store to [_c], after a failed compare-and-swap *)
| ACheckRead
| ARead           (* [read] up to its [check_read] *)
| ATake.          (* the removal, after a successful check *)

(** What the caller sees of a step. *)
Inductive obs := ONone | OBool (b : bool) | OValue (v : option T).

(** Whether the writer is inside [flush], the reader inside [read]. *)
Record threads := Threads { in_flush : bool; in_read : bool }.

Definition conc := (ypipe_t * threads)%type.

(** One step; [None] when the thread is not at that point. *)
Definition conc_step (st : conc) (a : action) : outcome (option (obs * conc)) :=
  let '(p, t) := st in
  match a with
  | AWrite v incomplete =>
      if in_flush t then Done None
      else p ← ypipe_write p v incomplete; Done (Some (ONone, (p, t)))
  | AUnwrite =>
      if in_flush t then Done None
      else '(v, p) ← ypipe_unwrite p; Done (Some (OValue v, (p, t)))
  | AFlush =>
      if in_flush t then Done None
      else match ypipe_flush_cas p with
           | (Some b, p) => Done (Some (OBool b, (p, t)))
           | (None, p) => Done (Some (ONone, (p, Threads true (in_read t))))
           end
  | AFlushSet =>
      if in_flush t then
        let '(b, p) := ypipe_flush_set p in Done (Some (OBool b, (p, Threads false (in_read t))))
      else Done None
  | ACheckRead =>
      if in_read t then Done None
      else let '(b, p) := ypipe_check_read p in Done (Some (OBool b, (p, t)))
  | ARead =>
      if in_read t then Done None
      else let '(b, p) := ypipe_check_read p in
           if b then Done (Some (ONone, (p, Threads (in_flush t) true)))
           else Done (Some (OValue None, (p, t)))
  | ATake =>
      if in_read t then
        '(v, p) ← ypipe_take p; Done (Some (OValue (Some v), (p, Threads (in_flush t) false)))
      else Done None
  end.

(** ** The specification

    A queue in three parts: what the reader may read, what is complete but not
    flushed, and what is incomplete; and whether the reader is asleep. *)
Record spec := Spec {
  sp_flushed : list T;
  sp_complete : list T;
  sp_incomplete : list T;
  sp_asleep : bool;
}.

Definition spec_new : spec := Spec [] [] [] false.

Definition spec_write (s : spec) (v : T) (incomplete : bool) : spec :=
  if incomplete then Spec (sp_flushed s) (sp_complete s) (sp_incomplete s ++ [v]) (sp_asleep s)
  else Spec (sp_flushed s) (sp_complete s ++ sp_incomplete s ++ [v]) [] (sp_asleep s).

Definition spec_unwrite (s : spec) : option T * spec :=
  match last (sp_incomplete s) with
  | None => (None, s)
  | Some v => (Some v, Spec (sp_flushed s) (sp_complete s)
                 (take (length (sp_incomplete s) - 1) (sp_incomplete s)) (sp_asleep s))
  end.

Definition spec_flush (s : spec) : spec :=
  Spec (sp_flushed s ++ sp_complete s) [] (sp_incomplete s) false.

(** The reader falls asleep when it finds nothing. *)
Definition spec_check_read (s : spec) : bool * spec :=
  match sp_flushed s with
  | [] => (false, Spec [] (sp_complete s) (sp_incomplete s) true)
  | _ => (true, s)
  end.

Definition spec_step (st : spec * threads) (a : action) : option (obs * (spec * threads)) :=
  let '(s, t) := st in
  match a with
  | AWrite v incomplete => if in_flush t then None else Some (ONone, (spec_write s v incomplete, t))
  | AUnwrite => if in_flush t then None else let '(v, s) := spec_unwrite s in Some (OValue v, (s, t))
  | AFlush =>
      if in_flush t then None
      else match sp_complete s with
           | [] => Some (OBool true, (s, t))
           | _ => if sp_asleep s then Some (ONone, (s, Threads true (in_read t)))
                  else Some (OBool true, (spec_flush s, t))
           end
  | AFlushSet =>
      if in_flush t then Some (OBool false, (spec_flush s, Threads false (in_read t))) else None
  | ACheckRead =>
      if in_read t then None else let '(b, s) := spec_check_read s in Some (OBool b, (s, t))
  | ARead =>
      if in_read t then None
      else let '(b, s) := spec_check_read s in
           if b : bool then Some (ONone, (s, Threads (in_flush t) true)) else Some (OValue None, (s, t))
  | ATake =>
      if in_read t then
        match sp_flushed s with
        | v :: fl => Some (OValue (Some v),
                       (Spec fl (sp_complete s) (sp_incomplete s) (sp_asleep s), Threads (in_flush t) false))
        | [] => None
        end
      else None
  end.

(** ** Simulation *)

Abbreviation holds q := (λ a v, yq_load q a = Done (Some v)).

Definition sp_all (s : spec) : list T := sp_flushed s ++ sp_complete s ++ sp_incomplete s.

(** The elements are at [ws] and the terminator at [t]; [_w] and [_f] point behind
    the flushed and the complete elements; [_c] is [_w], or NULL when the reader is
    asleep; [_r] points into the flushed elements or just behind them. *)
Record yp_rel_at (p : ypipe_t) (s : spec) (ws : list addr) (t : addr) : Prop := {
  rel_rep : yq_rep N (yp_queue p) (ws ++ [t]);
  rel_vals : Forall2 (holds (yp_queue p)) ws (sp_all s);
  rel_w : (ws ++ [t]) !! length (sp_flushed s) = Some (yp_w p);
  rel_f : (ws ++ [t]) !! length (sp_flushed s ++ sp_complete s) = Some (yp_f p);
  rel_c : yp_c p = (if sp_asleep s then None else Some (yp_w p));
  rel_asleep : sp_asleep s = true → sp_flushed s = [];
  rel_r : ∀ a, yp_r p = Some a → ∃ k, (k ≤ length (sp_flushed s))%nat ∧ (ws ++ [t]) !! k = Some a;
}.

Record yp_rel (st : conc) (sst : spec * threads) : Prop := {
  rel_at : ∃ ws t, yp_rel_at st.1 sst.1 ws t;
  rel_threads : st.2 = sst.2;
  rel_in_flush : in_flush sst.2 = true → sp_asleep sst.1 = true;
  rel_in_read : in_read sst.2 = true →
    sp_flushed sst.1 ≠ [] ∧ yp_r st.1 ≠ None ∧ yp_r st.1 ≠ Some (yq_front (yp_queue st.1));
}.

Lemma rel_length p s ws t : yp_rel_at p s ws t → length ws = length (sp_all s).
Proof. intros []. by eapply Forall2_length. Qed.

Lemma rel_front p s ws t : yp_rel_at p s ws t → (ws ++ [t]) !! 0%nat = Some (yq_front (yp_queue p)).
Proof.
  intros []. destruct (ws ++ [t]) as [|a win] eqn:E; [by destruct ws|].
  by rewrite (yq_front_spec N (yp_queue p) a win).
Qed.

Lemma rel_inj p s ws t i j a :
  yp_rel_at p s ws t → (ws ++ [t]) !! i = Some a → (ws ++ [t]) !! j = Some a → i = j.
Proof. intros []. apply NoDup_lookup. by eapply rep_NoDup. Qed.

Lemma rel_back p s ws t : yp_rel_at p s ws t → yq_back (yp_queue p) = Done t.
Proof. intros []. by eapply yq_back_spec. Qed.

Lemma yp_new_rel : (0 < N)%nat → ∃ p : ypipe_t, ypipe_new = Done p ∧ ∃ ws t, yp_rel_at p spec_new ws t.
Proof.
  intros HN. unfold ypipe_new.
  destruct (yq_push_spec (T:=T) N (yq_new N) [] (yq_new_rep N HN)) as (q & a & -> & Hrep & _).
  rewrite bind_Done. pose proof (yq_back_spec N q [] a Hrep) as Hb. rewrite Hb, bind_Done.
  eexists. split; [done|]. exists [], a. split; simpl; try done.
  intros a' [= <-]. exists 0%nat. done.
Qed.

Lemma write_rel p s ws t v inc :
  yp_rel_at p s ws t →
  ∃ p' ws' t', ypipe_write p v inc = Done p' ∧ yp_rel_at p' (spec_write s v inc) ws' t'
    ∧ yp_r p' = yp_r p ∧ yq_front (yp_queue p') = yq_front (yp_queue p).
Proof.
  intros Hrel. pose proof (rel_front _ _ _ _ Hrel) as Hfr. pose proof (rel_length _ _ _ _ Hrel) as Hlen.
  unfold ypipe_write. rewrite (rel_back _ _ _ _ Hrel), bind_Done. destruct Hrel.
  destruct (yq_store_spec N (yp_queue p) (ws ++ [t]) t v) as (q1 & -> & Hrep1 & Hv & Hoth); [done|set_solver|].
  rewrite bind_Done. destruct (yq_push_spec N q1 (ws ++ [t]) Hrep1) as (q2 & t' & -> & Hrep2 & Hf2 & Hld2).
  rewrite bind_Done, (yq_back_spec N q2 _ _ Hrep2), bind_Done.
  assert (Hvals : Forall2 (holds q2) (ws ++ [t]) (sp_all s ++ [v])).
  { apply (yq_vals_ext q1); [done|]. apply Forall2_app; [|by repeat constructor].
    apply (yq_vals_ext (yp_queue p)); [|done]. intros a Ha. apply Hoth. intros ->.
    apply rep_NoDup in rel_rep0. apply NoDup_app in rel_rep0 as (_ & Hd & _). apply (Hd t Ha). set_solver. }
  assert (Hpre : ∀ k a, (ws ++ [t]) !! k = Some a → ((ws ++ [t]) ++ [t']) !! k = Some a).
  { intros k a Hk. by apply lookup_app_l_Some. }
  eexists _, (ws ++ [t]), t'. split; [done|]. split; [|split; [done|]].
  - unfold spec_write. destruct inc; split; simpl; auto.
    + unfold sp_all in *. simpl. by rewrite <- !app_assoc in Hvals.
    + intros a (k & ? & ?)%rel_r0. eauto.
    + unfold sp_all in *. simpl. rewrite app_nil_r. by rewrite <- !app_assoc in Hvals.
    + rewrite lookup_app_r; rewrite !length_app in *; unfold sp_all in Hlen; rewrite !length_app in Hlen; simpl; [|lia].
      by replace (_ - _)%nat with 0%nat by lia.
    + intros a (k & ? & ?)%rel_r0. eauto.
  - apply (inj Some). rewrite <- Hfr. destruct (ws ++ [t]) as [|a win] eqn:E; [by destruct ws|].
    simpl. by rewrite (yq_front_spec N q2 a (win ++ [t'])).
Qed.

Lemma unwrite_rel p s ws t :
  yp_rel_at p s ws t →
  ∃ v p' ws' t', ypipe_unwrite p = Done (v, p') ∧ (spec_unwrite s).1 = v
    ∧ yp_rel_at p' (spec_unwrite s).2 ws' t'
    ∧ yp_r p' = yp_r p ∧ yq_front (yp_queue p') = yq_front (yp_queue p).
Proof.
  intros Hrel. pose proof (rel_front _ _ _ _ Hrel) as Hfr. pose proof (rel_length _ _ _ _ Hrel) as Hlen.
  unfold ypipe_unwrite. rewrite (rel_back _ _ _ _ Hrel), bind_Done. pose proof Hrel as [].
  assert (Ht : (ws ++ [t]) !! length ws = Some t) by (by apply list_lookup_middle).
  unfold spec_unwrite, sp_all in *. rewrite !length_app in *.
  destruct (sp_incomplete s) as [|v inc _] eqn:Hinc using rev_ind.
  { rewrite decide_True; [by eexists None, p, ws, t|]. simpl in *.
    apply (inj Some). rewrite <- Ht, <- rel_f0. f_equal. lia. }
  rewrite decide_False; last first.
  { intros Heq. rewrite Heq in rel_f0. pose proof (rel_inj _ _ _ _ _ _ _ Hrel rel_f0 Ht).
    rewrite length_app in *. simpl in *. lia. }
  rewrite last_snoc. destruct ws as [|a ws _] using rev_ind; [rewrite length_app in *; simpl in *; lia|].
  rewrite <- app_assoc in rel_rep0. simpl in rel_rep0.
  destruct (yq_unpush_spec N (yp_queue p) ws a t rel_rep0) as (q & -> & Hrep & Hf & Hld).
  rewrite bind_Done, (yq_back_spec N q ws a Hrep), bind_Done.
  assert (Hall : Forall2 (holds q) (ws ++ [a]) ((sp_flushed s ++ sp_complete s ++ inc) ++ [v])).
  { rewrite <- !app_assoc. by apply (yq_vals_ext (yp_queue p)). }
  apply Forall2_app_inv in Hall as [Hall Hv]; last first.
  { rewrite !length_app in *. simpl in *. lia. }
  inversion Hv as [|? ? ? ? Hva _]; subst. unfold yq_value. rewrite Hva, !bind_Done.
  assert (Hpre : ∀ k x, (k < length (ws ++ [a]))%nat → ((ws ++ [a]) ++ [t]) !! k = Some x → (ws ++ [a]) !! k = Some x).
  { intros k x Hk. by rewrite lookup_app_l. }
  rewrite !length_app in *. simpl in *. rewrite take_app_length' by lia.
  eexists _, _, ws, a. split; [done|]. split; [done|]. split; [|split; [done|]].
  - split; simpl; auto.
    + apply Hpre; [lia|done].
    + rewrite length_app. apply Hpre; [lia|done].
    + intros x (k & Hk & Hx)%rel_r0. exists k. split; [done|]. apply Hpre; [lia|done].
  - done.
Qed.

Lemma flush_cas_rel p s ws t :
  yp_rel_at p s ws t →
  match sp_complete s with
  | [] => ypipe_flush_cas p = (Some true, p)
  | _ => if sp_asleep s then ypipe_flush_cas p = (None, p)
         else ∃ p', ypipe_flush_cas p = (Some true, p') ∧ yp_rel_at p' (spec_flush s) ws t
                ∧ yp_r p' = yp_r p ∧ yp_queue p' = yp_queue p
  end.
Proof.
  intros Hrel. pose proof Hrel as []. unfold ypipe_flush_cas. rewrite !length_app in *.
  destruct (sp_complete s) as [|x co] eqn:Hco.
  { rewrite decide_True; [done|]. simpl in *. rewrite Nat.add_0_r in rel_f0. congruence. }
  rewrite decide_False; last first.
  { intros Heq. rewrite Heq in rel_w0. pose proof (rel_inj _ _ _ _ _ _ _ Hrel rel_w0 rel_f0). simpl in *. lia. }
  unfold ptr_cas. rewrite rel_c0. destruct (sp_asleep s) eqn:Has.
  - rewrite decide_True, decide_False by done. f_equal. destruct p. simpl in *. congruence.
  - rewrite decide_False, decide_True by naive_solver. eexists. split; [done|]. split; [|done].
    split; simpl; rewrite ?Hco, ?length_app, ?Nat.add_0_r; try done.
    + unfold sp_all in *. rewrite Hco in *. simpl. by rewrite <- app_assoc, Hco.
    + intros a (k & ? & ?)%rel_r0. exists k. split; [lia|done].
Qed.

Lemma flush_set_rel p s ws t :
  yp_rel_at p s ws t → sp_asleep s = true →
  ∃ p', ypipe_flush_set p = (false, p') ∧ yp_rel_at p' (spec_flush s) ws t
    ∧ yp_r p' = yp_r p ∧ yp_queue p' = yp_queue p.
Proof.
  intros Hrel Has. pose proof Hrel as []. eexists. split; [done|]. split; [|done].
  split; simpl; try done.
  - unfold sp_all in *. simpl. by rewrite <- app_assoc.
  - by rewrite app_nil_r.
  - intros a (k & ? & ?)%rel_r0. exists k. rewrite length_app. split; [lia|done].
Qed.

Lemma check_read_rel p s ws t :
  yp_rel_at p s ws t →
  ∃ p', ypipe_check_read p = ((spec_check_read s).1, p') ∧ yp_rel_at p' (spec_check_read s).2 ws t
    ∧ yp_queue p' = yp_queue p
    ∧ ((spec_check_read s).1 = true → yp_r p' ≠ None ∧ yp_r p' ≠ Some (yq_front (yp_queue p'))).
Proof.
  intros Hrel. pose proof (rel_front _ _ _ _ Hrel) as Hfr. pose proof Hrel as [].
  unfold ypipe_check_read, spec_check_read.
  destruct (decide (yp_r p ≠ Some (yq_front (yp_queue p)) ∧ yp_r p ≠ None)) as [[Hr1 Hr2]|Hr].
  { destruct (yp_r p) as [a|] eqn:Hr; [|done]. destruct (rel_r0 a eq_refl) as (k & Hk & Ha).
    destruct (sp_flushed s) as [|x fl] eqn:Hfl.
    - destruct Hr1. replace k with 0%nat in Ha by (simpl in Hk; lia). congruence.
    - exists p. rewrite Hr. done. }
  unfold ptr_cas. rewrite rel_c0. destruct (sp_flushed s) as [|x fl] eqn:Hfl; simpl in *.
  - assert (Hw : yp_w p = yq_front (yp_queue p)) by congruence.
    destruct (sp_asleep s) eqn:Has.
    + rewrite decide_False by done. rewrite bool_decide_eq_false_2 by tauto. eexists. split; [done|].
      split; [|done]. unfold sp_all in *. rewrite Hfl in *.
      split; simpl; try done.
    + rewrite decide_True by congruence.
      rewrite bool_decide_eq_false_2 by (rewrite Hw; tauto). eexists. split; [done|].
      split; [|done]. unfold sp_all in *. rewrite Hfl in *. split; simpl; try done.
      intros a [= <-]. exists 0%nat. rewrite Hw. done.
  - destruct (sp_asleep s) eqn:Has; [by specialize (rel_asleep0 eq_refl)|].
    assert (Hw : yp_w p ≠ yq_front (yp_queue p)).
    { intros Hw. rewrite Hw in rel_w0. pose proof (rel_inj _ _ _ _ _ _ _ Hrel rel_w0 Hfr). done. }
    rewrite decide_False by congruence.
    rewrite bool_decide_eq_true_2 by (intros [?|?]; congruence). eexists. split; [done|].
    split; [|split; [done|]].
    + split; simpl; rewrite ?Hfl, ?Has; try done. intros a [= <-]. exists (S (length fl)). done.
    + intros _. simpl. split; [done|]. congruence.
Qed.

Lemma take_rel p s ws t :
  yp_rel_at p s ws t → yp_r p ≠ None → yp_r p ≠ Some (yq_front (yp_queue p)) → sp_flushed s ≠ [] →
  ∃ v fl p' ws', sp_flushed s = v :: fl ∧ ypipe_take p = Done (v, p')
    ∧ yp_rel_at p' (Spec fl (sp_complete s) (sp_incomplete s) (sp_asleep s)) ws' t.
Proof.
  intros Hrel Hr1 Hr2 Hne. pose proof (rel_front _ _ _ _ Hrel) as Hfr. pose proof Hrel as [].
  destruct (sp_flushed s) as [|v fl] eqn:Hfl; [done|]. unfold sp_all in *. rewrite Hfl in *. simpl in *.
  inversion rel_vals0 as [|a v' ws' l Ha Hws]; subst. simpl in *. injection Hfr as Hfr.
  destruct (yq_pop_spec N (yp_queue p) a (ws' ++ [t]) rel_rep0) as (q & Hq & Hrep & _ & Hld).
  exists v, fl. eexists _, ws'. split; [done|]. unfold ypipe_take, yq_value.
  rewrite <- Hfr, Ha, !bind_Done, Hq, bind_Done. split; [done|]. split; simpl; try done.
  - apply (yq_vals_ext (yp_queue p)); [|done]. intros a' Ha'. apply Hld. set_solver.
  - intros Has. by apply rel_asleep0 in Has.
  - intros b Hb. destruct (rel_r0 b Hb) as ([|k] & Hk & Hl); simpl in Hl.
    + congruence.
    + exists k. split; [lia|done].
Qed.

(** Every step of the pipe is a step of the specification with the same result. *)
Lemma conc_step_sim st sst a :
  yp_rel st sst →
  match spec_step sst a with
  | None => conc_step st a = Done None
  | Some (o, sst') => ∃ st', conc_step st a = Done (Some (o, st')) ∧ yp_rel st' sst'
  end.
Proof.
  destruct st as [p th], sst as [s th']. intros [(ws & t & Hrel) Hth Hfl Hrd]. simpl in *. subst th'.
  destruct a as [v inc| | | | | |]; simpl.
  - destruct (in_flush th) eqn:Hif; [done|].
    destruct (write_rel p s ws t v inc Hrel) as (p' & ws' & t' & -> & Hrel' & Hr & Hf). simpl.
    eexists. split; [done|]. split; simpl; [by eauto|done|congruence|].
    rewrite Hr, Hf. by destruct inc.
  - destruct (in_flush th) eqn:Hif; [done|].
    destruct (unwrite_rel p s ws t Hrel) as (v & p' & ws' & t' & -> & Hv & Hrel' & Hr & Hf).
    assert (Hfs : sp_flushed (spec_unwrite s).2 = sp_flushed s).
    { unfold spec_unwrite. by destruct (last (sp_incomplete s)). }
    destruct (spec_unwrite s) as [v' s']. simpl in *. subst v'.
    eexists. split; [done|]. split; simpl; [by eauto|done|congruence|]. by rewrite Hr, Hf, Hfs.
  - destruct (in_flush th) eqn:Hif; [done|]. pose proof (flush_cas_rel p s ws t Hrel) as Hc.
    destruct (sp_complete s) as [|x co] eqn:Hco.
    { rewrite Hc. eexists. split; [done|]. split; simpl; [by eauto|done|congruence|done]. }
    destruct (sp_asleep s) eqn:Has.
    + rewrite Hc. eexists. split; [done|]. split; simpl; [by eauto|done|done|done].
    + destruct Hc as (p' & -> & Hrel' & Hr & Hq). eexists. split; [done|].
      split; simpl; [by eauto|done|congruence|]. rewrite Hr, Hq. intros Hrd'.
      destruct (Hrd Hrd'). split; [|done]. by destruct (sp_flushed s).
  - destruct (in_flush th) eqn:Hif; [|done]. simpl.
    destruct (flush_set_rel p s ws t Hrel) as (p' & Hp & Hrel' & Hr & Hq); [by apply Hfl|].
    injection Hp as <-. eexists. split; [done|]. split; simpl; [by eauto|done|done|].
    intros Hrd'. destruct (Hrd Hrd'). split; [|done]. by destruct (sp_flushed s).
  - destruct (in_read th) eqn:Hir; [done|].
    destruct (check_read_rel p s ws t Hrel) as (p' & -> & Hrel' & Hq & _).
    assert (Has : sp_asleep s = true → sp_asleep (spec_check_read s).2 = true).
    { unfold spec_check_read. by destruct (sp_flushed s). }
    destruct (spec_check_read s) as [b s']. simpl in *. eexists. split; [done|].
    split; simpl; [by eauto|done|by eauto|congruence].
  - destruct (in_read th) eqn:Hir; [done|].
    destruct (check_read_rel p s ws t Hrel) as (p' & -> & Hrel' & Hq & Hb).
    assert (Has : sp_asleep s = true → sp_asleep (spec_check_read s).2 = true).
    { unfold spec_check_read. by destruct (sp_flushed s). }
    assert (Hbs : (spec_check_read s).1 = true → sp_flushed (spec_check_read s).2 ≠ []).
    { unfold spec_check_read. destruct (sp_flushed s) eqn:E; [done|]. simpl. by rewrite E. }
    destruct (spec_check_read s) as [[] s']; simpl in *; eexists; (split; [done|]);
      (split; simpl; [by eauto|done|by eauto|]); [|congruence].
    intros _. split; [by apply Hbs|by apply Hb].
  - destruct (in_read th) eqn:Hir; [|by destruct (sp_flushed s)].
    destruct (Hrd eq_refl) as (Hne & Hr1 & Hr2).
    destruct (take_rel p s ws t Hrel Hr1 Hr2 Hne) as (v & fl & p' & ws' & -> & -> & Hrel').
    simpl. eexists. split; [done|]. split; simpl; [by eauto|done|done|done].
Qed.

(** A schedule of the two threads: the steps that are not possible are skipped. *)
Fixpoint conc_run (st : conc) (acts : list action) : outcome (list obs * conc) :=
  match acts with
  | [] => Done ([], st)
  | a :: acts =>
      r ← conc_step st a;
      match r with
      | None => conc_run st acts
      | Some (o, st) => '(os, st) ← conc_run st acts; Done (o :: os, st)
      end
  end.

Fixpoint spec_run (st : spec * threads) (acts : list action) : list obs * (spec * threads) :=
  match acts with
  | [] => ([], st)
  | a :: acts =>
      match spec_step st a with
      | None => spec_run st acts
      | Some (o, st) => let '(os, st) := spec_run st acts in (o :: os, st)
      end
  end.

Lemma conc_run_sim acts st sst :
  yp_rel st sst →
  ∃ st', conc_run st acts = Done ((spec_run sst acts).1, st') ∧ yp_rel st' (spec_run sst acts).2.
Proof.
  revert st sst. induction acts as [|a acts IH]; intros st sst Hrel; simpl; [by eauto|].
  pose proof (conc_step_sim st sst a Hrel) as Hs. destruct (spec_step sst a) as [[o sst1]|].
  - destruct Hs as (st1 & -> & Hrel1). simpl. destruct (IH st1 sst1 Hrel1) as (st' & -> & Hrel').
    destruct (spec_run sst1 acts) as [os sst']. simpl in *. by eauto.
  - rewrite Hs. simpl. by apply IH.
Qed.

End ypipe.

Arguments action : clear implicits.
Arguments obs : clear implicits.

(** C1: The lock-free pipe is a FIFO queue under every interleaving of its two
    threads: starting from a new pipe, every schedule of writes, rollbacks,
    flushes, checks and reads completes and gives exactly the results of the
    three-part queue of the specification, in which only flushed items are
    readable, rollback takes back incomplete items only, and a flush reports a
    sleeping reader exactly when the last check found nothing since the last
    flush. *)
Theorem ypipe_linearizable {T} (N : nat) (acts : list (action T)) :
  (0 < N)%nat →
  ∃ p st, ypipe_new N = Done p
    ∧ conc_run N (p, Threads false false) acts
      = Done ((spec_run (spec_new, Threads false false) acts).1, st).
Proof.
  intros HN. destruct (yp_new_rel (T:=T) N HN) as (p & Hp & ws & t & Hrel).
  destruct (conc_run_sim N acts (p, Threads false false) (spec_new, Threads false false)) as (st & Hst & _).
  - split; simpl; [by eauto|done|done|done].
  - by eauto.
Qed.

Lemma ypipe_linearizable_witness :
  ∃ p st, ypipe_new 2 = Done p
    ∧ conc_run 2 (p, Threads false false)
        [AWrite 1 true; AWrite 2 false; ARead; AFlush; ARead; AFlushSet; ARead; ATake; ARead; ATake; ARead]
      = Done ([ONone; ONone; OValue None; ONone; OValue None; OBool false; ONone; OValue (Some 1);
               ONone; OValue (Some 2); OValue None], st).
Proof.
  destruct (ypipe_linearizable 2
    [AWrite 1 true; AWrite 2 false; ARead; AFlush; ARead; AFlushSet; ARead; ATake; ARead; ATake; ARead])
    as (p & st & H1 & H2); [lia|].
  exists p, st. split; [exact H1|exact H2].
Defined.
