(* ===== verification/Conflate.v ===== *)
(** The conflating pipe: src/util/ypipe_conflate.hpp over the double buffer of
    src/util/dbuffer.hpp, for messages.

    The buffers hold messages of the heap of Msg; whether [try_lock] finds the
    mutex free is an argument of [write].  The buffer keeps the ownership
    invariant, and a read returns the last message written, when [try_lock]
    succeeds; a busy lock leaves a message behind that the next write leaks. *)
From S2P Require Import Prelude Msg.

Record dbuffer_t := DBuffer { db_back : msg_t; db_front : msg_t; db_has_msg : bool }.

Definition dbuffer_new : dbuffer_t := DBuffer msg_init msg_init false.

(** [~dbuffer_t ()] *)
Definition dbuffer_delete (h : heap) (d : dbuffer_t) : outcome heap :=
  '(_, h, _) ← msg_close h (db_back d);
  '(_, h, _) ← msg_close h (db_front d);
  Done h.

(** [write (value_)]; [lock_free] is the result of [try_lock]. *)
Definition dbuffer_write (h : heap) (d : dbuffer_t) (value : msg_t) (lock_free : bool)
    : outcome (heap * dbuffer_t) :=
  assert! msg_check value;;
  let back := value in
  assert! msg_check back;;
  if lock_free then
    '(_, h, front, back) ← msg_move h (db_front d) back;
    Done (h, DBuffer back front true)
  else Done (h, DBuffer back (db_front d) (db_has_msg d)).

(** [read (value_)] into a non-null location. *)
Definition dbuffer_read (d : dbuffer_t) : outcome (option msg_t * dbuffer_t) :=
  if negb (db_has_msg d) then Done (None, d)
  else
    assert! msg_check (db_front d);;
    Done (Some (db_front d), DBuffer (db_back d) msg_init false).

Definition dbuffer_check_read (d : dbuffer_t) : bool := db_has_msg d.
Definition dbuffer_probe (d : dbuffer_t) (fn : msg_t → bool) : bool := fn (db_front d).

Record ypipe_conflate_t := Conflate { cf_dbuffer : dbuffer_t; cf_reader_awake : bool }.

Definition conflate_new : ypipe_conflate_t := Conflate dbuffer_new false.

Definition conflate_write (h : heap) (p : ypipe_conflate_t) (value : msg_t) (incomplete lock_free : bool)
    : outcome (heap * ypipe_conflate_t) :=
  '(h, d) ← dbuffer_write h (cf_dbuffer p) value lock_free; Done (h, Conflate d (cf_reader_awake p)).

Definition conflate_unwrite (p : ypipe_conflate_t) : bool := false.
Definition conflate_flush (p : ypipe_conflate_t) : bool := cf_reader_awake p.

Definition conflate_check_read (p : ypipe_conflate_t) : bool * ypipe_conflate_t :=
  let res := dbuffer_check_read (cf_dbuffer p) in
  (res, if res then p else Conflate (cf_dbuffer p) false).

Definition conflate_read (p : ypipe_conflate_t) : outcome (option msg_t * ypipe_conflate_t) :=
  let '(res, p) := conflate_check_read p in
  if negb res then Done (None, p)
  else '(v, d) ← dbuffer_read (cf_dbuffer p); Done (v, Conflate d (cf_reader_awake p)).

Definition conflate_probe (p : ypipe_conflate_t) (fn : msg_t → bool) : bool :=
  dbuffer_probe (cf_dbuffer p) fn.

(** ** Sequences of operations *)

Inductive cf_op := CWrite (v : msg_t) | CRead | CCheck.

(** A run with a free lock: the messages read and the results of [flush] after
    each write. *)
Fixpoint cf_run (h : heap) (p : ypipe_conflate_t) (ops : list cf_op)
    : outcome (list (option msg_t) * list bool * heap * ypipe_conflate_t) :=
  match ops with
  | [] => Done ([], [], h, p)
  | CWrite v :: ops =>
      '(h, p) ← conflate_write h p v false true;
      '(rs, fs, h, q) ← cf_run h p ops; Done (rs, conflate_flush p :: fs, h, q)
  | CRead :: ops =>
      '(r, p) ← conflate_read p;
      '(rs, fs, h, q) ← cf_run h p ops; Done (r :: rs, fs, h, q)
  | CCheck :: ops => cf_run h (conflate_check_read p).2 ops
  end.

(** The specification: the message of the last write since the last read. *)
Fixpoint reg_run (r : option msg_t) (ops : list cf_op) : list (option msg_t) * option msg_t :=
  match ops with
  | [] => ([], r)
  | CWrite v :: ops => reg_run (Some v) ops
  | CRead :: ops => let '(rs, r') := reg_run None ops in (r :: rs, r')
  | CCheck :: ops => reg_run r ops
  end.

(** The messages written by a run, and those a run handed to the reader. *)
Definition cf_written (ops : list cf_op) : list msg_t :=
  omap (λ op, match op with CWrite v => Some v | _ => None end) ops.
Definition cf_taken (rs : list (option msg_t)) : list msg_t := omap id rs.

(** The buffer holds the register's message, if any. *)
Definition cf_rel (p : ypipe_conflate_t) (r : option msg_t) : Prop :=
  let d := cf_dbuffer p in
  db_back d = msg_init ∧ db_has_msg d = bool_decide (is_Some r)
  ∧ db_front d = default msg_init r ∧ cf_reader_awake p = false.

Lemma msg_move_close h h' m m' src :
  msg_close h m = Done (RcOk, h', m') → msg_check src = true →
  msg_move h m src = Done (RcOk, h', src, msg_init).
Proof. intros Hc Hs. unfold msg_move. rewrite Hs. simpl. by rewrite Hc. Qed.

Lemma cf_run_ok ext ops h p r ms :
  cf_rel p r → heap_inv ext h (cf_written ops ++ option_list r ++ ms) →
  Forall (λ v, msg_check v = true) (cf_written ops ++ option_list r) →
  ∃ fs h' p', cf_run h p ops = Done ((reg_run r ops).1, fs, h', p') ∧ cf_rel p' (reg_run r ops).2
    ∧ Forall (λ b, b = false) fs
    ∧ heap_inv ext h' (option_list (reg_run r ops).2 ++ cf_taken (reg_run r ops).1 ++ ms)
    ∧ heap_frame h h'.
Proof.
  revert h p r ms. induction ops as [|[v| |] ops IH]; intros h [[back front has] aw] r ms Hrel Hinv Hck;
    pose proof Hrel as (Hb & Hh & Hf & Ha); simpl in *.
  - eexists _, h, _. split; [done|]. split; [done|]. split; [constructor|]. done.
  - apply Forall_cons in Hck as [Hv Hck]. apply Forall_app in Hck as [Hck Hr]. unfold conflate_write, dbuffer_write.
    rewrite Hv. simpl.
    assert (Hcl : ∃ h' m', msg_close h front = Done (RcOk, h', m')
      ∧ heap_inv ext h' (v :: cf_written ops ++ ms) ∧ heap_frame h h').
    { subst front. destruct r as [m|]; simpl in *; [|by eexists h, _].
      inversion Hr; subst. destruct (msg_close_spec ext h m (v :: cf_written ops ++ ms)) as (h' & Hc & Hi & Hfr).
      - eapply heap_inv_Proper; [|exact Hinv]. solve_Permutation.
      - done.
      - by eexists h', _. }
    destruct Hcl as (h1 & m' & Hcl & Hinv1 & Hfr1). rewrite (msg_move_close h h1 front m' v) by done. simpl.
    destruct (IH h1 (Conflate (DBuffer msg_init v true) aw) (Some v) ms) as (fs & h2 & p2 & -> & Hrel2 & Hfs & Hinv2 & Hfr2).
    + done.
    + simpl. eapply heap_inv_Proper; [|exact Hinv1]. solve_Permutation.
    + apply Forall_app. split; [done|by constructor].
    + simpl. eexists _, h2, p2. split; [done|]. split; [done|]. split; [|split; [done|by transitivity h1]].
      constructor; [done|done].
  - unfold conflate_read, conflate_check_read, dbuffer_check_read, dbuffer_read. simpl. rewrite Hh.
    destruct r as [m|]; simpl in *.
    + apply Forall_app in Hck as [Hck Hr]. inversion Hr; subst. rewrite H1. simpl.
      destruct (IH h (Conflate (DBuffer msg_init msg_init false) false) None (m :: ms)) as (fs & h2 & p2 & -> & Hrel2 & Hfs & Hinv2 & Hfr2);
        [done|done|by rewrite app_nil_r|].
      simpl. destruct (reg_run None ops) as [rs r']. simpl in *. eexists _, h2, p2. split; [done|]. split; [done|].
      split; [done|]. split; [|done]. eapply heap_inv_Proper; [|exact Hinv2]. solve_Permutation.
    + subst has. destruct (IH h (Conflate (DBuffer back front false) false) None ms) as (fs & h2 & p2 & -> & Hrel2 & Hfs & Hinv2 & Hfr2); [done..|].
      simpl. destruct (reg_run None ops) as [rs r']. simpl in *. eexists _, h2, p2. done.
  - unfold conflate_check_read, dbuffer_check_read. simpl.
    apply IH; [|done|done]. destruct has; done.
Qed.

(** The conflating pipe is a register under ownership: any sequence of writes,
    checks and reads that finds the lock free completes, each read returns the
    message of the last write since the previous read, the messages overwritten
    are released and the others keep their owner (the ownership invariant of the
    heap holds for the message in the buffer and those handed out), and [flush]
    reports a sleeping reader after every write. *)
Lemma conflate_register ext ops h ms :
  heap_inv ext h (cf_written ops ++ ms) → Forall (λ v, msg_check v = true) (cf_written ops) →
  ∃ fs h' p', cf_run h conflate_new ops = Done ((reg_run None ops).1, fs, h', p')
    ∧ Forall (λ b, b = false) fs
    ∧ heap_inv ext h' (option_list (reg_run None ops).2 ++ cf_taken (reg_run None ops).1 ++ ms).
Proof.
  intros Hinv Hck. destruct (cf_run_ok ext ops h conflate_new None ms) as (fs & h' & p' & H1 & _ & H2 & H3 & _).
  - done.
  - done.
  - by rewrite app_nil_r.
  - by eexists fs, h', p'.
Qed.

Lemma conflate_register_witness :
  ∃ fs h' p', cf_run (empty_heap (λ _, true)) conflate_new [CWrite msg_init; CRead; CRead]
      = Done ([Some msg_init; None], fs, h', p').
Proof.
  destruct (conflate_register no_ext [CWrite msg_init; CRead; CRead] (empty_heap (λ _, true)) [])
    as (fs & h' & p' & H & _).
  - apply (empty_pool_rel (λ _, true) 1). lia.
  - vm_compute. by repeat constructor.
  - by eexists fs, h', p'.
Defined.

(** When [try_lock] finds the lock taken, the message stays in the back buffer
    and the next [write] overwrites it without closing it: its content is never
    released, though every message that can be reached is closed. *)
Lemma dbuffer_busy_leaks h id c :
  h_contents h !! id = Some c →
  ∃ h1 d1 h2 d2 h3,
    dbuffer_write h dbuffer_new (msg_base type_lmsg (BContent id)) false = Done (h1, d1)
    ∧ dbuffer_write h1 d1 msg_init true = Done (h2, d2)
    ∧ dbuffer_delete h2 d2 = Done h3 ∧ h_contents h3 !! id = Some c.
Proof. intros Hc. by eexists _, _, _, _, _. Qed.

Lemma dbuffer_busy_leaks_witness :
  ∃ h1 d1 h2 d2 h3,
    dbuffer_write witness_heap dbuffer_new (msg_base type_lmsg (BContent 0)) false = Done (h1, d1)
    ∧ dbuffer_write h1 d1 msg_init true = Done (h2, d2)
    ∧ dbuffer_delete h2 d2 = Done h3 ∧ is_Some (h_contents h3 !! 0%nat).
Proof.
  destruct (dbuffer_busy_leaks witness_heap 0 (Content DOwn [1; 2] 2 None 0 0) eq_refl)
    as (h1 & d1 & h2 & d2 & h3 & H1 & H2 & H3 & H4).
  exists h1, d1, h2, d2, h3. by rewrite H4.
Defined.
