(* ===== verification/Wire.v ===== *)
(** Integers in network byte order: src/protocol/wire.hpp.

    A buffer is the list of the bytes from the pointer on; a [put] gives the bytes
    it stores, a [get] reads the first ones.  The functions are inverse to each
    other on the integers of their width and on octets. *)
From S2P Require Import Prelude.

Definition put_uint8 (value : Z) : list Z := [value].
Definition get_uint8 (buffer : list Z) : outcome Z := geti buffer 0.

Definition put_uint16 (value : Z) : list Z :=
  [Z.land (Z.shiftr value 8) 255; Z.land value 255].

Definition get_uint16 (buffer : list Z) : outcome Z :=
  b0 ← geti buffer 0; b1 ← geti buffer 1;
  Done (Z.lor (Z.shiftl b0 8) b1).

Definition put_uint32 (value : Z) : list Z :=
  [Z.land (Z.shiftr value 24) 255; Z.land (Z.shiftr value 16) 255;
   Z.land (Z.shiftr value 8) 255; Z.land value 255].

Definition get_uint32 (buffer : list Z) : outcome Z :=
  b0 ← geti buffer 0; b1 ← geti buffer 1; b2 ← geti buffer 2; b3 ← geti buffer 3;
  Done (Z.lor (Z.lor (Z.lor (Z.shiftl b0 24) (Z.shiftl b1 16)) (Z.shiftl b2 8)) b3).

Definition put_uint64 (value : Z) : list Z :=
  [Z.land (Z.shiftr value 56) 255; Z.land (Z.shiftr value 48) 255;
   Z.land (Z.shiftr value 40) 255; Z.land (Z.shiftr value 32) 255;
   Z.land (Z.shiftr value 24) 255; Z.land (Z.shiftr value 16) 255;
   Z.land (Z.shiftr value 8) 255; Z.land value 255].

Definition get_uint64 (buffer : list Z) : outcome Z :=
  b0 ← geti buffer 0; b1 ← geti buffer 1; b2 ← geti buffer 2; b3 ← geti buffer 3;
  b4 ← geti buffer 4; b5 ← geti buffer 5; b6 ← geti buffer 6; b7 ← geti buffer 7;
  Done (Z.lor (Z.lor (Z.lor (Z.lor (Z.lor (Z.lor (Z.lor (Z.shiftl b0 56) (Z.shiftl b1 48))
          (Z.shiftl b2 40)) (Z.shiftl b3 32)) (Z.shiftl b4 24)) (Z.shiftl b5 16)) (Z.shiftl b6 8)) b7).

(** ** Bits and digits *)

Lemma land_255 z : Z.land z 255 = z `mod` 256.
Proof. change 255 with (Z.ones 8). by rewrite Z.land_ones. Qed.

Lemma land_255_byte z : is_byte (Z.land z 255).
Proof. rewrite land_255. apply Z.mod_pos_bound. lia. Qed.

(** Adjoining [k] low bits to a number that has none. *)
Lemma lor_low a k b : 0 ≤ k → 0 ≤ b < 2 ^ k → Z.lor (Z.shiftl a k) b = a * 2 ^ k + b.
Proof.
  intros Hk Hb.
  assert (Hl : Z.land (Z.shiftl a k) b = 0).
  { apply Z.bits_inj'. intros n Hn. rewrite Z.land_spec, Z.bits_0.
    destruct (Z.ltb_spec n k); [by rewrite Z.shiftl_spec_low|].
    destruct (decide (b = 0)) as [->|]; [by rewrite Z.bits_0, andb_false_r|].
    rewrite (Z.bits_above_log2 b n), andb_false_r; [done|lia|]. apply Z.log2_lt_pow2; [lia|].
    apply Z.lt_le_trans with (2 ^ k); [lia|]. apply Z.pow_le_mono_r; lia. }
  rewrite <- Z.lxor_lor, <- Z.add_nocarry_lxor, Z.shiftl_mul_pow2 by done. done.
Qed.

(** A sum of digits: the number so far, shifted by [k + 8], and the next octet. *)
Lemma lor_digit a k k8 b :
  0 ≤ k → k8 = k + 8 → is_byte b → Z.lor (Z.shiftl a k8) (Z.shiftl b k) = Z.shiftl (a * 256 + b) k.
Proof.
  intros Hk -> Hb. unfold is_byte in Hb. rewrite lor_low, !Z.shiftl_mul_pow2 by
    (rewrite ?Z.shiftl_mul_pow2, ?Z.pow_add_r by lia; nia).
  rewrite Z.pow_add_r by lia. lia.
Qed.

Lemma lor_digit_0 a b : is_byte b → Z.lor (Z.shiftl a 8) b = a * 256 + b.
Proof. intros Hb. by rewrite lor_low. Qed.

Lemma digit_div v k : 0 ≤ k → Z.land (Z.shiftr v k) 255 = (v / 2 ^ k) `mod` 256.
Proof. intros. by rewrite land_255, Z.shiftr_div_pow2. Qed.

(** ** Round trips *)

Lemma get_uint16_eq b0 b1 rest :
  is_byte b0 → is_byte b1 → get_uint16 (b0 :: b1 :: rest) = Done (b0 * 256 + b1).
Proof. intros. unfold get_uint16. simpl. by rewrite lor_digit_0. Qed.

Lemma get_uint32_eq b0 b1 b2 b3 rest :
  Forall is_byte [b0; b1; b2; b3] →
  get_uint32 (b0 :: b1 :: b2 :: b3 :: rest) = Done (((b0 * 256 + b1) * 256 + b2) * 256 + b3).
Proof.
  intros Hb. repeat (apply Forall_cons in Hb as [? Hb]). unfold get_uint32. simpl.
  rewrite (lor_digit b0 16 24 b1), (lor_digit _ 8 16 b2), lor_digit_0 by done. done.
Qed.

Lemma get_uint64_eq b0 b1 b2 b3 b4 b5 b6 b7 rest :
  Forall is_byte [b0; b1; b2; b3; b4; b5; b6; b7] →
  get_uint64 (b0 :: b1 :: b2 :: b3 :: b4 :: b5 :: b6 :: b7 :: rest)
  = Done (((((((b0 * 256 + b1) * 256 + b2) * 256 + b3) * 256 + b4) * 256 + b5) * 256 + b6) * 256 + b7).
Proof.
  intros Hb. repeat (apply Forall_cons in Hb as [? Hb]). unfold get_uint64. simpl.
  rewrite (lor_digit b0 48 56 b1), (lor_digit _ 40 48 b2), (lor_digit _ 32 40 b3), (lor_digit _ 24 32 b4),
    (lor_digit _ 16 24 b5), (lor_digit _ 8 16 b6), lor_digit_0 by done. done.
Qed.

Lemma put_uint64_bytes v : bytes_ok (put_uint64 v).
Proof. repeat constructor; apply land_255_byte. Qed.

Lemma div_256 v k : 0 ≤ k → v / 2 ^ (k + 8) = v / 2 ^ k / 256.
Proof. intros. rewrite Z.pow_add_r, <- Z.div_div by lia. done. Qed.

Ltac digits v :=
  rewrite ?digit_div, ?land_255 by lia;
  change 56 with (48 + 8); change 48 with (40 + 8); change 40 with (32 + 8); change 32 with (24 + 8);
  change 24 with (16 + 8); change 16 with (8 + 8);
  rewrite ?div_256 by lia; change (2 ^ 8) with 256.

(** The digits of a number add up to it. *)
Lemma digit_sum x : x / 256 * 256 + x `mod` 256 = x.
Proof. pose proof (Z.div_mod x 256). lia. Qed.

Lemma digit_last x n : 0 ≤ x < 256 * n → 0 ≤ x / 256 < n.
Proof. intros. split; [apply Z.div_pos; lia|apply Z.div_lt_upper_bound; lia]. Qed.

Lemma get_put_uint16 v rest : 0 ≤ v < 2 ^ 16 → get_uint16 (put_uint16 v ++ rest) = Done v.
Proof.
  intros Hv. unfold put_uint16. simpl. rewrite get_uint16_eq by apply land_255_byte. f_equal.
  digits v. rewrite (Z.mod_small (v / 256)) by (apply digit_last; lia). apply digit_sum.
Qed.

Lemma get_put_uint32 v rest : 0 ≤ v < 2 ^ 32 → get_uint32 (put_uint32 v ++ rest) = Done v.
Proof.
  intros Hv. unfold put_uint32. simpl. rewrite get_uint32_eq by (repeat constructor; apply land_255_byte).
  f_equal. digits v.
  rewrite (Z.mod_small (v / 256 / 256 / 256)) by (do 3 apply digit_last; lia).
  by rewrite !digit_sum.
Qed.

Lemma get_put_uint64 v rest : 0 ≤ v < 2 ^ 64 → get_uint64 (put_uint64 v ++ rest) = Done v.
Proof.
  intros Hv. unfold put_uint64. simpl. rewrite get_uint64_eq by apply put_uint64_bytes.
  f_equal. digits v.
  rewrite (Z.mod_small (v / 256 / 256 / 256 / 256 / 256 / 256 / 256)) by (do 7 apply digit_last; lia).
  by rewrite !digit_sum.
Qed.

Lemma digit_div_eq a b : is_byte b → (a * 256 + b) / 256 = a.
Proof. intros [? ?]. rewrite Z.div_add_l, (Z.div_small b) by lia. lia. Qed.
Lemma digit_mod_eq a b : is_byte b → (a * 256 + b) `mod` 256 = b.
Proof. intros [? ?]. rewrite Z.add_comm, Z.mod_add, Z.mod_small by lia. done. Qed.

Ltac digits_back :=
  digits 0; rewrite ?digit_div_eq, ?digit_mod_eq by done;
  rewrite ?(Z.mod_small _ 256) by (unfold is_byte in *; lia); try done.

(** The network byte order functions are inverse to each other: reading back a
    stored 16-, 32- or 64-bit integer gives that integer, and storing an integer
    that was read from octets gives those octets. *)
Lemma wire_roundtrip :
  (∀ v rest, 0 ≤ v < 2 ^ 16 → get_uint16 (put_uint16 v ++ rest) = Done v)
  ∧ (∀ v rest, 0 ≤ v < 2 ^ 32 → get_uint32 (put_uint32 v ++ rest) = Done v)
  ∧ (∀ v rest, 0 ≤ v < 2 ^ 64 → get_uint64 (put_uint64 v ++ rest) = Done v)
  ∧ (∀ bs, bytes_ok bs → length bs = 2%nat → ∃ v, get_uint16 bs = Done v ∧ put_uint16 v = bs)
  ∧ (∀ bs, bytes_ok bs → length bs = 4%nat → ∃ v, get_uint32 bs = Done v ∧ put_uint32 v = bs)
  ∧ (∀ bs, bytes_ok bs → length bs = 8%nat → ∃ v, get_uint64 bs = Done v ∧ put_uint64 v = bs).
Proof.
  split_and!; [apply get_put_uint16|apply get_put_uint32|apply get_put_uint64|..]; intros bs Hb Hl.
  - destruct bs as [|b0 [|b1 [|]]]; try done. pose proof Hb as Hb'.
    repeat (apply Forall_cons in Hb as [? Hb]). eexists. split; [by apply get_uint16_eq|].
    unfold put_uint16. digits_back.
  - destruct bs as [|b0 [|b1 [|b2 [|b3 [|]]]]]; try done. pose proof Hb as Hb'.
    repeat (apply Forall_cons in Hb as [? Hb]). eexists. split; [by apply get_uint32_eq|].
    unfold put_uint32. digits_back.
  - destruct bs as [|b0 [|b1 [|b2 [|b3 [|b4 [|b5 [|b6 [|b7 [|]]]]]]]]]; try done. pose proof Hb as Hb'.
    repeat (apply Forall_cons in Hb as [? Hb]). eexists. split; [by apply get_uint64_eq|].
    unfold put_uint64. digits_back.
Qed.

Lemma wire_roundtrip_witness : get_uint64 (put_uint64 258 ++ [7]) = Done 258.
Proof. apply (proj1 (proj2 (proj2 wire_roundtrip)) 258 [7]). lia. Defined.
