(* ===== verification/Encoder.v ===== *)
(** Encoders: the batching loop of src/protocol/encoder.hpp and its three users,
    src/protocol/v2_encoder.cpp, v3_1_encoder.cpp and raw_encoder.cpp.

    The codec sees of a message its flags and its bytes ([wmsg]).  The bytes still
    to be written from [m_write_pos] are a list, since neither the header buffer
    nor the message changes while they are pending.  [Encoder] is the interface of
    the derived class in [encoder_base_t<T>]: its steps, and the law that a message
    is written as its frame.  The theorem about [encode] is proved against the
    interface. *)
From S2P Require Import Prelude Msg Wire.

(** ** Messages as the codec sees them *)

Record wmsg := WMsg { wm_flags : Z; wm_data : list Z }.

#[export] Instance wmsg_eq_dec : EqDecision wmsg.
Proof. solve_decision. Defined.

Definition wm_size (m : wmsg) : Z := Z.of_nat (length (wm_data m)).
Definition wm_has (m : wmsg) (f : Z) : bool := bool_decide (Z.land (wm_flags m) f ≠ 0).
Definition wm_is_subscribe (m : wmsg) : bool := bool_decide (Z.land (wm_flags m) CMD_TYPE_MASK = msg_subscribe).
Definition wm_is_cancel (m : wmsg) : bool := bool_decide (Z.land (wm_flags m) CMD_TYPE_MASK = msg_cancel).

Definition more_flag : Z := 1.
Definition large_flag : Z := 2.
Definition command_flag : Z := 4.
Definition UCHAR_MAX : Z := 255.

(** The command names, with their length octet. *)
Definition sub_cmd_name : list Z := [9; 83; 85; 66; 83; 67; 82; 73; 66; 69].
Definition cancel_cmd_name : list Z := [6; 67; 65; 78; 67; 69; 76].

(** ** The state machines *)

(** [&T::message_ready] and [&T::size_ready]. *)
Inductive enc_step := EMessageReady | ESizeReady.

(** A step calls [next_step (write_pos, to_write, next, new_msg_flag)]. *)
Definition enc_next : Type := list Z * enc_step * bool.

(** The length octets. *)
Definition enc_length (size : Z) : list Z :=
  if decide (size > UCHAR_MAX) then put_uint64 size else [u8 size].

Definition v2_message_ready (m : wmsg) : enc_next :=
  let size := wm_size m in
  let flags := if wm_has m msg_more then more_flag else 0 in
  let flags := if decide (wm_size m > UCHAR_MAX) then Z.lor flags large_flag else flags in
  let flags := if wm_has m msg_command then Z.lor flags command_flag else flags in
  let size := if wm_is_subscribe m || wm_is_cancel m then size + 1 else size in
  let cmd := if wm_is_subscribe m then [1] else if wm_is_cancel m then [0] else [] in
  (flags :: enc_length size ++ cmd, ESizeReady, false).

Definition v3_1_message_ready (m : wmsg) : enc_next :=
  let size := wm_size m in
  let flags := if wm_has m msg_more then more_flag else 0 in
  let '(flags, size) :=
    if wm_has m msg_command || wm_is_subscribe m || wm_is_cancel m then
      (Z.lor flags command_flag,
       if wm_is_subscribe m then size + sub_cmd_name_size
       else if wm_is_cancel m then size + cancel_cmd_name_size else size)
    else (flags, size) in
  let flags := if decide (size > UCHAR_MAX) then Z.lor flags large_flag else flags in
  let cmd := if wm_is_subscribe m then sub_cmd_name
             else if wm_is_cancel m then cancel_cmd_name else [] in
  (flags :: enc_length size ++ cmd, ESizeReady, false).

Definition size_ready (m : wmsg) : enc_next := (wm_data m, EMessageReady, true).

Definition raw_message_ready (m : wmsg) : enc_next := (wm_data m, EMessageReady, true).

(** ** The interface of the derived classes *)

Class Encoder (E : Type) := {
  enc_run : enc_step → wmsg → enc_next;
  enc_frame : wmsg → list Z;
  (** A message is written in one or two steps, which together are its frame. *)
  enc_law : ∀ m, enc_run EMessageReady m = (enc_frame m, EMessageReady, true)
    ∨ ∃ hd body, enc_run EMessageReady m = (hd, ESizeReady, false)
        ∧ enc_run ESizeReady m = (body, EMessageReady, true) ∧ enc_frame m = hd ++ body;
}.

Inductive v2_encoder_t := V2Encoder.
Inductive v3_1_encoder_t := V31Encoder.
Inductive raw_encoder_t := RawEncoder.

Definition v2_frame (m : wmsg) : list Z := (v2_message_ready m).1.1 ++ wm_data m.
Definition v3_1_frame (m : wmsg) : list Z := (v3_1_message_ready m).1.1 ++ wm_data m.

#[export] Instance v2_encoder : Encoder v2_encoder_t.
Proof.
  refine {| enc_run s m := match s with EMessageReady => v2_message_ready m | ESizeReady => size_ready m end;
            enc_frame := v2_frame |}.
  intros m. right. by eexists _, _.
Defined.

#[export] Instance v3_1_encoder : Encoder v3_1_encoder_t.
Proof.
  refine {| enc_run s m := match s with EMessageReady => v3_1_message_ready m | ESizeReady => size_ready m end;
            enc_frame := v3_1_frame |}.
  intros m. right. eexists _, _. split; [|done].
  unfold v3_1_frame, v3_1_message_ready. by destruct (wm_has m msg_command || _ || _).
Defined.

#[export] Instance raw_encoder : Encoder raw_encoder_t.
Proof.
  refine {| enc_run _ m := raw_message_ready m; enc_frame := wm_data |}. intros m. by left.
Defined.

Section encoder.
Context (E : Type) `{!Encoder E}.

(** ** encoder_base_t *)

Record encoder_t := EncoderSt {
  en_write : list Z;             (* the [m_to_write] bytes at [m_write_pos] *)
  en_next : enc_step;
  en_new_msg : bool;
  en_buf_size : Z;
  en_in_progress : option wmsg;
}.

Definition encoder_new (bufsize : Z) : encoder_t := EncoderSt [] EMessageReady true bufsize None.

Definition encoder_is_empty (e : encoder_t) : bool := bool_decide (en_in_progress e = None).

(** [(this->*m_next) ()] for the message in progress. *)
Definition encoder_step (e : encoder_t) (m : wmsg) : encoder_t :=
  let '(bs, next, new_msg) := enc_run (en_next e) m in
  EncoderSt bs next new_msg (en_buf_size e) (en_in_progress e).

Definition load_msg (e : encoder_t) (m : wmsg) : outcome encoder_t :=
  assert! bool_decide (en_in_progress e = None);;
  Done (encoder_step (EncoderSt (en_write e) (en_next e) (en_new_msg e) (en_buf_size e) (Some m)) m).

(** The loop of [encode]: [own] when no buffer was supplied, [out] the bytes of
    the buffer so far.  A message takes at most three turns. *)
Fixpoint encode_loop (fuel : nat) (own : bool) (buffersize : Z) (out : list Z) (e : encoder_t)
    : outcome (list Z * encoder_t) :=
  match fuel with
  | O => Undef
  | S fuel =>
      if decide (Z.of_nat (length out) < buffersize) then
        match en_in_progress e with
        | None => Undef
        | Some m =>
            if decide (en_write e = [] ∧ en_new_msg e = true) then
              (* close, init: the caller's message is empty again *)
              Done (out, EncoderSt [] (en_next e) (en_new_msg e) (en_buf_size e) None)
            else
              let e := if decide (en_write e = []) then encoder_step e m else e in
              if decide (out = [] ∧ own = true ∧ buffersize ≤ Z.of_nat (length (en_write e))) then
                Done (en_write e, EncoderSt [] (en_next e) (en_new_msg e) (en_buf_size e) (en_in_progress e))
              else
                let to_copy := Z.to_nat (Z.min (Z.of_nat (length (en_write e))) (buffersize - Z.of_nat (length out))) in
                encode_loop fuel own buffersize (out ++ take to_copy (en_write e))
                  (EncoderSt (drop to_copy (en_write e)) (en_next e) (en_new_msg e) (en_buf_size e) (en_in_progress e))
        end
      else Done (out, e)
  end.

Definition encode_fuel : nat := 4.

(** [encode (data, size)]: [buffer] is the size of the supplied buffer, if any. *)
Definition encode (e : encoder_t) (buffer : option Z) : outcome (list Z * encoder_t) :=
  match en_in_progress e with
  | None => Done ([], e)
  | Some _ =>
      encode_loop encode_fuel (bool_decide (buffer = None)) (default (en_buf_size e) buffer) [] e
  end.

(** ** Correctness *)

(** What is still to be written of the message in progress. *)
Definition remaining (e : encoder_t) : list Z :=
  en_write e ++
  match en_in_progress e with
  | Some m => if en_new_msg e then [] else (enc_run (en_next e) m).1.1
  | None => []
  end.

(** The encoder is idle, or between two steps of a message. *)
Definition encoder_wf (e : encoder_t) : Prop :=
  match en_in_progress e with
  | None => en_write e = [] ∧ en_next e = EMessageReady ∧ en_new_msg e = true
  | Some m =>
      if en_new_msg e then en_next e = EMessageReady
      else ∃ body, enc_run (en_next e) m = (body, EMessageReady, true)
  end.

(** Turns the loop needs before it returns. *)
Definition enc_turns (e : encoder_t) : nat :=
  (if en_new_msg e then 1 else 2) + (if decide (en_write e = []) then 0 else 1).

(** Running the next step when nothing is pending. *)
Lemma encoder_step_spec e m :
  encoder_wf e → en_in_progress e = Some m → ¬ (en_write e = [] ∧ en_new_msg e = true) →
  let e1 := if decide (en_write e = []) then encoder_step e m else e in
  encoder_wf e1 ∧ en_in_progress e1 = Some m ∧ remaining e1 = remaining e
  ∧ en_buf_size e1 = en_buf_size e ∧ ((if en_new_msg e1 then 1 else 2) < enc_turns e)%nat.
Proof.
  intros Hwf Hip Hnd e1. subst e1. unfold enc_turns.
  destruct (decide (en_write e = [])) as [Hw|Hw].
  - assert (Hn : en_new_msg e = false) by (destruct (en_new_msg e); [by destruct Hnd|done]).
    unfold encoder_wf in Hwf. rewrite Hip, Hn in Hwf. destruct Hwf as [body Hrun].
    unfold encoder_step, remaining, encoder_wf. rewrite Hrun. simpl. rewrite Hip, Hw, Hn, Hrun. simpl.
    rewrite app_nil_r. split_and!; [done..|lia].
  - split_and!; [done..|]. destruct (en_new_msg e); lia.
Qed.

(** Writing [n] of the pending bytes. *)
Lemma encoder_drop_spec e m n :
  encoder_wf e → en_in_progress e = Some m →
  let e2 := EncoderSt (drop n (en_write e)) (en_next e) (en_new_msg e) (en_buf_size e) (en_in_progress e) in
  encoder_wf e2 ∧ remaining e = take n (en_write e) ++ remaining e2.
Proof.
  intros Hwf Hip e2. subst e2. unfold encoder_wf, remaining in *. simpl. rewrite Hip in *.
  split; [done|]. by rewrite app_assoc, take_drop.
Qed.

(** The loop writes a prefix of what remains, and fills the buffer or finishes the
    message. *)
Lemma encode_loop_spec fuel own bs out e m :
  encoder_wf e → en_in_progress e = Some m →
  bs ≤ Z.of_nat (length out) ∨ (enc_turns e ≤ fuel)%nat → (0 < fuel)%nat → 0 < bs →
  ∃ out' e', encode_loop fuel own bs out e = Done (out ++ out', e') ∧ encoder_wf e'
    ∧ en_buf_size e' = en_buf_size e
    ∧ remaining e = out' ++ remaining e'
    ∧ (en_in_progress e' = Some m ∧ (out' ≠ [] ∨ bs ≤ Z.of_nat (length out))
       ∨ en_in_progress e' = None).
Proof.
  revert out e. induction fuel as [|fuel IH]; intros out e Hwf Hip Hf Hf0 Hbs; [lia|].
  cbn [encode_loop]. destruct (decide (Z.of_nat (length out) < bs)) as [Hlt|Hge]; last first.
  { exists [], e. rewrite app_nil_r. split_and!; [done..|]. left. split; [done|]. right. lia. }
  destruct Hf as [Hf|Hf]; [lia|]. rewrite Hip.
  destruct (decide (en_write e = [] ∧ en_new_msg e = true)) as [[Hw Hn]|Hnd].
  { eexists [], _. rewrite app_nil_r. split; [done|]. unfold encoder_wf in *. rewrite Hip, Hn in Hwf.
    unfold remaining. rewrite Hip, Hw, Hn. simpl. split_and!; [done..|]. by right. }
  destruct (encoder_step_spec e m Hwf Hip Hnd) as (Hwf1 & Hip1 & Hrem1 & Hbs1 & Hturn).
  set (e1 := if decide (en_write e = []) then encoder_step e m else e) in *.
  destruct (decide (out = [] ∧ own = true ∧ bs ≤ Z.of_nat (length (en_write e1)))) as [(-> & _ & Hz)|Hnz].
  { destruct (encoder_drop_spec e1 m (length (en_write e1)) Hwf1 Hip1) as [Hwf2 Hrem2].
    rewrite drop_all, firstn_all in *. eexists (en_write e1), _. split; [done|].
    split; [done|]. split; [done|]. split; [congruence|]. left. split; [done|]. left.
    intros Hnil. rewrite Hnil in Hz. simpl in Hz. lia. }
  set (n := Z.to_nat _).
  assert (Hfuel : (0 < fuel)%nat) by (destruct (en_new_msg e1); lia).
  destruct (encoder_drop_spec e1 m n Hwf1 Hip1) as [Hwf2 Hrem2].
  set (e2 := EncoderSt _ _ _ _ _) in *.
  destruct (IH (out ++ take n (en_write e1)) e2) as (out' & e' & Hrun & Hwf' & Hbs' & Hrem' & Hcase); [done|done| |done|done|].
  { destruct (decide (length (en_write e1) ≤ n)%nat) as [Hn|Hn].
    - right. unfold enc_turns. simpl. rewrite drop_ge by done. rewrite decide_True by done. lia.
    - left. rewrite length_app, length_take. lia. }
  rewrite Hrun. eexists (take n (en_write e1) ++ out'), e'. rewrite app_assoc. split; [done|].
  split; [done|]. split; [exact (eq_trans Hbs' Hbs1)|]. split; [by rewrite <- Hrem1, Hrem2, Hrem', app_assoc|].
  destruct Hcase as [[Hip' Hp]|?]; [|by right]. left. split; [done|].
  destruct (take n (en_write e1)) as [|x l] eqn:Ht; [|by left]. simpl. rewrite app_nil_r in Hp. done.
Qed.

Lemma encode_spec e buffer :
  encoder_wf e → 0 < default (en_buf_size e) buffer →
  ∃ out e', encode e buffer = Done (out, e') ∧ encoder_wf e' ∧ en_buf_size e' = en_buf_size e
    ∧ remaining e = out ++ remaining e'
    ∧ (en_in_progress e' = en_in_progress e ∧ (out ≠ [] ∨ en_in_progress e = None)
       ∨ en_in_progress e' = None).
Proof.
  intros Hwf Hbs. unfold encode. destruct (en_in_progress e) as [m|] eqn:Hip; last first.
  { exists [], e. split_and!; [done..|]. left. split; [done|by right]. }
  destruct (encode_loop_spec encode_fuel (bool_decide (buffer = None)) (default (en_buf_size e) buffer) [] e m)
    as (out & e' & Hrun & Hwf' & Hb' & Hrem & Hcase); [done|done| |unfold encode_fuel; lia|done|].
  { right. unfold enc_turns, encode_fuel. destruct (en_new_msg e), (decide _); lia. }
  exists out, e'. split; [done|]. split; [done|]. split; [done|]. split; [done|].
  destruct Hcase as [[? [?|Hle]]|?]; [left; split; [done|by left]| |by right].
  change (Z.of_nat (length [])) with 0 in Hle. lia.
Qed.

(** Successive calls of [encode]. *)
Fixpoint encode_calls (e : encoder_t) (buffers : list (option Z)) : outcome (list Z * encoder_t) :=
  match buffers with
  | [] => Done ([], e)
  | b :: buffers =>
      '(out, e) ← encode e b;
      '(outs, e) ← encode_calls e buffers;
      Done (out ++ outs, e)
  end.

Definition buffer_ok (bufsize : Z) (b : option Z) : Prop := 0 < default bufsize b.

Lemma remaining_idle e : encoder_wf e → en_in_progress e = None → remaining e = [].
Proof. unfold encoder_wf, remaining. intros Hwf Hip. rewrite Hip in *. by destruct Hwf as (-> & _). Qed.

Lemma encode_calls_idle buffers e :
  en_in_progress e = None → encode_calls e buffers = Done ([], e).
Proof.
  intros Hip. induction buffers as [|b buffers IH]; simpl; [done|].
  unfold encode at 1. rewrite Hip, bind_Done, IH. done.
Qed.

Lemma encode_calls_spec buffers e :
  encoder_wf e → Forall (buffer_ok (en_buf_size e)) buffers →
  ∃ out e', encode_calls e buffers = Done (out, e') ∧ encoder_wf e' ∧ en_buf_size e' = en_buf_size e
    ∧ remaining e = out ++ remaining e'
    ∧ (en_in_progress e' = None ∨ (length buffers ≤ length out)%nat).
Proof.
  revert e. induction buffers as [|b buffers IH]; intros e Hwf Hb; simpl.
  { exists [], e. split_and!; [done..|]. right. simpl. lia. }
  apply Forall_cons in Hb as [Hb Hbs].
  destruct (encode_spec e b Hwf Hb) as (out & e1 & -> & Hwf1 & Hb1 & Hrem1 & Hcase). rewrite bind_Done.
  destruct (en_in_progress e1) as [m1|] eqn:Hip1; last first.
  { rewrite (encode_calls_idle buffers e1 Hip1), bind_Done. exists out, e1. rewrite app_nil_r.
    split_and!; [done..|]. by left. }
  destruct (IH e1) as (outs & e2 & -> & Hwf2 & Hb2 & Hrem2 & Hcase2); [done|by rewrite Hb1|].
  rewrite bind_Done. exists (out ++ outs), e2. split; [done|]. split; [done|]. split; [congruence|].
  split; [by rewrite Hrem1, Hrem2, app_assoc|].
  destruct Hcase2 as [?|Hlen]; [by left|]. destruct Hcase as [[Hip [Hne|Hnone]]|Hnone]; [|congruence..].
  right. rewrite length_app. destruct out; [done|]. simpl. lia.
Qed.

Lemma load_msg_spec e m :
  encoder_wf e → en_in_progress e = None →
  ∃ e', load_msg e m = Done e' ∧ encoder_wf e' ∧ en_in_progress e' = Some m
    ∧ en_buf_size e' = en_buf_size e ∧ remaining e' = enc_frame m.
Proof.
  intros Hwf Hip. unfold load_msg. assert_ok by done. eexists. split; [done|].
  unfold encoder_wf in Hwf. rewrite Hip in Hwf. destruct Hwf as (_ & Hn & _).
  unfold encoder_step, encoder_wf, remaining. simpl. rewrite Hn.
  destruct (enc_law m) as [->|(hd & body & -> & Hb & ->)]; simpl; rewrite ?app_nil_r; [done|].
  rewrite Hb. split_and!; [by eexists|done..].
Qed.

End encoder.

Arguments encode_calls {E _} _ _.
Arguments load_msg {E _} _ _.

(** A message loaded into an encoder is written as its frame whatever buffers
    [encode] is called with: the bytes of any number of calls, with supplied or own
    buffers of any positive sizes, are a prefix of the frame; when the encoder
    reports it is empty they are the whole frame; and it is empty after one more
    call than the frame has bytes.  This holds for every derived encoder. *)
Lemma encode_message {E} `{!Encoder E} bufsize m buffers :
  0 < bufsize → Forall (buffer_ok bufsize) buffers →
  ∃ e out rest e', load_msg (E:=E) (encoder_new bufsize) m = Done e
    ∧ encode_calls (E:=E) e buffers = Done (out, e')
    ∧ enc_frame (E:=E) m = out ++ rest
    ∧ (encoder_is_empty e' = true → rest = [])
    ∧ ((length (enc_frame (E:=E) m) < length buffers)%nat → encoder_is_empty e' = true).
Proof.
  intros Hbs Hb. destruct (load_msg_spec E (encoder_new bufsize) m) as (e & Hl & Hwf & Hip & Hsz & Hrem); [done|done|].
  destruct (encode_calls_spec E buffers e) as (out & e' & Hc & Hwf' & _ & Hrem' & Hcase); [done|by rewrite Hsz|].
  exists e, out, (remaining E e'), e'. split; [done|]. split; [done|]. split; [congruence|]. split.
  - intros Hemp%bool_decide_eq_true. by apply remaining_idle.
  - intros Hlen. destruct Hcase as [Hn|Hle]; [by apply bool_decide_eq_true_2|].
    rewrite <- Hrem, Hrem', length_app in Hlen. lia.
Qed.

Lemma encode_message_witness :
  ∃ e out e', load_msg (E:=v3_1_encoder_t) (encoder_new 4) (WMsg 1 [10; 20; 30]) = Done e
    ∧ encode_calls (E:=v3_1_encoder_t) e [None; Some 2; None; None; None; None] = Done (out, e')
    ∧ out = [1; 3; 10; 20; 30].
Proof.
  destruct (encode_message (E:=v3_1_encoder_t) 4 (WMsg 1 [10; 20; 30]) [None; Some 2; None; None; None; None])
    as (e & out & rest & e' & H1 & H2 & H3 & H4 & H5); [lia|repeat constructor|].
  exists e, out, e'. split; [exact H1|]. split; [exact H2|].
  assert (rest = []) as -> by (apply H4, H5; vm_compute; lia). rewrite app_nil_r in H3. by rewrite <- H3.
Defined.
