(* ===== verification/Decoder.v ===== *)
(** The decoder: the loop of src/protocol/decoder.hpp with the state machine of
    src/protocol/v2_decoder.cpp.

    The bytes stored so far from [m_read_pos] on are a list.  A chunk given to
    [decode] is its bytes and [room], the bytes from its start to the end of the
    receive buffer, which decides whether a message may use the buffer as storage.
    A message in the buffer's memory and one in memory of its own have the same
    bytes; what differs is the allocation, and the content slot the first one uses
    up ([de_contents]).

    [dec_byte] is the reference: the state machine fed one byte at a time. *)
From S2P Require Import Prelude Msg Wire Encoder.

(** ** State *)

Inductive dec_step := DFlagsReady | DOneByteSizeReady | DEightByteSizeReady | DMessageReady.

#[export] Instance dec_step_eq_dec : EqDecision dec_step.
Proof. solve_decision. Defined.

Record v2_decoder_t := V2Decoder {
  de_stored : list Z;        (* the bytes at the read position *)
  de_to_read : Z;
  de_next : dec_step;
  de_msg_flags : Z;
  de_in_progress : wmsg;
  de_contents : Z;           (* content slots of the buffer in use *)
}.

(** The decoder's parameters: [m_zero_copy], [m_max_msg_size], and whether
    [malloc] finds the memory of a message. *)
Record dec_cfg := DecCfg {
  dc_zero_copy : bool;
  dc_max_msg_size : Z;
  dc_malloc : Z → bool;        (* whether the content of a message, header included, can be had *)
}.

(** The result of a step: go on, a message is ready, or an error. *)
Inductive dec_rc := DGoOn | DMsg | DErr (e : errno_t).

Definition v2_decoder_new : v2_decoder_t := V2Decoder [] 1 DFlagsReady 0 (WMsg 0 []) 0.

Definition dec_next_step (d : v2_decoder_t) (to_read : Z) (next : dec_step) : v2_decoder_t :=
  V2Decoder [] to_read next (de_msg_flags d) (de_in_progress d) (de_contents d).

(** ** Steps *)

Definition dec_flags_ready (d : v2_decoder_t) : outcome (dec_rc * v2_decoder_t) :=
  b ← geti (de_stored d) 0;
  let flags := if decide (Z.land b more_flag ≠ 0) then msg_more else 0 in
  let flags := if decide (Z.land b command_flag ≠ 0) then Z.lor flags msg_command else flags in
  let d := V2Decoder (de_stored d) (de_to_read d) (de_next d) flags (de_in_progress d) (de_contents d) in
  if decide (Z.land b large_flag ≠ 0) then Done (DGoOn, dec_next_step d 8 DEightByteSizeReady)
  else Done (DGoOn, dec_next_step d 1 DOneByteSizeReady).

(** [size_ready (msg_size, read_pos)]; [room] is the distance from the read
    position to the end of the buffer.  [m_in_progress] is a valid message at all times, so that
    closing it succeeds: the constructor, every message and every error leave an initialised one.
    [msg_t::init_size] refuses a size to which the header cannot be added without wrap-around as if
    there were no memory: [dc_malloc] is asked with the sum that is not reduced. *)
Definition dec_size_ready (cfg : dec_cfg) (room : Z) (msg_size : Z) (d : v2_decoder_t)
    : outcome (dec_rc * v2_decoder_t) :=
  if decide (0 ≤ dc_max_msg_size cfg ∧ msg_size > dc_max_msg_size cfg) then Done (DErr EMSGSIZE, d)
  else if decide (msg_size ≠ u64 msg_size) then Done (DErr EMSGSIZE, d)
  else
    let own := negb (dc_zero_copy cfg) || bool_decide (msg_size > room) in
    let failed := own && negb ((msg_size <=? max_vsm_size) || dc_malloc cfg (sizeof_content + msg_size)) in
    let contents := if negb own && negb (msg_size <? max_vsm_size) then de_contents d + 1 else de_contents d in
    if failed then
      Done (DErr ENOMEM, V2Decoder (de_stored d) (de_to_read d) (de_next d) (de_msg_flags d) (WMsg 0 []) contents)
    else
      let m := WMsg (Z.lor 0 (de_msg_flags d)) [] in
      Done (DGoOn, V2Decoder [] msg_size DMessageReady (de_msg_flags d) m contents).

Definition dec_one_byte_size_ready (cfg : dec_cfg) (room : Z) (d : v2_decoder_t) : outcome (dec_rc * v2_decoder_t) :=
  b ← geti (de_stored d) 0; dec_size_ready cfg room b d.

Definition dec_eight_byte_size_ready (cfg : dec_cfg) (room : Z) (d : v2_decoder_t) : outcome (dec_rc * v2_decoder_t) :=
  n ← get_uint64 (de_stored d); dec_size_ready cfg room n d.

(** The message has all its bytes. *)
Definition dec_message_ready (d : v2_decoder_t) : outcome (dec_rc * v2_decoder_t) :=
  let m := WMsg (wm_flags (de_in_progress d)) (de_stored d) in
  let d := V2Decoder (de_stored d) (de_to_read d) (de_next d) (de_msg_flags d) m (de_contents d) in
  Done (DMsg, dec_next_step d 1 DFlagsReady).

Definition dec_run (cfg : dec_cfg) (room : Z) (d : v2_decoder_t) : outcome (dec_rc * v2_decoder_t) :=
  match de_next d with
  | DFlagsReady => dec_flags_ready d
  | DOneByteSizeReady => dec_one_byte_size_ready cfg room d
  | DEightByteSizeReady => dec_eight_byte_size_ready cfg room d
  | DMessageReady => dec_message_ready d
  end.

(** ** The loops of decoder_base_t *)

(** [while (m_to_read == 0) { rc = (this->*m_next) (...); if (rc != 0) return rc; }]
    A step that goes on either wants bytes or is the size of an empty message, so
    three turns are enough. *)
Fixpoint dec_steps (fuel : nat) (cfg : dec_cfg) (room : Z) (d : v2_decoder_t)
    : outcome (dec_rc * v2_decoder_t) :=
  match fuel with
  | O => Undef
  | S fuel =>
      if decide (de_to_read d = 0) then
        '(rc, d) ← dec_run cfg room d;
        match rc with
        | DGoOn => dec_steps fuel cfg room d
        | _ => Done (rc, d)
        end
      else Done (DGoOn, d)
  end.

Definition steps_fuel : nat := 4.

(** Store bytes at the read position. *)
Definition dec_store (d : v2_decoder_t) (bs : list Z) : v2_decoder_t :=
  V2Decoder (de_stored d ++ bs) (de_to_read d - Z.of_nat (length bs)) (de_next d) (de_msg_flags d)
    (de_in_progress d) (de_contents d).

(** [while (bytes_used < size) ...] over the bytes [data] not yet used. *)
Fixpoint decode_loop (fuel : nat) (cfg : dec_cfg) (room : Z) (used : Z) (data : list Z) (d : v2_decoder_t)
    : outcome (dec_rc * Z * v2_decoder_t) :=
  match fuel with
  | O => Undef
  | S fuel =>
      match data with
      | [] => Done (DGoOn, used, d)
      | _ =>
          let to_copy := Z.to_nat (Z.min (de_to_read d) (Z.of_nat (length data))) in
          let d := dec_store d (take to_copy data) in
          let used := used + Z.of_nat (length (take to_copy data)) in
          '(rc, d) ← dec_steps steps_fuel cfg (room - used) d;
          match rc with
          | DGoOn => decode_loop fuel cfg room used (drop to_copy data) d
          | _ => Done (rc, used, d)
          end
      end
  end.

(** [decode (data, size, bytes_used)]; [direct] when [data] is the read position
    itself, which [get_buffer] hands out for a large message. *)
Definition decode (cfg : dec_cfg) (direct : bool) (room : Z) (data : list Z) (d : v2_decoder_t)
    : outcome (dec_rc * Z * v2_decoder_t) :=
  if direct then
    assert! bool_decide (Z.of_nat (length data) ≤ de_to_read d);;
    let d := dec_store d data in
    let used := Z.of_nat (length data) in
    '(rc, d) ← dec_steps steps_fuel cfg (room - used) d;
    Done (rc, used, d)
  else decode_loop (S (length data)) cfg room 0 data d.

(** The caller's loop (stream_engine_base_t::handle_read): decode the bytes of one
    read, handing over each message. *)
Fixpoint feed (fuel : nat) (cfg : dec_cfg) (direct : bool) (room : Z) (data : list Z) (d : v2_decoder_t)
    : outcome (list wmsg * option errno_t * v2_decoder_t) :=
  match fuel with
  | O => Undef
  | S fuel =>
      match data with
      | [] => Done ([], None, d)
      | _ =>
          '(rc, used, d) ← decode cfg direct room data d;
          assert! bool_decide (used ≤ Z.of_nat (length data));;
          match rc with
          | DGoOn => Done ([], None, d)
          | DErr e => Done ([], Some e, d)
          | DMsg =>
              let m := de_in_progress d in
              '(ms, e, d) ← feed fuel cfg false (room - used) (drop (Z.to_nat used) data) d;
              Done (m :: ms, e, d)
          end
      end
  end.

Definition feed_chunk (cfg : dec_cfg) (direct : bool) (room : Z) (data : list Z) (d : v2_decoder_t) :=
  feed (S (length data)) cfg direct room data d.

(** [get_buffer]: a new buffer of [bufsize] bytes, or the rest of a large message's
    own memory; and how many bytes may be read into it. *)
Definition dec_get_buffer (bufsize : Z) (d : v2_decoder_t) : bool * Z * v2_decoder_t :=
  let d' := V2Decoder (de_stored d) (de_to_read d) (de_next d) (de_msg_flags d) (de_in_progress d) 0 in
  if decide (bufsize ≤ de_to_read d) then (true, de_to_read d, d') else (false, bufsize, d').

(** Successive reads of a stream: the [k]-th gets at most as many bytes as
    [sizes] says and the buffer holds.  The result is the messages, the error if
    any, the decoder and the rest of the stream. *)
Fixpoint read_stream (cfg : dec_cfg) (bufsize : Z) (sizes : list nat) (stream : list Z) (d : v2_decoder_t)
    : outcome (list wmsg * option errno_t * v2_decoder_t * list Z) :=
  match sizes with
  | [] => Done ([], None, d, stream)
  | n :: sizes =>
      let '(direct, limit, d) := dec_get_buffer bufsize d in
      let k := Nat.min n (Z.to_nat limit) in
      '(ms, e, d) ← feed_chunk cfg direct bufsize (take k stream) d;
      match e with
      | Some _ => Done (ms, e, d, drop k stream)
      | None =>
          '(ms', e, d, rest) ← read_stream cfg bufsize sizes (drop k stream) d;
          Done (ms ++ ms', e, d, rest)
      end
  end.

(** ** The reference: one byte at a time, every message in memory of its own *)

Definition ref_cfg (cfg : dec_cfg) : dec_cfg := DecCfg false (dc_max_msg_size cfg) (dc_malloc cfg).

Fixpoint ref_bytes (cfg : dec_cfg) (bs : list Z) (d : v2_decoder_t)
    : outcome (list wmsg * option errno_t * v2_decoder_t) :=
  match bs with
  | [] => Done ([], None, d)
  | b :: bs =>
      '(rc, d) ← dec_steps steps_fuel (ref_cfg cfg) 0 (dec_store d [b]);
      match rc with
      | DGoOn => ref_bytes cfg bs d
      | DErr e => Done ([], Some e, d)
      | DMsg => '(ms, e, d') ← ref_bytes cfg bs d; Done (de_in_progress d :: ms, e, d')
      end
  end.

(** The decoder but for the content slots. *)
Definition erase (d : v2_decoder_t) : v2_decoder_t :=
  V2Decoder (de_stored d) (de_to_read d) (de_next d) (de_msg_flags d) (de_in_progress d) 0.

Lemma erase_store d bs : erase (dec_store d bs) = dec_store (erase d) bs.
Proof. done. Qed.

Definition erase_res (r : dec_rc * v2_decoder_t) : dec_rc * v2_decoder_t := (r.1, erase r.2).

Section refinement.
Context (cfg : dec_cfg) (Hmalloc : ∀ n, dc_malloc cfg n = true).

Lemma dec_size_ready_erase room n d :
  dec_size_ready (ref_cfg cfg) 0 n (erase d) = erase_res <$> dec_size_ready cfg room n d.
Proof.
  unfold dec_size_ready. simpl. destruct (decide (0 ≤ dc_max_msg_size cfg ∧ n > dc_max_msg_size cfg)); [done|].
  destruct (decide (n ≠ u64 n)); [done|].
  rewrite Hmalloc, !orb_true_r, !andb_false_r. done.
Qed.

Lemma dec_run_erase room d :
  dec_run (ref_cfg cfg) 0 (erase d) = erase_res <$> dec_run cfg room d.
Proof.
  unfold dec_run. destruct d as [st tr nx fl ip ct]. destruct nx; simpl.
  - unfold dec_flags_ready. simpl. destruct (geti st 0); simpl; [|done|done]. by zcases.
  - unfold dec_one_byte_size_ready. simpl. destruct (geti st 0) as [b| |]; simpl; [|done|done].
    apply (dec_size_ready_erase room b (V2Decoder st tr DOneByteSizeReady fl ip ct)).
  - unfold dec_eight_byte_size_ready. simpl. destruct (get_uint64 st) as [n| |]; simpl; [|done|done].
    apply (dec_size_ready_erase room n (V2Decoder st tr DEightByteSizeReady fl ip ct)).
  - done.
Qed.

Lemma dec_steps_erase fuel room d :
  dec_steps fuel (ref_cfg cfg) 0 (erase d) = erase_res <$> dec_steps fuel cfg room d.
Proof.
  revert d. induction fuel as [|fuel IH]; intros d; simpl; [done|].
  destruct (decide (de_to_read d = 0)); [|done].
  rewrite (dec_run_erase room). destruct (dec_run cfg room d) as [[[] d1]| |]; simpl; done.
Qed.

(** The bytes expected at each point, and that they are octets. *)
Definition dec_wf (d : v2_decoder_t) : Prop :=
  bytes_ok (de_stored d) ∧ 0 < de_to_read d ∧
  match de_next d with
  | DFlagsReady | DOneByteSizeReady => de_stored d = [] ∧ de_to_read d = 1
  | DEightByteSizeReady => Z.of_nat (length (de_stored d)) + de_to_read d = 8
  | DMessageReady => True
  end.

Lemma get_uint64_bytes bs : bytes_ok bs → length bs = 8%nat → ∃ n, get_uint64 bs = Done n ∧ 0 ≤ n < 2 ^ 64.
Proof.
  intros Hb Hl. destruct bs as [|b0 [|b1 [|b2 [|b3 [|b4 [|b5 [|b6 [|b7 [|]]]]]]]]]; try done.
  rewrite get_uint64_eq by done. eexists. split; [done|]. 
  repeat (apply Forall_cons in Hb as [? Hb]). unfold is_byte in *. lia.
Qed.

(** A decoder that has the bytes it wanted takes its steps and wants more, has a
    message, or fails. *)
Lemma dec_size_ready_spec room n d :
  0 ≤ n < 2 ^ 64 →
  ∃ rc d', dec_size_ready cfg room n d = Done (rc, d')
    ∧ match rc with
      | DGoOn => de_next d' = DMessageReady ∧ de_stored d' = [] ∧ de_to_read d' = n
      | DMsg => False
      | DErr _ => True
      end.
Proof.
  intros Hn. unfold dec_size_ready.
  destruct (decide (0 ≤ dc_max_msg_size cfg ∧ n > dc_max_msg_size cfg)); [by eexists _, _|].
  destruct (decide (n ≠ u64 n)); [by eexists _, _|].
  destruct (_ && negb (_ || _)); by eexists _, _.
Qed.

(** The states a step may leave: wanting bytes, or an empty message. *)
Definition dec_wants (d : v2_decoder_t) : Prop :=
  dec_wf d ∨ (de_next d = DMessageReady ∧ de_stored d = [] ∧ de_to_read d = 0).

Lemma dec_steps_wants room d fuel :
  dec_wants d → ∃ rc d', dec_steps (S (S fuel)) cfg room d = Done (rc, d')
    ∧ match rc with DErr _ => True | _ => dec_wf d' end.
Proof.
  intros [Hwf|(Hn & Hs & H0)]; cbn [dec_steps].
  - destruct Hwf as (Hb & Hp & Hm). rewrite decide_False by lia. eexists _, d. by split.
  - rewrite decide_True by done. unfold dec_run. rewrite Hn. eexists _, _. split; [done|].
    split; [constructor|]. by split_and!.
Qed.

(** The expected bytes are all there. *)
Definition dec_full (d : v2_decoder_t) : Prop :=
  bytes_ok (de_stored d) ∧ de_to_read d = 0 ∧
  match de_next d with
  | DFlagsReady | DOneByteSizeReady => length (de_stored d) = 1%nat
  | DEightByteSizeReady => length (de_stored d) = 8%nat
  | DMessageReady => True
  end.

Lemma dec_run_spec room d :
  dec_full d → ∃ rc d', dec_run cfg room d = Done (rc, d')
    ∧ match rc with DErr _ => True | DMsg => dec_wf d' | DGoOn => dec_wants d' end.
Proof.
  intros (Hb & H0 & Hl). unfold dec_run.
  assert (Hsz : ∀ n, 0 ≤ n < 2 ^ 64 → ∃ rc d', dec_size_ready cfg room n d = Done (rc, d')
    ∧ match rc with DErr _ => True | DMsg => dec_wf d' | DGoOn => dec_wants d' end).
  { intros n Hn. destruct (dec_size_ready_spec room n d Hn) as (rc & d' & Hr & Hc).
    exists rc, d'. split; [done|]. destruct rc; [|done|done]. destruct Hc as (H1 & H2 & H3).
    destruct (decide (n = 0)) as [->|]; [by right|]. left. unfold dec_wf. rewrite H1, H2, H3.
    split; [constructor|]. split; [lia|done]. }
  destruct (de_next d).
  - unfold dec_flags_ready. destruct (de_stored d) as [|b [|]]; try done. simpl.
    destruct (decide (Z.land b large_flag ≠ 0)); eexists _, _; (split; [done|]); left;
      (split; [constructor|]); by split_and!.
  - unfold dec_one_byte_size_ready. destruct (de_stored d) as [|b [|]]; try done. simpl.
    apply Forall_cons in Hb as [Hb _]. unfold is_byte in Hb. apply Hsz. lia.
  - unfold dec_eight_byte_size_ready. destruct (get_uint64_bytes _ Hb Hl) as (n & -> & Hn).
    rewrite bind_Done. by apply Hsz.
  - eexists _, _. split; [done|]. split; [constructor|]. by split_and!.
Qed.

Lemma dec_steps_spec room d :
  dec_full d → ∃ rc d', dec_steps steps_fuel cfg room d = Done (rc, d')
    ∧ match rc with DErr _ => True | _ => dec_wf d' end.
Proof.
  intros Hf. pose proof Hf as (_ & H0 & _). unfold steps_fuel. cbn [dec_steps].
  rewrite (decide_True (P := de_to_read d = 0)) by done.
  destruct (dec_run_spec room d Hf) as (rc & d' & -> & Hc). rewrite bind_Done.
  destruct rc; [by apply (dec_steps_wants room d' 1)|by eexists _, _..].
Qed.

(** ** Storing part of the expected bytes, or all of them *)

Lemma dec_store_part d bs :
  dec_wf d → bytes_ok bs → Z.of_nat (length bs) < de_to_read d → dec_wf (dec_store d bs).
Proof.
  intros (Hb & Hp & Hm) Hbs Hl. unfold dec_wf. simpl. split; [by apply Forall_app|]. split; [lia|].
  destruct (de_next d); try done.
  - destruct bs; simpl in *; [|lia]. destruct Hm. rewrite app_nil_r. split; [done|lia].
  - destruct bs; simpl in *; [|lia]. destruct Hm. rewrite app_nil_r. split; [done|lia].
  - rewrite length_app. lia.
Qed.

Lemma dec_store_full d bs :
  dec_wf d → bytes_ok bs → Z.of_nat (length bs) = de_to_read d → dec_full (dec_store d bs).
Proof.
  intros (Hb & Hp & Hm) Hbs Hl. unfold dec_full. simpl. split; [by apply Forall_app|]. split; [lia|].
  destruct (de_next d); try done.
  - destruct Hm as [-> ?]. simpl. lia.
  - destruct Hm as [-> ?]. simpl. lia.
  - rewrite length_app. lia.
Qed.

Lemma dec_store_store d bs bs' : dec_store (dec_store d bs) bs' = dec_store d (bs ++ bs').
Proof. unfold dec_store. simpl. rewrite length_app, <- app_assoc. f_equal. lia. Qed.

Lemma dec_store_nil d : dec_store d [] = d.
Proof. unfold dec_store. destruct d. simpl. rewrite app_nil_r. f_equal. lia. Qed.

(** The reference stores bytes the same way. *)
Lemma ref_store_part bs tl d :
  Z.of_nat (length bs) < de_to_read d → ref_bytes cfg (bs ++ tl) d = ref_bytes cfg tl (dec_store d bs).
Proof.
  revert d. induction bs as [|b bs IH]; intros d Hl; [by rewrite dec_store_nil|].
  simpl in Hl |- *. unfold steps_fuel. cbn [dec_steps]. rewrite decide_False by (simpl; lia).
  rewrite bind_Done, IH by (simpl; lia). by rewrite dec_store_store.
Qed.

Definition ref_cont (rc : dec_rc) (tl : list Z) (d : v2_decoder_t)
    : outcome (list wmsg * option errno_t * v2_decoder_t) :=
  match rc with
  | DGoOn => ref_bytes cfg tl d
  | DErr e => Done ([], Some e, d)
  | DMsg => '(ms, e, d') ← ref_bytes cfg tl d; Done (de_in_progress d :: ms, e, d')
  end.

Lemma ref_store_full bs tl d :
  Z.of_nat (length bs) = de_to_read d → 0 < de_to_read d →
  ref_bytes cfg (bs ++ tl) d =
  '(rc, d) ← dec_steps steps_fuel (ref_cfg cfg) 0 (dec_store d bs); ref_cont rc tl d.
Proof.
  intros Hl Hp. destruct bs as [|b bs _] using rev_ind; [simpl in *; lia|].
  rewrite length_app in Hl. simpl in Hl. rewrite <- app_assoc, ref_store_part by lia.
  cbn [ref_bytes app]. by rewrite dec_store_store.
Qed.

Lemma ref_fill room bs tl d :
  dec_wf d → bytes_ok bs → Z.of_nat (length bs) = de_to_read d →
  ∃ rc d', dec_steps steps_fuel cfg room (dec_store d bs) = Done (rc, d')
    ∧ match rc with DErr _ => True | _ => dec_wf d' end
    ∧ ref_bytes cfg (bs ++ tl) (erase d) = ref_cont rc tl (erase d').
Proof.
  intros Hwf Hb Hl. destruct (dec_steps_spec room _ (dec_store_full d bs Hwf Hb Hl)) as (rc & d' & Hs & Hc).
  exists rc, d'. split; [done|]. split; [done|]. destruct Hwf as (_ & Hp & _).
  rewrite ref_store_full by done. rewrite <- erase_store, (dec_steps_erase steps_fuel room), Hs. done.
Qed.

Lemma decode_loop_ref fuel room used data d :
  dec_wf d → bytes_ok data → (length data < fuel)%nat →
  ∃ rc n d', decode_loop fuel cfg room used data d = Done (rc, used + Z.of_nat n, d')
    ∧ (n ≤ length data)%nat ∧ (data ≠ [] → 0 < n)%nat
    ∧ match rc with DErr _ => True | _ => dec_wf d' end
    ∧ (rc = DGoOn → n = length data)
    ∧ ref_bytes cfg data (erase d) = ref_cont rc (drop n data) (erase d').
Proof.
  revert used data d. induction fuel as [|fuel IH]; intros used data d Hwf Hb Hf; [lia|].
  cbn [decode_loop]. destruct data as [|b0 data0] eqn:Hdata.
  { exists DGoOn, 0%nat, d. rewrite Z.add_0_r. split_and!; try done. }
  rewrite <- Hdata in *. assert (Hne : (0 < length data)%nat) by (subst; simpl; lia).
  pose proof Hwf as (_ & Hp & _). set (k := Z.to_nat _). set (used1 := used + _).
  destruct (decide (Z.of_nat (length data) < de_to_read d)) as [Hlt|Hge].
  - assert (Hk : k = length data) by lia. rewrite Hk, firstn_all, drop_all in *.
    pose proof (dec_store_part d data Hwf Hb Hlt) as Hwf1. pose proof Hwf1 as (_ & Hp1 & _).
    unfold steps_fuel. cbn [dec_steps]. rewrite decide_False by lia. rewrite bind_Done.
    destruct fuel as [|fuel]; [lia|]. cbn [decode_loop]. exists DGoOn, (length data), (dec_store d data).
    split; [by subst used1; rewrite Hk, firstn_all|]. split; [lia|]. split; [done|]. split; [done|]. split; [done|]. rewrite drop_all.
    rewrite <- (app_nil_r data) at 1. rewrite ref_store_part by done. done.
  - assert (Hk : Z.of_nat k = de_to_read d) by lia.
    assert (Hkl : length (take k data) = k) by (rewrite length_take; lia).
    destruct (ref_fill (room - used1) (take k data) (drop k data) d) as (rc & d1 & Hs & Hc & Hr);
      [done|by apply Forall_take|by rewrite Hkl|].
    rewrite take_drop in Hr. rewrite Hs, bind_Done. subst used1. rewrite Hkl.
    destruct rc as [| |e].
    + destruct (IH (used + Z.of_nat k) (drop k data) d1) as (rc & n & d' & -> & Hn & _ & Hc' & Hgo & Hr');
        [done|by apply Forall_drop|rewrite length_drop; lia|].
      rewrite length_drop in *. exists rc, (k + n)%nat, d'. rewrite Nat2Z.inj_add, Z.add_assoc.
      split; [done|]. split; [lia|]. split; [lia|]. split; [done|]. split; [intros H; specialize (Hgo H); lia|].
      rewrite Hr. simpl. rewrite Hr', drop_drop. done.
    + exists DMsg, k, d1. split_and!; try done; lia.
    + exists (DErr e), k, d1. split_and!; try done; lia.
Qed.

(** [decode], in both of its modes. *)
Lemma decode_ref direct room data d :
  dec_wf d → bytes_ok data → (direct = true → Z.of_nat (length data) ≤ de_to_read d) →
  ∃ rc n d', decode cfg direct room data d = Done (rc, Z.of_nat n, d')
    ∧ (n ≤ length data)%nat ∧ (data ≠ [] → 0 < n)%nat
    ∧ match rc with DErr _ => True | _ => dec_wf d' end
    ∧ (rc = DGoOn → n = length data)
    ∧ ref_bytes cfg data (erase d) = ref_cont rc (drop n data) (erase d').
Proof.
  intros Hwf Hb Hd. unfold decode. destruct direct; last first.
  { by apply (decode_loop_ref (S (length data)) room 0 data d); [..|lia]. }
  specialize (Hd eq_refl). assert_ok.
  assert (Hnn : data ≠ [] → (0 < length data)%nat) by (destruct data; [done|simpl; lia]).
  destruct (decide (Z.of_nat (length data) < de_to_read d)) as [Hlt|Hge].
  - pose proof (dec_store_part d data Hwf Hb Hlt) as Hwf1. pose proof Hwf1 as (_ & Hp1 & _).
    unfold steps_fuel. cbn [dec_steps]. rewrite decide_False by lia. rewrite bind_Done.
    eexists DGoOn, (length data), _. split; [done|]. split; [lia|]. split; [done|]. split; [done|].
    split; [done|]. rewrite drop_all, <- (app_nil_r data) at 1. by rewrite ref_store_part.
  - destruct (ref_fill (room - Z.of_nat (length data)) data [] d) as (rc & d1 & Hs & Hc & Hr); [done|done|lia|].
    rewrite app_nil_r in Hr. rewrite Hs, bind_Done. exists rc, (length data), d1.
    split; [done|]. split; [lia|]. split; [done|]. split; [done|]. split; [done|]. by rewrite drop_all.
Qed.

(** The caller's loop delivers the messages of the reference. *)
Lemma feed_ref fuel direct room data d :
  dec_wf d → bytes_ok data → (direct = true → Z.of_nat (length data) ≤ de_to_read d) →
  (length data < fuel)%nat →
  ∃ ms e d', feed fuel cfg direct room data d = Done (ms, e, d')
    ∧ (e = None → dec_wf d')
    ∧ ref_bytes cfg data (erase d) = Done (ms, e, erase d').
Proof.
  revert direct room data d. induction fuel as [|fuel IH]; intros direct room data d Hwf Hb Hd Hf; [lia|].
  cbn [feed]. destruct data as [|b0 data0] eqn:Hdata; [by exists [], None, d|]. rewrite <- Hdata in *.
  destruct (decode_ref direct room data d Hwf Hb Hd) as (rc & n & d1 & -> & Hn & Hn0 & Hc & Hgo & Hr).
  rewrite bind_Done. assert_ok. assert (Hnpos : (0 < n)%nat) by (apply Hn0; by subst).
  destruct rc as [| |e].
  - exists [], None, d1. split; [done|]. split; [done|]. rewrite Hr, (Hgo eq_refl), drop_all. done.
  - rewrite Nat2Z.id.
    destruct (IH false (room - Z.of_nat n) (drop n data) d1) as (ms & e & d2 & -> & Hwf2 & Hr2);
      [done|by apply Forall_drop|done|rewrite length_drop; lia|].
    rewrite bind_Done. exists (de_in_progress d1 :: ms), e, d2. split; [done|]. split; [done|].
    rewrite Hr. simpl. rewrite Hr2. done.
  - exists [], (Some e), d1. split; [done|]. split; [done|]. by rewrite Hr.
Qed.

Lemma ref_bytes_app bs bs' d :
  ref_bytes cfg (bs ++ bs') d =
  '(ms, e, d) ← ref_bytes cfg bs d;
  match e with
  | Some _ => Done (ms, e, d)
  | None => '(ms', e, d) ← ref_bytes cfg bs' d; Done (ms ++ ms', e, d)
  end.
Proof.
  revert d. induction bs as [|b bs IH]; intros d; cbn [app ref_bytes].
  { rewrite bind_Done. by destruct (ref_bytes cfg bs' d) as [[[ms e] d1]| |]. }
  destruct (dec_steps _ _ _ _) as [[[| |e] d1]| |]; simpl; [apply IH| |done|done|done].
  rewrite IH. destruct (ref_bytes cfg bs d1) as [[[ms [e|]] d2]| |]; simpl; [done| |done|done].
  by destruct (ref_bytes cfg bs' d2) as [[[ms' e] d3]| |].
Qed.

(** Whatever the sizes of the reads, the messages are those of the reference on
    the bytes read so far. *)
Lemma read_stream_ref bufsize sizes stream d :
  dec_wf d → bytes_ok stream → 0 < bufsize →
  ∃ ms e d' used rest, read_stream cfg bufsize sizes stream d = Done (ms, e, d', rest)
    ∧ stream = used ++ rest ∧ (e = None → dec_wf d')
    ∧ ref_bytes cfg used (erase d) = Done (ms, e, erase d')
    ∧ (Forall (λ n, 0 < n)%nat sizes → (length stream ≤ length sizes)%nat → e = None → rest = []).
Proof.
  revert stream d. induction sizes as [|n sizes IH]; intros stream d Hwf Hb Hbs; simpl.
  { exists [], None, d, [], stream. split_and!; try done. intros _ Hl _. by apply nil_length_inv; lia. }
  set (gb := dec_get_buffer bufsize d).
  assert (Hgb : ∃ direct limit d0, gb = (direct, limit, d0) ∧ dec_wf d0 ∧ erase d0 = erase d ∧ 0 < limit
    ∧ (direct = true → limit = de_to_read d0)).
  { subst gb. unfold dec_get_buffer. pose proof Hwf as (_ & Hp & _).
    destruct (decide (bufsize ≤ de_to_read d)); eexists _, _, _; (split; [done|]); done. }
  destruct Hgb as (direct & limit & d0 & -> & Hwf0 & He0 & Hlim & Hdir).
  set (k := Nat.min n (Z.to_nat limit)). set (chunk := take k stream).
  destruct (feed_ref (S (length chunk)) direct bufsize chunk d0) as (ms & e & d1 & Hfeed & Hwf1 & Hr);
    [done|by apply Forall_take| |lia|].
  { intros Hd. rewrite <- (Hdir Hd). unfold chunk. rewrite length_take. lia. }
  unfold feed_chunk. rewrite Hfeed, bind_Done. rewrite He0 in Hr. destruct e as [e|].
  { exists ms, (Some e), d1, chunk, (drop k stream). split; [done|]. split; [by unfold chunk; rewrite take_drop|]. done. }
  destruct (IH (drop k stream) d1) as (ms' & e & d2 & used & rest & -> & Hst & Hwf2 & Hr2 & Hrest);
    [by apply Hwf1|by apply Forall_drop|done|].
  rewrite bind_Done. exists (ms ++ ms'), e, d2, (chunk ++ used), rest. split; [done|].
  split; [by unfold chunk; rewrite <- app_assoc, <- Hst, take_drop|]. split; [done|].
  split; [by rewrite ref_bytes_app, Hr, bind_Done, Hr2|].
  intros Hpos Hl He. apply Forall_cons in Hpos as [Hn Hpos]. apply Hrest; [done| |done].
  rewrite length_drop. destruct (decide (length stream = 0%nat)); simpl in Hl; lia.
Qed.

(** ** Frames *)

(** Between two messages. *)
Definition dec_idle (d : v2_decoder_t) : Prop :=
  de_stored d = [] ∧ de_to_read d = 1 ∧ de_next d = DFlagsReady.

(** The message flags of a protocol flags octet. *)
Definition frame_flags (f : Z) : Z :=
  let flags := if decide (Z.land f more_flag ≠ 0) then msg_more else 0 in
  if decide (Z.land f command_flag ≠ 0) then Z.lor flags msg_command else flags.

Definition size_allowed (n : Z) : Prop :=
  0 ≤ n < 2 ^ 64 ∧ (0 ≤ dc_max_msg_size cfg → n ≤ dc_max_msg_size cfg).

Lemma dec_steps_once fuel c room d d1 :
  de_to_read d = 0 → dec_run c room d = Done (DGoOn, d1) → de_to_read d1 ≠ 0 →
  dec_steps (S (S fuel)) c room d = Done (DGoOn, d1).
Proof. intros H0 Hr H1. cbn [dec_steps]. by rewrite decide_True, Hr, bind_Done, decide_False. Qed.

Lemma ref_flags f tl d :
  dec_idle d →
  ref_bytes cfg (f :: tl) d =
  ref_bytes cfg tl (V2Decoder [] (if decide (Z.land f large_flag ≠ 0) then 8 else 1)
    (if decide (Z.land f large_flag ≠ 0) then DEightByteSizeReady else DOneByteSizeReady)
    (frame_flags f) (de_in_progress d) (de_contents d)).
Proof.
  intros (Hs & Hr & Hn). destruct d as [st tr nx fl ip ct]. simpl in Hs, Hr, Hn. subst.
  change (f :: tl) with ([f] ++ tl). rewrite (ref_store_full [f]) by done.
  change steps_fuel with 4%nat. erewrite dec_steps_once; [done|done| |].
  - unfold dec_run, dec_flags_ready. cbn [dec_store de_next de_stored app]. rewrite (geti_Some _ 0 f) by done.
    rewrite bind_Done. by destruct (decide (Z.land f large_flag ≠ 0)).
  - simpl. by destruct (decide (Z.land f large_flag ≠ 0)).
Qed.

(** The size octets are followed by the payload of that size. *)
Lemma ref_payload n payload tl d :
  size_allowed n → Z.of_nat (length payload) = n →
  de_to_read d = 0 → dec_run (ref_cfg cfg) 0 d = dec_size_ready (ref_cfg cfg) 0 n d →
  ∃ d', dec_idle d' ∧ de_in_progress d' = WMsg (de_msg_flags d) payload
    ∧ ('(rc, d) ← dec_steps steps_fuel (ref_cfg cfg) 0 d; ref_cont rc (payload ++ tl) d)
      = '(ms, e, d'') ← ref_bytes cfg tl d'; Done (WMsg (de_msg_flags d) payload :: ms, e, d'').
Proof.
  intros [Hn Hmax] Hp H0 Hrun. unfold steps_fuel. cbn [dec_steps].
  rewrite (decide_True (P := de_to_read d = 0)), Hrun by done.
  unfold dec_size_ready. rewrite decide_False by (simpl; lia).
  rewrite decide_False by (rewrite u64_small; lia). simpl. rewrite Hmalloc, orb_true_r. simpl.
  set (d1 := V2Decoder [] n DMessageReady _ _ _).
  eexists (V2Decoder [] 1 DFlagsReady (de_msg_flags d) (WMsg (de_msg_flags d) payload) (de_contents d)).
  split; [done|]. split; [done|]. destruct (decide (n = 0)) as [Hz|Hz].
  - destruct payload; simpl in Hp; [|lia]. rewrite bind_Done. simpl. done.
  - rewrite bind_Done. simpl. rewrite (ref_store_full payload) by (simpl; lia).
    unfold steps_fuel. cbn [dec_steps]. rewrite decide_True by (simpl; lia). simpl. done.
Qed.

(** A frame decodes to its payload. *)
Lemma ref_frame f payload tl d :
  dec_idle d → (Z.land f large_flag ≠ 0 ↔ Z.of_nat (length payload) > UCHAR_MAX) →
  size_allowed (Z.of_nat (length payload)) →
  ∃ d', dec_idle d'
    ∧ ref_bytes cfg (f :: enc_length (Z.of_nat (length payload)) ++ payload ++ tl) d
      = '(ms, e, d'') ← ref_bytes cfg tl d'; Done (WMsg (frame_flags f) payload :: ms, e, d'').
Proof.
  intros Hidle Hlarge Hsz. rewrite ref_flags by done. unfold enc_length.
  set (n := Z.of_nat (length payload)) in *. pose proof Hsz as [Hn _].
  destruct (decide (n > UCHAR_MAX)) as [Hbig|Hsmall].
  - rewrite !decide_True by tauto. rewrite (ref_store_full (put_uint64 n)) by done.
    destruct (ref_payload n payload tl (dec_store (V2Decoder [] 8 DEightByteSizeReady (frame_flags f)
      (de_in_progress d) (de_contents d)) (put_uint64 n))) as (d' & Hd' & _ & Heq); [done|done|done| |].
    + unfold dec_run, dec_eight_byte_size_ready. cbn [de_next dec_store de_stored].
      rewrite app_nil_l, <- (app_nil_r (put_uint64 n)), get_put_uint64 by lia. by rewrite app_nil_r.
    + exists d'. split; [done|]. by rewrite Heq.
  - rewrite !decide_False by tauto. change (u8 n :: payload ++ tl) with ([u8 n] ++ payload ++ tl).
    rewrite (ref_store_full [u8 n]) by done. unfold UCHAR_MAX in *. rewrite u8_small by lia.
    destruct (ref_payload n payload tl (dec_store (V2Decoder [] 1 DOneByteSizeReady (frame_flags f)
      (de_in_progress d) (de_contents d)) [n])) as (d' & Hd' & _ & Heq); [done|done|done|done|].
    exists d'. split; [done|]. by rewrite Heq.
Qed.

End refinement.

(** ** Round trips *)

(** What the peer receives of a message. *)
Definition v3_1_received (m : wmsg) : wmsg :=
  WMsg (Z.lor (if wm_has m msg_more then msg_more else 0)
              (if wm_has m msg_command || wm_is_subscribe m || wm_is_cancel m then msg_command else 0))
       ((if wm_is_subscribe m then sub_cmd_name else if wm_is_cancel m then cancel_cmd_name else [])
        ++ wm_data m).

Definition v2_received (m : wmsg) : wmsg :=
  WMsg (Z.lor (if wm_has m msg_more then msg_more else 0) (if wm_has m msg_command then msg_command else 0))
       ((if wm_is_subscribe m then [1] else if wm_is_cancel m then [0] else []) ++ wm_data m).

(** The flags octet of a frame. *)
Definition frame_octet (more command large : bool) : Z :=
  let f := if more then more_flag else 0 in
  let f := if command then Z.lor f command_flag else f in
  if large then Z.lor f large_flag else f.

Lemma frame_octet_spec more command large :
  (Z.land (frame_octet more command large) large_flag ≠ 0 ↔ large = true)
  ∧ frame_flags (frame_octet more command large)
    = Z.lor (if more then msg_more else 0) (if command then msg_command else 0).
Proof. destruct more, command, large; split; done. Qed.

Lemma v3_1_frame_eq m :
  let payload := wm_data (v3_1_received m) in
  v3_1_frame m
  = frame_octet (wm_has m msg_more) (wm_has m msg_command || wm_is_subscribe m || wm_is_cancel m)
      (bool_decide (Z.of_nat (length payload) > UCHAR_MAX))
    :: enc_length (Z.of_nat (length payload)) ++ payload.
Proof.
  unfold v3_1_frame, v3_1_message_ready, v3_1_received, frame_octet, wm_size. simpl.
  assert (Hsz : (if wm_has m msg_command || wm_is_subscribe m || wm_is_cancel m
     then (if wm_is_subscribe m then Z.of_nat (length (wm_data m)) + sub_cmd_name_size
           else if wm_is_cancel m then Z.of_nat (length (wm_data m)) + cancel_cmd_name_size
           else Z.of_nat (length (wm_data m))) else Z.of_nat (length (wm_data m)))
    = Z.of_nat (length ((if wm_is_subscribe m then sub_cmd_name
        else if wm_is_cancel m then cancel_cmd_name else []) ++ wm_data m))).
  { rewrite length_app. unfold sub_cmd_name_size, cancel_cmd_name_size.
    destruct (wm_has m msg_command), (wm_is_subscribe m), (wm_is_cancel m); simpl; lia. }
  revert Hsz. set (payload := _ ++ wm_data m). intros Hsz.
  destruct (wm_has m msg_command || wm_is_subscribe m || wm_is_cancel m); simpl; rewrite Hsz;
    rewrite <- app_assoc; destruct (decide (Z.of_nat (length payload) > UCHAR_MAX)) as [H|H];
    rewrite ?(bool_decide_eq_true_2 _ H), ?(bool_decide_eq_false_2 _ H); done.
Qed.

(** The legacy encoder computes the large flag from the size without the
    subscribe/cancel octet. *)
Lemma v2_frame_eq m :
  let payload := wm_data (v2_received m) in
  (wm_is_subscribe m || wm_is_cancel m = true → wm_size m ≠ UCHAR_MAX) →
  v2_frame m
  = frame_octet (wm_has m msg_more) (wm_has m msg_command)
      (bool_decide (Z.of_nat (length payload) > UCHAR_MAX))
    :: enc_length (Z.of_nat (length payload)) ++ payload.
Proof.
  unfold v2_frame, v2_message_ready, v2_received, frame_octet, wm_size. simpl. intros Hne.
  assert (Hsz : (if wm_is_subscribe m || wm_is_cancel m then Z.of_nat (length (wm_data m)) + 1
                 else Z.of_nat (length (wm_data m)))
    = Z.of_nat (length ((if wm_is_subscribe m then [1] else if wm_is_cancel m then [0] else []) ++ wm_data m))).
  { rewrite length_app. destruct (wm_is_subscribe m), (wm_is_cancel m); simpl; lia. }
  assert (Hlg : bool_decide (Z.of_nat (length (wm_data m)) > UCHAR_MAX)
    = bool_decide (Z.of_nat (length ((if wm_is_subscribe m then [1] else if wm_is_cancel m then [0] else [])
        ++ wm_data m)) > UCHAR_MAX)).
  { apply bool_decide_ext. rewrite <- Hsz. destruct (wm_is_subscribe m || wm_is_cancel m); [|done].
    specialize (Hne eq_refl). lia. }
  revert Hsz Hlg. set (payload := _ ++ wm_data m). intros Hsz Hlg. rewrite Hsz, <- app_assoc, <- Hlg.
  destruct (decide (Z.of_nat (length (wm_data m)) > UCHAR_MAX)) as [H|H];
    rewrite ?(bool_decide_eq_true_2 _ H), ?(bool_decide_eq_false_2 _ H);
    by destruct (wm_has m msg_more), (wm_has m msg_command).
Qed.

(** A stream of frames, each of an octet, the length octets and the payload. *)
Lemma ref_frames {M} cfg (frame : M → list Z) (octet : M → Z) (payload : M → list Z) ms d :
  (∀ n, dc_malloc cfg n = true) → dec_idle d →
  Forall (λ m, frame m = octet m :: enc_length (Z.of_nat (length (payload m))) ++ payload m
             ∧ (Z.land (octet m) large_flag ≠ 0 ↔ Z.of_nat (length (payload m)) > UCHAR_MAX)
             ∧ size_allowed cfg (Z.of_nat (length (payload m)))) ms →
  ∃ d', dec_idle d' ∧ ref_bytes cfg (ms ≫= frame) d
    = Done ((λ m, WMsg (frame_flags (octet m)) (payload m)) <$> ms, None, d').
Proof.
  intros Hm. revert d. induction ms as [|m ms IH]; intros d Hd Hms; [by exists d|].
  apply Forall_cons in Hms as [(Hf & Hl & Hs) Hms]. cbn [mbind list_bind].
  change (frame m ++ (ms ≫= frame)) with (frame m ++ mbind frame ms). rewrite Hf.
  destruct (ref_frame cfg Hm (octet m) (payload m) (mbind frame ms) d Hd Hl Hs) as (d1 & Hd1 & Heq).
  rewrite <- app_comm_cons, <- app_assoc, Heq.
  destruct (IH d1 Hd1 Hms) as (d2 & Hd2 & ->). exists d2. done.
Qed.

Lemma frame_bytes_ok o n payload :
  is_byte o → 0 ≤ n → bytes_ok payload → bytes_ok (o :: enc_length n ++ payload).
Proof.
  intros Ho Hn Hp. constructor; [done|]. apply Forall_app. split; [|done]. unfold enc_length.
  destruct (decide (n > UCHAR_MAX)); [apply put_uint64_bytes|]. apply Forall_singleton.
  pose proof (u8_range n). unfold is_byte. lia.
Qed.

Lemma frame_octet_byte a b c : is_byte (frame_octet a b c).
Proof. by destruct a, b, c. Qed.

(** Frames read in pieces of any sizes: the messages are received in order. *)
Lemma read_frames {M} cfg bufsize sizes (frame : M → list Z) (octet : M → Z) (payload : M → list Z) ms :
  (∀ n, dc_malloc cfg n = true) → 0 < bufsize →
  Forall (λ m, frame m = octet m :: enc_length (Z.of_nat (length (payload m))) ++ payload m
             ∧ (Z.land (octet m) large_flag ≠ 0 ↔ Z.of_nat (length (payload m)) > UCHAR_MAX)
             ∧ size_allowed cfg (Z.of_nat (length (payload m)))
             ∧ is_byte (octet m) ∧ bytes_ok (payload m)) ms →
  Forall (λ n, 0 < n)%nat sizes → (length (ms ≫= frame) ≤ length sizes)%nat →
  ∃ d, read_stream cfg bufsize sizes (ms ≫= frame) v2_decoder_new
       = Done ((λ m, WMsg (frame_flags (octet m)) (payload m)) <$> ms, None, d, []) ∧ dec_idle d.
Proof.
  intros Hm Hbs Hms Hpos Hlen.
  assert (Hbytes : bytes_ok (ms ≫= frame)).
  { clear -Hms. induction ms as [|m ms IH]; [constructor|]. apply Forall_cons in Hms as [(Hf & _ & Hs & Ho & Hp) Hms].
    cbn [mbind list_bind]. apply Forall_app. split; [|by apply IH]. rewrite Hf. apply frame_bytes_ok; [done|lia|done]. }
  destruct (ref_frames cfg frame octet payload ms (erase v2_decoder_new)) as (d1 & Hd1 & Href); [done|done| |].
  { eapply Forall_impl; [exact Hms|]. by intros m (? & ? & ? & _). }
  destruct (read_stream_ref cfg Hm bufsize sizes (ms ≫= frame) v2_decoder_new)
    as (ms' & e & d' & used & rest & Hrun & Hst & _ & Hr & Hrest); [|done|done|].
  { split; [constructor|]. by split_and!. }
  rewrite Hst, ref_bytes_app, Hr, bind_Done in Href. destruct e as [e|]; [done|].
  specialize (Hrest Hpos Hlen eq_refl) as ->. simpl in Href. rewrite app_nil_r in Href.
  injection Href as <- <-. by exists d'.
Qed.

(** C3: Messages written by the ZMTP 3.1 encoder are received by the decoder, in
    order and unchanged, whatever sizes the reads have and whether or not messages
    use the receive buffer as storage: the flags [more] and [command] and the bytes
    are those sent, and a subscription or cancellation arrives as the command
    [SUBSCRIBE] or [CANCEL] with its topic. *)
Theorem codec_v3_1_roundtrip cfg bufsize sizes ms :
  (∀ n, dc_malloc cfg n = true) → 0 < bufsize →
  Forall (λ m, bytes_ok (wm_data m) ∧ size_allowed cfg (wm_size (v3_1_received m))) ms →
  Forall (λ n, 0 < n)%nat sizes → (length (ms ≫= v3_1_frame) ≤ length sizes)%nat →
  ∃ d, read_stream cfg bufsize sizes (ms ≫= v3_1_frame) v2_decoder_new
       = Done (v3_1_received <$> ms, None, d, []).
Proof.
  intros Hm Hbs Hms Hpos Hlen.
  set (octet m := frame_octet (wm_has m msg_more) (wm_has m msg_command || wm_is_subscribe m || wm_is_cancel m)
      (bool_decide (wm_size (v3_1_received m) > UCHAR_MAX))).
  destruct (read_frames cfg bufsize sizes v3_1_frame octet (λ m, wm_data (v3_1_received m)) ms)
    as (d & Hd & _); [done|done| |done|done|].
  - eapply Forall_impl; [exact Hms|]. intros m [Hb Hs]. split; [apply v3_1_frame_eq|].
    split; [unfold octet; by rewrite (proj1 (frame_octet_spec _ _ _)), bool_decide_eq_true|].
    split; [done|]. split; [apply frame_octet_byte|]. simpl. apply Forall_app. split; [|done].
    destruct (wm_is_subscribe m), (wm_is_cancel m); by repeat constructor.
  - exists d. rewrite Hd. do 4 f_equal. apply list_fmap_ext. intros _ m _. unfold octet.
    by rewrite (proj2 (frame_octet_spec _ _ _)).
Qed.

Lemma codec_v3_1_roundtrip_witness :
  ∃ d, read_stream (DecCfg true (-1) (λ _, true)) 8 (replicate 20 3%nat)
         ([WMsg 1 [10; 20; 30]; WMsg 12 [7]; WMsg 0 []] ≫= v3_1_frame) v2_decoder_new
       = Done ([WMsg 1 [10; 20; 30]; WMsg 2 (sub_cmd_name ++ [7]); WMsg 0 []], None, d, []).
Proof.
  apply (codec_v3_1_roundtrip (DecCfg true (-1) (λ _, true)) 8 (replicate 20 3%nat)
    [WMsg 1 [10; 20; 30]; WMsg 12 [7]; WMsg 0 []]).
  - done.
  - lia.
  - repeat constructor; simpl; try lia; done.
  - repeat constructor.
  - vm_compute. lia.
Defined.

(** The legacy encoder has the same round trip (a subscription arrives as the
    octet 1, a cancellation as 0, with the topic) except for a subscription or
    cancellation whose topic has exactly 255 bytes. *)
Lemma codec_v2_roundtrip cfg bufsize sizes ms :
  (∀ n, dc_malloc cfg n = true) → 0 < bufsize →
  Forall (λ m, bytes_ok (wm_data m) ∧ size_allowed cfg (wm_size (v2_received m))
               ∧ (wm_is_subscribe m || wm_is_cancel m = true → wm_size m ≠ 255)) ms →
  Forall (λ n, 0 < n)%nat sizes → (length (ms ≫= v2_frame) ≤ length sizes)%nat →
  ∃ d, read_stream cfg bufsize sizes (ms ≫= v2_frame) v2_decoder_new
       = Done (v2_received <$> ms, None, d, []).
Proof.
  intros Hm Hbs Hms Hpos Hlen.
  set (octet m := frame_octet (wm_has m msg_more) (wm_has m msg_command)
      (bool_decide (wm_size (v2_received m) > UCHAR_MAX))).
  destruct (read_frames cfg bufsize sizes v2_frame octet (λ m, wm_data (v2_received m)) ms)
    as (d & Hd & _); [done|done| |done|done|].
  - eapply Forall_impl; [exact Hms|]. intros m (Hb & Hs & Hne). split; [by apply v2_frame_eq|].
    split; [unfold octet; by rewrite (proj1 (frame_octet_spec _ _ _)), bool_decide_eq_true|].
    split; [done|]. split; [apply frame_octet_byte|]. simpl. apply Forall_app. split; [|done].
    destruct (wm_is_subscribe m), (wm_is_cancel m); by repeat constructor.
  - exists d. rewrite Hd. do 4 f_equal. apply list_fmap_ext. intros _ m _. unfold octet.
    by rewrite (proj2 (frame_octet_spec _ _ _)).
Qed.

Lemma codec_v2_roundtrip_witness :
  ∃ d, read_stream (DecCfg false 1000 (λ _, true)) 8 (replicate 20 3%nat)
         ([WMsg 3 [10; 20; 30]; WMsg 12 [7]; WMsg 16 []] ≫= v2_frame) v2_decoder_new
       = Done ([WMsg 3 [10; 20; 30]; WMsg 0 [1; 7]; WMsg 0 [0]], None, d, []).
Proof.
  apply (codec_v2_roundtrip (DecCfg false 1000 (λ _, true)) 8 (replicate 20 3%nat)
    [WMsg 3 [10; 20; 30]; WMsg 12 [7]; WMsg 16 []]).
  - done.
  - lia.
  - repeat constructor; simpl; try lia; done.
  - repeat constructor.
  - vm_compute. lia.
Defined.

(** A subscription of a 255-byte topic is written by the legacy encoder with an
    eight-octet length but without the large flag: the decoder takes the first
    length octet, 0, for the size, receives an empty message, and reads the rest of
    the length as further frames. *)
Lemma codec_v2_topic_255 cfg topic tl d :
  (∀ n, dc_malloc cfg n = true) → dec_idle d → length topic = 255%nat →
  ∃ d', dec_idle d'
    ∧ ref_bytes cfg (v2_frame (WMsg msg_subscribe topic) ++ tl) d
      = '(ms, e, d'') ← ref_bytes cfg ([0; 0; 0; 0; 0; 1; 0; 1] ++ topic ++ tl) d';
        Done (WMsg 0 [] :: ms, e, d'').
Proof.
  intros Hm Hd Hl.
  assert (Hf : v2_frame (WMsg msg_subscribe topic) = [0; 0; 0; 0; 0; 0; 0; 1; 0; 1] ++ topic).
  { unfold v2_frame, v2_message_ready, wm_size. simpl. rewrite Hl. done. }
  destruct (ref_frame cfg Hm 0 [] ([0; 0; 0; 0; 0; 1; 0; 1] ++ topic ++ tl) d) as (d' & Hd' & Heq).
  - done.
  - done.
  - split; [simpl; lia|]. simpl. lia.
  - exists d'. split; [done|]. rewrite Hf, <- app_assoc. exact Heq.
Qed.

Lemma codec_v2_topic_255_witness :
  ∃ d', dec_idle d'
    ∧ ref_bytes (DecCfg false 1000 (λ _, true)) (v2_frame (WMsg msg_subscribe (replicate 255 65)) ++ []) v2_decoder_new
      = '(ms, e, d'') ← ref_bytes (DecCfg false 1000 (λ _, true))
          ([0; 0; 0; 0; 0; 1; 0; 1] ++ replicate 255 65 ++ []) d';
        Done (WMsg 0 [] :: ms, e, d'').
Proof.
  apply (codec_v2_topic_255 (DecCfg false 1000 (λ _, true)) (replicate 255 65) [] v2_decoder_new); done.
Defined.

Lemma dec_steps_err fuel cfg room d d1 e :
  de_to_read d = 0 → dec_run cfg room d = Done (DErr e, d1) →
  dec_steps (S fuel) cfg room d = Done (DErr e, d1).
Proof. intros H0 Hr. cbn [dec_steps]. by rewrite decide_True, Hr, bind_Done. Qed.

(** The size of a frame is above the limit. *)
Lemma ref_oversize cfg f n payload d :
  (∀ n, dc_malloc cfg n = true) → dec_idle d → 0 ≤ dc_max_msg_size cfg < n → n < 2 ^ 64 →
  (Z.land f large_flag ≠ 0 ↔ n > UCHAR_MAX) →
  ∃ d', ref_bytes cfg (f :: enc_length n ++ payload) d = Done ([], Some EMSGSIZE, d')
    ∧ de_in_progress d' = de_in_progress d.
Proof.
  intros Hm Hd Hn Hn2 Hl. rewrite ref_flags by done. unfold enc_length.
  assert (Hsz : ∀ d, dec_size_ready (ref_cfg cfg) 0 n d = Done (DErr EMSGSIZE, d)).
  { intros d0. unfold dec_size_ready. by rewrite decide_True by (simpl; lia). }
  destruct (decide (n > UCHAR_MAX)) as [Hbig|Hsmall].
  - rewrite !decide_True by tauto. rewrite (ref_store_full cfg (put_uint64 n)) by done.
    set (d1 := dec_store _ _). exists d1. split; [|done].
    rewrite (dec_steps_err 3 _ _ d1 d1 EMSGSIZE); [done|done|].
    unfold dec_run, dec_eight_byte_size_ready. cbn [d1 de_next dec_store de_stored].
    pose proof (get_put_uint64 n [] ltac:(lia)) as Hg. rewrite app_nil_r in Hg. simpl app. rewrite Hg. apply Hsz.
  - rewrite !decide_False by tauto. rewrite (ref_store_full cfg [u8 n]) by done.
    unfold UCHAR_MAX in *. rewrite u8_small by lia.
    set (d1 := dec_store _ _). exists d1. split; [|done].
    rewrite (dec_steps_err 3 _ _ d1 d1 EMSGSIZE); [done|done|]. apply Hsz.
Qed.

(** However it is fragmented, a frame that announces a size above the limit is
    refused with [EMSGSIZE] as soon as its size is known, and nothing is delivered
    or allocated for it. *)
Lemma codec_oversize_refused cfg bufsize sizes f n payload :
  (∀ n, dc_malloc cfg n = true) → 0 < bufsize → is_byte f → bytes_ok payload →
  0 ≤ dc_max_msg_size cfg < n → n < 2 ^ 64 →
  (Z.land f large_flag ≠ 0 ↔ n > UCHAR_MAX) →
  Forall (λ n, 0 < n)%nat sizes → (length (f :: enc_length n ++ payload) ≤ length sizes)%nat →
  ∃ d rest, read_stream cfg bufsize sizes (f :: enc_length n ++ payload) v2_decoder_new
            = Done ([], Some EMSGSIZE, d, rest)
    ∧ de_in_progress d = WMsg 0 [].
Proof.
  intros Hm Hbs Hf Hp Hn Hn2 Hl Hpos Hlen.
  set (stream := f :: enc_length n ++ payload) in *.
  assert (Hst : bytes_ok stream) by (apply frame_bytes_ok; [done|lia|done]).
  destruct (read_stream_ref cfg Hm bufsize sizes stream v2_decoder_new)
    as (ms' & e & d' & used & rest & Hrun & Hsp & _ & Hr & Hrest); [|done|done|].
  { split; [constructor|]. by split_and!. }
  destruct (ref_oversize cfg f n payload (erase v2_decoder_new)) as (d2 & Href & Hip); [done..|].
  change (f :: enc_length n ++ payload) with stream in Href.
  rewrite Hsp, ref_bytes_app, Hr, bind_Done in Href. destruct e as [e|].
  - injection Href as -> -> <-. by exists d', rest.
  - specialize (Hrest Hpos Hlen eq_refl) as ->. done.
Qed.

Lemma codec_oversize_refused_witness :
  ∃ d rest, read_stream (DecCfg true 4 (λ _, true)) 8 (replicate 10 2%nat)
      (0 :: enc_length 5 ++ [1; 2; 3; 4; 5]) v2_decoder_new = Done ([], Some EMSGSIZE, d, rest)
    ∧ de_in_progress d = WMsg 0 [].
Proof.
  apply (codec_oversize_refused (DecCfg true 4 (λ _, true)) 8 (replicate 10 2%nat) 0 5 [1; 2; 3; 4; 5]);
    try done; try (simpl; lia); repeat constructor; try (simpl; lia).
Defined.
