(* ===== verification/Allocator.v ===== *)
(** The receive buffers of zero-copy messages:
    src/protocol/decoder_allocators.cpp.

    A buffer is a block with a reference counter in front; the messages that use
    its memory hold it through their deallocation function [call_dec_ref].  The
    heap maps the blocks that are allocated to their counters.  The theorem says
    that a block lives exactly as long as a message or the allocator refers to it,
    and that [allocate] never hands out memory a message still uses. *)
From S2P Require Import Prelude Msg Encoder Decoder.

(** The counters of the allocated blocks. *)
Abbreviation blocks := (gmap nat Z).

Record allocator_t := Allocator {
  al_buf : option nat;
  al_buf_size : Z;
  al_max_size : Z;
  al_msg_content : Z;       (* index of the next content slot *)
  al_max_counters : Z;
}.

Definition allocator_new (bufsize : Z) : allocator_t :=
  Allocator None 0 bufsize 0 (u64 (u64 (bufsize + max_vsm_size) - 1) `div` max_vsm_size).

Definition al_clear (a : allocator_t) : allocator_t :=
  Allocator None 0 (al_max_size a) 0 (al_max_counters a).

Definition al_release (a : allocator_t) : option nat * allocator_t := (al_buf a, al_clear a).

(** [c->sub (1)] on the counter of a block. *)
Definition block_sub (h : blocks) (b : nat) : outcome (bool * blocks) :=
  match h !! b with
  | None => Undef
  | Some n => let '(n, nonzero) := counter_sub n 1 in Done (nonzero, <[b := n]> h)
  end.

Definition al_allocate (h : blocks) (a : allocator_t) : outcome (nat * blocks * allocator_t) :=
  '(h, a) ← (match al_buf a with
             | None => Done (h, a)
             | Some b =>
                 '(used, h) ← block_sub h b;
                 if used : bool then Done (h, (al_release a).2) else Done (h, a)
             end);
  let '(b, h) := match al_buf a with
                 | None => let b := fresh (dom h) in (b, <[b := 1]> h)
                 | Some b => (b, <[b := 1]> h)
                 end in
  Done (b, h, Allocator (Some b) (al_max_size a) (al_max_size a) 0 (al_max_counters a)).

(** Free a block whose counter reached zero. *)
Definition block_drop (h : blocks) (b : nat) : outcome blocks :=
  '(nonzero, h) ← block_sub h b;
  if nonzero : bool then Done h else Done (delete b h).

Definition al_deallocate (h : blocks) (a : allocator_t) : outcome (blocks * allocator_t) :=
  match al_buf a with
  | None => Done (h, al_clear a)
  | Some b => h ← block_drop h b; Done (h, al_clear a)
  end.

Definition al_inc_ref (h : blocks) (a : allocator_t) : outcome blocks :=
  match al_buf a with
  | None => Undef
  | Some b => match h !! b with Some n => Done (<[b := (counter_add n 1).1]> h) | None => Undef end
  end.

(** [call_dec_ref (data, hint)]: the deallocation function of a message. *)
Definition al_call_dec_ref (h : blocks) (hint : option nat) : outcome blocks :=
  match hint with None => Abort | Some b => block_drop h b end.

Definition al_size (a : allocator_t) : Z := al_buf_size a.
Definition al_resize (a : allocator_t) (new_size : Z) : allocator_t :=
  Allocator (al_buf a) new_size (al_max_size a) (al_msg_content a) (al_max_counters a).
Definition al_provide_content (a : allocator_t) : Z := al_msg_content a.
Definition al_advance_content (a : allocator_t) : allocator_t :=
  Allocator (al_buf a) (al_buf_size a) (al_max_size a) (al_msg_content a + 1) (al_max_counters a).

(** ** Use by a decoder *)

(** A new receive buffer; a message made in the current one; the [i]-th live
    message is closed. *)
Inductive al_op := AlAllocate | AlMessage | AlClose (i : nat).

(** The state: the blocks, the allocator, and the buffers of the live messages. *)
Definition al_state : Type := blocks * allocator_t * list nat.

Definition al_step (st : al_state) (op : al_op) : outcome al_state :=
  let '(h, a, ms) := st in
  match op with
  | AlAllocate => '(_, h, a) ← al_allocate h a; Done (h, a, ms)
  | AlMessage =>
      match al_buf a with
      | None => Done st
      | Some b => h ← al_inc_ref h (al_advance_content a); Done (h, al_advance_content a, b :: ms)
      end
  | AlClose i =>
      match ms !! i with
      | None => Done st
      | Some b => h ← al_call_dec_ref h (Some b); Done (h, a, delete i ms)
      end
  end.

Fixpoint al_run (st : al_state) (ops : list al_op) : outcome al_state :=
  match ops with
  | [] => Done st
  | op :: ops => st ← al_step st op; al_run st ops
  end.

(** ** The invariant: the counter of a block is the number of its holders *)

Definition holders (a : allocator_t) (ms : list nat) (b : nat) : Z :=
  Z.of_nat (length (filter (λ b', b' = b) ms)) + (if decide (al_buf a = Some b) then 1 else 0).

Record al_inv (st : al_state) : Prop := {
  al_counts : ∀ b, match st.1.1 !! b with
                   | Some n => 0 < n ∧ n = holders st.1.2 st.2 b
                   | None => holders st.1.2 st.2 b = 0
                   end;
}.

Lemma holders_bounds a ms b : 0 ≤ holders a ms b ≤ Z.of_nat (length ms) + 1.
Proof. unfold holders. pose proof (length_filter (λ b', b' = b) ms). destruct (decide _); lia. Qed.

(** One holder of [b] goes. *)
Lemma block_drop_spec h b (f f' : nat → Z) :
  (∀ c, match h !! c with Some n => 0 < n ∧ n = f c | None => f c = 0 end) →
  0 < f b < 2 ^ 32 → f' b = f b - 1 → (∀ c, c ≠ b → f' c = f c) →
  ∃ h', block_drop h b = Done h'
    ∧ ∀ c, match h' !! c with Some n => 0 < n ∧ n = f' c | None => f' c = 0 end.
Proof.
  intros Hinv Hb Hfb Hfc. pose proof (Hinv b) as Hib. unfold block_drop, block_sub.
  destruct (h !! b) as [n|] eqn:Hn; [|lia]. rewrite counter_sub_spec by lia. rewrite bind_Done.
  case_bool_decide; eexists; (split; [done|]); intros c; specialize (Hinv c);
    (destruct (decide (c = b)) as [->|Hd]; [|specialize (Hfc c Hd); rewrite ?lookup_delete_ne, lookup_insert_ne by done; by rewrite Hfc]).
  - rewrite lookup_insert_eq. lia.
  - rewrite lookup_delete_eq. lia.
Qed.

(** A block without a counter for messages is used by none. *)
Lemma no_users (ms : list nat) b : length (filter (λ b', b' = b) ms) = 0%nat ↔ (b ∉ ms).
Proof.
  split.
  - intros Hl Hin. assert (b ∈ filter (λ b', b' = b) ms) as Hf by (by apply list_elem_of_filter).
    destruct (filter (λ b', b' = b) ms); [by apply elem_of_nil in Hf|done].
  - intros Hn. destruct (filter (λ b', b' = b) ms) as [|c l] eqn:E; [done|].
    assert (c ∈ filter (λ b', b' = b) ms) as Hc by (rewrite E; by left).
    apply list_elem_of_filter in Hc as [-> ?]. done.
Qed.

(** The new buffer of [allocate] is used by no message. *)
Lemma al_allocate_spec h a ms :
  al_inv (h, a, ms) → Z.of_nat (length ms) + 1 < 2 ^ 32 →
  ∃ b h' a', al_allocate h a = Done (b, h', a') ∧ al_inv (h', a', ms)
    ∧ al_buf a' = Some b ∧ (b ∉ ms) ∧ al_msg_content a' = 0.
Proof.
  intros [Hinv] Hlen. simpl in Hinv. unfold al_allocate.
  assert (Hnone : ∀ h0 a0, al_buf a0 = None →
    (∀ b, match h0 !! b with Some n => 0 < n ∧ n = holders a0 ms b | None => holders a0 ms b = 0 end) →
    let b := fresh (dom h0) in
    al_inv (<[b := 1]> h0, Allocator (Some b) (al_max_size a0) (al_max_size a0) 0 (al_max_counters a0), ms)
    ∧ b ∉ ms).
  { intros h0 a0 Ha0 Hi b.
    assert (Hb : h0 !! b = None) by (apply not_elem_of_dom, is_fresh).
    pose proof (Hi b) as Hib. rewrite Hb in Hib. unfold holders in Hib. rewrite Ha0 in Hib. simpl in Hib.
    assert (Hbm : b ∉ ms).
    { apply no_users. lia. }
    split; [|done]. split. simpl. intros c. specialize (Hi c). destruct (decide (c = b)) as [->|Hd].
    - rewrite lookup_insert_eq. unfold holders. simpl. rewrite decide_True by done. lia.
    - rewrite lookup_insert_ne by done. unfold holders in *. rewrite Ha0 in Hi. simpl in *.
      rewrite decide_False by congruence. exact Hi. }
  destruct (al_buf a) as [b|] eqn:Ha; last first.
  { rewrite bind_Done, Ha. destruct (Hnone h a Ha Hinv). eexists _, _, _. done. }
  pose proof (Hinv b) as Hib. pose proof (holders_bounds a ms b) as Hbd. unfold block_sub.
  destruct (h !! b) as [n|] eqn:Hn; [|unfold holders in Hib; rewrite decide_True in Hib by done; lia].
  rewrite counter_sub_spec by lia. rewrite bind_Done. case_bool_decide as H1.
  - rewrite bind_Done. simpl. destruct (Hnone (<[b := n - 1]> h) (al_clear a) eq_refl) as [Hi Hb].
    { intros c. specialize (Hinv c). unfold holders in *. simpl. destruct (decide (c = b)) as [->|Hd].
      - rewrite lookup_insert_eq. rewrite decide_True in * by done. lia.
      - rewrite lookup_insert_ne by done. rewrite (decide_False (P := al_buf a = Some c)) in Hinv by congruence.
        exact Hinv. }
    eexists _, _, _. done.
  - rewrite bind_Done, Ha. eexists b, _, _. split; [done|].
    assert (Hz : length (filter (λ b', b' = b) ms) = 0%nat).
    { unfold holders in Hib. rewrite decide_True in Hib by done. lia. }
    split; [|split; [done|split; [|done]]].
    + split. simpl. intros c. specialize (Hinv c). rewrite insert_insert_eq. unfold holders in *. simpl.
      destruct (decide (c = b)) as [->|Hd].
      * rewrite lookup_insert_eq, decide_True by done. lia.
      * rewrite lookup_insert_ne by done. rewrite (decide_False (P := al_buf a = Some c)) in Hinv by congruence.
        rewrite decide_False by congruence. exact Hinv.
    + by apply no_users.
Qed.

Lemma count_delete (ms : list nat) i b c :
  ms !! i = Some b →
  Z.of_nat (length (filter (λ b', b' = c) ms))
  = Z.of_nat (length (filter (λ b', b' = c) (delete i ms))) + (if decide (b = c) then 1 else 0).
Proof.
  intros Hi. rewrite (delete_Permutation ms i b Hi) at 1. rewrite filter_cons.
  destruct (decide (b = c)); simpl; lia.
Qed.

Lemma al_step_spec st op :
  al_inv st → Z.of_nat (length st.2) + 2 < 2 ^ 32 →
  ∃ st', al_step st op = Done st' ∧ al_inv st' ∧ (length st'.2 ≤ S (length st.2))%nat.
Proof.
  destruct st as [[h a] ms]. intros Hinv Hlen. simpl in Hlen. destruct op as [| |i]; simpl.
  - destruct (al_allocate_spec h a ms) as (b & h' & a' & -> & Hi & _); [done|lia|].
    rewrite bind_Done. eexists. split; [done|]. split; [done|]. simpl. lia.
  - destruct (al_buf a) as [b|] eqn:Ha; [|eexists; split; [done|]; split; [done|simpl; lia]].
    unfold al_inc_ref. simpl. rewrite Ha. destruct Hinv as [Hinv]. simpl in Hinv.
    pose proof (Hinv b) as Hib. pose proof (holders_bounds a ms b) as Hbd.
    assert (Hcur : holders a ms b = Z.of_nat (length (filter (λ b', b' = b) ms)) + 1).
    { unfold holders. by rewrite decide_True. }
    destruct (h !! b) as [n|] eqn:Hn; [|lia]. rewrite bind_Done. eexists. split; [done|].
    split; [|simpl; lia]. split. simpl. intros c. specialize (Hinv c). unfold holders in *. simpl.
    rewrite filter_cons. destruct (decide (c = b)) as [->|Hd].
    + rewrite lookup_insert_eq. rewrite (decide_True (P := al_buf a = Some b)) in * by done.
      rewrite decide_True by done. unfold counter_add. simpl. rewrite u32_small by lia. lia.
    + rewrite lookup_insert_ne by done. by rewrite (decide_False (P := b = c)).
  - destruct (ms !! i) as [b|] eqn:Hi; [|eexists; split; [done|]; split; [done|simpl; lia]].
    destruct Hinv as [Hinv]. simpl in Hinv. pose proof (holders_bounds a ms b) as Hbd.
    destruct (block_drop_spec h b (holders a ms) (holders a (delete i ms)) Hinv) as (h' & -> & Hh').
    + pose proof (count_delete ms i b b Hi) as Hc. rewrite decide_True in Hc by done.
      unfold holders in *. destruct (decide (al_buf a = Some b)); lia.
    + pose proof (count_delete ms i b b Hi) as Hc. rewrite decide_True in Hc by done.
      unfold holders. lia.
    + intros c Hd. pose proof (count_delete ms i b c Hi) as Hc. rewrite decide_False in Hc by done.
      unfold holders. lia.
    + rewrite bind_Done. eexists. split; [done|]. split; [by split|]. simpl.
      rewrite length_delete by (by rewrite Hi). lia.
Qed.

(** C20: However buffers are allocated, messages made in them and messages closed,
    every operation completes without touching a freed block; a block is in memory
    exactly while the allocator or a live message holds it, its counter being the
    number of holders; a new buffer is used by no live message; and after
    [deallocate] only the blocks of live messages are left. *)
Theorem allocator_buffers bufsize ops :
  Z.of_nat (length ops) + 2 < 2 ^ 32 →
  ∃ h a ms, al_run (∅, allocator_new bufsize, []) ops = Done (h, a, ms)
    ∧ (∀ b, is_Some (h !! b) ↔ b ∈ ms ∨ al_buf a = Some b)
    ∧ (∀ b n, h !! b = Some n → n = holders a ms b)
    ∧ (∃ b h' a', al_allocate h a = Done (b, h', a') ∧ (b ∉ ms))
    ∧ (∃ h' a', al_deallocate h a = Done (h', a') ∧ ∀ b, is_Some (h' !! b) ↔ b ∈ ms).
Proof.
  intros Hlen.
  assert (Hgen : ∀ ops st, al_inv st → Z.of_nat (length st.2) + Z.of_nat (length ops) + 2 < 2 ^ 32 →
    ∃ st', al_run st ops = Done st' ∧ al_inv st' ∧ Z.of_nat (length st'.2) + 2 < 2 ^ 32).
  { clear ops Hlen. induction ops as [|op ops IH]; intros st Hi Hl; simpl in *; [exists st; split_and!; [done..|lia]|].
    destruct (al_step_spec st op) as (st1 & -> & Hi1 & Hl1); [done|lia|]. apply IH; [done|lia]. }
  destruct (Hgen ops (∅, allocator_new bufsize, [])) as ([[h a] ms] & Hrun & Hinv & Hl); [|simpl; lia|].
  { split. simpl. intros b. by rewrite lookup_empty. }
  exists h, a, ms. simpl in Hl. destruct Hinv as [Hinv]. simpl in Hinv. split; [done|].
  assert (Hdom : ∀ b, is_Some (h !! b) ↔ b ∈ ms ∨ al_buf a = Some b).
  { intros b. specialize (Hinv b). unfold holders in Hinv. pose proof (no_users ms b) as Hu.
    destruct (h !! b) as [n|]; split; try done.
    - intros _. destruct (decide (al_buf a = Some b)); [by right|]. left.
      apply dec_stable. rewrite <- Hu. lia.
    - intros [Hin|Hb].
      + destruct (decide (length (filter (λ b', b' = b) ms) = 0%nat)); [by apply Hu in Hin|].
        destruct (decide (al_buf a = Some b)); lia.
      + rewrite decide_True in Hinv by done. lia. }
  split; [done|]. split; [|split].
  - intros b n Hn. specialize (Hinv b). rewrite Hn in Hinv. lia.
  - destruct (al_allocate_spec h a ms) as (b & h' & a' & ? & _ & _ & ? & _); [by split|lia|].
    by exists b, h', a'.
  - unfold al_deallocate. destruct (al_buf a) as [b|] eqn:Ha; last first.
    { eexists h, _. split; [done|]. intros b. rewrite Hdom. naive_solver. }
    pose proof (holders_bounds a ms b) as Hbd.
    destruct (block_drop_spec h b (holders a ms) (holders (al_clear a) ms) Hinv) as (h' & -> & Hh').
    + unfold holders in *. rewrite decide_True in * by done. lia.
    + unfold holders. simpl. rewrite decide_True by done. lia.
    + intros c Hd. unfold holders. simpl. by rewrite (decide_False (P := al_buf a = Some c)) by congruence.
    + rewrite bind_Done. eexists h', _. split; [done|]. intros c. specialize (Hh' c).
      unfold holders in Hh'. simpl in Hh'. pose proof (no_users ms c) as Hu.
      destruct (h' !! c) as [n|]; split; try done.
      * intros _. apply dec_stable. rewrite <- Hu. lia.
      * intros Hin. destruct (decide (length (filter (λ b', b' = c) ms) = 0%nat)); [by apply Hu in Hin|lia].
Qed.

Lemma allocator_buffers_witness :
  ∃ h a ms, al_run (∅, allocator_new 64, []) [AlAllocate; AlMessage; AlAllocate; AlClose 0] = Done (h, a, ms)
    ∧ (∀ b, is_Some (h !! b) ↔ b ∈ ms ∨ al_buf a = Some b).
Proof.
  destruct (allocator_buffers 64 [AlAllocate; AlMessage; AlAllocate; AlClose 0])
    as (h & a & ms & Hr & Hd & _); [simpl; lia|].
  exists h, a, ms. split; [exact Hr|exact Hd].
Defined.

(** ** The content slots of a buffer

    A zero-copy message takes one of the [m_max_counters] content slots behind the
    buffer.  Such a message has at least [max_vsm_size] bytes in the buffer, so the
    slots are enough. *)

(** [r] bytes of the buffer are behind the read position; a zero-copy message in
    progress has its remaining bytes there. *)
Definition slots_inv (bufsize r : Z) (d : v2_decoder_t) : Prop :=
  max_vsm_size * de_contents d ≤ bufsize - r
  ∨ de_next d = DMessageReady ∧ de_to_read d ≤ r
    ∧ max_vsm_size * de_contents d ≤ bufsize - r + de_to_read d.

Lemma slots_store bufsize r d bs :
  slots_inv bufsize r d → slots_inv bufsize (r - Z.of_nat (length bs)) (dec_store d bs).
Proof. unfold slots_inv. simpl. intros [?|(? & ? & ?)]; [left|right; split; [done|]]; lia. Qed.

Lemma slots_run cfg bufsize r d rc d' :
  slots_inv bufsize r d → de_to_read d = 0 → dec_run cfg r d = Done (rc, d') → slots_inv bufsize r d'.
Proof.
  intros Hinv H0 Hrun.
  assert (Hfirst : max_vsm_size * de_contents d ≤ bufsize - r) by (destruct Hinv as [?|(_ & _ & ?)]; lia).
  assert (Hsz : ∀ n, dec_size_ready cfg r n d = Done (rc, d') → slots_inv bufsize r d').
  { intros n. unfold dec_size_ready. destruct (decide (0 ≤ dc_max_msg_size cfg ∧ n > dc_max_msg_size cfg)); [by intros [= <- <-]|].
    destruct (decide (n ≠ u64 n)); [by intros [= <- <-]|].
    destruct (negb (dc_zero_copy cfg) || bool_decide (n > r)) eqn:Hown; simpl.
    - intros Heq. destruct (negb (_ || dc_malloc cfg _)) in Heq; simplify_eq; left; simpl; lia.
    - apply orb_false_iff in Hown as [_ Hr%bool_decide_eq_false].
      destruct (Z.ltb_spec n max_vsm_size) as [Hv|Hv]; intros [= <- <-]; simpl; [left; simpl; lia|].
      right. simpl. split; [done|]. lia. }
  unfold dec_run in Hrun. destruct (de_next d).
  - unfold dec_flags_ready in Hrun. inv_done. destruct (decide _) in Hrun; simplify_eq; left; simpl; lia.
  - unfold dec_one_byte_size_ready in Hrun. inv_done. by eapply Hsz.
  - unfold dec_eight_byte_size_ready in Hrun. inv_done. by eapply Hsz.
  - unfold dec_message_ready in Hrun. simplify_eq. left. simpl. lia.
Qed.

Lemma slots_steps fuel cfg bufsize r d rc d' :
  slots_inv bufsize r d → dec_steps fuel cfg r d = Done (rc, d') → slots_inv bufsize r d'.
Proof.
  revert d. induction fuel as [|fuel IH]; intros d Hinv; cbn [dec_steps]; [done|].
  destruct (decide (de_to_read d = 0)) as [H0|]; [|by intros [= <- <-]]. intros Hrun.
  apply bind_Done_inv in Hrun as ([rc1 d1] & H1 & Hrun). pose proof (slots_run _ _ _ _ _ _ Hinv H0 H1).
  destruct rc1; [by apply (IH d1)|by simplify_eq..].
Qed.

Lemma slots_loop fuel cfg bufsize room used data d rc used' d' :
  slots_inv bufsize (room - used) d →
  decode_loop fuel cfg room used data d = Done (rc, used', d') →
  used ≤ used' ∧ slots_inv bufsize (room - used') d'.
Proof.
  revert used data d. induction fuel as [|fuel IH]; intros used data d Hinv; cbn [decode_loop]; [done|].
  destruct data as [|b data]; [by intros [= <- <- <-]|]. set (k := Z.to_nat _). set (u := used + _). intros Hrun.
  apply bind_Done_inv in Hrun as ([rc1 d1] & H1 & Hrun).
  apply (slots_store _ _ _ (take k (b :: data))) in Hinv.
  replace (room - used - _) with (room - u) in Hinv by lia.
  pose proof (slots_steps _ _ _ _ _ _ _ Hinv H1).
  destruct rc1; [apply IH in Hrun as [? ?]; [split; [lia|done]|done]|simplify_eq; split; [lia|done]..].
Qed.

Lemma slots_feed fuel cfg bufsize room data d ms e d' :
  slots_inv bufsize room d → feed fuel cfg false room data d = Done (ms, e, d') →
  Z.of_nat (length data) ≤ room → ∃ r, 0 ≤ r ∧ slots_inv bufsize r d'.
Proof.
  revert room data d ms. induction fuel as [|fuel IH]; intros room data d ms Hinv; cbn [feed]; [done|].
  destruct data as [|b data]; [intros [= <- <- <-] ?; exists room; split; [simpl in *; lia|done]|].
  intros Hrun Hl. apply bind_Done_inv in Hrun as ([[rc used] d1] & H1 & Hrun).
  apply bind_Done_inv in Hrun as (? & Ha & Hrun).
  assert (Hu : used ≤ Z.of_nat (length (b :: data))).
  { unfold slk_assert in Ha. by case_bool_decide. }
  unfold decode in H1. pose proof H1 as H2.
  apply (slots_loop _ _ bufsize) in H2 as [Hu0 Hi]; [|by rewrite Z.sub_0_r].
  destruct rc as [| |e0]; [simplify_eq; exists (room - used); split; [lia|done]| |simplify_eq; exists (room - used); split; [lia|done]].
  apply bind_Done_inv in Hrun as ([[ms1 e1] d2] & H3 & Hrun). simplify_eq.
  apply (IH (room - used) _ d1 ms1) in H3; [done|done|]. rewrite length_drop. lia.
Qed.

(** The slots in use fit those allocated. *)
Lemma slots_enough bufsize r d :
  0 < bufsize < 2 ^ 63 → 0 ≤ r → slots_inv bufsize r d →
  de_contents d ≤ al_max_counters (allocator_new bufsize).
Proof.
  intros Hb Hr Hinv. simpl. assert (Hv : max_vsm_size = 33) by done.
  rewrite (u64_small (bufsize + max_vsm_size)), u64_small by lia.
  assert (Hc : max_vsm_size * de_contents d ≤ bufsize) by (destruct Hinv as [?|(_ & ? & ?)]; lia).
  rewrite Hv in *. apply Z.div_le_lower_bound; lia.
Qed.

(** One run of the state machine takes at most one slot. *)
Lemma steps_message fuel cfg r d rc d' :
  de_next d = DMessageReady → dec_steps fuel cfg r d = Done (rc, d') → de_contents d' = de_contents d.
Proof.
  intros Hn. destruct fuel as [|fuel]; [done|]. cbn [dec_steps].
  destruct (decide (de_to_read d = 0)); [|by intros [= <- <-]]. unfold dec_run. rewrite Hn. by intros [= <- <-].
Qed.

Lemma size_ready_slot cfg r n d rc d' :
  dec_size_ready cfg r n d = Done (rc, d') →
  de_contents d' ≤ de_contents d + 1 ∧ (rc = DGoOn → de_next d' = DMessageReady).
Proof.
  unfold dec_size_ready. destruct (decide (0 ≤ dc_max_msg_size cfg ∧ n > dc_max_msg_size cfg)); [intros [= <- <-]; split; [lia|done]|].
  destruct (decide (n ≠ u64 n)); [intros [= <- <-]; split; [lia|done]|].
  intros Heq. destruct (_ && negb (_ || _)) in Heq; simplify_eq; simpl; (split; [destruct (_ && _); lia|done]).
Qed.

Lemma steps_slot fuel cfg r d rc d' :
  dec_steps fuel cfg r d = Done (rc, d') → de_contents d' ≤ de_contents d + 1.
Proof.
  destruct fuel as [|fuel]; [done|]. cbn [dec_steps].
  destruct (decide (de_to_read d = 0)); [|intros [= <- <-]; lia]. intros Hrun.
  apply bind_Done_inv in Hrun as ([rc1 d1] & H1 & Hrun). unfold dec_run in H1.
  assert (Hsz : ∀ n, dec_size_ready cfg r n d = Done (rc1, d1) → de_contents d' ≤ de_contents d + 1).
  { intros n [Hc Hn]%size_ready_slot. destruct rc1; [|by simplify_eq..].
    by rewrite (steps_message _ _ _ _ _ _ (Hn eq_refl) Hrun). }
  destruct (de_next d).
  - unfold dec_flags_ready in H1. apply bind_Done_inv in H1 as (b & _ & H1).
    destruct fuel as [|fuel]; destruct (decide (Z.land b large_flag ≠ 0)) in H1; simplify_eq; try done;
      cbn [dec_steps] in Hrun; rewrite decide_False in Hrun by done; simplify_eq; simpl; lia.
  - unfold dec_one_byte_size_ready in H1. apply bind_Done_inv in H1 as (b & _ & H1). by eapply Hsz.
  - unfold dec_eight_byte_size_ready in H1. apply bind_Done_inv in H1 as (b & _ & H1). by eapply Hsz.
  - unfold dec_message_ready in H1. simplify_eq. simpl. lia.
Qed.

(** A buffer that is the memory of a message: at most one slot. *)
Lemma slots_feed_direct fuel cfg room data d ms e d' :
  feed fuel cfg true room data d = Done (ms, e, d') → de_contents d' ≤ de_contents d + 1.
Proof.
  destruct fuel as [|fuel]; [done|]. cbn [feed]. destruct data as [|b data]; [intros [= <- <- <-]; lia|].
  intros Hrun. apply bind_Done_inv in Hrun as ([[rc used] d1] & H1 & Hrun).
  apply bind_Done_inv in Hrun as (? & _ & Hrun). unfold decode in H1.
  apply bind_Done_inv in H1 as (? & _ & H1). apply bind_Done_inv in H1 as ([rc1 d2] & Hs & H1).
  apply steps_slot in Hs. simpl in Hs. injection H1 as <- <- <-.
  destruct rc1; [by simplify_eq| |by simplify_eq]. rewrite Nat2Z.id, drop_ge in Hrun by (simpl; lia).
  destruct fuel as [|fuel]; [done|]. cbn [feed] in Hrun. rewrite bind_Done in Hrun. by simplify_eq.
Qed.

(** Reading a stream through the decoder never needs more zero-copy content
    slots than the receive buffer has behind it ([m_max_counters]), whatever the
    stream holds and however it is fragmented. *)
Lemma content_slots_enough cfg bufsize sizes stream ms e d rest :
  0 < bufsize < 2 ^ 63 →
  read_stream cfg bufsize sizes stream v2_decoder_new = Done (ms, e, d, rest) →
  de_contents d ≤ al_max_counters (allocator_new bufsize).
Proof.
  intros Hb. assert (Hmax : 1 ≤ al_max_counters (allocator_new bufsize)).
  { simpl. assert (Hv : max_vsm_size = 33) by done.
    rewrite (u64_small (bufsize + max_vsm_size)), u64_small by lia. apply Z.div_le_lower_bound; lia. }
  assert (H0 : de_contents v2_decoder_new ≤ al_max_counters (allocator_new bufsize)) by (simpl in *; lia).
  revert H0. generalize v2_decoder_new as d0. revert stream ms.
  induction sizes as [|n sizes IH]; intros stream ms d0 H0; cbn [read_stream]; [by intros [= <- <- <- <-]|].
  unfold dec_get_buffer, feed_chunk.
  set (d1 := V2Decoder (de_stored d0) (de_to_read d0) (de_next d0) (de_msg_flags d0) (de_in_progress d0) 0).
  intros Hrun. 
  assert (Hstep : ∀ direct k ms1 e1 d2, (direct = false → k ≤ Z.to_nat bufsize)%nat →
    feed (S (length (take k stream))) cfg direct bufsize (take k stream) d1 = Done (ms1, e1, d2) →
    de_contents d2 ≤ al_max_counters (allocator_new bufsize)).
  { intros direct k ms1 e1 d2 Hk Hfeed. destruct direct.
    - apply slots_feed_direct in Hfeed. simpl in *. lia.
    - apply (slots_feed _ _ bufsize) in Hfeed as (r & Hr & Hi); [by eapply slots_enough| |].
      + left. simpl. lia.
      + rewrite length_take. specialize (Hk eq_refl). lia. }
  destruct (decide (bufsize ≤ de_to_read d0)); apply bind_Done_inv in Hrun as ([[ms1 e1] d2] & Hf & Hrun);
    (apply Hstep in Hf; [|intros; lia || done]); destruct e1; simplify_eq; try done;
    apply bind_Done_inv in Hrun as ([[[ms2 e2] d3] rest2] & Hf2 & Hrun); simplify_eq; by eapply IH.
Qed.

Lemma content_slots_enough_witness :
  match read_stream (DecCfg true (-1) (λ _, true)) 100 [100%nat]
          ([WMsg 0 (replicate 40 1); WMsg 0 (replicate 40 2)] ≫= v3_1_frame) v2_decoder_new with
  | Done (_, _, d, _) => de_contents d ≤ al_max_counters (allocator_new 100)
  | _ => False
  end.
Proof.
  destruct (read_stream (DecCfg true (-1) (λ _, true)) 100 [100%nat]
    ([WMsg 0 (replicate 40 1); WMsg 0 (replicate 40 2)] ≫= v3_1_frame) v2_decoder_new)
    as [[[[ms e] d] rest]| |] eqn:E; [|vm_compute in E; discriminate..].
  apply (content_slots_enough (DecCfg true (-1) (λ _, true)) 100 [100%nat]
    ([WMsg 0 (replicate 40 1); WMsg 0 (replicate 40 2)] ≫= v3_1_frame) ms e d rest); [lia|exact E].
Defined.
