(* ===== verification/PipeArray.v ===== *)
(** The intrusive array of src/core/array.hpp, as the distributor and the fair
    queue use it: an array of pipes in which every pipe stores its own index.

    Pipes are numbered.  The indices live in the pipes, so the model keeps the
    index every pipe claims beside the items; [erase] does not reset the index of
    the pipe that leaves, which therefore keeps a stale one. *)
From S2P Require Import Prelude.

Record array_t := Array {
  ar_items : list nat;
  ar_index : gmap nat Z;      (* [_array_index] of the pipes, -1 at first *)
}.

Definition array_new : array_t := Array [] ∅.

Definition ar_size (a : array_t) : Z := Z.of_nat (length (ar_items a)).

(** [index (item_)], as a [size_type]. *)
Definition ar_get_index (a : array_t) (p : nat) : Z := u64 (default (-1) (ar_index a !! p)).

Definition ar_push_back (a : array_t) (p : nat) : array_t :=
  Array (ar_items a ++ [p]) (<[p := s32 (ar_size a)]> (ar_index a)).

(** [erase (index_)] *)
Definition ar_erase_at (a : array_t) (i : Z) : outcome array_t :=
  match last (ar_items a) with
  | None => Undef
  | Some b =>
      items ← seti (ar_items a) i b;
      Done (Array (take (length items - 1) items) (<[b := s32 i]> (ar_index a)))
  end.

(** [erase (item_)] *)
Definition ar_erase (a : array_t) (p : nat) : outcome array_t := ar_erase_at a (ar_get_index a p).

Definition ar_swap (a : array_t) (i j : Z) : outcome array_t :=
  x ← geti (ar_items a) i;
  y ← geti (ar_items a) j;
  let index := <[y := s32 i]> (<[x := s32 j]> (ar_index a)) in
  items ← seti (ar_items a) i y;
  items ← seti items j x;
  Done (Array items index).

(** ** Invariant: the items know their index *)

Record ar_wf (a : array_t) : Prop := {
  ar_nodup : NoDup (ar_items a);
  ar_len : ar_size a < 2 ^ 31;
  ar_idx : ∀ i p, ar_items a !! i = Some p → ar_index a !! p = Some (Z.of_nat i);
}.

(** Exchange two elements of a list. *)
Definition lswap (l : list nat) (i j : nat) : list nat :=
  match l !! i, l !! j with
  | Some x, Some y => <[j := x]> (<[i := y]> l)
  | _, _ => l
  end.

Lemma length_lswap l i j : length (lswap l i j) = length l.
Proof. unfold lswap. destruct (l !! i), (l !! j); by rewrite ?length_insert. Qed.

Lemma lswap_id l i : lswap l i i = l.
Proof. unfold lswap. destruct (l !! i) eqn:H; [|done]. by rewrite list_insert_insert_eq, list_insert_id. Qed.

Lemma lswap_perm l i j : lswap l i j ≡ₚ l.
Proof.
  unfold lswap. destruct (l !! i) as [x|] eqn:Hi, (l !! j) as [y|] eqn:Hj; try done.
  destruct (decide (i = j)) as [->|Hd].
  { by rewrite list_insert_insert_eq, list_insert_id. }
  pose proof (insert_swap l i x y Hi) as H1.
  pose proof (insert_swap (<[i := y]> l) j y x) as H2. rewrite list_lookup_insert_ne in H2 by done.
  specialize (H2 Hj). apply (Permutation_cons_inv (a := y)). by rewrite H2.
Qed.

Lemma lswap_lookup l i j k :
  (i < length l)%nat → (j < length l)%nat →
  lswap l i j !! k = if decide (k = j) then l !! i else if decide (k = i) then l !! j else l !! k.
Proof.
  intros Hi Hj. apply lookup_lt_is_Some_2 in Hi as [x Hx]. apply lookup_lt_is_Some_2 in Hj as [y Hy].
  unfold lswap. rewrite Hx, Hy. pose proof (lookup_lt_Some _ _ _ Hx). pose proof (lookup_lt_Some _ _ _ Hy).
  destruct (decide (k = j)) as [->|]; [by rewrite list_lookup_insert_eq by (by rewrite length_insert)|].
  rewrite list_lookup_insert_ne by done. destruct (decide (k = i)) as [->|].
  - by rewrite list_lookup_insert_eq.
  - by rewrite list_lookup_insert_ne.
Qed.

Lemma ar_get_index_spec a i p :
  ar_wf a → ar_items a !! i = Some p → ar_get_index a p = Z.of_nat i.
Proof.
  intros Hwf Hi. unfold ar_get_index. rewrite (ar_idx a Hwf i p Hi). simpl.
  pose proof (ar_len a Hwf). pose proof (lookup_lt_Some _ _ _ Hi). unfold ar_size in *. apply u64_small. lia.
Qed.

Lemma ar_swap_spec a (i j : nat) :
  ar_wf a → (i < length (ar_items a))%nat → (j < length (ar_items a))%nat →
  ∃ a', ar_swap a (Z.of_nat i) (Z.of_nat j) = Done a' ∧ ar_wf a' ∧ ar_items a' = lswap (ar_items a) i j.
Proof.
  intros Hwf Hi Hj. pose proof (ar_len a Hwf) as Hlen. unfold ar_size in Hlen.
  pose proof (lookup_lt_is_Some_2 _ _ Hi) as [x Hx]. pose proof (lookup_lt_is_Some_2 _ _ Hj) as [y Hy].
  unfold ar_swap. rewrite (geti_Some _ i x Hx), bind_Done, (geti_Some _ j y Hy), bind_Done.
  rewrite seti_in_range, bind_Done by lia. rewrite seti_in_range, bind_Done by (rewrite length_insert; lia).
  rewrite !Nat2Z.id, !s32_small by lia. eexists. split; [done|].
  assert (Hitems : <[j := x]> (<[i := y]> (ar_items a)) = lswap (ar_items a) i j).
  { unfold lswap. by rewrite Hx, Hy. }
  split; [|done]. split; simpl.
  - rewrite Hitems, lswap_perm. apply Hwf.
  - unfold ar_size. simpl. by rewrite !length_insert.
  - intros k p. rewrite Hitems, lswap_lookup by done. pose proof (ar_nodup a Hwf) as Hnd.
    destruct (decide (k = j)) as [->|Hkj].
    + intros Hp. assert (p = x) as -> by congruence. destruct (decide (x = y)) as [->|Hxy].
      * rewrite lookup_insert_eq. f_equal. f_equal. eapply NoDup_lookup; [done|exact Hx|exact Hy].
      * by rewrite lookup_insert_ne, lookup_insert_eq.
    + destruct (decide (k = i)) as [->|Hki].
      * intros Hp. assert (p = y) as -> by congruence. by rewrite lookup_insert_eq.
      * intros Hp. rewrite !lookup_insert_ne; [by apply (ar_idx a Hwf)|..]; intros ->.
        -- apply Hki. eapply NoDup_lookup; [done|exact Hp|exact Hx].
        -- apply Hkj. eapply NoDup_lookup; [done|exact Hp|exact Hy].
Qed.

Lemma ar_push_back_spec a p :
  ar_wf a → p ∉ ar_items a → ar_size a + 1 < 2 ^ 31 →
  ar_wf (ar_push_back a p) ∧ ar_items (ar_push_back a p) = ar_items a ++ [p].
Proof.
  intros Hwf Hp Hlen. split; [|done]. unfold ar_size in *. split; simpl.
  - apply NoDup_app. split; [apply Hwf|]. split; [|apply NoDup_singleton].
    intros x Hx ->%list_elem_of_singleton. done.
  - unfold ar_size. simpl. rewrite length_app. simpl. lia.
  - intros i q Hi. unfold ar_size. rewrite s32_small by lia.
    apply lookup_app_Some in Hi as [Hi|[Hge Hi]].
    + rewrite lookup_insert_ne; [by apply (ar_idx a Hwf)|]. intros ->. apply Hp. by eapply list_elem_of_lookup_2.
    + apply list_lookup_singleton_Some in Hi as [? <-]. rewrite lookup_insert_eq. f_equal. lia.
Qed.

(** The last pipe takes the place of the one erased. *)
Lemma ar_erase_spec a p i :
  ar_wf a → ar_items a !! i = Some p →
  ∃ a', ar_erase a p = Done a' ∧ ar_wf a'
    ∧ ar_items a' = take (length (ar_items a) - 1) (lswap (ar_items a) i (length (ar_items a) - 1)).
Proof.
  intros Hwf Hi. pose proof (ar_len a Hwf) as Hlen. unfold ar_size in Hlen. pose proof (lookup_lt_Some _ _ _ Hi) as Hil.
  unfold ar_erase, ar_erase_at. rewrite (ar_get_index_spec a i p) by done.
  rewrite last_lookup. pose proof (lookup_lt_is_Some_2 (ar_items a) (Init.Nat.pred (length (ar_items a)))) as [b Hb]; [lia|].
  rewrite Hb. rewrite seti_in_range, bind_Done by lia. rewrite Nat2Z.id, s32_small by lia.
  rewrite <- Nat.sub_1_r in Hb. set (n := (length (ar_items a) - 1)%nat) in *.
  assert (Hn : (n < length (ar_items a))%nat) by lia.
  assert (Htk : take n (<[i := b]> (ar_items a)) = take n (lswap (ar_items a) i n)).
  { unfold lswap. rewrite Hi, Hb. by rewrite (take_insert_ge _ _ n). }
  eexists. split; [done|]. simpl. rewrite length_insert. fold n. split; [|done].
  assert (Hnd : NoDup (take n (lswap (ar_items a) i n))).
  { eapply sublist_NoDup; [|apply sublist_take]. rewrite lswap_perm. apply Hwf. }
  split; simpl; rewrite ?length_insert; fold n.
  - by rewrite Htk.
  - unfold ar_size. simpl. rewrite length_take, length_insert. lia.
  - rewrite Htk. intros k q Hk. pose proof Hk as Hkn. apply lookup_take_Some in Hk as [Hk Hkn'].
    rewrite lswap_lookup in Hk by done. rewrite decide_False in Hk by lia.
    destruct (decide (k = i)) as [->|Hki].
    + assert (q = b) as -> by congruence. by rewrite lookup_insert_eq.
    + rewrite lookup_insert_ne; [by apply (ar_idx a Hwf)|]. intros ->.
      assert (k = n) by (eapply NoDup_lookup; [apply Hwf|exact Hk|exact Hb]). lia.
Qed.

Lemma lswap_comm l i j : lswap l i j = lswap l j i.
Proof.
  unfold lswap. destruct (decide (i = j)) as [->|Hd]; [done|].
  destruct (l !! i), (l !! j); try done. by apply list_insert_insert_ne.
Qed.

(** ** Exchanges and the front part of a list *)

Lemma take_lswap_ge l n i j : (n ≤ i)%nat → (n ≤ j)%nat → take n (lswap l i j) = take n l.
Proof.
  intros Hi Hj. unfold lswap. destruct (l !! i), (l !! j); try done. by rewrite !take_insert_ge.
Qed.

Lemma drop_lswap_lt l n i j : (i < n)%nat → (j < n)%nat → drop n (lswap l i j) = drop n l.
Proof.
  intros Hi Hj. unfold lswap. destruct (l !! i), (l !! j); try done. by rewrite !drop_insert_lt.
Qed.

Lemma take_lswap_lt l n i j :
  (i < n)%nat → (j < n)%nat → (n ≤ length l)%nat → take n (lswap l i j) = lswap (take n l) i j.
Proof.
  intros Hi Hj Hn. apply list_eq. intros k. destruct (decide (k < n)%nat).
  - rewrite lookup_take_lt by done. rewrite !lswap_lookup by (rewrite ?length_take; lia).
    rewrite !lookup_take_lt by done. done.
  - rewrite lookup_take_ge by lia. symmetry. apply lookup_ge_None. rewrite length_lswap, length_take. lia.
Qed.

Lemma take_lswap_perm l n i j :
  (i < n)%nat → (j < n)%nat → (n ≤ length l)%nat → take n (lswap l i j) ≡ₚ take n l.
Proof. intros. rewrite take_lswap_lt by done. apply lswap_perm. Qed.

(** Bringing an element to the border of the front part. *)
Lemma take_S_lswap l k i p :
  (k ≤ i)%nat → l !! i = Some p → take (S k) (lswap l i k) = take k l ++ [p].
Proof.
  intros Hk Hp. pose proof (lookup_lt_Some _ _ _ Hp) as Hi.
  rewrite (take_S_r _ _ p).
  - by rewrite take_lswap_ge.
  - rewrite lswap_lookup by lia. by rewrite decide_True.
Qed.

(** Taking an element of the front part out of it. *)
Lemma take_lswap_out l k i p :
  (i ≤ k)%nat → (k < length l)%nat → l !! i = Some p → take (S k) l ≡ₚ take k (lswap l i k) ++ [p].
Proof.
  intros Hk Hl Hp. rewrite <- (take_lswap_perm l (S k) i k) by lia.
  rewrite (take_S_r _ _ p); [done|]. rewrite lswap_lookup by lia. by rewrite decide_True.
Qed.

Lemma lswap_elem l i j p : p ∈ lswap l i j ↔ p ∈ l.
Proof. by rewrite lswap_perm. Qed.

(** ** The parts of the array as sets *)

Lemma set_perm (l l' : list nat) : l ≡ₚ l' → list_to_set l =@{gset nat} list_to_set l'.
Proof. intros Hp. apply leibniz_equiv. by rewrite Hp. Qed.

Lemma set_remove (l l' : list nat) p :
  NoDup l → l ≡ₚ p :: l' ∨ (p ∉ l) ∧ l' = l → list_to_set l' =@{gset nat} list_to_set l ∖ {[p]}.
Proof.
  intros Hnd [Hp|[Hp ->]]; [|set_solver]. rewrite Hp in Hnd. apply NoDup_cons in Hnd as [Hn _].
  apply leibniz_equiv. rewrite (set_perm _ _ Hp). set_solver.
Qed.

Lemma set_reject (l l' r : list nat) :
  NoDup l → l ≡ₚ r ++ l' → list_to_set l' =@{gset nat} list_to_set l ∖ list_to_set r.
Proof.
  intros Hnd Hp. rewrite Hp in Hnd. apply NoDup_app in Hnd as (_ & Hn & _).
  rewrite (set_perm _ _ Hp). apply leibniz_equiv. rewrite list_to_set_app. set_solver.
Qed.
