(* ===== verification/Dist.v ===== *)
(** The distributor of src/pipe/dist.cpp.

    [OutPipes] is what the distributor needs of its pipes: [write], [flush] and
    [check_hwm], with a history of the writes and flushes: a [write] that answers
    [true] has taken over one handle of the message, the others none.  The distributor's array of pipes is
    split by three counters; [dist_inv] is the discipline between them, and the
    operations preserve it.  [distribute] sends the message exactly once to every
    matching pipe that accepts it, makes the others passive, and uses up exactly
    the references of the message. *)
From S2P Require Import Prelude Msg PipeArray.

(** ** The pipes *)

(** What a pipe sees: the writes it was asked for, with their answers, and the
    flushes. *)
Inductive pipe_event := EvWrite (p : nat) (m : msg_t) (ok : bool) | EvFlush (p : nat).

Class OutPipes (W : Type) := {
  op_write : W → nat → msg_t → bool * W;
  op_flush : W → nat → W;
  op_check_hwm : W → nat → bool;
  (** The history of the pipes. *)
  op_log : W → list pipe_event;
  op_write_log : ∀ w p m, op_log (op_write w p m).2 = op_log w ++ [EvWrite p m (op_write w p m).1];
  op_flush_log : ∀ w p, op_log (op_flush w p) = op_log w ++ [EvFlush p];
}.

(** ** State *)

Record dist_t := Dist {
  di_pipes : array_t;
  di_matching : nat;
  di_active : nat;
  di_eligible : nat;
  di_more : bool;
}.

Definition dist_new : dist_t := Dist array_new 0 0 0 false.

(** [counter - 1] of a [size_type] that indexes the array: below zero it is out of
    the array. *)
Definition dec_index (n : nat) : outcome nat := match n with O => Undef | S n => Done n end.

Definition di_index (d : dist_t) (p : nat) : nat := Z.to_nat (ar_get_index (di_pipes d) p).
Definition di_size (d : dist_t) : nat := length (ar_items (di_pipes d)).

Definition di_swap (d : dist_t) (i j : nat) : outcome dist_t :=
  a ← ar_swap (di_pipes d) (Z.of_nat i) (Z.of_nat j);
  Done (Dist a (di_matching d) (di_active d) (di_eligible d) (di_more d)).

Definition di_set (d : dist_t) (matching active eligible : nat) : dist_t :=
  Dist (di_pipes d) matching active eligible (di_more d).

(** ** Operations *)

Definition dist_attach (d : dist_t) (p : nat) : outcome dist_t :=
  let d := Dist (ar_push_back (di_pipes d) p) (di_matching d) (di_active d) (di_eligible d) (di_more d) in
  last ← dec_index (di_size d);
  if di_more d then
    d ← di_swap d (di_eligible d) last;
    Done (di_set d (di_matching d) (di_active d) (S (di_eligible d)))
  else
    d ← di_swap d (di_active d) last;
    Done (di_set d (di_matching d) (S (di_active d)) (S (di_eligible d))).

Definition dist_has_pipe (d : dist_t) (p : nat) : bool :=
  match ar_items (di_pipes d) !! di_index d p with
  | Some q => bool_decide (q = p)
  | None => false
  end.

Definition dist_match (d : dist_t) (p : nat) : outcome dist_t :=
  if decide (di_index d p < di_matching d)%nat then Done d
  else if decide (di_eligible d ≤ di_index d p)%nat then Done d
  else
    d ← di_swap d (di_index d p) (di_matching d);
    Done (di_set d (S (di_matching d)) (di_active d) (di_eligible d)).

Definition dist_unmatch (d : dist_t) : dist_t := di_set d 0 (di_active d) (di_eligible d).

(** [for (i = prev_matching; i < _eligible; ++i) _pipes.swap (i, _matching++)] *)
Fixpoint reverse_loop (fuel : nat) (d : dist_t) (i : nat) : outcome dist_t :=
  match fuel with
  | O => Undef
  | S fuel =>
      if decide (i < di_eligible d)%nat then
        d ← di_swap d i (di_matching d);
        reverse_loop fuel (di_set d (S (di_matching d)) (di_active d) (di_eligible d)) (S i)
      else Done d
  end.

Definition dist_reverse_match (d : dist_t) : outcome dist_t :=
  let prev_matching := di_matching d in
  reverse_loop (S (di_eligible d)) (dist_unmatch d) prev_matching.

Definition dist_pipe_terminated (d : dist_t) (p : nat) : outcome dist_t :=
  d ← (if decide (di_index d p < di_matching d)%nat then
         k ← dec_index (di_matching d);
         d ← di_swap d (di_index d p) k; Done (di_set d k (di_active d) (di_eligible d))
       else Done d);
  d ← (if decide (di_index d p < di_active d)%nat then
         k ← dec_index (di_active d);
         d ← di_swap d (di_index d p) k; Done (di_set d (di_matching d) k (di_eligible d))
       else Done d);
  d ← (if decide (di_index d p < di_eligible d)%nat then
         k ← dec_index (di_eligible d);
         d ← di_swap d (di_index d p) k; Done (di_set d (di_matching d) (di_active d) k)
       else Done d);
  a ← ar_erase (di_pipes d) p;
  Done (Dist a (di_matching d) (di_active d) (di_eligible d) (di_more d)).

Definition dist_activated (d : dist_t) (p : nat) : outcome dist_t :=
  d ← (if decide (di_eligible d < di_size d)%nat then
         d ← di_swap d (di_index d p) (di_eligible d);
         Done (di_set d (di_matching d) (di_active d) (S (di_eligible d)))
       else Done d);
  if decide (di_more d = false ∧ (di_active d < di_size d)%nat) then
    k ← dec_index (di_eligible d);
    d ← di_swap d k (di_active d);
    Done (di_set d (di_matching d) (S (di_active d)) (di_eligible d))
  else Done d.

Section dist.
Context {W : Type} `{!OutPipes W}.

(** [write (pipe_, msg_)]: whether the pipe took the message. *)
Definition dist_write (w : W) (d : dist_t) (p : nat) (m : msg_t) : outcome (bool * W * dist_t) :=
  let '(ok, w) := op_write w p m in
  if ok : bool then
    Done (true, (if has_flag m msg_more then w else op_flush w p), d)
  else
    k ← dec_index (di_matching d);
    d ← di_swap d (di_index d p) k;
    let d := di_set d k (di_active d) (di_eligible d) in
    k ← dec_index (di_active d);
    d ← di_swap d (di_index d p) k;
    let d := di_set d (di_matching d) k (di_eligible d) in
    k ← dec_index (di_eligible d);
    d ← di_swap d (di_active d) k;
    Done (false, w, di_set d (di_matching d) (di_active d) k).

(** [for (i = 0; i < _matching;) if (!write (...)) ++failed; else ++i;]
    Every turn moves [i] or [_matching]. *)
Fixpoint dist_loop (fuel : nat) (w : W) (d : dist_t) (m : msg_t) (i failed : nat)
    : outcome (nat * W * dist_t) :=
  match fuel with
  | O => Undef
  | S fuel =>
      if decide (i < di_matching d)%nat then
        p ← geti (ar_items (di_pipes d)) (Z.of_nat i);
        '(ok, w, d) ← dist_write w d p m;
        if ok : bool then dist_loop fuel w d m (S i) failed
        else dist_loop fuel w d m i (S failed)
      else Done (failed, w, d)
  end.

(** [distribute (msg_)]: the message is empty afterwards. *)
Definition dist_distribute (h : heap) (w : W) (d : dist_t) (m : msg_t)
    : outcome (heap * W * dist_t * msg_t) :=
  if decide (di_matching d = 0%nat) then
    '(rc, h, _) ← msg_close h m;
    assert! bool_decide (rc = RcOk);;
    Done (h, w, d, msg_init)
  else if is_vsm m then
    '(_, w, d) ← dist_loop (S (di_matching d)) w d m 0 0;
    Done (h, w, d, msg_init)
  else
    '(h, m) ← msg_add_refs h m (s32 (Z.of_nat (di_matching d)) - 1);
    '(failed, w, d) ← dist_loop (S (di_matching d)) w d m 0 0;
    h ← (if decide (failed ≠ 0%nat) then
           '(_, h, _) ← msg_rm_refs h m (Z.of_nat failed); Done h
         else Done h);
    Done (h, w, d, msg_init).

Definition dist_send_to_matching (h : heap) (w : W) (d : dist_t) (m : msg_t)
    : outcome (heap * W * dist_t * msg_t) :=
  let more := has_flag m msg_more in
  '(h, w, d, m) ← dist_distribute h w d m;
  let active := if more then di_active d else di_eligible d in
  Done (h, w, Dist (di_pipes d) (di_matching d) active (di_eligible d) more, m).

Definition dist_send_to_all (h : heap) (w : W) (d : dist_t) (m : msg_t)
    : outcome (heap * W * dist_t * msg_t) :=
  dist_send_to_matching h w (di_set d (di_active d) (di_active d) (di_eligible d)) m.

Definition dist_has_out : bool := true.

(** [for (i = 0; i < _matching; ++i) if (!_pipes[i]->check_hwm ()) return false] *)
Definition dist_check_hwm (w : W) (d : dist_t) : bool :=
  forallb (op_check_hwm w) (take (di_matching d) (ar_items (di_pipes d))).

Definition dist_get_pipe_count (d : dist_t) : nat := di_size d.
Definition dist_get_pipe (d : dist_t) (i : nat) : option nat := ar_items (di_pipes d) !! i.

End dist.

(** ** Invariant *)

Record dist_inv (d : dist_t) : Prop := {
  di_wf : ar_wf (di_pipes d);
  di_matching_le : (di_matching d ≤ di_active d)%nat;
  di_active_le : (di_active d ≤ di_eligible d)%nat;
  di_eligible_le : (di_eligible d ≤ di_size d)%nat;
  di_idle : di_more d = false → di_active d = di_eligible d;
}.

Lemma dist_new_inv : dist_inv dist_new.
Proof. split; simpl; try done. split; [constructor|done|done]. Qed.

(** The parts of the array. *)
Definition matching_pipes (d : dist_t) : list nat := take (di_matching d) (ar_items (di_pipes d)).
Definition active_pipes (d : dist_t) : list nat := take (di_active d) (ar_items (di_pipes d)).
Definition eligible_pipes (d : dist_t) : list nat := take (di_eligible d) (ar_items (di_pipes d)).
Definition passive_pipes (d : dist_t) : list nat := drop (di_eligible d) (ar_items (di_pipes d)).

Lemma di_swap_spec d i j :
  ar_wf (di_pipes d) → (i < di_size d)%nat → (j < di_size d)%nat →
  ∃ a, di_swap d i j = Done (Dist a (di_matching d) (di_active d) (di_eligible d) (di_more d))
    ∧ ar_wf a ∧ ar_items a = lswap (ar_items (di_pipes d)) i j.
Proof.
  intros Hwf Hi Hj. unfold di_swap. destruct (ar_swap_spec (di_pipes d) i j) as (a & -> & Hwf' & Hit); [done..|].
  exists a. done.
Qed.

Lemma di_index_spec d i p :
  ar_wf (di_pipes d) → ar_items (di_pipes d) !! i = Some p → di_index d p = i.
Proof. intros Hwf Hi. unfold di_index. rewrite (ar_get_index_spec _ i p) by done. lia. Qed.

Ltac di_lia := unfold di_size in *; simpl in *; rewrite ?length_lswap in *; lia.

(** Run the next exchange of the goal. *)
Ltac di_swap_step a Hwf Hit :=
  match goal with
  | |- context [di_swap ?d ?i ?j] =>
      destruct (di_swap_spec d i j) as (a & -> & Hwf & Hit); [done|di_lia|di_lia|];
      rewrite bind_Done; cbn [di_pipes di_matching di_active di_eligible di_more di_set] in *
  end.

Lemma dist_attach_spec d p :
  dist_inv d → p ∉ ar_items (di_pipes d) → ar_size (di_pipes d) + 1 < 2 ^ 31 →
  ∃ d', dist_attach d p = Done d' ∧ dist_inv d' ∧ di_more d' = di_more d
    ∧ ar_items (di_pipes d') ≡ₚ p :: ar_items (di_pipes d) ∧ matching_pipes d' = matching_pipes d
    ∧ eligible_pipes d' = eligible_pipes d ++ [p]
    ∧ (di_more d = true → active_pipes d' = active_pipes d).
Proof.
  intros [Hwf H1 H2 H3 H4] Hp Hlen. destruct (ar_push_back_spec (di_pipes d) p Hwf Hp Hlen) as [Hwf1 Hit1].
  unfold dist_attach. set (d1 := Dist _ _ _ _ _).
  assert (Hsz : di_size d1 = S (di_size d)) by (unfold di_size, d1; simpl; rewrite length_app; simpl; lia).
  rewrite Hsz. cbn [dec_index]. rewrite bind_Done.
  assert (Hgen : ∀ k, (k ≤ di_size d)%nat → ∃ a, di_swap d1 k (di_size d)
      = Done (Dist a (di_matching d1) (di_active d1) (di_eligible d1) (di_more d1)) ∧ ar_wf a
      ∧ ar_items a ≡ₚ p :: ar_items (di_pipes d)
      ∧ take (S k) (ar_items a) = take k (ar_items (di_pipes d)) ++ [p]).
  { intros k Hk. destruct (di_swap_spec d1 k (di_size d)) as (a & Hs & Hwf' & Hit); [done|lia|lia|].
    exists a. split; [done|]. split; [done|]. rewrite Hit. unfold d1. simpl. split.
    - rewrite lswap_perm. by rewrite Permutation_app_comm.
    - rewrite lswap_comm, (take_S_lswap _ k _ p); [|done|by apply list_lookup_middle].
      by rewrite take_app_le. }
  change (di_more d1) with (di_more d). destruct (di_more d) eqn:Hmore.
  - destruct (Hgen (di_eligible d1)) as (a & -> & Hwf' & Hperm & Htk); [done|]. rewrite bind_Done.
    eexists. split; [done|]. unfold matching_pipes, active_pipes, eligible_pipes, di_size in *. simpl in *.
    assert (Hla : length (ar_items a) = S (length (ar_items (di_pipes d)))) by (by rewrite Hperm).
    split; [split; simpl; [done|lia|lia|unfold di_size; simpl; lia|congruence]|].
    split; [congruence|]. split; [done|].
    assert (Hle : ∀ n, (n ≤ di_eligible d)%nat → take n (ar_items a) = take n (ar_items (di_pipes d))).
    { intros n Hn. rewrite <- (take_take_le _ _ (S (di_eligible d))), Htk by lia.
      rewrite take_app_le by (rewrite length_take; lia). by rewrite take_take_le by lia. }
    split; [apply Hle; lia|]. split; [done|]. intros _. apply Hle. lia.
  - specialize (H4 eq_refl).
    destruct (Hgen (di_active d1)) as (a & -> & Hwf' & Hperm & Htk); [unfold d1; simpl; lia|]. rewrite bind_Done.
    eexists. split; [done|]. unfold matching_pipes, active_pipes, eligible_pipes, di_size in *. simpl in *.
    assert (Hla : length (ar_items a) = S (length (ar_items (di_pipes d)))) by (by rewrite Hperm).
    split; [split; simpl; [done|lia|lia|unfold di_size; simpl; lia|lia]|].
    split; [congruence|]. split; [done|]. rewrite <- H4. split; [|split; [done|congruence]].
    rewrite <- (take_take_le _ _ (S (di_active d))), Htk by lia. rewrite take_app_le by (rewrite length_take; lia).
    by rewrite take_take_le by lia.
Qed.

(** A pipe that is eligible becomes matching. *)
Lemma dist_match_spec d p :
  dist_inv d → di_more d = false → p ∈ ar_items (di_pipes d) →
  ∃ d', dist_match d p = Done d' ∧ dist_inv d' ∧ di_more d' = false
    ∧ ar_items (di_pipes d') ≡ₚ ar_items (di_pipes d) ∧ eligible_pipes d' ≡ₚ eligible_pipes d
    ∧ ((p ∈ matching_pipes d ∨ p ∉ eligible_pipes d) ∧ d' = d
       ∨ p ∈ eligible_pipes d ∧ matching_pipes d' = matching_pipes d ++ [p]).
Proof.
  intros Hinv Hmore Hp. pose proof Hinv as [Hwf H1 H2 H3 H4].
  apply list_elem_of_lookup in Hp as [i Hi]. pose proof (lookup_lt_Some _ _ _ Hi) as Hil.
  unfold dist_match, matching_pipes, eligible_pipes in *. rewrite (di_index_spec d i p) by done.
  destruct (decide (i < di_matching d)%nat) as [Hm|Hm].
  { exists d. split_and!; try done. left. split; [|done]. left.
    eapply (list_elem_of_lookup_2 _ i). by rewrite lookup_take_lt. }
  destruct (decide (di_eligible d ≤ i)%nat) as [He|He].
  { exists d. split_and!; try done. left. split; [|done]. right.
    intros (k & Hk & Hkl)%elem_of_take. pose proof (NoDup_lookup _ _ _ _ (ar_nodup _ Hwf) Hi Hk). lia. }
  destruct (di_swap_spec d i (di_matching d)) as (a & -> & Hwf' & Hit); [done|di_lia|di_lia|].
  rewrite bind_Done. eexists. split; [done|]. simpl. rewrite Hit. unfold di_size in *.
  split; [|split; [done|split; [apply lswap_perm|split]]].
  - specialize (H4 Hmore). split; simpl; [done|lia|done|unfold di_size; simpl; rewrite Hit, length_lswap; lia|done].
  - apply take_lswap_perm; lia.
  - right. split.
    + eapply (list_elem_of_lookup_2 _ i). by rewrite lookup_take_lt by lia.
    + apply take_S_lswap; [lia|done].
Qed.

Lemma reverse_loop_spec fuel d L pm :
  ar_wf (di_pipes d) → (di_matching d + pm ≤ di_eligible d ≤ di_size d)%nat →
  (di_eligible d - (di_matching d + pm) < fuel)%nat →
  length (ar_items (di_pipes d)) = length L →
  take (di_matching d) (ar_items (di_pipes d)) = take (di_matching d) (drop pm L) →
  drop (di_matching d + pm) (ar_items (di_pipes d)) = drop (di_matching d + pm) L →
  ∃ a, reverse_loop fuel d (di_matching d + pm)
      = Done (Dist a (di_eligible d - pm) (di_active d) (di_eligible d) (di_more d))
    ∧ ar_wf a ∧ ar_items a ≡ₚ ar_items (di_pipes d)
    ∧ take (di_eligible d) (ar_items a) ≡ₚ take (di_eligible d) (ar_items (di_pipes d))
    ∧ take (di_eligible d - pm) (ar_items a) = take (di_eligible d - pm) (drop pm L).
Proof.
  revert d. induction fuel as [|fuel IH]; intros d Hwf Hle Hf Hlen Htk Hdr; [lia|]. cbn [reverse_loop].
  destruct (decide (di_matching d + pm < di_eligible d)%nat) as [Hlt|Hge]; last first.
  { exists (di_pipes d). assert (He : (di_eligible d - pm = di_matching d)%nat) by lia. rewrite He.
    split; [|done]. by destruct d. }
  destruct (di_swap_spec d (di_matching d + pm) (di_matching d)) as (a & -> & Hwf' & Hit); [done|di_lia|di_lia|].
  rewrite bind_Done. cbn [di_set di_pipes di_matching di_active di_eligible di_more].
  unfold di_size in *. set (l := ar_items (di_pipes d)) in *. set (k := di_matching d) in *.
  assert (Hx : ∃ x, l !! (k + pm)%nat = Some x ∧ L !! (k + pm)%nat = Some x).
  { destruct (lookup_lt_is_Some_2 l (k + pm)) as [x Hx]; [lia|]. exists x. split; [done|].
    rewrite <- Hx. pose proof (f_equal (λ z, z !! 0%nat) Hdr) as H0. rewrite !lookup_drop, !Nat.add_0_r in H0. done. }
  destruct Hx as (x & Hx1 & Hx2).
  set (d1 := Dist a (S k) (di_active d) (di_eligible d) (di_more d)).
  destruct (IH d1) as (a' & Hrun & Hwfa & Hp & Hpe & Hres).
  - done.
  - unfold di_size. simpl. rewrite Hit, length_lswap. lia.
  - simpl. lia.
  - simpl. by rewrite Hit, length_lswap.
  - simpl. rewrite Hit, (take_S_lswap l k _ x) by (lia || done).
    rewrite (take_S_r (drop pm L) k x) by (rewrite lookup_drop, Nat.add_comm; done). by rewrite <- Htk.
  - simpl. rewrite Hit, drop_lswap_lt by lia. apply (f_equal (drop 1)) in Hdr. rewrite !drop_drop in Hdr.
    by replace (S (k + pm)) with (k + pm + 1)%nat by lia.
  - exists a'. change (S (k + pm)) with (di_matching d1 + pm)%nat. split; [exact Hrun|].
    split; [done|]. simpl in *. rewrite Hit in *. split; [by rewrite Hp, lswap_perm|]. split; [|done].
    rewrite Hpe. apply take_lswap_perm; lia.
Qed.

(** The matching pipes become the eligible ones that did not match. *)
Lemma dist_reverse_match_spec d :
  dist_inv d → di_more d = false →
  ∃ d', dist_reverse_match d = Done d' ∧ dist_inv d' ∧ di_more d' = false
    ∧ ar_items (di_pipes d') ≡ₚ ar_items (di_pipes d) ∧ eligible_pipes d' ≡ₚ eligible_pipes d
    ∧ eligible_pipes d ≡ₚ matching_pipes d ++ matching_pipes d'.
Proof.
  intros [Hwf H1 H2 H3 H4] Hmore. specialize (H4 Hmore). unfold dist_reverse_match.
  destruct (reverse_loop_spec (S (di_eligible d)) (dist_unmatch d) (ar_items (di_pipes d)) (di_matching d))
    as (a & Hrun & Hwf' & Hp & Hpe & Htk); unfold di_size in *; simpl; try done; [lia..|].
  simpl in Hrun. rewrite Hrun. eexists. split; [done|].
  unfold matching_pipes, eligible_pipes in *. simpl in *.
  split; [|split; [done|split; [done|split; [done|]]]].
  - split; unfold di_size; simpl; [done|lia|lia|by rewrite Hp|done].
  - rewrite Htk, take_drop_commute, Nat.add_comm, Nat.sub_add by lia.
    rewrite <- (take_take_le _ (di_matching d) (di_eligible d)) by lia. by rewrite take_drop.
Qed.

Lemma elem_take_index l k i (p : nat) : NoDup l → l !! i = Some p → p ∈ take k l ↔ (i < k)%nat.
Proof.
  intros Hnd Hi. rewrite elem_of_take. split.
  - intros (j & Hj & ?). by rewrite (NoDup_lookup _ _ _ _ Hnd Hi Hj).
  - intros. eauto.
Qed.

Definition di_with (d : dist_t) (a : array_t) : dist_t :=
  Dist a (di_matching d) (di_active d) (di_eligible d) (di_more d).

(** A pipe below the counter [S k] goes to the counter's border. *)
Lemma di_stage_in d p i k :
  ar_wf (di_pipes d) → ar_items (di_pipes d) !! i = Some p → (i < S k ≤ di_size d)%nat →
  ∃ a, di_swap d (di_index d p) k = Done (di_with d a) ∧ ar_wf a ∧ ar_items a !! k = Some p
    ∧ ar_items a ≡ₚ ar_items (di_pipes d)
    ∧ (∀ n, (n ≤ i)%nat → take n (ar_items a) = take n (ar_items (di_pipes d)))
    ∧ (∀ n, (S k ≤ n ≤ di_size d)%nat → take n (ar_items a) ≡ₚ take n (ar_items (di_pipes d)))
    ∧ take (S k) (ar_items (di_pipes d)) ≡ₚ p :: take k (ar_items a).
Proof.
  intros Hwf Hi Hk. rewrite (di_index_spec d i p) by done.
  destruct (di_swap_spec d i k) as (a & -> & Hwf' & Hit); [done|lia|lia|].
  exists a. unfold di_size in *. rewrite Hit.
  split; [done|]. split; [done|]. split; [by rewrite lswap_lookup, decide_True by lia|].
  split; [apply lswap_perm|]. split; [intros; apply take_lswap_ge; lia|].
  split; [intros; apply take_lswap_perm; lia|].
  rewrite (take_lswap_out _ k i p) by (lia || done). by rewrite Permutation_app_comm.
Qed.

(** One stage of [pipe_terminated]: a pipe below the counter [k] goes to the
    counter's border, and the counter drops. *)
Lemma di_stage d p i k (mk : dist_t → nat → dist_t) :
  ar_wf (di_pipes d) → ar_items (di_pipes d) !! i = Some p → (k ≤ di_size d)%nat → mk d k = d →
  ∃ a j k',
    (if decide (di_index d p < k)%nat then
       k' ← dec_index k; d ← di_swap d (di_index d p) k'; Done (mk d k')
     else Done d) = Done (mk (di_with d a) k')
    ∧ ar_wf a ∧ ar_items a !! j = Some p ∧ ar_items a ≡ₚ ar_items (di_pipes d)
    ∧ (k' ≤ j)%nat ∧ (i ≤ j)%nat ∧ (k' ≤ k)%nat ∧ (k ≤ S k')%nat
    ∧ (k ≤ i → k' = k ∧ j = i)%nat ∧ (i < k → k = S k' ∧ j = k')%nat
    ∧ (∀ n, (n ≤ i)%nat → take n (ar_items a) = take n (ar_items (di_pipes d)))
    ∧ (∀ n, (k ≤ n ≤ di_size d)%nat → take n (ar_items a) ≡ₚ take n (ar_items (di_pipes d)))
    ∧ ((i < k)%nat → take k (ar_items (di_pipes d)) ≡ₚ p :: take k' (ar_items a)).
Proof.
  intros Hwf Hi Hk Hmk. rewrite (di_index_spec d i p) by done. destruct (decide (i < k)%nat) as [Hlt|Hge].
  - destruct k as [|k]; [lia|]. cbn [dec_index]. rewrite bind_Done.
    destruct (di_stage_in d p i k) as (a & Hs & Hwf' & Hp & Hperm & T & S & R); [done|done|lia|].
    rewrite (di_index_spec d i p) in Hs by done. rewrite Hs, bind_Done.
    exists a, k, k. split_and!; first [done|lia|intros; by apply R].
  - exists (di_pipes d), i, k. replace (di_with d (di_pipes d)) with d by by destruct d.
    rewrite Hmk. split_and!; first [done|lia|intros; exfalso; lia].
Qed.

(** The terminated pipe leaves; every other pipe keeps its state. *)
Lemma dist_pipe_terminated_spec d p :
  dist_inv d → p ∈ ar_items (di_pipes d) →
  ∃ d', dist_pipe_terminated d p = Done d' ∧ dist_inv d' ∧ di_more d' = di_more d
    ∧ ar_items (di_pipes d) ≡ₚ p :: ar_items (di_pipes d')
    ∧ (matching_pipes d ≡ₚ p :: matching_pipes d' ∨ (p ∉ matching_pipes d) ∧ matching_pipes d' = matching_pipes d)
    ∧ (active_pipes d ≡ₚ p :: active_pipes d' ∨ (p ∉ active_pipes d) ∧ active_pipes d' = active_pipes d)
    ∧ (eligible_pipes d ≡ₚ p :: eligible_pipes d' ∨ (p ∉ eligible_pipes d) ∧ eligible_pipes d' = eligible_pipes d).
Proof.
  intros [Hwf H1 H2 H3 H4] Hp. apply list_elem_of_lookup in Hp as [i Hi].
  unfold dist_pipe_terminated.
  destruct (di_stage d p i (di_matching d) (λ d k, di_set d k (di_active d) (di_eligible d)))
    as (a1 & j1 & k1 & -> & Hwf1 & Hj1 & P1 & A1 & B1 & C1 & D1 & E1 & F1 & T1 & S1 & R1); [done|done|lia|by destruct d|].
  rewrite bind_Done. set (d1 := di_set _ _ _ _).
  assert (Hs1 : di_size d1 = di_size d) by (unfold di_size; simpl; by rewrite P1).
  destruct (di_stage d1 p j1 (di_active d1) (λ d k, di_set d (di_matching d) k (di_eligible d)))
    as (a2 & j2 & k2 & -> & Hwf2 & Hj2 & P2 & A2 & B2 & C2 & D2 & E2 & F2 & T2 & S2 & R2); [done|done|rewrite Hs1; simpl; lia|done|].
  rewrite bind_Done. set (d2 := di_set _ _ _ _).
  assert (Hs2 : di_size d2 = di_size d) by (rewrite <- Hs1; unfold di_size; simpl; by rewrite P2).
  destruct (di_stage d2 p j2 (di_eligible d2) (λ d k, di_set d (di_matching d) (di_active d) k))
    as (a3 & j3 & k3 & -> & Hwf3 & Hj3 & P3 & A3 & B3 & C3 & D3 & E3 & F3 & T3 & S3 & R3); [done|done|rewrite Hs2; simpl; lia|done|].
  rewrite bind_Done. set (d3 := di_set _ _ _ _).
  destruct (ar_erase_spec (di_pipes d3) p j3) as (a4 & -> & Hwf4 & Hit4); [done|done|].
  rewrite bind_Done. eexists. split; [done|].
  unfold matching_pipes, active_pipes, eligible_pipes, di_size in *. simpl in *. set (n := length (ar_items a3)) in *.
  assert (Hj3n : (j3 < n)%nat) by (by apply lookup_lt_Some in Hj3).
  assert (Hn : n = length (ar_items (di_pipes d))) by (unfold n; by rewrite P3, P2).
  assert (T4 : ∀ q, (q ≤ j3)%nat → take q (ar_items a4) = take q (ar_items a3)).
  { intros q Hq. rewrite Hit4, take_take_le, take_lswap_ge by lia. done. }
  split; [split; unfold di_size; simpl; [done|lia|lia| |]|].
  - rewrite Hit4, length_take, length_lswap. lia.
  - intros Hm. specialize (H4 Hm). lia.
  - split; [done|]. split; [|split; [|split]].
    + rewrite <- P1, <- P2, <- P3, Hit4. transitivity (take (S (n - 1)) (ar_items a3)); [by rewrite take_ge by lia|].
      rewrite (take_lswap_out _ (n - 1) j3 p) by (lia || done). by rewrite Permutation_app_comm.
    + destruct (decide (i < di_matching d)%nat) as [Hm|Hm].
      * left. rewrite R1, T4, T3, T2 by lia. done.
      * right. rewrite (elem_take_index _ _ i) by (apply Hwf || done). split; [done|].
        replace k1 with (di_matching d) by lia. by rewrite T4, T3, T2, T1 by lia.
    + destruct (decide (i < di_active d)%nat) as [Hm|Hm].
      * left. rewrite <- S1, R2, T4, T3 by lia. done.
      * right. rewrite (elem_take_index _ _ i) by (apply Hwf || done). split; [done|].
        replace k2 with (di_active d) by lia. by rewrite T4, T3, T2, T1 by lia.
    + destruct (decide (i < di_eligible d)%nat) as [Hm|Hm].
      * left. rewrite <- S1, <- S2, R3, T4 by lia. done.
      * right. rewrite (elem_take_index _ _ i) by (apply Hwf || done). split; [done|].
        replace k3 with (di_eligible d) by lia. by rewrite T4, T3, T2, T1 by lia.
Qed.

(** A passive pipe becomes eligible, and active between messages. *)
Lemma dist_activated_spec d p :
  dist_inv d → p ∈ passive_pipes d →
  ∃ d', dist_activated d p = Done d' ∧ dist_inv d' ∧ di_more d' = di_more d
    ∧ ar_items (di_pipes d') ≡ₚ ar_items (di_pipes d) ∧ matching_pipes d' = matching_pipes d
    ∧ eligible_pipes d' ≡ₚ p :: eligible_pipes d
    ∧ (di_more d = true → active_pipes d' = active_pipes d).
Proof.
  intros [Hwf H1 H2 H3 H4] Hp. unfold passive_pipes in Hp.
  apply list_elem_of_lookup in Hp as [i0 Hi]. rewrite lookup_drop in Hi. set (i := (di_eligible d + i0)%nat) in *.
  pose proof (lookup_lt_Some _ _ _ Hi) as Hil.
  unfold dist_activated. rewrite (di_index_spec d i p), decide_True by (done || (unfold di_size; lia)).
  destruct (di_swap_spec d i (di_eligible d)) as (a & -> & Hwf1 & Hit1); [done|unfold di_size; lia..|].
  rewrite !bind_Done. set (d1 := di_set _ _ _ _).
  assert (Hs1 : di_size d1 = di_size d) by (unfold di_size; simpl; by rewrite Hit1, length_lswap).
  assert (He1 : take (S (di_eligible d)) (ar_items a) = take (di_eligible d) (ar_items (di_pipes d)) ++ [p]).
  { rewrite Hit1. apply take_S_lswap; [lia|done]. }
  assert (Hm1 : take (di_matching d) (ar_items a) = take (di_matching d) (ar_items (di_pipes d))).
  { rewrite Hit1. apply take_lswap_ge; lia. }
  unfold matching_pipes, active_pipes, eligible_pipes, di_size in *. change (di_more d1) with (di_more d).
  destruct (decide (di_more d = false ∧ (di_active d1 < length (ar_items (di_pipes d1)))%nat)) as [[Hmore Hac]|Hno].
  - simpl. destruct (di_swap_spec d1 (di_eligible d) (di_active d)) as (a2 & Hs & Hwf2 & Hit2); [done|unfold di_size; simpl in *; lia..|].
    rewrite Hs, bind_Done. eexists. split; [done|]. simpl in *. specialize (H4 Hmore). rewrite <- H4 in Hit2 at 1.
    rewrite lswap_id in Hit2. rewrite Hit2.
    split; [split; unfold di_size; simpl; [done|lia|lia|rewrite Hit2; lia|lia]|].
    split; [done|]. split; [by rewrite Hit1, lswap_perm|]. split; [done|]. split; [|congruence]. rewrite He1. by rewrite Permutation_app_comm.
  - eexists. split; [done|]. simpl in *. split; [split; unfold di_size; simpl; [done|lia|lia|lia|]|].
    { intros Hm. destruct Hno. split; [done|lia]. }
    split; [done|]. split; [by rewrite Hit1, lswap_perm|]. split; [done|]. split; [rewrite He1; by rewrite Permutation_app_comm|].
    intros _. rewrite Hit1. apply take_lswap_ge; lia.
Qed.

(** A matching pipe that refuses the message becomes passive. *)
Lemma dist_write_fail {W} `{!OutPipes W} w d p m i :
  dist_inv d → ar_items (di_pipes d) !! i = Some p → (i < di_matching d)%nat → (op_write w p m).1 = false →
  ∃ d', dist_write w d p m = Done (false, (op_write w p m).2, d') ∧ dist_inv d' ∧ di_more d' = di_more d
    ∧ ar_items (di_pipes d') ≡ₚ ar_items (di_pipes d)
    ∧ di_matching d = S (di_matching d') ∧ take i (matching_pipes d') = take i (matching_pipes d)
    ∧ matching_pipes d ≡ₚ p :: matching_pipes d' ∧ active_pipes d ≡ₚ p :: active_pipes d'
    ∧ eligible_pipes d ≡ₚ p :: eligible_pipes d'.
Proof.
  intros [Hwf H1 H2 H3 H4] Hi Him Hw. destruct d as [a0 [|mt] [|ac] [|el] mo]; simpl in *; try lia.
  unfold dist_write. destruct (op_write w p m) as [ok w']. simpl in Hw. subst ok. cbv iota. cbn [dec_index di_matching].
  rewrite bind_Done. unfold matching_pipes, active_pipes, eligible_pipes, di_size in *. simpl in *.
  destruct (di_stage_in (Dist a0 (S mt) (S ac) (S el) mo) p i mt) as (a1 & -> & Hwf1 & Hj1 & P1 & T1 & S1 & R1);
    [done|done|unfold di_size; simpl; lia|]. rewrite bind_Done.
  unfold di_with, di_set.
  cbn [di_pipes di_matching di_active di_eligible di_more dec_index]. rewrite bind_Done.
  assert (L1 : length (ar_items a1) = length (ar_items a0)) by (by rewrite P1).
  destruct (di_stage_in (Dist a1 mt (S ac) (S el) mo) p mt ac) as (a2 & -> & Hwf2 & Hj2 & P2 & T2 & S2 & R2);
    [done|done|unfold di_size; simpl; lia|]. rewrite bind_Done.
  unfold di_with, di_set.
  cbn [di_pipes di_matching di_active di_eligible di_more dec_index]. rewrite bind_Done.
  assert (L2 : length (ar_items a2) = length (ar_items a0)) by (rewrite P2; done).
  destruct (di_stage_in (Dist a2 mt ac (S el) mo) p ac el) as (a3 & Hs & Hwf3 & Hj3 & P3 & T3 & S3 & R3);
    [done|done|unfold di_size; simpl; lia|]. rewrite (di_index_spec _ ac p) in Hs by done. rewrite Hs, bind_Done.
  unfold di_size in *. simpl in *. assert (L3 : length (ar_items a3) = length (ar_items a0)) by (by rewrite P3).
  eexists. split; [done|]. simpl. split; [split; unfold di_size; simpl; [done|lia|lia|lia|]|].
  { intros Hm. specialize (H4 Hm). lia. }
  split; [done|]. split; [by rewrite P3, P2, P1|]. split; [done|]. split; [|split; [|split]].
  - rewrite !take_take_le by lia. by rewrite T3, T2, T1 by lia.
  - by rewrite R1, T3, T2 by lia.
  - by rewrite <- S1, R2, T3 by lia.
  - by rewrite <- S1, <- S2, R3 by lia.
Qed.

(** ** Distribution *)

Definition accepted (tries : list (nat * bool)) : list nat := omap (λ t : nat * bool, if t.2 then Some t.1 else None) tries.
Definition rejected (tries : list (nat * bool)) : list nat := omap (λ t : nat * bool, if t.2 then None else Some t.1) tries.

Lemma accepted_rejected tries : tries.*1 ≡ₚ accepted tries ++ rejected tries.
Proof.
  induction tries as [|[p []] tries IH]; [done|..]; csimpl; [by rewrite IH|].
  by rewrite <- Permutation_middle, IH.
Qed.

(** What the pipes see of the tries: the write, and a flush after the last part
    of a message that was taken. *)
Definition try_events (m : msg_t) (t : nat * bool) : list pipe_event :=
  EvWrite t.1 m t.2 :: (if t.2 && negb (has_flag m msg_more) then [EvFlush t.1] else []).

Section distribution.
Context {W : Type} `{!OutPipes W}.

Lemma dist_write_ok (w : W) d p m :
  (op_write w p m).1 = true →
  ∃ w', dist_write w d p m = Done (true, w', d) ∧ op_log w' = op_log w ++ try_events m (p, true).
Proof.
  intros Hw. unfold dist_write. pose proof (op_write_log w p m) as Hl. destruct (op_write w p m) as [ok w'].
  simpl in *. subst ok. eexists. split; [done|]. unfold try_events. simpl.
  destruct (has_flag m msg_more); simpl; [done|]. rewrite op_flush_log, Hl. by rewrite <- app_assoc.
Qed.

(** Every matching pipe from [i] on is tried once; those that take the message
    stay matching, in the order of the tries, the others become passive. *)
Lemma dist_loop_spec fuel (w : W) d m i failed :
  dist_inv d → (i ≤ di_matching d)%nat → (di_matching d - i < fuel)%nat →
  ∃ w' d' tries,
    dist_loop fuel w d m i failed = Done ((failed + length (rejected tries))%nat, w', d')
    ∧ dist_inv d' ∧ di_more d' = di_more d ∧ ar_items (di_pipes d') ≡ₚ ar_items (di_pipes d)
    ∧ op_log w' = op_log w ++ concat (try_events m <$> tries)
    ∧ drop i (matching_pipes d) ≡ₚ tries.*1
    ∧ matching_pipes d' = take i (matching_pipes d) ++ accepted tries
    ∧ active_pipes d ≡ₚ rejected tries ++ active_pipes d'
    ∧ eligible_pipes d ≡ₚ rejected tries ++ eligible_pipes d'.
Proof.
  revert w d i failed. induction fuel as [|fuel IH]; intros w d i failed Hinv Hi Hf; [lia|]. cbn [dist_loop].
  pose proof Hinv as [Hwf H1 H2 H3 H4].
  assert (Hlen : length (matching_pipes d) = di_matching d).
  { unfold matching_pipes. rewrite length_take. unfold di_size in *. lia. }
  destruct (decide (i < di_matching d)%nat) as [Hlt|Hge]; last first.
  { exists w, d, []. simpl. rewrite Nat.add_0_r, !app_nil_r. rewrite drop_ge, take_ge by lia. done. }
  destruct (lookup_lt_is_Some_2 (ar_items (di_pipes d)) i) as [p Hp]; [unfold di_size in *; lia|].
  assert (Hpm : matching_pipes d !! i = Some p) by (unfold matching_pipes; by rewrite lookup_take_lt).
  rewrite (geti_Some _ i p Hp), bind_Done. destruct (op_write w p m).1 eqn:Hw.
  - destruct (dist_write_ok w d p m Hw) as (w1 & -> & Hl1). rewrite bind_Done.
    destruct (IH w1 d (S i) failed) as (w' & d' & tr & -> & Hinv' & Hmo & Hpp & Hl & Hd & Hm & Ha & He); [done|lia|lia|].
    exists w', d', ((p, true) :: tr). split; [done|]. split; [done|]. split; [done|]. split; [done|].
    split; [rewrite Hl, Hl1; simpl; by rewrite <- app_assoc|].
    split; [rewrite (drop_S _ p) by done; simpl; by rewrite Hd|].
    split; [|done]. rewrite Hm, (take_S_r _ _ p) by done. by rewrite <- app_assoc.
  - destruct (dist_write_fail w d p m i) as (d1 & -> & Hinv1 & Hmo1 & Hp1 & Hm1 & Ht1 & Hmp & Hap & Hep); [done..|].
    rewrite bind_Done. destruct (IH (op_write w p m).2 d1 i (S failed)) as (w' & d' & tr & -> & Hinv' & Hmo & Hpp & Hl & Hd & Hm & Ha & He);
      [done|lia|lia|].
    exists w', d', ((p, false) :: tr). csimpl. split; [do 3 f_equal; lia|]. split; [done|]. split; [congruence|]. split; [by rewrite Hpp|].
    split; [rewrite Hl, op_write_log, Hw; by rewrite <- app_assoc|].
    split; [|split; [by rewrite Hm, Ht1|split; [by rewrite Hap, Ha|by rewrite Hep, He]]].
    apply (Permutation_app_inv_l (take i (matching_pipes d))). rewrite take_drop, <- Ht1.
    rewrite <- Permutation_middle, <- Hd, take_drop. done.
Qed.

(** The handles a message stands for after [add_refs (k)]: [S k] of them. *)
Lemma add_refs_handles ext h m ms k :
  heap_inv ext h (m :: ms) → plain m →
  Z.of_nat (length ms + S k) < 2 ^ 32 → (∀ md, ext md + Z.of_nat (length ms + S k) < 2 ^ 32) →
  let m' := if decide (k = 0%nat) then m else copy_of m in
  ∃ h', msg_add_refs h m (Z.of_nat k) = Done (h', m')
    ∧ heap_inv ext h' (replicate (S k) m' ++ ms) ∧ heap_frame h h'.
Proof.
  intros Hinv Hpl Hl1 Hl2. simpl. destruct (decide (k = 0%nat)) as [->|Hk].
  - exists h. split; [|done]. unfold msg_add_refs. assert_ok. assert_ok by apply Hpl. done.
  - apply msg_add_refs_spec; [done|done|lia|done|done].
Qed.

Lemma heap_inv_drop ext h m ms : heap_inv ext h (m :: ms) → plain m → counted m = false → heap_inv ext h ms.
Proof.
  intros [H1 H2 H3 H4 H5 H6] Hpl Hc. split.
  - simpl in H1. lia.
  - intros md. specialize (H2 md). simpl in H2. lia.
  - by inversion H3.
  - apply (content_inv_skip _ m); [|done]. intros id [_ Ht]. apply counted_spec in Ht. congruence.
  - apply (md_inv_skip _ _ m); [|done]. intros md [_ ?]. destruct Hpl; congruence.
  - apply (group_inv_skip _ m); [|done]. intros g [_ ?]. destruct Hpl as [_ [? ?]]; congruence.
Qed.

Lemma heap_inv_drop_n ext h m ms k :
  heap_inv ext h (replicate k m ++ ms) → plain m → counted m = false → heap_inv ext h ms.
Proof. intros. induction k as [|k IH]; [done|]. apply IH. by apply (heap_inv_drop _ _ m). Qed.

(** [rm_refs (k)] gives [k] of the handles up, shared content or not. *)
Lemma rm_refs_handles ext h m ms k :
  heap_inv ext h (replicate k m ++ ms) → plain m → msg_check m = true → (0 < k)%nat →
  (counted m = true → shared m ∨ k = 1%nat) →
  ∃ b h' m', msg_rm_refs h m (Z.of_nat k) = Done (b, h', m') ∧ heap_inv ext h' ms ∧ heap_frame h h'.
Proof.
  intros Hinv Hpl Hck Hk Hsh. destruct k as [|k]; [lia|]. simpl in Hinv.
  assert (Hs : msg_shape m) by (apply inv_shape in Hinv; by inversion Hinv).
  destruct (counted m) eqn:Hc; [destruct (has_flag m msg_shared) eqn:Hf|].
  - apply counted_spec in Hc as Ht. destruct (proj1 (proj2 Hs) Ht) as [id Hid].
    destruct (msg_rm_refs_spec ext h m ms (S k) id) as (h' & Hr & Hi & Hfr); [done|done|lia|done|done|]. eauto 10.
  - destruct (Hsh eq_refl) as [?|Hk1]; [done|]. injection Hk1 as ->. simpl in Hinv.
    destruct (msg_close_spec ext h m ms) as (h' & Hr & Hi & Hfr); [done|done|]. eexists _, h', _.
    unfold msg_rm_refs. assert_ok. assert_ok by apply Hpl. rewrite decide_False, decide_True, Hr by (lia || by right). done.
  - destruct (msg_close_spec ext h m (replicate k m ++ ms)) as (h' & Hr & Hi & Hfr); [done|done|]. eexists _, h', _.
    unfold msg_rm_refs. assert_ok. assert_ok by apply Hpl. rewrite decide_False, decide_True, Hr; [|left|lia].
    + split; [done|]. split; [|done]. by apply (heap_inv_drop_n _ _ m _ k).
    + split; intros Ht; assert (counted m = true) by (apply counted_spec; auto); congruence.
Qed.

Lemma dist_distribute_spec ext h (w : W) d m ms :
  dist_inv d → heap_inv ext h (m :: ms) → plain m → msg_check m = true →
  Z.of_nat (length ms + S (di_matching d)) < 2 ^ 32 →
  (∀ md, ext md + Z.of_nat (length ms + S (di_matching d)) < 2 ^ 32) →
  let m' := if decide (di_matching d ≤ 1)%nat then m else copy_of m in
  ∃ h' w' d' tries,
    dist_distribute h w d m = Done (h', w', d', msg_init)
    ∧ dist_inv d' ∧ di_more d' = di_more d ∧ ar_items (di_pipes d') ≡ₚ ar_items (di_pipes d)
    ∧ op_log w' = op_log w ++ concat (try_events m' <$> tries)
    ∧ tries.*1 ≡ₚ matching_pipes d
    ∧ matching_pipes d' = accepted tries
    ∧ active_pipes d ≡ₚ rejected tries ++ active_pipes d'
    ∧ eligible_pipes d ≡ₚ rejected tries ++ eligible_pipes d'
    ∧ heap_inv ext h' (replicate (length (accepted tries)) m' ++ ms) ∧ heap_frame h h'.
Proof.
  intros Hdi Hinv Hpl Hck Hl1 Hl2. simpl. unfold dist_distribute.
  destruct (decide (di_matching d = 0%nat)) as [H0|H0].
  { destruct (msg_close_spec ext h m ms Hinv Hck) as (h' & -> & Hi & Hf). rewrite bind_Done. assert_ok by done.
    exists h', w, d, []. unfold matching_pipes. rewrite H0. simpl. rewrite app_nil_r. split_and!; done. }
  set (m' := if decide (di_matching d ≤ 1)%nat then m else copy_of m).
  destruct (di_matching d) as [|k] eqn:Hk; [done|]. assert (Hsm : s32 (Z.of_nat (S k)) - 1 = Z.of_nat k).
  { rewrite s32_small; [lia|]. destruct Hdi as [[_ Hlen _] ? ? ? _]. unfold ar_size, di_size in *. lia. }
  destruct (dist_loop_spec (S (S k)) w d m' 0 0) as (w' & d' & tries & Hr & Hinv' & Hmo & Hp & Hl & Hd & Hm & Ha & He);
    [done|lia|lia|]. rewrite drop_0 in Hd. rewrite take_0 in Hm. rewrite Nat.add_0_l in Hr. simpl in Hm.
  assert (Hlen : (length (accepted tries) + length (rejected tries) = S k)%nat).
  { rewrite <- length_app, <- accepted_rejected, <- Hd. unfold matching_pipes. rewrite length_take.
    destruct Hdi. unfold di_size in *. lia. }
  destruct (add_refs_handles ext h m ms k) as (h1 & Hadd & Hi1 & Hf1); [done|done|lia|intros md; specialize (Hl2 md); lia|].
  replace (if decide (k = 0%nat) then m else copy_of m) with m' in * by (unfold m'; repeat case_decide; done || lia).
  replace (S k) with (length (rejected tries) + length (accepted tries))%nat in Hi1 by lia.
  rewrite replicate_add, <- app_assoc in Hi1. symmetry in Hd.
  assert (Hpl' : plain m') by (unfold m'; case_decide; [done|by apply plain_copy_of]).
  assert (Hck' : msg_check m' = true) by (unfold m'; case_decide; [done|by rewrite copy_of_check]).
  destruct (is_vsm m) eqn:Hv.
  - assert (Hc : counted m = false).
    { unfold is_vsm in Hv. apply bool_decide_eq_true in Hv. unfold counted, is_lmsg, is_zcmsg. by rewrite Hv. }
    assert (Hmm : m' = m) by (unfold m', copy_of; rewrite Hc; by case_decide).
    assert (h1 = h) as ->.
    { unfold msg_add_refs in Hadd. unfold counted, is_lmsg in Hc. rewrite Hc in Hadd.
      revert Hadd. assert_ok. assert_ok by apply Hpl. intros Hadd. case_decide; injection Hadd as Hh; by rewrite Hh. }
    rewrite Hmm in *. rewrite Hr, bind_Done. exists h, w', d', tries. split_and!; try done.
    by apply (heap_inv_drop_n _ _ m _ (length (rejected tries))).
  - rewrite Hsm, Hadd, bind_Done, Hr, bind_Done. destruct (decide (length (rejected tries) ≠ 0%nat)) as [Hf|Hf].
    + destruct (rm_refs_handles ext h1 m' (replicate (length (accepted tries)) m' ++ ms) (length (rejected tries)))
        as (b & h2 & m2 & -> & Hi2 & Hf2); [done|done|done|lia| |].
      { unfold m'. case_decide; [intros _; right; lia|]. unfold copy_of. destruct (counted m) eqn:Hc; [|congruence].
        intros _. left. apply as_shared_shared. }
      rewrite !bind_Done. exists h2, w', d', tries. split_and!; try done. by transitivity h1.
    + rewrite bind_Done. exists h1, w', d', tries. replace (length (rejected tries)) with 0%nat in Hi1 by lia.
      split_and!; done.
Qed.

End distribution.

(** ** Refinement

    Abstractly the distributor is four sets of pipes and a flag; a send may drop
    from them the pipes that refuse the message.  [da_held] are the message
    handles in use outside the distributor, those of the pipes included. *)

Record dabs := DAbs {
  da_pipes : gset nat;
  da_eligible : gset nat;
  da_active : gset nat;
  da_matching : gset nat;
  da_more : bool;
  da_held : list msg_t;
}.

Inductive dop :=
| DAttach (p : nat) | DMatch (p : nat) | DReverse | DUnmatch | DTerminated (p : nat) | DActivated (p : nat)
| DSend (m : msg_t) | DSendAll (m : msg_t).

Definition dist_step {W} `{!OutPipes W} (c : heap * W * dist_t) (op : dop) : outcome (heap * W * dist_t) :=
  let '(h, w, d) := c in
  match op with
  | DAttach p => d ← dist_attach d p; Done (h, w, d)
  | DMatch p => d ← dist_match d p; Done (h, w, d)
  | DReverse => d ← dist_reverse_match d; Done (h, w, d)
  | DUnmatch => Done (h, w, dist_unmatch d)
  | DTerminated p => d ← dist_pipe_terminated d p; Done (h, w, d)
  | DActivated p => d ← dist_activated d p; Done (h, w, d)
  | DSend m => '(h, w, d, _) ← dist_send_to_matching h w d m; Done (h, w, d)
  | DSendAll m => '(h, w, d, _) ← dist_send_to_all h w d m; Done (h, w, d)
  end.

(** What the sockets promise: pipes are attached once, matched between messages
    only, activated when passive; messages are valid handles without metadata. *)
Definition dlegal (ext : nat → Z) (a : dabs) (op : dop) : Prop :=
  match op with
  | DAttach p => (p ∉ da_pipes a) ∧ Z.of_nat (size (da_pipes a)) + 1 < 2 ^ 31
  | DMatch p => da_more a = false ∧ p ∈ da_pipes a
  | DReverse => da_more a = false
  | DUnmatch => True
  | DTerminated p => p ∈ da_pipes a
  | DActivated p => p ∈ da_pipes a ∧ p ∉ da_eligible a
  | DSend m | DSendAll m =>
      m ∈ da_held a ∧ plain m ∧ msg_check m = true
      ∧ Z.of_nat (length (da_held a) + size (da_pipes a)) < 2 ^ 32
      ∧ (∀ md, ext md + Z.of_nat (length (da_held a) + size (da_pipes a)) < 2 ^ 32)
  end.

(** The pipes that gave an answer to a write in a piece of the history. *)
Definition answered (b : bool) (evs : list pipe_event) : list nat :=
  omap (λ e, match e with EvWrite p _ b' => if eqb b b' then Some p else None | EvFlush _ => None end) evs.

(** A send to the pipes [to], with the history [evs]: every one of them is asked once; those
    that refuse become passive, every other one holds a handle of the message, in the
    place of the caller's. *)
Definition abs_send (a : dabs) (to : gset nat) (m : msg_t) (evs : list pipe_event) (a' : dabs) : Prop :=
  let acc := list_to_set (answered true evs) in
  let rej := list_to_set (answered false evs) in
  ∃ ms, to = acc ∪ rej ∧ NoDup (answered true evs ++ answered false evs) ∧ da_held a ≡ₚ m :: ms
    ∧ a' = DAbs (da_pipes a) (da_eligible a ∖ rej)
             (if has_flag m msg_more then da_active a ∖ rej else da_eligible a ∖ rej) acc
             (has_flag m msg_more)
             (replicate (size acc) (if decide (size to ≤ 1)%nat then m else copy_of m) ++ ms).

(** A step, with the piece of the history of the pipes that belongs to it. *)
Definition abs_dist_step (a : dabs) (op : dop) (evs : list pipe_event) (a' : dabs) : Prop :=
  let '(DAbs P E A M mo held) := a in
  match op with
  | DAttach p => evs = [] ∧ a' = DAbs ({[p]} ∪ P) ({[p]} ∪ E) (if mo then A else {[p]} ∪ A) M mo held
  | DMatch p => evs = [] ∧ a' = DAbs P E A (if decide (p ∈ E) then {[p]} ∪ M else M) mo held
  | DReverse => evs = [] ∧ a' = DAbs P E A (E ∖ M) mo held
  | DUnmatch => evs = [] ∧ a' = DAbs P E A ∅ mo held
  | DTerminated p => evs = [] ∧ a' = DAbs (P ∖ {[p]}) (E ∖ {[p]}) (A ∖ {[p]}) (M ∖ {[p]}) mo held
  | DActivated p => evs = [] ∧ a' = DAbs P ({[p]} ∪ E) (if mo then A else {[p]} ∪ A) M mo held
  | DSend m => abs_send a M m evs a'
  | DSendAll m => abs_send a A m evs a'
  end.

Definition dist_abs (d : dist_t) (held : list msg_t) : dabs :=
  DAbs (list_to_set (ar_items (di_pipes d))) (list_to_set (eligible_pipes d)) (list_to_set (active_pipes d))
    (list_to_set (matching_pipes d)) (di_more d) held.

Definition dist_rel {W} (ext : nat → Z) (c : heap * W * dist_t) (a : dabs) : Prop :=
  dist_inv c.2 ∧ heap_inv ext c.1.1 (da_held a) ∧ a = dist_abs c.2 (da_held a).

Section refinement.
Context {W : Type} `{!OutPipes W} (ext : nat → Z).

Lemma dist_parts_nodup d : dist_inv d →
  NoDup (ar_items (di_pipes d)) ∧ NoDup (eligible_pipes d) ∧ NoDup (active_pipes d) ∧ NoDup (matching_pipes d).
Proof.
  intros Hinv. pose proof (ar_nodup _ (di_wf _ Hinv)) as Hnd.
  split_and!; [done|..]; (eapply sublist_NoDup; [exact Hnd|apply sublist_take]).
Qed.

Lemma idle_active d : dist_inv d → di_more d = false → active_pipes d = eligible_pipes d.
Proof. intros Hinv Hm. unfold active_pipes, eligible_pipes. by rewrite (di_idle _ Hinv Hm). Qed.

(** The step is safe and the abstract state can follow it. *)
Definition dist_sim (h : heap) (w : W) (d : dist_t) (held : list msg_t) (op : dop) : Prop :=
  ∃ c' a' evs, dist_step (h, w, d) op = Done c' ∧ op_log c'.1.2 = op_log w ++ evs
    ∧ abs_dist_step (dist_abs d held) op evs a' ∧ dist_rel ext c' a'.

(** The simple steps: the array changes, the messages do not. *)
Lemma dist_sim_simple h (w : W) d d' held a' op :
  dist_rel ext (h, w, d) (dist_abs d held) → dist_step (h, w, d) op = Done (h, w, d') →
  dist_inv d' → a' = dist_abs d' held → abs_dist_step (dist_abs d held) op [] a' →
  dist_sim h w d held op.
Proof. intros (_ & Hh & _) Hs Hinv -> Ha. eexists _, _, []. split; [exact Hs|]. split; [simpl; by rewrite app_nil_r|]. split; [exact Ha|]. done. Qed.

Lemma dist_sim_attach h (w : W) d held p :
  dist_rel ext (h, w, d) (dist_abs d held) → dlegal ext (dist_abs d held) (DAttach p) →
  dist_sim h w d held (DAttach p).
Proof.
  intros Hrel [Hp Hlen]. pose proof Hrel as [Hinv _]. simpl in *. pose proof (dist_parts_nodup d Hinv) as (Hn & _).
  rewrite size_list_to_set in Hlen by done.
  destruct (dist_attach_spec d p) as (d' & Hr & Hinv' & Hmo & Hpp & Hm & He & Ha); [done|set_solver|unfold ar_size; lia|].
  eapply dist_sim_simple; [done|simpl; by rewrite Hr|done|done|].
  unfold dist_abs. simpl. split; [done|]. rewrite Hmo, Hm, (set_perm _ _ Hpp), He.
  assert (Heq : list_to_set (eligible_pipes d ++ [p]) =@{gset nat} {[p]} ∪ list_to_set (eligible_pipes d)).
  { apply leibniz_equiv. rewrite list_to_set_app. set_solver. }
  rewrite Heq. f_equal; try done. destruct (di_more d) eqn:Hd; [by rewrite Ha|].
  rewrite (idle_active d'), He, (idle_active d) by (done || congruence). done.
Qed.

Lemma dist_sim_match h (w : W) d held p :
  dist_rel ext (h, w, d) (dist_abs d held) → dlegal ext (dist_abs d held) (DMatch p) →
  dist_sim h w d held (DMatch p).
Proof.
  intros Hrel [Hmo Hp]. pose proof Hrel as [Hinv _]. simpl in *.
  destruct (dist_match_spec d p) as (d' & Hr & Hinv' & Hmo' & Hpp & He & Hm); [done|done|set_solver|].
  eapply dist_sim_simple; [done|simpl; by rewrite Hr|done|done|].
  unfold dist_abs. simpl. split; [done|]. rewrite Hmo, Hmo', (idle_active d'), (idle_active d), (set_perm _ _ Hpp), (set_perm _ _ He) by done.
  f_equal. destruct Hm as [[Hm ->]|[Hpe Hm]].
  - case_decide as Hd; [|done]. destruct Hm as [Hm|Hm]; set_solver.
  - rewrite decide_True by set_solver. rewrite Hm. apply leibniz_equiv. rewrite list_to_set_app. set_solver.
Qed.

Lemma dist_sim_reverse h (w : W) d held :
  dist_rel ext (h, w, d) (dist_abs d held) → dlegal ext (dist_abs d held) DReverse →
  dist_sim h w d held DReverse.
Proof.
  intros Hrel Hmo. pose proof Hrel as [Hinv _]. simpl in *.
  destruct (dist_reverse_match_spec d) as (d' & Hr & Hinv' & Hmo' & Hpp & He & Hm); [done|done|].
  eapply dist_sim_simple; [done|simpl; by rewrite Hr|done|done|].
  unfold dist_abs. simpl. split; [done|]. rewrite Hmo, Hmo', (idle_active d'), (idle_active d), (set_perm _ _ Hpp), (set_perm _ _ He) by done.
  f_equal. apply set_reject; [by apply dist_parts_nodup|done].
Qed.

Lemma dist_sim_unmatch h (w : W) d held :
  dist_rel ext (h, w, d) (dist_abs d held) →
  dist_sim h w d held DUnmatch.
Proof.
  intros Hrel. pose proof Hrel as [[H1 H2 H3 H4 H5] _].
  eapply dist_sim_simple; [done|done| |done|done].
  split; simpl in *; [done|lia|done|done|done].
Qed.

Lemma dist_sim_terminated h (w : W) d held p :
  dist_rel ext (h, w, d) (dist_abs d held) → dlegal ext (dist_abs d held) (DTerminated p) →
  dist_sim h w d held (DTerminated p).
Proof.
  intros Hrel Hp. pose proof Hrel as [Hinv _]. simpl in *. pose proof (dist_parts_nodup d Hinv) as (Hn & Hne & Hna & Hnm).
  destruct (dist_pipe_terminated_spec d p) as (d' & Hr & Hinv' & Hmo & Hpp & Hm & Ha & He); [done|set_solver|].
  eapply dist_sim_simple; [done|simpl; by rewrite Hr|done|done|].
  unfold dist_abs. simpl. split; [done|]. rewrite Hmo. by f_equal; apply set_remove; auto.
Qed.

Lemma dist_sim_activated h (w : W) d held p :
  dist_rel ext (h, w, d) (dist_abs d held) → dlegal ext (dist_abs d held) (DActivated p) →
  dist_sim h w d held (DActivated p).
Proof.
  intros Hrel [Hp Hne]. pose proof Hrel as [Hinv _]. simpl in *.
  destruct (dist_activated_spec d p) as (d' & Hr & Hinv' & Hmo & Hpp & Hm & He & Ha); [done| |].
  { unfold passive_pipes, eligible_pipes in *. apply elem_of_list_to_set in Hp.
    rewrite <- (take_drop (di_eligible d) (ar_items (di_pipes d))) in Hp. set_solver. }
  eapply dist_sim_simple; [done|simpl; by rewrite Hr|done|done|].
  unfold dist_abs. simpl. split; [done|]. rewrite Hmo, Hm, (set_perm _ _ Hpp), (set_perm _ _ He). f_equal.
  destruct (di_more d) eqn:Hd; [by rewrite Ha|].
  rewrite (idle_active d'), (set_perm _ _ He), (idle_active d) by (done || congruence). done.
Qed.

Lemma dist_send_spec h (w : W) d m ms :
  dist_inv d → heap_inv ext h (m :: ms) → plain m → msg_check m = true →
  Z.of_nat (length ms + S (di_matching d)) < 2 ^ 32 →
  (∀ md, ext md + Z.of_nat (length ms + S (di_matching d)) < 2 ^ 32) →
  let m' := if decide (di_matching d ≤ 1)%nat then m else copy_of m in
  ∃ h' w' d' tries,
    dist_send_to_matching h w d m = Done (h', w', d', msg_init)
    ∧ dist_inv d' ∧ di_more d' = has_flag m msg_more ∧ ar_items (di_pipes d') ≡ₚ ar_items (di_pipes d)
    ∧ op_log w' = op_log w ++ concat (try_events m' <$> tries)
    ∧ tries.*1 ≡ₚ matching_pipes d
    ∧ matching_pipes d' = accepted tries
    ∧ eligible_pipes d ≡ₚ rejected tries ++ eligible_pipes d'
    ∧ (if has_flag m msg_more then active_pipes d ≡ₚ rejected tries ++ active_pipes d'
       else active_pipes d' = eligible_pipes d')
    ∧ heap_inv ext h' (replicate (length (accepted tries)) m' ++ ms) ∧ heap_frame h h'.
Proof.
  intros Hdi Hinv Hpl Hck Hl1 Hl2. simpl.
  destruct (dist_distribute_spec ext h w d m ms) as (h' & w' & d' & tries & Hr & Hinv' & Hmo & Hp & Hl & Ht & Hm & Ha & He & Hh & Hf);
    [done..|]. unfold dist_send_to_matching. rewrite Hr, bind_Done. destruct Hinv' as [I1 I2 I3 I4 I5].
  eexists _, _, _, tries. split; [done|]. unfold active_pipes, eligible_pipes, matching_pipes in *. simpl.
  split; [|split_and!; try done; by destruct (has_flag m msg_more)].
  split; simpl; [done|..]; destruct (has_flag m msg_more); first [done|lia].
Qed.

(** The answers are in the history. *)
Lemma answered_tries m tries :
  answered true (concat (try_events m <$> tries)) = accepted tries ∧ answered false (concat (try_events m <$> tries)) = rejected tries.
Proof.
  induction tries as [|[p b] tries [IH1 IH2]]; [done|]. cbn [fmap list_fmap concat]. unfold answered in *. rewrite !omap_app, IH1, IH2.
  destruct b; cbn; by destruct (has_flag m msg_more).
Qed.

Lemma dist_sim_send h (w : W) d0 d to held m :
  dist_rel ext (h, w, d0) (dist_abs d0 held) → dlegal ext (dist_abs d0 held) (DSend m) →
  d = di_set d0 to (di_active d0) (di_eligible d0) → (to ≤ di_active d0)%nat →
  ∃ h' w' d' a' evs, dist_send_to_matching h w d m = Done (h', w', d', msg_init) ∧ op_log w' = op_log w ++ evs
    ∧ abs_send (dist_abs d0 held) (list_to_set (matching_pipes d)) m evs a' ∧ dist_rel ext (h', w', d') a'.
Proof.
  intros ([I1 I2 I3 I4 I5] & Hh & _) (Hm & Hpl & Hck & Hl1 & Hl2) Hd Hto. simpl in *.
  rewrite size_list_to_set in Hl1, Hl2 by apply I1.
  assert (Hinv : dist_inv d) by (subst d; by split).
  apply elem_of_Permutation in Hm as [ms Hms]. rewrite Hms in Hh.
  assert (Hle : (di_matching d ≤ length (ar_items (di_pipes d0)))%nat) by (subst d; simpl; unfold di_size in *; lia).
  rewrite Hms in Hl1. setoid_rewrite Hms in Hl2. simpl in Hl1, Hl2.
  destruct (dist_send_spec h w d m ms) as (h' & w' & d' & tries & Hr & Hinv' & Hmo & Hp & Hlog & Ht & Hmp & He & Ha & Hh' & _);
    [done|done|done|done|lia|intros md; specialize (Hl2 md); lia|].
  exists h', w', d', (dist_abs d' (replicate (length (accepted tries)) (if decide (di_matching d ≤ 1)%nat then m else copy_of m) ++ ms)),
    (concat (try_events (if decide (di_matching d ≤ 1)%nat then m else copy_of m) <$> tries)).
  split; [done|]. split; [exact Hlog|]. split; [|done]. pose proof (dist_parts_nodup d Hinv) as (_ & Hne & Hna & Hnm).
  assert (Hrej : matching_pipes d ≡ₚ rejected tries ++ matching_pipes d').
  { rewrite Hmp, <- Ht, accepted_rejected. apply Permutation_app_comm. }
  assert (Hpd : di_pipes d = di_pipes d0) by by subst d.
  assert (Hed : eligible_pipes d = eligible_pipes d0) by by subst d.
  assert (Had : active_pipes d = active_pipes d0) by by subst d.
  exists ms. destruct (answered_tries (if decide (di_matching d ≤ 1)%nat then m else copy_of m) tries) as [-> ->].
  assert (Hset : list_to_set (matching_pipes d) = (list_to_set (accepted tries) ∪ list_to_set (rejected tries) : gset nat)).
  { rewrite (set_perm _ _ Hrej), list_to_set_app_L, Hmp. set_solver. }
  split; [done|]. split; [by rewrite <- accepted_rejected, Ht|]. split; [done|].
  rewrite !size_list_to_set by (done || rewrite <- Hmp; by apply dist_parts_nodup).
  assert (Hlm : length (matching_pipes d) = di_matching d).
  { unfold matching_pipes. rewrite length_take, Hpd. lia. }
  rewrite Hlm. unfold dist_abs. simpl. rewrite Hmo, Hmp, (set_perm _ _ Hp), Hpd.
  rewrite <- Hed, <- Had, <- (set_reject _ _ _ Hne He). f_equal.
  destruct (has_flag m msg_more); [by apply set_reject|by rewrite Ha].
Qed.

Lemma dist_step_sim h (w : W) d held op :
  dist_rel ext (h, w, d) (dist_abs d held) → dlegal ext (dist_abs d held) op → dist_sim h w d held op.
Proof.
  intros Hrel Hl. destruct op.
  - by apply dist_sim_attach.
  - by apply dist_sim_match.
  - by apply dist_sim_reverse.
  - by apply dist_sim_unmatch.
  - by apply dist_sim_terminated.
  - by apply dist_sim_activated.
  - destruct (dist_sim_send h w d d (di_matching d) held m) as (h' & w' & d' & a' & evs & Hr & Hlog & Ha & Hrel'); [done|done|by destruct d|apply Hrel|].
    exists (h', w', d'), a', evs. simpl. by rewrite Hr.
  - destruct (dist_sim_send h w d (di_set d (di_active d) (di_active d) (di_eligible d)) (di_active d) held m)
      as (h' & w' & d' & a' & evs & Hr & Hlog & Ha & Hrel'); [done|done|done|done|].
    exists (h', w', d'), a', evs. simpl. unfold dist_send_to_all. by rewrite Hr.
Qed.

End refinement.

(** Along any sequence of operations that respects the protocol of [dlegal], no
    step fails and the abstract distributor follows. *)
Fixpoint dist_follows {W} `{!OutPipes W} (ext : nat → Z) (ops : list dop) (c : heap * W * dist_t) (a : dabs) : Prop :=
  match ops with
  | [] => dist_rel ext c a
  | op :: ops =>
      dlegal ext a op →
      ∃ c' a' evs, dist_step c op = Done c' ∧ op_log c'.1.2 = op_log c.1.2 ++ evs ∧ abs_dist_step a op evs a' ∧ dist_follows ext ops c' a'
  end.

(** C9: The distributor refines four sets of pipes: starting empty, through any
    sequence of attach, match, reverse_match, unmatch, terminated, activated and
    sends that respects the callers' protocol, no index leaves the array and no
    assertion fails; match adds an eligible pipe, reverse_match complements the
    matching set within the eligible one, and a send asks every matching (or active)
    pipe once, drops exactly the pipes whose write was refused and leaves one handle of the
    message per pipe whose write was accepted, as the history of the pipes has it. *)
Theorem dist_refines {W} `{!OutPipes W} (ext : nat → Z) (ops : list dop) h (w : W) held :
  heap_inv ext h held → dist_follows ext ops (h, w, dist_new) (dist_abs dist_new held).
Proof.
  intros Hh. assert (Hrel : dist_rel ext (h, w, dist_new) (dist_abs dist_new held)).
  { split; [apply dist_new_inv|]. done. }
  clear Hh. revert h w held Hrel. generalize dist_new as d.
  induction ops as [|op ops IH]; intros d h w held Hrel; [done|]. intros Hl.
  destruct (dist_step_sim ext h w d held op Hrel Hl) as ([[h' w'] d'] & a' & evs & Hs & Hlog & Ha & Hrel').
  exists (h', w', d'), a', evs. split; [done|]. split; [exact Hlog|]. split; [done|].
  pose proof Hrel' as (_ & _ & Heq). simpl in Heq. rewrite Heq in *. by apply IH.
Qed.

(** Pipes with a fixed set that accepts messages. *)
Record test_pipes := TestPipes { tp_open : list nat; tp_log : list pipe_event }.

#[export] Instance test_out_pipes : OutPipes test_pipes := {|
  op_write w p m := (bool_decide (p ∈ tp_open w), TestPipes (tp_open w) (tp_log w ++ [EvWrite p m (bool_decide (p ∈ tp_open w))]));
  op_flush w p := TestPipes (tp_open w) (tp_log w ++ [EvFlush p]);
  op_check_hwm w p := bool_decide (p ∈ tp_open w);
  op_log := tp_log;
  op_write_log := λ w p m, eq_refl;
  op_flush_log := λ w p, eq_refl;
|}.

Lemma dist_refines_witness :
  heap_inv no_ext (empty_heap (λ _, true)) [msg_init] ∧
  ∃ c' a' evs, dist_step (empty_heap (λ _, true), TestPipes [] [], dist_new) (DAttach 7) = Done c'
    ∧ abs_dist_step (dist_abs dist_new [msg_init]) (DAttach 7) evs a' ∧ da_matching a' = ∅.
Proof.
  assert (H : heap_inv no_ext (empty_heap (λ _, true)) [msg_init])
    by (apply (empty_pool_rel _ 1); lia).
  split; [exact H|].
  destruct (dist_refines no_ext [DAttach 7] (empty_heap (λ _, true)) (TestPipes [] []) [msg_init] H)
    as (c' & a' & evs & Hs & _ & Ha & _).
  - split; [set_solver|]. by vm_compute.
  - exists c', a', evs. split; [exact Hs|]. split; [exact Ha|]. simpl in Ha. by destruct Ha as [_ ->].
Defined.

(** C10: A send tries every matching pipe exactly once, in one write (and a flush
    when the message ends there); the pipes that accept stay matching, in the
    order of the tries, those that refuse leave the eligible ones; the caller's
    message is empty again, its one reference has become one reference per pipe
    that accepted, and the bytes they read are the message's. *)
Theorem dist_send_exactly_once {W} `{!OutPipes W} ext h (w : W) d m ms :
  dist_inv d → heap_inv ext h (m :: ms) → plain m → msg_check m = true →
  Z.of_nat (length ms + S (di_matching d)) < 2 ^ 32 →
  (∀ md, ext md + Z.of_nat (length ms + S (di_matching d)) < 2 ^ 32) →
  let m' := if decide (di_matching d ≤ 1)%nat then m else copy_of m in
  ∃ h' w' d' tries,
    dist_send_to_matching h w d m = Done (h', w', d', msg_init)
    ∧ dist_inv d' ∧ NoDup tries.*1 ∧ (∀ p, p ∈ tries.*1 ↔ p ∈ matching_pipes d)
    ∧ op_log w' = op_log w ++ concat (try_events m' <$> tries)
    ∧ matching_pipes d' = accepted tries
    ∧ (∀ p, p ∈ eligible_pipes d' ↔ p ∈ eligible_pipes d ∧ p ∉ rejected tries)
    ∧ heap_inv ext h' (replicate (length (accepted tries)) m' ++ ms)
    ∧ (accepted tries ≠ [] → msg_bytes h' m' = msg_bytes h m).
Proof.
  intros Hdi Hinv Hpl Hck Hl1 Hl2. simpl.
  destruct (dist_send_spec ext h w d m ms) as (h' & w' & d' & tries & Hr & Hinv' & _ & _ & Hl & Ht & Hm & He & _ & Hh & Hf);
    [done..|]. simpl in Hl, Hh. set (m' := if decide _ then _ else _) in *.
  pose proof (dist_parts_nodup d Hdi) as (_ & Hne & _ & Hnm).
  exists h', w', d', tries. split; [done|]. split; [done|]. split; [by rewrite Ht|].
  split; [intros p; by rewrite Ht|]. split; [done|]. split; [done|]. split; [|split; [done|]].
  - intros p. rewrite He in Hne |- *. apply NoDup_app in Hne as (_ & Hn & _). rewrite elem_of_app. naive_solver.
  - intros Ha. assert (Hb : msg_bytes h m' = msg_bytes h m).
    { unfold m'. case_decide; [done|]. apply copy_of_bytes. }
    rewrite <- Hb. eapply msg_bytes_frame; [done|apply Hh|]. apply elem_of_app. left.
    apply elem_of_replicate. split; [done|]. by destruct (accepted tries).
Qed.

(** Three matching pipes, the second of which is full. *)
Definition witness_dist : dist_t :=
  Dist (Array [4; 5; 6]%nat {[4%nat := 0; 5%nat := 1; 6%nat := 2]}) 3 3 3 false.

Lemma witness_dist_inv : dist_inv witness_dist.
Proof.
  split; simpl; [|lia|lia|unfold di_size; simpl; lia|done].
  split; simpl; [apply (bool_decide_unpack _); by vm_compute|done|].
  intros [|[|[|i]]] p Hp; simplify_eq/=; by vm_compute.
Qed.

Lemma dist_send_exactly_once_witness :
  ∃ h' w' d', dist_send_to_matching (W := test_pipes) witness_heap (TestPipes [4; 6]%nat []) witness_dist
                (msg_base type_lmsg (BContent 0)) = Done (h', w', d', msg_init)
    ∧ dist_inv d' ∧ ar_items (di_pipes d') = [4; 6; 5]%nat.
Proof.
  destruct (dist_send_exactly_once (W := test_pipes) no_ext witness_heap (TestPipes [4; 6]%nat []) witness_dist
              (msg_base type_lmsg (BContent 0)) []) as (h' & w' & d' & tries & Hr & Hinv & _).
  - apply witness_dist_inv.
  - apply (lmsg_msg_spec no_ext (empty_heap (λ _, true)) [] [1; 2] 0);
      [apply (empty_pool_rel _ 0); lia|done|done|unfold no_ext; simpl; lia].
  - split; [done|]. by exists [].
  - done.
  - simpl. lia.
  - unfold no_ext. simpl. lia.
  - exists h', w', d'. split; [exact Hr|]. split; [exact Hinv|].
    vm_compute in Hr. injection Hr as _ _ <-. reflexivity.
Defined.
