(* ===== verification/Fq.v ===== *)
(** The fair queue of src/pipe/fq.cpp.

    [InPipes] is what the queue needs of its pipes: [read] and [check_read] over
    the messages that are ready.  [recvpipe] takes the next message from an active
    pipe that has one, never misses one, and serves the active pipes in turn: while
    a pipe waits, at most as many messages of other pipes go before it as its
    distance from the current one. *)
From S2P Require Import Prelude Msg PipeArray.

(** ** The pipes *)

Class InPipes (W : Type) := {
  ip_read : W → nat → option msg_t * W;
  ip_check_read : W → nat → bool * W;
  (** The message parts that can be read from a pipe. *)
  ip_ready : W → nat → list msg_t;
  ip_read_result : ∀ w p, (ip_read w p).1 = head (ip_ready w p);
  ip_read_ready : ∀ w p q,
    ip_ready (ip_read w p).2 q = if decide (q = p) then tail (ip_ready w p) else ip_ready w q;
  ip_check_result : ∀ w p, (ip_check_read w p).1 = bool_decide (ip_ready w p ≠ []);
  ip_check_ready : ∀ w p q, ip_ready (ip_check_read w p).2 q = ip_ready w q;
  (** A message becomes ready as a whole. *)
  ip_whole : ∀ w p m, last (ip_ready w p) = Some m → has_flag m msg_more = false;
}.

(** ** State and operations *)

Record fq_t := Fq {
  fq_pipes : array_t;
  fq_active : nat;
  fq_current : nat;
  fq_more : bool;
}.

Definition fq_new : fq_t := Fq array_new 0 0 false.

Definition fq_index (f : fq_t) (p : nat) : Z := ar_get_index (fq_pipes f) p.
Definition fq_size (f : fq_t) : nat := length (ar_items (fq_pipes f)).

Definition fq_attach (f : fq_t) (p : nat) : outcome fq_t :=
  let a := ar_push_back (fq_pipes f) p in
  a ← ar_swap a (Z.of_nat (fq_active f)) (ar_size a - 1);
  Done (Fq a (S (fq_active f)) (fq_current f) (fq_more f)).

(** [_active--; _pipes.swap (index, _active); if (_current == _active) _current = 0] *)
Definition fq_deactivate (f : fq_t) (index : Z) : outcome fq_t :=
  match fq_active f with
  | O => Undef
  | S active =>
      a ← ar_swap (fq_pipes f) index (Z.of_nat active);
      Done (Fq a active (if decide (fq_current f = active) then 0%nat else fq_current f) (fq_more f))
  end.

Definition fq_pipe_terminated (f : fq_t) (p : nat) : outcome fq_t :=
  let index := fq_index f p in
  f ← (if decide (index < Z.of_nat (fq_active f)) then fq_deactivate f index else Done f);
  a ← ar_erase (fq_pipes f) p;
  Done (Fq a (fq_active f) (fq_current f) (fq_more f)).

Definition fq_activated (f : fq_t) (p : nat) : outcome fq_t :=
  a ← ar_swap (fq_pipes f) (fq_index f p) (Z.of_nat (fq_active f));
  Done (Fq a (S (fq_active f)) (fq_current f) (fq_more f)).

Section fq.
Context {W : Type} `{!InPipes W}.

(** The loop of [recvpipe]: every turn returns or drops an active pipe. *)
Fixpoint recv_loop (fuel : nat) (w : W) (f : fq_t) : outcome (option (nat * msg_t) * W * fq_t) :=
  match fuel with
  | O => Undef
  | S fuel =>
      if decide (0 < fq_active f)%nat then
        p ← geti (ar_items (fq_pipes f)) (Z.of_nat (fq_current f));
        let '(fetched, w) := ip_read w p in
        match fetched with
        | Some m =>
            let more := has_flag m msg_more in
            let current := if more then fq_current f else ((fq_current f + 1) mod fq_active f)%nat in
            Done (Some (p, m), w, Fq (fq_pipes f) (fq_active f) current more)
        | None =>
            assert! negb (fq_more f);;
            f ← fq_deactivate f (Z.of_nat (fq_current f));
            recv_loop fuel w f
        end
      else Done (None, w, f)
  end.

(** [recvpipe (msg_, pipe_)]: the message received with its pipe, or [EAGAIN] and
    an empty message. *)
Definition fq_recvpipe (h : heap) (w : W) (f : fq_t) (m : msg_t)
    : outcome (heap * W * fq_t * msg_t * option nat) :=
  '(rc, h, _) ← msg_close h m;
  assert! bool_decide (rc = RcOk);;
  '(r, w, f) ← recv_loop (S (fq_active f)) w f;
  match r with
  | Some (p, m) => Done (h, w, f, m, Some p)
  | None => Done (h, w, f, msg_init, None)
  end.

Definition fq_recv (h : heap) (w : W) (f : fq_t) (m : msg_t) : outcome (heap * W * fq_t * msg_t * bool) :=
  '(h, w, f, m, p) ← fq_recvpipe h w f m;
  Done (h, w, f, m, bool_decide (is_Some p)).

Fixpoint has_in_loop (fuel : nat) (w : W) (f : fq_t) : outcome (bool * W * fq_t) :=
  match fuel with
  | O => Undef
  | S fuel =>
      if decide (0 < fq_active f)%nat then
        p ← geti (ar_items (fq_pipes f)) (Z.of_nat (fq_current f));
        let '(readable, w) := ip_check_read w p in
        if readable : bool then Done (true, w, f)
        else
          f ← fq_deactivate f (Z.of_nat (fq_current f));
          has_in_loop fuel w f
      else Done (false, w, f)
  end.

Definition fq_has_in (w : W) (f : fq_t) : outcome (bool * W * fq_t) :=
  if fq_more f then Done (true, w, f) else has_in_loop (S (fq_active f)) w f.

End fq.

(** ** Invariant *)

Record fq_inv (f : fq_t) : Prop := {
  fq_wf : ar_wf (fq_pipes f);
  fq_active_le : (fq_active f ≤ fq_size f)%nat;
  fq_current_lt : (fq_current f < fq_active f)%nat ∨ (fq_active f = 0 ∧ fq_current f = 0)%nat;
}.

Definition active_in (f : fq_t) : list nat := take (fq_active f) (ar_items (fq_pipes f)).

(** The distance of the pipe at index [i] from the current one, in the order the
    pipes are served. *)
Definition fq_rank (f : fq_t) (i : nat) : nat :=
  if decide (fq_current f ≤ i)%nat then (i - fq_current f)%nat else (fq_active f - fq_current f + i)%nat.

(** The pipe is active, at a distance of at most [r]. *)
Definition waits (f : fq_t) (q r : nat) : Prop :=
  ∃ j, (j < fq_active f)%nat ∧ ar_items (fq_pipes f) !! j = Some q ∧ (fq_rank f j ≤ r)%nat.

Lemma fq_new_inv : fq_inv fq_new.
Proof. split; [split; [constructor|done|done]|done|by right]. Qed.

Lemma waits_active f q r : waits f q r → q ∈ active_in f.
Proof. intros (j & Hj & Hq & _). apply elem_of_take. eauto. Qed.

Lemma active_waits f q : fq_inv f → q ∈ active_in f → ∃ r, waits f q r ∧ (r < fq_active f)%nat.
Proof.
  intros [_ _ Hc] (j & Hj & Hl)%elem_of_take. exists (fq_rank f j). split; [by exists j|].
  unfold fq_rank. case_decide; lia.
Qed.

Lemma fq_index_spec f i p : fq_inv f → ar_items (fq_pipes f) !! i = Some p → fq_index f p = Z.of_nat i.
Proof. intros Hinv Hi. apply ar_get_index_spec; [apply Hinv|done]. Qed.

(** A pipe leaves the active ones. *)
Lemma fq_deactivate_spec f i p :
  fq_inv f → ar_items (fq_pipes f) !! i = Some p → (i < fq_active f)%nat →
  ∃ f', fq_deactivate f (Z.of_nat i) = Done f' ∧ fq_inv f' ∧ fq_more f' = fq_more f
    ∧ fq_active f = S (fq_active f') ∧ ar_items (fq_pipes f') = lswap (ar_items (fq_pipes f)) i (fq_active f')
    ∧ fq_current f' = (if decide (fq_current f = fq_active f') then 0%nat else fq_current f)
    ∧ active_in f ≡ₚ p :: active_in f'.
Proof.
  intros [Hwf Hle Hc] Hi Hil. unfold fq_deactivate, fq_size in *. destruct (fq_active f) as [|n] eqn:Ha; [lia|].
  destruct (ar_swap_spec (fq_pipes f) i n) as (a & -> & Hwf' & Hit); [done|lia|lia|]. rewrite bind_Done.
  eexists. split; [done|]. simpl. unfold active_in. rewrite Ha. simpl. split; [|split_and!; try done].
  - split; unfold fq_size; simpl; [done|rewrite Hit, length_lswap; lia|]. case_decide; lia.
  - rewrite Hit. rewrite (take_lswap_out _ n i p) by (lia || done). by rewrite Permutation_app_comm.
Qed.

(** The current pipe leaves: no other pipe gets further from its turn. *)
Lemma deactivate_rank f f' p q r :
  fq_inv f → ar_items (fq_pipes f) !! fq_current f = Some p → fq_active f = S (fq_active f') →
  ar_items (fq_pipes f') = lswap (ar_items (fq_pipes f)) (fq_current f) (fq_active f') →
  fq_current f' = (if decide (fq_current f = fq_active f') then 0%nat else fq_current f) →
  q ≠ p → waits f q r → waits f' q r.
Proof.
  intros [_ Hle Hc] Hp Ha Hit Hcur Hq (j & Hj & Hjq & Hr). unfold fq_size in *.
  assert (j ≠ fq_current f) by (intros ->; congruence).
  exists (if decide (j = fq_active f') then fq_current f else j). rewrite Hit, lswap_lookup by lia.
  unfold fq_rank in *. rewrite Hcur. repeat case_decide; subst; split_and!; try lia; try congruence; try done.
Qed.

(** A message of the current pipe ends: every other pipe gets closer to its turn. *)
Lemma next_rank f q p r more :
  fq_inv f → ar_items (fq_pipes f) !! fq_current f = Some p → q ≠ p → waits f q r →
  ∃ r', waits (Fq (fq_pipes f) (fq_active f)
                 (if more : bool then fq_current f else ((fq_current f + 1) mod fq_active f)%nat) more) q r'
    ∧ (r' + (if more then 0 else 1) ≤ r)%nat.
Proof.
  intros [_ _ Hc] Hp Hq (j & Hj & Hjq & Hr). destruct more.
  { exists r. split; [|lia]. by exists j. }
  assert (j ≠ fq_current f) by (intros ->; congruence). destruct Hc as [Hc|Hc]; [|lia].
  exists (r - 1)%nat. unfold waits, fq_rank in *. simpl. destruct (decide (fq_current f + 1 < fq_active f)%nat) as [Hlt|Hge].
  - rewrite Nat.mod_small by done. split; [exists j; split_and!; [done|done|]|]; repeat case_decide; lia.
  - replace (fq_current f + 1)%nat with (fq_active f) by lia. rewrite Nat.Div0.mod_same.
    split; [exists j; split_and!; [done|done|]|]; repeat case_decide; lia.
Qed.

(** ** Pipes that come and go *)

Lemma fq_attach_spec f p :
  fq_inv f → p ∉ ar_items (fq_pipes f) → ar_size (fq_pipes f) + 1 < 2 ^ 31 →
  ∃ f', fq_attach f p = Done f' ∧ fq_inv f' ∧ fq_more f' = fq_more f ∧ fq_current f' = fq_current f
    ∧ ar_items (fq_pipes f') ≡ₚ p :: ar_items (fq_pipes f) ∧ active_in f' = active_in f ++ [p].
Proof.
  intros [Hwf Hle Hc] Hp Hlen. destruct (ar_push_back_spec (fq_pipes f) p Hwf Hp Hlen) as [Hwf1 Hit1].
  unfold fq_attach, fq_size in *. set (n := length (ar_items (fq_pipes f))) in *.
  assert (Hl1 : length (ar_items (ar_push_back (fq_pipes f) p)) = S n) by (rewrite Hit1, length_app; simpl; lia).
  replace (ar_size (ar_push_back (fq_pipes f) p) - 1) with (Z.of_nat n) by (unfold ar_size; rewrite Hl1; lia).
  destruct (ar_swap_spec (ar_push_back (fq_pipes f) p) (fq_active f) n) as (a & -> & Hwf' & Hit); [done|lia|lia|].
  rewrite bind_Done. eexists. split; [done|]. unfold active_in. simpl. rewrite Hit, Hit1.
  split; [split; unfold fq_size; simpl; [done|rewrite Hit, length_lswap; lia|lia]|].
  split; [done|]. split; [done|]. split; [rewrite lswap_perm; by rewrite Permutation_app_comm|].
  rewrite lswap_comm, (take_S_lswap _ _ _ p); [|done|by apply list_lookup_middle]. by rewrite take_app_le.
Qed.

Lemma fq_pipe_terminated_spec f p :
  fq_inv f → p ∈ ar_items (fq_pipes f) →
  ∃ f', fq_pipe_terminated f p = Done f' ∧ fq_inv f' ∧ fq_more f' = fq_more f
    ∧ ar_items (fq_pipes f) ≡ₚ p :: ar_items (fq_pipes f')
    ∧ (active_in f ≡ₚ p :: active_in f' ∨ (p ∉ active_in f) ∧ active_in f' = active_in f).
Proof.
  intros Hinv Hp. pose proof (ar_nodup _ (fq_wf _ Hinv)) as Hnd. apply list_elem_of_lookup in Hp as [i Hi].
  unfold fq_pipe_terminated. rewrite (fq_index_spec f i p) by done.
  assert (Hstage : ∃ f1 j, (if decide (Z.of_nat i < Z.of_nat (fq_active f)) then fq_deactivate f (Z.of_nat i) else Done f) = Done f1
    ∧ fq_inv f1 ∧ fq_more f1 = fq_more f ∧ ar_items (fq_pipes f1) ≡ₚ ar_items (fq_pipes f)
    ∧ ar_items (fq_pipes f1) !! j = Some p ∧ (fq_active f1 ≤ j)%nat
    ∧ (active_in f ≡ₚ p :: active_in f1 ∨ (p ∉ active_in f) ∧ active_in f1 = active_in f)).
  { case_decide as Hd.
    - destruct (fq_deactivate_spec f i p) as (f1 & -> & Hinv1 & Hm1 & Ha1 & Hit1 & _ & Hact1); [done|done|lia|].
      pose proof (fq_active_le f Hinv) as Hle. unfold fq_size in Hle.
      exists f1, (fq_active f1). rewrite Hit1. split_and!; try done; [by rewrite lswap_perm| |by left].
      rewrite lswap_lookup by (apply lookup_lt_Some in Hi; lia). by rewrite decide_True.
    - exists f, i. split_and!; try done; [lia|]. right. split; [|done].
      intros (j & Hj & Hl)%elem_of_take. pose proof (NoDup_lookup _ _ _ _ Hnd Hi Hj). lia. }
  destruct Hstage as (f1 & j & -> & [Hwf1 Hle1 Hc1] & Hm1 & Hp1 & Hj & Hja & Hact). rewrite bind_Done.
  destruct (ar_erase_spec (fq_pipes f1) p j) as (a & -> & Hwf2 & Hit2); [done..|]. rewrite bind_Done.
  eexists. split; [done|]. unfold active_in, fq_size in *. simpl. apply lookup_lt_Some in Hj as Hjl.
  set (n := (length (ar_items (fq_pipes f1)) - 1)%nat) in *.
  assert (Htk : take (fq_active f1) (ar_items a) = take (fq_active f1) (ar_items (fq_pipes f1))).
  { rewrite Hit2, take_take_le, take_lswap_ge by lia. done. }
  split; [split; unfold fq_size; simpl; [done|rewrite Hit2, length_take, length_lswap; lia|done]|].
  split; [done|]. split; [|by rewrite Htk].
  rewrite <- Hp1, Hit2. transitivity (take (S n) (ar_items (fq_pipes f1))); [by rewrite take_ge by lia|].
  rewrite (take_lswap_out _ n j p) by (lia || done). by rewrite Permutation_app_comm.
Qed.

Lemma fq_activated_spec f p :
  fq_inv f → p ∈ ar_items (fq_pipes f) → p ∉ active_in f →
  ∃ f', fq_activated f p = Done f' ∧ fq_inv f' ∧ fq_more f' = fq_more f ∧ fq_current f' = fq_current f
    ∧ ar_items (fq_pipes f') ≡ₚ ar_items (fq_pipes f) ∧ active_in f' = active_in f ++ [p].
Proof.
  intros Hinv Hp Hna. pose proof Hinv as [Hwf Hle Hc]. apply list_elem_of_lookup in Hp as [i Hi].
  pose proof (lookup_lt_Some _ _ _ Hi) as Hil. unfold fq_activated. rewrite (fq_index_spec f i p) by done.
  assert (Hia : (fq_active f ≤ i)%nat).
  { destruct (decide (fq_active f ≤ i)%nat); [done|]. destruct Hna. apply elem_of_take. exists i. split; [done|lia]. }
  unfold fq_size in *. destruct (ar_swap_spec (fq_pipes f) i (fq_active f)) as (a & -> & Hwf' & Hit); [done|lia|lia|].
  rewrite bind_Done. eexists. split; [done|]. unfold active_in. simpl. rewrite Hit.
  split; [split; unfold fq_size; simpl; [done|rewrite Hit, length_lswap; lia|lia]|].
  split; [done|]. split; [done|]. split; [apply lswap_perm|]. by apply take_S_lswap.
Qed.

(** ** Receiving *)

Section receive.
Context {W : Type} `{!InPipes W}.

(** The rest of a message whose first part was received is ready. *)
Definition rest_ready (w : W) (f : fq_t) : Prop :=
  fq_more f = true →
  (0 < fq_active f)%nat ∧ ∃ p, ar_items (fq_pipes f) !! fq_current f = Some p ∧ ip_ready w p ≠ [].

(** What a receive does: the first ready part of an active pipe, or nothing when
    no active pipe has one.  Active pipes with nothing ready may become passive. *)
Definition received (w : W) (f : fq_t) (r : option (nat * msg_t)) (w' : W) (f' : fq_t) : Prop :=
  fq_inv f' ∧ ar_items (fq_pipes f') ≡ₚ ar_items (fq_pipes f) ∧ active_in f' ⊆ active_in f ∧
  match r with
  | Some (p, m) =>
      p ∈ active_in f' ∧ head (ip_ready w p) = Some m
      ∧ (∀ q, ip_ready w' q = if decide (q = p) then tail (ip_ready w q) else ip_ready w q)
      ∧ (∀ q, q ∈ active_in f → ip_ready w q ≠ [] → q ∈ active_in f')
      ∧ fq_more f' = has_flag m msg_more
      ∧ (fq_more f = true → ar_items (fq_pipes f) !! fq_current f = Some p)
      ∧ (has_flag m msg_more = true → ar_items (fq_pipes f') !! fq_current f' = Some p)
      ∧ (∀ q r, q ≠ p → ip_ready w q ≠ [] → waits f q r →
           ∃ r', waits f' q r' ∧ (r' + (if has_flag m msg_more then 0 else 1) ≤ r)%nat)
  | None =>
      fq_active f' = 0%nat ∧ fq_more f' = false ∧ (∀ q, q ∈ active_in f → ip_ready w q = [])
      ∧ (∀ q, ip_ready w' q = ip_ready w q)
  end.

Lemma recv_loop_spec fuel (w : W) f :
  fq_inv f → rest_ready w f → (fq_active f < fuel)%nat →
  ∃ r w' f', recv_loop fuel w f = Done (r, w', f') ∧ received w f r w' f'.
Proof.
  revert w f. induction fuel as [|fuel IH]; intros w f Hinv Hrest Hf; [lia|]. cbn [recv_loop].
  pose proof Hinv as [Hwf Hle Hc]. destruct (decide (0 < fq_active f)%nat) as [Ha|Ha]; last first.
  { exists None, w, f. split; [done|]. assert (Ha0 : fq_active f = 0%nat) by lia.
    split; [done|]. split; [done|]. split; [done|]. split; [done|].
    split; [|split; [|done]].
    - destruct (fq_more f) eqn:Hm; [|done]. destruct (Hrest Hm). lia.
    - unfold active_in. rewrite Ha0. simpl. set_solver. }
  destruct Hc as [Hc|Hc]; [|lia]. unfold fq_size in *.
  destruct (lookup_lt_is_Some_2 (ar_items (fq_pipes f)) (fq_current f)) as [p Hp]; [lia|].
  rewrite (geti_Some _ _ p Hp), bind_Done.
  pose proof (ip_read_result w p) as Hres. pose proof (ip_read_ready w p) as Hrd.
  destruct (ip_read w p) as [[m|] w1]; simpl in Hres, Hrd.
  - eexists _, _, _. split; [done|]. assert (Hpa : p ∈ active_in f) by (apply elem_of_take; eauto).
    split; [split; unfold fq_size; simpl; [done|done|]|].
    { left. destruct (has_flag m msg_more); [done|]. apply Nat.mod_upper_bound. lia. }
    split; [done|]. split; [done|]. split; [done|]. split; [done|].
    split; [intros q; rewrite Hrd; by case_decide; subst|]. split; [done|]. split; [done|]. split; [done|].
    split; [simpl; by intros ->|]. intros q r Hq _ Hw. by apply (next_rank f q p).
  - assert (Hnil : ip_ready w p = []) by (by destruct (ip_ready w p)).
    assert (Hsame : ∀ q, ip_ready w1 q = ip_ready w q).
    { intros q. rewrite Hrd. case_decide; [subst; by rewrite Hnil|done]. }
    assert (Hmore : fq_more f = false).
    { destruct (fq_more f) eqn:Hm; [|done]. destruct (Hrest Hm) as (_ & p' & Hp' & Hne). congruence. }
    rewrite Hmore. cbn [negb]. rewrite slk_assert_true, bind_Done by done.
    destruct (fq_deactivate_spec f (fq_current f) p) as (f1 & -> & Hinv1 & Hm1 & Ha1 & Hit1 & Hcur1 & Hact1); [done..|].
    rewrite bind_Done. destruct (IH w1 f1) as (r & w' & f' & Hrun & Hrec); [done|intros ?; congruence|lia|].
    exists r, w', f'. split; [done|]. destruct Hrec as (R1 & R2 & R3 & R4).
    split; [done|]. split; [by rewrite R2, Hit1, lswap_perm|].
    split; [intros q Hq%R3; rewrite Hact1; by right|]. destruct r as [[q m]|].
    + destruct R4 as (S1 & S2 & S3 & S4 & S5 & _ & S6 & S7). rewrite Hsame in S2.
      split; [done|]. split; [done|]. split; [intros q'; rewrite S3, !Hsame; done|].
      split; [|split; [done|split; [congruence|split; [done|]]]].
      * intros q' Hq' Hne. apply S4; [|by rewrite Hsame]. rewrite Hact1 in Hq'. apply elem_of_cons in Hq' as [->|?]; [|done].
        congruence.
      * intros q' r Hq' Hne Hw. apply S7; [done|by rewrite Hsame|].
        by apply (deactivate_rank f f1 p); try done; intros ->.
    + destruct R4 as (S1 & S2 & S3 & S4). split; [done|]. split; [done|]. split.
      * intros q Hq. rewrite Hact1 in Hq. apply elem_of_cons in Hq as [->|Hq]; [done|]. rewrite <- Hsame. auto.
      * intros q. by rewrite S4, Hsame.
Qed.

(** [has_in]: whether a message is ready, with the pipes that have none out of the
    active ones. *)
Lemma has_in_loop_spec fuel (w : W) f :
  fq_inv f → fq_more f = false → (fq_active f < fuel)%nat →
  ∃ b w' f', has_in_loop fuel w f = Done (b, w', f') ∧ fq_inv f' ∧ fq_more f' = false
    ∧ ar_items (fq_pipes f') ≡ₚ ar_items (fq_pipes f) ∧ active_in f' ⊆ active_in f
    ∧ (∀ q, ip_ready w' q = ip_ready w q)
    ∧ (∀ q, q ∈ active_in f → ip_ready w q ≠ [] → q ∈ active_in f')
    ∧ b = bool_decide (Exists (λ q, ip_ready w q ≠ []) (active_in f)).
Proof.
  revert w f. induction fuel as [|fuel IH]; intros w f Hinv Hmore Hf; [lia|]. cbn [has_in_loop].
  pose proof Hinv as [Hwf Hle Hc]. destruct (decide (0 < fq_active f)%nat) as [Ha|Ha]; last first.
  { exists false, w, f. split; [done|]. do 6 (split; [done|]).
    unfold active_in. by replace (fq_active f) with 0%nat by lia. }
  destruct Hc as [Hc|Hc]; [|lia]. unfold fq_size in *.
  destruct (lookup_lt_is_Some_2 (ar_items (fq_pipes f)) (fq_current f)) as [p Hp]; [lia|].
  rewrite (geti_Some _ _ p Hp), bind_Done.
  pose proof (ip_check_result w p) as Hres. pose proof (ip_check_ready w p) as Hrd.
  assert (Hpa : p ∈ active_in f) by (apply elem_of_take; eauto).
  destruct (ip_check_read w p) as [[] w1]; simpl in Hres, Hrd; symmetry in Hres.
  - exists true, w1, f. split; [done|]. do 6 (split; [done|]). symmetry. apply bool_decide_eq_true.
    apply bool_decide_eq_true in Hres. apply Exists_exists. eauto.
  - assert (Hnil : ip_ready w p = []) by (apply bool_decide_eq_false in Hres; by apply dec_stable).
    destruct (fq_deactivate_spec f (fq_current f) p) as (f1 & -> & Hinv1 & Hm1 & Ha1 & Hit1 & Hcur1 & Hact1); [done..|].
    rewrite bind_Done. destruct (IH w1 f1) as (b & w' & f' & Hrun & I1 & I2 & I3 & I4 & I5 & I6 & I7); [done|congruence|lia|].
    exists b, w', f'. split; [done|]. split; [done|]. split; [done|]. split; [by rewrite I3, Hit1, lswap_perm|].
    split; [intros q Hq%I4; rewrite Hact1; by right|]. split; [intros q; by rewrite I5, Hrd|]. split.
    + intros q Hq Hne. apply I6; [|by rewrite Hrd]. rewrite Hact1 in Hq. apply elem_of_cons in Hq as [->|?]; [congruence|done].
    + rewrite I7. apply bool_decide_ext. rewrite !Exists_exists. setoid_rewrite Hact1.
      setoid_rewrite Hrd. setoid_rewrite elem_of_cons. naive_solver.
Qed.

Lemma received_rest_ready (w : W) f r w' f' : received w f r w' f' → rest_ready w' f'.
Proof.
  intros (Hinv & _ & _ & Hr) Hm. destruct r as [[p m]|]; [|destruct Hr as (_ & ? & _); congruence].
  destruct Hr as (Hp & Hh & Hrd & _ & Hm' & _ & Hc & _). rewrite Hm' in Hm. specialize (Hc Hm).
  split.
  - apply elem_of_take in Hp as (? & _ & ?). lia.
  - exists p. split; [done|]. rewrite Hrd, decide_True by done. destruct (ip_ready w p) as [|m1 [|m2 l]] eqn:Heq; [done| |done].
    pose proof (ip_whole w p m) as Hl. rewrite Heq in Hl. simpl in *. injection Hh as ->. specialize (Hl eq_refl). congruence.
Qed.

End receive.

(** ** Refinement

    Abstractly the queue is two sets of pipes and, in the middle of a message, the
    pipe it comes from. *)

Record fabs := FAbs {
  fa_pipes : gset nat;
  fa_active : gset nat;
  fa_partial : option nat;
  fa_held : list msg_t;       (* message handles in use *)
}.

Inductive fop (W : Type) :=
| FAttach (p : nat) | FTerminated (p : nat) | FActivated (p : nat)
| FRecv (m : msg_t) | FHasIn | FWorld (w : W).
Arguments FAttach {W} _.
Arguments FTerminated {W} _.
Arguments FActivated {W} _.
Arguments FRecv {W} _.
Arguments FHasIn {W}.
Arguments FWorld {W} _.

(** What a step returns. *)
Inductive fres := FUnit | FBool (b : bool) | FMsg (m : msg_t) (p : option nat).

Section refinement.
Context {W : Type} `{!InPipes W} (ext : nat → Z).

Definition fq_step (c : heap * W * fq_t) (op : fop W) : outcome (heap * W * fq_t * fres) :=
  let '(h, w, f) := c in
  match op with
  | FAttach p => f ← fq_attach f p; Done (h, w, f, FUnit)
  | FTerminated p => f ← fq_pipe_terminated f p; Done (h, w, f, FUnit)
  | FActivated p => f ← fq_activated f p; Done (h, w, f, FUnit)
  | FRecv m => '(h, w, f, m, p) ← fq_recvpipe h w f m; Done (h, w, f, FMsg m p)
  | FHasIn => '(b, w, f) ← fq_has_in w f; Done (h, w, f, FBool b)
  | FWorld w => Done (h, w, f, FUnit)
  end.

(** What the socket promises: no pipe terminates in the middle of a message. *)
Definition flegal (a : fabs) (op : fop W) : Prop :=
  match op with
  | FAttach p => (p ∉ fa_pipes a) ∧ Z.of_nat (size (fa_pipes a)) + 1 < 2 ^ 31
  | FTerminated p => p ∈ fa_pipes a ∧ fa_partial a = None
  | FActivated p => p ∈ fa_pipes a ∧ p ∉ fa_active a
  | FRecv m => m ∈ fa_held a ∧ msg_check m = true
  | FHasIn => True
  | FWorld w => ∀ p, fa_partial a = Some p → ip_ready w p ≠ []
  end.

(** The active pipes with something ready stay active. *)
Definition keeps_ready (w : W) (A A' : gset nat) : Prop :=
  A' ⊆ A ∧ ∀ q, q ∈ A → ip_ready w q ≠ [] → q ∈ A'.

Definition abs_fq_step (w : W) (a : fabs) (op : fop W) (r : fres) (w' : W) (a' : fabs) : Prop :=
  let '(FAbs P A part held) := a in
  match op with
  | FAttach p => w' = w ∧ a' = FAbs ({[p]} ∪ P) ({[p]} ∪ A) part held
  | FTerminated p => w' = w ∧ a' = FAbs (P ∖ {[p]}) (A ∖ {[p]}) part held
  | FActivated p => w' = w ∧ a' = FAbs P ({[p]} ∪ A) part held
  | FWorld v => w' = v ∧ a' = a
  | FHasIn =>
      r = FBool (bool_decide (is_Some part) || bool_decide (set_Exists (λ q, ip_ready w q ≠ []) A))
      ∧ (∀ q, ip_ready w' q = ip_ready w q) ∧ ∃ A', keeps_ready w A A' ∧ a' = FAbs P A' part held
  | FRecv m => ∃ A' held', held ≡ₚ m :: held' ∧ keeps_ready w A A' ∧
      ((∃ p m', r = FMsg m' (Some p) ∧ p ∈ A' ∧ head (ip_ready w p) = Some m'
          ∧ (∀ p', part = Some p' → p = p')
          ∧ (∀ q, ip_ready w' q = if decide (q = p) then tail (ip_ready w q) else ip_ready w q)
          ∧ a' = FAbs P A' (if has_flag m' msg_more then Some p else None) held')
       ∨ (r = FMsg msg_init None ∧ part = None ∧ A' = ∅ ∧ (∀ q, q ∈ A → ip_ready w q = [])
          ∧ (∀ q, ip_ready w' q = ip_ready w q) ∧ a' = FAbs P ∅ None held'))
  end.

Definition fq_abs (f : fq_t) (held : list msg_t) : fabs :=
  FAbs (list_to_set (ar_items (fq_pipes f))) (list_to_set (active_in f))
    (if fq_more f then ar_items (fq_pipes f) !! fq_current f else None) held.

Definition fq_rel (c : heap * W * fq_t) (a : fabs) : Prop :=
  fq_inv c.2 ∧ rest_ready c.1.2 c.2 ∧ heap_inv ext c.1.1 (fa_held a) ∧ a = fq_abs c.2 (fa_held a).

Definition fq_sim (h : heap) (w : W) (f : fq_t) (held : list msg_t) (op : fop W) : Prop :=
  ∃ h' w' f' r a', fq_step (h, w, f) op = Done (h', w', f', r)
    ∧ abs_fq_step w (fq_abs f held) op r w' a' ∧ fq_rel (h', w', f') a'.

(** While a message is in progress, the current index stays in the front part. *)
Lemma front_current f f' p :
  fq_inv f → active_in f' = active_in f ++ [p] → fq_current f' = fq_current f → fq_more f' = fq_more f →
  (fq_more f = true → (0 < fq_active f)%nat) →
  (if fq_more f' then ar_items (fq_pipes f') !! fq_current f' else None)
  = (if fq_more f then ar_items (fq_pipes f) !! fq_current f else None).
Proof.
  intros [_ Hle Hc] Ha Hcur Hm Hpos. rewrite Hm, Hcur. destruct (fq_more f); [|done]. specialize (Hpos eq_refl).
  destruct Hc as [Hc|Hc]; [|lia]. unfold active_in, fq_size in *.
  assert (Hlen : length (take (fq_active f') (ar_items (fq_pipes f'))) = S (fq_active f)).
  { rewrite Ha, length_app, length_take. simpl. lia. }
  rewrite length_take in Hlen.
  rewrite <- (lookup_take_lt (ar_items (fq_pipes f')) (fq_active f')), Ha by lia.
  rewrite lookup_app_l, lookup_take_lt by (rewrite ?length_take; lia). done.
Qed.

Lemma rest_ready_front (w : W) f f' p :
  fq_inv f → active_in f' = active_in f ++ [p] → fq_current f' = fq_current f → fq_more f' = fq_more f →
  rest_ready w f → rest_ready w f'.
Proof.
  intros Hinv Ha Hcur Hm Hr Hm'. rewrite Hm in Hm'. destruct (Hr Hm') as (Hpos & q & Hq & Hne).
  pose proof (front_current f f' p Hinv Ha Hcur Hm (λ _, Hpos)) as Heq. rewrite Hm, Hm' in Heq.
  split; [|exists q; split; [congruence|done]]. destruct (fq_active f') eqn:Hz; [|lia].
  unfold active_in in Ha. rewrite Hz, take_0 in Ha. symmetry in Ha. by apply app_nil in Ha as [_ ?].
Qed.

(** A pipe joins the active ones. *)
Lemma fq_front_rel h (w : W) f f' held p :
  fq_rel (h, w, f) (fq_abs f held) → fq_inv f' → fq_more f' = fq_more f → fq_current f' = fq_current f →
  active_in f' = active_in f ++ [p] →
  fq_rel (h, w, f') (fq_abs f' held)
  ∧ fq_abs f' held = FAbs (list_to_set (ar_items (fq_pipes f'))) ({[p]} ∪ list_to_set (active_in f))
                       (fa_partial (fq_abs f held)) held.
Proof.
  intros (Hinv & Hrest & Hh & _) Hinv' Hm Hc Ha. simpl in *. split.
  - split; [done|]. split; [|done]. by apply (rest_ready_front w f f' p).
  - unfold fq_abs. rewrite (front_current f f' p) by (done || (intros Hm0; apply (Hrest Hm0))). f_equal.
    apply leibniz_equiv. rewrite Ha, list_to_set_app. set_solver.
Qed.

Lemma fq_sim_attach h (w : W) f held p :
  fq_rel (h, w, f) (fq_abs f held) → flegal (fq_abs f held) (FAttach p) → fq_sim h w f held (FAttach p).
Proof.
  intros Hrel [Hp Hlen]. pose proof Hrel as [Hinv _]. simpl in *.
  rewrite size_list_to_set in Hlen by apply (fq_wf _ Hinv).
  destruct (fq_attach_spec f p) as (f' & Hr & Hinv' & Hm & Hc & Hpp & Ha); [done|set_solver|unfold ar_size; lia|].
  destruct (fq_front_rel h w f f' held p) as [Hrel' Habs]; [done..|].
  exists h, w, f', FUnit, (fq_abs f' held). split; [simpl; by rewrite Hr|]. split; [|done].
  rewrite Habs. split; [done|]. simpl. f_equal. apply leibniz_equiv. by rewrite Hpp.
Qed.

Lemma fq_sim_activated h (w : W) f held p :
  fq_rel (h, w, f) (fq_abs f held) → flegal (fq_abs f held) (FActivated p) → fq_sim h w f held (FActivated p).
Proof.
  intros Hrel [Hp Hna]. pose proof Hrel as [Hinv _]. simpl in *.
  destruct (fq_activated_spec f p) as (f' & Hr & Hinv' & Hm & Hc & Hpp & Ha); [done|set_solver|set_solver|].
  destruct (fq_front_rel h w f f' held p) as [Hrel' Habs]; [done..|].
  exists h, w, f', FUnit, (fq_abs f' held). split; [simpl; by rewrite Hr|]. split; [|done].
  rewrite Habs. split; [done|]. simpl. f_equal. apply leibniz_equiv. by rewrite Hpp.
Qed.

Lemma fq_sim_terminated h (w : W) f held p :
  fq_rel (h, w, f) (fq_abs f held) → flegal (fq_abs f held) (FTerminated p) → fq_sim h w f held (FTerminated p).
Proof.
  intros (Hinv & Hrest & Hh & _) [Hp Hpart]. pose proof (ar_nodup _ (fq_wf _ Hinv)) as Hnd. simpl in *.
  assert (Hm : fq_more f = false).
  { destruct (fq_more f) eqn:Hm; [|done]. destruct (Hrest Hm) as (_ & q & Hq & _). congruence. }
  destruct (fq_pipe_terminated_spec f p) as (f' & Hr & Hinv' & Hm' & Hpp & Ha); [done|set_solver|].
  exists h, w, f', FUnit, (fq_abs f' held). split; [simpl; by rewrite Hr|]. split.
  - split; [done|]. unfold fq_abs. rewrite Hm', Hm. f_equal; apply set_remove; auto.
    eapply sublist_NoDup; [exact Hnd|apply sublist_take].
  - split; [done|]. split; [|done]. intros ?. simpl in *. congruence.
Qed.

Lemma fq_sim_recv h (w : W) f held m :
  fq_rel (h, w, f) (fq_abs f held) → flegal (fq_abs f held) (FRecv m) → fq_sim h w f held (FRecv m).
Proof.
  intros (Hinv & Hrest & Hh & _) [Hm Hck]. simpl in *. apply elem_of_Permutation in Hm as [ms Hms].
  rewrite Hms in Hh. destruct (msg_close_spec ext h m ms Hh Hck) as (h' & Hcl & Hh' & _).
  destruct (recv_loop_spec (S (fq_active f)) w f) as (r & w' & f' & Hr & Hrec); [done|done|lia|].
  pose proof (received_rest_ready _ _ _ _ _ Hrec) as Hrest'. destruct Hrec as (Hinv' & Hpp & Hsub & Hrec).
  assert (Hk : keeps_ready w (list_to_set (active_in f)) (list_to_set (active_in f'))).
  { split; [set_solver|]. intros q Hq Hne. apply elem_of_list_to_set in Hq. destruct r as [[p m']|].
    - destruct Hrec as (_ & _ & _ & Hk & _). set_solver.
    - destruct Hrec as (_ & _ & Hk & _). destruct (Hne (Hk q Hq)). }
  assert (Hset : list_to_set (ar_items (fq_pipes f')) =@{gset nat} list_to_set (ar_items (fq_pipes f))).
  { by apply list_to_set_perm_L. }
  exists h', w', f', (match r with Some (p, m') => FMsg m' (Some p) | None => FMsg msg_init None end), (fq_abs f' ms).
  split; [|split; [|by split; [|split]]].
  - simpl. unfold fq_recvpipe. rewrite Hcl, bind_Done. cbv iota beta. rewrite slk_assert_bind, Hr, bind_Done by done.
    by destruct r as [[p m']|].
  - exists (list_to_set (active_in f')), ms. split; [done|]. split; [done|]. destruct r as [[p m']|].
    + destruct Hrec as (Hp & Hhd & Hrd & _ & Hmo & Hcur & Hcur' & _). left. exists p, m'.
      split; [done|]. split; [set_solver|]. split; [done|]. split; [|split; [done|]].
      * destruct (fq_more f); [|done]. rewrite Hcur by done. congruence.
      * unfold fq_abs. rewrite Hset, Hmo. f_equal. destruct (has_flag m' msg_more); [by apply Hcur'|done].
    + destruct Hrec as (Ha0 & Hmo & Hall & Hrd). right. split; [done|].
      assert (Hnil : active_in f' = []) by (unfold active_in; by rewrite Ha0). rewrite Hnil. split; [|split; [done|split]].
      * destruct (fq_more f) eqn:Hm; [|done]. destruct (Hrest Hm) as (Hpos & q & Hq & Hne).
        destruct Hne. apply Hall. apply elem_of_take. exists (fq_current f). destruct Hinv as [_ _ [?|?]]; [done|lia].
      * intros q Hq. apply Hall. set_solver.
      * split; [done|]. unfold fq_abs. by rewrite Hset, Hmo, Hnil.
Qed.

Lemma fq_sim_has_in h (w : W) f held :
  fq_rel (h, w, f) (fq_abs f held) → fq_sim h w f held FHasIn.
Proof.
  intros (Hinv & Hrest & Hh & _). simpl in *. unfold fq_sim. cbn [fq_step]. unfold fq_has_in.
  destruct (fq_more f) eqn:Hm.
  - exists h, w, f, (FBool true), (fq_abs f held). split; [done|]. split; [|done].
    unfold fq_abs. simpl. rewrite Hm. destruct (Hrest Hm) as (_ & q & Hq & _). rewrite Hq. split; [done|].
    split; [done|]. exists (list_to_set (active_in f)). by split.
  - destruct (has_in_loop_spec (S (fq_active f)) w f) as (b & w' & f' & Hr & I1 & I2 & I3 & I4 & I5 & I6 & ->); [done|done|lia|].
    rewrite Hr, bind_Done. eexists h, w', f', _, (fq_abs f' held). split; [done|]. split.
    + unfold fq_abs. simpl. rewrite Hm, I2. split; [|split; [done|]].
      * simpl. f_equal. apply bool_decide_ext. rewrite Exists_exists. split.
        -- intros (q & ? & ?). exists q. set_solver.
        -- intros (q & ? & ?). exists q. set_solver.
      * exists (list_to_set (active_in f')). split; [split; [set_solver|]|by rewrite (list_to_set_perm_L _ _ I3)].
        intros q Hq Hne. apply elem_of_list_to_set. apply I6; [set_solver|done].
    + split; [done|]. split; [|done]. intros ?. simpl in *. congruence.
Qed.

Lemma fq_step_sim h (w : W) f held op :
  fq_rel (h, w, f) (fq_abs f held) → flegal (fq_abs f held) op → fq_sim h w f held op.
Proof.
  intros Hrel Hl. destruct op as [p|p|p|m| |v].
  - by apply fq_sim_attach.
  - by apply fq_sim_terminated.
  - by apply fq_sim_activated.
  - by apply fq_sim_recv.
  - by apply fq_sim_has_in.
  - exists h, v, f, FUnit, (fq_abs f held). split; [done|]. split; [done|].
    destruct Hrel as (Hinv & Hrest & Hh & _). split; [done|]. split; [|done]. intros Hm. simpl in *.
    destruct (Hrest Hm) as (Hpos & q & Hq & _). split; [done|]. exists q. split; [done|]. apply Hl. by rewrite Hm.
Qed.

(** The queue follows the abstract one through any sequence of operations that
    respects [flegal]. *)
Fixpoint fq_follows (ops : list (fop W)) (c : heap * W * fq_t) (a : fabs) : Prop :=
  match ops with
  | [] => fq_rel c a
  | op :: ops =>
      flegal a op →
      ∃ c' r a', fq_step c op = Done (c', r) ∧ abs_fq_step c.1.2 a op r c'.1.2 a' ∧ fq_follows ops c' a'
  end.

End refinement.

(** C11: The fair queue refines two sets of pipes: starting empty, through any
    sequence of attach, terminated (between messages), activated, has_in and
    receive steps and of arrivals, no index leaves the array and the assertion on
    partial messages holds; a receive returns the first ready part of an active
    pipe, of the same pipe until the message ends, and reports nothing exactly
    when no active pipe has a part ready; only pipes with nothing ready become
    passive. *)
Theorem fq_refines {W} `{!InPipes W} (ext : nat → Z) (ops : list (fop W)) h (w : W) held :
  heap_inv ext h held → fq_follows ext ops (h, w, fq_new) (fq_abs fq_new held).
Proof.
  intros Hh. assert (Hrel : fq_rel ext (h, w, fq_new) (fq_abs fq_new held)).
  { split; [apply fq_new_inv|]. split; [done|]. done. }
  clear Hh. revert h w held Hrel. generalize fq_new as f.
  induction ops as [|op ops IH]; intros f h w held Hrel; [done|]. intros Hl.
  destruct (fq_step_sim ext h w f held op Hrel Hl) as (h' & w' & f' & r & a' & Hs & Ha & Hrel').
  exists (h', w', f'), r, a'. split; [done|]. split; [done|].
  pose proof Hrel' as (_ & _ & _ & Heq). simpl in Heq. rewrite Heq in *. by apply IH.
Qed.

(** Pipes that hold whole messages of one part. *)
Record test_in := TestIn { ti_ready : gmap nat nat }.

Definition ti_msgs (w : test_in) (p : nat) : list msg_t := replicate (default 0%nat (ti_ready w !! p)) msg_init.

#[export] Program Instance test_in_pipes : InPipes test_in := {|
  ip_read w p := (head (ti_msgs w p), TestIn (<[p := pred (default 0%nat (ti_ready w !! p))]> (ti_ready w)));
  ip_check_read w p := (bool_decide (ti_msgs w p ≠ []), w);
  ip_ready := ti_msgs;
|}.
Next Obligation. done. Qed.
Next Obligation.
  intros w p q. unfold ti_msgs. simpl. case_decide as Hd.
  - subst. rewrite lookup_insert_eq. simpl. by destruct (default 0%nat (ti_ready w !! p)).
  - by rewrite lookup_insert_ne.
Qed.
Next Obligation. done. Qed.
Next Obligation. done. Qed.
Next Obligation.
  intros w p m Hl. apply last_Some_elem_of in Hl. unfold ti_msgs in Hl. by apply elem_of_replicate in Hl as [-> _].
Qed.

Lemma fq_refines_witness :
  heap_inv no_ext (empty_heap (λ _, true)) [msg_init; msg_init] ∧
  ∃ c' r a', fq_step (empty_heap (λ _, true), TestIn {[7%nat := 1%nat]}, fq_new) (FAttach 7) = Done (c', r)
    ∧ abs_fq_step (TestIn {[7%nat := 1%nat]}) (fq_abs fq_new [msg_init; msg_init]) (FAttach 7) r c'.1.2 a'
    ∧ fa_active a' = {[7%nat]}.
Proof.
  assert (H : heap_inv no_ext (empty_heap (λ _, true)) [msg_init; msg_init])
    by (apply (empty_pool_rel _ 2); lia).
  split; [exact H|].
  destruct (fq_refines no_ext [FAttach 7] (empty_heap (λ _, true)) (TestIn {[7%nat := 1%nat]}) [msg_init; msg_init] H)
    as (c' & r & a' & Hs & Ha & _).
  - split; [set_solver|]. by vm_compute.
  - exists c', r, a'. split; [exact Hs|]. split; [exact Ha|]. destruct Ha as [_ ->]. by vm_compute.
Defined.

(** [n] receives in a row, up to the first that finds nothing. *)
Fixpoint fq_recv_n {W} `{!InPipes W} (n : nat) (w : W) (f : fq_t) : outcome (list (nat * msg_t) * W * fq_t) :=
  match n with
  | O => Done ([], w, f)
  | S n =>
      '(r, w, f) ← recv_loop (S (fq_active f)) w f;
      match r with
      | Some pm => '(rs, w, f) ← fq_recv_n n w f; Done (pm :: rs, w, f)
      | None => Done ([], w, f)
      end
  end.

(** C12: The fair queue is fair: when an active pipe has a message ready and [r]
    active pipes come before it, then through any number of receives at most [r]
    messages of other pipes are completed before one of its own; no receive in
    between finds nothing.  The distance [r] is less than the number of active
    pipes. *)
Theorem fq_fair {W} `{!InPipes W} n (w : W) f q :
  fq_inv f → rest_ready w f → q ∈ active_in f → ip_ready w q ≠ [] →
  ∃ r, (r < fq_active f)%nat ∧ waits f q r ∧
  ∃ rs w' f', fq_recv_n n w f = Done (rs, w', f')
    ∧ (q ∈ rs.*1 ∨ length rs = n ∧ (length (filter (λ x, has_flag x.2 msg_more = false) rs) ≤ r)%nat).
Proof.
  intros Hinv Hrest Hq Hne. destruct (active_waits f q Hinv Hq) as (r & Hw & Hr). exists r. split; [done|]. split; [done|].
  clear Hr Hq. revert w f r Hinv Hrest Hne Hw. induction n as [|n IH]; intros w f r Hinv Hrest Hne Hw.
  { eexists _, _, _. split; [done|]. right. split; [done|]. simpl. lia. }
  destruct (recv_loop_spec (S (fq_active f)) w f) as (res & w1 & f1 & Hr & Hrec); [done|done|lia|].
  pose proof (received_rest_ready _ _ _ _ _ Hrec) as Hrest1. destruct Hrec as (Hinv1 & _ & _ & Hrec).
  cbn [fq_recv_n]. rewrite Hr, bind_Done. destruct res as [[p m]|]; last first.
  { destruct Hrec as (_ & _ & Hall & _). destruct Hne. eapply Hall, waits_active, Hw. }
  destruct Hrec as (_ & _ & Hrd & _ & _ & _ & _ & Hrank). destruct (decide (q = p)) as [->|Hqp].
  - assert (Hrun : ∃ rs w' f', fq_recv_n n w1 f1 = Done (rs, w', f')).
    { clear -Hinv1 Hrest1. revert w1 f1 Hinv1 Hrest1. induction n as [|n IH]; intros w f Hinv Hrest; [eauto|].
      cbn [fq_recv_n]. destruct (recv_loop_spec (S (fq_active f)) w f) as (res & w1 & f1 & -> & Hrec); [done|done|lia|].
      rewrite bind_Done. destruct res as [pm|]; [|eauto]. pose proof (received_rest_ready _ _ _ _ _ Hrec).
      destruct (IH w1 f1) as (rs & w' & f' & ->); [apply Hrec|done|]. rewrite bind_Done. eauto. }
    destruct Hrun as (rs & w' & f' & ->). rewrite bind_Done. eexists _, _, _. split; [done|]. left. by left.
  - destruct (Hrank q r Hqp Hne Hw) as (r' & Hw' & Hle).
    destruct (IH w1 f1 r') as (rs & w' & f' & -> & Hres); [done|done|by rewrite Hrd, decide_False|done|].
    rewrite bind_Done. eexists _, _, _. split; [done|]. destruct Hres as [Hin|[Hlen Hcnt]]; [left; by right|].
    right. split; [simpl; lia|]. rewrite filter_cons. simpl. destruct (has_flag m msg_more); case_decide; simpl; first [congruence|lia].
Qed.

Definition witness_fq : fq_t := Fq (Array [4; 5]%nat {[4%nat := 0; 5%nat := 1]}) 2 0 false.

Lemma witness_fq_inv : fq_inv witness_fq.
Proof.
  split; simpl; [|unfold fq_size; simpl; lia|lia].
  split; simpl; [apply (bool_decide_unpack _); by vm_compute|done|].
  intros [|[|i]] p Hp; simplify_eq/=; by vm_compute.
Qed.

Lemma fq_fair_witness :
  ∃ rs w' f', fq_recv_n 3 (TestIn {[4%nat := 5%nat; 5%nat := 1%nat]}) witness_fq = Done (rs, w', f') ∧ 5%nat ∈ rs.*1.
Proof.
  destruct (fq_fair 3 (TestIn {[4%nat := 5%nat; 5%nat := 1%nat]}) witness_fq 5)
    as (r & _ & _ & rs & w' & f' & Hr & _).
  - apply witness_fq_inv.
  - done.
  - unfold active_in. simpl. set_solver.
  - done.
  - exists rs, w', f'. split; [exact Hr|]. vm_compute in Hr. injection Hr as <- _ _. simpl. set_solver.
Defined.

(** A pipe that terminates in the middle of a message of another pipe can cut
    that message: when the message comes from the last active pipe and the one
    that terminates is neither it nor the first, the current index jumps to the
    first pipe.  The next receive returns a part of the first pipe's message as
    the continuation, or fails the assertion on partial messages when the first
    pipe has nothing ready, although the rest of the message is ready. *)
Lemma fq_terminated_mid_message {W} `{!InPipes W} h (w : W) f p q x i :
  fq_inv f → fq_more f = true → fq_active f = S (fq_current f) →
  ar_items (fq_pipes f) !! fq_current f = Some p → ar_items (fq_pipes f) !! i = Some q →
  (0 < i < fq_current f)%nat → ar_items (fq_pipes f) !! 0%nat = Some x →
  ∃ f', fq_pipe_terminated f q = Done f' ∧ x ≠ p
    ∧ (ip_ready w x = [] → fq_recvpipe h w f' msg_init = Abort)
    ∧ (∀ m l, ip_ready w x = m :: l →
         ∃ w' f'', fq_recvpipe h w f' msg_init = Done (h, w', f'', m, Some x)).
Proof.
  intros Hinv Hm Ha Hp Hq Hi Hx. pose proof (ar_nodup _ (fq_wf _ Hinv)) as Hnd.
  assert (Hxp : x ≠ p) by (intros ->; pose proof (NoDup_lookup _ _ _ _ Hnd Hx Hp); lia).
  destruct (fq_deactivate_spec f i q) as (f1 & Hd & Hinv1 & Hm1 & Ha1 & Hit1 & Hc1 & _); [done|done|lia|].
  assert (Haf : fq_active f1 = fq_current f) by lia. rewrite Haf in *. rewrite decide_True in Hc1 by done.
  apply lookup_lt_Some in Hp as Hpl.
  destruct (ar_erase_spec (fq_pipes f1) q (fq_current f)) as (a & He & Hwf2 & Hit2);
    [apply Hinv1|rewrite Hit1, lswap_lookup by lia; by rewrite decide_True|].
  assert (H0 : ar_items a !! 0%nat = Some x).
  { rewrite Hit2, lookup_take_lt by (rewrite Hit1, length_lswap; lia).
    rewrite lswap_lookup by (rewrite Hit1, length_lswap; lia). rewrite decide_False, decide_False by (rewrite ?Hit1, ?length_lswap; lia).
    rewrite Hit1, lswap_lookup by lia. rewrite decide_False, decide_False by lia. done. }
  exists (Fq a (fq_current f) 0 true). split.
  { unfold fq_pipe_terminated. rewrite (fq_index_spec f i q) by done. rewrite decide_True, Hd, bind_Done, He, bind_Done by lia.
    by rewrite Haf, Hc1, Hm1, Hm. }
  split; [done|].
  pose proof (ip_read_result w x) as Hres.
  assert (Hstep : ∀ fuel, recv_loop (S fuel) w (Fq a (fq_current f) 0 true)
    = match (ip_read w x).1 with
      | Some m => let more := has_flag m msg_more in
          Done (Some (x, m), (ip_read w x).2, Fq a (fq_current f) (if more then 0%nat else (1 mod fq_current f)%nat) more)
      | None => Abort
      end).
  { intros fuel. cbn [recv_loop fq_active fq_pipes fq_current fq_more]. rewrite decide_True by lia.
    rewrite (geti_Some _ _ x H0), bind_Done. by destruct (ip_read w x) as [[m|] w1]. }
  unfold fq_recvpipe. change (msg_close h msg_init) with (Done (RcOk, h, m_set_type 0 (m_set_metadata None msg_init))).
  rewrite bind_Done. cbv iota beta. rewrite slk_assert_bind, Hstep, Hres by done. split.
  - by intros ->.
  - intros m l ->. by eexists _, _.
Qed.

Definition witness_fq3 : fq_t := Fq (Array [4; 5; 6]%nat {[4%nat := 0; 5%nat := 1; 6%nat := 2]}) 3 2 true.

Lemma fq_terminated_mid_message_witness :
  ∃ f', fq_pipe_terminated witness_fq3 5 = Done f' ∧
    fq_recvpipe (empty_heap (λ _, true)) (TestIn {[6%nat := 1%nat]}) f' msg_init = Abort.
Proof.
  destruct (fq_terminated_mid_message (empty_heap (λ _, true)) (TestIn {[6%nat := 1%nat]}) witness_fq3 6 5 4 1)
    as (f' & Hr & _ & Hab & _); try done.
  - split; simpl; [|unfold fq_size; simpl; lia|lia].
    split; simpl; [apply (bool_decide_unpack _); by vm_compute|done|].
    intros [|[|[|i]]] p Hp; simplify_eq/=; by vm_compute.
  - simpl. lia.
  - exists f'. split; [exact Hr|]. by apply Hab.
Defined.
