(* ===== verification/Mtrie.v ===== *)
(** The multi-trie of src/pipe/mtrie_impl.hpp, in which an XPUB socket keeps the
    pipes subscribed to every prefix.

    A node is its set of pipes ([None] when the pointer is null) and its child
    table.  The explicit stack of the two [rm] functions is the stack of a
    recursion: a frame is resumed when the frames pushed above it are gone, so the
    model recurses.  The byte buffer of [rm (pipe)] is the path to the node.  The
    abstract state is the map from prefixes to sets of pipes ([mtrie_lookup]). *)
From S2P Require Import Prelude NodeTable.

#[warnings="-register-all"]
Inductive mtrie_t : Type := MTrie (pipes : option (gset nat)) (nt : ntab mtrie_t).

Definition mt_pipes (t : mtrie_t) : option (gset nat) := let '(MTrie p _) := t in p.
Definition mt_nt (t : mtrie_t) : ntab mtrie_t := let '(MTrie _ nt) := t in nt.

Definition mtrie_new : mtrie_t := MTrie None nt_new.

Definition mtrie_is_redundant (t : mtrie_t) : bool :=
  bool_decide (mt_pipes t = None) && bool_decide (nt_live (mt_nt t) = 0).

Inductive rm_result := not_found | last_value_removed | values_remain.

#[export] Instance rm_result_eq_dec : EqDecision rm_result.
Proof. solve_decision. Defined.

(** [add]: whether the prefix is new. *)
Fixpoint mtrie_add (prefix : list Z) (pipe : nat) (t : mtrie_t) : outcome (bool * mtrie_t) :=
  let '(MTrie pipes nt) := t in
  match prefix with
  | [] => Done (bool_decide (pipes = None), MTrie (Some ({[pipe]} ∪ default ∅ pipes)) nt)
  | c :: prefix =>
      nt ← nt_extend c nt;
      slot ← nt_slot c nt;
      let '(node, live) := match slot with
                           | Some n => (n, nt_live nt)
                           | None => (mtrie_new, u16 (nt_live nt + 1))
                           end in
      '(ret, node) ← mtrie_add prefix pipe node;
      nt ← nt_store c (Some node) live nt;
      Done (ret, MTrie pipes nt)
  end.

(** The child of [c] was deleted by [rm (prefix)]. *)
Definition mtrie_prune (c : Z) (nt : ntab mtrie_t) : outcome (ntab mtrie_t) :=
  let '(NTab min count live next) := nt in
  assert! bool_decide (0 < count);;
  if decide (count = 1) then
    let live := u16 (live - 1) in
    assert! bool_decide (live = 0);;
    Done (NTab min 0 live (NextNode None))
  else
    table ← get_table next;
    table ← seti table (c - min) None;
    assert! bool_decide (1 < live);;
    let live := u16 (live - 1) in
    if decide (live = 1) then
      (* switch to the single-node representation *)
      found ← scan_live table (λ i, i) 0 (Z.to_nat count);
      let i := default count found in
      assert! bool_decide (i < count);;
      oldp ← geti table i;
      Done (NTab (u8 (min + i)) 1 live (NextNode oldp))
    else if decide (c = min) then
      (* compact the table from the left *)
      found ← scan_live table (λ i, i) 1 (Z.to_nat (count - 1));
      let i := default count found in
      assert! bool_decide (i < count);;
      let new_count := u16 (count - i) in
      Done (NTab (u8 (min + i)) new_count live
        (NextTable (take (Z.to_nat new_count) (drop (Z.to_nat i) table))))
    else if decide (c = min + count - 1) then
      (* compact the table from the right *)
      found ← scan_live table (λ i, count - 1 - i) 1 (Z.to_nat (count - 1));
      let i := default count found in
      assert! bool_decide (i < count);;
      let new_count := u16 (count - i) in
      Done (NTab min new_count live (NextTable (take (Z.to_nat new_count) table)))
    else Done (NTab min count live (NextTable table)).

(** [rm (prefix)] on the nodes. *)
Fixpoint mtrie_rm_node (prefix : list Z) (pipe : nat) (t : mtrie_t) : outcome (rm_result * mtrie_t) :=
  let '(MTrie pipes nt) := t in
  match prefix with
  | [] =>
      match pipes with
      | None => Done (not_found, t)
      | Some s =>
          let erased := bool_decide (pipe ∈ s) in
          let s := s ∖ {[pipe]} in
          if decide (s = ∅) then
            assert! erased;;
            Done (last_value_removed, MTrie None nt)
          else Done (if erased then values_remain else not_found, MTrie (Some s) nt)
      end
  | c :: prefix =>
      if bool_decide (nt_count nt = 0) || nt_out_of_range c nt then Done (not_found, t)
      else
        next_node ← nt_slot c nt;
        match next_node with
        | None => Done (not_found, t)
        | Some next_node =>
            '(ret, next_node) ← mtrie_rm_node prefix pipe next_node;
            nt ← (if mtrie_is_redundant next_node then mtrie_prune c nt
                  else nt_store c (Some next_node) (nt_live nt) nt);
            Done (ret, MTrie pipes nt)
        end
  end.

(** [match]: the pipes the callback is called with, in order. *)
Fixpoint mtrie_match (t : mtrie_t) (data : list Z) : outcome (list nat) :=
  let '(MTrie pipes nt) := t in
  let calls := match pipes with Some s => elements s | None => [] end in
  match data with
  | [] => Done calls
  | c :: data =>
      if decide (nt_count nt = 0) then Done calls
      else if decide (nt_count nt = 1) then
        if decide (c ≠ nt_min nt) then Done calls
        else
          current ← get_node (nt_next nt);
          match current with
          | Some n => calls' ← mtrie_match n data; Done (calls ++ calls')
          | None => Done calls
          end
      else if nt_out_of_range c nt then Done calls
      else
        table ← get_table (nt_next nt);
        current ← geti table (c - nt_min nt);
        match current with
        | Some n => calls' ← mtrie_match n data; Done (calls ++ calls')
        | None => Done calls
        end
  end.

(** ** [rm (pipe)]: remove a pipe everywhere *)

(** A visit of the node before one of its children: drop the pipe, and call back
    on the path. *)
Definition pre_visit (pipe : nat) (call_on_uniq : bool) (path : list Z) (pipes : option (gset nat))
    : option (gset nat) * list (list Z) :=
  match pipes with
  | None => (None, [])
  | Some s =>
      if decide (pipe ∈ s) then
        let s := s ∖ {[pipe]} in
        (if decide (s = ∅) then None else Some s,
         if negb call_on_uniq || bool_decide (s = ∅) then [path] else [])
      else (Some s, [])
  end.

(** The last visit of a node with several children: free or compact the table. *)
Definition rm_compact (min count live new_min new_max : Z) (table : list (option mtrie_t))
    : outcome (ntab mtrie_t) :=
  assert! bool_decide (1 < count);;
  if decide (live = 0) then Done (NTab min 0 live (NextTable []))
  else if decide (live = 1) then
    assert! bool_decide (new_min = new_max);;
    assert! bool_decide (min ≤ new_min);;
    assert! bool_decide (new_min < min + count);;
    node ← geti table (new_min - min);
    assert! bool_decide (is_Some node);;
    Done (NTab new_min 1 live (NextNode node))
  else if decide (min < new_min ∨ new_max < min + count - 1) then
    assert! bool_decide (1 < new_max - new_min + 1);;
    assert! bool_decide (min ≤ new_min);;
    assert! bool_decide (new_max ≤ min + count - 1);;
    assert! bool_decide (new_max - new_min + 1 < count);;
    let count := u16 (new_max - new_min + 1) in
    Done (NTab new_min count live
      (NextTable (take (Z.to_nat count) (drop (Z.to_nat (new_min - min)) table))))
  else Done (NTab min count live (NextTable table)).

(** The visits of the children [i .. count - 1] of a node with several of them;
    [helper] is the visit of a child. *)
Section rm_table.
Context (helper : mtrie_t → list Z → outcome (mtrie_t * list (list Z))).
Context (pipe : nat) (call_on_uniq : bool) (path : list Z) (min count : Z).
Fixpoint rm_table (i : Z) (tab : list (option mtrie_t)) (pipes : option (gset nat)) (live new_min new_max : Z)
    {struct tab} : outcome (option (gset nat) * Z * Z * Z * list (option mtrie_t) * list (list Z)) :=
  match tab with
  | [] => if decide (i = count) then Done (pipes, live, new_min, new_max, [], []) else Undef
  | slot :: tab =>
      if decide (i = count) then Done (pipes, live, new_min, new_max, slot :: tab, [])
      else
        let '(pipes, calls) := pre_visit pipe call_on_uniq path pipes in
        '(slot, live, new_min, new_max, calls') ←
          match slot with
          | None => Done (None, live, new_min, new_max, [])
          | Some n =>
              '(n, calls') ← helper n (path ++ [u8 (min + i)]);
              if mtrie_is_redundant n then
                assert! bool_decide (0 < live);;
                Done (None, u16 (live - 1), new_min, new_max, calls')
              else
                Done (Some n, live, (if decide (i + min < new_min) then u8 (i + min) else new_min),
                      (if decide (new_max < i + min) then u8 (i + min) else new_max), calls')
          end;
        '(pipes, live, new_min, new_max, tab, calls'') ← rm_table (i + 1) tab pipes live new_min new_max;
        Done (pipes, live, new_min, new_max, slot :: tab, calls ++ calls' ++ calls'')
  end.
End rm_table.

Fixpoint mtrie_rm_pipe (pipe : nat) (call_on_uniq : bool) (t : mtrie_t) (path : list Z)
    : outcome (mtrie_t * list (list Z)) :=
  let '(MTrie pipes (NTab min count live next)) := t in
  if decide (count = 0) then
    let '(pipes, calls) := pre_visit pipe call_on_uniq path pipes in
    Done (MTrie pipes (NTab min count live next), calls)
  else if decide (count = 1) then
    let '(pipes, calls) := pre_visit pipe call_on_uniq path pipes in
    match next with
    | NextNode (Some n) =>
        '(n, calls') ← mtrie_rm_pipe pipe call_on_uniq n (path ++ [min]);
        if mtrie_is_redundant n then
          let live := u16 (live - 1) in
          assert! bool_decide (live = 0);;
          Done (MTrie pipes (NTab min 0 live (NextNode None)), calls ++ calls')
        else Done (MTrie pipes (NTab min count live (NextNode (Some n))), calls ++ calls')
    | _ => Undef
    end
  else
    match next with
    | NextTable table =>
        '(pipes, live, new_min, new_max, table, calls) ←
          rm_table (mtrie_rm_pipe pipe call_on_uniq) pipe call_on_uniq path min count 0 table pipes live
            (u8 (min + count - 1)) min;
        nt ← rm_compact min count live new_min new_max table;
        Done (MTrie pipes nt, calls)
    | _ => Undef
    end.

(** ** The root, with the number of prefixes *)

Record mtrie_root := MRoot {
  mr_num_prefixes : Z;   (* atomic_counter_t, uint32_t *)
  mr_trie : mtrie_t;
}.

Definition mr_new : mtrie_root := MRoot 0 mtrie_new.

Definition mr_add (prefix : list Z) (pipe : nat) (r : mtrie_root) : outcome (bool * mtrie_root) :=
  '(result, t) ← mtrie_add prefix pipe (mr_trie r);
  Done (result, MRoot (if result : bool then u32 (mr_num_prefixes r + 1) else mr_num_prefixes r) t).

Definition mr_rm (prefix : list Z) (pipe : nat) (r : mtrie_root) : outcome (rm_result * mtrie_root) :=
  '(ret, t) ← mtrie_rm_node prefix pipe (mr_trie r);
  if decide (ret = last_value_removed) then
    assert! bool_decide (0 < mr_num_prefixes r);;
    Done (ret, MRoot (u32 (mr_num_prefixes r - 1)) t)
  else Done (ret, MRoot (mr_num_prefixes r) t).

(** [rm (pipe)]: the paths the callback is called with, in order. *)
Definition mr_rm_pipe (pipe : nat) (call_on_uniq : bool) (r : mtrie_root)
    : outcome (list (list Z) * mtrie_root) :=
  '(t, calls) ← mtrie_rm_pipe pipe call_on_uniq (mr_trie r) [];
  Done (calls, MRoot (mr_num_prefixes r) t).

(** ** The abstract state *)

(** The pipes subscribed to a prefix. *)
Fixpoint mtrie_lookup (p : list Z) (t : mtrie_t) : gset nat :=
  match p with
  | [] => default ∅ (mt_pipes t)
  | c :: p => match nt_child (mt_nt t) c with Some n => mtrie_lookup p n | None => ∅ end
  end.

(** The invariant: no empty set of pipes, trimmed tables, no redundant child. *)
Inductive mtrie_wf : mtrie_t → Prop :=
| mtrie_wf_intro pipes nt :
    pipes ≠ Some ∅ → nt_shape nt →
    (∀ c n, nt_child nt c = Some n → mtrie_is_redundant n = false) →
    (∀ c n, nt_child nt c = Some n → mtrie_wf n) →
    mtrie_wf (MTrie pipes nt).

Lemma mtrie_prune_spec c nt n :
  nt_shape_at true 0 nt → nt_child nt c = Some n →
  ∃ nt', mtrie_prune c nt = Done nt' ∧ nt_shape nt'
    ∧ ∀ d, nt_child nt' d = if decide (d = c) then None else nt_child nt d.
Proof.
  destruct nt as [min count live [|no|tab]]; intros Hs Hch; [by destruct Hs as (_&_&_&[])| |].
  - destruct Hs as (Hmin & _ & Hmax & -> & -> & Hn). rewrite nt_child_node in Hch.
    case_decide; [subst|done]. simpl. eexists. split; [done|]. split; [by left|].
    intros d. rewrite nt_child_empty by done. rewrite nt_child_node. by repeat case_decide.
  - pose proof (nt_clear_spec min count live tab c n Hs Hch)
      as (Hlive & Hrng & Hl & Hcs & Hfst & Hlst & Hmid & Hchild).
    pose proof Hs as (Hmin & _ & Hmax & Hcnt & Hlen & _). unfold is_byte in *.
    unfold mtrie_prune. assert_ok. rewrite decide_False by lia. cbn [get_table]. rewrite bind_Done.
    rewrite seti_in_range, bind_Done by lia. assert_ok. rewrite u16_small by lia.
    destruct (decide (live - 1 = 1)) as [H1|H1]; [|destruct (decide (c = min)) as [->|Hcm];
      [|destruct (decide (c = min + count - 1)) as [Hce|Hce]]].
    + set (tab' := <[Z.to_nat (c - min):=None]> tab) in *.
      destruct (scan_live_spec tab' (λ i, i) 0 (Z.to_nat count)) as (r & -> & Hr); [lia|]. rewrite bind_Done.
      destruct r as [k|].
      2:{ exfalso. assert (count_some tab' = 0); [|lia]. apply count_some_none. intros i.
          destruct (decide (i < length tab')%nat); [|by rewrite lookup_ge_None_2 by lia].
          replace i with (Z.to_nat (Z.of_nat i)) by lia. apply Hr. lia. }
      destruct Hr as (Hk & [x Hx] & _). simpl. assert_ok.
      rewrite (geti_live _ _ (Z.to_nat k) x), bind_Done by (done || lia). rewrite u8_small by lia.
      destruct (nt_single_spec min count tab' (Z.to_nat k) x) as [Hsh Hch']; [done|done|lia|lia|done|].
      rewrite Z2Nat.id in Hsh, Hch' by lia. rewrite H1. eexists. split; [done|]. split; [done|].
      intros d. by rewrite Hch', Hchild.
    + destruct (nt_trim_left min count live tab n) as (k & -> & Hk & Hsh & Hch'); [done|done|done|].
      rewrite bind_Done. simpl. assert_ok. rewrite u16_small, u8_small by lia. eexists. split; [done|]. by split.
    + destruct (nt_trim_right min count live tab n c) as (k & -> & Hk & Hsh & Hch'); [done..|].
      rewrite bind_Done. simpl. assert_ok. rewrite u16_small by lia. eexists. split; [done|]. by split.
    + eexists. split; [done|]. split; [|apply Hchild].
      right. simpl. split_and!; try (unfold is_byte; lia); eauto.
Qed.

Lemma mtrie_new_wf : mtrie_wf mtrie_new.
Proof.
  assert (H : ∀ c, nt_child (T := mtrie_t) nt_new c = None) by (intros; by apply nt_child_empty).
  constructor; [done|by left| |]; intros c n; by rewrite H.
Qed.

Lemma mtrie_lookup_new p : mtrie_lookup p mtrie_new = ∅.
Proof. destruct p as [|c p]; [done|]. simpl. by rewrite nt_child_empty. Qed.

Lemma mtrie_lookup_cons c p pipes nt :
  mtrie_lookup (c :: p) (MTrie pipes nt) = mtrie_lookup p (default mtrie_new (nt_child nt c)).
Proof. simpl. destruct (nt_child nt c); [done|]. by rewrite mtrie_lookup_new. Qed.

Lemma mtrie_child_wf pipes nt c :
  mtrie_wf (MTrie pipes nt) → mtrie_wf (default mtrie_new (nt_child nt c)).
Proof.
  inversion 1 as [? ? ? ? ? Hwf]; subst. destruct (nt_child nt c) as [n|] eqn:E; [eauto|].
  apply mtrie_new_wf.
Qed.

(** Replacing the pipes, and the table by one in which only the child of [c]
    changed. *)
Lemma mtrie_wf_update pipes pipes' nt nt' c o :
  mtrie_wf (MTrie pipes nt) → pipes' ≠ Some ∅ → nt_shape nt' →
  (∀ d, nt_child nt' d = if decide (d = c) then o else nt_child nt d) →
  (∀ n, o = Some n → mtrie_wf n ∧ mtrie_is_redundant n = false) →
  mtrie_wf (MTrie pipes' nt').
Proof.
  inversion 1 as [? ? Hr Hs Hred Hwf]; subst. intros Hp Hs' Hch Ho.
  constructor; [done|done| |]; intros d n; rewrite Hch; case_decide; intros E;
    first [by apply Ho|by eapply Hred|by eapply Hwf].
Qed.

Lemma mtrie_lookup_update pipes pipes' nt nt' c o q :
  (∀ d, nt_child nt' d = if decide (d = c) then o else nt_child nt d) →
  mtrie_lookup q (MTrie pipes' nt')
  = match q with
    | d :: q' => if decide (d = c) then mtrie_lookup q' (default mtrie_new o)
                 else mtrie_lookup q (MTrie pipes nt)
    | [] => default ∅ pipes'
    end.
Proof.
  intros Hch. destruct q as [|d q]; [done|]. rewrite mtrie_lookup_cons, Hch.
  case_decide; [done|]. by rewrite mtrie_lookup_cons.
Qed.

Lemma mtrie_not_redundant_live pipes nt :
  0 < nt_live nt → mtrie_is_redundant (MTrie pipes nt) = false.
Proof.
  intros. unfold mtrie_is_redundant. simpl. rewrite (bool_decide_false (nt_live nt = 0)) by lia.
  apply andb_false_r.
Qed.

Lemma wf_pipes_none (pipes : option (gset nat)) : pipes ≠ Some ∅ → pipes = None ↔ default ∅ pipes = ∅.
Proof. destruct pipes; simpl; [|done]. intros H. split; [done|]. intros ->. done. Qed.

Lemma mtrie_add_spec p v t :
  bytes_ok p → mtrie_wf t →
  ∃ t', mtrie_add p v t = Done (bool_decide (mtrie_lookup p t = ∅), t')
    ∧ mtrie_wf t' ∧ mtrie_is_redundant t' = false
    ∧ ∀ q, mtrie_lookup q t' = if decide (q = p) then {[v]} ∪ mtrie_lookup p t else mtrie_lookup q t.
Proof.
  revert t. induction p as [|c p IH]; intros [pipes nt] Hp Hwf.
  - inversion Hwf as [? ? Hr Hs Hred Hch]; subst. simpl in *.
    eexists. split; [do 2 f_equal; apply bool_decide_ext, wf_pipes_none, Hr|].
    split; [constructor; [intros [= ?]; set_solver|done..]|]. split; [done|].
    intros [|d q]; [done|]. by rewrite decide_False.
  - inversion Hp as [|? ? Hc Hp']; subst. inversion Hwf as [? ? Hr Hs _ _]; subst.
    destruct (nt_extend_spec c nt Hc Hs) as (nt1 & He & Hs1 & Hrng & Hl1 & Hch1).
    rewrite mtrie_lookup_cons, <- Hch1 in *.
    assert (Hwfn : mtrie_wf (default mtrie_new (nt_child nt1 c)))
      by (rewrite Hch1; by eapply mtrie_child_wf).
    destruct (IH _ Hp' Hwfn) as (n' & Hadd & Hwf' & Hred' & Hq').
    pose proof (nt_live_bounds nt Hs) as Hlb.
    destruct (nt_store_spec c n' nt1 (nt_live nt1 - live1 (nt_child nt1 c) + 1) Hs1 Hrng eq_refl)
      as (nt' & Hst & Hs' & Hlive' & _ & Hch').
    simpl. rewrite He, bind_Done, (nt_slot_spec _ _ _ _ Hs1 Hrng), bind_Done.
    replace (match nt_child nt1 c with Some n => (n, nt_live nt1) | None => (mtrie_new, u16 (nt_live nt1 + 1)) end)
      with (default mtrie_new (nt_child nt1 c), nt_live nt1 - live1 (nt_child nt1 c) + 1)
      by (destruct (nt_child nt1 c); simpl; [f_equal; lia|rewrite u16_small by lia; f_equal; lia]).
    rewrite Hadd, bind_Done, Hst, bind_Done.
    assert (Hch2 : ∀ d, nt_child nt' d = if decide (d = c) then Some n' else nt_child nt d)
      by (intros d; by rewrite Hch', Hch1).
    eexists. split; [done|]. split; [|split].
    + eapply mtrie_wf_update; [done|done|done|done|]. by intros ? [= <-].
    + apply mtrie_not_redundant_live. eapply nt_live_child; [done|]. by rewrite (Hch2 c), decide_True.
    + intros q. rewrite (mtrie_lookup_update pipes _ _ _ _ _ _ Hch2).
      destruct q as [|d q]; [by rewrite decide_False|]. destruct (decide (d = c)) as [->|Hd].
      * simpl default. rewrite Hq', mtrie_lookup_cons, Hch1. repeat case_decide; congruence.
      * rewrite decide_False by congruence. done.
Qed.

Lemma mtrie_redundant_lookup p t : mtrie_wf t → mtrie_is_redundant t = true → mtrie_lookup p t = ∅.
Proof.
  intros Hwf Hred. unfold mtrie_is_redundant in Hred.
  apply andb_true_iff in Hred as [H1%bool_decide_eq_true H2%bool_decide_eq_true].
  destruct t as [pipes nt]. simpl in *. destruct p as [|c p]; [by subst|]. simpl.
  destruct (nt_child nt c) as [n|] eqn:E; [|done].
  inversion Hwf; subst. by pose proof (nt_live_child nt c n ltac:(done) E); lia.
Qed.

(** What [rm (prefix)] answers about a set of pipes. *)
Definition rm_answer (v : nat) (s : gset nat) : rm_result :=
  if decide (v ∈ s) then if decide (s = {[v]}) then last_value_removed else values_remain else not_found.

Lemma minus_empty (s : gset nat) v : s ≠ ∅ → s ∖ {[v]} = ∅ ↔ s = {[v]}.
Proof.
  intros Hs. split; [|set_solver]. intros H. apply set_choose_L in Hs as [x Hx]. apply set_eq. intros y.
  assert (∀ z, z ∈ s → z = v) by (intros z ?; apply dec_stable; intros ?; assert (z ∈ s ∖ {[v]}); set_solver).
  set_solver.
Qed.

Lemma mtrie_rm_spec p v t :
  mtrie_wf t →
  ∃ t', mtrie_rm_node p v t = Done (rm_answer v (mtrie_lookup p t), t') ∧ mtrie_wf t'
    ∧ ∀ q, mtrie_lookup q t' = if decide (q = p) then mtrie_lookup p t ∖ {[v]} else mtrie_lookup q t.
Proof.
  revert t. induction p as [|c p IH]; intros [pipes nt] Hwf.
  - inversion Hwf as [? ? Hr Hs Hred Hch]; subst. simpl. unfold rm_answer.
    destruct pipes as [s|]; simpl.
    2:{ rewrite decide_False by set_solver. eexists. split; [done|]. split; [done|].
        intros [|d q]; [simpl; set_solver|]. by rewrite decide_False. }
    assert (Hs0 : s ≠ ∅) by congruence. destruct (decide (s ∖ {[v]} = ∅)) as [He|He].
    + apply minus_empty in He as Hsv; [|done]. subst s. rewrite bool_decide_true, decide_True, decide_True by set_solver.
      eexists. split; [done|]. split; [by constructor|].
      intros [|d q]; [simpl; set_solver|]. by rewrite decide_False.
    + eexists. split; [f_equal; f_equal; repeat case_bool_decide; repeat case_decide; try done; set_solver|].
      split; [constructor; [congruence|done..]|].
      intros [|d q]; [done|]. by rewrite decide_False.
  - rewrite mtrie_lookup_cons.
    assert (Hsame : nt_child nt c = None → rm_answer v (mtrie_lookup p (default mtrie_new (nt_child nt c))) = not_found
      ∧ ∀ q, mtrie_lookup q (MTrie pipes nt)
        = if decide (q = c :: p) then mtrie_lookup p (default mtrie_new (nt_child nt c)) ∖ {[v]}
          else mtrie_lookup q (MTrie pipes nt)).
    { intros Hn. rewrite Hn. simpl default. rewrite mtrie_lookup_new. split; [done|].
      intros q. case_decide; [|done]. subst q. rewrite mtrie_lookup_cons, Hn. simpl. rewrite mtrie_lookup_new. set_solver. }
    simpl. destruct (bool_decide (nt_count nt = 0) || nt_out_of_range c nt) eqn:Hr.
    { assert (Hn : nt_child nt c = None).
      { apply orb_true_iff in Hr as [H0%bool_decide_eq_true|Hr];
          [by apply nt_child_empty|by apply nt_out_of_range_child]. }
      destruct (Hsame Hn) as [-> ?]. eauto. }
    apply orb_false_iff in Hr as [_ Hr]. inversion Hwf as [? ? Hrc Hs _ _]; subst.
    pose proof (nt_shape_in_range nt c Hs Hr) as Hs1. apply nt_out_of_range_spec in Hr as Hrng.
    rewrite (nt_slot_spec _ _ _ _ Hs1 Hrng), bind_Done.
    destruct (nt_child nt c) as [n|] eqn:En; [|destruct (Hsame eq_refl) as [-> ?]; eauto].
    assert (Hwfn : mtrie_wf n) by (by pose proof (mtrie_child_wf pipes nt c Hwf); rewrite En in *).
    destruct (IH n Hwfn) as (n' & Hrm & Hwfn' & Hq'). rewrite Hrm, bind_Done.
    assert (Hnt : ∃ nt' o, (if mtrie_is_redundant n' then mtrie_prune c nt
                            else nt_store c (Some n') (nt_live nt) nt) = Done nt'
      ∧ nt_shape nt' ∧ (∀ d, nt_child nt' d = if decide (d = c) then o else nt_child nt d)
      ∧ (∀ m, o = Some m → mtrie_wf m ∧ mtrie_is_redundant m = false)
      ∧ ∀ q, mtrie_lookup q (default mtrie_new o) = mtrie_lookup q n').
    { destruct (mtrie_is_redundant n') eqn:Hred.
      - destruct (mtrie_prune_spec c nt n Hs1 En) as (nt' & ? & ? & ?).
        exists nt', None. split_and!; try done. intros q. simpl.
        by rewrite mtrie_lookup_new, mtrie_redundant_lookup.
      - destruct (nt_store_spec c n' nt (nt_live nt)) as (nt' & ? & ? & _ & _ & ?);
          [auto with serverlink|done|rewrite En; simpl; lia|].
        exists nt', (Some n'). split_and!; try done. by intros ? [= <-]. }
    destruct Hnt as (nt' & o & -> & Hs' & Hch & Ho & Hlk). rewrite bind_Done.
    eexists. split; [done|]. split; [by eapply mtrie_wf_update|].
    intros q. rewrite (mtrie_lookup_update pipes _ _ _ _ _ _ Hch).
    destruct q as [|d q]; [by rewrite decide_False|]. destruct (decide (d = c)) as [->|Hd].
    + rewrite Hlk, Hq'. rewrite mtrie_lookup_cons, En. simpl. repeat case_decide; congruence.
    + rewrite decide_False by congruence. done.
Qed.

(** The pipes on the path of the data. *)
Fixpoint on_path (t : mtrie_t) (data : list Z) : list nat :=
  elements (mtrie_lookup [] t) ++
  match data with
  | [] => []
  | c :: data => on_path (default mtrie_new (nt_child (mt_nt t) c)) data
  end.

Lemma on_path_new data : on_path mtrie_new data = [].
Proof. induction data as [|c data IH]; [done|]. simpl. rewrite nt_child_empty by done. simpl. by rewrite IH. Qed.

Lemma mtrie_match_spec t data : mtrie_wf t → mtrie_match t data = Done (on_path t data).
Proof.
  revert t. induction data as [|c data IH]; intros [pipes nt] Hwf.
  { simpl. rewrite app_nil_r. by destruct pipes. }
  simpl. assert (Hcalls : match pipes with Some s => elements s | None => [] end = elements (default ∅ pipes)) by by destruct pipes.
  rewrite Hcalls. inversion Hwf as [? ? Hr Hs _ Hch]; subst.
  assert (Hnone : nt_child nt c = None → on_path (default mtrie_new (nt_child nt c)) data = [])
    by (intros ->; apply on_path_new).
  destruct (decide (nt_count nt = 0)) as [H0|H0]; [by rewrite Hnone, app_nil_r by by apply nt_child_empty|].
  assert (Hs1 : nt_shape_at true 0 nt) by (destruct Hs as [[? _]|?]; done).
  assert (Hin : nt_out_of_range c nt = false →
    nt_slot c nt ≫= (λ cur, match cur with
      | Some n => calls' ← mtrie_match n data; Done (elements (default ∅ pipes) ++ calls')
      | None => Done (elements (default ∅ pipes))
      end) = Done (elements (default ∅ pipes) ++ on_path (default mtrie_new (nt_child nt c)) data)).
  { intros Hrng%nt_out_of_range_spec. rewrite (nt_slot_spec _ _ _ _ Hs1 Hrng), bind_Done.
    destruct (nt_child nt c) as [n|] eqn:E; [by rewrite (IH n) by eauto|]. simpl. by rewrite on_path_new, app_nil_r. }
  destruct (decide (nt_count nt = 1)) as [H1|H1].
  - destruct (decide (c ≠ nt_min nt)) as [Hc|Hc].
    + rewrite Hnone, app_nil_r; [done|]. apply nt_out_of_range_child. unfold nt_out_of_range. rewrite H1.
      destruct (Z.ltb_spec c (nt_min nt)), (Z.leb_spec (nt_min nt + 1) c); done || lia.
    + rewrite <- Hin by (apply nt_out_of_range_spec; lia). unfold nt_slot. by rewrite decide_True.
  - destruct (nt_out_of_range c nt) eqn:Hrng; [by rewrite Hnone, app_nil_r by by apply nt_out_of_range_child|].
    rewrite <- Hin by done. unfold nt_slot. rewrite decide_False by done. by destruct (get_table (nt_next nt)).
Qed.

(** ** Removing a pipe everywhere *)

(** Whether the callback of [rm (pipe)] is called for a prefix. *)
Definition called (v : nat) (uniq : bool) (s : gset nat) : Prop := v ∈ s ∧ (uniq = true → s = {[v]}).

#[export] Instance called_dec v uniq s : Decision (called v uniq s).
Proof. unfold called. apply _. Defined.

Lemma pre_visit_spec v uniq path pipes :
  pipes ≠ Some ∅ →
  ∃ pipes', pre_visit v uniq path pipes = (pipes', if decide (called v uniq (default ∅ pipes)) then [path] else [])
    ∧ pipes' ≠ Some ∅ ∧ default ∅ pipes' = default ∅ pipes ∖ {[v]}
    ∧ pre_visit v uniq path pipes' = (pipes', []).
Proof.
  intros Hne. unfold pre_visit. destruct pipes as [s|]; simpl.
  2:{ exists None. rewrite decide_False by (intros [? _]; set_solver). split_and!; [done|done|set_solver|done]. }
  assert (Hs : s ≠ ∅) by congruence. destruct (decide (v ∈ s)) as [Hv|Hv].
  - eexists. split; [reflexivity || f_equal|]. 
    + f_equal. unfold called. pose proof (minus_empty s v Hs) as Hm.
      destruct uniq; simpl; repeat case_bool_decide; repeat case_decide; naive_solver.
    + destruct (decide (s ∖ {[v]} = ∅)) as [He|He]; [split_and!; [done|simpl; set_solver|done]|].
      split_and!; [congruence|done|]. by rewrite decide_False by set_solver.
  - exists (Some s). rewrite decide_False by (intros [? _]; done). split_and!; [done|done|simpl; set_solver|].
    by rewrite decide_False.
Qed.

(** A child before and after. *)
Definition rm_child (v : nat) (o o' : option mtrie_t) : Prop :=
  match o with
  | None => o' = None
  | Some n => ∃ n', mtrie_wf n' ∧ (∀ q, mtrie_lookup q n' = mtrie_lookup q n ∖ {[v]})
                    ∧ o' = if mtrie_is_redundant n' then None else Some n'
  end.

Lemma rm_child_lookup v o o' q :
  rm_child v o o' → mtrie_lookup q (default mtrie_new o') = mtrie_lookup q (default mtrie_new o) ∖ {[v]}.
Proof.
  destruct o as [n|]; simpl.
  - intros (n' & Hwf & Hq & ->). destruct (mtrie_is_redundant n') eqn:Hr; simpl; [|done].
    rewrite <- Hq, mtrie_lookup_new. symmetry. by apply mtrie_redundant_lookup.
  - intros ->. simpl. rewrite mtrie_lookup_new. set_solver.
Qed.

Lemma rm_child_good v o o' n :
  rm_child v o o' → o' = Some n → mtrie_wf n ∧ mtrie_is_redundant n = false.
Proof.
  destruct o as [m|]; simpl; [|congruence]. intros (n' & Hwf & _ & ->).
  destruct (mtrie_is_redundant n') eqn:Hr; [done|]. by intros [= <-].
Qed.

(** What a visit of the subtree [t] does: [calls] lists every called prefix once. *)
Definition rm_calls (v : nat) (uniq : bool) (f : list Z → gset nat) (qs : list (list Z)) : Prop :=
  NoDup qs ∧ ∀ q, q ∈ qs ↔ called v uniq (f q).

Definition rm_visits (v : nat) (uniq : bool) (t : mtrie_t) : Prop :=
  ∀ path, ∃ t' qs, mtrie_rm_pipe v uniq t path = Done (t', (path ++.) <$> qs)
    ∧ mtrie_wf t' ∧ (∀ q, mtrie_lookup q t' = mtrie_lookup q t ∖ {[v]})
    ∧ rm_calls v uniq (λ q, mtrie_lookup q t) qs.

(** The prefixes of a table whose first slot is that of the character [c]. *)
Definition tab_lookup (c : Z) (tab : list (option mtrie_t)) (q : list Z) : gset nat :=
  match q with
  | [] => ∅
  | d :: q => if decide (c ≤ d) then mtrie_lookup q (default mtrie_new (mjoin (tab !! Z.to_nat (d - c)))) else ∅
  end.

Lemma called_empty v uniq : ¬ called v uniq ∅.
Proof. intros [? _]. set_solver. Qed.

Lemma tab_lookup_cons c o tab q :
  tab_lookup c (o :: tab) q
  = match q with
    | d :: q' => if decide (d = c) then mtrie_lookup q' (default mtrie_new o) else tab_lookup (c + 1) tab q
    | [] => ∅
    end.
Proof.
  destruct q as [|d q]; [done|]. unfold tab_lookup. destruct (decide (d = c)) as [->|Hd].
  - rewrite decide_True by lia. by rewrite Z.sub_diag.
  - repeat case_decide; try done; try lia. replace (Z.to_nat (d - c)) with (S (Z.to_nat (d - (c + 1)))) by lia. done.
Qed.

Lemma rm_calls_cons v uniq c o tab qs0 qs :
  rm_calls v uniq (λ q, mtrie_lookup q (default mtrie_new o)) qs0 →
  rm_calls v uniq (tab_lookup (c + 1) tab) qs →
  rm_calls v uniq (tab_lookup c (o :: tab)) (((c ::.) <$> qs0) ++ qs).
Proof.
  intros [Hn0 H0] [Hn H].
  assert (Hlow : ∀ d q, d ≤ c → (d :: q ∉ qs)).
  { intros d q Hd Hin%H. simpl in Hin. rewrite decide_False in Hin by lia. by apply called_empty in Hin. }
  split.
  - apply NoDup_app. split; [by apply NoDup_fmap_2; [intros ? ? [= ?]|]|]. split; [|done].
    intros q (q' & -> & _)%list_elem_of_fmap. apply Hlow. lia.
  - intros q. rewrite tab_lookup_cons, elem_of_app, list_elem_of_fmap. destruct q as [|d q].
    + split; [|by intros ?%called_empty]. intros [(? & ? & _)|Hin%H]; [done|]. by apply called_empty in Hin.
    + destruct (decide (d = c)) as [->|Hd].
      * rewrite <- H0. split; [intros [(q' & [= ->] & ?)|Hin]; [done|by apply Hlow in Hin]|]. intros ?. left. eauto.
      * rewrite <- H. split; [intros [(q' & [= ? ?] & ?)|?]; [congruence|done]|]. by right.
Qed.

(** The bounds collected so far enclose the live slots, and are live or as they
    were. *)
Definition bounds_ok (base : Z) (tab : list (option mtrie_t)) (lo0 hi0 lo hi : Z) : Prop :=
  (∀ k n, tab !! k = Some (Some n) → lo ≤ base + Z.of_nat k ≤ hi)
  ∧ lo ≤ lo0 ∧ hi0 ≤ hi
  ∧ (lo = lo0 ∨ ∃ k n, tab !! k = Some (Some n) ∧ lo = base + Z.of_nat k)
  ∧ (hi = hi0 ∨ ∃ k n, tab !! k = Some (Some n) ∧ hi = base + Z.of_nat k).

Definition lower (o : option mtrie_t) (c lo : Z) : Z := match o with Some _ => Z.min c lo | None => lo end.
Definition upper (o : option mtrie_t) (c hi : Z) : Z := match o with Some _ => Z.max c hi | None => hi end.

Lemma bounds_ok_cons base o tab lo0 hi0 lo hi :
  bounds_ok (base + 1) tab (lower o base lo0) (upper o base hi0) lo hi → bounds_ok base (o :: tab) lo0 hi0 lo hi.
Proof.
  intros (B1 & B2 & B3 & B4 & B5).
  assert (Hshift : ∀ x, (∃ k n, tab !! k = Some (Some n) ∧ x = base + 1 + Z.of_nat k) →
    ∃ k n, (o :: tab) !! k = Some (Some n) ∧ x = base + Z.of_nat k).
  { intros x (k & n & Hk & ->). exists (S k), n. split; [done|lia]. }
  split; [|split; [|split; [|split]]].
  - intros [|k] n Hk; simpl in Hk; [injection Hk as ->; simpl in *; lia|]. specialize (B1 k n Hk). lia.
  - destruct o; simpl in *; lia.
  - destruct o; simpl in *; lia.
  - destruct B4 as [B4|B4]; [|right; auto]. destruct o as [n|]; simpl in B4; [|by left].
    destruct (decide (lo0 ≤ base)); [left; lia|right]. exists 0%nat, n. split; [done|]. lia.
  - destruct B5 as [B5|B5]; [|right; auto]. destruct o as [n|]; simpl in B5; [|by left].
    destruct (decide (base ≤ hi0)); [left; lia|right]. exists 0%nat, n. split; [done|]. lia.
Qed.

(** Equality of results, component by component. *)
Ltac parts := repeat match goal with |- Done _ = Done _ => f_equal | |- (_, _) = (_, _) => f_equal end.

(** The bounds after all the children: both ends are live. *)
Lemma bounds_live min tab lo hi :
  bounds_ok min tab (min + Z.of_nat (length tab) - 1) min lo hi → 0 < count_some tab →
  min ≤ lo ≤ hi ∧ hi < min + Z.of_nat (length tab)
  ∧ is_Some (mjoin (tab !! Z.to_nat (lo - min))) ∧ is_Some (mjoin (tab !! Z.to_nat (hi - min)))
  ∧ (∀ i, (i < Z.to_nat (lo - min))%nat ∨ (Z.to_nat (hi - min) < i)%nat → mjoin (tab !! i) = None).
Proof.
  intros (B1 & B2 & B3 & B4 & B5) (k & n & Hk)%count_some_pos. pose proof (B1 k n Hk) as Hb.
  apply lookup_lt_Some in Hk as Hkl.
  assert (Hlo : ∃ i x, tab !! i = Some (Some x) ∧ lo = min + Z.of_nat i).
  { destruct B4 as [B4|B4]; [|done]. exists k, n. split; [done|lia]. }
  assert (Hhi : ∃ i x, tab !! i = Some (Some x) ∧ hi = min + Z.of_nat i).
  { destruct B5 as [B5|B5]; [|done]. exists k, n. split; [done|lia]. }
  destruct Hlo as (i & x & Hi & Elo), Hhi as (j & y & Hj & Ehi).
  apply lookup_lt_Some in Hi as Hil. apply lookup_lt_Some in Hj as Hjl.
  split; [lia|]. split; [lia|]. split; [|split].
  - replace (Z.to_nat (lo - min)) with i by lia. by rewrite Hi.
  - replace (Z.to_nat (hi - min)) with j by lia. by rewrite Hj.
  - intros l Hl. destruct (tab !! l) as [[z|]|] eqn:E; try done. pose proof (B1 l z E). lia.
Qed.

Lemma rm_compact_spec min count tab lo hi :
  is_byte min → Z.of_nat (length tab) = count → 2 ≤ count → min + count ≤ 256 →
  bounds_ok min tab (min + count - 1) min lo hi →
  ∃ nt', rm_compact min count (count_some tab) lo hi tab = Done nt' ∧ nt_shape nt'
    ∧ ∀ d, nt_child nt' d = nt_child (NTab min count 0 (NextTable tab)) d.
Proof.
  intros Hmin Hlen Hcnt Hmax Hb. unfold is_byte in *. pose proof (count_some_bounds tab) as Hcb. rewrite <- Hlen in Hb.
  unfold rm_compact. assert_ok. destruct (decide (count_some tab = 0)) as [H0|H0].
  { eexists. split; [done|]. split; [left; by simpl|]. intros d. rewrite nt_child_empty, nt_child_table by done.
    destruct (mjoin (tab !! Z.to_nat (d - min))) as [n|] eqn:E; [|by case_decide].
    assert (0 < count_some tab); [|lia]. apply count_some_pos. apply mjoin_Some_lookup in E. eauto. }
  destruct (bounds_live min tab lo hi Hb) as (L1 & L2 & [x Hx] & [y Hy] & Hnone); [lia|].
  destruct (decide (count_some tab = 1)) as [H1|H1].
  - assert (Heq : lo = hi).
    { destruct (decide (lo = hi)); [done|]. assert (2 ≤ count_some tab); [|lia]. apply mjoin_Some_lookup in Hx, Hy.
      apply (count_some_two tab (Z.to_nat (lo - min)) (Z.to_nat (hi - min)) x y); [lia|done|done]. }
    do 3 assert_ok. rewrite (geti_live _ _ (Z.to_nat (lo - min)) x), bind_Done by (done || lia).
    rewrite slk_assert_bind by done. destruct (nt_single_spec min count tab (Z.to_nat (lo - min)) x) as [Hsh Hch]; [done..|].
    rewrite Z2Nat.id in Hsh, Hch by lia. replace (min + (lo - min)) with lo in Hsh, Hch by lia. rewrite H1.
    eexists. split; [done|]. split; [done|]. intros d. by rewrite Hch, !nt_child_table.
  - assert (Hne : lo ≠ hi).
    { intros ->. assert (count_some tab ≤ Z.of_nat 1); [|lia]. apply (count_some_cut_le tab (Z.to_nat (hi - min)) 1); [lia|].
      intros i Hi. apply Hnone. lia. }
    destruct (decide (min < lo ∨ hi < min + count - 1)) as [Hd|Hd].
    + do 4 assert_ok. rewrite u16_small by lia.
      destruct (nt_cut_shape min count (count_some tab) tab (Z.to_nat (lo - min)) (Z.to_nat (hi - lo + 1))) as [Hsh Hch];
        try done; try lia.
      * intros i Hi. apply Hnone. lia.
      * replace (Z.to_nat (lo - min) + Z.to_nat (hi - lo + 1) - 1)%nat with (Z.to_nat (hi - min)) by lia. by rewrite Hy.
      * rewrite !Z2Nat.id in Hsh, Hch by lia. replace (min + (lo - min)) with lo in Hsh, Hch by lia.
        eexists. split; [done|]. split; [done|]. intros d. by rewrite Hch, !nt_child_table.
    + eexists. split; [done|]. split; [|intros d; by rewrite !nt_child_table].
      right. simpl. assert (lo = min ∧ hi = min + count - 1) as [-> ->] by lia.
      split_and!; try (unfold is_byte; lia); right.
      * by replace 0%nat with (Z.to_nat (min - min)) by lia; rewrite Hx.
      * by replace (length tab - 1)%nat with (Z.to_nat (min + count - 1 - min)) by lia; rewrite Hy.
Qed.

Section rm_pipe.
Context (v : nat) (uniq : bool).

Lemma rm_table_spec min count path i tab live lo0 hi0 :
  0 ≤ min → 0 ≤ i → Z.of_nat (length tab) = count - i → min + count ≤ 256 →
  count_some tab ≤ live ≤ 256 →
  (∀ k n, tab !! k = Some (Some n) → rm_visits v uniq n) →
  ∃ tab' lo hi qs, (∀ pipes, pipes ≠ Some ∅ →
    rm_table (mtrie_rm_pipe v uniq) v uniq path min count i tab pipes live lo0 hi0
    = Done (if decide (tab = []) then pipes else (pre_visit v uniq path pipes).1,
            live - count_some tab + count_some tab', lo, hi, tab',
            (if decide (tab = []) then [] else (pre_visit v uniq path pipes).2) ++ ((path ++.) <$> qs)))
    ∧ Forall2 (rm_child v) tab tab' ∧ bounds_ok (min + i) tab' lo0 hi0 lo hi
    ∧ rm_calls v uniq (tab_lookup (min + i) tab) qs.
Proof.
  intros Hmin. revert i live lo0 hi0. induction tab as [|o tab IH]; intros i live lo0 hi0 Hi Hlen Hmax Hlive Hok.
  { exists [], lo0, hi0, []. split; [|split_and!; try done].
    - intros pipes _. simpl. rewrite decide_True by (simpl in Hlen; lia). by replace (live - 0 + 0) with live by lia.
    - split; [done|]. split; [done|]. split; [done|]. split; by left.
    - split; [constructor|]. intros q. split; [by intros ?%not_elem_of_nil|]. intros Hc. exfalso. revert Hc.
      unfold tab_lookup. destruct q as [|d q]; [apply called_empty|].
      case_decide; simpl; rewrite ?mtrie_lookup_new; apply called_empty. }
  simpl in Hlen, Hlive. pose proof (count_some_bounds tab) as Hcb.
  assert (Hhead : ∃ o' q0, rm_child v o o' ∧ rm_calls v uniq (λ q, mtrie_lookup q (default mtrie_new o)) q0 ∧
    (match o with
     | None => Done (None, live, lo0, hi0, [])
     | Some n =>
         '(n, calls') ← mtrie_rm_pipe v uniq n (path ++ [u8 (min + i)]);
         if mtrie_is_redundant n then
           assert! bool_decide (0 < live);; Done (None, u16 (live - 1), lo0, hi0, calls')
         else Done (Some n, live, (if decide (i + min < lo0) then u8 (i + min) else lo0),
                    (if decide (hi0 < i + min) then u8 (i + min) else hi0), calls')
     end) = Done (o', live - live1 o + live1 o',
                  lower o' (min + i) lo0, upper o' (min + i) hi0,
                  (path ++.) <$> ((min + i ::.) <$> q0))).
  { destruct o as [n|].
    - destruct (Hok 0%nat n eq_refl (path ++ [u8 (min + i)])) as (n' & q0 & -> & Hwf & Hlk & Hq0). rewrite bind_Done.
      exists (if mtrie_is_redundant n' then None else Some n'), q0. split; [by exists n'|]. split; [done|].
      rewrite !u8_small by lia. simpl in Hlive.
      assert (Hmap : (path ++ [min + i] ++.) <$> q0 = (path ++.) <$> ((min + i ::.) <$> q0)).
      { rewrite <- list_fmap_compose. apply list_fmap_ext. intros _ q _. simpl. by rewrite <- app_assoc. }
      change ((λ y, (path ++ [min + i]) ++ y) <$> q0) with ((path ++ [min + i] ++.) <$> q0). rewrite Hmap, (Z.add_comm i min).
      destruct (mtrie_is_redundant n'); simpl.
      + rewrite (bool_decide_eq_true_2 (0 < live)) by lia. simpl. rewrite u16_small by lia.
        parts; done || lia.
      + parts; first [done|lia|destruct (decide (min + i < lo0)); lia|destruct (decide (hi0 < min + i)); lia].
    - exists None, []. simpl. split; [done|]. split.
      + split; [constructor|]. intros q. rewrite mtrie_lookup_new. split; [by intros ?%not_elem_of_nil|by intros ?%called_empty].
      + parts; done || lia. }
  destruct Hhead as (o' & q0 & Hchild & Hq0 & Hrun).
  destruct (IH (i + 1) (live - live1 o + live1 o') (lower o' (min + i) lo0) (upper o' (min + i) hi0)) as (tab' & lo & hi & qs & Htab & Hall & Hb & Hqs);
    [lia|lia|done| |intros k n Hk; by apply (Hok (S k))|].
  { destruct o as [n|], o' as [n'|]; simpl in *; try lia. done. }
  exists (o' :: tab'), lo, hi, (((min + i ::.) <$> q0) ++ qs). split; [|split; [by constructor|split]].
  - intros pipes Hne. simpl. rewrite decide_False by lia.
    destruct (pre_visit_spec v uniq path pipes Hne) as (pipes' & Hpv & Hne' & _ & Hidem). rewrite Hpv.
    rewrite Hrun, bind_Done, (Htab pipes' Hne'), bind_Done, Hidem. simpl.
    rewrite fmap_app. destruct (decide (tab = [])); parts; done || lia.
  - apply bounds_ok_cons. by rewrite <- Z.add_assoc.
  - apply rm_calls_cons; [done|]. by rewrite <- Z.add_assoc.
Qed.

(** The prefixes of a node: its own, and those of its children. *)
Lemma rm_calls_node pipes nt pl (qs : list (list Z)) :
  pl = (if decide (called v uniq (default ∅ pipes)) then [[]] else []) →
  NoDup qs → (∀ q, q ∈ qs ↔ ∃ c q', q = c :: q' ∧ called v uniq (mtrie_lookup q' (default mtrie_new (nt_child nt c)))) →
  rm_calls v uniq (λ q, mtrie_lookup q (MTrie pipes nt)) (pl ++ qs).
Proof.
  intros -> Hnd Hqs. split.
  - apply NoDup_app. split; [case_decide; repeat constructor; by intros ?%not_elem_of_nil|]. split; [|done].
    intros q Hq Hin%Hqs. case_decide; [|by apply not_elem_of_nil in Hq].
    apply list_elem_of_singleton in Hq as ->. by destruct Hin as (? & ? & ? & _).
  - intros q. rewrite elem_of_app, Hqs. destruct q as [|c q].
    + simpl. case_decide as Hd; split; try done; [by left; left|..].
      intros [?%not_elem_of_nil|(? & ? & ? & _)]; done.
    + rewrite mtrie_lookup_cons. split.
      * intros [Hin|(c' & q' & [= <- <-] & ?)]; [|done].
        case_decide; [by apply list_elem_of_singleton in Hin|by apply not_elem_of_nil in Hin].
      * right. eauto.
Qed.

Lemma called_new q : ¬ called v uniq (mtrie_lookup q mtrie_new).
Proof. rewrite mtrie_lookup_new. apply called_empty. Qed.

(** The node after the visit: pipes and children dropped [v]. *)
Lemma rm_node_after pipes pipes' nt nt' :
  mtrie_wf (MTrie pipes nt) → pipes' ≠ Some ∅ → default ∅ pipes' = default ∅ pipes ∖ {[v]} → nt_shape nt' →
  (∀ c, rm_child v (nt_child nt c) (nt_child nt' c)) →
  mtrie_wf (MTrie pipes' nt') ∧ ∀ q, mtrie_lookup q (MTrie pipes' nt') = mtrie_lookup q (MTrie pipes nt) ∖ {[v]}.
Proof.
  intros Hwf Hne Hd Hs Hch. split.
  - constructor; [done|done| |]; intros c n Hn; by destruct (rm_child_good v _ _ n (Hch c) Hn).
  - intros [|c q]; [done|]. rewrite !mtrie_lookup_cons. by apply rm_child_lookup.
Qed.

Lemma rm_visits_empty pipes min live next :
  mtrie_wf (MTrie pipes (NTab min 0 live next)) → rm_visits v uniq (MTrie pipes (NTab min 0 live next)).
Proof.
  intros Hwf path. inversion Hwf as [? ? Hp Hs _ _]; subst.
  assert (Hnone : ∀ c, nt_child (NTab min 0 live next) c = None) by (intros; by apply nt_child_empty).
  destruct (pre_visit_spec v uniq path pipes Hp) as (pipes' & Hpv & Hne' & Hd & _).
  exists (MTrie pipes' (NTab min 0 live next)), (if decide (called v uniq (default ∅ pipes)) then [[]] else []).
  split; [|apply and_assoc; split].
  - simpl. rewrite Hpv. do 2 f_equal. case_decide; simpl; by rewrite ?app_nil_r.
  - apply (rm_node_after pipes); try done. intros c. by rewrite Hnone.
  - rewrite <- (app_nil_r (if decide _ then _ else _)). apply rm_calls_node; [done|constructor|].
    intros q. split; [by intros ?%not_elem_of_nil|]. intros (c & q' & _ & Hc). rewrite Hnone in Hc. by apply called_new in Hc.
Qed.

Lemma rm_visits_single pipes min live n :
  mtrie_wf (MTrie pipes (NTab min 1 live (NextNode (Some n)))) → live = 1 → is_byte min → rm_visits v uniq n →
  rm_visits v uniq (MTrie pipes (NTab min 1 live (NextNode (Some n)))).
Proof.
  intros Hwf -> Hmin Hn path. inversion Hwf as [? ? Hp Hs _ _]; subst.
  destruct (pre_visit_spec v uniq path pipes Hp) as (pipes' & Hpv & Hne' & Hd & _).
  destruct (Hn (path ++ [min])) as (n' & qs & Hr & Hwf' & Hlk & Hnd & Hqs).
  set (nt' := if mtrie_is_redundant n' then NTab min 0 0 (NextNode None) else NTab min 1 1 (NextNode (Some n'))).
  exists (MTrie pipes' nt'), ((if decide (called v uniq (default ∅ pipes)) then [[]] else []) ++ ((min ::.) <$> qs)).
  split; [|apply and_assoc; split].
  - simpl. rewrite Hpv, Hr, bind_Done. cbv iota beta. unfold nt'. clear -Hmin.
    assert (Hmap : (path ++ [min] ++.) <$> qs = (path ++.) <$> ((min ::.) <$> qs)).
    { rewrite <- list_fmap_compose. apply list_fmap_ext. intros _ q _. simpl. by rewrite <- app_assoc. }
    change ((λ y, (path ++ [min]) ++ y) <$> qs) with ((path ++ [min] ++.) <$> qs). rewrite Hmap, fmap_app.
    destruct (mtrie_is_redundant n'); simpl; do 3 f_equal; destruct (decide _); simpl; by rewrite ?app_nil_r.
  - apply (rm_node_after pipes); try done.
    + unfold nt'. destruct (mtrie_is_redundant n') eqn:Hred; [by left|]. right. simpl. split_and!; try done; unfold is_byte in *; lia.
    + intros c. rewrite nt_child_node. unfold nt'. destruct (mtrie_is_redundant n') eqn:Hred;
        [rewrite nt_child_empty by done|rewrite nt_child_node]; destruct (decide (c = min)); try done; simpl; exists n'; by rewrite Hred.
  - apply rm_calls_node; [done|by apply NoDup_fmap_2; [intros ? ? [= ?]|]|].
    intros q. rewrite list_elem_of_fmap. split.
    + intros (q' & -> & Hq'%Hqs). exists min, q'. rewrite nt_child_node, decide_True by done. done.
    + intros (c & q' & -> & Hc). rewrite nt_child_node in Hc. case_decide; [|by apply called_new in Hc].
      subst c. exists q'. split; [done|]. by apply Hqs.
Qed.

Lemma rm_visits_table pipes min count live tab :
  mtrie_wf (MTrie pipes (NTab min count live (NextTable tab))) →
  nt_shape_at true 0 (NTab min count live (NextTable tab)) →
  (∀ c n, nt_child (NTab min count live (NextTable tab)) c = Some n → rm_visits v uniq n) →
  rm_visits v uniq (MTrie pipes (NTab min count live (NextTable tab))).
Proof.
  intros Hwf Hs1 Hok path. inversion Hwf as [? ? Hp Hs _ _]; subst.
  destruct Hs1 as (Hmin & _ & Hmax & Hcnt & Hlen & Hlive & _). pose proof (count_some_bounds tab).
  destruct (rm_table_spec min count path 0 tab live (min + count - 1) min) as (tab' & lo & hi & qs & Hrun & Hall & Hb & Hnd & Hqs);
    [unfold is_byte in *; lia|lia|lia|done|unfold is_byte in *; lia| |].
  { intros k n Hk. apply (Hok (min + Z.of_nat k)). rewrite nt_child_table, decide_True by (done || lia).
    replace (Z.to_nat (min + Z.of_nat k - min)) with k by lia. by rewrite Hk. }
  rewrite Z.add_0_r in Hb, Hqs. apply Forall2_length in Hall as Hlen'.
  destruct (rm_compact_spec min count tab' lo hi) as (nt' & Hcomp & Hs' & Hch'); [done|lia|done|done|done|].
  destruct (pre_visit_spec v uniq path pipes Hp) as (pipes' & Hpv & Hne' & Hd & _).
  exists (MTrie pipes' nt'), ((if decide (called v uniq (default ∅ pipes)) then [[]] else []) ++ qs).
  split; [|apply and_assoc; split].
  - simpl. rewrite decide_False, decide_False, u8_small by (unfold is_byte in *; lia).
    rewrite (Hrun pipes Hp), bind_Done. rewrite decide_False by (intros ->; simpl in *; lia).
    rewrite Hpv, Hlive. replace (count_some tab - count_some tab + count_some tab') with (count_some tab') by lia.
    rewrite Hcomp, bind_Done, fmap_app. do 3 f_equal.
    rewrite decide_False by (intros ->; simpl in *; lia). simpl. destruct (decide (called _ _ _)); simpl; by rewrite ?app_nil_r.
  - apply (rm_node_after pipes); try done. intros c. rewrite Hch', !nt_child_table by lia.
    destruct (decide (min ≤ c)); [|done]. destruct (tab !! Z.to_nat (c - min)) as [o|] eqn:E.
    + destruct (Forall2_lookup_l _ _ _ _ _ Hall E) as (o' & -> & Ho). by destruct o, o'.
    + rewrite (lookup_ge_None_2 tab'); [done|]. apply lookup_ge_None in E. lia.
  - apply rm_calls_node; [done|done|]. intros q. rewrite Hqs. destruct q as [|c q]; simpl.
    { split; [by intros ?%called_empty|]. by intros (? & ? & ? & _). }
    split.
    + intros Hc. exists c, q. split; [done|]. rewrite nt_child_table by lia. destruct (decide (min ≤ c)); [done|by apply called_empty in Hc].
    + intros (c' & q' & [= <- <-] & Hc). rewrite nt_child_table in Hc by lia. destruct (decide (min ≤ c)); [done|by apply called_new in Hc].
Qed.

(** Every visit of a well-formed subtree removes the pipe and calls back once per
    called prefix. *)
Lemma rm_visits_wf t : mtrie_wf t → rm_visits v uniq t.
Proof.
  intros Hwf. induction Hwf as [pipes nt Hp Hs Hred Hch IH].
  assert (Hwf : mtrie_wf (MTrie pipes nt)) by (by constructor). pose proof Hs as [[H0 Hl0]|Hs1].
  - destruct nt as [min count live next]. simpl in H0. subst. by apply rm_visits_empty.
  - destruct nt as [min count live [|no|tab]]; [by destruct Hs1 as (_&_&_&[])| |].
    + destruct Hs1 as (Hmin & _ & _ & -> & -> & [n ->]%(λ H, H eq_refl)). apply rm_visits_single; try done.
      apply (IH min). rewrite nt_child_node. by rewrite decide_True.
    + by apply rm_visits_table.
Qed.

End rm_pipe.

(** ** Refinement

    Abstractly the multi-trie is a finite map from prefixes to non-empty sets of
    pipes, with a counter. *)

Abbreviation sub_map := (gmap (list Z) (gset nat)).

Definition subs (m : sub_map) (p : list Z) : gset nat := default ∅ (m !! p).

(** Set the pipes of a prefix; a prefix without pipes is not in the map. *)
Definition set_subs (p : list Z) (s : gset nat) (m : sub_map) : sub_map :=
  if decide (s = ∅) then delete p m else <[p := s]> m.

Definition drop_pipe (v : nat) (m : sub_map) : sub_map :=
  omap (λ s : gset nat, if decide (s ∖ {[v]} = ∅) then None else Some (s ∖ {[v]})) m.

Inductive mop :=
| MAdd (p : list Z) (v : nat) | MRm (p : list Z) (v : nat) | MRmPipe (v : nat) (uniq : bool) | MMatch (data : list Z).

Inductive mres := RAdded (b : bool) | RRemoved (r : rm_result) | RCalls (l : list (list Z)) | RMatched (l : list nat).

Definition mr_step (r : mtrie_root) (op : mop) : outcome (mres * mtrie_root) :=
  match op with
  | MAdd p v => '(b, r) ← mr_add p v r; Done (RAdded b, r)
  | MRm p v => '(x, r) ← mr_rm p v r; Done (RRemoved x, r)
  | MRmPipe v uniq => '(l, r) ← mr_rm_pipe v uniq r; Done (RCalls l, r)
  | MMatch data => l ← mtrie_match (mr_trie r) data; Done (RMatched l, r)
  end.

Definition mabs_step (a : Z * sub_map) (op : mop) (res : mres) (a' : Z * sub_map) : Prop :=
  let '(n, m) := a in
  match op with
  | MAdd p v =>
      res = RAdded (bool_decide (m !! p = None))
      ∧ a' = (if decide (m !! p = None) then n + 1 else n, set_subs p ({[v]} ∪ subs m p) m)
  | MRm p v =>
      res = RRemoved (rm_answer v (subs m p))
      ∧ a' = (if decide (rm_answer v (subs m p) = last_value_removed) then n - 1 else n,
              set_subs p (subs m p ∖ {[v]}) m)
  | MRmPipe v uniq =>
      (∃ l, res = RCalls l ∧ NoDup l ∧ ∀ p, p ∈ l ↔ called v uniq (subs m p)) ∧ a' = (n, drop_pipe v m)
  | MMatch data =>
      res = RMatched (mjoin ((λ k, elements (subs m (take k data))) <$> seq 0 (S (length data)))) ∧ a' = a
  end.

Definition mop_ok (op : mop) : Prop := match op with MAdd p _ => bytes_ok p | _ => True end.

Definition mr_rel (r : mtrie_root) (a : Z * sub_map) : Prop :=
  mtrie_wf (mr_trie r) ∧ (∀ p, mtrie_lookup p (mr_trie r) = subs a.2 p) ∧ (∀ p, a.2 !! p ≠ Some ∅)
  ∧ mr_num_prefixes r = a.1 ∧ Z.of_nat (size a.2) ≤ a.1.

Lemma subs_set_subs p s m q : subs (set_subs p s m) q = if decide (q = p) then s else subs m q.
Proof.
  unfold subs, set_subs. repeat case_decide; subst.
  - by rewrite lookup_delete_eq.
  - by rewrite lookup_delete_ne.
  - by rewrite lookup_insert_eq.
  - by rewrite lookup_insert_ne.
Qed.

Lemma set_subs_nonempty p s m q : (∀ p, m !! p ≠ Some ∅) → set_subs p s m !! q ≠ Some ∅.
Proof.
  intros H. unfold set_subs. case_decide.
  - intros [_ Hl]%lookup_delete_Some. by apply H in Hl.
  - intros [[_ ?]|[_ Hl]]%lookup_insert_Some; [done|]. by apply H in Hl.
Qed.

Lemma subs_none m p : (∀ p, m !! p ≠ Some ∅) → m !! p = None ↔ subs m p = ∅.
Proof. intros H. specialize (H p). unfold subs. destruct (m !! p); simpl; naive_solver. Qed.

Lemma subs_drop_pipe v m p : subs (drop_pipe v m) p = subs m p ∖ {[v]}.
Proof.
  unfold subs, drop_pipe. rewrite lookup_omap. destruct (m !! p) as [s|]; simpl; [|set_solver].
  by case_decide as H; simpl; [rewrite H|].
Qed.

Lemma drop_pipe_nonempty v m p : drop_pipe v m !! p ≠ Some ∅.
Proof. unfold drop_pipe. rewrite lookup_omap. destruct (m !! p); simpl; [|done]. case_decide; congruence. Qed.

Lemma on_path_lookup t data :
  on_path t data = mjoin ((λ k, elements (mtrie_lookup (take k data) t)) <$> seq 0 (S (length data))).
Proof.
  revert t. induction data as [|c data IH]; intros [pipes nt].
  { done. }
  change (seq 0 (S (length (c :: data)))) with (0%nat :: seq 1 (S (length data))).
  rewrite fmap_cons, <- (fmap_S_seq 0), <- list_fmap_compose. cbn [on_path mt_nt]. rewrite IH.
  change (mjoin (?a :: ?b)) with (a ++ mjoin b). f_equal. f_equal. apply list_fmap_ext.
  intros _ k _. unfold compose. cbn [take]. by rewrite mtrie_lookup_cons.
Qed.

Lemma mr_step_add r a p v :
  mr_rel r a → bytes_ok p → a.1 + 1 < 2 ^ 32 →
  ∃ res r' a', mr_step r (MAdd p v) = Done (res, r') ∧ mabs_step a (MAdd p v) res a' ∧ mr_rel r' a' ∧ a'.1 ≤ a.1 + 1.
Proof.
  destruct r as [num t], a as [n m]. intros (Hwf & Hlk & Hne & Hn & Hsz) Hp Hlt. simpl in *. subst num.
  destruct (mtrie_add_spec p v t Hp Hwf) as (t' & Hr & Hwf' & _ & Hlk').
  assert (Hiff : bool_decide (mtrie_lookup p t = ∅) = bool_decide (m !! p = None)).
  { apply bool_decide_ext. rewrite Hlk. symmetry. by apply subs_none. }
  unfold mr_add. simpl. rewrite Hr, bind_Done, Hiff.
  set (a' := (if decide (m !! p = None) then n + 1 else n, set_subs p ({[v]} ∪ subs m p) m)).
  eexists _, _, a'. split; [done|]. split; [done|]. unfold a'. split; [|simpl; destruct (decide (m !! p = None)); lia].
  split; [done|]. split; [|split; [intros q; by apply set_subs_nonempty|split]].
  - intros q. simpl. rewrite Hlk', subs_set_subs, !Hlk. done.
  - simpl. repeat case_bool_decide; repeat case_decide; try done. by rewrite u32_small by lia.
  - simpl. unfold set_subs. rewrite (decide_False (P := _ = ∅)) by set_solver.
    destruct (decide (m !! p = None)) as [E|E].
    + rewrite map_size_insert_None by done. lia.
    + rewrite map_size_insert_Some by (by apply not_eq_None_Some). lia.
Qed.

Lemma mr_step_rm r a p v :
  mr_rel r a → a.1 < 2 ^ 32 →
  ∃ res r' a', mr_step r (MRm p v) = Done (res, r') ∧ mabs_step a (MRm p v) res a' ∧ mr_rel r' a' ∧ a'.1 ≤ a.1.
Proof.
  destruct r as [num t], a as [n m]. intros (Hwf & Hlk & Hne & Hn & Hsz) Hlt. simpl in *. subst num.
  destruct (mtrie_rm_spec p v t Hwf) as (t' & Hr & Hwf' & Hlk'). rewrite Hlk in Hr.
  assert (Hsize : Z.of_nat (size (set_subs p (subs m p ∖ {[v]}) m))
    ≤ (if decide (rm_answer v (subs m p) = last_value_removed) then n - 1 else n)
    ∧ (rm_answer v (subs m p) = last_value_removed → 0 < n)).
  { unfold set_subs, subs. specialize (Hne p). destruct (m !! p) as [s|] eqn:E; simpl.
    - pose proof (minus_empty s v ltac:(congruence)) as Hm.
      assert (Hpos : size m ≠ 0%nat) by (eapply map_size_ne_0_lookup_2; eauto).
      destruct (decide (s ∖ {[v]} = ∅)) as [H|H].
      + rewrite map_size_delete_Some by eauto. case_decide; split; done || lia.
      + rewrite map_size_insert_Some by eauto.
        assert (Ha : rm_answer v s ≠ last_value_removed) by (unfold rm_answer; repeat case_decide; try done; tauto).
        rewrite decide_False by done. split; [lia|done].
    - rewrite decide_True by set_solver. rewrite map_size_delete_None by done.
      assert (Ha : rm_answer v ∅ ≠ last_value_removed) by (unfold rm_answer; by rewrite decide_False by set_solver).
      rewrite decide_False by done. split; [lia|done]. }
  destruct Hsize as [Hsize Hpos].
  set (a' := (if decide (rm_answer v (subs m p) = last_value_removed) then n - 1 else n, set_subs p (subs m p ∖ {[v]}) m)) in *.
  exists (RRemoved (rm_answer v (subs m p))), (MRoot a'.1 t'), a'. split; [|split; [done|]].
  - simpl. unfold mr_rm. simpl. rewrite Hr, bind_Done. case_decide as Hd; [|done].
    specialize (Hpos Hd). assert_ok. by rewrite u32_small by lia.
  - split; [|simpl; case_decide; lia]. split; [done|]. split; [|split; [intros q; by apply set_subs_nonempty|done]].
    intros q. simpl. rewrite Hlk', subs_set_subs, !Hlk. done.
Qed.

Lemma mr_step_rm_pipe r a v uniq :
  mr_rel r a →
  ∃ res r' a', mr_step r (MRmPipe v uniq) = Done (res, r') ∧ mabs_step a (MRmPipe v uniq) res a' ∧ mr_rel r' a' ∧ a'.1 ≤ a.1.
Proof.
  destruct r as [num t], a as [n m]. intros (Hwf & Hlk & Hne & Hn & Hsz). simpl in *. subst num.
  destruct (rm_visits_wf v uniq t Hwf []) as (t' & qs & Hr & Hwf' & Hlk' & Hnd & Hqs).
  exists (RCalls qs), (MRoot n t'), (n, drop_pipe v m). split; [|split; [|split; [|simpl; lia]]].
  - simpl. unfold mr_rm_pipe. simpl. rewrite Hr, bind_Done. simpl. by rewrite list_fmap_id.
  - split; [|done]. exists qs. split; [done|]. split; [done|]. intros q. by rewrite Hqs, Hlk.
  - split; [done|]. split; [|split; [apply drop_pipe_nonempty|split; [done|]]].
    + intros q. simpl. by rewrite Hlk', subs_drop_pipe, Hlk.
    + simpl. assert (Hle : (size (drop_pipe v m) ≤ size m)%nat); [|lia].
      rewrite <- !size_dom. apply subseteq_size, dom_omap_subseteq.
Qed.

Lemma mr_step_sim r a op :
  mr_rel r a → mop_ok op → a.1 + 1 < 2 ^ 32 →
  ∃ res r' a', mr_step r op = Done (res, r') ∧ mabs_step a op res a' ∧ mr_rel r' a' ∧ a'.1 ≤ a.1 + 1.
Proof.
  intros Hrel Hop Hlt. destruct op as [p v|p v|v uniq|data].
  - by apply mr_step_add.
  - destruct (mr_step_rm r a p v Hrel) as (res & r' & a' & ? & ? & ? & ?); [lia|]. exists res, r', a'. split_and!; try done. lia.
  - destruct (mr_step_rm_pipe r a v uniq Hrel) as (res & r' & a' & ? & ? & ? & ?). exists res, r', a'. split_and!; try done. lia.
  - destruct r as [num t], a as [n m]. pose proof Hrel as (Hwf & Hlk & _).
    exists (RMatched (on_path t data)), (MRoot num t), (n, m). cbn [mr_step mr_trie]. rewrite (mtrie_match_spec t data Hwf).
    split; [done|].
    split; [|split; [done|simpl; lia]]. split; [|done]. rewrite on_path_lookup.
    f_equal. f_equal. apply list_fmap_ext. intros _ k _. apply (f_equal elements), Hlk.
Qed.

Fixpoint mr_run (r : mtrie_root) (ops : list mop) : outcome (list mres * mtrie_root) :=
  match ops with
  | [] => Done ([], r)
  | op :: ops =>
      '(x, r) ← mr_step r op;
      '(xs, r) ← mr_run r ops;
      Done (x :: xs, r)
  end.

Fixpoint mabs_run (a : Z * sub_map) (ops : list mop) (xs : list mres) (a' : Z * sub_map) : Prop :=
  match ops, xs with
  | [], [] => a' = a
  | op :: ops, x :: xs => ∃ a1, mabs_step a op x a1 ∧ mabs_run a1 ops xs a'
  | _, _ => False
  end.

(** C7: The multi-trie refines a map from prefixes to sets of pipes: any sequence
    of add, rm (prefix), rm (pipe) and match runs without failing an assertion or
    leaving a table, every answer is the map's (add reports new prefixes, rm the
    last pipe, match calls once for every pipe of every prefix of the data,
    rm (pipe) once for every prefix the pipe was subscribed to, or was the last
    one of), and at the end the trie holds exactly the map. *)
Theorem mtrie_refines (ops : list mop) :
  Forall mop_ok ops → Z.of_nat (length ops) < 2 ^ 32 →
  ∃ xs r a, mr_run mr_new ops = Done (xs, r) ∧ mabs_run (0, ∅) ops xs a
    ∧ (∀ p, mtrie_lookup p (mr_trie r) = subs a.2 p) ∧ mr_num_prefixes r = a.1
    ∧ Z.of_nat (size a.2) ≤ mr_num_prefixes r.
Proof.
  intros Hok Hlen. assert (Hgen : ∀ r a, mr_rel r a → a.1 + Z.of_nat (length ops) < 2 ^ 32 →
    ∃ xs r' a', mr_run r ops = Done (xs, r') ∧ mabs_run a ops xs a' ∧ mr_rel r' a').
  { clear Hlen. induction Hok as [|op ops Hop Hok IH]; intros r a Hrel Hlt; [by exists [], r, a|]. cbn [length] in Hlt.
    destruct (mr_step_sim r a op Hrel Hop) as (x & r1 & a1 & Hs & Ha & Hrel1 & Hle); [lia|].
    destruct (IH r1 a1 Hrel1) as (xs & r' & a' & Hr & Hr' & Hrel'); [lia|].
    exists (x :: xs), r', a'. cbn [mr_run]. rewrite Hs, bind_Done, Hr, bind_Done. split; [done|]. split; [|done]. by exists a1. }
  destruct (Hgen mr_new (0, ∅)) as (xs & r & a & Hr & Ha & _ & Hlk & _ & Hn & Hsz); [|simpl; lia|].
  - split; [apply mtrie_new_wf|]. split; [intros p; apply mtrie_lookup_new|]. done.
  - exists xs, r, a. rewrite Hn. done.
Qed.

Lemma mtrie_refines_witness :
  ∃ xs r, mr_run mr_new [MAdd [1; 2] 7; MAdd [1] 8; MAdd [3] 7; MMatch [1; 2; 5]; MRmPipe 7 true; MRm [1] 8]
          = Done (xs, r) ∧ (∀ p, mtrie_lookup p (mr_trie r) = ∅).
Proof.
  destruct (mtrie_refines [MAdd [1; 2] 7; MAdd [1] 8; MAdd [3] 7; MMatch [1; 2; 5]; MRmPipe 7 true; MRm [1] 8])
    as (xs & r & a & Hr & _).
  - repeat constructor; unfold is_byte; simpl; lia.
  - simpl. lia.
  - exists xs, r. split; [exact Hr|]. vm_compute in Hr. injection Hr as _ <-. intros [|c p]; [done|].
    unfold mtrie_lookup. simpl. unfold nt_child. simpl. by rewrite decide_False by lia.
Defined.

(** [rm (pipe)] never takes back the prefixes it removes from the counter:
    a subscription that goes away with its pipe still counts, although no prefix
    is stored. *)
Lemma mtrie_num_prefixes_drift p v uniq :
  bytes_ok p →
  ∃ r r', mr_add p v mr_new = Done (true, r) ∧ mr_rm_pipe v uniq r = Done ([p], r')
    ∧ (∀ q, mtrie_lookup q (mr_trie r') = ∅) ∧ mr_num_prefixes r' = 1.
Proof.
  intros Hp. destruct (mtrie_add_spec p v mtrie_new Hp mtrie_new_wf) as (t & Hr & Hwf & _ & Hlk).
  rewrite mtrie_lookup_new in Hr. simpl in Hr.
  assert (Hlk' : ∀ q, mtrie_lookup q t = if decide (q = p) then {[v]} else ∅).
  { intros q. rewrite Hlk, !mtrie_lookup_new. destruct (decide (q = p)); set_solver. }
  destruct (rm_visits_wf v uniq t Hwf []) as (t' & qs & Hrm & _ & Hlk2 & Hnd & Hqs).
  exists (MRoot 1 t), (MRoot 1 t'). split; [|split; [|split]].
  - unfold mr_add. simpl. by rewrite Hr.
  - unfold mr_rm_pipe. simpl. rewrite Hrm, bind_Done. simpl. rewrite list_fmap_id. do 2 f_equal.
    assert (Hin : ∀ q, q ∈ qs ↔ q = p).
    { intros q. rewrite Hqs, Hlk'. unfold called. destruct (decide (q = p)); [|set_solver]. subst. split; [done|]. intros _. split; [set_solver|done]. }
    destruct qs as [|q1 [|q2 qs]].
    + exfalso. apply (not_elem_of_nil p). by apply Hin.
    + f_equal. apply Hin. by left.
    + exfalso. assert (q1 = p) by (apply Hin; by left). assert (q2 = p) by (apply Hin; right; by left).
      apply NoDup_cons in Hnd as [Hnd _]. subst. apply Hnd. by left.
  - intros q. simpl. rewrite Hlk2, Hlk'. destruct (decide (q = p)); set_solver.
  - done.
Qed.

Lemma mtrie_num_prefixes_drift_witness :
  ∃ r', mr_rm_pipe 3 true (MRoot 1 (MTrie (Some {[3%nat]}) nt_new)) = Done ([[]], r') ∧ mr_num_prefixes r' = 1.
Proof.
  destruct (mtrie_num_prefixes_drift [] 3 true) as (r & r' & Ha & Hr & _ & Hn); [constructor|].
  exists r'. vm_compute in Ha. injection Ha as <-. split; [exact Hr|exact Hn].
Defined.
