(* ===== verification/Pipe.v ===== *)
(** The pipe of src/pipe/pipe.cpp: one end of a pair of message queues, with its
    watermarks, and the handshake by which the two ends take the pair down.

    A queue is the three-part queue that YPipe shows [ypipe_t] to be (the
    conflating queue is modelled in Conflate; [_conflate] is false here).  Queues
    are shared by the two ends and identified by pointers into a store, so that a
    queue used after it was deleted is [Undef].  An operation of one end runs as a
    whole: it touches the other end only through the queues, whose operations are
    atomic, and through commands, which arrive in order. *)
From S2P Require Import Prelude Msg YPipe.

(** ** Queues *)

Abbreviation upipe := (@spec msg_t).

Definition up_new : upipe := spec_new.

Definition up_write (u : upipe) (m : msg_t) (incomplete : bool) : upipe := spec_write u m incomplete.

Definition up_unwrite (u : upipe) : option msg_t * upipe := spec_unwrite u.

(** [flush]: false when the reader is asleep. *)
Definition up_flush (u : upipe) : bool * upipe :=
  match sp_complete u with
  | [] => (true, u)
  | _ => (negb (sp_asleep u), spec_flush u)
  end.

Definition up_check_read (u : upipe) : bool * upipe := spec_check_read u.

Definition up_read (u : upipe) : option msg_t * upipe :=
  let '(b, u) := spec_check_read u in
  match b, sp_flushed u with
  | true, m :: fl => (Some m, Spec fl (sp_complete u) (sp_incomplete u) (sp_asleep u))
  | _, _ => (None, u)
  end.

(** [probe (fn)] asserts that there is an item. *)
Definition up_probe (u : upipe) (fn : msg_t → bool) : outcome bool :=
  match sp_flushed u with m :: _ => Done (fn m) | [] => Abort end.

(** ** State *)

Inductive pstate :=
| active | delimiter_received | waiting_for_delimiter | term_ack_sent | term_req_sent1 | term_req_sent2.

#[export] Instance pstate_eq_dec : EqDecision pstate.
Proof. solve_decision. Defined.

(** The commands of a pipe to its peer. *)
Inductive pcmd :=
| CActivateRead | CActivateWrite (msgs_read : Z) | CHiccup (p : nat) | CPipeTerm | CPipeTermAck
| CPipeHwm (inhwm outhwm : Z).

(** The events of a pipe to its sink. *)
Inductive pevent := EReadActivated | EWriteActivated | EHiccuped | EPipeTerminated.

Record pipe_t := Pipe {
  pi_in_pipe : nat;
  pi_out_pipe : option nat;
  pi_in_active : bool;
  pi_out_active : bool;
  pi_hwm : Z;
  pi_lwm : Z;
  pi_in_hwm_boost : Z;
  pi_out_hwm_boost : Z;
  pi_msgs_read : Z;           (* uint64_t *)
  pi_msgs_written : Z;        (* uint64_t *)
  pi_peers_msgs_read : Z;     (* uint64_t *)
  pi_state : pstate;
  pi_delay : bool;
  pi_disconnect_msg : option msg_t;   (* [None] when its size is 0 *)
}.

(** What an operation acts on: the end itself, the queues, and what it sends. *)
Record penv := PEnv {
  pe_pipe : pipe_t;
  pe_ups : gmap nat upipe;
  pe_sent : list pcmd;        (* commands to the peer *)
  pe_events : list pevent;    (* events to the sink *)
  pe_closed : list msg_t;     (* messages closed *)
}.

Definition set_pipe (f : pipe_t → pipe_t) (e : penv) : penv :=
  PEnv (f (pe_pipe e)) (pe_ups e) (pe_sent e) (pe_events e) (pe_closed e).
Definition set_ups (f : gmap nat upipe → gmap nat upipe) (e : penv) : penv :=
  PEnv (pe_pipe e) (f (pe_ups e)) (pe_sent e) (pe_events e) (pe_closed e).
Definition send_cmd (c : pcmd) (e : penv) : penv :=
  PEnv (pe_pipe e) (pe_ups e) (pe_sent e ++ [c]) (pe_events e) (pe_closed e).
Definition sink (ev : pevent) (e : penv) : penv :=
  PEnv (pe_pipe e) (pe_ups e) (pe_sent e) (pe_events e ++ [ev]) (pe_closed e).
Definition close_msg (m : msg_t) (e : penv) : penv :=
  PEnv (pe_pipe e) (pe_ups e) (pe_sent e) (pe_events e) (pe_closed e ++ [m]).

Definition with_in_pipe (q : nat) (p : pipe_t) : pipe_t :=
  Pipe q (pi_out_pipe p) (pi_in_active p) (pi_out_active p) (pi_hwm p) (pi_lwm p) (pi_in_hwm_boost p)
    (pi_out_hwm_boost p) (pi_msgs_read p) (pi_msgs_written p) (pi_peers_msgs_read p) (pi_state p) (pi_delay p) (pi_disconnect_msg p).
Definition with_out_pipe (q : option nat) (p : pipe_t) : pipe_t :=
  Pipe (pi_in_pipe p) q (pi_in_active p) (pi_out_active p) (pi_hwm p) (pi_lwm p) (pi_in_hwm_boost p)
    (pi_out_hwm_boost p) (pi_msgs_read p) (pi_msgs_written p) (pi_peers_msgs_read p) (pi_state p) (pi_delay p) (pi_disconnect_msg p).
Definition with_active (i o : bool) (p : pipe_t) : pipe_t :=
  Pipe (pi_in_pipe p) (pi_out_pipe p) i o (pi_hwm p) (pi_lwm p) (pi_in_hwm_boost p)
    (pi_out_hwm_boost p) (pi_msgs_read p) (pi_msgs_written p) (pi_peers_msgs_read p) (pi_state p) (pi_delay p) (pi_disconnect_msg p).
Definition with_marks (hwm lwm ib ob : Z) (p : pipe_t) : pipe_t :=
  Pipe (pi_in_pipe p) (pi_out_pipe p) (pi_in_active p) (pi_out_active p) hwm lwm ib ob
    (pi_msgs_read p) (pi_msgs_written p) (pi_peers_msgs_read p) (pi_state p) (pi_delay p) (pi_disconnect_msg p).
Definition with_counts (r w pr : Z) (p : pipe_t) : pipe_t :=
  Pipe (pi_in_pipe p) (pi_out_pipe p) (pi_in_active p) (pi_out_active p) (pi_hwm p) (pi_lwm p) (pi_in_hwm_boost p)
    (pi_out_hwm_boost p) r w pr (pi_state p) (pi_delay p) (pi_disconnect_msg p).
Definition with_state (st : pstate) (p : pipe_t) : pipe_t :=
  Pipe (pi_in_pipe p) (pi_out_pipe p) (pi_in_active p) (pi_out_active p) (pi_hwm p) (pi_lwm p) (pi_in_hwm_boost p)
    (pi_out_hwm_boost p) (pi_msgs_read p) (pi_msgs_written p) (pi_peers_msgs_read p) st (pi_delay p) (pi_disconnect_msg p).
Definition with_delay (d : bool) (p : pipe_t) : pipe_t :=
  Pipe (pi_in_pipe p) (pi_out_pipe p) (pi_in_active p) (pi_out_active p) (pi_hwm p) (pi_lwm p) (pi_in_hwm_boost p)
    (pi_out_hwm_boost p) (pi_msgs_read p) (pi_msgs_written p) (pi_peers_msgs_read p) (pi_state p) d (pi_disconnect_msg p).
Definition with_disconnect (m : option msg_t) (p : pipe_t) : pipe_t :=
  Pipe (pi_in_pipe p) (pi_out_pipe p) (pi_in_active p) (pi_out_active p) (pi_hwm p) (pi_lwm p) (pi_in_hwm_boost p)
    (pi_out_hwm_boost p) (pi_msgs_read p) (pi_msgs_written p) (pi_peers_msgs_read p) (pi_state p) (pi_delay p) m.

Abbreviation st_of e := (pi_state (pe_pipe e)).

Definition get_up (e : penv) (q : nat) : outcome upipe :=
  match pe_ups e !! q with Some u => Done u | None => Undef end.
Definition put_up (q : nat) (u : upipe) (e : penv) : penv := set_ups <[q := u]> e.

(** ** Watermarks *)

Definition compute_lwm (hwm : Z) : Z := Z.quot (s32 (hwm + 1)) 2.

Definition pipe_check_hwm (p : pipe_t) : bool :=
  negb ((0 <? pi_hwm p) && (pi_hwm p <=? u64 (pi_msgs_written p - pi_peers_msgs_read p))).

Definition pipe_set_hwms (inhwm outhwm : Z) (p : pipe_t) : pipe_t :=
  let i := s32 (inhwm + Z.max (pi_in_hwm_boost p) 0) in
  let o := s32 (outhwm + Z.max (pi_out_hwm_boost p) 0) in
  let i := if decide (inhwm ≤ 0 ∨ pi_in_hwm_boost p = 0) then 0 else i in
  let o := if decide (outhwm ≤ 0 ∨ pi_out_hwm_boost p = 0) then 0 else o in
  with_marks o (compute_lwm i) (pi_in_hwm_boost p) (pi_out_hwm_boost p) p.

Definition pipe_set_hwms_boost (i o : Z) (p : pipe_t) : pipe_t := with_marks (pi_hwm p) (pi_lwm p) i o p.

(** ** Operations of the user *)

(** [while (_out_pipe->unwrite (&msg))]: the incomplete parts, last first. *)
Fixpoint rollback_loop (fuel : nat) (q : nat) (e : penv) : outcome penv :=
  match fuel with
  | O => Undef
  | S fuel =>
      u ← get_up e q;
      match up_unwrite u with
      | (None, u) => Done (put_up q u e)
      | (Some m, u) =>
          assert! has_flag m msg_more;;
          rollback_loop fuel q (close_msg m (put_up q u e))
      end
  end.

Definition pipe_rollback (e : penv) : outcome penv :=
  match pi_out_pipe (pe_pipe e) with
  | None => Done e
  | Some q => u ← get_up e q; rollback_loop (S (length (sp_incomplete u))) q e
  end.

Definition pipe_flush (e : penv) : outcome penv :=
  if decide (st_of e = term_ack_sent) then Done e
  else match pi_out_pipe (pe_pipe e) with
       | None => Done e
       | Some q =>
           u ← get_up e q;
           let '(ok, u) := up_flush u in
           let e := put_up q u e in
           Done (if ok : bool then e else send_cmd CActivateRead e)
       end.

Definition ack_peer (e : penv) : penv :=
  send_cmd CPipeTermAck (set_pipe (with_out_pipe None) e).

Definition process_delimiter (e : penv) : outcome penv :=
  match st_of e with
  | active => Done (set_pipe (with_state delimiter_received) e)
  | waiting_for_delimiter =>
      e ← pipe_rollback e;
      Done (set_pipe (with_state term_ack_sent) (ack_peer e))
  | _ => Abort
  end.

Definition can_read (p : pipe_t) : bool :=
  pi_in_active p && bool_decide (pi_state p = active ∨ pi_state p = waiting_for_delimiter).

Definition in_sleeps (e : penv) : penv := set_pipe (λ p, with_active false (pi_out_active p) p) e.

Definition pipe_check_read (e : penv) : outcome (bool * penv) :=
  if negb (can_read (pe_pipe e)) then Done (false, e)
  else
    let q := pi_in_pipe (pe_pipe e) in
    u ← get_up e q;
    let '(ok, u) := up_check_read u in
    let e := put_up q u e in
    if negb ok then Done (false, in_sleeps e)
    else
      delim ← up_probe u is_delimiter;
      if delim : bool then
        let '(m, u) := up_read u in
        assert! bool_decide (is_Some m);;
        e ← process_delimiter (put_up q u e);
        Done (false, e)
      else Done (true, e).

(** The loop of [read]: the first item that is not a credential. *)
Fixpoint read_loop (fuel : nat) (q : nat) (e : penv) : outcome (option msg_t * penv) :=
  match fuel with
  | O => Undef
  | S fuel =>
      u ← get_up e q;
      match up_read u with
      | (None, u) => Done (None, put_up q u e)
      | (Some m, u) =>
          if is_credential m then read_loop fuel q (close_msg m (put_up q u e))
          else Done (Some m, put_up q u e)
      end
  end.

Definition count_read (m : msg_t) (p : pipe_t) : pipe_t :=
  with_counts (if negb (has_flag m msg_more) && negb (is_routing_id m) then u64 (pi_msgs_read p + 1) else pi_msgs_read p)
    (pi_msgs_written p) (pi_peers_msgs_read p) p.

Definition pipe_read (e : penv) : outcome (option msg_t * penv) :=
  if negb (can_read (pe_pipe e)) then Done (None, e)
  else
    let q := pi_in_pipe (pe_pipe e) in
    u ← get_up e q;
    '(r, e) ← read_loop (S (length (sp_flushed u))) q e;
    match r with
    | None => Done (None, in_sleeps e)
    | Some m =>
        if is_delimiter m then e ← process_delimiter e; Done (None, e)
        else
          let e := set_pipe (count_read m) e in
          let p := pe_pipe e in
          Done (Some m, if decide (0 < pi_lwm p ∧ pi_msgs_read p `mod` u64 (pi_lwm p) = 0)
                        then send_cmd (CActivateWrite (pi_msgs_read p)) e else e)
    end.

Definition pipe_check_write (e : penv) : bool * penv :=
  let p := pe_pipe e in
  if negb (pi_out_active p) || negb (bool_decide (pi_state p = active)) then (false, e)
  else if negb (pipe_check_hwm p) then (false, set_pipe (with_active (pi_in_active p) false) e)
  else (true, e).

Definition count_written (m : msg_t) (p : pipe_t) : pipe_t :=
  with_counts (pi_msgs_read p)
    (if negb (has_flag m msg_more) && negb (is_routing_id m) then u64 (pi_msgs_written p + 1) else pi_msgs_written p)
    (pi_peers_msgs_read p) p.

(** The queue pointer is dereferenced without a test. *)
Definition out_of (e : penv) : outcome nat :=
  match pi_out_pipe (pe_pipe e) with Some q => Done q | None => Undef end.

Definition pipe_write (m : msg_t) (e : penv) : outcome (bool * penv) :=
  let '(ok, e) := pipe_check_write e in
  if negb ok then Done (false, e)
  else
    q ← out_of e;
    u ← get_up e q;
    Done (true, set_pipe (count_written m) (put_up q (up_write u m (has_flag m msg_more)) e)).

(** Write without a check of the watermark, and flush. *)
Definition write_out (m : msg_t) (q : nat) (e : penv) : outcome penv :=
  u ← get_up e q;
  pipe_flush (put_up q (up_write u m false) e).

Definition pipe_send_disconnect_msg (e : penv) : outcome penv :=
  match pi_disconnect_msg (pe_pipe e), pi_out_pipe (pe_pipe e) with
  | Some m, Some q =>
      e ← pipe_rollback e;
      e ← write_out m q e;
      Done (set_pipe (with_disconnect None) e)
  | _, _ => Done e
  end.

Definition pipe_set_disconnect_msg (m : msg_t) (e : penv) : penv :=
  let e := match pi_disconnect_msg (pe_pipe e) with Some old => close_msg old e | None => e end in
  set_pipe (with_disconnect (Some m)) e.

(** The message of [hiccup_], when it is not empty. *)
Definition pipe_send_hiccup_msg (m : msg_t) (e : penv) : outcome penv :=
  match pi_out_pipe (pe_pipe e) with Some q => write_out m q e | None => Done e end.

(** [slk_assert (written)] after the write of a prepared message: the routing id or
    the hello message of a new pipe. *)
Definition pipe_send_first (m : msg_t) (e : penv) : outcome penv :=
  '(written, e) ← pipe_write m e;
  assert! written;;
  pipe_flush e.

Definition pipe_send_hwms_to_peer (inhwm outhwm : Z) (e : penv) : penv := send_cmd (CPipeHwm inhwm outhwm) e.

(** ** Termination *)

Definition pipe_terminate (delay : bool) (e : penv) : outcome penv :=
  let e := set_pipe (with_delay delay) e in
  match st_of e with
  | term_req_sent1 | term_req_sent2 | term_ack_sent => Done e
  | st =>
      e ← match st with
          | waiting_for_delimiter =>
              if negb delay then
                e ← pipe_rollback e; Done (set_pipe (with_state term_ack_sent) (ack_peer e))
              else Done e
          | _ => Done (set_pipe (with_state term_req_sent1) (send_cmd CPipeTerm e))
          end;
      let e := set_pipe (λ p, with_active (pi_in_active p) false p) e in
      match pi_out_pipe (pe_pipe e) with
      | None => Done e
      | Some q => e ← pipe_rollback e; write_out msg_init_delimiter q e
      end
  end.

(** [hiccup]: [q] is the address of the new queue. *)
Definition pipe_hiccup (q : nat) (e : penv) : penv :=
  if decide (st_of e ≠ active) then e
  else send_cmd (CHiccup q)
         (set_pipe (λ p, with_active true (pi_out_active p) (with_in_pipe q p)) (put_up q up_new e)).

(** ** Commands *)

Definition process_activate_read (e : penv) : penv :=
  let p := pe_pipe e in
  if negb (pi_in_active p) && bool_decide (pi_state p = active ∨ pi_state p = waiting_for_delimiter)
  then sink EReadActivated (set_pipe (with_active true (pi_out_active p)) e)
  else e.

Definition process_activate_write (n : Z) (e : penv) : penv :=
  let e := set_pipe (λ p, with_counts (pi_msgs_read p) (pi_msgs_written p) n p) e in
  let p := pe_pipe e in
  if negb (pi_out_active p) && bool_decide (pi_state p = active)
  then sink EWriteActivated (set_pipe (with_active (pi_in_active p) true) e)
  else e.

(** Read and close everything in a queue; [count] for what a message does to the
    counters. *)
Fixpoint drain (fuel : nat) (count : msg_t → pipe_t → pipe_t) (q : nat) (e : penv) : outcome penv :=
  match fuel with
  | O => Undef
  | S fuel =>
      u ← get_up e q;
      match up_read u with
      | (None, u) => Done (put_up q u e)
      | (Some m, u) => drain fuel count q (close_msg m (set_pipe (count m) (put_up q u e)))
      end
  end.

Definition uncount_written (m : msg_t) (p : pipe_t) : pipe_t :=
  with_counts (pi_msgs_read p)
    (if has_flag m msg_more then pi_msgs_written p else u64 (pi_msgs_written p - 1)) (pi_peers_msgs_read p) p.

Definition process_hiccup (q : nat) (e : penv) : outcome penv :=
  match pi_out_pipe (pe_pipe e) with
  | None => Abort
  | Some old =>
      u ← get_up e old;
      let u := (up_flush u).2 in
      e ← drain (S (length (sp_flushed u))) uncount_written old (put_up old u e);
      let e := set_ups (delete old) e in
      let e := set_pipe (λ p, with_active (pi_in_active p) true (with_out_pipe (Some q) p)) e in
      Done (if decide (st_of e = active) then sink EHiccuped e else e)
  end.

Definition process_pipe_term (e : penv) : outcome penv :=
  match st_of e with
  | active =>
      if pi_delay (pe_pipe e) then Done (set_pipe (with_state waiting_for_delimiter) e)
      else Done (ack_peer (set_pipe (with_state term_ack_sent) e))
  | delimiter_received => Done (ack_peer (set_pipe (with_state term_ack_sent) e))
  | term_req_sent1 => Done (ack_peer (set_pipe (with_state term_req_sent2) e))
  | _ => Abort
  end.

(** The end is deallocated afterwards. *)
Definition process_pipe_term_ack (e : penv) : outcome penv :=
  let e := sink EPipeTerminated e in
  e ← match st_of e with
      | term_req_sent1 => Done (ack_peer e)
      | term_ack_sent | term_req_sent2 => Done e
      | _ => Abort
      end;
  let q := pi_in_pipe (pe_pipe e) in
  u ← get_up e q;
  e ← drain (S (length (sp_flushed u))) (λ _ p, p) q e;
  Done (set_ups (delete q) e).

(** ** The pair *)

Definition pipe_new (inpipe outpipe : nat) (inhwm outhwm : Z) : pipe_t :=
  Pipe inpipe (Some outpipe) true true outhwm (compute_lwm inhwm) (-1) (-1) 0 0 0 active true None.

(** The two ends, the queues, and the commands under way from left to right and
    from right to left; [sy_next] is the address of the next queue. *)
Record psys := PSys {
  sy_left : option pipe_t;
  sy_right : option pipe_t;
  sy_ups : gmap nat upipe;
  sy_lr : list pcmd;
  sy_rl : list pcmd;
  sy_next : nat;
}.

Definition pipepair (hwm0 hwm1 : Z) : psys :=
  PSys (Some (pipe_new 0 1 hwm1 hwm0)) (Some (pipe_new 1 0 hwm0 hwm1))
    {[0%nat := up_new; 1%nat := up_new]} [] [] 2.

Definition swap_sys (s : psys) : psys :=
  PSys (sy_right s) (sy_left s) (sy_ups s) (sy_rl s) (sy_lr s) (sy_next s).

(** What the user of an end, or its thread, can do. *)
Inductive uop :=
| URead | UCheckRead | UWrite (m : msg_t) | UCheckWrite | UFlush | URollback | UTerminate (delay : bool) | UHiccup | UNodelay
| USetHwms (i o : Z) | UBoost (i o : Z) | UDisconnect | USetDisconnect (m : msg_t) | UHiccupMsg (m : msg_t)
| USendHwms (i o : Z) | UProcess.

Definition user_op (next : nat) (op : uop) (e : penv) : outcome penv :=
  match op with
  | URead => '(_, e) ← pipe_read e; Done e
  | UCheckRead => '(_, e) ← pipe_check_read e; Done e
  | UWrite m => '(_, e) ← pipe_write m e; Done e
  | UCheckWrite => Done (pipe_check_write e).2
  | UFlush => pipe_flush e
  | URollback => pipe_rollback e
  | UTerminate d => pipe_terminate d e
  | UHiccup => Done (pipe_hiccup next e)
  | UNodelay => Done (set_pipe (with_delay false) e)
  | USetHwms i o => Done (set_pipe (pipe_set_hwms i o) e)
  | UBoost i o => Done (set_pipe (pipe_set_hwms_boost i o) e)
  | UDisconnect => pipe_send_disconnect_msg e
  | USetDisconnect m => Done (pipe_set_disconnect_msg m e)
  | UHiccupMsg m => pipe_send_hiccup_msg m e
  | USendHwms i o => Done (pipe_send_hwms_to_peer i o e)
  | UProcess => Done e
  end.

Definition process_cmd (c : pcmd) (e : penv) : outcome penv :=
  match c with
  | CActivateRead => Done (process_activate_read e)
  | CActivateWrite n => Done (process_activate_write n e)
  | CHiccup q => process_hiccup q e
  | CPipeTerm => process_pipe_term e
  | CPipeTermAck => process_pipe_term_ack e
  | CPipeHwm i o => Done (set_pipe (pipe_set_hwms i o) e)
  end.

Definition env_of (p : pipe_t) (s : psys) : penv := PEnv p (sy_ups s) [] [] [].

(** A step of the left end; [None] when there is nothing to do.  A command for an
    end that is gone is a use after free. *)
Definition left_step (s : psys) (op : uop) : outcome (option psys) :=
  match op with
  | UProcess =>
      match sy_rl s, sy_left s with
      | [], _ => Done None
      | _ :: _, None => Undef
      | c :: rl, Some p =>
          e ← process_cmd c (env_of p s);
          let left := match c with CPipeTermAck => None | _ => Some (pe_pipe e) end in
          Done (Some (PSys left (sy_right s) (pe_ups e) (sy_lr s ++ pe_sent e) rl (sy_next s)))
      end
  | _ =>
      match sy_left s with
      | None => Done None
      | Some p =>
          e ← user_op (sy_next s) op (env_of p s);
          Done (Some (PSys (Some (pe_pipe e)) (sy_right s) (pe_ups e) (sy_lr s ++ pe_sent e) (sy_rl s)
                        (match op with UHiccup => S (sy_next s) | _ => sy_next s end)))
      end
  end.

Definition sys_step (s : psys) (on_left : bool) (op : uop) : outcome (option psys) :=
  if on_left then left_step s op else option_map swap_sys <$> left_step (swap_sys s) op.

(** ** Invariant *)

Inductive tk := TT | TK.

(** The termination commands, and the hiccups, of a channel. *)
Fixpoint tks (l : list pcmd) : list tk :=
  match l with
  | [] => []
  | CPipeTerm :: l => TT :: tks l
  | CPipeTermAck :: l => TK :: tks l
  | _ :: l => tks l
  end.
Fixpoint hiccups (l : list pcmd) : list nat :=
  match l with [] => [] | CHiccup q :: l => q :: hiccups l | _ :: l => hiccups l end.

(** Nothing follows an acknowledgement, and no hiccup a request. *)
Fixpoint chan_ok (l : list pcmd) : Prop :=
  match l with
  | [] => True
  | CPipeTermAck :: l => l = []
  | CPipeTerm :: l => hiccups l = [] ∧ chan_ok l
  | _ :: l => chan_ok l
  end.

(** How far the two ends are, with the termination commands under way. *)
Inductive phase0 : option pstate → option pstate → list tk → list tk → Prop :=
| ph_idle : phase0 (Some active) (Some active) [] []
| ph_req : phase0 (Some term_req_sent1) (Some active) [TT] []
| ph_req_delim : phase0 (Some term_req_sent1) (Some delimiter_received) [TT] []
| ph_wait : phase0 (Some term_req_sent1) (Some waiting_for_delimiter) [] []
| ph_ack : phase0 (Some term_req_sent1) (Some term_ack_sent) [] [TK]
| ph_last : phase0 None (Some term_ack_sent) [TK] []
| ph_done : phase0 None None [] []
| ph_both : phase0 (Some term_req_sent1) (Some term_req_sent1) [TT] [TT]
| ph_cross : phase0 (Some term_req_sent2) (Some term_req_sent1) [TT; TK] []
| ph_cross_ack : phase0 (Some term_req_sent2) (Some term_req_sent2) [TK] [TK]
| ph_cross_last : phase0 None (Some term_req_sent2) [TK] [].

Definition phase a b l r : Prop := phase0 a b l r ∨ phase0 b a r l.

Definition out_ptr (x : option pipe_t) : option nat := x ≫= pi_out_pipe.
Definition state_of (x : option pipe_t) : option pstate := pi_state <$> x.

(** The queues from [x] to [y]: the one [x] writes to, and those [y] replaced it
    with that [x] does not know of yet. *)
Definition chain (x y : option pipe_t) (cyx : list pcmd) : list nat :=
  match out_ptr x with
  | Some q => q :: hiccups cyx
  | None => match y with Some y => [pi_in_pipe y] | None => [] end
  end.

Abbreviation no_delim := (λ m, is_delimiter m = false).
Abbreviation is_more := (λ m, has_flag m msg_more = true).

Definition keeps_out (st : option pstate) : Prop :=
  st = Some active ∨ st = Some delimiter_received ∨ st = Some waiting_for_delimiter ∨ st = Some term_req_sent1.

Record dir_ok (x y : option pipe_t) (cxy cyx : list pcmd) (ups : gmap nat upipe) : Prop := {
  dir_last : match y with Some y' => last (chain x y cyx) = Some (pi_in_pipe y') | None => out_ptr x = None end;
  dir_out : is_Some (out_ptr x) ↔ keeps_out (state_of x);
  dir_hiccups : ¬ (state_of x = Some active ∨ state_of x = Some delimiter_received ∨ state_of x = Some term_req_sent1) →
    hiccups cyx = [];
  dir_chan : chan_ok cxy;
  dir_dead : y = None → cxy = [];
  dir_nodelim : state_of x = Some active ∨ state_of x = Some delimiter_received →
    ∀ q u, q ∈ chain x y cyx → ups !! q = Some u → Forall no_delim (sp_all u);
  dir_disc : ∀ p m, x = Some p → pi_disconnect_msg p = Some m → is_delimiter m = false;
}.

Definition chains (s : psys) : list nat :=
  chain (sy_left s) (sy_right s) (sy_rl s) ++ chain (sy_right s) (sy_left s) (sy_lr s).

Record sys_inv (s : psys) : Prop := {
  sys_phase : phase (state_of (sy_left s)) (state_of (sy_right s)) (tks (sy_lr s)) (tks (sy_rl s));
  sys_lr_ok : dir_ok (sy_left s) (sy_right s) (sy_lr s) (sy_rl s) (sy_ups s);
  sys_rl_ok : dir_ok (sy_right s) (sy_left s) (sy_rl s) (sy_lr s) (sy_ups s);
  sys_nodup : NoDup (chains s);
  sys_dom : ∀ q, is_Some (sy_ups s !! q) ↔ q ∈ chains s;
  sys_fresh : ∀ q, q ∈ chains s → (q < sy_next s)%nat;
  sys_more : ∀ q u, sy_ups s !! q = Some u → Forall is_more (sp_incomplete u);
}.

Lemma sys_inv_swap s : sys_inv s → sys_inv (swap_sys s).
Proof.
  assert (Hc : chains (swap_sys s) ≡ₚ chains s) by (unfold chains; simpl; apply Permutation_app_comm).
  intros [H1 H2 H3 H4 H5 H6 H7]. split; [|exact H3|exact H2| | | |exact H7].
  - unfold phase in *. simpl. tauto.
  - by rewrite Hc.
  - intros q. by rewrite Hc.
  - intros q. rewrite Hc. apply H6.
Qed.

(** ** What the operations of one end do to the queues *)

(** The queues stay, incomplete parts keep their flag, and only into [w] may a
    delimiter be written. *)
Record data_step (w : option nat) (ups ups' : gmap nat upipe) : Prop := {
  ds_dom : ∀ q, is_Some (ups' !! q) ↔ is_Some (ups !! q);
  ds_more : ∀ q u u', ups !! q = Some u → ups' !! q = Some u' →
    Forall is_more (sp_incomplete u) → Forall is_more (sp_incomplete u');
  ds_nodelim : ∀ q u u', ups !! q = Some u → ups' !! q = Some u' → w ≠ Some q →
    Forall no_delim (sp_all u) → Forall no_delim (sp_all u');
}.

#[export] Instance data_step_PreOrder w : PreOrder (data_step w).
Proof.
  split.
  - intros ups. split; [done|..]; intros; simplify_eq; done.
  - intros a b c [A1 A2 A3] [B1 B2 B3]. split.
    + intros q. by rewrite B1.
    + intros q u u' Hu Hu' Hm. destruct (proj2 (A1 q) (mk_is_Some _ _ Hu)) as [v Hv]. eauto.
    + intros q u u' Hu Hu' Hw Hm. destruct (proj2 (A1 q) (mk_is_Some _ _ Hu)) as [v Hv]. eauto.
Qed.

Lemma data_step_weaken w ups ups' : data_step None ups ups' → data_step w ups ups'.
Proof. intros [H1 H2 H3]. split; [done|done|]. intros q u u' Hu Hu' _. by apply (H3 q). Qed.

Lemma data_step_put w ups q u u' :
  ups !! q = Some u → (Forall is_more (sp_incomplete u) → Forall is_more (sp_incomplete u')) →
  (w ≠ Some q → Forall no_delim (sp_all u) → Forall no_delim (sp_all u')) → data_step w ups (<[q := u']> ups).
Proof.
  intros Hu Hm Hd. split; intros q'; (destruct (decide (q' = q)) as [->|Hq]; [rewrite lookup_insert_eq|rewrite lookup_insert_ne by done]).
  - split; intros _; eauto.
  - done.
  - intros v v' Hv [= <-]. by simplify_eq.
  - intros v v' Hv Hv'. by simplify_eq.
  - intros v v' Hv [= <-]. by simplify_eq.
  - intros v v' Hv Hv'. by simplify_eq.
Qed.

Definition env_ok (e : penv) : Prop :=
  is_Some (pe_ups e !! pi_in_pipe (pe_pipe e)) ∧ (∀ q, pi_out_pipe (pe_pipe e) = Some q → is_Some (pe_ups e !! q))
  ∧ ∀ q u, pe_ups e !! q = Some u → Forall is_more (sp_incomplete u).

Lemma env_ok_step w e e' :
  env_ok e → data_step w (pe_ups e) (pe_ups e') → pi_in_pipe (pe_pipe e') = pi_in_pipe (pe_pipe e) →
  (∀ q, pi_out_pipe (pe_pipe e') = Some q → pi_out_pipe (pe_pipe e) = Some q) → env_ok e'.
Proof.
  intros (H1 & H2 & H3) [D1 D2 _] Hi Ho. split; [|split].
  - rewrite Hi. by apply D1.
  - intros q Hq. apply D1. auto.
  - intros q u' Hu'. destruct (proj1 (D1 q) (mk_is_Some _ _ Hu')) as [u Hu]. eauto.
Qed.

Lemma list_last_case {A} (l : list A) : l = [] ∨ ∃ l' x, l = l' ++ [x].
Proof. destruct l as [|x l _] using rev_ind; [by left|right; eauto]. Qed.

Lemma get_up_done e q u : pe_ups e !! q = Some u → get_up e q = Done u.
Proof. unfold get_up. by intros ->. Qed.

Lemma rollback_loop_spec fuel q e u :
  pe_ups e !! q = Some u → Forall is_more (sp_incomplete u) → (length (sp_incomplete u) < fuel)%nat →
  ∃ e', rollback_loop fuel q e = Done e' ∧ pe_pipe e' = pe_pipe e ∧ pe_sent e' = pe_sent e
    ∧ data_step None (pe_ups e) (pe_ups e')
    ∧ pe_ups e' = <[q := Spec (sp_flushed u) (sp_complete u) [] (sp_asleep u)]> (pe_ups e).
Proof.
  revert e u. induction fuel as [|fuel IH]; intros e u Hu Hm Hf; [lia|]. cbn [rollback_loop].
  rewrite (get_up_done e q u Hu), bind_Done. unfold up_unwrite, spec_unwrite.
  destruct (list_last_case (sp_incomplete u)) as [Hi|(ms & m & Hi)]; rewrite Hi in *.
  - simpl. eexists. split; [done|]. split; [done|]. split; [done|]. simpl. split.
    + by apply (data_step_put _ _ _ u).
    + destruct u; simpl in *. by subst.
  - rewrite last_snoc. apply Forall_app in Hm as [Hm Hm1]. inversion Hm1 as [|? ? Hmm _]; subst.
    rewrite Hmm, slk_assert_true, bind_Done by done. rewrite length_app in Hf. simpl in Hf.
    replace (length (ms ++ [m]) - 1)%nat with (length ms) by (rewrite length_app; simpl; lia). rewrite take_app_length.
    set (u1 := Spec (sp_flushed u) (sp_complete u) ms (sp_asleep u)).
    destruct (IH (close_msg m (put_up q u1 e)) u1) as (e' & Hr & Hp & Hs & Hd & Hl); [simpl; by rewrite lookup_insert_eq|done|simpl; lia|].
    exists e'. split; [done|]. split; [done|]. split; [done|].
    split; [|rewrite Hl; simpl; by rewrite insert_insert_eq]. etransitivity; [|exact Hd]. simpl.
    apply (data_step_put _ _ _ u); [done|done|]. intros _. unfold sp_all, u1. rewrite Hi, !Forall_app. simpl. tauto.
Qed.

Lemma pipe_rollback_spec e :
  env_ok e →
  ∃ e', pipe_rollback e = Done e' ∧ pe_pipe e' = pe_pipe e ∧ pe_sent e' = pe_sent e ∧ data_step None (pe_ups e) (pe_ups e').
Proof.
  intros (_ & Ho & Hm). unfold pipe_rollback. destruct (pi_out_pipe (pe_pipe e)) as [q|]; [|by exists e].
  destruct (Ho q eq_refl) as [u Hu]. rewrite (get_up_done e q u Hu), bind_Done.
  destruct (rollback_loop_spec (S (length (sp_incomplete u))) q e u) as (e' & ? & ? & ? & ? & _); [done|by eapply Hm|lia|]. by exists e'.
Qed.

Lemma up_flush_all u : sp_all (up_flush u).2 = sp_all u ∧ sp_incomplete (up_flush u).2 = sp_incomplete u.
Proof. destruct u as [fl [|m co] inc asl]; [done|]. unfold up_flush, sp_all. simpl. by rewrite <- app_assoc. Qed.

Lemma pipe_flush_spec e :
  env_ok e →
  ∃ e' l, pipe_flush e = Done e' ∧ pe_pipe e' = pe_pipe e ∧ pe_sent e' = pe_sent e ++ l
    ∧ (l = [] ∨ l = [CActivateRead] ∧ is_Some (pi_out_pipe (pe_pipe e))) ∧ data_step None (pe_ups e) (pe_ups e').
Proof.
  intros (_ & Ho & Hm). unfold pipe_flush. destruct (decide _).
  { exists e, []. rewrite app_nil_r. split_and!; try done. by left. }
  destruct (pi_out_pipe (pe_pipe e)) as [q|] eqn:Hq; [|exists e, []; rewrite app_nil_r; split_and!; try done; by left].
  destruct (Ho q eq_refl) as [u Hu]. rewrite (get_up_done e q u Hu), bind_Done.
  destruct (up_flush_all u) as [Ha Hi]. destruct (up_flush u) as [[] u'] eqn:Hf; simpl in Ha, Hi.
  - eexists _, []. split; [done|]. simpl. rewrite app_nil_r. split_and!; try done; [by left|].
    apply (data_step_put _ _ _ u); [done|by rewrite Hi|by rewrite Ha].
  - eexists _, [CActivateRead]. split; [done|]. simpl. split_and!; try done; [right; eauto|].
    apply (data_step_put _ _ _ u); [done|by rewrite Hi|by rewrite Ha].
Qed.

(** Commands that may be sent at any time while the peer lives. *)
Definition plain_cmd (c : pcmd) : Prop :=
  match c with CActivateRead | CActivateWrite _ | CPipeHwm _ _ => True | _ => False end.

Definition disc_ok (p : pipe_t) : Prop := ∀ m, pi_disconnect_msg p = Some m → is_delimiter m = false.

(** Operations that leave the handshake alone. *)
Record quiet (w : option nat) (e e' : penv) : Prop := {
  qu_state : st_of e' = st_of e;
  qu_in : pi_in_pipe (pe_pipe e') = pi_in_pipe (pe_pipe e);
  qu_out : pi_out_pipe (pe_pipe e') = pi_out_pipe (pe_pipe e);
  qu_disc : disc_ok (pe_pipe e) → disc_ok (pe_pipe e');
  qu_sent : ∃ l, pe_sent e' = pe_sent e ++ l ∧ Forall plain_cmd l ∧ (l = [] ∨ is_Some (pi_out_pipe (pe_pipe e)));
  qu_data : data_step w (pe_ups e) (pe_ups e');
}.

#[export] Instance quiet_PreOrder w : PreOrder (quiet w).
Proof.
  split.
  - intros e. split; try done. exists []. rewrite app_nil_r. split_and!; [done|constructor|by left].
  - intros a b c [A1 A2 A3 A4 (l & A5 & A6 & A7) A8] [B1 B2 B3 B4 (l' & B5 & B6 & B7) B8].
    split; try congruence; [auto| |by etransitivity]. exists (l ++ l'). rewrite B5, A5, <- app_assoc, A3 in *.
    split_and!; [done|by apply Forall_app|]. destruct A7 as [->|A7]; [|by right]. simpl. done.
Qed.

(** The end changed in fields the handshake does not use. *)
Lemma quiet_pipe w e f :
  pi_state (f (pe_pipe e)) = st_of e → pi_in_pipe (f (pe_pipe e)) = pi_in_pipe (pe_pipe e) →
  pi_out_pipe (f (pe_pipe e)) = pi_out_pipe (pe_pipe e) → (disc_ok (pe_pipe e) → disc_ok (f (pe_pipe e))) →
  quiet w e (set_pipe f e).
Proof. intros. split; try done. exists []. rewrite app_nil_r. split_and!; [done|constructor|by left]. Qed.

Lemma quiet_data w e e' :
  pe_pipe e' = pe_pipe e → pe_sent e' = pe_sent e → data_step w (pe_ups e) (pe_ups e') → quiet w e e'.
Proof.
  intros Hp Hs Hd. split; try (by rewrite Hp); try done. exists []. rewrite app_nil_r. split_and!; [done|constructor|by left].
Qed.

Lemma quiet_send w e c : plain_cmd c → is_Some (pi_out_pipe (pe_pipe e)) → quiet w e (send_cmd c e).
Proof. intros Hc Ho. split; try done. exists [c]. split_and!; [done|by repeat constructor|by right]. Qed.

Lemma quiet_weaken w e e' : quiet None e e' → quiet w e e'.
Proof. intros []. split; try done. by apply data_step_weaken. Qed.

Lemma quiet_env_ok w e e' : quiet w e e' → env_ok e → env_ok e'.
Proof. intros [] Hok. eapply env_ok_step; [done|done|done|congruence]. Qed.

Lemma rollback_quiet e : env_ok e → ∃ e', pipe_rollback e = Done e' ∧ quiet None e e' ∧ pe_pipe e' = pe_pipe e.
Proof.
  intros Hok. destruct (pipe_rollback_spec e Hok) as (e' & ? & ? & ? & ?). exists e'. split; [done|]. split; [|done].
  by apply quiet_data.
Qed.

Lemma flush_quiet e : env_ok e → ∃ e', pipe_flush e = Done e' ∧ quiet None e e' ∧ pe_pipe e' = pe_pipe e.
Proof.
  intros Hok. destruct (pipe_flush_spec e Hok) as (e' & l & ? & Hp & Hs & Hl & ?). exists e'. split; [done|]. split; [|done].
  split; try (by rewrite Hp); try done. exists l. split; [done|]. destruct Hl as [->|[-> ?]]; split; auto; by repeat constructor.
Qed.

Lemma up_write_data w ups q u m inc :
  ups !! q = Some u → (inc = true → is_more m) → (w ≠ Some q → is_delimiter m = false) →
  data_step w ups (<[q := up_write u m inc]> ups).
Proof.
  intros Hu Hm Hd. apply (data_step_put _ _ _ u); [done|..]; unfold up_write, spec_write; destruct inc; simpl.
  - intros. apply Forall_app. split; [done|]. repeat constructor. auto.
  - constructor.
  - intros Hw. unfold sp_all. simpl. rewrite !Forall_app. intros (? & ? & ?). split_and!; try done. repeat constructor. auto.
  - intros Hw. unfold sp_all. simpl. rewrite !Forall_app. intros (? & ? & ?). split_and!; try done; repeat constructor; auto.
Qed.

Lemma write_out_quiet w m q e :
  env_ok e → pi_out_pipe (pe_pipe e) = Some q → (w ≠ Some q → is_delimiter m = false) →
  ∃ e', write_out m q e = Done e' ∧ quiet w e e' ∧ pe_pipe e' = pe_pipe e.
Proof.
  intros Hok Hq Hd. pose proof Hok as (_ & Ho & _). destruct (Ho q Hq) as [u Hu].
  unfold write_out. rewrite (get_up_done e q u Hu), bind_Done. set (e1 := put_up q _ e).
  assert (Hq1 : quiet w e e1) by (apply quiet_data; [done|done|]; by apply up_write_data).
  destruct (flush_quiet e1) as (e' & -> & Hq2 & Hp); [by eapply quiet_env_ok|].
  exists e'. split; [done|]. split; [|done]. etransitivity; [exact Hq1|by apply quiet_weaken].
Qed.

Lemma write_quiet m e :
  env_ok e → is_delimiter m = false → (st_of e = active → is_Some (pi_out_pipe (pe_pipe e))) →
  ∃ b e', pipe_write m e = Done (b, e') ∧ quiet None e e'.
Proof.
  intros Hok Hd Hout. unfold pipe_write, pipe_check_write.
  destruct (negb (pi_out_active (pe_pipe e)) || negb (bool_decide (pi_state (pe_pipe e) = active))) eqn:Hw.
  { by eexists _, _. }
  destruct (negb (pipe_check_hwm (pe_pipe e))); simpl.
  { eexists _, _. split; [done|]. by apply quiet_pipe. }
  apply orb_false_iff in Hw as [_ Hst%negb_false_iff%bool_decide_eq_true]. destruct (Hout Hst) as [q Hq].
  unfold out_of. rewrite Hq, bind_Done. destruct Hok as (_ & Ho & _). destruct (Ho q Hq) as [u Hu].
  rewrite (get_up_done e q u Hu), bind_Done. eexists _, _. split; [done|].
  etransitivity; [|by apply quiet_pipe]. apply quiet_data; [done|done|]. simpl. by apply up_write_data.
Qed.

Lemma send_disconnect_quiet e :
  env_ok e → disc_ok (pe_pipe e) → ∃ e', pipe_send_disconnect_msg e = Done e' ∧ quiet None e e'.
Proof.
  intros Hok Hd. unfold pipe_send_disconnect_msg. destruct (pi_disconnect_msg (pe_pipe e)) as [m|] eqn:Hm; [|by exists e].
  destruct (pi_out_pipe (pe_pipe e)) as [q|] eqn:Hq; [|by exists e].
  destruct (rollback_quiet e Hok) as (e1 & -> & Hq1 & Hp1). rewrite bind_Done.
  destruct (write_out_quiet None m q e1) as (e2 & -> & Hq2 & Hp2); [by eapply quiet_env_ok|congruence|intros _; by apply Hd|].
  rewrite bind_Done. eexists. split; [done|]. do 2 (etransitivity; [done|]). by apply quiet_pipe.
Qed.

Lemma up_read_cases u :
  (sp_flushed u = [] ∧ up_read u = (None, Spec [] (sp_complete u) (sp_incomplete u) true))
  ∨ ∃ m fl, sp_flushed u = m :: fl ∧ up_read u = (Some m, Spec fl (sp_complete u) (sp_incomplete u) (sp_asleep u)).
Proof. destruct u as [[|m fl] co inc asl]; [by left|right; eauto]. Qed.

Lemma up_read_data w ups q u : ups !! q = Some u → data_step w ups (<[q := (up_read u).2]> ups).
Proof.
  intros Hu. apply (data_step_put _ _ _ u); [done|..];
    destruct (up_read_cases u) as [[Hf ->]|(m & fl & Hf & ->)]; simpl; try done; intros _; unfold sp_all; rewrite Hf; simpl; [done|].
  by intros ?%Forall_cons_1%proj2.
Qed.

Lemma read_loop_spec fuel q e u :
  pe_ups e !! q = Some u → (length (sp_flushed u) < fuel)%nat →
  ∃ r e', read_loop fuel q e = Done (r, e') ∧ quiet None e e' ∧ pe_pipe e' = pe_pipe e
    ∧ ∀ m, r = Some m → m ∈ sp_flushed u.
Proof.
  revert e u. induction fuel as [|fuel IH]; intros e u Hu Hf; [lia|]. cbn [read_loop].
  rewrite (get_up_done e q u Hu), bind_Done. pose proof (up_read_data None (pe_ups e) q u Hu) as Hd.
  destruct (up_read_cases u) as [[Hfl Hr]|(m & fl & Hfl & Hr)]; rewrite Hr in *; simpl in Hd.
  - eexists _, _. split; [done|]. split; [by apply quiet_data|]. done.
  - destruct (is_credential m).
    + set (u1 := Spec fl _ _ _) in *.
      destruct (IH (close_msg m (put_up q u1 e)) u1) as (r & e' & ? & Hq & ? & Hm);
        [simpl; by rewrite lookup_insert_eq|simpl; rewrite Hfl in Hf; simpl in Hf; lia|].
      exists r, e'. split; [done|]. split; [etransitivity; [|exact Hq]; by apply quiet_data|]. split; [done|].
      intros m' Hm'. rewrite Hfl. right. by apply Hm.
    + eexists _, _. split; [done|]. split; [by apply quiet_data|]. split; [done|]. intros m' [= <-]. rewrite Hfl. by left.
Qed.

(** A delimiter is waiting in the queue of an end that may still read. *)
Definition delim_read (e e1 : penv) : Prop :=
  quiet None e e1 ∧ (st_of e = active ∨ st_of e = waiting_for_delimiter)
  ∧ ∃ u, pe_ups e !! pi_in_pipe (pe_pipe e) = Some u ∧ ¬ Forall no_delim (sp_all u).

Lemma has_delim (u : upipe) m : m ∈ sp_flushed u → is_delimiter m = true → ¬ Forall no_delim (sp_all u).
Proof.
  intros Hm Hd. unfold sp_all. rewrite Forall_app, Forall_forall. intros [H _]. specialize (H m Hm). simpl in H. congruence.
Qed.

Lemma can_read_spec p : can_read p = true → pi_state p = active ∨ pi_state p = waiting_for_delimiter.
Proof. unfold can_read. by intros [_ ?%bool_decide_eq_true]%andb_true_iff. Qed.

Lemma read_spec e :
  env_ok e → (st_of e = active ∨ st_of e = waiting_for_delimiter → is_Some (pi_out_pipe (pe_pipe e))) →
  (∃ r e', pipe_read e = Done (r, e') ∧ quiet None e e')
  ∨ ∃ e1, delim_read e e1 ∧ pipe_read e = (e' ← process_delimiter e1; Done (None, e')).
Proof.
  intros Hok Hout. unfold pipe_read. destruct (can_read (pe_pipe e)) eqn:Hc; cbn [negb]; [|left; by eexists _, _].
  apply can_read_spec in Hc. pose proof Hok as ([u Hu] & _ & _). rewrite (get_up_done _ _ u Hu), bind_Done.
  destruct (read_loop_spec (S (length (sp_flushed u))) (pi_in_pipe (pe_pipe e)) e u Hu) as (r & e1 & -> & Hq & Hp & Hm); [lia|].
  rewrite bind_Done. destruct r as [m|]; [|left; eexists _, _; split; [done|]; etransitivity; [done|]; by apply quiet_pipe].
  destruct (is_delimiter m) eqn:Hd.
  - right. exists e1. split; [|done]. split; [done|]. split; [done|]. exists u. split; [done|]. eapply has_delim; [by apply Hm|done].
  - left. eexists _, _. split; [done|]. etransitivity; [exact Hq|].
    assert (Hq1 : quiet None e1 (set_pipe (count_read m) e1)) by (by apply quiet_pipe).
    destruct (decide _); [|done]. etransitivity; [exact Hq1|]. apply quiet_send; [done|]. simpl. rewrite Hp. auto.
Qed.

Lemma check_read_spec e :
  env_ok e →
  (∃ r e', pipe_check_read e = Done (r, e') ∧ quiet None e e')
  ∨ ∃ e1, delim_read e e1 ∧ pipe_check_read e = (e' ← process_delimiter e1; Done (false, e')).
Proof.
  intros Hok. unfold pipe_check_read. destruct (can_read (pe_pipe e)) eqn:Hc; simpl; [|left; by eexists _, _].
  apply can_read_spec in Hc. pose proof Hok as ([u Hu] & _ & _). rewrite (get_up_done _ _ u Hu), bind_Done.
  unfold up_check_read, spec_check_read. destruct (sp_flushed u) as [|m fl] eqn:Hfl; simpl.
  - left. eexists _, _. split; [done|]. etransitivity; [|by apply quiet_pipe]. apply quiet_data; [done|done|].
    pose proof (up_read_data None (pe_ups e) _ u Hu) as Hd. destruct (up_read_cases u) as [[_ Hr]|(? & ? & ? & _)]; [|congruence].
    by rewrite Hr in Hd.
  - unfold up_probe. rewrite Hfl, bind_Done. set (e0 := put_up _ u e).
    assert (Hq0 : quiet None e e0) by (apply quiet_data; [done|done|]; by apply (data_step_put _ _ _ u)).
    destruct (is_delimiter m) eqn:Hd; [|left; eexists _, _; done].
    right. destruct (up_read_cases u) as [[? _]|(m' & fl' & Hfl' & Hr)]; [congruence|]. rewrite Hr, slk_assert_bind by done.
    eexists. split; [|done]. split; [|split; [done|exists u; split; [done|]]].
    + etransitivity; [exact Hq0|]. apply quiet_data; [done|done|]. simpl.
      pose proof (up_read_data None (pe_ups e0) (pi_in_pipe (pe_pipe e)) u) as Hd'. rewrite Hr in Hd'. apply Hd'.
      simpl. by rewrite lookup_insert_eq.
    + eapply has_delim; [rewrite Hfl; by left|done].
Qed.

Lemma process_delimiter_spec e :
  env_ok e → st_of e = active ∨ st_of e = waiting_for_delimiter →
  (st_of e = active ∧ process_delimiter e = Done (set_pipe (with_state delimiter_received) e))
  ∨ (st_of e = waiting_for_delimiter ∧ ∃ e1, quiet None e e1
     ∧ process_delimiter e = Done (set_pipe (with_state term_ack_sent) (ack_peer e1))).
Proof.
  intros Hok [Hst|Hst]; unfold process_delimiter; rewrite Hst; [by left|right]. split; [done|].
  destruct (rollback_quiet e Hok) as (e1 & -> & Hq & _). by exists e1.
Qed.

Lemma terminate_spec d e :
  env_ok e → (st_of e = active ∨ st_of e = delimiter_received ∨ st_of e = waiting_for_delimiter → is_Some (pi_out_pipe (pe_pipe e))) →
  ∃ e', pipe_terminate d e = Done e' ∧
    match st_of e with
    | active | delimiter_received =>
        ∃ e1, quiet None e e1 ∧ quiet (pi_out_pipe (pe_pipe e)) (set_pipe (with_state term_req_sent1) (send_cmd CPipeTerm e1)) e'
    | waiting_for_delimiter =>
        quiet (pi_out_pipe (pe_pipe e)) e e'
        ∨ ∃ e1, quiet None e e1 ∧ quiet None (set_pipe (with_state term_ack_sent) (ack_peer e1)) e'
    | _ => quiet None e e'
    end.
Proof.
  intros Hok Hout. unfold pipe_terminate. set (e0 := set_pipe (with_delay d) e).
  assert (Hq0 : quiet None e e0) by (by apply quiet_pipe). pose proof (quiet_env_ok _ _ _ Hq0 Hok) as Hok0.
  assert (Hdelim : ∀ e1 w, env_ok e1 → w = pi_out_pipe (pe_pipe e1) → ∃ e2,
    (let e := set_pipe (λ p, with_active (pi_in_active p) false p) e1 in
     match pi_out_pipe (pe_pipe e) with
     | None => Done e
     | Some q => e ← pipe_rollback e; write_out msg_init_delimiter q e
     end) = Done e2 ∧ quiet w e1 e2).
  { intros e1 w Hok1 ->. set (e2 := set_pipe _ e1). assert (Hq2 : ∀ w, quiet w e1 e2) by (intros; by apply quiet_pipe).
    simpl. destruct (pi_out_pipe (pe_pipe e1)) as [q|] eqn:Hq; [|by exists e2].
    destruct (rollback_quiet e2) as (e3 & -> & Hq3 & Hp3); [by eapply (quiet_env_ok None)|]. rewrite bind_Done.
    destruct (write_out_quiet (Some q) msg_init_delimiter q e3) as (e4 & -> & Hq4 & _); [|by rewrite Hp3|done|].
    - eapply quiet_env_ok; [exact Hq3|]. by eapply (quiet_env_ok None).
    - exists e4. split; [done|]. etransitivity; [apply Hq2|]. etransitivity; [by apply quiet_weaken|done]. }
  change (st_of e0) with (st_of e). destruct (st_of e) eqn:Hst; try (exists e0; done).
  - destruct (Hdelim (set_pipe (with_state term_req_sent1) (send_cmd CPipeTerm e0)) (pi_out_pipe (pe_pipe e))) as (e2 & Hr & Hq2);
      [exact Hok0|done|]. exists e2. split; [exact Hr|]. by exists e0.
  - destruct (Hdelim (set_pipe (with_state term_req_sent1) (send_cmd CPipeTerm e0)) (pi_out_pipe (pe_pipe e))) as (e2 & Hr & Hq2);
      [exact Hok0|done|]. exists e2. split; [exact Hr|]. by exists e0.
  - destruct d; simpl negb; cbv iota.
    + destruct (Hdelim e0 (pi_out_pipe (pe_pipe e))) as (e2 & Hr & Hq2); [done|done|]. exists e2. split; [exact Hr|]. left.
      etransitivity; [by apply quiet_weaken|done].
    + destruct (rollback_quiet e0 Hok0) as (e1 & -> & Hq1 & Hp1). rewrite !bind_Done. eexists. split; [done|]. right.
      exists e1. split; [by etransitivity|]. by apply quiet_pipe.
Qed.

Definition same_skeleton (f : pipe_t → pipe_t) : Prop :=
  ∀ p, pi_state (f p) = pi_state p ∧ pi_in_pipe (f p) = pi_in_pipe p ∧ pi_out_pipe (f p) = pi_out_pipe p
       ∧ pi_disconnect_msg (f p) = pi_disconnect_msg p.

Lemma drain_spec fuel count q e u :
  (∀ m, same_skeleton (count m)) → pe_ups e !! q = Some u → (length (sp_flushed u) < fuel)%nat →
  ∃ e', drain fuel count q e = Done e' ∧ quiet None e e' ∧ pe_sent e' = pe_sent e.
Proof.
  intros Hc. revert e u. induction fuel as [|fuel IH]; intros e u Hu Hf; [lia|]. cbn [drain].
  rewrite (get_up_done e q u Hu), bind_Done. pose proof (up_read_data None (pe_ups e) q u Hu) as Hd.
  destruct (up_read_cases u) as [[Hfl Hr]|(m & fl & Hfl & Hr)]; rewrite Hr in *; simpl in Hd.
  - eexists. split; [done|]. split; [by apply quiet_data|done].
  - set (u1 := Spec fl _ _ _) in *. set (e1 := close_msg m (set_pipe (count m) (put_up q u1 e))).
    destruct (IH e1 u1) as (e' & Hdr & Hq & Hs);
      [simpl; by rewrite lookup_insert_eq|simpl; rewrite Hfl in Hf; simpl in Hf; lia|].
    exists e'. split; [done|]. split; [|done]. etransitivity; [|exact Hq].
    destruct (Hc m (pe_pipe e)) as (H1 & H2 & H3 & H4).
    split; simpl; try done.
    + unfold disc_ok. by rewrite H4.
    + exists []. rewrite app_nil_r. split_and!; [done|constructor|by left].
Qed.

Lemma process_hiccup_spec q old e :
  env_ok e → pi_out_pipe (pe_pipe e) = Some old →
  ∃ e1 e', process_hiccup q e = Done e' ∧ quiet None e e1 ∧ pe_sent e1 = pe_sent e ∧ pe_sent e' = pe_sent e
    ∧ pe_ups e' = delete old (pe_ups e1) ∧ st_of e' = st_of e ∧ pi_in_pipe (pe_pipe e') = pi_in_pipe (pe_pipe e)
    ∧ pi_out_pipe (pe_pipe e') = Some q ∧ (disc_ok (pe_pipe e) → disc_ok (pe_pipe e')).
Proof.
  intros Hok Ho. unfold process_hiccup. rewrite Ho. pose proof Hok as (_ & Hout & _). destruct (Hout old Ho) as [u Hu].
  rewrite (get_up_done e old u Hu), bind_Done. destruct (up_flush_all u) as [Ha Hi]. set (u1 := (up_flush u).2) in *.
  assert (Hq0 : quiet None e (put_up old u1 e)).
  { apply quiet_data; [done|done|]. apply (data_step_put _ _ _ u); [done|by rewrite Hi|by rewrite Ha]. }
  destruct (drain_spec (S (length (sp_flushed u1))) uncount_written old (put_up old u1 e) u1) as (e1 & -> & Hq1 & Hs1);
    [done|simpl; by rewrite lookup_insert_eq|lia|]. rewrite bind_Done.
  assert (Hq : quiet None e e1) by (by etransitivity). exists e1. eexists. split; [done|]. split; [done|]. split; [done|].
  destruct Hq as [Q1 Q2 Q3 Q4 _ _]. destruct (decide _); simpl; split_and!; try done.
Qed.

Lemma process_pipe_term_ack_spec e :
  env_ok e → st_of e = term_req_sent1 ∨ st_of e = term_ack_sent ∨ st_of e = term_req_sent2 →
  ∃ ups1 e', process_pipe_term_ack e = Done e' ∧ data_step None (pe_ups e) ups1
    ∧ pe_ups e' = delete (pi_in_pipe (pe_pipe e)) ups1
    ∧ pe_sent e' = pe_sent e ++ (if decide (st_of e = term_req_sent1) then [CPipeTermAck] else []).
Proof.
  intros Hok Hst. unfold process_pipe_term_ack. pose proof Hok as ([u Hu] & _).
  assert (Hstep : ∃ e1, match st_of (sink EPipeTerminated e) with
      | term_req_sent1 => Done (ack_peer (sink EPipeTerminated e))
      | term_ack_sent | term_req_sent2 => Done (sink EPipeTerminated e)
      | _ => Abort
      end = Done e1 ∧ pe_ups e1 = pe_ups e ∧ pi_in_pipe (pe_pipe e1) = pi_in_pipe (pe_pipe e)
    ∧ pe_sent e1 = pe_sent e ++ (if decide (st_of e = term_req_sent1) then [CPipeTermAck] else [])).
  { simpl. destruct Hst as [->|[->| ->]]; eexists; (split; [done|]); simpl; rewrite ?app_nil_r; done. }
  destruct Hstep as (e1 & -> & Hups & Hin & Hs). rewrite bind_Done, Hin.
  rewrite (get_up_done e1 _ u), bind_Done by (by rewrite Hups).
  destruct (drain_spec (S (length (sp_flushed u))) (λ _ p, p) (pi_in_pipe (pe_pipe e)) e1 u) as (e2 & -> & Hq & Hs2);
    [done|by rewrite Hups|lia|]. rewrite bind_Done.
  exists (pe_ups e2). eexists. split; [done|]. split; [|split; [done|]].
  - rewrite <- Hups. apply Hq.
  - simpl. by rewrite Hs2.
Qed.

(** ** Channels *)

Lemma tks_app l l' : tks (l ++ l') = tks l ++ tks l'.
Proof. induction l as [|[] l IH]; simpl; by rewrite ?IH. Qed.

Lemma hiccups_app l l' : hiccups (l ++ l') = hiccups l ++ hiccups l'.
Proof. induction l as [|[] l IH]; simpl; by rewrite ?IH. Qed.

Lemma plain_tks l : Forall plain_cmd l → tks l = [] ∧ hiccups l = [] ∧ chan_ok l.
Proof. induction 1 as [|[] l Hc _ IH]; simpl; done || by destruct Hc. Qed.

Lemma chan_ok_app l l' :
  chan_ok l → chan_ok l' → TK ∉ tks l → (TT ∈ tks l → hiccups l' = []) → chan_ok (l ++ l').
Proof.
  intros Hl Hl' Hk Ht. induction l as [|[] l IH]; simpl in *; try (apply IH; by auto).
  - done.
  - destruct Hl as [Hh Hl]. split; [rewrite hiccups_app, Hh; apply Ht; by left|]. apply IH; [done|set_solver|].
    intros ?. apply Ht. by right.
  - set_solver.
Qed.

(** While an end can write, its peer lives, and it has not acknowledged. *)
Lemma phase_keeps_out a b l r :
  phase (Some a) b l r → keeps_out (Some a) → is_Some b ∧ TK ∉ l.
Proof.
  intros [H|H] Hk; inversion H; subst; try (by destruct Hk as [?|[?|[?|?]]]); (split; [by eexists|]); set_solver.
Qed.

(** ** Steps of the left end *)

Definition writes_data (st : pstate) : Prop := st = active ∨ st = delimiter_received.

Lemma dir_nodelim_state x y cxy cyx ups p :
  dir_ok x y cxy cyx ups → x = Some p → writes_data (pi_state p) →
  ∀ q u, q ∈ chain x y cyx → ups !! q = Some u → Forall no_delim (sp_all u).
Proof. intros H -> Hw. apply (dir_nodelim _ _ _ _ _ H). destruct Hw as [?|?]; [left|right]; simpl; by f_equal. Qed.

Lemma chains_disjoint s q :
  sys_inv s → q ∈ chain (sy_left s) (sy_right s) (sy_rl s) → q ∈ chain (sy_right s) (sy_left s) (sy_lr s) → False.
Proof. intros Hi H1 H2. apply (sys_nodup _) in Hi. apply NoDup_app in Hi as (_ & Hi & _). by eapply Hi. Qed.

Lemma chain_out p y c q : pi_out_pipe p = Some q → q ∈ chain (Some p) y c.
Proof. intros H. unfold chain. simpl. rewrite H. by left. Qed.

(** The end takes a step that leaves the queues to and from it in place. *)
Lemma sys_update s p p' w ups' l rl' :
  sys_inv s → sy_left s = Some p → data_step w (sy_ups s) ups' →
  phase (Some (pi_state p')) (state_of (sy_right s)) (tks (sy_lr s ++ l)) (tks rl') →
  pi_in_pipe p' = pi_in_pipe p → chain (Some p') (sy_right s) rl' = chain (Some p) (sy_right s) (sy_rl s) →
  (is_Some (pi_out_pipe p') ↔ keeps_out (Some (pi_state p'))) → hiccups l = [] →
  chan_ok (sy_lr s ++ l) → chan_ok rl' →
  (¬ (Some (pi_state p') = Some active ∨ Some (pi_state p') = Some delimiter_received ∨ Some (pi_state p') = Some term_req_sent1) →
   hiccups rl' = []) →
  (sy_right s = None → l = [] ∧ pi_out_pipe p' = None) →
  (w = None ∨ w = pi_out_pipe p) → (writes_data (pi_state p') → writes_data (pi_state p) ∧ w = None) → disc_ok p' →
  sys_inv (PSys (Some p') (sy_right s) ups' (sy_lr s ++ l) rl' (sy_next s)).
Proof.
  intros Hinv Hp Hd Hph Hin Hch Hout Hhl Hc1 Hc2 Hh Hdead Hw Hst Hdisc.
  pose proof Hinv as [H1 H2 H3 H4 H5 H6 H7]. rewrite Hp in *.
  assert (Hch2 : chain (sy_right s) (Some p') (sy_lr s ++ l) = chain (sy_right s) (Some p) (sy_lr s)).
  { unfold chain. rewrite hiccups_app, Hhl, app_nil_r, Hin. done. }
  assert (Hchs : chains (PSys (Some p') (sy_right s) ups' (sy_lr s ++ l) rl' (sy_next s)) = chains s).
  { unfold chains. simpl. by rewrite Hch, Hch2, Hp. }
  split; simpl; rewrite ?Hchs; try done.
  - split; simpl; try done.
    + destruct (sy_right s) as [y|] eqn:Hy; [|by apply Hdead]. rewrite Hch. apply (dir_last _ _ _ _ _ H2).
    + intros Hr. rewrite (dir_dead _ _ _ _ _ H2 Hr). by destruct (Hdead Hr) as [-> _].
    + intros Hsw q u'. rewrite Hch. intros Hq Hu'.
      destruct Hst as [Hsp ->]; [destruct Hsw as [[=]|[=]]; [by left|by right]|].
      destruct (proj1 (ds_dom _ _ _ Hd q) (mk_is_Some _ _ Hu')) as [u Hu].
      apply (ds_nodelim _ _ _ Hd q u u'); [done|done|done|]. by eapply (dir_nodelim_state _ _ _ _ _ p H2).
    + intros p0 m [= <-]. apply Hdisc.
  - split; simpl; try apply H3; rewrite ?Hch2, ?hiccups_app, ?Hhl, ?app_nil_r, ?Hin; try apply H3; try done.
    intros Hsw q u' Hq Hu'. destruct (proj1 (ds_dom _ _ _ Hd q) (mk_is_Some _ _ Hu')) as [u Hu].
    apply (ds_nodelim _ _ _ Hd q u u'); [done|done| |].
    + intros ->. destruct Hw as [[=]|Hw]. symmetry in Hw. apply (chains_disjoint s q Hinv); rewrite Hp; [by apply chain_out|done].
    + by eapply (dir_nodelim _ _ _ _ _ H3).
  - intros q. rewrite <- H5. apply (ds_dom _ _ _ Hd).
  - intros q u' Hu'. destruct (proj1 (ds_dom _ _ _ Hd q) (mk_is_Some _ _ Hu')) as [u Hu].
    apply (ds_more _ _ _ Hd q u u'); [done|done|by eapply H7].
Qed.

Lemma sys_env_ok s p : sys_inv s → sy_left s = Some p → env_ok (env_of p s).
Proof.
  intros Hinv Hp. pose proof Hinv as [H1 H2 H3 H4 H5 H6 H7]. split; [|split; [|done]]; simpl.
  - apply H5. unfold chains. apply elem_of_app. right. pose proof (dir_last _ _ _ _ _ H3) as Hl. rewrite Hp in *.
    by apply last_Some_elem_of.
  - intros q Hq. apply H5. unfold chains. apply elem_of_app. left. rewrite Hp. by apply chain_out.
Qed.

Lemma sys_out s p : sys_inv s → sy_left s = Some p → is_Some (pi_out_pipe p) ↔ keeps_out (Some (pi_state p)).
Proof. intros [_ [_ H2] _ _ _ _ _] Hp. rewrite Hp in H2. apply H2. Qed.

Lemma sys_disc s p : sys_inv s → sy_left s = Some p → disc_ok p.
Proof. intros [_ [] _ _ _ _ _] Hp m Hm. eauto. Qed.

(** The peer of an end that may write is there, and has not been acknowledged. *)
Lemma sys_peer s p :
  sys_inv s → sy_left s = Some p → is_Some (pi_out_pipe p) → is_Some (sy_right s) ∧ TK ∉ tks (sy_lr s).
Proof.
  intros Hinv Hp Ho. destruct Hinv as [H1 [_ H2 _ _ _ _ _] _ _ _ _ _]. rewrite Hp in *. apply H2 in Ho.
  destruct (phase_keeps_out _ _ _ _ H1 Ho) as [Hs Hk]. split; [|done].
  destruct (sy_right s); [by eexists|by destruct Hs].
Qed.

Lemma sys_dead s p : sys_inv s → sy_left s = Some p → sy_right s = None → pi_out_pipe p = None.
Proof. intros [_ [H _] _ _ _ _ _] Hp Hr. by rewrite Hp, Hr in H. Qed.

Lemma chan_ok_plain l l' : chan_ok l → TK ∉ tks l → Forall plain_cmd l' → chan_ok (l ++ l').
Proof. intros H1 H2 (? & ? & ?)%plain_tks. by apply chan_ok_app. Qed.

Lemma sys_quiet s p w e' :
  sys_inv s → sy_left s = Some p → quiet w (env_of p s) e' → (w = None ∨ w = pi_out_pipe p ∧ ¬ writes_data (pi_state p)) →
  sys_inv (PSys (Some (pe_pipe e')) (sy_right s) (pe_ups e') (sy_lr s ++ pe_sent e') (sy_rl s) (sy_next s)).
Proof.
  intros Hinv Hp [Q1 Q2 Q3 Q4 (l & Q5 & Q6 & Q7) Q8] Hw. simpl in *. rewrite Q5. clear Q5.
  destruct (plain_tks l Q6) as (Ht & Hh & _). pose proof Hinv as [H1 H2 H3 _ _ _ _].
  apply (sys_update s p (pe_pipe e') w); try done; rewrite ?Q1, ?Q3; try (by eapply sys_out); rewrite Hp in *.
  - by rewrite tks_app, Ht, app_nil_r.
  - unfold chain. simpl. by rewrite Q3.
  - destruct Q7 as [->|Ho]; [rewrite app_nil_r; apply H2|]. apply chan_ok_plain; [apply H2|by eapply sys_peer|done].
  - apply H3.
  - apply H2.
  - intros Hr. pose proof (sys_dead s p Hinv Hp Hr) as Hn. split; [|done]. destruct Q7 as [->|Ho]; [done|]. rewrite Hn in Ho. by destruct Ho.
  - destruct Hw as [->|[-> _]]; [by left|by right].
  - intros Hwr. split; [done|]. destruct Hw as [->|[_ Hn]]; [done|by destruct Hn].
  - apply Q4. by eapply sys_disc.
Qed.

(** The system when the left end is in the middle of an operation. *)
Definition after (s : psys) (rl : list pcmd) (e : penv) : psys :=
  PSys (Some (pe_pipe e)) (sy_right s) (pe_ups e) (sy_lr s ++ pe_sent e) rl (sy_next s).

Lemma after_start s p : sy_left s = Some p → after s (sy_rl s) (env_of p s) = s.
Proof. intros Hp. unfold after. simpl. rewrite app_nil_r, <- Hp. by destruct s. Qed.

Lemma after_quiet s rl w e e' :
  sys_inv (after s rl e) → quiet w e e' → (w = None ∨ w = pi_out_pipe (pe_pipe e) ∧ ¬ writes_data (st_of e)) →
  sys_inv (after s rl e').
Proof.
  intros Hinv Hq Hw. pose proof Hq as [Q1 Q2 Q3 Q4 (l & Q5 & Q6 & Q7) Q8].
  set (e2 := PEnv (pe_pipe e') (pe_ups e') l [] []).
  assert (Hq2 : quiet w (env_of (pe_pipe e) (after s rl e)) e2) by (split; try done; by exists l).
  pose proof (sys_quiet _ _ _ _ Hinv eq_refl Hq2 Hw) as H. unfold after in *. simpl in H. by rewrite Q5, app_assoc.
Qed.

(** Moves of the handshake that keep the queue written to. *)
Lemma after_move s rl e st' cs :
  sys_inv (after s (sy_rl s) e) → is_Some (pi_out_pipe (pe_pipe e)) → st' = delimiter_received ∨ st' = term_req_sent1 ∨ st' = waiting_for_delimiter →
  phase (Some st') (state_of (sy_right s)) (tks (sy_lr s ++ pe_sent e ++ cs)) (tks rl) →
  (cs = [] ∨ cs = [CPipeTerm]) → hiccups rl = hiccups (sy_rl s) → chan_ok rl → (st' = waiting_for_delimiter → hiccups rl = []) →
  (writes_data st' → writes_data (st_of e)) →
  sys_inv (after s rl (set_pipe (with_state st') (PEnv (pe_pipe e) (pe_ups e) (pe_sent e ++ cs) (pe_events e) (pe_closed e)))).
Proof.
  intros Hinv Ho Hst Hph Hcs Hrl Hc Hwt Hwd. unfold after at 1. simpl. rewrite app_assoc in *.
  destruct (sys_peer _ _ Hinv eq_refl Ho) as [Hr Hk]. pose proof (dir_chan _ _ _ _ _ (sys_lr_ok _ Hinv)) as Hlr. simpl in *.
  change (sys_inv (PSys (Some (with_state st' (pe_pipe e))) (sy_right (after s (sy_rl s) e)) (pe_ups e)
    (sy_lr (after s (sy_rl s) e) ++ cs) rl (sy_next (after s (sy_rl s) e)))).
  assert (Hh : hiccups cs = []) by (by destruct Hcs as [->| ->]).
  apply (sys_update _ (pe_pipe e) _ None); simpl; try done; try (by left).
  - unfold chain. simpl. by rewrite Hrl.
  - split; [intros _|done]. unfold keeps_out. naive_solver.
  - apply chan_ok_app; [done|by destruct Hcs as [->| ->]|done|done].
  - intros Hn. destruct Hst as [->|[->| ->]]; [destruct Hn; auto..|]. auto.
  - intros Hn. rewrite Hn in Hr. by destruct Hr.
  - split; [auto|done].
  - by apply (sys_disc _ _ Hinv eq_refl).
Qed.

(** The acknowledgement, after which the end does not write. *)
Lemma after_ack s rl e st' :
  sys_inv (after s (sy_rl s) e) → is_Some (pi_out_pipe (pe_pipe e)) → st' = term_ack_sent ∨ st' = term_req_sent2 →
  phase (Some st') (state_of (sy_right s)) (tks (sy_lr s ++ pe_sent e) ++ [TK]) (tks rl) →
  hiccups (sy_rl s) = [] → hiccups rl = [] → chan_ok rl →
  sys_inv (after s rl (set_pipe (with_state st') (ack_peer e))).
Proof.
  intros Hinv Ho Hst Hph Hrl Hrl' Hc. unfold after at 1. simpl. rewrite app_assoc in *.
  destruct (sys_peer _ _ Hinv eq_refl Ho) as [[y Hr] Hk]. pose proof (dir_chan _ _ _ _ _ (sys_lr_ok _ Hinv)) as Hlr.
  pose proof (dir_last _ _ _ _ _ (sys_lr_ok _ Hinv)) as Hla. destruct Ho as [q Hq]. simpl in *.
  change (sys_inv (PSys (Some (with_state st' (with_out_pipe None (pe_pipe e)))) (sy_right (after s (sy_rl s) e)) (pe_ups e)
    (sy_lr (after s (sy_rl s) e) ++ [CPipeTermAck]) rl (sy_next (after s (sy_rl s) e)))).
  apply (sys_update _ (pe_pipe e) _ None); simpl; try done; try (by left).
  - by rewrite tks_app.
  - unfold chain in *. simpl in *. rewrite Hr, Hq, Hrl in *. simpl in Hla. congruence.
  - split; [by intros [? [=]]|]. unfold keeps_out. intros. naive_solver.
  - by apply chan_ok_app.
  - by rewrite Hr.
  - destruct Hst as [->| ->]; intros [?|?]; congruence.
  - by apply (sys_disc _ _ Hinv eq_refl).
Qed.

Lemma phase_waiting b l r :
  phase (Some waiting_for_delimiter) b l r → b = Some term_req_sent1 ∧ l = [] ∧ r = [].
Proof. intros [H|H]; by inversion H. Qed.

Lemma phase_active b l r :
  phase (Some active) b l r → l = [] ∧ (b = Some active ∧ r = [] ∨ b = Some term_req_sent1 ∧ r = [TT]).
Proof. intros [H|H]; inversion H; subst; auto. Qed.

Lemma phase_delimiter b l r :
  phase (Some delimiter_received) b l r → l = [] ∧ b = Some term_req_sent1 ∧ r = [TT].
Proof. intros [H|H]; by inversion H. Qed.

Lemma after_phase s rl e :
  sys_inv (after s rl e) → phase (Some (st_of e)) (state_of (sy_right s)) (tks (sy_lr s ++ pe_sent e)) (tks rl).
Proof. apply sys_phase. Qed.

Lemma after_env_ok s rl e : sys_inv (after s rl e) → env_ok e.
Proof. intros H. exact (sys_env_ok _ _ H eq_refl). Qed.

Lemma after_out s rl e : sys_inv (after s rl e) → is_Some (pi_out_pipe (pe_pipe e)) ↔ keeps_out (Some (st_of e)).
Proof. intros H. exact (sys_out _ _ H eq_refl). Qed.

(** A delimiter waiting for an end was written by a peer that asked to terminate. *)
Lemma delim_peer s rl e u :
  sys_inv (after s rl e) → pe_ups e !! pi_in_pipe (pe_pipe e) = Some u → ¬ Forall no_delim (sp_all u) →
  ∀ p, sy_right s = Some p → ¬ writes_data (pi_state p).
Proof.
  intros Hinv Hu Hnd p Hp Hw. apply Hnd. pose proof (sys_rl_ok _ Hinv) as H3.
  eapply (dir_nodelim_state _ _ _ _ _ p H3 Hp Hw); [|exact Hu]. apply last_Some_elem_of. exact (dir_last _ _ _ _ _ H3).
Qed.

Lemma after_wait_ack s e :
  sys_inv (after s (sy_rl s) e) → st_of e = waiting_for_delimiter →
  sys_inv (after s (sy_rl s) (set_pipe (with_state term_ack_sent) (ack_peer e))).
Proof.
  intros Hinv Hw. pose proof (after_phase _ _ _ Hinv) as Hph. rewrite Hw in Hph.
  destruct (phase_waiting _ _ _ Hph) as (Hb & Hl & Hr).
  assert (Hh : hiccups (sy_rl s) = []).
  { apply (dir_hiccups _ _ _ _ _ (sys_lr_ok _ Hinv)). simpl. rewrite Hw. by intros [?|[?|?]]. }
  apply after_ack; try done; [|by left|..].
  - apply (after_out _ _ _ Hinv). rewrite Hw. right. right. by left.
  - rewrite Hl, Hb, Hr. right. constructor.
  - exact (dir_chan _ _ _ _ _ (sys_rl_ok _ Hinv)).
Qed.

Lemma after_delimiter s e e1 :
  sys_inv (after s (sy_rl s) e) → delim_read e e1 →
  ∃ e', process_delimiter e1 = Done e' ∧ sys_inv (after s (sy_rl s) e').
Proof.
  intros Hinv (Hq & Hst & u & Hu & Hnd). pose proof (delim_peer _ _ _ _ Hinv Hu Hnd) as Hpeer.
  assert (Hinv1 : sys_inv (after s (sy_rl s) e1)) by (eapply after_quiet; [done|done|by left]).
  rewrite <- (qu_state _ _ _ Hq) in Hst.
  destruct (process_delimiter_spec e1 (after_env_ok _ _ _ Hinv1) Hst) as [[Ha ->]|[Hw (e2 & Hq2 & ->)]]; eexists; (split; [done|]).
  - pose proof (after_phase _ _ _ Hinv1) as Hph. rewrite Ha in Hph.
    destruct (phase_active _ _ _ Hph) as [Hl [[Hb Hr]|[Hb Hr]]].
    { destruct (sy_right s) as [p|] eqn:Hp; [|done]. injection Hb as Hb. destruct (Hpeer p eq_refl). by left. }
    pose proof (after_move s (sy_rl s) e1 delimiter_received [] Hinv1) as H. rewrite app_nil_r in H. destruct e1. apply H; clear H.
    + apply (after_out _ _ _ Hinv1). rewrite Ha. by left.
    + by left.
    + rewrite Hl, Hb, Hr. right. constructor.
    + by left.
    + done.
    + exact (dir_chan _ _ _ _ _ (sys_rl_ok _ Hinv1)).
    + done.
    + intros _. by left.
  - assert (Hinv2 : sys_inv (after s (sy_rl s) e2)) by (eapply after_quiet; [done|done|by left]).
    apply after_wait_ack; [done|]. by rewrite (qu_state _ _ _ Hq2).
Qed.

Lemma after_terminate s e d :
  sys_inv (after s (sy_rl s) e) → ∃ e', pipe_terminate d e = Done e' ∧ sys_inv (after s (sy_rl s) e').
Proof.
  intros Hinv. pose proof (after_out _ _ _ Hinv) as Hout.
  destruct (terminate_spec d e (after_env_ok _ _ _ Hinv)) as (e' & -> & Hspec).
  { intros H. apply Hout. unfold keeps_out. by destruct H as [->|[->| ->]]; auto. }
  exists e'. split; [done|].
  assert (Hreq : writes_data (st_of e) → (∃ e1, quiet None e e1
      ∧ quiet (pi_out_pipe (pe_pipe e)) (set_pipe (with_state term_req_sent1) (send_cmd CPipeTerm e1)) e') →
    sys_inv (after s (sy_rl s) e')).
  { intros Hwd (e1 & Hq1 & Hq2). assert (Hinv1 : sys_inv (after s (sy_rl s) e1)) by (eapply after_quiet; [done|done|by left]).
    eapply after_quiet; [|exact Hq2|right; split; [by rewrite <- (qu_out _ _ _ Hq1)|by intros [?|?]]].
    pose proof (after_phase _ _ _ Hinv1) as Hph. pose proof (after_out _ _ _ Hinv1) as Hout1. rewrite (qu_state _ _ _ Hq1) in Hph, Hout1.
    apply (after_move s (sy_rl s) e1 term_req_sent1 [CPipeTerm] Hinv1); try done.
    - apply Hout1. destruct Hwd as [->| ->]; unfold keeps_out; auto.
    - by right; left.
    - rewrite app_assoc, tks_app. destruct Hwd as [Hst|Hst]; rewrite Hst in Hph.
      + destruct (phase_active _ _ _ Hph) as [-> [[-> ->]|[-> ->]]]; [left|right]; constructor.
      + destruct (phase_delimiter _ _ _ Hph) as (-> & -> & ->). right. constructor.
    - by right.
    - exact (dir_chan _ _ _ _ _ (sys_rl_ok _ Hinv1)).
    - intros [?|?]; congruence. }
  destruct (st_of e) eqn:Hst; try (eapply after_quiet; [done|done|by left]).
  - apply Hreq; [by left|done].
  - apply Hreq; [by right|done].
  - destruct Hspec as [Hq|(e1 & Hq1 & Hq2)].
    + eapply after_quiet; [done|done|right]. split; [done|]. rewrite Hst. intros [?|?]; congruence.
    + assert (Hinv1 : sys_inv (after s (sy_rl s) e1)) by (eapply after_quiet; [done|done|by left]).
      eapply after_quiet; [|exact Hq2|by left]. apply after_wait_ack; [done|]. by rewrite (qu_state _ _ _ Hq1).
Qed.

(** What an end is used for: messages of the user are not delimiters, and
    watermarks are sent to a peer that is known to live. *)
Definition legal (p : pipe_t) (op : uop) : Prop :=
  match op with
  | UWrite m | USetDisconnect m | UHiccupMsg m => is_delimiter m = false
  | USendHwms _ _ => is_Some (pi_out_pipe p)
  | _ => True
  end.

Lemma user_op_inv s p op :
  sys_inv s → sy_left s = Some p → legal p op → op ≠ UHiccup →
  ∃ e', user_op (sy_next s) op (env_of p s) = Done e' ∧ sys_inv (after s (sy_rl s) e').
Proof.
  intros Hs Hp Hlegal Hop. rewrite <- (after_start s p Hp) in Hs. set (e := env_of p s) in *.
  pose proof (after_env_ok _ _ _ Hs) as Hok. pose proof (after_out _ _ _ Hs) as Hout.
  assert (Hquiet : ∀ e', quiet None e e' → sys_inv (after s (sy_rl s) e')) by (intros; eapply after_quiet; [done|done|by left]).
  assert (Hplain : ∀ f, same_skeleton f → sys_inv (after s (sy_rl s) (set_pipe f e))).
  { intros f Hf. destruct (Hf (pe_pipe e)) as (? & ? & ? & Hd). apply Hquiet, quiet_pipe; try done. unfold disc_ok. by rewrite Hd. }
  destruct op; simpl in Hlegal; cbn [user_op]; try done.
  - destruct (read_spec e Hok) as [(r & e' & -> & Hq)|(e1 & Hd & ->)].
    + intros H. apply Hout. destruct H as [->| ->]; unfold keeps_out; auto.
    + rewrite bind_Done. eauto.
    + destruct (after_delimiter s e e1 Hs Hd) as (e' & -> & ?). eauto.
  - destruct (check_read_spec e Hok) as [(r & e' & -> & Hq)|(e1 & Hd & ->)].
    + rewrite bind_Done. eauto.
    + destruct (after_delimiter s e e1 Hs Hd) as (e' & -> & ?). eauto.
  - destruct (write_quiet m e Hok Hlegal) as (b & e' & -> & Hq); [intros H; apply Hout; rewrite H; by left|].
    rewrite bind_Done. eauto.
  - eexists. split; [done|]. apply Hquiet. unfold pipe_check_write. repeat case_match; simpl; try done. by apply quiet_pipe.
  - destruct (flush_quiet e Hok) as (e' & -> & Hq & _). eauto.
  - destruct (rollback_quiet e Hok) as (e' & -> & Hq & _). eauto.
  - apply (after_terminate s e delay Hs).
  - eexists. split; [done|]. by apply Hplain.
  - eexists. split; [done|]. by apply Hplain.
  - eexists. split; [done|]. by apply Hplain.
  - destruct (send_disconnect_quiet e Hok) as (e' & -> & Hq); [exact (sys_disc _ _ Hs eq_refl)|]. eauto.
  - eexists. split; [done|]. apply Hquiet. unfold pipe_set_disconnect_msg.
    etransitivity; [|apply quiet_pipe; try done; intros _ m' [= <-]; done]. destruct (pi_disconnect_msg _); [|done]. by apply quiet_data.
  - unfold pipe_send_hiccup_msg. destruct (pi_out_pipe (pe_pipe e)) as [q|] eqn:Hq; [|by exists e].
    destruct (write_out_quiet None m q e Hok Hq) as (e' & -> & Hqu & _); [done|]. eauto.
  - eexists. split; [done|]. apply Hquiet, quiet_send; done.
  - eauto.
Qed.

(** An end whose state is active replaces the queue it reads. *)
Lemma hiccup_inv s p :
  sys_inv s → sy_left s = Some p →
  sys_inv (PSys (Some (pe_pipe (pipe_hiccup (sy_next s) (env_of p s)))) (sy_right s) (pe_ups (pipe_hiccup (sy_next s) (env_of p s)))
             (sy_lr s ++ pe_sent (pipe_hiccup (sy_next s) (env_of p s))) (sy_rl s) (S (sy_next s))).
Proof.
  intros Hinv Hp. unfold pipe_hiccup. pose proof Hinv as [H1 H2 H3 H4 H5 H6 H7].
  destruct (decide _) as [Hst|Hst%dec_stable]; simpl in Hst |- *.
  { rewrite app_nil_r, <- Hp. split; try done. intros q Hq. simpl. apply H6 in Hq. lia. }
  rewrite Hp in *. simpl in H1. rewrite Hst in H1. destruct (phase_active _ _ _ H1) as [Hl Hb].
  assert (Hrd : (∃ y, sy_right s = Some y) ∧ keeps_out (state_of (sy_right s))).
  { unfold keeps_out. destruct Hb as [[Hb _]|[Hb _]]; rewrite Hb; (destruct (sy_right s); [|done]); split; eauto. }
  destruct Hrd as [[y Hy] Hko]. apply (dir_out _ _ _ _ _ H3) in Hko as [q Hq].
  set (s' := PSys _ _ _ _ _ _).
  assert (Hch1 : chain (sy_left s') (sy_right s') (sy_rl s') = chain (Some p) (sy_right s) (sy_rl s)).
  { unfold chain. simpl. rewrite Hy. done. }
  assert (Hch2 : chain (sy_right s') (sy_left s') (sy_lr s') = chain (sy_right s) (Some p) (sy_lr s) ++ [sy_next s]).
  { unfold chain. simpl. rewrite Hq. by rewrite hiccups_app. }
  assert (Hchs : chains s' = chains s ++ [sy_next s]).
  { unfold chains. rewrite Hch1, Hch2, Hp. by rewrite app_assoc. }
  assert (Hfr : sy_next s ∉ chains s) by (intros Hin; apply H6 in Hin; lia).
  assert (Hup : sy_ups s !! sy_next s = None) by (destruct (sy_ups s !! sy_next s) eqn:E; [destruct Hfr; apply H5; by eexists|done]).
  assert (Hnew : ∀ q0 u0, sy_ups s' !! q0 = Some u0 → u0 = up_new ∨ sy_ups s !! q0 = Some u0).
  { intros q0 u0. simpl. destruct (decide (q0 = sy_next s)) as [->|Hne];
      [rewrite lookup_insert_eq; intros [= <-]; by left|rewrite lookup_insert_ne by done; by right]. }
  split; rewrite ?Hchs.
  - simpl. rewrite Hst, tks_app. simpl. by rewrite app_nil_r.
  - split; rewrite ?Hch1; simpl; rewrite ?Hst; try done.
    + pose proof (dir_last _ _ _ _ _ H2) as Hla. rewrite Hy in *. done.
    + rewrite <- Hst. apply H2.
    + intros []; auto.
    + apply chan_ok_app; [apply H2|done|rewrite Hl; set_solver|rewrite Hl; set_solver].
    + intros Hn. congruence.
    + intros _ q0 u0 Hq0 Hu0. destruct (Hnew q0 u0 Hu0) as [->|Hu]; [constructor|].
      eapply (dir_nodelim_state _ _ _ _ _ p H2); [done|by left|done|done].
    + intros p0 m [= <-]. by apply (dir_disc _ _ _ _ _ H2 p).
  - split; rewrite ?Hch2; simpl; try apply H3; rewrite ?last_snoc; try done.
    + intros Hn. destruct Hn. destruct Hb as [[Hb _]|[Hb _]]; rewrite Hb; auto.
    + intros Hsw q0 u0 [Hq0|Hq0]%elem_of_app Hu0; (destruct (Hnew q0 u0 Hu0) as [->|Hu]; [constructor|]).
      * by eapply (dir_nodelim _ _ _ _ _ H3).
      * apply list_elem_of_singleton in Hq0 as ->. congruence.
  - apply NoDup_app. split; [done|]. split; [set_solver|apply NoDup_singleton].
  - intros q0. simpl. rewrite elem_of_app, list_elem_of_singleton, <- H5. destruct (decide (q0 = sy_next s)) as [->|Hne].
    + rewrite lookup_insert_eq. split; [by right|by eexists].
    + rewrite lookup_insert_ne by done. tauto.
  - simpl. intros q0 [Hq0|Hq0]%elem_of_app; [apply H6 in Hq0; lia|apply list_elem_of_singleton in Hq0; lia].
  - intros q0 u0 Hu0. destruct (Hnew q0 u0 Hu0) as [->|Hu]; [constructor|by eapply H7].
Qed.

(** ** Commands arriving at the left end *)

Lemma drop_plain s p c rl :
  sys_inv s → sy_left s = Some p → sy_rl s = c :: rl → plain_cmd c → sys_inv (after s rl (env_of p s)).
Proof.
  intros Hinv Hp Hrl Hc. pose proof Hinv as [H1 H2 H3 _ _ _ _]. rewrite Hp in *.
  assert (Hs : tks (sy_rl s) = tks rl ∧ hiccups (sy_rl s) = hiccups rl ∧ (chan_ok (sy_rl s) → chan_ok rl)).
  { rewrite Hrl. by destruct c. }
  destruct Hs as (Ht & Hh & Hck). unfold after. apply (sys_update s p p None); simpl; try done; rewrite ?app_nil_r, <- ?Ht, <- ?Hh.
  - done.
  - unfold chain. by rewrite Hh.
  - apply H2.
  - apply H2.
  - apply Hck, H3.
  - apply H2.
  - intros Hr. split; [done|]. by eapply sys_dead.
  - by left.
  - by apply (sys_disc s p).
Qed.

Lemma plain_cmd_inv s p c rl :
  sys_inv s → sy_left s = Some p → sy_rl s = c :: rl → plain_cmd c →
  ∃ e', process_cmd c (env_of p s) = Done e' ∧ sys_inv (after s rl e').
Proof.
  intros Hinv Hp Hrl Hc. pose proof (drop_plain s p c rl Hinv Hp Hrl Hc) as H.
  assert (Hq : ∃ e', process_cmd c (env_of p s) = Done e' ∧ quiet None (env_of p s) e').
  { destruct c; try done; simpl; eexists; (split; [done|]).
    - unfold process_activate_read. case_match; [|done]. etransitivity; [by apply (quiet_pipe None _ (with_active true (pi_out_active p)))|]. by apply quiet_data.
    - unfold process_activate_write. etransitivity; [by apply (quiet_pipe None _ (λ p, with_counts (pi_msgs_read p) (pi_msgs_written p) msgs_read p))|].
      case_match; [|done]. etransitivity; [by apply (quiet_pipe None _ (with_active (pi_in_active p) true))|]. by apply quiet_data.
    - by apply quiet_pipe. }
  destruct Hq as (e' & He & Hq). exists e'. split; [done|]. eapply after_quiet; [done|done|by left].
Qed.

Lemma hiccup_cmd_inv s p q rl :
  sys_inv s → sy_left s = Some p → sy_rl s = CHiccup q :: rl →
  ∃ e', process_hiccup q (env_of p s) = Done e' ∧ sys_inv (after s rl e').
Proof.
  intros Hinv Hp Hrl. pose proof Hinv as [H1 H2 H3 H4 H5 H6 H7]. pose proof (sys_env_ok s p Hinv Hp) as Hok.
  pose proof (sys_out s p Hinv Hp) as Hout. pose proof (sys_disc s p Hinv Hp) as Hdisc. rewrite Hp in *.
  assert (Hst : pi_state p = active ∨ pi_state p = delimiter_received ∨ pi_state p = term_req_sent1).
  { destruct (pi_state p) eqn:Hst; auto; exfalso; pose proof (dir_hiccups _ _ _ _ _ H2) as Hn; simpl in Hn; rewrite Hst, Hrl in Hn;
      simpl in Hn; discriminate Hn; by intros [?|[?|?]]. }
  destruct (proj2 Hout) as [old Ho]; [unfold keeps_out; destruct Hst as [->|[->| ->]]; auto|].
  destruct (process_hiccup_spec q old (env_of p s) Hok Ho) as (e1 & e' & -> & [Q1 Q2 Q3 Q4 _ Q8] & Hs1 & Hs2 & Hups & Hst' & Hin & Ho' & Hd').
  exists e'. split; [done|]. unfold after. rewrite Hs2, app_nil_r. simpl in *.
  destruct (sys_peer s p Hinv Hp) as [[y Hy] _]; [by eexists|].
  set (s' := PSys _ _ _ _ _ _).
  assert (Hch1 : chain (Some p) (sy_right s) (sy_rl s) = old :: chain (sy_left s') (sy_right s') (sy_rl s')).
  { unfold chain. simpl. by rewrite Ho, Ho', Hrl. }
  assert (Hch2 : chain (sy_right s') (sy_left s') (sy_lr s') = chain (sy_right s) (Some p) (sy_lr s)).
  { unfold chain. simpl. by rewrite Hin. }
  assert (Hchs : chains s = old :: chains s').
  { unfold chains. rewrite Hch2, Hp, Hch1. done. }
  assert (Hnin : old ∉ chains s') by (rewrite Hchs in H4; by apply NoDup_cons in H4 as [? _]).
  assert (Hold : ∀ q0 u0, sy_ups s' !! q0 = Some u0 → q0 ≠ old ∧ ∃ u, sy_ups s !! q0 = Some u
    ∧ (Forall is_more (sp_incomplete u) → Forall is_more (sp_incomplete u0)) ∧ (Forall no_delim (sp_all u) → Forall no_delim (sp_all u0))).
  { intros q0 u0. simpl. rewrite Hups. intros [Hne Hu0]%lookup_delete_Some. split; [done|].
    destruct (proj1 (ds_dom _ _ _ Q8 q0) (mk_is_Some _ _ Hu0)) as [u Hu]. exists u. split; [done|].
    split; [by apply (ds_more _ _ _ Q8 q0)|by apply (ds_nodelim _ _ _ Q8 q0)]. }
  split.
  - simpl. rewrite Hst'. rewrite Hrl in H1. exact H1.
  - split; simpl; rewrite ?Hst'.
    + pose proof (dir_last _ _ _ _ _ H2) as Hla. rewrite Hch1, Hy in Hla. rewrite Hy. unfold chain in *. simpl in *. rewrite Ho' in *. exact Hla.
    + rewrite Ho'. split; [intros _|by eexists]. apply Hout. by eexists.
    + intros Hn. destruct Hn. destruct Hst as [->|[->| ->]]; auto.
    + apply H2.
    + intros Hn. congruence.
    + intros Hsw q0 u0 Hq0 Hu0. destruct (Hold q0 u0 Hu0) as (Hne & u & Hu & _ & Hnd). apply Hnd.
      eapply (dir_nodelim _ _ _ _ _ H2); [exact Hsw|rewrite Hch1; by right|done].
    + intros p0 m [= <-]. by apply Hd'.
  - pose proof (dir_chan _ _ _ _ _ H3) as Hck. rewrite Hrl in Hck.
    split; rewrite ?Hch2; simpl; rewrite ?Hin; try apply H3; try done.
    intros Hsw q0 u0 Hq0 Hu0. destruct (Hold q0 u0 Hu0) as (Hne & u & Hu & _ & Hnd). apply Hnd. by eapply (dir_nodelim _ _ _ _ _ H3).
  - rewrite Hchs in H4. by apply NoDup_cons in H4 as [_ ?].
  - intros q0. specialize (H5 q0). rewrite Hchs, elem_of_cons in H5. simpl. rewrite Hups. destruct (decide (q0 = old)) as [->|Hne].
    + rewrite lookup_delete_eq. split; [by intros [? [=]]|done].
    + rewrite lookup_delete_ne by done. rewrite (ds_dom _ _ _ Q8 q0), H5. split; [by intros [?|?]|by right].
  - intros q0 Hq0. apply H6. rewrite Hchs. by right.
  - intros q0 u0 Hu0. destruct (Hold q0 u0 Hu0) as (_ & u & Hu & Hm & _). apply Hm. by eapply H7.
Qed.

Lemma phase_term a b l r :
  phase (Some a) b l (TT :: r) →
  (a = active ∨ a = delimiter_received) ∧ b = Some term_req_sent1 ∧ l = [] ∧ r = []
  ∨ a = term_req_sent1 ∧ (b = Some term_req_sent1 ∧ l = [TT] ∧ r = [] ∨ b = Some term_req_sent2 ∧ l = [] ∧ r = [TK]).
Proof. intros [H|H]; inversion H; subst; naive_solver. Qed.

Lemma phase_term_ack a b l r :
  phase (Some a) b l (TK :: r) → r = [] ∧
  (a = term_req_sent1 ∧ b = Some term_ack_sent ∧ l = [] ∨ a = term_req_sent2 ∧ b = Some term_req_sent2 ∧ l = [TK]
   ∨ (a = term_ack_sent ∨ a = term_req_sent2) ∧ b = None ∧ l = []).
Proof. intros [H|H]; inversion H; subst; naive_solver. Qed.

Lemma term_cmd_inv s p rl :
  sys_inv s → sy_left s = Some p → sy_rl s = CPipeTerm :: rl →
  ∃ e', process_pipe_term (env_of p s) = Done e' ∧ sys_inv (after s rl e').
Proof.
  intros Hinv Hp Hrl. pose proof Hinv as [H1 _ H3 _ _ _ _]. pose proof (dir_chan _ _ _ _ _ H3) as Hck.
  pose proof (sys_out s p Hinv Hp) as Hout. rewrite Hp, Hrl in *. destruct Hck as [Hh Hck]. simpl in H1.
  assert (Hh0 : hiccups (sy_rl s) = []) by (by rewrite Hrl).
  assert (Hinv0 : sys_inv (after s (sy_rl s) (env_of p s))) by (by rewrite after_start).
  assert (Hnil : sy_lr s ++ [] = sy_lr s) by apply app_nil_r.
  assert (Hmove : ∀ st', phase (Some st') (state_of (sy_right s)) (tks (sy_lr s)) (tks rl) → keeps_out (Some (pi_state p)) →
    st' = waiting_for_delimiter → sys_inv (after s rl (set_pipe (with_state st') (env_of p s)))).
  { intros st' Hph Hk Hst. apply (after_move s rl (env_of p s) st' [] Hinv0); simpl; rewrite ?Hnil, ?Hh, ?Hh0; try done; auto.
    - by apply Hout.
    - subst. by intros [?|?]. }
  assert (Hack : ∀ st', phase (Some st') (state_of (sy_right s)) (tks (sy_lr s) ++ [TK]) (tks rl) → keeps_out (Some (pi_state p)) →
    st' = term_ack_sent ∨ st' = term_req_sent2 → sys_inv (after s rl (ack_peer (set_pipe (with_state st') (env_of p s))))).
  { intros st' Hph Hk Hst. apply (after_ack s rl (env_of p s) st' Hinv0); simpl; rewrite ?Hnil; try done. by apply Hout. }
  unfold process_pipe_term. simpl. unfold keeps_out in *.
  destruct (phase_term _ _ _ _ H1) as [([Hst|Hst] & Hb & Hl & Hr)|[Hst [(Hb & Hl & Hr)|(Hb & Hl & Hr)]]]; rewrite Hst in *; rewrite Hb, Hl, Hr in *.
  - destruct (pi_delay p); eexists; (split; [done|]).
    + apply Hmove; auto. right. constructor.
    + apply Hack; auto. right. constructor.
  - eexists. split; [done|]. apply Hack; auto. right. constructor.
  - eexists. split; [done|]. apply Hack; auto. left. constructor.
  - eexists. split; [done|]. apply Hack; auto. left. constructor.
Qed.

(** The end is gone, with the queue it read. *)
Lemma ack_cmd_inv s p rl :
  sys_inv s → sy_left s = Some p → sy_rl s = CPipeTermAck :: rl →
  ∃ e', process_pipe_term_ack (env_of p s) = Done e'
    ∧ sys_inv (PSys None (sy_right s) (pe_ups e') (sy_lr s ++ pe_sent e') rl (sy_next s)).
Proof.
  intros Hinv Hp Hrl. pose proof Hinv as [H1 H2 H3 H4 H5 H6 H7]. pose proof (dir_chan _ _ _ _ _ H3) as Hck.
  pose proof (sys_env_ok s p Hinv Hp) as Hok. pose proof (sys_out s p Hinv Hp) as Hout. rewrite Hp, Hrl in *. simpl in Hck, H1. subst rl.
  destruct (phase_term_ack _ _ _ _ H1) as [_ Hc].
  destruct (process_pipe_term_ack_spec (env_of p s) Hok) as (ups1 & e' & -> & Hd & Hups & Hsent); [simpl; naive_solver|].
  exists e'. split; [done|]. simpl in Hups, Hsent, Hd.
  set (ack := if decide (pi_state p = term_req_sent1) then [CPipeTermAck] else []) in *. rewrite Hsent, Hups. set (s' := PSys _ _ _ _ _ _).
  assert (Hdead : sy_right s = None → sy_lr s = [] ∧ ack = []).
  { intros Hr. split; [by apply (dir_dead _ _ _ _ _ H2)|]. unfold ack. destruct (decide _) as [E|]; [|done]. rewrite Hr in Hc. simpl in Hc.
    destruct Hc as [(_ & ? & _)|[(_ & ? & _)|([?|?] & _)]]; congruence. }
  assert (Hro : out_ptr (sy_right s) = None).
  { destruct (out_ptr (sy_right s)) eqn:E; [|done]. destruct (proj1 (dir_out _ _ _ _ _ H3)) as [K|[K|[K|K]]]; [by eexists|..]; rewrite K in Hc;
      destruct Hc as [(_ & ? & _)|[(_ & ? & _)|(_ & ? & _)]]; congruence. }
  assert (Hrh : hiccups (sy_lr s) = []).
  { apply (dir_hiccups _ _ _ _ _ H3). intros [K|[K|K]]; rewrite K in Hc;
      destruct Hc as [(_ & ? & _)|[(_ & ? & _)|(_ & ? & _)]]; congruence. }
  assert (Hch1 : chain None (sy_right s) [] = chain (Some p) (sy_right s) (sy_rl s)).
  { pose proof (dir_last _ _ _ _ _ H2) as Hla. unfold chain in *. simpl in *. rewrite Hrl in *. simpl in *. destruct (pi_out_pipe p) as [q|]; [|done].
    destruct (sy_right s); [simpl in *; congruence|done]. }
  assert (Hch2 : chain (sy_right s) (Some p) (sy_lr s) = [pi_in_pipe p]) by (unfold chain; by rewrite Hro).
  assert (Hchs : chains s = chains s' ++ [pi_in_pipe p]).
  { unfold chains. simpl. rewrite Hp, Hch2, <- Hch1. unfold chain at 3. simpl. by rewrite Hro, app_nil_r. }
  assert (Hnin : pi_in_pipe p ∉ chains s') by (rewrite Hchs in H4; apply NoDup_app in H4 as (_ & Hdj & _); intros Hin; apply (Hdj _ Hin); by left).
  split; simpl.
  - unfold ack. rewrite tks_app. destruct Hc as [(Hst & Hb & Hl)|[(Hst & Hb & Hl)|(Hst & Hb & Hl)]]; rewrite Hb, Hl.
    + rewrite decide_True by done. left. constructor.
    + rewrite decide_False by (by rewrite Hst). left. constructor.
    + rewrite decide_False by (by destruct Hst as [->| ->]). left. constructor.
  - split; simpl; try done.
    + destruct (sy_right s) eqn:Hy; [|done]. rewrite Hch1, Hrl. apply H2.
    + split; [by intros [? [=]]|by intros [?|[?|[?|?]]]].
    + unfold ack. destruct (decide _) as [E|]; [|rewrite app_nil_r; apply H2]. apply chan_ok_app; [apply H2|done|..].
      * destruct Hc as [(_ & _ & ->)|[(Hst & _)|([Hst|Hst] & _)]]; [set_solver|congruence..].
      * done.
    + intros Hr. destruct (Hdead Hr) as [-> ->]. done.
    + intros [?|?]; done.
  - split; simpl; try done.
    + apply H3.
    + intros _. unfold ack. rewrite hiccups_app, Hrh. by destruct (decide _).
    + unfold chain. rewrite Hro. intros _ q u Hq. by apply not_elem_of_nil in Hq.
    + apply H3.
  - rewrite Hchs in H4. by apply NoDup_app in H4 as (? & _).
  - intros q. rewrite <- Hups. specialize (H5 q). rewrite Hchs, elem_of_app, list_elem_of_singleton in H5.
    rewrite Hups. destruct (decide (q = pi_in_pipe p)) as [->|Hne].
    + rewrite lookup_delete_eq. split; [by intros [? [=]]|done].
    + rewrite lookup_delete_ne by done. rewrite (ds_dom _ _ _ Hd q), H5. tauto.
  - intros q Hq. apply H6. rewrite Hchs. set_solver.
  - intros q u' [Hne Hu']%lookup_delete_Some. destruct (proj1 (ds_dom _ _ _ Hd q) (mk_is_Some _ _ Hu')) as [u Hu].
    apply (ds_more _ _ _ Hd q u u'); [done|done|by eapply H7].
Qed.

(** ** The pair, in any interleaving *)

Definition sys_legal (s : psys) (on_left : bool) (op : uop) : Prop :=
  match (if on_left then sy_left s else sy_right s) with Some p => legal p op | None => True end.

Inductive pair_reachable (hwm0 hwm1 : Z) : psys → Prop :=
| pair_init : pair_reachable hwm0 hwm1 (pipepair hwm0 hwm1)
| pair_step s on_left op s' :
    pair_reachable hwm0 hwm1 s → sys_legal s on_left op → sys_step s on_left op = Done (Some s') →
    pair_reachable hwm0 hwm1 s'.

Lemma left_step_inv s op :
  sys_inv s → sys_legal s true op → ∃ r, left_step s op = Done r ∧ ∀ s', r = Some s' → sys_inv s'.
Proof.
  intros Hinv Hlegal. unfold sys_legal in Hlegal.
  assert (Huser : op ≠ UProcess → op ≠ UHiccup → ∃ r, left_step s op = Done r ∧ ∀ s', r = Some s' → sys_inv s').
  { intros Hop1 Hop2. unfold left_step. destruct (sy_left s) as [p|] eqn:Hp; [|destruct op; try done; exists None; done].
    destruct (user_op_inv s p op Hinv Hp Hlegal Hop2) as (e' & He & Hi).
    destruct op; try done; rewrite He, bind_Done; eexists; (split; [done|]); intros s' [= <-]; exact Hi. }
  assert (Hop : op = UHiccup ∨ op = UProcess ∨ (op ≠ UProcess ∧ op ≠ UHiccup)) by (destruct op; auto).
  destruct Hop as [->|[->|[Hop1 Hop2]]]; [..|by apply Huser].
  - unfold left_step. destruct (sy_left s) as [p|] eqn:Hp; [|by exists None]. cbn [user_op]. rewrite bind_Done. eexists. split; [done|].
    intros s' [= <-]. by apply hiccup_inv.
  - unfold left_step. destruct (sy_rl s) as [|c rl] eqn:Hrl; [by exists None|]. destruct (sy_left s) as [p|] eqn:Hp.
    2: { by rewrite (dir_dead _ _ _ _ _ (sys_rl_ok _ Hinv) Hp) in Hrl. }
    assert (Hc : plain_cmd c ∨ (∃ q, c = CHiccup q) ∨ c = CPipeTerm ∨ c = CPipeTermAck) by (destruct c; simpl; eauto).
    destruct Hc as [Hc|[[q ->]|[->| ->]]].
    + destruct (plain_cmd_inv s p c rl Hinv Hp Hrl Hc) as (e' & -> & Hi). rewrite bind_Done. eexists. split; [done|].
      intros s' [= <-]. by destruct c.
    + destruct (hiccup_cmd_inv s p q rl Hinv Hp Hrl) as (e' & He & Hi). cbn [process_cmd]. rewrite He, bind_Done. eexists. split; [done|].
      by intros s' [= <-].
    + destruct (term_cmd_inv s p rl Hinv Hp Hrl) as (e' & He & Hi). cbn [process_cmd]. rewrite He, bind_Done. eexists. split; [done|].
      by intros s' [= <-].
    + destruct (ack_cmd_inv s p rl Hinv Hp Hrl) as (e' & He & Hi). cbn [process_cmd]. rewrite He, bind_Done. eexists. split; [done|].
      by intros s' [= <-].
Qed.

Lemma swap_swap s : swap_sys (swap_sys s) = s.
Proof. by destruct s. Qed.

Lemma sys_step_inv s on_left op :
  sys_inv s → sys_legal s on_left op → ∃ r, sys_step s on_left op = Done r ∧ ∀ s', r = Some s' → sys_inv s'.
Proof.
  intros Hinv Hlegal. destruct on_left; [by apply left_step_inv|]. unfold sys_step.
  destruct (left_step_inv (swap_sys s) op (sys_inv_swap s Hinv) Hlegal) as (r & -> & Hr). eexists. split; [done|].
  intros s' H. destruct r as [s1|]; simplify_eq/=. by apply sys_inv_swap, Hr.
Qed.

Lemma pipepair_inv hwm0 hwm1 : sys_inv (pipepair hwm0 hwm1).
Proof.
  assert (Hu : ∀ q u, sy_ups (pipepair hwm0 hwm1) !! q = Some u → u = up_new).
  { intros q u. simpl. rewrite lookup_insert_Some, lookup_singleton_Some. naive_solver. }
  split.
  - left. constructor.
  - split; try done; simpl; [by split; [left|eexists]|..].
    + intros _ q u _ Hq. by rewrite (Hu q u Hq).
    + intros p m [= <-]. done.
  - split; try done; simpl; [by split; [left|eexists]|..].
    + intros _ q u _ Hq. by rewrite (Hu q u Hq).
    + intros p m [= <-]. done.
  - simpl. unfold chains, chain. simpl. repeat constructor; set_solver.
  - intros q. unfold chains, chain. simpl. rewrite !elem_of_cons, elem_of_nil. split.
    + intros [u Hq]. apply lookup_insert_Some in Hq as [[<- _]|[_ [<- _]%lookup_singleton_Some]]; auto.
    + intros [->|[->|[]]]; by eexists.
  - intros q. unfold chains, chain. simpl. rewrite !elem_of_cons, elem_of_nil. lia.
  - intros q u Hq. by rewrite (Hu q u Hq).
Qed.

Lemma reachable_inv hwm0 hwm1 s : pair_reachable hwm0 hwm1 s → sys_inv s.
Proof.
  induction 1 as [|s l op s' _ IH Hl Hs]; [apply pipepair_inv|].
  destruct (sys_step_inv s l op IH Hl) as (r & Hr & Hi). rewrite Hs in Hr. injection Hr as <-. by apply Hi.
Qed.

(** C5: the two ends of a pipe take the pair down safely.  In every interleaving
    of what the users of the ends do (read, write, roll back, flush, hiccup, change
    watermarks, terminate with or without delay, any number of times and on both
    ends) with the arrival of commands, no assertion fails, no queue is used after
    it was deleted and no command reaches an end that is gone; and when both ends
    are gone, every queue has been deleted and no command is under way. *)
Theorem pipe_termination_safe hwm0 hwm1 s :
  pair_reachable hwm0 hwm1 s →
  (∀ on_left op, sys_legal s on_left op → ∃ r, sys_step s on_left op = Done r)
  ∧ (sy_left s = None → sy_right s = None → sy_ups s = ∅ ∧ sy_lr s = [] ∧ sy_rl s = []).
Proof.
  intros Hs%reachable_inv. split.
  - intros l op Hl. destruct (sys_step_inv s l op Hs Hl) as (r & Hr & _). eauto.
  - intros Hl Hr. split; [|split].
    + apply map_eq. intros q. rewrite lookup_empty. destruct (sy_ups s !! q) as [u|] eqn:E; [|done].
      apply mk_is_Some, (sys_dom s Hs) in E. unfold chains, chain in E. rewrite Hl, Hr in E. by apply not_elem_of_nil in E.
    + by apply (dir_dead _ _ _ _ _ (sys_lr_ok _ Hs)).
    + by apply (dir_dead _ _ _ _ _ (sys_rl_ok _ Hs)).
Qed.

(** ** Runs *)

Fixpoint pair_run (s : psys) (ops : list (bool * uop)) : outcome psys :=
  match ops with
  | [] => Done s
  | (on_left, op) :: ops =>
      r ← sys_step s on_left op;
      pair_run (match r with Some s' => s' | None => s end) ops
  end.

(** Operations that are legal in any state. *)
Definition free_op (op : uop) : bool :=
  match op with
  | UWrite m | USetDisconnect m | UHiccupMsg m => negb (is_delimiter m)
  | USendHwms _ _ => false
  | _ => true
  end.

Lemma free_legal op p : free_op op = true → legal p op.
Proof. destruct op; simpl; try done; by intros ?%negb_true_iff. Qed.

Lemma pair_run_reachable hwm0 hwm1 s ops s' :
  pair_reachable hwm0 hwm1 s → forallb (λ o, free_op o.2) ops = true → pair_run s ops = Done s' → pair_reachable hwm0 hwm1 s'.
Proof.
  revert s. induction ops as [|[l op] ops IH]; intros s Hs Hf; [by intros [= <-]|]. cbn [pair_run].
  simpl in Hf. apply andb_true_iff in Hf as [Hf1 Hf].
  destruct (sys_step s l op) as [r| |] eqn:Hr; [rewrite bind_Done|done..]. destruct r as [s1|]; [|by apply IH].
  apply IH; [|done]. eapply pair_step; [done| |done]. unfold sys_legal. destruct (if l then _ else _); [|done]. by apply free_legal.
Qed.

(** A message is written and both ends terminate. *)
Definition teardown_run : list (bool * uop) :=
  [(true, UWrite msg_init); (true, UFlush); (true, UTerminate true); (false, UProcess); (false, URead); (false, URead);
   (true, UProcess); (false, UProcess)].

Lemma pipe_termination_safe_witness :
  ∃ s, pair_run (pipepair 10 10) teardown_run = Done s ∧ sy_left s = None ∧ sy_ups s = ∅.
Proof.
  destruct (pair_run (pipepair 10 10) teardown_run) as [s| |] eqn:E; [|by vm_compute in E..].
  assert (Hl : sy_left s = None) by (vm_compute in E; by injection E as <-).
  assert (Hr : sy_right s = None) by (vm_compute in E; by injection E as <-).
  exists s. split; [done|]. split; [done|].
  apply (pipe_termination_safe 10 10 s (pair_run_reachable 10 10 _ teardown_run s (pair_init 10 10) eq_refl E)); done.
Defined.

(** ** Completion of the handshake *)

(** The end was told to go, or has acknowledged. *)
Definition leaving (x : option pipe_t) : Prop :=
  match x with Some p => pi_state p = term_req_sent1 ∨ pi_state p = term_req_sent2 ∨ pi_state p = term_ack_sent | None => True end.

(** Commands that are or may be under way. *)
Definition ack_due (x : option pipe_t) : nat :=
  match x with Some p => if decide (pi_state p = term_req_sent1) then 1 else 0 | None => 0 end.
Definition handshake_work (s : psys) : nat :=
  length (sy_lr s) + length (sy_rl s) + ack_due (sy_left s) + ack_due (sy_right s).

Lemma process_cmd_leaving s p c rl e' :
  sys_inv s → sy_left s = Some p → sy_rl s = c :: rl → leaving (Some p) → process_cmd c (env_of p s) = Done e' →
  let left := match c with CPipeTermAck => None | _ => Some (pe_pipe e') end in
  leaving left ∧ (length (pe_sent e') + ack_due left ≤ ack_due (Some p))%nat.
Proof.
  intros Hinv Hp Hrl Hlv He. pose proof (sys_phase _ Hinv) as Hph. rewrite Hp, Hrl in Hph. pose proof (sys_env_ok s p Hinv Hp) as Hok.
  destruct c; simpl in He, Hph.
  - injection He as <-. unfold process_activate_read. by case_match.
  - injection He as <-. unfold process_activate_write. by case_match.
  - destruct (pi_out_pipe p) as [old|] eqn:Ho; [|unfold process_hiccup in He; simpl in He; by rewrite Ho in He].
    destruct (process_hiccup_spec p0 old (env_of p s) Hok Ho) as (e1 & e2 & He2 & _ & _ & Hs & _ & Hst & _).
    rewrite He2 in He. injection He as <-. simpl in *. by rewrite Hst, Hs.
  - unfold process_pipe_term in He. simpl in *. destruct Hlv as [Hst|[Hst|Hst]]; rewrite Hst in *; [|done..].
    injection He as <-. simpl. split; [auto|lia].
  - destruct (process_pipe_term_ack_spec (env_of p s) Hok) as (ups1 & e2 & He2 & _ & _ & Hs); [simpl in *; naive_solver|].
    rewrite He2 in He. injection He as <-. simpl in *. split; [done|]. rewrite Hs. destruct (decide _); simpl; lia.
  - injection He as <-. done.
Qed.

Lemma process_leaving s :
  sys_inv s → leaving (sy_left s) → sy_rl s ≠ [] →
  ∃ s', left_step s UProcess = Done (Some s') ∧ sys_inv s' ∧ leaving (sy_left s') ∧ sy_right s' = sy_right s
    ∧ (handshake_work s' < handshake_work s)%nat.
Proof.
  intros Hinv Hlv Hne. destruct (left_step_inv s UProcess Hinv) as (r & Hr & Hi); [by unfold sys_legal; destruct (sy_left s)|].
  unfold left_step in *. destruct (sy_rl s) as [|c rl] eqn:Hrl; [done|]. destruct (sy_left s) as [p|] eqn:Hp; [|done].
  destruct (process_cmd c (env_of p s)) as [e'| |] eqn:He; [|done..]. rewrite bind_Done in *. injection Hr as <-.
  eexists. split; [done|]. split; [by apply Hi|]. destruct (process_cmd_leaving s p c rl e' Hinv Hp Hrl Hlv He) as [Hl Hw].
  split; [exact Hl|]. split; [done|]. unfold handshake_work. rewrite Hp, Hrl. simpl sy_lr. simpl sy_rl. simpl sy_left. simpl sy_right.
  rewrite length_app. simpl length. lia.
Qed.

Lemma sys_step_right s op s' : left_step (swap_sys s) op = Done (Some s') → sys_step s false op = Done (Some (swap_sys s')).
Proof. unfold sys_step. by intros ->. Qed.

Lemma handshake_work_swap s : handshake_work (swap_sys s) = handshake_work s.
Proof. unfold handshake_work. simpl. lia. Qed.

Lemma leaving_idle s :
  sys_inv s → leaving (sy_left s) → leaving (sy_right s) → sy_lr s = [] → sy_rl s = [] → sy_left s = None ∧ sy_right s = None.
Proof.
  intros Hinv Hl Hr H1 H2. pose proof (sys_phase _ Hinv) as Hph. rewrite H1, H2 in Hph. simpl in Hph.
  destruct (sy_left s) as [x|], (sy_right s) as [y|]; simpl in *; destruct Hph as [Hph|Hph]; inversion Hph; subst; intuition congruence.
Qed.

Lemma pair_run_app s ops s1 ops' : pair_run s ops = Done s1 → pair_run s (ops ++ ops') = pair_run s1 ops'.
Proof.
  revert s. induction ops as [|[l op] ops IH]; intros s; [by intros [= <-]|]. simpl.
  destruct (sys_step s l op) as [r| |]; [rewrite !bind_Done|done..]. apply IH.
Qed.

(** C21: once both ends were told to terminate (or have acknowledged the other's
    request), nothing but the arrival of the commands under way is needed to
    complete: processing them, in any state of the pair, brings both ends to their
    end and deletes every queue. *)
Theorem pipe_handshake_completes hwm0 hwm1 s :
  pair_reachable hwm0 hwm1 s → leaving (sy_left s) → leaving (sy_right s) →
  ∃ sched s', (length sched ≤ handshake_work s)%nat ∧ pair_run s ((λ l, (l, UProcess)) <$> sched) = Done s'
    ∧ sy_left s' = None ∧ sy_right s' = None ∧ sy_ups s' = ∅.
Proof.
  intros Hinv%reachable_inv. remember (handshake_work s) as n eqn:Hn. revert s Hinv Hn.
  induction (lt_wf n) as [n _ IH]. intros s Hinv -> Hl Hr.
  assert (Hgo : ∀ (side : bool) s1, sys_step s side UProcess = Done (Some s1) → sys_inv s1 → leaving (sy_left s1) → leaving (sy_right s1) →
    (handshake_work s1 < handshake_work s)%nat → ∃ sched s', (length sched ≤ handshake_work s)%nat
    ∧ pair_run s ((λ l, (l, UProcess)) <$> sched) = Done s' ∧ sy_left s' = None ∧ sy_right s' = None ∧ sy_ups s' = ∅).
  { intros side s1 Hs Hi Hl1 Hr1 Hw. destruct (IH _ Hw s1 Hi eq_refl Hl1 Hr1) as (sched & s' & Hlen & Hrun & Hfin).
    exists (side :: sched), s'. split; [simpl; lia|]. split; [|done]. simpl. rewrite Hs, bind_Done. exact Hrun. }
  destruct (decide (sy_rl s = [])) as [Hrl|Hrl]; [destruct (decide (sy_lr s = [])) as [Hlr|Hlr]|].
  - destruct (leaving_idle s Hinv Hl Hr Hlr Hrl) as [Hln Hrn]. exists [], s. split; [simpl; lia|]. split; [done|]. split; [done|]. split; [done|].
    apply map_eq. intros q. rewrite lookup_empty. destruct (sy_ups s !! q) as [u|] eqn:E; [|done].
    apply mk_is_Some, (sys_dom s Hinv) in E. unfold chains, chain in E. rewrite Hln, Hrn in E. by apply not_elem_of_nil in E.
  - destruct (process_leaving (swap_sys s) (sys_inv_swap s Hinv) Hr Hlr) as (s1 & Hs & Hi & Hl1 & Hsame & Hw).
    apply (Hgo false (swap_sys s1)); [by apply sys_step_right|by apply sys_inv_swap|simpl in *; by rewrite Hsame|done|].
    rewrite handshake_work_swap. by rewrite handshake_work_swap in Hw.
  - destruct (process_leaving s Hinv Hl Hrl) as (s1 & Hs & Hi & Hl1 & Hsame & Hw).
    apply (Hgo true s1); [done|done|done|by rewrite Hsame|done].
Qed.

(** Both ends are told to terminate at once. *)
Lemma pipe_handshake_completes_witness :
  ∃ s s' sched, pair_run (pipepair 10 10) [(true, UTerminate true); (false, UTerminate false)] = Done s
    ∧ pair_run s ((λ l, (l, UProcess)) <$> sched) = Done s' ∧ sy_left s' = None.
Proof.
  destruct (pair_run (pipepair 10 10) [(true, UTerminate true); (false, UTerminate false)]) as [s| |] eqn:E; [|by vm_compute in E..].
  assert (Hl : leaving (sy_left s)) by (vm_compute in E; injection E as <-; by left).
  assert (Hr : leaving (sy_right s)) by (vm_compute in E; injection E as <-; by left).
  destruct (pipe_handshake_completes 10 10 s (pair_run_reachable 10 10 _ [(true, UTerminate true); (false, UTerminate false)] s
    (pair_init 10 10) eq_refl E) Hl Hr) as (sched & s' & _ & Hrun & Hfin & _).
  by exists s, s', sched.
Defined.
