(* ===== verification/PipeFlow.v ===== *)
(** Flow control between the two ends of a pipe (src/pipe/pipe.cpp): the high
    watermark that stops the writer, the low watermark that wakes it up, and the
    command that wakes up the reader.

    The counters of messages are 64 bits wide and wrap; the invariant relates them
    to the unbounded numbers of messages written and read. *)
From S2P Require Import Prelude Msg YPipe Pipe.

(** A message is is_last_part with its last part; routing ids are not is_last_part. *)
Definition is_last_part (m : msg_t) : bool := negb (has_flag m msg_more) && negb (is_routing_id m).

Definition count_msgs (l : list msg_t) : Z := Z.of_nat (length (filter (λ m, is_last_part m = true) l)).

(** The messages a reader can or will be able to read. *)
Definition pending_msgs (u : upipe) : Z := count_msgs (sp_flushed u ++ sp_complete u).

(** The numbers in the wake-ups of the writer that are under way. *)
Fixpoint wakeups (l : list pcmd) : list Z :=
  match l with [] => [] | CActivateWrite n :: l => n :: wakeups l | _ :: l => wakeups l end.

(** What goes through a pipe in use. *)
Definition plain_msg (m : msg_t) : Prop := is_delimiter m = false ∧ is_credential m = false.

Definition flow_cmd (c : pcmd) : Prop :=
  match c with CActivateRead | CActivateWrite _ => True | _ => False end.

(** Messages read when the last wake-up was sent. *)
Fixpoint last_wakeup (P : Z) (As : list Z) : Z :=
  match As with [] => P | A :: As => last_wakeup A As end.

(** [P], the elements of [As] and [R] in order. *)
Fixpoint ordered (P : Z) (As : list Z) (R : Z) : Prop :=
  match As with [] => P ≤ R | A :: As => P ≤ A ∧ ordered A As R end.

(** The direction from [x] to [y] over the queue [u], with watermark [h]: [W], [R]
    and [P] messages were written, read, and are known to be read. *)
Record flow (h : Z) (x y : pipe_t) (u : upipe) (cxy cyx : list pcmd) (W R P : Z) (As : list Z) : Prop := {
  fl_written : pi_msgs_written x = u64 W;
  fl_read : pi_msgs_read y = u64 R;
  fl_peers : pi_peers_msgs_read x = u64 P;
  fl_wakeups : wakeups cyx = u64 <$> As;
  fl_ordered : ordered P As R;
  fl_pending : W = R + pending_msgs u;
  fl_hwm : pi_hwm x = h;
  fl_lwm : pi_lwm y = compute_lwm h;
  fl_bound : 0 < h → W - P ≤ h;
  fl_last : 0 < h → u64 (last_wakeup P As) `mod` compute_lwm h = 0
    ∧ last_wakeup P As / 2 ^ 64 = R / 2 ^ 64 ∧ R < last_wakeup P As + compute_lwm h;
  fl_blocked : pi_out_active x = false → 0 < h ∧ h ≤ W - P;
  fl_awake : pi_in_active y = false → sp_flushed u = [] ∧ sp_asleep u = true ∨ CActivateRead ∈ cxy;
  fl_plain : Forall plain_msg (sp_all u);
  fl_more : Forall is_more (sp_incomplete u);
}.

(** The pair, with both ends in use. *)
Record flow_inv (h0 h1 : Z) (s : psys) (x y : pipe_t) (a b : nat) (ua ub : upipe) : Prop := {
  fi_left : sy_left s = Some x;
  fi_right : sy_right s = Some y;
  fi_xin : pi_in_pipe x = a;
  fi_xout : pi_out_pipe x = Some b;
  fi_yin : pi_in_pipe y = b;
  fi_yout : pi_out_pipe y = Some a;
  fi_xst : pi_state x = active;
  fi_yst : pi_state y = active;
  fi_ne : a ≠ b;
  fi_a : sy_ups s !! a = Some ua;
  fi_b : sy_ups s !! b = Some ub;
  fi_lr : ∃ W R P As, flow h0 x y ub (sy_lr s) (sy_rl s) W R P As;
  fi_rl : ∃ W R P As, flow h1 y x ua (sy_rl s) (sy_lr s) W R P As;
  fi_clr : Forall flow_cmd (sy_lr s);
  fi_crl : Forall flow_cmd (sy_rl s);
}.

(** Reading, writing and the arrival of commands. *)
Definition flow_op (op : uop) : Prop :=
  match op with
  | URead | UCheckRead | UCheckWrite | UFlush | URollback | UProcess => True
  | UWrite m => plain_msg m
  | _ => False
  end.

Inductive flow_reachable (h0 h1 : Z) : psys → Prop :=
| flow_init : flow_reachable h0 h1 (pipepair h0 h1)
| flow_step s on_left op s' :
    flow_reachable h0 h1 s → flow_op op → sys_step s on_left op = Done (Some s') → flow_reachable h0 h1 s'.

(** ** Counting *)

Lemma count_msgs_app l l' : count_msgs (l ++ l') = count_msgs l + count_msgs l'.
Proof. unfold count_msgs. rewrite filter_app, length_app. lia. Qed.

Lemma count_msgs_cons m l : count_msgs (m :: l) = (if is_last_part m then 1 else 0) + count_msgs l.
Proof.
  unfold count_msgs. destruct (is_last_part m) eqn:E; [rewrite filter_cons_True by done; simpl; lia|].
  rewrite filter_cons_False by (by rewrite E). lia.
Qed.

Lemma count_msgs_more l : Forall is_more l → count_msgs l = 0.
Proof.
  induction 1 as [|m l Hm _ IH]; [done|]. rewrite count_msgs_cons, IH. unfold is_last_part. by rewrite Hm.
Qed.

Lemma count_msgs_nonneg l : 0 ≤ count_msgs l.
Proof. unfold count_msgs. lia. Qed.

Lemma pending_write u m :
  Forall is_more (sp_incomplete u) →
  pending_msgs (up_write u m (has_flag m msg_more)) = pending_msgs u + (if is_last_part m then 1 else 0).
Proof.
  intros Hm. unfold pending_msgs, up_write, spec_write. destruct (has_flag m msg_more) eqn:E; simpl.
  - unfold is_last_part. rewrite E. simpl. lia.
  - rewrite !count_msgs_app, (count_msgs_more _ Hm), count_msgs_cons. change (count_msgs []) with 0. lia.
Qed.

Lemma pending_flush u : pending_msgs (up_flush u).2 = pending_msgs u.
Proof.
  unfold pending_msgs, up_flush. destruct u as [fl [|m co] inc asl]; [done|]. simpl. by rewrite app_nil_r.
Qed.

Lemma ordered_last P As R : ordered P As R → P ≤ last_wakeup P As ≤ R.
Proof. revert P. induction As as [|A As IH]; intros P; simpl; [lia|]. intros [HP HA]. specialize (IH A HA). lia. Qed.

Lemma ordered_weaken P As R R' : ordered P As R → R ≤ R' → ordered P As R'.
Proof. revert P. induction As as [|A As IH]; intros P; simpl; [lia|]. intros [HP HA]. eauto. Qed.

Lemma ordered_snoc P As R R' : ordered P As R → R ≤ R' → ordered P (As ++ [R']) R'.
Proof. revert P. induction As as [|A As IH]; intros P; simpl; [lia|]. intros [HP HA]. eauto. Qed.

Lemma last_wakeup_snoc P As R : last_wakeup P (As ++ [R]) = R.
Proof. revert P. induction As as [|A As IH]; intros P; simpl; [done|]. apply IH. Qed.

Lemma wakeups_app l l' : wakeups (l ++ l') = wakeups l ++ wakeups l'.
Proof. induction l as [|[] l IH]; simpl; by rewrite ?IH. Qed.

Lemma u64_sub W P : u64 (u64 W - u64 P) = u64 (W - P).
Proof. unfold u64. by rewrite <- Zminus_mod. Qed.

Lemma u64_add_l a b : u64 (u64 a + b) = u64 (a + b).
Proof. unfold u64. apply Zplus_mod_idemp_l. Qed.

Lemma compute_lwm_bounds h : 0 < h < 2 ^ 31 - 1 → 0 < compute_lwm h ≤ h.
Proof. intros H. unfold compute_lwm. rewrite s32_small by lia. rewrite Z.quot_div_nonneg by lia. split; [apply Z.div_str_pos; lia|apply Z.div_le_upper_bound; lia]. Qed.

Lemma compute_lwm_nonpos h : - 2 ^ 31 ≤ h ≤ 0 → compute_lwm h ≤ 0.
Proof.
  intros H. unfold compute_lwm. rewrite s32_small by lia. destruct (decide (h = 0)) as [->|]; [done|].
  replace (h + 1) with (- (- h - 1)) by lia. rewrite Z.quot_opp_l by lia. rewrite Z.quot_div_nonneg by lia.
  pose proof (Z.div_pos (- h - 1) 2). lia.
Qed.

(** ** One direction *)

Section direction.
Context {h : Z} (Hh : - 2 ^ 31 ≤ h < 2 ^ 31 - 1).

Lemma flow_room x y u cxy cyx W R P As :
  flow h x y u cxy cyx W R P As →
  if pipe_check_hwm x then 0 < h → W - P < h else 0 < h ∧ h ≤ W - P.
Proof.
  intros [H1 H2 H3 H4 H5 H6 H7 H8 H9 H10 H11 H12 H13 H14]. unfold pipe_check_hwm. rewrite H7, H1, H3, u64_sub.
  pose proof (ordered_last _ _ _ H5). pose proof (count_msgs_nonneg (sp_flushed u ++ sp_complete u)). unfold pending_msgs in H6.
  destruct (Z.ltb_spec 0 h) as [Hpos|]; simpl; [|lia]. specialize (H9 Hpos). rewrite u64_small by lia.
  destruct (Z.leb_spec h (W - P)); simpl; lia.
Qed.

(** What does not concern the direction may change. *)
Lemma flow_frame x y u cxy cyx x' y' cxy' cyx' W R P As :
  flow h x y u cxy cyx W R P As →
  pi_msgs_written x' = pi_msgs_written x → pi_peers_msgs_read x' = pi_peers_msgs_read x → pi_hwm x' = pi_hwm x →
  pi_out_active x' = pi_out_active x → pi_msgs_read y' = pi_msgs_read y → pi_lwm y' = pi_lwm y →
  pi_in_active y' = pi_in_active y → (CActivateRead ∈ cxy → CActivateRead ∈ cxy') → wakeups cyx' = wakeups cyx →
  flow h x' y' u cxy' cyx' W R P As.
Proof.
  intros [H1 H2 H3 H4 H5 H6 H7 H8 H9 H10 H11 H12 H13 H14] E1 E2 E3 E4 E5 E6 E7 E8 E9. split; try congruence; rewrite ?E4, ?E7; try done.
  intros Ha. destruct (H12 Ha) as [?|?]; auto.
Qed.

Lemma flow_block x y u cxy cyx W R P As :
  flow h x y u cxy cyx W R P As → pipe_check_hwm x = false →
  flow h (with_active (pi_in_active x) false x) y u cxy cyx W R P As.
Proof.
  intros Hf Hc. pose proof (flow_room _ _ _ _ _ _ _ _ _ Hf) as Hr. rewrite Hc in Hr.
  destruct Hf as [H1 H2 H3 H4 H5 H6 H7 H8 H9 H10 H11 H12 H13 H14]. by split.
Qed.

Lemma flow_write x y u cxy cyx W R P As m :
  flow h x y u cxy cyx W R P As → pipe_check_hwm x = true → pi_out_active x = true → plain_msg m →
  flow h (count_written m x) y (up_write u m (has_flag m msg_more)) cxy cyx (W + if is_last_part m then 1 else 0) R P As.
Proof.
  intros Hf Hc Ho Hm. pose proof (flow_room _ _ _ _ _ _ _ _ _ Hf) as Hr. rewrite Hc in Hr.
  destruct Hf as [H1 H2 H3 H4 H5 H6 H7 H8 H9 H10 H11 H12 H13 H14]. split; try done; simpl.
  - unfold is_last_part. rewrite H1. destruct (_ && _); [apply u64_add_l|]. by rewrite Z.add_0_r.
  - rewrite (pending_write u m H14). lia.
  - intros Hpos. specialize (Hr Hpos). destruct (is_last_part m); lia.
  - rewrite Ho. done.
  - intros Ha. destruct (H12 Ha) as [[Hfl Has]|Hin]; [left|by right]. unfold up_write, spec_write. by destruct (has_flag m msg_more).
  - unfold up_write, spec_write, sp_all in *. rewrite !Forall_app in H13. destruct H13 as (? & ? & ?).
    destruct (has_flag m msg_more); simpl; rewrite !Forall_app; split_and!; try done; repeat constructor; apply Hm.
  - unfold up_write, spec_write. destruct (has_flag m msg_more) eqn:E; simpl; [|constructor]. apply Forall_app. split; [done|].
    by repeat constructor.
Qed.

Lemma flow_flush x y u cxy cyx W R P As ok u' :
  flow h x y u cxy cyx W R P As → up_flush u = (ok, u') →
  flow h x y u' (cxy ++ if ok : bool then [] else [CActivateRead]) cyx W R P As.
Proof.
  intros [H1 H2 H3 H4 H5 H6 H7 H8 H9 H10 H11 H12 H13 H14] Hu. destruct (up_flush_all u) as [Ha Hi]. pose proof (pending_flush u) as Hp.
  rewrite Hu in Ha, Hi, Hp. simpl in Ha, Hi, Hp. split; try done; rewrite ?Ha, ?Hi, ?Hp; try done.
  intros Hin. destruct ok; [|right; set_solver]. rewrite app_nil_r. destruct (H12 Hin) as [[Hfl Has]|Hc]; [left|by right].
  unfold up_flush in Hu. destruct (sp_complete u); [by simplify_eq|]. rewrite Has in Hu. simpl in Hu. discriminate.
Qed.

Lemma flow_rollback x y u cxy cyx W R P As :
  flow h x y u cxy cyx W R P As →
  flow h x y (Spec (sp_flushed u) (sp_complete u) [] (sp_asleep u)) cxy cyx W R P As.
Proof.
  intros [H1 H2 H3 H4 H5 H6 H7 H8 H9 H10 H11 H12 H13 H14]. split; try done.
  unfold sp_all in *. simpl. rewrite !Forall_app in *. naive_solver.
Qed.

(** The writer is woken up. *)
Lemma flow_woken x y u cxy cyx W R P As n x' :
  flow h x y u cxy (CActivateWrite n :: cyx) W R P As →
  pi_msgs_written x' = pi_msgs_written x → pi_hwm x' = pi_hwm x → pi_peers_msgs_read x' = n → pi_out_active x' = true →
  ∃ P' As', flow h x' y u cxy cyx W R P' As'.
Proof.
  intros [H1 H2 H3 H4 H5 H6 H7 H8 H9 H10 H11 H12 H13 H14] E1 E2 E3 E4. destruct As as [|A As]; [done|]. simpl in H4, H5, H10.
  injection H4 as -> H4. destruct H5 as [HP HA]. exists A, As. split; try done; try congruence.
  intros Hpos. specialize (H9 Hpos). lia.
Qed.

Lemma flow_sleep x y u cxy cyx W R P As y' :
  flow h x y u cxy cyx W R P As → sp_flushed u = [] → pi_msgs_read y' = pi_msgs_read y → pi_lwm y' = pi_lwm y →
  flow h x y' (Spec [] (sp_complete u) (sp_incomplete u) true) cxy cyx W R P As.
Proof.
  intros [H1 H2 H3 H4 H5 H6 H7 H8 H9 H10 H11 H12 H13 H14] Hfl E1 E2. unfold pending_msgs, sp_all in *. rewrite Hfl in *.
  split; try done; try congruence. by left.
Qed.

Lemma flow_wake x y u cxy cyx W R P As y' :
  flow h x y u cxy cyx W R P As → pi_msgs_read y' = pi_msgs_read y → pi_lwm y' = pi_lwm y → pi_in_active y' = true →
  ∀ cxy', flow h x y' u cxy' cyx W R P As.
Proof.
  intros [H1 H2 H3 H4 H5 H6 H7 H8 H9 H10 H11 H12 H13 H14] E1 E2 E3 cxy'. split; try done; congruence.
Qed.

(** The wake-up of the writer is never more than the low watermark behind. *)
Lemma last_step L R c :
  0 < h → (c = 0 ∨ c = 1) → u64 L `mod` compute_lwm h = 0 → L ≤ R → L / 2 ^ 64 = R / 2 ^ 64 → R < L + compute_lwm h →
  u64 (R + c) `mod` compute_lwm h ≠ 0 → L / 2 ^ 64 = (R + c) / 2 ^ 64 ∧ R + c < L + compute_lwm h.
Proof.
  intros Hpos Hc HL HLR Hdiv Hlt Hmod. destruct Hc as [->| ->]; [rewrite !Z.add_0_r; done|].
  pose proof (compute_lwm_bounds h ltac:(lia)) as Hw.
  unfold u64 in *. pose proof (Z.div_mod R (2 ^ 64)). pose proof (Z.mod_pos_bound R (2 ^ 64)). pose proof (Z.div_mod L (2 ^ 64)).
  destruct (decide (R `mod` 2 ^ 64 = 2 ^ 64 - 1)) as [Hwrap|Hwrap].
  { destruct Hmod. assert (Hz : (R + 1) `mod` 2 ^ 64 = 0) by (by rewrite <- Zplus_mod_idemp_l, Hwrap).
    rewrite Hz. apply Zmod_0_l. }
  assert (Hd : (R + 1) / 2 ^ 64 = R / 2 ^ 64).
  { symmetry. apply (Z.div_unique _ _ _ (R `mod` 2 ^ 64 + 1)); lia. }
  assert (Hm : (R + 1) `mod` 2 ^ 64 = R `mod` 2 ^ 64 + 1).
  { symmetry. apply (Z.mod_unique _ _ (R / 2 ^ 64)); lia. }
  rewrite Hd. split; [done|]. destruct (decide (R + 1 < L + compute_lwm h)); [done|]. destruct Hmod. rewrite Hm.
  replace (R `mod` 2 ^ 64 + 1) with (L `mod` 2 ^ 64 + compute_lwm h) by lia.
  rewrite <- Zplus_mod_idemp_l, HL, Z.add_0_l. apply Z.mod_same. lia.
Qed.

Lemma flow_read x y u cxy cyx W R P As m fl y' :
  flow h x y u cxy cyx W R P As → sp_flushed u = m :: fl →
  pi_msgs_read y' = pi_msgs_read (count_read m y) → pi_lwm y' = pi_lwm y → pi_in_active y' = pi_in_active y → pi_in_active y = true →
  let l := if decide (0 < pi_lwm y' ∧ pi_msgs_read y' `mod` u64 (pi_lwm y') = 0) then [CActivateWrite (pi_msgs_read y')] else [] in
  ∃ R' As', flow h x y' (Spec fl (sp_complete u) (sp_incomplete u) (sp_asleep u)) cxy (cyx ++ l) W R' P As'.
Proof.
  intros [H1 H2 H3 H4 H5 H6 H7 H8 H9 H10 H11 H12 H13 H14] Hfl E1 E2 E3 Ha l. set (c := if is_last_part m then 1 else 0).
  assert (Hc : c = 0 ∨ c = 1) by (unfold c; destruct (is_last_part m); auto).
  assert (Hr : pi_msgs_read y' = u64 (R + c)).
  { rewrite E1. simpl. unfold c, is_last_part. rewrite H2. destruct (_ && _); [apply u64_add_l|]. by rewrite Z.add_0_r. }
  assert (Hpend : pending_msgs (Spec fl (sp_complete u) (sp_incomplete u) (sp_asleep u)) = pending_msgs u - c).
  { unfold pending_msgs. rewrite Hfl. simpl. rewrite count_msgs_cons. unfold c. lia. }
  assert (Hplain : Forall plain_msg (sp_all (Spec fl (sp_complete u) (sp_incomplete u) (sp_asleep u)))).
  { unfold sp_all in *. rewrite Hfl in H13. simpl in *. by apply Forall_cons in H13 as [_ ?]. }
  assert (Hw : 0 < h → u64 (compute_lwm h) = compute_lwm h ∧ 0 < compute_lwm h).
  { intros Hpos. pose proof (compute_lwm_bounds h ltac:(lia)). rewrite u64_small by lia. lia. }
  pose proof (ordered_last _ _ _ H5) as HL. unfold l. clear l. rewrite E2, H8, Hr. destruct (decide _) as [[Hpos Hm]|Hn].
  - exists (R + c), (As ++ [R + c]).
    assert (Hhp : 0 < h) by (destruct (decide (0 < h)); [done|pose proof (compute_lwm_nonpos h); lia]).
    split; try done; try congruence; rewrite ?last_wakeup_snoc.
    + rewrite wakeups_app, H4, fmap_app. done.
    + apply (ordered_snoc _ _ R); [done|lia].
    + lia.
    + intros _. destruct (Hw Hhp) as [Hu ?]. rewrite Hu in Hm. split_and!; [done|done|lia].
  - exists (R + c), As. rewrite app_nil_r. split; try done; try congruence.
    + apply (ordered_weaken _ _ R); [done|lia].
    + lia.
    + intros Hpos. destruct (H10 Hpos) as (A1 & A2 & A3). destruct (Hw Hpos) as [Hu ?]. split; [done|].
      apply last_step; try done; [lia|]. intros Hz. apply Hn. by rewrite Hu.
Qed.
End direction.

(** ** Both directions *)

Section pair.
Context {h0 h1 : Z} (Hh0 : - 2 ^ 31 ≤ h0 < 2 ^ 31 - 1) (Hh1 : - 2 ^ 31 ≤ h1 < 2 ^ 31 - 1).

Definition flow_ok (s : psys) : Prop := ∃ x y a b ua ub, flow_inv h0 h1 s x y a b ua ub.

(** An operation of the left end that changes what it writes. *)
Lemma write_side s x y a b ua ub e x' ub' l :
  flow_inv h0 h1 s x y a b ua ub → pe_pipe e = x' → pe_ups e = <[b := ub']> (sy_ups s) → pe_sent e = l →
  pi_in_pipe x' = pi_in_pipe x → pi_out_pipe x' = pi_out_pipe x → pi_state x' = pi_state x →
  pi_msgs_read x' = pi_msgs_read x → pi_lwm x' = pi_lwm x → pi_in_active x' = pi_in_active x →
  l = [] ∨ l = [CActivateRead] →
  (∀ W R P As, flow h0 x y ub (sy_lr s) (sy_rl s) W R P As → ∃ W R P As, flow h0 x' y ub' (sy_lr s ++ l) (sy_rl s) W R P As) →
  flow_ok (after s (sy_rl s) e).
Proof.
  intros [H1 H2 H3 H4 H5 H6 H7 H8 H9 H10 H11 (W & R & P & As & H12) (W' & R' & P' & As' & H13) H14 H15] Hx Hu Hl E1 E2 E3 E4 E5 E6 Hlc Hf.
  exists x', y, a, b, ua, ub'. destruct (Hf _ _ _ _ H12) as (W1 & R1 & P1 & As1 & H12'). unfold after.
  split; simpl; rewrite ?Hu, ?Hl, ?Hx; try congruence; try done.
  - by rewrite lookup_insert_ne.
  - by rewrite lookup_insert_eq.
  - by exists W1, R1, P1, As1.
  - exists W', R', P', As'. eapply flow_frame; try done. rewrite wakeups_app. destruct Hlc as [->| ->]; by rewrite app_nil_r.
  - apply Forall_app. split; [done|]. destruct Hlc as [->| ->]; by repeat constructor.
Qed.

(** An operation of the left end that changes what it reads. *)
Lemma read_side s x y a b ua ub e x' ua' l :
  flow_inv h0 h1 s x y a b ua ub → pe_pipe e = x' → pe_ups e = <[a := ua']> (sy_ups s) → pe_sent e = l →
  pi_in_pipe x' = pi_in_pipe x → pi_out_pipe x' = pi_out_pipe x → pi_state x' = pi_state x →
  pi_msgs_written x' = pi_msgs_written x → pi_hwm x' = pi_hwm x → pi_out_active x' = pi_out_active x →
  pi_peers_msgs_read x' = pi_peers_msgs_read x → Forall flow_cmd l →
  (∀ W R P As, flow h1 y x ua (sy_rl s) (sy_lr s) W R P As → ∃ W R P As, flow h1 y x' ua' (sy_rl s) (sy_lr s ++ l) W R P As) →
  flow_ok (after s (sy_rl s) e).
Proof.
  intros [H1 H2 H3 H4 H5 H6 H7 H8 H9 H10 H11 (W & R & P & As & H12) (W' & R' & P' & As' & H13) H14 H15] Hx Hu Hl E1 E2 E3 E4 E5 E6 E7 Hlc Hf.
  exists x', y, a, b, ua', ub. destruct (Hf _ _ _ _ H13) as (W1 & R1 & P1 & As1 & H13'). unfold after.
  split; simpl; rewrite ?Hu, ?Hl, ?Hx; try congruence; try done.
  - by rewrite lookup_insert_eq.
  - by rewrite lookup_insert_ne.
  - exists W, R, P, As. eapply flow_frame; try done. intros ?. apply elem_of_app. by left.
  - by exists W1, R1, P1, As1.
  - apply Forall_app. done.
Qed.

Lemma same_side s x y a b ua ub : flow_inv h0 h1 s x y a b ua ub → flow_ok (after s (sy_rl s) (env_of x s)).
Proof. intros H. rewrite after_start by apply H. by exists x, y, a, b, ua, ub. Qed.

Lemma flow_write_op s x y a b ua ub m :
  flow_inv h0 h1 s x y a b ua ub → plain_msg m →
  ∃ r e, pipe_write m (env_of x s) = Done (r, e) ∧ flow_ok (after s (sy_rl s) e).
Proof.
  intros Hi Hm. pose proof (fi_b _ _ _ _ _ _ _ _ _ Hi) as Hb. unfold pipe_write, pipe_check_write. simpl.
  rewrite (fi_xst _ _ _ _ _ _ _ _ _ Hi). rewrite bool_decide_eq_true_2, orb_false_r by done.
  destruct (pi_out_active x) eqn:Ho; simpl; [|eexists _, _; split; [done|]; by eapply same_side].
  destruct (pipe_check_hwm x) eqn:Hc; simpl.
  - unfold out_of, get_up. simpl. rewrite (fi_xout _ _ _ _ _ _ _ _ _ Hi), bind_Done, Hb, bind_Done. eexists _, _. split; [done|].
    eapply (write_side s x y a b ua ub _ _ _ []); try done; [by left|]. intros W R P As Hf. rewrite app_nil_r.
    exists (W + if is_last_part m then 1 else 0), R, P, As. by apply flow_write.
  - eexists _, _. split; [done|]. eapply (write_side s x y a b ua ub _ _ ub []); try done; [by rewrite insert_id|by left|].
    intros W R P As Hf. rewrite app_nil_r. exists W, R, P, As. by apply flow_block.
Qed.

Lemma flow_check_write_op s x y a b ua ub :
  flow_inv h0 h1 s x y a b ua ub → flow_ok (after s (sy_rl s) (pipe_check_write (env_of x s)).2).
Proof.
  intros Hi. pose proof (fi_b _ _ _ _ _ _ _ _ _ Hi) as Hb. unfold pipe_check_write. simpl.
  destruct (negb (pi_out_active x) || _); [by eapply same_side|]. destruct (pipe_check_hwm x) eqn:Hc; [by eapply same_side|].
  eapply (write_side s x y a b ua ub _ _ ub []); try done; [by rewrite insert_id|by left|].
  intros W R P As Hf. rewrite app_nil_r. exists W, R, P, As. by apply flow_block.
Qed.

Lemma flow_flush_op s x y a b ua ub :
  flow_inv h0 h1 s x y a b ua ub → ∃ e, pipe_flush (env_of x s) = Done e ∧ flow_ok (after s (sy_rl s) e).
Proof.
  intros Hi. pose proof (fi_b _ _ _ _ _ _ _ _ _ Hi) as Hb. unfold pipe_flush, get_up. simpl.
  rewrite (fi_xst _ _ _ _ _ _ _ _ _ Hi), decide_False by done. rewrite (fi_xout _ _ _ _ _ _ _ _ _ Hi), Hb, bind_Done.
  destruct (up_flush ub) as [ok ub'] eqn:Hf. eexists. split; [done|].
  eapply (write_side s x y a b ua ub _ x ub' (if ok then [] else [CActivateRead])); try done; try (by destruct ok; auto).
  intros W R P As H. exists W, R, P, As. by eapply flow_flush.
Qed.

Lemma flow_rollback_op s x y a b ua ub :
  flow_inv h0 h1 s x y a b ua ub → ∃ e, pipe_rollback (env_of x s) = Done e ∧ flow_ok (after s (sy_rl s) e).
Proof.
  intros Hi. pose proof (fi_b _ _ _ _ _ _ _ _ _ Hi) as Hb. unfold pipe_rollback, get_up. simpl.
  rewrite (fi_xout _ _ _ _ _ _ _ _ _ Hi), Hb, bind_Done. destruct (fi_lr _ _ _ _ _ _ _ _ _ Hi) as (W & R & P & As & Hf).
  destruct (rollback_loop_spec (S (length (sp_incomplete ub))) b (env_of x s) ub) as (e & He & Hp & Hs & _ & Hu);
    [done|apply Hf|lia|]. exists e. split; [done|].
  eapply (write_side s x y a b ua ub _ x _ []); try done; [by left|]. intros W' R' P' As' H. rewrite app_nil_r.
  exists W', R', P', As'. by apply flow_rollback.
Qed.

Lemma flow_sleep_op s x y a b ua ub :
  flow_inv h0 h1 s x y a b ua ub → sp_flushed ua = [] →
  flow_ok (after s (sy_rl s) (in_sleeps (put_up a (Spec [] (sp_complete ua) (sp_incomplete ua) true) (env_of x s)))).
Proof.
  intros Hi Hfl. eapply (read_side s x y a b ua ub _ _ _ []); try done. intros W R P As Hf. rewrite app_nil_r.
  exists W, R, P, As. by eapply flow_sleep.
Qed.

Lemma flow_head s x y a b ua ub m fl :
  flow_inv h0 h1 s x y a b ua ub → sp_flushed ua = m :: fl → plain_msg m.
Proof.
  intros Hi Hfl. destruct (fi_rl _ _ _ _ _ _ _ _ _ Hi) as (W & R & P & As & Hf). pose proof (fl_plain _ _ _ _ _ _ _ _ _ _ Hf) as Hp.
  unfold sp_all in Hp. rewrite Hfl in Hp. simpl in Hp. by apply Forall_cons in Hp as [? _].
Qed.

Lemma flow_read_op s x y a b ua ub :
  flow_inv h0 h1 s x y a b ua ub → ∃ r e, pipe_read (env_of x s) = Done (r, e) ∧ flow_ok (after s (sy_rl s) e).
Proof.
  intros Hi. pose proof (fi_a _ _ _ _ _ _ _ _ _ Hi) as Ha. unfold pipe_read, can_read.
  change (pe_pipe (env_of x s)) with x.
  rewrite (fi_xst _ _ _ _ _ _ _ _ _ Hi), bool_decide_eq_true_2, andb_true_r by auto.
  destruct (pi_in_active x) eqn:Hact; cbn [negb]; [|eexists _, _; split; [done|]; by eapply same_side].
  rewrite (fi_xin _ _ _ _ _ _ _ _ _ Hi), (get_up_done (env_of x s) a ua Ha), bind_Done. cbn [read_loop].
  rewrite (get_up_done (env_of x s) a ua Ha), bind_Done.
  destruct (up_read_cases ua) as [[Hfl ->]|(m & fl & Hfl & ->)].
  - rewrite bind_Done. eexists _, _. split; [done|]. by eapply flow_sleep_op.
  - destruct (flow_head _ _ _ _ _ _ _ _ _ Hi Hfl) as [Hd Hcr]. rewrite Hcr, bind_Done, Hd. eexists _, _. split; [done|].
    set (x' := count_read m x).
    eapply (read_side s x y a b ua ub _ x' _
      (if decide (0 < pi_lwm x' ∧ pi_msgs_read x' `mod` u64 (pi_lwm x') = 0) then [CActivateWrite (pi_msgs_read x')] else []));
      try (by simpl; destruct (decide _)); try done.
    + destruct (decide _); by repeat constructor.
    + intros W R P As Hf. destruct (flow_read Hh1 y x ua (sy_rl s) (sy_lr s) W R P As m fl x' Hf Hfl) as (R' & As' & Hf'); try done.
      by exists W, R', P, As'.
Qed.

Lemma flow_check_read_op s x y a b ua ub :
  flow_inv h0 h1 s x y a b ua ub → ∃ r e, pipe_check_read (env_of x s) = Done (r, e) ∧ flow_ok (after s (sy_rl s) e).
Proof.
  intros Hi. pose proof (fi_a _ _ _ _ _ _ _ _ _ Hi) as Ha. unfold pipe_check_read, can_read. simpl.
  rewrite (fi_xst _ _ _ _ _ _ _ _ _ Hi), bool_decide_eq_true_2, andb_true_r by auto.
  destruct (pi_in_active x) eqn:Hact; simpl; [|eexists _, _; split; [done|]; by eapply same_side].
  rewrite (fi_xin _ _ _ _ _ _ _ _ _ Hi), (get_up_done (env_of x s) a ua Ha), bind_Done.
  unfold up_check_read, spec_check_read, up_probe. destruct (sp_flushed ua) as [|m fl] eqn:Hfl; simpl.
  - eexists _, _. split; [done|]. by eapply flow_sleep_op.
  - rewrite Hfl, bind_Done. destruct (flow_head _ _ _ _ _ _ _ _ _ Hi Hfl) as [Hd _]. rewrite Hd. eexists _, _. split; [done|].
    eapply (read_side s x y a b ua ub _ x ua []); try done. intros. rewrite app_nil_r. eauto.
Qed.

(** A command arrives at the left end. *)
Lemma flow_cmd_op s x y a b ua ub c rl :
  flow_inv h0 h1 s x y a b ua ub → sy_rl s = c :: rl →
  ∃ e, process_cmd c (env_of x s) = Done e ∧ flow_ok (after s rl e) ∧ c ≠ CPipeTermAck.
Proof.
  intros [H1 H2 H3 H4 H5 H6 H7 H8 H9 H10 H11 (W & R & P & As & H12) (W' & R' & P' & As' & H13) H14 H15] Hrl.
  rewrite Hrl in *. apply Forall_cons in H15 as [Hc H15].
  destruct c as [|n| | | |]; try done; simpl; eexists; (split; [done|]); (split; [|done]).
  - unfold process_activate_read. simpl. rewrite H7, bool_decide_eq_true_2, andb_true_r by auto.
    assert (Hgo : ∀ x' evs, pi_in_pipe x' = pi_in_pipe x → pi_out_pipe x' = pi_out_pipe x → pi_state x' = pi_state x →
      pi_msgs_read x' = pi_msgs_read x → pi_lwm x' = pi_lwm x → pi_in_active x' = true →
      pi_msgs_written x' = pi_msgs_written x → pi_hwm x' = pi_hwm x → pi_out_active x' = pi_out_active x →
      pi_peers_msgs_read x' = pi_peers_msgs_read x → flow_ok (after s rl (PEnv x' (sy_ups s) [] evs []))).
    { intros x' evs E1 E2 E3 E4 E5 E6 E7 E8 E9 E10. exists x', y, a, b, ua, ub. unfold after.
      split; simpl; rewrite ?app_nil_r; try congruence; try done.
      - exists W, R, P, As. by eapply flow_frame.
      - exists W', R', P', As'. by eapply flow_wake. }
    destruct (pi_in_active x) eqn:Hact; by apply Hgo.
  - unfold process_activate_write. simpl. rewrite H7, bool_decide_eq_true_2, andb_true_r by auto.
    assert (Hgo : ∀ x' evs, pi_in_pipe x' = pi_in_pipe x → pi_out_pipe x' = pi_out_pipe x → pi_state x' = pi_state x →
      pi_msgs_read x' = pi_msgs_read x → pi_lwm x' = pi_lwm x → pi_in_active x' = pi_in_active x →
      pi_msgs_written x' = pi_msgs_written x → pi_hwm x' = pi_hwm x → pi_out_active x' = true →
      pi_peers_msgs_read x' = n → flow_ok (after s rl (PEnv x' (sy_ups s) [] evs []))).
    { intros x' evs E1 E2 E3 E4 E5 E6 E7 E8 E9 E10. exists x', y, a, b, ua, ub. unfold after.
      split; simpl; rewrite ?app_nil_r; try congruence; try done.
      - destruct (flow_woken x y ub _ _ _ _ _ _ n x' H12) as (P1 & As1 & Hf); try done. by exists W, R, P1, As1.
      - exists W', R', P', As'. eapply flow_frame; try done. by intros [?|?]%elem_of_cons. }
    destruct (pi_out_active x) eqn:Hact; by apply Hgo.
Qed.

Lemma flow_left_step s op :
  flow_ok s → flow_op op → ∃ r, left_step s op = Done r ∧ ∀ s', r = Some s' → flow_ok s'.
Proof.
  intros (x & y & a & b & ua & ub & Hi) Hop. unfold left_step. rewrite (fi_left _ _ _ _ _ _ _ _ _ Hi).
  destruct op; try done; cbn [user_op].
  - destruct (flow_read_op _ _ _ _ _ _ _ Hi) as (r & e & -> & Hok). rewrite !bind_Done. eexists. split; [done|]. by intros s' [= <-].
  - destruct (flow_check_read_op _ _ _ _ _ _ _ Hi) as (r & e & -> & Hok). rewrite !bind_Done. eexists. split; [done|]. by intros s' [= <-].
  - destruct (flow_write_op _ _ _ _ _ _ _ m Hi Hop) as (r & e & -> & Hok). rewrite !bind_Done. eexists. split; [done|]. by intros s' [= <-].
  - rewrite bind_Done. eexists. split; [done|]. intros s' [= <-]. by eapply flow_check_write_op.
  - destruct (flow_flush_op _ _ _ _ _ _ _ Hi) as (e & -> & Hok). rewrite !bind_Done. eexists. split; [done|]. by intros s' [= <-].
  - destruct (flow_rollback_op _ _ _ _ _ _ _ Hi) as (e & -> & Hok). rewrite !bind_Done. eexists. split; [done|]. by intros s' [= <-].
  - destruct (sy_rl s) as [|c rl] eqn:Hrl; [by exists None|].
    destruct (flow_cmd_op _ _ _ _ _ _ _ c rl Hi Hrl) as (e & -> & Hok & Hne). rewrite bind_Done. eexists. split; [done|].
    intros s' [= <-]. by destruct c.
Qed.
End pair.

Lemma flow_ok_swap h0 h1 s : @flow_ok h0 h1 s → @flow_ok h1 h0 (swap_sys s).
Proof.
  intros (x & y & a & b & ua & ub & [H1 H2 H3 H4 H5 H6 H7 H8 H9 H10 H11 H12 H13 H14 H15]).
  exists y, x, b, a, ub, ua. by split.
Qed.

Lemma flow_pipepair h0 h1 :
  - 2 ^ 31 ≤ h0 < 2 ^ 31 - 1 → - 2 ^ 31 ≤ h1 < 2 ^ 31 - 1 → @flow_ok h0 h1 (pipepair h0 h1).
Proof.
  intros Hh0 Hh1.
  assert (Hdir : ∀ h a b i o, - 2 ^ 31 ≤ h < 2 ^ 31 - 1 →
    flow h (pipe_new a b i h) (pipe_new b a h o) up_new [] [] 0 0 0 []).
  { intros h a b i o Hh. split; try done; simpl; try lia. intros Hpos. pose proof (compute_lwm_bounds h ltac:(lia)).
    split; [apply Zmod_0_l|]. split; [done|lia]. }
  eexists _, _, 0%nat, 1%nat, up_new, up_new. split; try done.
  - exists 0, 0, 0, []. by apply Hdir.
  - exists 0, 0, 0, []. by apply Hdir.
Qed.

Lemma flow_reachable_ok h0 h1 s :
  - 2 ^ 31 ≤ h0 < 2 ^ 31 - 1 → - 2 ^ 31 ≤ h1 < 2 ^ 31 - 1 → flow_reachable h0 h1 s → @flow_ok h0 h1 s.
Proof.
  intros Hh0 Hh1. induction 1 as [|s l op s' _ IH Hop Hs]; [by apply flow_pipepair|]. destruct l; simpl in Hs.
  - destruct (flow_left_step Hh0 Hh1 s op IH Hop) as (r & Hr & Hi). rewrite Hs in Hr. injection Hr as <-. by apply Hi.
  - destruct (flow_left_step Hh1 Hh0 (swap_sys s) op (flow_ok_swap _ _ _ IH) Hop) as (r & Hr & Hi). unfold sys_step in Hs.
    rewrite Hr in Hs. simpl in Hs. injection Hs as Hs. destruct r as [s1|]; [|done]. injection Hs as <-. by apply flow_ok_swap, Hi.
Qed.

(** ** What flow control guarantees *)

(** The direction from [x] to [y] over [u]: the watermark bounds what waits in the
    queue; when the writer is stopped and everything was read, a wake-up that makes
    room is under way; and when the reader sleeps over messages, so is its wake-up. *)
Record served (h : Z) (x y : pipe_t) (u : upipe) (cxy cyx : list pcmd) : Prop := {
  sv_bound : 0 < h → pending_msgs u ≤ h;
  sv_writer : pi_out_active x = false → pending_msgs u = 0 →
    ∃ n, last (wakeups cyx) = Some n ∧ u64 (pi_msgs_written x - n) < h;
  sv_reader : pi_in_active y = false → sp_flushed u ≠ [] → CActivateRead ∈ cxy;
}.

Lemma last_wakeup_last P As : As ≠ [] → last As = Some (last_wakeup P As).
Proof.
  revert P. induction As as [|A As IH]; intros P Hne; [done|]. simpl. destruct As as [|A' As]; [done|]. by apply (IH A).
Qed.

Lemma flow_served h x y u cxy cyx W R P As :
  - 2 ^ 31 ≤ h < 2 ^ 31 - 1 → flow h x y u cxy cyx W R P As → served h x y u cxy cyx.
Proof.
  intros Hh [H1 H2 H3 H4 H5 H6 H7 H8 H9 H10 H11 H12 H13 H14]. pose proof (ordered_last _ _ _ H5) as HL. split.
  - intros Hpos. specialize (H9 Hpos). lia.
  - intros Ho Hp. destruct (H11 Ho) as [Hpos Hb]. destruct (H10 Hpos) as (_ & _ & Hlt). pose proof (compute_lwm_bounds h ltac:(lia)).
    exists (u64 (last_wakeup P As)). split.
    + rewrite H4, fmap_last, (last_wakeup_last P); [done|]. intros ->. simpl in *. lia.
    + rewrite H1, u64_sub, u64_small; lia.
  - intros Ha Hne. destruct (H12 Ha) as [[? _]|?]; done.
Qed.

(** C13: flow control between the ends of a pipe works in both directions, in any
    interleaving of reads, writes, rollbacks, flushes and commands, also when the
    64-bit counters wrap: never more than the high watermark of messages wait in a
    queue; a writer that was stopped is woken up once everything was read, with a
    count that leaves room for the next message; and a reader that fell asleep is
    woken up when messages were flushed. *)
Theorem pipe_flow_control h0 h1 s :
  - 2 ^ 31 ≤ h0 < 2 ^ 31 - 1 → - 2 ^ 31 ≤ h1 < 2 ^ 31 - 1 → flow_reachable h0 h1 s →
  ∃ x y ua ub, sy_left s = Some x ∧ sy_right s = Some y
    ∧ sy_ups s !! pi_in_pipe x = Some ua ∧ sy_ups s !! pi_in_pipe y = Some ub
    ∧ served h0 x y ub (sy_lr s) (sy_rl s) ∧ served h1 y x ua (sy_rl s) (sy_lr s).
Proof.
  intros Hh0 Hh1 Hs. destruct (flow_reachable_ok h0 h1 s Hh0 Hh1 Hs) as (x & y & a & b & ua & ub & Hi).
  destruct Hi as [H1 H2 H3 H4 H5 H6 H7 H8 H9 H10 H11 (W & R & P & As & H12) (W' & R' & P' & As' & H13) H14 H15].
  exists x, y, ua, ub. rewrite H3, H5. split_and!; try done; by eapply flow_served.
Qed.

Lemma flow_run_reachable h0 h1 s ops s' :
  flow_reachable h0 h1 s → Forall (λ o, flow_op o.2) ops → pair_run s ops = Done s' → flow_reachable h0 h1 s'.
Proof.
  revert s. induction ops as [|[l op] ops IH]; intros s Hs Hf; [by intros [= <-]|]. cbn [pair_run].
  apply Forall_cons in Hf as [Hf1 Hf]. simpl in Hf1.
  destruct (sys_step s l op) as [r| |] eqn:Hr; [rewrite bind_Done|done..]. destruct r as [s1|]; [|by apply IH].
  apply IH; [|done]. by eapply flow_step.
Qed.

(** Two messages fill the queue, the writer is stopped, and one is read. *)
Definition fill_run : list (bool * uop) :=
  [(true, UWrite msg_init); (true, UWrite msg_init); (true, UFlush); (true, UCheckWrite); (false, URead)].

Lemma pipe_flow_control_witness :
  ∃ s x y ub, pair_run (pipepair 2 2) fill_run = Done s ∧ sy_left s = Some x ∧ pi_out_active x = false
    ∧ served 2 x y ub (sy_lr s) (sy_rl s) ∧ pending_msgs ub = 1.
Proof.
  destruct (pair_run (pipepair 2 2) fill_run) as [s| |] eqn:E; [|by vm_compute in E..].
  assert (Hf : Forall (λ o : bool * uop, flow_op o.2) fill_run) by (by repeat constructor).
  destruct (pipe_flow_control 2 2 s ltac:(lia) ltac:(lia) (flow_run_reachable 2 2 _ fill_run s (flow_init 2 2) Hf E))
    as (x & y & ua & ub & Hx & Hy & _ & Hub & Hs & _).
  exists s, x, y, ub. vm_compute in E. injection E as <-. simpl in Hx, Hy. injection Hx as <-. injection Hy as <-.
  vm_compute in Hub. injection Hub as <-. split_and!; try done.
Defined.

(** ** A change of the receive watermark *)

(** [setsockopt (SL_RCVHWM)] on the reader's socket calls [set_hwms] on its end. *)
Definition rcvhwm_run : list (bool * uop) :=
  [(true, UWrite msg_init); (true, UWrite msg_init); (true, UFlush); (true, UCheckWrite); (false, USetHwms 10 2);
   (false, URead); (false, URead); (false, URead); (true, UProcess); (false, UProcess)].

(** The attempts of the left end to write, and of the right end to read. *)
Definition attempt (on_left : bool) (op : uop) : Prop :=
  match on_left, op with
  | true, (UWrite _ | UCheckWrite | UFlush | UProcess) | false, (URead | UCheckRead | UProcess) => True
  | _, _ => False
  end.

(** Raising the receive watermark of one end of a pipe in use stops the traffic
    for good (the change is not sent to the peer): the reader wakes the writer up
    only every [(10 + 1) / 2] messages, and the writer stops after 2.  Every
    message was read and no command is under way, but the writer may not write,
    and no attempt to write, flush, read or process commands changes that. *)
Lemma rcvhwm_change_stalls :
  ∃ s x, pair_run (pipepair 2 2) rcvhwm_run = Done s ∧ sy_lr s = [] ∧ sy_rl s = []
    ∧ sy_left s = Some x ∧ pi_out_active x = false
    ∧ (∀ q u, sy_ups s !! q = Some u → sp_all u = [])
    ∧ ∀ on_left op, attempt on_left op → sys_step s on_left op = Done None ∨ sys_step s on_left op = Done (Some s).
Proof.
  destruct (pair_run (pipepair 2 2) rcvhwm_run) as [s| |] eqn:E; [|by vm_compute in E..].
  vm_compute in E. injection E as <-. eexists _, _. split; [done|]. split; [done|]. split; [done|]. split; [done|]. split; [done|]. split.
  - intros q u Hq%elem_of_map_to_list. revert q u Hq. cbn [sy_ups]. set (l := map_to_list _). vm_compute in l. subst l.
    intros q u Hq. repeat (apply elem_of_cons in Hq as [[= -> ->]|Hq]; [done|]). by apply not_elem_of_nil in Hq.
  - intros l op Ha. destruct l, op; try done; by (left; reflexivity) || (right; reflexivity).
Qed.
