(* ===== verification/Sockets.v ===== *)
(** What the socket types share: pipes that can be read and written, and option
    values (src/util/constants.hpp).

    A socket reads and writes its pipes through [SocketPipes], which joins the
    interfaces of the fair queue and of the distributor: writing to pipes does not
    change what can be read from them, and reading writes nothing. *)
From S2P Require Import Prelude Msg PipeArray Dist Fq.

Class SocketPipes (W : Type) := {
  sk_in :: InPipes W;
  sk_out :: OutPipes W;
  sk_write_ready : ∀ (w : W) p m q, ip_ready (op_write w p m).2 q = ip_ready w q;
  sk_flush_ready : ∀ (w : W) p q, ip_ready (op_flush w p) q = ip_ready w q;
  sk_read_log : ∀ (w : W) p, op_log (ip_read w p).2 = op_log w;
  sk_check_log : ∀ (w : W) p, op_log (ip_check_read w p).2 = op_log w;
}.

(** What a socket does to a pipe besides: [set_nodelay], [terminate (delay)],
    [rollback] and [check_write].  Only what can be read from the pipe itself may
    change, and only by its termination. *)
Class PipeControl (W : Type) `{!SocketPipes W} := {
  pc_nodelay : W → nat → W;
  pc_terminate : W → nat → bool → W;
  pc_rollback : W → nat → W;
  pc_check_write : W → nat → bool * W;
  pc_nodelay_ready : ∀ (w : W) p q, ip_ready (pc_nodelay w p) q = ip_ready w q;
  pc_nodelay_log : ∀ (w : W) p, op_log (pc_nodelay w p) = op_log w;
  pc_terminate_ready : ∀ (w : W) p d q, q ≠ p → ip_ready (pc_terminate w p d) q = ip_ready w q;
  pc_terminate_log : ∀ (w : W) p d, op_log (pc_terminate w p d) = op_log w;
  pc_rollback_ready : ∀ (w : W) p q, ip_ready (pc_rollback w p) q = ip_ready w q;
  pc_rollback_log : ∀ (w : W) p, op_log (pc_rollback w p) = op_log w;
  pc_check_write_ready : ∀ (w : W) p q, ip_ready (pc_check_write w p).2 q = ip_ready w q;
  pc_check_write_log : ∀ (w : W) p, op_log (pc_check_write w p).2 = op_log w;
}.

(** ** Options *)

Definition SL_SUBSCRIBE : Z := 6.
Definition SL_UNSUBSCRIBE : Z := 7.
Definition SL_PSUBSCRIBE : Z := 81.
Definition SL_PUNSUBSCRIBE : Z := 82.
Definition SL_XPUB_VERBOSE : Z := 40.
Definition SL_XPUB_VERBOSER : Z := 78.
Definition SL_XPUB_MANUAL : Z := 71.
Definition SL_XPUB_NODROP : Z := 69.
Definition SL_XPUB_MANUAL_LAST_VALUE : Z := 70.
Definition SL_XPUB_WELCOME_MSG : Z := 72.
Definition SL_XSUB_VERBOSE_UNSUBSCRIBE : Z := 73.
Definition SL_ONLY_FIRST_SUBSCRIBE : Z := 108.
Definition SL_TOPICS_COUNT : Z := 80.

(** An [int] in memory: four bytes, the low one first. *)
Definition int_bytes (v : Z) : list Z := [v `mod` 256; (v / 256) `mod` 256; (v / 65536) `mod` 256; (v / 16777216) `mod` 256].

(** [optvallen_ == sizeof (int)] and the value at [optval_]. *)
Definition opt_int (val : list Z) : option Z :=
  match val with [a; b; c; d] => Some (s32 (a + 256 * b + 65536 * c + 16777216 * d)) | _ => None end.

Lemma opt_int_bytes v : - 2 ^ 31 ≤ v < 2 ^ 31 → opt_int (int_bytes v) = Some v.
Proof.
  intros H. unfold opt_int, int_bytes. f_equal.
  assert (E : v `mod` 256 + 256 * ((v / 256) `mod` 256) + 65536 * ((v / 65536) `mod` 256) + 16777216 * ((v / 16777216) `mod` 256) = v `mod` 2 ^ 32).
  { assert (E2 : v / 65536 = v / 256 / 256) by (by rewrite Z.div_div by lia).
    assert (E3 : v / 16777216 = v / 256 / 256 / 256) by (by rewrite !Z.div_div by lia). rewrite E2, E3. pose proof (Z.div_mod v 256). pose proof (Z.div_mod (v / 256) 256).
    pose proof (Z.div_mod (v / 256 / 256) 256). pose proof (Z.div_mod (v / 256 / 256 / 256) 256).
    pose proof (Z.mod_pos_bound v 256). pose proof (Z.mod_pos_bound (v / 256) 256). pose proof (Z.mod_pos_bound (v / 256 / 256) 256).
    pose proof (Z.mod_pos_bound (v / 256 / 256 / 256) 256).
    apply (Z.mod_unique _ _ (v / 256 / 256 / 256 / 256)); lia. }
  rewrite E. unfold s32. rewrite Zplus_mod_idemp_l. rewrite Z.mod_small; lia.
Qed.

(** ** Receiving, with the message handles *)

(** The parts that can be read from the pipes of a fair queue. *)
Definition ready_msgs {W} `{!InPipes W} (w : W) (f : fq_t) : list msg_t := concat (ip_ready w <$> ar_items (fq_pipes f)).

Section receiving.
Context {W : Type} `{!InPipes W} (ext : nat → Z).

Lemma ready_msgs_same (w w' : W) f f' :
  ar_items (fq_pipes f') ≡ₚ ar_items (fq_pipes f) → (∀ q, ip_ready w' q = ip_ready w q) → ready_msgs w' f' ≡ₚ ready_msgs w f.
Proof.
  intros Hp Hr. unfold ready_msgs. rewrite Hp. replace (ip_ready w' <$> ar_items (fq_pipes f)) with (ip_ready w <$> ar_items (fq_pipes f)); [done|].
  apply list_fmap_ext. intros. by rewrite Hr.
Qed.

Lemma ready_msgs_take (w w' : W) f f' p m :
  NoDup (ar_items (fq_pipes f)) → ar_items (fq_pipes f') ≡ₚ ar_items (fq_pipes f) → p ∈ ar_items (fq_pipes f) →
  head (ip_ready w p) = Some m → (∀ q, ip_ready w' q = if decide (q = p) then tail (ip_ready w q) else ip_ready w q) →
  ready_msgs w f ≡ₚ m :: ready_msgs w' f'.
Proof.
  intros Hnd Hp Hin Hm Hr. unfold ready_msgs. rewrite Hp. apply elem_of_Permutation in Hin as [l Hl]. rewrite Hl in Hnd |- *.
  apply NoDup_cons in Hnd as [Hnl _]. rewrite !fmap_cons. simpl. rewrite (Hr p), decide_True by done.
  destruct (ip_ready w p) as [|m' ms]; simplify_eq/=. constructor. f_equiv.
  replace (ip_ready w' <$> l) with (ip_ready w <$> l); [done|]. apply list_fmap_ext. intros i q Hq. rewrite Hr, decide_False; [done|].
  intros ->. apply Hnl. by eapply list_elem_of_lookup_2.
Qed.

(** [recvpipe]: the part received leaves its pipe and replaces the caller's. *)
Lemma fq_recvpipe_spec h (w : W) f m ms :
  fq_inv f → rest_ready w f → msg_check m = true → heap_inv ext h (m :: ready_msgs w f ++ ms) →
  Forall (λ m, msg_check m = true) (ready_msgs w f) →
  ∃ h' w' f' r, received w f r w' f' ∧ rest_ready w' f' ∧ heap_frame h h'
    ∧ fq_recvpipe h w f m = Done (h', w', f', match r with Some (_, m') => m' | None => msg_init end, fst <$> r)
    ∧ heap_inv ext h' (match r with Some (_, m') => m' | None => msg_init end :: ready_msgs w' f' ++ ms)
    ∧ match r with Some (_, m') => ready_msgs w f ≡ₚ m' :: ready_msgs w' f' | None => ready_msgs w f ≡ₚ ready_msgs w' f' end.
Proof.
  intros Hinv Hrest Hck Hh Hrd. unfold fq_recvpipe.
  destruct (msg_close_spec ext h m (ready_msgs w f ++ ms) Hh Hck) as (h' & -> & Hh' & Hf). rewrite bind_Done, slk_assert_bind by done.
  destruct (recv_loop_spec (S (fq_active f)) w f Hinv Hrest ltac:(lia)) as (r & w' & f' & -> & Hrec). rewrite bind_Done.
  exists h', w', f', r. split; [done|]. split; [by eapply received_rest_ready|]. split; [done|].
  destruct Hrec as (R1 & R2 & R3 & R4). pose proof (ar_nodup _ (fq_wf _ Hinv)) as Hnd. destruct r as [[p m']|].
  - destruct R4 as (S1 & S2 & S3 & _). simpl. split; [done|].
    assert (Hp : p ∈ ar_items (fq_pipes f)).
    { apply R3 in S1. unfold active_in in S1. apply elem_of_take in S1 as (i & Hi & _). by eapply list_elem_of_lookup_2. }
    pose proof (ready_msgs_take w w' f f' p m' Hnd R2 Hp S2 S3) as Hperm. split; [|done].
    rewrite Hperm in Hh'. exact Hh'.
  - destruct R4 as (_ & _ & _ & S4). simpl. split; [done|]. pose proof (ready_msgs_same w w' f f' R2 S4) as Hperm.
    split; [|by rewrite Hperm]. rewrite Hperm. apply heap_inv_idle; [done|apply msg_init_shape|by intros ? [? [|]]|by intros ? []|by intros ? []|..].
    + apply (inv_len _ _ _ Hh).
    + apply (inv_ext _ _ _ Hh).
Qed.

End receiving.

(** What was read from pipe [q]. *)
Definition read_from (q : nat) (tr : list (nat * msg_t)) : list msg_t := snd <$> filter (λ t, t.1 = q) tr.

Lemma read_from_app q tr tr' : read_from q (tr ++ tr') = read_from q tr ++ read_from q tr'.
Proof. unfold read_from. by rewrite filter_app, fmap_app. Qed.

Lemma read_from_cons q p m tr : read_from q ((p, m) :: tr) = (if decide (q = p) then [m] else []) ++ read_from q tr.
Proof.
  unfold read_from. rewrite filter_cons. simpl. destruct (decide (p = q)), (decide (q = p)); subst; done.
Qed.

Section reading.
Context {W : Type} `{!InPipes W} (ext : nat → Z) (ms : list msg_t).

Lemma elem_of_take_in {A} (x : A) n l : x ∈ take n l → x ∈ l.
Proof. rewrite elem_of_take. intros (i & Hi & _). by eapply list_elem_of_lookup_2. Qed.

(** The queue, the caller's message and what can be read are in order. *)
Record recv_ok (h : heap) (w : W) (f : fq_t) (m : msg_t) : Prop := {
  ro_fq : fq_inv f;
  ro_rest : rest_ready w f;
  ro_check : msg_check m = true;
  ro_heap : heap_inv ext h (m :: ready_msgs w f ++ ms);
  ro_valid : Forall (λ m, msg_check m = true) (ready_msgs w f);
}.

(** The parts [tr] were read on the way from one state to another. *)
Record reads (h : heap) (w : W) (f : fq_t) (tr : list (nat * msg_t)) (h' : heap) (w' : W) (f' : fq_t) : Prop := {
  rd_ready : ∀ q, ip_ready w q = read_from q tr ++ ip_ready w' q;
  rd_pipes : ar_items (fq_pipes f') ≡ₚ ar_items (fq_pipes f);
  rd_active : ∀ q, q ∈ active_in f → ip_ready w' q ≠ [] → q ∈ active_in f';
  rd_perm : ready_msgs w f ≡ₚ tr.*2 ++ ready_msgs w' f';
  rd_frame : heap_frame h h';
}.

Lemma reads_refl h w f : reads h w f [] h w f.
Proof. by split. Qed.

Lemma reads_trans h w f tr h' w' f' tr' h'' w'' f'' :
  reads h w f tr h' w' f' → reads h' w' f' tr' h'' w'' f'' → reads h w f (tr ++ tr') h'' w'' f''.
Proof.
  intros [A1 A2 A3 A4 A5] [B1 B2 B3 B4 B5]. split.
  - intros q. by rewrite A1, B1, read_from_app, app_assoc.
  - by rewrite B2.
  - intros q Hq Hne. apply B3; [|done]. apply A3; [done|]. rewrite B1. intros Hn. apply app_eq_nil in Hn as [_ ?]. done.
  - by rewrite A4, B4, fmap_app, app_assoc.
  - by etransitivity.
Qed.

Lemma fq_recvpipe_step h w f m :
  recv_ok h w f m →
  (∃ p m' h' w' f', fq_recvpipe h w f m = Done (h', w', f', m', Some p) ∧ recv_ok h' w' f' m' ∧ reads h w f [(p, m')] h' w' f'
     ∧ fq_more f' = has_flag m' msg_more ∧ (fq_more f = true → ar_items (fq_pipes f) !! fq_current f = Some p)
     ∧ (has_flag m' msg_more = true → ar_items (fq_pipes f') !! fq_current f' = Some p) ∧ m' ∈ ready_msgs w f ∧ p ∈ ar_items (fq_pipes f))
  ∨ (∃ h' w' f', fq_recvpipe h w f m = Done (h', w', f', msg_init, None) ∧ recv_ok h' w' f' msg_init ∧ reads h w f [] h' w' f'
     ∧ fq_more f = false ∧ (∀ q, q ∈ active_in f → ip_ready w q = []) ∧ fq_more f' = false).
Proof.
  intros [H1 H2 H3 H4 H5].
  destruct (fq_recvpipe_spec ext h w f m ms H1 H2 H3 H4 H5) as (h' & w' & f' & r & Hrec & Hrest & Hf & -> & Hh & Hperm).
  destruct Hrec as (R1 & R2 & R3 & R4). destruct r as [[p m']|]; [left|right].
  - rewrite Hperm in H5. apply Forall_cons in H5 as [Hm' H5]. destruct R4 as (S1 & S2 & S3 & S4 & S5 & S6 & S7 & _).
    exists p, m', h', w', f'. split; [done|]. split; [done|]. split; [|split_and!; try done; [rewrite Hperm; by left|rewrite <- R2; by eapply elem_of_take_in]].
    split; try done.
    + intros q. rewrite read_from_cons, S3. simpl. rewrite app_nil_r. destruct (decide (q = p)) as [->|]; [|done].
      destruct (ip_ready w p); by simplify_eq/=.
    + intros q Hq Hne. apply S4; [done|]. rewrite S3 in Hne. destruct (decide (q = p)); [|done]. subst. by destruct (ip_ready w p).
  - destruct R4 as (S1 & S2 & S3 & S4). exists h', w', f'. split; [done|]. split; [split; try done; by rewrite <- Hperm|]. split.
    + split; try done; [intros q; by rewrite S4|]. intros q Hq Hne. destruct Hne. rewrite S4. by apply S3.
    + split; [|by split]. destruct (fq_more f) eqn:Hm; [|done]. destruct (H2 Hm) as (Hpos & q & Hq & Hne). destruct Hne. apply S3.
      apply elem_of_take. exists (fq_current f). split; [done|]. destruct H1 as [_ _ [?|[? _]]]; lia.
Qed.

Lemma fq_recv_step h w f m :
  recv_ok h w f m →
  (∃ p m' h' w' f', fq_recv h w f m = Done (h', w', f', m', true) ∧ recv_ok h' w' f' m' ∧ reads h w f [(p, m')] h' w' f'
     ∧ fq_more f' = has_flag m' msg_more ∧ (fq_more f = true → ar_items (fq_pipes f) !! fq_current f = Some p)
     ∧ (has_flag m' msg_more = true → ar_items (fq_pipes f') !! fq_current f' = Some p) ∧ m' ∈ ready_msgs w f)
  ∨ (∃ h' w' f', fq_recv h w f m = Done (h', w', f', msg_init, false) ∧ recv_ok h' w' f' msg_init ∧ reads h w f [] h' w' f'
     ∧ fq_more f = false ∧ ∀ q, q ∈ active_in f → ip_ready w q = []).
Proof.
  intros Hok. unfold fq_recv.
  destruct (fq_recvpipe_step h w f m Hok) as [(p & m' & h' & w' & f' & -> & ? & ? & ? & ? & ? & ? & _)|(h' & w' & f' & -> & ? & ? & ? & ? & _)]; rewrite bind_Done.
  - left. exists p, m', h', w', f'. done.
  - right. exists h', w', f'. done.
Qed.

(** [tr] is not longer than what was ready. *)
Lemma reads_length h w f tr h' w' f' : reads h w f tr h' w' f' → length (ready_msgs w f) = (length tr + length (ready_msgs w' f'))%nat.
Proof. intros [_ _ _ H _]. by rewrite H, length_app, length_fmap. Qed.

End reading.

(** ** Making messages *)

(** The same handle with other flags. *)
Record same_handle (m m' : msg_t) : Prop := {
  sh_type : m_type m' = m_type m;
  sh_body : m_body m' = m_body m;
  sh_metadata : m_metadata m' = m_metadata m;
  sh_group : m_group m' = m_group m;
  sh_shared : has_flag m' msg_shared = has_flag m msg_shared;
}.

Lemma heap_inv_retag ext h m m' ms : same_handle m m' → heap_inv ext h (m :: ms) → heap_inv ext h (m' :: ms).
Proof.
  intros [E1 E2 E3 E4 E5] [H1 H2 H3 H4 H5 H6].
  assert (Hck : msg_check m' = msg_check m) by (unfold msg_check; by rewrite E1).
  assert (Ho : ∀ id, owns id m' ↔ owns id m) by (intros id; unfold owns; by rewrite E1, E2).
  split; [done|done| | | |].
  - inversion H3 as [|? ? Hs Hms]; subst. constructor; [|done]. unfold msg_shape. by rewrite E1, E2, E4.
  - intros id. specialize (H4 id). rewrite filter_cons in H4 |- *. destruct (decide (owns id m)) as [Hm|Hm]; last first.
    { by rewrite decide_False by (by rewrite Ho). }
    rewrite decide_True by (by rewrite Ho). destruct (h_contents h !! id) as [c|]; [|done].
    destruct H4 as [Hf Hc]. split; [inversion Hf; subst; constructor; [by rewrite E1|done]|].
    destruct Hc as [(z & Hz & Hns)|(Hs & ? & Hl)]; [left|right].
    + injection Hz as -> ->. exists m'. by rewrite E5.
    + inversion Hs; subst. split; [constructor; [by rewrite E5|done]|done].
  - intros md. specialize (H5 md). by rewrite (count_cons_ext _ m) by (unfold holds_md; by rewrite Hck, E3).
  - intros g. specialize (H6 g). by rewrite (count_cons_ext _ m) by (unfold holds_group; by rewrite Hck, E4).
Qed.

Lemma msg_bytes_retag h m m' : same_handle m m' → msg_bytes h m' = msg_bytes h m.
Proof. intros [E1 E2 _ _ _]. unfold msg_bytes, msg_size, msg_data, msg_check, get_body_content. by rewrite E1, E2. Qed.

Lemma set_more_handle m : same_handle m (set_flags msg_more m).
Proof.
  split; try done. unfold has_flag. simpl. rewrite Z.land_lor_distr_l. change (Z.land msg_more msg_shared) with 0. by rewrite Z.lor_0_r.
Qed.

Lemma reset_more_handle m : same_handle m (reset_flags msg_more m).
Proof. split; try done. unfold has_flag. simpl. by rewrite <- Z.land_assoc. Qed.

Lemma set_more_flag m : has_flag (set_flags msg_more m) msg_more = true.
Proof.
  unfold has_flag. simpl. apply bool_decide_eq_true_2. rewrite Z.land_lor_distr_l. change (Z.land msg_more msg_more) with 1.
  intros H. apply (f_equal (λ z, Z.testbit z 0)) in H. rewrite Z.lor_spec in H. simpl in H. by rewrite orb_true_r in H.
Qed.

(** [init_size] and a [memcpy] of the bytes. *)
Lemma init_bytes_spec ext h ms bs :
  heap_inv ext h ms → Z.of_nat (length bs) < 2 ^ 63 → alloc_ok h (Z.of_nat (length bs)) = true →
  Z.of_nat (S (length ms)) < 2 ^ 32 → (∀ md, ext md + Z.of_nat (S (length ms)) < 2 ^ 32) →
  ∃ h0 m0 h' m, msg_init_size h (Z.of_nat (length bs)) = (RcOk, h0, m0) ∧ msg_memcpy h0 m0 bs = Done (h', m)
    ∧ heap_inv ext h' (m :: ms) ∧ msg_bytes h' m = Done bs ∧ (∀ m', m' ∈ ms → msg_bytes h' m' = msg_bytes h m')
    ∧ msg_check m = true ∧ plain m ∧ h_malloc h' = h_malloc h.
Proof.
  intros Hinv Hlen Hal Hl1 Hl2. pose proof (msg_init_buffer_spec ext h ms bs Hinv Hlen Hl1 Hl2) as Hb. rewrite Hal in Hb.
  destruct Hb as (h' & m & Hr & (H1 & H2 & H3) & H4 & H5 & H6). unfold msg_init_buffer in Hr.
  destruct (msg_init_size h (Z.of_nat (length bs))) as [[rc h0] m0] eqn:Ei. destruct rc; [|done].
  exists h0, m0, h', m. split; [done|]. split; [|done]. destruct (decide (Z.of_nat (length bs) ≠ 0)) as [Hne|He].
  - rewrite decide_True in Hr by lia. rewrite Nat2Z.id, firstn_all in Hr. by destruct (msg_memcpy h0 m0 bs) as [[]| |]; simplify_eq/=.
  - simplify_eq. destruct bs; [|simpl in He; lia]. unfold msg_init_size in Ei. simpl in Ei. by injection Ei as <- <-.
Qed.

(** ** Pipes with short messages of one part, for examples *)

Record sock_world := SockWorld {
  so_ready : gmap nat (list (list Z));
  so_open : list nat;
  so_log : list pipe_event;
}.

Definition sock_msg (bs : list Z) : msg_t :=
  msg_base type_vsm (BVsm (take (Z.to_nat max_vsm_size) (bs ++ replicate (Z.to_nat max_vsm_size) 0)) (Z.of_nat (length bs))).

Definition so_msgs (w : sock_world) (p : nat) : list msg_t := sock_msg <$> default [] (so_ready w !! p).

#[export] Program Instance sock_in : InPipes sock_world := {|
  ip_read w p := (head (so_msgs w p), SockWorld (<[p := tail (default [] (so_ready w !! p))]> (so_ready w)) (so_open w) (so_log w));
  ip_check_read w p := (bool_decide (so_msgs w p ≠ []), w);
  ip_ready := so_msgs;
|}.
Next Obligation. done. Qed.
Next Obligation.
  intros w p q. unfold so_msgs. simpl. destruct (decide (q = p)) as [->|Hq].
  - rewrite lookup_insert_eq. simpl. by destruct (so_ready w !! p) as [[]|].
  - by rewrite lookup_insert_ne.
Qed.
Next Obligation. done. Qed.
Next Obligation. done. Qed.
Next Obligation.
  intros w p m. unfold so_msgs. simpl. rewrite fmap_last. intros [bs [_ ->]]%fmap_Some. done.
Qed.

#[export] Instance sock_out : OutPipes sock_world := {|
  op_write w p m := (bool_decide (p ∈ so_open w), SockWorld (so_ready w) (so_open w) (so_log w ++ [EvWrite p m (bool_decide (p ∈ so_open w))]));
  op_flush w p := SockWorld (so_ready w) (so_open w) (so_log w ++ [EvFlush p]);
  op_check_hwm w p := bool_decide (p ∈ so_open w);
  op_log := so_log;
  op_write_log := λ w p m, eq_refl;
  op_flush_log := λ w p, eq_refl;
|}.

#[export] Instance sock_pipes : SocketPipes sock_world.
Proof. by refine {| sk_in := sock_in; sk_out := sock_out |}. Defined.

#[export] Program Instance sock_control : PipeControl sock_world := {|
  pc_nodelay w p := w;
  pc_terminate w p d := SockWorld (delete p (so_ready w)) (filter (λ q, q ≠ p) (so_open w)) (so_log w);
  pc_rollback w p := w;
  pc_check_write w p := (bool_decide (p ∈ so_open w), w);
|}.
Next Obligation. done. Qed.
Next Obligation. done. Qed.
Next Obligation. intros w p d q Hq. simpl. unfold so_msgs. simpl. by rewrite lookup_delete_ne. Qed.
Next Obligation. done. Qed.
Next Obligation. done. Qed.
Next Obligation. done. Qed.
Next Obligation. done. Qed.
Next Obligation. done. Qed.

(** The example messages are in order in an empty heap. *)
Lemma sock_msgs_heap (l : list (list Z)) :
  Forall (λ bs, Z.of_nat (length bs) ≤ max_vsm_size) l → Z.of_nat (length l) < 2 ^ 31 →
  heap_inv no_ext (empty_heap (λ _, true)) (sock_msg <$> l)
  ∧ Forall (λ m, msg_bytes (empty_heap (λ _, true)) m = Done (match m_body m with BVsm d n => take (Z.to_nat n) d | _ => [] end)) (sock_msg <$> l).
Proof.
  induction 1 as [|bs l Hbs Hl IH]; intros Hlen.
  - split; [|constructor]. split; [done|done|constructor|..]; intros ?; done.
  - simpl in Hlen. destruct IH as [IH1 IH2]; [lia|]. rewrite fmap_cons.
    destruct (vsm_msg_spec no_ext (empty_heap (λ _, true)) (sock_msg <$> l) bs
      (take (Z.to_nat max_vsm_size) (bs ++ replicate (Z.to_nat max_vsm_size) 0))) as [H1 H2]; try done.
    + rewrite length_fmap. lia.
    + intros md. rewrite length_fmap. unfold no_ext. lia.
    + rewrite length_take, length_app, length_replicate. change max_vsm_size with 33. lia.
    + rewrite take_take. change max_vsm_size with 33 in *. rewrite Nat.min_l by lia. by rewrite take_app_length.
    + unfold sock_msg at 1 3. change max_vsm_size with 33 in *. rewrite u8_small in H1, H2 by lia. split; [exact H1|].
      constructor; [|done]. rewrite H2. simpl. f_equal. rewrite Nat2Z.id, take_take, Nat.min_l by lia. by rewrite take_app_length.
Qed.
