(* ===== verification/XSub.v ===== *)
(** The XSUB and SUB sockets (src/core/xsub.cpp, src/core/sub.cpp) over the
    subscription trie, the pattern list, the fair queue and the distributor. *)
From S2P Require Import Prelude Glob PatternTrie NodeTable Trie Msg PipeArray Dist Fq Sockets.

(** ** State *)

Record xsub_t := XSub {
  xs_fq : fq_t;
  xs_dist : dist_t;
  xs_subscriptions : trie_with_size_t;
  xs_pattern_subscriptions : pattern_trie_t;
  xs_verbose_unsubs : bool;
  xs_has_message : bool;
  xs_message : msg_t;
  xs_more_send : bool;
  xs_more_recv : bool;
  xs_process_subscribe : bool;
  xs_only_first_subscribe : bool;
  xs_filter : bool;              (* options.filter *)
  xs_invert_matching : bool;     (* options.invert_matching *)
}.

Definition xsub_new : xsub_t :=
  XSub fq_new dist_new tws_new [] false false msg_init false false false false false false.

Definition xs_set_fq (f : fq_t) (x : xsub_t) : xsub_t :=
  XSub f (xs_dist x) (xs_subscriptions x) (xs_pattern_subscriptions x) (xs_verbose_unsubs x) (xs_has_message x) (xs_message x)
    (xs_more_send x) (xs_more_recv x) (xs_process_subscribe x) (xs_only_first_subscribe x) (xs_filter x) (xs_invert_matching x).
Definition xs_set_dist (d : dist_t) (x : xsub_t) : xsub_t :=
  XSub (xs_fq x) d (xs_subscriptions x) (xs_pattern_subscriptions x) (xs_verbose_unsubs x) (xs_has_message x) (xs_message x)
    (xs_more_send x) (xs_more_recv x) (xs_process_subscribe x) (xs_only_first_subscribe x) (xs_filter x) (xs_invert_matching x).
Definition xs_set_subs (t : trie_with_size_t) (ps : pattern_trie_t) (x : xsub_t) : xsub_t :=
  XSub (xs_fq x) (xs_dist x) t ps (xs_verbose_unsubs x) (xs_has_message x) (xs_message x)
    (xs_more_send x) (xs_more_recv x) (xs_process_subscribe x) (xs_only_first_subscribe x) (xs_filter x) (xs_invert_matching x).
Definition xs_set_options (verbose_unsubs only_first : bool) (x : xsub_t) : xsub_t :=
  XSub (xs_fq x) (xs_dist x) (xs_subscriptions x) (xs_pattern_subscriptions x) verbose_unsubs (xs_has_message x) (xs_message x)
    (xs_more_send x) (xs_more_recv x) (xs_process_subscribe x) only_first (xs_filter x) (xs_invert_matching x).
Definition xs_set_send (more process_subscribe : bool) (x : xsub_t) : xsub_t :=
  XSub (xs_fq x) (xs_dist x) (xs_subscriptions x) (xs_pattern_subscriptions x) (xs_verbose_unsubs x) (xs_has_message x) (xs_message x)
    more (xs_more_recv x) process_subscribe (xs_only_first_subscribe x) (xs_filter x) (xs_invert_matching x).
Definition xs_set_recv (has_message : bool) (message : msg_t) (more : bool) (x : xsub_t) : xsub_t :=
  XSub (xs_fq x) (xs_dist x) (xs_subscriptions x) (xs_pattern_subscriptions x) (xs_verbose_unsubs x) has_message message
    (xs_more_send x) more (xs_process_subscribe x) (xs_only_first_subscribe x) (xs_filter x) (xs_invert_matching x).

Section xsub.
Context {W : Type} `{!SocketPipes W}.

(** ** Pipes that come and go *)

(** [send_subscription (data_, size_, pipe_)] *)
Definition send_subscription (p : nat) (hw : heap * W) (prefix : list Z) : outcome (heap * W) :=
  let '(h, w) := hw in
  '(rc, h, m) ← msg_init_subscribe h (Z.of_nat (length prefix)) (Some prefix);
  assert! bool_decide (rc = RcOk);;
  let '(sent, w) := op_write w p m in
  if sent : bool then Done (h, w)
  else '(_, h, _) ← msg_close h m; Done (h, w).

(** [_subscriptions.apply (send_subscription, pipe_)] *)
Fixpoint send_subscriptions (p : nat) (hw : heap * W) (prefixes : list (list Z)) : outcome (heap * W) :=
  match prefixes with
  | [] => Done hw
  | prefix :: prefixes => hw ← send_subscription p hw prefix; send_subscriptions p hw prefixes
  end.

Definition xsub_hiccuped (h : heap) (w : W) (x : xsub_t) (p : nat) : outcome (heap * W * xsub_t) :=
  prefixes ← trie_apply (tws_trie (xs_subscriptions x));
  '(h, w) ← send_subscriptions p (h, w) prefixes;
  Done (h, op_flush w p, x).

Definition xsub_attach_pipe (h : heap) (w : W) (x : xsub_t) (p : nat) : outcome (heap * W * xsub_t) :=
  f ← fq_attach (xs_fq x) p;
  d ← dist_attach (xs_dist x) p;
  xsub_hiccuped h w (xs_set_dist d (xs_set_fq f x)) p.

Definition xsub_read_activated (x : xsub_t) (p : nat) : outcome xsub_t :=
  f ← fq_activated (xs_fq x) p; Done (xs_set_fq f x).

Definition xsub_write_activated (x : xsub_t) (p : nat) : outcome xsub_t :=
  d ← dist_activated (xs_dist x) p; Done (xs_set_dist d x).

Definition xsub_pipe_terminated (x : xsub_t) (p : nat) : outcome xsub_t :=
  f ← fq_pipe_terminated (xs_fq x) p;
  d ← dist_pipe_terminated (xs_dist x) p;
  Done (xs_set_dist d (xs_set_fq f x)).

(** ** Options *)

(** A new message sent upstream to all peers, and closed. *)
Definition send_upstream (init : heap → Z → option (list Z) → outcome (rc_t * heap * msg_t)) (h : heap) (w : W) (x : xsub_t)
    : outcome (heap * W * xsub_t) :=
  '(rc, h, m) ← init h 0 None;
  assert! bool_decide (rc = RcOk);;
  '(h, w, d, m) ← dist_send_to_all h w (xs_dist x) m;
  '(_, h, _) ← msg_close h m;
  Done (h, w, xs_set_dist d x).

Definition xsub_psubscribe (h : heap) (w : W) (x : xsub_t) (pattern : list Z) : outcome (heap * W * xsub_t) :=
  let '(added, ps) := pattern_trie_add (xs_pattern_subscriptions x) pattern in
  let x := xs_set_subs (xs_subscriptions x) ps x in
  if added && bool_decide (num_patterns ps = 1) then
    '(first_sub, t) ← tws_add [] (xs_subscriptions x);
    let x := xs_set_subs t ps x in
    if first_sub : bool then send_upstream msg_init_subscribe h w x else Done (h, w, x)
  else Done (h, w, x).

Definition xsub_punsubscribe (h : heap) (w : W) (x : xsub_t) (pattern : list Z) : outcome (heap * W * xsub_t) :=
  let '(removed, ps) := pattern_trie_rm (xs_pattern_subscriptions x) pattern in
  let x := xs_set_subs (xs_subscriptions x) ps x in
  if removed && bool_decide (num_patterns ps = 0) then
    '(last_unsub, t) ← tws_rm [] (xs_subscriptions x);
    let x := xs_set_subs t ps x in
    if last_unsub : bool then send_upstream msg_init_cancel h w x else Done (h, w, x)
  else Done (h, w, x).

Definition xsub_setsockopt (h : heap) (w : W) (x : xsub_t) (opt : Z) (val : list Z)
    : outcome (heap * W * xsub_t * rc_t) :=
  if decide (opt = SL_ONLY_FIRST_SUBSCRIBE ∨ opt = SL_XSUB_VERBOSE_UNSUBSCRIBE) then
    match opt_int val with
    | Some v =>
        if decide (v < 0) then Done (h, w, x, RcErr EINVAL)
        else if decide (opt = SL_ONLY_FIRST_SUBSCRIBE)
        then Done (h, w, xs_set_options (xs_verbose_unsubs x) (bool_decide (v ≠ 0)) x, RcOk)
        else Done (h, w, xs_set_options (bool_decide (v ≠ 0)) (xs_only_first_subscribe x) x, RcOk)
    | None => Done (h, w, x, RcErr EINVAL)
    end
  else if decide (opt = SL_PSUBSCRIBE) then '(h, w, x) ← xsub_psubscribe h w x val; Done (h, w, x, RcOk)
  else if decide (opt = SL_PUNSUBSCRIBE) then '(h, w, x) ← xsub_punsubscribe h w x val; Done (h, w, x, RcOk)
  else Done (h, w, x, RcErr EINVAL).

(** [SL_TOPICS_COUNT]: the value, [EINVAL] for other options and short buffers. *)
Definition xsub_getsockopt (x : xsub_t) (opt : Z) (len : Z) : option Z * rc_t :=
  if decide (opt = SL_TOPICS_COUNT ∧ 4 ≤ len) then (Some (s32 (tws_num_prefixes (xs_subscriptions x))), RcOk)
  else (None, RcErr EINVAL).

(** ** Sending *)

Definition xs_send_to_all (h : heap) (w : W) (x : xsub_t) (m : msg_t) : outcome (heap * W * xsub_t * msg_t * rc_t) :=
  '(h, w, d, m) ← dist_send_to_all h w (xs_dist x) m;
  Done (h, w, xs_set_dist d x, m, RcOk).

(** Drop the message. *)
Definition xs_drop (h : heap) (w : W) (x : xsub_t) (m : msg_t) : outcome (heap * W * xsub_t * msg_t * rc_t) :=
  '(rc, h, _) ← msg_close h m;
  assert! bool_decide (rc = RcOk);;
  Done (h, w, x, msg_init, RcOk).

Definition xsub_send (h : heap) (w : W) (x : xsub_t) (m : msg_t) : outcome (heap * W * xsub_t * msg_t * rc_t) :=
  data ← msg_bytes h m;
  let first_part := negb (xs_more_send x) in
  let more := has_flag m msg_more in
  let process := if first_part then negb (xs_only_first_subscribe x) else xs_process_subscribe x in
  let x := xs_set_send more process x in
  if negb first_part && negb process then xs_send_to_all h w x m
  else if is_subscribe m || bool_decide (head data = Some 1) then
    '(_, t) ← tws_add (if is_subscribe m then data else tail data) (xs_subscriptions x);
    xs_send_to_all h w (xs_set_send more true (xs_set_subs t (xs_pattern_subscriptions x) x)) m
  else if is_cancel m || bool_decide (head data = Some 0) then
    '(rm_result, t) ← tws_rm (if is_cancel m then data else tail data) (xs_subscriptions x);
    let x := xs_set_send more true (xs_set_subs t (xs_pattern_subscriptions x) x) in
    if rm_result || xs_verbose_unsubs x then xs_send_to_all h w x m
    else xs_drop h w x m
  else xs_send_to_all h w x m.

Definition xsub_has_out : bool := true.

(** ** Receiving *)

Definition xsub_match (h : heap) (x : xsub_t) (m : msg_t) : outcome bool :=
  data ← msg_bytes h m;
  let has_patterns := bool_decide (0 < num_patterns (xs_pattern_subscriptions x)) in
  prefix_match ← trie_check (tws_trie (xs_subscriptions x)) data;
  let pattern_match := has_patterns && pattern_trie_check (xs_pattern_subscriptions x) data in
  let matching :=
    if has_patterns && prefix_match then
      if bool_decide (1 < tws_num_prefixes (xs_subscriptions x)) then prefix_match || pattern_match else pattern_match
    else prefix_match || pattern_match in
  Done (xorb matching (xs_invert_matching x)).

(** [while (msg_->flags () & more) { rc = _fq.recv (msg_); errno_assert (rc == 0); }] *)
Fixpoint skip_rest (fuel : nat) (h : heap) (w : W) (f : fq_t) (m : msg_t) : outcome (heap * W * fq_t * msg_t) :=
  match fuel with
  | O => Undef
  | S fuel =>
      if has_flag m msg_more then
        '(h, w, f, m, ok) ← fq_recv h w f m;
        assert! ok;;
        skip_rest fuel h w f m
      else Done (h, w, f, m)
  end.

(** The loop of [xrecv] and [xhas_in]: the first part of the next message that
    passes [pass], or an empty message and [false]. *)
Fixpoint recv_matching (fuel : nat) (pass : heap → msg_t → outcome bool) (h : heap) (w : W) (f : fq_t) (m : msg_t)
    : outcome (heap * W * fq_t * msg_t * bool) :=
  match fuel with
  | O => Undef
  | S fuel' =>
      '(h, w, f, m, ok) ← fq_recv h w f m;
      if negb ok then Done (h, w, f, m, false)
      else
        matching ← pass h m;
        if matching : bool then Done (h, w, f, m, true)
        else
          '(h, w, f, m) ← skip_rest fuel h w f m;
          recv_matching fuel' pass h w f m
  end.

(** A message whose parts can be read is read in finitely many steps: [fuel] more
    than the number of parts that are ready. *)
Definition ready_parts (w : W) (f : fq_t) : nat := length (concat (ip_ready w <$> ar_items (fq_pipes f))).

Definition xsub_recv (h : heap) (w : W) (x : xsub_t) (m : msg_t) : outcome (heap * W * xsub_t * msg_t * rc_t) :=
  if xs_has_message x then
    '(rc, h, m, message) ← msg_move h m (xs_message x);
    assert! bool_decide (rc = RcOk);;
    Done (h, w, xs_set_recv false message (has_flag m msg_more) x, m, RcOk)
  else
    let pass h m := if xs_more_recv x || negb (xs_filter x) then Done true else xsub_match h x m in
    '(h, w, f, m, ok) ← recv_matching (S (ready_parts w (xs_fq x))) pass h w (xs_fq x) m;
    let x := xs_set_fq f x in
    if ok : bool then Done (h, w, xs_set_recv (xs_has_message x) (xs_message x) (has_flag m msg_more) x, m, RcOk)
    else Done (h, w, x, m, RcErr EAGAIN).

Definition xsub_has_in (h : heap) (w : W) (x : xsub_t) : outcome (heap * W * xsub_t * bool) :=
  if xs_more_recv x || xs_has_message x then Done (h, w, x, true)
  else
    let pass h m := if negb (xs_filter x) then Done true else xsub_match h x m in
    '(h, w, f, m, ok) ← recv_matching (S (ready_parts w (xs_fq x))) pass h w (xs_fq x) (xs_message x);
    Done (h, w, xs_set_recv ok m (xs_more_recv x) (xs_set_fq f x), ok).

(** ** The SUB socket *)

Definition sub_new : xsub_t :=
  XSub fq_new dist_new tws_new [] false false msg_init false false false false true false.

Definition sub_setsockopt (h : heap) (w : W) (x : xsub_t) (opt : Z) (val : list Z)
    : outcome (heap * W * xsub_t * rc_t) :=
  if decide (opt ≠ SL_SUBSCRIBE ∧ opt ≠ SL_UNSUBSCRIBE ∧ opt ≠ SL_PSUBSCRIBE ∧ opt ≠ SL_PUNSUBSCRIBE)
  then Done (h, w, x, RcErr EINVAL)
  else if decide (opt = SL_PSUBSCRIBE ∨ opt = SL_PUNSUBSCRIBE) then xsub_setsockopt h w x opt val
  else
    '(rc, h, m) ← (if decide (opt = SL_SUBSCRIBE) then msg_init_subscribe h (Z.of_nat (length val)) (Some val)
                   else msg_init_cancel h (Z.of_nat (length val)) (Some val));
    assert! bool_decide (rc = RcOk);;
    '(h, w, x, m, rc) ← xsub_send h w x m;
    '(_, h, _) ← msg_close h m;
    Done (h, w, x, rc).

Definition sub_send : rc_t := RcErr ENOTSUP.
Definition sub_has_out : bool := false.

End xsub.

(** ** Receiving *)

(** The parts of a message after [m], from pipe [p]. *)
Inductive msg_parts (p : nat) : msg_t → list (nat * msg_t) → Prop :=
| parts_last m : has_flag m msg_more = false → msg_parts p m []
| parts_more m m' rest : has_flag m msg_more = true → msg_parts p m' rest → msg_parts p m ((p, m') :: rest).

(** Whole messages, none of which passes. *)
Inductive rejected_msgs (acc : msg_t → Prop) : list (nat * msg_t) → Prop :=
| rejected_nil : rejected_msgs acc []
| rejected_msg p m rest tr :
    ¬ acc m → msg_parts p m rest → rejected_msgs acc tr → rejected_msgs acc ((p, m) :: rest ++ tr).

Lemma rejected_app acc tr tr' : rejected_msgs acc tr → rejected_msgs acc tr' → rejected_msgs acc (tr ++ tr').
Proof.
  induction 1 as [|p m rest tr Ha Hp _ IH]; intros H; [done|]. simpl. rewrite <- app_assoc. constructor; auto.
Qed.

Section filtering.
Context {W : Type} `{!SocketPipes W} (ext : nat → Z) (ms : list msg_t).

Lemma skip_rest_spec fuel h (w : W) f m p :
  recv_ok ext ms h w f m → fq_more f = has_flag m msg_more → (has_flag m msg_more = true → ar_items (fq_pipes f) !! fq_current f = Some p) →
  (length (ready_msgs w f) < fuel)%nat →
  ∃ h' w' f' m' rest, skip_rest fuel h w f m = Done (h', w', f', m') ∧ recv_ok ext ms h' w' f' m' ∧ reads h w f rest h' w' f'
    ∧ msg_parts p m rest ∧ fq_more f' = false.
Proof.
  revert h w f m. induction fuel as [|fuel IH]; intros h w f m Hok Hmore Hcur Hlt; [lia|]. cbn [skip_rest].
  destruct (has_flag m msg_more) eqn:Hm; last first.
  { exists h, w, f, m, []. split_and!; try done; first [apply reads_refl|by constructor]. }
  destruct (fq_recv_step ext ms h w f m Hok) as [(p' & m' & h1 & w1 & f1 & -> & Hok1 & Hrd & Hm1 & Hp & Hc1 & _)|(_ & _ & _ & _ & _ & _ & ? & _)]; [|congruence].
  rewrite bind_Done, slk_assert_true, bind_Done by done.
  assert (p' = p) as -> by (specialize (Hp Hmore); specialize (Hcur eq_refl); congruence).
  pose proof (reads_length _ _ _ _ _ _ _ Hrd) as Hlen. simpl in Hlen.
  destruct (IH h1 w1 f1 m' Hok1 Hm1 Hc1 ltac:(lia)) as (h2 & w2 & f2 & m2 & rest & -> & Hok2 & Hrd2 & Hparts & Hm2).
  exists h2, w2, f2, m2, ((p, m') :: rest). split_and!; try done; [|by constructor]. by eapply (reads_trans _ _ _ [(p, m')]).
Qed.

(** The loop returns the first message that passes, and drops whole messages on
    the way there. *)
Lemma recv_matching_spec (pass : heap → msg_t → outcome bool) (acc : msg_t → Prop) h0 R0 fuel h (w : W) f m :
  (∀ h' m' l, m' ∈ R0 → heap_frame h0 h' → content_inv h' l → m' ∈ l → ∃ b : bool, pass h' m' = Done b ∧ (b = true ↔ acc m')) →
  recv_ok ext ms h w f m → (fq_more f = true → ∀ m, acc m) → (length (ready_msgs w f) < fuel)%nat → heap_frame h0 h → ready_msgs w f ⊆ R0 →
  ∃ h' w' f' m' ok tr, recv_matching fuel pass h w f m = Done (h', w', f', m', ok) ∧ recv_ok ext ms h' w' f' m' ∧ reads h w f tr h' w' f'
    ∧ if ok : bool then ∃ tr0 p, tr = tr0 ++ [(p, m')] ∧ rejected_msgs acc tr0 ∧ acc m' ∧ fq_more f' = has_flag m' msg_more
      else rejected_msgs acc tr ∧ ∀ q, q ∈ active_in f → ip_ready w' q = [].
Proof.
  intros Hpass. revert h w f m. induction fuel as [|fuel IH]; intros h w f m Hok Hmore Hlt Hf0 Hsub; [lia|]. cbn [recv_matching].
  destruct (fq_recv_step ext ms h w f m Hok) as [(p & m1 & h1 & w1 & f1 & -> & Hok1 & Hrd1 & Hm1 & Hp & Hc1 & Hin)|(h1 & w1 & f1 & -> & Hok1 & Hrd1 & Hm1 & Hall)];
    rewrite bind_Done; cbn [negb].
  - assert (Hf1 : heap_frame h0 h1) by (etransitivity; [done|apply Hrd1]).
    destruct (Hpass h1 m1 (m1 :: ready_msgs w1 f1 ++ ms)) as (b & -> & Hb); [by apply Hsub|done|apply Hok1|by left|]. rewrite bind_Done.
    destruct b.
    { exists h1, w1, f1, m1, true, [(p, m1)]. split_and!; try done. exists [], p. split_and!; try done; [constructor|by apply Hb]. }
    assert (Hrej : ¬ acc m1) by (intros ?%Hb; done).
    assert (Hmf : fq_more f = false) by (destruct (fq_more f); [by destruct Hrej; apply Hmore|done]).
    pose proof (reads_length _ _ _ _ _ _ _ Hrd1) as Hl1. simpl in Hl1.
    destruct (skip_rest_spec (S fuel) h1 w1 f1 m1 p Hok1 Hm1 Hc1 ltac:(lia)) as (h2 & w2 & f2 & m2 & rest & -> & Hok2 & Hrd2 & Hparts & Hm2).
    rewrite bind_Done. pose proof (reads_length _ _ _ _ _ _ _ Hrd2) as Hl2.
    pose proof (reads_trans _ _ _ _ _ _ _ _ _ _ _ Hrd1 Hrd2) as Hrd12.
    destruct (IH h2 w2 f2 m2 Hok2) as (h' & w' & f' & m' & ok & tr & -> & Hok' & Hrd' & Hres); [by rewrite Hm2|lia| | |].
    + etransitivity; [done|apply Hrd2].
    + intros z Hz. apply Hsub. rewrite (rd_perm _ _ _ _ _ _ _ Hrd12). apply elem_of_app. by right.
    + exists h', w', f', m', ok, (([(p, m1)] ++ rest) ++ tr). split; [done|]. split; [done|]. split; [by eapply reads_trans|].
      destruct ok.
      * destruct Hres as (tr0 & p' & -> & Hr0 & Ha & Hm'). exists ((p, m1) :: rest ++ tr0), p'. split; [simpl; by rewrite !app_assoc|].
        split; [by constructor|done].
      * destruct Hres as [Hr0 Hall]. split; [simpl; by constructor|]. intros q Hq.
        destruct (ip_ready w' q) as [|z zs] eqn:E; [done|]. rewrite <- E. apply Hall. apply (rd_active _ _ _ _ _ _ _ Hrd12); [done|].
        rewrite (rd_ready _ _ _ _ _ _ _ Hrd'), E. by destruct (read_from q tr).
  - exists h1, w1, f1, msg_init, false, []. split_and!; try done; [constructor|]. intros q Hq. specialize (Hall q Hq).
    rewrite (rd_ready _ _ _ _ _ _ _ Hrd1) in Hall. done.
Qed.
End filtering.

(** ** What a subscriber gets *)

(** The subscriptions of a socket: how often each prefix was subscribed, and the
    patterns. *)
Definition subs_rel (n : Z) (T : prefix_counts) (x : xsub_t) : Prop :=
  tws_rel n T (xs_subscriptions x) ∧ pt_wf (xs_pattern_subscriptions x).

(** Some subscribed prefix, or some subscribed pattern, matches. *)
Definition wants_prefix (T : prefix_counts) (data : list Z) : Prop := ∃ p, p `prefix_of` data ∧ 0 < T p.
Definition wants_pattern (ps : pattern_trie_t) (data : list Z) : Prop :=
  ∃ p gp, 0 < pt_count ps p ∧ glob_pattern_new p = Value gp ∧ glob_match gp data = true.

(** With patterns, the empty prefix is subscribed to on their behalf. *)
Definition wanted (T : prefix_counts) (ps : pattern_trie_t) (data : list Z) : Prop :=
  match ps with [] => wants_prefix T data | _ => wants_pattern ps data end.

(** The socket has prefixes or patterns, but not both. *)
Definition unmixed (T : prefix_counts) (ps : pattern_trie_t) : Prop := ps = [] ∨ ∀ p, 0 < T p → p = [].

Lemma wants_pattern_nil data : ¬ wants_pattern [] data.
Proof. intros (p & gp & H & _). simpl in H. lia. Qed.

Lemma pattern_check_wants ps data : pt_wf ps → pattern_trie_check ps data = true ↔ wants_pattern ps data.
Proof. apply pattern_trie_check_spec. Qed.

Lemma num_patterns_pos ps : bool_decide (0 < num_patterns ps) = match ps with [] => false | _ => true end.
Proof. unfold num_patterns. by destruct ps. Qed.

Lemma prefix_check n T x data :
  subs_rel n T x → ∃ b, trie_check (tws_trie (xs_subscriptions x)) data = Done b ∧ (b = true ↔ wants_prefix T data).
Proof.
  intros [[Hwf Hcnt _ _] _]. destruct (trie_check_spec _ data Hwf) as (b & -> & Hb). exists b. split; [done|]. rewrite Hb.
  unfold wants_prefix. by setoid_rewrite Hcnt.
Qed.

(** The live prefixes, counted by [num_prefixes ()]. *)
Lemma live_prefixes n T x :
  subs_rel n T x → ∃ ps, NoDup ps ∧ (∀ p, p ∈ ps ↔ 0 < T p) ∧ tws_num_prefixes (xs_subscriptions x) = Z.of_nat (length ps).
Proof.
  intros [[Hwf Hcnt _ (calls & Hap & Hn & _)] _]. destruct (trie_apply_spec _ Hwf) as (calls' & Hap' & Hnd & Hin).
  rewrite Hap in Hap'. injection Hap' as <-. exists calls. split_and!; [done| |done]. intros p. by rewrite Hin, Hcnt.
Qed.

Lemma xsub_match_unmixed n T h x m data :
  subs_rel n T x → msg_bytes h m = Done data → unmixed T (xs_pattern_subscriptions x) →
  ∃ b, xsub_match h x m = Done (xorb b (xs_invert_matching x)) ∧ (b = true ↔ wanted T (xs_pattern_subscriptions x) data).
Proof.
  intros Hrel Hd Hun. destruct (prefix_check n T x data Hrel) as (pm & Hpm & Hb). destruct (live_prefixes n T x Hrel) as (ps & Hnd & Hin & Hn).
  pose proof (pattern_check_wants (xs_pattern_subscriptions x) data (proj2 Hrel)) as Hpat.
  unfold xsub_match. rewrite Hd, bind_Done, Hpm, bind_Done, num_patterns_pos. eexists. split; [done|].
  unfold wanted. destruct (xs_pattern_subscriptions x) as [|pt pts] eqn:Hps; simpl andb; cbv iota.
  - by rewrite orb_false_r.
  - destruct Hun as [?|Hun]; [done|].
    assert (Hle : tws_num_prefixes (xs_subscriptions x) ≤ 1).
    { rewrite Hn. destruct ps as [|a [|b ps]]; simpl; try lia. exfalso.
      assert (a = []) as -> by (apply Hun, Hin; by left). assert (b = []) as -> by (apply Hun, Hin; right; by left).
      apply NoDup_cons in Hnd as [Hnn _]. apply Hnn. by left. }
    destruct pm; [rewrite bool_decide_eq_false_2 by lia; done|]. done.
Qed.

Lemma xsub_match_mixed n T h x m data p :
  subs_rel n T x → msg_bytes h m = Done data → xs_pattern_subscriptions x ≠ [] → 0 < T [] → 0 < T p → p ≠ [] →
  xsub_match h x m = Done (xorb true (xs_invert_matching x)).
Proof.
  intros Hrel Hd Hps H0 Hp Hne. destruct (prefix_check n T x data Hrel) as (pm & Hpm & Hb). destruct (live_prefixes n T x Hrel) as (ps & Hnd & Hin & Hn).
  unfold xsub_match. rewrite Hd, bind_Done, Hpm, bind_Done, num_patterns_pos.
  assert (pm = true) as ->. { apply Hb. exists []. split; [apply prefix_nil|done]. }
  assert (Hgt : 1 < tws_num_prefixes (xs_subscriptions x)).
  { rewrite Hn. apply Hin in H0, Hp. destruct ps as [|a [|b ps]]; simpl; [by apply not_elem_of_nil in Hp| |lia].
    apply list_elem_of_singleton in H0, Hp. congruence. }
  destruct (xs_pattern_subscriptions x); [done|]. simpl andb. cbv iota. by rewrite bool_decide_eq_true_2.
Qed.

(** What [xrecv] lets pass: the rest of a message, and the messages that match. *)
Definition passes (T : prefix_counts) (h : heap) (x : xsub_t) (m : msg_t) : Prop :=
  xs_more_recv x = true ∨ xs_filter x = false
  ∨ ∃ data, msg_bytes h m = Done data
      ∧ if xs_invert_matching x then ¬ wanted T (xs_pattern_subscriptions x) data
        else wanted T (xs_pattern_subscriptions x) data.

Lemma pass_spec n T h0 R0 x :
  subs_rel n T x → unmixed T (xs_pattern_subscriptions x) → Forall (λ m, ∃ data, msg_bytes h0 m = Done data) R0 →
  ∀ h' m' l, m' ∈ R0 → heap_frame h0 h' → content_inv h' l → m' ∈ l →
  ∃ b : bool, (if xs_more_recv x || negb (xs_filter x) then Done true else xsub_match h' x m') = Done b ∧ (b = true ↔ passes T h0 x m').
Proof.
  intros Hrel Hun HR h' m' l Hm Hf Hc Hl. unfold passes.
  destruct (xs_more_recv x) eqn:Emr; simpl; [exists true; split; [done|by split; auto]|].
  destruct (xs_filter x) eqn:Efi; simpl; [|exists true; split; [done|by split; auto]].
  rewrite Forall_forall in HR. destruct (HR m' Hm) as [data Hd].
  assert (Hd' : msg_bytes h' m' = Done data) by (rewrite <- Hd; by eapply msg_bytes_frame).
  destruct (xsub_match_unmixed n T h' x m' data Hrel Hd' Hun) as (b & -> & Hb). eexists. split; [done|].
  transitivity (if xs_invert_matching x then ¬ wanted T (xs_pattern_subscriptions x) data else wanted T (xs_pattern_subscriptions x) data).
  - destruct (xs_invert_matching x); rewrite ?xorb_true_r, ?xorb_false_r, ?negb_true_iff; [|done]. rewrite <- Hb. by destruct b.
  - split; [intros H; right; right; eauto|]. intros [?|[?|(d & Hd2 & H)]]; [done..|].
    rewrite Hd in Hd2. by injection Hd2 as <-.
Qed.

(** The queue is within a message only when the socket is: the one that a poll has taken out, or the one
    that is being received. *)
Definition in_sync (x : xsub_t) : Prop :=
  if xs_has_message x then msg_check (xs_message x) = true ∧ fq_more (xs_fq x) = has_flag (xs_message x) msg_more
  else fq_more (xs_fq x) = true → xs_more_recv x = true.

(** A poll between two messages takes out the first part of the next message that passes the filter, after it dropped only whole
    messages that do not, or there is none left. *)
Lemma xsub_has_in_filters {W} `{!SocketPipes W} ext ms n T h (w : W) x :
  subs_rel n T x → unmixed T (xs_pattern_subscriptions x) → xs_has_message x = false → xs_more_recv x = false → in_sync x →
  recv_ok ext ms h w (xs_fq x) (xs_message x) → Forall (λ m, ∃ data, msg_bytes h m = Done data) (ready_msgs w (xs_fq x)) →
  ∃ h' w' x' b tr, xsub_has_in h w x = Done (h', w', x', b)
    ∧ (∀ q, ip_ready w q = read_from q tr ++ ip_ready w' q) ∧ recv_ok ext ms h' w' (xs_fq x') (xs_message x') ∧ subs_rel n T x'
    ∧ if b : bool then in_sync x' ∧ xs_has_message x' = true
        ∧ ∃ dropped p, tr = dropped ++ [(p, xs_message x')] ∧ rejected_msgs (passes T h x) dropped ∧ passes T h x (xs_message x')
      else rejected_msgs (passes T h x) tr ∧ ∀ q, q ∈ active_in (xs_fq x) → ip_ready w' q = [].
Proof.
  intros Hrel Hun Hhm Hmr Hsync Hok Hbytes. unfold in_sync in Hsync. rewrite Hhm in Hsync. unfold xsub_has_in. rewrite Hmr, Hhm. simpl orb. cbv iota.
  destruct (recv_matching_spec ext ms (λ h m, if negb (xs_filter x) then Done true else xsub_match h x m)
    (passes T h x) h (ready_msgs w (xs_fq x)) (S (ready_parts w (xs_fq x))) h w (xs_fq x) (xs_message x))
    as (h' & w' & f' & m' & ok & tr & -> & Hok' & Hrd & Hres).
  - pose proof (pass_spec n T h (ready_msgs w (xs_fq x)) x Hrel Hun Hbytes) as Hp. by rewrite Hmr in Hp.
  - done.
  - intros Hm. rewrite Hsync in Hmr; done.
  - unfold ready_parts, ready_msgs. lia.
  - done.
  - done.
  - rewrite bind_Done. eexists _, _, _, ok, tr. split; [done|]. split; [apply Hrd|]. split; [done|]. split; [done|]. destruct ok; [|done].
    destruct Hres as (tr0 & p & -> & Hrej & Hp & Hm'). split; [split; [apply Hok'|done]|]. split; [done|]. by exists tr0, p.
Qed.


(** A subscriber to the prefix A, with one pipe on which B and AB arrived. *)
Definition sub_example_trie : trie_with_size_t :=
  match tws_add [65] tws_new with Done (_, t) => t | _ => tws_new end.
Definition sub_example_world : sock_world := SockWorld {[4%nat := [[66]; [65; 66]]]} [4%nat] [].
Definition sub_example : xsub_t :=
  xs_set_subs sub_example_trie [] (xs_set_fq (Fq (Array [4%nat] {[4%nat := 0]}) 1 0 false) sub_new).

Lemma sub_example_rel : subs_rel 1 (counts_step (λ _, 0) (SubAdd [65])).2 sub_example.
Proof.
  destruct (tws_step_simulates 0 (λ _, 0) tws_new (SubAdd [65])) as (t' & Ht & Hrel); [by repeat constructor|done|apply tws_new_rel|].
  split; [|split; [constructor|constructor]]. simpl. replace sub_example_trie with t'; [exact Hrel|].
  unfold sub_example_trie. simpl in Ht. by rewrite Ht.
Qed.


(** With a prefix and a pattern the filter is gone: once a socket has a
    subscription to some non-empty prefix and a pattern (on whose behalf it
    subscribed to the empty prefix), [match] accepts every message, whatever the
    prefix and the pattern are. *)
Lemma xsub_mixed_accepts_all n T h x m data p :
  subs_rel n T x → xs_invert_matching x = false → xs_pattern_subscriptions x ≠ [] → 0 < T [] → 0 < T p → p ≠ [] →
  msg_bytes h m = Done data → xsub_match h x m = Done true.
Proof. intros Hrel Hinv Hps H0 Hp Hne Hd. rewrite (xsub_match_mixed n T h x m data p), Hinv; done. Qed.

(** The prefix A and the pattern B*: the message C is accepted. *)
Lemma xsub_mixed_accepts_all_witness :
  ∃ h w x, (r ← sub_setsockopt (empty_heap (λ _, true)) sub_example_world sub_new SL_SUBSCRIBE [65];
            let '(h, w, x, _) := r in sub_setsockopt h w x SL_PSUBSCRIBE [66; 42]) = Done (h, w, x, RcOk)
    ∧ xsub_match h x (sock_msg [67]) = Done true.
Proof.
  destruct (tws_step_simulates 0 (λ _, 0) tws_new (SubAdd [65])) as (t1 & Ht1 & Hrel1); [by repeat constructor|done|apply tws_new_rel|].
  destruct (tws_step_simulates 1 (counts_step (λ _, 0) (SubAdd [65])).2 t1 (SubAdd [])) as (t2 & Ht2 & Hrel2); [constructor|done|exact Hrel1|].
  pose (T := (counts_step (counts_step (λ _, 0) (SubAdd [65])).2 (SubAdd [])).2).
  destruct (sub_setsockopt (empty_heap (λ _, true)) sub_example_world sub_new SL_SUBSCRIBE [65]) as [[[[h1 w1] x1] rc1]| |] eqn:E1;
    [|by vm_compute in E1..].
  destruct (sub_setsockopt h1 w1 x1 SL_PSUBSCRIBE [66; 42]) as [[[[h2 w2] x2] rc2]| |] eqn:E2; [|vm_compute in E1; simplify_eq; by vm_compute in E2..].
  assert (Hx : xs_subscriptions x2 = t2 ∧ xs_invert_matching x2 = false ∧ rc2 = RcOk
    ∧ xs_pattern_subscriptions x2 = (pattern_trie_add [] [66; 42]).2).
  { vm_compute in E1. simplify_eq. vm_compute in E2. simplify_eq. vm_compute in Ht1. simplify_eq. vm_compute in Ht2. by simplify_eq. }
  destruct Hx as (Hx & Hi & -> & Hp). exists h2, w2, x2. split; [exact E2|].
  destruct (pattern_trie_add_spec [] [66; 42]) as (Hwf & _); [split; constructor|done|].
  apply (xsub_mixed_accepts_all 2 T _ _ _ [67] [65]); try done.
  - split; [by rewrite Hx|by rewrite Hp].
  - by rewrite Hp.
Defined.
