(* ===== verification/XPub.v ===== *)
(** The XPUB and PUB sockets (src/core/xpub.cpp, src/core/pub.cpp) over the tries
    of subscriptions and the distributor. *)
From S2P Require Import Prelude NodeTable Msg PipeArray Dist Fq Mtrie Sockets.

(** ** State *)

Record xpub_t := XPub {
  xp_subscriptions : mtrie_root;
  xp_manual_subscriptions : mtrie_root;
  xp_dist : dist_t;
  xp_verbose_subs : bool;
  xp_verbose_unsubs : bool;
  xp_more_send : bool;
  xp_more_recv : bool;
  xp_process_subscribe : bool;
  xp_only_first_subscribe : bool;
  xp_lossy : bool;
  xp_manual : bool;
  xp_send_last_pipe : bool;
  xp_last_pipe : option nat;
  xp_pending_pipes : list (option nat);
  xp_welcome_msg : msg_t;
  xp_pending : list (list Z * option nat * Z);  (* _pending_data, _pending_metadata, _pending_flags *)
  xp_is_pub : bool;              (* options.type == SL_PUB, otherwise SL_XPUB *)
  xp_invert_matching : bool;     (* options.invert_matching *)
}.

Definition xpub_new (is_pub : bool) : xpub_t :=
  XPub mr_new mr_new dist_new false false false false false false true false false None [] msg_init [] is_pub false.

Definition xp_set_subs (s ms : mtrie_root) (x : xpub_t) : xpub_t :=
  XPub s ms (xp_dist x) (xp_verbose_subs x) (xp_verbose_unsubs x) (xp_more_send x) (xp_more_recv x) (xp_process_subscribe x)
    (xp_only_first_subscribe x) (xp_lossy x) (xp_manual x) (xp_send_last_pipe x) (xp_last_pipe x) (xp_pending_pipes x)
    (xp_welcome_msg x) (xp_pending x) (xp_is_pub x) (xp_invert_matching x).
Definition xp_set_dist (d : dist_t) (x : xpub_t) : xpub_t :=
  XPub (xp_subscriptions x) (xp_manual_subscriptions x) d (xp_verbose_subs x) (xp_verbose_unsubs x) (xp_more_send x) (xp_more_recv x)
    (xp_process_subscribe x) (xp_only_first_subscribe x) (xp_lossy x) (xp_manual x) (xp_send_last_pipe x) (xp_last_pipe x)
    (xp_pending_pipes x) (xp_welcome_msg x) (xp_pending x) (xp_is_pub x) (xp_invert_matching x).
Definition xp_set_flags (vs vu ofs lossy manual slp : bool) (x : xpub_t) : xpub_t :=
  XPub (xp_subscriptions x) (xp_manual_subscriptions x) (xp_dist x) vs vu (xp_more_send x) (xp_more_recv x) (xp_process_subscribe x)
    ofs lossy manual slp (xp_last_pipe x) (xp_pending_pipes x) (xp_welcome_msg x) (xp_pending x) (xp_is_pub x) (xp_invert_matching x).
Definition xp_set_more_send (b : bool) (x : xpub_t) : xpub_t :=
  XPub (xp_subscriptions x) (xp_manual_subscriptions x) (xp_dist x) (xp_verbose_subs x) (xp_verbose_unsubs x) b (xp_more_recv x)
    (xp_process_subscribe x) (xp_only_first_subscribe x) (xp_lossy x) (xp_manual x) (xp_send_last_pipe x) (xp_last_pipe x)
    (xp_pending_pipes x) (xp_welcome_msg x) (xp_pending x) (xp_is_pub x) (xp_invert_matching x).
Definition xp_set_recv (more process : bool) (x : xpub_t) : xpub_t :=
  XPub (xp_subscriptions x) (xp_manual_subscriptions x) (xp_dist x) (xp_verbose_subs x) (xp_verbose_unsubs x) (xp_more_send x) more
    process (xp_only_first_subscribe x) (xp_lossy x) (xp_manual x) (xp_send_last_pipe x) (xp_last_pipe x)
    (xp_pending_pipes x) (xp_welcome_msg x) (xp_pending x) (xp_is_pub x) (xp_invert_matching x).
Definition xp_set_last_pipe (p : option nat) (pend : list (option nat)) (x : xpub_t) : xpub_t :=
  XPub (xp_subscriptions x) (xp_manual_subscriptions x) (xp_dist x) (xp_verbose_subs x) (xp_verbose_unsubs x) (xp_more_send x) (xp_more_recv x)
    (xp_process_subscribe x) (xp_only_first_subscribe x) (xp_lossy x) (xp_manual x) (xp_send_last_pipe x) p
    pend (xp_welcome_msg x) (xp_pending x) (xp_is_pub x) (xp_invert_matching x).
Definition xp_set_welcome (m : msg_t) (x : xpub_t) : xpub_t :=
  XPub (xp_subscriptions x) (xp_manual_subscriptions x) (xp_dist x) (xp_verbose_subs x) (xp_verbose_unsubs x) (xp_more_send x) (xp_more_recv x)
    (xp_process_subscribe x) (xp_only_first_subscribe x) (xp_lossy x) (xp_manual x) (xp_send_last_pipe x) (xp_last_pipe x)
    (xp_pending_pipes x) m (xp_pending x) (xp_is_pub x) (xp_invert_matching x).
Definition xp_set_pending (l : list (list Z * option nat * Z)) (x : xpub_t) : xpub_t :=
  XPub (xp_subscriptions x) (xp_manual_subscriptions x) (xp_dist x) (xp_verbose_subs x) (xp_verbose_unsubs x) (xp_more_send x) (xp_more_recv x)
    (xp_process_subscribe x) (xp_only_first_subscribe x) (xp_lossy x) (xp_manual x) (xp_send_last_pipe x) (xp_last_pipe x)
    (xp_pending_pipes x) (xp_welcome_msg x) l (xp_is_pub x) (xp_invert_matching x).

(** A message for the user of the socket. *)
Definition xp_push (data : list Z) (md : option nat) (flags : Z) (x : xpub_t) : xpub_t :=
  xp_set_pending (xp_pending x ++ [(data, md, flags)]) x.

(** ** Subscriptions *)

(** [command_body ()] and [command_body_size ()]: the bytes of the body. *)
Definition body_bytes (h : heap) (m : msg_t) : outcome (list Z) :=
  off ← command_body h m;
  n ← command_body_size h m;
  d ← msg_data h m;
  match off with
  | Some off => if decide (off + n ≤ Z.of_nat (length d)) then Done (take (Z.to_nat n) (drop (Z.to_nat off) d)) else Undef
  | None => Undef
  end.

(** Whether a message is a subscription ([true]) or its cancellation, with the
    topic. *)
Definition parse_subscription (h : heap) (m : msg_t) : outcome (option (bool * list Z)) :=
  if is_subscribe m || is_cancel m then
    topic ← body_bytes h m;
    Done (Some (is_subscribe m, topic))
  else
    data ← msg_bytes h m;
    match data with
    | c :: topic => Done (if decide (c = 0 ∨ c = 1) then Some (bool_decide (c = 1), topic) else None)
    | [] => Done None
    end.

(** Apply it to the trie: whether the user is to be told. *)
Definition apply_subscription (x : xpub_t) (p : nat) (subscribe : bool) (topic : list Z) : outcome (bool * xpub_t) :=
  if xp_manual x then
    ms ← (if subscribe then '(_, r) ← mr_add topic p (xp_manual_subscriptions x); Done r
          else '(_, r) ← mr_rm topic p (xp_manual_subscriptions x); Done r);
    Done (true, xp_set_last_pipe (xp_last_pipe x) (xp_pending_pipes x ++ [Some p]) (xp_set_subs (xp_subscriptions x) ms x))
  else if subscribe then
    '(first_added, s) ← mr_add topic p (xp_subscriptions x);
    Done (negb (xp_is_pub x) && (first_added || xp_verbose_subs x), xp_set_subs s (xp_manual_subscriptions x) x)
  else
    '(result, s) ← mr_rm topic p (xp_subscriptions x);
    Done (negb (xp_is_pub x) && (negb (bool_decide (result = values_remain)) || xp_verbose_unsubs x),
          xp_set_subs s (xp_manual_subscriptions x) x).

(** [if (metadata) metadata->add_ref ()] *)
Definition keep_metadata (h : heap) (md : option nat) : outcome heap :=
  match md with Some md => metadata_add_ref h md | None => Done h end.

(** One message read by [xread_activated]. *)
Definition xpub_process (h : heap) (x : xpub_t) (p : nat) (m : msg_t) : outcome (heap * xpub_t) :=
  let first_part := negb (xp_more_recv x) in
  sub ← (if first_part || xp_process_subscribe x then parse_subscription h m else Done None);
  let x := xp_set_recv (has_flag m msg_more)
             (if first_part then negb (xp_only_first_subscribe x) || bool_decide (is_Some sub) else xp_process_subscribe x) x in
  '(h, x) ← match sub with
            | Some (subscribe, topic) =>
                '(notify, x) ← apply_subscription x p subscribe topic;
                if notify : bool then
                  h ← keep_metadata h (m_metadata m);
                  Done (h, xp_push ((if subscribe : bool then 1 else 0) :: topic) (m_metadata m) 0 x)
                else Done (h, x)
            | None =>
                if xp_is_pub x then Done (h, x)
                else
                  data ← msg_bytes h m;
                  h ← keep_metadata h (m_metadata m);
                  Done (h, xp_push data (m_metadata m) (m_flags m) x)
            end;
  '(_, h, _) ← msg_close h m;
  Done (h, x).

Section xpub.
Context {W : Type} `{!SocketPipes W}.

(** [while (pipe_->read (&msg))] *)
Fixpoint xpub_read_loop (fuel : nat) (h : heap) (w : W) (x : xpub_t) (p : nat) : outcome (heap * W * xpub_t) :=
  match fuel with
  | O => Undef
  | S fuel =>
      let '(r, w) := ip_read w p in
      match r with
      | None => Done (h, w, x)
      | Some m => '(h, x) ← xpub_process h x p m; xpub_read_loop fuel h w x p
      end
  end.

Definition xpub_read_activated (h : heap) (w : W) (x : xpub_t) (p : nat) : outcome (heap * W * xpub_t) :=
  xpub_read_loop (S (length (ip_ready w p))) h w x p.

Definition xpub_write_activated (x : xpub_t) (p : nat) : outcome xpub_t :=
  d ← dist_activated (xp_dist x) p; Done (xp_set_dist d x).

Definition xpub_attach_pipe (h : heap) (w : W) (x : xpub_t) (p : nat) (subscribe_to_all : bool) : outcome (heap * W * xpub_t) :=
  d ← dist_attach (xp_dist x) p;
  let x := xp_set_dist d x in
  x ← (if subscribe_to_all then '(_, s) ← mr_add [] p (xp_subscriptions x); Done (xp_set_subs s (xp_manual_subscriptions x) x)
       else Done x);
  n ← msg_size h (xp_welcome_msg x);
  '(h, w, x) ← (if decide (0 < n) then
                  '(rc, h, copy, welcome) ← msg_copy h msg_init (xp_welcome_msg x);
                  assert! bool_decide (rc = RcOk);;
                  let '(ok, w) := op_write w p copy in
                  assert! ok;;
                  Done (h, op_flush w p, xp_set_welcome welcome x)
                else Done (h, w, x));
  xpub_read_activated h w x p.

(** [send_unsubscription (data_, size_, self_)] *)
Definition send_unsubscription (x : xpub_t) (topic : list Z) : xpub_t :=
  if xp_is_pub x then x
  else
    let x := xp_push (0 :: topic) None 0 x in
    if xp_manual x then xp_set_last_pipe None (xp_pending_pipes x ++ [None]) x else x.

Definition xpub_pipe_terminated (x : xpub_t) (p : nat) : outcome xpub_t :=
  x ← (if xp_manual x then
         '(calls, ms) ← mr_rm_pipe p false (xp_manual_subscriptions x);
         let x := foldl send_unsubscription (xp_set_subs (xp_subscriptions x) ms x) calls in
         '(_, s) ← mr_rm_pipe p false (xp_subscriptions x);
         let x := xp_set_subs s (xp_manual_subscriptions x) x in
         Done (if decide (xp_last_pipe x = Some p) then xp_set_last_pipe None (xp_pending_pipes x) x else x)
       else
         '(calls, s) ← mr_rm_pipe p (negb (xp_verbose_unsubs x)) (xp_subscriptions x);
         Done (foldl send_unsubscription (xp_set_subs s (xp_manual_subscriptions x) x) calls));
  d ← dist_pipe_terminated (xp_dist x) p;
  Done (xp_set_dist d x).

(** ** Options *)

Definition xpub_setsockopt (h : heap) (x : xpub_t) (opt : Z) (val : list Z) : outcome (heap * xpub_t * rc_t) :=
  if decide (opt ∈ [SL_XPUB_VERBOSE; SL_XPUB_VERBOSER; SL_XPUB_MANUAL_LAST_VALUE; SL_XPUB_NODROP; SL_XPUB_MANUAL; SL_ONLY_FIRST_SUBSCRIBE])
  then
    match opt_int val with
    | Some v =>
        if decide (v < 0) then Done (h, x, RcErr EINVAL)
        else
          let b := bool_decide (v ≠ 0) in
          let '(XPub _ _ _ vs vu _ _ _ ofs lossy manual slp _ _ _ _ _ _) := x in
          Done (h,
            (if decide (opt = SL_XPUB_VERBOSE) then xp_set_flags b false ofs lossy manual slp x
             else if decide (opt = SL_XPUB_VERBOSER) then xp_set_flags b b ofs lossy manual slp x
             else if decide (opt = SL_XPUB_MANUAL_LAST_VALUE) then xp_set_flags vs vu ofs lossy b b x
             else if decide (opt = SL_XPUB_NODROP) then xp_set_flags vs vu ofs (negb b) manual slp x
             else if decide (opt = SL_XPUB_MANUAL) then xp_set_flags vs vu ofs lossy b slp x
             else xp_set_flags vs vu b lossy manual slp x), RcOk)
    | None => Done (h, x, RcErr EINVAL)
    end
  else if decide (opt = SL_SUBSCRIBE ∧ xp_manual x = true) then
    match xp_last_pipe x with
    | Some p => '(_, s) ← mr_add val p (xp_subscriptions x); Done (h, xp_set_subs s (xp_manual_subscriptions x) x, RcOk)
    | None => Done (h, x, RcOk)
    end
  else if decide (opt = SL_UNSUBSCRIBE ∧ xp_manual x = true) then
    match xp_last_pipe x with
    | Some p => '(_, s) ← mr_rm val p (xp_subscriptions x); Done (h, xp_set_subs s (xp_manual_subscriptions x) x, RcOk)
    | None => Done (h, x, RcOk)
    end
  else if decide (opt = SL_XPUB_WELCOME_MSG) then
    '(_, h, _) ← msg_close h (xp_welcome_msg x);
    if decide (val ≠ []) then
      let '(rc, h, m) := msg_init_size h (Z.of_nat (length val)) in
      assert! bool_decide (rc = RcOk);;
      '(h, m) ← msg_memcpy h m val;
      Done (h, xp_set_welcome m x, RcOk)
    else Done (h, xp_set_welcome msg_init x, RcOk)
  else Done (h, x, RcErr EINVAL).

(** After the pending commands of the socket were processed. *)
Definition xpub_getsockopt (x : xpub_t) (opt : Z) (len : Z) : option Z * rc_t :=
  if decide (opt = SL_TOPICS_COUNT ∧ 4 ≤ len) then (Some (s32 (mr_num_prefixes (xp_subscriptions x))), RcOk)
  else if decide (opt = SL_XPUB_NODROP ∧ 4 ≤ len) then (Some (if xp_lossy x then 0 else 1), RcOk)
  else (None, RcErr EINVAL).

(** ** Sending *)

(** [mark_as_matching], or [mark_last_pipe_as_matching], for every matching pipe. *)
Fixpoint mark_matching (only : option nat) (d : dist_t) (pipes : list nat) : outcome dist_t :=
  match pipes with
  | [] => Done d
  | p :: pipes =>
      d ← (match only with
           | Some q => if decide (q = p) then dist_match d p else Done d
           | None => dist_match d p
           end);
      mark_matching only d pipes
  end.

(** The pipes a new message goes to. *)
Definition xpub_select (h : heap) (x : xpub_t) (m : msg_t) : outcome xpub_t :=
  let d := dist_unmatch (xp_dist x) in
  data ← msg_bytes h m;
  pipes ← mtrie_match (mr_trie (xp_subscriptions x)) data;
  '(d, x) ← (match xp_last_pipe x with
             | Some q =>
                 if xp_manual x && xp_send_last_pipe x then
                   d ← mark_matching (Some q) d pipes; Done (d, xp_set_last_pipe None (xp_pending_pipes x) x)
                 else d ← mark_matching None d pipes; Done (d, x)
             | None => d ← mark_matching None d pipes; Done (d, x)
             end);
  d ← (if xp_invert_matching x then dist_reverse_match d else Done d);
  Done (xp_set_dist d x).

Definition xpub_send (h : heap) (w : W) (x : xpub_t) (m : msg_t) : outcome (heap * W * xpub_t * msg_t * rc_t) :=
  let more := has_flag m msg_more in
  x ← (if xp_more_send x then Done x else xpub_select h x m);
  if xp_lossy x || dist_check_hwm w (xp_dist x) then
    '(h, w, d, m) ← dist_send_to_matching h w (xp_dist x) m;
    let d := if more then d else dist_unmatch d in
    Done (h, w, xp_set_more_send more (xp_set_dist d x), m, RcOk)
  else Done (h, w, x, m, RcErr EAGAIN).

Definition xpub_has_out : bool := dist_has_out.

(** ** Receiving *)

(** [metadata->drop_ref ()], which is not the last reference. *)
Definition metadata_drop_ref (h : heap) (md : nat) : outcome heap :=
  match h_metadata h !! md with
  | Some n => Done (h_set_metadata <[md := (counter_sub n 1).1]> h)
  | None => Undef
  end.

Definition xpub_recv (h : heap) (x : xpub_t) (m : msg_t) : outcome (heap * xpub_t * msg_t * rc_t) :=
  match xp_pending x with
  | [] => Done (h, x, m, RcErr EAGAIN)
  | (data, md, flags) :: pending =>
      let x := match xp_pending_pipes x with
               | p :: pend =>
                   if xp_manual x then
                     xp_set_last_pipe (match p with Some p => if dist_has_pipe (xp_dist x) p then Some p else None | None => None end) pend x
                   else x
               | [] => x
               end in
      '(rc, h, _) ← msg_close h m;
      assert! bool_decide (rc = RcOk);;
      let '(rc, h, m) := msg_init_size h (Z.of_nat (length data)) in
      assert! bool_decide (rc = RcOk);;
      '(h, m) ← msg_memcpy h m data;
      '(h, m) ← match md with
                | Some md => '(h, m) ← msg_set_metadata h m (Some md); h ← metadata_drop_ref h md; Done (h, m)
                | None => Done (h, m)
                end;
      Done (h, xp_set_pending pending x, set_flags flags m, RcOk)
  end.

Definition xpub_has_in (x : xpub_t) : bool := bool_decide (xp_pending x ≠ []).

(** ** The PUB socket *)

Definition pub_attach_pipe `{!PipeControl W} (h : heap) (w : W) (x : xpub_t) (p : nat) (subscribe_to_all : bool)
    : outcome (heap * W * xpub_t) :=
  xpub_attach_pipe h (pc_nodelay w p) x p subscribe_to_all.

Definition pub_recv : rc_t := RcErr ENOTSUP.
Definition pub_has_in : bool := false.

End xpub.

(** ** What a publisher sends *)

(** Some prefix of [data] has pipe [p] among its subscribers. *)
Definition interested (a : sub_map) (data : list Z) (p : nat) : Prop := ∃ q, q `prefix_of` data ∧ p ∈ subs a q.

(** The subscriptions are those of [a], of attached pipes only. *)
Record xpub_inv (n : Z) (a : sub_map) (x : xpub_t) : Prop := {
  xi_subs : mr_rel (xp_subscriptions x) (n, a);
  xi_attached : ∀ q p, p ∈ subs a q → p ∈ ar_items (di_pipes (xp_dist x));
  xi_dist : dist_inv (xp_dist x);
  xi_more : di_more (xp_dist x) = xp_more_send x;
}.

(** The pipe that a manual publisher restricts its answer to. *)
Definition answers_to (x : xpub_t) : option nat := if xp_manual x && xp_send_last_pipe x then xp_last_pipe x else None.

(** Where a part goes: the first one to the interested pipes that can be written,
    or to the others with inverted matching, the next ones where the first went. *)
Definition xpub_targets (a : sub_map) (x : xpub_t) (data : list Z) (p : nat) : Prop :=
  if xp_more_send x then p ∈ matching_pipes (xp_dist x)
  else
    let hit := interested a data p ∧ ∀ q, answers_to x = Some q → p = q in
    p ∈ eligible_pipes (xp_dist x) ∧ if xp_invert_matching x then ¬ hit else hit.

Lemma mtrie_match_interested n a x data :
  mr_rel (xp_subscriptions x) (n, a) →
  ∃ pipes, mtrie_match (mr_trie (xp_subscriptions x)) data = Done pipes ∧ ∀ p, p ∈ pipes ↔ interested a data p.
Proof.
  intros (Hwf & Hlk & _). rewrite (mtrie_match_spec _ data Hwf). eexists. split; [done|]. intros p.
  rewrite on_path_lookup, list_elem_of_join. setoid_rewrite list_elem_of_fmap. split.
  - intros (l & Hp & k & -> & _). rewrite elem_of_elements, Hlk in Hp. exists (take k data). split; [|done].
    exists (drop k data). by rewrite take_drop.
  - intros (q & [r ->] & Hp). exists (elements (subs a q)). split; [by apply elem_of_elements|].
    exists (length q). rewrite take_app_length, Hlk. split; [done|]. apply elem_of_seq. rewrite length_app. lia.
Qed.

Lemma matching_eligible d p : dist_inv d → p ∈ matching_pipes d → p ∈ eligible_pipes d.
Proof.
  intros [_ H1 H2 _ _]. unfold matching_pipes, eligible_pipes. rewrite !elem_of_take. intros (i & ? & ?). exists i. split; [done|lia].
Qed.

Lemma mark_matching_spec only pipes d :
  dist_inv d → di_more d = false → (∀ p, p ∈ pipes → p ∈ ar_items (di_pipes d)) →
  ∃ d', mark_matching only d pipes = Done d' ∧ dist_inv d' ∧ di_more d' = false
    ∧ ar_items (di_pipes d') ≡ₚ ar_items (di_pipes d) ∧ eligible_pipes d' ≡ₚ eligible_pipes d
    ∧ ∀ p, p ∈ matching_pipes d'
        ↔ p ∈ matching_pipes d ∨ p ∈ eligible_pipes d ∧ p ∈ pipes ∧ ∀ q, only = Some q → p = q.
Proof.
  revert d. induction pipes as [|p pipes IH]; intros d Hinv Hmo Hin; cbn [mark_matching].
  { exists d. split_and!; try done. intros p. split; [by left|]. intros [?|(_ & H & _)]; [done|]. by apply not_elem_of_nil in H. }
  assert (Hstep : ∃ d1, (match only with Some q => if decide (q = p) then dist_match d p else Done d | None => dist_match d p end) = Done d1
    ∧ dist_inv d1 ∧ di_more d1 = false ∧ ar_items (di_pipes d1) ≡ₚ ar_items (di_pipes d) ∧ eligible_pipes d1 ≡ₚ eligible_pipes d
    ∧ ∀ z, z ∈ matching_pipes d1 ↔ z ∈ matching_pipes d ∨ z ∈ eligible_pipes d ∧ z = p ∧ ∀ q, only = Some q → z = q).
  { assert (Hm : (∀ q, only = Some q → p = q) → ∃ d1, dist_match d p = Done d1
      ∧ dist_inv d1 ∧ di_more d1 = false ∧ ar_items (di_pipes d1) ≡ₚ ar_items (di_pipes d) ∧ eligible_pipes d1 ≡ₚ eligible_pipes d
      ∧ ∀ z, z ∈ matching_pipes d1 ↔ z ∈ matching_pipes d ∨ z ∈ eligible_pipes d ∧ z = p ∧ ∀ q, only = Some q → z = q).
    { intros Ho. destruct (dist_match_spec d p Hinv Hmo) as (d1 & -> & Hi & Hm & Hp & He & Hc); [apply Hin; by left|].
      exists d1. split_and!; try done. intros z. destruct Hc as [[Hc ->]|[Hc ->]].
      - split; [by left|]. intros [?|(Hz & -> & _)]; [done|]. by destruct Hc.
      - rewrite elem_of_app, list_elem_of_singleton. split; intros [?|H]; auto; [subst; auto|]. destruct H as (_ & -> & _). by right. }
    destruct only as [q|]; [|by apply Hm]. destruct (decide (q = p)) as [->|Hq]; [apply Hm; congruence|].
    exists d. split_and!; try done. intros z. split; [by left|]. intros [?|(_ & -> & H)]; [done|]. by destruct Hq; symmetry; apply H. }
  destruct Hstep as (d1 & -> & Hi1 & Hm1 & Hp1 & He1 & Hc1). rewrite bind_Done.
  destruct (IH d1 Hi1 Hm1) as (d' & -> & Hi & Hm & Hp & He & Hc). { intros z Hz. rewrite Hp1. apply Hin. by right. }
  exists d'. split_and!; try done; [by rewrite Hp|by rewrite He|]. intros z. rewrite Hc, Hc1, He1. set_solver.
Qed.

Lemma dist_unmatch_spec d :
  dist_inv d → dist_inv (dist_unmatch d) ∧ matching_pipes (dist_unmatch d) = [] ∧ eligible_pipes (dist_unmatch d) = eligible_pipes d.
Proof. intros [H1 H2 H3 H4 H5]. split; [|done]. split; simpl in *; [done|lia|done|done|done]. Qed.

Lemma forallb_witness {A} (f : A → bool) l : forallb f l = false → ∃ x, x ∈ l ∧ f x = false.
Proof.
  induction l as [|y l IH]; [done|]. simpl. destruct (f y) eqn:E; [|intros _; exists y; split; [by left|done]].
  intros (x & ? & ?)%IH. exists x. split; [by right|done].
Qed.

(** [select] marks the targets. *)
Lemma xpub_select_spec n a h x m data :
  xpub_inv n a x → xp_more_send x = false → msg_bytes h m = Done data →
  ∃ d', xpub_select h x m = Done (xp_set_dist d' (xp_set_last_pipe (match answers_to x with Some _ => None | None => xp_last_pipe x end) (xp_pending_pipes x) x))
    ∧ dist_inv d' ∧ di_more d' = false ∧ ar_items (di_pipes d') ≡ₚ ar_items (di_pipes (xp_dist x))
    ∧ eligible_pipes d' ≡ₚ eligible_pipes (xp_dist x) ∧ ∀ p, p ∈ matching_pipes d' ↔ xpub_targets a x data p.
Proof.
  intros [Hs Ha Hd Hm] Hms Hb. rewrite Hms in Hm. unfold xpub_select. rewrite Hb, bind_Done.
  destruct (mtrie_match_interested n a x data Hs) as (pipes & -> & Hp). rewrite bind_Done.
  destruct (dist_unmatch_spec _ Hd) as (Hu & Hum & Hue).
  destruct (mark_matching_spec (answers_to x) pipes (dist_unmatch (xp_dist x)) Hu Hm) as (d1 & Hmk & Hi1 & Hm1 & Hp1 & He1 & Hc1).
  { intros p [q [_ Hq]]%Hp. by apply (Ha q). }
  rewrite Hum, Hue in Hc1. rewrite Hue in He1.
  assert (Hsel : (match xp_last_pipe x with
             | Some q =>
                 if xp_manual x && xp_send_last_pipe x then
                   d ← mark_matching (Some q) (dist_unmatch (xp_dist x)) pipes; Done (d, xp_set_last_pipe None (xp_pending_pipes x) x)
                 else d ← mark_matching None (dist_unmatch (xp_dist x)) pipes; Done (d, x)
             | None => d ← mark_matching None (dist_unmatch (xp_dist x)) pipes; Done (d, x)
             end) = Done (d1, xp_set_last_pipe (match answers_to x with Some _ => None | None => xp_last_pipe x end) (xp_pending_pipes x) x)).
  { unfold answers_to in *. destruct (xp_last_pipe x) as [q|] eqn:El, (xp_manual x && xp_send_last_pipe x);
      rewrite Hmk, bind_Done; try done; destruct x; simpl in *; by rewrite El. }
  rewrite Hsel, bind_Done. cbn [xp_invert_matching xp_set_last_pipe]. unfold xpub_targets. rewrite Hms.
  destruct (xp_invert_matching x).
  - destruct (dist_reverse_match_spec d1 Hi1 Hm1) as (d' & -> & Hi & Hmo & Hpp & He & Hr). rewrite bind_Done.
    exists d'. split_and!; try done; [by rewrite Hpp|by rewrite He|]. intros p.
    pose proof (dist_parts_nodup d1 Hi1) as (_ & Hnd & _). rewrite Hr in Hnd. apply NoDup_app in Hnd as (_ & Hdis & _).
    rewrite <- He1, Hr, elem_of_app. pose proof (Hc1 p) as Hcp. rewrite <- He1, Hr, elem_of_app in Hcp. rewrite <- Hp. specialize (Hdis p). pose proof (not_elem_of_nil p).
    split; [|tauto]. intros Hin. split; [by right|]. intros Hhit. apply Hdis; [|done]. apply Hcp. right. tauto.
  - rewrite bind_Done. exists d1. split_and!; try done. intros p. rewrite Hc1, <- Hp. split; [|tauto].
    intros [H|?]; [by apply not_elem_of_nil in H|tauto].
Qed.

(** C24: a publisher sends every part to the right pipes, once.  The first part of a
    message goes to every pipe that can be written and has a subscription that is a
    prefix of the message (with inverted matching to those that have none; with
    [XPUB_MANUAL_LAST_VALUE] to the pipe of the last subscription received only);
    the other parts follow it.  Each of these pipes is tried exactly once, the
    caller's message is emptied and its reference becomes one per pipe that took it.
    The send fails only with [EAGAIN], with [XPUB_NODROP] set and a target full;
    then nothing was written and the message is the caller's still. *)
Theorem xpub_send_targets {W} `{!SocketPipes W} ext n a h (w : W) x m ms data :
  xpub_inv n a x → msg_bytes h m = Done data → heap_inv ext h (m :: ms) → plain m → msg_check m = true →
  Z.of_nat (length ms + S (di_size (xp_dist x))) < 2 ^ 32 →
  (∀ md, ext md + Z.of_nat (length ms + S (di_size (xp_dist x))) < 2 ^ 32) →
  ∃ h' w' x' m' rc, xpub_send h w x m = Done (h', w', x', m', rc)
    ∧ match rc with
      | RcOk => ∃ sent tries, xpub_inv n a x' ∧ m' = msg_init ∧ xp_more_send x' = has_flag m msg_more
          ∧ NoDup tries.*1 ∧ (∀ p, p ∈ tries.*1 ↔ xpub_targets a x data p)
          ∧ op_log w' = op_log w ++ concat (try_events sent <$> tries)
          ∧ heap_inv ext h' (replicate (length (accepted tries)) sent ++ ms)
          ∧ (accepted tries ≠ [] → msg_bytes h' sent = Done data)
          ∧ (has_flag m msg_more = true → ∀ p, p ∈ matching_pipes (xp_dist x') ↔ p ∈ accepted tries)
      | RcErr e => e = EAGAIN ∧ xp_lossy x = false ∧ h' = h ∧ w' = w ∧ m' = m
          ∧ ∃ p, xpub_targets a x data p ∧ op_check_hwm w p = false
      end.
Proof.
  intros Hx Hb Hh Hpl Hck Hl1 Hl2. unfold xpub_send.
  assert (Hsel : ∃ x1, (if xp_more_send x then Done x else xpub_select h x m) = Done x1
    ∧ xpub_inv n a x1 ∧ xp_lossy x1 = xp_lossy x ∧ ar_items (di_pipes (xp_dist x1)) ≡ₚ ar_items (di_pipes (xp_dist x))
    ∧ ∀ p, p ∈ matching_pipes (xp_dist x1) ↔ xpub_targets a x data p).
  { unfold xpub_targets. destruct (xp_more_send x) eqn:Hms; [by exists x|].
    destruct (xpub_select_spec n a h x m data Hx Hms Hb) as (d & -> & Hd & Hdm & Hp & He & Ht). eexists. split; [done|].
    unfold xpub_targets in Ht. rewrite Hms in Ht. split_and!; try done.
    destruct Hx as [H1 H2 H3 H4]. split; simpl; [done| |done|by rewrite Hdm]. intros q p Hq. rewrite Hp. by apply (H2 q). }
  destruct Hsel as (x1 & -> & Hx1 & Hlo & Hp1 & Ht1). rewrite bind_Done, Hlo. pose proof Hx1 as [H1 H2 H3 H4].
  pose proof (dist_parts_nodup _ H3) as (_ & _ & _ & Hnd).
  assert (Hsz : (di_matching (xp_dist x1) ≤ di_size (xp_dist x))%nat).
  { destruct H3 as [_ ? ? ? _]. unfold di_size in *. rewrite <- Hp1. lia. }
  destruct (xp_lossy x || dist_check_hwm w (xp_dist x1)) eqn:Hgo; last first.
  - apply orb_false_iff in Hgo as [Hl Hc]. eexists _, _, _, _, _. split; [done|]. split_and!; try done.
    destruct (forallb_witness _ _ Hc) as (p & Hp & Hf). exists p. split; [by apply Ht1|done].
  - destruct (dist_send_spec ext h w (xp_dist x1) m ms) as (h' & w' & d' & tries & Hr & Hi & Hmo & Hpp & Hlog & Htr & Hm & He & _ & Hh' & Hf);
      [done|done|done|done|lia|intros md; specialize (Hl2 md); lia|]. rewrite Hr, bind_Done. simpl in Hlog, Hh'.
    set (sent := if decide _ then _ else _) in *. eexists _, _, _, _, RcOk. split; [done|]. exists sent, tries.
    destruct (dist_unmatch_spec d' Hi) as (Hu & _). split_and!; try done.
    + split; cbn [xp_subscriptions xp_dist xp_set_more_send xp_set_dist xp_more_send]; [done|..].
      * intros q p Hq. specialize (H2 q p Hq). rewrite <- Hpp in H2. by destruct (has_flag m msg_more).
      * by destruct (has_flag m msg_more).
      * clear -Hmo. by destruct (has_flag m msg_more).
    + by rewrite Htr.
    + intros p. rewrite Htr. apply Ht1.
    + intros Hacc. rewrite <- Hb. transitivity (msg_bytes h sent); [|unfold sent; case_decide; [done|apply copy_of_bytes]].
      eapply msg_bytes_frame; [done|apply Hh'|]. apply elem_of_app. left. apply elem_of_replicate. split; [done|]. by destruct (accepted tries).
    + intros -> p. cbn. by rewrite Hm.
Qed.

(** ** What a publisher is told *)

(** Length of the name in front of a subscription command's topic. *)
Definition command_name_size (m : msg_t) : nat :=
  if has_flag m msg_command then Z.to_nat (if is_subscribe m then sub_cmd_name_size else cancel_cmd_name_size) else 0%nat.

(** The subscription or cancellation in a message with bytes [data]. *)
Definition subscription_in (m : msg_t) (data : list Z) : option (bool * list Z) :=
  if is_subscribe m || is_cancel m then Some (is_subscribe m, drop (command_name_size m) data)
  else match data with
       | c :: topic => if decide (c = 0 ∨ c = 1) then Some (bool_decide (c = 1), topic) else None
       | [] => None
       end.

Lemma body_bytes_spec h m data :
  msg_bytes h m = Done data → is_subscribe m || is_cancel m = true → (command_name_size m ≤ length data)%nat → Z.of_nat (length data) < 2 ^ 64 →
  body_bytes h m = Done (drop (command_name_size m) data).
Proof.
  intros Hb Hs Hn Hlt. unfold msg_bytes in Hb.
  destruct (msg_size h m) as [n| |] eqn:En; [|done|done]. rewrite bind_Done in Hb.
  destruct (msg_data h m) as [d| |] eqn:Ed; [|done|done]. rewrite bind_Done in Hb.
  case_decide as Hle; [|done]. injection Hb as <-. rewrite length_take in Hn, Hlt.
  assert (Hpp : is_ping m || is_pong m = false).
  { unfold is_subscribe, is_cancel, is_ping, is_pong in *. apply orb_true_iff in Hs as [Hs|Hs]; apply bool_decide_eq_true in Hs; by rewrite Hs. }
  unfold body_bytes, command_body, command_body_size, command_name_size in *. rewrite Hpp, Hs.
  assert (Hgen : ∀ k, 0 < k → (Z.to_nat k ≤ Z.to_nat n `min` length d)%nat →
    (off ← (_ ← msg_data h m; Done (Some k)); n ← (n ← msg_size h m; Done (u64 (n - k))); d ← msg_data h m;
     match off with Some off => if decide (off + n ≤ Z.of_nat (length d)) then Done (take (Z.to_nat n) (drop (Z.to_nat off) d)) else Undef | None => Undef end)
    = Done (drop (Z.to_nat k) (take (Z.to_nat n) d))).
  { intros k Hk Hkn. rewrite En, Ed, !bind_Done, u64_small, decide_True by lia. f_equal. rewrite take_drop_commute. do 2 f_equal. lia. }
  destruct (has_flag m msg_command); cbn [negb andb].
  - destruct (is_subscribe m) eqn:Esub; [by apply Hgen|]. simpl in Hs. rewrite Hs. by apply Hgen.
  - rewrite En, Ed, !bind_Done, decide_True by lia. done.
Qed.

Lemma parse_subscription_spec h m data :
  msg_bytes h m = Done data → (is_subscribe m || is_cancel m = true → (command_name_size m ≤ length data)%nat) → Z.of_nat (length data) < 2 ^ 64 →
  parse_subscription h m = Done (subscription_in m data).
Proof.
  intros Hb Hn Hlt. unfold parse_subscription, subscription_in. destruct (is_subscribe m || is_cancel m) eqn:Es.
  - rewrite (body_bytes_spec h m data) by auto. done.
  - rewrite Hb, bind_Done. by destruct data.
Qed.

(** Whether the user of the socket hears of a subscription of pipe [p]: of the
    first one to a topic and of the cancellation of the last one, of more of them
    in the verbose modes; also of the cancellation of what [p] had not subscribed. *)
Definition told (x : xpub_t) (a : sub_map) (p : nat) (subscribe : bool) (topic : list Z) : bool :=
  negb (xp_is_pub x)
  && if subscribe then bool_decide (a !! topic = None) || xp_verbose_subs x
     else negb (bool_decide (rm_answer p (subs a topic) = values_remain)) || xp_verbose_unsubs x.

(** The subscriptions and the messages for the user, as the messages of pipe [p]
    arrive.  [process] tells whether the parts after the first are subscriptions. *)
Record xview := XView {
  xv_subs : sub_map;
  xv_pending : list (list Z * option nat * Z);
  xv_more : bool;
  xv_process : bool;
}.

Definition view_read (x : xpub_t) (p : nat) (v : xview) (md : msg_t * list Z) : xview :=
  let '(m, data) := md in
  let sub := if negb (xv_more v) || xv_process v then subscription_in m data else None in
  let process := if xv_more v then xv_process v else negb (xp_only_first_subscribe x) || bool_decide (is_Some sub) in
  match sub with
  | Some (subscribe, topic) =>
      let a := xv_subs v in
      XView (set_subs topic (if subscribe : bool then {[p]} ∪ subs a topic else subs a topic ∖ {[p]}) a)
        (xv_pending v ++ if told x a p subscribe topic then [((if subscribe : bool then 1 else 0) :: topic, None, 0)] else [])
        (has_flag m msg_more) process
  | None =>
      XView (xv_subs v) (xv_pending v ++ if xp_is_pub x then [] else [(data, None, m_flags m)]) (has_flag m msg_more) process
  end.

(** What the socket keeps of it, and what reading does not change. *)
Definition view_of (a : sub_map) (x : xpub_t) : xview := XView a (xp_pending x) (xp_more_recv x) (xp_process_subscribe x).

Record same_config (x x' : xpub_t) : Prop := {
  sc_dist : xp_dist x' = xp_dist x;
  sc_more : xp_more_send x' = xp_more_send x;
  sc_manual : xp_manual x' = xp_manual x;
  sc_pub : xp_is_pub x' = xp_is_pub x;
  sc_subs : xp_verbose_subs x' = xp_verbose_subs x;
  sc_unsubs : xp_verbose_unsubs x' = xp_verbose_unsubs x;
  sc_first : xp_only_first_subscribe x' = xp_only_first_subscribe x;
}.

#[export] Instance same_config_PreOrder : PreOrder same_config.
Proof. split; [by split|]. intros x y z [] []. split; congruence. Qed.

Lemma apply_subscription_spec n a x p subscribe topic :
  mr_rel (xp_subscriptions x) (n, a) → xp_manual x = false → bytes_ok topic → n + 1 < 2 ^ 32 →
  ∃ n' s', apply_subscription x p subscribe topic = Done (told x a p subscribe topic, xp_set_subs s' (xp_manual_subscriptions x) x) ∧ n' ≤ n + 1
    ∧ mr_rel s' (n', set_subs topic (if subscribe then {[p]} ∪ subs a topic else subs a topic ∖ {[p]}) a).
Proof.
  intros Hrel Hman Hb Hn. unfold apply_subscription, told. rewrite Hman. destruct subscribe.
  - destruct (mr_step_add _ _ topic p Hrel Hb Hn) as (res & r' & [n' a'] & Hs & [-> Ha] & Hrel' & Hle). simpl in Hs, Ha, Hle.
    destruct (mr_add topic p (xp_subscriptions x)) as [[b r]| |]; simplify_eq/=. eauto.
  - destruct (mr_step_rm _ _ topic p Hrel) as (res & r' & [n' a'] & Hs & [-> Ha] & Hrel' & Hle); [simpl; lia|]. simpl in Hs, Ha, Hle.
    destruct (mr_rm topic p (xp_subscriptions x)) as [[b r]| |]; simplify_eq/=. eexists _, _. split; [done|]. split; [|done]. lia.
Qed.

(** A message that may arrive: valid, without metadata, and long enough for the
    command it says it is. *)
Record arrives (h : heap) (m : msg_t) (data : list Z) : Prop := {
  av_check : msg_check m = true;
  av_plain : plain m;
  av_bytes : msg_bytes h m = Done data;
  av_ok : bytes_ok data;
  av_long : is_subscribe m || is_cancel m = true → (command_name_size m ≤ length data)%nat;
  av_size : Z.of_nat (length data) < 2 ^ 64;
}.

Lemma subscription_in_ok m data subscribe topic : bytes_ok data → subscription_in m data = Some (subscribe, topic) → bytes_ok topic.
Proof.
  unfold subscription_in. intros Hd. destruct (is_subscribe m || is_cancel m).
  - intros [= _ <-]. by apply Forall_drop.
  - destruct data as [|c t]; [done|]. case_decide; [|done]. intros [= _ <-]. by inversion Hd.
Qed.

Lemma xpub_process_spec ext n a h x p m data ms :
  mr_rel (xp_subscriptions x) (n, a) → xp_manual x = false → n + 1 < 2 ^ 32 → arrives h m data → heap_inv ext h (m :: ms) →
  ∃ h' n' x' a', xpub_process h x p m = Done (h', x') ∧ mr_rel (xp_subscriptions x') (n', a') ∧ n' ≤ n + 1
    ∧ view_of a' x' = view_read x p (view_of a x) (m, data) ∧ same_config x x' ∧ heap_inv ext h' ms ∧ heap_frame h h'.
Proof.
  intros Hrel Hman Hn [Hck [Hmd _] Hb Hok Hlong Hsz] Hh. unfold xpub_process, view_read. cbn [view_of xv_more xv_process xv_subs xv_pending].
  assert (Hp : (if negb (xp_more_recv x) || xp_process_subscribe x then parse_subscription h m else Done None)
     = Done (if negb (xp_more_recv x) || xp_process_subscribe x then subscription_in m data else None)).
  { rewrite (parse_subscription_spec h m data) by done. by destruct (negb (xp_more_recv x) || xp_process_subscribe x). }
  rewrite Hp, bind_Done. set (sub := if _ || _ then _ else None).
  assert (Hproc : (if negb (xp_more_recv x) then negb (xp_only_first_subscribe x) || bool_decide (is_Some sub) else xp_process_subscribe x)
    = if xp_more_recv x then xp_process_subscribe x else negb (xp_only_first_subscribe x) || bool_decide (is_Some sub)) by by destruct (xp_more_recv x).
  rewrite Hproc. set (process := if xp_more_recv x then _ else _).
  destruct (msg_close_spec ext h m ms Hh Hck) as (h' & Hcl & Hh' & Hf). rewrite Hmd.
  destruct sub as [[subscribe topic]|] eqn:Esub.
  - set (x0 := xp_set_recv (has_flag m msg_more) process x).
    assert (Ht : bytes_ok topic).
    { apply (subscription_in_ok m data subscribe); [done|]. unfold sub in Esub. by destruct (negb (xp_more_recv x) || xp_process_subscribe x). }
    destruct (apply_subscription_spec n a x0 p subscribe topic Hrel Hman Ht Hn) as (n' & s' & -> & Hle & Hrel').
    rewrite bind_Done. change (told x0 a p subscribe topic) with (told x a p subscribe topic).
    destruct (told x a p subscribe topic); cbn [keep_metadata]; rewrite ?bind_Done, Hcl, bind_Done; eexists h', n', _, _;
      (split; [done|]); (split; [exact Hrel'|]); split_and!; try done. unfold view_of. simpl. by rewrite app_nil_r.
  - cbn [xp_is_pub xp_set_recv]. destruct (xp_is_pub x); cbn [keep_metadata]; rewrite ?Hb, ?bind_Done, Hcl, bind_Done; eexists h', n, _, a;
      (split; [done|]); (split; [exact Hrel|]); split_and!; try done; [lia| |lia]. unfold view_of. simpl. by rewrite app_nil_r.
Qed.

Lemma view_read_config x x' p v md : same_config x x' → view_read x' p v md = view_read x p v md.
Proof. intros [_ _ _ H1 H2 H3 H4]. destruct md. unfold view_read, told. by rewrite H1, H2, H3, H4. Qed.

Lemma view_reads_config x x' p v l : same_config x x' → foldl (view_read x' p) v l = foldl (view_read x p) v l.
Proof.
  intros Hc. revert v. induction l as [|y l IH]; intros v; [done|]. cbn [foldl]. by rewrite (view_read_config x x'), IH.
Qed.

Lemma arrives_frame h h' l m data : heap_frame h h' → content_inv h' l → m ∈ l → arrives h m data → arrives h' m data.
Proof. intros Hf Hc Hm [H1 H2 H3 H4 H5 H6]. split; try done. by rewrite (msg_bytes_frame h h' l m). Qed.

Lemma arrives_all_frame h h' L l datas :
  heap_frame h h' → content_inv h' L → l ⊆ L → Forall2 (arrives h) l datas → Forall2 (arrives h') l datas.
Proof.
  intros Hf Hc. induction l as [|m l IH] in datas |- *; intros Hl H; inversion H; subst; [done|]. constructor.
  - eapply arrives_frame; [done|done| |done]. apply Hl. by left.
  - apply IH; [|done]. set_solver.
Qed.

Lemma xpub_read_loop_spec {W} `{!SocketPipes W} ext ms p fuel datas n a h (w : W) x :
  (length (ip_ready w p) < fuel)%nat → mr_rel (xp_subscriptions x) (n, a) → xp_manual x = false → n + Z.of_nat (length (ip_ready w p)) < 2 ^ 32 →
  Forall2 (arrives h) (ip_ready w p) datas → heap_inv ext h (ip_ready w p ++ ms) →
  ∃ h' w' x' n' a', xpub_read_loop fuel h w x p = Done (h', w', x') ∧ mr_rel (xp_subscriptions x') (n', a')
    ∧ view_of a' x' = foldl (view_read x p) (view_of a x) (zip (ip_ready w p) datas) ∧ same_config x x'
    ∧ (∀ q, ip_ready w' q = if decide (q = p) then [] else ip_ready w q) ∧ op_log w' = op_log w ∧ heap_inv ext h' ms ∧ heap_frame h h'.
Proof.
  revert datas n a h w x. induction fuel as [|fuel IH]; intros datas n a h w x Hlt Hrel Hman Hn Hall Hh; [lia|]. cbn [xpub_read_loop].
  pose proof (ip_read_result w p) as Hr. pose proof (ip_read_ready w p) as Hq. pose proof (sk_read_log w p) as Hlog.
  destruct (ip_read w p) as [r w1]. simpl in Hr, Hq, Hlog. subst r.
  inversion Hall as [Hnil|m data l datas' Hm Hall' Hcons]; subst; simpl head; cbv iota.
  - rewrite <- Hnil in *. eexists h, w1, x, n, a. split; [done|]. split_and!; done.
  - rewrite <- Hcons in *. simpl in Hlt, Hn, Hq, Hh. cbn [head].
    destruct (xpub_process_spec ext n a h x p m data (l ++ ms)) as (h1 & n1 & x1 & a1 & -> & Hrel1 & Hle & Hv & Hc & Hh1 & Hf1); try done; [lia|].
    rewrite bind_Done. assert (Hl1 : ip_ready w1 p = l) by by rewrite Hq, decide_True.
    destruct (IH datas' n1 a1 h1 w1 x1) as (h2 & w2 & x2 & n2 & a2 & -> & Hrel2 & Hv2 & Hc2 & Hq2 & Hlog2 & Hh2 & Hf2); rewrite ?Hl1; try done; [lia|..].
    + by rewrite (sc_manual _ _ Hc).
    + lia.
    + apply (arrives_all_frame h _ (l ++ ms)); try done; [apply Hh1|]. intros z Hz. apply elem_of_app. by left.
    + exists h2, w2, x2, n2, a2. split; [done|]. split; [done|]. split; [|split_and!; try done].
      * rewrite Hv2, Hl1, Hv. cbn [zip_with foldl]. apply view_reads_config, Hc.
      * by etransitivity.
      * intros q. rewrite Hq2, Hq. by destruct (decide (q = p)).
      * by rewrite Hlog2.
      * by etransitivity.
Qed.

Lemma view_read_subscribers x p v md q z : z ∈ subs (xv_subs (view_read x p v md)) q → z = p ∨ z ∈ subs (xv_subs v) q.
Proof.
  destruct md as [m data]. unfold view_read.
  destruct (if negb (xv_more v) || xv_process v then subscription_in m data else None) as [[[] topic]|]; cbn [xv_subs]; [| |by right];
    rewrite subs_set_subs; case_decide; subst; set_solver.
Qed.

Lemma view_reads_subscribers x p l v q z : z ∈ subs (xv_subs (foldl (view_read x p) v l)) q → z = p ∨ z ∈ subs (xv_subs v) q.
Proof.
  revert v. induction l as [|md l IH]; intros v; cbn [foldl]; [by right|]. intros [?|H]%IH; [by left|]. by eapply view_read_subscribers.
Qed.

(** A publisher follows what its subscribers say.  When a pipe becomes readable,
    all its messages are read and closed; outside of the manual mode the table of
    subscriptions becomes what they say one after the other (in both formats, as
    commands and as messages that start with a byte 0 or 1, and by the rules for the
    parts after the first), and the messages for the user grow by exactly the
    notifications due, and for an XPUB socket by the messages that are none, in order;
    a PUB socket never has any. *)
Lemma xpub_subscriptions_tracked {W} `{!SocketPipes W} ext ms p datas n a h (w : W) x :
  xpub_inv n a x → xp_manual x = false → p ∈ ar_items (di_pipes (xp_dist x)) →
  n + Z.of_nat (length (ip_ready w p)) < 2 ^ 32 → Forall2 (arrives h) (ip_ready w p) datas → heap_inv ext h (ip_ready w p ++ ms) →
  let v := foldl (view_read x p) (view_of a x) (zip (ip_ready w p) datas) in
  ∃ h' w' x' n', xpub_read_activated h w x p = Done (h', w', x') ∧ xpub_inv n' (xv_subs v) x'
    ∧ xp_pending x' = xv_pending v ∧ xp_more_recv x' = xv_more v ∧ xp_process_subscribe x' = xv_process v
    ∧ (∀ q, ip_ready w' q = if decide (q = p) then [] else ip_ready w q) ∧ op_log w' = op_log w ∧ heap_inv ext h' ms.
Proof.
  intros [H1 H2 H3 H4] Hman Hp Hn Hall Hh v.
  destruct (xpub_read_loop_spec ext ms p (S (length (ip_ready w p))) datas n a h w x) as (h' & w' & x' & n' & a' & Hr & Hrel & Hv & Hc & Hq & Hl & Hh' & _);
    [lia|done..|].
  assert (Ha : a' = xv_subs v) by (unfold v; by rewrite <- Hv). subst a'. exists h', w', x', n'. split; [done|].
  split; [|split_and!; try done; unfold v; by rewrite <- Hv]. split; [done|..]; rewrite ?(sc_dist _ _ Hc), ?(sc_more _ _ Hc); try done.
  intros q z Hz. apply view_reads_subscribers in Hz as [->|Hz]; [done|]. by apply (H2 q).
Qed.

Lemma send_unsubscriptions x qs :
  xp_manual x = false →
  foldl send_unsubscription x qs = xp_set_pending (xp_pending x ++ if xp_is_pub x then [] else (λ q, (0 :: q, None, 0)) <$> qs) x.
Proof.
  intros Hman. revert x Hman. induction qs as [|q qs IH]; intros x Hman; cbn [foldl].
  - destruct x; simpl. destruct xp_is_pub0; by rewrite app_nil_r.
  - rewrite IH.
    + unfold send_unsubscription. destruct x; simpl in *. subst. destruct xp_is_pub0; unfold xp_push; simpl; by rewrite <- ?app_assoc.
    + unfold send_unsubscription. destruct x; simpl in *. subst. by destruct xp_is_pub0.
Qed.

(** A subscriber that goes away is forgotten.  When a pipe has terminated it is
    in no set of subscribers and no longer among the pipes, and an XPUB socket gets
    one cancellation for every topic whose last subscriber it was (or that it had
    subscribed to, with verbose cancellations), each once. *)
Lemma xpub_terminated_forgets n a x p :
  xpub_inv n a x → xp_manual x = false → p ∈ ar_items (di_pipes (xp_dist x)) →
  ∃ x' topics, xpub_pipe_terminated x p = Done x' ∧ xpub_inv n (drop_pipe p a) x'
    ∧ ar_items (di_pipes (xp_dist x)) ≡ₚ p :: ar_items (di_pipes (xp_dist x'))
    ∧ NoDup topics ∧ (∀ q, q ∈ topics ↔ p ∈ subs a q ∧ (subs a q = {[p]} ∨ xp_verbose_unsubs x = true))
    ∧ xp_pending x' = xp_pending x ++ if xp_is_pub x then [] else (λ q, (0 :: q, None, 0)) <$> topics.
Proof.
  intros [H1 H2 H3 H4] Hman Hp. unfold xpub_pipe_terminated. rewrite Hman.
  destruct (mr_step_rm_pipe _ _ p (negb (xp_verbose_unsubs x)) H1) as (res & r' & [n' a'] & Hs & [(l & -> & Hnd & Hl) Ha] & Hrel & _).
  simpl in Hs. destruct (mr_rm_pipe _ _ _) as [[calls s]| |]; simplify_eq/=.
  rewrite send_unsubscriptions by done. destruct (dist_pipe_terminated_spec (xp_dist x) p H3 Hp) as (d' & Hd & Hi & Hmo & Hpp & _).
  simpl. rewrite Hd. simpl. eexists _, l. split; [done|]. split; [|split_and!; try done].
  - split; simpl; [done| |done|by rewrite Hmo]. intros q z. rewrite subs_drop_pipe, elem_of_difference, not_elem_of_singleton.
    intros [Hz Hne]. specialize (H2 q z Hz). rewrite Hpp in H2. by apply elem_of_cons in H2 as [?|?].
  - intros q. rewrite Hl. unfold called. destruct (xp_verbose_unsubs x); simpl; naive_solver.
Qed.

(** A publisher that answers to the pipe of the last subscription forgets it when
    the send fails: the message that is sent again goes to every interested pipe. *)
Lemma xpub_last_value_retry {W} `{!SocketPipes W} n a h (w : W) x m data q h' w' x' m' e :
  xpub_inv n a x → xp_more_send x = false → xp_invert_matching x = false → msg_bytes h m = Done data → answers_to x = Some q →
  xpub_send h w x m = Done (h', w', x', m', RcErr e) →
  ∀ p, xpub_targets a x' data p ↔ p ∈ eligible_pipes (xp_dist x) ∧ interested a data p.
Proof.
  intros Hx Hms Hinv Hb Hq. unfold xpub_send. rewrite Hms.
  destruct (xpub_select_spec n a h x m data Hx Hms Hb) as (d & -> & Hd & Hdm & Hp & He & Ht). rewrite bind_Done, Hq.
  destruct (_ || _); [by destruct (dist_send_to_matching _ _ _ _) as [[[[? ?] ?] ?]| |]|]. intros [= <- <- <- <- <-] p.
  unfold xpub_targets, answers_to. simpl. rewrite Hms, Hinv, He. destruct (xp_manual x && xp_send_last_pipe x); naive_solver.
Qed.

(** A publisher with the pipes 4 and 5, on the first of which a subscription to A
    has arrived. *)
Definition pub_example : xpub_t := xp_set_dist (Dist (Array [4; 5]%nat {[4%nat := 0; 5%nat := 1]}) 0 2 2 false) (xpub_new false).
Definition pub_example_world : sock_world := SockWorld {[4%nat := [[1; 65]]]} [4; 5]%nat [].

Lemma pub_example_inv : xpub_inv 0 ∅ pub_example.
Proof.
  split; [|by intros q p Hp%not_elem_of_empty| |done].
  - split; [apply mtrie_new_wf|]. split; [intros p; apply mtrie_lookup_new|]. done.
  - split; simpl; [|lia|lia|unfold di_size; simpl; lia|done].
    split; simpl; [apply (bool_decide_unpack _); by vm_compute|done|]. intros [|[|i]] p Hp; simplify_eq/=; by vm_compute.
Qed.

Lemma xpub_subscriptions_tracked_witness :
  ∃ h' w' x', xpub_read_activated (empty_heap (λ _, true)) pub_example_world pub_example 4 = Done (h', w', x')
    ∧ xp_pending x' = [([1; 65], None, 0)] ∧ xpub_inv (mr_num_prefixes (xp_subscriptions x')) {[ [65] := {[4%nat]} ]} x'.
Proof.
  destruct (sock_msgs_heap [[1; 65]]) as [Hh _]; [by repeat constructor|done|].
  destruct (xpub_subscriptions_tracked no_ext [] 4 [[1; 65]] 0 ∅ (empty_heap (λ _, true)) pub_example_world pub_example)
    as (h' & w' & x' & n' & Hr & Hx & Hp & _).
  - apply pub_example_inv.
  - done.
  - left.
  - done.
  - constructor; [|constructor]. split; [done|split; [done|by exists []]|by vm_compute|repeat constructor; unfold is_byte; lia|done|done].
  - exact Hh.
  - exists h', w', x'. split; [exact Hr|]. split; [by rewrite Hp|]. pose proof (xi_subs _ _ _ Hx) as (_ & _ & _ & Hn & _). simpl in Hn. rewrite Hn.
    replace {[ [65] := {[4%nat]} ]} with (xv_subs (foldl (view_read pub_example 4) (view_of ∅ pub_example) (zip (ip_ready pub_example_world 4) [[1; 65]])));
      [exact Hx|]. apply (bool_decide_unpack _). by vm_compute.
Defined.

(** The same publisher after it, and what it sends for AB. *)
Definition pub_subscribed : xpub_t :=
  match mr_add [65] 4 mr_new with Done (_, s) => xp_set_subs s mr_new pub_example | _ => pub_example end.

Lemma pub_subscribed_inv : xpub_inv 1 {[ [65] := {[4%nat]} ]} pub_subscribed.
Proof.
  destruct pub_example_inv as [H1 H2 H3 H4].
  destruct (mr_step_add _ _ [65] 4 H1) as (res & r' & a' & Hs & [_ Ha] & Hrel & _); [repeat constructor; unfold is_byte; lia|done|].
  vm_compute in Hs. injection Hs as _ <-. split; [|..|done|done].
  - vm_compute xp_subscriptions. subst a'. exact Hrel.
  - intros q p. unfold subs. destruct (decide (q = [65])) as [->|Hq].
    + rewrite lookup_singleton_eq. simpl. intros ->%elem_of_singleton. left.
    + rewrite lookup_singleton_ne by done. simpl. by intros ?%not_elem_of_empty.
Qed.

Lemma xpub_send_targets_witness :
  ∃ h' w' x', xpub_send (empty_heap (λ _, true)) pub_example_world pub_subscribed (sock_msg [65; 66]) = Done (h', w', x', msg_init, RcOk)
    ∧ op_log w' = [EvWrite 4 (sock_msg [65; 66]) true; EvFlush 4].
Proof.
  destruct (sock_msgs_heap [[65; 66]]) as [Hh _]; [by repeat constructor|done|].
  destruct (xpub_send_targets no_ext 1 {[ [65] := {[4%nat]} ]} (empty_heap (λ _, true)) pub_example_world pub_subscribed (sock_msg [65; 66]) [] [65; 66])
    as (h' & w' & x' & m' & rc & Hr & _).
  - apply pub_subscribed_inv.
  - by vm_compute.
  - exact Hh.
  - split; [done|]. by exists [].
  - done.
  - done.
  - intros md. done.
  - vm_compute in Hr. injection Hr as <- <- <- <- <-. eexists _, _, _. split; [by vm_compute|]. done.
Defined.

Lemma xpub_terminated_forgets_witness :
  ∃ x', xpub_pipe_terminated pub_subscribed 4 = Done x' ∧ xp_pending x' = [([0; 65], None, 0)].
Proof.
  destruct (xpub_terminated_forgets 1 {[ [65] := {[4%nat]} ]} pub_subscribed 4) as (x' & topics & Hr & _).
  - apply pub_subscribed_inv.
  - done.
  - left.
  - exists x'. split; [exact Hr|]. vm_compute in Hr. by injection Hr as <-.
Defined.
