(* ===== verification/Router.v ===== *)
(** The ROUTER socket (src/core/router.cpp) and the routing table of
    [routing_socket_base_t] (src/core/socket_base.cpp), in the default build, without
    SL_ENABLE_MONITORING.

    The members of the socket are grouped: the receiving side, the routing table, the
    sending side and the options.  [rt_ids] are the routing ids that the socket sets in
    its pipes ([set_router_socket_routing_id]).  The order of [_out_pipes] is not
    modelled: the searches by pipe take the one entry of the pipe, if any. *)
From S2P Require Import Prelude Wire Msg PipeArray Dist Fq Sockets.

(** ** State *)

Record out_pipe_t := OutPipe { op_pipe : nat; op_active : bool }.

Record router_in := RIn {
  ri_fq : fq_t;
  ri_prefetched : bool;
  ri_routing_id_sent : bool;
  ri_prefetched_id : msg_t;
  ri_prefetched_msg : msg_t;
  ri_current_in : option nat;
  ri_terminate_current_in : bool;
  ri_more_in : bool;
  ri_anonymous_pipes : gset nat;
}.

Record router_table := RTable {
  rt_out_pipes : gmap (list Z) out_pipe_t;
  rt_ids : gmap nat (list Z);
  rt_next_integral_routing_id : Z;
  rt_connect_routing_id : list Z;
}.

Record router_out := ROut { ro_current_out : option nat; ro_more_out : bool }.

Record router_cfg := RCfg {
  rc_mandatory : bool;
  rc_raw_socket : bool;
  rc_probe_router : bool;
  rc_handover : bool;
  rc_opt_raw_socket : bool;        (* options.raw_socket *)
  rc_opt_recv_routing_id : bool;   (* options.recv_routing_id *)
  rc_opt_router_notify : Z;        (* options.router_notify *)
}.

Record router_t := Router { r_in : router_in; r_table : router_table; r_out : router_out; r_cfg : router_cfg }.

(** [seed] is the result of [generate_random ()]. *)
Definition router_new (seed : Z) : router_t :=
  Router (RIn fq_new false false msg_init msg_init None false false ∅) (RTable ∅ ∅ (u32 seed) [])
    (ROut None false) (RCfg false false false false false true 0).

Definition r_set_in (i : router_in) (r : router_t) : router_t := Router i (r_table r) (r_out r) (r_cfg r).
Definition r_set_table (t : router_table) (r : router_t) : router_t := Router (r_in r) t (r_out r) (r_cfg r).
Definition r_set_out (o : router_out) (r : router_t) : router_t := Router (r_in r) (r_table r) o (r_cfg r).
Definition r_set_cfg (c : router_cfg) (r : router_t) : router_t := Router (r_in r) (r_table r) (r_out r) c.

Definition ri_set_fq (f : fq_t) (i : router_in) : router_in :=
  RIn f (ri_prefetched i) (ri_routing_id_sent i) (ri_prefetched_id i) (ri_prefetched_msg i) (ri_current_in i)
    (ri_terminate_current_in i) (ri_more_in i) (ri_anonymous_pipes i).
Definition ri_set_anonymous (s : gset nat) (i : router_in) : router_in :=
  RIn (ri_fq i) (ri_prefetched i) (ri_routing_id_sent i) (ri_prefetched_id i) (ri_prefetched_msg i) (ri_current_in i)
    (ri_terminate_current_in i) (ri_more_in i) s.
Definition ri_set_terminate (b : bool) (i : router_in) : router_in :=
  RIn (ri_fq i) (ri_prefetched i) (ri_routing_id_sent i) (ri_prefetched_id i) (ri_prefetched_msg i) (ri_current_in i)
    b (ri_more_in i) (ri_anonymous_pipes i).

(** ** routing_socket_base_t *)

Definition add_out_pipe (id : list Z) (p : nat) (t : router_table) : outcome router_table :=
  assert! bool_decide (rt_out_pipes t !! id = None);;
  Done (RTable (<[id := OutPipe p true]> (rt_out_pipes t)) (rt_ids t) (rt_next_integral_routing_id t) (rt_connect_routing_id t)).

Definition has_out_pipe (t : router_table) (id : list Z) : bool := bool_decide (is_Some (rt_out_pipes t !! id)).
Definition lookup_out_pipe (t : router_table) (id : list Z) : option out_pipe_t := rt_out_pipes t !! id.

(** The entry of a pipe. *)
Definition find_out_pipe (t : router_table) (p : nat) : option (list Z * out_pipe_t) :=
  head (filter (λ e : list Z * out_pipe_t, op_pipe e.2 = p) (map_to_list (rt_out_pipes t))).

Definition erase_out_pipe (p : nat) (t : router_table) : router_table :=
  match find_out_pipe t p with
  | Some (id, _) => RTable (delete id (rt_out_pipes t)) (rt_ids t) (rt_next_integral_routing_id t) (rt_connect_routing_id t)
  | None => t
  end.

Definition try_erase_out_pipe (id : list Z) (t : router_table) : option out_pipe_t * router_table :=
  match rt_out_pipes t !! id with
  | Some o => (Some o, RTable (delete id (rt_out_pipes t)) (rt_ids t) (rt_next_integral_routing_id t) (rt_connect_routing_id t))
  | None => (None, t)
  end.

Definition set_out_active (id : list Z) (p : nat) (b : bool) (t : router_table) : router_table :=
  RTable (<[id := OutPipe p b]> (rt_out_pipes t)) (rt_ids t) (rt_next_integral_routing_id t) (rt_connect_routing_id t).

Definition routing_write_activated (t : router_table) (p : nat) : outcome router_table :=
  match find_out_pipe t p with
  | Some (id, o) => assert! negb (op_active o);; Done (set_out_active id p true t)
  | None => Abort
  end.

Definition extract_connect_routing_id (t : router_table) : list Z * router_table :=
  (rt_connect_routing_id t, RTable (rt_out_pipes t) (rt_ids t) (rt_next_integral_routing_id t) []).

Definition connect_routing_id_is_set (t : router_table) : bool := bool_decide (rt_connect_routing_id t ≠ []).

(** [set_router_socket_routing_id] of a pipe. *)
Definition set_pipe_id (p : nat) (id : list Z) (t : router_table) : router_table :=
  RTable (rt_out_pipes t) (<[p := id]> (rt_ids t)) (rt_next_integral_routing_id t) (rt_connect_routing_id t).

(** [pipe_->get_routing_id ()] *)
Definition pipe_id (t : router_table) (p : nat) : list Z := default [] (rt_ids t !! p).

(** [buf[0] = 0; put_uint32 (buf + 1, _next_integral_routing_id++)] *)
Definition integral_id (n : Z) : list Z := 0 :: put_uint32 n.
Definition next_integral_id (t : router_table) : list Z * router_table :=
  (integral_id (rt_next_integral_routing_id t),
   RTable (rt_out_pipes t) (rt_ids t) (u32 (rt_next_integral_routing_id t + 1)) (rt_connect_routing_id t)).

Definition SL_ROUTER_MANDATORY : Z := 33.
Definition SL_ROUTER_RAW : Z := 41.
Definition SL_PROBE_ROUTER : Z := 51.
Definition SL_ROUTER_HANDOVER : Z := 56.
Definition SL_CONNECT_ROUTING_ID : Z := 61.
Definition SL_ROUTER_NOTIFY : Z := 97.
Definition SL_POLLOUT : Z := 2.

Definition routing_setsockopt (t : router_table) (opt : Z) (val : list Z) : router_table * rc_t :=
  if decide (opt = SL_CONNECT_ROUTING_ID ∧ val ≠ [])
  then (RTable (rt_out_pipes t) (rt_ids t) (rt_next_integral_routing_id t) val, RcOk)
  else (t, RcErr EINVAL).

(** ** Options *)

Definition router_setsockopt (r : router_t) (opt : Z) (val : list Z) : router_t * rc_t :=
  let '(RCfg mandatory raw probe handover opt_raw opt_recv notify) := r_cfg r in
  let value := match opt_int val with Some v => if decide (0 ≤ v) then Some v else None | None => None end in
  let with_value (f : Z → router_cfg) :=
    match value with Some v => (r_set_cfg (f v) r, RcOk) | None => (r, RcErr EINVAL) end in
  if decide (opt = SL_ROUTER_RAW) then
    with_value (λ v, let b := bool_decide (v ≠ 0) in RCfg mandatory b probe handover (b || opt_raw) (negb b && opt_recv) notify)
  else if decide (opt = SL_ROUTER_MANDATORY) then
    with_value (λ v, RCfg (bool_decide (v ≠ 0)) raw probe handover opt_raw opt_recv notify)
  else if decide (opt = SL_PROBE_ROUTER) then
    with_value (λ v, RCfg mandatory raw (bool_decide (v ≠ 0)) handover opt_raw opt_recv notify)
  else if decide (opt = SL_ROUTER_HANDOVER) then
    with_value (λ v, RCfg mandatory raw probe (bool_decide (v ≠ 0)) opt_raw opt_recv notify)
  else if decide (opt = SL_ROUTER_NOTIFY) then
    match value with
    | Some v => if decide (v ≤ 3) then (r_set_cfg (RCfg mandatory raw probe handover opt_raw opt_recv v) r, RcOk) else (r, RcErr EINVAL)
    | None => (r, RcErr EINVAL)
    end
  else let '(t, rc) := routing_setsockopt (r_table r) opt val in (r_set_table t r, rc).

Definition router_getsockopt (r : router_t) (opt len : Z) : option Z * rc_t :=
  let c := r_cfg r in
  let answer (b : bool) := if decide (len = 4) then (Some (if b then 1 else 0), RcOk) else (None, RcErr EINVAL) in
  if decide (opt = SL_ROUTER_RAW) then answer (rc_raw_socket c)
  else if decide (opt = SL_ROUTER_MANDATORY) then answer (rc_mandatory c)
  else if decide (opt = SL_PROBE_ROUTER) then answer (rc_probe_router c)
  else if decide (opt = SL_ROUTER_HANDOVER) then answer (rc_handover c)
  else (None, RcErr EINVAL).

Section router.
Context {W : Type} `{!SocketPipes W, !PipeControl W}.

(** ** Peers *)

(** [identify_peer (pipe_, locally_initiated_)]: the id of a new peer, from
    [SL_CONNECT_ROUTING_ID], generated, or from the first message of the pipe. *)
Definition router_admit (w : W) (h : heap) (r : router_t) (p : nat) (id : list Z) (t : router_table)
    : outcome (heap * W * router_t * bool) :=
  t ← add_out_pipe id p (set_pipe_id p id t);
  Done (h, w, r_set_table t r, true).

(** The peer that has the id gets another one and is terminated. *)
Definition router_take_over (w : W) (r : router_t) (old : nat) : outcome (W * router_t) :=
  let '(new_id, t) := next_integral_id (r_table r) in
  let t := set_pipe_id old new_id (erase_out_pipe old t) in
  t ← add_out_pipe new_id old t;
  let r := r_set_table t r in
  if decide (ri_current_in (r_in r) = Some old) then Done (w, r_set_in (ri_set_terminate true (r_in r)) r)
  else Done (pc_terminate w old true, r).

Definition identify_peer (h : heap) (w : W) (r : router_t) (p : nat) (locally_initiated : bool)
    : outcome (heap * W * router_t * bool) :=
  if locally_initiated && connect_routing_id_is_set (r_table r) then
    let '(id, t) := extract_connect_routing_id (r_table r) in
    assert! negb (has_out_pipe t id);;
    router_admit w h r p id t
  else if rc_opt_raw_socket (r_cfg r) then
    let '(id, t) := next_integral_id (r_table r) in router_admit w h r p id t
  else
    let '(m, w) := ip_read w p in
    match m with
    | None => Done (h, w, r, false)
    | Some m =>
        id ← msg_bytes h m;
        '(_, h, _) ← msg_close h m;
        if decide (id = []) then
          let '(id, t) := next_integral_id (r_table r) in router_admit w h r p id t
        else
          match lookup_out_pipe (r_table r) id with
          | Some existing =>
              if rc_handover (r_cfg r) then
                '(w, r) ← router_take_over w r (op_pipe existing);
                router_admit w h r p id (r_table r)
              else Done (h, w, r, false)
          | None => router_admit w h r p id (r_table r)
          end
    end.

Definition router_attach_pipe (h : heap) (w : W) (r : router_t) (p : nat) (locally_initiated : bool)
    : outcome (heap * W * router_t) :=
  '(h, w) ← (if rc_probe_router (r_cfg r) then
               let '(_, w) := op_write w p msg_init in
               let w := op_flush w p in
               '(rc, h, _) ← msg_close h msg_init;
               assert! bool_decide (rc = RcOk);;
               Done (h, w)
             else Done (h, w));
  '(h, w, r, routing_id_ok) ← identify_peer h w r p locally_initiated;
  if routing_id_ok : bool then
    f ← fq_attach (ri_fq (r_in r)) p; Done (h, w, r_set_in (ri_set_fq f (r_in r)) r)
  else Done (h, w, r_set_in (ri_set_anonymous ({[p]} ∪ ri_anonymous_pipes (r_in r)) (r_in r)) r).

Definition router_read_activated (h : heap) (w : W) (r : router_t) (p : nat) : outcome (heap * W * router_t) :=
  if decide (p ∈ ri_anonymous_pipes (r_in r)) then
    '(h, w, r, routing_id_ok) ← identify_peer h w r p false;
    if routing_id_ok : bool then
      let i := ri_set_anonymous (ri_anonymous_pipes (r_in r) ∖ {[p]}) (r_in r) in
      f ← fq_attach (ri_fq i) p; Done (h, w, r_set_in (ri_set_fq f i) r)
    else Done (h, w, r)
  else f ← fq_activated (ri_fq (r_in r)) p; Done (h, w, r_set_in (ri_set_fq f (r_in r)) r).

Definition router_write_activated (r : router_t) (p : nat) : outcome router_t :=
  t ← routing_write_activated (r_table r) p; Done (r_set_table t r).

Definition router_pipe_terminated (w : W) (r : router_t) (p : nat) : outcome (W * router_t) :=
  if decide (p ∈ ri_anonymous_pipes (r_in r)) then
    Done (w, r_set_in (ri_set_anonymous (ri_anonymous_pipes (r_in r) ∖ {[p]}) (r_in r)) r)
  else
    let r := r_set_table (erase_out_pipe p (r_table r)) r in
    f ← fq_pipe_terminated (ri_fq (r_in r)) p;
    let r := r_set_in (ri_set_fq f (r_in r)) r in
    Done (pc_rollback w p,
          if decide (ro_current_out (r_out r) = Some p) then r_set_out (ROut None (ro_more_out (r_out r))) r else r).

(** ** Sending *)

(** [close (); init ()]: the part is done with. *)
Definition router_drop (h : heap) (w : W) (r : router_t) (m : msg_t) : outcome (heap * W * router_t * msg_t * rc_t) :=
  '(rc, h, _) ← msg_close h m;
  assert! bool_decide (rc = RcOk);;
  Done (h, w, r, msg_init, RcOk).

(** The first part is the id of the peer. *)
Definition router_send_id (h : heap) (w : W) (r : router_t) (m : msg_t) : outcome (heap * W * router_t * msg_t * rc_t) :=
  assert! bool_decide (ro_current_out (r_out r) = None);;
  if has_flag m msg_more then
    id ← msg_bytes h m;
    match lookup_out_pipe (r_table r) id with
    | Some o =>
        let p := op_pipe o in
        let '(writable, w) := pc_check_write w p in
        if writable : bool then router_drop h w (r_set_out (ROut (Some p) true) r) m
        else
          let pipe_full := negb (op_check_hwm w p) in
          let r := r_set_table (set_out_active id p false (r_table r)) r in
          if rc_mandatory (r_cfg r) then
            Done (h, w, r_set_out (ROut None false) r, m, RcErr (if pipe_full then EAGAIN else EHOSTUNREACH))
          else router_drop h w (r_set_out (ROut None true) r) m
    | None =>
        if rc_mandatory (r_cfg r) then Done (h, w, r_set_out (ROut None false) r, m, RcErr EHOSTUNREACH)
        else router_drop h w (r_set_out (ROut None true) r) m
    end
  else router_drop h w r m.

Definition router_send (h : heap) (w : W) (r : router_t) (m : msg_t) : outcome (heap * W * router_t * msg_t * rc_t) :=
  if negb (ro_more_out (r_out r)) then router_send_id h w r m
  else
    let m := if rc_opt_raw_socket (r_cfg r) then reset_flags msg_more m else m in
    let more := has_flag m msg_more in
    match ro_current_out (r_out r) with
    | Some p =>
        hang_up ← (if rc_raw_socket (r_cfg r) then n ← msg_size h m; Done (bool_decide (n = 0)) else Done false);
        if hang_up : bool then
          router_drop h (pc_terminate w p false) (r_set_out (ROut None more) r) m
        else
          let '(ok, w) := op_write w p m in
          if ok : bool then
            let '(w, current) := if more then (w, Some p) else (op_flush w p, None) in
            Done (h, w, r_set_out (ROut current more) r, msg_init, RcOk)
          else
            '(rc, h, _) ← msg_close h m;
            assert! bool_decide (rc = RcOk);;
            Done (h, pc_rollback w p, r_set_out (ROut None more) r, msg_init, RcOk)
    | None => router_drop h w (r_set_out (ROut None more) r) m
    end.

Definition router_rollback (w : W) (r : router_t) : W * router_t :=
  match ro_current_out (r_out r) with
  | Some p => (pc_rollback w p, r_set_out (ROut None false) r)
  | None => (w, r)
  end.

Definition router_has_out (w : W) (r : router_t) : bool :=
  if negb (rc_mandatory (r_cfg r)) then true
  else existsb (λ e : list Z * out_pipe_t, op_check_hwm w (op_pipe e.2)) (map_to_list (rt_out_pipes (r_table r))).

Definition router_get_peer_state (w : W) (r : router_t) (id : list Z) : Z + errno_t :=
  match lookup_out_pipe (r_table r) id with
  | Some o => inl (if op_check_hwm w (op_pipe o) then SL_POLLOUT else 0)
  | None => inr EHOSTUNREACH
  end.

(** ** Receiving *)

(** [recvpipe] until the part is no routing id of a peer that reconnected. *)
Fixpoint recv_past_ids (fuel : nat) (h : heap) (w : W) (f : fq_t) (m : msg_t) : outcome (heap * W * fq_t * msg_t * option nat) :=
  match fuel with
  | O => Undef
  | S fuel =>
      '(h, w, f, m, p) ← fq_recvpipe h w f m;
      match p with
      | Some _ => if is_routing_id m then recv_past_ids fuel h w f m else Done (h, w, f, m, p)
      | None => Done (h, w, f, m, None)
      end
  end.

(** One more than the parts that are ready. *)
Definition recv_fuel (w : W) (f : fq_t) : nat := S (length (ready_msgs w f)).

(** A part with the id of the peer, to come before the part [part]. *)
Definition make_id (h : heap) (id : list Z) (part : msg_t) : outcome (heap * msg_t) :=
  let '(rc, h, m) := msg_init_size h (Z.of_nat (length id)) in
  assert! bool_decide (rc = RcOk);;
  '(h, m) ← msg_memcpy h m id;
  let m := set_flags msg_more m in
  match m_metadata part with
  | Some md => msg_set_metadata h m (Some md)
  | None => Done (h, m)
  end.

(** The last part of a message was returned. *)
Definition end_of_message (w : W) (i : router_in) : outcome (W * router_in) :=
  let done w := Done (w, RIn (ri_fq i) (ri_prefetched i) (ri_routing_id_sent i) (ri_prefetched_id i) (ri_prefetched_msg i)
                            None false (ri_more_in i) (ri_anonymous_pipes i)) in
  if ri_terminate_current_in i then
    match ri_current_in i with Some p => done (pc_terminate w p true) | None => Undef end
  else done w.

Definition router_recv (h : heap) (w : W) (r : router_t) (m : msg_t) : outcome (heap * W * router_t * msg_t * rc_t) :=
  let i := r_in r in
  if ri_prefetched i then
    '(h, m, i) ← (if ri_routing_id_sent i then
                    '(rc, h, m, src) ← msg_move h m (ri_prefetched_msg i);
                    assert! bool_decide (rc = RcOk);;
                    Done (h, m, RIn (ri_fq i) false true (ri_prefetched_id i) src (ri_current_in i)
                                  (ri_terminate_current_in i) (has_flag m msg_more) (ri_anonymous_pipes i))
                  else
                    '(rc, h, m, src) ← msg_move h m (ri_prefetched_id i);
                    assert! bool_decide (rc = RcOk);;
                    Done (h, m, RIn (ri_fq i) true true src (ri_prefetched_msg i) (ri_current_in i)
                                  (ri_terminate_current_in i) (has_flag m msg_more) (ri_anonymous_pipes i)));
    if ri_more_in i then Done (h, w, r_set_in i r, m, RcOk)
    else
      '(w, i) ← end_of_message w i;
      let i := RIn (ri_fq i) (ri_prefetched i) false (ri_prefetched_id i) (ri_prefetched_msg i) (ri_current_in i)
                 (ri_terminate_current_in i) (ri_more_in i) (ri_anonymous_pipes i) in
      Done (h, w, r_set_in i r, m, RcOk)
  else
    '(h, w, f, m, p) ← recv_past_ids (recv_fuel w (ri_fq i)) h w (ri_fq i) m;
    let i := ri_set_fq f i in
    match p with
    | None => Done (h, w, r_set_in i r, m, RcErr EAGAIN)
    | Some p =>
        if ri_more_in i then
          let i := RIn (ri_fq i) (ri_prefetched i) (ri_routing_id_sent i) (ri_prefetched_id i) (ri_prefetched_msg i) (ri_current_in i)
                     (ri_terminate_current_in i) (has_flag m msg_more) (ri_anonymous_pipes i) in
          if ri_more_in i then Done (h, w, r_set_in i r, m, RcOk)
          else '(w, i) ← end_of_message w i; Done (h, w, r_set_in i r, m, RcOk)
        else
          '(rc, h, prefetched_msg, m) ← msg_move h (ri_prefetched_msg i) m;
          assert! bool_decide (rc = RcOk);;
          '(h, m) ← make_id h (pipe_id (r_table r) p) prefetched_msg;
          Done (h, w, r_set_in (RIn (ri_fq i) true true (ri_prefetched_id i) prefetched_msg (Some p)
                                  (ri_terminate_current_in i) false (ri_anonymous_pipes i)) r, m, RcOk)
    end.

Definition router_has_in (h : heap) (w : W) (r : router_t) : outcome (heap * W * router_t * bool) :=
  let i := r_in r in
  if ri_more_in i then Done (h, w, r, true)
  else if ri_prefetched i then Done (h, w, r, true)
  else
    '(h, w, f, prefetched_msg, p) ← recv_past_ids (recv_fuel w (ri_fq i)) h w (ri_fq i) (ri_prefetched_msg i);
    match p with
    | None =>
        Done (h, w, r_set_in (RIn f false (ri_routing_id_sent i) (ri_prefetched_id i) prefetched_msg (ri_current_in i)
                                (ri_terminate_current_in i) false (ri_anonymous_pipes i)) r, false)
    | Some p =>
        '(h, prefetched_id) ← make_id h (pipe_id (r_table r) p) prefetched_msg;
        Done (h, w, r_set_in (RIn f true false prefetched_id prefetched_msg (Some p)
                                (ri_terminate_current_in i) false (ri_anonymous_pipes i)) r, true)
    end.

End router.

(** ** The routing table *)

(** Every entry is known to its pipe, so a pipe has at most one. *)
Definition table_ok (t : router_table) : Prop :=
  (∀ id o, rt_out_pipes t !! id = Some o → rt_ids t !! op_pipe o = Some id) ∧ 0 ≤ rt_next_integral_routing_id t < 2 ^ 32.

Definition has_entry (t : router_table) (p : nat) : Prop := ∃ id o, rt_out_pipes t !! id = Some o ∧ op_pipe o = p.

Lemma find_out_pipe_spec t p :
  table_ok t →
  match find_out_pipe t p with
  | Some (id, o) => rt_out_pipes t !! id = Some o ∧ op_pipe o = p
  | None => ¬ has_entry t p
  end.
Proof.
  intros [Ht _]. unfold find_out_pipe. destruct (filter _ _) as [|[id o] l] eqn:E; simpl.
  - intros (id & o & Hid & Ho). assert (Hin : (id, o) ∈ filter (λ e : list Z * out_pipe_t, op_pipe e.2 = p) (map_to_list (rt_out_pipes t))).
    { apply list_elem_of_filter. split; [done|]. by apply elem_of_map_to_list. }
    rewrite E in Hin. by apply not_elem_of_nil in Hin.
  - assert (Hin : (id, o) ∈ filter (λ e : list Z * out_pipe_t, op_pipe e.2 = p) (map_to_list (rt_out_pipes t))) by (rewrite E; left).
    apply list_elem_of_filter in Hin as [Hp Hin]. by apply elem_of_map_to_list in Hin.
Qed.

Lemma table_unique t id id' o o' :
  table_ok t → rt_out_pipes t !! id = Some o → rt_out_pipes t !! id' = Some o' → op_pipe o = op_pipe o' → id = id' ∧ o = o'.
Proof.
  intros [Ht _] H H' E. pose proof (Ht _ _ H). pose proof (Ht _ _ H'). rewrite E in *. assert (id = id') by congruence. subst. split; congruence.
Qed.

(** [erase_out_pipe] removes the entry of the pipe. *)
Lemma erase_out_pipe_spec t p :
  table_ok t →
  table_ok (erase_out_pipe p t) ∧ rt_ids (erase_out_pipe p t) = rt_ids t
  ∧ rt_next_integral_routing_id (erase_out_pipe p t) = rt_next_integral_routing_id t
  ∧ (∀ id o, rt_out_pipes (erase_out_pipe p t) !! id = Some o ↔ rt_out_pipes t !! id = Some o ∧ op_pipe o ≠ p).
Proof.
  intros Ht. pose proof (find_out_pipe_spec t p Ht) as Hf. unfold erase_out_pipe.
  destruct (find_out_pipe t p) as [[id o]|]; [destruct Hf as [Hid Ho]|]; simpl.
  - assert (Hiff : ∀ id' o', delete id (rt_out_pipes t) !! id' = Some o' ↔ rt_out_pipes t !! id' = Some o' ∧ op_pipe o' ≠ p).
    { intros id' o'. rewrite lookup_delete_Some. split.
      - intros [Hne H']. split; [done|]. intros E. apply Hne. by destruct (table_unique t id id' o o' Ht Hid H'); [congruence|].
      - intros [H' Hne]. split; [|done]. intros ->. congruence. }
    split; [|done]. destruct Ht as [Ht Hn]. split; [|done]. intros id' o' [H' _]%Hiff. by apply Ht.
  - split; [done|]. split; [done|]. split; [done|]. intros id o. split; [|by intros [? _]]. intros H. split; [done|]. intros E. apply Hf. by exists id, o.
Qed.

(** Adding an entry for a pipe that has none. *)
Lemma add_entry_spec t p id :
  table_ok t → ¬ has_entry t p → rt_out_pipes t !! id = None →
  ∃ t', add_out_pipe id p (set_pipe_id p id t) = Done t' ∧ table_ok t'
    ∧ rt_out_pipes t' = <[id := OutPipe p true]> (rt_out_pipes t) ∧ rt_ids t' = <[p := id]> (rt_ids t)
    ∧ rt_next_integral_routing_id t' = rt_next_integral_routing_id t.
Proof.
  intros [Ht Hn] Hp Hid. unfold add_out_pipe. simpl. rewrite slk_assert_bind by done. eexists. split; [done|]. split; [|done].
  split; [|done]. simpl. intros id' o' [[<- <-]|[Hne H']]%lookup_insert_Some; [by rewrite lookup_insert_eq|].
  rewrite lookup_insert_ne; [by apply Ht|]. intros ->. apply Hp. by exists id', o'.
Qed.

Lemma has_entry_insert t t' p id q :
  rt_out_pipes t !! id = None → rt_out_pipes t' = <[id := OutPipe p true]> (rt_out_pipes t) → has_entry t' q ↔ q = p ∨ has_entry t q.
Proof.
  intros Hn E. unfold has_entry. rewrite E. split.
  - intros (id' & o & [[<- <-]|[Hne H]]%lookup_insert_Some & Ho); [by left|right; eauto].
  - intros [->|(id' & o & H & Ho)].
    + exists id, (OutPipe p true). by rewrite lookup_insert_eq.
    + exists id', o. split; [|done]. rewrite lookup_insert_ne; [done|]. congruence.
Qed.

Lemma next_integral_ok t : table_ok t → table_ok (next_integral_id t).2.
Proof. intros [Ht Hn]. split; [done|]. simpl. apply u32_range. Qed.

(** ** Invariant *)

Record router_inv (r : router_t) : Prop := {
  rv_fq : fq_inv (ri_fq (r_in r));
  rv_table : table_ok (r_table r);
  rv_pipes : ∀ p, p ∈ ar_items (fq_pipes (ri_fq (r_in r))) ↔ has_entry (r_table r) p;
  rv_anonymous : ∀ p, p ∈ ri_anonymous_pipes (r_in r) → ¬ has_entry (r_table r) p;
  rv_out : ∀ p, ro_current_out (r_out r) = Some p → has_entry (r_table r) p;
  rv_idle : ro_more_out (r_out r) = false → ro_current_out (r_out r) = None;
}.

Section invariant.
Context {W : Type} `{!SocketPipes W, !PipeControl W} (ext : nat → Z).

(** The ids the socket would choose are not in use. *)
Definition ids_free (r : router_t) (local : bool) : Prop :=
  rt_out_pipes (r_table r) !! integral_id (rt_next_integral_routing_id (r_table r)) = None
  ∧ (local && connect_routing_id_is_set (r_table r) = true → rt_out_pipes (r_table r) !! rt_connect_routing_id (r_table r) = None).

(** The message is valid. *)
Definition valid_msg (h : heap) (m : msg_t) : Prop :=
  msg_check m = true ∧ (∃ data, msg_bytes h m = Done data) ∧ ∃ ms, heap_inv ext h (m :: ms).
Definition first_valid (h : heap) (w : W) (p : nat) : Prop := ∀ m, head (ip_ready w p) = Some m → valid_msg h m.

Lemma valid_close h m : valid_msg h m → ∃ h', msg_close h m = Done (RcOk, h', m_set_type 0 (m_set_metadata None m)).
Proof. intros (Hck & _ & ms & Hh). destruct (msg_close_spec ext h m ms Hh Hck) as (h' & ? & _). eauto. Qed.

(** What identifying a peer changes: its entry is added, or nothing is. *)
Record identified (r : router_t) (p : nat) (r' : router_t) (ok : bool) : Prop := {
  id_table : table_ok (r_table r');
  id_entries : ∀ q, has_entry (r_table r') q ↔ ok = true ∧ q = p ∨ has_entry (r_table r) q;
  id_fq : ri_fq (r_in r') = ri_fq (r_in r);
  id_anonymous : ri_anonymous_pipes (r_in r') = ri_anonymous_pipes (r_in r);
  id_out : r_out r' = r_out r;
}.

Lemma router_admit_spec (w : W) h r0 r p id t :
  table_ok t → ¬ has_entry t p → rt_out_pipes t !! id = None → (∀ q, has_entry t q ↔ has_entry (r_table r0) q) →
  ri_fq (r_in r) = ri_fq (r_in r0) → ri_anonymous_pipes (r_in r) = ri_anonymous_pipes (r_in r0) → r_out r = r_out r0 →
  ∃ r', router_admit w h r p id t = Done (h, w, r', true) ∧ identified r0 p r' true.
Proof.
  intros Ht Hp Hid He H1 H2 H3. destruct (add_entry_spec t p id Ht Hp Hid) as (t' & Ha & Ht' & Ho & _). unfold router_admit. rewrite Ha, bind_Done.
  eexists. split; [done|]. split; try done. simpl. intros q. rewrite (has_entry_insert t t' p id q Hid Ho), He. naive_solver.
Qed.

Lemma router_take_over_spec (w : W) r id o :
  table_ok (r_table r) → rt_out_pipes (r_table r) !! integral_id (rt_next_integral_routing_id (r_table r)) = None →
  rt_out_pipes (r_table r) !! id = Some o →
  ∃ w' r', router_take_over w r (op_pipe o) = Done (w', r') ∧ table_ok (r_table r') ∧ rt_out_pipes (r_table r') !! id = None
    ∧ (∀ q, has_entry (r_table r') q ↔ has_entry (r_table r) q)
    ∧ ri_fq (r_in r') = ri_fq (r_in r) ∧ ri_anonymous_pipes (r_in r') = ri_anonymous_pipes (r_in r) ∧ r_out r' = r_out r.
Proof.
  intros Ht Hfree Hid. unfold router_take_over. cbn [next_integral_id]. set (old := op_pipe o). set (new := integral_id _) in *.
  pose proof (next_integral_ok _ Ht) as Ht1. cbn [next_integral_id snd] in Ht1. set (t1 := RTable _ _ _ _) in *.
  destruct (erase_out_pipe_spec t1 old Ht1) as (Ht2 & Hi2 & _ & He2). set (t2 := erase_out_pipe old t1) in *. change (rt_out_pipes t1) with (rt_out_pipes (r_table r)) in He2.
  assert (Hold : ¬ has_entry t2 old) by (intros (i & q & [_ Hq]%He2 & ?); done).
  assert (Hnew : rt_out_pipes t2 !! new = None).
  { destruct (rt_out_pipes t2 !! new) as [q|] eqn:E; [|done]. apply He2 in E as [E _]. congruence. }
  destruct (add_entry_spec t2 old new Ht2 Hold Hnew) as (t3 & -> & Ht3 & Ho3 & _). rewrite bind_Done.
  assert (Hent : ∀ q, has_entry t3 q ↔ has_entry (r_table r) q).
  { intros q. rewrite (has_entry_insert t2 t3 old new q Hnew Ho3). split.
    - intros [->|(i & o' & [? _]%He2 & ?)]; [by exists id, o|by exists i, o'].
    - intros (i & o' & Hi & Hq). destruct (decide (q = old)) as [->|Hne]; [by left|right]. exists i, o'. split; [|done]. apply He2. split; [done|congruence]. }
  assert (Hgone : rt_out_pipes t3 !! id = None).
  { rewrite Ho3, lookup_insert_ne by (intros E; rewrite E in Hfree; congruence).
    destruct (rt_out_pipes t2 !! id) as [q|] eqn:E; [|done]. apply He2 in E as [E Hne]. rewrite E in Hid. injection Hid as ->. done. }
  case_decide; eexists _, _; (split; [done|]); by split_and!; try apply Ht3.
Qed.

Lemma identify_peer_spec h (w : W) r p local :
  table_ok (r_table r) → ¬ has_entry (r_table r) p → ids_free r local → first_valid h w p →
  ∃ h' w' r' ok, identify_peer h w r p local = Done (h', w', r', ok) ∧ identified r p r' ok.
Proof.
  intros Ht Hp [Hfree Hconn] Hm. unfold identify_peer. pose proof (next_integral_ok _ Ht) as Ht1.
  destruct (local && connect_routing_id_is_set (r_table r)) eqn:El; [|destruct (rc_opt_raw_socket (r_cfg r))].
  - cbn [extract_connect_routing_id]. assert (Hn : has_out_pipe (r_table r) (rt_connect_routing_id (r_table r)) = false).
    { unfold has_out_pipe. rewrite Hconn by done. by apply bool_decide_eq_false_2; intros []. }
    unfold has_out_pipe in *. simpl. rewrite Hn. simpl.
    destruct (router_admit_spec w h r r p (rt_connect_routing_id (r_table r)) (RTable (rt_out_pipes (r_table r)) (rt_ids (r_table r)) (rt_next_integral_routing_id (r_table r)) []))
      as (r' & -> & Hid); try done; [by apply Hconn|]. by eexists _, _, _, _.
  - destruct (router_admit_spec w h r r p (integral_id (rt_next_integral_routing_id (r_table r))) (next_integral_id (r_table r)).2) as (r' & Hr & Hid); try done.
    cbn [next_integral_id snd] in *. rewrite Hr. by eexists _, _, _, _.
  - pose proof (ip_read_result w p) as Hr. destruct (ip_read w p) as [m w1]. simpl in Hr. subst m.
    destruct (head (ip_ready w p)) as [m|] eqn:Eh; [|eexists _, _, _, _; split; [done|]; split; try done; intros q; naive_solver].
    pose proof (Hm m Eh) as Hv. pose proof Hv as (_ & [id Hb] & _). destruct (valid_close h m Hv) as (h' & Hcl). rewrite Hb, bind_Done, Hcl, bind_Done.
    destruct (decide (id = [])) as [->|Hne].
    + destruct (router_admit_spec w1 h' r r p (integral_id (rt_next_integral_routing_id (r_table r))) (next_integral_id (r_table r)).2) as (r' & Hr & Hid); try done.
      cbn [next_integral_id snd] in *. rewrite Hr. by eexists _, _, _, _.
    + unfold lookup_out_pipe. destruct (rt_out_pipes (r_table r) !! id) as [o|] eqn:Elk.
      * destruct (rc_handover (r_cfg r)); [|eexists _, _, _, _; split; [done|]; split; try done; intros q; naive_solver].
        destruct (router_take_over_spec w1 r id o Ht Hfree Elk) as (w2 & r2 & -> & Ht2 & Hg & He & Hf2 & Ha2 & Ho2). rewrite bind_Done.
        destruct (router_admit_spec w2 h' r r2 p id (r_table r2)) as (r' & -> & Hid); try done; [by rewrite He|]. by eexists _, _, _, _.
      * destruct (router_admit_spec w1 h' r r p id (r_table r)) as (r' & -> & Hid); try done. by eexists _, _, _, _.
Qed.

End invariant.

(** ** Receiving *)

Section receiving.
Context {W : Type} `{!SocketPipes W, !PipeControl W} (ext : nat → Z).

(** Routing ids are dropped on the way to the next part. *)
Lemma recv_past_ids_spec ms fuel h (w : W) f m :
  recv_ok ext ms h w f m → (length (ready_msgs w f) < fuel)%nat →
  ∃ h' w' f' m' p ids, recv_past_ids fuel h w f m = Done (h', w', f', m', p) ∧ recv_ok ext ms h' w' f' m'
    ∧ Forall (λ t, is_routing_id t.2 = true) ids
    ∧ match p with
      | Some p => reads h w f (ids ++ [(p, m')]) h' w' f' ∧ is_routing_id m' = false ∧ fq_more f' = has_flag m' msg_more ∧ p ∈ ar_items (fq_pipes f)
      | None => reads h w f ids h' w' f' ∧ m' = msg_init ∧ fq_more f' = false ∧ ∀ q, q ∈ active_in f → ip_ready w' q = []
      end.
Proof.
  revert h w f m. induction fuel as [|fuel IH]; intros h w f m Hok Hlt; [lia|]. cbn [recv_past_ids].
  destruct (fq_recvpipe_step ext ms h w f m Hok)
    as [(p & m1 & h1 & w1 & f1 & -> & Hok1 & Hrd1 & Hm1 & _ & _ & _ & Hp)|(h1 & w1 & f1 & -> & Hok1 & Hrd1 & Hm1 & Hall & Hm1')]; rewrite bind_Done.
  - destruct (is_routing_id m1) eqn:Hid; [|exists h1, w1, f1, m1, (Some p), []; by split_and!].
    pose proof (reads_length _ _ _ _ _ _ _ Hrd1) as Hl1. simpl in Hl1.
    destruct (IH h1 w1 f1 m1 Hok1 ltac:(lia)) as (h' & w' & f' & m' & po & ids & -> & Hok' & Hids & Hres).
    exists h', w', f', m', po, ((p, m1) :: ids). split; [done|]. split; [done|]. split; [by constructor|]. destruct po as [p'|].
    + destruct Hres as (Hrd & Hn & Hm & Hp'). split; [exact (reads_trans _ _ _ [(p, m1)] _ _ _ _ _ _ _ Hrd1 Hrd)|]. split; [done|]. split; [done|].
      by rewrite <- (rd_pipes _ _ _ _ _ _ _ Hrd1).
    + destruct Hres as (Hrd & Hn & Hm & Hall). split; [exact (reads_trans _ _ _ [(p, m1)] _ _ _ _ _ _ _ Hrd1 Hrd)|]. split; [done|]. split; [done|].
      intros q Hq. destruct (ip_ready w' q) as [|z zs] eqn:E; [done|]. rewrite <- E. apply Hall. apply (rd_active _ _ _ _ _ _ _ Hrd1); [done|].
      rewrite (rd_ready _ _ _ _ _ _ _ Hrd), E. by destruct (read_from q ids).
  - exists h1, w1, f1, msg_init, None, []. split; [done|]. split; [done|]. split; [constructor|]. split; [done|]. split; [done|]. split; [done|].
    intros q Hq. specialize (Hall q Hq). by rewrite (rd_ready _ _ _ _ _ _ _ Hrd1) in Hall.
Qed.

(** What is received does not depend on the message that it replaces. *)
Lemma recv_past_ids_agree fuel h g (w : W) f m n h' w1 f1 m1 p1 g' w2 f2 m2 p2 :
  recv_past_ids fuel h w f m = Done (h', w1, f1, m1, p1) → recv_past_ids fuel g w f n = Done (g', w2, f2, m2, p2) →
  w1 = w2 ∧ f1 = f2 ∧ m1 = m2 ∧ p1 = p2.
Proof.
  revert h g w f m n. induction fuel as [|fuel IH]; intros h g w f m n; [done|]. cbn [recv_past_ids]. unfold fq_recvpipe.
  destruct (msg_close h m) as [[[rc1 h1] ?]| |]; [|done..]. destruct (msg_close g n) as [[[rc2 g1] ?]| |]; [|done..]. rewrite !bind_Done.
  destruct (slk_assert (bool_decide (rc1 = RcOk))) as [[]| |]; [|done..]. destruct (slk_assert (bool_decide (rc2 = RcOk))) as [[]| |]; [|done..].
  rewrite !bind_Done. destruct (recv_loop (S (fq_active f)) w f) as [[[[[p part]|] w'] f']| |]; [| |done..]; rewrite !bind_Done.
  - destruct (is_routing_id part); [by apply IH|]. intros H1 H2. by simplify_eq.
  - intros H1 H2. by simplify_eq.
Qed.

Lemma make_id_spec ms h id part :
  heap_inv ext h ms → m_metadata part = None → Z.of_nat (length id) < 2 ^ 63 → alloc_ok h (Z.of_nat (length id)) = true →
  Z.of_nat (S (length ms)) < 2 ^ 32 → (∀ md, ext md + Z.of_nat (S (length ms)) < 2 ^ 32) →
  ∃ h' m, make_id h id part = Done (h', m) ∧ heap_inv ext h' (m :: ms) ∧ msg_bytes h' m = Done id ∧ has_flag m msg_more = true
    ∧ (∀ m', m' ∈ ms → msg_bytes h' m' = msg_bytes h m') ∧ msg_check m = true.
Proof.
  intros Hh Hmd Hl Ha Hl1 Hl2. destruct (init_bytes_spec ext h ms id Hh Hl Ha Hl1 Hl2) as (h0 & m0 & h' & m & Hi & Hc & H1 & H2 & H3 & H4 & H5 & H6).
  unfold make_id. rewrite Hi, slk_assert_bind, Hc, bind_Done, Hmd by done. pose proof (set_more_handle m) as Hs.
  exists h', (set_flags msg_more m). split; [done|]. split; [by eapply heap_inv_retag|]. split; [by rewrite (msg_bytes_retag _ m)|].
  split; [apply set_more_flag|]. split; [done|]. unfold msg_check in *. by rewrite (sh_type _ _ Hs).
Qed.

(** The socket is between two messages, and the messages that can be received are
    valid, without metadata; there is memory for the ids of the peers. *)
Record recv_idle (ms : list msg_t) (h : heap) (w : W) (r : router_t) (m : msg_t) : Prop := {
  rl_ok : recv_ok ext (ri_prefetched_msg (r_in r) :: ms) h w (ri_fq (r_in r)) m;
  rl_msg : msg_check (ri_prefetched_msg (r_in r)) = true;
  rl_id : ri_prefetched_id (r_in r) = msg_init;
  rl_prefetched : ri_prefetched (r_in r) = false;
  rl_more : ri_more_in (r_in r) = false;
  rl_terminate : ri_terminate_current_in (r_in r) = false;
  rl_plain : Forall (λ m, m_metadata m = None) (ready_msgs w (ri_fq (r_in r)));
  rl_memory : ∀ p id, rt_ids (r_table r) !! p = Some id →
    Z.of_nat (length id) < 2 ^ 63 ∧ alloc_ok h (Z.of_nat (length id)) = true;
}.

(** The id of the pipe of a part that was received. *)
Lemma peer_id r p : router_inv r → p ∈ ar_items (fq_pipes (ri_fq (r_in r))) →
  ∃ o, rt_out_pipes (r_table r) !! pipe_id (r_table r) p = Some o ∧ op_pipe o = p ∧ rt_ids (r_table r) !! p = Some (pipe_id (r_table r) p).
Proof.
  intros Hr Hp. apply (rv_pipes _ Hr) in Hp as (id & o & Ho & Hq). pose proof (proj1 (rv_table _ Hr) _ _ Ho) as Hi. rewrite Hq in Hi.
  unfold pipe_id. rewrite Hi. simpl. by exists o.
Qed.

Lemma alloc_frame h h' n : heap_frame h h' → alloc_ok h' n = alloc_ok h n.
Proof. intros [Hm _ _]. unfold alloc_ok. by rewrite Hm. Qed.

Lemma reads_bytes h (w : W) f tr h' w' f' l m : reads h w f tr h' w' f' → content_inv h' l → m ∈ l → msg_bytes h' m = msg_bytes h m.
Proof. intros Hrd Hc Hm. by apply (msg_bytes_frame h h' l m (rd_frame _ _ _ _ _ _ _ Hrd)). Qed.

(** The state between the two parts: the id was returned, the part is prefetched. *)
Definition after_id (r : router_t) (f : fq_t) (p : nat) (part : msg_t) : router_t :=
  r_set_in (RIn f true true msg_init part (Some p) false false (ri_anonymous_pipes (r_in r))) r.

(** Receiving from an idle socket: the id of the peer comes first. *)
Lemma router_recv_idle ms h (w : W) r m :
  router_inv r → recv_idle ms h w r m →
  ∃ h1 w1 f1 part p ids, recv_past_ids (recv_fuel w (ri_fq (r_in r))) h w (ri_fq (r_in r)) m = Done (h1, w1, f1, part, p)
    ∧ Forall (λ t, is_routing_id t.2 = true) ids ∧ recv_ok ext (ri_prefetched_msg (r_in r) :: ms) h1 w1 f1 part
    ∧ match p with
      | None => router_recv h w r m = Done (h1, w1, r_set_in (ri_set_fq f1 (r_in r)) r, msg_init, RcErr EAGAIN)
          ∧ (∀ q, q ∈ active_in (ri_fq (r_in r)) → ip_ready w1 q = []) ∧ reads h w (ri_fq (r_in r)) ids h1 w1 f1
      | Some p => reads h w (ri_fq (r_in r)) (ids ++ [(p, part)]) h1 w1 f1 ∧ is_routing_id part = false ∧ p ∈ ar_items (fq_pipes (ri_fq (r_in r)))
          ∧ ∃ h2 m2, router_recv h w r m = Done (h2, w1, after_id r f1 p part, m2, RcOk)
            ∧ msg_bytes h2 m2 = Done (pipe_id (r_table r) p) ∧ has_flag m2 msg_more = true ∧ msg_check m2 = true
            ∧ heap_inv ext h2 (m2 :: part :: ready_msgs w1 f1 ++ ms) ∧ msg_bytes h2 part = msg_bytes h part
      end.
Proof.
  intros Hinv [Hok Hck Hid Hpf Hmore Hterm Hpl Hmem].
  destruct (recv_past_ids_spec _ (recv_fuel w (ri_fq (r_in r))) h w _ m Hok) as (h1 & w1 & f1 & part & po & ids & Hr & Hok1 & Hids & Hres); [unfold recv_fuel; lia|].
  exists h1, w1, f1, part, po, ids. split; [done|]. split; [done|]. split; [done|]. unfold router_recv. rewrite Hpf, Hr, bind_Done.
  destruct po as [p|]; [|destruct Hres as (Hrd & -> & _ & Hall); by split_and!].
  destruct Hres as (Hrd & Hnid & Hm1 & Hp). cbn [ri_more_in ri_set_fq ri_prefetched_msg]. rewrite Hmore.
  split; [done|]. split; [done|]. split; [done|]. destruct Hok1 as [_ _ Hck1 Hh1 Hv1]. set (pm := ri_prefetched_msg (r_in r)) in *.
  assert (Hh1' : heap_inv ext h1 (pm :: part :: ready_msgs w1 f1 ++ ms)).
  { rewrite <- Permutation_middle, Permutation_swap in Hh1. exact Hh1. }
  destruct (msg_move_spec ext h1 pm part _ Hh1' Hck Hck1) as (h2 & -> & Hh2 & Hf2). rewrite bind_Done, slk_assert_bind by done.
  assert (Hpart : part ∈ ready_msgs w (ri_fq (r_in r))).
  { rewrite (rd_perm _ _ _ _ _ _ _ Hrd), fmap_app. set_solver. }
  destruct (peer_id r p Hinv Hp) as (o & _ & _ & Hpid). destruct (Hmem p _ Hpid) as [Hl Ha].
  assert (Hfr : heap_frame h h2) by (etransitivity; [apply Hrd|done]).
  assert (Hh2' : heap_inv ext h2 (part :: ready_msgs w1 f1 ++ ms)).
  { rewrite Permutation_swap in Hh2. eapply heap_inv_drop; [exact Hh2|by split; eauto|done]. }
  pose proof (inv_len _ _ _ Hh2) as Hlen. pose proof (inv_ext _ _ _ Hh2) as Hext. cbn [length] in Hlen, Hext.
  destruct (make_id_spec _ h2 (pipe_id (r_table r) p) part Hh2') as (h3 & m3 & -> & Hh3 & Hb3 & Hf3 & Hk3 & Hc3); cbn [length];
    [by rewrite Forall_forall in Hpl; apply Hpl|done|by rewrite (alloc_frame h)|done|intros md; apply (Hext md)|].
  rewrite bind_Done. exists h3, m3. cbn [ri_set_fq ri_fq ri_prefetched_id ri_terminate_current_in ri_anonymous_pipes]. rewrite Hid, Hterm. split; [done|]. split_and!; try done.
  rewrite Hk3 by by left. eapply msg_bytes_frame; [exact Hfr|apply Hh2'|by left].
Qed.

(** The part that was prefetched comes next. *)
Lemma router_recv_part ms h (w : W) r f p part m more_in :
  heap_inv ext h (m :: part :: ms) → msg_check m = true → msg_check part = true →
  let i := RIn f true true msg_init part (Some p) false more_in (ri_anonymous_pipes (r_in r)) in
  ∃ h' r', router_recv h w (r_set_in i r) m = Done (h', w, r', part, RcOk) ∧ heap_inv ext h' (part :: ms) ∧ heap_frame h h'
    ∧ ri_more_in (r_in r') = has_flag part msg_more ∧ ri_prefetched (r_in r') = false ∧ ri_fq (r_in r') = f
    ∧ ri_current_in (r_in r') = (if has_flag part msg_more then Some p else None)
    ∧ ri_prefetched_id (r_in r') = msg_init ∧ ri_prefetched_msg (r_in r') = msg_init ∧ ri_terminate_current_in (r_in r') = false.
Proof.
  intros Hh Hc1 Hc2 i. destruct (msg_move_spec ext h m part ms Hh Hc1 Hc2) as (h' & Hmv & Hh' & Hf').
  unfold router_recv. cbn [r_in r_set_in i ri_prefetched ri_routing_id_sent ri_prefetched_msg].
  rewrite Hmv, bind_Done, slk_assert_bind, bind_Done by done. cbn [ri_more_in].
  assert (Hh2 : heap_inv ext h' (part :: ms)).
  { rewrite Permutation_swap in Hh'. eapply heap_inv_drop; [exact Hh'|by split; eauto|done]. }
  destruct (has_flag part msg_more).
  - eexists h', _. split; [done|]. split_and!; done.
  - cbn. eexists h', _. split; [done|]. split_and!; done.
Qed.

End receiving.

(** C25: a ROUTER tells who a message is from.  Between messages, with nothing prefetched and no handover that
    waits for the end of a message, [xrecv] always
    returns: [EAGAIN] when no active pipe has anything but routing ids left, otherwise a
    part that carries the routing id of a peer, with the more flag, and then, on the next
    call, the first part of that peer's message, with the bytes it had.  Only routing
    ids are skipped on the way, and the table leads from the id returned back to the
    pipe the message came from.  The messages that can be received are valid and carry no metadata, and there is memory for
    the ids of the peers ([recv_idle]); the table and the queue are in step ([router_inv]), as they are in a new socket and as
    attached, activated and terminated pipes, sends, rollbacks and receives leave them (the lemmas before). *)
Theorem router_recv_identifies {W} `{!SocketPipes W, !PipeControl W} ext ms h (w : W) r m :
  router_inv r → recv_idle ext ms h w r m →
  ∃ h1 w1 r1 m1 rc, router_recv h w r m = Done (h1, w1, r1, m1, rc)
    ∧ match rc with
      | RcErr e => e = EAGAIN ∧ ∀ q, q ∈ active_in (ri_fq (r_in r)) → ip_ready w1 q = []
      | RcOk => ∃ p id o part ids,
          (∀ q, ip_ready w q = read_from q (ids ++ [(p, part)]) ++ ip_ready w1 q) ∧ Forall (λ t, is_routing_id t.2 = true) ids
          ∧ rt_out_pipes (r_table r) !! id = Some o ∧ op_pipe o = p
          ∧ msg_bytes h1 m1 = Done id ∧ has_flag m1 msg_more = true
          ∧ ∃ h2 r2, router_recv h1 w1 r1 m1 = Done (h2, w1, r2, part, RcOk) ∧ msg_bytes h2 part = msg_bytes h part
              ∧ ri_more_in (r_in r2) = has_flag part msg_more ∧ ri_prefetched (r_in r2) = false
              ∧ heap_inv ext h2 (part :: ready_msgs w1 (ri_fq (r_in r2)) ++ ms)
      end.
Proof.
  intros Hinv Hidle. destruct (router_recv_idle ext ms h w r m Hinv Hidle) as (h1 & w1 & f1 & part & po & ids & _ & Hids & Hok1 & Hres).
  destruct po as [p|]; last first.
  { destruct Hres as (Hr & Hall & _). eexists _, _, _, _, _. split; [exact Hr|]. done. }
  destruct Hres as (Hrd & _ & Hp & h2 & m2 & Hr & Hb & Hf & Hc & Hh & Hbp). destruct (peer_id r p Hinv Hp) as (o & Ho & Hop & _).
  destruct (router_recv_part ext (ready_msgs w1 f1 ++ ms) h2 w1 r f1 p part m2 false Hh Hc (ro_check _ _ _ _ _ _ Hok1))
    as (h3 & r3 & Hr3 & Hh3 & Hf3 & Hm3 & Hp3 & Hfq3 & _).
  eexists _, _, _, _, RcOk. split; [exact Hr|]. exists p, (pipe_id (r_table r) p), o, part, ids.
  split; [apply Hrd|]. split_and!; try done. exists h3, r3. split; [exact Hr3|]. split_and!; try done; [|by rewrite Hfq3].
  rewrite <- Hbp. eapply msg_bytes_frame; [exact Hf3|apply Hh3|by left].
Qed.

(** [xhas_in] of an idle socket prefetches the part and makes the id. *)
Lemma router_has_in_idle {W} `{!SocketPipes W, !PipeControl W} ext ms h (w : W) r m h1 w1 f1 part po :
  router_inv r → recv_idle ext ms h w r m →
  recv_past_ids (recv_fuel w (ri_fq (r_in r))) h w (ri_fq (r_in r)) m = Done (h1, w1, f1, part, po) →
  ∃ g1 r1, router_has_in h w r = Done (g1, w1, r1, bool_decide (is_Some po))
    ∧ match po with
      | None => True
      | Some p => ∃ idm, r1 = r_set_in (RIn f1 true false idm part (Some p) false false (ri_anonymous_pipes (r_in r))) r
          ∧ msg_bytes g1 idm = Done (pipe_id (r_table r) p) ∧ has_flag idm msg_more = true ∧ msg_check idm = true
          ∧ heap_inv ext g1 (idm :: part :: ready_msgs w1 f1 ++ m :: ms) ∧ msg_bytes g1 part = msg_bytes h part
      end.
Proof.
  intros Hinv [Hok Hck Hid Hpf Hmore Hterm Hpl Hmem] Hr. set (pm := ri_prefetched_msg (r_in r)) in *.
  assert (Hok' : recv_ok ext (m :: ms) h w (ri_fq (r_in r)) pm).
  { destruct Hok as [H1 H2 H3 H4 H5]. split; try done. rewrite <- Permutation_middle, Permutation_swap, Permutation_middle in H4. exact H4. }
  destruct (recv_past_ids_spec ext (m :: ms) (recv_fuel w (ri_fq (r_in r))) h w _ pm Hok') as (g1 & w2 & f2 & part2 & po2 & ids & Hg & Hokg & Hids & Hres);
    [unfold recv_fuel; lia|].
  destruct (recv_past_ids_agree _ _ _ _ _ _ _ _ _ _ _ _ _ _ _ _ _ Hr Hg) as (<- & <- & <- & <-).
  unfold router_has_in. fold pm. rewrite Hmore, Hpf, Hg, bind_Done. destruct po as [p|]; [|by eexists _, _].
  destruct Hres as (Hrd & Hnid & Hm1 & Hp). destruct (peer_id r p Hinv Hp) as (o & _ & _ & Hpid). destruct (Hmem p _ Hpid) as [Hl Ha].
  destruct Hokg as [_ _ Hck1 Hh1 _]. pose proof (inv_len _ _ _ (ro_heap _ _ _ _ _ _ Hok')) as Hlen. pose proof (inv_ext _ _ _ (ro_heap _ _ _ _ _ _ Hok')) as Hext.
  pose proof (reads_length _ _ _ _ _ _ _ Hrd) as Hrl.
  cbn [length] in Hlen, Hext. rewrite length_app in Hlen, Hrl. setoid_rewrite length_app in Hext. cbn [length] in Hlen, Hrl, Hext.
  assert (Hpart : part ∈ ready_msgs w (ri_fq (r_in r))).
  { rewrite (rd_perm _ _ _ _ _ _ _ Hrd), fmap_app. set_solver. }
  destruct (make_id_spec ext _ g1 (pipe_id (r_table r) p) part Hh1) as (g2 & m2 & -> & Hh2 & Hb2 & Hf2 & Hk2 & Hc2);
    [by rewrite Forall_forall in Hpl; apply Hpl|done|by rewrite (alloc_frame h) by apply Hrd|..].
  { cbn [length]. rewrite length_app. cbn [length]. lia. }
  { intros md. specialize (Hext md). cbn [length]. rewrite length_app. cbn [length]. lia. }
  rewrite bind_Done, Hterm. eexists _, _. split; [done|]. exists m2. split_and!; try done.
  rewrite Hk2 by by left. eapply reads_bytes; [exact Hrd|apply Hh1|by left].
Qed.

(** Polling does not disturb what is received.  Between messages, [xhas_in] says
    true exactly when [xrecv] would succeed, and after it [xrecv] returns an id part
    with the same bytes, with the same part prefetched, and has taken the same parts
    from the pipes as without the poll. *)
Lemma router_has_in_transparent {W} `{!SocketPipes W, !PipeControl W} ext ms h (w : W) r m :
  router_inv r → recv_idle ext ms h w r m →
  ∃ g1 r1 b h1 w1 r1' m1 rc, router_has_in h w r = Done (g1, w1, r1, b) ∧ router_recv h w r m = Done (h1, w1, r1', m1, rc)
    ∧ (b = true ↔ rc = RcOk)
    ∧ (b = true → ∃ g2 r2 m2, router_recv g1 w1 r1 m = Done (g2, w1, r2, m2, RcOk)
        ∧ msg_bytes g2 m2 = msg_bytes h1 m1 ∧ has_flag m2 msg_more = has_flag m1 msg_more
        ∧ ri_fq (r_in r2) = ri_fq (r_in r1') ∧ ri_current_in (r_in r2) = ri_current_in (r_in r1')
        ∧ ri_prefetched_msg (r_in r2) = ri_prefetched_msg (r_in r1')
        ∧ msg_bytes g2 (ri_prefetched_msg (r_in r2)) = msg_bytes h1 (ri_prefetched_msg (r_in r1'))).
Proof.
  intros Hinv Hidle. destruct (router_recv_idle ext ms h w r m Hinv Hidle) as (h1 & w1 & f1 & part & po & ids & Hpast & _ & Hok1 & Hres).
  destruct (router_has_in_idle ext ms h w r m h1 w1 f1 part po Hinv Hidle Hpast) as (g1 & r1 & Hin & Hpo).
  exists g1, r1, (bool_decide (is_Some po)). destruct po as [p|]; last first.
  { destruct Hres as (Hr & _). eexists h1, w1, _, _, _. split; [exact Hin|]. split; [exact Hr|]. done. }
  destruct Hres as (Hrd & _ & Hp & h2 & m2 & Hr & Hb & Hf & Hc & Hh & Hbp). destruct Hpo as (idm & -> & Hbi & Hfi & Hci & Hhi & Hbpi).
  eexists h2, w1, _, m2, RcOk. split; [exact Hin|]. split; [exact Hr|]. split; [done|]. intros _.
  assert (Hhi' : heap_inv ext g1 (m :: idm :: part :: ready_msgs w1 f1 ++ ms)).
  { rewrite <- Permutation_middle in Hhi. by rewrite 2!(Permutation_swap _ m). }
  destruct (msg_move_spec ext g1 m idm _ Hhi' (ro_check _ _ _ _ _ _ (rl_ok _ _ _ _ _ _ Hidle)) Hci) as (g2 & Hmv & Hh2 & Hf2).
  unfold router_recv. cbn [r_in r_set_in ri_prefetched ri_routing_id_sent ri_prefetched_id].
  rewrite Hmv, bind_Done, slk_assert_bind, bind_Done by done. cbn [ri_more_in]. rewrite Hfi.
  eexists g2, _, idm. split; [done|]. cbn. split_and!; try done; [|by rewrite Hf|].
  - rewrite Hb, <- Hbi. eapply msg_bytes_frame; [exact Hf2|apply Hh2|by left].
  - rewrite Hbp, <- Hbpi. eapply msg_bytes_frame; [exact Hf2|apply Hh2|by right; right; left].
Qed.

(** ** Sending *)

Section sending.
Context {W : Type} `{!SocketPipes W, !PipeControl W} (ext : nat → Z).

Lemma set_out_active_spec t id o b :
  table_ok t → rt_out_pipes t !! id = Some o →
  table_ok (set_out_active id (op_pipe o) b t) ∧ ∀ q, has_entry (set_out_active id (op_pipe o) b t) q ↔ has_entry t q.
Proof.
  intros [Ht Hn] Hid. split.
  - split; [|done]. simpl. intros id' o' [[<- <-]|[Hne H']]%lookup_insert_Some; [by apply (Ht id o)|by apply Ht].
  - intros q. unfold has_entry. simpl. split.
    + intros (id' & o' & [[<- <-]|[Hne H']]%lookup_insert_Some & Hq); eauto.
    + intros (id' & o' & H' & Hq). destruct (decide (id' = id)) as [->|Hne].
      * exists id, (OutPipe (op_pipe o) b). rewrite lookup_insert_eq. split; [done|]. simpl. congruence.
      * exists id', o'. by rewrite lookup_insert_ne.
Qed.

(** Another table with the same pipes, another outgoing pipe. *)
Lemma router_inv_table r t :
  router_inv r → table_ok t → (∀ q, has_entry t q ↔ has_entry (r_table r) q) → router_inv (r_set_table t r).
Proof. intros [H1 H2 H3 H4 H5 H6] Ht He. split; simpl; try done; intros; rewrite ?He; auto. Qed.

Lemma router_inv_out r c b :
  router_inv r → (∀ p, c = Some p → has_entry (r_table r) p) → (b = false → c = None) → router_inv (r_set_out (ROut c b) r).
Proof. intros [H1 H2 H3 H4 H5 H6] Hc Hb. by split. Qed.

Lemma router_drop_spec ms h (w : W) r m :
  heap_inv ext h (m :: ms) → msg_check m = true → ∃ h', router_drop h w r m = Done (h', w, r, msg_init, RcOk) ∧ heap_inv ext h' ms ∧ heap_frame h h'.
Proof.
  intros Hh Hck. destruct (msg_close_spec ext h m ms Hh Hck) as (h' & Hcl & Hh' & Hf). exists h'. unfold router_drop.
  by rewrite Hcl, bind_Done, slk_assert_bind.
Qed.

(** The pipe a message goes to. *)
Definition destination (w : W) (r : router_t) (id : list Z) : option nat :=
  match lookup_out_pipe (r_table r) id with
  | Some o => if (pc_check_write w (op_pipe o)).1 then Some (op_pipe o) else None
  | None => None
  end.

(** Why there is none. *)
Definition no_destination (w : W) (r : router_t) (id : list Z) : errno_t :=
  match lookup_out_pipe (r_table r) id with
  | Some o => if op_check_hwm (pc_check_write w (op_pipe o)).2 (op_pipe o) then EHOSTUNREACH else EAGAIN
  | None => EHOSTUNREACH
  end.

Lemma router_send_id_spec ms h (w : W) r m id :
  router_inv r → ro_more_out (r_out r) = false → has_flag m msg_more = true → msg_bytes h m = Done id →
  heap_inv ext h (m :: ms) → msg_check m = true →
  ∃ h' w' r' m' rc, router_send h w r m = Done (h', w', r', m', rc) ∧ router_inv r' ∧ op_log w' = op_log w ∧ r_cfg r' = r_cfg r
    ∧ match destination w r id with
      | None =>
          if rc_mandatory (r_cfg r) then rc = RcErr (no_destination w r id) ∧ m' = m ∧ h' = h ∧ r_out r' = ROut None false
          else rc = RcOk ∧ m' = msg_init ∧ r_out r' = ROut None true ∧ heap_inv ext h' ms ∧ heap_frame h h'
      | Some p => rc = RcOk ∧ m' = msg_init ∧ r_out r' = ROut (Some p) true ∧ heap_inv ext h' ms ∧ heap_frame h h'
      end.
Proof.
  intros Hinv Hmo Hm Hb Hh Hck. unfold router_send, router_send_id, destination, no_destination. rewrite Hmo. cbn [negb].
  rewrite slk_assert_bind, Hm, Hb, bind_Done by by apply Hinv.
  destruct (lookup_out_pipe (r_table r) id) as [o|] eqn:El.
  - pose proof (pc_check_write_log w (op_pipe o)) as Hl. destruct (pc_check_write w (op_pipe o)) as [[] w1]; simpl in Hl |- *.
    + destruct (router_drop_spec ms h w1 (r_set_out (ROut (Some (op_pipe o)) true) r) m Hh Hck) as (h' & -> & Hh' & Hf).
      eexists _, _, _, _, _. split; [done|]. split; [|by split_and!]. apply router_inv_out; [done| |done]. intros p [= <-]. by exists id, o.
    + destruct (set_out_active_spec _ id o false (rv_table _ Hinv) El) as [Ht He].
      assert (Hr1 : router_inv (r_set_table (set_out_active id (op_pipe o) false (r_table r)) r)) by by apply router_inv_table.
      destruct (rc_mandatory (r_cfg r)).
      * eexists _, _, _, _, _. split; [done|]. split; [by apply router_inv_out|]. split; [done|]. split; [done|]. split; [by destruct (op_check_hwm w1 (op_pipe o))|done].
      * destruct (router_drop_spec ms h w1 (r_set_out (ROut None true) (r_set_table (set_out_active id (op_pipe o) false (r_table r)) r)) m Hh Hck) as (h' & -> & Hh' & Hf).
        eexists _, _, _, _, _. split; [done|]. split; [by apply router_inv_out|by split_and!].
  - destruct (rc_mandatory (r_cfg r)).
    + eexists _, _, _, _, _. split; [done|]. split; [by apply router_inv_out|done].
    + destruct (router_drop_spec ms h w (r_set_out (ROut None true) r) m Hh Hck) as (h' & -> & Hh' & Hf).
      eexists _, _, _, _, _. split; [done|]. split; [by apply router_inv_out|by split_and!].
Qed.

(** A part after the id goes to the pipe of the message, or nowhere. *)
Lemma router_send_part_spec ms h (w : W) r m :
  router_inv r → ro_more_out (r_out r) = true → rc_raw_socket (r_cfg r) = false → rc_opt_raw_socket (r_cfg r) = false →
  heap_inv ext h (m :: ms) → msg_check m = true →
  ∃ h' w' r', router_send h w r m = Done (h', w', r', msg_init, RcOk) ∧ router_inv r' ∧ r_cfg r' = r_cfg r
    ∧ ro_more_out (r_out r') = has_flag m msg_more
    ∧ match ro_current_out (r_out r) with
      | Some p =>
          let taken := (op_write w p m).1 in
          op_log w' = op_log w ++ EvWrite p m taken :: (if taken && negb (has_flag m msg_more) then [EvFlush p] else [])
          ∧ heap_inv ext h' (if taken then m :: ms else ms)
          ∧ ro_current_out (r_out r') = if taken && has_flag m msg_more then Some p else None
      | None => op_log w' = op_log w ∧ heap_inv ext h' ms ∧ ro_current_out (r_out r') = None
      end.
Proof.
  intros Hinv Hmo Hraw Hopt Hh Hck. unfold router_send. rewrite Hmo, Hopt, Hraw. cbn [negb].
  destruct (ro_current_out (r_out r)) as [p|] eqn:Ec; last first.
  { destruct (router_drop_spec ms h w (r_set_out (ROut None (has_flag m msg_more)) r) m Hh Hck) as (h' & -> & Hh' & Hf).
    eexists _, _, _. split; [done|]. split; [by apply router_inv_out|by split_and!]. }
  rewrite bind_Done. pose proof (op_write_log w p m) as Hl. destruct (op_write w p m) as [[] w1]; cbn [fst snd] in *.
  - pose proof (rv_out _ Hinv p Ec) as Hp. destruct (has_flag m msg_more) eqn:Em.
    + eexists _, _, _. split; [done|]. split; [apply router_inv_out; try done; by intros ? [= <-]|]. split_and!; done.
    + eexists _, _, _. split; [done|]. split; [by apply router_inv_out|]. split_and!; try done. by rewrite op_flush_log, Hl, <- app_assoc.
  - destruct (msg_close_spec ext h m ms Hh Hck) as (h' & -> & Hh' & Hf). rewrite bind_Done, slk_assert_bind by done.
    eexists _, _, _. split; [done|]. split; [by apply router_inv_out|]. split_and!; try done. by rewrite pc_rollback_log.
Qed.

End sending.

(** C26: a ROUTER that is not raw (neither [_raw_socket] nor the raw option is set) sends a message to the peer that its first part names, and to no
    other.  Between two messages, with a valid id part that has the more flag, and the table and the queue in step: if there is a pipe for that id that can be written, the id is dropped and the next
    part is written to that pipe, once (and flushed when it is taken and is the last).  Without one
    nothing is written: with [ROUTER_MANDATORY] the send fails with [EAGAIN] when
    the pipe is full and [EHOSTUNREACH] otherwise, so for an id that no peer has too, and the part is the caller's still; without
    it the message is dropped. *)
Theorem router_send_routes {W} `{!SocketPipes W, !PipeControl W} ext ms h (w : W) r idm id part :
  router_inv r → ro_more_out (r_out r) = false → rc_raw_socket (r_cfg r) = false → rc_opt_raw_socket (r_cfg r) = false →
  has_flag idm msg_more = true → msg_bytes h idm = Done id → heap_inv ext h (idm :: part :: ms) → msg_check idm = true → msg_check part = true →
  ∃ h1 w1 r1 m1 rc, router_send h w r idm = Done (h1, w1, r1, m1, rc) ∧ op_log w1 = op_log w
    ∧ if bool_decide (destination w r id = None) && rc_mandatory (r_cfg r)
      then rc = RcErr (no_destination w r id) ∧ m1 = idm ∧ h1 = h ∧ ro_more_out (r_out r1) = false ∧ router_inv r1
      else rc = RcOk ∧ m1 = msg_init
        ∧ ∃ h2 w2 r2, router_send h1 w1 r1 part = Done (h2, w2, r2, msg_init, RcOk) ∧ router_inv r2 ∧ ro_more_out (r_out r2) = has_flag part msg_more
            ∧ match destination w r id with
              | Some p =>
                  let taken := (op_write w1 p part).1 in
                  op_log w2 = op_log w ++ EvWrite p part taken :: (if taken && negb (has_flag part msg_more) then [EvFlush p] else [])
                  ∧ heap_inv ext h2 (if taken then part :: ms else ms)
              | None => op_log w2 = op_log w ∧ heap_inv ext h2 ms
              end.
Proof.
  intros Hinv Hmo Hraw Hopt Hm Hb Hh Hc1 Hc2.
  destruct (router_send_id_spec ext (part :: ms) h w r idm id Hinv Hmo Hm Hb Hh Hc1) as (h1 & w1 & r1 & m1 & rc & Hr & Hinv1 & Hl1 & Hcfg & Hd).
  exists h1, w1, r1, m1, rc. split; [done|]. split; [done|].
  assert (Hnext : rc = RcOk → m1 = msg_init → r_out r1 = ROut (destination w r id) true → heap_inv ext h1 (part :: ms) →
    rc = RcOk ∧ m1 = msg_init ∧ ∃ h2 w2 r2, router_send h1 w1 r1 part = Done (h2, w2, r2, msg_init, RcOk) ∧ router_inv r2 ∧ ro_more_out (r_out r2) = has_flag part msg_more
            ∧ match destination w r id with
              | Some p =>
                  let taken := (op_write w1 p part).1 in
                  op_log w2 = op_log w ++ EvWrite p part taken :: (if taken && negb (has_flag part msg_more) then [EvFlush p] else [])
                  ∧ heap_inv ext h2 (if taken then part :: ms else ms)
              | None => op_log w2 = op_log w ∧ heap_inv ext h2 ms
              end).
  { intros -> -> Ho Hh1. split; [done|]. split; [done|].
    destruct (router_send_part_spec ext ms h1 w1 r1 part Hinv1) as (h2 & w2 & r2 & Hr2 & Hinv2 & _ & Hmo2 & Hres); try done; [by rewrite Ho|by rewrite Hcfg..|].
    exists h2, w2, r2. split; [done|]. split; [done|]. split; [done|]. rewrite Ho in Hres. cbn [ro_current_out] in Hres. rewrite Hl1 in Hres.
    destruct (destination w r id); [by destruct Hres as (? & ? & _)|by destruct Hres as (? & ? & _)]. }
  destruct (destination w r id) as [p|].
  - destruct Hd as (-> & -> & Ho & Hh1 & _). by apply Hnext.
  - rewrite bool_decide_eq_true_2 by done. cbn [andb]. destruct (rc_mandatory (r_cfg r)).
    + destruct Hd as (-> & -> & -> & Ho). rewrite Ho. done.
    + destruct Hd as (-> & -> & Ho & Hh1 & _). by apply Hnext.
Qed.

(** ** The invariant is kept *)

Lemma recv_loop_keeps {W} `{!InPipes W} fuel (w : W) f r w' f' :
  fq_inv f → recv_loop fuel w f = Done (r, w', f') → fq_inv f' ∧ ar_items (fq_pipes f') ≡ₚ ar_items (fq_pipes f).
Proof.
  revert w f. induction fuel as [|fuel IH]; intros w f Hinv; [done|]. cbn [recv_loop]. pose proof Hinv as [Hwf Hle Hc].
  case_decide as Ha; [|by intros [= _ _ <-]]. destruct Hc as [Hc|[? _]]; [|lia].
  destruct (lookup_lt_is_Some_2 (ar_items (fq_pipes f)) (fq_current f)) as [p Hp]; [unfold fq_size in *; lia|].
  rewrite (geti_Some _ _ p Hp), bind_Done. destruct (ip_read w p) as [[m|] w1].
  - intros [= _ _ <-]. split; [|done]. split; simpl; [done|done|left]. destruct (has_flag m msg_more); [done|]. by apply Nat.mod_upper_bound; lia.
  - destruct (slk_assert (negb (fq_more f))) as [[]| |]; [|done..]. rewrite bind_Done.
    destruct (fq_deactivate_spec f (fq_current f) p Hinv Hp Hc) as (f1 & -> & Hinv1 & _ & _ & Hit & _). rewrite bind_Done. intros H.
    destruct (IH _ _ Hinv1 H) as [? Hpp]. split; [done|]. rewrite Hpp, Hit. apply lswap_perm.
Qed.

Lemma recv_past_ids_keeps {W} `{!SocketPipes W} fuel h (w : W) f m h' w' f' m' p :
  fq_inv f → recv_past_ids fuel h w f m = Done (h', w', f', m', p) → fq_inv f' ∧ ar_items (fq_pipes f') ≡ₚ ar_items (fq_pipes f).
Proof.
  revert h w f m. induction fuel as [|fuel IH]; intros h w f m Hinv; [done|]. cbn [recv_past_ids]. unfold fq_recvpipe.
  destruct (msg_close h m) as [[[rc h1] ?]| |]; [|done..]. rewrite bind_Done.
  destruct (slk_assert (bool_decide (rc = RcOk))) as [[]| |]; [|done..]. rewrite bind_Done.
  destruct (recv_loop (S (fq_active f)) w f) as [[[r w1] f1]| |] eqn:El; [|done..]. rewrite bind_Done.
  destruct (recv_loop_keeps _ _ _ _ _ _ Hinv El) as [Hinv1 Hp1].
  destruct r as [[q part]|]; rewrite bind_Done; [|by intros [= _ _ <- _ _]].
  destruct (is_routing_id part); [|by intros [= _ _ <- _ _]]. intros H. destruct (IH _ _ _ _ Hinv1 H) as [? Hpp]. split; [done|]. by rewrite Hpp.
Qed.

(** Receiving changes the order of the pipes in the queue at most. *)
Lemma router_inv_in r i :
  router_inv r → fq_inv (ri_fq i) → ar_items (fq_pipes (ri_fq i)) ≡ₚ ar_items (fq_pipes (ri_fq (r_in r))) →
  ri_anonymous_pipes i = ri_anonymous_pipes (r_in r) → router_inv (r_set_in i r).
Proof. intros [H1 H2 H3 H4 H5 H6] Hf Hp Ha. split; simpl; try done; [intros p; by rewrite Hp|by rewrite Ha]. Qed.

Lemma end_of_message_keeps {W} `{!SocketPipes W, !PipeControl W} (w w' : W) i i' :
  end_of_message w i = Done (w', i') → ri_fq i' = ri_fq i ∧ ri_anonymous_pipes i' = ri_anonymous_pipes i.
Proof. unfold end_of_message. destruct (ri_terminate_current_in i); [destruct (ri_current_in i)|]; intros H; by simplify_eq. Qed.

Lemma router_recv_keeps {W} `{!SocketPipes W, !PipeControl W} h (w : W) r m h' w' r' m' rc :
  router_inv r → router_recv h w r m = Done (h', w', r', m', rc) → router_inv r'.
Proof.
  intros Hinv. unfold router_recv. destruct (ri_prefetched (r_in r)).
  - destruct (ri_routing_id_sent (r_in r));
      (destruct (msg_move _ _ _) as [[[[rc1 h1] m1] src]| |]; [|done..]); rewrite bind_Done;
      (destruct (slk_assert _) as [[]| |]; [|done..]); rewrite !bind_Done; cbn [ri_more_in];
      (destruct (has_flag m1 msg_more); [intros [= _ _ <- _ _]; apply router_inv_in; try done; apply Hinv|]);
      (destruct (end_of_message _ _) as [[w1 i1]| |] eqn:Ee; [|done..]); rewrite bind_Done; intros [= _ _ <- _ _];
      apply end_of_message_keeps in Ee as [E1 E2]; apply router_inv_in; simpl in *; rewrite ?E1, ?E2; try done; apply Hinv.
  - destruct (recv_past_ids _ _ _ _ _) as [[[[[h1 w1] f1] m1] po]| |] eqn:Ep; [|done..]. rewrite bind_Done.
    destruct (recv_past_ids_keeps _ _ _ _ _ _ _ _ _ _ (rv_fq _ Hinv) Ep) as [Hf Hp]. destruct po as [p|].
    + cbn [ri_more_in ri_set_fq]. destruct (ri_more_in (r_in r)).
      * destruct (has_flag m1 msg_more); [intros [= _ _ <- _ _]; by apply router_inv_in|].
        destruct (end_of_message _ _) as [[w2 i2]| |] eqn:Ee; [|done..]. rewrite bind_Done. intros [= _ _ <- _ _].
        apply end_of_message_keeps in Ee as [E1 E2]. apply router_inv_in; simpl in *; by rewrite ?E1, ?E2.
      * destruct (msg_move _ _ _) as [[[[rc1 h2] m2] src]| |]; [|done..]. rewrite bind_Done. destruct (slk_assert _) as [[]| |]; [|done..].
        rewrite bind_Done. destruct (make_id _ _ _) as [[h3 m3]| |]; [|done..]. rewrite bind_Done. intros [= _ _ <- _ _]. by apply router_inv_in.
    + intros [= _ _ <- _ _]. by apply router_inv_in.
Qed.

Lemma router_has_in_keeps {W} `{!SocketPipes W, !PipeControl W} h (w : W) r h' w' r' b :
  router_inv r → router_has_in h w r = Done (h', w', r', b) → router_inv r'.
Proof.
  intros Hinv. unfold router_has_in. destruct (ri_more_in (r_in r)); [by intros [= _ _ <- _]|]. destruct (ri_prefetched (r_in r)); [by intros [= _ _ <- _]|].
  destruct (recv_past_ids _ _ _ _ _) as [[[[[h1 w1] f1] m1] po]| |] eqn:Ep; [|done..]. rewrite bind_Done.
  destruct (recv_past_ids_keeps _ _ _ _ _ _ _ _ _ _ (rv_fq _ Hinv) Ep) as [Hf Hp]. destruct po as [p|].
  - destruct (make_id _ _ _) as [[h3 m3]| |]; [|done..]. rewrite bind_Done. intros [= _ _ <- _]. by apply router_inv_in.
  - intros [= _ _ <- _]. by apply router_inv_in.
Qed.

Section steps.
Context {W : Type} `{!SocketPipes W, !PipeControl W} (ext : nat → Z).

(** An identified peer joins the queue. *)
Lemma router_join r r' p A :
  router_inv r → ¬ has_entry (r_table r) p → identified r p r' true → ar_size (fq_pipes (ri_fq (r_in r))) + 1 < 2 ^ 31 →
  A ⊆ ri_anonymous_pipes (r_in r) → p ∉ A →
  ∃ f, fq_attach (ri_fq (r_in r')) p = Done f ∧ router_inv (r_set_in (ri_set_fq f (ri_set_anonymous A (r_in r'))) r').
Proof.
  intros [H1 H2 H3 H4 H5 H6] Hp [I1 I2 I3 I4 I5] Hsz HA HpA. rewrite I3.
  destruct (fq_attach_spec (ri_fq (r_in r)) p H1) as (f & Hf & Hinv & _ & _ & Hpp & _); [by rewrite H3|done|].
  exists f. split; [done|]. split; simpl; [done|done|..].
  - intros q. rewrite Hpp, I2, elem_of_cons, H3. naive_solver.
  - intros q Hq. rewrite I2. intros [[_ ->]|Hq']; [done|]. by apply (H4 q); [apply HA|].
  - intros q. rewrite I5, I2. intros Hq. right. by apply H5.
  - by rewrite I5.
Qed.

Lemma router_inv_unidentified r r' p A :
  router_inv r → identified r p r' false → (∀ q, q ∈ A → ¬ has_entry (r_table r) q) → router_inv (r_set_in (ri_set_anonymous A (r_in r')) r').
Proof.
  intros [H1 H2 H3 H4 H5 H6] [I1 I2 I3 I4 I5] HA.
  assert (He : ∀ q, has_entry (r_table r') q ↔ has_entry (r_table r) q) by (intros q; rewrite I2; naive_solver).
  split; simpl; rewrite ?I3, ?I5; try done; intros q; rewrite ?He; auto.
Qed.

(** The pipe is new, its first message valid, and the ids that may be chosen are free. *)
Definition new_peer_ok (h : heap) (w : W) (r : router_t) (p : nat) (local : bool) : Prop :=
  (¬ has_entry (r_table r) p) ∧ ar_size (fq_pipes (ri_fq (r_in r))) + 1 < 2 ^ 31 ∧ ids_free r local ∧ first_valid ext h w p.

Lemma router_attach_spec h (w : W) r p local :
  router_inv r → new_peer_ok h w r p local → p ∉ ri_anonymous_pipes (r_in r) →
  ∃ h' w' r', router_attach_pipe h w r p local = Done (h', w', r') ∧ router_inv r'.
Proof.
  intros Hinv (Hp & Hsz & Hids & Hv) Hna.
  assert (Hgen : ∀ w1, first_valid ext h w1 p → ∃ h' w' r',
    ('(h, w, r, routing_id_ok) ← identify_peer h w1 r p local;
     if routing_id_ok : bool then
       f ← fq_attach (ri_fq (r_in r)) p; Done (h, w, r_set_in (ri_set_fq f (r_in r)) r)
     else Done (h, w, r_set_in (ri_set_anonymous ({[p]} ∪ ri_anonymous_pipes (r_in r)) (r_in r)) r)) = Done (h', w', r') ∧ router_inv r').
  { intros w1 Hv1.
    destruct (identify_peer_spec ext h w1 r p local (rv_table _ Hinv) Hp Hids Hv1) as (h2 & w2 & r2 & ok & -> & Hid). rewrite bind_Done. destruct ok.
    - destruct (router_join r r2 p (ri_anonymous_pipes (r_in r)) Hinv Hp Hid Hsz) as (f & -> & Hr); [done|done|]. rewrite bind_Done.
      eexists _, _, _. split; [done|]. destruct Hid as [_ _ _ I4 _]. destruct r2 as [[] ? ? ?]. simpl in *. by subst.
    - eexists _, _, _. split; [done|]. apply (router_inv_unidentified r r2 p); [done|done|]. rewrite (id_anonymous _ _ _ _ Hid).
      intros q [->%elem_of_singleton|Hq]%elem_of_union; [done|]. by apply (rv_anonymous _ Hinv). }
  unfold router_attach_pipe. destruct (rc_probe_router (r_cfg r)); [|by apply Hgen].
  pose proof (sk_write_ready w p msg_init p) as Hw. destruct (op_write w p msg_init) as [b w1]. simpl in Hw.
  assert (Hcl : msg_close h msg_init = Done (RcOk, h, m_set_type 0 (m_set_metadata None msg_init))) by reflexivity.
  rewrite Hcl, bind_Done, slk_assert_bind, bind_Done by done. apply Hgen.
  unfold first_valid. rewrite sk_flush_ready. by rewrite Hw.
Qed.

Lemma router_read_activated_spec h (w : W) r p :
  router_inv r →
  (p ∈ ri_anonymous_pipes (r_in r) → new_peer_ok h w r p false) →
  (p ∉ ri_anonymous_pipes (r_in r) → p ∈ ar_items (fq_pipes (ri_fq (r_in r))) ∧ p ∉ active_in (ri_fq (r_in r))) →
  ∃ h' w' r', router_read_activated h w r p = Done (h', w', r') ∧ router_inv r'.
Proof.
  intros Hinv Ha Hna. unfold router_read_activated. destruct (decide (p ∈ ri_anonymous_pipes (r_in r))) as [Hin|Hnin].
  - destruct (Ha Hin) as (Hp & Hsz & Hids & Hv).
    destruct (identify_peer_spec ext h w r p false (rv_table _ Hinv) Hp Hids Hv) as (h2 & w2 & r2 & ok & -> & Hid). rewrite bind_Done. destruct ok.
    + cbn [ri_fq ri_set_anonymous]. rewrite (id_anonymous _ _ _ _ Hid).
      destruct (router_join r r2 p (ri_anonymous_pipes (r_in r) ∖ {[p]}) Hinv Hp Hid Hsz) as (f & -> & Hr); [set_solver|set_solver|]. rewrite bind_Done.
      by eexists _, _, _.
    + eexists _, _, _. split; [done|]. pose proof (router_inv_unidentified r r2 p (ri_anonymous_pipes (r_in r)) Hinv Hid (rv_anonymous _ Hinv)) as Hr.
      destruct Hid as [_ _ _ I4 _]. destruct r2 as [[] ? ? ?]. simpl in *. by subst.
  - destruct (Hna Hnin) as [H1 H2]. destruct (fq_activated_spec _ p (rv_fq _ Hinv) H1 H2) as (f & -> & Hf & _ & _ & Hp & _). rewrite bind_Done.
    eexists _, _, _. split; [done|]. by apply router_inv_in.
Qed.

Lemma router_pipe_terminated_spec (w : W) r p :
  router_inv r → p ∈ ri_anonymous_pipes (r_in r) ∨ p ∈ ar_items (fq_pipes (ri_fq (r_in r))) →
  ∃ w' r', router_pipe_terminated w r p = Done (w', r') ∧ router_inv r' ∧ ¬ has_entry (r_table r') p ∧ p ∉ ri_anonymous_pipes (r_in r').
Proof.
  intros Hinv Hp. unfold router_pipe_terminated. destruct (decide (p ∈ ri_anonymous_pipes (r_in r))) as [Ha|Hna].
  - eexists _, _. split; [done|]. pose proof (rv_anonymous _ Hinv p Ha) as Hn. split; [|split; [done|simpl; set_solver]].
    destruct Hinv as [H1 H2 H3 H4 H5 H6]. split; simpl; try done. intros q Hq. apply H4. set_solver.
  - destruct Hp as [?|Hp]; [done|]. cbn [r_in r_set_table].
    destruct (erase_out_pipe_spec (r_table r) p (rv_table _ Hinv)) as (Ht & _ & _ & Ho).
    assert (He : ∀ q, has_entry (erase_out_pipe p (r_table r)) q ↔ has_entry (r_table r) q ∧ q ≠ p).
    { intros q. split.
      - intros (id & o & [H1 H2]%Ho & <-). split; [by exists id, o|done].
      - intros [(id & o & H1 & <-) H2]. exists id, o. split; [by apply Ho|done]. }
    destruct (fq_pipe_terminated_spec _ p (rv_fq _ Hinv) Hp) as (f & -> & Hf & _ & Hpp & _). rewrite bind_Done.
    assert (Hnd : NoDup (p :: ar_items (fq_pipes f))) by (rewrite <- Hpp; apply (rv_fq _ Hinv)). apply NoDup_cons in Hnd as [Hnp _].
    eexists _, _. split; [done|]. destruct Hinv as [H1 H2 H3 H4 H5 H6].
    assert (Hpipes : ∀ q, q ∈ ar_items (fq_pipes f) ↔ has_entry (erase_out_pipe p (r_table r)) q).
    { intros q. rewrite He, <- H3, Hpp, elem_of_cons. split; [|naive_solver]. intros Hq. split; [by right|]. by intros ->. }
    simpl. case_decide as Hc; (split; [|split; [simpl; rewrite He; naive_solver|done]]); split; simpl; try done.
    + intros q Hq. rewrite He. intros [? _]. by apply (H4 q).
    + intros q Hq. rewrite He. intros [? _]. by apply (H4 q).
    + intros q Hq. rewrite He. split; [by apply H5|]. congruence.
Qed.

Lemma router_write_activated_spec r p id :
  router_inv r → rt_out_pipes (r_table r) !! id = Some (OutPipe p false) → ∃ r', router_write_activated r p = Done r' ∧ router_inv r'.
Proof.
  intros Hinv Hid. unfold router_write_activated, routing_write_activated. pose proof (find_out_pipe_spec _ p (rv_table _ Hinv)) as Hf.
  destruct (find_out_pipe (r_table r) p) as [[id' o']|]; [|destruct Hf; by exists id, (OutPipe p false)]. destruct Hf as [Ho' Hp'].
  destruct (table_unique _ _ _ _ _ (rv_table _ Hinv) Hid Ho') as [<- <-]; [done|]. eexists. split; [done|].
  destruct (set_out_active_spec _ id (OutPipe p false) true (rv_table _ Hinv) Hid) as [Ht He]. by apply router_inv_table.
Qed.
End steps.

Lemma router_send_any {W} `{!SocketPipes W, !PipeControl W} ext h (w : W) r m :
  router_inv r → valid_msg ext h m → rc_raw_socket (r_cfg r) = false → rc_opt_raw_socket (r_cfg r) = false →
  ∃ h' w' r' m' rc, router_send h w r m = Done (h', w', r', m', rc) ∧ router_inv r'.
Proof.
  intros Hinv (Hck & [data Hb] & ms & Hh) Hraw Hopt. destruct (ro_more_out (r_out r)) eqn:Hmo.
  - destruct (router_send_part_spec ext ms h w r m) as (h' & w' & r' & Hr & Hinv' & _); try done. by eexists _, _, _, _, _.
  - destruct (has_flag m msg_more) eqn:Hm.
    + destruct (router_send_id_spec ext ms h w r m data) as (h' & w' & r' & m' & rc & Hr & Hinv' & _); try done. by eexists _, _, _, _, _.
    + unfold router_send, router_send_id. rewrite Hmo. cbn [negb]. rewrite slk_assert_bind, Hm by by apply Hinv.
      destruct (router_drop_spec ext ms h w r m Hh Hck) as (h' & -> & _). by eexists _, _, _, _, _.
Qed.

Lemma router_new_inv seed : router_inv (router_new seed).
Proof.
  split; simpl; try done; [apply fq_new_inv| |].
  - split; [done|]. apply u32_range.
  - intros p. split; [by intros ?%not_elem_of_nil|]. by intros (id & o & ? & _).
Qed.

(** A peer can take an id that the socket will generate.  When the next generated
    id is already in the table (a peer may announce any id, and the counter wraps), the
    next peer that announces none makes the socket abort. *)
Lemma router_generated_id_taken {W} `{!SocketPipes W, !PipeControl W} ext h (w : W) r p m ms o :
  rc_probe_router (r_cfg r) = false → rc_opt_raw_socket (r_cfg r) = false →
  rt_out_pipes (r_table r) !! integral_id (rt_next_integral_routing_id (r_table r)) = Some o →
  head (ip_ready w p) = Some m → msg_bytes h m = Done [] → msg_check m = true → heap_inv ext h (m :: ms) →
  router_attach_pipe h w r p false = Abort.
Proof.
  intros Hpr Hraw Ho Hm Hb Hck Hh. unfold router_attach_pipe. rewrite Hpr, bind_Done. unfold identify_peer. rewrite Hraw. cbn [andb].
  pose proof (ip_read_result w p) as Hr. destruct (ip_read w p) as [r0 w1]. simpl in Hr. subst r0. rewrite Hm, Hb, bind_Done.
  destruct (msg_close_spec ext h m ms Hh Hck) as (h' & -> & _). rewrite bind_Done, decide_True by done.
  cbn [next_integral_id]. unfold router_admit, add_out_pipe. cbn [rt_out_pipes set_pipe_id]. by rewrite Ho.
Qed.

(** A router with one peer, A, on pipe 4. *)
Definition router_example : router_t :=
  Router (RIn (Fq (Array [4%nat] {[4%nat := 0]}) 1 0 false) false false msg_init msg_init None false false ∅)
    (RTable {[ [65] := OutPipe 4 true ]} {[ 4%nat := [65] ]} 7 []) (ROut None false) (RCfg true false false false false true 0).

Lemma router_example_inv : router_inv router_example.
Proof.
  assert (Hlk : ∀ id o, rt_out_pipes (r_table router_example) !! id = Some o → id = [65] ∧ o = OutPipe 4 true).
  { intros id o H. change (rt_out_pipes (r_table router_example)) with ({[ [65] := OutPipe 4 true ]} : gmap (list Z) out_pipe_t) in H.
    by apply lookup_singleton_Some in H as [<- <-]. }
  split; simpl; try done.
  - split; [split|simpl; unfold fq_size; simpl; lia|left; simpl; lia].
    + apply NoDup_singleton.
    + done.
    + intros [|i] p Hi; simplify_eq/=; by vm_compute.
  - split; [|simpl; lia]. intros id o [-> ->]%Hlk. by vm_compute.
  - intros p. rewrite list_elem_of_singleton. split.
    + intros ->. exists [65], (OutPipe 4 true). by vm_compute.
    + intros (id & o & [-> ->]%Hlk & <-). done.
Qed.

Definition router_example_world : sock_world := SockWorld {[4%nat := [[1; 2]]]} [4%nat] [].

Lemma router_example_idle : recv_idle no_ext [] (empty_heap (λ _, true)) router_example_world router_example msg_init.
Proof.
  destruct (sock_msgs_heap [[]; [1; 2]; []]) as [Hh _]; [by repeat constructor|done|]. split; try done.
  - split; [apply router_example_inv|done|done|exact Hh|by repeat constructor].
  - by repeat constructor.
  - intros p id Hp. change (rt_ids (r_table router_example)) with ({[ 4%nat := [65] ]} : gmap nat (list Z)) in Hp.
    apply lookup_singleton_Some in Hp as [_ <-]. done.
Qed.

Lemma router_recv_identifies_witness :
  ∃ h1 w1 r1 m1, router_recv (empty_heap (λ _, true)) router_example_world router_example msg_init = Done (h1, w1, r1, m1, RcOk)
    ∧ msg_bytes h1 m1 = Done [65] ∧ ri_prefetched_msg (r_in r1) = sock_msg [1; 2].
Proof.
  destruct (router_recv_identifies no_ext [] (empty_heap (λ _, true)) router_example_world router_example msg_init router_example_inv router_example_idle)
    as (h1 & w1 & r1 & m1 & rc & Hr & Hres).
  vm_compute in Hr. injection Hr as <- <- <- <- <-. eexists _, _, _, _. split; [by vm_compute|]. by vm_compute.
Defined.

Lemma router_has_in_transparent_witness :
  ∃ g1 w1 r1 g2 r2 m2, router_has_in (empty_heap (λ _, true)) router_example_world router_example = Done (g1, w1, r1, true)
    ∧ router_recv g1 w1 r1 msg_init = Done (g2, w1, r2, m2, RcOk) ∧ ri_prefetched_msg (r_in r2) = sock_msg [1; 2].
Proof.
  destruct (router_has_in_transparent no_ext [] (empty_heap (λ _, true)) router_example_world router_example msg_init router_example_inv router_example_idle)
    as (g1 & r1 & b & h1 & w1 & r1' & m1 & rc & Hin & Hr & _).
  vm_compute in Hin. injection Hin as <- <- <- <-. eexists _, _, _, _, _, _. split; [by vm_compute|]. split; by vm_compute.
Defined.

Lemma router_send_routes_witness :
  ∃ h1 w1 r1, router_send (empty_heap (λ _, true)) router_example_world router_example (set_flags msg_more (sock_msg [65])) = Done (h1, w1, r1, msg_init, RcOk)
    ∧ ro_current_out (r_out r1) = Some 4%nat.
Proof.
  destruct (sock_msgs_heap [[65]; [1; 2]]) as [Hh _]; [by repeat constructor|done|].
  destruct (router_send_routes no_ext [] (empty_heap (λ _, true)) router_example_world router_example (set_flags msg_more (sock_msg [65])) [65] (sock_msg [1; 2]))
    as (h1 & w1 & r1 & m1 & rc & Hr & _).
  - apply router_example_inv.
  - done.
  - done.
  - done.
  - apply set_more_flag.
  - by vm_compute.
  - apply (heap_inv_retag _ _ _ _ _ (set_more_handle _)), Hh.
  - done.
  - done.
  - vm_compute in Hr. injection Hr as <- <- <- <- <-. eexists _, _, _. split; [by vm_compute|]. done.
Defined.

(** The peer on pipe 4 announced the id that the socket generates next. *)
Lemma router_generated_id_taken_witness :
  router_attach_pipe (empty_heap (λ _, true)) (SockWorld {[5%nat := [[]]]} [4; 5]%nat [])
    (r_set_table (RTable {[ integral_id 7 := OutPipe 4 true ]} {[ 4%nat := integral_id 7 ]} 7 []) router_example) 5 false = Abort.
Proof.
  destruct (sock_msgs_heap [[]]) as [Hh _]; [by repeat constructor|done|].
  apply (router_generated_id_taken no_ext _ _ _ 5 (sock_msg []) [] (OutPipe 4 true)).
  - done.
  - done.
  - by vm_compute.
  - by vm_compute.
  - by vm_compute.
  - done.
  - exact Hh.
Defined.

(** A handover while the old peer's message is being received makes the old pipe's entry active again, although the pipe is full: when
    that pipe is written to again the assertion that the entry is not active fails. *)
Lemma handover_write_activated :
  let r := Router (RIn (Fq (Array [4%nat] {[4%nat := 0]}) 1 0 false) false false msg_init msg_init (Some 4%nat) false true ∅)
    (RTable {[ [65] := OutPipe 4 false ]} {[ 4%nat := [65] ]} 7 []) (ROut None false) (RCfg true false false true false true 0) in
  (r ← router_write_activated r 4; Done (rt_out_pipes (r_table r))) = Done {[ [65] := OutPipe 4 true ]}
  ∧ ('(_, r) ← router_take_over router_example_world r 4; router_write_activated r 4) = Abort.
Proof. split; by vm_compute. Qed.
