(* ===== verification/Monitor.v ===== *)
(** Monitoring of peers (src/monitor): the heartbeat messages, the statistics of the
    connections and the dispatcher of events.  The mutexes make every operation atomic;
    the table of statistics is a finite map from routing ids. *)
From S2P Require Import Prelude Wire Msg Sockets.

(** ** Heartbeats (heartbeat.cpp) *)

Definition s64 (z : Z) : Z := (z + 2 ^ 63) `mod` 2 ^ 64 - 2 ^ 63.

Definition PING_PREFIX : list Z := [0; 83; 76; 75; 80].
Definition PONG_PREFIX : list Z := [0; 83; 76; 75; 79].
Definition PREFIX_SIZE : Z := 5.
Definition HEARTBEAT_MSG_SIZE : Z := 13.

Definition encode_timestamp (ts : Z) : list Z :=
  [Z.land (Z.shiftr ts 56) 255; Z.land (Z.shiftr ts 48) 255; Z.land (Z.shiftr ts 40) 255; Z.land (Z.shiftr ts 32) 255;
   Z.land (Z.shiftr ts 24) 255; Z.land (Z.shiftr ts 16) 255; Z.land (Z.shiftr ts 8) 255; Z.land ts 255].

(** The shifts are on [int64_t]. *)
Definition decode_timestamp (buffer : list Z) : outcome Z :=
  b0 ← geti buffer 0; b1 ← geti buffer 1; b2 ← geti buffer 2; b3 ← geti buffer 3;
  b4 ← geti buffer 4; b5 ← geti buffer 5; b6 ← geti buffer 6; b7 ← geti buffer 7;
  Done (s64 (Z.lor (Z.lor (Z.lor (Z.lor (Z.lor (Z.lor (Z.lor (Z.shiftl b0 56) (Z.shiftl b1 48))
          (Z.shiftl b2 40)) (Z.shiftl b3 32)) (Z.shiftl b4 24)) (Z.shiftl b5 16)) (Z.shiftl b6 8)) b7)).

(** [create_ping] and [create_pong]: [None] when there is no memory. *)
Definition create_heartbeat (prefix : list Z) (h : heap) (ts : Z) : outcome (heap * option msg_t) :=
  let '(rc, h, m) := msg_init_size h HEARTBEAT_MSG_SIZE in
  match rc with
  | RcErr _ => Done (h, None)
  | RcOk => '(h, m) ← msg_memcpy h m (prefix ++ encode_timestamp ts); Done (h, Some m)
  end.
Definition create_ping : heap → Z → outcome (heap * option msg_t) := create_heartbeat PING_PREFIX.
Definition create_pong : heap → Z → outcome (heap * option msg_t) := create_heartbeat PONG_PREFIX.

Definition has_prefix (h : heap) (m : msg_t) (prefix : list Z) : outcome bool :=
  n ← msg_size h m;
  if decide (n < HEARTBEAT_MSG_SIZE) then Done false
  else data ← msg_bytes h m; Done (bool_decide (take 5 data = prefix)).

Definition hb_is_ping (h : heap) (m : msg_t) : outcome bool := has_prefix h m PING_PREFIX.
Definition hb_is_pong (h : heap) (m : msg_t) : outcome bool := has_prefix h m PONG_PREFIX.
Definition is_heartbeat (h : heap) (m : msg_t) : outcome bool :=
  b ← hb_is_ping h m; if b : bool then Done true else hb_is_pong h m.

Definition extract_timestamp (h : heap) (m : msg_t) : outcome Z :=
  n ← msg_size h m;
  if decide (n < HEARTBEAT_MSG_SIZE) then Done 0
  else data ← msg_bytes h m; decode_timestamp (drop 5 data).

Definition extract_ping_timestamp (h : heap) (m : msg_t) : outcome Z :=
  b ← hb_is_ping h m; if b : bool then extract_timestamp h m else Done 0.
Definition extract_pong_timestamp (h : heap) (m : msg_t) : outcome Z :=
  b ← hb_is_pong h m; if b : bool then extract_timestamp h m else Done 0.

(** ** Statistics of peers (peer_stats.hpp) *)

Inductive peer_state_t := SLK_STATE_DISCONNECTED | SLK_STATE_CONNECTING | SLK_STATE_CONNECTED | SLK_STATE_RECONNECTING.

#[export] Instance peer_state_eq_dec : EqDecision peer_state_t.
Proof. solve_decision. Defined.

Record peer_stats_t := PeerStats {
  last_send_time : Z;
  last_recv_time : Z;
  last_heartbeat_time : Z;
  connection_time : Z;
  bytes_sent : Z;
  bytes_recv : Z;
  messages_sent : Z;
  messages_recv : Z;
  peer_state : peer_state_t;
  reconnect_count : Z;
  rtt_us : Z;
  last_ping_sent : Z;
  ping_timestamp : Z;
  ping_outstanding : bool;
}.

Definition peer_stats_new : peer_stats_t := PeerStats 0 0 0 0 0 0 0 0 SLK_STATE_DISCONNECTED 0 0 0 0 false.

(** [reset] keeps the state and the count of reconnections. *)
Definition ps_reset (s : peer_stats_t) : peer_stats_t :=
  PeerStats 0 0 0 0 0 0 0 0 (peer_state s) (reconnect_count s) 0 0 0 false.

Definition ps_record_send (bytes ts : Z) (s : peer_stats_t) : peer_stats_t :=
  let '(PeerStats _ lr lh ct bs br ms mr st rc rtt lp pt po) := s in
  PeerStats ts lr lh ct (u64 (bs + bytes)) br (u64 (ms + 1)) mr st rc rtt lp pt po.

Definition ps_record_recv (bytes ts : Z) (s : peer_stats_t) : peer_stats_t :=
  let '(PeerStats ls _ lh ct bs br ms mr st rc rtt lp pt po) := s in
  PeerStats ls ts lh ct bs (u64 (br + bytes)) ms (u64 (mr + 1)) st rc rtt lp pt po.

Definition ps_record_heartbeat (ts : Z) (s : peer_stats_t) : peer_stats_t :=
  let '(PeerStats ls lr _ ct bs br ms mr st rc rtt lp pt _) := s in
  PeerStats ls lr ts ct bs br ms mr st rc rtt lp pt false.

Definition ps_update_rtt (now : Z) (s : peer_stats_t) : peer_stats_t :=
  let '(PeerStats ls lr lh ct bs br ms mr st rc rtt lp pt po) := s in
  if po && bool_decide (0 < pt) then PeerStats ls lr lh ct bs br ms mr st rc (s32 (now - pt)) lp pt false else s.

(** ** Connections (connection_manager.cpp) *)

Abbreviation stats_map_t := (gmap (list Z) peer_stats_t).

Definition get_or_create_stats (m : stats_map_t) (id : list Z) : peer_stats_t := default peer_stats_new (m !! id).

(** Change the entry of a peer that has one. *)
Definition cm_update (f : peer_stats_t → peer_stats_t) (id : list Z) (m : stats_map_t) : stats_map_t :=
  match m !! id with Some s => <[id := f s]> m | None => m end.

Definition peer_connected (id : list Z) (ts : Z) (m : stats_map_t) : stats_map_t :=
  let '(PeerStats ls _ lh _ bs br ms mr _ rc rtt lp pt po) := get_or_create_stats m id in
  <[id := PeerStats ls ts lh ts bs br ms mr SLK_STATE_CONNECTED rc rtt lp pt po]> m.

Definition peer_disconnected (id : list Z) (ts : Z) (m : stats_map_t) : stats_map_t :=
  cm_update (λ '(PeerStats ls lr _ ct bs br ms mr _ rc rtt lp pt po),
    PeerStats ls lr ts ct bs br ms mr SLK_STATE_DISCONNECTED rc rtt lp pt po) id m.

Definition peer_reconnecting (id : list Z) (ts : Z) (m : stats_map_t) : stats_map_t :=
  cm_update (λ '(PeerStats ls lr _ ct bs br ms mr _ rc rtt lp pt po),
    PeerStats ls lr ts ct bs br ms mr SLK_STATE_RECONNECTING (s32 (rc + 1)) rtt lp pt po) id m.

Definition cm_record_send (id : list Z) (bytes ts : Z) (m : stats_map_t) : stats_map_t :=
  <[id := ps_record_send bytes ts (get_or_create_stats m id)]> m.
Definition cm_record_recv (id : list Z) (bytes ts : Z) (m : stats_map_t) : stats_map_t :=
  <[id := ps_record_recv bytes ts (get_or_create_stats m id)]> m.
Definition cm_record_heartbeat (id : list Z) (ts : Z) (m : stats_map_t) : stats_map_t := cm_update (ps_record_heartbeat ts) id m.

Definition mark_ping_sent (id : list Z) (ts : Z) (m : stats_map_t) : stats_map_t :=
  cm_update (λ '(PeerStats ls lr lh ct bs br ms mr st rc rtt _ _ _),
    PeerStats ls lr lh ct bs br ms mr st rc rtt ts ts true) id m.
Definition mark_pong_received (id : list Z) (ts : Z) (m : stats_map_t) : stats_map_t :=
  cm_update (λ s, ps_record_heartbeat ts (ps_update_rtt ts s)) id m.

Definition is_connected (m : stats_map_t) (id : list Z) : bool :=
  match m !! id with Some s => bool_decide (peer_state s = SLK_STATE_CONNECTED) | None => false end.
Definition get_state (m : stats_map_t) (id : list Z) : peer_state_t :=
  match m !! id with Some s => peer_state s | None => SLK_STATE_DISCONNECTED end.
Definition get_stats (m : stats_map_t) (id : list Z) : option peer_stats_t := m !! id.
Definition get_rtt (m : stats_map_t) (id : list Z) : Z := match m !! id with Some s => rtt_us s | None => 0 end.
Definition get_connected_peers (m : stats_map_t) : list (list Z) :=
  (filter (λ e : list Z * peer_stats_t, peer_state e.2 = SLK_STATE_CONNECTED) (map_to_list m)).*1.
Definition get_peer_count (m : stats_map_t) : Z :=
  Z.of_nat (length (filter (λ e : list Z * peer_stats_t, peer_state e.2 = SLK_STATE_CONNECTED) (map_to_list m))).

(** The condition as written, in [int64_t]. *)
Definition is_stale (timeout : Z) (s : peer_stats_t) : bool :=
  bool_decide (peer_state s = SLK_STATE_DISCONNECTED) && bool_decide (0 < last_heartbeat_time s)
  && bool_decide (timeout < s64 (timeout - last_heartbeat_time s)).
Definition cleanup_stale_peers (timeout : Z) (m : stats_map_t) : stats_map_t :=
  filter (λ e : list Z * peer_stats_t, is_stale timeout e.2 = false) m.
Definition remove_peer (id : list Z) (m : stats_map_t) : stats_map_t := delete id m.

(** ** Events (event_dispatcher.cpp) *)

Definition EVENT_PEER_CONNECTED : Z := 1.
Definition EVENT_PEER_DISCONNECTED : Z := 2.
Definition EVENT_PEER_RECONNECTING : Z := 3.
Definition EVENT_PEER_RECONNECTED : Z := 4.
Definition EVENT_PEER_HANDSHAKE_FAILED : Z := 5.

(** The callback, when there is one, with its event mask. *)
Record event_dispatcher_t := Dispatcher { ed_callback : option nat; ed_event_mask : Z }.
Definition dispatcher_new : event_dispatcher_t := Dispatcher None 0.
Definition register_callback (cb : option nat) (mask : Z) (d : event_dispatcher_t) : event_dispatcher_t := Dispatcher cb mask.
Definition unregister_callback (d : event_dispatcher_t) : event_dispatcher_t := Dispatcher None 0.
Definition is_event_enabled (d : event_dispatcher_t) (type : Z) : bool :=
  if decide (ed_event_mask d = 65535) then true else bool_decide (Z.land (ed_event_mask d) (Z.shiftl 1 type) ≠ 0).

(** [dispatch_event]: the callback that is called. *)
Definition dispatch_event (d : event_dispatcher_t) (type : Z) : option nat :=
  match ed_callback d with Some cb => if is_event_enabled d type then Some cb else None | None => None end.
Definition dispatcher_is_enabled (d : event_dispatcher_t) : bool := bool_decide (is_Some (ed_callback d)).
Definition get_event_mask (d : event_dispatcher_t) : Z := ed_event_mask d.

(** ** Heartbeats carry the time *)

Lemma shiftr_u64 z k : 0 ≤ k → k + 8 ≤ 64 → Z.land (Z.shiftr (u64 z) k) 255 = Z.land (Z.shiftr z k) 255.
Proof.
  intros Hk Hle. change 255 with (Z.ones 8). apply Z.bits_inj'. intros n Hn. rewrite !Z.land_spec, !Z.shiftr_spec by done.
  destruct (Z.ltb_spec n 8) as [Hlt|Hge]; [|by rewrite !Z.ones_spec_high, !andb_false_r by lia].
  unfold u64. by rewrite Z.mod_pow2_bits_low by lia.
Qed.

Lemma encode_timestamp_u64 ts : encode_timestamp ts = put_uint64 (u64 ts).
Proof.
  unfold encode_timestamp, put_uint64. rewrite !shiftr_u64 by lia. do 7 f_equal.
  pose proof (shiftr_u64 ts 0 ltac:(lia) ltac:(lia)) as H. rewrite !Z.shiftr_0_r in H. by rewrite H.
Qed.

Lemma s64_u64 z : - 2 ^ 63 ≤ z < 2 ^ 63 → s64 (u64 z) = z.
Proof. intros Hz. unfold s64, u64. rewrite Zplus_mod_idemp_l, Z.mod_small; lia. Qed.

Lemma decode_get buffer : decode_timestamp buffer = (v ← get_uint64 buffer; Done (s64 v)).
Proof.
  unfold decode_timestamp, get_uint64.
  do 8 (match goal with |- context [geti buffer ?i] => destruct (geti buffer i); [|done..]; rewrite !bind_Done end). done.
Qed.

Lemma decode_encode ts rest : - 2 ^ 63 ≤ ts < 2 ^ 63 → decode_timestamp (encode_timestamp ts ++ rest) = Done ts.
Proof.
  intros Hts. rewrite encode_timestamp_u64, decode_get, get_put_uint64 by apply u64_range. rewrite bind_Done. by rewrite s64_u64.
Qed.

Lemma create_heartbeat_spec prefix h ts :
  length prefix = 5%nat →
  ∃ m, create_heartbeat prefix h ts = Done (h, Some m) ∧ msg_bytes h m = Done (prefix ++ encode_timestamp ts) ∧ msg_size h m = Done 13
    ∧ msg_check m = true ∧ plain m.
Proof.
  intros Hl. unfold create_heartbeat. unfold msg_init_size. rewrite decide_True by (change max_vsm_size with 33; unfold HEARTBEAT_MSG_SIZE; lia).
  unfold msg_memcpy, overwrite. set (bs := prefix ++ encode_timestamp ts). assert (Hb : length bs = 13%nat) by (unfold bs; by rewrite length_app, Hl).
  simpl. rewrite decide_True by lia. simpl. eexists. split; [done|]. split; [|split; [done|split; [done|split; [done|by eexists]]]].
  change (u8 HEARTBEAT_MSG_SIZE) with 13. unfold msg_bytes. simpl. rewrite decide_True by (rewrite length_app, Hb; lia).
  f_equal. assert (E : take 13 (bs ++ drop (length bs) (replicate 33 0)) = bs) by (rewrite <- Hb; apply take_app_length). exact E.
Qed.

Lemma has_prefix_spec h m data prefix :
  msg_bytes h m = Done data → msg_size h m = Done 13 → has_prefix h m prefix = Done (bool_decide (take 5 data = prefix)).
Proof. intros Hb Hs. unfold has_prefix. rewrite Hs, bind_Done, decide_False, Hb by (unfold HEARTBEAT_MSG_SIZE; lia). done. Qed.

Lemma extract_timestamp_spec h m prefix ts :
  msg_bytes h m = Done (prefix ++ encode_timestamp ts) → msg_size h m = Done 13 → length prefix = 5%nat → - 2 ^ 63 ≤ ts < 2 ^ 63 →
  extract_timestamp h m = Done ts.
Proof.
  intros Hb Hs Hl Hts. unfold extract_timestamp. rewrite Hs, bind_Done, decide_False, Hb, bind_Done by (unfold HEARTBEAT_MSG_SIZE; lia).
  rewrite <- Hl, drop_app_length. rewrite <- (app_nil_r (encode_timestamp ts)). by apply decode_encode.
Qed.

(** A heartbeat is recognised and carries its time back.  For every 64-bit time,
    negative ones included, [create_ping] makes a message that is a ping and no pong
    and from which the time is extracted, and [create_pong] likewise; neither is
    mistaken for the other, and a message of less than 13 bytes is no heartbeat. *)
Lemma heartbeat_roundtrip h ts :
  - 2 ^ 63 ≤ ts < 2 ^ 63 →
  (∃ m, create_ping h ts = Done (h, Some m) ∧ hb_is_ping h m = Done true ∧ hb_is_pong h m = Done false ∧ is_heartbeat h m = Done true
     ∧ extract_ping_timestamp h m = Done ts ∧ extract_pong_timestamp h m = Done 0)
  ∧ (∃ m, create_pong h ts = Done (h, Some m) ∧ hb_is_ping h m = Done false ∧ hb_is_pong h m = Done true ∧ is_heartbeat h m = Done true
     ∧ extract_ping_timestamp h m = Done 0 ∧ extract_pong_timestamp h m = Done ts)
  ∧ (∀ m n, msg_size h m = Done n → n < 13 → is_heartbeat h m = Done false).
Proof.
  intros Hts. split; [|split].
  - destruct (create_heartbeat_spec PING_PREFIX h ts eq_refl) as (m & Hc & Hb & Hs & _). exists m.
    assert (Hp : hb_is_ping h m = Done true) by by (unfold hb_is_ping; rewrite (has_prefix_spec _ _ _ _ Hb Hs)).
    assert (Hq : hb_is_pong h m = Done false) by by (unfold hb_is_pong; rewrite (has_prefix_spec _ _ _ _ Hb Hs)).
    unfold is_heartbeat, extract_ping_timestamp, extract_pong_timestamp. rewrite Hp, Hq, !bind_Done.
    by rewrite (extract_timestamp_spec h m PING_PREFIX ts).
  - destruct (create_heartbeat_spec PONG_PREFIX h ts eq_refl) as (m & Hc & Hb & Hs & _). exists m.
    assert (Hp : hb_is_ping h m = Done false) by by (unfold hb_is_ping; rewrite (has_prefix_spec _ _ _ _ Hb Hs)).
    assert (Hq : hb_is_pong h m = Done true) by by (unfold hb_is_pong; rewrite (has_prefix_spec _ _ _ _ Hb Hs)).
    unfold is_heartbeat, extract_ping_timestamp, extract_pong_timestamp. rewrite Hp, Hq, !bind_Done.
    by rewrite (extract_timestamp_spec h m PONG_PREFIX ts).
  - intros m n Hn Hlt. assert (Hno : ∀ prefix, has_prefix h m prefix = Done false).
    { intros prefix. unfold has_prefix. by rewrite Hn, bind_Done, decide_True by (unfold HEARTBEAT_MSG_SIZE; lia). }
    unfold is_heartbeat, hb_is_ping, hb_is_pong. by rewrite !Hno.
Qed.

Lemma heartbeat_roundtrip_witness :
  ∃ m, create_ping (empty_heap (λ _, true)) (-1) = Done (empty_heap (λ _, true), Some m) ∧ extract_ping_timestamp (empty_heap (λ _, true)) m = Done (-1).
Proof.
  destruct (heartbeat_roundtrip (empty_heap (λ _, true)) (-1)) as [(m & Hc & _ & _ & _ & He & _) _]; [lia|]. exists m. split; [exact Hc|exact He].
Defined.

(** ** Round-trip times and stale peers *)

(** An operation on the table of statistics. *)
Inductive conn_op :=
| CConnected (id : list Z) (ts : Z) | CDisconnected (id : list Z) (ts : Z) | CReconnecting (id : list Z) (ts : Z)
| CSend (id : list Z) (bytes ts : Z) | CRecv (id : list Z) (bytes ts : Z) | CHeartbeat (id : list Z) (ts : Z)
| CPing (id : list Z) (ts : Z) | CPong (id : list Z) (ts : Z) | CCleanup (timeout : Z) | CRemove (id : list Z).

Definition conn_step (m : stats_map_t) (op : conn_op) : stats_map_t :=
  match op with
  | CConnected id ts => peer_connected id ts m
  | CDisconnected id ts => peer_disconnected id ts m
  | CReconnecting id ts => peer_reconnecting id ts m
  | CSend id bytes ts => cm_record_send id bytes ts m
  | CRecv id bytes ts => cm_record_recv id bytes ts m
  | CHeartbeat id ts => cm_record_heartbeat id ts m
  | CPing id ts => mark_ping_sent id ts m
  | CPong id ts => mark_pong_received id ts m
  | CCleanup timeout => cleanup_stale_peers timeout m
  | CRemove id => remove_peer id m
  end.

(** The operation leaves the ping of peer [id] outstanding. *)
Definition keeps_ping (id : list Z) (op : conn_op) : Prop :=
  match op with
  | CHeartbeat id' _ | CPing id' _ | CPong id' _ | CRemove id' => id' ≠ id
  | CCleanup timeout => 0 ≤ timeout < 2 ^ 63
  | _ => True
  end.

(** The time of an operation is 64-bit. *)
Definition op_time_ok (op : conn_op) : Prop :=
  match op with
  | CDisconnected _ ts | CReconnecting _ ts | CHeartbeat _ ts | CPong _ ts => - 2 ^ 63 ≤ ts < 2 ^ 63
  | _ => True
  end.

(** The times of a table are 64-bit. *)
Definition times_ok (m : stats_map_t) : Prop := ∀ id s, m !! id = Some s → - 2 ^ 63 ≤ last_heartbeat_time s < 2 ^ 63.

Lemma not_stale timeout s : 0 ≤ timeout < 2 ^ 63 → - 2 ^ 63 ≤ last_heartbeat_time s < 2 ^ 63 → is_stale timeout s = false.
Proof.
  intros Ht Hs. unfold is_stale. destruct (decide (0 < last_heartbeat_time s)) as [Hp|Hn].
  - rewrite (bool_decide_eq_false_2 (timeout < _)), !andb_false_r; [done|]. unfold s64. rewrite Z.mod_small; lia.
  - by rewrite (bool_decide_eq_false_2 (0 < _)), andb_false_r.
Qed.

(** Stale peers are never removed: whatever the timeout (not negative) and
    whatever the table, [cleanup_stale_peers] removes no entry: it compares the
    timeout less a positive time with the timeout, instead of the time that passed. *)
Lemma cleanup_removes_nothing timeout m :
  0 ≤ timeout < 2 ^ 63 → times_ok m → cleanup_stale_peers timeout m = m.
Proof.
  intros Ht Hm. unfold cleanup_stale_peers. apply map_filter_id. intros id s Hs. simpl. apply not_stale; [done|]. by apply (Hm id).
Qed.

(** A peer that left an hour ago, and a timeout of a second. *)
Lemma cleanup_removes_nothing_witness :
  let m : stats_map_t := {[ [65] := PeerStats 0 0 1 0 0 0 0 0 SLK_STATE_DISCONNECTED 0 0 0 0 false ]} in
  cleanup_stale_peers 1000000 m = m.
Proof.
  apply (cleanup_removes_nothing 1000000); [lia|]. intros id s [_ <-]%lookup_singleton_Some. simpl. lia.
Defined.

Lemma cm_update_lookup f id m id' :
  cm_update f id m !! id' = if decide (id' = id) then f <$> m !! id else m !! id'.
Proof.
  unfold cm_update. destruct (decide (id' = id)) as [->|Hne]; destruct (m !! id) as [s|] eqn:E; simpl; [|done| |done].
  - by rewrite lookup_insert_eq.
  - by rewrite lookup_insert_ne.
Qed.

(** A ping of the time [t0] waits for its pong. *)
Definition waiting (m : stats_map_t) (id : list Z) (t0 : Z) : Prop :=
  ∃ s, m !! id = Some s ∧ ping_outstanding s = true ∧ ping_timestamp s = t0.

Lemma conn_step_times m op : times_ok m → op_time_ok op → times_ok (conn_step m op).
Proof.
  intros Hm Hop id' s'. destruct op as [id ts|id ts|id ts|id b ts|id b ts|id ts|id ts|id ts|timeout|id]; simpl in *.
  - unfold peer_connected, get_or_create_stats. destruct (m !! id) as [s|] eqn:E; simpl.
    + destruct s eqn:Es. intros [[<- <-]|[_ H]]%lookup_insert_Some; [simpl; by apply (Hm id) in E|by apply (Hm id')].
    + intros [[<- <-]|[_ H]]%lookup_insert_Some; [simpl; lia|by apply (Hm id')].
  - unfold peer_disconnected. rewrite cm_update_lookup. case_decide; [|by apply Hm]. intros ([] & _ & ->)%fmap_Some. done.
  - unfold peer_reconnecting. rewrite cm_update_lookup. case_decide; [|by apply Hm]. intros ([] & _ & ->)%fmap_Some. done.
  - unfold cm_record_send, get_or_create_stats. intros [[<- <-]|[_ H]]%lookup_insert_Some; [|by apply (Hm id')].
    destruct (m !! id) as [s|] eqn:E; simpl; [|lia]. apply (Hm id) in E. by destruct s.
  - unfold cm_record_recv, get_or_create_stats. intros [[<- <-]|[_ H]]%lookup_insert_Some; [|by apply (Hm id')].
    destruct (m !! id) as [s|] eqn:E; simpl; [|lia]. apply (Hm id) in E. by destruct s.
  - unfold cm_record_heartbeat. rewrite cm_update_lookup. case_decide; [|by apply Hm]. intros ([] & _ & ->)%fmap_Some. done.
  - unfold mark_ping_sent. rewrite cm_update_lookup. case_decide; [|by apply Hm]. intros (s & Hs & ->)%fmap_Some. apply (Hm id) in Hs. by destruct s.
  - unfold mark_pong_received. rewrite cm_update_lookup. case_decide; [|by apply Hm]. intros ([] & _ & ->)%fmap_Some. simpl.
    by destruct (_ && _).
  - unfold cleanup_stale_peers. intros [H _]%map_lookup_filter_Some. by apply (Hm id').
  - unfold remove_peer. intros [_ H]%lookup_delete_Some. by apply (Hm id').
Qed.

Lemma conn_step_waiting m op id t0 : times_ok m → keeps_ping id op → waiting m id t0 → waiting (conn_step m op) id t0.
Proof.
  intros Hm Hk (s & Hs & Ho & Ht). destruct op as [i ts|i ts|i ts|i b ts|i b ts|i ts|i ts|i ts|timeout|i]; simpl in *; unfold waiting.
  - unfold peer_connected, get_or_create_stats. destruct (decide (i = id)) as [->|Hne].
    + rewrite Hs. simpl. destruct s. rewrite lookup_insert_eq. by eexists.
    + destruct (default peer_stats_new (m !! i)). exists s. by rewrite lookup_insert_ne.
  - unfold peer_disconnected. rewrite cm_update_lookup. destruct (decide (id = i)) as [<-|Hne]; [|by exists s].
    rewrite Hs. simpl. destruct s. by eexists.
  - unfold peer_reconnecting. rewrite cm_update_lookup. destruct (decide (id = i)) as [<-|Hne]; [|by exists s].
    rewrite Hs. simpl. destruct s. by eexists.
  - unfold cm_record_send, get_or_create_stats. destruct (decide (i = id)) as [->|Hne].
    + rewrite Hs, lookup_insert_eq. simpl. destruct s. by eexists.
    + exists s. by rewrite lookup_insert_ne.
  - unfold cm_record_recv, get_or_create_stats. destruct (decide (i = id)) as [->|Hne].
    + rewrite Hs, lookup_insert_eq. simpl. destruct s. by eexists.
    + exists s. by rewrite lookup_insert_ne.
  - unfold cm_record_heartbeat. rewrite cm_update_lookup, decide_False by done. by exists s.
  - unfold mark_ping_sent. rewrite cm_update_lookup, decide_False by done. by exists s.
  - unfold mark_pong_received. rewrite cm_update_lookup, decide_False by done. by exists s.
  - exists s. split; [|done]. apply map_lookup_filter_Some. split; [done|]. simpl. apply not_stale; [done|]. by apply (Hm id).
  - exists s. split; [|done]. unfold remove_peer. by rewrite lookup_delete_ne.
Qed.

(** The round-trip time is that of the outstanding ping.  After a ping to a known
    peer at a positive time, through any operations that concern other peers, traffic,
    or changes of the connection, the pong sets the round-trip time to the difference
    of the two times (as an [int]) and the ping is no longer outstanding. *)
Lemma rtt_measures_ping m id t0 t1 ops :
  times_ok m → is_Some (m !! id) → 0 < t0 → Forall (keeps_ping id) ops → Forall op_time_ok ops →
  let m' := mark_pong_received id t1 (foldl conn_step (mark_ping_sent id t0 m) ops) in
  get_rtt m' id = s32 (t1 - t0) ∧ ∃ s, m' !! id = Some s ∧ ping_outstanding s = false ∧ last_heartbeat_time s = t1.
Proof.
  intros Hm [s Hs] Ht0 Hk Ht. assert (Hw : waiting (mark_ping_sent id t0 m) id t0).
  { unfold mark_ping_sent, waiting. rewrite cm_update_lookup, decide_True, Hs by done. simpl. destruct s. by eexists. }
  assert (Hm1 : times_ok (mark_ping_sent id t0 m)) by (apply (conn_step_times m (CPing id t0)); done).
  revert Hw Hm1. generalize (mark_ping_sent id t0 m) as m1. clear Hm Hs s. induction Hk as [|op ops Hop Hk IH]; intros m1 Hw Hm1.
  - cbn [foldl]. destruct Hw as (s & Hs & Ho & Hp). unfold mark_pong_received, get_rtt. rewrite cm_update_lookup, decide_True, Hs by done. simpl.
    destruct s as [? ? ? ? ? ? ? ? ? ? ? ? pt po]. simpl in *. subst. rewrite bool_decide_eq_true_2 by done. simpl. split; [done|]. by eexists.
  - inversion Ht; subst. cbn [foldl]. apply IH; [done|by apply conn_step_waiting|by apply conn_step_times].
Qed.

Lemma rtt_measures_ping_witness :
  get_rtt (mark_pong_received [65] 1250 (foldl conn_step (mark_ping_sent [65] 1000 (peer_connected [65] 1 ∅)) [CSend [65] 10 1100; CPong [66] 1200; CCleanup 5])) [65] = 250.
Proof.
  destruct (rtt_measures_ping (peer_connected [65] 1 ∅) [65] 1000 1250 [CSend [65] 10 1100; CPong [66] 1200; CCleanup 5]) as [H _].
  - apply (conn_step_times ∅ (CConnected [65] 1)); [|done]. by intros id s.
  - vm_compute. eauto.
  - lia.
  - do 3 (apply Forall_cons; split; [simpl; first [done|lia]|]). constructor.
  - do 3 (apply Forall_cons; split; [simpl; first [done|lia]|]). constructor.
  - exact H.
Defined.
