(* ===== verification/Options.v ===== *)
(** The options of a socket (src/core/options.cpp, options.hpp).

    An option value is the bytes at [optval_], [None] for NULL with length zero.  The
    [int] members that an option reads and writes as such are the function [o_int] of
    their names; the other members that an option reads or writes have fields of their
    own, the rest (raw_socket, connected, zero_copy and the like) are left out. *)
From S2P Require Import Prelude Msg PipeArray Dist Fq Sockets Monitor.

(** ** Members *)

Inductive int_member :=
| sndhwm | rcvhwm | sndbuf | rcvbuf | tos | priority | linger | connect_timeout | tcp_maxrt | reconnect_stop
| reconnect_ivl | reconnect_ivl_max | backlog | rcvtimeo | sndtimeo | immediate | tcp_keepalive | tcp_keepalive_cnt
| tcp_keepalive_idle | tcp_keepalive_intvl | handshake_ivl | heartbeat_interval | heartbeat_timeout | use_fd
| in_batch_size | out_batch_size | router_notify | busy_poll.

#[export] Instance int_member_eq_dec : EqDecision int_member.
Proof. solve_decision. Defined.

Record options_t := Options {
  o_int : int_member → Z;
  o_affinity : Z;
  o_routing_id : list Z;          (* routing_id, the first routing_id_size bytes *)
  o_type : Z;
  o_maxmsgsize : Z;
  o_ipv6 : bool;
  o_heartbeat_ttl : Z;            (* in deciseconds *)
  o_bound_device : list Z;
  o_loopback_fastpath : bool;
  o_app_metadata : gmap (list Z) (list Z);
  o_hello_msg : list Z;
  o_disconnect_msg : list Z;
  o_hiccup_msg : list Z;
}.

Definition default_hwm : Z := 1000.

Definition int_default (x : int_member) : Z :=
  match x with
  | sndhwm | rcvhwm => default_hwm
  | sndbuf | rcvbuf | linger | rcvtimeo | sndtimeo | tcp_keepalive | tcp_keepalive_cnt | tcp_keepalive_idle
  | tcp_keepalive_intvl | heartbeat_timeout | use_fd => -1
  | reconnect_ivl | backlog => 100
  | handshake_ivl => 30000
  | in_batch_size | out_batch_size => 8192
  | tos | priority | connect_timeout | tcp_maxrt | reconnect_stop | reconnect_ivl_max | immediate
  | heartbeat_interval | router_notify | busy_poll => 0
  end.

Definition options_new : options_t := Options int_default 0 [] (-1) (-1) false 0 [] false ∅ [] [] [].

Definition o_set_int (x : int_member) (v : Z) (o : options_t) : options_t :=
  Options (λ y, if decide (y = x) then v else o_int o y) (o_affinity o) (o_routing_id o) (o_type o) (o_maxmsgsize o) (o_ipv6 o)
    (o_heartbeat_ttl o) (o_bound_device o) (o_loopback_fastpath o) (o_app_metadata o) (o_hello_msg o) (o_disconnect_msg o) (o_hiccup_msg o).

(** ** Option numbers (src/util/constants.hpp) *)

Definition SL_AFFINITY : Z := 4.
Definition SL_ROUTING_ID : Z := 5.
Definition SL_TYPE : Z := 16.
Definition SL_MAXMSGSIZE : Z := 22.
Definition SL_IPV6 : Z := 42.
Definition SL_HEARTBEAT_TTL : Z := 76.
Definition SL_BINDTODEVICE : Z := 92.
Definition SL_LOOPBACK_FASTPATH : Z := 94.
Definition SL_METADATA : Z := 95.
Definition SL_HELLO_MSG : Z := 110.
Definition SL_DISCONNECT_MSG : Z := 111.
Definition SL_HICCUP_MSG : Z := 114.

(** The options that are one [int] member. *)
Definition int_option (opt : Z) : option int_member :=
  match opt with
  | 23 => Some sndhwm | 24 => Some rcvhwm | 11 => Some sndbuf | 12 => Some rcvbuf | 57 => Some tos | 17 => Some linger
  | 79 => Some connect_timeout | 80 => Some tcp_maxrt | 81 => Some reconnect_stop | 18 => Some reconnect_ivl
  | 21 => Some reconnect_ivl_max | 19 => Some backlog | 27 => Some rcvtimeo | 28 => Some sndtimeo | 34 => Some tcp_keepalive
  | 35 => Some tcp_keepalive_cnt | 36 => Some tcp_keepalive_idle | 37 => Some tcp_keepalive_intvl | 39 => Some immediate
  | 66 => Some handshake_ivl | 75 => Some heartbeat_interval | 77 => Some heartbeat_timeout | 89 => Some use_fd
  | 101 => Some in_batch_size | 102 => Some out_batch_size | 103 => Some busy_poll | 112 => Some priority | 97 => Some router_notify
  | _ => None
  end.

(** The values that the option accepts. *)
Definition int_accepts (x : int_member) (v : Z) : bool :=
  match x with
  | sndhwm | rcvhwm | tos | connect_timeout | tcp_maxrt | reconnect_ivl_max | backlog | handshake_ivl | heartbeat_interval
  | heartbeat_timeout | priority => bool_decide (0 ≤ v)
  | sndbuf | rcvbuf | linger | reconnect_ivl | rcvtimeo | sndtimeo | use_fd => bool_decide (-1 ≤ v)
  | tcp_keepalive => bool_decide (v = -1 ∨ v = 0 ∨ v = 1)
  | tcp_keepalive_cnt | tcp_keepalive_idle | tcp_keepalive_intvl => bool_decide (v = -1 ∨ 0 ≤ v)
  | immediate => bool_decide (v = 0 ∨ v = 1)
  | in_batch_size | out_batch_size => bool_decide (0 < v)
  | reconnect_stop | busy_poll | router_notify => true
  end.

(** ** Values in memory *)

(** Eight bytes, the low one first. *)
Definition int64_bytes (v : Z) : list Z := (λ k, (v / 2 ^ (8 * Z.of_nat k)) `mod` 256) <$> seq 0 8.
Definition opt_u64 (val : list Z) : option Z :=
  if decide (length val = 8%nat) then Some (foldr (λ b acc, b + 256 * acc) 0 val) else None.

Definition BINDDEVSIZ : Z := 16.
Definition UCHAR_MAX_len : Z := 255.

(** The bytes and [optval_ == NULL && optvallen_ == 0]. *)
Definition opt_bytes (val : option (list Z)) : list Z := default [] val.

(** [do_setsockopt_string_allow_empty_strict] *)
Definition set_string (val : option (list Z)) (max_len : Z) : option (list Z) :=
  match val with
  | None => Some []
  | Some l => if decide (l ≠ [] ∧ Z.of_nat (length l) ≤ max_len) then Some l else None
  end.

(** [do_setsockopt_int_as_bool_strict] and [_relaxed] *)
Definition set_bool_strict (val : list Z) : option bool :=
  match opt_int val with Some v => if decide (v = 0 ∨ v = 1) then Some (bool_decide (v ≠ 0)) else None | None => None end.
Definition set_bool_relaxed (val : list Z) : option bool :=
  match opt_int val with Some v => Some (bool_decide (v ≠ 0)) | None => None end.

(** A property X-key:value of [SL_METADATA], split at the first colon. *)
Definition parse_metadata (s : list Z) : option (list Z * list Z) :=
  if decide (s = [] ∨ length s = 4%nat) then None
  else
    match list_find (λ c, c = 58) s with
    | Some (pos, _) =>
        if decide (pos ≠ 0%nat ∧ pos ≠ (length s - 1)%nat) then
          let key := take pos s in
          if decide (take 2 key = [88; 45] ∧ Z.of_nat (length key) ≤ UCHAR_MAX_len) then Some (key, drop (S pos) s) else None
        else None
    | None => None
    end.

(** ** setsockopt *)

(** A change of the options, or [EINVAL]. *)
Definition accept {A} (r : option A) (f : A → options_t) (o : options_t) : options_t * rc_t :=
  match r with Some a => (f a, RcOk) | None => (o, RcErr EINVAL) end.

Definition options_setsockopt (o : options_t) (opt : Z) (val : option (list Z)) : options_t * rc_t :=
  let '(Options ints aff rid ty maxm ipv6 ttl dev fast meta hello disc hicc) := o in
  let bytes := opt_bytes val in
  match int_option opt with
  | Some x =>
      accept (match opt_int bytes with Some v => if int_accepts x v then Some v else None | None => None end)
        (λ v, o_set_int x v o) o
  | None =>
      if decide (opt = SL_AFFINITY) then accept (opt_u64 bytes) (λ v, Options ints v rid ty maxm ipv6 ttl dev fast meta hello disc hicc) o
      else if decide (opt = SL_ROUTING_ID) then
        accept (if decide (bytes ≠ [] ∧ Z.of_nat (length bytes) ≤ UCHAR_MAX_len) then Some bytes else None)
          (λ v, Options ints aff v ty maxm ipv6 ttl dev fast meta hello disc hicc) o
      else if decide (opt = SL_MAXMSGSIZE) then
        accept (opt_u64 bytes) (λ v, Options ints aff rid ty (s64 v) ipv6 ttl dev fast meta hello disc hicc) o
      else if decide (opt = SL_IPV6) then
        accept (set_bool_strict bytes) (λ v, Options ints aff rid ty maxm v ttl dev fast meta hello disc hicc) o
      else if decide (opt = SL_HEARTBEAT_TTL) then
        accept (match opt_int bytes with
                | Some v => if decide (0 ≤ Z.quot v 100 ≤ 65535) then Some (Z.quot v 100) else None
                | None => None
                end)
          (λ v, Options ints aff rid ty maxm ipv6 v dev fast meta hello disc hicc) o
      else if decide (opt = SL_BINDTODEVICE) then
        accept (set_string val BINDDEVSIZ) (λ v, Options ints aff rid ty maxm ipv6 ttl v fast meta hello disc hicc) o
      else if decide (opt = SL_LOOPBACK_FASTPATH) then
        accept (set_bool_relaxed bytes) (λ v, Options ints aff rid ty maxm ipv6 ttl dev v meta hello disc hicc) o
      else if decide (opt = SL_METADATA) then
        accept (parse_metadata bytes)
          (λ '(k, v), Options ints aff rid ty maxm ipv6 ttl dev fast (if decide (meta !! k = None) then <[k := v]> meta else meta) hello disc hicc) o
      else if decide (opt = SL_HELLO_MSG) then (Options ints aff rid ty maxm ipv6 ttl dev fast meta bytes disc hicc, RcOk)
      else if decide (opt = SL_DISCONNECT_MSG) then (Options ints aff rid ty maxm ipv6 ttl dev fast meta hello bytes hicc, RcOk)
      else if decide (opt = SL_HICCUP_MSG) then (Options ints aff rid ty maxm ipv6 ttl dev fast meta hello disc bytes, RcOk)
      else (o, RcErr EINVAL)
  end.

(** ** getsockopt *)

(** The bytes at [optval_] and the length at [optvallen_] afterwards. *)
Inductive get_result := GetOk (bytes : list Z) (len : Z) | GetErr (e : errno_t).

(** [do_getsockopt (optval_, optvallen_, value_, value_len_)] *)
Definition get_bytes (len : Z) (value : list Z) : get_result :=
  if decide (len < Z.of_nat (length value)) then GetErr EINVAL
  else GetOk (value ++ replicate (Z.to_nat (len - Z.of_nat (length value))) 0) (Z.of_nat (length value)).

Definition get_exact (len : Z) (value : list Z) : get_result :=
  if decide (len = Z.of_nat (length value)) then GetOk value len else GetErr EINVAL.

Definition bool_int (b : bool) : Z := if b then 1 else 0.

Definition options_getsockopt (o : options_t) (opt len : Z) : get_result :=
  match int_option opt with
  | Some x => get_exact len (int_bytes (o_int o x))
  | None =>
      if decide (opt = SL_AFFINITY) then get_exact len (int64_bytes (o_affinity o))
      else if decide (opt = SL_ROUTING_ID) then get_bytes len (o_routing_id o)
      else if decide (opt = SL_TYPE) then get_exact len (int_bytes (o_type o))
      else if decide (opt = SL_MAXMSGSIZE) then get_exact len (int64_bytes (o_maxmsgsize o))
      else if decide (opt = SL_IPV6) then get_exact len (int_bytes (bool_int (o_ipv6 o)))
      else if decide (opt = SL_HEARTBEAT_TTL) then get_exact len (int_bytes (o_heartbeat_ttl o * 100))
      else if decide (opt = SL_BINDTODEVICE) then get_bytes len (o_bound_device o ++ [0])
      else if decide (opt = SL_LOOPBACK_FASTPATH) then get_exact len (int_bytes (bool_int (o_loopback_fastpath o)))
      else GetErr EINVAL
  end.

(** ** Lemmas *)

Lemma s32_cases z : 0 ≤ z < 2 ^ 32 → s32 z = z ∧ z < 2 ^ 31 ∨ s32 z = z - 2 ^ 32 ∧ 2 ^ 31 ≤ z.
Proof.
  intros Hz. unfold s32. destruct (decide (z < 2 ^ 31)); [left|right].
  - rewrite Z.mod_small; lia.
  - rewrite <- (Z.mod_unique (z + 2 ^ 31) (2 ^ 32) 1 (z - 2 ^ 31)); lia.
Qed.

Lemma int_bytes_digits a b c d k :
  is_byte a → is_byte b → is_byte c → is_byte d →
  int_bytes (a + 256 * b + 65536 * c + 16777216 * d + 2 ^ 32 * k) = [a; b; c; d].
Proof.
  unfold is_byte, int_bytes. intros. set (v := _ + _).
  assert (E1 : v / 256 = b + 256 * c + 65536 * d + 16777216 * k) by (symmetry; apply (Z.div_unique _ _ _ a); lia).
  assert (E2 : v / 65536 = c + 256 * d + 65536 * k) by (symmetry; apply (Z.div_unique _ _ _ (a + 256 * b)); lia).
  assert (E3 : v / 16777216 = d + 256 * k) by (symmetry; apply (Z.div_unique _ _ _ (a + 256 * b + 65536 * c)); lia).
  rewrite E1, E2, E3. repeat f_equal; symmetry;
    [apply (Z.mod_unique _ _ (b + 256 * c + 65536 * d + 16777216 * k))|apply (Z.mod_unique _ _ (c + 256 * d + 65536 * k))
    |apply (Z.mod_unique _ _ (d + 256 * k))|apply (Z.mod_unique _ _ k)]; lia.
Qed.

Lemma opt_int_inv val v : bytes_ok val → opt_int val = Some v → int_bytes v = val ∧ - 2 ^ 31 ≤ v < 2 ^ 31.
Proof.
  intros Hb. destruct val as [|a [|b [|c [|d [|]]]]]; try done. intros [= <-].
  rewrite !Forall_cons in Hb. destruct Hb as (Ha & Hb & Hc & Hd & _).
  destruct (s32_cases (a + 256 * b + 65536 * c + 16777216 * d)) as [[-> ?]|[-> ?]]; unfold is_byte in *.
  - lia.
  - split; [|lia]. rewrite <- (int_bytes_digits a b c d 0) by done. f_equal; lia.
  - split; [|lia]. rewrite <- (int_bytes_digits a b c d (-1)) by done. f_equal; lia.
Qed.

Lemma digits_S n x : ((λ k, (x / 2 ^ (8 * Z.of_nat k)) `mod` 256) <$> seq 0 (S n)) =
  x `mod` 256 :: ((λ k, (x / 256 / 2 ^ (8 * Z.of_nat k)) `mod` 256) <$> seq 0 n).
Proof.
  rewrite <- cons_seq, fmap_cons. f_equal; [by rewrite Z.div_1_r|].
  rewrite <- fmap_S_seq, <- list_fmap_compose. apply list_fmap_ext. intros ? k ?. simpl.
  rewrite Z.div_div by lia. do 2 f_equal. replace (8 * Z.of_nat (S k)) with (8 + 8 * Z.of_nat k) by lia.
  by rewrite Z.pow_add_r by lia.
Qed.

Lemma digits_mod n x y : x `mod` 2 ^ (8 * Z.of_nat n) = y `mod` 2 ^ (8 * Z.of_nat n) →
  ((λ k, (x / 2 ^ (8 * Z.of_nat k)) `mod` 256) <$> seq 0 n) = ((λ k, (y / 2 ^ (8 * Z.of_nat k)) `mod` 256) <$> seq 0 n).
Proof.
  revert x y. induction n as [|n IH]; intros x y E; [done|]. rewrite !digits_S.
  replace (8 * Z.of_nat (S n)) with (8 + 8 * Z.of_nat n) in E by lia.
  rewrite Z.pow_add_r, !Z.rem_mul_r in E by lia. change (2 ^ 8) with 256 in E.
  pose proof (Z.mod_pos_bound x 256). pose proof (Z.mod_pos_bound y 256).
  assert (x `mod` 256 = y `mod` 256) as -> by lia. f_equal. apply IH. lia.
Qed.

Lemma digits_val val : bytes_ok val →
  ((λ k, (foldr (λ b acc, b + 256 * acc) 0 val / 2 ^ (8 * Z.of_nat k)) `mod` 256) <$> seq 0 (length val)) = val.
Proof.
  induction val as [|b val IH]; [done|]. intros [Hb Hv]%Forall_cons. cbn [length foldr]. rewrite digits_S.
  unfold is_byte in Hb. set (acc := foldr _ _ _) in *.
  rewrite <- (Z.mod_unique (b + 256 * acc) 256 acc b), <- (Z.div_unique (b + 256 * acc) 256 acc b) by lia. f_equal. by apply IH.
Qed.

Lemma opt_u64_inv val v : bytes_ok val → opt_u64 val = Some v → int64_bytes v = val ∧ 0 ≤ v < 2 ^ 64.
Proof.
  unfold opt_u64, int64_bytes. intros Hb. case_decide as Hl; [|done]. intros [= <-]. split.
  - rewrite <- Hl. by apply digits_val.
  - replace (2 ^ 64) with (256 ^ Z.of_nat (length val)) by (by rewrite Hl). clear Hl.
    induction val as [|b val IH]; [done|]. apply Forall_cons in Hb as [Hb Hv]. specialize (IH Hv). unfold is_byte in Hb.
    cbn [length foldr]. rewrite Nat2Z.inj_succ, Z.pow_succ_r by lia. lia.
Qed.

Lemma int64_bytes_s64 v : int64_bytes (s64 v) = int64_bytes v.
Proof.
  apply digits_mod. change (8 * Z.of_nat 8) with 64. unfold s64. rewrite Zminus_mod, Z.mod_mod, <- Zminus_mod by lia. f_equal. lia.
Qed.

(** The option of an [int] member. *)
Definition option_of (x : int_member) : Z :=
  match x with
  | sndhwm => 23 | rcvhwm => 24 | sndbuf => 11 | rcvbuf => 12 | tos => 57 | linger => 17 | connect_timeout => 79 | tcp_maxrt => 80
  | reconnect_stop => 81 | reconnect_ivl => 18 | reconnect_ivl_max => 21 | backlog => 19 | rcvtimeo => 27 | sndtimeo => 28
  | tcp_keepalive => 34 | tcp_keepalive_cnt => 35 | tcp_keepalive_idle => 36 | tcp_keepalive_intvl => 37 | immediate => 39
  | handshake_ivl => 66 | heartbeat_interval => 75 | heartbeat_timeout => 77 | use_fd => 89 | in_batch_size => 101
  | out_batch_size => 102 | busy_poll => 103 | priority => 112 | router_notify => 97
  end.

Lemma int_option_inv opt x : int_option opt = Some x → opt = option_of x.
Proof. unfold int_option. intros H. repeat case_match; simplify_eq; done. Qed.

(** ** The types of the members *)

Definition int_typed (x : int_member) (v : Z) : Prop :=
  - 2 ^ 31 ≤ v < 2 ^ 31 ∧
  match x with
  | sndhwm | rcvhwm | tos | connect_timeout | tcp_maxrt | reconnect_ivl_max | backlog | handshake_ivl | heartbeat_interval | priority => 0 ≤ v
  | sndbuf | rcvbuf | linger | reconnect_ivl | rcvtimeo | sndtimeo | use_fd | heartbeat_timeout
  | tcp_keepalive_cnt | tcp_keepalive_idle | tcp_keepalive_intvl => -1 ≤ v
  | tcp_keepalive => -1 ≤ v ≤ 1
  | immediate => v = 0 ∨ v = 1
  | in_batch_size | out_batch_size => 1 ≤ v
  | reconnect_stop | busy_poll | router_notify => True
  end.

(** A key of the metadata starts with X- and fits the length byte of a property; it has no colon, and its value is not empty. *)
Definition metadata_typed (m : gmap (list Z) (list Z)) : Prop :=
  map_Forall (λ k v, take 2 k = [88; 45] ∧ Z.of_nat (length k) ≤ 255 ∧ 58 ∉ k ∧ v ≠ []) m.

Record options_typed (o : options_t) : Prop := {
  ot_int x : int_typed x (o_int o x);
  ot_affinity : 0 ≤ o_affinity o < 2 ^ 64;
  ot_routing_id : Z.of_nat (length (o_routing_id o)) ≤ 255;
  ot_maxmsgsize : - 2 ^ 63 ≤ o_maxmsgsize o < 2 ^ 63;
  ot_heartbeat_ttl : 0 ≤ o_heartbeat_ttl o < 2 ^ 16;
  ot_device : Z.of_nat (length (o_bound_device o)) ≤ 16;
  ot_metadata : metadata_typed (o_app_metadata o);
}.

Lemma options_new_typed : options_typed options_new.
Proof. split; try (simpl; lia); [|done]. intros []; split; simpl; auto; unfold default_hwm; lia. Qed.

Lemma int_accepts_typed x v : - 2 ^ 31 ≤ v < 2 ^ 31 → int_accepts x v = true → int_typed x v.
Proof. intros Hv. destruct x; simpl; rewrite ?bool_decide_eq_true; intros H; split; auto; simpl; lia. Qed.

Lemma parse_metadata_inv s k v : parse_metadata s = Some (k, v) →
  take 2 k = [88; 45] ∧ Z.of_nat (length k) ≤ 255 ∧ 58 ∉ k ∧ v ≠ [] ∧ s = k ++ 58 :: v.
Proof.
  unfold parse_metadata. case_decide; [done|]. destruct (list_find _ s) as [[pos c]|] eqn:E; [|done].
  apply list_find_Some in E as (Hs & -> & Hmin). case_decide as Hp; [|done]. case_decide as Hk; [|done]. intros [= <- <-].
  pose proof (lookup_lt_Some _ _ _ Hs) as Hl. split_and!; [apply Hk|apply Hk| | |by rewrite take_drop_middle].
  - intros [j [Hj Hlt]%lookup_take_Some]%list_elem_of_lookup. by eapply Hmin.
  - intros E%(f_equal length). rewrite length_drop in E. simpl in E. lia.
Qed.

Lemma set_string_inv val n v : set_string val n = Some v → v = opt_bytes val ∧ (0 ≤ n → Z.of_nat (length v) ≤ n).
Proof. destruct val as [l|]; simpl; [case_decide; [|done]; intros [= <-]; naive_solver|]. intros [= <-]. done. Qed.

Lemma s64_range z : - 2 ^ 63 ≤ s64 z < 2 ^ 63.
Proof. unfold s64. pose proof (Z.mod_pos_bound (z + 2 ^ 63) (2 ^ 64)). lia. Qed.

Lemma accept_Ok {A} (r : option A) f o o' : accept r f o = (o', RcOk) → ∃ a, r = Some a ∧ o' = f a.
Proof. destruct r; simpl; intros [= <-]; eauto. Qed.

Lemma accept_Err {A} (r : option A) f o o' e : accept r f o = (o', RcErr e) → o' = o ∧ e = EINVAL.
Proof. by destruct r; simpl; intros [= <- <-]. Qed.

Ltac setsockopt_cases :=
  repeat match goal with
  | H : accept _ _ _ = (_, RcOk) |- _ => apply accept_Ok in H as (? & ? & ->)
  | H : accept _ _ _ = (_, RcErr _) |- _ => apply accept_Err in H as (-> & ->)
  | H : (if decide _ then _ else _) = _ |- _ => case_decide; subst
  | H : match opt_int ?l with _ => _ end = Some _ |- _ => destruct (opt_int l) eqn:?; simplify_eq
  | H : (if int_accepts ?x ?v then _ else _) = Some _ |- _ => destruct (int_accepts x v) eqn:?; simplify_eq
  end.

Lemma set_bool_strict_inv val b : bytes_ok val → set_bool_strict val = Some b → val = int_bytes (bool_int b).
Proof.
  unfold set_bool_strict. intros Hb. destruct (opt_int val) as [v|] eqn:E; [|done]. apply opt_int_inv in E as [<- _]; [|done].
  case_decide as Hv; [|done]. intros [= <-]. by destruct Hv as [-> | ->].
Qed.

Lemma setsockopt_typed o opt val o' rc :
  bytes_ok (opt_bytes val) → options_typed o → options_setsockopt o opt val = (o', rc) → options_typed o'.
Proof.
  intros Hb Ho. destruct rc as [|e].
  2: { destruct o. unfold options_setsockopt. destruct (int_option opt); intros H; setsockopt_cases; simplify_eq; done. }
  destruct Ho. destruct o. unfold options_setsockopt. destruct (int_option opt) as [x|]; intros H; setsockopt_cases; simplify_eq.
  all: repeat match goal with H : opt_int _ = Some _ |- _ => apply opt_int_inv in H as [? ?]; [|done] end.
  all: repeat match goal with H : opt_u64 _ = Some _ |- _ => apply opt_u64_inv in H as [? ?]; [|done] end.
  all: repeat match goal with H : set_string _ _ = Some _ |- _ => apply set_string_inv in H as [-> ?] end.
  all: repeat match goal with x : list Z * list Z |- _ => destruct x end.
  all: unfold UCHAR_MAX_len, BINDDEVSIZ in *; split; simpl in *; auto using s64_range; try lia.
  - intros y. case_decide; [subst; by apply int_accepts_typed|auto].
  - case_decide; [|done]. apply map_Forall_insert_2; [|done].
    match goal with H : parse_metadata _ = Some _ |- _ => apply parse_metadata_inv in H end. naive_solver.
Qed.

(** ** Properties *)

(** The options after a sequence of calls, failed ones included. *)
Definition options_run (calls : list (Z * option (list Z))) : options_t :=
  foldl (λ o '(opt, val), fst (options_setsockopt o opt val)) options_new calls.

(** C40: every member of the options has its range, initially and after any sequence of calls of setsockopt with any options and byte values, failed calls
    included: the high-water marks, the backlog, the type of service, the priority, the connect timeout, the maximal retransmission time, the maximal reconnect interval
    and the intervals of handshake and heartbeat are not negative; the reconnect interval, the timeouts of sending, receiving and heartbeat, the buffer sizes, the linger period, the
    descriptor to use and the count, idle time and interval of the TCP keepalive are at least -1, and TCP keepalive itself is -1, 0 or 1; batch sizes are
    positive, the routing id has at most 255 bytes, the heartbeat TTL is an unsigned 16-bit number, and every metadata key starts with X-, has at most
    255 bytes and no colon, and a value that is not empty. *)
Theorem options_well_typed calls :
  Forall (λ c, bytes_ok (opt_bytes c.2)) calls → options_typed (options_run calls).
Proof.
  unfold options_run. generalize options_new_typed. generalize options_new as o.
  induction calls as [|[opt val] calls IH]; intros o Ho [Hb Hc]%Forall_cons || intros o Ho _; [done|].
  simpl. destruct (options_setsockopt o opt val) as [o' rc] eqn:E. apply IH; [|done]. by eapply setsockopt_typed.
Qed.

(** The options that getsockopt does not know. *)
Definition write_only (opt : Z) : Prop := opt = SL_METADATA ∨ opt = SL_HELLO_MSG ∨ opt = SL_DISCONNECT_MSG ∨ opt = SL_HICCUP_MSG.

(** What is read back after setting [val]: the TTL is kept in tenths of a second, a device name is followed by a NUL, any number sets [loopback_fastpath]. *)
Definition read_back (opt : Z) (val : list Z) : list Z :=
  if decide (opt = SL_HEARTBEAT_TTL) then int_bytes (Z.quot (default 0 (opt_int val)) 100 * 100)
  else if decide (opt = SL_BINDTODEVICE) then val ++ [0]
  else if decide (opt = SL_LOOPBACK_FASTPATH) then int_bytes (bool_int (bool_decide (default 0 (opt_int val) ≠ 0)))
  else val.

Lemma get_exact_length value : get_exact (Z.of_nat (length value)) value = GetOk value (Z.of_nat (length value)).
Proof. unfold get_exact. by rewrite decide_True. Qed.

Lemma get_bytes_length value : get_bytes (Z.of_nat (length value)) value = GetOk value (Z.of_nat (length value)).
Proof. unfold get_bytes. rewrite decide_False, Z.sub_diag by lia. simpl. by rewrite app_nil_r. Qed.

Lemma getsockopt_int o x len : options_getsockopt o (option_of x) len = get_exact len (int_bytes (o_int o x)).
Proof. by destruct x. Qed.

Lemma set_int_others o x v opt len : opt ≠ option_of x → options_getsockopt (o_set_int x v o) opt len = options_getsockopt o opt len.
Proof.
  intros Hne. unfold options_getsockopt. destruct (int_option opt) as [y|] eqn:E; [|done].
  apply int_option_inv in E as ->. simpl. rewrite decide_False by congruence. done.
Qed.

Lemma read_stored o opt got v :
  v = got → (∀ len, options_getsockopt o opt len = get_exact len v) ∨ (∀ len, options_getsockopt o opt len = get_bytes len v) →
  options_getsockopt o opt (Z.of_nat (length got)) = GetOk got (Z.of_nat (length got)).
Proof. intros -> [H|H]; rewrite H; [apply get_exact_length|apply get_bytes_length]. Qed.

(** Setsockopt and getsockopt agree.  A refused call fails with [EINVAL] and changes nothing.  After an accepted call with the bytes [val], reading the
    option with a buffer of the right size gives these bytes back (the TTL rounded towards zero to a multiple of 100, the device name with its NUL, the
    fast path as 0 or 1), unless it is one of the four options that getsockopt does not know; and reading any other option gives what it gave before. *)
Lemma options_set_get o opt val o' rc :
  bytes_ok (opt_bytes val) →
  options_setsockopt o opt val = (o', rc) →
  match rc with
  | RcErr e => e = EINVAL ∧ o' = o
  | RcOk =>
      let got := read_back opt (opt_bytes val) in
      (¬ write_only opt → options_getsockopt o' opt (Z.of_nat (length got)) = GetOk got (Z.of_nat (length got)))
      ∧ ∀ opt' len, opt' ≠ opt → options_getsockopt o' opt' len = options_getsockopt o opt' len
  end.
Proof.
  intros Hb H. destruct rc as [|e].
  2: { destruct o. unfold options_setsockopt in H. destruct (int_option opt); setsockopt_cases; simplify_eq; done. }
  destruct (int_option opt) as [x|] eqn:Ex.
  - pose proof (int_option_inv _ _ Ex) as ->. destruct o. unfold options_setsockopt in H. rewrite Ex in H. setsockopt_cases.
    split; [|intros; by apply set_int_others]. intros _.
    assert (read_back (option_of x) (opt_bytes val) = opt_bytes val) as -> by (by destruct x).
    match goal with H : opt_int _ = Some _ |- _ => apply opt_int_inv in H as [<- _]; [|done] end.
    rewrite getsockopt_int. cbn [o_set_int o_int]. rewrite decide_True by done. apply get_exact_length.
  - destruct o. unfold options_setsockopt in H. rewrite Ex in H. setsockopt_cases; simplify_eq.
    all: repeat match goal with x : list Z * list Z |- _ => destruct x end.
    all: split;
      [intros Hw|intros opt' len Hne; unfold options_getsockopt; destruct (int_option opt'); [done|]; simpl; repeat case_decide; first [done|congruence]].
    all: try (destruct Hw; unfold write_only; tauto).
    all: eapply read_stored; [|first [left; reflexivity|right; reflexivity]].
    + by apply opt_u64_inv.
    + done.
    + cbn [o_maxmsgsize]. rewrite int64_bytes_s64. by apply opt_u64_inv.
    + symmetry. by apply set_bool_strict_inv.
    + unfold read_back. rewrite decide_True by done. by match goal with H : opt_int _ = Some _ |- _ => rewrite H end.
    + match goal with H : set_string _ _ = Some _ |- _ => by apply set_string_inv in H as [-> _] end.
    + unfold read_back. rewrite decide_False, decide_False, decide_True by done.
      unfold set_bool_relaxed in *. destruct (opt_int _); simplify_eq. done.
Qed.

Lemma options_well_typed_witness :
  options_typed (options_run [(23, Some [255; 255; 255; 255]); (SL_ROUTING_ID, Some [97; 98]); (17, Some (int_bytes (-1))); (SL_METADATA, Some [88; 45; 97; 58; 49])])
  ∧ o_routing_id (options_run [(23, Some [255; 255; 255; 255]); (SL_ROUTING_ID, Some [97; 98])]) = [97; 98].
Proof.
  split; [|by vm_compute]. apply (options_well_typed _). repeat (apply Forall_cons; split; [by repeat (constructor; [vm_compute; split; congruence|])|]). constructor.
Defined.

Lemma options_set_get_witness :
  options_getsockopt (options_setsockopt options_new SL_HEARTBEAT_TTL (Some (int_bytes 1250))).1 SL_HEARTBEAT_TTL 4 = GetOk (int_bytes 1200) 4.
Proof.
  destruct (options_setsockopt options_new SL_HEARTBEAT_TTL (Some (int_bytes 1250))) as [o' rc] eqn:E.
  assert (rc = RcOk) as -> by (vm_compute in E; by simplify_eq).
  destruct (options_set_get options_new SL_HEARTBEAT_TTL (Some (int_bytes 1250)) o' RcOk) as [H _]; [|done|].
  - repeat (constructor; [vm_compute; split; congruence|]). constructor.
  - apply H. unfold write_only. vm_compute. intros [|[|[|]]]; congruence.
Defined.
