(* ===== verification/Mailbox.v ===== *)
(** The mailbox of a thread (src/io/mailbox.cpp, the counter of src/io/signaler.cpp):
    any number of threads send commands, one receives them.

    The commands go through the lock-free pipe of YPipe.  Senders hold the mutex
    around [write] and [flush] but signal after releasing it, so that the signal of a
    sender may come late, after other senders have written.  A schedule is a list of
    steps of the threads; a step that is not possible is skipped. *)
From S2P Require Import Prelude YQueue YPipe.

Section mailbox.
Context {T : Type} (N : nat).

(** ** State *)

(** Where a thread is inside [send]. *)
Inductive sender_pc :=
| SIdle
| SLocked (cmd : T)          (* holds _sync *)
| SWritten
| SFlushing                  (* inside flush, after its compare-and-swap failed *)
| SFlushed (ok : bool)
| SSignal.                   (* has unlocked, calls _signaler.send next *)

(** Where the receiving thread is inside [recv]. *)
Inductive receiver_pc :=
| RIdle
| RRead                      (* _active: reads straight away *)
| RWait                      (* in _signaler.wait *)
| RSignalled                 (* wait returned 0 *)
| RReadFirst                 (* has become active; the read must succeed *)
| RTake.                     (* inside read, after its check *)

#[export] Instance receiver_pc_eq_dec : EqDecision receiver_pc.
Proof. solve_decision. Defined.

Inductive recv_result := GotCommand (cmd : T) | NoCommand (e : errno_t).

Record mailbox_t := Mailbox {
  mb_cpipe : @conc T;
  mb_active : bool;
  mb_sync : option nat;        (* the thread that holds the mutex *)
  mb_signals : Z;              (* the counter of the eventfd *)
  mb_senders : list sender_pc;
  mb_receiver : receiver_pc;
  mb_sent : list T;            (* written so far, in the order of the writes *)
  mb_results : list recv_result;
}.

Definition set_sender (m : mailbox_t) (i : nat) (pc : sender_pc) : mailbox_t :=
  Mailbox (mb_cpipe m) (mb_active m) (mb_sync m) (mb_signals m) (<[i := pc]> (mb_senders m)) (mb_receiver m) (mb_sent m) (mb_results m).
Definition set_cpipe (m : mailbox_t) (c : @conc T) : mailbox_t :=
  Mailbox c (mb_active m) (mb_sync m) (mb_signals m) (mb_senders m) (mb_receiver m) (mb_sent m) (mb_results m).
Definition set_sync (m : mailbox_t) (l : option nat) : mailbox_t :=
  Mailbox (mb_cpipe m) (mb_active m) l (mb_signals m) (mb_senders m) (mb_receiver m) (mb_sent m) (mb_results m).
Definition set_signals (m : mailbox_t) (n : Z) : mailbox_t :=
  Mailbox (mb_cpipe m) (mb_active m) (mb_sync m) n (mb_senders m) (mb_receiver m) (mb_sent m) (mb_results m).
Definition set_receiver (m : mailbox_t) (active : bool) (pc : receiver_pc) : mailbox_t :=
  Mailbox (mb_cpipe m) active (mb_sync m) (mb_signals m) (mb_senders m) pc (mb_sent m) (mb_results m).
Definition log_sent (m : mailbox_t) (v : T) : mailbox_t :=
  Mailbox (mb_cpipe m) (mb_active m) (mb_sync m) (mb_signals m) (mb_senders m) (mb_receiver m) (mb_sent m ++ [v]) (mb_results m).
Definition recv_return (m : mailbox_t) (r : recv_result) : mailbox_t :=
  Mailbox (mb_cpipe m) (mb_active m) (mb_sync m) (mb_signals m) (mb_senders m) RIdle (mb_sent m) (mb_results m ++ [r]).

(** The constructor, with [n] threads that may send. *)
Definition mailbox_new (n : nat) : outcome mailbox_t :=
  p ← ypipe_new N;
  let '(ok, p) := ypipe_check_read p in
  assert! negb ok;;
  Done (Mailbox (p, Threads false false) false None 0 (replicate n SIdle) RIdle [] []).

(** ** Steps *)

(** A step of the pipe that the program reaches only where it is possible. *)
Definition cpipe_step (m : mailbox_t) (a : action T) : outcome (obs T * mailbox_t) :=
  r ← conc_step N (mb_cpipe m) a;
  match r with Some (o, c) => Done (o, set_cpipe m c) | None => Undef end.

(** The next step of [send] in thread [i]; [cmd] is the command of a new call. *)
Definition send_step (m : mailbox_t) (i : nat) (cmd : T) : outcome (option mailbox_t) :=
  match mb_senders m !! i with
  | None => Done None
  | Some SIdle => Done (match mb_sync m with None => Some (set_sender (set_sync m (Some i)) i (SLocked cmd)) | Some _ => None end)
  | Some (SLocked cmd) =>
      '(_, m) ← cpipe_step m (AWrite cmd false); Done (Some (set_sender (log_sent m cmd) i SWritten))
  | Some SWritten =>
      '(o, m) ← cpipe_step m AFlush;
      Done (Some (set_sender m i (match o with OBool b => SFlushed b | _ => SFlushing end)))
  | Some SFlushing =>
      '(_, m) ← cpipe_step m AFlushSet; Done (Some (set_sender m i (SFlushed false)))
  | Some (SFlushed ok) => Done (Some (set_sender (set_sync m None) i (if ok then SIdle else SSignal)))
  | Some SSignal => Done (Some (set_sender (set_signals m (mb_signals m + 1)) i SIdle))
  end.

(** What the operating system answers to [poll]. *)
Inductive poll_answer := PollReady | PollTimeout | PollInterrupted.

(** [signaler_t::recv_failable]: the counter afterwards, or [EAGAIN]. *)
Definition recv_failable (signals : Z) : outcome (option Z) :=
  if decide (signals = 0) then Done None
  else if decide (1 < signals) then Done (Some (signals - 1))
  else assert! bool_decide (signals = 1);; Done (Some 0).

(** The next step of [recv].  A poll answers that the descriptor is readable only when
    the counter is positive, and times out only when it is zero. *)
Definition recv_step (m : mailbox_t) (poll : poll_answer) : outcome (option mailbox_t) :=
  match mb_receiver m with
  | RIdle => Done (Some (set_receiver m (mb_active m) (if mb_active m then RRead else RWait)))
  | RRead =>
      '(o, m) ← cpipe_step m ARead;
      Done (Some (match o with OValue None => set_receiver m false RWait | _ => set_receiver m (mb_active m) RTake end))
  | RWait =>
      match poll with
      | PollReady => Done (if decide (0 < mb_signals m) then Some (set_receiver m (mb_active m) RSignalled) else None)
      | PollTimeout => Done (if decide (mb_signals m = 0) then Some (recv_return m (NoCommand EAGAIN)) else None)
      | PollInterrupted => Done (Some (recv_return m (NoCommand EINTR)))
      end
  | RSignalled =>
      r ← recv_failable (mb_signals m);
      Done (Some (match r with
                  | None => recv_return m (NoCommand EAGAIN)
                  | Some n => set_receiver (set_signals m n) true RReadFirst
                  end))
  | RReadFirst =>
      '(o, m) ← cpipe_step m ARead;
      assert! match o with OValue None => false | _ => true end;;
      Done (Some (set_receiver m (mb_active m) RTake))
  | RTake =>
      '(o, m) ← cpipe_step m ATake;
      match o with OValue (Some v) => Done (Some (recv_return m (GotCommand v))) | _ => Undef end
  end.

Inductive thread_step := StepSend (i : nat) (cmd : T) | StepRecv (poll : poll_answer).

Definition mailbox_step (m : mailbox_t) (s : thread_step) : outcome (option mailbox_t) :=
  match s with StepSend i cmd => send_step m i cmd | StepRecv poll => recv_step m poll end.

Fixpoint mailbox_run (m : mailbox_t) (steps : list thread_step) : outcome mailbox_t :=
  match steps with
  | [] => Done m
  | s :: steps => r ← mailbox_step m s; mailbox_run (default m r) steps
  end.

(** ** The invariant *)

(** The commands received so far. *)
Definition received (m : mailbox_t) : list T :=
  omap (λ r, match r with GotCommand v => Some v | NoCommand _ => None end) (mb_results m).

Definition locked (pc : sender_pc) : bool := match pc with SIdle | SSignal => false | _ => true end.

(** A sender that found the receiver asleep and has not signalled yet. *)
Definition token (pc : sender_pc) : Z := match pc with SSignal | SFlushed false => 1 | _ => 0 end.

Definition due (pcs : list sender_pc) : Z := foldr Z.add 0 (token <$> pcs).

(** What the mutex protects: the holder alone has unflushed commands. *)
Definition holder_ok (m : mailbox_t) (s : @spec T) : Prop :=
  let complete := sp_complete s in
  match mb_sync m with
  | None => complete = [] ∧ in_flush (mb_cpipe m).2 = false
  | Some i =>
      ∃ pc, mb_senders m !! i = Some pc ∧
        match pc with
        | SLocked _ | SFlushed _ => complete = [] ∧ in_flush (mb_cpipe m).2 = false
        | SWritten => complete ≠ [] ∧ in_flush (mb_cpipe m).2 = false
        | SFlushing => complete ≠ [] ∧ in_flush (mb_cpipe m).2 = true
        | SIdle | SSignal => False
        end
  end.

(** An active receiver needs no signal and none is under way.  A passive one has
    commands to read exactly when there is one signal, sent or due. *)
Definition wakeup_ok (m : mailbox_t) (s : @spec T) : Prop :=
  let tokens := mb_signals m + due (mb_senders m) in
  match mb_receiver m with
  | RRead | RTake => mb_active m = true ∧ tokens = 0 ∧ sp_asleep s = false
  | RReadFirst => mb_active m = true ∧ tokens = 0 ∧ sp_asleep s = false ∧ sp_flushed s ≠ []
  | RIdle | RWait | RSignalled =>
      (mb_receiver m ≠ RIdle → mb_active m = false) ∧ (mb_receiver m = RSignalled → 0 < mb_signals m) ∧
      if mb_active m then tokens = 0 ∧ sp_asleep s = false
      else if sp_asleep s then tokens = 0 ∧ sp_flushed s = [] else tokens = 1 ∧ sp_flushed s ≠ []
  end.

Record mailbox_inv (m : mailbox_t) (s : @spec T) : Prop := {
  mi_rel : yp_rel N (mb_cpipe m) (s, (mb_cpipe m).2);
  mi_incomplete : sp_incomplete s = [];
  mi_fifo : mb_sent m = received m ++ sp_flushed s ++ sp_complete s;
  mi_holder : holder_ok m s;
  mi_mutex i pc : mb_senders m !! i = Some pc → locked pc = true → mb_sync m = Some i;
  mi_read : in_read (mb_cpipe m).2 = bool_decide (mb_receiver m = RTake);
  mi_signals : 0 ≤ mb_signals m;
  mi_wakeup : wakeup_ok m s;
}.

Lemma due_nonneg pcs : 0 ≤ due pcs.
Proof. induction pcs as [|pc pcs IH]; cbn; [lia|]. unfold due in IH. destruct pc as [| | | |[]|]; simpl; lia. Qed.

Lemma due_insert pcs i pc pc' : pcs !! i = Some pc → due (<[i := pc']> pcs) = due pcs - token pc + token pc'.
Proof.
  revert i. induction pcs as [|pc0 pcs IH]; intros [|i] H; [done|done|injection H as ->; cbn; lia|].
  change (token pc0 + due (<[i:=pc']> pcs) = token pc0 + due pcs - token pc + token pc'). rewrite (IH i) by done. lia.
Qed.

Lemma cpipe_step_sim m s a o s' th' :
  yp_rel N (mb_cpipe m) (s, (mb_cpipe m).2) → spec_step (s, (mb_cpipe m).2) a = Some (o, (s', th')) →
  ∃ c, cpipe_step m a = Done (o, set_cpipe m c) ∧ yp_rel N c (s', th') ∧ c.2 = th'.
Proof.
  intros Hrel Hs. pose proof (conc_step_sim N _ _ a Hrel) as H. rewrite Hs in H. destruct H as (c & Hc & Hrel').
  exists c. unfold cpipe_step. rewrite Hc. split; [done|]. split; [done|]. by destruct Hrel'.
Qed.

(** A sender other than the holder of the mutex is not inside it. *)
Lemma mutex_insert (m : mailbox_t) i pc pcs l :
  (∀ j pc, mb_senders m !! j = Some pc → locked pc = true → mb_sync m = Some j) →
  is_Some (mb_senders m !! i) → pcs = <[i := pc]> (mb_senders m) →
  (mb_sync m = None ∨ mb_sync m = Some i) ∧ l = (if locked pc then Some i else None) ∨ locked pc = false ∧ l = mb_sync m ∧ mb_sync m ≠ Some i →
  ∀ j pc, pcs !! j = Some pc → locked pc = true → l = Some j.
Proof.
  intros H [pc0 Hi] -> Hl j pcj Hj Hlk. destruct (decide (i = j)) as [->|Hne].
  - rewrite list_lookup_insert_eq in Hj by (by eapply lookup_lt_Some). simplify_eq. rewrite Hlk in Hl. naive_solver.
  - rewrite list_lookup_insert_ne in Hj by done. pose proof (H j pcj Hj Hlk). destruct Hl as [[[?|?] ?]|(? & -> & ?)]; congruence.
Qed.

Lemma holder_lookup m s i pc :
  mailbox_inv m s → mb_senders m !! i = Some pc → locked pc = true → mb_sync m = Some i ∧
    match pc with
    | SLocked _ | SFlushed _ => sp_complete s = [] ∧ in_flush (mb_cpipe m).2 = false
    | SWritten => sp_complete s ≠ [] ∧ in_flush (mb_cpipe m).2 = false
    | SFlushing => sp_complete s ≠ [] ∧ in_flush (mb_cpipe m).2 = true
    | SIdle | SSignal => False
    end.
Proof.
  intros [] Hi Hl. pose proof (mi_mutex0 i pc Hi Hl) as E. split; [done|]. unfold holder_ok in *. rewrite E in *.
  destruct mi_holder0 as (pc' & ? & H). by simplify_eq.
Qed.

Lemma send_lock_inv m s i cmd :
  mailbox_inv m s → mb_senders m !! i = Some SIdle → mb_sync m = None →
  mailbox_inv (set_sender (set_sync m (Some i)) i (SLocked cmd)) s.
Proof.
  intros Hm Hi Hl. pose proof Hm as []. split; try done.
  - unfold holder_ok in *. simpl. rewrite Hl in *. exists (SLocked cmd).
    rewrite list_lookup_insert_eq by (by eapply lookup_lt_Some). done.
  - eapply (mutex_insert m i (SLocked cmd)); [done|by eauto|done|naive_solver].
  - unfold wakeup_ok in *. simpl. rewrite (due_insert _ i SIdle) by done. simpl. rewrite Z.sub_0_r, Z.add_0_r. done.
Qed.

Lemma send_write_inv m s i cmd :
  mailbox_inv m s → mb_senders m !! i = Some (SLocked cmd) →
  ∃ c s', cpipe_step m (AWrite cmd false) = Done (ONone, set_cpipe m c)
    ∧ mailbox_inv (set_sender (log_sent (set_cpipe m c) cmd) i SWritten) s'.
Proof.
  intros Hm Hi. destruct (holder_lookup _ _ _ _ Hm Hi) as (Hl & Hc & Hf); [done|]. pose proof Hm as [].
  destruct (cpipe_step_sim m s (AWrite cmd false) ONone (spec_write s cmd false) (mb_cpipe m).2) as (c & Hs & Hrel & Hth); [done| |].
  { simpl. by rewrite Hf. }
  exists c, (spec_write s cmd false). split; [done|]. unfold spec_write in *. split; simpl.
  - by rewrite Hth.
  - done.
  - unfold received. simpl. rewrite mi_fifo0, mi_incomplete0, Hc. simpl. by rewrite !app_nil_r, app_assoc.
  - unfold holder_ok. simpl. rewrite Hl. exists SWritten. rewrite list_lookup_insert_eq by (by eapply lookup_lt_Some).
    rewrite Hth, Hf. split; [done|]. split; [|done]. by destruct (sp_complete s), (sp_incomplete s).
  - eapply (mutex_insert m i SWritten); [done|by eauto|done|naive_solver].
  - by rewrite Hth.
  - done.
  - unfold wakeup_ok in *. simpl. rewrite (due_insert _ i (SLocked cmd)) by done. simpl. rewrite Z.sub_0_r, Z.add_0_r. done.
Qed.

(** Making commands readable while the receiver is awake needs no signal. *)
Lemma wakeup_flush_awake m m' s :
  wakeup_ok m s → sp_asleep s = false →
  mb_receiver m' = mb_receiver m → mb_active m' = mb_active m → mb_signals m' = mb_signals m →
  due (mb_senders m') = due (mb_senders m) → wakeup_ok m' (spec_flush s).
Proof.
  unfold wakeup_ok. intros H Has -> -> -> ->. rewrite Has in H. simpl.
  assert (sp_flushed s ≠ [] → sp_flushed s ++ sp_complete s ≠ []) by (by destruct (sp_flushed s)).
  destruct (mb_receiver m), (mb_active m); naive_solver.
Qed.

Lemma send_flush_inv m s i :
  mailbox_inv m s → mb_senders m !! i = Some SWritten →
  ∃ o c s', cpipe_step m AFlush = Done (o, set_cpipe m c)
    ∧ mailbox_inv (set_sender (set_cpipe m c) i (match o with OBool b => SFlushed b | _ => SFlushing end)) s'.
Proof.
  intros Hm Hi. destruct (holder_lookup _ _ _ _ Hm Hi) as (Hl & Hc & Hf); [done|]. pose proof Hm as [].
  pose proof (lookup_lt_Some _ _ _ Hi) as Hlt.
  assert (Hstep : spec_step (s, (mb_cpipe m).2) AFlush
    = if sp_asleep s then Some (ONone, (s, Threads true (in_read (mb_cpipe m).2))) else Some (OBool true, (spec_flush s, (mb_cpipe m).2))).
  { simpl. rewrite Hf. by destruct (sp_complete s). }
  destruct (sp_asleep s) eqn:Has.
  - destruct (cpipe_step_sim m s _ _ _ _ mi_rel0 Hstep) as (c & Hs & Hrel & Hth). exists ONone, c, s. split; [done|]. split; simpl; try done.
    + by rewrite Hth.
    + unfold holder_ok. simpl. rewrite Hl. exists SFlushing. rewrite list_lookup_insert_eq by done. by rewrite Hth.
    + eapply (mutex_insert m i SFlushing); [done|by eauto|done|naive_solver].
    + by rewrite Hth.
    + unfold wakeup_ok in *. simpl. rewrite (due_insert _ i SWritten) by done. simpl. rewrite Z.sub_0_r, Z.add_0_r. done.
  - destruct (cpipe_step_sim m s _ _ _ _ mi_rel0 Hstep) as (c & Hs & Hrel & Hth). exists (OBool true), c, (spec_flush s). split; [done|]. split; simpl; try done.
    + by rewrite Hth.
    + unfold received. simpl. by rewrite mi_fifo0, app_nil_r.
    + unfold holder_ok. simpl. rewrite Hl. exists (SFlushed true). rewrite list_lookup_insert_eq by done. by rewrite Hth.
    + eapply (mutex_insert m i (SFlushed true)); [done|by eauto|done|naive_solver].
    + by rewrite Hth.
    + eapply (wakeup_flush_awake m); [done..|]. simpl. rewrite (due_insert _ i SWritten) by done. simpl. lia.
Qed.

Lemma send_flush_set_inv m s i :
  mailbox_inv m s → mb_senders m !! i = Some SFlushing →
  ∃ o c s', cpipe_step m AFlushSet = Done (o, set_cpipe m c) ∧ mailbox_inv (set_sender (set_cpipe m c) i (SFlushed false)) s'.
Proof.
  intros Hm Hi. destruct (holder_lookup _ _ _ _ Hm Hi) as (Hl & Hc & Hf); [done|]. pose proof Hm as [].
  pose proof (rel_in_flush _ _ _ mi_rel0 Hf) as Has. simpl in Has.
  destruct (cpipe_step_sim m s AFlushSet (OBool false) (spec_flush s) (Threads false (in_read (mb_cpipe m).2))) as (c & Hs & Hrel & Hth); [done| |].
  { simpl. by rewrite Hf. }
  exists (OBool false), c, (spec_flush s). split; [done|]. split; simpl; try done.
  - by rewrite Hth.
  - unfold received. simpl. by rewrite mi_fifo0, app_nil_r.
  - unfold holder_ok. simpl. rewrite Hl. exists (SFlushed false). rewrite list_lookup_insert_eq by (by eapply lookup_lt_Some). by rewrite Hth.
  - eapply (mutex_insert m i (SFlushed false)); [done|by eauto|done|naive_solver].
  - by rewrite Hth.
  - unfold wakeup_ok in *. simpl. rewrite (due_insert _ i SFlushing) by done. simpl. rewrite Has in mi_wakeup0.
    assert (sp_flushed s ++ sp_complete s ≠ []) by (by destruct (sp_flushed s)).
    destruct (mb_receiver m), (mb_active m); naive_solver lia.
Qed.

Lemma send_unlock_inv m s i ok :
  mailbox_inv m s → mb_senders m !! i = Some (SFlushed ok) →
  mailbox_inv (set_sender (set_sync m None) i (if ok then SIdle else SSignal)) s.
Proof.
  intros Hm Hi. destruct (holder_lookup _ _ _ _ Hm Hi) as (Hl & Hc & Hf); [done|]. pose proof Hm as []. split; try done.
  - eapply (mutex_insert m i (if ok then SIdle else SSignal)); [done|by eauto|done|]. left. split; [by right|by destruct ok].
  - unfold wakeup_ok in *. simpl. rewrite (due_insert _ i (SFlushed ok)) by done.
    replace (due (mb_senders m) - token (SFlushed ok) + token (if ok then SIdle else SSignal)) with (due (mb_senders m)) by (destruct ok; simpl; lia).
    done.
Qed.

Lemma send_signal_inv m s i :
  mailbox_inv m s → mb_senders m !! i = Some SSignal →
  mailbox_inv (set_sender (set_signals m (mb_signals m + 1)) i SIdle) s.
Proof.
  intros Hm Hi. pose proof Hm as []. split; try done.
  - unfold holder_ok in *. simpl. destruct (mb_sync m) as [j|] eqn:E; [|done]. destruct mi_holder0 as (pc & Hj & Hpc). exists pc.
    destruct (decide (i = j)) as [->|Hne]; [by simplify_eq|]. by rewrite list_lookup_insert_ne.
  - eapply (mutex_insert m i SIdle); [done|by eauto|done|]. right. split; [done|]. split; [done|]. intros E.
    unfold holder_ok in mi_holder0. rewrite E in mi_holder0. destruct mi_holder0 as (pc & Hj & Hpc). by simplify_eq.
  - simpl. lia.
  - unfold wakeup_ok in *. simpl. rewrite (due_insert _ i SSignal) by done. simpl.
    replace (mb_signals m + 1 + (due (mb_senders m) - 1 + 0)) with (mb_signals m + due (mb_senders m)) by lia.
    destruct (mb_receiver m); naive_solver lia.
Qed.

Lemma send_step_inv m s i cmd :
  mailbox_inv m s → ∃ r s', send_step m i cmd = Done r ∧ mailbox_inv (default m r) s'.
Proof.
  intros Hm. unfold send_step. destruct (mb_senders m !! i) as [[|c| | |ok|]|] eqn:Hi.
  - destruct (mb_sync m) eqn:E; [by exists None, s|]. eexists (Some _), s. split; [done|]. by apply send_lock_inv.
  - destruct (send_write_inv m s i c Hm Hi) as (c' & s' & -> & H). by eexists (Some _), s'.
  - destruct (send_flush_inv m s i Hm Hi) as (o & c' & s' & -> & H). by eexists (Some _), s'.
  - destruct (send_flush_set_inv m s i Hm Hi) as (o & c' & s' & -> & H). by eexists (Some _), s'.
  - eexists (Some _), s. split; [done|]. by apply send_unlock_inv.
  - eexists (Some _), s. split; [done|]. by apply send_signal_inv.
  - by exists None, s.
Qed.

(** A step of the receiver that leaves the pipe alone. *)
Lemma recv_local_inv m m' s :
  mailbox_inv m s → mb_cpipe m' = mb_cpipe m → mb_sync m' = mb_sync m → mb_senders m' = mb_senders m → mb_sent m' = mb_sent m →
  received m' = received m → mb_receiver m ≠ RTake → mb_receiver m' ≠ RTake → 0 ≤ mb_signals m' → wakeup_ok m' s → mailbox_inv m' s.
Proof.
  intros [] Hc Hl Hs He Hr Hn Hn' Hsig Hw. split; rewrite ?Hc, ?Hl, ?Hs, ?He, ?Hr; try done.
  - unfold holder_ok in *. by rewrite Hl, Hc, Hs.
  - rewrite mi_read0, !bool_decide_eq_false_2 by done. done.
Qed.

(** The check of [read] in a state where the receiver is active. *)
Lemma recv_read_inv m s :
  mailbox_inv m s → mb_receiver m = RRead ∨ mb_receiver m = RReadFirst →
  ∃ c s', sp_complete s' = sp_complete s ∧
    if decide (sp_flushed s = []) then cpipe_step m ARead = Done (OValue None, set_cpipe m c) ∧ mailbox_inv (set_receiver (set_cpipe m c) false RWait) s'
    else cpipe_step m ARead = Done (ONone, set_cpipe m c) ∧ mailbox_inv (set_receiver (set_cpipe m c) (mb_active m) RTake) s'.
Proof.
  intros Hm Hr. pose proof Hm as [].
  assert (Hir : in_read (mb_cpipe m).2 = false) by (rewrite mi_read0; destruct Hr as [-> | ->]; done).
  assert (Hw : mb_active m = true ∧ mb_signals m + due (mb_senders m) = 0 ∧ sp_asleep s = false).
  { unfold wakeup_ok in mi_wakeup0. destruct Hr as [Hr|Hr]; rewrite Hr in mi_wakeup0; naive_solver. }
  destruct (sp_flushed s) as [|x fl] eqn:Hfl.
  - destruct (cpipe_step_sim m s ARead (OValue None) (Spec [] (sp_complete s) (sp_incomplete s) true) (mb_cpipe m).2) as (c & Hs & Hrel & Hth); [done| |].
    { simpl. rewrite Hir. unfold spec_check_read. by rewrite Hfl. }
    exists c, (Spec [] (sp_complete s) (sp_incomplete s) true). split; [done|]. split; [done|]. split; simpl; try done.
    + by rewrite Hth.
    + unfold holder_ok in *. simpl. by rewrite Hth.
    + by rewrite Hth.
    + unfold wakeup_ok. simpl. naive_solver.
  - destruct (cpipe_step_sim m s ARead ONone s (Threads (in_flush (mb_cpipe m).2) true)) as (c & Hs & Hrel & Hth); [done| |].
    { simpl. rewrite Hir. unfold spec_check_read. by rewrite Hfl. }
    exists c, s. split; [done|]. split; [done|]. split; simpl; try done.
    + by rewrite Hth.
    + by rewrite mi_fifo0, Hfl.
    + unfold holder_ok in *. simpl. by rewrite Hth.
    + by rewrite Hth.
Qed.

Lemma recv_take_inv m s :
  mailbox_inv m s → mb_receiver m = RTake →
  ∃ v fl c s', sp_flushed s = v :: fl ∧ cpipe_step m ATake = Done (OValue (Some v), set_cpipe m c)
    ∧ mailbox_inv (recv_return (set_cpipe m c) (GotCommand v)) s'.
Proof.
  intros Hm Hr. pose proof Hm as [].
  assert (Hir : in_read (mb_cpipe m).2 = true) by (rewrite mi_read0, Hr; done).
  destruct (rel_in_read _ _ _ mi_rel0 Hir) as [Hne _]. simpl in Hne. destruct (sp_flushed s) as [|v fl] eqn:Hfl; [done|].
  destruct (cpipe_step_sim m s ATake (OValue (Some v)) (Spec fl (sp_complete s) (sp_incomplete s) (sp_asleep s)) (Threads (in_flush (mb_cpipe m).2) false))
    as (c & Hs & Hrel & Hth); [done| |].
  { simpl. rewrite Hir. by rewrite Hfl. }
  exists v, fl, c, (Spec fl (sp_complete s) (sp_incomplete s) (sp_asleep s)). split; [done|]. split; [done|]. split; simpl; try done.
  - by rewrite Hth.
  - unfold received. simpl. rewrite omap_app. simpl. rewrite mi_fifo0. by rewrite <- app_assoc.
  - unfold holder_ok in *. simpl. by rewrite Hth.
  - by rewrite Hth.
  - unfold wakeup_ok in *. simpl. rewrite Hr in mi_wakeup0. destruct mi_wakeup0 as (-> & ? & ?). naive_solver.
Qed.

Lemma recv_step_inv m s poll :
  mailbox_inv m s → ∃ r s', recv_step m poll = Done r ∧ mailbox_inv (default m r) s'.
Proof.
  intros Hm. pose proof Hm as []. clear mi_read0 mi_rel0 mi_holder0 mi_mutex0. unfold recv_step. pose proof (due_nonneg (mb_senders m)) as Hdue.
  unfold wakeup_ok in mi_wakeup0. destruct (mb_receiver m) eqn:Hr; rewrite ?Hr in *; [|clear mi_wakeup0|..|clear mi_wakeup0].
  - eexists (Some _), s. split; [done|]. eapply recv_local_inv; [done..| | |done|]; [by rewrite Hr|by simpl; destruct (mb_active m)|].
    unfold wakeup_ok. simpl. destruct (mb_active m); naive_solver.
  - destruct (recv_read_inv m s Hm) as (c & s' & _ & H); [by left|]. case_decide; destruct H as [-> H]; by eexists (Some _), s'.
  - destruct poll.
    + case_decide; [|by exists None, s; split]. eexists (Some _), s. split; [done|].
      eapply recv_local_inv; [done..|by rewrite Hr|done|done|]. unfold wakeup_ok. simpl. naive_solver.
    + case_decide; [|by exists None, s; split]. eexists (Some _), s. split; [done|].
      eapply recv_local_inv; [done..| |by rewrite Hr|done|done|]; [unfold received; simpl; rewrite omap_app; by rewrite app_nil_r|].
      unfold wakeup_ok. simpl. naive_solver.
    + eexists (Some _), s. split; [done|].
      eapply recv_local_inv; [done..| |by rewrite Hr|done|done|]; [unfold received; simpl; rewrite omap_app; by rewrite app_nil_r|].
      unfold wakeup_ok. simpl. naive_solver.
  - destruct mi_wakeup0 as (Ha & Hs & Hw). rewrite Ha in Hw by done. specialize (Hs eq_refl).
    destruct (sp_asleep s) eqn:Has; [lia|]. destruct Hw as [Ht Hne]. assert (mb_signals m = 1) as E by lia.
    rewrite E. eexists (Some _), s. split; [done|]. simpl.
    eapply recv_local_inv; [done..|by rewrite Hr|done|done|]. unfold wakeup_ok. simpl. split_and!; [done|lia|done|done].
  - destruct (recv_read_inv m s Hm) as (c & s' & _ & H); [by right|]. rewrite decide_False in H by naive_solver.
    destruct H as [-> H]. by eexists (Some _), s'.
  - destruct (recv_take_inv m s Hm Hr) as (v & fl & c & s' & _ & -> & H). by eexists (Some _), s'.
Qed.

Lemma mailbox_run_inv steps m s :
  mailbox_inv m s → ∃ m' s', mailbox_run m steps = Done m' ∧ mailbox_inv m' s'.
Proof.
  revert m s. induction steps as [|st steps IH]; intros m s Hm; simpl; [by eauto|].
  assert (∃ r s', mailbox_step m st = Done r ∧ mailbox_inv (default m r) s') as (r & s' & -> & H).
  { destruct st; [by eapply send_step_inv|by eapply recv_step_inv]. }
  rewrite bind_Done. by eapply IH.
Qed.

Lemma mailbox_new_inv n : (0 < N)%nat → ∃ m s, mailbox_new n = Done m ∧ mailbox_inv m s.
Proof.
  intros HN. unfold mailbox_new. destruct (yp_new_rel (T:=T) N HN) as (p & -> & ws & t & Hrel). rewrite bind_Done.
  destruct (check_read_rel N p spec_new ws t Hrel) as (p' & -> & Hrel' & _ & _). simpl in *.
  eexists _, (Spec [] [] [] true). split; [done|]. split; simpl; try done.
  - split; simpl; [by eauto|done|done|done].
  - intros i pc [-> _]%lookup_replicate. done.
  - unfold wakeup_ok. simpl. split; [done|]. split; [done|]. split; [|done]. induction n; [done|]. cbn in *. unfold due in *. lia.
Qed.

(** ** Delivery *)

(** How many steps the receiver is away from its result when a command is readable. *)
Definition recv_rank (m : mailbox_t) : nat :=
  match mb_receiver m with
  | RTake => 1
  | RRead | RReadFirst => 2
  | RSignalled => 3
  | RWait => 4
  | RIdle => if mb_active m then 3 else 5
  end.

Definition all_idle (m : mailbox_t) : Prop := Forall (λ pc, pc = SIdle) (mb_senders m).

Lemma all_idle_due m : all_idle m → due (mb_senders m) = 0.
Proof. unfold all_idle, due. intros H. induction H as [|pc pcs -> H IH]; cbn; [done|exact IH]. Qed.

Lemma all_idle_complete m s : mailbox_inv m s → all_idle m → sp_complete s = [].
Proof.
  intros [] Hi. unfold holder_ok in *. destruct (mb_sync m); [|tauto]. destruct mi_holder0 as (pc & Hpc & H).
  eapply Forall_lookup_1 in Hi; [|done]. by subst.
Qed.

Lemma pending_flushed m s l : mailbox_inv m s → all_idle m → mb_sent m = received m ++ l → sp_flushed s = l.
Proof.
  intros Hm Hi E. pose proof (all_idle_complete m s Hm Hi) as Hc. destruct Hm. rewrite mi_fifo0, Hc, app_nil_r in E. by apply (inj (app (received m))) in E.
Qed.

(** With no sender inside [send] and a command pending, the receiver comes one step closer to it. *)
Lemma recv_step_closer m s v l :
  mailbox_inv m s → all_idle m → mb_sent m = received m ++ v :: l →
  ∃ m', recv_step m PollReady = Done (Some m') ∧
    (mb_receiver m = RTake ∧ mb_results m' = mb_results m ++ [GotCommand v]
     ∨ mb_senders m' = mb_senders m ∧ (recv_rank m' < recv_rank m)%nat ∧ mb_sent m' = mb_sent m ∧ mb_results m' = mb_results m).
Proof.
  intros Hm Hi E. pose proof (pending_flushed m s _ Hm Hi E) as Hfl. pose proof Hm as [_ _ _ _ _ _ _ Hw].
  assert (Hs : mb_active m = false → mb_signals m = 1).
  { intros Ha. unfold wakeup_ok in Hw. rewrite (all_idle_due _ Hi), Ha in Hw. rewrite Hfl in Hw. destruct (mb_receiver m), (sp_asleep s); intuition (congruence || lia). }
  unfold recv_step, recv_rank. unfold wakeup_ok in Hw. destruct (mb_receiver m) eqn:Er; rewrite ?Er in *.
  - eexists. split; [done|]. right. simpl. by destruct (mb_active m); auto with lia.
  - destruct (recv_read_inv m s Hm) as (c & s' & _ & H); [by left|]. rewrite decide_False in H by (by rewrite Hfl). destruct H as [-> _].
    eexists. split; [done|]. right. simpl. auto with lia.
  - rewrite decide_True by (rewrite Hs; naive_solver lia). eexists. split; [done|]. right. simpl. auto with lia.
  - rewrite Hs by naive_solver. eexists. split; [done|]. right. simpl. auto with lia.
  - destruct (recv_read_inv m s Hm) as (c & s' & _ & H); [by right|]. rewrite decide_False in H by (by rewrite Hfl). destruct H as [-> _].
    eexists. split; [done|]. right. simpl. auto with lia.
  - destruct (recv_take_inv m s Hm Er) as (v' & fl' & c & s' & Hfl' & -> & H). rewrite Hfl in Hfl'. simplify_eq.
    eexists. split; [done|]. left. done.
Qed.

Lemma recv_delivers k m s v l :
  mailbox_inv m s → all_idle m → mb_sent m = received m ++ v :: l → (recv_rank m ≤ k)%nat →
  ∃ j m', (j ≤ k)%nat ∧ mailbox_run m (replicate j (StepRecv PollReady)) = Done m' ∧ mb_results m' = mb_results m ++ [GotCommand v].
Proof.
  revert m s. induction k as [|k IH]; intros m s Hm Hi E Hk; destruct (recv_step_closer m s v l Hm Hi E) as (m' & Hm' & H).
  - exfalso. unfold recv_rank in *. destruct (mb_receiver m), (mb_active m); lia.
  - destruct H as [[_ Hr]|(Hs & Hrk & Hst & Hr)].
    + exists 1%nat, m'. split; [lia|]. simpl. rewrite Hm'. done.
    + destruct (recv_step_inv m s PollReady Hm) as (r & s' & Hr' & Hinv). rewrite Hm' in Hr'. injection Hr' as <-.
      destruct (IH m' s' Hinv) as (j & m'' & Hj & Hrun & Hres).
      * unfold all_idle. by rewrite Hs.
      * unfold received. by rewrite Hst, Hr, E.
      * lia.
      * exists (S j), m''. split; [lia|]. simpl. rewrite Hm'. simpl. rewrite Hrun, Hres, Hr. done.
Qed.

End mailbox.

Arguments thread_step : clear implicits.
Arguments mailbox_t : clear implicits.

Definition command_pipe_granularity : nat := 16.

(** ** Properties *)

(** C17: commands arrive in order, and no signal is lost or doubled, under every interleaving of any number of senders with the receiver and with any answers
    of poll, interruptions included.  No assertion of the mailbox fails, in particular a read after a signal always finds a command; what has been
    received is a prefix of what has been sent; there is at most one signal at a time; and when no thread is inside send, a receiver that waits has a signal
    exactly when commands are pending, so that it neither sleeps on a command nor wakes up for nothing. *)
Theorem mailbox_no_lost_wakeup {T} (n : nat) (steps : list (thread_step T)) :
  ∃ m0 m, mailbox_new command_pipe_granularity n = Done m0 ∧ mailbox_run command_pipe_granularity m0 steps = Done m
    ∧ received m `prefix_of` mb_sent m
    ∧ 0 ≤ mb_signals m ≤ 1
    ∧ (all_idle m → mb_receiver m = RWait → mb_signals m = if decide (length (received m) < length (mb_sent m))%nat then 1 else 0).
Proof.
  destruct (mailbox_new_inv (T:=T) command_pipe_granularity n) as (m0 & s0 & Hnew & H0); [unfold command_pipe_granularity; lia|].
  destruct (mailbox_run_inv command_pipe_granularity steps m0 s0 H0) as (m & s & Hrun & Hm). exists m0, m. split; [done|]. split; [done|].
  pose proof (due_nonneg (mb_senders m)). pose proof Hm as [_ _ Hfifo _ _ _ Hsig Hw]. split; [by exists (sp_flushed s ++ sp_complete s)|]. split.
  - unfold wakeup_ok in Hw. destruct (mb_receiver m), (mb_active m), (sp_asleep s); naive_solver lia.
  - intros Hi Hr. pose proof (all_idle_complete _ m s Hm Hi) as Hc. rewrite Hc, app_nil_r in Hfifo.
    unfold wakeup_ok in Hw. rewrite Hr, (all_idle_due _ Hi) in Hw. destruct Hw as (Ha & _ & Hw). rewrite Ha in Hw by done.
    rewrite Hfifo, length_app. destruct (sp_asleep s); destruct Hw as [? Hfl].
    + rewrite Hfl. simpl. rewrite decide_False by lia. lia.
    + rewrite decide_True; [lia|]. destruct (sp_flushed s); [done|simpl; lia].
Qed.

(** C18: a command that has been sent is delivered: in every state that a schedule reaches and in which no thread is inside send and some command has not
    been received, whatever the receiver is doing, at most five of its steps return the oldest pending command. *)
Theorem mailbox_delivers {T} (n : nat) (steps : list (thread_step T)) m0 m v l :
  mailbox_new command_pipe_granularity n = Done m0 → mailbox_run command_pipe_granularity m0 steps = Done m →
  all_idle m → mb_sent m = received m ++ v :: l →
  ∃ j m', (j ≤ 5)%nat ∧ mailbox_run command_pipe_granularity m (replicate j (StepRecv PollReady)) = Done m'
    ∧ mb_results m' = mb_results m ++ [GotCommand v].
Proof.
  intros Hnew Hrun Hi Hp.
  destruct (mailbox_new_inv (T:=T) command_pipe_granularity n) as (m0' & s0 & Hnew' & H0); [unfold command_pipe_granularity; lia|].
  rewrite Hnew in Hnew'. injection Hnew' as <-.
  destruct (mailbox_run_inv command_pipe_granularity steps m0 s0 H0) as (m' & s & Hrun' & Hm). rewrite Hrun in Hrun'. injection Hrun' as <-.
  eapply recv_delivers; [done..|]. unfold recv_rank. destruct (mb_receiver m), (mb_active m); lia.
Qed.

(** Two senders: the second writes between the unlock and the signal of the first. *)
Definition late_signal : list (thread_step nat) :=
  StepRecv PollTimeout :: replicate 5 (StepSend 0 7%nat) ++ replicate 4 (StepSend 1 8%nat) ++ [StepSend 0 9%nat].

Lemma mailbox_delivers_witness :
  match (m0 ← mailbox_new command_pipe_granularity 2; mailbox_run command_pipe_granularity m0 late_signal) with
  | Done m => ∃ j m', (j ≤ 5)%nat ∧ mailbox_run command_pipe_granularity m (replicate j (StepRecv PollReady)) = Done m'
      ∧ mb_results m' = [GotCommand 7%nat]
  | _ => False
  end.
Proof.
  assert (E1 : ∃ m0 m, mailbox_new (T:=nat) command_pipe_granularity 2 = Done m0 ∧ mailbox_run command_pipe_granularity m0 late_signal = Done m
    ∧ mb_sent m = received m ++ 7%nat :: [8%nat] ∧ mb_senders m = [SIdle; SIdle] ∧ mb_results m = []).
  { eexists _, _. split; [by vm_compute|]. split; [by vm_compute|]. by vm_compute. }
  destruct E1 as (m0 & m & E0 & E & Hm). rewrite E0, bind_Done, E.
  destruct Hm as (Hp & Hs & Hr).
  destruct (mailbox_delivers 2 late_signal m0 m 7%nat [8%nat] E0 E) as (j & m' & Hj & Hrun & Hres); [unfold all_idle; by rewrite Hs; repeat constructor|done|].
  exists j, m'. by rewrite Hr in Hres.
Defined.
