(* ===== verification/SocketBase.v ===== *)
(** The calls of the application on a socket (src/core/socket_base.cpp): options, sending
    and receiving with their waits, and the processing of the commands of other threads.

    What a socket type contributes is the class [SocketType] (the x-methods).  The
    environment of a call is the answers that the mailbox, the clock and the CPU's tick
    counter give, in order ([env]); a call for which they run out is still waiting.  A
    call is a function of the state to [Done (Some (result, state))], or [Done None]
    when it waits. *)
From S2P Require Import Prelude Msg PipeArray Dist Fq Sockets Options.

(** ** Socket types *)

Class SocketType (W S C : Type) := {
  x_send : heap → W → S → msg_t → outcome (heap * W * S * msg_t * rc_t);
  x_recv : heap → W → S → msg_t → outcome (heap * W * S * msg_t * rc_t);
  x_has_in : heap → W → S → outcome (heap * W * S * bool);
  x_has_out : heap → W → S → outcome (heap * W * S * bool);
  x_setsockopt : heap → W → S → Z → option (list Z) → outcome (heap * W * S * rc_t);
  x_getsockopt : S → Z → Z → get_result;
  (* [cmd.destination->process_command (cmd)] for a command other than stop *)
  x_command : heap → W → S → C → outcome (heap * W * S);
  (* [set_hwms (inhwm, outhwm)] on every pipe of the socket *)
  x_set_hwms : W → S → Z → Z → W;
}.

(** The x-methods that a socket type does not override. *)
Definition default_xsetsockopt {W S} (h : heap) (w : W) (s : S) (opt : Z) (val : option (list Z)) : outcome (heap * W * S * rc_t) :=
  Done (h, w, s, RcErr EINVAL).
Definition default_xgetsockopt {S} (s : S) (opt len : Z) : get_result := GetErr EINVAL.
Definition default_xsend {W S} (h : heap) (w : W) (s : S) (m : msg_t) : outcome (heap * W * S * msg_t * rc_t) :=
  Done (h, w, s, m, RcErr ENOTSUP).
Definition default_xrecv {W S} (h : heap) (w : W) (s : S) (m : msg_t) : outcome (heap * W * S * msg_t * rc_t) :=
  Done (h, w, s, m, RcErr ENOTSUP).
Definition default_xhas {W S} (h : heap) (w : W) (s : S) : outcome (heap * W * S * bool) := Done (h, w, s, false).

Definition SL_DONTWAIT : Z := 1.
Definition SL_SNDMORE : Z := 2.
Definition SL_POLLIN : Z := 1.
Definition SL_POLLOUT : Z := 2.
Definition SL_RCVMORE : Z := 13.
Definition SL_FD : Z := 14.
Definition SL_EVENTS : Z := 15.
Definition SL_LAST_ENDPOINT : Z := 32.
Definition SL_SNDHWM : Z := 23.
Definition SL_RCVHWM : Z := 24.

Definition inbound_poll_rate : Z := 100.
Definition max_command_delay : Z := 3000000.

(** ** Endpoints *)

(** [uri.find ("://")] *)
Fixpoint find_separator (uri : list Z) : option nat :=
  match uri with
  | [] => None
  | c :: rest => if decide (take 3 uri = [58; 47; 47]) then Some 0%nat else Datatypes.S <$> find_separator rest
  end.

Definition parse_uri (uri : list Z) : option (list Z * list Z) :=
  match find_separator uri with
  | None => None
  | Some pos =>
      let protocol := take pos uri in
      let path := drop (pos + 3) uri in
      if decide (protocol = [] ∨ path = []) then None else Some (protocol, path)
  end.

Definition protocol_tcp : list Z := [116; 99; 112].
Definition protocol_ipc : list Z := [105; 112; 99].
Definition protocol_inproc : list Z := [105; 110; 112; 114; 111; 99].

(** [have_ipc] is [SL_HAVE_IPC]. *)
Definition check_protocol (have_ipc : bool) (protocol : list Z) : rc_t :=
  if decide (protocol = protocol_tcp) then RcOk
  else if have_ipc && bool_decide (protocol = protocol_ipc) then RcOk
  else if decide (protocol = protocol_inproc) then RcOk
  else RcErr EPROTONOSUPPORT.

(** A parsed endpoint is the protocol, the first separator and the path. *)
Lemma parse_uri_inv uri protocol path :
  parse_uri uri = Some (protocol, path) → uri = protocol ++ [58; 47; 47] ++ path ∧ protocol ≠ [] ∧ path ≠ [].
Proof.
  unfold parse_uri. destruct (find_separator uri) as [pos|] eqn:E; [|done]. case_decide as Hd; [done|]. intros [= <- <-].
  assert (Hs : take 3 (drop pos uri) = [58; 47; 47]).
  { clear Hd. revert pos E. induction uri as [|c uri IH]; intros pos E; [done|]. cbn [find_separator] in E. case_decide as H3; [by injection E as <-|].
    apply fmap_Some in E as (pos' & E & ->). by apply IH. }
  split; [|split; intros H; apply Hd; auto].
  rewrite <- (take_drop pos uri) at 1. f_equal. rewrite <- (take_drop 3 (drop pos uri)), Hs. by rewrite drop_drop.
Qed.

Lemma parse_uri_print protocol path :
  58 ∉ protocol → protocol ≠ [] → path ≠ [] → parse_uri (protocol ++ [58; 47; 47] ++ path) = Some (protocol, path).
Proof.
  intros Hn Hp Hq. unfold parse_uri.
  assert (E : find_separator (protocol ++ [58; 47; 47] ++ path) = Some (length protocol)).
  { clear Hp. induction protocol as [|c protocol IH]; [done|]. cbn [find_separator app].
    rewrite decide_False; [|intros [= -> _]; apply Hn; by left]. cbn [app] in IH. rewrite IH; [done|]. intros H. apply Hn. by right. }
  rewrite E, take_app_length. replace (drop (length protocol + 3) (protocol ++ [58; 47; 47] ++ path)) with path; [|by rewrite <- drop_drop, drop_app_length].
  by rewrite decide_False by tauto.
Qed.

Section socket_base.
Context {W S C : Type} `{!SocketType W S C}.

(** ** State *)

Record socket_base_t := SocketBase {
  sb_sock : S;
  sb_ctx_terminated : bool;
  sb_last_tsc : Z;
  sb_ticks : Z;
  sb_rcvmore : bool;
  sb_options : options_t;
  sb_last_endpoint : list Z;
  sb_fd : Z;                     (* the descriptor of the mailbox *)
}.

Definition sb_set_sock (s : S) (b : socket_base_t) : socket_base_t :=
  SocketBase s (sb_ctx_terminated b) (sb_last_tsc b) (sb_ticks b) (sb_rcvmore b) (sb_options b) (sb_last_endpoint b) (sb_fd b).
Definition sb_set_terminated (b : socket_base_t) : socket_base_t :=
  SocketBase (sb_sock b) true (sb_last_tsc b) (sb_ticks b) (sb_rcvmore b) (sb_options b) (sb_last_endpoint b) (sb_fd b).
Definition sb_set_tsc (t : Z) (b : socket_base_t) : socket_base_t :=
  SocketBase (sb_sock b) (sb_ctx_terminated b) t (sb_ticks b) (sb_rcvmore b) (sb_options b) (sb_last_endpoint b) (sb_fd b).
Definition sb_set_ticks (n : Z) (b : socket_base_t) : socket_base_t :=
  SocketBase (sb_sock b) (sb_ctx_terminated b) (sb_last_tsc b) n (sb_rcvmore b) (sb_options b) (sb_last_endpoint b) (sb_fd b).
Definition sb_set_rcvmore (v : bool) (b : socket_base_t) : socket_base_t :=
  SocketBase (sb_sock b) (sb_ctx_terminated b) (sb_last_tsc b) (sb_ticks b) v (sb_options b) (sb_last_endpoint b) (sb_fd b).
Definition sb_set_options (o : options_t) (b : socket_base_t) : socket_base_t :=
  SocketBase (sb_sock b) (sb_ctx_terminated b) (sb_last_tsc b) (sb_ticks b) (sb_rcvmore b) o (sb_last_endpoint b) (sb_fd b).

(** [process_stop] marks the socket; other commands go to their destination. *)
Inductive command := CStop | COther (c : C).

(** An answer of [_mailbox->recv]: a command, [EAGAIN] or [EINTR]. *)
Inductive mail_answer := MCommand (c : command) | MNone | MInterrupted.

Record env := Env { e_tsc : list Z; e_mail : list mail_answer; e_clock : list Z }.

Record state := State { st_heap : heap; st_world : W; st_base : socket_base_t; st_env : env }.

Definition st_set_base (b : socket_base_t) (st : state) : state := State (st_heap st) (st_world st) b (st_env st).
Definition st_on_base (f : socket_base_t → socket_base_t) (st : state) : state := st_set_base (f (st_base st)) st.

(** ** Calls *)

Definition call (A : Type) : Type := state → outcome (option (A * state)).

Definition c_ret {A} (a : A) : call A := λ st, Done (Some (a, st)).
Definition c_bind {A B} (m : call A) (k : A → call B) : call B := λ st,
  match m st with
  | Done (Some (a, st)) => k a st
  | Done None => Done None
  | Abort => Abort
  | Undef => Undef
  end.

Notation "'call!' x <- m ';;' k" := (c_bind m (λ x, k)) (at level 100, x binder, m at level 50, k at level 200, right associativity).

Definition c_base : call socket_base_t := λ st, Done (Some (st_base st, st)).
Definition c_modify (f : socket_base_t → socket_base_t) : call () := λ st, Done (Some ((), st_on_base f st)).

(** The next value of the clock, the next tick count. *)
Definition now_ms : call Z := λ st,
  let '(Env tsc mail clock) := st_env st in
  match clock with [] => Done None | t :: clock => Done (Some (t, State (st_heap st) (st_world st) (st_base st) (Env tsc mail clock))) end.
Definition rdtsc : call Z := λ st,
  let '(Env tsc mail clock) := st_env st in
  match tsc with [] => Done None | t :: tsc => Done (Some (t, State (st_heap st) (st_world st) (st_base st) (Env tsc mail clock))) end.
Definition mailbox_recv : call mail_answer := λ st,
  let '(Env tsc mail clock) := st_env st in
  match mail with [] => Done None | a :: mail => Done (Some (a, State (st_heap st) (st_world st) (st_base st) (Env tsc mail clock))) end.

Definition call_xsend (m : msg_t) : call (msg_t * rc_t) := λ st,
  '(h, w, s, m, rc) ← x_send (st_heap st) (st_world st) (sb_sock (st_base st)) m;
  Done (Some ((m, rc), State h w (sb_set_sock s (st_base st)) (st_env st))).
Definition call_xrecv (m : msg_t) : call (msg_t * rc_t) := λ st,
  '(h, w, s, m, rc) ← x_recv (st_heap st) (st_world st) (sb_sock (st_base st)) m;
  Done (Some ((m, rc), State h w (sb_set_sock s (st_base st)) (st_env st))).

Definition process_command (c : command) : call () := λ st,
  match c with
  | CStop => Done (Some ((), st_on_base sb_set_terminated st))
  | COther c =>
      '(h, w, s) ← x_command (st_heap st) (st_world st) (sb_sock (st_base st)) c;
      Done (Some ((), State h w (sb_set_sock s (st_base st)) (st_env st)))
  end.

(** The loop of [process_commands] after an answer of the mailbox other than a first [EINTR]. *)
Fixpoint drain_commands (fuel : nat) (a : mail_answer) : call () :=
  match fuel with
  | O => λ _, Done None
  | Datatypes.S fuel =>
      match a with
      | MNone => c_ret ()
      | MInterrupted => (call! a <- mailbox_recv;; drain_commands fuel a)
      | MCommand c => (call! _ <- process_command c;; call! a <- mailbox_recv;; drain_commands fuel a)
      end
  end.

(** Every turn of a loop that takes an answer of the mailbox. *)
Definition mail_fuel (st : state) : nat := Datatypes.S (length (e_mail (st_env st))).

Definition process_commands (timeout : Z) (throttle : bool) : call rc_t :=
  call! throttled <-
    (if decide (timeout = 0) then
       call! tsc <- rdtsc;;
       call! b <- c_base;;
       (if negb (bool_decide (tsc = 0)) && throttle then
          if decide (sb_last_tsc b ≤ tsc ∧ tsc - sb_last_tsc b ≤ max_command_delay) then c_ret true
          else (call! _ <- c_modify (sb_set_tsc tsc);; c_ret false)
        else c_ret false)
     else c_ret false);;
  if throttled : bool then c_ret RcOk
  else
    call! a <- mailbox_recv;;
    match a with
    | MInterrupted => c_ret (RcErr EINTR)
    | _ =>
        call! _ <- (λ st, drain_commands (mail_fuel st) a st);;
        call! b <- c_base;;
        c_ret (if sb_ctx_terminated b then RcErr ETERM else RcOk)
    end.

Definition extract_flags (m : msg_t) : call () := c_modify (sb_set_rcvmore (has_flag m msg_more)).

(** [static_cast<int> (end - _clock.now_ms ())] *)
Definition remaining (end_ms now : Z) : Z := s32 (u64 (end_ms - now)).

(** ** send *)

(** The loop of [send] while the message cannot be sent. *)
Fixpoint send_wait (fuel : nat) (m : msg_t) (timeout end_ms : Z) : call (msg_t * rc_t) :=
  match fuel with
  | O => λ _, Done None
  | Datatypes.S fuel =>
      call! rc <- process_commands timeout false;;
      if decide (rc ≠ RcOk) then c_ret (m, rc)
      else
        call! '(m, rc) <- call_xsend m;;
        if decide (rc ≠ RcErr EAGAIN) then c_ret (m, rc)
        else if decide (0 < timeout) then
          call! now <- now_ms;;
          let timeout := remaining end_ms now in
          if decide (timeout ≤ 0) then c_ret (m, RcErr EAGAIN) else send_wait fuel m timeout end_ms
        else send_wait fuel m timeout end_ms
  end.

(** The flags and the metadata of a message to send. *)
Definition prepare (m : msg_t) (flags : Z) : call msg_t := λ st,
  let m := reset_flags msg_more m in
  let m := if decide (Z.land flags SL_SNDMORE ≠ 0) then set_flags msg_more m else m in
  '(h, m) ← msg_reset_metadata (st_heap st) m;
  Done (Some (m, State h (st_world st) (st_base st) (st_env st))).

Definition deadline (timeout : Z) : call Z :=
  if decide (timeout < 0) then c_ret 0 else call! now <- now_ms;; c_ret (u64 (now + timeout)).

Definition send (m : msg_t) (flags : Z) : call (msg_t * rc_t) :=
  call! b <- c_base;;
  if sb_ctx_terminated b then c_ret (m, RcErr ETERM)
  else if negb (msg_check m) then c_ret (m, RcErr EFAULT)
  else
    call! rc <- process_commands 0 true;;
    if decide (rc ≠ RcOk) then c_ret (m, rc)
    else
      call! m <- prepare m flags;;
      call! '(m, rc) <- call_xsend m;;
      call! b <- c_base;;
      if decide (rc ≠ RcErr EAGAIN) then c_ret (m, rc)
      else if decide (Z.land flags SL_DONTWAIT ≠ 0 ∨ o_int (sb_options b) sndtimeo = 0) then c_ret (m, rc)
      else
        call! end_ms <- deadline (o_int (sb_options b) sndtimeo);;
        λ st, send_wait (mail_fuel st) m (o_int (sb_options b) sndtimeo) end_ms st.

(** ** recv *)

Definition recv_done (m : msg_t) : call (msg_t * rc_t) :=
  call! _ <- extract_flags m;; c_ret (m, RcOk).

(** The loop of [recv] while there is no message. *)
Fixpoint recv_wait (fuel : nat) (m : msg_t) (block : bool) (timeout end_ms : Z) : call (msg_t * rc_t) :=
  match fuel with
  | O => λ _, Done None
  | Datatypes.S fuel =>
      call! rc <- process_commands (if block then timeout else 0) false;;
      if decide (rc ≠ RcOk) then c_ret (m, rc)
      else
        call! '(m, rc) <- call_xrecv m;;
        if decide (rc = RcOk) then (call! _ <- c_modify (sb_set_ticks 0);; recv_done m)
        else if decide (rc ≠ RcErr EAGAIN) then c_ret (m, rc)
        else if decide (0 < timeout) then
          call! now <- now_ms;;
          let timeout := remaining end_ms now in
          if decide (timeout ≤ 0) then c_ret (m, RcErr EAGAIN) else recv_wait fuel m true timeout end_ms
        else recv_wait fuel m true timeout end_ms
  end.

(** [if (++_ticks == inbound_poll_rate) ...] *)
Definition recv_tick : call rc_t :=
  call! b <- c_base;;
  let ticks := s32 (sb_ticks b + 1) in
  call! _ <- c_modify (sb_set_ticks ticks);;
  if decide (ticks = inbound_poll_rate) then
    call! rc <- process_commands 0 false;;
    if decide (rc ≠ RcOk) then c_ret rc
    else call! _ <- c_modify (sb_set_ticks 0);; c_ret RcOk
  else c_ret RcOk.

Definition recv (m : msg_t) (flags : Z) : call (msg_t * rc_t) :=
  call! b <- c_base;;
  if sb_ctx_terminated b then c_ret (m, RcErr ETERM)
  else if negb (msg_check m) then c_ret (m, RcErr EFAULT)
  else
    call! rc <- recv_tick;;
    if decide (rc ≠ RcOk) then c_ret (m, rc)
    else
      call! '(m, rc) <- call_xrecv m;;
      call! b <- c_base;;
      if decide (rc = RcOk) then recv_done m
      else if decide (rc ≠ RcErr EAGAIN) then c_ret (m, rc)
      else if decide (Z.land flags SL_DONTWAIT ≠ 0 ∨ o_int (sb_options b) rcvtimeo = 0) then
        call! rc <- process_commands 0 false;;
        if decide (rc ≠ RcOk) then c_ret (m, rc)
        else
          call! _ <- c_modify (sb_set_ticks 0);;
          call! '(m, rc) <- call_xrecv m;;
          if decide (rc = RcOk) then recv_done m else c_ret (m, rc)
      else
        call! end_ms <- deadline (o_int (sb_options b) rcvtimeo);;
        λ st, recv_wait (mail_fuel st) m (bool_decide (sb_ticks b ≠ 0)) (o_int (sb_options b) rcvtimeo) end_ms st.

(** ** Options *)

Definition update_pipe_options (opt : Z) : call () := λ st,
  if decide (opt = SL_SNDHWM ∨ opt = SL_RCVHWM) then
    let o := sb_options (st_base st) in
    Done (Some ((), State (st_heap st) (x_set_hwms (st_world st) (sb_sock (st_base st)) (o_int o rcvhwm) (o_int o sndhwm)) (st_base st) (st_env st)))
  else Done (Some ((), st)).

Definition setsockopt (opt : Z) (val : option (list Z)) : call rc_t :=
  call! b <- c_base;;
  if sb_ctx_terminated b then c_ret (RcErr ETERM)
  else
    call! rc <- (λ st, '(h, w, s, rc) ← x_setsockopt (st_heap st) (st_world st) (sb_sock (st_base st)) opt val;
                       Done (Some (rc, State h w (sb_set_sock s (st_base st)) (st_env st))));;
    if decide (rc ≠ RcErr EINVAL) then c_ret rc
    else
      call! b <- c_base;;
      let '(o, rc) := options_setsockopt (sb_options b) opt val in
      call! _ <- c_modify (sb_set_options o);;
      call! _ <- update_pipe_options opt;;
      c_ret rc.

(** [do_getsockopt<int>] *)
Definition get_int (len v : Z) : get_result := get_bytes len (int_bytes v).

Definition has_bool (f : heap → W → S → outcome (heap * W * S * bool)) : call bool := λ st,
  '(h, w, s, r) ← f (st_heap st) (st_world st) (sb_sock (st_base st));
  Done (Some (r, State h w (sb_set_sock s (st_base st)) (st_env st))).

Definition has_in : call bool := has_bool x_has_in.
Definition has_out : call bool := has_bool x_has_out.

Definition getsockopt (opt len : Z) : call get_result :=
  call! b <- c_base;;
  if sb_ctx_terminated b then c_ret (GetErr ETERM)
  else
    match x_getsockopt (sb_sock b) opt len with
    | GetErr EINVAL =>
        if decide (opt = SL_RCVMORE) then c_ret (get_int len (if sb_rcvmore b then 1 else 0))
        else if decide (opt = SL_TYPE) then c_ret (get_int len (o_type (sb_options b)))
        else if decide (opt = SL_FD) then c_ret (get_int len (sb_fd b))
        else if decide (opt = SL_EVENTS) then
          call! rc <- process_commands 0 false;;
          match rc with
          | RcErr e => c_ret (GetErr e)
          | RcOk =>
              call! out <- has_out;;
              call! inn <- has_in;;
              c_ret (get_int len (Z.lor (if out then SL_POLLOUT else 0) (if inn then SL_POLLIN else 0)))
          end
        else if decide (opt = SL_LAST_ENDPOINT) then
          c_ret (if decide (len < Z.of_nat (length (sb_last_endpoint b)) + 1) then GetErr EINVAL
                 else GetOk (sb_last_endpoint b ++ [0]) (Z.of_nat (length (sb_last_endpoint b)) + 1))
        else c_ret (options_getsockopt (sb_options b) opt len)
    | r => c_ret r
    end.

(** ** Lemmas *)

Lemma c_bind_inv {A B} (m : call A) (k : A → call B) st r :
  c_bind m k st = Done (Some r) → ∃ a st', m st = Done (Some (a, st')) ∧ k a st' = Done (Some r).
Proof. unfold c_bind. destruct (m st) as [[[a st']|]| |]; try done. eauto. Qed.

(** What a call never changes: the options; and what it may use up of the answers. *)
Record keeps (st st' : state) : Prop := {
  kp_options : sb_options (st_base st') = sb_options (st_base st);
  kp_clock : e_clock (st_env st') = e_clock (st_env st);
  kp_mail : (length (e_mail (st_env st')) ≤ length (e_mail (st_env st)))%nat;
}.

Lemma keeps_refl st : keeps st st.
Proof. by split. Qed.

Lemma keeps_trans st1 st2 st3 : keeps st1 st2 → keeps st2 st3 → keeps st1 st3.
Proof. intros [] []. split; [congruence..|lia]. Qed.

#[local] Instance keeps_PreOrder : PreOrder keeps.
Proof. split; [exact keeps_refl|exact keeps_trans]. Qed.

Ltac c_inv :=
  repeat match goal with
  | H : c_bind _ _ _ = Done (Some _) |- _ => apply c_bind_inv in H as (? & ? & ? & H)
  | H : c_ret _ _ = Done (Some _) |- _ => unfold c_ret in H; simplify_eq
  | H : c_base _ = Done (Some _) |- _ => unfold c_base in H; simplify_eq
  | H : c_modify _ _ = Done (Some _) |- _ => unfold c_modify in H; simplify_eq
  end.

Lemma mailbox_recv_inv st a st' :
  mailbox_recv st = Done (Some (a, st')) →
  st_base st' = st_base st ∧ keeps st st' ∧ e_mail (st_env st) = a :: e_mail (st_env st').
Proof. unfold mailbox_recv. destruct st as [h w b [tsc [|a' mail] clock]]; [done|]. simpl. intros [= <- <-]. split_and!; [done|split; simpl; auto|done]. Qed.

Lemma rdtsc_inv st t st' :
  rdtsc st = Done (Some (t, st')) → st_base st' = st_base st ∧ keeps st st' ∧ e_mail (st_env st') = e_mail (st_env st).
Proof. unfold rdtsc. destruct st as [h w b [[|t' tsc] mail clock]]; [done|]. simpl. intros [= <- <-]. by split_and!. Qed.

Lemma now_ms_inv st t st' :
  now_ms st = Done (Some (t, st')) → st_base st' = st_base st ∧ e_clock (st_env st) = t :: e_clock (st_env st') ∧ e_mail (st_env st') = e_mail (st_env st).
Proof. unfold now_ms. destruct st as [h w b [tsc mail [|t' clock]]]; [done|]. simpl. intros [= <- <-]. done. Qed.

Lemma process_command_inv c st st' :
  process_command c st = Done (Some ((), st')) →
  keeps st st' ∧ sb_ticks (st_base st') = sb_ticks (st_base st) ∧ e_mail (st_env st') = e_mail (st_env st).
Proof.
  unfold process_command. destruct c as [|c].
  - intros [= <-]. by destruct st.
  - intros (([h w] & s) & _ & [= <-])%bind_Done_inv. by destruct st.
Qed.

Lemma drain_inv fuel a st st' :
  drain_commands fuel a st = Done (Some ((), st')) → keeps st st' ∧ sb_ticks (st_base st') = sb_ticks (st_base st).
Proof.
  revert a st. induction fuel as [|fuel IH]; intros a st; [done|]. simpl. destruct a as [c| |].
  - intros H. c_inv. destruct x. apply process_command_inv in H0 as (? & ? & ?). apply mailbox_recv_inv in H1 as (E & ? & ?).
    apply IH in H as [? ->]. rewrite E. split; [by repeat (etrans; [done|])|done].
  - intros H. c_inv. done.
  - intros H. c_inv. apply mailbox_recv_inv in H0 as (E & ? & ?). apply IH in H as [? ->]. rewrite E. split; [by etrans|done].
Qed.

Lemma process_commands_inv timeout throttle st rc st' :
  process_commands timeout throttle st = Done (Some (rc, st')) →
  keeps st st' ∧ sb_ticks (st_base st') = sb_ticks (st_base st)
  ∧ (rc = RcOk ∨ rc = RcErr EINTR ∨ rc = RcErr ETERM ∧ sb_ctx_terminated (st_base st') = true)
  ∧ (throttle = false → (length (e_mail (st_env st')) < length (e_mail (st_env st)))%nat).
Proof.
  unfold process_commands. intros (throttled & st1 & H1 & H)%c_bind_inv.
  assert (Hthr : keeps st st1 ∧ sb_ticks (st_base st1) = sb_ticks (st_base st) ∧ (throttle = false → throttled = false)).
  { case_decide; [|by c_inv]. apply c_bind_inv in H1 as (tsc & st2 & (E & Hk & _)%rdtsc_inv & H1). c_inv. rewrite <- E.
    destruct (negb _ && throttle) eqn:Et; [|by c_inv]. apply andb_true_iff in Et as [_ ->]. case_decide; c_inv; [done|].
    split; [|done]. etrans; [done|]. done. }
  destruct Hthr as (Hk1 & Ht1 & Hthr). destruct throttled.
  { c_inv. split; [done|]. split; [done|]. split; [by left|]. intros Hf. by specialize (Hthr Hf). }
  apply c_bind_inv in H as (a & st2 & H2 & H). apply mailbox_recv_inv in H2 as (E2 & Hk2 & Hm2). rewrite <- Ht1, <- E2.
  assert (Hlt : (length (e_mail (st_env st2)) < length (e_mail (st_env st)))%nat).
  { destruct Hk1. rewrite Hm2 in *. simpl in *. lia. }
  assert (Hdr : a = MInterrupted ∧ rc = RcErr EINTR ∧ st' = st2 ∨ (∃ a, drain_commands (mail_fuel st2) a st2 = Done (Some ((), st'))
    ∧ rc = if sb_ctx_terminated (st_base st') then RcErr ETERM else RcOk)).
  { destruct a; c_inv; [right|right|by left]; destruct x; eauto. }
  destruct Hdr as [(_ & -> & ->)|(a' & [Hk Ht]%drain_inv & ->)].
  - split; [by etrans|]. auto.
  - split; [etrans; [done|]; by etrans|]. split; [done|]. split; [destruct (sb_ctx_terminated _); auto|].
    intros _. destruct Hk. lia.
Qed.

Lemma call_xrecv_inv m st m' rc st' :
  call_xrecv m st = Done (Some ((m', rc), st')) →
  ∃ h w s, x_recv (st_heap st) (st_world st) (sb_sock (st_base st)) m = Done (h, w, s, m', rc)
    ∧ st' = State h w (sb_set_sock s (st_base st)) (st_env st).
Proof. unfold call_xrecv. intros (((((h & w) & s) & m1) & rc1) & E & [= <- <- <-])%bind_Done_inv. eauto. Qed.

Lemma call_xrecv_keeps m st m' rc st' :
  call_xrecv m st = Done (Some ((m', rc), st')) → keeps st st' ∧ sb_ticks (st_base st') = sb_ticks (st_base st) ∧ e_mail (st_env st') = e_mail (st_env st).
Proof. intros (h & w & s & _ & ->)%call_xrecv_inv. done. Qed.

(** ** What recv returns *)

(** The message comes from the socket type, and [SL_RCVMORE] tells whether more parts follow. *)
Definition delivered (m : msg_t) (st : state) : Prop :=
  (∃ h w s m0, x_recv h w s m0 = Done (st_heap st, st_world st, sb_sock (st_base st), m, RcOk))
  ∧ sb_rcvmore (st_base st) = has_flag m msg_more.

(** Another error of the socket type. *)
Definition type_error (e : errno_t) : Prop := ∃ h w s m0 h' w' s' m', x_recv h w s m0 = Done (h', w', s', m', RcErr e) ∧ e ≠ EAGAIN.

Definition wait_result (st : state) (m : msg_t) (rc : rc_t) (expired : Prop) : Prop :=
  match rc with
  | RcOk => delivered m st
  | RcErr EAGAIN => expired
  | RcErr e => type_error e ∨ e = EINTR ∨ e = ETERM ∧ sb_ctx_terminated (st_base st) = true
  end.

Lemma recv_done_delivered m m0 st1 m' rc st' st2 h w s :
  x_recv h w s m0 = Done (st_heap st1, st_world st1, sb_sock (st_base st1), m, RcOk) →
  st_heap st2 = st_heap st1 → st_world st2 = st_world st1 → sb_sock (st_base st2) = sb_sock (st_base st1) →
  recv_done m st2 = Done (Some ((m', rc), st')) → rc = RcOk ∧ m' = m ∧ delivered m' st'.
Proof.
  intros Hx E1 E2 E3 H. unfold recv_done, extract_flags in H. c_inv. split_and!; [done|done|]. split; [|done].
  exists h, w, s, m0. simpl. by rewrite Hx, E1, E2, E3.
Qed.

(** Some reading of the clock between the states is at or after the deadline. *)
Definition expired_at (end_ms : Z) (st st' : state) : Prop :=
  ∃ used t, e_clock (st_env st) = used ++ t :: e_clock (st_env st') ∧ remaining end_ms t ≤ 0.

Lemma expired_at_keeps end_ms st1 st2 st3 :
  e_clock (st_env st2) = e_clock (st_env st1) → expired_at end_ms st2 st3 → expired_at end_ms st1 st3.
Proof. intros E (used & t & H & Ht). exists used, t. by rewrite <- E. Qed.

Lemma expired_at_cons end_ms st1 st2 st3 t :
  e_clock (st_env st1) = t :: e_clock (st_env st2) → expired_at end_ms st2 st3 → expired_at end_ms st1 st3.
Proof. intros E (used & t' & H & Ht). exists (t :: used), t'. by rewrite E, H. Qed.

Lemma wait_result_mono st m rc P Q : (P → Q) → wait_result st m rc P → wait_result st m rc Q.
Proof. intros H. destruct rc as [|[]]; simpl; auto. Qed.

Lemma wait_result_commands st m rc P : rc = RcErr EINTR ∨ rc = RcErr ETERM ∧ sb_ctx_terminated (st_base st) = true → wait_result st m rc P.
Proof. intros [->|[-> ?]]; simpl; auto. Qed.

Lemma recv_wait_inv fuel m block timeout end_ms st m' rc st' :
  recv_wait fuel m block timeout end_ms st = Done (Some ((m', rc), st')) →
  sb_options (st_base st') = sb_options (st_base st) ∧ wait_result st' m' rc (0 < timeout ∧ expired_at end_ms st st').
Proof.
  revert m block timeout st. induction fuel as [|fuel IH]; intros m block timeout st; [done|]. cbn [recv_wait].
  intros (rc1 & st1 & Hp & H)%c_bind_inv. apply process_commands_inv in Hp as (Hk1 & _ & Hrc & _).
  case_decide as Hok; [c_inv; split; [apply Hk1|]; apply wait_result_commands; naive_solver|].
  apply c_bind_inv in H as ([m2 rc2] & st2 & Hx & H). pose proof (call_xrecv_keeps _ _ _ _ _ Hx) as (Hk2 & _ & _).
  apply call_xrecv_inv in Hx as (h & w & s & Hx & E2).
  assert (Ho : sb_options (st_base st2) = sb_options (st_base st)) by (destruct Hk1, Hk2; congruence).
  assert (Hc : e_clock (st_env st2) = e_clock (st_env st)) by (destruct Hk1, Hk2; congruence).
  case_decide; [subst rc2|case_decide as Hag].
  - apply c_bind_inv in H as ([] & st3 & H3 & H). c_inv. pose proof H as Hd.
    eapply (recv_done_delivered m2 m (State h w (sb_set_sock s (st_base st1)) (st_env st1))) in Hd as (-> & -> & Hd); [|exact Hx|done..]. split; [|done].
    unfold recv_done, extract_flags in H. by c_inv.
  - c_inv. split; [done|]. destruct rc as [|e]; [done|].
    assert (type_error e) by (do 8 eexists; split; [exact Hx|congruence]). destruct e; simpl; auto; done.
  - assert (rc2 = RcErr EAGAIN) as -> by (by destruct (decide (rc2 = RcErr EAGAIN))). case_decide as Ht.
    + apply c_bind_inv in H as (now & st3 & Hn & H). apply now_ms_inv in Hn as (Hb3 & Hc3 & _). case_decide as Hr.
      * c_inv. rewrite Hb3. split; [done|]. simpl. split; [done|]. exists [], now. simpl. split; [congruence|done].
      * apply IH in H as [H1 H2]. rewrite H1, Hb3. split; [done|]. eapply wait_result_mono; [|exact H2].
        intros [_ He]. split; [done|]. eapply expired_at_keeps; [exact Hc|]. by eapply expired_at_cons.
    + apply IH in H as [H1 H2]. rewrite H1. split; [done|]. eapply wait_result_mono; [|exact H2]. intros [? _]. done.
Qed.

(** A clock that does not go back and does not advance by 2^31 milliseconds during the call. *)
Definition clock_ok (clock : list Z) : Prop :=
  match clock with [] => True | t0 :: ts => 0 ≤ t0 < 2 ^ 63 ∧ Forall (λ t, t0 ≤ t < t0 + 2 ^ 31) ts end.

Lemma remaining_spec t0 timeout t :
  0 ≤ t0 < 2 ^ 63 → 0 ≤ timeout < 2 ^ 31 → t0 ≤ t < t0 + 2 ^ 31 → remaining (u64 (t0 + timeout)) t = t0 + timeout - t.
Proof.
  intros. unfold remaining, u64, s32. rewrite (Z.mod_small (t0 + timeout)) by lia.
  destruct (decide (t ≤ t0 + timeout)).
  - rewrite (Z.mod_small (t0 + timeout - t)) by lia. rewrite Z.mod_small; lia.
  - rewrite <- (Z.mod_unique (t0 + timeout - t) (2 ^ 64) (-1) (t0 + timeout - t + 2 ^ 64)) by lia.
    rewrite <- (Z.mod_unique (t0 + timeout - t + 2 ^ 64 + 2 ^ 31) (2 ^ 32) (2 ^ 32) (t0 + timeout - t + 2 ^ 31)) by lia. lia.
Qed.

(** The deadline of a call that starts at the first reading of the clock. *)
Definition deadline_passed (st : state) (timeout : Z) : Prop :=
  ∃ t0 clock t, e_clock (st_env st) = t0 :: clock ∧ t ∈ clock ∧ t0 + timeout ≤ t.

Lemma expired_deadline st0 st1 st' timeout t0 :
  clock_ok (e_clock (st_env st0)) → e_clock (st_env st0) = t0 :: e_clock (st_env st1) → 0 ≤ timeout < 2 ^ 31 →
  expired_at (u64 (t0 + timeout)) st1 st' → deadline_passed st0 timeout.
Proof.
  intros Hck E Ht (used & t & Eu & Hr). rewrite E in Hck. destruct Hck as [H0 Hall].
  assert (Hin : t ∈ e_clock (st_env st1)) by (rewrite Eu; set_solver).
  rewrite Forall_forall in Hall. specialize (Hall t Hin). rewrite remaining_spec in Hr by done.
  exists t0, (e_clock (st_env st1)), t. split_and!; [done|done|lia].
Qed.

Lemma recv_tick_inv st rc st' :
  recv_tick st = Done (Some (rc, st')) →
  keeps st st' ∧ (rc = RcOk ∨ rc = RcErr EINTR ∨ rc = RcErr ETERM ∧ sb_ctx_terminated (st_base st') = true).
Proof.
  unfold recv_tick. intros H. c_inv. case_decide; [|by c_inv; split; [split|left]].
  apply c_bind_inv in H as (rc1 & st1 & Hp & H). apply process_commands_inv in Hp as (Hk & _ & Hrc & _).
  case_decide; c_inv; (split; [destruct Hk; by split|]); [naive_solver|by left].
Qed.

Lemma type_error_result st m0 h w s st1 m e P :
  x_recv (st_heap st1) (st_world st1) (sb_sock (st_base st1)) m0 = Done (h, w, s, m, RcErr e) → e ≠ EAGAIN → wait_result st m (RcErr e) P.
Proof. intros H He. assert (type_error e) by (by do 8 eexists). destruct e; simpl; auto; done. Qed.

Lemma xrecv_done_delivered m0 st m st1 m' rc st' :
  call_xrecv m0 st = Done (Some ((m, RcOk), st1)) → recv_done m st1 = Done (Some ((m', rc), st')) → rc = RcOk ∧ m' = m ∧ delivered m' st'.
Proof. intros (h & w & s & Hx & ->)%call_xrecv_inv H. by eapply (recv_done_delivered m m0 (State h w (sb_set_sock s (st_base st)) (st_env st))). Qed.

Lemma deadline_inv timeout st end_ms st' :
  deadline timeout st = Done (Some (end_ms, st')) →
  st_base st' = st_base st ∧ if decide (timeout < 0) then st' = st
    else ∃ t0, e_clock (st_env st) = t0 :: e_clock (st_env st') ∧ end_ms = u64 (t0 + timeout).
Proof.
  unfold deadline. case_decide; [intros; by c_inv|]. intros (t0 & st1 & (? & ? & ?)%now_ms_inv & Hret)%c_bind_inv. c_inv. eauto.
Qed.

(** ** How often recv processes commands *)

Lemma recv_done_inv m st m' rc st' :
  recv_done m st = Done (Some ((m', rc), st')) → sb_ticks (st_base st') = sb_ticks (st_base st) ∧ st_env st' = st_env st.
Proof. unfold recv_done, extract_flags. intros H. c_inv. done. Qed.

Lemma recv_wait_ticks fuel m block timeout end_ms st m' st' :
  recv_wait fuel m block timeout end_ms st = Done (Some ((m', RcOk), st')) →
  sb_ticks (st_base st') = 0 ∧ (length (e_mail (st_env st')) < length (e_mail (st_env st)))%nat.
Proof.
  revert m block timeout st. induction fuel as [|fuel IH]; intros m block timeout st; [done|]. cbn [recv_wait].
  intros (rc1 & st1 & (_ & _ & _ & Hm1)%process_commands_inv & H)%c_bind_inv. specialize (Hm1 eq_refl).
  case_decide; [c_inv; done|]. apply c_bind_inv in H as ([m2 rc2] & st2 & (_ & _ & Hm2)%call_xrecv_keeps & H). rewrite <- Hm2 in Hm1.
  case_decide; [|case_decide; [c_inv; done|case_decide]].
  - apply c_bind_inv in H as ([] & st3 & H3 & (Ht & He)%recv_done_inv). c_inv. rewrite Ht, He. done.
  - apply c_bind_inv in H as (now & st3 & (_ & _ & Hm3)%now_ms_inv & H). case_decide; [c_inv; done|]. apply IH in H as [? ?]. split; [done|].
    rewrite Hm3 in *. lia.
  - apply IH in H as [? ?]. split; [done|]. lia.
Qed.

(** A receive that succeeds has processed commands and starts counting again, or has counted once more. *)
Definition polled_or_counted (st st' : state) : Prop :=
  sb_ticks (st_base st') = 0 ∧ (length (e_mail (st_env st')) < length (e_mail (st_env st)))%nat
  ∨ sb_ticks (st_base st') = s32 (sb_ticks (st_base st) + 1) ∧ sb_ticks (st_base st') ≠ inbound_poll_rate ∧ e_mail (st_env st') = e_mail (st_env st).

Lemma recv_tick_counts st st' : recv_tick st = Done (Some (RcOk, st')) → polled_or_counted st st'.
Proof.
  unfold recv_tick. intros H. c_inv. case_decide; [|c_inv; by right].
  apply c_bind_inv in H as (rc1 & st1 & (_ & _ & _ & Hm)%process_commands_inv & H). specialize (Hm eq_refl).
  case_decide; c_inv; by left.
Qed.

Lemma recv_counts m flags st m' st' : recv m flags st = Done (Some ((m', RcOk), st')) → polled_or_counted st st'.
Proof.
  unfold recv. intros (b & st0 & Hb & H)%c_bind_inv. unfold c_base in Hb. simplify_eq.
  destruct (sb_ctx_terminated _); [c_inv; done|]. destruct (negb _); [c_inv; done|].
  apply c_bind_inv in H as (rc1 & st1 & Htick & H). case_decide; [c_inv; done|]. subst rc1. apply recv_tick_counts in Htick.
  apply c_bind_inv in H as ([m2 rc2] & st2 & (_ & Ht2 & Hm2)%call_xrecv_keeps & H).
  apply c_bind_inv in H as (b & st2' & Hb & H). unfold c_base in Hb. simplify_eq.
  assert (Hle : (length (e_mail (st_env st2')) ≤ length (e_mail (st_env st0)))%nat).
  { rewrite Hm2. destruct Htick as [[_ ?]|(_ & _ & ->)]; lia. }
  case_decide; [|case_decide; [c_inv; done|case_decide]].
  - apply recv_done_inv in H as [Ht He]. unfold polled_or_counted. rewrite Ht, He, Ht2, Hm2. exact Htick.
  - apply c_bind_inv in H as (rc3 & st3 & (_ & _ & _ & Hm3)%process_commands_inv & H). specialize (Hm3 eq_refl).
    case_decide; [c_inv; done|]. apply c_bind_inv in H as ([] & st4 & [= <-] & H).
    apply c_bind_inv in H as ([m5 rc5] & st5 & (_ & Ht5 & Hm5)%call_xrecv_keeps & H). case_decide; [|c_inv; done].
    apply recv_done_inv in H as [Ht He]. left. rewrite Ht, He, Ht5, Hm5. simpl. split; [done|lia].
  - apply c_bind_inv in H as (end_ms & st3 & Hd & H). apply recv_wait_ticks in H as [Ht Hl]. left. split; [done|].
    unfold deadline in Hd. case_decide; c_inv; [lia|]. match goal with H : now_ms _ = _ |- _ => apply now_ms_inv in H as (_ & _ & E) end. rewrite E in Hl. lia.
Qed.

(** [n] receives, one after the other, that all succeed. *)
Inductive receives : nat → state → state → Prop :=
| receives_0 st : receives 0 st st
| receives_S n st st1 st2 m flags m' :
    recv m flags st = Done (Some ((m', RcOk), st1)) → receives n st1 st2 → receives (Datatypes.S n) st st2.

Lemma receives_counts n st st' :
  receives n st st' → 0 ≤ sb_ticks (st_base st) < inbound_poll_rate →
  (length (e_mail (st_env st')) < length (e_mail (st_env st)))%nat
  ∨ e_mail (st_env st') = e_mail (st_env st) ∧ sb_ticks (st_base st) + Z.of_nat n < inbound_poll_rate.
Proof.
  unfold inbound_poll_rate. induction 1 as [st|n st st1 st2 m flags m' H Hr IH]; intros Ht; [right; split; [done|lia]|].
  destruct (recv_counts _ _ _ _ _ H) as [[E Hl]|(E & Hne & Hm)].
  - left. destruct IH as [?|[-> _]]; [lia|lia|lia].
  - unfold inbound_poll_rate in Hne. unfold s32 in E. rewrite Z.mod_small in E by lia. destruct IH as [Hl|[Hm' ?]]; [lia|left|right].
    + by rewrite Hm in Hl.
    + split; [congruence|lia].
Qed.

(** A receive that finds a message at once and is not due to process commands. *)
Lemma recv_immediate m flags st h w s m' :
  sb_ctx_terminated (st_base st) = false → msg_check m = true → s32 (sb_ticks (st_base st) + 1) ≠ inbound_poll_rate →
  x_recv (st_heap st) (st_world st) (sb_sock (st_base st)) m = Done (h, w, s, m', RcOk) →
  ∃ st', recv m flags st = Done (Some ((m', RcOk), st')) ∧ sb_ctx_terminated (st_base st') = false
    ∧ sb_ticks (st_base st') = s32 (sb_ticks (st_base st) + 1) ∧ st_env st' = st_env st.
Proof.
  intros Ht Hck Hn Hx. eexists. unfold recv, c_bind, c_base. rewrite Ht, Hck. cbn [negb].
  unfold recv_tick, c_bind, c_base, c_modify. rewrite decide_False by done. cbn [c_ret]. rewrite decide_False by (by intros H; destruct H).
  unfold call_xrecv. cbn. rewrite Hx. cbn. done.
Qed.

Lemma receives_immediate n m st :
  (∀ h w s m, msg_check m = true → ∃ h' w' s' m', x_recv h w s m = Done (h', w', s', m', RcOk) ∧ msg_check m' = true) →
  msg_check m = true → sb_ctx_terminated (st_base st) = false →
  inbound_poll_rate ≤ sb_ticks (st_base st) → sb_ticks (st_base st) + Z.of_nat n < 2 ^ 31 →
  ∃ st', receives n st st' ∧ st_env st' = st_env st.
Proof.
  unfold inbound_poll_rate. intros Hx. revert m st. induction n as [|n IH]; intros m st Hck Ht Hlo Hhi; [exists st; by split; [constructor|]|].
  destruct (Hx (st_heap st) (st_world st) (sb_sock (st_base st)) m Hck) as (h & w & s & m' & E & Hck').
  assert (Hs : s32 (sb_ticks (st_base st) + 1) = sb_ticks (st_base st) + 1) by (unfold s32; rewrite Z.mod_small; lia).
  destruct (recv_immediate m 0 st h w s m') as (st1 & Hr & Ht1 & Hticks & He); [done|done|unfold inbound_poll_rate; lia|done|].
  destruct (IH m' st1) as (st' & Hrs & He'); [done|done|lia|lia|]. exists st'. split; [by econstructor|congruence].
Qed.

(** ** A receive with a timeout returns *)

(** The answers that end a look into the mailbox. *)
Fixpoint nones (mail : list mail_answer) : nat :=
  match mail with [] => 0 | MNone :: mail => Datatypes.S (nones mail) | _ :: mail => nones mail end.

Lemma nones_length mail : (nones mail ≤ length mail)%nat.
Proof. induction mail as [|[]]; simpl; lia. Qed.

Section returns.
Context (inv : heap → W → S → msg_t → Prop).
Hypothesis recv_total : ∀ h w s m, inv h w s m → ∃ h' w' s' m' rc, x_recv h w s m = Done (h', w', s', m', rc) ∧ inv h' w' s' m'.
Hypothesis command_total : ∀ h w s m c, inv h w s m → ∃ h' w' s', x_command h w s c = Done (h', w', s') ∧ inv h' w' s' m.

Definition st_inv (m : msg_t) (st : state) : Prop := inv (st_heap st) (st_world st) (sb_sock (st_base st)) m.

(** One look into the mailbox uses up at most one of these answers. *)
Lemma drain_total fuel m a st :
  st_inv m st → (length (e_mail (st_env st)) < fuel)%nat → a = MNone ∨ (1 ≤ nones (e_mail (st_env st)))%nat →
  ∃ st', drain_commands fuel a st = Done (Some ((), st')) ∧ st_inv m st' ∧ e_tsc (st_env st') = e_tsc (st_env st)
    ∧ (nones (e_mail (st_env st)) ≤ nones (e_mail (st_env st')) + if a is MNone then 0 else 1)%nat.
Proof.
  revert a st. induction fuel as [|fuel IH]; intros a st Hi Hf Ha; [lia|]. destruct a as [c| |]; cbn [drain_commands].
  - destruct Ha as [|Ha]; [done|]. destruct st as [h w b [tsc mail clock]]. simpl in *. destruct mail as [|a mail]; [simpl in Ha; lia|].
    assert (Hc : ∃ h' w' b', process_command c (State h w b (Env tsc (a :: mail) clock)) = Done (Some ((), State h' w' b' (Env tsc (a :: mail) clock)))
      ∧ st_inv m (State h' w' b' (Env tsc (a :: mail) clock))).
    { destruct c as [|c]; [by eexists _, _, _|]. simpl. destruct (command_total h w (sb_sock b) m c Hi) as (h' & w' & s' & -> & Hi'). by eexists _, _, _. }
    destruct Hc as (h' & w' & b' & E & Hi'). unfold c_bind at 1. rewrite E. unfold c_bind, mailbox_recv. simpl.
    destruct (IH a (State h' w' b' (Env tsc mail clock))) as (st' & -> & Hi'' & Ht & Hn); [done|simpl in *; lia|destruct a; simpl in *; auto with lia|].
    exists st'. simpl in *. split_and!; [done|done|done|]. destruct a; simpl in *; lia.
  - exists st. split_and!; [done|done|done|]. lia.
  - destruct Ha as [|Ha]; [done|]. destruct st as [h w b [tsc mail clock]]. simpl in *. destruct mail as [|a mail]; [simpl in Ha; lia|].
    unfold c_bind, mailbox_recv. simpl.
    destruct (IH a (State h w b (Env tsc mail clock))) as (st' & -> & Hi'' & Ht & Hn); [done|simpl in *; lia|destruct a; simpl in *; auto with lia|].
    exists st'. simpl in *. split_and!; [done|done|done|]. destruct a; simpl in *; lia.
Qed.

Lemma process_commands_total timeout m st :
  st_inv m st → (timeout = 0 → e_tsc (st_env st) ≠ []) → (1 ≤ nones (e_mail (st_env st)))%nat →
  ∃ rc st', process_commands timeout false st = Done (Some (rc, st')) ∧ st_inv m st'
    ∧ e_tsc (st_env st') = (if decide (timeout = 0) then tail (e_tsc (st_env st)) else e_tsc (st_env st))
    ∧ (nones (e_mail (st_env st)) ≤ nones (e_mail (st_env st')) + 1)%nat.
Proof.
  intros Hi Ht Hn. destruct st as [h w b [tsc mail clock]]. simpl in *. destruct mail as [|a mail]; [simpl in Hn; lia|].
  set (tsc' := if decide (timeout = 0) then tail tsc else tsc).
  assert (E : process_commands timeout false (State h w b (Env tsc (a :: mail) clock)) =
    match a with
    | MInterrupted => Done (Some (RcErr EINTR, State h w b (Env tsc' mail clock)))
    | _ => c_bind (λ st, drain_commands (mail_fuel st) a st) (λ _, c_bind c_base (λ b, c_ret (if sb_ctx_terminated b then RcErr ETERM else RcOk)))
             (State h w b (Env tsc' mail clock))
    end).
  { unfold process_commands, tsc'. case_decide as Hz.
    - destruct tsc as [|t tsc]; [by destruct Ht|]. unfold c_bind at 1 2. unfold rdtsc. simpl. rewrite andb_false_r. by destruct a.
    - unfold c_bind at 1. by destruct a. }
  rewrite E. destruct a as [c| |]; [..|by eexists _, _; split_and!; [done|done|done|simpl; lia]].
  - destruct (drain_total (mail_fuel (State h w b (Env tsc' mail clock))) m (MCommand c) (State h w b (Env tsc' mail clock))) as (st' & Hd & Hi' & Htsc & Hnn);
      [done|unfold mail_fuel; simpl; lia|by right|].
    unfold c_bind at 1. rewrite Hd. eexists _, st'. split_and!; [done|done|done|]. simpl in *. lia.
  - destruct (drain_total (mail_fuel (State h w b (Env tsc' mail clock))) m MNone (State h w b (Env tsc' mail clock))) as (st' & Hd & Hi' & Htsc & Hnn);
      [done|unfold mail_fuel; simpl; lia|by left|].
    unfold c_bind at 1. rewrite Hd. eexists _, st'. split_and!; [done|done|done|]. simpl in *. lia.
Qed.

Lemma call_xrecv_total m st :
  st_inv m st → ∃ m' rc st', call_xrecv m st = Done (Some ((m', rc), st')) ∧ st_inv m' st' ∧ st_env st' = st_env st.
Proof.
  intros Hi. unfold call_xrecv. destruct (recv_total _ _ _ _ Hi) as (h & w & s & m' & rc & -> & Hi'). rewrite bind_Done.
  by eexists _, _, _.
Qed.

Lemma recv_wait_total used t rest fuel m block timeout end_ms st :
  st_inv m st → 0 < timeout → e_clock (st_env st) = used ++ t :: rest → remaining end_ms t ≤ 0 →
  (length used < nones (e_mail (st_env st)))%nat → (block = false → e_tsc (st_env st) ≠ []) → (length (e_mail (st_env st)) < fuel)%nat →
  ∃ r st', recv_wait fuel m block timeout end_ms st = Done (Some (r, st')).
Proof.
  revert fuel m block timeout st. induction used as [|t1 used IH]; intros fuel m block timeout st Hi Ht Hc Hr Hn Hb Hf;
    (destruct fuel as [|fuel]; [lia|]); cbn [recv_wait];
    (destruct (process_commands_total (if block then timeout else 0) m st Hi) as (rc1 & st1 & Hp & Hi1 & _ & Hn1); [destruct block; [lia|auto]|simpl in *; lia|]);
    pose proof (process_commands_inv _ _ _ _ _ Hp) as ([_ Hc1 _] & _ & _ & Hl1); specialize (Hl1 eq_refl);
    unfold c_bind at 1; rewrite Hp; (case_decide; [by eexists _, _|]);
    destruct (call_xrecv_total m st1 Hi1) as (m2 & rc2 & st2 & Hx & Hi2 & He2); unfold c_bind at 1; rewrite Hx;
    (case_decide; [by eexists _, _|]); (case_decide; [by eexists _, _|]); rewrite decide_True by done;
    destruct st2 as [h2 w2 b2 [tsc2 mail2 clock2]]; simpl in He2; rewrite <- He2, Hc in Hc1; simpl in Hc1; subst clock2; unfold c_bind, now_ms; simpl.
  - rewrite decide_True by done. by eexists _, _.
  - case_decide as Hrem; [by eexists _, _|]. rewrite <- He2 in *. simpl in *. apply IH; simpl; [done|lia|done|done|lia|done|lia].
Qed.

Lemma recv_tick_total m st :
  st_inv m st → e_tsc (st_env st) ≠ [] → (1 ≤ nones (e_mail (st_env st)))%nat →
  ∃ rc st', recv_tick st = Done (Some (rc, st')) ∧ st_inv m st' ∧ (length (e_tsc (st_env st)) ≤ length (e_tsc (st_env st')) + 1)%nat
    ∧ (nones (e_mail (st_env st)) ≤ nones (e_mail (st_env st')) + 1)%nat.
Proof.
  intros Hi Ht Hn. unfold recv_tick, c_bind at 1 2, c_base, c_modify at 1. case_decide.
  - destruct (process_commands_total 0 m (st_on_base (sb_set_ticks (s32 (sb_ticks (st_base st) + 1))) st)) as (rc & st' & Hp & Hi' & Ht' & Hn'); [done|done|done|].
    unfold c_bind at 1. rewrite Hp. rewrite decide_True in Ht' by done. simpl in Ht', Hn'.
    assert (length (e_tsc (st_env st)) ≤ length (e_tsc (st_env st')) + 1)%nat by (rewrite Ht'; destruct (e_tsc (st_env st)); simpl; lia).
    case_decide; by eexists _, _.
  - eexists _, _. split_and!; [done|done|simpl; lia|simpl; lia].
Qed.

Lemma deadline_total timeout m st t0 ts :
  0 ≤ timeout → st_inv m st → e_clock (st_env st) = t0 :: ts →
  ∃ st', deadline timeout st = Done (Some (u64 (t0 + timeout), st')) ∧ st_inv m st' ∧ e_clock (st_env st') = ts
    ∧ e_mail (st_env st') = e_mail (st_env st) ∧ e_tsc (st_env st') = e_tsc (st_env st).
Proof.
  intros Ht Hi Hc. unfold deadline. rewrite decide_False by lia. destruct st as [h w b [tsc mail clock]]. simpl in Hc. subst clock. by eexists.
Qed.

Lemma recv_total_timeout m flags st t0 ts t :
  st_inv m st → options_typed (sb_options (st_base st)) → clock_ok (e_clock (st_env st)) →
  let timeout := o_int (sb_options (st_base st)) rcvtimeo in
  0 ≤ timeout → e_clock (st_env st) = t0 :: ts → t ∈ ts → t0 + timeout ≤ t →
  (length ts + 2 ≤ nones (e_mail (st_env st)))%nat → (2 ≤ length (e_tsc (st_env st)))%nat →
  ∃ r st', recv m flags st = Done (Some (r, st')).
Proof.
  intros Hi Hty Hck timeout Ht Hclk Hin Hend Hn Htsc.
  assert (Hne : e_tsc (st_env st) ≠ []) by (intros E; rewrite E in Htsc; simpl in Htsc; lia).
  destruct (recv_tick_total m st Hi Hne ltac:(lia)) as (rc1 & st1 & H1 & Hi1 & Ht1 & Hn1).
  pose proof (recv_tick_inv _ _ _ H1) as ([Ho1 Hc1 _] & _).
  unfold recv. unfold c_bind at 1, c_base at 1. destruct (sb_ctx_terminated _); [by eexists _, _|]. destruct (negb _); [by eexists _, _|].
  unfold c_bind at 1. rewrite H1. case_decide; [by eexists _, _|].
  destruct (call_xrecv_total m st1 Hi1) as (m2 & rc2 & st2 & Hx & Hi2 & He2). pose proof (call_xrecv_keeps _ _ _ _ _ Hx) as ([Ho2 _ _] & _).
  unfold c_bind at 1. rewrite Hx. unfold c_bind at 1, c_base at 1. rewrite Ho2, Ho1. fold timeout.
  case_decide; [by eexists _, _|]. case_decide; [by eexists _, _|].
  assert (Htsc2 : e_tsc (st_env st2) ≠ []) by (rewrite He2; destruct (e_tsc (st_env st1)); simpl in *; [lia|done]).
  case_decide as Hnb.
  - destruct (process_commands_total 0 m2 st2) as (rc3 & st3 & Hp3 & Hi3 & _); [done|done|rewrite He2; lia|].
    unfold c_bind at 1. rewrite Hp3. case_decide; [by eexists _, _|]. unfold c_bind at 1, c_modify.
    destruct (call_xrecv_total m2 (st_on_base (sb_set_ticks 0) st3)) as (m4 & rc4 & st4 & Hx4 & _); [done|].
    unfold c_bind at 1. rewrite Hx4. case_decide; by eexists _, _.
  - assert (Hcl : e_clock (st_env st2) = t0 :: ts) by (by rewrite He2, Hc1). rewrite <- He2 in Hn1. rewrite Hclk in Hck. clear He2 Hc1 H1 Hx.
    destruct (deadline_total timeout m2 st2 t0 ts) as (st3 & Hd & Hi3 & Hc3 & Hm3 & Ht3); [done..|]. unfold c_bind. rewrite Hd.
    apply list_elem_of_split in Hin as (used & rest & ->). destruct Hck as [Ht0 Hall].
    assert (Hlt : timeout < 2 ^ 31) by apply (ot_int _ Hty rcvtimeo).
    eapply (recv_wait_total used t rest); [exact Hi3|lia|done| |rewrite Hm3; rewrite length_app in Hn; simpl in Hn; lia|by rewrite Ht3|unfold mail_fuel; lia].
    rewrite remaining_spec; [lia|done|lia|]. apply Forall_app in Hall as [_ [? _]%Forall_cons]. done.
Qed.

End returns.

End socket_base.

Arguments command : clear implicits.
Arguments mail_answer : clear implicits.
Arguments env : clear implicits.
Arguments socket_base_t : clear implicits.
Arguments state : clear implicits.

(** ** Properties *)

(** C27: every way in which a receive returns.  With a valid message and a clock that does not jump, for every socket type and whatever the mailbox, the
    clock and the tick counter answer: success means that the socket type has delivered the message in the final state and that SL_RCVMORE is its more
    flag; EAGAIN means that the call was non-blocking, or that the clock has reached the start of the wait plus the receive timeout, so that a receive
    with an infinite timeout never gives up and one with a finite timeout never gives up early; any other error is an error of the socket type, an
    interrupted wait, or ETERM on a socket whose context has been terminated. *)
Theorem recv_outcomes {W S C} `{!SocketType W S C} (st st' : state W S C) m flags m' rc :
  msg_check m = true → clock_ok (e_clock (st_env st)) → options_typed (sb_options (st_base st)) →
  recv m flags st = Done (Some ((m', rc), st')) →
  let timeout := o_int (sb_options (st_base st)) rcvtimeo in
  wait_result st' m' rc (Z.land flags SL_DONTWAIT ≠ 0 ∨ timeout = 0 ∨ 0 < timeout ∧ deadline_passed st timeout).
Proof.
  intros Hck Hclk Hty H timeout. unfold recv in H. apply c_bind_inv in H as (b & st0 & Hb & H). unfold c_base in Hb. simplify_eq.
  destruct (sb_ctx_terminated (st_base st0)) eqn:Hterm; [unfold c_ret in H; simplify_eq; simpl; auto|]. rewrite Hck in H. cbn [negb] in H.
  apply c_bind_inv in H as (rc1 & st1 & (Hk1 & Hrc1)%recv_tick_inv & H).
  case_decide as Hok; [unfold c_ret in H; simplify_eq; apply wait_result_commands; naive_solver|].
  apply c_bind_inv in H as ([m2 rc2] & st2 & Hx & H). pose proof (call_xrecv_keeps _ _ _ _ _ Hx) as (Hk2 & _ & _).
  pose proof (call_xrecv_inv _ _ _ _ _ Hx) as (h & w & s & Hxr & _).
  apply c_bind_inv in H as (b & st2' & Hb & H). unfold c_base in Hb. simplify_eq.
  assert (Ho : sb_options (st_base st2') = sb_options (st_base st0)) by (destruct Hk1, Hk2; congruence).
  assert (Hc : e_clock (st_env st2') = e_clock (st_env st0)) by (destruct Hk1, Hk2; congruence).
  rewrite Ho in H. fold timeout in H.
  destruct rc2 as [|e]; [rewrite decide_True in H by done; by destruct (xrecv_done_delivered _ _ _ _ _ _ _ Hx H) as (-> & -> & Hd)|].
  rewrite decide_False in H by done. case_decide as Hag.
  { unfold c_ret in H. simplify_eq. eapply type_error_result; [exact Hxr|congruence]. }
  assert (e = EAGAIN) as -> by congruence. case_decide as Hnb.
  - apply c_bind_inv in H as (rc3 & st3 & (_ & _ & Hrc3 & _)%process_commands_inv & H).
    case_decide; [unfold c_ret in H; simplify_eq; apply wait_result_commands; naive_solver|].
    apply c_bind_inv in H as ([] & st4 & _ & H). apply c_bind_inv in H as ([m5 rc5] & st5 & Hx5 & H).
    case_decide as H5; [subst rc5; by destruct (xrecv_done_delivered _ _ _ _ _ _ _ Hx5 H) as (-> & -> & Hd)|].
    unfold c_ret in H. simplify_eq. destruct rc as [|e]; [done|]. destruct (decide (e = EAGAIN)) as [->|He]; [simpl; tauto|].
    apply call_xrecv_inv in Hx5 as (h5 & w5 & s5 & Hx5 & _). by eapply type_error_result.
  - apply c_bind_inv in H as (end_ms & st3 & (Hb3 & Hd)%deadline_inv & H). apply recv_wait_inv in H as [_ H].
    eapply wait_result_mono; [|exact H]. intros [Ht He]. right. right. split; [done|]. rewrite decide_False in Hd by lia.
    destruct Hd as (t0 & Hd & ->). assert (timeout < 2 ^ 31) by apply (ot_int _ Hty rcvtimeo).
    eapply expired_deadline; [done| |lia|exact He]. congruence.
Qed.

(** A busy socket does not starve its commands: from a state whose tick count is in range, any hundred receives in a row that succeed, however long
    the queue of messages, have taken at least one answer of the mailbox, so that commands are processed at least once per inbound_poll_rate messages. *)
Lemma recv_polls_mailbox {W S C} `{!SocketType W S C} (st st' : state W S C) :
  0 ≤ sb_ticks (st_base st) < inbound_poll_rate → receives 100 st st' →
  (length (e_mail (st_env st')) < length (e_mail (st_env st)))%nat.
Proof. intros Ht Hr. destruct (receives_counts 100 st st' Hr Ht) as [?|[_ ?]]; [done|]. unfold inbound_poll_rate in *. lia. Qed.

(** One interruption switches that off.  When the hundredth receive is interrupted while it looks for commands, the tick count stays at
    inbound_poll_rate and the next count passes it: as long as messages keep coming, the socket then receives up to 2^31 - 101 of them without looking
    at its mailbox again, whatever commands wait there, the stop command of the context included. *)
Lemma recv_interrupted_starves {W S C} `{!SocketType W S C} (st : state W S C) m flags tsc tscs mail n :
  (∀ h w s m, msg_check m = true → ∃ h' w' s' m', x_recv h w s m = Done (h', w', s', m', RcOk) ∧ msg_check m' = true) →
  msg_check m = true → sb_ctx_terminated (st_base st) = false → sb_ticks (st_base st) = 99 →
  e_tsc (st_env st) = tsc :: tscs → e_mail (st_env st) = MInterrupted :: mail → Z.of_nat n < 2 ^ 31 - 100 →
  ∃ st1 st2, recv m flags st = Done (Some ((m, RcErr EINTR), st1)) ∧ receives n st1 st2 ∧ e_mail (st_env st2) = mail.
Proof.
  intros Hx Hck Ht H99 Htsc Hmail Hn. destruct st as [h w b [tl ml cl]]. simpl in *. subst tl ml.
  eexists (State h w (sb_set_ticks 100 b) (Env tscs mail cl)). edestruct (receives_immediate n m) as (st2 & Hr & He); [exact Hx|exact Hck| | | |exists st2; split; [|split; [exact Hr|by rewrite He]]]; [done|done|simpl; lia|].
  unfold recv, c_bind, c_base. simpl. rewrite Ht, Hck. cbn [negb]. unfold recv_tick, c_bind, c_base, c_modify. simpl. rewrite H99.
  unfold process_commands, c_bind, rdtsc, mailbox_recv. simpl. by rewrite andb_false_r.
Qed.

(** A receive with a timeout returns.  For every socket type whose receive and command handlers complete (under an invariant that they keep), a receive
    with a receive timeout that is not infinite returns as soon as the clock shows the deadline: if some reading of the clock is at or after the start of
    the wait plus the timeout, and the mailbox answers often enough that it is empty, then the call gives a result; it is never stuck in its loop. *)
Lemma recv_timeout_returns {W S C} `{!SocketType W S C} (inv : heap → W → S → msg_t → Prop) (st : state W S C) m flags t0 ts t :
  (∀ h w s m, inv h w s m → ∃ h' w' s' m' rc, x_recv h w s m = Done (h', w', s', m', rc) ∧ inv h' w' s' m') →
  (∀ h w s m c, inv h w s m → ∃ h' w' s', x_command h w s c = Done (h', w', s') ∧ inv h' w' s' m) →
  inv (st_heap st) (st_world st) (sb_sock (st_base st)) m →
  options_typed (sb_options (st_base st)) → clock_ok (e_clock (st_env st)) →
  let timeout := o_int (sb_options (st_base st)) rcvtimeo in
  0 ≤ timeout → e_clock (st_env st) = t0 :: ts → t ∈ ts → t0 + timeout ≤ t →
  (length ts + 2 ≤ nones (e_mail (st_env st)))%nat → (2 ≤ length (e_tsc (st_env st)))%nat →
  ∃ m' rc st', recv m flags st = Done (Some ((m', rc), st')).
Proof.
  intros Hr Hc Hi Hty Hck timeout Ht Hclk Hin Hend Hn Htsc.
  destruct (recv_total_timeout inv Hr Hc m flags st t0 ts t) as ([m' rc] & st' & E); [done..|]. eauto.
Qed.

(** ** Examples *)

(** A socket whose commands are the messages that arrive. *)
Definition queue_recv (h : heap) (w : ()) (q : list msg_t) (m : msg_t) : outcome (heap * () * list msg_t * msg_t * rc_t) :=
  match q with [] => Done (h, w, [], m, RcErr EAGAIN) | m' :: q => Done (h, w, q, m', RcOk) end.

#[local] Instance queue_socket : SocketType () (list msg_t) msg_t := {|
  x_send := default_xsend;
  x_recv := queue_recv;
  x_has_in h w q := Done (h, w, q, bool_decide (q ≠ []));
  x_has_out := default_xhas;
  x_setsockopt := default_xsetsockopt;
  x_getsockopt := default_xgetsockopt;
  x_command h w q m := Done (h, w, q ++ [m]);
  x_set_hwms w q inhwm outhwm := w;
|}.

Definition example_base (ticks : Z) (o : options_t) (q : list msg_t) : socket_base_t (list msg_t) := SocketBase q false 0 ticks false o [] 7.
Definition example_state (ticks : Z) (o : options_t) (q : list msg_t) (e : env msg_t) : state () (list msg_t) msg_t :=
  State (empty_heap (λ _, true)) () (example_base ticks o q) e.

(** An infinite wait that is woken up twice, the second time by a message. *)
Definition example_wait : state () (list msg_t) msg_t :=
  example_state 5 options_new [] (Env [1; 2; 3] [MNone; MNone; MCommand (COther msg_init); MNone] [10; 20]).

Lemma recv_outcomes_witness :
  ∃ st', recv msg_init 0 example_wait = Done (Some ((msg_init, RcOk), st')) ∧ delivered msg_init st'.
Proof.
  eexists. split; [by vm_compute|].
  apply (recv_outcomes example_wait _ msg_init 0 msg_init RcOk); [done| |exact options_new_typed|by vm_compute].
  simpl. split; [lia|]. repeat constructor; simpl; lia.
Defined.

Definition option_timeout : options_t := o_set_int rcvtimeo 50 options_new.

Lemma option_timeout_typed : options_typed option_timeout.
Proof. apply (setsockopt_typed options_new 27 (Some (int_bytes 50)) _ RcOk); [by repeat (constructor; [vm_compute; split; congruence|]); constructor|exact options_new_typed|by vm_compute]. Qed.

Definition example_timeout : state () (list msg_t) msg_t :=
  example_state 5 option_timeout [] (Env [1; 2; 3] [MNone; MNone; MNone; MNone] [10; 60]).

Lemma recv_timeout_returns_witness :
  ∃ m' rc st', recv msg_init 0 example_timeout = Done (Some ((m', rc), st')).
Proof.
  apply (recv_timeout_returns (λ _ _ _ _, True) example_timeout msg_init 0 10 [60] 60).
  - intros h w q m _. destruct q; by eexists _, _, _, _, _.
  - intros h w q m c _. by eexists _, _, _.
  - done.
  - exact option_timeout_typed.
  - simpl. split; [lia|]. repeat constructor; simpl; lia.
  - by vm_compute.
  - done.
  - set_solver.
  - by vm_compute.
  - simpl. lia.
  - simpl. lia.
Defined.

(** A hundred receives from a full queue. *)
Definition example_busy : state () (list msg_t) msg_t :=
  example_state 0 options_new (replicate 200 msg_init) (Env [1] [MNone] []).

Fixpoint recv_many (n : nat) (st : state () (list msg_t) msg_t) : option (state () (list msg_t) msg_t) :=
  match n with
  | O => Some st
  | Datatypes.S n => match recv msg_init 0 st with Done (Some ((_, RcOk), st)) => recv_many n st | _ => None end
  end.

Lemma recv_many_receives n st st' : recv_many n st = Some st' → receives n st st'.
Proof.
  revert st. induction n as [|n IH]; intros st H; [injection H as <-; constructor|]. cbn [recv_many] in H.
  destruct (recv msg_init 0 st) as [[[[m' []] st1]|]| |] eqn:E; try done. econstructor; [exact E|by apply IH].
Qed.

Lemma recv_polls_mailbox_witness :
  match recv_many 100 example_busy with
  | Some st' => (length (e_mail (st_env st')) < length (e_mail (st_env example_busy)))%nat
  | None => False
  end.
Proof.
  destruct (recv_many 100 example_busy) as [st'|] eqn:E; [|by vm_compute in E].
  apply recv_many_receives in E. apply (recv_polls_mailbox example_busy st'); [|exact E]. clear E. vm_compute. split; congruence.
Defined.

(** A socket that always has a message. *)
#[local] Instance endless_socket : SocketType () () () := {|
  x_send := default_xsend;
  x_recv h w s m := Done (h, w, s, m, RcOk);
  x_has_in h w s := Done (h, w, s, true);
  x_has_out := default_xhas;
  x_setsockopt := default_xsetsockopt;
  x_getsockopt := default_xgetsockopt;
  x_command h w s c := Done (h, w, s);
  x_set_hwms w s inhwm outhwm := w;
|}.

Lemma recv_interrupted_starves_witness :
  ∃ st1 st2 : state () () (),
    recv msg_init 0 (State (empty_heap (λ _, true)) () (SocketBase () false 0 99 false options_new [] 7) (Env [1] [MInterrupted; MCommand CStop] []))
      = Done (Some ((msg_init, RcErr EINTR), st1))
    ∧ receives 1000%nat st1 st2 ∧ e_mail (st_env st2) = [MCommand CStop].
Proof.
  apply (recv_interrupted_starves _ msg_init 0 1 [] [MCommand CStop] 1000%nat); [|done..|].
  - intros h w s m Hm. by eexists _, _, _, _.
  - by vm_compute.
Defined.
