(* ===== verification/Own.v ===== *)
(** The tree of objects and its shutdown (src/core/own.cpp, the dispatch of
    src/core/object.cpp, and what socket_base.cpp and session_base.cpp add to it).

    Every object is owned by another one, except the roots.  An object that terminates
    asks the objects it owns to terminate, waits for their acknowledgements and for its
    pipes, acknowledges its own owner and is deallocated.  Objects live in different
    threads: the commands between them are in flight ([os_net]) and arrive in any
    order, except that those for one object arrive in the order in which they were
    sent.  Sequence numbers keep an object alive while commands are on their way to it.

    An object is an identifier that is never used twice.  An access to an object that
    has been deallocated is [Undef]. *)
From S2P Require Import Prelude.

Local Open Scope sl_scope.

(** ** State *)

(** [socket_base_t], [session_base_t] and the other objects. *)
Inductive kind := KSocket | KSession | KPlain.

Record own_t := Own {
  ow_kind : kind;
  ow_terminating : bool;
  ow_sent_seqnum : Z;           (* an atomic_counter_t: 32 bits *)
  ow_processed_seqnum : Z;      (* 64 bits *)
  ow_owner : option nat;
  ow_owned : gset nat;
  ow_term_acks : Z;
  ow_pipes : nat;               (* the pipes of a socket or a session *)
  ow_pipe : bool;               (* of a session: one of them is [_pipe], the others are [_terminating_pipes] *)
  ow_pending : bool;            (* of a session: waits for its pipes before it terminates *)
  ow_awaited : gset nat;        (* not in the code: the objects that were asked to terminate *)
}.

Definition own_new (k : kind) (owner : option nat) : own_t := Own k false 0 0 owner ∅ 0 0 false false ∅.

Definition o_set_terminating (o : own_t) : own_t :=
  Own (ow_kind o) true (ow_sent_seqnum o) (ow_processed_seqnum o) (ow_owner o) (ow_owned o) (ow_term_acks o) (ow_pipes o) (ow_pipe o) (ow_pending o) (ow_awaited o).
Definition o_set_owned (l : gset nat) (o : own_t) : own_t :=
  Own (ow_kind o) (ow_terminating o) (ow_sent_seqnum o) (ow_processed_seqnum o) (ow_owner o) l (ow_term_acks o) (ow_pipes o) (ow_pipe o) (ow_pending o) (ow_awaited o).
Definition o_set_pipes (n : nat) (o : own_t) : own_t :=
  Own (ow_kind o) (ow_terminating o) (ow_sent_seqnum o) (ow_processed_seqnum o) (ow_owner o) (ow_owned o) (ow_term_acks o) n (ow_pipe o) (ow_pending o) (ow_awaited o).
Definition o_set_pipe (b : bool) (o : own_t) : own_t :=
  Own (ow_kind o) (ow_terminating o) (ow_sent_seqnum o) (ow_processed_seqnum o) (ow_owner o) (ow_owned o) (ow_term_acks o) (ow_pipes o) b (ow_pending o) (ow_awaited o).
Definition o_set_pending (b : bool) (o : own_t) : own_t :=
  Own (ow_kind o) (ow_terminating o) (ow_sent_seqnum o) (ow_processed_seqnum o) (ow_owner o) (ow_owned o) (ow_term_acks o) (ow_pipes o) (ow_pipe o) b (ow_awaited o).
Definition o_set_awaited (l : gset nat) (o : own_t) : own_t :=
  Own (ow_kind o) (ow_terminating o) (ow_sent_seqnum o) (ow_processed_seqnum o) (ow_owner o) (ow_owned o) (ow_term_acks o) (ow_pipes o) (ow_pipe o) (ow_pending o) l.

(** [inc_seqnum], [_processed_seqnum++], [register_term_acks] and [_term_acks--] *)
Definition inc_seqnum (o : own_t) : own_t :=
  Own (ow_kind o) (ow_terminating o) (u32 (ow_sent_seqnum o + 1)) (ow_processed_seqnum o) (ow_owner o) (ow_owned o) (ow_term_acks o) (ow_pipes o) (ow_pipe o) (ow_pending o) (ow_awaited o).
Definition inc_processed (o : own_t) : own_t :=
  Own (ow_kind o) (ow_terminating o) (ow_sent_seqnum o) (u64 (ow_processed_seqnum o + 1)) (ow_owner o) (ow_owned o) (ow_term_acks o) (ow_pipes o) (ow_pipe o) (ow_pending o) (ow_awaited o).
Definition register_term_acks (n : Z) (o : own_t) : own_t :=
  Own (ow_kind o) (ow_terminating o) (ow_sent_seqnum o) (ow_processed_seqnum o) (ow_owner o) (ow_owned o) (s32 (ow_term_acks o + n)) (ow_pipes o) (ow_pipe o) (ow_pending o) (ow_awaited o).

(** The commands between objects; the argument of [CTermAck] is not in the code. *)
Inductive own_cmd :=
| CPlug
| COwn (child : nat)
| CAttach (ready : bool)      (* a session: an engine, without a handshake if [ready] *)
| CBind                       (* a socket: a pipe *)
| CTermReq (child : nat)
| CTerm
| CTermAck (child : nat).

#[export] Instance own_cmd_eq_dec : EqDecision own_cmd.
Proof. solve_decision. Defined.

Record own_sys := OwnSys {
  os_objs : gmap nat own_t;
  os_net : list (nat * own_cmd);
  os_next : nat;              (* the next identifier *)
}.

Definition own_empty : own_sys := OwnSys ∅ [] 0.

Definition get_obj (s : own_sys) (p : nat) : outcome own_t :=
  match os_objs s !! p with Some o => Done o | None => Undef end.
Definition put_obj (p : nat) (o : own_t) (s : own_sys) : own_sys := OwnSys (<[p := o]> (os_objs s)) (os_net s) (os_next s).
Definition send_cmd (d : nat) (c : own_cmd) (s : own_sys) : own_sys := OwnSys (os_objs s) (os_net s ++ [(d, c)]) (os_next s).
Definition send_terms (cs : list nat) (s : own_sys) : own_sys := OwnSys (os_objs s) (os_net s ++ ((λ c, (c, CTerm)) <$> cs)) (os_next s).

(** [send_plug], [send_own], [send_attach], [send_bind]: commands that are counted when they are processed; [inc]: their
    [inc_seqnum_].  A listener calls [inc_seqnum] itself before it sends an engine. *)
Definition send_seq (inc : bool) (d : nat) (c : own_cmd) (s : own_sys) : outcome own_sys :=
  o ← get_obj s d; Done (send_cmd d c (if inc then put_obj d (inc_seqnum o) s else s)).

(** ** own_t *)

(** The last assertion is the session's destructor's. *)
Definition check_term_acks (p : nat) (s : own_sys) : outcome own_sys :=
  o ← get_obj s p;
  if decide (ow_terminating o = true ∧ ow_processed_seqnum o = ow_sent_seqnum o ∧ ow_term_acks o = 0) then
    assert! bool_decide (ow_owned o = ∅);;
    let s := match ow_owner o with Some q => send_cmd q (CTermAck p) s | None => s end in
    assert! negb (ow_pipe o);;
    Done (OwnSys (delete p (os_objs s)) (os_net s) (os_next s))
  else Done s.

Definition process_seqnum (p : nat) (s : own_sys) : outcome own_sys :=
  o ← get_obj s p; check_term_acks p (put_obj p (inc_processed o) s).

(** The new object is made by the thread of [p]; it gets an owner, its plug command, and
    [p] a command to own it.  A session may have got its pipe before ([session_base_t::attach_pipe]). *)
Definition launch_child (p : nat) (k : kind) (with_pipe : bool) (s : own_sys) : outcome own_sys :=
  let c := os_next s in
  _ ← get_obj s p;
  s ← send_seq true c CPlug (OwnSys (<[c := o_set_pipe with_pipe (o_set_pipes (if with_pipe then 1 else 0) (own_new k (Some p)))]> (os_objs s)) (os_net s) (S c));
  send_seq true p (COwn c) s.

Definition process_term_req (p c : nat) (s : own_sys) : outcome own_sys :=
  o ← get_obj s p;
  if ow_terminating o then Done s
  else if decide (c ∉ ow_owned o) then Done s
  else
    let o := o_set_awaited ({[c]} ∪ ow_awaited o) (register_term_acks 1 (o_set_owned (ow_owned o ∖ {[c]}) o)) in
    Done (send_cmd c CTerm (put_obj p o s)).

Definition process_own (p c : nat) (s : own_sys) : outcome own_sys :=
  o ← get_obj s p;
  if ow_terminating o then Done (send_cmd c CTerm (put_obj p (o_set_awaited ({[c]} ∪ ow_awaited o) (register_term_acks 1 o)) s))
  else Done (put_obj p (o_set_owned ({[c]} ∪ ow_owned o) o) s).

(** [own_t::process_term] *)
Definition own_process_term (p : nat) (s : own_sys) : outcome own_sys :=
  o ← get_obj s p;
  assert! negb (ow_terminating o);;
  let s := send_terms (elements (ow_owned o)) s in
  let o := o_set_awaited (ow_owned o ∪ ow_awaited o)
    (o_set_terminating (o_set_owned ∅ (register_term_acks (Z.of_nat (size (ow_owned o))) o))) in
  check_term_acks p (put_obj p o s).

(** [process_term] of the kinds of objects: a socket waits for its pipes as for
    children, a session waits for its pipes before it starts. *)
Definition process_term (p : nat) (s : own_sys) : outcome own_sys :=
  o ← get_obj s p;
  match ow_kind o with
  | KSocket => own_process_term p (put_obj p (register_term_acks (Z.of_nat (ow_pipes o)) o) s)
  | KSession =>
      assert! negb (ow_pending o);;
      if decide (ow_pipes o = 0%nat) then own_process_term p s else Done (put_obj p (o_set_pending true o) s)
  | KPlain => own_process_term p s
  end.

Definition unregister_term_ack (p : nat) (s : own_sys) : outcome own_sys :=
  o ← get_obj s p;
  assert! bool_decide (0 < ow_term_acks o);;
  check_term_acks p (put_obj p (register_term_acks (-1) o) s).

(** [process_term_ack] *)
Definition process_term_ack (p c : nat) (s : own_sys) : outcome own_sys :=
  o ← get_obj s p; unregister_term_ack p (put_obj p (o_set_awaited (ow_awaited o ∖ {[c]}) o) s).

Definition terminate (p : nat) (s : own_sys) : outcome own_sys :=
  o ← get_obj s p;
  if ow_terminating o then Done s
  else match ow_owner o with None => process_term p s | Some q => Done (send_cmd q (CTermReq p) s) end.

(** ** Pipes *)

(** [socket_base_t::attach_pipe] *)
Definition attach_pipe (p : nat) (s : own_sys) : outcome own_sys :=
  o ← get_obj s p;
  match ow_kind o with
  | KSocket =>
      let o := o_set_pipes (S (ow_pipes o)) o in
      Done (put_obj p (if ow_terminating o then register_term_acks 1 o else o) s)
  | _ => Done s
  end.

(** [session_base_t::engine_ready]; the other end of the new pipe is a bind command for the socket *)
Definition engine_ready (p : nat) (s : own_sys) : outcome own_sys :=
  o ← get_obj s p;
  match ow_kind o with
  | KSession => if negb (ow_pipe o) && negb (ow_terminating o) then Done (put_obj p (o_set_pipe true (o_set_pipes (S (ow_pipes o)) o)) s) else Done s
  | _ => Done s
  end.

(** [session_base_t::process_attach] *)
Definition process_attach (p : nat) (ready : bool) (s : own_sys) : outcome own_sys := if ready then engine_ready p s else Done s.

(** [session_base_t::reconnect]: the pipe becomes one of the terminating pipes *)
Definition reconnect (p : nat) (s : own_sys) : outcome own_sys :=
  o ← get_obj s p; Done (put_obj p (o_set_pipe false o) s).

(** [pipe_terminated] of a socket and of a session; for a session, whether it is [_pipe] *)
Definition pipe_terminated (p : nat) (current : bool) (s : own_sys) : outcome own_sys :=
  o ← get_obj s p;
  match ow_kind o with
  | KSocket =>
      let s := put_obj p (o_set_pipes (ow_pipes o - 1)%nat o) s in
      if ow_terminating o then unregister_term_ack p s else Done s
  | KSession =>
      assert! (if current then ow_pipe o else bool_decide (ow_pipes o - (if ow_pipe o then 1 else 0) ≠ 0)%nat);;
      let o := o_set_pipe (if current then false else ow_pipe o) (o_set_pipes (ow_pipes o - 1)%nat o) in
      if ow_pending o && bool_decide (ow_pipes o = 0%nat) then own_process_term p (put_obj p (o_set_pending false o) s)
      else Done (put_obj p o s)
  | KPlain => Done s
  end.

(** ** Steps *)

(** [object_t::process_command] *)
Definition own_command (p : nat) (c : own_cmd) (s : own_sys) : outcome own_sys :=
  match c with
  | CPlug => process_seqnum p s
  | COwn c => s ← process_own p c s; process_seqnum p s
  | CAttach ready => s ← process_attach p ready s; process_seqnum p s
  | CBind => s ← attach_pipe p s; process_seqnum p s
  | CTermReq c => process_term_req p c s
  | CTerm => process_term p s
  | CTermAck c => process_term_ack p c s
  end.

(** The oldest command in flight for [d]. *)
Fixpoint take_cmd (d : nat) (net : list (nat * own_cmd)) : option (own_cmd * list (nat * own_cmd)) :=
  match net with
  | [] => None
  | (d', c) :: net => if decide (d' = d) then Some (c, net) else prod_map id (cons (d', c)) <$> take_cmd d net
  end.

Inductive own_action :=
| ARoot                                        (* a socket is made *)
| ALaunch (p : nat) (session with_pipe : bool) (* the thread of [p] launches a child *)
| ATerminate (p : nat)                         (* the thread of [p] calls terminate *)
| ATermChild (p c : nat)                       (* term_endpoint *)
| AAttachPipe (p : nat)                        (* the thread of the socket [p] attaches a pipe *)
| AEngineReady (p : nat)                       (* the engine of the session [p] has shaken hands *)
| AReconnect (p : nat)
| ASendBind (p : nat) (inc : bool)             (* another thread sends a pipe or an engine; an inproc connection is sent with [inc] false *)
| ASendAttach (p : nat) (ready : bool)
| APipeTerminated (p : nat) (current : bool)   (* a pipe of [p] has terminated *)
| ADeliver (d : nat).                          (* [d] processes its oldest command *)

(** What the thread of [p] can do while the object lives. *)
Definition if_alive (s : own_sys) (p : nat) (f : own_sys → outcome own_sys) : outcome own_sys :=
  match os_objs s !! p with Some _ => f s | None => Done s end.

(** The pipe that reports its end is one that the object has. *)
Definition has_pipe (o : own_t) (current : bool) : bool :=
  match ow_kind o with
  | KSession => if current then ow_pipe o else bool_decide (ow_pipes o - (if ow_pipe o then 1 else 0) ≠ 0)%nat
  | _ => bool_decide (ow_pipes o ≠ 0)%nat
  end.

Definition own_step (s : own_sys) (a : own_action) : outcome own_sys :=
  match a with
  | ARoot => Done (OwnSys (<[os_next s := own_new KSocket None]> (os_objs s)) (os_net s) (S (os_next s)))
  | ALaunch p session with_pipe => if_alive s p (if session then launch_child p KSession with_pipe else launch_child p KPlain false)
  | ATerminate p => if_alive s p (terminate p)
  | ATermChild p c => if_alive s p (process_term_req p c)
  | AAttachPipe p => if_alive s p (attach_pipe p)
  | AEngineReady p => if_alive s p (engine_ready p)
  | AReconnect p => if_alive s p (reconnect p)
  | ASendBind p inc => if_alive s p (send_seq inc p CBind)
  | ASendAttach p ready => if_alive s p (send_seq true p (CAttach ready))
  | APipeTerminated p current =>
      if_alive s p (λ s, o ← get_obj s p; if has_pipe o current then pipe_terminated p current s else Done s)
  | ADeliver d =>
      match take_cmd d (os_net s) with Some (c, net) => own_command d c (OwnSys (os_objs s) net (os_next s)) | None => Done s end
  end.

Fixpoint own_run (s : own_sys) (acts : list own_action) : outcome own_sys :=
  match acts with [] => Done s | a :: acts => s ← own_step s a; own_run s acts end.

(** Every command that is counted at its destination was counted when it was sent. *)
Definition counted (a : own_action) : Prop := match a with ASendBind _ inc => inc = true | _ => True end.

(** ** The structure of the tree *)

(** What the tree consists of: owners, the objects owned, those asked to terminate, and
    whether the object has started to terminate itself. *)
Record skel := Skel { sk_owner : option nat; sk_owned : gset nat; sk_awaited : gset nat; sk_busy : bool }.

Definition skel_of (o : own_t) : skel := Skel (ow_owner o) (ow_owned o) (ow_awaited o) (ow_terminating o || ow_pending o).

Definition child (M : gmap nat skel) (p c : nat) : Prop := ∃ k, M !! c = Some k ∧ sk_owner k = Some p.

(** Where a child [c] of [p] is in its life: on its way to [p], owned, asked to
    terminate, terminating. *)
Definition stage (own owned awaited term busy : Prop) : Prop :=
  own ∧ ¬ owned ∧ ¬ awaited ∧ ¬ term ∧ ¬ busy
  ∨ ¬ own ∧ owned ∧ ¬ awaited ∧ ¬ term ∧ ¬ busy
  ∨ ¬ own ∧ ¬ owned ∧ awaited ∧ term ∧ ¬ busy
  ∨ ¬ own ∧ ¬ owned ∧ awaited ∧ ¬ term ∧ busy.

#[export] Instance stage_Proper : Proper (iff ==> iff ==> iff ==> iff ==> iff ==> iff) stage.
Proof. intros ? ? E1 ? ? E2 ? ? E3 ? ? E4 ? ? E5. unfold stage. by rewrite E1, E2, E3, E4, E5. Qed.

(** A request to terminate a child comes before the acknowledgement of that child. *)
Fixpoint req_ok (M : gmap nat skel) (net : list (nat * own_cmd)) : Prop :=
  match net with
  | [] => True
  | (p, CTermReq c) :: net => (child M p c ∨ (p, CTermAck c) ∈ net) ∧ req_ok M net
  | _ :: net => req_ok M net
  end.

(** The commands that are sent once. *)
Definition once (x : nat * own_cmd) : bool := match x.2 with COwn _ | CTerm | CTermAck _ => true | _ => false end.

Record struct_ok (M : gmap nat skel) (net : list (nat * own_cmd)) (next : nat) : Prop := {
  so_next p k : M !! p = Some k → (p < next)%nat ∧ (∀ c, c ∈ sk_awaited k → (c < next)%nat);
  so_dest d c : (d, c) ∈ net → is_Some (M !! d);
  so_child c k p : M !! c = Some k → sk_owner k = Some p →
    (p < c)%nat ∧ ∃ kp, M !! p = Some kp
      ∧ stage ((p, COwn c) ∈ net) (c ∈ sk_owned kp) (c ∈ sk_awaited kp) ((c, CTerm) ∈ net) (sk_busy k = true);
  so_root c k : M !! c = Some k → sk_owner k = None → (c, CTerm) ∉ net;
  so_owned p k c : M !! p = Some k → c ∈ sk_owned k → child M p c;
  so_awaited p k c : M !! p = Some k → c ∈ sk_awaited k → child M p c ∨ M !! c = None ∧ (p, CTermAck c) ∈ net;
  so_own p c : (p, COwn c) ∈ net → child M p c;
  so_ack p c : (p, CTermAck c) ∈ net → M !! c = None ∧ (c < next)%nat ∧ ∃ k, M !! p = Some k ∧ c ∈ sk_awaited k;
  so_req : req_ok M net;
  so_once : NoDup (filter (λ x, once x = true) net);
}.

Lemma take_cmd_Some d net c net' :
  take_cmd d net = Some (c, net') → ∃ l1 l2, net = l1 ++ (d, c) :: l2 ∧ net' = l1 ++ l2 ∧ Forall (λ x, x.1 ≠ d) l1.
Proof.
  revert net'. induction net as [|[d' c'] net IH]; intros net' H; [done|]. simpl in H. case_decide.
  - simplify_eq. exists [], net'. done.
  - apply fmap_Some in H as ([c1 net1] & H & [= -> ->]). destruct (IH _ H) as (l1 & l2 & -> & -> & Hf).
    exists ((d', c') :: l1), l2. split_and!; [done|done|by constructor].
Qed.

Lemma req_ok_mono M M' net : (∀ p c, child M p c → child M' p c) → req_ok M net → req_ok M' net.
Proof. intros HM. induction net as [|[p []] net IH]; simpl; auto. intros [[]]; auto. Qed.

Lemma req_ok_app M l1 l2 : req_ok M (l1 ++ l2) → req_ok M l2.
Proof. induction l1 as [|[p []] l1 IH]; simpl; naive_solver. Qed.

Lemma req_ok_snoc M net x : req_ok M net → (∀ c, x.2 = CTermReq c → child M x.1 c) → req_ok M (net ++ [x]).
Proof.
  induction net as [|[p c] net IH]; simpl; intros H Hx; [destruct x as [p []]; simpl in *; naive_solver|].
  destruct c; try (by apply IH). destruct H as [H1 H2]. split; [|by apply IH]. destruct H1; [by left|right; set_solver].
Qed.

Lemma req_ok_remove M l1 p c l2 :
  req_ok M (l1 ++ (p, c) :: l2) → (∀ c', c = CTermAck c' → Forall (λ x, x.1 ≠ p) l1) → req_ok M (l1 ++ l2).
Proof.
  intros H Hc. assert (Hgen : ∀ l, Forall (λ x : nat * own_cmd, ∀ c', c = CTermAck c' → x.1 ≠ p) l → req_ok M (l ++ (p, c) :: l2) → req_ok M (l ++ l2)).
  { intros l. induction l as [|[q d] l IH]; intros Hl; [intros ?; by apply (req_ok_app M [(p, c)])|].
    apply Forall_cons in Hl as [Hq Hl]. destruct d; simpl; try (by apply IH). intros [H1 H2]. split; [|by apply IH].
    destruct H1 as [H1|H1]; [by left|right]. rewrite elem_of_app, elem_of_cons in *.
    destruct H1 as [?|[[= -> <-]|?]]; [by left| |by right]. by destruct (Hq _ eq_refl). }
  apply Hgen; [|done]. rewrite Forall_forall in *. intros x Hx c' E. specialize (Hc c' E). rewrite Forall_forall in Hc. by apply Hc.
Qed.

Lemma req_ok_delete M net p k q :
  M !! p = Some k → sk_owner k = Some q → req_ok M net → req_ok (delete p M) (net ++ [(q, CTermAck p)]).
Proof.
  intros Hp Hq. induction net as [|[d c] net IH]; simpl; [done|]. destruct c; try done. intros [H1 H2]. split; [|by apply IH].
  destruct H1 as [(k' & Hk & Ho)|H1]; [|right; set_solver]. destruct (decide (child0 = p)) as [->|Hne].
  - right. simplify_eq. set_solver.
  - left. exists k'. by rewrite lookup_delete_ne.
Qed.

Lemma req_ok_delete_root M net p k : M !! p = Some k → sk_owner k = None → req_ok M net → req_ok (delete p M) net.
Proof.
  intros Hp Hq. induction net as [|[d c] net IH]; simpl; [done|]. destruct c; try done. intros [H1 H2]. split; [|by apply IH].
  destruct H1 as [(k' & Hk & Ho)|H1]; [|by right]. left. exists k'. rewrite lookup_delete_ne; [done|]. intros ->. congruence.
Qed.

Lemma once_remove l1 x l2 : NoDup (filter (λ x, once x = true) (l1 ++ x :: l2)) →
  NoDup (filter (λ x, once x = true) (l1 ++ l2)) ∧ (once x = true → x ∉ l1 ++ l2).
Proof.
  rewrite !filter_app, filter_cons. intros H. case_decide as Hx.
  - rewrite <- Permutation_middle in H. apply NoDup_cons in H as [Hn H]. split; [done|]. intros _ Hin. apply Hn.
    rewrite <- filter_app. by apply list_elem_of_filter.
  - done.
Qed.

Lemma once_snoc net x : NoDup (filter (λ x, once x = true) net) → (once x = true → x ∉ net) → NoDup (filter (λ x, once x = true) (net ++ [x])).
Proof.
  intros H Hx. rewrite filter_app, filter_cons, filter_nil. case_decide as Ho; [|by rewrite app_nil_r].
  apply NoDup_app. split_and!; [done| |apply NoDup_singleton]. intros y [_ Hy]%list_elem_of_filter ->%list_elem_of_singleton. by apply Hx.
Qed.

(** Commands without a meaning for the tree. *)
Definition plain (c : own_cmd) : Prop := match c with CPlug | CAttach _ | CBind | CTermReq _ => True | _ => False end.

Lemma elem_of_removed (x y : nat * own_cmd) l1 l2 : x ≠ y → x ∈ l1 ++ y :: l2 ↔ x ∈ l1 ++ l2.
Proof. intros. rewrite !elem_of_app, elem_of_cons. tauto. Qed.

Lemma struct_remove_plain M l1 p c l2 next : plain c → struct_ok M (l1 ++ (p, c) :: l2) next → struct_ok M (l1 ++ l2) next.
Proof.
  intros Hc []. assert (E : ∀ d c', ¬ plain c' → (d, c') ∈ l1 ++ (p, c) :: l2 ↔ (d, c') ∈ l1 ++ l2).
  { intros d c' Hn. apply elem_of_removed. congruence. }
  split; try done.
  - intros d c' H. apply (so_dest0 d c'). rewrite elem_of_app, elem_of_cons in *. tauto.
  - intros c' k q Hk Ho. destruct (so_child0 c' k q Hk Ho) as (Hlt & kp & Hkp & Hst). split; [done|]. exists kp. split; [done|]. by rewrite <- !E by (simpl; tauto).
  - intros c' k Hk Ho. rewrite <- E by (simpl; tauto). by eapply so_root0.
  - intros q k c' Hk Hin. rewrite <- E by (simpl; tauto). by eapply so_awaited0.
  - intros q c'. rewrite <- E by (simpl; tauto). apply so_own0.
  - intros q c'. rewrite <- E by (simpl; tauto). apply so_ack0.
  - eapply req_ok_remove; [done|]. intros c' ->. done.
  - by eapply once_remove.
Qed.

Lemma elem_of_snoc_ne (x y : nat * own_cmd) l : x ≠ y → x ∈ l ++ [y] ↔ x ∈ l.
Proof. intros. rewrite elem_of_app, list_elem_of_singleton. tauto. Qed.

Lemma struct_add_plain M net d c next :
  plain c → is_Some (M !! d) → (∀ c', c = CTermReq c' → child M d c') → struct_ok M net next → struct_ok M (net ++ [(d, c)]) next.
Proof.
  intros Hc Hd Hreq []. assert (E : ∀ q c', ¬ plain c' → (q, c') ∈ net ++ [(d, c)] ↔ (q, c') ∈ net).
  { intros q c' Hn. apply elem_of_snoc_ne. congruence. }
  split; try done.
  - intros d' c' [H|[= -> ->]%list_elem_of_singleton]%elem_of_app; [by eapply so_dest0|done].
  - intros c' k q Hk Ho. destruct (so_child0 c' k q Hk Ho) as (Hlt & kp & Hkp & Hst). split; [done|]. exists kp. split; [done|]. by rewrite !E by (simpl; tauto).
  - intros c' k Hk Ho. rewrite E by (simpl; tauto). by eapply so_root0.
  - intros q k c' Hk Hin. rewrite E by (simpl; tauto). by eapply so_awaited0.
  - intros q c'. rewrite E by (simpl; tauto). apply so_own0.
  - intros q c'. rewrite E by (simpl; tauto). apply so_ack0.
  - apply req_ok_snoc; [done|]. intros c' E'. simpl in E'. by apply Hreq.
  - apply once_snoc; [done|]. by destruct c.
Qed.

Lemma child_insert M p k k' q c : M !! p = Some k → sk_owner k' = sk_owner k → child (<[p := k']> M) q c ↔ child M q c.
Proof.
  intros Hp Ho. unfold child. destruct (decide (p = c)) as [->|Hne].
  - rewrite lookup_insert_eq. split; intros (k0 & ? & ?); simplify_eq; eexists; split; eauto; congruence.
  - by rewrite lookup_insert_ne.
Qed.

Lemma stage_iff a b c d e a' b' c' d' e' :
  a ↔ a' → b ↔ b' → c ↔ c' → d ↔ d' → e ↔ e' → stage a b c d e → stage a' b' c' d' e'.
Proof. unfold stage. tauto. Qed.

(** The three commands between [p] and a child [c] that the tree depends on. *)
Definition about (p c : nat) (x : nat * own_cmd) : Prop := x = (p, COwn c) ∨ x = (c, CTerm) ∨ x = (p, CTermAck c).

(** A change of what [p] knows about one object [c], with the commands about it: [c]
    is a child whose stage is consistent afterwards, or it is gone and forgotten. *)
Lemma struct_update M net net' next p k k' c :
  struct_ok M net next → M !! p = Some k → sk_owner k' = sk_owner k → sk_busy k' = sk_busy k →
  (∀ d, d ≠ c → (d ∈ sk_owned k' ↔ d ∈ sk_owned k) ∧ (d ∈ sk_awaited k' ↔ d ∈ sk_awaited k)) →
  (∀ x, ¬ plain x.2 → ¬ about p c x → x ∈ net' ↔ x ∈ net) → (∀ d x, (d, x) ∈ net' → is_Some (M !! d)) →
  (∃ kc, M !! c = Some kc ∧ sk_owner kc = Some p ∧ (p, CTermAck c) ∉ net'
     ∧ stage ((p, COwn c) ∈ net') (c ∈ sk_owned k') (c ∈ sk_awaited k') ((c, CTerm) ∈ net') (sk_busy kc = true))
  ∨ M !! c = None ∧ c ∉ sk_owned k' ∧ c ∉ sk_awaited k' ∧ (p, COwn c) ∉ net' ∧ (p, CTermAck c) ∉ net' ∧ (c, CTerm) ∉ net' →
  req_ok M net' → NoDup (filter (λ x, once x = true) net') →
  struct_ok (<[p := k']> M) net' next.
Proof.
  intros Hs Hp Ho' Hb' Hoth E Hdest Hc Hreq Honce. pose proof Hs as [].
  assert (Hch : ∀ q d, child (<[p := k']> M) q d ↔ child M q d) by (intros; by apply (child_insert M p k)).
  assert (Hlk : ∀ d kd, <[p := k']> M !! d = Some kd → ∃ kd', M !! d = Some kd' ∧ sk_owner kd' = sk_owner kd ∧ sk_busy kd' = sk_busy kd
    ∧ (d ≠ p → kd' = kd) ∧ (d = p → kd = k' ∧ kd' = k)).
  { intros d kd [[<- <-]|[Hne Hd]]%lookup_insert_Some; [exists k|exists kd]; by split_and!. }
  assert (Hnone : ∀ d, M !! d = None → <[p := k']> M !! d = None).
  { intros d Hn. rewrite lookup_insert_ne; [done|]. intros ->. congruence. }
  assert (Hack : (p, CTermAck c) ∉ net') by naive_solver.
  assert (Hlive : ∀ kc, M !! c = Some kc → sk_owner kc = Some p) by naive_solver.
  assert (Hterm : ∀ d, d ≠ c → (d, CTerm) ∈ net' ↔ (d, CTerm) ∈ net) by (intros d Hd; apply E; [simpl; tauto|intros [|[|]]; congruence]).
  assert (Howns : ∀ q d, d ≠ c → (q, COwn d) ∈ net' ↔ (q, COwn d) ∈ net) by (intros q d Hd; apply E; [simpl; tauto|intros [|[|]]; congruence]).
  assert (Hacks : ∀ q d, d ≠ c → (q, CTermAck d) ∈ net' ↔ (q, CTermAck d) ∈ net) by (intros q d Hd; apply E; [simpl; tauto|intros [|[|]]; congruence]).
  assert (Hackq : ∀ q, q ≠ p → (q, CTermAck c) ∈ net' ↔ (q, CTermAck c) ∈ net) by (intros q Hq; apply E; [simpl; tauto|intros [|[|]]; congruence]).
  assert (Hownq : ∀ q, q ≠ p → (q, COwn c) ∈ net' ↔ (q, COwn c) ∈ net) by (intros q Hq; apply E; [simpl; tauto|intros [|[|]]; congruence]).
  split; [| | | | | | | |by eapply req_ok_mono; [intros; by apply Hch|]|done].
  - intros q kq Hq. destruct (Hlk q kq Hq) as (kq' & Hq' & _ & _ & Hne & Heq). destruct (so_next0 _ _ Hq') as [? Ha]. split; [done|].
    intros d Hin. destruct (decide (q = p)) as [->|Hqp]; [|rewrite <- Hne in Hin by done; by apply Ha].
    destruct (Heq eq_refl) as [-> ->]. destruct (decide (d = c)) as [->|Hdc]; [|by apply Ha, Hoth].
    destruct Hc as [(kc & Hkc & _)|Hc]; [exact (proj1 (so_next0 c kc Hkc))|naive_solver].
  - intros d x Hx. apply lookup_insert_is_Some'. right. by eapply Hdest.
  - intros d kd q Hd Hod. destruct (Hlk d kd Hd) as (kd' & Hdd & Hod' & Hb & _). rewrite <- Hod' in Hod. rewrite <- Hb.
    destruct (so_child0 d kd' q Hdd Hod) as (Hltd & kq & Hkq & Hstd). split; [done|].
    destruct (decide (d = c)) as [->|Hdc].
    + destruct Hc as [(kc & Hkc & Hoc & _ & Hst)|[Hc _]]; [|congruence]. simplify_eq. exists k'. by rewrite lookup_insert_eq.
    + destruct (decide (p = q)) as [->|Hpq].
      * exists k'. rewrite lookup_insert_eq. split; [done|]. rewrite Hp in Hkq. injection Hkq as <-.
        rewrite Hterm, Howns by done. destruct (Hoth d Hdc) as [-> ->]. done.
      * exists kq. rewrite lookup_insert_ne by done. split; [done|]. by rewrite Hterm, Howns.
  - intros d kd Hd Ho. destruct (Hlk d kd Hd) as (kd' & Hdd & Hod' & _).
    destruct (decide (d = c)) as [->|Hdc]; [specialize (Hlive _ Hdd); congruence|]. rewrite Hterm by done. eapply so_root0; [done|congruence].
  - intros q kq d Hq Hin. rewrite Hch. destruct (Hlk q kq Hq) as (kq' & Hq' & _ & _ & Hne & Heq). destruct (decide (q = p)) as [->|Hqp].
    + destruct (Heq eq_refl) as [-> ->]. destruct (decide (d = c)) as [->|Hdc]; [|eapply so_owned0; [done|by apply Hoth]].
      destruct Hc as [(kc & Hkc & Hoc & _)|Hc]; [by exists kc|naive_solver].
    + rewrite <- Hne in Hin by done. by eapply so_owned0.
  - intros q kq d Hq Hin. rewrite Hch. destruct (Hlk q kq Hq) as (kq' & Hq' & _ & _ & Hne & Heq). destruct (decide (q = p)) as [->|Hqp].
    + destruct (Heq eq_refl) as [-> ->]. destruct (decide (d = c)) as [->|Hdc].
      * destruct Hc as [(kc & Hkc & Hoc & _)|Hc]; [left; by exists kc|naive_solver].
      * rewrite Hacks by done. apply Hoth in Hin; [|done]. destruct (so_awaited0 _ _ _ Hp Hin) as [?|[? ?]]; auto.
    + rewrite <- Hne in Hin by done. destruct (so_awaited0 _ _ _ Hq' Hin) as [?|[Hn ?]]; [by left|]. right. split; [auto|].
      destruct (decide (d = c)) as [->|Hdc]; [by apply Hackq|by apply Hacks].
  - intros q d Hin. rewrite Hch. destruct (decide (d = c)) as [->|Hdc]; [|apply so_own0; by apply Howns].
    destruct (decide (q = p)) as [->|Hqp]; [|apply so_own0; by apply Hownq].
    destruct Hc as [(kc & Hkc & Hoc & _)|Hc]; [by exists kc|naive_solver].
  - intros q d Hin. assert (Hin' : (q, CTermAck d) ∈ net).
    { destruct (decide (d = c)) as [->|Hdc]; [|by apply Hacks]. apply Hackq; [|done]. by intros ->. }
    destruct (so_ack0 q d Hin') as (Hn & Hl & kq & Hkq & Hin2). split; [auto|]. split; [done|].
    destruct (decide (p = q)) as [->|]; [|exists kq; by rewrite lookup_insert_ne]. exists k'. rewrite lookup_insert_eq. split; [done|].
    rewrite Hp in Hkq. injection Hkq as <-. destruct (decide (d = c)) as [->|Hdc]; [done|by apply Hoth].
Qed.

Lemma child_stage M net next p c :
  struct_ok M net next → child M p c →
  ∃ kc k, M !! c = Some kc ∧ sk_owner kc = Some p ∧ M !! p = Some k ∧ (p < c)%nat ∧ (p, CTermAck c) ∉ net
    ∧ stage ((p, COwn c) ∈ net) (c ∈ sk_owned k) (c ∈ sk_awaited k) ((c, CTerm) ∈ net) (sk_busy kc = true).
Proof.
  intros [] (kc & Hkc & Hoc). destruct (so_child0 c kc p Hkc Hoc) as (Hlt & k & Hk & Hst). exists kc, k. split_and!; try done.
  intros H. destruct (so_ack0 p c H). congruence.
Qed.

(** [p] asks a child it owns to terminate. *)
Lemma struct_ask M net next p k c :
  struct_ok M net next → M !! p = Some k → c ∈ sk_owned k →
  struct_ok (<[p := Skel (sk_owner k) (sk_owned k ∖ {[c]}) ({[c]} ∪ sk_awaited k) (sk_busy k)]> M) (net ++ [(c, CTerm)]) next.
Proof.
  intros Hs Hp Hc. destruct (child_stage M net next p c Hs) as (kc & k0 & Hkc & Hoc & Hk0 & Hlt & Hack & Hst); [by eapply so_owned|].
  rewrite Hp in Hk0. injection Hk0 as <-. destruct Hst as [?|[Hst|[?|?]]]; [tauto| |tauto..].
  assert (E : ∀ x, x ≠ (c, CTerm) → x ∈ net ++ [(c, CTerm)] ↔ x ∈ net) by (intros; by apply elem_of_snoc_ne).
  eapply (struct_update M net _ next p k _ c); [done|done|done|done| | | | | |]; simpl.
  - set_solver.
  - intros x _ Hx. apply E. intros ->. apply Hx. by right; left.
  - intros d x Hx. apply elem_of_app in Hx as [?|[= -> ->]%list_elem_of_singleton]; [by eapply so_dest|by eauto].
  - left. exists kc. rewrite E by done. split_and!; [done|done|done|]. right. right. left. rewrite E by done. set_solver.
  - apply req_ok_snoc; [apply Hs|done].
  - apply once_snoc; [apply Hs|]. intros _. tauto.
Qed.

(** [p] takes a child into possession. *)
Lemma struct_own M l1 l2 next p k c :
  struct_ok M (l1 ++ (p, COwn c) :: l2) next → M !! p = Some k →
  struct_ok (<[p := Skel (sk_owner k) ({[c]} ∪ sk_owned k) (sk_awaited k) (sk_busy k)]> M) (l1 ++ l2) next ∧ child M p c.
Proof.
  intros Hs Hp. assert (Hch : child M p c) by (apply (so_own _ _ _ Hs); set_solver). split; [|done].
  destruct (child_stage M _ next p c Hs Hch) as (kc & k0 & Hkc & Hoc & Hk0 & Hlt & Hack & Hst).
  rewrite Hp in Hk0. injection Hk0 as <-. destruct Hst as [Hst|[?|[?|?]]]; [|set_solver..].
  destruct (once_remove l1 (p, COwn c) l2 (so_once _ _ _ Hs)) as [Hon Hni]. specialize (Hni eq_refl).
  assert (E : ∀ x, x ≠ (p, COwn c) → x ∈ l1 ++ (p, COwn c) :: l2 ↔ x ∈ l1 ++ l2) by (intros; by apply elem_of_removed).
  eapply (struct_update M _ _ next p k _ c); [done|done|done|done| | | | | |done]; simpl.
  - set_solver.
  - intros x _ Hx. symmetry. apply E. intros ->. apply Hx. by left.
  - intros d x Hx. apply (so_dest _ _ _ Hs d x). rewrite elem_of_app, elem_of_cons in *. tauto.
  - left. exists kc. rewrite <- E by done. split_and!; [done|done|done|]. right. left. rewrite <- (E (c, CTerm)) by done. set_solver.
  - by eapply req_ok_remove; [apply Hs|].
Qed.

(** A terminating [p] asks a new child to terminate at once. *)
Lemma struct_own_term M l1 l2 next p k c :
  struct_ok M (l1 ++ (p, COwn c) :: l2) next → M !! p = Some k →
  struct_ok (<[p := Skel (sk_owner k) (sk_owned k) ({[c]} ∪ sk_awaited k) (sk_busy k)]> M) ((l1 ++ l2) ++ [(c, CTerm)]) next.
Proof.
  intros Hs Hp. pose proof (struct_own M l1 l2 next p k c Hs Hp) as [H _].
  assert (Hni : c ∉ sk_owned k).
  { intros Hin. destruct (child_stage M _ next p c Hs) as (kc & k0 & _ & _ & Hk0 & _ & _ & Hst); [by eapply so_owned|].
    rewrite Hp in Hk0. injection Hk0 as <-. unfold stage in Hst. set_solver. }
  eapply (struct_ask _ _ _ p) in H; [|apply lookup_insert_eq|simpl; apply elem_of_union_l, elem_of_singleton; reflexivity]. simpl in H. rewrite insert_insert_eq in H.
  by replace (({[c]} ∪ sk_owned k) ∖ {[c]}) with (sk_owned k) in H by (apply leibniz_equiv; set_solver).
Qed.

(** [p] gets the acknowledgement of [c]. *)
Lemma struct_ack M l1 l2 next p k c :
  struct_ok M (l1 ++ (p, CTermAck c) :: l2) next → M !! p = Some k → Forall (λ x, x.1 ≠ p) l1 →
  struct_ok (<[p := Skel (sk_owner k) (sk_owned k) (sk_awaited k ∖ {[c]}) (sk_busy k)]> M) (l1 ++ l2) next ∧ c ∈ sk_awaited k.
Proof.
  intros Hs Hp Hf. destruct (so_ack _ _ _ Hs p c) as (Hn & Hl & k0 & Hk0 & Hin); [set_solver|]. rewrite Hp in Hk0. injection Hk0 as <-. split; [|done].
  destruct (once_remove l1 (p, CTermAck c) l2 (so_once _ _ _ Hs)) as [Hon Hni]. specialize (Hni eq_refl).
  assert (Hdead : ∀ q, ¬ child M q c) by (intros q (kc & ? & ?); congruence).
  assert (Hin' : ∀ x, x ∈ l1 ++ l2 → x ∈ l1 ++ (p, CTermAck c) :: l2) by set_solver.
  eapply (struct_update M _ _ next p k _ c); [done|done|done|done| | | | | |done]; simpl.
  - set_solver.
  - intros x _ Hx. symmetry. apply elem_of_removed. intros ->. apply Hx. by right; right.
  - intros d x Hx. apply (so_dest _ _ _ Hs d x). by apply Hin'.
  - right. split_and!; [done| |set_solver| |done|].
    + intros H. apply (Hdead p). by eapply so_owned.
    + intros H. apply (Hdead p). apply (so_own _ _ _ Hs). by apply Hin'.
    + intros H. apply Hin', (so_dest _ _ _ Hs) in H as [? ?]. congruence.
  - by eapply req_ok_remove; [apply Hs|].
Qed.

Lemma struct_ask_all M net next p k l :
  struct_ok M net next → M !! p = Some k → NoDup l → (∀ c, c ∈ l → c ∈ sk_owned k) →
  struct_ok (<[p := Skel (sk_owner k) (sk_owned k ∖ list_to_set l) (list_to_set l ∪ sk_awaited k) (sk_busy k)]> M) (net ++ ((λ c, (c, CTerm)) <$> l)) next.
Proof.
  intros Hs Hp Hnd. revert M net k Hs Hp. induction Hnd as [|c l Hc Hnd IH]; intros M net k Hs Hp Hl.
  - simpl. rewrite app_nil_r. replace (Skel _ _ _ _) with k; [by rewrite insert_id|]. destruct k. simpl. f_equal; apply leibniz_equiv; set_solver.
  - assert (Hck : c ∈ sk_owned k) by (apply Hl; set_solver).
    pose proof (struct_ask M net next p k c Hs Hp Hck) as H. eapply (IH _ _ _) in H; [|apply lookup_insert_eq|simpl; set_solver].
    simpl in H. rewrite insert_insert_eq, <- app_assoc in H. simpl in H.
    replace (sk_owned k ∖ list_to_set (c :: l)) with (sk_owned k ∖ {[c]} ∖ list_to_set l) by (apply leibniz_equiv; set_solver).
    by replace (list_to_set (c :: l) ∪ sk_awaited k) with (list_to_set l ∪ ({[c]} ∪ sk_awaited k)) by (apply leibniz_equiv; set_solver).
Qed.

Lemma struct_root M net next :
  struct_ok M net next → struct_ok (<[next := Skel None ∅ ∅ false]> M) net (S next).
Proof.
  intros Hs. pose proof Hs as []. assert (Hn : M !! next = None).
  { destruct (M !! next) as [k|] eqn:E; [|done]. destruct (so_next0 _ _ E). lia. }
  assert (Hne : ∀ d k, M !! d = Some k → next ≠ d) by (intros d k Hd ->; congruence).
  assert (Hch : ∀ q d, child M q d → child (<[next := Skel None ∅ ∅ false]> M) q d).
  { intros q d (k & Hk & Ho). exists k. rewrite lookup_insert_ne by eauto. done. }
  assert (Hlk : ∀ d k, <[next := Skel None ∅ ∅ false]> M !! d = Some k → M !! d = Some k ∧ next ≠ d ∨ d = next ∧ k = Skel None ∅ ∅ false).
  { intros d k [[<- <-]|[? ?]]%lookup_insert_Some; auto. }
  split; [| | | | | | | |by eapply req_ok_mono|done].
  - intros p k [[Hp _]|[-> ->]]%Hlk; [|split; [lia|set_solver]]. destruct (so_next0 p k Hp) as [? Ha]. split; [lia|]. intros c Hc. specialize (Ha c Hc). lia.
  - intros d c Hd. apply lookup_insert_is_Some'. right. by eapply so_dest0.
  - intros c k p [[Hc _]|[-> ->]]%Hlk Ho; [|done]. destruct (so_child0 c k p Hc Ho) as (? & kp & Hkp & ?). split; [done|]. exists kp. by rewrite lookup_insert_ne by eauto.
  - intros c k [[Hc _]|[-> ->]]%Hlk Ho; [by eapply so_root0|]. intros H. apply so_dest0 in H as [? ?]. congruence.
  - intros p k c [[Hp _]|[-> ->]]%Hlk Hc; [|set_solver]. apply Hch. by eapply so_owned0.
  - intros p k c [[Hp _]|[-> ->]]%Hlk Hc; [|set_solver]. destruct (so_awaited0 p k c Hp Hc) as [?|[? Hin]]; [left; by apply Hch|right].
    split; [|done]. destruct (so_next0 p k Hp) as [_ Ha]. specialize (Ha c Hc). rewrite lookup_insert_ne by lia. done.
  - intros p c H. apply Hch. by apply so_own0.
  - intros p c H. destruct (so_ack0 p c H) as (? & ? & k & Hk & ?). split_and!; [rewrite lookup_insert_ne by lia; done|lia|]. exists k. by rewrite lookup_insert_ne by eauto.
Qed.

(** A new child that nobody knows yet gets its owner with the command that announces it. *)
Lemma struct_launch M net next p k :
  struct_ok M net next → M !! p = Some k →
  struct_ok (<[next := Skel (Some p) ∅ ∅ false]> M) ((net ++ [(next, CPlug)]) ++ [(p, COwn next)]) (S next).
Proof.
  intros Hs Hp. pose proof Hs as []. assert (Hn : M !! next = None).
  { destruct (M !! next) as [k'|] eqn:E; [|done]. destruct (so_next0 _ _ E). lia. }
  set (M' := <[next := Skel (Some p) ∅ ∅ false]> M). set (net' := (net ++ [(next, CPlug)]) ++ [(p, COwn next)]).
  assert (Hpn : (p < next)%nat) by (by destruct (so_next0 p k Hp)).
  assert (Hne : ∀ d k, M !! d = Some k → next ≠ d) by (intros d k' Hd ->; congruence).
  assert (E : ∀ x, x ≠ (next, CPlug) → x ≠ (p, COwn next) → x ∈ net' ↔ x ∈ net) by (intros; unfold net'; rewrite !elem_of_snoc_ne by done; done).
  assert (Hch : ∀ q d, child M q d → child M' q d) by (intros q d (k' & Hk & Ho); exists k'; unfold M'; by rewrite lookup_insert_ne by eauto).
  assert (Hlk : ∀ d k, M' !! d = Some k → M !! d = Some k ∧ next ≠ d ∨ d = next ∧ k = Skel (Some p) ∅ ∅ false).
  { intros d k' [[<- <-]|[? ?]]%lookup_insert_Some; auto. }
  assert (Hself : child M' p next) by (exists (Skel (Some p) ∅ ∅ false); unfold M'; by rewrite lookup_insert_eq).
  split.
  - intros q kq [[Hq _]|[-> ->]]%Hlk; [|split; [lia|set_solver]]. destruct (so_next0 q kq Hq) as [? Ha]. split; [lia|]. intros c Hc. specialize (Ha c Hc). lia.
  - intros d c [[H|[= -> ->]%list_elem_of_singleton]%elem_of_app|[= -> ->]%list_elem_of_singleton]%elem_of_app; apply lookup_insert_is_Some'; [right; by eapply so_dest0|by left|right; by eauto].
  - intros c kc q [[Hc Hcn]|[-> ->]]%Hlk Ho.
    + destruct (so_child0 c kc q Hc Ho) as (? & kp & Hkp & ?). split; [done|]. exists kp. unfold M'. rewrite lookup_insert_ne by eauto. rewrite !E by congruence. done.
    + injection Ho as <-. split; [done|]. exists k. unfold M'. rewrite lookup_insert_ne by lia. split; [done|]. left. rewrite (E (next, CTerm)) by done. split_and!.
      * unfold net'. set_solver.
      * intros (kc & Hkc & _)%(so_owned0 p k); [congruence|done].
      * intros H. destruct (so_next0 p k Hp) as [_ Ha]. specialize (Ha _ H). lia.
      * intros [? ?]%so_dest0. congruence.
      * done.
  - intros c kc [[Hc Hcn]|[-> ->]]%Hlk Ho; [|done]. rewrite E by congruence. by eapply so_root0.
  - intros q kq c [[Hq _]|[-> ->]]%Hlk Hc; [|set_solver]. apply Hch. by eapply so_owned0.
  - intros q kq c [[Hq _]|[-> ->]]%Hlk Hc; [|set_solver]. rewrite E by done. destruct (so_awaited0 q kq c Hq Hc) as [?|[? Hin]]; [left; by apply Hch|right].
    split; [|done]. destruct (so_next0 q kq Hq) as [_ Ha]. specialize (Ha c Hc). unfold M'. rewrite lookup_insert_ne by lia. done.
  - intros q c. destruct (decide ((q, COwn c) = (p, COwn next))) as [[= -> ->]|Hq]; [done|]. rewrite E by done. intros H. apply Hch. by apply so_own0.
  - intros q c. rewrite E by done. intros H. destruct (so_ack0 q c H) as (? & ? & kq & Hk & ?). unfold M'. split_and!; [rewrite lookup_insert_ne by lia; done|lia|].
    exists kq. by rewrite lookup_insert_ne by eauto.
  - apply req_ok_snoc; [|done]. apply req_ok_snoc; [|done]. by eapply req_ok_mono.
  - apply once_snoc; [apply once_snoc; [done|done]|]. intros _. rewrite elem_of_snoc_ne by done. intros (kc & Hkc & _)%so_own0. congruence.
Qed.

(** An object starts to terminate: a root by itself, a child when the command arrives. *)
Lemma struct_busy M net net' next p k :
  struct_ok M net next → M !! p = Some k →
  (sk_owner k = None ∧ net' = net) ∨ (∃ q l1 l2, sk_owner k = Some q ∧ net = l1 ++ (p, CTerm) :: l2 ∧ net' = l1 ++ l2) →
  struct_ok (<[p := Skel (sk_owner k) (sk_owned k) (sk_awaited k) true]> M) net' next.
Proof.
  intros Hs Hp Hnet. pose proof Hs as []. set (k' := Skel _ _ _ _).
  assert (E : ∀ x, x ≠ (p, CTerm) → x ∈ net' ↔ x ∈ net).
  { intros x Hx. destruct Hnet as [[_ ->]|(q & l1 & l2 & _ & -> & ->)]; [done|]. symmetry. by apply elem_of_removed. }
  assert (Hsub : ∀ x, x ∈ net' → x ∈ net).
  { intros x Hx. destruct Hnet as [[_ ->]|(q & l1 & l2 & _ & -> & ->)]; [done|]. rewrite elem_of_app, elem_of_cons in *. tauto. }
  assert (Hch : ∀ q d, child (<[p := k']> M) q d ↔ child M q d) by (intros; by apply (child_insert M p k)).
  assert (Hlk : ∀ d kd, <[p := k']> M !! d = Some kd → ∃ kd', M !! d = Some kd' ∧ sk_owner kd' = sk_owner kd ∧ sk_owned kd' = sk_owned kd
    ∧ sk_awaited kd' = sk_awaited kd ∧ (d ≠ p → kd' = kd) ∧ (d = p → kd = k' ∧ kd' = k)).
  { intros d kd [[<- <-]|[Hne Hd]]%lookup_insert_Some; [exists k|exists kd]; by split_and!. }
  assert (Hup : ∀ d kd, M !! d = Some kd → ∃ kd', <[p := k']> M !! d = Some kd' ∧ sk_owned kd' = sk_owned kd ∧ sk_awaited kd' = sk_awaited kd).
  { intros d kd Hd. destruct (decide (p = d)) as [<-|]; [exists k'; rewrite lookup_insert_eq; by simplify_eq|exists kd; by rewrite lookup_insert_ne]. }
  assert (Hnone : ∀ d, M !! d = None → <[p := k']> M !! d = None) by (intros d Hd; rewrite lookup_insert_ne; [done|intros ->; congruence]).
  split.
  - intros q kq Hq. destruct (Hlk q kq Hq) as (kq' & Hq' & _ & _ & <- & _). by eapply so_next0.
  - intros d c H. apply lookup_insert_is_Some'. right. eapply so_dest0. by apply Hsub.
  - intros c kc q Hc Ho. destruct (Hlk c kc Hc) as (kc' & Hc' & Ho' & _ & _ & Hne & Heq). rewrite <- Ho' in Ho.
    destruct (so_child0 c kc' q Hc' Ho) as (? & kq & Hkq & Hst). split; [done|]. destruct (Hup q kq Hkq) as (kq' & Hq' & Eo & Ea).
    exists kq'. rewrite Eo, Ea, (E (q, COwn c)) by done. split; [done|]. destruct (decide (c = p)) as [->|Hcp]; [|rewrite <- (Hne Hcp), E by congruence; done].
    destruct (Heq eq_refl) as [-> ->]. simplify_eq. destruct Hnet as [[? _]|(q' & l1 & l2 & ? & -> & ->)]; [congruence|].
    destruct (once_remove l1 (p, CTerm) l2 so_once0) as [_ Hni]. specialize (Hni eq_refl).
    assert (Hin : (p, CTerm) ∈ l1 ++ (p, CTerm) :: l2) by (rewrite elem_of_app, elem_of_cons; auto). clear -Hst Hin Hni. unfold stage in *. simpl. tauto.
  - intros c kc Hc Ho. destruct (Hlk c kc Hc) as (kc' & Hc' & Ho' & _). intros H%Hsub. by eapply so_root0; [|rewrite Ho'|].
  - intros q kq c Hq Hin. rewrite Hch. destruct (Hlk q kq Hq) as (kq' & Hq' & _ & Eo & _). eapply so_owned0; [done|]. by rewrite Eo.
  - intros q kq c Hq Hin. rewrite Hch, E by done. destruct (Hlk q kq Hq) as (kq' & Hq' & _ & _ & Ea & _). rewrite <- Ea in Hin.
    destruct (so_awaited0 q kq' c Hq' Hin) as [?|[? ?]]; auto.
  - intros q c. rewrite E, Hch by done. apply so_own0.
  - intros q c. rewrite E by done. intros H. destruct (so_ack0 q c H) as (? & ? & kq & Hkq & Hin). split_and!; [auto|done|].
    destruct (Hup q kq Hkq) as (kq' & ? & _ & Ea). exists kq'. by rewrite Ea.
  - eapply req_ok_mono; [intros; by apply Hch|]. destruct Hnet as [[_ ->]|(q & l1 & l2 & _ & -> & ->)]; [done|]. by eapply req_ok_remove.
  - destruct Hnet as [[_ ->]|(q & l1 & l2 & _ & -> & ->)]; [done|]. by eapply once_remove.
Qed.

(** An object that owns nothing, waits for nothing and gets no command is deallocated. *)
Lemma struct_delete M net next p k :
  struct_ok M net next → M !! p = Some k → sk_owned k = ∅ → sk_awaited k = ∅ → sk_busy k = true → (∀ x, (p, x) ∉ net) →
  struct_ok (delete p M) (match sk_owner k with Some q => net ++ [(q, CTermAck p)] | None => net end) next.
Proof.
  intros Hs Hp Hod Ha Hb Hno. pose proof Hs as [].
  assert (Hnc : ∀ c, ¬ child M p c).
  { intros c Hc. destruct (child_stage M net next p c Hs Hc) as (kc & k0 & _ & _ & Hk0 & _ & _ & Hst). rewrite Hp in Hk0. injection Hk0 as <-.
    rewrite Hod, Ha in Hst. specialize (Hno (COwn c)). unfold stage in Hst. set_solver. }
  set (net' := match sk_owner k with Some q => _ | None => _ end).
  assert (E : ∀ x, (∀ q, x ≠ (q, CTermAck p)) → x ∈ net' ↔ x ∈ net) by (intros x Hx; unfold net'; destruct (sk_owner k); [by rewrite elem_of_snoc_ne by done|done]).
  assert (Hack : ∀ q, (q, CTermAck p) ∈ net' → sk_owner k = Some q).
  { intros q Hq. assert (∀ q, (q, CTermAck p) ∉ net) by (intros q' Hq'; apply so_ack0 in Hq' as [? _]; congruence).
    unfold net' in Hq. destruct (sk_owner k) as [q'|]; [|set_solver]. apply elem_of_app in Hq as [?|[= ->]%list_elem_of_singleton]; [set_solver|done]. }
  assert (Hlk : ∀ d kd, delete p M !! d = Some kd → M !! d = Some kd ∧ d ≠ p) by (intros d kd [? ?]%lookup_delete_Some; auto).
  assert (Hup : ∀ d kd, M !! d = Some kd → d ≠ p → delete p M !! d = Some kd) by (intros d kd Hd Hne; by rewrite lookup_delete_ne).
  assert (Hq : ∀ q, sk_owner k = Some q → (q < p)%nat ∧ ∃ kq, M !! q = Some kq ∧ p ∈ sk_awaited kq ∧ p ∉ sk_owned kq ∧ (q, COwn p) ∉ net).
  { intros q Hq. destruct (so_child0 p k q Hp Hq) as (? & kq & ? & Hst). split; [done|]. exists kq. unfold stage in Hst. naive_solver. }
  split.
  - intros d kd [Hd _]%Hlk. by eapply so_next0.
  - intros d c Hd. assert (is_Some (M !! d) ∧ d ≠ p) as [[kd Hkd] Hne]; [|rewrite (Hup d kd) by done; by eauto].
    destruct (decide (c = CTermAck p)) as [->|Hc].
    + apply Hack in Hd. destruct (Hq d Hd) as (? & kq & ? & _). split; [by eauto|lia].
    + rewrite E in Hd by congruence. split; [by eapply so_dest0|]. intros ->. by eapply Hno.
  - intros c kc q [Hc Hcp]%Hlk Ho. destruct (so_child0 c kc q Hc Ho) as (Hlt & kq & Hkq & Hst). split; [done|]. exists kq.
    rewrite (Hup q kq); [|done|intros ->; apply (Hnc c); by exists kc]. by rewrite !E by congruence.
  - intros c kc [Hc Hcp]%Hlk Ho. rewrite E by congruence. by eapply so_root0.
  - intros q kq c [Hq' Hqp]%Hlk Hin. destruct (so_owned0 q kq c Hq' Hin) as (kc & Hkc & Hoc). exists kc. rewrite (Hup c kc); [done|done|].
    intros ->. simplify_eq. destruct (Hq q Hoc) as (_ & kq' & ? & _ & ? & _). by simplify_eq.
  - intros q kq c [Hq' Hqp]%Hlk Hin. destruct (decide (c = p)) as [->|Hcp].
    + right. rewrite lookup_delete_eq. split; [done|]. destruct (so_awaited0 q kq p Hq' Hin) as [(kp & ? & ?)|[? _]]; [|congruence]. simplify_eq.
      unfold net'. destruct (sk_owner k); simplify_eq. set_solver.
    + rewrite E by congruence. destruct (so_awaited0 q kq c Hq' Hin) as [(kc & ? & ?)|[? ?]]; [left; exists kc; by rewrite (Hup c kc)|right].
      by rewrite lookup_delete_ne.
  - intros q c H. rewrite E in H by congruence. destruct (so_own0 q c H) as (kc & ? & ?). exists kc. rewrite (Hup c kc); [done|done|]. intros ->. simplify_eq.
    destruct (Hq q) as (_ & kq & ? & _ & _ & ?); done.
  - intros q c H. destruct (decide (c = p)) as [->|Hcp].
    + rewrite lookup_delete_eq. split; [done|]. split; [exact (proj1 (so_next0 p k Hp))|]. apply Hack in H. destruct (Hq q H) as (? & kq & ? & ? & _). exists kq. rewrite (Hup q kq); [done|done|lia].
    + rewrite E in H by congruence. destruct (so_ack0 q c H) as (? & ? & kq & ? & ?). rewrite lookup_delete_ne by done. split_and!; [done|done|].
      exists kq. rewrite (Hup q kq); [done|done|]. intros ->. simplify_eq. set_solver.
  - unfold net'. destruct (sk_owner k) as [q|] eqn:Ek; [by eapply req_ok_delete|by eapply req_ok_delete_root].
  - unfold net'. destruct (sk_owner k) as [q|] eqn:Ek; [|done]. apply once_snoc; [done|]. intros _ H. apply so_ack0 in H as [? _]. congruence.
Qed.

(** ** The counters *)

Definition seq_cmd (c : own_cmd) : bool := match c with CPlug | COwn _ | CAttach _ | CBind => true | _ => false end.

(** The commands with a sequence number on their way to [p]. *)
Definition seqs (p : nat) (net : list (nat * own_cmd)) : nat := length (filter (λ x, x.1 = p ∧ seq_cmd x.2 = true) net).

(** The pipes that a terminating socket waits for. *)
Definition pipe_acks (o : own_t) : nat := match ow_kind o with KSocket => if ow_terminating o then ow_pipes o else 0 | _ => 0 end.

Record obj_rest (n : Z) (o : own_t) : Prop := {
  ok_acks : ow_term_acks o = Z.of_nat (size (ow_awaited o)) + Z.of_nat (pipe_acks o);
  ok_owned : ow_terminating o = true → ow_owned o = ∅;
  ok_pending : ow_pending o = true → ow_kind o = KSession ∧ ow_terminating o = false ∧ ow_pipes o ≠ 0%nat;
  ok_pipe : ow_pipe o = true → ow_kind o = KSession ∧ ow_terminating o = false ∧ ow_pipes o ≠ 0%nat;
  ok_kind : ow_owner o = None → ow_kind o = KSocket;
  ok_pipes : Z.of_nat (ow_pipes o) ≤ n;
}.

Record obj_ok (n : Z) (net : list (nat * own_cmd)) (p : nat) (o : own_t) : Prop := {
  ok_rest : obj_rest n o;
  ok_seq : ow_sent_seqnum o = ow_processed_seqnum o + Z.of_nat (seqs p net) ∧ 0 ≤ ow_processed_seqnum o ∧ ow_sent_seqnum o ≤ n;
}.

Definition skels (s : own_sys) : gmap nat skel := skel_of <$> os_objs s.

Record sys_ok (n : Z) (s : own_sys) : Prop := {
  sy_struct : struct_ok (skels s) (os_net s) (os_next s);
  sy_objs p o : os_objs s !! p = Some o → obj_ok n (os_net s) p o;
  sy_next : Z.of_nat (os_next s) ≤ n;
}.

(** The object waits for something. *)
Definition settled (o : own_t) : Prop :=
  ow_terminating o = true → ¬ (ow_processed_seqnum o = ow_sent_seqnum o ∧ ow_term_acks o = 0).

Definition settled_but (q : option nat) (s : own_sys) : Prop := ∀ p o, Some p ≠ q → os_objs s !! p = Some o → settled o.

Definition own_inv (n : Z) (s : own_sys) : Prop := sys_ok n s ∧ settled_but None s.

Lemma skels_lookup s p o : os_objs s !! p = Some o → skels s !! p = Some (skel_of o).
Proof. intros H. unfold skels. by rewrite lookup_fmap, H. Qed.

Lemma skels_lookup_inv s p k : skels s !! p = Some k → ∃ o, os_objs s !! p = Some o ∧ k = skel_of o.
Proof. unfold skels. rewrite lookup_fmap. intros (o & ? & ->)%fmap_Some. eauto. Qed.

Lemma skels_put s p o : skels (put_obj p o s) = <[p := skel_of o]> (skels s).
Proof. unfold skels. simpl. by rewrite fmap_insert. Qed.

Lemma obj_ok_mono n n' net net' p o : n ≤ n' → seqs p net' = seqs p net → obj_ok n net p o → obj_ok n' net' p o.
Proof. intros Hn Hs [[] ?]. split; [split; try done; lia|]. rewrite Hs. lia. Qed.

Lemma seqs_app p l1 l2 : seqs p (l1 ++ l2) = (seqs p l1 + seqs p l2)%nat.
Proof. unfold seqs. by rewrite filter_app, length_app. Qed.

Lemma seqs_cons p d c l : seqs p ((d, c) :: l) = ((if decide (d = p) then if seq_cmd c then 1 else 0 else 0) + seqs p l)%nat.
Proof. unfold seqs. rewrite filter_cons. simpl. destruct (seq_cmd c); repeat case_decide; naive_solver. Qed.

Lemma seqs_zero p net c : seqs p net = 0%nat → seq_cmd c = true → (p, c) ∉ net.
Proof.
  intros H Hc Hin. apply list_elem_of_split in Hin as (l1 & l2 & ->). rewrite seqs_app, seqs_cons, decide_True, Hc in H by done. lia.
Qed.

Lemma awaited_size n s p o : sys_ok n s → os_objs s !! p = Some o → Z.of_nat (size (ow_awaited o)) ≤ n.
Proof.
  intros [Hst _ Hn] Hp. assert (Hsub : ow_awaited o ⊆ set_seq 0 (os_next s)).
  { intros c Hc. apply elem_of_set_seq. destruct (so_next _ _ _ Hst p (skel_of o)) as [_ Ha]; [by apply skels_lookup|]. specialize (Ha c Hc). lia. }
  apply subseteq_size in Hsub. rewrite size_set_seq in Hsub. lia.
Qed.

(** A change of an object's counters. *)
Lemma sys_put n s p o o' :
  sys_ok n s → os_objs s !! p = Some o → skel_of o' = skel_of o → obj_ok n (os_net s) p o' → sys_ok n (put_obj p o' s).
Proof.
  intros [] Hp Hsk Hok. split; simpl; [| |done].
  - rewrite skels_put, Hsk, insert_id by (by apply skels_lookup). done.
  - intros q oq [[<- <-]|[Hne Hq]]%lookup_insert_Some; [done|by apply sy_objs0].
Qed.

Lemma settled_put s p o o' q : settled_but q s → os_objs s !! p = Some o → Some p = q ∨ settled o' → settled_but q (put_obj p o' s).
Proof. intros Hs Hp Ho p' o1 Hne H. simpl in H. apply lookup_insert_Some in H as [[<- <-]|[? ?]]; [naive_solver|by eapply Hs]. Qed.

Lemma req_ok_elem M net p c : req_ok M net → (p, CTermReq c) ∈ net → child M p c ∨ (p, CTermAck c) ∈ net.
Proof. induction net as [|[d []] net IH]; simpl; set_solver. Qed.

(** The end of every handler: the object is deallocated when it waits for nothing. *)
Lemma check_spec n s p o :
  sys_ok n s → settled_but (Some p) s → os_objs s !! p = Some o → ∃ s', check_term_acks p s = Done s' ∧ own_inv n s'.
Proof.
  intros Hs Hset Hp. unfold check_term_acks, get_obj. rewrite Hp, bind_Done. case_decide as Hd.
  2: { eexists. split; [done|]. split; [done|]. intros q oq _ Hq. destruct (decide (q = p)) as [->|Hne]; [|by apply (Hset q oq); [congruence|]].
       simplify_eq. intros Ht [? ?]. naive_solver. }
  destruct Hd as (Ht & Hseq & Hacks). pose proof Hs as [Hst Hobj Hnext]. pose proof (Hobj p o Hp) as [[] ?]. specialize (ok_owned0 Ht).
  assert (Epi : ow_pipe o = false) by (destruct (ow_pipe o); [destruct (ok_pipe0 eq_refl) as (_ & ? & _); congruence|done]).
  rewrite slk_assert_bind by done. rewrite Epi; simpl. pose proof (skels_lookup s p o Hp) as Hk.
  assert (Haw : ow_awaited o = ∅) by (apply leibniz_equiv, size_empty_iff; lia).
  assert (Hs0 : seqs p (os_net s) = 0%nat) by lia.
  assert (Hno : ∀ x, (p, x) ∉ os_net s).
  { intros x Hx. destruct (seq_cmd x) eqn:Ex; [by eapply seqs_zero|]. destruct x as [| | | |c| |c]; try done.
    - destruct (req_ok_elem _ _ p c (so_req _ _ _ Hst) Hx) as [Hc|Hc].
      + destruct (child_stage _ _ _ p c Hst Hc) as (kc & k & _ & _ & Hk' & _ & _ & Hsg). rewrite Hk in Hk'. injection Hk' as <-. simpl in Hsg.
        rewrite ok_owned0, Haw in Hsg. assert ((p, COwn c) ∉ os_net s) by (by apply seqs_zero). unfold stage in Hsg. set_solver.
      + destruct (so_ack _ _ _ Hst p c Hc) as (_ & _ & k & Hk' & Hin). rewrite Hk in Hk'. injection Hk' as <-. simpl in Hin. set_solver.
    - destruct (ow_owner o) as [q|] eqn:Eo; [|by eapply (so_root _ _ _ Hst p)].
      destruct (so_child _ _ _ Hst p (skel_of o) q Hk Eo) as (_ & kq & _ & Hsg). simpl in Hsg. rewrite Ht in Hsg. unfold stage in Hsg. naive_solver.
    - destruct (so_ack _ _ _ Hst p c Hx) as (_ & _ & k & Hk' & Hin). rewrite Hk in Hk'. injection Hk' as <-. simpl in Hin. set_solver. }
  pose proof (struct_delete _ _ _ p _ Hst Hk ok_owned0 Haw ltac:(simpl; by rewrite Ht) Hno) as Hdel. simpl in Hdel.
  eexists. split; [done|]. split.
  - split; simpl.
    + unfold skels. simpl. destruct (ow_owner o); simpl; rewrite fmap_delete; done.
    + intros q oq [Hne Hq]%lookup_delete_Some. assert (Hq' : os_objs s !! q = Some oq) by (by destruct (ow_owner o)).
      eapply (obj_ok_mono n n (os_net s)); [lia| |by apply Hobj]. destruct (ow_owner o); simpl; [|done]. rewrite seqs_app, seqs_cons. simpl. case_decide; unfold seqs; simpl; lia.
    + by destruct (ow_owner o).
  - intros q oq _ H. simpl in H. apply lookup_delete_Some in H as [Hne Hq]. apply (Hset q); [congruence|]. by destruct (ow_owner o).
Qed.

(** ** The handlers *)

Lemma sys_build n n' s p o o' net' :
  sys_ok n s → os_objs s !! p = Some o → n ≤ n' → struct_ok (<[p := skel_of o']> (skels s)) net' (os_next s) →
  (∀ q, q ≠ p → seqs q net' = seqs q (os_net s)) → obj_ok n' net' p o' →
  sys_ok n' (OwnSys (<[p := o']> (os_objs s)) net' (os_next s)).
Proof.
  intros [] Hp Hn Hst Hsq Hok. split; simpl; [|intros q oq [[<- <-]|[Hne Hq]]%lookup_insert_Some; [done|]|lia].
  - unfold skels. simpl. by rewrite fmap_insert.
  - eapply obj_ok_mono; [exact Hn| |by apply sy_objs0]. by apply Hsq.
Qed.

Lemma settled_build s p o' net' : settled_but (Some p) s → settled_but (Some p) (OwnSys (<[p := o']> (os_objs s)) net' (os_next s)).
Proof. intros Hs q oq Hne H. simpl in H. apply lookup_insert_Some in H as [[<- _]|[_ ?]]; [done|by eapply Hs]. Qed.

Lemma settled_weaken s q : settled_but None s → settled_but q s.
Proof. intros H p o _. by apply H. Qed.

Lemma settled_build_all s p o' net' : settled_but None s → settled o' → settled_but None (OwnSys (<[p := o']> (os_objs s)) net' (os_next s)).
Proof. intros Hs Ho q oq Hne H. simpl in H. apply lookup_insert_Some in H as [[<- <-]|[_ ?]]; [done|by eapply Hs]. Qed.

Lemma seqs_removed q p c l1 l2 : seqs q (l1 ++ (p, c) :: l2) = ((if decide (p = q) then if seq_cmd c then 1 else 0 else 0) + seqs q (l1 ++ l2))%nat.
Proof. rewrite !seqs_app, seqs_cons. lia. Qed.

Lemma seqs_snoc q net d c : seqs q (net ++ [(d, c)]) = (seqs q net + if decide (d = q) then if seq_cmd c then 1 else 0 else 0)%nat.
Proof. rewrite seqs_app, seqs_cons. change (seqs q []) with 0%nat. lia. Qed.

Lemma seqs_terms q net l : seqs q (net ++ ((λ c, (c, CTerm)) <$> l)) = seqs q net.
Proof. rewrite seqs_app. assert (seqs q ((λ c, (c, CTerm)) <$> l) = 0%nat) as ->; [|lia]. induction l as [|c l IH]; [done|]. rewrite fmap_cons, seqs_cons, IH. case_decide; done. Qed.

(** A command with a sequence number arrives: [o'] is what its handler makes of the object. *)
Lemma seqnum_spec n s p o o' net' :
  n < 2 ^ 30 → sys_ok n s → settled_but None s → os_objs s !! p = Some o →
  struct_ok (<[p := skel_of o']> (skels s)) net' (os_next s) →
  (∀ q, q ≠ p → seqs q net' = seqs q (os_net s)) → seqs p (os_net s) = S (seqs p net') →
  ow_processed_seqnum o' = ow_processed_seqnum o → ow_sent_seqnum o' = ow_sent_seqnum o →
  obj_rest n o' →
  ∃ s', process_seqnum p (OwnSys (<[p := o']> (os_objs s)) net' (os_next s)) = Done s' ∧ own_inv n s'.
Proof.
  intros Hn Hs Hset Hp Hst Hq Hsp Epr Ese Hok. unfold process_seqnum, get_obj. simpl. rewrite lookup_insert_eq, bind_Done.
  unfold put_obj. simpl. rewrite insert_insert_eq. destruct (sy_objs _ _ Hs p o Hp) as [_ (Hseq & H0 & Hle)].
  assert (Hinc : ow_processed_seqnum (inc_processed o') = ow_processed_seqnum o + 1) by (simpl; rewrite Epr, u64_small; lia).
  eapply (check_spec n _ p (inc_processed o')); [|apply settled_build, settled_weaken; done|simpl; apply lookup_insert_eq].
  eapply (sys_build n n s p o); [done|done|lia|done|done|]. split; [by destruct Hok; split|]. rewrite Hinc. simpl. lia.
Qed.

(** What is left of [obj_rest] when the flags of a session are as before. *)
Ltac keep_pending :=
  match goal with
  | H : ow_pending ?o = true → _ |- ow_pending ?o = true → _ =>
      let Hpp := fresh in intros Hpp; destruct (H Hpp) as (? & ? & ?); split_and!; (done || lia || congruence)
  | H : ow_pipe ?o = true → _ |- ow_pipe ?o = true → _ =>
      let Hpp := fresh in intros Hpp; destruct (H Hpp) as (? & ? & ?); split_and!; (done || lia || congruence)
  end.

Section deliver.
Context (n : Z) (s : own_sys) (p : nat) (o : own_t) (l1 l2 : list (nat * own_cmd)).
Hypothesis (Hn : n < 2 ^ 30) (Hs : sys_ok n s) (Hset : settled_but None s) (Hp : os_objs s !! p = Some o).

Let arrived : own_sys := OwnSys (os_objs s) (l1 ++ l2) (os_next s).

Lemma deliver_rest : obj_rest n o ∧ Z.of_nat (size (ow_awaited o)) ≤ n.
Proof. split; [by eapply ok_rest, (sy_objs _ _ Hs p)|by eapply awaited_size]. Qed.

Lemma deliver_plug c o' :
  os_net s = l1 ++ (p, c) :: l2 → plain c → seq_cmd c = true → skel_of o' = skel_of o →
  ow_processed_seqnum o' = ow_processed_seqnum o → ow_sent_seqnum o' = ow_sent_seqnum o → obj_rest n o' →
  ∃ s', process_seqnum p (put_obj p o' arrived) = Done s' ∧ own_inv n s'.
Proof.
  intros Hnet Hc Hsc Hsk Epr Ese Hok. pose proof (sy_struct _ _ Hs) as Hst. rewrite Hnet in Hst.
  apply (seqnum_spec n s p o o' (l1 ++ l2)); [done|done|done|done| | | |done|done|done].
  - rewrite Hsk, insert_id by (by apply skels_lookup). by eapply struct_remove_plain.
  - intros q Hq. rewrite Hnet, seqs_removed, decide_False by congruence. done.
  - rewrite Hnet, seqs_removed, decide_True, Hsc by done. done.
Qed.

Lemma deliver_own c :
  os_net s = l1 ++ (p, COwn c) :: l2 → ∃ s', own_command p (COwn c) arrived = Done s' ∧ own_inv n s'.
Proof.
  intros Hnet. pose proof (sy_struct _ _ Hs) as Hst. rewrite Hnet in Hst. destruct deliver_rest as [[] Hsz].
  pose proof (skels_lookup s p o Hp) as Hk. destruct (struct_own _ _ _ _ p _ c Hst Hk) as [Hown Hch]. simpl in Hown.
  assert (Hst' : c ∉ ow_owned o ∧ c ∉ ow_awaited o).
  { destruct (child_stage _ _ _ p c Hst Hch) as (kc & k & _ & _ & Hk' & _ & _ & Hsg). rewrite Hk in Hk'. injection Hk' as <-. simpl in Hsg.
    assert ((p, COwn c) ∈ l1 ++ (p, COwn c) :: l2) by set_solver. unfold stage in Hsg. naive_solver. }
  assert (Hsq : seqs p (os_net s) = S (seqs p (l1 ++ l2))) by (rewrite Hnet, seqs_removed, decide_True by done; done).
  assert (Hsq' : ∀ q, q ≠ p → seqs q (l1 ++ l2) = seqs q (os_net s)) by (intros q Hq; rewrite Hnet, seqs_removed, decide_False by congruence; done).
  simpl. unfold process_own, get_obj. simpl. rewrite Hp, bind_Done. destruct (ow_terminating o) eqn:Ht; rewrite bind_Done.
  - apply (seqnum_spec n s p o _ ((l1 ++ l2) ++ [(c, CTerm)])); [done|done|done|done| | | |done|done|].
    + pose proof (struct_own_term _ _ _ _ p _ c Hst Hk) as H. simpl in H. unfold skel_of. simpl. by rewrite Ht in *.
    + intros q Hq. rewrite seqs_snoc. simpl. rewrite Hsq' by done. case_decide; lia.
    + rewrite seqs_snoc. simpl. rewrite Hsq. case_decide; lia.
    + destruct Hst' as [_ Hna]. split; simpl; try done; [|by rewrite Ht in *..].
      rewrite size_union by set_solver. rewrite size_singleton. unfold pipe_acks in *. simpl. rewrite s32_small; destruct (ow_kind o), (ow_terminating o); lia.
  - apply (seqnum_spec n s p o _ (l1 ++ l2)); [done|done|done|done| | |done|done|done|].
    + unfold skel_of. simpl. rewrite Ht in *. done.
    + done.
    + split; simpl; rewrite ?Ht; done.
Qed.

(** What a handler that changes only the pipes of [p] leaves. *)
Definition repiped (net : list (nat * own_cmd)) (r : outcome own_sys) : Prop :=
  ∃ o', r = Done (OwnSys (<[p := o']> (os_objs s)) net (os_next s)) ∧ skel_of o' = skel_of o ∧ obj_rest n o'
    ∧ ow_processed_seqnum o' = ow_processed_seqnum o ∧ ow_sent_seqnum o' = ow_sent_seqnum o ∧ (settled o → settled o').

Lemma repiped_id net : repiped net (Done (OwnSys (os_objs s) net (os_next s))).
Proof. destruct deliver_rest as [Hr _]. exists o. by rewrite insert_id. Qed.

Lemma attach_pipe_spec net : Z.of_nat (ow_pipes o) + 1 ≤ n → repiped net (attach_pipe p (OwnSys (os_objs s) net (os_next s))).
Proof.
  intros Hpi. destruct deliver_rest as [Hr Hsz]. pose proof Hr as []. unfold attach_pipe, get_obj. simpl. rewrite Hp, bind_Done. unfold put_obj. simpl.
  unfold pipe_acks in *. destruct (ow_kind o) eqn:Ek; [|apply repiped_id..].
  eexists. split; [done|]. unfold settled, skel_of. destruct (ow_terminating o) eqn:Et; simpl; rewrite ?Et; (split; [done|]); (split; [|split; [done|split; [done|]]]).
  - split; unfold pipe_acks; simpl; rewrite ?Ek, ?Et; try done; try lia; try keep_pending. rewrite s32_small; lia.
  - rewrite s32_small by lia. lia.
  - split; unfold pipe_acks; simpl; rewrite ?Ek, ?Et; try done; first [lia|keep_pending].
  - done.
Qed.

Lemma engine_ready_spec net : Z.of_nat (ow_pipes o) + 1 ≤ n → repiped net (engine_ready p (OwnSys (os_objs s) net (os_next s))).
Proof.
  intros Hpi. destruct deliver_rest as [Hr Hsz]. pose proof Hr as []. unfold engine_ready, get_obj. simpl. rewrite Hp, bind_Done. unfold put_obj. simpl.
  unfold pipe_acks in *. destruct (ow_kind o) eqn:Ek; [apply repiped_id| |apply repiped_id].
  destruct (negb (ow_pipe o) && negb (ow_terminating o)) eqn:Eb; [|apply repiped_id]. apply andb_true_iff in Eb as [_ Et%negb_true_iff].
  eexists. split; [done|]. unfold settled, skel_of. simpl. rewrite Et. split_and!; try done.
  split; unfold pipe_acks; simpl; rewrite ?Ek, ?Et; try done; first [lia|keep_pending].
Qed.

Lemma reconnect_spec net : repiped net (reconnect p (OwnSys (os_objs s) net (os_next s))).
Proof.
  destruct deliver_rest as [Hr Hsz]. pose proof Hr as []. unfold reconnect, get_obj. simpl. rewrite Hp, bind_Done.
  eexists. split; [done|]. split_and!; try done.
Qed.

Lemma deliver_repiped c f :
  (∀ s, own_command p c s = s ← f s; process_seqnum p s) → repiped (l1 ++ l2) (f arrived) → plain c → seq_cmd c = true →
  os_net s = l1 ++ (p, c) :: l2 → ∃ s', own_command p c arrived = Done s' ∧ own_inv n s'.
Proof. intros Hf (o' & E & Hsk & Hok & Epr & Ese & _) Hpl Hsc Hnet. rewrite Hf, E, bind_Done. by apply (deliver_plug c o'). Qed.

(** The same by the thread of [p], with no command. *)
Lemma repiped_inv r : repiped (os_net s) r → ∃ s', r = Done s' ∧ own_inv n s'.
Proof.
  intros (o' & -> & Hsk & Hok & Epr & Ese & Hst). eexists. split; [done|]. split.
  - apply (sys_put n s p o o' Hs Hp Hsk). split; [done|]. rewrite Epr, Ese. apply (sy_objs _ _ Hs p o Hp).
  - apply (settled_put s p o); [done|done|right]. apply Hst. by apply (Hset p).
Qed.

(** [process_term_req], called by the owner's own thread or for a command *)
Lemma term_req_spec c net :
  struct_ok (skels s) net (os_next s) → (∀ q, seqs q net = seqs q (os_net s)) →
  ∃ s', process_term_req p c (OwnSys (os_objs s) net (os_next s)) = Done s' ∧ own_inv n s'.
Proof.
  intros Hst Hsq. destruct deliver_rest as [Hr Hsz]. pose proof Hr as []. unfold process_term_req, get_obj. simpl. rewrite Hp, bind_Done.
  pose proof (sy_objs _ _ Hs p o Hp) as [_ Hseq].
  assert (Hid : ∃ s', Done (OwnSys (os_objs s) net (os_next s)) = Done s' ∧ own_inv n s').
  { eexists. split; [done|]. split; [|by intros q oq Hq; apply Hset]. split; simpl; [done| |apply Hs].
    intros q oq Hq. eapply (obj_ok_mono n n (os_net s)); [lia|done|by apply (sy_objs _ _ Hs)]. }
  destruct (ow_terminating o) eqn:Ht; [done|]. case_decide as Hc; [done|]. eexists. split; [done|].
  pose proof (skels_lookup s p o Hp) as Hk. pose proof (struct_ask _ _ _ p _ c Hst Hk Hc) as Hask. simpl in Hask.
  assert (Hna : c ∉ ow_awaited o).
  { destruct (child_stage _ _ _ p c Hst) as (kc & k & _ & _ & Hk' & _ & _ & Hsg); [by eapply (so_owned _ _ _ Hst)|]. rewrite Hk in Hk'. injection Hk' as <-.
    simpl in Hsg. unfold stage in Hsg. naive_solver. }
  split; [|apply (settled_build_all s p); [done|unfold settled; simpl; congruence]].
  apply (sys_build n n s p o); [done|done|lia| | |].
  - unfold skel_of at 1. simpl. by rewrite Ht in *.
  - intros q Hq. rewrite seqs_snoc. simpl. rewrite Hsq. case_decide; lia.
  - split; [|rewrite seqs_snoc, Hsq; simpl; case_decide; rewrite ?Nat.add_0_r; done].
    split; simpl; rewrite ?Ht; try done.
    rewrite size_union by set_solver. rewrite size_singleton. unfold pipe_acks in *. simpl. rewrite s32_small; destruct (ow_kind o), (ow_terminating o); lia.
Qed.

Lemma deliver_term_req c :
  os_net s = l1 ++ (p, CTermReq c) :: l2 → ∃ s', own_command p (CTermReq c) arrived = Done s' ∧ own_inv n s'.
Proof.
  intros Hnet. apply term_req_spec.
  - pose proof (sy_struct _ _ Hs) as Hst. rewrite Hnet in Hst. by apply (struct_remove_plain _ _ p (CTermReq c)).
  - intros q. rewrite Hnet, seqs_removed. simpl. case_decide; lia.
Qed.

(** The start of the termination proper, in a state where the object counts as busy already. *)
Lemma own_process_term_spec o1 net :
  ow_terminating o1 = false → ow_pending o1 = false → ow_pipe o1 = false → skel_of o1 = skel_of o ∨ skel_of o1 = Skel (ow_owner o) (ow_owned o) (ow_awaited o) false →
  struct_ok (<[p := Skel (ow_owner o) (ow_owned o) (ow_awaited o) true]> (skels s)) net (os_next s) →
  (∀ q, seqs q net = seqs q (os_net s)) → ow_processed_seqnum o1 = ow_processed_seqnum o → ow_sent_seqnum o1 = ow_sent_seqnum o →
  ow_term_acks o1 = Z.of_nat (size (ow_awaited o)) + Z.of_nat (match ow_kind o1 with KSocket => ow_pipes o1 | _ => 0 end)%nat →
  (ow_owner o1 = None → ow_kind o1 = KSocket) → Z.of_nat (ow_pipes o1) ≤ n →
  ∃ s', own_process_term p (OwnSys (<[p := o1]> (os_objs s)) net (os_next s)) = Done s' ∧ own_inv n s'.
Proof.
  intros Ht1 Hpe Hpp Hsk Hst Hsq Epr Ese Hacks Hki Hpi. unfold own_process_term, get_obj. simpl. rewrite lookup_insert_eq, bind_Done, Ht1. simpl.
  unfold put_obj, send_terms. simpl. rewrite insert_insert_eq. set (o2 := o_set_awaited _ _).
  assert (Hsk' : ow_owner o1 = ow_owner o ∧ ow_owned o1 = ow_owned o ∧ ow_awaited o1 = ow_awaited o) by (destruct Hsk as [[=]|[=]]; done).
  destruct Hsk' as (Eow & Eod & Eaw).
  assert (Hall : struct_ok (<[p := skel_of o2]> (skels s)) (net ++ ((λ c, (c, CTerm)) <$> elements (ow_owned o1))) (os_next s)).
  { pose proof (struct_ask_all _ _ _ p _ (elements (ow_owned o)) Hst (lookup_insert_eq _ _ _) (NoDup_elements _)) as H. simpl in H.
    rewrite insert_insert_eq, list_to_set_elements_L in H. unfold o2, skel_of. simpl. rewrite Eod, Eow, Eaw.
    replace (∅ : gset nat) with (ow_owned o ∖ ow_owned o) by (apply leibniz_equiv; set_solver). apply H. intros c. by rewrite elem_of_elements. }
  assert (Hdisj : ow_owned o ## ow_awaited o).
  { intros c Hc1 Hc2. destruct (child_stage _ _ _ p c Hst) as (kc & k & _ & _ & Hk' & _ & _ & Hsg).
    { eapply (so_owned _ _ _ Hst p); [apply lookup_insert_eq|done]. }
    rewrite lookup_insert_eq in Hk'. injection Hk' as <-. simpl in Hsg. unfold stage in Hsg. naive_solver. }
  eapply (check_spec n _ p o2); [|apply (settled_build s p), settled_weaken; done|simpl; apply lookup_insert_eq].
  pose proof (sy_objs _ _ Hs p o Hp) as [_ Hseq].
  apply (sys_build n n s p o); [done|done|lia|done|intros q _; by rewrite seqs_terms|]. split; [|rewrite seqs_terms, Hsq; simpl; by rewrite Epr, Ese].
  assert (Z.of_nat (size (ow_owned o ∪ ow_awaited o)) ≤ n).
  { assert (Hsub : ow_owned o ∪ ow_awaited o ⊆ set_seq 0 (os_next s)).
    { intros c Hc. apply elem_of_set_seq. split; [lia|]. destruct (so_next _ _ _ Hall p (skel_of o2)) as [_ Ha]; [apply lookup_insert_eq|].
      apply Ha. unfold o2. simpl. by rewrite Eod, Eaw. }
    apply subseteq_size in Hsub. rewrite size_set_seq in Hsub. pose proof (sy_next _ _ Hs). lia. }
  split; simpl; [|done|congruence|congruence|by rewrite Eow in *|lia]. unfold pipe_acks. simpl. rewrite size_union in * by (rewrite ?Eod, ?Eaw; done).
  rewrite Eod, Eaw, Hacks. destruct (ow_kind o1); rewrite s32_small; lia.
Qed.

Lemma obj_kind_pending : ow_kind o ≠ KSession → ow_pending o = false.
Proof. destruct deliver_rest as [[] _]. intros ?. destruct (ow_pending o); [by destruct (ok_pending0 eq_refl)|done]. Qed.

Lemma obj_no_pipe : ow_kind o ≠ KSession ∨ ow_pipes o = 0%nat → ow_pipe o = false.
Proof. destruct deliver_rest as [[] _]. intros ?. destruct (ow_pipe o); [|done]. destruct (ok_pipe0 eq_refl) as (? & _ & ?). tauto. Qed.

(** [process_term] of an object that is not terminating yet: the command of its owner, or a root's own decision *)
Lemma process_term_spec net :
  ow_terminating o = false → ow_pending o = false →
  struct_ok (<[p := Skel (ow_owner o) (ow_owned o) (ow_awaited o) true]> (skels s)) net (os_next s) →
  (∀ q, seqs q net = seqs q (os_net s)) →
  ∃ s', process_term p (OwnSys (os_objs s) net (os_next s)) = Done s' ∧ own_inv n s'.
Proof.
  intros Ht Hpe Hst Hsq. pose proof obj_no_pipe as Hnp. destruct deliver_rest as [[] Hsz]. unfold process_term, get_obj. simpl. rewrite Hp, bind_Done. unfold put_obj. simpl.
  assert (Hacks : ow_term_acks o = Z.of_nat (size (ow_awaited o))) by (unfold pipe_acks in *; rewrite Ht in *; destruct (ow_kind o); lia).
  assert (Hself : ow_kind o ≠ KSocket → ow_pipe o = false → ∃ s', own_process_term p (OwnSys (os_objs s) net (os_next s)) = Done s' ∧ own_inv n s').
  { intros Hk Hpp. destruct (own_process_term_spec o net) as (s' & E & Hi); [done|done|done|by left|done|done|done|done| |done|done|].
    - destruct (ow_kind o); [done|lia|lia].
    - rewrite insert_id in E by done. eauto. }
  destruct (ow_kind o) eqn:Ek.
  - apply own_process_term_spec; simpl; [done|done|apply Hnp; by left|by left|done|done|done|done| |done|done]. rewrite Ek, s32_small; lia.
  - rewrite Hpe. simpl. case_decide; [apply Hself; [done|apply Hnp; by right]|]. eexists. split; [done|].
    split; [|apply (settled_build_all s p); [done|]; unfold settled; simpl; congruence].
    pose proof (sy_objs _ _ Hs p o Hp) as [_ Hseq].
    apply (sys_build n n s p o); [done|done|lia| |done|split; [|by rewrite Hsq]].
    + unfold skel_of. simpl. by rewrite Ht.
    + unfold pipe_acks in *. split; unfold pipe_acks; simpl; rewrite ?Ht, ?Ek in *; done.
  - apply Hself; [done|apply Hnp; by left].
Qed.

Lemma deliver_term :
  os_net s = l1 ++ (p, CTerm) :: l2 → ∃ s', own_command p CTerm arrived = Done s' ∧ own_inv n s'.
Proof.
  intros Hnet. pose proof (sy_struct _ _ Hs) as Hst. pose proof (skels_lookup s p o Hp) as Hk. simpl.
  destruct (ow_owner o) as [q|] eqn:Eo; [|destruct (so_root _ _ _ Hst p _ Hk Eo); rewrite Hnet; set_solver].
  destruct (so_child _ _ _ Hst p _ q Hk Eo) as (_ & kq & _ & Hsg). assert ((p, CTerm) ∈ os_net s) by (rewrite Hnet; set_solver).
  assert (Hb : ow_terminating o || ow_pending o = false) by (unfold stage, skel_of in Hsg; simpl in Hsg; destruct (ow_terminating o || ow_pending o); naive_solver).
  apply orb_false_iff in Hb as [Ht Hpe]. apply process_term_spec; [done|done| |].
  - pose proof (struct_busy _ _ (l1 ++ l2) _ p _ Hst Hk) as H'. simpl in H'. apply H'. right. exists q, l1, l2. by rewrite Eo.
  - intros d. rewrite Hnet, seqs_removed. simpl. case_decide; lia.
Qed.

(** [unregister_term_ack], once the acknowledgement has been noted in [o1]. *)
Lemma unregister_spec o1 net :
  struct_ok (<[p := skel_of o1]> (skels s)) net (os_next s) → (∀ q, seqs q net = seqs q (os_net s)) →
  ow_processed_seqnum o1 = ow_processed_seqnum o → ow_sent_seqnum o1 = ow_sent_seqnum o → ow_term_acks o1 = ow_term_acks o → 0 < ow_term_acks o →
  obj_rest n (register_term_acks (-1) o1) →
  ∃ s', unregister_term_ack p (OwnSys (<[p := o1]> (os_objs s)) net (os_next s)) = Done s' ∧ own_inv n s'.
Proof.
  intros Hst Hsq Epr Ese Eacks Hpos Hok. unfold unregister_term_ack, get_obj. simpl. rewrite lookup_insert_eq, bind_Done, slk_assert_bind by lia.
  unfold put_obj. simpl. rewrite insert_insert_eq. pose proof (sy_objs _ _ Hs p o Hp) as [_ Hseq].
  eapply (check_spec n _ p); [|apply (settled_build s p), settled_weaken; done|simpl; apply lookup_insert_eq].
  apply (sys_build n n s p o); [done|done|lia|done|done|]. split; [done|]. rewrite Hsq. simpl. by rewrite Epr, Ese.
Qed.

Lemma deliver_ack c :
  Forall (λ x, x.1 ≠ p) l1 → os_net s = l1 ++ (p, CTermAck c) :: l2 → ∃ s', own_command p (CTermAck c) arrived = Done s' ∧ own_inv n s'.
Proof.
  intros Hf Hnet. pose proof (sy_struct _ _ Hs) as Hst. rewrite Hnet in Hst. pose proof (skels_lookup s p o Hp) as Hk. destruct deliver_rest as [[] Hsz].
  destruct (struct_ack _ _ _ _ p _ c Hst Hk Hf) as [Hst' Hin]. simpl in Hst', Hin.
  assert (Hsz' : size (ow_awaited o) = S (size (ow_awaited o ∖ {[c]}))).
  { assert (E : ow_awaited o = {[c]} ∪ ow_awaited o ∖ {[c]}) by (apply union_difference_L; set_solver).
    rewrite E at 1. rewrite size_union by set_solver. by rewrite size_singleton. }
  simpl. unfold process_term_ack, get_obj. simpl. rewrite Hp, bind_Done. apply unregister_spec; [done| |done|done|done| |].
  - intros q. rewrite Hnet, seqs_removed. simpl. case_decide; lia.
  - lia.
  - unfold pipe_acks in *. split; simpl; try done. unfold pipe_acks. simpl. rewrite s32_small; destruct (ow_kind o), (ow_terminating o); lia.
Qed.

Lemma pipe_terminated_spec current :
  has_pipe o current = true → ∃ s', pipe_terminated p current s = Done s' ∧ own_inv n s'.
Proof.
  unfold has_pipe. intros Hpi. pose proof (sy_struct _ _ Hs) as Hst. pose proof (skels_lookup s p o Hp) as Hk. pose proof (sy_objs _ _ Hs p o Hp) as [_ Hseq].
  destruct deliver_rest as [[] Hsz]. assert (Hset1 : settled o) by (by eapply Hset). unfold pipe_terminated, get_obj. rewrite Hp, bind_Done. unfold put_obj.
  unfold pipe_acks in *. destruct (ow_kind o) eqn:Ek.
  - apply bool_decide_eq_true in Hpi. assert (Hns : ∀ P : Prop, KSocket = KSession ∧ P → False) by (intros P [[=] _]). destruct (ow_terminating o) eqn:Ht.
    + apply unregister_spec; simpl; [|done|done|done|done|lia|].
      * unfold skel_of. simpl. rewrite insert_id by (by rewrite Hk; unfold skel_of; rewrite Ht). done.
      * unfold pipe_acks. split; simpl; rewrite ?Ht, ?Ek; try done; try lia; try (intros Hb; exfalso; eauto). unfold pipe_acks. simpl. rewrite Ek, Ht, s32_small; lia.
    + eexists. split; [done|]. split; [|apply (settled_build_all s p); [done|]; unfold settled; simpl; congruence].
      apply (sys_build n n s p o); [done|done|lia| |done|split; [|done]].
      * rewrite insert_id; [done|]. by rewrite Hk; unfold skel_of; simpl.
      * unfold pipe_acks. split; simpl; rewrite ?Ht, ?Ek; try done; try lia; try (intros Hb; exfalso; eauto). unfold pipe_acks. simpl. rewrite Ek, Ht; lia.
  - rewrite Hpi. simpl. assert (Hcur : (if current then false else ow_pipe o) = true → (ow_pipes o - 1 ≠ 0)%nat).
    { destruct current; [done|]. intros E. rewrite E in Hpi. by apply bool_decide_eq_true in Hpi. }
    destruct (ow_pending o && bool_decide (ow_pipes o - 1 = 0)%nat) eqn:Epe.
    + apply andb_true_iff in Epe as [Epe E0%bool_decide_eq_true]. destruct (ok_pending0 Epe) as (_ & Ht & _).
      apply own_process_term_spec; simpl; [done|done| | | |done|done|done| |by rewrite Ek|lia].
      * destruct (if current then false else ow_pipe o) eqn:E; [by destruct (Hcur eq_refl)|done].
      * right. unfold skel_of. simpl. by rewrite Ht.
      * rewrite insert_id; [done|]. rewrite Hk. unfold skel_of. by rewrite Epe, orb_true_r.
      * rewrite Ek. lia.
    + eexists. split; [done|]. split; [|apply (settled_build_all s p); done].
      apply (sys_build n n s p o); [done|done|lia| |done|split; [|done]].
      * rewrite insert_id; [done|]. by rewrite Hk; unfold skel_of; simpl.
      * unfold pipe_acks. split; simpl; rewrite ?Ek; try done; [by unfold pipe_acks; simpl; rewrite Ek| | |lia].
        -- intros Hb. destruct (ok_pending0 Hb) as (? & ? & ?). rewrite Hb in Epe. simpl in Epe. apply bool_decide_eq_false in Epe. done.
        -- intros Hb. pose proof (Hcur Hb). destruct current; [done|]. destruct (ok_pipe0 Hb) as (? & ? & ?). done.
  - eexists. split; [done|]. by split.
Qed.
End deliver.

(** ** Every step *)

Lemma sys_mono n n' s : n ≤ n' → sys_ok n s → sys_ok n' s.
Proof. intros Hn []. split; [done| |lia]. intros p o Hp. eapply (obj_ok_mono n); [done|done|by apply sy_objs0]. Qed.

Lemma inv_alive n s p f :
  own_inv n s → (∀ o, os_objs s !! p = Some o → ∃ s', f s = Done s' ∧ own_inv (n + 1) s') → ∃ s', if_alive s p f = Done s' ∧ own_inv (n + 1) s'.
Proof.
  intros [Hs Hset] Hf. unfold if_alive. destruct (os_objs s !! p) as [o|] eqn:E; [by apply (Hf o)|].
  eexists. split; [done|]. split; [|done]. eapply sys_mono; [|done]. lia.
Qed.

(** A command with a sequence number is sent. *)
Lemma send_seq_spec n s p o c :
  n + 1 < 2 ^ 30 → own_inv n s → os_objs s !! p = Some o → c = CBind ∨ (∃ b, c = CAttach b) → ∃ s', send_seq true p c s = Done s' ∧ own_inv (n + 1) s'.
Proof.
  intros Hn [Hs Hset] Hp Hc. unfold send_seq, get_obj. rewrite Hp, bind_Done. eexists. split; [done|].
  pose proof (sy_objs _ _ Hs p o Hp) as [[] Hseq]. pose proof (skels_lookup s p o Hp) as Hk.
  assert (Hsc : plain c ∧ seq_cmd c = true ∧ (∀ c', c ≠ CTermReq c')) by (by destruct Hc as [-> | [? ->]]). destruct Hsc as (Hpl & Hsc & Hnr).
  split; [|apply (settled_build_all s p); [done|]].
  - apply (sys_build n (n + 1) s p o); [done|done|lia| | |].
    + change (skel_of (inc_seqnum o)) with (skel_of o). rewrite insert_id by done. apply struct_add_plain; [done|by eauto| |apply Hs]. intros c' ->. by destruct (Hnr c').
    + intros q Hq. rewrite seqs_snoc, decide_False by congruence. simpl. lia.
    + split; [by split; simpl; try done; lia|]. rewrite seqs_snoc, decide_True, Hsc by done. simpl. rewrite u32_small by lia. lia.
  - unfold settled. simpl. rewrite u32_small by lia. lia.
Qed.

(** The next identifier is nobody's. *)
Lemma sys_fresh n s : sys_ok n s → os_objs s !! os_next s = None ∧ seqs (os_next s) (os_net s) = 0%nat.
Proof.
  intros Hs. pose proof (sy_struct _ _ Hs) as Hst. assert (Hnone : os_objs s !! os_next s = None).
  { destruct (os_objs s !! os_next s) as [o'|] eqn:E; [|done]. destruct (so_next _ _ _ Hst _ _ (skels_lookup s _ _ E)). lia. }
  split; [done|]. destruct (filter (λ x, x.1 = os_next s ∧ seq_cmd x.2 = true) (os_net s)) as [|[d c] l] eqn:E; unfold seqs; rewrite E; [done|]. exfalso.
  assert (Hin : (d, c) ∈ filter (λ x, x.1 = os_next s ∧ seq_cmd x.2 = true) (os_net s)) by (rewrite E; by left).
  apply list_elem_of_filter in Hin as [[Hd _] Hin]. simpl in Hd. subst d. apply (so_dest _ _ _ Hst) in Hin as [k' Hk'].
  unfold skels in Hk'. rewrite lookup_fmap, Hnone in Hk'. done.
Qed.

Lemma launch_spec n s p o k with_pipe :
  n + 1 < 2 ^ 30 → own_inv n s → os_objs s !! p = Some o → k ≠ KSocket → (with_pipe = true → k = KSession) →
  ∃ s', launch_child p k with_pipe s = Done s' ∧ own_inv (n + 1) s'.
Proof.
  intros Hn [Hs Hset] Hp Hk Hpi. pose proof (sy_struct _ _ Hs) as Hst. pose proof (sy_next _ _ Hs) as Hnx.
  assert (Hpn : (p < os_next s)%nat) by (by destruct (so_next _ _ _ Hst p (skel_of o) (skels_lookup s p o Hp))).
  destruct (sys_fresh n s Hs) as [Hnone Hsq0].
  pose proof (sy_objs _ _ Hs p o Hp) as [Hr Hseq].
  unfold launch_child, send_seq, get_obj. rewrite Hp, bind_Done. simpl. rewrite lookup_insert_eq, bind_Done. unfold put_obj, send_cmd. simpl.
  rewrite insert_insert_eq, lookup_insert_ne, Hp, bind_Done by lia. eexists. split; [done|]. set (oc := inc_seqnum (o_set_pipe with_pipe (o_set_pipes (if with_pipe then 1 else 0) (own_new k (Some p))))).
  assert (Hoc : ow_sent_seqnum oc = 1) by (simpl; rewrite u32_small; lia). assert (Hsk : skel_of oc = Skel (Some p) ∅ ∅ false) by done.
  pose proof (struct_launch _ _ _ p _ Hst (skels_lookup s p o Hp)) as Hl. split.
  - split; simpl; [| |lia].
    + unfold skels. simpl. rewrite !fmap_insert, Hsk. change (skel_of (inc_seqnum o)) with (skel_of o). rewrite (insert_id (<[os_next s := _]> _)); [done|].
      rewrite lookup_insert_ne by lia. by apply skels_lookup.
    + intros q oq Hq. rewrite !lookup_insert_Some in Hq. destruct Hq as [[<- <-]|[Hqp [[<- <-]|[Hqn Hq]]]].
      * destruct Hr. split; [by split; simpl; try done; lia|]. rewrite !seqs_snoc, decide_False, decide_True by lia. simpl. rewrite u32_small by lia. lia.
      * split; [|rewrite Hoc, !seqs_snoc, decide_True, decide_False by lia; simpl; rewrite Hsq0; lia].
        split; simpl; [|done|done|by destruct with_pipe; auto|done|destruct with_pipe; lia]. unfold pipe_acks. simpl. by destruct k.
      * eapply (obj_ok_mono n _ (os_net s)); [lia| |by apply (sy_objs _ _ Hs)]. rewrite !seqs_snoc, !decide_False by congruence. lia.
  - intros q oq _ Hq. simpl in Hq. rewrite !lookup_insert_Some in Hq. destruct Hq as [[<- <-]|[_ [[<- <-]|[_ Hq]]]]; [|done|by apply (Hset q)].
    unfold settled. simpl. rewrite u32_small by lia. lia.
Qed.

Lemma own_terminate_spec n s p o :
  n < 2 ^ 30 → own_inv n s → os_objs s !! p = Some o → ∃ s', terminate p s = Done s' ∧ own_inv n s'.
Proof.
  intros Hn [Hs Hset] Hp. pose proof (sy_struct _ _ Hs) as Hst. pose proof (skels_lookup s p o Hp) as Hk. pose proof (sy_objs _ _ Hs p o Hp) as [[] Hseq].
  unfold terminate, get_obj. rewrite Hp, bind_Done. destruct (ow_terminating o) eqn:Ht; [by eexists|]. destruct (ow_owner o) as [q|] eqn:Eo.
  - eexists. split; [done|]. assert (Hch : child (skels s) q p) by (by exists (skel_of o)).
    destruct (child_stage _ _ _ q p Hst Hch) as (_ & kq & _ & _ & Hkq & _). split; [|by intros d od Hd; apply Hset]. split; simpl.
    + apply struct_add_plain; [done|by eauto| |done]. intros c' [= ->]. done.
    + intros d od Hd. eapply (obj_ok_mono n n (os_net s)); [lia| |by apply (sy_objs _ _ Hs)]. rewrite seqs_snoc. simpl. case_decide; lia.
    + apply Hs.
  - specialize (ok_kind0 eq_refl). assert (Hpe : ow_pending o = false) by (destruct (ow_pending o); [destruct (ok_pending0 eq_refl); congruence|done]).
    destruct s as [objs net next]. apply (process_term_spec n (OwnSys objs net next) p o Hn Hs Hset Hp net); [done|done| |done].
    pose proof (struct_busy _ net net next p _ Hst Hk) as H. simpl in H. apply H. left. by rewrite Eo.
Qed.

Lemma deliver_spec n s d : n + 1 < 2 ^ 30 → own_inv n s → ∃ s', own_step s (ADeliver d) = Done s' ∧ own_inv (n + 1) s'.
Proof.
  intros Hn [Hs Hset]. simpl. destruct (take_cmd d (os_net s)) as [[c net]|] eqn:E; [|eexists; split; [done|]; split; [eapply (sys_mono n); [lia|done]|done]].
  apply take_cmd_Some in E as (l1 & l2 & Hnet & -> & Hf). destruct (so_dest _ _ _ (sy_struct _ _ Hs) d c) as [k Hk]; [rewrite Hnet; set_solver|].
  apply skels_lookup_inv in Hk as (o & Hp & _). assert (Hpi : Z.of_nat (ow_pipes o) ≤ n) by apply (sy_objs _ _ Hs d o Hp).
  apply (sys_mono n (n + 1)) in Hs; [|lia]. assert (Hr : obj_rest (n + 1) o) by (by eapply ok_rest, (sy_objs _ _ Hs d)).
  destruct c as [|c|b| |c| |c].
  - destruct (deliver_plug (n + 1) s d o l1 l2 Hn Hs Hset Hp CPlug o) as (s' & E & Hi); [done..|]. exists s'. split; [|done]. simpl.
    unfold put_obj in E. simpl in E. by rewrite insert_id in E.
  - by apply (deliver_own (n + 1) s d o l1 l2).
  - apply (deliver_repiped (n + 1) s d o l1 l2 Hn Hs Hset Hp (CAttach b) (process_attach d b)); [done| |done..].
    destruct b; [by apply (engine_ready_spec (n + 1) s d o Hs Hp); lia|by apply (repiped_id (n + 1) s d o)].
  - apply (deliver_repiped (n + 1) s d o l1 l2 Hn Hs Hset Hp CBind (attach_pipe d)); [done| |done..].
    apply (attach_pipe_spec (n + 1) s d o Hn Hs Hp). lia.
  - by apply (deliver_term_req (n + 1) s d o l1 l2).
  - by apply (deliver_term (n + 1) s d o l1 l2).
  - by apply (deliver_ack (n + 1) s d o l1 l2).
Qed.

Lemma own_step_inv n s a : n + 1 < 2 ^ 30 → counted a → own_inv n s → ∃ s', own_step s a = Done s' ∧ own_inv (n + 1) s'.
Proof.
  intros Hn Hct Hi. pose proof Hi as [Hs Hset]. assert (Hs1 : sys_ok (n + 1) s) by (eapply (sys_mono n); [lia|done]).
  destruct a as [|p session with_pipe|p|p c|p|p|p|p inc|p ready|p current|d]; [|simpl; apply (inv_alive n); [done|]; intros o Hp; pose proof (ok_pipes _ _ (ok_rest _ _ _ _ (sy_objs _ _ Hs p o Hp))) as Hpb..|by apply deliver_spec].
  - eexists. split; [done|]. pose proof (struct_root _ _ _ (sy_struct _ _ Hs)) as Hr. destruct (sys_fresh n s Hs) as [_ Hq0]. split.
    + split; simpl; [unfold skels; simpl; by rewrite fmap_insert| |pose proof (sy_next _ _ Hs); lia].
      intros q oq [[<- <-]|[_ Hq]]%lookup_insert_Some; [|by apply (sy_objs _ _ Hs1)]. pose proof (sy_next _ _ Hs).
      split; [split; simpl; try done; lia|]. rewrite Hq0. simpl. lia.
    + intros q oq _ Hq. simpl in Hq. apply lookup_insert_Some in Hq as [[<- <-]|[_ Hq]]; [done|by apply (Hset q)].
  - destruct session; by apply (launch_spec n _ _ o).
  - by apply (own_terminate_spec (n + 1) s p o).
  - destruct s as [objs net next]. apply (term_req_spec (n + 1) _ p o Hn Hs1 Hset Hp c net); [apply Hs|done].
  - apply (repiped_inv (n + 1) s p o Hs1 Hset Hp). destruct s as [objs net next]. apply (attach_pipe_spec (n + 1) _ p o Hn Hs1 Hp net). lia.
  - apply (repiped_inv (n + 1) s p o Hs1 Hset Hp). destruct s as [objs net next]. apply (engine_ready_spec (n + 1) _ p o Hs1 Hp net). lia.
  - apply (repiped_inv (n + 1) s p o Hs1 Hset Hp). destruct s as [objs net next]. apply (reconnect_spec (n + 1) _ p o Hs1 Hp net).
  - simpl in Hct. subst inc. apply (send_seq_spec n s p o); [done|done|done|by left].
  - apply (send_seq_spec n s p o); [done|done|done|by right; eauto].
  - unfold get_obj. rewrite Hp, bind_Done. destruct (has_pipe o current) eqn:Eh; [|by eexists]. by apply (pipe_terminated_spec (n + 1) s p o).
Qed.

Lemma own_run_inv acts n s : 0 ≤ n → n + Z.of_nat (length acts) < 2 ^ 30 → Forall counted acts → own_inv n s →
  ∃ s', own_run s acts = Done s' ∧ own_inv (n + Z.of_nat (length acts)) s'.
Proof.
  revert n s. induction acts as [|a acts IH]; intros n s H0 Hn Hct Hi; simpl in *; [exists s; by rewrite Z.add_0_r|]. apply Forall_cons in Hct as [Hca Hct].
  destruct (own_step_inv n s a) as (s1 & -> & H1); [lia|done|done|]. rewrite bind_Done.
  destruct (IH (n + 1) s1) as (s' & -> & H'); [lia|lia|done|done|]. exists s'. split; [done|]. match goal with |- own_inv ?x _ => replace x with (n + 1 + Z.of_nat (length acts)) by lia end. done.
Qed.

Lemma own_empty_inv : own_inv 0 own_empty.
Proof.
  assert (He : ∀ (p : nat) (k : skel), (∅ : gmap nat skel) !! p ≠ Some k) by (intros; by rewrite lookup_empty).
  split; [|intros p o _ H; simpl in H; by rewrite lookup_empty in H]. split; simpl; [|intros p o H; by rewrite lookup_empty in H|lia].
  unfold skels. simpl. rewrite fmap_empty. split; simpl; try done; try (intros; exfalso; by eapply He); try (intros; set_solver). constructor.
Qed.
