(* ===== verification/OwnTree.v ===== *)
(** What the shutdown of the object tree guarantees (src/core/own.cpp): no command reaches
    an object that has been deallocated, nothing waits for an acknowledgement that does not
    come, and the commands come to an end. *)
From S2P Require Import Prelude Own.

Local Open Scope sl_scope.

(** What is left to do in a state: the commands in flight, those that taking a child into
    possession may cause, and those of the objects still to be deallocated. *)
Definition cmd_work (x : nat * own_cmd) : nat := match x.2 with COwn _ => 2 | _ => 1 end.
Definition net_work (net : list (nat * own_cmd)) : nat := sum_list_with cmd_work net.
Definition obj_work (o : own_t) : nat := 2 + size (ow_owned o).
Definition objs_work (m : gmap nat own_t) : nat := map_fold (λ _ o n, obj_work o + n)%nat 0%nat m.
Definition own_work (s : own_sys) : nat := (net_work (os_net s) + objs_work (os_objs s))%nat.

Lemma objs_work_delete m p o : m !! p = Some o → objs_work m = (obj_work o + objs_work (delete p m))%nat.
Proof. intros H. unfold objs_work. rewrite (map_fold_delete_L _ _ p o m); [done|lia|done]. Qed.

Lemma objs_work_insert m p o o' : m !! p = Some o → (objs_work (<[p := o']> m) + obj_work o = objs_work m + obj_work o')%nat.
Proof.
  intros H. rewrite (objs_work_delete (<[p := o']> m) p o') by apply lookup_insert_eq. rewrite (objs_work_delete m p o) by done.
  rewrite delete_insert_eq. lia.
Qed.

Lemma net_work_app l1 l2 : net_work (l1 ++ l2) = (net_work l1 + net_work l2)%nat.
Proof. apply sum_list_with_app. Qed.

Lemma net_work_terms cs : net_work ((λ c, (c, CTerm)) <$> cs) = length cs.
Proof. induction cs as [|c cs IH]; [done|]. rewrite fmap_cons. simpl. by rewrite <- IH. Qed.

Lemma get_obj_inv s p o : get_obj s p = Done o → os_objs s !! p = Some o.
Proof. unfold get_obj. destruct (os_objs s !! p); [by intros [= ->]|done]. Qed.

(** An object is exchanged for one with [n] more work, or less. *)
Lemma put_work s p o o' : os_objs s !! p = Some o → (own_work (put_obj p o' s) + obj_work o = own_work s + obj_work o')%nat.
Proof. intros H. unfold own_work, put_obj. simpl. pose proof (objs_work_insert _ _ _ o' H). lia. Qed.

Lemma send_work s d c : own_work (send_cmd d c s) = (own_work s + cmd_work (d, c))%nat.
Proof. unfold own_work, send_cmd. simpl. rewrite net_work_app. unfold net_work. simpl. lia. Qed.

(** Nothing that the end of a handler does is more work. *)
Lemma check_work p s s' : check_term_acks p s = Done s' → (own_work s' ≤ own_work s)%nat.
Proof.
  unfold check_term_acks. intros (o & Ho%get_obj_inv & H)%bind_Done_inv. case_decide; [|by injection H as <-].
  apply bind_Done_inv in H as (? & _ & H). apply bind_Done_inv in H as (? & _ & [= <-]). unfold own_work.
  pose proof (objs_work_delete _ _ _ Ho). destruct (ow_owner o); simpl; rewrite ?net_work_app; unfold net_work, obj_work in *; simpl; lia.
Qed.

Lemma seqnum_work p s s' : process_seqnum p s = Done s' → (own_work s' ≤ own_work s)%nat.
Proof.
  unfold process_seqnum. intros (o & Ho%get_obj_inv & H)%bind_Done_inv. apply check_work in H. pose proof (put_work s p o (inc_processed o) Ho).
  unfold obj_work in *. simpl in *. lia.
Qed.

Lemma process_own_work p c s s' : process_own p c s = Done s' → (own_work s' ≤ own_work s + 1)%nat.
Proof.
  unfold process_own. intros (o & Ho%get_obj_inv & H)%bind_Done_inv. destruct (ow_terminating o); injection H as <-.
  - rewrite send_work. pose proof (put_work s p o (o_set_awaited ({[c]} ∪ ow_awaited o) (register_term_acks 1 o)) Ho). unfold obj_work, cmd_work in *. simpl in *. lia.
  - pose proof (put_work s p o (o_set_owned ({[c]} ∪ ow_owned o) o) Ho). unfold obj_work in *. simpl in *.
    assert (size ({[c]} ∪ ow_owned o) ≤ 1 + size (ow_owned o))%nat; [|lia].
    rewrite size_union_alt, size_singleton. pose proof (subseteq_size (ow_owned o ∖ {[c]}) (ow_owned o)). set_solver by lia.
Qed.

Lemma term_req_work p c s s' : process_term_req p c s = Done s' → (own_work s' ≤ own_work s)%nat.
Proof.
  unfold process_term_req. intros (o & Ho%get_obj_inv & H)%bind_Done_inv. destruct (ow_terminating o); [by injection H as <-|].
  case_decide as Hc; injection H as <-; [done|]. rewrite send_work. match goal with |- (own_work (put_obj p ?o' s) + _ ≤ _)%nat => pose proof (put_work s p o o' Ho) end.
  unfold obj_work, cmd_work in *. simpl in *.
  assert (size (ow_owned o) = S (size (ow_owned o ∖ {[c]}))); [|lia].
  rewrite (union_difference_L {[c]} (ow_owned o)) at 1 by set_solver. rewrite size_union by set_solver. by rewrite size_singleton.
Qed.

Lemma own_term_work p s s' : own_process_term p s = Done s' → (own_work s' ≤ own_work s)%nat.
Proof.
  unfold own_process_term. intros (o & Ho%get_obj_inv & H)%bind_Done_inv. apply bind_Done_inv in H as (? & _ & H). apply check_work in H.
  match type of H with context [put_obj p ?o' ?s0] => pose proof (put_work s0 p o o' Ho) end. unfold obj_work in *. cbn [ow_owned o_set_awaited o_set_terminating o_set_owned] in *. rewrite size_empty in *.
  assert (own_work (send_terms (elements (ow_owned o)) s) = own_work s + size (ow_owned o))%nat; [|lia].
  unfold own_work, send_terms. simpl. rewrite net_work_app, net_work_terms. unfold size, set_size. simpl. lia.
Qed.

(** A change of the pipes is no work. *)
Lemma same_owned_work s p o o' : os_objs s !! p = Some o → ow_owned o' = ow_owned o → own_work (put_obj p o' s) = own_work s.
Proof. intros Ho E. pose proof (put_work s p o o' Ho). unfold obj_work in *. rewrite E in *. lia. Qed.

Lemma process_term_work p s s' : process_term p s = Done s' → (own_work s' ≤ own_work s)%nat.
Proof.
  unfold process_term. intros (o & Ho%get_obj_inv & H)%bind_Done_inv. destruct (ow_kind o).
  - apply own_term_work in H. by erewrite same_owned_work in H.
  - apply bind_Done_inv in H as (? & _ & H). case_decide; [by apply (own_term_work p)|]. injection H as <-. by erewrite same_owned_work.
  - by apply (own_term_work p).
Qed.

Lemma term_ack_work p c s s' : process_term_ack p c s = Done s' → (own_work s' ≤ own_work s)%nat.
Proof.
  unfold process_term_ack, unregister_term_ack. intros (o & Ho%get_obj_inv & H)%bind_Done_inv. apply bind_Done_inv in H as (o1 & Ho1%get_obj_inv & H).
  apply bind_Done_inv in H as (? & _ & H). apply check_work in H. by erewrite !same_owned_work in H.
Qed.

Lemma attach_work p c s s' :
  (c = CBind ∧ attach_pipe p s = Done s' ∨ ∃ b, c = CAttach b ∧ process_attach p b s = Done s') → own_work s' = own_work s.
Proof.
  intros [[_ H]|(b & _ & H)].
  - unfold attach_pipe in H. apply bind_Done_inv in H as (o & Ho%get_obj_inv & H). destruct (ow_kind o); injection H as <-; [|done..].
    erewrite same_owned_work; [done|done|]. by destruct (ow_terminating _).
  - unfold process_attach, engine_ready in H. destruct b; [|by injection H as <-]. apply bind_Done_inv in H as (o & Ho%get_obj_inv & H).
    destruct (ow_kind o); [by injection H as <-| |by injection H as <-]. destruct (_ && _); injection H as <-; [|done]. by erewrite same_owned_work.
Qed.

(** Every command that is delivered leaves less to do. *)
Lemma command_work p c s s' : own_command p c s = Done s' → (own_work s' < own_work s + cmd_work (p, c))%nat.
Proof.
  destruct c as [|c|b| |c| |c]; simpl; intros H; unfold cmd_work; simpl.
  - apply seqnum_work in H. lia.
  - apply bind_Done_inv in H as (s1 & H1%process_own_work & H%seqnum_work). lia.
  - apply bind_Done_inv in H as (s1 & H1 & H%seqnum_work). rewrite (attach_work p (CAttach b) s s1) in H by eauto. lia.
  - apply bind_Done_inv in H as (s1 & H1 & H%seqnum_work). rewrite (attach_work p CBind s s1) in H by eauto. lia.
  - apply term_req_work in H. lia.
  - apply process_term_work in H. lia.
  - apply term_ack_work in H. lia.
Qed.

(** ** Termination is for good *)

(** No object comes back, and none stops terminating. *)
Definition keeps (s s' : own_sys) : Prop :=
  (os_next s ≤ os_next s')%nat
  ∧ ∀ p o', (p < os_next s)%nat → os_objs s' !! p = Some o' → ∃ o, os_objs s !! p = Some o ∧ (ow_terminating o = true → ow_terminating o' = true).

#[export] Instance keeps_PreOrder : PreOrder keeps.
Proof.
  split.
  - intros s. split; [done|]. eauto.
  - intros s1 s2 s3 [Hn1 H1] [Hn2 H2]. split; [lia|]. intros p o3 Hp H3. destruct (H2 p o3) as (o2 & Ho2 & ?); [lia|done|].
    destruct (H1 p o2) as (o1 & Ho1 & ?); [done|done|]. eauto.
Qed.

Lemma keeps_put s p o o' : os_objs s !! p = Some o → (ow_terminating o = true → ow_terminating o' = true) → keeps s (put_obj p o' s).
Proof. intros Ho Ht. split; [done|]. simpl. intros q oq _ [[<- <-]|[_ Hq]]%lookup_insert_Some; eauto. Qed.

Lemma keeps_send s d c : keeps s (send_cmd d c s).
Proof. split; [done|]. simpl. eauto. Qed.

Lemma keeps_send_terms s cs : keeps s (send_terms cs s).
Proof. split; [done|]. simpl. eauto. Qed.

Lemma keeps_delete s p : keeps s (OwnSys (delete p (os_objs s)) (os_net s) (os_next s)).
Proof. split; [done|]. simpl. intros q oq _ [_ ?]%lookup_delete_Some. eauto. Qed.

Lemma keeps_new s o : keeps s (OwnSys (<[os_next s := o]> (os_objs s)) (os_net s) (S (os_next s))).
Proof. split; simpl; [lia|]. intros q oq Hq [[<- <-]|[_ ?]]%lookup_insert_Some; [lia|eauto]. Qed.

Lemma keeps_remove s net : keeps s (OwnSys (os_objs s) net (os_next s)).
Proof. split; [done|]. simpl. eauto. Qed.

Create HintDb own_keeps.
#[local] Hint Resolve keeps_send keeps_send_terms keeps_delete keeps_new keeps_remove : own_keeps.

(** Takes a handler apart that is known to return. *)
Ltac run_inv H :=
  repeat match type of H with
  | mbind _ _ = Done _ =>
      let x := fresh "x" in let Hx := fresh "Hx" in apply bind_Done_inv in H as (x & Hx & H); try apply get_obj_inv in Hx
  | Done _ = Done _ => injection H as <-
  | (if ?b then _ else _) = Done _ => destruct b eqn:?
  | match ?k with KSocket => _ | KSession => _ | KPlain => _ end = Done _ => destruct k eqn:?
  end.

Lemma check_keeps p s s' : check_term_acks p s = Done s' → keeps s s'.
Proof.
  unfold check_term_acks. intros H. run_inv H; [|done]. destruct (ow_owner x); [|apply keeps_delete].
  etrans; [apply (keeps_send s)|apply (keeps_delete (send_cmd _ _ _))].
Qed.

Lemma seqnum_keeps p s s' : process_seqnum p s = Done s' → keeps s s'.
Proof. unfold process_seqnum. intros H. run_inv H. apply check_keeps in H. etrans; [|exact H]. by eapply keeps_put. Qed.

Lemma own_term_keeps p s s' : own_process_term p s = Done s' → keeps s s'.
Proof.
  unfold own_process_term. intros H. run_inv H. apply check_keeps in H. etrans; [|exact H]. etrans; [apply (keeps_send_terms s)|]. by eapply keeps_put.
Qed.

Lemma process_term_keeps p s s' : process_term p s = Done s' → keeps s s'.
Proof.
  unfold process_term. intros H. run_inv H; try (by eapply own_term_keeps); [|by eapply keeps_put].
  apply own_term_keeps in H. etrans; [|exact H]. by eapply keeps_put.
Qed.

Lemma unregister_keeps p s s' : unregister_term_ack p s = Done s' → keeps s s'.
Proof. unfold unregister_term_ack. intros H. run_inv H. apply check_keeps in H. etrans; [|exact H]. by eapply keeps_put. Qed.

Lemma process_own_keeps p c s s' : process_own p c s = Done s' → keeps s s'.
Proof. unfold process_own. intros H. run_inv H; [etrans; [|apply keeps_send]|]; by eapply keeps_put. Qed.

Lemma term_req_keeps p c s s' : process_term_req p c s = Done s' → keeps s s'.
Proof. unfold process_term_req. intros H. run_inv H; try done. etrans; [|apply keeps_send]. by eapply keeps_put. Qed.

Lemma engine_ready_keeps p s s' : engine_ready p s = Done s' → keeps s s'.
Proof. unfold engine_ready. intros H. run_inv H; try done. by eapply keeps_put. Qed.

Lemma attach_keeps p s s' : attach_pipe p s = Done s' → keeps s s'.
Proof. unfold attach_pipe. intros H. run_inv H; try done. eapply keeps_put; [done|]. simpl. intros E. by rewrite E. Qed.

Lemma command_keeps p c s s' : own_command p c s = Done s' → keeps s s'.
Proof.
  destruct c as [|c|b| |c| |c]; simpl; intros H; run_inv H.
  - by eapply seqnum_keeps.
  - etrans; [by eapply process_own_keeps|by eapply seqnum_keeps].
  - etrans; [|by eapply seqnum_keeps]. unfold process_attach in Hx. run_inv Hx; [by eapply engine_ready_keeps|done].
  - etrans; [by eapply attach_keeps|by eapply seqnum_keeps].
  - by eapply term_req_keeps.
  - by eapply process_term_keeps.
  - unfold process_term_ack in H. run_inv H. etrans; [|by eapply unregister_keeps]. by eapply keeps_put.
Qed.

Lemma send_seq_keeps inc d c s s' : send_seq inc d c s = Done s' → keeps s s'.
Proof. unfold send_seq. intros H. apply bind_Done_inv in H as (x & Hx & H). injection H as <-. etrans; [|apply keeps_send]. destruct inc; [|done]. unfold get_obj in Hx. destruct (os_objs s !! d) eqn:E; [|done]. injection Hx as ->. by eapply keeps_put. Qed.

Lemma terminate_keeps p s s' : terminate p s = Done s' → keeps s s'.
Proof. unfold terminate. intros H. run_inv H; [done|]. destruct (ow_owner x); [injection H as <-; apply keeps_send|by eapply process_term_keeps]. Qed.

Lemma pipe_terminated_keeps p b s s' : pipe_terminated p b s = Done s' → keeps s s'.
Proof.
  unfold pipe_terminated. intros H. run_inv H; try done; try (by eapply keeps_put).
  - etrans; [|by eapply unregister_keeps]. by eapply keeps_put.
  - etrans; [|by eapply own_term_keeps]. by eapply keeps_put.
Qed.

Lemma own_step_keeps s a s' : own_step s a = Done s' → keeps s s'.
Proof.
  assert (Hal : ∀ p f, (∀ s', f s = Done s' → keeps s s') → if_alive s p f = Done s' → keeps s s').
  { intros p f Hf H. unfold if_alive in H. destruct (os_objs s !! p); [by apply Hf|by injection H as <-]. }
  destruct a as [|p session with_pipe|p|p c|p|p|p|p inc|p ready|p current|d]; simpl; try (apply Hal; clear Hal s'; intros s' H).
  - intros [= <-]. apply keeps_new.
  - assert (∃ k b, launch_child p k b s = Done s') as (k & b & H') by (destruct session; eauto). unfold launch_child in H'. run_inv H'.
    apply send_seq_keeps in Hx0, H'. etrans; [|exact H']. etrans; [|exact Hx0]. apply keeps_new.
  - by eapply terminate_keeps.
  - by eapply term_req_keeps.
  - by eapply attach_keeps.
  - by eapply engine_ready_keeps.
  - unfold reconnect in H. run_inv H. by eapply keeps_put.
  - by eapply send_seq_keeps.
  - by eapply send_seq_keeps.
  - run_inv H; [by eapply pipe_terminated_keeps|done].
  - destruct (take_cmd d (os_net s)) as [[c net]|]; [|by intros [= <-]]. intros H%command_keeps. etrans; [apply (keeps_remove s net)|done].
Qed.

Lemma own_run_keeps s acts s' : own_run s acts = Done s' → keeps s s'.
Proof.
  revert s. induction acts as [|a acts IH]; intros s H; simpl in H; [by injection H as <-|]. run_inv H.
  etrans; [by eapply own_step_keeps|by apply IH].
Qed.

(** A root that is told to terminate does so at once. *)
Lemma root_terminates s p o s' o' :
  (p < os_next s)%nat → os_objs s !! p = Some o → ow_owner o = None → ow_kind o = KSocket → own_step s (ATerminate p) = Done s' → os_objs s' !! p = Some o' → ow_terminating o' = true.
Proof.
  intros Hlt Hp Ho Hk H Hp'. simpl in H. unfold if_alive in H. rewrite Hp in H. unfold terminate, get_obj in H. rewrite Hp, bind_Done, Ho in H.
  destruct (ow_terminating o) eqn:Ht; [by simplify_eq|]. unfold process_term, get_obj in H. rewrite Hp, bind_Done, Hk in H.
  unfold own_process_term, get_obj in H. simpl in H. rewrite lookup_insert_eq, bind_Done in H. apply bind_Done_inv in H as (_ & _ & H).
  apply check_keeps in H as [_ H]. destruct (H p o' Hlt Hp') as (o2 & Ho2 & Ht2). apply Ht2. simpl in Ho2. rewrite lookup_insert_eq in Ho2. by injection Ho2 as <-.
Qed.

(** ** The claims *)

Lemma own_reach acts : Z.of_nat (length acts) < 2 ^ 30 → Forall counted acts → ∃ s, own_run own_empty acts = Done s ∧ own_inv (Z.of_nat (length acts)) s.
Proof. intros H Hct. destruct (own_run_inv acts 0 own_empty) as (s & E & Hi); [lia|lia|done|apply own_empty_inv|]. eauto. Qed.

(** The commands in flight have a destination, owners are alive and know their objects, and
    nothing that could be deallocated is still there. *)
Record well_kept (s : own_sys) : Prop := {
  wk_dest d c : (d, c) ∈ os_net s → is_Some (os_objs s !! d);
  wk_owner c o p : os_objs s !! c = Some o → ow_owner o = Some p →
    ∃ op, os_objs s !! p = Some op ∧ ((p, COwn c) ∈ os_net s ∨ c ∈ ow_owned op ∨ c ∈ ow_awaited op);
  wk_dealloc p o : os_objs s !! p = Some o → ow_terminating o = true → ¬ (ow_processed_seqnum o = ow_sent_seqnum o ∧ ow_term_acks o = 0);
}.

(** C6: whatever the threads of the objects do and in whatever order the commands between them
    arrive, no assertion of own.cpp or of the session's destructor fails and no command is
    processed by an object that has been deallocated; the commands in flight have a
    destination, the owner of every live object is alive and knows it (a command to own it is on
    its way, or it is owned, or it has been asked to terminate), and an object that terminates and
    waits for nothing more has been deallocated.  This is for up to 2^30 actions, in which every bind
    command raises the sequence number of the socket it is for: the sessions' do, that of an inproc
    connection does not (socket_base.cpp:534), and there the claim fails, as [uncounted_bind] shows. *)
Theorem own_tree_safe acts :
  Z.of_nat (length acts) < 2 ^ 30 → Forall counted acts → ∃ s, own_run own_empty acts = Done s ∧ well_kept s.
Proof.
  intros Hn Hct. destruct (own_reach acts Hn Hct) as (s & E & [Hst Hobj _] & Hset). exists s. split; [done|]. split.
  - intros d c Hin. destruct (so_dest _ _ _ Hst d c Hin) as [k Hk]. apply skels_lookup_inv in Hk as (o & Ho & _). eauto.
  - intros c o p Hc Ho. destruct (so_child _ _ _ Hst c (skel_of o) p (skels_lookup s c o Hc) Ho) as (_ & kp & Hkp & Hsg).
    apply skels_lookup_inv in Hkp as (op & Hop & ->). exists op. split; [done|]. unfold stage in Hsg. simpl in Hsg. tauto.
  - intros p o Hp. by apply (Hset p).
Qed.

Lemma own_tree_safe_witness :
  ∃ s, own_run own_empty [ARoot; ALaunch 0 true true; ATerminate 0; ADeliver 0; ADeliver 1] = Done s ∧ well_kept s.
Proof. apply (own_tree_safe [ARoot; ALaunch 0 true true; ATerminate 0; ADeliver 0; ADeliver 1]); [simpl; lia|by repeat constructor].
Defined.

(** With a bind command that is not counted, a socket is deallocated before the command has arrived, or never. *)
Lemma uncounted_bind :
  own_run own_empty [ARoot; ASendBind 0 false; ATerminate 0; ADeliver 0] = Undef
  ∧ match own_run own_empty [ARoot; ASendBind 0 false; ADeliver 0; APipeTerminated 0 true; ATerminate 0] with
    | Done s => os_net s = [] ∧ (ow_pipes <$> os_objs s !! 0%nat) = Some 0%nat
    | _ => False
    end.
Proof. by vm_compute. Qed.

(** No command in flight and no pipe left: nothing is half terminated.  An object that
    waits, waits for a child that is busy itself, which was made later. *)
Definition quiet (s : own_sys) : Prop :=
  os_net s = [] ∧ ∀ p o, os_objs s !! p = Some o → ow_terminating o || ow_pending o = true → ow_pipes o = 0%nat.

Lemma own_not_busy n s :
  own_inv n s → quiet s → ∀ p o, os_objs s !! p = Some o → ow_terminating o || ow_pending o = false.
Proof.
  intros [[Hst Hobj _] Hset] [Hnet Hpi]. rewrite Hnet in Hst.
  assert (Hind : ∀ m p o, (os_next s - p ≤ m)%nat → os_objs s !! p = Some o → ow_terminating o || ow_pending o = false); [|intros p o; by apply (Hind (os_next s - p)%nat p o)].
  induction m as [|m IH]; intros p o Hm Hp; pose proof (skels_lookup s p o Hp) as Hk; destruct (so_next _ _ _ Hst p _ Hk) as [Hlt _]; [lia|].
  destruct (ow_terminating o || ow_pending o) eqn:Hb; [exfalso|done]. specialize (Hpi p o Hp Hb). destruct (Hobj p o Hp) as [[] Hseq].
  assert (Ht : ow_terminating o = true).
  { destruct (ow_terminating o); [done|]. simpl in Hb. destruct (ok_pending Hb) as (_ & _ & ?). done. }
  rewrite Hnet in Hseq. unfold seqs in Hseq. simpl in Hseq. destruct (Hset p o ltac:(done) Hp Ht). split; [lia|]. rewrite ok_acks.
  assert (pipe_acks o = 0%nat) as -> by (unfold pipe_acks; destruct (ow_kind o), (ow_terminating o); done).
  destruct (decide (ow_awaited o = ∅)) as [->|[c Hc]%set_choose_L]; [by rewrite size_empty|exfalso].
  destruct (so_awaited _ _ _ Hst p _ c Hk Hc) as [Hch|[_ H]]; [|by apply elem_of_nil in H].
  destruct (child_stage _ _ _ p c Hst Hch) as (kc & k & Hkc & _ & Hk' & Hpc & _ & Hsg). rewrite Hk in Hk'. injection Hk' as <-.
  apply skels_lookup_inv in Hkc as (oc & Hoc & ->). specialize (IH c oc ltac:(lia) Hoc). simpl in Hsg. rewrite IH in Hsg.
  unfold stage in Hsg. rewrite !elem_of_nil in Hsg. naive_solver.
Qed.

(** C22: once a root has been told to terminate, and whatever happens afterwards, in every state in
    which the commands have been processed and the pipes of the objects that terminate are gone
    the root is deallocated; nothing that is left waits for an acknowledgement, and
    whatever is left has an owner that is left, so no object of the tree of that root is.  As for
    [own_tree_safe], every bind command raises the sequence number of the socket it is for (that of
    an inproc connection does not; see [uncounted_bind]). *)
Theorem own_shutdown_completes acts1 p acts2 s1 o s :
  Z.of_nat (length (acts1 ++ ATerminate p :: acts2)) < 2 ^ 30 → Forall counted (acts1 ++ acts2) →
  own_run own_empty acts1 = Done s1 → os_objs s1 !! p = Some o → ow_owner o = None → own_run s1 (ATerminate p :: acts2) = Done s →
  quiet s →
  os_objs s !! p = None
  ∧ (∀ q oq, os_objs s !! q = Some oq → ow_terminating oq = false ∧ ow_pending oq = false)
  ∧ (∀ q oq r, os_objs s !! q = Some oq → ow_owner oq = Some r → is_Some (os_objs s !! r)).
Proof.
  rewrite length_app, length_cons. intros Hn [Hc1 Hc2]%Forall_app H1 Hp Ho H2 Hquiet. set (n := Z.of_nat (length acts1)).
  destruct (own_run_inv acts1 0 own_empty) as (s1' & E1 & Hi1); [lia|lia|done|apply own_empty_inv|]. rewrite H1 in E1. injection E1 as <-.
  destruct (own_run_inv (ATerminate p :: acts2) n s1) as (s' & E2 & Hi2); [lia|rewrite length_cons; lia|by constructor|done|]. rewrite H2 in E2. injection E2 as <-.
  pose proof (own_not_busy _ s Hi2 Hquiet) as Hnb. split_and!.
  - destruct (os_objs s !! p) as [o'|] eqn:Hp'; [exfalso|done]. simpl in H2. apply bind_Done_inv in H2 as (s2 & Hs2 & H2).
    pose proof (own_run_keeps _ _ _ H2) as [Hk2n Hk2]. pose proof (own_step_keeps s1 (ATerminate p) s2 Hs2) as [Hk1n _].
    destruct Hi1 as [[Hst1 Hobj1 _] _]. destruct (so_next _ _ _ Hst1 p _ (skels_lookup _ _ _ Hp)) as [Hlt _].
    destruct (Hk2 p o') as (o2 & Ho2 & Ht); [lia|done|]. assert (Ht2 : ow_terminating o2 = true) by (eapply (root_terminates s1); eauto; by apply (Hobj1 p o Hp)).
    specialize (Hnb p o' Hp'). rewrite (Ht Ht2) in Hnb. done.
  - intros q oq Hq. by apply orb_false_iff, (Hnb q).
  - intros q oq r Hq Hr. destruct Hi2 as [[Hst _ _] _].
    destruct (so_child _ _ _ Hst q (skel_of oq) r (skels_lookup s q oq Hq) Hr) as (_ & kp & Hkp & _). apply skels_lookup_inv in Hkp as (op & -> & _). eauto.
Qed.

Lemma own_shutdown_completes_witness :
  ∃ s, own_run own_empty ([ARoot; ALaunch 0 true true] ++ ATerminate 0 :: [ADeliver 0; ADeliver 1; ADeliver 1; APipeTerminated 1 true; ADeliver 0]) = Done s
    ∧ os_objs s !! 0%nat = None.
Proof.
  eexists. split; [vm_compute; reflexivity|].
  eapply (own_shutdown_completes [ARoot; ALaunch 0 true true] 0 [ADeliver 0; ADeliver 1; ADeliver 1; APipeTerminated 1 true; ADeliver 0]);
    [by vm_compute|by repeat constructor|vm_compute; reflexivity..|]. split; [reflexivity|].
  intros q oq Hq. vm_compute in Hq. done.
Defined.

(** [k] commands are delivered one after the other, each of them the oldest one for its destination. *)
Inductive delivers : own_sys → nat → own_sys → Prop :=
| delivers_refl s : delivers s 0 s
| delivers_step s d s1 k s2 : take_cmd d (os_net s) ≠ None → own_step s (ADeliver d) = Done s1 → delivers s1 k s2 → delivers s (S k) s2.

Lemma deliver_work s d s' : take_cmd d (os_net s) ≠ None → own_step s (ADeliver d) = Done s' → (own_work s' < own_work s)%nat.
Proof.
  simpl. destruct (take_cmd d (os_net s)) as [[c net]|] eqn:E; [|done]. intros _ H%command_work. apply take_cmd_Some in E as (l1 & l2 & Hnet & -> & _).
  unfold own_work in *. simpl in *. rewrite Hnet. rewrite !net_work_app in *. unfold net_work in *. simpl. lia.
Qed.

Lemma delivers_work s k s' : delivers s k s' → (k + own_work s' ≤ own_work s)%nat.
Proof. induction 1 as [|s d s1 k s2 Ht Hs _ IH]; [lia|]. apply deliver_work in Hs; [lia|done]. Qed.

Lemma take_cmd_head d c net : take_cmd d ((d, c) :: net) = Some (c, net).
Proof. simpl. by rewrite decide_True. Qed.

Lemma delivers_end m n s : (own_work s ≤ m)%nat → 0 ≤ n → n + Z.of_nat m < 2 ^ 30 → own_inv n s → ∃ k s', delivers s k s' ∧ os_net s' = [].
Proof.
  revert n s. induction m as [|m IH]; intros n s Hw H0 Hn Hi; (destruct (os_net s) as [|[d c] net] eqn:E; [by exists 0%nat, s; split; [constructor|]|]).
  - exfalso. unfold own_work, net_work in Hw. rewrite E in Hw. simpl in Hw. unfold cmd_work in Hw. destruct c; simpl in Hw; lia.
  - destruct (own_step_inv n s (ADeliver d)) as (s1 & Hs & Hi1); [lia|done|done|].
    assert (Ht : take_cmd d (os_net s) ≠ None) by (by rewrite E, take_cmd_head).
    destruct (IH (n + 1) s1) as (k & s' & Hk & Hnet); [pose proof (deliver_work s d s1 Ht Hs); lia|lia|lia|done|].
    exists (S k), s'. split; [|done]. by eapply delivers_step.
Qed.

(** The commands come to an end: from every state that the system reaches, no matter in which
    order the objects process their commands, there are at most [own_work] of them, counted from the commands
    in flight, the objects alive and the objects they own; and when they are processed there is
    a state without commands in flight. *)
Lemma own_commands_end acts s :
  Forall counted acts → own_run own_empty acts = Done s → Z.of_nat (length acts + own_work s) < 2 ^ 30 →
  (∀ k s', delivers s k s' → (k ≤ own_work s)%nat) ∧ ∃ k s', delivers s k s' ∧ os_net s' = [].
Proof.
  intros Hct E Hn. split; [intros k s' H%delivers_work; lia|]. destruct (own_reach acts) as (s0 & E0 & Hi); [lia|done|]. rewrite E in E0. injection E0 as <-.
  eapply delivers_end; [done| | |done]; lia.
Qed.

Lemma own_commands_end_witness :
  ∃ s, own_run own_empty [ARoot; ALaunch 0 true true; ALaunch 0 false false; ATerminate 0] = Done s ∧ ∀ k s', delivers s k s' → (k ≤ 12)%nat.
Proof.
  eexists. split; [vm_compute; reflexivity|]. intros k s' H.
  eapply (own_commands_end [ARoot; ALaunch 0 true true; ALaunch 0 false false; ATerminate 0]) in H; [|by repeat constructor|vm_compute; reflexivity|by vm_compute]. exact H.
Defined.

(** The number of commands sent has 32 bits, that of the commands processed 64: after 2^32 commands
    with a sequence number the two are never the same again. *)
Lemma seqnum_width o : ow_sent_seqnum o = 2 ^ 32 - 1 → ow_processed_seqnum o = 2 ^ 32 - 1 →
  ow_sent_seqnum (inc_processed (inc_seqnum o)) = 0 ∧ ow_processed_seqnum (inc_processed (inc_seqnum o)) = 2 ^ 32.
Proof. simpl. intros -> ->. done. Qed.
