(* ===== verification/Mechanism.v ===== *)
(** The security mechanism of a connection (src/auth): the properties that the peers send each
    other, and the NULL mechanism, whose handshake is one READY command in each direction.

    A command is the list of its bytes.  The options are those of [Options]; whether the socket
    wants the routing id of its peer ([recv_routing_id], which no option sets) is a member of
    the mechanism. *)
From stdpp Require Import sorting.
From S2P Require Import Prelude Wire Options.

Local Open Scope sl_scope.

(** ** Socket types *)

Definition SL_PAIR : Z := 0.
Definition SL_PUB : Z := 1.
Definition SL_SUB : Z := 2.
Definition SL_ROUTER : Z := 6.
Definition SL_XPUB : Z := 9.
Definition SL_XSUB : Z := 10.

Definition socket_type_pair : list Z := [80; 65; 73; 82].
Definition socket_type_pub : list Z := [80; 85; 66].
Definition socket_type_sub : list Z := [83; 85; 66].
Definition socket_type_router : list Z := [82; 79; 85; 84; 69; 82].
Definition socket_type_xpub : list Z := [88; 80; 85; 66].
Definition socket_type_xsub : list Z := [88; 83; 85; 66].

Definition socket_type_string (ty : Z) : outcome (list Z) :=
  if decide (ty = SL_PAIR) then Done socket_type_pair
  else if decide (ty = SL_PUB) then Done socket_type_pub
  else if decide (ty = SL_SUB) then Done socket_type_sub
  else if decide (ty = SL_ROUTER) then Done socket_type_router
  else if decide (ty = SL_XPUB) then Done socket_type_xpub
  else if decide (ty = SL_XSUB) then Done socket_type_xsub
  else Abort.

(** ** State *)

Record mechanism_t := Mechanism {
  me_options : options_t;
  me_recv_routing_id : bool;
  me_zmtp_properties : gmap (list Z) (list Z);
  me_routing_id : list Z;
  me_user_id : list Z;
}.

Definition set_peer_routing_id (id : list Z) (m : mechanism_t) : mechanism_t :=
  Mechanism (me_options m) (me_recv_routing_id m) (me_zmtp_properties m) id (me_user_id m).

(** [std::map::insert] leaves an entry that is there. *)
Definition insert_property (name value : list Z) (m : mechanism_t) : mechanism_t :=
  Mechanism (me_options m) (me_recv_routing_id m)
    (match me_zmtp_properties m !! name with Some _ => me_zmtp_properties m | None => <[name := value]> (me_zmtp_properties m) end)
    (me_routing_id m) (me_user_id m).

Definition user_id_property : list Z := [85; 115; 101; 114; 45; 73; 100].   (* User-Id *)

Definition set_user_id (id : list Z) (m : mechanism_t) : mechanism_t :=
  let m := insert_property user_id_property id m in
  Mechanism (me_options m) (me_recv_routing_id m) (me_zmtp_properties m) (me_routing_id m) id.

(** ** Sending properties *)

(** What [strlen] sees of a string. *)
Fixpoint c_str (s : list Z) : list Z :=
  match s with [] => [] | c :: s => if decide (c = 0) then [] else c :: c_str s end.

Definition property_len (name_len value_len : Z) : Z := 1 + name_len + 4 + value_len.

Definition add_property (capacity : Z) (name value : list Z) : outcome (list Z) :=
  let name_len := Z.of_nat (length name) in
  let value_len := Z.of_nat (length value) in
  assert! bool_decide (name_len ≤ 255);;
  assert! bool_decide (property_len name_len value_len ≤ capacity);;
  assert! bool_decide (value_len ≤ 2147483647);;
  Done (name_len :: name ++ put_uint32 value_len ++ value).

Definition ZMTP_PROPERTY_SOCKET_TYPE : list Z := [83; 111; 99; 107; 101; 116; 45; 84; 121; 112; 101].
Definition ZMTP_PROPERTY_IDENTITY : list Z := [73; 100; 101; 110; 116; 105; 116; 121].

(** The order of [std::map<std::string, std::string>]. *)
Fixpoint str_leb (s t : list Z) : bool :=
  match s, t with
  | [], _ => true
  | _ :: _, [] => false
  | a :: s, b :: t => bool_decide (a < b) || bool_decide (a = b) && str_leb s t
  end.

Definition entry_le (x y : list Z * list Z) : Prop := str_leb x.1 y.1 = true.
#[export] Instance entry_le_dec x y : Decision (entry_le x y).
Proof. unfold entry_le. apply _. Defined.

Definition metadata_list (m : gmap (list Z) (list Z)) : list (list Z * list Z) := merge_sort entry_le (map_to_list m).

(** The loop over the metadata; [written] is what is in the buffer already. *)
Fixpoint add_metadata (capacity : Z) (written : list Z) (l : list (list Z * list Z)) : outcome (list Z) :=
  match l with
  | [] => Done written
  | (name, value) :: l =>
      p ← add_property (capacity - Z.of_nat (length written)) (c_str name) (c_str value);
      add_metadata capacity (written ++ p) l
  end.

Definition add_basic_properties (capacity : Z) (o : options_t) : outcome (list Z) :=
  ty ← socket_type_string (o_type o);
  p ← add_property capacity ZMTP_PROPERTY_SOCKET_TYPE ty;
  written ← (if decide (o_type o = SL_ROUTER) then
               q ← add_property (capacity - Z.of_nat (length p)) ZMTP_PROPERTY_IDENTITY (o_routing_id o); Done (p ++ q)
             else Done p);
  add_metadata capacity written (metadata_list (o_app_metadata o)).

Fixpoint metadata_len (l : list (list Z * list Z)) : outcome Z :=
  match l with
  | [] => Done 0
  | (name, value) :: l =>
      assert! bool_decide (Z.of_nat (length (c_str name)) ≤ 255);;
      n ← metadata_len l;
      Done (property_len (Z.of_nat (length (c_str name))) (Z.of_nat (length (c_str value))) + n)
  end.

Definition basic_properties_len (o : options_t) : outcome Z :=
  ty ← socket_type_string (o_type o);
  meta_len ← metadata_len (metadata_list (o_app_metadata o));
  Done (property_len (Z.of_nat (length ZMTP_PROPERTY_SOCKET_TYPE)) (Z.of_nat (length ty)) + meta_len
        + (if decide (o_type o = SL_ROUTER) then
             property_len (Z.of_nat (length ZMTP_PROPERTY_IDENTITY)) (Z.of_nat (length (o_routing_id o))) else 0)).

(** The message has the size computed first; what is written must fill it ([Undef] stands for
    bytes that would be sent uninitialized). *)
Definition make_command_with_basic_properties (o : options_t) (prefix : list Z) : outcome (list Z) :=
  n ← basic_properties_len o;
  let command_size := Z.of_nat (length prefix) + n in
  props ← add_basic_properties (command_size - Z.of_nat (length prefix)) o;
  if decide (Z.of_nat (length (prefix ++ props)) = command_size) then Done (prefix ++ props) else Undef.

(** ** Receiving properties *)

Definition strequals (actual expected : list Z) : bool := bool_decide (actual = expected).

Definition check_socket_type (ty : Z) (peer : list Z) : bool :=
  if decide (ty = SL_ROUTER) then true
  else if decide (ty = SL_PUB) then strequals peer socket_type_sub || strequals peer socket_type_xsub
  else if decide (ty = SL_SUB) then strequals peer socket_type_pub || strequals peer socket_type_xpub
  else if decide (ty = SL_XPUB) then strequals peer socket_type_sub || strequals peer socket_type_xsub
  else if decide (ty = SL_XSUB) then strequals peer socket_type_pub || strequals peer socket_type_xpub
  else false.

(** One property of the peer; the default [property] accepts all of them. *)
Definition take_property (name value : list Z) (m : mechanism_t) : rc_t * mechanism_t :=
  if bool_decide (name = ZMTP_PROPERTY_IDENTITY) && me_recv_routing_id m then
    (RcOk, insert_property name value (set_peer_routing_id value m))
  else if bool_decide (name = ZMTP_PROPERTY_SOCKET_TYPE) then
    if check_socket_type (o_type (me_options m)) value then (RcOk, insert_property name value m) else (RcErr EINVAL, m)
  else (RcOk, insert_property name value m).

Definition parse_end (bytes_left : nat) : rc_t := if decide (bytes_left = 0%nat) then RcOk else RcErr EPROTO.

Fixpoint parse_loop (fuel : nat) (data : list Z) (m : mechanism_t) : outcome (rc_t * mechanism_t) :=
  match fuel with
  | O => Undef
  | S fuel =>
      match data with
      | [] => Done (parse_end 0, m)
      | name_length :: rest =>
          if decide (rest = []) then Done (parse_end 1, m)
          else
          let n := Z.to_nat name_length in
          if decide (length rest < n)%nat then Done (parse_end (length rest), m)
          else
            let name := take n rest in
            let rest := drop n rest in
            if decide (length rest < 4)%nat then Done (parse_end (length rest), m)
            else
              value_length ← get_uint32 rest;
              let rest := drop 4 rest in
              let n := Z.to_nat value_length in
              if decide (length rest < n)%nat then Done (parse_end (length rest), m)
              else
                let '(rc, m) := take_property name (take n rest) m in
                match rc with RcOk => parse_loop fuel (drop n rest) m | RcErr e => Done (RcErr e, m) end
      end
  end.

(** Every turn takes five bytes at least. *)
Definition mech_parse_metadata (data : list Z) (m : mechanism_t) : outcome (rc_t * mechanism_t) := parse_loop (S (length data)) data m.

(** [mechanism_base_t::check_basic_command_structure] *)
Definition check_basic_command_structure (cmd : list Z) : outcome rc_t :=
  if decide (length cmd ≤ 1)%nat then Done (RcErr EPROTO)
  else n ← geti cmd 0; Done (if decide (Z.of_nat (length cmd) ≤ n) then RcErr EPROTO else RcOk).

(** ** The NULL mechanism *)

Record null_mechanism_t := NullMechanism {
  nm_base : mechanism_t;
  nm_ready_command_sent : bool;
  nm_error_command_sent : bool;
  nm_ready_command_received : bool;
  nm_error_command_received : bool;
}.

Definition null_new (o : options_t) (recv_routing_id : bool) : null_mechanism_t :=
  NullMechanism (Mechanism o recv_routing_id ∅ [] []) false false false false.

Definition ready_command_name : list Z := [5; 82; 69; 65; 68; 89].
Definition error_command_name : list Z := [5; 69; 82; 82; 79; 82].

Inductive mech_status := MHandshaking | MReady | MError.

#[export] Instance mech_status_eq_dec : EqDecision mech_status.
Proof. solve_decision. Defined.

Definition null_status (m : null_mechanism_t) : mech_status :=
  if nm_ready_command_sent m && nm_ready_command_received m then MReady
  else if (nm_ready_command_sent m || nm_error_command_sent m) && (nm_ready_command_received m || nm_error_command_received m)
  then MError else MHandshaking.

(** The command to send, or EAGAIN. *)
Definition null_next_handshake_command (m : null_mechanism_t) : outcome (option (list Z) * null_mechanism_t) :=
  if nm_ready_command_sent m || nm_error_command_sent m then Done (None, m)
  else
    cmd ← make_command_with_basic_properties (me_options (nm_base m)) ready_command_name;
    Done (Some cmd, NullMechanism (nm_base m) true (nm_error_command_sent m) (nm_ready_command_received m) (nm_error_command_received m)).

Definition process_ready_command (cmd : list Z) (m : null_mechanism_t) : outcome (rc_t * null_mechanism_t) :=
  '(rc, base) ← mech_parse_metadata (drop (length ready_command_name) cmd) (nm_base m);
  Done (rc, NullMechanism base (nm_ready_command_sent m) (nm_error_command_sent m) true (nm_error_command_received m)).

Definition process_error_command (cmd : list Z) (m : null_mechanism_t) : outcome (rc_t * null_mechanism_t) :=
  let fixed_prefix_size := (length error_command_name + 1)%nat in
  if decide (length cmd < fixed_prefix_size)%nat then Done (RcErr EPROTO, m)
  else
    error_reason_len ← geti cmd (Z.of_nat (length error_command_name));
    if decide (Z.of_nat (length cmd - fixed_prefix_size) < error_reason_len) then Done (RcErr EPROTO, m)
    else Done (RcOk, NullMechanism (nm_base m) (nm_ready_command_sent m) (nm_error_command_sent m) (nm_ready_command_received m) true).

Definition starts_with (cmd name : list Z) : bool :=
  bool_decide (length name ≤ length cmd)%nat && bool_decide (take (length name) cmd = name).

Definition null_process_handshake_command (cmd : list Z) (m : null_mechanism_t) : outcome (rc_t * null_mechanism_t) :=
  if nm_ready_command_received m || nm_error_command_received m then Done (RcErr EPROTO, m)
  else if starts_with cmd ready_command_name then process_ready_command cmd m
  else if starts_with cmd error_command_name then process_error_command cmd m
  else Done (RcErr EPROTO, m).

(** ** What is sent *)

Definition property_bytes (p : list Z * list Z) : list Z :=
  Z.of_nat (length p.1) :: p.1 ++ put_uint32 (Z.of_nat (length p.2)) ++ p.2.

(** A name fits its length byte and a value what [add_property] accepts. *)
Definition property_ok (p : list Z * list Z) : Prop := Z.of_nat (length p.1) ≤ 255 ∧ Z.of_nat (length p.2) ≤ 2147483647.

Definition c_entry (p : list Z * list Z) : list Z * list Z := (c_str p.1, c_str p.2).

(** The properties in the order in which they are sent. *)
Definition wire_properties (o : options_t) (ty : list Z) : list (list Z * list Z) :=
  (ZMTP_PROPERTY_SOCKET_TYPE, ty) :: (if decide (o_type o = SL_ROUTER) then [(ZMTP_PROPERTY_IDENTITY, o_routing_id o)] else [])
  ++ (c_entry <$> metadata_list (o_app_metadata o)).

(** Options of a socket that can shake hands: one of the six types, and metadata that fits. *)
Record sendable (o : options_t) (ty : list Z) : Prop := {
  sd_type : socket_type_string (o_type o) = Done ty;
  sd_routing_id : Z.of_nat (length (o_routing_id o)) ≤ 255;
  sd_metadata : map_Forall (λ k v, property_ok (c_entry (k, v))) (o_app_metadata o);
}.

Lemma c_str_length s : (length (c_str s) ≤ length s)%nat.
Proof. induction s as [|c s IH]; simpl; [lia|]. case_decide; simpl; lia. Qed.

Lemma c_str_id s : 0 ∉ s → c_str s = s.
Proof.
  induction s as [|c s IH]; [done|]. intros [Hc Hs]%not_elem_of_cons. simpl. rewrite decide_False by congruence. by rewrite IH.
Qed.

Lemma socket_type_short ty s : socket_type_string ty = Done s → (length s ≤ 6)%nat ∧ s ≠ [].
Proof. unfold socket_type_string. repeat case_decide; intros [= <-]; simpl; split; (lia || done). Qed.

Lemma property_bytes_length p : Z.of_nat (length (property_bytes p)) = property_len (Z.of_nat (length p.1)) (Z.of_nat (length p.2)).
Proof. unfold property_bytes, property_len. simpl. rewrite !length_app. simpl. lia. Qed.

Lemma add_property_spec capacity p :
  property_ok p → Z.of_nat (length (property_bytes p)) ≤ capacity → add_property capacity p.1 p.2 = Done (property_bytes p).
Proof. rewrite property_bytes_length. intros [Hn Hv] Hc. unfold add_property. by rewrite !slk_assert_bind by done. Qed.

Definition props_bytes (l : list (list Z * list Z)) : list Z := concat (property_bytes <$> l).

Lemma props_bytes_cons p l : props_bytes (p :: l) = property_bytes p ++ props_bytes l.
Proof. done. Qed.

Lemma props_bytes_app l1 l2 : props_bytes (l1 ++ l2) = props_bytes l1 ++ props_bytes l2.
Proof. unfold props_bytes. by rewrite fmap_app, concat_app. Qed.

Lemma metadata_list_ok o ty : sendable o ty → Forall (λ p, property_ok (c_entry p)) (metadata_list (o_app_metadata o)).
Proof.
  intros [_ _ Hm]. unfold metadata_list. rewrite merge_sort_Permutation. apply Forall_forall. intros [k v] Hin%elem_of_map_to_list. by apply (Hm k v).
Qed.

Lemma add_metadata_spec capacity written l :
  Forall (λ p, property_ok (c_entry p)) l → Z.of_nat (length (written ++ props_bytes (c_entry <$> l))) ≤ capacity →
  add_metadata capacity written l = Done (written ++ props_bytes (c_entry <$> l)).
Proof.
  revert written. induction l as [|[k v] l IH]; intros written Hl Hc; simpl; [by rewrite app_nil_r|].
  apply Forall_cons in Hl as [Hk Hl]. rewrite fmap_cons, props_bytes_cons in *. rewrite !length_app in Hc.
  change (c_str k) with ((c_entry (k, v)).1). change (c_str v) with ((c_entry (k, v)).2). rewrite add_property_spec, bind_Done by (done || lia).
  rewrite IH; [by rewrite <- app_assoc|done|]. rewrite !length_app. lia.
Qed.

Lemma metadata_len_spec l :
  Forall (λ p, property_ok (c_entry p)) l → metadata_len l = Done (Z.of_nat (length (props_bytes (c_entry <$> l)))).
Proof.
  induction l as [|[k v] l IH]; intros Hl; [done|]. apply Forall_cons in Hl as [[Hk Hv] Hl]. cbn [metadata_len]. rewrite slk_assert_bind by done.
  rewrite fmap_cons, IH, bind_Done by done. rewrite props_bytes_cons, length_app, Nat2Z.inj_add, property_bytes_length. done.
Qed.

Lemma make_command_spec o ty prefix : sendable o ty → make_command_with_basic_properties o prefix = Done (prefix ++ props_bytes (wire_properties o ty)).
Proof.
  intros Hs. pose proof Hs as [Ht Hr _]. pose proof (metadata_list_ok o ty Hs) as Hm. destruct (socket_type_short _ _ Ht) as [Hty _].
  unfold make_command_with_basic_properties, basic_properties_len. rewrite Ht, !bind_Done, metadata_len_spec, !bind_Done by done.
  set (n := _ + _ + _). assert (Hn : n = Z.of_nat (length (props_bytes (wire_properties o ty)))).
  { unfold n, wire_properties. rewrite props_bytes_cons, length_app, Nat2Z.inj_add, property_bytes_length, props_bytes_app, length_app, Nat2Z.inj_add.
    case_decide; [rewrite props_bytes_cons, length_app, Nat2Z.inj_add, property_bytes_length|]; cbn [fst snd props_bytes fmap list_fmap concat length]; lia. }
  assert (Hb : add_basic_properties n o = Done (props_bytes (wire_properties o ty))).
  { unfold add_basic_properties. rewrite Ht, bind_Done. unfold wire_properties in *. rewrite props_bytes_cons, props_bytes_app in *. rewrite !length_app in Hn.
    change ty with ((ZMTP_PROPERTY_SOCKET_TYPE, ty).2) at 1. change ZMTP_PROPERTY_SOCKET_TYPE with ((ZMTP_PROPERTY_SOCKET_TYPE, ty).1) at 1.
    rewrite add_property_spec, bind_Done; [|split; simpl; lia|lia]. case_decide.
    - rewrite props_bytes_cons, length_app in *. change (props_bytes []) with (@nil Z) in *. set (q := (ZMTP_PROPERTY_IDENTITY, o_routing_id o)) in *.
      change (o_routing_id o) with (q.2). change ZMTP_PROPERTY_IDENTITY with (q.1).
      rewrite add_property_spec, !bind_Done; [|split; simpl; lia|lia]. rewrite add_metadata_spec; [by rewrite app_nil_r, <- app_assoc|done|]. rewrite !length_app. lia.
    - change (props_bytes []) with (@nil Z) in *. rewrite bind_Done, add_metadata_spec; [done|done|]. rewrite length_app. lia. }
  replace (Z.of_nat (length prefix) + n - Z.of_nat (length prefix)) with n by lia. rewrite Hb, bind_Done, decide_True; [done|].
  rewrite length_app, Nat2Z.inj_add, Hn. done.
Qed.

(** ** What is received *)

Fixpoint take_properties (l : list (list Z * list Z)) (m : mechanism_t) : rc_t * mechanism_t :=
  match l with
  | [] => (RcOk, m)
  | (name, value) :: l =>
      let '(rc, m) := take_property name value m in
      match rc with RcOk => take_properties l m | RcErr e => (RcErr e, m) end
  end.

Lemma parse_property fuel p rest m :
  property_ok p →
  parse_loop (S fuel) (property_bytes p ++ rest) m =
    let '(rc, m) := take_property p.1 p.2 m in match rc with RcOk => parse_loop fuel rest m | RcErr e => Done (RcErr e, m) end.
Proof.
  intros [Hn Hv]. unfold property_bytes. destruct p as [name value]. cbn [fst snd app parse_loop] in *. rewrite <- !app_assoc.
  rewrite decide_False by (destruct name; done). cbv zeta. rewrite Nat2Z.id.
  rewrite decide_False by (rewrite !length_app; lia). rewrite take_app_length, drop_app_length.
  rewrite decide_False by (rewrite !length_app; simpl; lia). rewrite get_put_uint32, bind_Done by lia. cbv zeta.
  change (drop 4 (put_uint32 (Z.of_nat (length value)) ++ value ++ rest)) with (value ++ rest). rewrite Nat2Z.id.
  rewrite decide_False by (rewrite length_app; lia). by rewrite take_app_length, drop_app_length.
Qed.

Lemma parse_properties fuel l m :
  Forall property_ok l → (length l < fuel)%nat → parse_loop fuel (props_bytes l) m = Done (take_properties l m).
Proof.
  revert fuel m. induction l as [|p l IH]; intros fuel m Hl Hf; (destruct fuel as [|fuel]; [simpl in Hf; lia|]); [done|].
  apply Forall_cons in Hl as [Hp Hl]. rewrite props_bytes_cons, parse_property by done. destruct p as [name value]. simpl.
  destruct (take_property name value m) as [[|e] m']; [|done]. apply IH; [done|]. simpl in Hf. lia.
Qed.

(** The parser returns whatever the bytes are, and reads no other ones. *)
Lemma parse_total fuel data m : (length data < fuel)%nat → ∃ rc m', parse_loop fuel data m = Done (rc, m').
Proof.
  revert data m. induction fuel as [|fuel IH]; intros data m Hf; [lia|]. cbn [parse_loop]. destruct data as [|n rest]; [by eauto|]. cbv zeta.
  case_decide as H0; [by eauto|]. case_decide as H1; [by eauto|]. case_decide as H2; [by eauto|].
  assert (length (drop (Z.to_nat n) rest) ≤ length rest)%nat by (rewrite length_drop; lia).
  destruct (drop (Z.to_nat n) rest) as [|b0 [|b1 [|b2 [|b3 tl]]]] eqn:E4; try (simpl in H2; lia). unfold get_uint32. simpl.
  case_decide; [by eauto|]. destruct (take_property _ _ m) as [[|e] m']; [|by eauto]. apply IH. rewrite !length_drop. cbn [length] in *. lia.
Qed.

Lemma insert_property_map name value m :
  me_zmtp_properties (insert_property name value m) = me_zmtp_properties m ∪ {[name := value]}.
Proof.
  apply map_eq. intros k. unfold insert_property. simpl. rewrite lookup_union. destruct (decide (k = name)) as [->|Hk].
  - rewrite lookup_singleton_eq. destruct (me_zmtp_properties m !! name) eqn:E; [by rewrite E|by rewrite lookup_insert_eq].
  - rewrite lookup_singleton_ne by done. destruct (me_zmtp_properties m !! name); rewrite ?lookup_insert_ne by done; by destruct (me_zmtp_properties m !! k).
Qed.

(** Properties that are neither the identity nor the socket type are only kept. *)
Definition plain_property (p : list Z * list Z) : Prop := p.1 ≠ ZMTP_PROPERTY_IDENTITY ∧ p.1 ≠ ZMTP_PROPERTY_SOCKET_TYPE.

Lemma take_plain l m :
  Forall plain_property l →
  take_properties l m = (RcOk, Mechanism (me_options m) (me_recv_routing_id m) (me_zmtp_properties m ∪ list_to_map l) (me_routing_id m) (me_user_id m)).
Proof.
  revert m. induction l as [|[k v] l IH]; intros m Hl; simpl.
  - destruct m. by rewrite map_union_empty.
  - apply Forall_cons in Hl as [[H1 H2] Hl]. simpl in H1, H2. unfold take_property. rewrite (bool_decide_eq_false_2 (k = ZMTP_PROPERTY_IDENTITY)) by done.
    rewrite (bool_decide_eq_false_2 (k = ZMTP_PROPERTY_SOCKET_TYPE)) by done. simpl. rewrite IH, insert_property_map by done.
    by rewrite <- map_union_assoc, <- insert_union_singleton_l.
Qed.

Lemma take_options l m : me_options (take_properties l m).2 = me_options m.
Proof.
  revert m. induction l as [|[k v] l IH]; intros m; [done|]. simpl. unfold take_property.
  destruct (_ && _); [simpl; by rewrite IH|]. case_bool_decide; [destruct (check_socket_type _ v); [|done]|]; simpl; by rewrite IH.
Qed.

(** The keys of the metadata start with X-, so they are no properties of the protocol. *)
Lemma metadata_plain m : metadata_typed m → Forall plain_property (c_entry <$> metadata_list m).
Proof.
  intros Hm. apply Forall_fmap. unfold metadata_list. rewrite merge_sort_Permutation. apply Forall_forall.
  intros [k v] Hin%elem_of_map_to_list. destruct (Hm k v Hin) as (Hx & _). destruct k as [|a [|b k]]; try done. injection Hx as -> ->. by split.
Qed.

(** What a mechanism makes of the properties of a socket with options [o]. *)
Lemma take_wire o ty m :
  metadata_typed (o_app_metadata o) → me_zmtp_properties m = ∅ → me_routing_id m = [] →
  if check_socket_type (o_type (me_options m)) ty then
    take_properties (wire_properties o ty) m =
      (RcOk, Mechanism (me_options m) (me_recv_routing_id m) (list_to_map (wire_properties o ty))
               (if decide (o_type o = SL_ROUTER) then if me_recv_routing_id m then o_routing_id o else [] else []) (me_user_id m))
  else (take_properties (wire_properties o ty) m).1 = RcErr EINVAL.
Proof.
  intros Hm E0 Er. pose proof (metadata_plain _ Hm) as Hp. unfold wire_properties. simpl. unfold take_property at 1 2. simpl.
  destruct (check_socket_type _ ty); [|done]. set (st := ZMTP_PROPERTY_SOCKET_TYPE).
  assert (E1 : me_zmtp_properties (insert_property st ty m) = {[st := ty]}) by (rewrite insert_property_map, E0; apply map_empty_union).
  case_decide as Hr; simpl.
  - unfold take_property at 1. rewrite bool_decide_eq_true_2 by done. simpl. destruct (me_recv_routing_id m) eqn:Eq; simpl;
      rewrite take_plain, insert_property_map by done; simpl; rewrite ?E1, ?Eq;
      rewrite E0, ?Er, lookup_empty, insert_empty, <- map_union_assoc, <- !insert_union_singleton_l; done.
  - rewrite take_plain by done. rewrite E1. simpl. rewrite Er. by rewrite <- insert_union_singleton_l.
Qed.

Lemma wire_ok o ty : sendable o ty → Forall property_ok (wire_properties o ty).
Proof.
  intros Hs. pose proof Hs as [Ht Hr _]. destruct (socket_type_short _ _ Ht). unfold wire_properties. constructor; [split; simpl; lia|].
  apply Forall_app. split; [|by apply Forall_fmap, (metadata_list_ok o ty)]. case_decide; [|done]. apply Forall_singleton. split; simpl; lia.
Qed.

Lemma props_bytes_length l : (length l ≤ length (props_bytes l))%nat.
Proof. induction l as [|p l IH]; [done|]. rewrite props_bytes_cons, length_app. simpl. lia. Qed.

(** ** The claims *)

(** What the peer gets to know about a socket: its properties, and its routing id if it asks for it. *)
Definition learned (o : options_t) (ty : list Z) (m : null_mechanism_t) : Prop :=
  me_zmtp_properties (nm_base m) = list_to_map (wire_properties o ty)
  ∧ me_routing_id (nm_base m) = (if decide (o_type o = SL_ROUTER) then if me_recv_routing_id (nm_base m) then o_routing_id o else [] else []).

Lemma ready_received o ty m :
  sendable o ty → metadata_typed (o_app_metadata o) → me_zmtp_properties (nm_base m) = ∅ → me_routing_id (nm_base m) = [] →
  nm_ready_command_received m || nm_error_command_received m = false →
  ∃ rc m', null_process_handshake_command (ready_command_name ++ props_bytes (wire_properties o ty)) m = Done (rc, m')
    ∧ nm_ready_command_sent m' = nm_ready_command_sent m ∧ me_options (nm_base m') = me_options (nm_base m)
    ∧ if check_socket_type (o_type (me_options (nm_base m))) ty then rc = RcOk ∧ nm_ready_command_received m' = true ∧ learned o ty m' else rc = RcErr EINVAL.
Proof.
  intros Hs Hm E0 Er Hrec. unfold null_process_handshake_command. rewrite Hrec.
  assert (starts_with (ready_command_name ++ props_bytes (wire_properties o ty)) ready_command_name = true) as ->.
  { unfold starts_with. rewrite length_app, take_app_length. by rewrite !bool_decide_eq_true_2 by (done || lia). }
  unfold process_ready_command. rewrite drop_app_length. unfold mech_parse_metadata.
  rewrite parse_properties; [|by apply wire_ok|pose proof (props_bytes_length (wire_properties o ty)); lia]. rewrite bind_Done.
  pose proof (take_wire o ty (nm_base m) Hm E0 Er) as Ht. destruct (check_socket_type _ ty).
  - rewrite Ht. eexists _, _. split; [done|]. done.
  - pose proof (take_options (wire_properties o ty) (nm_base m)) as Ho. destruct (take_properties (wire_properties o ty) (nm_base m)) as [rc b]. simpl in Ht, Ho.
    eexists _, _. split; [done|]. done.
Qed.

(** The metadata of a socket arrives as it was set, if it has no NUL. *)
Lemma learned_metadata o ty m :
  metadata_typed (o_app_metadata o) → map_Forall (λ k v, 0 ∉ k ∧ 0 ∉ v) (o_app_metadata o) → learned o ty m →
  ∀ k v, o_app_metadata o !! k = Some v → me_zmtp_properties (nm_base m) !! k = Some v.
Proof.
  intros Hm H0 [-> _] k v Hk. set (l := metadata_list (o_app_metadata o)).
  assert (Hl : l ≡ₚ map_to_list (o_app_metadata o)) by apply merge_sort_Permutation.
  assert (Hid : c_entry <$> l = l).
  { rewrite <- (list_fmap_id l) at 2. apply list_fmap_ext. intros i [k' v'] Hi. apply list_elem_of_lookup_2 in Hi. rewrite Hl in Hi.
    apply elem_of_map_to_list in Hi. destruct (H0 k' v' Hi). unfold c_entry, id. simpl. by rewrite !c_str_id. }
  assert (Hin : list_to_map (M := gmap (list Z) (list Z)) l !! k = Some v).
  { apply elem_of_list_to_map_1; [rewrite Hl; apply NoDup_fst_map_to_list|]. rewrite Hl. by apply elem_of_map_to_list. }
  destruct (Hm k v Hk) as (Hx & _). destruct k as [|a [|b k]]; try done. injection Hx as -> ->.
  unfold wire_properties. fold l. rewrite Hid. simpl. rewrite lookup_insert_ne by done. case_decide; simpl; [rewrite lookup_insert_ne by done|]; done.
Qed.

(** Both sides send their command and process that of the other. *)
Definition shake_hands (a b : null_mechanism_t) : outcome ((rc_t * null_mechanism_t) * (rc_t * null_mechanism_t)) :=
  '(ca, a) ← null_next_handshake_command a;
  '(cb, b) ← null_next_handshake_command b;
  match ca, cb with
  | Some ca, Some cb =>
      ra ← null_process_handshake_command cb a;
      rb ← null_process_handshake_command ca b;
      Done (ra, rb)
  | _, _ => Abort
  end.

(** One side of the handshake: it is ready if it accepts the type of the other socket, and then it knows the properties of that one. *)
Definition side (o o' : options_t) (ty' : list Z) (r : rc_t * null_mechanism_t) : Prop :=
  if check_socket_type (o_type o) ty' then
    r.1 = RcOk ∧ null_status r.2 = MReady ∧ learned o' ty' r.2
    ∧ (map_Forall (λ k v, 0 ∉ k ∧ 0 ∉ v) (o_app_metadata o') → ∀ k v, o_app_metadata o' !! k = Some v → me_zmtp_properties (nm_base r.2) !! k = Some v)
  else r.1 = RcErr EINVAL.

Lemma null_next_spec o ty r :
  sendable o ty → null_next_handshake_command (null_new o r) =
    Done (Some (ready_command_name ++ props_bytes (wire_properties o ty)), NullMechanism (Mechanism o r ∅ [] []) true false false false).
Proof. intros Hs. unfold null_next_handshake_command. simpl. by rewrite (make_command_spec o ty) by done. Qed.

Lemma side_spec o r o' ty' :
  sendable o' ty' → metadata_typed (o_app_metadata o') →
  ∃ res, null_process_handshake_command (ready_command_name ++ props_bytes (wire_properties o' ty')) (NullMechanism (Mechanism o r ∅ [] []) true false false false) = Done res
    ∧ side o o' ty' res.
Proof.
  intros Hs Hm. destruct (ready_received o' ty' (NullMechanism (Mechanism o r ∅ [] []) true false false false)) as (rc & m & E & Hsent & Ho & H); [done..|].
  rewrite E. eexists. split; [done|]. unfold side. simpl in *. destruct (check_socket_type (o_type o) ty'); [|done]. destruct H as (-> & Hrec & Hl).
  split_and!; [done| |done|]. 
  - unfold null_status. by rewrite Hsent, Hrec.
  - intros H0. by apply (learned_metadata o' ty').
Qed.

(** Two NULL mechanisms exchange their READY commands: each accepts exactly the socket types that its own type is for,
    answers EINVAL otherwise, and when it accepts it is ready and knows the properties of the other side as that
    one has them: the socket type, the metadata the application set, and for a
    ROUTER the routing id, if it wants it. *)
Lemma null_handshake_roundtrip o1 r1 ty1 o2 r2 ty2 :
  sendable o1 ty1 → sendable o2 ty2 → metadata_typed (o_app_metadata o1) → metadata_typed (o_app_metadata o2) →
  ∃ res1 res2, shake_hands (null_new o1 r1) (null_new o2 r2) = Done (res1, res2) ∧ side o1 o2 ty2 res1 ∧ side o2 o1 ty1 res2.
Proof.
  intros H1 H2 Hm1 Hm2. unfold shake_hands. rewrite (null_next_spec o1 ty1), bind_Done, (null_next_spec o2 ty2), bind_Done by done.
  destruct (side_spec o1 r1 o2 ty2 H2 Hm2) as (res1 & -> & Hs1). destruct (side_spec o2 r2 o1 ty1 H1 Hm1) as (res2 & -> & Hs2). rewrite !bind_Done. by eauto.
Qed.

(** ** Input from the network *)

(** Whatever bytes the peer sends as its handshake command, the mechanism processes them without reading
    outside of the command and without a failing assertion; it accepts at most one command, and
    nothing but a READY or an ERROR. *)
Lemma handshake_input_safe cmd m :
  ∃ rc m', null_process_handshake_command cmd m = Done (rc, m')
    ∧ (rc = RcOk → nm_ready_command_received m || nm_error_command_received m = false
         ∧ nm_ready_command_received m' || nm_error_command_received m' = true
         ∧ (starts_with cmd ready_command_name = true ∨ starts_with cmd error_command_name = true)).
Proof.
  unfold null_process_handshake_command. destruct (_ || _) eqn:Er; [by eexists _, _|]. destruct (starts_with cmd ready_command_name) eqn:E1.
  - unfold process_ready_command. destruct (parse_total (S (length (drop (length ready_command_name) cmd))) (drop (length ready_command_name) cmd) (nm_base m)) as (rc & b & E); [lia|].
    unfold mech_parse_metadata. rewrite E, bind_Done. eexists _, _. split; [done|]. intros _. split_and!; [done|done|by left].
  - destruct (starts_with cmd error_command_name) eqn:E2; [|by eexists _, _]. unfold process_error_command.
    case_decide as Hl; [by eexists _, _|]. destruct (lookup_lt_is_Some_2 cmd (length error_command_name)) as [b Hb]; [simpl in *; lia|].
    unfold geti. rewrite decide_True, Nat2Z.id, Hb, bind_Done by lia. case_decide; [by eexists _, _|].
    eexists _, _. split; [done|]. simpl. intros _. rewrite orb_true_r. split_and!; [done|done|by right].
Qed.

Lemma parse_properties_rest l rest m m' fuel :
  Forall property_ok l → take_properties l m = (RcOk, m') → parse_loop (length l + fuel) (props_bytes l ++ rest) m = parse_loop fuel rest m'.
Proof.
  revert m. induction l as [|p l IH]; intros m Hl Ht; simpl in Ht; [by injection Ht as ->|]. apply Forall_cons in Hl as [Hp Hl].
  rewrite props_bytes_cons, <- app_assoc. cbn [length Nat.add]. rewrite parse_property by done. destruct p as [k v]. simpl in *.
  destruct (take_property k v m) as [[|e] m1]; [by apply IH|done].
Qed.

(** A property that ends with its name, or with the length of its value, is not refused: the loop ends, and no byte is left. *)
Lemma truncated_property_accepted l name m m' :
  Forall property_ok l → take_properties l m = (RcOk, m') → name ≠ [] → Z.of_nat (length name) ≤ 255 →
  mech_parse_metadata (props_bytes l ++ Z.of_nat (length name) :: name) m = Done (RcOk, m')
  ∧ ∀ n, 0 < n < 2 ^ 32 → mech_parse_metadata (props_bytes l ++ Z.of_nat (length name) :: name ++ put_uint32 n) m = Done (RcOk, m').
Proof.
  intros Hl Ht Hn Hlen. pose proof (props_bytes_length l).
  assert (Hg : ∀ rest, rest ≠ [] → parse_loop 1 rest m' = Done (RcOk, m') → (∀ f, parse_loop (S f) rest m' = parse_loop 1 rest m') →
    mech_parse_metadata (props_bytes l ++ rest) m = Done (RcOk, m')).
  { intros rest Hr E Hf. unfold mech_parse_metadata. replace (S (length (props_bytes l ++ rest))) with (length l + S (length (props_bytes l ++ rest) - length l))%nat.
    - by rewrite (parse_properties_rest l rest m m'), Hf.
    - rewrite length_app. lia. }
  split.
  - assert (Hstep : ∀ f, parse_loop (S f) (Z.of_nat (length name) :: name) m' = Done (RcOk, m')).
    { intros f. cbn [parse_loop]. rewrite decide_False by done. cbv zeta. by rewrite Nat2Z.id, decide_False, drop_all, decide_True by (simpl; lia). }
    apply Hg; [done|apply Hstep|]. intros f. by rewrite !Hstep.
  - intros n Hnb. assert (Hstep : ∀ f, parse_loop (S f) (Z.of_nat (length name) :: name ++ put_uint32 n) m' = Done (RcOk, m')).
    { intros f. cbn [parse_loop]. rewrite decide_False by (by destruct name). cbv zeta. rewrite Nat2Z.id, decide_False by (rewrite length_app; lia).
      rewrite drop_app_length, decide_False by (simpl; lia). rewrite <- (app_nil_r (put_uint32 n)), get_put_uint32, bind_Done by lia. cbv zeta.
      rewrite decide_True by (simpl; lia). done. }
    apply Hg; [done|apply Hstep|]. intros f. by rewrite !Hstep.
Qed.

(** A socket of any other type than the five that [check_socket_type] lists refuses every peer that tells its type:
    two PAIR sockets never get through the handshake. *)
Lemma pair_never_ready o1 r1 o2 r2 ty2 :
  o_type o1 = SL_PAIR → o_type o2 = SL_PAIR → sendable o1 socket_type_pair → sendable o2 ty2 → metadata_typed (o_app_metadata o1) → metadata_typed (o_app_metadata o2) →
  ∃ m1 m2, shake_hands (null_new o1 r1) (null_new o2 r2) = Done ((RcErr EINVAL, m1), (RcErr EINVAL, m2)).
Proof.
  intros T1 T2 H1 H2 Hm1 Hm2. unfold shake_hands. rewrite (null_next_spec o1 socket_type_pair), bind_Done, (null_next_spec o2 ty2), bind_Done by done.
  destruct (side_spec o1 r1 o2 ty2 H2 Hm2) as ([rc1 m1] & -> & Hs1). destruct (side_spec o2 r2 o1 socket_type_pair H1 Hm1) as ([rc2 m2] & -> & Hs2). rewrite !bind_Done.
  unfold side in *. rewrite T1 in Hs1. rewrite T2 in Hs2. simpl in *. subst. by eauto.
Qed.

(** ** Witnesses *)

Definition example_router : options_t :=
  Options int_default 0 [97; 98] SL_ROUTER (-1) false 0 [] false {[ [88; 45; 107] := [118] ]} [] [] [].

Lemma example_router_sendable : sendable example_router socket_type_router ∧ metadata_typed (o_app_metadata example_router).
Proof.
  split; [split; [done|simpl; lia|]|]; simpl; apply map_Forall_singleton.
  - split; simpl; lia.
  - split_and!; [done|simpl; lia| |done]. rewrite !elem_of_cons, elem_of_nil. intros [?|[?|[?|?]]]; done.
Qed.

Lemma null_handshake_roundtrip_witness :
  ∃ res1 res2, shake_hands (null_new example_router true) (null_new example_router true) = Done (res1, res2)
    ∧ side example_router example_router socket_type_router res1 ∧ side example_router example_router socket_type_router res2.
Proof. apply (null_handshake_roundtrip example_router true _ example_router true); apply example_router_sendable. Defined.

Example handshake_learns_routing_id :
  (λ r, (r.1.1, me_routing_id (nm_base r.1.2))) <$> shake_hands (null_new example_router true) (null_new example_router true) = Done (RcOk, [97; 98]).
Proof. vm_compute. reflexivity. Qed.
