(* ===== verification/Engine.v ===== *)
(** The engine of a connection (src/protocol/stream_engine_base.cpp and zmtp_engine.cpp): the
    greeting, the handshake, and the two streams of messages between the session and the
    transport.

    The transport answers asynchronous reads and writes ([eng_action]); the session is what the
    engine sees of it: a pipe that takes [ss_room] more messages and has [ss_pending] messages
    to send, and that is not written to after it was full until it is activated ([ss_out_active]).  Output is the list of bytes from [_outpos] on, input the one from [_inpos] on, and the
    bytes after the greeting that arrived with it are in the buffer of the handshake
    ([InHandshake]), those of later reads in the decoder's.  What the members of the message
    interface need not know (metadata, group) is left out of a [wmsg]. *)
From S2P Require Import Prelude Msg Wire Encoder Decoder Options Mechanism.

Local Open Scope sl_scope.

(** ** State *)

Inductive error_reason := protocol_error | connection_error | timeout_error.

#[export] Instance error_reason_eq_dec : EqDecision error_reason.
Proof. solve_decision. Defined.

(** What the engine uses of [session_base_t]. *)
Record session_t := Session {
  ss_pipe : bool;
  ss_room : nat;
  ss_pushed : list wmsg;
  ss_pending : list wmsg;
  ss_errors : list error_reason;     (* the calls of engine_error *)
  ss_out_active : bool;              (* [_out_active] of the session's end of the pipe; true while there is none *)
}.

Inductive version := V3_0 | V3_1.

#[export] Instance version_eq_dec : EqDecision version.
Proof. solve_decision. Defined.

(** Encoder and decoder are made together.  [co_msg] is what has become of the decoder's message since it
    was decoded; [co_closed] when it has been closed. *)
Record codec_t := Codec {
  co_version : version;
  co_encoder : encoder_t;
  co_decoder : v2_decoder_t;
  co_msg : wmsg;
  co_closed : bool;
}.

(** The values of [_next_msg] and [_process_msg]. *)
Inductive next_fn := NRoutingId | NPull | NHandshake | NPullAndEncode.
Inductive process_fn := PRoutingId | PHandshake | PWriteCredential | PDecodeAndPush | PPushOne.

Inductive in_place := InHandshake | InBuffer (direct : bool) (room : Z).

Record engine_t := Engine {
  ee_handshaking : bool;
  ee_greeting : list Z;              (* _greeting_recv, the first _greeting_bytes_read bytes *)
  ee_codec : option codec_t;
  ee_mech : option null_mechanism_t;
  ee_next : next_fn;
  ee_process : process_fn;
  ee_input : list Z;
  ee_place : in_place;
  ee_limit : Z;                      (* the size of the buffer of the read under way *)
  ee_reading : bool;
  ee_input_stopped : bool;
  ee_out : list Z;
  ee_output_stopped : bool;
  ee_io_error : bool;
  ee_pong : list Z;
}.

(** The options, and the members of [options_t] and of the allocator that are no options. *)
Record engine_cfg := EngineCfg {
  ec_options : options_t;
  ec_recv_routing_id : bool;
  ec_zero_copy : bool;
  ec_malloc : Z → bool;
  ec_pipe_room : nat;                (* of the pipe that engine_ready makes *)
}.

Definition out_batch (c : engine_cfg) : Z := o_int (ec_options c) out_batch_size.
Definition in_batch (c : engine_cfg) : Z := o_int (ec_options c) in_batch_size.
Definition ec_dec (c : engine_cfg) : dec_cfg := DecCfg (ec_zero_copy c) (o_maxmsgsize (ec_options c)) (ec_malloc c).

(** The engine with its session and the transport: what the peer has sent, in segments (a read does not
    go beyond the end of one).  [cn_written] and [cn_sent] are not in the code: the bytes
    that the transport has taken and the messages that the encoder has got. *)
Record conn := Conn {
  cn_alive : bool;
  cn_eng : engine_t;
  cn_sess : session_t;
  cn_stream : list (list Z);
  cn_written : list Z;
  cn_sent : list wmsg;
}.

Definition with_eng (f : engine_t → engine_t) (k : conn) : conn := Conn (cn_alive k) (f (cn_eng k)) (cn_sess k) (cn_stream k) (cn_written k) (cn_sent k).
Definition with_sess (s : session_t) (k : conn) : conn := Conn (cn_alive k) (cn_eng k) s (cn_stream k) (cn_written k) (cn_sent k).

Definition e_codec (x : option codec_t) (e : engine_t) : engine_t :=
  Engine (ee_handshaking e) (ee_greeting e) x (ee_mech e) (ee_next e) (ee_process e) (ee_input e) (ee_place e) (ee_limit e) (ee_reading e) (ee_input_stopped e) (ee_out e) (ee_output_stopped e) (ee_io_error e) (ee_pong e).
Definition e_mech (x : option null_mechanism_t) (e : engine_t) : engine_t :=
  Engine (ee_handshaking e) (ee_greeting e) (ee_codec e) x (ee_next e) (ee_process e) (ee_input e) (ee_place e) (ee_limit e) (ee_reading e) (ee_input_stopped e) (ee_out e) (ee_output_stopped e) (ee_io_error e) (ee_pong e).
Definition e_fns (n : next_fn) (p : process_fn) (e : engine_t) : engine_t :=
  Engine (ee_handshaking e) (ee_greeting e) (ee_codec e) (ee_mech e) n p (ee_input e) (ee_place e) (ee_limit e) (ee_reading e) (ee_input_stopped e) (ee_out e) (ee_output_stopped e) (ee_io_error e) (ee_pong e).
Definition e_handshake (b : bool) (g : list Z) (e : engine_t) : engine_t :=
  Engine b g (ee_codec e) (ee_mech e) (ee_next e) (ee_process e) (ee_input e) (ee_place e) (ee_limit e) (ee_reading e) (ee_input_stopped e) (ee_out e) (ee_output_stopped e) (ee_io_error e) (ee_pong e).
Definition e_input (data : list Z) (p : in_place) (limit : Z) (reading : bool) (e : engine_t) : engine_t :=
  Engine (ee_handshaking e) (ee_greeting e) (ee_codec e) (ee_mech e) (ee_next e) (ee_process e) data p limit reading (ee_input_stopped e) (ee_out e) (ee_output_stopped e) (ee_io_error e) (ee_pong e).
Definition e_input_stopped (b : bool) (e : engine_t) : engine_t :=
  Engine (ee_handshaking e) (ee_greeting e) (ee_codec e) (ee_mech e) (ee_next e) (ee_process e) (ee_input e) (ee_place e) (ee_limit e) (ee_reading e) b (ee_out e) (ee_output_stopped e) (ee_io_error e) (ee_pong e).
Definition e_output (out : list Z) (stopped : bool) (e : engine_t) : engine_t :=
  Engine (ee_handshaking e) (ee_greeting e) (ee_codec e) (ee_mech e) (ee_next e) (ee_process e) (ee_input e) (ee_place e) (ee_limit e) (ee_reading e) (ee_input_stopped e) out stopped (ee_io_error e) (ee_pong e).
Definition e_io_error (e : engine_t) : engine_t :=
  Engine (ee_handshaking e) (ee_greeting e) (ee_codec e) (ee_mech e) (ee_next e) (ee_process e) (ee_input e) (ee_place e) (ee_limit e) (ee_reading e) (ee_input_stopped e) (ee_out e) (ee_output_stopped e) true (ee_pong e).
Definition e_pong (m : list Z) (e : engine_t) : engine_t :=
  Engine (ee_handshaking e) (ee_greeting e) (ee_codec e) (ee_mech e) (ee_next e) (ee_process e) (ee_input e) (ee_place e) (ee_limit e) (ee_reading e) (ee_input_stopped e) (ee_out e) (ee_output_stopped e) (ee_io_error e) m.

Definition engine_new : engine_t :=
  Engine true [] None None NRoutingId PRoutingId [] InHandshake 64 false false [] true false [].

(** ** The session *)

Definition session_pull_msg (s : session_t) : option wmsg * session_t :=
  match ss_pipe s, ss_pending s with
  | true, m :: ms => (Some m, Session true (ss_room s) (ss_pushed s) ms (ss_errors s) (ss_out_active s))
  | _, _ => (None, s)
  end.

(** false is EAGAIN.  A pipe that is found full is not active for writing any more (check_write). *)
Definition session_push_msg (m : wmsg) (s : session_t) : bool * session_t :=
  if wm_has m msg_command && negb (wm_is_subscribe m) && negb (wm_is_cancel m) then (true, s)
  else match ss_pipe s, ss_out_active s, ss_room s with
       | true, true, S room => (true, Session true room (ss_pushed s ++ [m]) (ss_pending s) (ss_errors s) true)
       | true, true, O => (false, Session true 0 (ss_pushed s) (ss_pending s) (ss_errors s) false)
       | _, _, _ => (false, s)
       end.

(** The peer of the pipe has read [n] messages more (process_activate_write): the pipe takes them, and it
    calls write_activated if it had refused one.  That is the second result. *)
Definition pipe_activate_write (n : nat) (s : session_t) : session_t * bool :=
  (Session (ss_pipe s) (ss_room s + n) (ss_pushed s) (ss_pending s) (ss_errors s) true, negb (ss_out_active s)).

(** The part of [engine_ready] that matters here; the session is not terminating. *)
Definition session_engine_ready (c : engine_cfg) (s : session_t) : session_t :=
  if ss_pipe s then s else Session true (ec_pipe_room c) (ss_pushed s) (ss_pending s) (ss_errors s) true.

(** The frames of a message that is not complete yet. *)
Definition session_rollback (s : session_t) : session_t :=
  let fix strip (l : list wmsg) := match l with m :: l => if wm_has m msg_more then strip l else m :: l | [] => [] end in
  if ss_pipe s then Session true (ss_room s) (reverse (strip (reverse (ss_pushed s)))) (ss_pending s) (ss_errors s) (ss_out_active s) else s.

Definition SL_NOTIFY_CONNECT : Z := 1.
Definition SL_NOTIFY_DISCONNECT : Z := 2.

Definition notifies (c : engine_cfg) (flag : Z) : bool := bool_decide (Z.land (o_int (ec_options c) router_notify) flag ≠ 0).

(** ** stream_engine_base_t *)

Definition eng_error (c : engine_cfg) (reason : error_reason) (k : conn) : conn :=
  if ee_io_error (cn_eng k) then k
  else
    let reason := if decide (o_int (ec_options c) heartbeat_interval > 0 ∧ reason = connection_error) then timeout_error else reason in
    let s := cn_sess k in
    let s := if notifies c SL_NOTIFY_DISCONNECT && negb (ee_handshaking (cn_eng k)) then (session_push_msg (WMsg 0 []) (session_rollback s)).2 else s in
    Conn false (e_io_error (cn_eng k)) (Session (ss_pipe s) (ss_room s) (ss_pushed s) (ss_pending s) (ss_errors s ++ [reason]) (ss_out_active s))
      (cn_stream k) (cn_written k) (cn_sent k).

Definition start_read (c : engine_cfg) (k : conn) : conn :=
  let e := cn_eng k in
  if ee_input_stopped e || ee_io_error e then k
  else match ee_codec e with
       | None => with_eng (e_input [] InHandshake 64 true) k
       | Some co =>
           let '(direct, limit, d) := dec_get_buffer (in_batch c) (co_decoder co) in
           with_eng (λ e, e_input [] (InBuffer direct (in_batch c)) limit true
                            (e_codec (Some (Codec (co_version co) (co_encoder co) d (co_msg co) (co_closed co))) e)) k
       end.

Definition start_write (k : conn) : conn :=
  let e := cn_eng k in
  if ee_io_error e || bool_decide (ee_out e = []) then with_eng (e_output (ee_out e) true) k
  else with_eng (e_output (ee_out e) false) k.

(** The routing id and the notification go to the new pipe first; if it does not take them
    nothing else happens. *)
Definition mechanism_ready (c : engine_cfg) (m : null_mechanism_t) (k : conn) : conn :=
  let s := session_engine_ready c (cn_sess k) in
  let '(ok, s) := if ec_recv_routing_id c then session_push_msg (WMsg msg_routing_id (me_routing_id (nm_base m))) s else (true, s) in
  if negb ok then with_sess s k
  else
    let '(ok, s) := if notifies c SL_NOTIFY_CONNECT then session_push_msg (WMsg 0 []) s else (true, s) in
    if negb ok then with_sess s k
    else with_eng (λ e, e_handshake false (ee_greeting e) (e_fns NPullAndEncode PWriteCredential e)) (with_sess s k).

(** [(this->*_next_msg) (&_tx_msg)]; None is -1 *)
Definition pull_msg_from_session (k : conn) : option wmsg * conn :=
  let '(m, s) := session_pull_msg (cn_sess k) in (m, with_sess s k).

Definition next_handshake_command (c : engine_cfg) (k : conn) : outcome (option wmsg * conn) :=
  match ee_mech (cn_eng k) with
  | None => Abort
  | Some m =>
      match null_status m with
      | MReady => Done (pull_msg_from_session (mechanism_ready c m k))
      | MError => Done (None, k)
      | MHandshaking =>
          '(cmd, m) ← null_next_handshake_command m;
          let k := with_eng (e_mech (Some m)) k in
          Done (match cmd with Some bs => Some (WMsg msg_command bs) | None => None end, k)
      end
  end.

Definition next_msg (c : engine_cfg) (k : conn) : outcome (option wmsg * conn) :=
  match ee_next (cn_eng k) with
  | NRoutingId => Done (Some (WMsg 0 (o_routing_id (ec_options c))), with_eng (λ e, e_fns NPull (ee_process e) e) k)
  | NPull | NPullAndEncode => Done (pull_msg_from_session k)
  | NHandshake => next_handshake_command c k
  end.

Definition ver_load (v : version) (e : encoder_t) (m : wmsg) : outcome encoder_t :=
  match v with V3_0 => load_msg (E := v2_encoder_t) e m | V3_1 => load_msg (E := v3_1_encoder_t) e m end.
Definition ver_encode (v : version) (e : encoder_t) (b : option Z) : outcome (list Z * encoder_t) :=
  match v with V3_0 => encode v2_encoder_t e b | V3_1 => encode v3_1_encoder_t e b end.
Definition ver_frame (v : version) (m : wmsg) : list Z := match v with V3_0 => v2_frame m | V3_1 => v3_1_frame m end.

Definition put_encoder (enc : encoder_t) (co : codec_t) (k : conn) : conn :=
  with_eng (e_codec (Some (Codec (co_version co) enc (co_decoder co) (co_msg co) (co_closed co)))) k.

(** The encoder gets a message if it has none; false if there is none. *)
Definition load_next (c : engine_cfg) (k : conn) : outcome (bool * conn) :=
  match ee_codec (cn_eng k) with
  | None => Undef
  | Some co =>
      if encoder_is_empty (co_encoder co) then
        '(m, k) ← next_msg c k;
        match m with
        | None => Done (false, k)
        | Some m => enc ← ver_load (co_version co) (co_encoder co) m;
                    let k := put_encoder enc co k in
                    Done (true, Conn (cn_alive k) (cn_eng k) (cn_sess k) (cn_stream k) (cn_written k) (cn_sent k ++ [m]))
        end
      else Done (true, k)
  end.

(** The loop of [handle_write] and [restart_output]: [first] while [_outpos] is NULL.  Every turn but
    the last one uses up a message. *)
Fixpoint batch_loop (fuel : nat) (c : engine_cfg) (first : bool) (out : list Z) (k : conn) : outcome (list Z * conn) :=
  match fuel with
  | O => Undef
  | S fuel =>
      if decide (Z.of_nat (length out) < out_batch c) then
        '(more, k) ← load_next c k;
        if negb more then Done (out, k)
        else match ee_codec (cn_eng k) with
             | None => Undef
             | Some co =>
                 '(bs, enc) ← ver_encode (co_version co) (co_encoder co) (if first then None else Some (out_batch c - Z.of_nat (length out)));
                 let k := put_encoder enc co k in
                 if encoder_is_empty enc then batch_loop fuel c false (out ++ bs) k else Done (out ++ bs, k)
             end
      else Done (out, k)
  end.

Definition batch (c : engine_cfg) (k : conn) : outcome conn :=
  '(out, k) ← batch_loop (length (ss_pending (cn_sess k)) + 4) c true [] k;
  Done (with_eng (e_output out (ee_output_stopped (cn_eng k))) k).

(** [n] bytes have been written. *)
Definition handle_write (c : engine_cfg) (n : nat) (k : conn) : outcome conn :=
  let e := cn_eng k in
  let k := Conn (cn_alive k) (e_output (drop n (ee_out e)) (ee_output_stopped e) e) (cn_sess k) (cn_stream k) (cn_written k ++ take n (ee_out e)) (cn_sent k) in
  if decide (ee_out (cn_eng k) ≠ []) then Done (start_write k)
  else match ee_codec e with
       | None => Done (with_eng (e_output [] true) k)
       | Some _ =>
           k ← batch c k;
           if decide (ee_out (cn_eng k) ≠ []) then Done (start_write k) else Done (with_eng (e_output [] true) k)
       end.

Definition handle_write_error (k : conn) : conn := with_eng (λ e, e_output (ee_out e) true (e_io_error e)) k.

Definition restart_output (c : engine_cfg) (k : conn) : outcome conn :=
  let e := cn_eng k in
  if ee_io_error e then Done k
  else if negb (ee_output_stopped e) then Done k
  else
    if decide (ee_out e = []) then
      match ee_codec e with
      | None => assert! ee_handshaking e;; Done k
      | Some _ => k ← batch c k; Done (if decide (ee_out (cn_eng k) = []) then k else start_write k)
      end
    else Done (start_write k).

(** ** Messages from the peer *)

(** [zmtp_engine_t::process_heartbeat_message]: the five bytes from the third on are compared if the message has six; it is closed. *)
Definition ping_pattern : list Z := [4; 80; 73; 78; 71].
Definition pong_message : list Z := [0; 0; 4; 80; 79; 78; 71].

Definition process_heartbeat_message (data : list Z) (k : conn) : outcome conn :=
  if decide (6 ≤ length data)%nat then
    if decide (length data < 7)%nat then Undef
    else if decide (take 5 (drop 2 data) = ping_pattern) then Done (with_eng (e_pong pong_message) k) else Done k
  else Done k.

Definition cmd_subscribe : list Z := [83; 85; 66; 83; 67; 82; 73; 66; 69].
Definition cmd_cancel : list Z := [67; 65; 78; 67; 69; 76].
Definition cmd_ping : list Z := [80; 73; 78; 71].
Definition cmd_pong : list Z := [80; 79; 78; 71].

(** The message with its new flags, and whether it has been closed. *)
Definition process_command_message (m : wmsg) (k : conn) : outcome (wmsg * bool * conn) :=
  match wm_data m with
  | [] => Done (m, false, k)
  | cmd_name_size :: rest =>
      if decide (wm_size m < cmd_name_size + 1) then Done (m, false, k)
      else
        let name := take (Z.to_nat cmd_name_size) rest in
        if decide (cmd_name_size = 9 ∧ name = cmd_subscribe) then Done (WMsg (Z.lor (wm_flags m) msg_subscribe) (wm_data m), false, k)
        else if decide (cmd_name_size = 6 ∧ name = cmd_cancel) then Done (WMsg (Z.lor (wm_flags m) msg_cancel) (wm_data m), false, k)
        else if decide (cmd_name_size = 4 ∧ name = cmd_ping) then
          k ← process_heartbeat_message (wm_data m) k; Done (WMsg (Z.lor (wm_flags m) msg_ping) (wm_data m), true, k)
        else if decide (cmd_name_size = 4 ∧ name = cmd_pong) then
          k ← process_heartbeat_message (wm_data m) k; Done (WMsg (Z.lor (wm_flags m) msg_pong) (wm_data m), true, k)
        else Done (m, true, k)
  end.

(** The decoder's message. *)
Definition put_decoded (m : wmsg) (closed : bool) (k : conn) : conn :=
  match ee_codec (cn_eng k) with
  | None => k
  | Some co => with_eng (e_codec (Some (Codec (co_version co) (co_encoder co) (co_decoder co) m closed))) k
  end.

(** A message that the pipe takes is initialized again; a command that the session drops is left. *)
Definition push_decoded (m : wmsg) (closed : bool) (k : conn) : rc_t * conn :=
  let '(ok, s) := session_push_msg m (cn_sess k) in
  let dropped := wm_has m msg_command && negb (wm_is_subscribe m) && negb (wm_is_cancel m) in
  if ok then (RcOk, put_decoded (if dropped then m else WMsg 0 []) (closed && dropped) (with_sess s k))
  else (RcErr EAGAIN, put_decoded m closed (with_sess s k)).

Definition decode_and_push (m : wmsg) (k : conn) : outcome (rc_t * conn) :=
  '(m, closed, k) ← (if wm_has m msg_command then process_command_message m k else Done (m, false, k));
  let '(rc, k) := push_decoded m closed k in
  Done (rc, match rc with RcOk => k | RcErr _ => with_eng (λ e, e_fns (ee_next e) PPushOne e) k end).

Definition push_one_then_decode_and_push (m : wmsg) (k : conn) : rc_t * conn :=
  let '(rc, k) := push_decoded m false k in
  (rc, match rc with RcOk => with_eng (λ e, e_fns (ee_next e) PDecodeAndPush e) k | RcErr _ => k end).

Definition write_credential (m : wmsg) (k : conn) : outcome (rc_t * conn) :=
  match ee_mech (cn_eng k) with
  | None => Abort
  | Some me =>
      let '(ok, s) := match me_user_id (nm_base me) with [] => (true, cn_sess k) | id => session_push_msg (WMsg msg_credential id) (cn_sess k) end in
      if ok : bool then decode_and_push m (with_eng (λ e, e_fns (ee_next e) PDecodeAndPush e) (with_sess s k))
      else Done (RcErr EAGAIN, with_sess s k)
  end.

Definition process_handshake_command (c : engine_cfg) (m : wmsg) (k : conn) : outcome (rc_t * conn) :=
  match ee_mech (cn_eng k) with
  | None => Abort
  | Some me =>
      '(rc, me) ← null_process_handshake_command (wm_data m) me;
      let k := with_eng (e_mech (Some me)) k in
      match rc with
      | RcErr e => Done (RcErr e, k)
      | RcOk =>
          let k := put_decoded (WMsg 0 []) false k in
          match null_status me with
          | MError => Done (RcErr EPROTO, k)
          | st =>
              let k := match st with MReady => mechanism_ready c me k | _ => k end in
              k ← (if ee_output_stopped (cn_eng k) then restart_output c k else Done k);
              Done (RcOk, k)
          end
      end
  end.

Definition process_routing_id_msg (c : engine_cfg) (m : wmsg) (k : conn) : outcome (rc_t * conn) :=
  let '(rc, k) := if ec_recv_routing_id c then push_decoded (WMsg (Z.lor (wm_flags m) msg_routing_id) (wm_data m)) false k
                  else (RcOk, put_decoded (WMsg 0 []) false k) in
  match rc, ee_mech (cn_eng k) with
  | RcErr _, _ => Abort
  | _, None => Undef
  | _, Some me => Done (RcOk, match null_status me with MReady => mechanism_ready c me k | _ => with_eng (λ e, e_fns (ee_next e) PHandshake e) k end)
  end.

Definition process_msg (c : engine_cfg) (m : wmsg) (k : conn) : outcome (rc_t * conn) :=
  match ee_process (cn_eng k) with
  | PRoutingId => process_routing_id_msg c m k
  | PHandshake => process_handshake_command c m k
  | PWriteCredential => write_credential m k
  | PDecodeAndPush => decode_and_push m k
  | PPushOne => Done (push_one_then_decode_and_push m k)
  end.

(** ** Input *)

(** [size_ready] has been reached: the message of the decoder was closed and made again. *)
Definition size_ready_ran (rc : dec_rc) (d : v2_decoder_t) : bool :=
  match rc with DMsg => true | DErr e => bool_decide (e ≠ EMSGSIZE) | DGoOn => bool_decide (de_next d = DMessageReady) end.

(** [_decoder->decode (_inpos, _insize, processed)].  Closing a message that has been closed fails an assertion.  For bytes in the
    buffer of the handshake, the distance to the end of the decoder's buffer that [size_ready] computes, if zero-copy is on,
    is a difference of pointers into two objects: undefined behaviour. *)
Definition eng_decode (c : engine_cfg) (co : codec_t) (k : conn) : outcome (dec_rc * conn) :=
  let e := cn_eng k in
  '(rc, used, d) ← match ee_place e with
                   | InBuffer direct room => decode (ec_dec c) direct room (ee_input e) (co_decoder co)
                   | InHandshake =>
                       '(rc, used, d) ← decode (DecCfg false (dc_max_msg_size (ec_dec c)) (ec_malloc c)) false 0 (ee_input e) (co_decoder co);
                       if ec_zero_copy c && size_ready_ran rc d then Undef else Done (rc, used, d)
                   end;
  assert! bool_decide (used ≤ Z.of_nat (length (ee_input e)));;
  let ran := size_ready_ran rc d in
  assert! negb (co_closed co && ran);;
  let place := match ee_place e with InBuffer _ room => InBuffer false (room - used) | InHandshake => InHandshake end in
  Done (rc, with_eng (λ e, e_input (drop (Z.to_nat used) (ee_input e)) place (ee_limit e) (ee_reading e)
                             (e_codec (Some (Codec (co_version co) (co_encoder co) d (de_in_progress d) (co_closed co && negb ran))) e)) k).

(** The loop of [handle_read] and [restart_input]; a decoder error is the result with its errno. *)
Fixpoint eng_read_loop (fuel : nat) (c : engine_cfg) (k : conn) : outcome (dec_rc * rc_t * conn) :=
  match fuel with
  | O => Undef
  | S fuel =>
      match ee_input (cn_eng k), ee_codec (cn_eng k) with
      | [], _ => Done (DGoOn, RcOk, k)
      | _, None => Undef
      | _, Some co =>
          '(rc, k) ← eng_decode c co k;
          match rc with
          | DMsg =>
              match ee_codec (cn_eng k) with
              | None => Undef
              | Some co =>
                  '(rc, k) ← process_msg c (co_msg co) k;
                  match rc with RcOk => eng_read_loop fuel c k | RcErr e => Done (DMsg, RcErr e, k) end
              end
          | rc => Done (rc, RcOk, k)
          end
      end
  end.

(** ** The greeting (zmtp_engine_t) *)

Definition v3_greeting_size : nat := 64.
Definition signature_size : nat := 10.

Definition null_greeting : list Z := [78; 85; 76; 76] ++ replicate 16 0.

(** The greeting sent: signature, revision 3.0, mechanism NULL. *)
Definition greeting_send : list Z := 255 :: put_uint64 1 ++ [127; 3; 0; 78; 85; 76; 76] ++ replicate 48 0.

Definition plug (c : engine_cfg) (k : conn) : outcome conn :=
  k ← restart_output c (with_eng (e_output greeting_send (ee_output_stopped (cn_eng k))) k);
  Done (start_read c k).

Inductive handshake_fun := HUnversioned | HV1_0 | HV2_0 | HV3 (v : version).

Definition select_handshake_fun (unversioned : bool) (revision minor : Z) : handshake_fun :=
  if unversioned then HUnversioned
  else if decide (revision = 0) then HV1_0
  else if decide (revision = 1) then HV2_0
  else if decide (revision = 3 ∧ minor = 0) then HV3 V3_0
  else HV3 V3_1.

(** [handshake_v3_x], after [handshake_v3_0] or [handshake_v3_1] has made encoder and decoder *)
Definition run_handshake (c : engine_cfg) (f : handshake_fun) (k : conn) : outcome (bool * conn) :=
  match f with
  | HV3 v =>
      let k := with_eng (e_codec (Some (Codec v (encoder_new (out_batch c)) v2_decoder_new (WMsg 0 []) false))) k in
      if decide (take 20 (drop 12 (ee_greeting (cn_eng k))) = null_greeting) then
        let k := with_eng (λ e, e_fns NHandshake PHandshake (e_mech (Some (null_new (ec_options c) (ec_recv_routing_id c))) e)) k in
        k ← restart_output c k;
        Done (true, k)
      else Done (false, eng_error c protocol_error k)
  | _ => Done (false, eng_error c protocol_error k)
  end.

Definition process_greeting (c : engine_cfg) (k : conn) : outcome (bool * conn) :=
  let g := ee_greeting (cn_eng k) in
  match g with
  | [] => Done (false, k)
  | b0 :: _ =>
      if decide (b0 ≠ 255) then run_handshake c (select_handshake_fun true 0 0) k
      else if decide ((signature_size ≤ length g)%nat ∧ Z.land (nth 9 g 0) 1 = 0) then run_handshake c (select_handshake_fun true 0 0) k
      else if decide (length g < v3_greeting_size)%nat then Done (false, k)
      else run_handshake c (select_handshake_fun false (nth 10 g 0) (nth 11 g 0)) k
  end.

Definition process_handshake_data (c : engine_cfg) (k : conn) : outcome conn :=
  let e := cn_eng k in
  let n := Nat.min (length (ee_input e)) (v3_greeting_size - length (ee_greeting e)) in
  '(ok, k) ← process_greeting c (with_eng (e_handshake (ee_handshaking e) (ee_greeting e ++ take n (ee_input e))) k);
  if ok : bool then Done (with_eng (λ e, e_handshake false (ee_greeting e) (e_input (drop n (ee_input e)) (ee_place e) (ee_limit e) (ee_reading e) e)) k)
  else Done k.

(** ** The handlers of the transport and of the session *)

Definition handle_read (c : engine_cfg) (bytes : list Z) (k : conn) : outcome conn :=
  let k := with_eng (λ e, e_input bytes (ee_place e) (ee_limit e) false e) k in
  k ← (if ee_handshaking (cn_eng k) then process_handshake_data c k else Done k);
  if negb (cn_alive k) then Done k
  else if ee_handshaking (cn_eng k) then Done (start_read c k)
  else match ee_codec (cn_eng k) with
       | None => Done (start_read c k)
       | Some _ =>
           '(rc, prc, k) ← eng_read_loop (S (length (ee_input (cn_eng k)))) c k;
           match rc, prc with
           | DErr _, _ => Done (eng_error c protocol_error k)
           | _, RcErr e =>
               if decide (e = EAGAIN) then Done (with_eng (e_input_stopped true) k) else Done (eng_error c protocol_error k)
           | _, RcOk => Done (start_read c k)
           end
       end.

(** The stream has ended or failed. *)
Definition handle_read_error (c : engine_cfg) (k : conn) : conn := eng_error c connection_error (with_eng (λ e, e_input (ee_input e) (ee_place e) (ee_limit e) false e) k).

Definition restart_input (c : engine_cfg) (k : conn) : outcome conn :=
  assert! ee_input_stopped (cn_eng k);;
  match ee_codec (cn_eng k) with
  | None => Abort
  | Some co =>
      '(rc, k) ← process_msg c (co_msg co) k;
      match rc with
      | RcErr e => if decide (e = EAGAIN) then Done k else Done (eng_error c protocol_error k)
      | RcOk =>
          '(_, prc, k) ← eng_read_loop (S (length (ee_input (cn_eng k)))) c k;
          match prc with
          | RcErr e => if decide (e = EAGAIN) then Done k else Done (eng_error c protocol_error k)
          | RcOk => Done (start_read c (with_eng (e_input_stopped false) k))
          end
      end
  end.

(** The engine is there as long as the connection is. *)
Definition session_write_activated (c : engine_cfg) (k : conn) : outcome conn := restart_input c k.

(** ** A connection *)

Inductive eng_action :=
| ARead (n : nat)              (* the transport has read up to [n] bytes *)
| AReadFail                    (* the peer has closed the stream, or it has failed *)
| AWritten (n : nat)           (* the transport has written *)
| AWriteFail
| ASend (m : wmsg)             (* the socket has sent a message: read_activated *)
| ARoom (n : nat).             (* the socket has received messages: activate_write *)

Definition conn_step (c : engine_cfg) (k : conn) (a : eng_action) : outcome conn :=
  let e := cn_eng k in
  let s := cn_sess k in
  if negb (cn_alive k) then Done k
  else match a with
  | ARead n =>
      match cn_stream k with
      | [] => Done k
      | seg :: segs =>
          let bytes := take n seg in
          if decide (ee_reading e = true ∧ bytes ≠ [] ∧ Z.of_nat (length bytes) ≤ ee_limit e) then
            handle_read c bytes (Conn (cn_alive k) e s (match drop n seg with [] => segs | seg => seg :: segs end) (cn_written k) (cn_sent k))
          else Done k
      end
  | AReadFail => if ee_reading e then Done (handle_read_error c k) else Done k
  | AWritten n => if decide (ee_output_stopped e = false ∧ 0 < n ∧ n ≤ length (ee_out e))%nat then handle_write c n k else Done k
  | AWriteFail => if ee_output_stopped e then Done k else Done (handle_write_error k)
  | ASend m => restart_output c (with_sess (Session (ss_pipe s) (ss_room s) (ss_pushed s) (ss_pending s ++ [m]) (ss_errors s) (ss_out_active s)) k)
  | ARoom n =>
      let '(s, activated) := pipe_activate_write n s in
      if activated then session_write_activated c (with_sess s k) else Done (with_sess s k)
  end.

(** A session that connects has its pipe, with messages in it perhaps, before there is an engine; one that was accepted has none. *)
Definition conn_new (pipe : bool) (room : nat) (pending : list wmsg) (stream : list (list Z)) : conn :=
  Conn true engine_new (Session pipe room [] pending [] true) stream [] [].

Fixpoint conn_steps (c : engine_cfg) (k : conn) (acts : list eng_action) : outcome conn :=
  match acts with [] => Done k | a :: acts => k ← conn_step c k a; conn_steps c k acts end.

Definition conn_run (c : engine_cfg) (k : conn) (acts : list eng_action) : outcome conn := k ← plug c k; conn_steps c k acts.

