(* ===== verification/EngineStream.v ===== *)
(** The two streams of an engine (src/protocol/stream_engine_base.cpp, zmtp_engine.cpp).

    Out: the bytes that the transport gets are the greeting, the READY command and the messages of
    the session, each as its frame.  In: the messages that the session gets are those that the peer
    has sent, whatever sizes the reads have and however often the pipe is full.  A peer
    is one that sends a greeting and frames ([peer_ok]); nothing else is assumed about when the
    transport and the session call the engine. *)
From S2P Require Import Prelude Msg Wire Encoder Decoder Options Mechanism Engine.

Local Open Scope sl_scope.

#[local] Opaque greeting_send.

(** ** Encoders by version *)

Definition ver_wf (v : version) (e : encoder_t) : Prop :=
  match v with V3_0 => encoder_wf v2_encoder_t e | V3_1 => encoder_wf v3_1_encoder_t e end.
Definition ver_remaining (v : version) (e : encoder_t) : list Z :=
  match v with V3_0 => Encoder.remaining v2_encoder_t e | V3_1 => Encoder.remaining v3_1_encoder_t e end.

Lemma ver_load_spec v e m :
  ver_wf v e → en_in_progress e = None →
  ∃ e', ver_load v e m = Done e' ∧ ver_wf v e' ∧ en_in_progress e' = Some m ∧ en_buf_size e' = en_buf_size e ∧ ver_remaining v e' = ver_frame v m.
Proof. destruct v; apply load_msg_spec. Qed.

Lemma ver_encode_spec v e b :
  ver_wf v e → 0 < default (en_buf_size e) b →
  ∃ out e', ver_encode v e b = Done (out, e') ∧ ver_wf v e' ∧ en_buf_size e' = en_buf_size e ∧ ver_remaining v e = out ++ ver_remaining v e'
    ∧ (en_in_progress e' = en_in_progress e ∧ (out ≠ [] ∨ en_in_progress e = None) ∨ en_in_progress e' = None).
Proof. destruct v; apply encode_spec. Qed.

Lemma ver_remaining_idle v e : ver_wf v e → en_in_progress e = None → ver_remaining v e = [].
Proof. destruct v; apply remaining_idle. Qed.

Lemma ver_wf_new v n : ver_wf v (encoder_new n) ∧ ver_remaining v (encoder_new n) = [].
Proof. by destruct v. Qed.

Lemma null_ready m : null_status m = MReady ↔ nm_ready_command_sent m = true ∧ nm_ready_command_received m = true.
Proof. unfold null_status. destruct (nm_ready_command_sent m), (nm_ready_command_received m), (nm_error_command_sent m), (nm_error_command_received m); naive_solver. Qed.

Section stream.
Context (c : engine_cfg) (ty : list Z) (v : version).
Hypothesis (Hsend : sendable (ec_options c) ty) (Hob : 0 < out_batch c) (Hib : 0 < in_batch c) (Hroom : (2 ≤ ec_pipe_room c)%nat).

(** ** What the session gets *)

Definition ready_msg : wmsg := WMsg msg_command (ready_command_name ++ props_bytes (wire_properties (ec_options c) ty)).

(** The routing id of the peer and the notification, before its messages. *)
Definition intro (m : null_mechanism_t) : list wmsg :=
  (if ec_recv_routing_id c then [WMsg msg_routing_id (me_routing_id (nm_base m))] else [])
  ++ (if notifies c SL_NOTIFY_CONNECT then [WMsg 0 []] else []).

(** A message of the peer as the session gets it: a subscription or cancellation has its flag, other commands are dropped. *)
Definition deliver (m : wmsg) : option wmsg :=
  if wm_has m msg_command then
    match wm_data m with
    | n :: rest =>
        let name := take (Z.to_nat n) rest in
        if decide (wm_size m < n + 1) then None
        else if decide (n = 9 ∧ name = cmd_subscribe) then Some (WMsg (Z.lor (wm_flags m) msg_subscribe) (wm_data m))
        else if decide (n = 6 ∧ name = cmd_cancel) then Some (WMsg (Z.lor (wm_flags m) msg_cancel) (wm_data m))
        else None
    | [] => None
    end
  else Some m.

(** A message with the flags that a frame can have, that is not a command other than these two with a complete name. *)
Definition harmless (m : wmsg) : Prop :=
  0 ≤ wm_flags m < 4 ∧ (wm_has m msg_command = true → is_Some (deliver m) ∨ match wm_data m with [] => True | n :: _ => wm_size m < n + 1 end).

(** ** The state of the output *)

Definition received (m : null_mechanism_t) : bool := nm_ready_command_received m || nm_error_command_received m.

Definition established (p : process_fn) : bool := match p with PRoutingId | PHandshake => false | _ => true end.

(** The message of the decoder waits for room in the pipe. *)
Definition push_one (p : process_fn) : bool := match p with PPushOne => true | _ => false end.

(** [out] are bytes that have left the encoder, [msgs] the messages of the peer that have been processed,
    [offered] those that the session has got for the peer. *)
Record core (offered : list wmsg) (out : list Z) (msgs : list wmsg) (k : conn) (co : codec_t) (m : null_mechanism_t) : Prop := {
  cr_codec : ee_codec (cn_eng k) = Some co;
  cr_mech : ee_mech (cn_eng k) = Some m;
  cr_options : me_options (nm_base m) = ec_options c;
  cr_version : co_version co = v;
  cr_user : me_user_id (nm_base m) = [];
  cr_no_error : nm_error_command_sent m = false;
  cr_wf : ver_wf (co_version co) (co_encoder co);
  cr_buf : en_buf_size (co_encoder co) = out_batch c;
  cr_bytes : cn_written k ++ out ++ ver_remaining (co_version co) (co_encoder co) = greeting_send ++ (cn_sent k ≫= ver_frame (co_version co));
  cr_sent : if nm_ready_command_sent m then ∃ pulled, cn_sent k = ready_msg :: pulled ∧ pulled ++ ss_pending (cn_sess k) = offered
            else cn_sent k = [] ∧ ss_pending (cn_sess k) = offered;
  cr_active : ss_out_active (cn_sess k) = negb (push_one (ee_process (cn_eng k)));
  cr_phase :
    if established (ee_process (cn_eng k)) then
      ee_next (cn_eng k) = NPullAndEncode ∧ nm_ready_command_sent m = true ∧ ss_pipe (cn_sess k) = true
      ∧ ∃ r fin, msgs = r :: fin ∧ ss_pushed (cn_sess k) = intro m ++ omap deliver fin
    else ee_process (cn_eng k) = PHandshake ∧ ee_next (cn_eng k) = NHandshake ∧ ss_pushed (cn_sess k) = []
      ∧ (ss_pipe (cn_sess k) = true → (2 ≤ ss_room (cn_sess k))%nat) ∧ (if received m then ∃ r, msgs = [r] else msgs = []);
}.

(** What the output does not touch. *)
Definition in_part (k : conn) :=
  (cn_alive k, cn_stream k, ss_errors (cn_sess k),
   (ee_greeting (cn_eng k), ee_input (cn_eng k), ee_place (cn_eng k), ee_limit (cn_eng k), ee_reading (cn_eng k), ee_input_stopped (cn_eng k), ee_io_error (cn_eng k)),
   (λ co, (co_version co, co_decoder co, co_msg co, co_closed co)) <$> ee_codec (cn_eng k),
   (λ m, (received m, me_routing_id (nm_base m))) <$> ee_mech (cn_eng k),
   if push_one (ee_process (cn_eng k)) then Some (ss_room (cn_sess k)) else None).

(** No message is left to be sent. *)
Definition drained (k : conn) : Prop := established (ee_process (cn_eng k)) = true → ss_pending (cn_sess k) = [].

Definition out_part (k : conn) := (ee_out (cn_eng k), ee_output_stopped (cn_eng k), cn_written k).

(** The handshake is over: the session gets its pipe. *)
Lemma mechanism_ready_spec offered out msgs k co m :
  core offered out msgs k co m → null_status m = MReady → established (ee_process (cn_eng k)) = false →
  core offered out msgs (mechanism_ready c m k) co m ∧ in_part (mechanism_ready c m k) = in_part k ∧ out_part (mechanism_ready c m k) = out_part k
  ∧ established (ee_process (cn_eng (mechanism_ready c m k))) = true ∧ ss_pending (cn_sess (mechanism_ready c m k)) = ss_pending (cn_sess k)
  ∧ cn_sent (mechanism_ready c m k) = cn_sent k ∧ ee_handshaking (cn_eng (mechanism_ready c m k)) = false.
Proof.
  intros [] Hst He. rewrite He in *. destruct cr_phase0 as (Hp & Hn & Hpu & Hro & Hrec).
  apply null_ready in Hst as [Esent Erec]. rewrite Esent in *.
  assert (Hrr : received m = true) by (unfold received; by rewrite Erec). rewrite Hrr in Hrec. destruct Hrec as (r & ->).
  remember (session_engine_ready c (cn_sess k)) as s0 eqn:E0.
  assert (Hs0 : ss_pipe s0 = true ∧ (2 ≤ ss_room s0)%nat ∧ ss_pushed s0 = [] ∧ ss_pending s0 = ss_pending (cn_sess k) ∧ ss_errors s0 = ss_errors (cn_sess k) ∧ ss_out_active s0 = true).
  { rewrite Hp in cr_active0. rewrite E0. unfold session_engine_ready. destruct (ss_pipe (cn_sess k)) eqn:E; simpl; by split_and!; auto. }
  destruct Hs0 as (H1 & H2 & H3 & H4 & H5 & H6). destruct s0 as [pipe room pushed pend errs act]. simpl in H1, H2, H3, H4, H5, H6. subst pipe pushed pend errs act. symmetry in E0.
  destruct room as [|[|room]]; [lia|lia|].
  assert (Hpush : ∀ x rm pu, wm_has x msg_command = false → session_push_msg x (Session true (S rm) pu (ss_pending (cn_sess k)) (ss_errors (cn_sess k)) true)
    = (true, Session true rm (pu ++ [x]) (ss_pending (cn_sess k)) (ss_errors (cn_sess k)) true)) by (intros x rm pu Hx; unfold session_push_msg; by rewrite Hx).
  assert (Hs : ∃ rm, mechanism_ready c m k = with_eng (λ e, e_handshake false (ee_greeting e) (e_fns NPullAndEncode PWriteCredential e))
    (with_sess (Session true rm (intro m) (ss_pending (cn_sess k)) (ss_errors (cn_sess k)) true) k)).
  { unfold mechanism_ready, intro. rewrite E0. destruct (ec_recv_routing_id c), (notifies c SL_NOTIFY_CONNECT); cbv beta iota zeta; rewrite ?Hpush by done;
      cbv beta iota zeta; rewrite ?Hpush by done; eexists; reflexivity. }
  destruct Hs as (rm & ->). clear E0.
  split; [|unfold in_part; simpl; rewrite Hp; done]. split; simpl; try done; rewrite ?Esent; try done.
  split_and!; [done|done|done|]. exists r, []. by rewrite app_nil_r.
Qed.

(** Messages that the encoder may still get in the batch, and the one it has. *)
Definition work (k : conn) (co : codec_t) (m : null_mechanism_t) : nat :=
  length (ss_pending (cn_sess k)) + (if nm_ready_command_sent m then 0 else 1) + (if encoder_is_empty (co_encoder co) then 0 else 1).

(** What the session has for the peer: one message less, or none. *)
Lemma pull_spec offered out msgs k co m :
  core offered out msgs k co m → en_in_progress (co_encoder co) = None → nm_ready_command_sent m = true →
  ∃ om k', pull_msg_from_session k = (om, k') ∧ in_part k' = in_part k ∧ out_part k' = out_part k ∧ ee_handshaking (cn_eng k') = ee_handshaking (cn_eng k)
    ∧ match om with
      | None => k' = k ∧ (ss_pipe (cn_sess k) = true → ss_pending (cn_sess k) = [])
      | Some x => cn_sent k' = cn_sent k ∧ ss_pending (cn_sess k) = x :: ss_pending (cn_sess k')
          ∧ ∀ enc, ver_wf (co_version co) enc → en_buf_size enc = out_batch c → ver_remaining (co_version co) enc = ver_frame (co_version co) x →
              let k1 := put_encoder enc co k' in
              core offered out msgs (Conn (cn_alive k1) (cn_eng k1) (cn_sess k1) (cn_stream k1) (cn_written k1) (cn_sent k1 ++ [x]))
                (Codec (co_version co) enc (co_decoder co) (co_msg co) (co_closed co)) m
      end.
Proof.
  intros Hc Hip Hsent. pose proof Hc as []. unfold pull_msg_from_session, session_pull_msg.
  destruct (ss_pipe (cn_sess k)) eqn:Ep; [|exists None, k; by destruct k].
  destruct (ss_pending (cn_sess k)) as [|x ms] eqn:Epe; [exists None, k; by destruct k|].
  eexists (Some x), _. split; [done|]. split; [done|]. split; [done|]. split; [done|]. split; [done|]. split; [done|].
  intros enc Hwf Hbuf Hrem. rewrite Hsent in *. destruct cr_sent0 as (pulled & Hsn & Hoff).
  split; simpl; try done.
  - rewrite Hrem. rewrite ver_remaining_idle, app_nil_r in cr_bytes0 by done. rewrite bind_app. simpl. by rewrite app_nil_r, (app_assoc (cn_written k)), cr_bytes0, <- app_assoc.
  - rewrite Hsent. exists (pulled ++ [x]). rewrite Hsn. split; [done|]. by rewrite <- app_assoc.
  - by rewrite Hsent.
Qed.

Lemma load_next_spec offered out msgs k co m :
  core offered out msgs k co m →
  ∃ more k' co' m', load_next c k = Done (more, k') ∧ core offered out msgs k' co' m' ∧ in_part k' = in_part k ∧ out_part k' = out_part k
    ∧ (ee_handshaking (cn_eng k) = false → ee_handshaking (cn_eng k') = false)
    ∧ if more : bool then encoder_is_empty (co_encoder co') = false ∧ (work k' co' m' ≤ work k co m)%nat
      else drained k' ∧ encoder_is_empty (co_encoder co') = true.
Proof.
  intros Hc. pose proof Hc as []. unfold load_next. rewrite cr_codec0. destruct (encoder_is_empty (co_encoder co)) eqn:Ee.
  2: { exists true, k, co, m. by split_and!. }
  assert (Hip : en_in_progress (co_encoder co) = None) by (by apply bool_decide_eq_true in Ee).
  (* a message of the session is loaded *)
  assert (Hpull : ∀ k0, core offered out msgs k0 co m → nm_ready_command_sent m = true → established (ee_process (cn_eng k0)) = true →
    in_part k0 = in_part k → out_part k0 = out_part k → ss_pending (cn_sess k0) = ss_pending (cn_sess k) →
    (ee_handshaking (cn_eng k) = false → ee_handshaking (cn_eng k0) = false) →
    ∃ more k' co' m', (let '(om, k') := pull_msg_from_session k0 in
       match om with
       | None => Done (false, k')
       | Some x => enc ← ver_load (co_version co) (co_encoder co) x; let k' := put_encoder enc co k' in
                   Done (true, Conn (cn_alive k') (cn_eng k') (cn_sess k') (cn_stream k') (cn_written k') (cn_sent k' ++ [x]))
       end) = Done (more, k') ∧ core offered out msgs k' co' m' ∧ in_part k' = in_part k ∧ out_part k' = out_part k
    ∧ (ee_handshaking (cn_eng k) = false → ee_handshaking (cn_eng k') = false)
    ∧ if more : bool then encoder_is_empty (co_encoder co') = false ∧ (work k' co' m' ≤ work k co m)%nat
      else drained k' ∧ encoder_is_empty (co_encoder co') = true).
  { intros k0 Hc0 Hs0 He0 Hi0 Ho0 Hp0 Hh0. destruct (pull_spec _ _ _ k0 co m Hc0 Hip Hs0) as (om & k1 & -> & Hi1 & Ho1 & Hh1 & H).
    destruct om as [x|].
    - destruct H as (Hsn & Hpe & Hcore). destruct (ver_load_spec (co_version co) (co_encoder co) x cr_wf0 Hip) as (enc & -> & Hwf & Hin & Hb & Hrem). rewrite bind_Done.
      eexists true, _, _, m. split; [done|]. split; [apply Hcore; [done|congruence|done]|]. split; [rewrite <- Hi0, <- Hi1|].
      { unfold in_part. simpl. pose proof (cr_codec _ _ _ _ _ _ Hc0) as Ec. pose proof Hi1 as Hi2. unfold in_part in Hi2. injection Hi2 as _ _ _ _ _ _ _ _ _ _ Hco _ _.
        rewrite Ec in Hco. destruct (ee_codec (cn_eng k1)) as [co1|]; [|done]. simpl in *. injection Hco as -> -> -> ->. done. }
      split; [by rewrite <- Ho0, <- Ho1|]. split; [simpl; rewrite Hh1; done|]. unfold encoder_is_empty, work. simpl. split; [by rewrite Hin|].
      unfold encoder_is_empty. rewrite Hin, Hip, <- Hp0, Hpe, Hs0. simpl. lia.
    - destruct H as (-> & Hd). exists false, k0, co, m. split_and!; try done. intros He. apply Hd. pose proof (cr_phase _ _ _ _ _ _ Hc0) as Hph. rewrite He0 in Hph. naive_solver. }
  unfold next_msg. destruct (established (ee_process (cn_eng k))) eqn:Ees.
  - destruct cr_phase0 as (-> & Hsent & _). rewrite bind_Done. destruct (Hpull k) as (more & k' & co' & m' & E & H); try done.
    exists more, k', co', m'. split; [|done]. rewrite <- E. by destruct (pull_msg_from_session k) as [[x|] k1].
  - destruct cr_phase0 as (Hp & Hn & Hpu & Hro & Hrec). rewrite Hn. unfold next_handshake_command. rewrite cr_mech0. destruct (null_status m) eqn:Est.
    + unfold null_next_handshake_command. rewrite cr_no_error0, orb_false_r. destruct (nm_ready_command_sent m) eqn:Es; [rewrite bind_Done; cbv beta iota zeta|].
      * exists false, (with_eng (e_mech (Some m)) k), co, m.
        assert (Hk : with_eng (e_mech (Some m)) k = k) by (destruct k as [? [] ? ? ? ?]; simpl in *; by rewrite <- cr_mech0). rewrite Hk. split_and!; try done.
        unfold drained. by rewrite Ees.
      * rewrite cr_options0, (make_command_spec _ ty), !bind_Done by done. cbv beta iota zeta. destruct (ver_load_spec (co_version co) (co_encoder co) ready_msg cr_wf0 Hip) as (enc & E & Hwf & Hin & Hb & Hrem).
        unfold ready_msg in E. rewrite E, bind_Done. destruct cr_sent0 as [Hsn Hoff]. eexists true, _, (Codec (co_version co) enc (co_decoder co) (co_msg co) (co_closed co)),
          (NullMechanism (nm_base m) true false (nm_ready_command_received m) (nm_error_command_received m)). split; [done|].
        assert (Hrm : received (NullMechanism (nm_base m) true false (nm_ready_command_received m) (nm_error_command_received m)) = received m) by done.
        split; [split; simpl; try done|].
        -- congruence.
        -- rewrite Hrem. rewrite ver_remaining_idle, app_nil_r in cr_bytes0 by done. rewrite Hsn in *. simpl in *. rewrite app_nil_r in *. by rewrite app_assoc, cr_bytes0.
        -- exists []. by rewrite Hsn.
        -- rewrite Ees. split_and!; try done. 
        -- split; [unfold in_part; simpl; rewrite cr_codec0, cr_mech0; done|]. split; [done|]. split; [done|]. unfold encoder_is_empty, work. simpl. unfold encoder_is_empty. rewrite Hin, Es, Hip.
           split; [done|simpl; lia].
    + destruct (mechanism_ready_spec offered out msgs k co m Hc Est Ees) as (Hc1 & Hi1 & Ho1 & He1 & Hp1 & Hs1 & Hh1). rewrite bind_Done.
      destruct (Hpull (mechanism_ready c m k)) as (more & k' & co' & m' & E & H); try done; [apply null_ready in Est; tauto|].
      exists more, k', co', m'. split; [|done]. rewrite <- E. by destruct (pull_msg_from_session _) as [[x|] k1].
    + rewrite bind_Done. exists false, k, co, m. split_and!; try done. unfold drained. by rewrite Ees.
Qed.

Lemma in_part_codec k k' co : in_part k' = in_part k → ee_codec (cn_eng k) = Some co →
  ∃ enc, ee_codec (cn_eng k') = Some (Codec (co_version co) enc (co_decoder co) (co_msg co) (co_closed co)).
Proof.
  unfold in_part. intros [= _ _ _ _ _ _ _ _ _ _ Hco _ _] E. rewrite E in Hco. destruct (ee_codec (cn_eng k')) as [[v1 enc d x cl]|]; [|done].
  simpl in Hco. injection Hco as -> -> -> ->. by exists enc.
Qed.

Lemma put_encoder_in_part enc co k : ee_codec (cn_eng k) = Some co → in_part (put_encoder enc co k) = in_part k.
Proof. intros E. unfold in_part. simpl. by rewrite E. Qed.

(** The batch: everything there is goes out, or more than nothing. *)
Lemma batch_loop_spec offered fuel first out msgs k co m :
  core offered out msgs k co m → (work k co m < fuel)%nat →
  ∃ out' k' co' m', batch_loop fuel c first out k = Done (out', k') ∧ core offered out' msgs k' co' m' ∧ in_part k' = in_part k ∧ out_part k' = out_part k
    ∧ (ee_handshaking (cn_eng k) = false → ee_handshaking (cn_eng k') = false)
    ∧ (out' = [] → drained k' ∧ encoder_is_empty (co_encoder co') = true).
Proof.
  revert first out k co m. induction fuel as [|fuel IH]; intros first out k co m Hc Hw; [lia|]. cbn [batch_loop]. case_decide as Hlen.
  2: { exists out, k, co, m. split_and!; try done. intros ->. simpl in Hlen. lia. }
  destruct (load_next_spec offered out msgs k co m Hc) as (more & k1 & co1 & m1 & -> & Hc1 & Hi1 & Ho1 & Hh1 & H). rewrite bind_Done. destruct more; simpl.
  2: { exists out, k1, co1, m1. by split_and!. }
  destruct H as [Hne Hw1]. pose proof Hc1 as []. rewrite cr_codec0.
  destruct (ver_encode_spec (co_version co1) (co_encoder co1) (if first then None else Some (out_batch c - Z.of_nat (length out)))) as (bs & enc & -> & Hwf & Hb & Hrem & Hcase);
    [done|destruct first; simpl; lia|]. rewrite bind_Done. set (k2 := put_encoder enc co1 k1). set (co2 := Codec (co_version co1) enc (co_decoder co1) (co_msg co1) (co_closed co1)).
  assert (Hc2 : core offered (out ++ bs) msgs k2 co2 m1).
  { subst k2 co2. split; simpl; try done; [congruence|]. by rewrite <- cr_bytes0, Hrem, <- !app_assoc. }
  assert (Hi2 : in_part k2 = in_part k) by (rewrite <- Hi1; by apply put_encoder_in_part). assert (Ho2 : out_part k2 = out_part k) by done.
  destruct (encoder_is_empty enc) eqn:Ee.
  - destruct (IH false (out ++ bs) k2 co2 m1) as (out' & k' & co' & m' & E & Hc' & Hi' & Ho' & Hh' & Hd'); [done| |].
    { unfold work in *. simpl. rewrite Ee. rewrite Hne in Hw1. lia. }
    exists out', k', co', m'. split_and!; try done; [by rewrite Hi'|by rewrite Ho'|auto].
  - exists (out ++ bs), k2, co2, m1. split_and!; try done. intros [_ ->]%app_eq_nil. destruct Hcase as [[_ [?|Hn]]|Hn]; [done| |].
    + apply bool_decide_eq_false in Hne. done.
    + apply bool_decide_eq_false in Ee. done.
Qed.

(** ** The state of the output as the transport sees it *)

(** Nothing is being written: everything that there was has been written. *)
Definition flushed (k : conn) : Prop :=
  ee_output_stopped (cn_eng k) = true → ee_io_error (cn_eng k) = false →
  ee_out (cn_eng k) = [] ∧ drained k ∧ match ee_codec (cn_eng k) with Some co => encoder_is_empty (co_encoder co) = true | None => True end.

Lemma batch_spec offered msgs k co m :
  core offered (ee_out (cn_eng k)) msgs k co m → ee_out (cn_eng k) = [] →
  ∃ k' co' m', batch c k = Done k' ∧ core offered (ee_out (cn_eng k')) msgs k' co' m' ∧ in_part k' = in_part k ∧ cn_written k' = cn_written k
    ∧ ee_output_stopped (cn_eng k') = ee_output_stopped (cn_eng k)
    ∧ (ee_handshaking (cn_eng k) = false → ee_handshaking (cn_eng k') = false)
    ∧ (ee_out (cn_eng k') = [] → drained k' ∧ encoder_is_empty (co_encoder co') = true).
Proof.
  intros Hc E0. rewrite E0 in Hc. unfold batch.
  destruct (batch_loop_spec offered (length (ss_pending (cn_sess k)) + 4) true [] msgs k co m Hc) as (out & k1 & co1 & m1 & -> & Hc1 & Hi1 & Ho1 & Hh1 & Hd1).
  { unfold work. destruct (nm_ready_command_sent m), (encoder_is_empty (co_encoder co)); lia. }
  rewrite bind_Done. unfold out_part in Ho1. injection Ho1 as Ho1 Ho2 Ho3. eexists _, co1, m1. split; [done|]. split; [destruct Hc1; by split|]. by split_and!.
Qed.

(** [restart_output] and the end of [handle_write], once there is an encoder *)
Lemma restart_output_spec offered msgs k co m :
  core offered (ee_out (cn_eng k)) msgs k co m →
  ∃ k' co' m', restart_output c k = Done k' ∧ core offered (ee_out (cn_eng k')) msgs k' co' m' ∧ in_part k' = in_part k
    ∧ (ee_handshaking (cn_eng k) = false → ee_handshaking (cn_eng k') = false)
    ∧ (ee_output_stopped (cn_eng k) = true → flushed k').
Proof.
  intros Hc. unfold restart_output. destruct (ee_io_error (cn_eng k)) eqn:Eio.
  { exists k, co, m. split_and!; try done. intros _ _ H. congruence. }
  destruct (ee_output_stopped (cn_eng k)) eqn:Eos; simpl; [|by exists k, co, m]. case_decide as E0.
  - rewrite (cr_codec _ _ _ _ _ _ Hc). destruct (batch_spec offered msgs k co m Hc E0) as (k1 & co1 & m1 & -> & Hc1 & Hi1 & Hw1 & Hos1 & Hh1 & Hd1). rewrite bind_Done.
    case_decide as E1.
    + exists k1, co1, m1. split_and!; try done. intros _ _ _. destruct (Hd1 E1). rewrite (cr_codec _ _ _ _ _ _ Hc1). done.
    + assert (Hsw : start_write k1 = with_eng (e_output (ee_out (cn_eng k1)) false) k1).
      { unfold start_write. assert (ee_io_error (cn_eng k1) = false) as ->; [|by rewrite bool_decide_eq_false_2]. unfold in_part in Hi1. injection Hi1 as _ _ _ _ _ _ _ _ _ -> _ _ _. done. }
      rewrite Hsw. eexists _, co1, m1. split; [done|]. split; [destruct Hc1; by split|]. by split_and!.
  - unfold start_write. rewrite Eio, bool_decide_eq_false_2 by done. simpl. eexists _, co, m. split; [done|]. split; [destruct Hc; by split|]. split_and!; try done.
Qed.

Lemma handle_write_spec offered msgs k co m n :
  core offered (ee_out (cn_eng k)) msgs k co m → 
  ∃ k' co' m', handle_write c n k = Done k' ∧ core offered (ee_out (cn_eng k')) msgs k' co' m' ∧ in_part k' = in_part k
    ∧ (ee_handshaking (cn_eng k) = false → ee_handshaking (cn_eng k') = false) ∧ flushed k'.
Proof.
  intros Hc. unfold handle_write. set (k0 := Conn _ _ _ _ _ _).
  assert (Hc0 : core offered (ee_out (cn_eng k0)) msgs k0 co m).
  { subst k0. destruct Hc. split; simpl; try done. rewrite <- cr_bytes0. by rewrite <- !app_assoc, (app_assoc (take n _)), take_drop. }
  case_decide as E0.
  - assert (Hs : ∃ b, start_write k0 = with_eng (e_output (ee_out (cn_eng k0)) b) k0 ∧ (b = true → ee_io_error (cn_eng k0) = true)).
    { unfold start_write. rewrite bool_decide_eq_false_2, orb_false_r by done. destruct (ee_io_error (cn_eng k0)); by eexists. }
    destruct Hs as (b & -> & Hb). eexists _, co, m. split; [done|]. split; [destruct Hc0; by split|]. split_and!; try done.
    unfold flushed. simpl. intros -> Hio. specialize (Hb eq_refl). simpl in Hb. congruence.
  - rewrite (cr_codec _ _ _ _ _ _ Hc).
    destruct (batch_spec offered msgs k0 co m Hc0 E0) as (k1 & co1 & m1 & -> & Hc1 & Hi1 & Hw1 & Hos1 & Hh1 & Hd1). rewrite bind_Done. case_decide as E1.
    + assert (Hs : ∃ b, start_write k1 = with_eng (e_output (ee_out (cn_eng k1)) b) k1 ∧ (b = true → ee_io_error (cn_eng k1) = true)).
      { unfold start_write. rewrite bool_decide_eq_false_2, orb_false_r by done. destruct (ee_io_error (cn_eng k1)); by eexists. }
      destruct Hs as (b & -> & Hb). eexists _, co1, m1. split; [done|]. split; [destruct Hc1; by split|]. split_and!; try done.
      unfold flushed. simpl. intros -> Hio. specialize (Hb eq_refl). simpl in Hb. congruence.
    + rewrite E1 in *. destruct (Hd1 eq_refl) as [Hdr Hem]. eexists _, co1, m1. split; [done|]. split; [simpl; destruct Hc1; by split|].
      split_and!; try done. unfold flushed. simpl. rewrite (cr_codec _ _ _ _ _ _ Hc1). done.
Qed.

(** ** Input *)

(** What the peer sends after its greeting, and the messages that these bytes are. *)
Context (bs : list Z) (allms : list wmsg) (dfin : v2_decoder_t).
Hypothesis (Hmalloc : ∀ n, ec_malloc c n = true) (Hbytes : bytes_ok bs)
  (Hall : ref_bytes (ec_dec c) bs v2_decoder_new = Done (allms, None, dfin)) (Hharm : Forall harmless (tail allms)).

Lemma ref_bytes_cfg cfg1 cfg2 l d : ref_cfg cfg1 = ref_cfg cfg2 → ref_bytes cfg1 l d = ref_bytes cfg2 l d.
Proof.
  intros E. revert d. induction l as [|b l IH]; intros d; [done|]. cbn [ref_bytes]. rewrite E. destruct (dec_steps _ _ _ _) as [[[| |e] d1]| |]; simpl; try done.
  by rewrite IH.
Qed.

(** The bytes not decoded yet, in the engine and in the transport, are the messages [rest]. *)
Definition ahead (data : list Z) (d : v2_decoder_t) (rest : list wmsg) : Prop := ref_bytes (ec_dec c) data (erase d) = Done (rest, None, dfin).

Lemma decode_ahead cfg direct room data tl d rest :
  ref_cfg cfg = ref_cfg (ec_dec c) → dec_wf d → bytes_ok data → data ≠ [] → (direct = true → Z.of_nat (length data) ≤ de_to_read d) → ahead (data ++ tl) d rest →
  ∃ rc n d', decode cfg direct room data d = Done (rc, Z.of_nat n, d') ∧ (0 < n ≤ length data)%nat ∧ dec_wf d'
    ∧ match rc with
      | DGoOn => n = length data ∧ ahead tl d' rest
      | DMsg => ∃ rest', rest = de_in_progress d' :: rest' ∧ ahead (drop n data ++ tl) d' rest'
      | DErr _ => False
      end.
Proof.
  intros Hcfg Hwf Hb Hne Hd Ha. destruct (decode_ref cfg) with (direct := direct) (room := room) (data := data) (d := d) as (rc & n & d' & E & Hn & Hn0 & Hwf' & Hgo & Href); try done.
  { intros x. rewrite <- (Hmalloc x). change (ec_malloc c) with (dc_malloc (ref_cfg (ec_dec c))). by rewrite <- Hcfg. }
  rewrite (ref_bytes_cfg cfg (ec_dec c)) in Href by done. unfold ahead in Ha. rewrite ref_bytes_app, Href in Ha.
  exists rc, n, d'. split; [done|]. split; [auto|]. destruct rc as [| |e]; simpl in Ha.
  - rewrite (Hgo eq_refl), drop_all in Ha. simpl in Ha. split; [done|]. split; [by apply Hgo|]. unfold ahead.
    rewrite <- (ref_bytes_cfg cfg (ec_dec c)) by done. rewrite <- (ref_bytes_cfg cfg (ec_dec c)) in Ha by done.
    by destruct (ref_bytes cfg tl (erase d')) as [[[? ?] ?]| |].
  - split; [done|]. unfold ahead. rewrite ref_bytes_app. rewrite (ref_bytes_cfg cfg (ec_dec c)) in Ha by done.
    destruct (ref_bytes (ec_dec c) (drop n data) (erase d')) as [[[ms1 e1] d1]| |]; simpl in Ha; [|done..]. destruct e1 as [e1|]; [done|]. simpl.
    destruct (ref_bytes (ec_dec c) tl d1) as [[[ms2 e2] d2]| |]; simpl in *; [|done..]. injection Ha as <- -> ->. by eexists.
  - done.
Qed.

(** *** The handshake command of the peer *)

Definition same_base (m m' : mechanism_t) : Prop := me_options m' = me_options m ∧ me_user_id m' = me_user_id m.

Lemma parse_same_base fuel data m rc m' : parse_loop fuel data m = Done (rc, m') → same_base m m'.
Proof.
  revert data m. induction fuel as [|fuel IH]; intros data m H; [done|]. cbn [parse_loop] in H. destruct data as [|n rest]; [by injection H as _ <-|].
  case_decide; [by injection H as _ <-|]. cbv zeta in H. case_decide; [by injection H as _ <-|]. case_decide; [by injection H as _ <-|].
  apply bind_Done_inv in H as (vl & _ & H). case_decide; [by injection H as _ <-|].
  assert (Hp : same_base m (take_property (take (Z.to_nat n) rest) (take (Z.to_nat vl) (drop 4 (drop (Z.to_nat n) rest))) m).2).
  { unfold take_property. destruct (_ && _); [done|]. case_bool_decide; [|done]. by destruct (check_socket_type _ _). }
  destruct (take_property _ _ m) as [[|e] m1]; simpl in Hp; [|by injection H as _ <-]. apply IH in H. destruct H, Hp. split; congruence.
Qed.

Lemma parse_no_eagain fuel data m rc m' : parse_loop fuel data m = Done (rc, m') → rc ≠ RcErr EAGAIN.
Proof.
  revert data m. induction fuel as [|fuel IH]; intros data m H; [done|]. cbn [parse_loop] in H. destruct data as [|n rest]; [by injection H as <- _|].
  assert (Hpe : ∀ n, parse_end n ≠ RcErr EAGAIN) by (clear; intros x; unfold parse_end; by case_decide).
  case_decide; [by injection H as <- _|]. cbv zeta in H. case_decide; [by injection H as <- _|]. case_decide; [by injection H as <- _|].
  apply bind_Done_inv in H as (vl & _ & H). case_decide; [by injection H as <- _|].
  assert (Hp : (take_property (take (Z.to_nat n) rest) (take (Z.to_nat vl) (drop 4 (drop (Z.to_nat n) rest))) m).1 ≠ RcErr EAGAIN).
  { unfold take_property. destruct (_ && _); [done|]. case_bool_decide; [|done]. by destruct (check_socket_type _ _). }
  destruct (take_property _ _ m) as [[|e] m1]; simpl in Hp; [|by injection H as <- _]. by apply IH in H.
Qed.

(** A handshake command that is accepted is the first one; nothing but what was received changes. *)
Lemma null_process_keeps cmd m :
  ∃ rc m', null_process_handshake_command cmd m = Done (rc, m') ∧ same_base (nm_base m) (nm_base m')
    ∧ nm_ready_command_sent m' = nm_ready_command_sent m ∧ nm_error_command_sent m' = nm_error_command_sent m
    ∧ (rc = RcOk → received m = false ∧ received m' = true) ∧ rc ≠ RcErr EAGAIN.
Proof.
  unfold null_process_handshake_command, received. destruct (_ || _) eqn:Er; [by eexists _, _; split_and!|]. destruct (starts_with cmd ready_command_name).
  - unfold process_ready_command, mech_parse_metadata. set (data := drop _ cmd). destruct (parse_total (S (length data)) data (nm_base m)) as (rc & b & E); [lia|].
    rewrite E, bind_Done. eexists _, _. split; [done|]. split; [by eapply parse_same_base|]. split_and!; try done. by eapply parse_no_eagain.
  - destruct (starts_with cmd error_command_name); [|by eexists _, _; split_and!]. unfold process_error_command.
    case_decide as Hl; [by eexists _, _; split_and!|]. destruct (lookup_lt_is_Some_2 cmd (length error_command_name)) as [b Hb]; [simpl in *; lia|].
    unfold geti. rewrite decide_True, Nat2Z.id, Hb, bind_Done by lia. case_decide; eexists _, _; (split; [done|]); split_and!; try done. simpl. by rewrite orb_true_r.
Qed.

(** The state between two messages of the peer, but for what is ahead. *)
Definition in_rest (k : conn) :=
  (cn_alive k, cn_stream k, ss_errors (cn_sess k),
   (ee_greeting (cn_eng k), ee_input (cn_eng k), ee_place (cn_eng k), ee_limit (cn_eng k), ee_reading (cn_eng k), ee_input_stopped (cn_eng k), ee_io_error (cn_eng k)),
   (λ co, (co_version co, co_decoder co)) <$> ee_codec (cn_eng k)).

Lemma in_part_rest k k' : in_part k' = in_part k → in_rest k' = in_rest k.
Proof.
  unfold in_part, in_rest. destruct (ee_codec (cn_eng k)) as [[]|], (ee_codec (cn_eng k')) as [[]|]; simpl; congruence.
Qed.

Lemma in_part_push k k' : in_part k' = in_part k → push_one (ee_process (cn_eng k')) = push_one (ee_process (cn_eng k)).
Proof. unfold in_part. intros [= _ _ _ _ _ _ _ _ _ _ _ _ H]. by destruct (push_one (ee_process (cn_eng k'))), (push_one (ee_process (cn_eng k))). Qed.

(** How a message has been processed. *)
Inductive processed (offered msgs : list wmsg) (x : wmsg) (k : conn) : rc_t → Prop :=
| pr_done co m : core offered (ee_out (cn_eng k)) (msgs ++ [x]) k co m → co_closed co = false → push_one (ee_process (cn_eng k)) = false → processed offered msgs x k RcOk
| pr_full co m y : core offered (ee_out (cn_eng k)) msgs k co m → co_closed co = false → deliver x = Some y → co_msg co = y →
    ee_process (cn_eng k) = PPushOne → ss_room (cn_sess k) = 0%nat → processed offered msgs x k (RcErr EAGAIN)
| pr_refused e : e ≠ EAGAIN → processed offered msgs x k (RcErr e).

Lemma handshake_spec offered msgs k co m x :
  core offered (ee_out (cn_eng k)) msgs k co m → ee_process (cn_eng k) = PHandshake → flushed k → ee_handshaking (cn_eng k) = false →
  ∃ rc k', process_handshake_command c x k = Done (rc, k') ∧ processed offered msgs x k' rc ∧ in_rest k' = in_rest k ∧ ee_handshaking (cn_eng k') = false
    ∧ (rc = RcOk → flushed k').
Proof.
  intros Hc Hp Hfl Hh. pose proof Hc as []. rewrite Hp in cr_phase0. simpl in cr_phase0. destruct cr_phase0 as (_ & Hn & Hpu & Hro & Hrec).
  unfold process_handshake_command. rewrite cr_mech0. destruct (null_process_keeps (wm_data x) m) as (rc & m1 & -> & [Ho Hu] & Hs & He & Hr & Hne). rewrite bind_Done.
  destruct rc as [|e].
  2: { eexists _, _. split; [done|]. split_and!; try done. constructor. congruence. }
  destruct (Hr eq_refl) as [Hr0 Hr1]. rewrite Hr0 in Hrec. subst msgs.
  set (k1 := put_decoded (WMsg 0 []) false (with_eng (e_mech (Some m1)) k)). set (co1 := Codec (co_version co) (co_encoder co) (co_decoder co) (WMsg 0 []) false).
  assert (Hk1 : k1 = with_eng (e_codec (Some co1)) (with_eng (e_mech (Some m1)) k)) by (subst k1; unfold put_decoded; simpl; by rewrite cr_codec0).
  assert (Hc1 : core offered (ee_out (cn_eng k1)) ([] ++ [x]) k1 co1 m1).
  { rewrite Hk1. split; simpl; try done; [congruence|congruence|congruence|by rewrite Hs|]. rewrite Hp. simpl. rewrite Hr1. split_and!; try done. by exists x. }
  assert (Hi1 : in_rest k1 = in_rest k) by (rewrite Hk1; unfold in_rest; simpl; by rewrite cr_codec0).
  assert (Hh1 : ee_handshaking (cn_eng k1) = false) by (by rewrite Hk1). assert (Hp1 : ee_process (cn_eng k1) = PHandshake) by (by rewrite Hk1).
  assert (Hos1 : ee_output_stopped (cn_eng k1) = ee_output_stopped (cn_eng k) ∧ ee_out (cn_eng k1) = ee_out (cn_eng k)) by (by rewrite Hk1).
  assert (Hgo : ∀ k2 co2, core offered (ee_out (cn_eng k2)) ([] ++ [x]) k2 co2 m1 → co_closed co2 = false → in_rest k2 = in_rest k → ee_handshaking (cn_eng k2) = false → push_one (ee_process (cn_eng k2)) = false →
    ∃ rc k', (k3 ← (if ee_output_stopped (cn_eng k2) then restart_output c k2 else Done k2); Done (RcOk, k3)) = Done (rc, k') ∧ processed offered [] x k' rc ∧ in_rest k' = in_rest k
      ∧ ee_handshaking (cn_eng k') = false ∧ (rc = RcOk → flushed k')).
  { intros k2 co2 Hc2 Hcl Hi2 Hh2 Hpo2. destruct (ee_output_stopped (cn_eng k2)) eqn:Eos.
    - destruct (restart_output_spec offered ([] ++ [x]) k2 co2 m1 Hc2) as (k3 & co3 & m3 & -> & Hc3 & Hi3 & Hh3 & Hf3). rewrite bind_Done.
      eexists _, _. split; [done|]. split_and!; try done; [|by rewrite (in_part_rest _ _ Hi3)|auto|auto]. eapply pr_done; [done| |by rewrite (in_part_push _ _ Hi3)].
      destruct (in_part_codec _ _ _ Hi3 (cr_codec _ _ _ _ _ _ Hc2)) as (enc & E). rewrite (cr_codec _ _ _ _ _ _ Hc3) in E. by injection E as ->.
    - rewrite bind_Done. eexists _, _. split; [done|]. split_and!; try done; [by eapply pr_done|]. intros _ H. congruence. }
  destruct (null_status m1) eqn:Est.
  - apply (Hgo k1 co1); try done. by rewrite Hp1.
  - destruct (mechanism_ready_spec offered _ ([] ++ [x]) k1 co1 m1 Hc1 Est) as (Hc2 & Hi2 & Ho2 & He2 & Hpe2 & Hs2 & Hh2); [by rewrite Hp1|].
    apply (Hgo _ co1); [|done|by rewrite (in_part_rest _ _ Hi2)|done|by rewrite (in_part_push _ _ Hi2), Hp1]. unfold out_part in Ho2. injection Ho2 as -> _ _. done.
  - eexists _, _. split; [done|]. split_and!; try done. by constructor.
Qed.

Lemma handshake_no_eagain x k k' : process_handshake_command c x k ≠ Done (RcErr EAGAIN, k').
Proof.
  unfold process_handshake_command. destruct (ee_mech (cn_eng k)) as [m|]; [|done]. destruct (null_process_keeps (wm_data x) m) as (rc & m1 & -> & _ & _ & _ & _ & Hne).
  rewrite bind_Done. destruct rc as [|e]; [|intros [= -> _]; done]. destruct (null_status m1); [| |done].
  all: intros (k1 & _ & ?)%bind_Done_inv; done.
Qed.

(** *** Messages of the peer *)

Definition dropped (m : wmsg) : bool := wm_has m msg_command && negb (wm_is_subscribe m) && negb (wm_is_cancel m).

Lemma flag_cases z : 0 ≤ z < 4 → z = 0 ∨ z = 1 ∨ z = 2 ∨ z = 3.
Proof. lia. Qed.

Lemma deliver_kept x y : harmless x → deliver x = Some y → dropped y = false.
Proof.
  intros [Hf _] H. unfold deliver in H. destruct (wm_has x msg_command) eqn:Ec; [|injection H as <-; unfold dropped; by rewrite Ec].
  destruct (wm_data x) as [|n rest]; [done|]. cbv zeta in H. repeat (case_decide; [try done; injection H as <-|]); [| |done].
  all: unfold dropped, wm_is_subscribe, wm_is_cancel; simpl; destruct (flag_cases _ Hf) as [-> | [-> | [-> | ->]]]; vm_compute; done.
Qed.

Lemma deliver_command x k :
  harmless x → wm_has x msg_command = true →
  ∃ y, process_command_message x k = Done (y, false, k) ∧ (deliver x = Some y ∨ deliver x = None ∧ y = x).
Proof.
  intros [_ Hh] Hc. specialize (Hh Hc). unfold deliver in *. rewrite Hc in *. unfold process_command_message. destruct (wm_data x) as [|n rest]; [by eauto|]. cbv zeta in *.
  case_decide; [by eauto|]. case_decide; [by eauto|]. case_decide; [by eauto|]. destruct Hh as [[? ?]|?]; [done|lia].
Qed.

(** The pipe takes the message, or it is full. *)
Lemma push_spec y k : dropped y = false → ss_pipe (cn_sess k) = true → ss_out_active (cn_sess k) = true →
  ∃ rc k', push_decoded y false k = (rc, k')
    ∧ (rc = RcOk ∧ (∃ room, k' = put_decoded (WMsg 0 []) false (with_sess (Session true room (ss_pushed (cn_sess k) ++ [y]) (ss_pending (cn_sess k)) (ss_errors (cn_sess k)) true) k))
       ∨ rc = RcErr EAGAIN ∧ k' = put_decoded y false (with_sess (Session true 0 (ss_pushed (cn_sess k)) (ss_pending (cn_sess k)) (ss_errors (cn_sess k)) false) k)).
Proof.
  intros Hd Hp Ha. unfold push_decoded, session_push_msg. fold (dropped y). rewrite Hd, Hp, Ha. destruct (ss_room (cn_sess k)) as [|room] eqn:Er; eexists _, _; (split; [done|]); [by right|].
  left. split; [done|]. by exists room.
Qed.

Lemma core_put offered out msgs msgs' k co m x closed s p :
  core offered out msgs k co m → ss_pending s = ss_pending (cn_sess k) → ss_pipe s = true → established (ee_process (cn_eng k)) = true → established p = true → ss_out_active s = negb (push_one p) →
  (∀ r fin, msgs = r :: fin → ss_pushed (cn_sess k) = intro m ++ omap deliver fin → ∃ fin', msgs' = r :: fin' ∧ ss_pushed s = intro m ++ omap deliver fin') →
  let k' := with_eng (λ e, e_fns (ee_next e) p e) (put_decoded x closed (with_sess s k)) in
  let co' := Codec (co_version co) (co_encoder co) (co_decoder co) x closed in
  core offered out msgs' k' co' m ∧ (ss_errors s = ss_errors (cn_sess k) → in_rest k' = in_rest k).
Proof.
  intros [] Hpe Hpi He Hep Hact Hpu. unfold put_decoded. simpl. rewrite cr_codec0. rewrite He in cr_phase0. destruct cr_phase0 as (Hn & Hs & Hp & r & fin & Hm & Hpush).
  split; [|intros Her; unfold in_rest; simpl; by rewrite cr_codec0, Her]. split; simpl; try done; [by rewrite Hpe|]. rewrite Hep. split_and!; try done.
  destruct (Hpu r fin Hm Hpush) as (fin' & -> & ->). by exists r, fin'.
Qed.

Lemma flushed_put k x closed s p :
  flushed k → established (ee_process (cn_eng k)) = true → ss_pending s = ss_pending (cn_sess k) →
  flushed (with_eng (λ e, e_fns (ee_next e) p e) (put_decoded x closed (with_sess s k))).
Proof.
  intros Hf He Hpe. unfold put_decoded. simpl. destruct (ee_codec (cn_eng k)) as [co|] eqn:E; unfold flushed, drained in *; simpl; rewrite E in *; simpl;
    intros H1 H2; destruct (Hf H1 H2) as (? & ? & ?); split_and!; try done; intros _; rewrite Hpe; auto.
Qed.

Lemma with_fns_id k p : ee_process (cn_eng k) = p → with_eng (λ e, e_fns (ee_next e) p e) k = k.
Proof. intros <-. by destruct k as [? [] ? ? ? ?]. Qed.

Lemma put_decoded_process x closed k : ee_process (cn_eng (put_decoded x closed k)) = ee_process (cn_eng k) ∧ ee_handshaking (cn_eng (put_decoded x closed k)) = ee_handshaking (cn_eng k)
  ∧ ee_out (cn_eng (put_decoded x closed k)) = ee_out (cn_eng k).
Proof. unfold put_decoded. by destruct (ee_codec (cn_eng k)). Qed.

(** The pipe is activated for writing. *)
Definition activate (k : conn) : conn :=
  with_sess (Session (ss_pipe (cn_sess k)) (ss_room (cn_sess k)) (ss_pushed (cn_sess k)) (ss_pending (cn_sess k)) (ss_errors (cn_sess k)) true) k.

Lemma activate_id k : ss_out_active (cn_sess k) = true → activate k = k.
Proof. destruct k as [? ? [] ? ? ?]. simpl. by intros ->. Qed.

(** What became of message [x], whose form for the session is [y] if it has one: [k1] is the state after [push_decoded]. *)
Lemma push_processed offered msgs k co m x y p :
  core offered (ee_out (cn_eng k)) msgs k co m → flushed k → ee_handshaking (cn_eng k) = false → established (ee_process (cn_eng k)) = true → established p = true → push_one p = false → harmless x →
  deliver x = Some y ∨ deliver x = None ∧ y = x ∧ wm_has x msg_command = true →
  let '(rc, k1) := push_decoded y false (activate k) in
  (rc = RcOk ∨ rc = RcErr EAGAIN ∧ deliver x = Some y)
  ∧ ∀ k', k' = with_eng (λ e, e_fns (ee_next e) (match rc with RcOk => p | _ => PPushOne end) e) k1 →
      processed offered msgs x k' rc ∧ in_rest k' = in_rest k ∧ ee_handshaking (cn_eng k') = false ∧ flushed k'.
Proof.
  intros Hc Hf Hh He Hep Hpo Hx Hy. pose proof Hc as []. rewrite He in cr_phase0. destruct cr_phase0 as (Hn & Hs & Hp & r & fin & Hm & Hpush).
  assert (Hpc : ∀ z closed s p', let k' := with_eng (λ e, e_fns (ee_next e) p' e) (put_decoded z closed (with_sess s k)) in ee_process (cn_eng k') = p' ∧ ee_handshaking (cn_eng k') = false
    ∧ ee_out (cn_eng k') = ee_out (cn_eng k)).
  { intros z closed s p'. simpl. destruct (put_decoded_process z closed (with_sess s k)) as (_ & H1 & H2). simpl in *. by rewrite H1, H2. }
  destruct Hy as [Hy|(Hy & -> & Hcmd)].
  - destruct (push_spec y (activate k) (deliver_kept x y Hx Hy) Hp eq_refl) as (rc & k1 & -> & H). split; [destruct H as [[-> _]|[-> _]]; auto|]. intros k' ->. destruct H as [[-> (room & ->)]|[-> ->]].
    + set (s1 := Session true room _ _ _ _). change (with_sess s1 (activate k)) with (with_sess s1 k). destruct (Hpc (WMsg 0 []) false s1 p) as (Hp1 & Hh1 & Ho1).
      destruct (core_put offered (ee_out (cn_eng k)) msgs (msgs ++ [x]) k co m (WMsg 0 []) false s1 p Hc) as [Hc1 Hi1]; try done; [by rewrite Hpo|..].
      { intros r' fin' Hm' Hpu'. exists (fin' ++ [x]). rewrite Hm'. split; [done|]. simpl. rewrite Hpu', omap_app. simpl. rewrite Hy. by rewrite app_assoc. }
      split_and!; [|by apply Hi1|done|by apply flushed_put]. eapply pr_done; [by rewrite Ho1|done|by rewrite Hp1, Hpo].
    + set (s1 := Session true 0 _ _ _ _). change (with_sess s1 (activate k)) with (with_sess s1 k). destruct (Hpc y false s1 PPushOne) as (Hp1 & Hh1 & Ho1).
      destruct (core_put offered (ee_out (cn_eng k)) msgs msgs k co m y false s1 PPushOne Hc) as [Hc1 Hi1]; try done; [by eauto|].
      split_and!; [|by apply Hi1|done|by apply flushed_put]. eapply pr_full; [by rewrite Ho1|done..|]. simpl. unfold put_decoded. simpl. by rewrite cr_codec0.
  - assert (Hd : dropped x = true).
    { unfold dropped. rewrite Hcmd. unfold wm_is_subscribe, wm_is_cancel. destruct Hx as [Hfl _]. destruct (flag_cases _ Hfl) as [-> | [-> | [-> | ->]]]; done. }
    assert (Hps : push_decoded x false (activate k) = (RcOk, put_decoded x false (activate k))).
    { unfold push_decoded, session_push_msg. fold (dropped x). by rewrite Hd. }
    rewrite Hps. split; [by left|]. intros k' ->. set (s1 := cn_sess (activate k)). change (activate k) with (with_sess s1 k). destruct (Hpc x false s1 p) as (Hp1 & Hh1 & Ho1).
    destruct (core_put offered (ee_out (cn_eng k)) msgs (msgs ++ [x]) k co m x false s1 p Hc) as [Hc1 Hi1]; try done; [by rewrite Hpo|..].
    { intros r' fin' Hm' Hpu'. exists (fin' ++ [x]). rewrite Hm'. split; [done|]. simpl. rewrite Hpu', omap_app. simpl. rewrite Hy. by rewrite app_nil_r. }
    split_and!; [|by apply Hi1|done|by apply flushed_put]. eapply pr_done; [by rewrite Ho1|done|by rewrite Hp1, Hpo].
Qed.

Lemma decode_and_push_spec offered msgs k co m x :
  core offered (ee_out (cn_eng k)) msgs k co m → flushed k → ee_handshaking (cn_eng k) = false → ee_process (cn_eng k) = PDecodeAndPush → harmless x →
  ∃ rc k', decode_and_push x k = Done (rc, k') ∧ processed offered msgs x k' rc ∧ in_rest k' = in_rest k ∧ ee_handshaking (cn_eng k') = false ∧ flushed k'.
Proof.
  intros Hc Hf Hh Hp Hx. unfold decode_and_push.
  assert (Hy : ∃ y, (if wm_has x msg_command then process_command_message x k else Done (x, false, k)) = Done (y, false, k)
    ∧ (deliver x = Some y ∨ deliver x = None ∧ y = x ∧ wm_has x msg_command = true)).
  { destruct (wm_has x msg_command) eqn:E; [destruct (deliver_command x k Hx E) as (y & H1 & [H2|[H2 H3]]); eauto 10|].
    exists x. split; [done|]. left. unfold deliver. by rewrite E. }
  destruct Hy as (y & -> & Hy). rewrite bind_Done. pose proof (push_processed offered msgs k co m x y PDecodeAndPush Hc Hf Hh) as H. rewrite activate_id in H by (rewrite (cr_active _ _ _ _ _ _ Hc); by rewrite Hp). rewrite Hp in H. specialize (H eq_refl eq_refl eq_refl Hx Hy).
  destruct (push_decoded y false k) as [rc k1] eqn:E. destruct H as [Hrc H]. eexists _, _. split; [done|]. apply H.
  destruct Hrc as [-> | [-> _]]; [|done]. symmetry. apply with_fns_id. rewrite <- Hp. unfold push_decoded in E. destruct (session_push_msg y (cn_sess k)) as [ok s]. destruct ok; simplify_eq.
  exact (proj1 (put_decoded_process _ _ (with_sess s k))).
Qed.

Lemma push_one_spec offered msgs k co m x y :
  core offered (ee_out (cn_eng k)) msgs k co m → flushed k → ee_handshaking (cn_eng k) = false → ee_process (cn_eng k) = PPushOne → harmless x → deliver x = Some y →
  ∃ rc k', push_one_then_decode_and_push y (activate k) = (rc, k') ∧ processed offered msgs x k' rc ∧ in_rest k' = in_rest k ∧ ee_handshaking (cn_eng k') = false ∧ flushed k'.
Proof.
  intros Hc Hf Hh Hp Hx Hy. unfold push_one_then_decode_and_push. pose proof (push_processed offered msgs k co m x y PDecodeAndPush Hc Hf Hh) as H. rewrite Hp in H.
  specialize (H eq_refl eq_refl eq_refl Hx (or_introl Hy)). destruct (push_decoded y false (activate k)) as [rc k1] eqn:E. destruct H as [Hrc H]. eexists _, _. split; [done|]. apply H.
  destruct Hrc as [-> | [-> _]]; [done|]. symmetry. apply with_fns_id. rewrite <- Hp. unfold push_decoded in E. destruct (session_push_msg y (cn_sess (activate k))) as [ok s]. destruct ok; simplify_eq.
  exact (proj1 (put_decoded_process _ _ (with_sess s (activate k)))).
Qed.

Lemma process_spec offered msgs k co m x :
  core offered (ee_out (cn_eng k)) msgs k co m → flushed k → ee_handshaking (cn_eng k) = false → ee_process (cn_eng k) ≠ PPushOne → (msgs ≠ [] → harmless x) →
  ∃ rc k', process_msg c x k = Done (rc, k') ∧ processed offered msgs x k' rc ∧ in_rest k' = in_rest k ∧ ee_handshaking (cn_eng k') = false
    ∧ (rc = RcOk ∨ rc = RcErr EAGAIN → flushed k').
Proof.
  intros Hc Hf Hh Hp Hx. pose proof Hc as []. unfold process_msg. destruct (ee_process (cn_eng k)) eqn:Ep; simpl in cr_phase0; [by destruct cr_phase0| | | |done].
  - destruct (handshake_spec offered msgs k co m x Hc Ep Hf Hh) as (rc & k' & H1 & H2 & H3 & H4 & H5). exists rc, k'. split_and!; try done.
    intros [-> | ->]; [auto|]. inversion H2 as [|co' m' y ? ? ? ? Hpp|]; simplify_eq. exfalso. by eapply handshake_no_eagain.
  - destruct cr_phase0 as (Hn & Hs & Hpi & r & fin & Hm & Hpush). unfold write_credential. rewrite cr_mech0, cr_user0. simpl.
    set (k1 := with_eng _ _). assert (Hc1 : core offered (ee_out (cn_eng k1)) msgs k1 co m) by (split; simpl; try done; split_and!; eauto).
    destruct (decode_and_push_spec offered msgs k1 co m x Hc1) as (rc & k' & H1 & H2 & H3 & H4 & H5); [|done|done|apply Hx; by rewrite Hm|].
    + unfold flushed, drained in *. simpl. rewrite Ep in Hf. done.
    + exists rc, k'. by split_and!.
  - destruct cr_phase0 as (Hn & Hs & Hpi & r & fin & Hm & Hpush).
    destruct (decode_and_push_spec offered msgs k co m x Hc Hf Hh Ep) as (rc & k' & H1 & H2 & H3 & H4 & H5); [apply Hx; by rewrite Hm|]. exists rc, k'. by split_and!.
Qed.

(** *** The loop over the bytes of a read *)

(** An engine after the greeting: [msgs] have been processed, [held] waits for room, the rest is ahead. *)
Record flow (offered msgs held : list wmsg) (k : conn) (co : codec_t) (m : null_mechanism_t) : Prop := {
  fl_core : core offered (ee_out (cn_eng k)) msgs k co m;
  fl_out : flushed k;
  fl_hand : ee_handshaking (cn_eng k) = false;
  fl_alive : cn_alive k = true;
  fl_closed : co_closed co = false;
  fl_wf : dec_wf (co_decoder co);
  fl_bytes : bytes_ok (ee_input (cn_eng k) ++ concat (cn_stream k));
  fl_ahead : ∃ rest, ahead (ee_input (cn_eng k) ++ concat (cn_stream k)) (co_decoder co) rest ∧ allms = msgs ++ held ++ rest;
  fl_place : match ee_place (cn_eng k) with
             | InHandshake => ec_zero_copy c = true → ee_input (cn_eng k) = []
             | InBuffer direct _ => direct = true → Z.of_nat (length (ee_input (cn_eng k))) ≤ de_to_read (co_decoder co)
             end;
}.

(** What the loop leaves. *)
Definition reading_part (k : conn) := (cn_alive k, cn_stream k, ss_errors (cn_sess k), ee_limit (cn_eng k), ee_reading (cn_eng k), ee_input_stopped (cn_eng k), ee_io_error (cn_eng k)).

Lemma in_rest_reading k k' : in_rest k' = in_rest k → reading_part k' = reading_part k.
Proof. unfold in_rest, reading_part. congruence. Qed.

(** One message is decoded, or the bytes are used up. *)
Lemma eng_decode_spec offered msgs k co m :
  flow offered msgs [] k co m → push_one (ee_process (cn_eng k)) = false → ee_input (cn_eng k) ≠ [] →
  ∃ rc k', eng_decode c co k = Done (rc, k') ∧ reading_part k' = reading_part k ∧ push_one (ee_process (cn_eng k')) = false
    ∧ (length (ee_input (cn_eng k')) < length (ee_input (cn_eng k)))%nat
    ∧ match rc with
      | DGoOn => ee_input (cn_eng k') = [] ∧ ∃ co', flow offered msgs [] k' co' m
      | DMsg => ∃ co' x, flow offered msgs [x] k' co' m ∧ co_msg co' = x ∧ ee_codec (cn_eng k') = Some co'
      | DErr _ => False
      end.
Proof.
  intros [Hc Hf Hh Ha Hcl Hwf Hb (rest & Hah & Hms) Hpl] Hpo Hne. apply Forall_app in Hb as [Hb1 Hb2]. unfold eng_decode.
  assert (Hdec : ∃ rc n d', match ee_place (cn_eng k) with
      | InBuffer direct room => decode (ec_dec c) direct room (ee_input (cn_eng k)) (co_decoder co)
      | InHandshake =>
          '(rc, used, d) ← decode (DecCfg false (dc_max_msg_size (ec_dec c)) (ec_malloc c)) false 0 (ee_input (cn_eng k)) (co_decoder co);
          if ec_zero_copy c && size_ready_ran rc d then Undef else Done (rc, used, d)
      end = Done (rc, Z.of_nat n, d') ∧ (0 < n ≤ length (ee_input (cn_eng k)))%nat ∧ dec_wf d'
    ∧ match rc with
      | DGoOn => n = length (ee_input (cn_eng k)) ∧ ahead (concat (cn_stream k)) d' rest
      | DMsg => ∃ rest', rest = de_in_progress d' :: rest' ∧ ahead (drop n (ee_input (cn_eng k)) ++ concat (cn_stream k)) d' rest'
      | DErr _ => False
      end).
  { destruct (ee_place (cn_eng k)) as [|direct room].
    - assert (Hz : ec_zero_copy c = false) by (destruct (ec_zero_copy c); [by specialize (Hpl eq_refl)|done]).
      destruct (decode_ahead (DecCfg false (dc_max_msg_size (ec_dec c)) (ec_malloc c)) false 0 (ee_input (cn_eng k)) (concat (cn_stream k)) (co_decoder co) rest) as (rc & n & d' & -> & H); try done.
      rewrite bind_Done, Hz. simpl. by exists rc, n, d'.
    - by apply (decode_ahead (ec_dec c)). }
  destruct Hdec as (rc & n & d' & -> & Hn & Hwf' & H). rewrite bind_Done, slk_assert_bind by lia. rewrite Hcl. simpl. rewrite Nat2Z.id.
  eexists rc, _. split; [done|]. split; [done|]. split; [done|]. split; [simpl; rewrite length_drop; lia|].
  set (co' := Codec (co_version co) (co_encoder co) d' (de_in_progress d') false).
  assert (Hfl : ∀ held rest', ahead (drop n (ee_input (cn_eng k)) ++ concat (cn_stream k)) d' rest' → allms = msgs ++ held ++ rest' →
    flow offered msgs held (with_eng (λ e, e_input (drop n (ee_input e)) (match ee_place (cn_eng k) with InBuffer _ room => InBuffer false (room - Z.of_nat n) | InHandshake => InHandshake end)
      (ee_limit e) (ee_reading e) (e_codec (Some co') e)) k) co' m).
  { intros held rest' Hah' Hms'. split; simpl; try done.
    - destruct Hc. by split.
    - unfold flushed, drained in *. simpl. by rewrite (cr_codec _ _ _ _ _ _ Hc) in Hf.
    - apply Forall_app. split; [by apply Forall_drop|done].
    - by exists rest'.
    - destruct (ee_place (cn_eng k)); [|done]. intros Hz. by rewrite Hpl, drop_nil. }
  destruct rc as [| |e]; simpl; [| |done].
  - destruct H as [-> H]. split; [apply drop_all|]. exists co'. apply (Hfl [] rest); [by rewrite drop_all|done].
  - destruct H as (rest' & -> & H). exists co', (de_in_progress d'). split; [|done]. apply (Hfl [_] rest'); [done|]. by rewrite Hms.
Qed.

(** How the loop ends. *)
Inductive loop_end (offered : list wmsg) (k : conn) : dec_rc → rc_t → Prop :=
| le_all msgs co m : flow offered msgs [] k co m → ee_input (cn_eng k) = [] → push_one (ee_process (cn_eng k)) = false → loop_end offered k DGoOn RcOk
| le_full msgs x co m : flow offered msgs [x] k co m → ee_process (cn_eng k) = PPushOne → deliver x = Some (co_msg co) → harmless x →
    ss_room (cn_sess k) = 0%nat → loop_end offered k DMsg (RcErr EAGAIN)
| le_refused e : e ≠ EAGAIN → loop_end offered k DMsg (RcErr e).

Lemma in_rest_place k k' : in_rest k' = in_rest k →
  ee_input (cn_eng k') = ee_input (cn_eng k) ∧ ee_place (cn_eng k') = ee_place (cn_eng k) ∧ cn_stream k' = cn_stream k ∧ cn_alive k' = cn_alive k
  ∧ (co_decoder <$> ee_codec (cn_eng k')) = (co_decoder <$> ee_codec (cn_eng k)).
Proof.
  unfold in_rest. destruct (ee_codec (cn_eng k)) as [[]|], (ee_codec (cn_eng k')) as [[]|]; simpl; intros; simplify_eq; by split_and!.
Qed.

(** The message of [flow] has been processed. *)
Lemma flow_processed offered msgs x k co m k' rc :
  flow offered msgs [x] k co m → in_rest k' = in_rest k → ee_handshaking (cn_eng k') = false → (rc = RcOk ∨ rc = RcErr EAGAIN → flushed k') → processed offered msgs x k' rc →
  match rc with
  | RcOk => ∃ co' m', flow offered (msgs ++ [x]) [] k' co' m' ∧ push_one (ee_process (cn_eng k')) = false
  | RcErr e => e = EAGAIN → ∃ co' m', flow offered msgs [x] k' co' m' ∧ ee_process (cn_eng k') = PPushOne ∧ deliver x = Some (co_msg co') ∧ ss_room (cn_sess k') = 0%nat
  end.
Proof.
  intros [] Hi Hh Hf Hp. destruct (in_rest_place _ _ Hi) as (E1 & E2 & E3 & E4 & E5). rewrite (cr_codec _ _ _ _ _ _ fl_core0) in E5.
  destruct Hp as [co' m' Hc Hcl Hpo|co' m' y Hc Hcl Hdl Hmsg Hpo Hr0|e Hne]; [| |done]; rewrite (cr_codec _ _ _ _ _ _ Hc) in E5; simpl in E5; injection E5 as E5.
  - exists co', m'. split; [|done]. split; rewrite ?E1, ?E2, ?E3, ?E4, ?E5; try done; [auto|]. destruct fl_ahead0 as (rest & ? & ->). exists rest. split; [done|]. by rewrite <- app_assoc.
  - intros _. exists co', m'. split; [|by rewrite Hmsg]. split; rewrite ?E1, ?E2, ?E3, ?E4, ?E5; try done. auto.
Qed.

Lemma flow_harmless offered msgs x k co m : flow offered msgs [x] k co m → msgs ≠ [] → harmless x.
Proof.
  intros [] Hne. destruct fl_ahead0 as (rest & _ & E). pose proof Hharm as Hh. rewrite E in Hh. destruct msgs as [|r msgs]; [done|]. simpl in Hh.
  apply Forall_app in Hh as [_ Hh]. by apply Forall_cons in Hh as [? _].
Qed.

Lemma eng_read_spec fuel offered msgs k co m :
  flow offered msgs [] k co m → push_one (ee_process (cn_eng k)) = false → (length (ee_input (cn_eng k)) < fuel)%nat →
  ∃ rc prc k', eng_read_loop fuel c k = Done (rc, prc, k') ∧ loop_end offered k' rc prc ∧ reading_part k' = reading_part k.
Proof.
  revert msgs k co m. induction fuel as [|fuel IH]; intros msgs k co m Hfl Hpo Hlen; [lia|]. cbn [eng_read_loop].
  destruct (ee_input (cn_eng k)) as [|b0 l] eqn:Ein; [eexists _, _, k; split; [done|]; split; [by eapply le_all|done]|].
  assert (Hne : ee_input (cn_eng k) ≠ []) by (by rewrite Ein). rewrite (cr_codec _ _ _ _ _ _ (fl_core _ _ _ _ _ _ Hfl)).
  destruct (eng_decode_spec offered msgs k co m Hfl Hpo Hne) as (rc & k1 & -> & Hr1 & Hpo1 & Hl1 & H). rewrite bind_Done. destruct rc as [| |e]; [| |done].
  { destruct H as [H0 (co' & Hfl')]. eexists _, _, k1. split; [done|]. split; [by eapply le_all|done]. }
  destruct H as (co1 & x & Hfl1 & Hx & Hco1). rewrite Hco1, Hx.
  destruct (process_spec offered msgs k1 co1 m x) as (prc & k2 & -> & Hpr & Hi2 & Hh2 & Hf2).
  - apply Hfl1.
  - apply Hfl1.
  - apply Hfl1.
  - intros E. by rewrite E in Hpo1.
  - by eapply flow_harmless.
  - rewrite bind_Done. pose proof (flow_processed _ _ _ _ _ _ _ _ Hfl1 Hi2 Hh2 Hf2 Hpr) as Hnext. pose proof (in_rest_reading _ _ Hi2) as Hr2. destruct prc as [|e].
    + destruct Hnext as (co2 & m2 & Hfl2 & Hpo2). destruct (IH (msgs ++ [x]) k2 co2 m2 Hfl2 Hpo2) as (rc & prc & k3 & -> & Hle & Hr3).
      { destruct (in_rest_place _ _ Hi2) as (-> & _). rewrite ?Ein in *. lia. }
      eexists _, _, k3. split; [done|]. split; [done|]. by rewrite Hr3, Hr2.
    + eexists _, _, k2. split; [done|]. split; [|by rewrite Hr2]. destruct (decide (e = EAGAIN)) as [->|He]; [|by constructor].
      destruct (Hnext eq_refl) as (co2 & m2 & Hfl2 & Hpp & Hd & Hr0). eapply le_full; [done|done|done| |done]. inversion Hpr; simplify_eq.
      eapply flow_harmless; [done|]. intros ->. pose proof (cr_phase _ _ _ _ _ _ (fl_core _ _ _ _ _ _ Hfl2)) as Hph. rewrite Hpp in Hph. simpl in Hph. naive_solver.
Qed.

(** ** Every step *)

(** An engine after the greeting, between two calls. *)
Inductive streaming (offered : list wmsg) (k : conn) : Prop :=
| st_reads msgs co m : flow offered msgs [] k co m → ee_input_stopped (cn_eng k) = false → ee_input (cn_eng k) = [] → push_one (ee_process (cn_eng k)) = false →
    ee_reading (cn_eng k) = true → 0 < ee_limit (cn_eng k) →
    (∃ direct room, ee_place (cn_eng k) = InBuffer direct room ∧ (direct = true → ee_limit (cn_eng k) ≤ de_to_read (co_decoder co))) → streaming offered k
| st_waits msgs x co m : flow offered msgs [x] k co m → ee_input_stopped (cn_eng k) = true → ee_reading (cn_eng k) = false → ee_process (cn_eng k) = PPushOne →
    deliver x = Some (co_msg co) → harmless x → streaming offered k.

Lemma start_read_spec offered msgs k co m :
  flow offered msgs [] k co m → ee_input_stopped (cn_eng k) = false → ee_input (cn_eng k) = [] → push_one (ee_process (cn_eng k)) = false → ee_io_error (cn_eng k) = false →
  streaming offered (start_read c k) ∧ ee_io_error (cn_eng (start_read c k)) = false ∧ cn_alive (start_read c k) = true.
Proof.
  intros [] Hst Hin Hpo Hio. unfold start_read. rewrite Hst, Hio, (cr_codec _ _ _ _ _ _ fl_core0). simpl. unfold dec_get_buffer. set (d := V2Decoder _ _ _ _ _ 0).
  set (co' := Codec (co_version co) (co_encoder co) d (co_msg co) (co_closed co)).
  assert (Hfl : ∀ direct room limit, flow offered msgs [] (with_eng (λ e, e_input [] (InBuffer direct room) limit true (e_codec (Some co') e)) k) co' m).
  { intros direct room limit. split; simpl; try done.
    - destruct fl_core0. by split.
    - unfold flushed, drained in *. simpl. by rewrite (cr_codec _ _ _ _ _ _ fl_core0) in fl_out0.
    - by apply Forall_app in fl_bytes0 as [_ ?].
    - by rewrite Hin in fl_ahead0.
    - intros _. destruct fl_wf0 as (_ & ? & _). simpl. lia. }
  case_decide; (split; [|done]); (eapply st_reads; [apply Hfl|done|done|done|done|simpl; lia|]); eexists _, _; (split; [reflexivity|]); simpl; done.
Qed.

Lemma flow_more_room offered msgs held k co m n :
  flow offered msgs held k co m →
  flow offered msgs held (with_sess (Session (ss_pipe (cn_sess k)) (ss_room (cn_sess k) + n) (ss_pushed (cn_sess k)) (ss_pending (cn_sess k)) (ss_errors (cn_sess k)) (ss_out_active (cn_sess k))) k) co m.
Proof.
  intros []. split; simpl; try done. destruct fl_core0. split; simpl; try done. destruct (established (ee_process (cn_eng k))); [done|].
  destruct cr_phase0 as (? & ? & ? & Hr & ?). split_and!; try done. intros Hp. specialize (Hr Hp). lia.
Qed.

(** The next bytes of the stream have been read. *)
Lemma read_bytes_spec offered k n seg segs :
  streaming offered k → ee_reading (cn_eng k) = true → cn_stream k = seg :: segs → take n seg ≠ [] → Z.of_nat (length (take n seg)) ≤ ee_limit (cn_eng k) →
  ∃ msgs co m, flow offered msgs []
    (with_eng (λ e, e_input (take n seg) (ee_place e) (ee_limit e) false e)
       (Conn (cn_alive k) (cn_eng k) (cn_sess k) (match drop n seg with [] => segs | seg => seg :: segs end) (cn_written k) (cn_sent k))) co m
    ∧ push_one (ee_process (cn_eng k)) = false ∧ ee_input_stopped (cn_eng k) = false.
Proof.
  intros Hst Hrd Hs Hne Hlim. destruct Hst as [msgs co m [] Hns Hin Hpo _ _ Hpl|? ? ? ? ? ? Hr]; [|congruence].
  assert (Hcat : take n seg ++ concat (match drop n seg with [] => segs | seg => seg :: segs end) = concat (cn_stream k)).
  { rewrite Hs. simpl. rewrite <- (take_drop n seg) at 3. rewrite <- app_assoc. f_equal. by destruct (drop n seg). }
  exists msgs, co, m. split; [|done]. rewrite Hin in *. split; simpl; try done.
  - destruct fl_core0. by split.
  - by rewrite Hcat.
  - by rewrite Hcat.
  - destruct Hpl as (direct & room & -> & Hd). intros ->. specialize (Hd eq_refl). lia.
Qed.

(** What is left when the loop over the bytes has ended. *)
Lemma after_loop offered k rc prc :
  loop_end offered k rc prc → ee_io_error (cn_eng k) = false → ee_reading (cn_eng k) = false → cn_alive k = true →
  match rc, prc with
  | DErr _, _ => False
  | _, RcErr e => e = EAGAIN → streaming offered (with_eng (e_input_stopped true) k) ∧ (ee_input_stopped (cn_eng k) = true → streaming offered k) ∧ ss_room (cn_sess k) = 0%nat
  | _, RcOk => let k' := start_read c (with_eng (e_input_stopped false) k) in streaming offered k' ∧ ee_io_error (cn_eng k') = false ∧ cn_alive k' = true
  end.
Proof.
  intros H Hio Hrd Hal. destruct H as [msgs co m Hf Hin Hpo|msgs x co m Hf Hpp Hd Hx Hr0|e He]; [| |done].
  - apply (start_read_spec offered msgs _ co m); simpl; try done. destruct Hf as [[]]. split; simpl; done.
  - intros _. split; [|split; [intros Hs; by eapply st_waits|done]]. eapply (st_waits _ _ msgs x co m); simpl; try done. destruct Hf as [[]]. split; simpl; done.
Qed.

(** The session has been told of the end. *)
Lemma eng_error_ok reason k : ee_io_error (cn_eng k) = false → ss_errors (cn_sess k) = [] → cn_alive (eng_error c reason k) = false ∧ ∃ r, ss_errors (cn_sess (eng_error c reason k)) = [r].
Proof.
  intros Hio He. unfold eng_error. rewrite Hio. simpl. split; [done|]. eexists. set (s := if _ && _ then _ else _). assert (Hs : ss_errors s = []); [|by rewrite Hs].
  subst s. destruct (_ && _); [|done]. unfold session_push_msg, session_rollback. destruct (cn_sess k) as [[] [|room] pu pe er []]; done.
Qed.

(** A step of the output does not touch the input. *)
Lemma streaming_output offered offered' k op :
  streaming offered k →
  (∀ msgs co m, core offered (ee_out (cn_eng k)) msgs k co m → flushed k →
     ∃ k' co' m', op = Done k' ∧ core offered' (ee_out (cn_eng k')) msgs k' co' m' ∧ in_part k' = in_part k
       ∧ (ee_handshaking (cn_eng k) = false → ee_handshaking (cn_eng k') = false) ∧ flushed k') →
  ∃ k', op = Done k' ∧ streaming offered' k' ∧ cn_alive k' = cn_alive k ∧ ee_io_error (cn_eng k') = ee_io_error (cn_eng k)
    ∧ ss_errors (cn_sess k') = ss_errors (cn_sess k)
    ∧ ee_input_stopped (cn_eng k') = ee_input_stopped (cn_eng k) ∧ (ee_input_stopped (cn_eng k) = false ∨ ss_room (cn_sess k') = ss_room (cn_sess k)).
Proof.
  intros Hst Hop.
  assert (Hflow : ∀ msgs held co m, flow offered msgs held k co m → ∃ k' co' m', op = Done k' ∧ flow offered' msgs held k' co' m' ∧ in_part k' = in_part k
    ∧ co_decoder co' = co_decoder co ∧ co_msg co' = co_msg co).
  { intros msgs held co m []. destruct (Hop msgs co m fl_core0 fl_out0) as (k' & co' & m' & Ho & Hc & Hi & Hh & Hf). exists k', co', m'. split; [done|].
    destruct (in_part_codec _ _ _ Hi (cr_codec _ _ _ _ _ _ fl_core0)) as (enc & Eco). rewrite (cr_codec _ _ _ _ _ _ Hc) in Eco. injection Eco as ->. split; [|done].
    pose proof Hi as Hi'. unfold in_part in Hi'. injection Hi' as E1 E2 _ _ E3 E4 _ _ _ _ _ _ _. split; simpl; rewrite ?E1, ?E2, ?E3, ?E4; auto. }
  destruct Hst as [msgs co m Hf Hns Hin Hpo Hre Hli Hpl|msgs x co m Hf Hns Hrd Hpp Hd Hx]; destruct (Hflow _ _ _ _ Hf) as (k' & co' & m' & Ho & Hf' & Hi & Hde & Hmsg);
    exists k'; (split; [done|]); pose proof (in_part_push _ _ Hi) as Hpu; unfold in_part in Hi; injection Hi as E1 E2 E9 _ E3 E4 E5 E6 E7 E8 _ _ E10.
  - split; [|by rewrite E7, Hns; split_and!; try done; left]. eapply st_reads; rewrite ?E3, ?E4, ?E5, ?E6, ?E7, ?Hde, ?Hpu; done.
  - rewrite Hpu, Hpp in E10. simpl in E10. injection E10 as E10. split; [|split_and!; try done; by right].
    eapply st_waits; rewrite ?E6, ?E7, ?Hmsg; try done. rewrite Hpp in Hpu. by destruct (ee_process (cn_eng k')).
Qed.

Lemma restart_flushed offered msgs k co m :
  core offered (ee_out (cn_eng k)) msgs k co m →
  ∃ k' co' m', restart_output c k = Done k' ∧ core offered (ee_out (cn_eng k')) msgs k' co' m' ∧ in_part k' = in_part k
    ∧ (ee_handshaking (cn_eng k) = false → ee_handshaking (cn_eng k') = false) ∧ flushed k'.
Proof.
  intros Hc. destruct (ee_output_stopped (cn_eng k)) eqn:Eos.
  - destruct (restart_output_spec offered msgs k co m Hc) as (k' & co' & m' & H1 & H2 & H3 & H4 & H5). exists k', co', m'. split_and!; auto.
  - exists k, co, m. split_and!; try done; [|intros H; congruence]. unfold restart_output. rewrite Eos. by destruct (ee_io_error (cn_eng k)).
Qed.

(** A message is added to those of the session. *)
Lemma send_spec offered x msgs k co m :
  core offered (ee_out (cn_eng k)) msgs k co m →
  core (offered ++ [x]) (ee_out (cn_eng k)) msgs
    (with_sess (Session (ss_pipe (cn_sess k)) (ss_room (cn_sess k)) (ss_pushed (cn_sess k)) (ss_pending (cn_sess k) ++ [x]) (ss_errors (cn_sess k)) (ss_out_active (cn_sess k))) k) co m.
Proof.
  intros []. split; simpl; try done. destruct (nm_ready_command_sent m); [destruct cr_sent0 as (pulled & ? & <-); exists pulled; by rewrite app_assoc|].
  destruct cr_sent0 as [? <-]. done.
Qed.

(** ** The greeting *)

Context (g : list Z).
Hypothesis (Hglen : length g = v3_greeting_size) (Hg0 : nth 0 g 0 = 255) (Hg9 : Z.land (nth 9 g 0) 1 ≠ 0) (Hgv : select_handshake_fun false (nth 10 g 0) (nth 11 g 0) = HV3 v)
  (Hgm : take 20 (drop 12 g) = null_greeting).

(** [rest] is the part of the greeting of the peer that has not been read. With zero-copy, a read must not go beyond the greeting. *)
Definition greeting_ahead (rest : list Z) (stream : list (list Z)) : Prop :=
  concat stream = rest ++ bs ∧ (ec_zero_copy c = true → ∃ s1 s2, stream = s1 ++ s2 ∧ concat s1 = rest).

Record greet (offered : list wmsg) (k : conn) : Prop := {
  gr_codec : ee_codec (cn_eng k) = None;
  gr_hand : ee_handshaking (cn_eng k) = true;
  gr_process : ee_process (cn_eng k) = PRoutingId;
  gr_sent : cn_sent k = [];
  gr_bytes : cn_written k ++ ee_out (cn_eng k) = greeting_send;
  gr_pending : ss_pending (cn_sess k) = offered;
  gr_pushed : ss_pushed (cn_sess k) = [];
  gr_active : ss_out_active (cn_sess k) = true;
  gr_room : ss_pipe (cn_sess k) = true → (2 ≤ ss_room (cn_sess k))%nat;
  gr_input : ee_input_stopped (cn_eng k) = false;
  gr_read : ee_reading (cn_eng k) = true ∧ 0 < ee_limit (cn_eng k);
  gr_place : ee_place (cn_eng k) = InHandshake;
  gr_out : ee_output_stopped (cn_eng k) = true → ee_out (cn_eng k) = [];
  gr_rest : ∃ rest, rest ≠ [] ∧ ee_greeting (cn_eng k) ++ rest = g ∧ greeting_ahead rest (cn_stream k);
}.

(** What a read leaves of the greeting. *)
Lemma greeting_read rest n seg segs :
  greeting_ahead rest (seg :: segs) → rest ≠ [] →
  let bytes := take n seg in let stream := match drop n seg with [] => segs | seg => seg :: segs end in
  bytes = take (length rest) bytes ++ drop (length rest) bytes
  ∧ ∃ rest', rest = take (length rest) bytes ++ rest' ∧
    if decide (length bytes < length rest)%nat then rest' ≠ [] ∧ take (length rest) bytes = bytes ∧ greeting_ahead rest' stream
    else rest' = [] ∧ drop (length rest) bytes ++ concat stream = bs ∧ (ec_zero_copy c = true → drop (length rest) bytes = []).
Proof.
  intros [Hcat Hz] Hne. cbv zeta. split; [by rewrite take_drop|]. simpl in Hcat. set (stream := match drop n seg with [] => segs | _ :: _ => _ end).
  assert (Hst : take n seg ++ concat stream = rest ++ bs).
  { rewrite <- Hcat. rewrite <- (take_drop n seg) at 2. rewrite <- app_assoc. f_equal. subst stream. by destruct (drop n seg). }
  assert (Hzs : ec_zero_copy c = true → (length (take n seg) ≤ length rest)%nat ∧ ∃ s1 s2, stream = s1 ++ s2 ∧ concat s1 = drop (length (take n seg)) rest).
  { intros Hzc. destruct (Hz Hzc) as (s1 & s2 & Es & Er). destruct s1 as [|seg1 s1]; [by subst rest|]. simpl in Es. injection Es as <- ->. simpl in Er. split.
    - rewrite <- Er, length_app, length_take. lia.
    - subst stream. exists (match drop n seg with [] => s1 | seg => seg :: s1 end), s2. split; [by destruct (drop n seg)|].
      rewrite <- Er. rewrite <- (take_drop n seg) at 3. rewrite <- app_assoc, drop_app_length. by destruct (drop n seg). }
  case_decide as Hl.
  - exists (drop (length (take n seg)) rest). rewrite (take_ge (take n seg)) by lia.
    assert (Hpre : rest = take n seg ++ drop (length (take n seg)) rest).
    { rewrite <- (take_drop (length (take n seg)) rest) at 1. f_equal. apply (f_equal (take (length (take n seg)))) in Hst. rewrite take_app_length, take_app_le in Hst by lia. done. }
    split; [done|]. split; [intros E; apply (f_equal length) in E; rewrite length_drop in E; simpl in E; lia|]. split; [done|]. split; [|intros Hzc; by apply Hzs].
    rewrite Hpre, <- app_assoc in Hst. by apply app_inv_head in Hst.
  - exists []. rewrite app_nil_r.
    assert (Hpre : take (length rest) (take n seg) = rest).
    { apply (f_equal (take (length rest))) in Hst. rewrite take_app_length, take_app_le in Hst by lia. done. }
    split; [done|]. split; [done|]. split.
    + rewrite <- (take_drop (length rest) (take n seg)), Hpre, <- app_assoc in Hst. by apply app_inv_head in Hst.
    + intros Hzc. destruct (Hzs Hzc) as [Hle _]. apply drop_ge. lia.
Qed.

(** ** Every action *)

Definition conn_ok (offered : list wmsg) (k : conn) : Prop :=
  if cn_alive k then ee_io_error (cn_eng k) = false ∧ ss_errors (cn_sess k) = [] ∧ (ee_input_stopped (cn_eng k) = true → ss_room (cn_sess k) = 0%nat)
    ∧ (greet offered k ∨ streaming offered k)
  else ∃ r, ss_errors (cn_sess k) = [r].

Lemma error_conn_ok offered reason k : ee_io_error (cn_eng k) = false → ss_errors (cn_sess k) = [] → conn_ok offered (eng_error c reason k).
Proof. intros Hio He. destruct (eng_error_ok reason k Hio He) as [Ha H]. unfold conn_ok. by rewrite Ha. Qed.

Lemma streaming_alive offered k : streaming offered k → cn_alive k = true.
Proof. by intros [? ? ? [] |? ? ? ? []]. Qed.

Lemma streaming_ok offered k :
  streaming offered k → ee_io_error (cn_eng k) = false → ss_errors (cn_sess k) = [] → (ee_input_stopped (cn_eng k) = true → ss_room (cn_sess k) = 0%nat) → conn_ok offered k.
Proof. intros Hs ? ? ?. unfold conn_ok. rewrite (streaming_alive offered k Hs). auto. Qed.

Lemma streaming_output_ok offered k k' :
  ee_io_error (cn_eng k) = false → ss_errors (cn_sess k) = [] → (ee_input_stopped (cn_eng k) = true → ss_room (cn_sess k) = 0%nat) →
  streaming offered k' → ee_io_error (cn_eng k') = ee_io_error (cn_eng k) → ss_errors (cn_sess k') = ss_errors (cn_sess k) →
  ee_input_stopped (cn_eng k') = ee_input_stopped (cn_eng k) ∧ (ee_input_stopped (cn_eng k) = false ∨ ss_room (cn_sess k') = ss_room (cn_sess k)) → conn_ok offered k'.
Proof. intros H1 H2 H3 H4 H5 H6 [H7 H8]. apply streaming_ok; [done|congruence|congruence|]. rewrite H7. intros E. destruct H8 as [|H8]; [congruence|]. rewrite H8. auto. Qed.

Lemma start_read_keeps k : cn_sess (start_read c k) = cn_sess k ∧ ee_input_stopped (cn_eng (start_read c k)) = ee_input_stopped (cn_eng k).
Proof. unfold start_read. destruct (_ || _); [done|]. destruct (ee_codec (cn_eng k)); [|done]. by destruct (dec_get_buffer _ _) as [[]]. Qed.

(** The messages in the bytes of a read, and what follows. *)
Lemma loop_ok offered msgs k co m :
  flow offered msgs [] k co m → push_one (ee_process (cn_eng k)) = false → ee_io_error (cn_eng k) = false → ee_reading (cn_eng k) = false → ss_errors (cn_sess k) = [] →
  (ee_input_stopped (cn_eng k) = false → ∃ k', ('(rc, prc, k) ← eng_read_loop (S (length (ee_input (cn_eng k)))) c k;
     match rc, prc with
     | DErr _, _ => Done (eng_error c protocol_error k)
     | _, RcErr e => if decide (e = EAGAIN) then Done (with_eng (e_input_stopped true) k) else Done (eng_error c protocol_error k)
     | _, RcOk => Done (start_read c k)
     end) = Done k' ∧ conn_ok offered k')
  ∧ (ee_input_stopped (cn_eng k) = true → ∃ k', ('(_, prc, k) ← eng_read_loop (S (length (ee_input (cn_eng k)))) c k;
     match prc with
     | RcErr e => if decide (e = EAGAIN) then Done k else Done (eng_error c protocol_error k)
     | RcOk => Done (start_read c (with_eng (e_input_stopped false) k))
     end) = Done k' ∧ conn_ok offered k').
Proof.
  intros Hf Hpo Hio Hrd Her. destruct (eng_read_spec (S (length (ee_input (cn_eng k)))) offered msgs k co m Hf Hpo) as (rc & prc & k1 & -> & Hle & Hr); [lia|]. rewrite !bind_Done.
  unfold reading_part in Hr. injection Hr as E1 E2 E3 E4 E5 E6 E7. rewrite Hio in E7. rewrite Hrd in E5. rewrite Her in E3. rewrite (fl_alive _ _ _ _ _ _ Hf) in E1.
  pose proof (after_loop offered k1 rc prc Hle E7 E5 E1) as Hal.
  assert (Hok : ∀ b, ee_input_stopped (cn_eng k) = b → prc = RcOk → conn_ok offered (start_read c (with_eng (e_input_stopped false) k1))).
  { intros b Hb ->. assert (Hst : let k' := start_read c (with_eng (e_input_stopped false) k1) in streaming offered k' ∧ ee_io_error (cn_eng k') = false ∧ cn_alive k' = true) by (by destruct rc).
    cbv zeta in Hst. destruct Hst as (H1 & H2 & H3). destruct (start_read_keeps (with_eng (e_input_stopped false) k1)) as [Hs4 Hs5].
    apply streaming_ok; [done|done|by rewrite Hs4|by rewrite Hs5]. }
  split; intros Hb.
  - assert (Hid : with_eng (e_input_stopped false) k1 = k1) by (rewrite Hb in E6; destruct k1 as [? [] ? ? ? ?]; simpl in E6; by subst). destruct prc as [|e].
    + specialize (Hok _ Hb eq_refl). rewrite Hid in Hok. destruct rc; [by eexists|by eexists|done].
    + destruct rc; [| |done]; (case_decide as He; [destruct (Hal He) as (? & ? & ?); eexists; split; [done|]; by apply streaming_ok|eexists; split; [done|]; by apply error_conn_ok]).
  - destruct prc as [|e]; [eexists; split; [done|]; by apply (Hok true)|].
    assert (Hal' : e = EAGAIN → streaming offered k1 ∧ ss_room (cn_sess k1) = 0%nat).
    { intros He. rewrite <- E6 in Hb. destruct rc; [| |done]; destruct (Hal He) as (_ & ? & ?); auto. }
    case_decide as He; eexists; (split; [done|]); [destruct (Hal' He); by apply streaming_ok|by apply error_conn_ok].
Qed.

Lemma streaming_read offered k n seg segs :
  streaming offered k → ee_io_error (cn_eng k) = false → ss_errors (cn_sess k) = [] → ee_reading (cn_eng k) = true → cn_stream k = seg :: segs → take n seg ≠ [] →
  Z.of_nat (length (take n seg)) ≤ ee_limit (cn_eng k) →
  ∃ k', handle_read c (take n seg) (Conn (cn_alive k) (cn_eng k) (cn_sess k) (match drop n seg with [] => segs | seg => seg :: segs end) (cn_written k) (cn_sent k)) = Done k' ∧ conn_ok offered k'.
Proof.
  intros Hst Hio Her Hrd Hs Hne Hlim. destruct (read_bytes_spec offered k n seg segs Hst Hrd Hs Hne Hlim) as (msgs & co & m & Hf & Hpo & Hns). unfold handle_read. set (k1 := with_eng _ _).
  change (flow offered msgs [] k1 co m) in Hf. rewrite (fl_hand _ _ _ _ _ _ Hf), bind_Done, (fl_alive _ _ _ _ _ _ Hf), (fl_hand _ _ _ _ _ _ Hf), (cr_codec _ _ _ _ _ _ (fl_core _ _ _ _ _ _ Hf)).
  simpl negb. cbv iota. by apply (loop_ok offered msgs k1 co m).
Qed.

(** The greeting of the peer is complete. *)
Lemma run_handshake_spec offered k :
  ee_greeting (cn_eng k) = g → cn_alive k = true → cn_sent k = [] → cn_written k ++ ee_out (cn_eng k) = greeting_send → ss_pending (cn_sess k) = offered → ss_pushed (cn_sess k) = [] →
  (ss_pipe (cn_sess k) = true → (2 ≤ ss_room (cn_sess k))%nat) → ss_out_active (cn_sess k) = true → (ee_output_stopped (cn_eng k) = true → ee_out (cn_eng k) = []) → ee_io_error (cn_eng k) = false →
  ∃ k' co' m', run_handshake c (HV3 v) k = Done (true, k') ∧ core offered (ee_out (cn_eng k')) [] k' co' m' ∧ flushed k' ∧ push_one (ee_process (cn_eng k')) = false
    ∧ co_decoder co' = v2_decoder_new ∧ co_closed co' = false ∧ cn_alive k' = true ∧ cn_stream k' = cn_stream k ∧ ss_errors (cn_sess k') = ss_errors (cn_sess k)
    ∧ ee_input (cn_eng k') = ee_input (cn_eng k) ∧ ee_place (cn_eng k') = ee_place (cn_eng k) ∧ ee_reading (cn_eng k') = ee_reading (cn_eng k)
    ∧ ee_input_stopped (cn_eng k') = ee_input_stopped (cn_eng k) ∧ ee_io_error (cn_eng k') = false.
Proof.
  intros Hg Hal Hsn Hby Hpe Hpu Hro Hact Hos Hio. unfold run_handshake. cbn [with_eng cn_eng ee_greeting e_codec]. rewrite Hg, decide_True by done.
  set (co := Codec v (encoder_new (out_batch c)) v2_decoder_new (WMsg 0 []) false). set (m := null_new _ _). set (k1 := with_eng _ _).
  assert (Hc : core offered (ee_out (cn_eng k1)) [] k1 co m).
  { destruct (ver_wf_new v (out_batch c)) as [Hwf Hrem]. split; simpl; try done. by rewrite Hrem, Hsn, !app_nil_r. }
  destruct (restart_flushed offered [] k1 co m Hc) as (k2 & co2 & m2 & -> & Hc2 & Hi2 & Hh2 & Hf2). rewrite bind_Done. exists k2, co2, m2. split; [done|]. split; [done|]. split; [done|].
  split; [by rewrite (in_part_push _ _ Hi2)|]. destruct (in_part_codec _ _ _ Hi2 (cr_codec _ _ _ _ _ _ Hc)) as (enc & Eco). rewrite (cr_codec _ _ _ _ _ _ Hc2) in Eco. injection Eco as ->.
  unfold in_part in Hi2. injection Hi2 as E1 E2 E3 _ E4 E5 _ E6 E7 E8 _ _ _. simpl in *. split_and!; congruence.
Qed.

(** Part of the greeting of the peer. *)
Lemma greeting_prefix l rest : l ++ rest = g → rest ≠ [] → l ≠ [] → ∀ k, ee_greeting (cn_eng k) = l → process_greeting c k = Done (false, k).
Proof.
  intros Hg Hr Hl k Hk. unfold process_greeting. rewrite Hk. destruct l as [|b l]; [done|].
  assert (Hnth : ∀ i, (i < length (b :: l))%nat → nth i (b :: l) 0 = nth i g 0) by (intros i Hi; rewrite <- Hg; by rewrite app_nth1).
  rewrite decide_False; [|intros H; apply H; specialize (Hnth 0%nat); simpl in Hnth; rewrite Hnth by lia; done].
  rewrite decide_False; [|intros [H1 H2]; apply Hg9; rewrite <- Hnth; [done|unfold signature_size in H1; lia]].
  rewrite decide_True; [done|]. rewrite <- Hglen, <- Hg, length_app. destruct rest; [done|]. simpl. lia.
Qed.

Lemma greeting_whole k : ee_greeting (cn_eng k) = g → process_greeting c k = run_handshake c (HV3 v) k.
Proof.
  intros Hk. unfold process_greeting. rewrite Hk, Hgv, Hglen. destruct g as [|b l] eqn:E; [done|]. rewrite <- E in *.
  rewrite decide_False; [|intros H; apply H; by rewrite <- Hg0, E]. rewrite decide_False by tauto. by rewrite decide_False by lia.
Qed.

Lemma greet_read offered k n seg segs :
  greet offered k → cn_alive k = true → ee_io_error (cn_eng k) = false → ss_errors (cn_sess k) = [] → cn_stream k = seg :: segs → take n seg ≠ [] →
  ∃ k', handle_read c (take n seg) (Conn (cn_alive k) (cn_eng k) (cn_sess k) (match drop n seg with [] => segs | seg => seg :: segs end) (cn_written k) (cn_sent k)) = Done k' ∧ conn_ok offered k'.
Proof.
  intros [] Hal Hio Her Hs Hne. destruct gr_rest0 as (rest & Hrne & Hgr & Hah). rewrite Hs in Hah.
  destruct (greeting_read rest n seg segs Hah Hrne) as (Hby & rest' & Hr & H). unfold handle_read. cbn [with_eng cn_eng e_input ee_handshaking]. rewrite gr_hand0.
  unfold process_handshake_data. cbn [with_eng cn_eng e_input e_handshake ee_handshaking ee_input ee_greeting].
  assert (Hmin : Nat.min (length (take n seg)) (v3_greeting_size - length (ee_greeting (cn_eng k))) = Nat.min (length (take n seg)) (length rest)).
  { rewrite <- Hglen, <- Hgr, length_app. lia. }
  rewrite Hmin. assert (Htk : take (Nat.min (length (take n seg)) (length rest)) (take n seg) = take (length rest) (take n seg)).
  { rewrite Nat.min_comm, <- take_take. by rewrite firstn_all. }
  rewrite Htk. set (stream := match drop n seg with [] => segs | _ :: _ => _ end) in *. set (k1 := with_eng _ _).
  assert (Hg1 : ee_greeting (cn_eng k1) = ee_greeting (cn_eng k) ++ take (length rest) (take n seg)) by done. case_decide as Hl.
  - destruct H as (Hr' & Htake & Hah'). rewrite (greeting_prefix _ rest' ltac:(by rewrite <- app_assoc, <- Hr) Hr' ltac:(rewrite Htake; destruct (ee_greeting (cn_eng k)); simpl; [done|done]) k1 Hg1), bind_Done.
    rewrite bind_Done. simpl. rewrite Hal, gr_hand0. simpl. eexists. split; [done|]. unfold start_read. simpl. rewrite gr_input0, Hio, gr_codec0. unfold conn_ok. simpl. rewrite Hal. split_and!; [done|done|congruence|].
    left. split; simpl; try done. exists rest'. split; [done|]. split; [|done]. by rewrite <- app_assoc, <- Hr.
  - destruct H as (-> & Hbs & Hz). rewrite app_nil_r in Hr. rewrite greeting_whole by (by rewrite Hg1, <- Hr).
    destruct (run_handshake_spec offered k1) as (k2 & co & m & -> & Hc & Hf & Hpo & Hd & Hcl & Hal2 & Hs2 & Her2 & Hi2 & Hpl2 & Hrd2 & Hns2 & Hio2); try done; [by rewrite Hg1, <- Hr|].
    rewrite !bind_Done. rewrite Nat.min_r by lia. set (k3 := with_eng _ k2).
    assert (Hin3 : ee_input (cn_eng k3) = drop (length rest) (take n seg)) by (simpl; by rewrite Hi2).
    assert (Hfl : flow offered [] [] k3 co m).
    { split; try done.
      - destruct Hc. by split.
      - by rewrite Hd.
      - rewrite Hin3. simpl. rewrite Hs2. simpl. by rewrite Hbs.
      - exists allms. rewrite Hin3. simpl. rewrite Hs2. simpl. rewrite Hbs. by rewrite Hd.
      - simpl. rewrite Hpl2. simpl. rewrite gr_place0, Hi2. simpl. done. }
    rewrite (fl_alive _ _ _ _ _ _ Hfl), (fl_hand _ _ _ _ _ _ Hfl), (cr_codec _ _ _ _ _ _ (fl_core _ _ _ _ _ _ Hfl)). simpl negb. cbv iota. destruct (loop_ok offered [] k3 co m Hfl) as [H _]; try done.
    + transitivity (ss_errors (cn_sess k2)); [done|]. by rewrite Her2.
    + apply H. change (ee_input_stopped (cn_eng k2) = false). by rewrite Hns2.
Qed.

(** Output during the greeting. *)
Lemma greet_write offered k n :
  greet offered k → cn_alive k = true → ee_io_error (cn_eng k) = false → ss_errors (cn_sess k) = [] → ∃ k', handle_write c n k = Done k' ∧ conn_ok offered k'.
Proof.
  intros [] Hal Hio Her. unfold handle_write. set (k1 := Conn _ _ _ _ _ _). assert (Hby : cn_written k1 ++ ee_out (cn_eng k1) = greeting_send) by (simpl; by rewrite <- app_assoc, take_drop).
  rewrite gr_codec0. case_decide as H0.
  - assert (Hs : start_write k1 = with_eng (e_output (ee_out (cn_eng k1)) false) k1) by (unfold start_write; simpl; by rewrite Hio, bool_decide_eq_false_2).
    rewrite Hs. eexists. split; [done|]. unfold conn_ok. simpl. rewrite Hal. split_and!; [done|done|congruence|]. left. by split.
  - eexists. split; [done|]. unfold conn_ok. simpl. rewrite Hal. split_and!; [done|done|congruence|]. left. split; try done. simpl. by rewrite <- Hby, H0.
Qed.

Lemma greet_send offered k x :
  greet offered k → cn_alive k = true → ee_io_error (cn_eng k) = false → ss_errors (cn_sess k) = [] →
  let k1 := with_sess (Session (ss_pipe (cn_sess k)) (ss_room (cn_sess k)) (ss_pushed (cn_sess k)) (ss_pending (cn_sess k) ++ [x]) (ss_errors (cn_sess k)) (ss_out_active (cn_sess k))) k in
  restart_output c k1 = Done k1 ∧ conn_ok (offered ++ [x]) k1.
Proof.
  intros [] Hal Hio Her k1. split.
  - unfold restart_output. simpl. rewrite Hio. destruct (ee_output_stopped (cn_eng k)) eqn:Eos; [|done]. simpl. by rewrite decide_True, gr_codec0, gr_hand0 by auto.
  - unfold conn_ok. simpl. rewrite Hal. split_and!; [done|done|congruence|]. left. split; simpl; try done. by rewrite gr_pending0.
Qed.

(** The pipe is active for writing exactly when the engine does not wait for it. *)
Lemma streaming_active offered k : streaming offered k → ss_out_active (cn_sess k) = negb (ee_input_stopped (cn_eng k)).
Proof.
  intros [msgs co m Hf Hns _ Hpo|msgs x co m Hf Hns _ Hpp]; rewrite Hns, (cr_active _ _ _ _ _ _ (fl_core _ _ _ _ _ _ Hf)); [by rewrite Hpo|by rewrite Hpp].
Qed.

(** The pipe has room again. *)
Lemma waiting_restart offered k :
  streaming offered k → ee_io_error (cn_eng k) = false → ss_errors (cn_sess k) = [] → ee_input_stopped (cn_eng k) = true → ∃ k', restart_input c (activate k) = Done k' ∧ conn_ok offered k'.
Proof.
  intros Hst Hio Her Hns. destruct Hst as [? ? ? ? Hns'|msgs x co m Hf _ Hrd Hpp Hd Hx]; [congruence|]. unfold restart_input. change (cn_eng (activate k)) with (cn_eng k). rewrite Hns. simpl slk_assert. rewrite bind_Done.
  rewrite (cr_codec _ _ _ _ _ _ (fl_core _ _ _ _ _ _ Hf)). unfold process_msg. change (cn_eng (activate k)) with (cn_eng k). rewrite Hpp.
  destruct (push_one_spec offered msgs k co m x (co_msg co)) as (rc & k1 & -> & Hpr & Hi & Hh & Hfl); [apply Hf..|done|done|done|]. rewrite bind_Done.
  pose proof (flow_processed _ _ _ _ _ _ _ _ Hf Hi Hh (λ _, Hfl) Hpr) as Hnext. pose proof (in_rest_reading _ _ Hi) as Hr. unfold reading_part in Hr. injection Hr as E1 E2 E3 E4 E5 E6 E7.
  rewrite Hio in E7. rewrite Hrd in E5. rewrite Her in E3. rewrite Hns in E6. destruct rc as [|e].
  - destruct Hnext as (co1 & m1 & Hf1 & Hpo1). by apply (loop_ok offered (msgs ++ [x]) k1 co1 m1).
  - case_decide as He; eexists; (split; [done|]); [|by apply error_conn_ok]. destruct (Hnext He) as (co1 & m1 & Hf1 & Hpp1 & Hd1 & Hr0). apply streaming_ok; [|done..]. by eapply st_waits.
Qed.

(** The messages that the session gets from the socket. *)
Definition offers (a : eng_action) : list wmsg := match a with ASend m => [m] | _ => [] end.

Lemma conn_step_ok offered k a : conn_ok offered k → a ≠ AWriteFail → ∃ k', conn_step c k a = Done k' ∧ conn_ok (offered ++ offers a) k'.
Proof.
  intros Hok Ha. destruct (cn_alive k) eqn:Hal.
  2: { exists k. unfold conn_step, conn_ok in *. by rewrite Hal in *. }
  pose proof Hok as Hok'. unfold conn_ok in Hok'. rewrite Hal in Hok'. destruct Hok' as (Hio & Her & Hfu & Hph).
  unfold conn_step. replace (negb (cn_alive k)) with false by (by rewrite Hal).
  destruct a as [n| |n| |x|n]; simpl offers; rewrite ?app_nil_r.
  - destruct (cn_stream k) as [|seg segs] eqn:Es; [by exists k|]. cbv zeta. case_decide as Hc; [|by exists k]. destruct Hc as (H1 & H2 & H3).
    destruct Hph; [by apply greet_read|by apply streaming_read].
  - destruct (ee_reading (cn_eng k)); [|by exists k]. eexists. split; [done|]. by apply error_conn_ok.
  - case_decide; [|by exists k]. destruct Hph as [|Hst]; [by apply greet_write|].
    destruct (streaming_output offered offered k (handle_write c n k) Hst) as (k' & H1 & H2 & H3 & H4 & H5 & H6); [|exists k'; split; [done|]; by apply (streaming_output_ok _ k)].
    intros msgs co m Hc _. by apply handle_write_spec with co m.
  - done.
  - destruct Hph as [Hg|Hst]; [destruct (greet_send offered k x Hg Hal Hio Her); by eexists|].
    destruct (streaming_output offered (offered ++ [x]) k (restart_output c (with_sess (Session (ss_pipe (cn_sess k)) (ss_room (cn_sess k)) (ss_pushed (cn_sess k))
      (ss_pending (cn_sess k) ++ [x]) (ss_errors (cn_sess k)) (ss_out_active (cn_sess k))) k)) Hst) as (k' & H1 & H2 & H3 & H4 & H5 & H6); [|exists k'; split; [done|]; by apply (streaming_output_ok _ k)].
    intros msgs co m Hc _. apply (send_spec offered x) in Hc. destruct (restart_flushed (offered ++ [x]) msgs (with_sess _ k) co m Hc) as (k' & co' & m' & H1 & H2 & H3 & H4 & H5). by exists k', co', m'.
  - unfold pipe_activate_write, session_write_activated. set (s := cn_sess k).
    set (k1 := with_sess (Session (ss_pipe s) (ss_room s + n) (ss_pushed s) (ss_pending s) (ss_errors s) (ss_out_active s)) k).
    change (with_sess _ k) with (activate k1).
    assert (Hph1 : greet offered k1 ∨ streaming offered k1).
    { destruct Hph as [[]|Hst]; [left; split; simpl; try done; intros H; specialize (gr_room0 H); subst s; lia|right].
      destruct Hst as [msgs co m Hf|msgs x co m Hf]; [eapply st_reads|eapply st_waits]; try done; by apply flow_more_room. }
    assert (Hact : ss_out_active (cn_sess k1) = negb (ee_input_stopped (cn_eng k1))) by (destruct Hph1 as [[]|Hst1]; [by rewrite gr_active0, gr_input0|by apply streaming_active with offered]).
    change (ss_out_active s) with (ss_out_active (cn_sess k1)). destruct (ee_input_stopped (cn_eng k1)) eqn:Ens; rewrite Hact.
    + destruct Hph1 as [[]|Hst1]; [congruence|]. by apply waiting_restart.
    + exists k1. rewrite activate_id by done. split; [done|]. unfold conn_ok. change (cn_alive k1) with (cn_alive k). rewrite Hal. split_and!; [done|done|congruence|done].
Qed.

Lemma conn_steps_ok acts offered k :
  conn_ok offered k → Forall (λ a, a ≠ AWriteFail) acts → ∃ k', conn_steps c k acts = Done k' ∧ conn_ok (offered ++ (acts ≫= offers)) k'.
Proof.
  revert offered k. induction acts as [|a acts IH]; intros offered k Hok Ha; simpl; [rewrite app_nil_r; by exists k|]. apply Forall_cons in Ha as [Ha Hacts].
  destruct (conn_step_ok offered k a Hok Ha) as (k1 & -> & Hok1). rewrite bind_Done. destruct (IH _ k1 Hok1 Hacts) as (k' & H1 & H2). exists k'. by rewrite <- app_assoc in H2.
Qed.

Lemma plug_ok pipe room pending stream :
  (pipe = true → (2 ≤ room)%nat) → greeting_ahead g stream → ∃ k, plug c (conn_new pipe room pending stream) = Done k ∧ conn_ok pending k.
Proof.
  intros Hr Hs. assert (Hgs : greeting_send ≠ []) by (vm_compute; done). assert (Hg : g ≠ []) by (intros E; by rewrite E in Hglen).
  unfold plug, conn_new, restart_output. cbn [with_eng cn_eng engine_new e_output ee_output_stopped ee_io_error ee_out]. cbn [negb]. rewrite decide_False by done. rewrite bind_Done.
  eexists. split; [done|]. unfold start_write. cbn [with_eng cn_eng engine_new e_output ee_output_stopped ee_io_error ee_out]. rewrite bool_decide_eq_false_2 by done.
  unfold conn_ok. simpl. split_and!; try done. left. split; simpl; try done. exists g. by split_and!.
Qed.

Lemma run_ok pipe room pending stream acts :
  (pipe = true → (2 ≤ room)%nat) → greeting_ahead g stream → Forall (λ a, a ≠ AWriteFail) acts →
  ∃ k, conn_run c (conn_new pipe room pending stream) acts = Done k ∧ conn_ok (pending ++ (acts ≫= offers)) k.
Proof.
  intros Hr Hs Ha. destruct (plug_ok pipe room pending stream Hr Hs) as (k0 & E & Hok). unfold conn_run. rewrite E, bind_Done. by apply conn_steps_ok.
Qed.

(** *** What holds of a connection, whatever has happened *)

(** The bytes that are on their way to the transport. *)
Definition unwritten (k : conn) : list Z := ee_out (cn_eng k) ++ match ee_codec (cn_eng k) with Some co => ver_remaining (co_version co) (co_encoder co) | None => [] end.

(** Of the messages [offered], the first ones follow the greeting and READY on the wire, in their frames; when the engine
    is not writing there is nothing left that it could write. *)
Definition output_in_order (offered : list wmsg) (k : conn) : Prop :=
  ∃ pulled, pulled ++ ss_pending (cn_sess k) = offered
    ∧ (cn_written k ++ unwritten k = greeting_send ∧ pulled = [] ∨ cn_written k ++ unwritten k = greeting_send ++ ver_frame v ready_msg ++ (pulled ≫= ver_frame v))
    ∧ (ee_output_stopped (cn_eng k) = true → unwritten k = [] ∧ (established (ee_process (cn_eng k)) = true → pulled = offered)).

(** The session has got the first ones of the peer's messages; if the input is stopped its pipe is full, if not it is read on, and at the end of the
    stream all messages are there. *)
Definition input_in_order (k : conn) : Prop :=
  (if established (ee_process (cn_eng k)) then
     ∃ m r fin rest, ee_mech (cn_eng k) = Some m ∧ allms = r :: fin ++ rest ∧ ss_pushed (cn_sess k) = intro m ++ omap deliver fin
       ∧ (ee_input_stopped (cn_eng k) = false → concat (cn_stream k) = [] → rest = [])
   else ss_pushed (cn_sess k) = [])
  ∧ (if ee_input_stopped (cn_eng k) then ss_room (cn_sess k) = 0%nat else ee_reading (cn_eng k) = true ∧ 0 < ee_limit (cn_eng k)).

Lemma conn_ok_output offered k : conn_ok offered k → cn_alive k = true → output_in_order offered k.
Proof.
  intros Hok Ha. unfold conn_ok in Hok. rewrite Ha in Hok. destruct Hok as (Hio & _ & _ & [[]|Hst]).
  - exists []. unfold unwritten. rewrite gr_codec0, app_nil_r. split; [done|]. split; [by left|]. intros H. split; [auto|]. by rewrite gr_process0.
  - assert (Hcore : ∃ msgs co m, core offered (ee_out (cn_eng k)) msgs k co m ∧ flushed k) by (destruct Hst as [? ? ? []|? ? ? ? []]; eauto). clear Hst.
    destruct Hcore as (msgs & co & m & [] & Hf). unfold output_in_order, unwritten. rewrite cr_codec0. destruct (nm_ready_command_sent m) eqn:Es.
    + destruct cr_sent0 as (pulled & Hsn & Hoff). exists pulled. split; [done|]. split; [right; rewrite cr_bytes0, Hsn; simpl; by rewrite cr_version0|].
      intros Hos. destruct (Hf Hos Hio) as (H1 & H2 & H3). rewrite cr_codec0 in H3. rewrite H1, ver_remaining_idle by (done || by apply bool_decide_eq_true in H3).
      split; [done|]. intros He. specialize (H2 He). by rewrite <- Hoff, H2, app_nil_r.
    + destruct cr_sent0 as [Hsn Hoff]. exists []. split; [done|]. split; [left; rewrite cr_bytes0, Hsn; simpl; by rewrite app_nil_r|].
      intros Hos. destruct (Hf Hos Hio) as (H1 & H2 & H3). rewrite cr_codec0 in H3. rewrite H1, ver_remaining_idle by (done || by apply bool_decide_eq_true in H3).
      split; [done|]. intros He. rewrite He in cr_phase0. destruct cr_phase0 as (_ & ? & _). congruence.
Qed.

Lemma conn_ok_input offered k : conn_ok offered k → cn_alive k = true → input_in_order k.
Proof.
  intros Hok Ha. unfold conn_ok in Hok. rewrite Ha in Hok. destruct Hok as (Hio & _ & Hfu & [[]|Hst]); unfold input_in_order; [by rewrite gr_process0, gr_input0|]. split.
  2: { destruct Hst as [? ? ? ? E ? ? ? ?|? ? ? ? ? E]; rewrite E in *; auto. }
  assert (Hfl : ∃ msgs held co m, flow offered msgs held k co m ∧ (ee_input_stopped (cn_eng k) = false → held = [] ∧ ee_input (cn_eng k) = [])).
  { destruct Hst as [msgs co m Hf Hns Hin|msgs x co m Hf Hns]; [by exists msgs, [], co, m|exists msgs, [x], co, m; split; [done|congruence]]. }
  destruct Hfl as (msgs & held & co & m & [[]] & Hend). destruct fl_ahead0 as (rest & Hah & Hms). destruct (established (ee_process (cn_eng k))); [|by destruct cr_phase0 as (_ & _ & ? & _)].
  destruct cr_phase0 as (_ & _ & _ & r & fin & -> & Hpu). exists m, r, fin, (held ++ rest). split_and!; [done|done|done|]. intros Hns Hs. destruct (Hend Hns) as [-> Hin].
  rewrite Hin, Hs in Hah. unfold ahead in Hah. simpl in Hah. by injection Hah as <- _.
Qed.

End stream.

(** ** The claims *)

(** What the engine can send: the options give a READY command that fits, sizes of batches are positive, memory does not run out, a new pipe takes the two messages of the start. *)
Record engine_ok (c : engine_cfg) (ty : list Z) : Prop := {
  ok_send : sendable (ec_options c) ty;
  ok_out : 0 < out_batch c;
  ok_in : 0 < in_batch c;
  ok_room : (2 ≤ ec_pipe_room c)%nat;
  ok_malloc : ∀ n, ec_malloc c n = true;
}.

(** A peer of version [v]: it sends its greeting and then [bs], which are frames of [r :: ms], and perhaps a part of a frame. *)
Record peer_ok (c : engine_cfg) (v : version) (stream : list (list Z)) (ms : list wmsg) : Prop := {
  pk_parts : ∃ g bs, length g = v3_greeting_size ∧ nth 0 g 0 = 255 ∧ Z.land (nth 9 g 0) 1 ≠ 0 ∧ select_handshake_fun false (nth 10 g 0) (nth 11 g 0) = HV3 v
    ∧ take 20 (drop 12 g) = null_greeting ∧ greeting_ahead c bs g stream ∧ bytes_ok bs ∧ ∃ d, ref_bytes (ec_dec c) bs v2_decoder_new = Done (ms, None, d);
  pk_harmless : Forall harmless (tail ms);
}.

Lemma engine_ok_run c ty v pipe room pending stream ms acts :
  engine_ok c ty → peer_ok c v stream ms → (pipe = true → (2 ≤ room)%nat) → Forall (λ a, a ≠ AWriteFail) acts →
  ∃ k, conn_run c (conn_new pipe room pending stream) acts = Done k
    ∧ if cn_alive k then ss_errors (cn_sess k) = [] ∧ output_in_order c ty v (pending ++ (acts ≫= offers)) k ∧ input_in_order c ms k
      else ∃ r, ss_errors (cn_sess k) = [r].
Proof.
  intros [] [(g & bs & H1 & H2 & H3 & H4 & H5 & H6 & H7 & d & H8) Hh] Hr Ha.
  destruct (run_ok c ty v ok_send0 ok_out0 ok_in0 ok_room0 bs ms d ok_malloc0 H7 H8 Hh g H1 H2 H3 H4 H5 pipe room pending stream acts Hr H6 Ha) as (k & Hrun & Hok). exists k. split; [done|].
  destruct (cn_alive k) eqn:Hal; [|unfold conn_ok in Hok; by rewrite Hal in Hok]. split; [unfold conn_ok in Hok; rewrite Hal in Hok; tauto|].
  split; [by eapply conn_ok_output|by eapply conn_ok_input].
Qed.

(** *** Two engines *)

(** A frame of a data message that a peer of [c] accepts. *)
Definition data_msg (c : engine_cfg) (m : wmsg) : Prop := (wm_flags m = 0 ∨ wm_flags m = msg_more) ∧ bytes_ok (wm_data m) ∧ size_allowed (ec_dec c) (wm_size m).

Lemma data_msg_received c m : data_msg c m → v2_received m = m ∧ wm_is_subscribe m || wm_is_cancel m = false ∧ deliver m = Some m ∧ harmless m.
Proof.
  destruct m as [f d]. intros ([H|H] & _). all: simpl in H; subst f; split_and!; try done.
Qed.

Lemma ready_received_v2 c ty : v2_received (ready_msg c ty) = ready_msg c ty ∧ wm_is_subscribe (ready_msg c ty) || wm_is_cancel (ready_msg c ty) = false.
Proof. done. Qed.

(** Frames, read to any point. *)
Lemma prefix_decoded cfg ms p q :
  (∀ n, dc_malloc cfg n = true) → Forall (λ m, v2_received m = m ∧ wm_is_subscribe m || wm_is_cancel m = false ∧ bytes_ok (wm_data m) ∧ size_allowed cfg (wm_size m)) ms →
  p ++ q = ms ≫= v2_frame →
  bytes_ok p ∧ ∃ ms1 ms2 d, ref_bytes cfg p v2_decoder_new = Done (ms1, None, d) ∧ ms = ms1 ++ ms2 ∧ (q = [] → ms2 = []).
Proof.
  intros Hmal Hms Hpq. set (octet m := frame_octet (wm_has m msg_more) (wm_has m msg_command) (bool_decide (wm_size m > UCHAR_MAX))).
  assert (Hfr : Forall (λ m, v2_frame m = octet m :: enc_length (Z.of_nat (length (wm_data m))) ++ wm_data m) ms).
  { eapply Forall_impl; [exact Hms|]. intros m (Hr & Hs & _). rewrite v2_frame_eq by (by rewrite Hs). by rewrite Hr. }
  assert (Hb : bytes_ok (ms ≫= v2_frame)).
  { clear Hpq. induction ms as [|m ms IH]; [done|]. apply Forall_cons in Hms as [(_ & _ & Hb & _) Hms]. apply Forall_cons in Hfr as [Hf Hfr].
    change (bytes_ok (v2_frame m ++ (ms ≫= v2_frame))). apply Forall_app. split; [|by apply IH]. rewrite Hf. apply frame_bytes_ok; [apply frame_octet_byte|lia|done]. }
  destruct (ref_frames cfg v2_frame octet wm_data ms v2_decoder_new Hmal) as (d & _ & Hd); [done| |].
  { apply Forall_and. split; [done|]. eapply Forall_impl; [exact Hms|]. intros m (_ & _ & _ & Hs). split; [|done]. unfold octet.
    by rewrite (proj1 (frame_octet_spec _ _ _)), bool_decide_eq_true. }
  assert (Hid : (λ m, WMsg (frame_flags (octet m)) (wm_data m)) <$> ms = ms).
  { rewrite <- (list_fmap_id ms) at 2. apply list_fmap_ext. intros i m Hi. rewrite Forall_lookup in Hms. destruct (Hms _ _ Hi) as (Hr & _). unfold octet.
    rewrite (proj2 (frame_octet_spec _ _ _)). unfold v2_received in Hr. apply (f_equal wm_flags) in Hr. simpl in Hr. rewrite Hr. by destruct m. }
  rewrite Hid in Hd. rewrite <- Hpq in Hd, Hb. apply Forall_app in Hb as [Hb _]. split; [done|]. rewrite ref_bytes_app in Hd.
  destruct (ref_bytes cfg p v2_decoder_new) as [[[ms1 e1] d1]| |]; simpl in Hd; [|done..]. destruct e1; [done|].
  destruct (ref_bytes cfg q d1) as [[[ms2 e2] d2]| |] eqn:Eq; simpl in Hd; [|done..]. injection Hd as <- -> ->. exists ms1, ms2, d1. split_and!; try done.
  intros ->. simpl in Eq. by injection Eq as <- _.
Qed.

(** An engine with its session, what the peer sends to it, and what happens. *)
Record party := Party {
  pt_cfg : engine_cfg;
  pt_ty : list Z;
  pt_pipe : bool;
  pt_room : nat;
  pt_pending : list wmsg;
  pt_stream : list (list Z);
  pt_acts : list eng_action;
}.

Definition party_run (s : party) : outcome conn := conn_run (pt_cfg s) (conn_new (pt_pipe s) (pt_room s) (pt_pending s) (pt_stream s)) (pt_acts s).

(** The messages that the socket has sent. *)
Definition offered (s : party) : list wmsg := pt_pending s ++ (pt_acts s ≫= offers).

Record party_ok (s : party) : Prop := {
  pt_engine_ok : engine_ok (pt_cfg s) (pt_ty s);
  pt_room_ok : pt_pipe s = true → (2 ≤ pt_room s)%nat;
  pt_acts_ok : Forall (λ a, a ≠ AWriteFail) (pt_acts s);
}.

Lemma party_spec s v ms : party_ok s → peer_ok (pt_cfg s) v (pt_stream s) ms →
  ∃ k, party_run s = Done k
    ∧ if cn_alive k then ss_errors (cn_sess k) = [] ∧ output_in_order (pt_cfg s) (pt_ty s) v (offered s) k ∧ input_in_order (pt_cfg s) ms k
      else ∃ r, ss_errors (cn_sess k) = [r].
Proof. intros [] Hp. by apply engine_ok_run. Qed.

Lemma omap_deliver c ms : Forall (data_msg c) ms → omap deliver ms = ms.
Proof.
  induction ms as [|m ms IH]; [done|]. intros [Hm Hms]%Forall_cons. destruct (data_msg_received c m Hm) as (_ & _ & Hd & _).
  change (omap deliver (m :: ms)) with (match deliver m with Some y => y :: omap deliver ms | None => omap deliver ms end). rewrite Hd. f_equal. auto.
Qed.

(** The greeting that an engine sends is one that it accepts, for version 3.0. *)
Lemma greeting_send_ok : length greeting_send = v3_greeting_size ∧ nth 0 greeting_send 0 = 255 ∧ Z.land (nth 9 greeting_send 0) 1 ≠ 0
  ∧ select_handshake_fun false (nth 10 greeting_send 0) (nth 11 greeting_send 0) = HV3 V3_0 ∧ take 20 (drop 12 greeting_send) = null_greeting.
Proof. by vm_compute. Qed.

(** What [a] has written is what a peer sends. *)
Lemma written_peer a b ka :
  engine_ok (pt_cfg b) (pt_ty b) → output_in_order (pt_cfg a) (pt_ty a) V3_0 (offered a) ka → Forall (data_msg (pt_cfg b)) (offered a) →
  bytes_ok (wm_data (ready_msg (pt_cfg a) (pt_ty a))) → size_allowed (ec_dec (pt_cfg b)) (wm_size (ready_msg (pt_cfg a) (pt_ty a))) →
  (length greeting_send ≤ length (cn_written ka))%nat → concat (pt_stream b) = cn_written ka →
  (ec_zero_copy (pt_cfg b) = true → ∃ s1 s2, pt_stream b = s1 ++ s2 ∧ concat s1 = greeting_send) →
  ∃ ms, peer_ok (pt_cfg b) V3_0 (pt_stream b) ms
    ∧ ∀ r fin, ms = r :: fin → Forall (data_msg (pt_cfg b)) fin ∧ ∃ rest, offered a = fin ++ rest
        ∧ (ee_output_stopped (cn_eng ka) = true → established (ee_process (cn_eng ka)) = true → rest = []).
Proof.
  intros Hb (pulled & Hoff & Hwr & Hst) Hdata Hrb Hrs Hlen Hs Hz. set (rdy := ready_msg (pt_cfg a) (pt_ty a)) in *.
  assert (Hp : ∃ p M, cn_written ka = greeting_send ++ p ∧ p ++ unwritten ka = M ≫= v2_frame ∧ (M = [] ∨ M = rdy :: pulled)).
  { assert (Hpre : ∃ M, cn_written ka ++ unwritten ka = greeting_send ++ (M ≫= v2_frame) ∧ (M = [] ∨ M = rdy :: pulled)).
    { destruct Hwr as [[Hwr _]|Hwr]; [exists []; simpl; rewrite app_nil_r; auto|exists (rdy :: pulled); auto]. }
    destruct Hpre as (M & E & HM). exists (drop (length greeting_send) (cn_written ka)), M. rewrite <- (take_drop (length greeting_send) (cn_written ka)) in E at 1. rewrite <- app_assoc in E.
    apply app_inj_1 in E as [E1 E2]; [|rewrite length_take; lia]. split_and!; [|done|done]. by rewrite <- E1 at 1; rewrite take_drop. }
  destruct Hp as (p & M & Hw & Hpq & HM). assert (HdM : Forall (data_msg (pt_cfg b)) pulled) by (rewrite <- Hoff in Hdata; by apply Forall_app in Hdata as [? _]).
  assert (Hrec : Forall (λ m, v2_received m = m ∧ wm_is_subscribe m || wm_is_cancel m = false ∧ bytes_ok (wm_data m) ∧ size_allowed (ec_dec (pt_cfg b)) (wm_size m)) M).
  { destruct HM as [-> | ->]; [done|]. constructor; [by split_and!|]. eapply Forall_impl; [exact HdM|]. intros m Hm. destruct (data_msg_received _ _ Hm) as (? & ? & _). by destruct Hm as (_ & ? & ?). }
  destruct (prefix_decoded (ec_dec (pt_cfg b)) M p (unwritten ka)) as (Hbp & ms & ms2 & d & Hd & Hms & Hq); [apply Hb|done|done|].
  assert (Hfin : ∀ r fin, ms = r :: fin → M = rdy :: pulled ∧ pulled = fin ++ ms2) by (intros r fin ->; destruct HM as [-> | ->]; [done|]; simpl in Hms; by injection Hms as _ ->).
  exists ms. split.
  - destruct greeting_send_ok as (G1 & G2 & G3 & G4 & G5). split.
    + exists greeting_send, p. do 5 (split; [done|]). split; [split; [by rewrite Hs, Hw|done]|]. split; [done|]. by exists d.
    + destruct ms as [|r fin]; [done|]. destruct (Hfin r fin eq_refl) as [_ Hpl]. simpl. rewrite Hpl in HdM. apply Forall_app in HdM as [Hf _].
      eapply Forall_impl; [exact Hf|]. intros m Hm. by apply data_msg_received in Hm as (_ & _ & _ & ?).
  - intros r fin E. destruct (Hfin r fin E) as [_ Hpl]. rewrite Hpl in *. apply Forall_app in HdM as [Hf _]. split; [done|]. exists (ms2 ++ ss_pending (cn_sess ka)).
    rewrite <- Hoff, <- app_assoc. split; [done|]. intros Hos He. destruct (Hst Hos) as [Hu Hall]. specialize (Hall He). rewrite (Hq Hu). simpl. rewrite <- Hoff in Hall.
    rewrite <- (app_nil_r (fin ++ ms2)) in Hall at 1. by apply app_inv_head in Hall.
Qed.

(** ** An example *)

Definition ex_cfg : engine_cfg := EngineCfg example_router true false (λ _, true) 5.
Definition ex_ready : wmsg := ready_msg ex_cfg socket_type_router.
Definition ex_m1 : wmsg := WMsg msg_more [1; 2; 3].
Definition ex_m2 : wmsg := WMsg 0 [4; 5].

(** The first one connects, with a message to send already; the second one has accepted. *)
Definition ex_a : party := Party ex_cfg socket_type_router true 5 [ex_m1] [greeting_send ++ v2_frame ex_ready]
  [AWritten 60; ARead 10; AWritten 4; ARead 54; ARead 30; ASend ex_m2; AWritten 40; ARead 100; AWritten 14; AWritten 9].
Definition ex_ka : conn := Eval vm_compute in match party_run ex_a with Done k => k | _ => conn_new false 0 [] [] end.
Definition ex_b : party := Party ex_cfg socket_type_router false 0 [] [cn_written ex_ka] [ARead 7; AWritten 64; ARead 57; ARead 3; AWritten 54; ARead 200].
Definition ex_kb : conn := Eval vm_compute in match party_run ex_b with Done k => k | _ => conn_new false 0 [] [] end.

Lemma ex_engine_ok : engine_ok ex_cfg socket_type_router.
Proof. split; [apply example_router_sendable|done|done|simpl; lia|done]. Qed.

Lemma ex_party_ok : party_ok ex_a ∧ party_ok ex_b.
Proof. split; (split; [apply ex_engine_ok|simpl; lia|repeat constructor; done]). Qed.

Lemma ex_run : party_run ex_a = Done ex_ka ∧ party_run ex_b = Done ex_kb.
Proof. split; vm_compute; reflexivity. Qed.

Lemma bytes_check bs : forallb (λ b, (0 <=? b) && (b <=? 255)) bs = true → bytes_ok bs.
Proof. intros H. apply Forall_forall. intros b Hb. rewrite forallb_forall in H. apply list_elem_of_In in Hb. specialize (H b Hb). unfold is_byte. lia. Qed.

Lemma ex_peer_a : peer_ok ex_cfg V3_0 (pt_stream ex_a) [ex_ready].
Proof.
  split; [|done]. exists greeting_send, (v2_frame ex_ready). destruct greeting_send_ok as (G1 & G2 & G3 & G4 & G5). do 5 (split; [done|]). split; [split; [simpl; by rewrite app_nil_r|done]|].
  split; [by apply bytes_check|]. eexists. vm_compute. reflexivity.
Qed.

(** ** The theorems *)

(** The bytes for the transport are the messages of the session. Whatever the peer sends after its greeting (READY and frames it can send), in reads of any size, however
    many bytes each write takes, and whenever the socket sends messages or makes room in the pipe, the engine does not abort; while it lives, what the transport has
    taken and what is on its way to it are the greeting, READY and the frames of the first ones of the messages that the socket has sent, in order and each once; it stops writing only
    when there is nothing left, and when it has died the session was told exactly once. *)
Lemma engine_output_stream p v ms :
  party_ok p → peer_ok (pt_cfg p) v (pt_stream p) ms →
  ∃ k, party_run p = Done k
    ∧ if cn_alive k then ss_errors (cn_sess k) = [] ∧ output_in_order (pt_cfg p) (pt_ty p) v (offered p) k else ∃ r, ss_errors (cn_sess k) = [r].
Proof. intros Hp Hpe. destruct (party_spec p v ms Hp Hpe) as (k & E & Hk). exists k. split; [done|]. destruct (cn_alive k); [|done]. by destruct Hk as (? & ? & _). Qed.

Lemma engine_output_stream_witness :
  ∃ k, party_run ex_a = Done k
    ∧ if cn_alive k then ss_errors (cn_sess k) = [] ∧ output_in_order ex_cfg socket_type_router V3_0 [ex_m1; ex_m2] k else ∃ r, ss_errors (cn_sess k) = [r].
Proof. apply (engine_output_stream ex_a V3_0 [ex_ready]); [apply ex_party_ok|apply ex_peer_a]. Defined.

(** The messages for the session are those of the peer. After the handshake the session has got the routing id and the notification that the options ask for and then the
    first ones of the messages that the bytes of the peer are, in order and each once, subscriptions and cancellations marked as such and other commands left out. While the
    input waits, the pipe of the session is full; otherwise the engine is reading, and has delivered every message of the bytes it has read. *)
Lemma engine_input_stream p v ms :
  party_ok p → peer_ok (pt_cfg p) v (pt_stream p) ms →
  ∃ k, party_run p = Done k ∧ (cn_alive k = true → input_in_order (pt_cfg p) ms k).
Proof. intros Hp Hpe. destruct (party_spec p v ms Hp Hpe) as (k & E & Hk). exists k. split; [done|]. intros Ha. rewrite Ha in Hk. by destruct Hk as (_ & _ & ?). Qed.

Lemma engine_input_stream_witness : ∃ k, party_run ex_a = Done k ∧ (cn_alive k = true → input_in_order ex_cfg [ex_ready] k).
Proof. apply (engine_input_stream ex_a V3_0 [ex_ready]); [apply ex_party_ok|apply ex_peer_a]. Defined.

(** C4: what one engine writes the other one delivers. Two engines run, with reads and writes of any sizes, messages sent and room made in the pipes at any
    time, and the second reads what the first has written. Then the second one does not abort, and once it is past the handshake the messages of its session are, after routing id and notification,
    the first ones of those that the socket of the first has sent, in this order, each once and unchanged; they are all of them
    when the first engine is past the handshake too and has nothing left to write and the second has read everything and is not waiting for room.
    This is under these conditions: no write fails on either side (a failed write is never reported, see [write_failure_unreported]; reads may fail); the socket sends data
    messages, whose only flag may be that more parts follow, of bytes and of sizes that the receiver's maximum allows, as is the READY command of the first engine; malloc never fails;
    batch sizes are positive and a new pipe takes two messages at least; the socket type and properties can be sent in READY ([sendable]); what the first engine reads are a greeting of ZMTP 3.0
    and frames ([peer_ok]), and it is still alive; it has written its greeting; and where the decoder uses zero copy no read of the second goes over
    the end of the greeting (the code is undefined there, see [eng_decode] of Engine). *)
Theorem engines_deliver a b msa ka :
  party_ok a → party_ok b → peer_ok (pt_cfg a) V3_0 (pt_stream a) msa → party_run a = Done ka → cn_alive ka = true →
  Forall (data_msg (pt_cfg b)) (offered a) → bytes_ok (wm_data (ready_msg (pt_cfg a) (pt_ty a))) → size_allowed (ec_dec (pt_cfg b)) (wm_size (ready_msg (pt_cfg a) (pt_ty a))) →
  (length greeting_send ≤ length (cn_written ka))%nat → concat (pt_stream b) = cn_written ka →
  (ec_zero_copy (pt_cfg b) = true → ∃ s1 s2, pt_stream b = s1 ++ s2 ∧ concat s1 = greeting_send) →
  ∃ kb, party_run b = Done kb
    ∧ (cn_alive kb = true → established (ee_process (cn_eng kb)) = true →
       ∃ m got rest, ee_mech (cn_eng kb) = Some m ∧ offered a = got ++ rest ∧ ss_pushed (cn_sess kb) = intro (pt_cfg b) m ++ got
         ∧ (ee_output_stopped (cn_eng ka) = true → established (ee_process (cn_eng ka)) = true → ee_input_stopped (cn_eng kb) = false → concat (cn_stream kb) = [] → rest = [])).
Proof.
  intros Ha Hb Hpa Hra Hal Hdata Hrb Hrs Hlen Hs Hz. destruct (party_spec a V3_0 msa Ha Hpa) as (ka' & E & Hka). rewrite Hra in E. injection E as <-. rewrite Hal in Hka.
  destruct Hka as (_ & Hout & _). destruct (written_peer a b ka (pt_engine_ok b Hb) Hout Hdata Hrb Hrs Hlen Hs Hz) as (ms & Hpeer & Hms).
  destruct (party_spec b V3_0 ms Hb Hpeer) as (kb & E & Hkb). exists kb. split; [done|]. intros Hbl He. rewrite Hbl in Hkb. destruct Hkb as (_ & _ & Hin & _). rewrite He in Hin.
  destruct Hin as (m & r & fin & rest & Hm & Hmsb & Hpu & Hend). destruct (Hms _ _ Hmsb) as (Hdf & rest' & Hoff & Hfl). apply Forall_app in Hdf as [Hdf _].
  exists m, fin, (rest ++ rest'). split; [done|]. split; [by rewrite Hoff, <- app_assoc|]. split; [by rewrite Hpu, (omap_deliver _ _ Hdf)|]. intros H1 H2 H3 H4. by rewrite (Hend H3 H4), (Hfl H1 H2).
Qed.

Lemma engines_deliver_witness : ∃ m, ee_mech (cn_eng ex_kb) = Some m ∧ ss_pushed (cn_sess ex_kb) = intro ex_cfg m ++ [ex_m1; ex_m2].
Proof.
  destruct (engines_deliver ex_a ex_b [ex_ready] ex_ka) as (kb & E & H).
  - apply ex_party_ok.
  - apply ex_party_ok.
  - apply ex_peer_a.
  - apply ex_run.
  - done.
  - repeat constructor; simpl; try lia; done.
  - by apply bytes_check.
  - vm_compute. by repeat split.
  - vm_compute. lia.
  - done.
  - done.
  - assert (Hkb : kb = ex_kb) by (rewrite (proj2 ex_run) in E; exact (f_equal (λ o, match o with Done k => k | _ => kb end) (eq_sym E))). subst kb. destruct (H eq_refl eq_refl) as (m & got & rest & Hm & Hoff & Hpu & Hend).
    rewrite (Hend eq_refl eq_refl eq_refl eq_refl), app_nil_r in Hoff. change (offered ex_a) with [ex_m1; ex_m2] in Hoff. subst got. exists m. split; [exact Hm|exact Hpu].
Defined.

(** ** Where the code departs from this *)

(** The outcome of a run, to look at. *)
Definition view (r : outcome conn) : outcome (bool * list error_reason * bool * list wmsg) :=
  k ← r; Done (cn_alive k, ss_errors (cn_sess k), ee_reading (cn_eng k), ss_pushed (cn_sess k)).

Definition ex_conn (c : engine_cfg) (room : nat) (bs : list Z) (acts : list eng_action) : outcome (bool * list error_reason * bool * list wmsg) :=
  view (conn_run c (conn_new true room [] [greeting_send ++ v2_frame ex_ready ++ bs]) ([AWritten 64; ARead 64; AWritten 54] ++ acts)).

Definition ex_plain : engine_cfg := EngineCfg example_router false false (λ _, true) 5.

(** A write fails and then the stream ends: the session is not told (it is if the write does not fail). *)
Lemma write_failure_unreported :
  ex_conn ex_plain 5 [] [ARead 100; ASend ex_m1; AWriteFail; AReadFail; ASend ex_m2; AReadFail] = Done (true, [], false, [])
  ∧ ex_conn ex_plain 5 [] [ARead 100; ASend ex_m1; AReadFail] = Done (false, [connection_error], false, []).
Proof. split; vm_compute; reflexivity. Qed.

(** A frame after PING, or after a command that is not known, fails the assertion on the closed message. *)
Lemma ping_aborts :
  ex_conn ex_plain 5 (v2_frame (WMsg msg_command (4 :: cmd_ping ++ [0; 0])) ++ v2_frame ex_m2) [ARead 100] = Abort
  ∧ ex_conn ex_plain 5 (v2_frame (WMsg msg_command [1; 88]) ++ v2_frame ex_m2) [ARead 100] = Abort
  ∧ ex_conn ex_plain 5 (v2_frame (WMsg msg_command (4 :: cmd_ping ++ [0; 0]))) [ARead 100] = Done (true, [], true, []).
Proof. split_and!; vm_compute; reflexivity. Qed.

(** A PING of six bytes is compared beyond its end; a PING as ZMTP has it is not answered. *)
Lemma ping_overread :
  ex_conn ex_plain 5 (v2_frame (WMsg msg_command (4 :: cmd_ping ++ [0]))) [ARead 100] = Undef
  ∧ (∀ data k, process_heartbeat_message (4 :: cmd_ping ++ data) k = Done k ∨ process_heartbeat_message (4 :: cmd_ping ++ data) k = Undef).
Proof.
  split; [vm_compute; reflexivity|]. intros data k. unfold process_heartbeat_message. case_decide; [|by left]. case_decide; [by right|]. left.
  rewrite decide_False; [done|]. simpl. destruct data as [|x [|y data]]; simpl; done.
Qed.

(** A frame that is too long ends the connection, but not if it comes after a message that had to wait for room: then its rest is read as frames. *)
Definition ex_small : engine_cfg :=
  EngineCfg (Options (o_int example_router) 0 [97; 98] SL_ROUTER 60 false 0 [] false (o_app_metadata example_router) [] [] []) false false (λ _, true) 5.

Lemma restart_ignores_errors :
  let bs := v2_frame ex_m2 ++ v2_frame ex_m2 ++ v2_frame ex_m2 ++ v2_frame (WMsg 0 (replicate 61 7)) in
  ex_conn ex_small 5 bs [ARead 200] = Done (false, [protocol_error], false, [ex_m2; ex_m2; ex_m2])
  ∧ ex_conn ex_small 2 bs [ARead 200; ARoom 5] = Done (true, [], true, [ex_m2; ex_m2; ex_m2]).
Proof. split; vm_compute; reflexivity. Qed.
