(* ===== verification/Timers.v ===== *)
(** Timers (src/util/timers.cpp) on the cached clock (src/util/clock.cpp).

    The timers are in a [std::multimap] from the time they are due; a timer that is cancelled
    stays there, its id in a set, until [timeout] or [execute] comes by.  A node of the map is a [node]
    with an address of its own, because [execute] holds iterators while it calls the handlers and
    these may change the map.

    The readings of the hardware counter and of the operating system's clock, and what the handlers
    do, are parameters: the [n]-th handler called makes the calls [script n]. *)
From stdpp Require Import gmap sorting.
From S2P Require Import Prelude.

Local Open Scope sl_scope.

(** ** The clock *)

Definition clock_precision : Z := 1000000.

Record clock_t := Clock { ck_last_tsc : Z; ck_last_time : Z }.

(** What [rdtsc] and [now_us] answer. *)
Record reading := Reading { rd_tsc : Z; rd_us : Z }.

Definition clock_now_ms (r : reading) (c : clock_t) : Z * clock_t :=
  if decide (rd_tsc r = 0) then (rd_us r / 1000, c)
  else if decide (u64 (rd_tsc r - ck_last_tsc c) ≤ clock_precision / 2 ∧ ck_last_tsc c ≤ rd_tsc r) then (ck_last_time c, c)
  else (rd_us r / 1000, Clock (rd_tsc r) (rd_us r / 1000)).

Definition clock_new (r : reading) : clock_t := Clock (rd_tsc r) (rd_us r / 1000).

(** ** The timers *)

Record timer_t := Timer { ti_id : Z; ti_interval : Z; ti_handler : Z; ti_arg : Z }.
Record node := Node { nd_addr : nat; nd_when : Z; nd_timer : timer_t }.

#[export] Instance timer_eq_dec : EqDecision timer_t.
Proof. solve_decision. Defined.
#[export] Instance node_eq_dec : EqDecision node.
Proof. solve_decision. Defined.

(** [tm_addr] is the next address, [tm_reads] counts the readings, [tm_fired] lists the calls of handlers. *)
Record timers_t := Timers {
  tm_next_timer_id : Z;
  tm_clock : clock_t;
  tm_timers : list node;
  tm_cancelled : gset Z;
  tm_addr : nat;
  tm_reads : nat;
  tm_fired : list timer_t;
}.

(** [multimap::insert]: behind the elements with the same key. *)
Fixpoint mm_insert (n : node) (l : list node) : list node :=
  match l with
  | [] => [n]
  | x :: l => if decide (nd_when x ≤ nd_when n) then x :: mm_insert n l else n :: x :: l
  end.

Definition tm_insert (w : Z) (t : timer_t) (s : timers_t) : timers_t :=
  Timers (tm_next_timer_id s) (tm_clock s) (mm_insert (Node (tm_addr s) w t) (tm_timers s)) (tm_cancelled s) (S (tm_addr s)) (tm_reads s) (tm_fired s).
Definition tm_with (l : list node) (c : gset Z) (s : timers_t) : timers_t :=
  Timers (tm_next_timer_id s) (tm_clock s) l c (tm_addr s) (tm_reads s) (tm_fired s).

Section timers.
Context (readings : nat → reading).

Definition tm_now (s : timers_t) : Z * timers_t :=
  let '(t, c) := clock_now_ms (readings (tm_reads s)) (tm_clock s) in
  (t, Timers (tm_next_timer_id s) c (tm_timers s) (tm_cancelled s) (tm_addr s) (S (tm_reads s)) (tm_fired s)).

Definition timers_new : timers_t := Timers 0 (clock_new (readings 0)) [] ∅ 0 1 [].

(** The id, or -1 with errno; the id after the largest [int] overflows. *)
Definition timers_add (interval handler arg : Z) (s : timers_t) : outcome (Z + errno_t) * timers_t :=
  if decide (handler = 0) then (Done (inr EFAULT), s)
  else if decide (tm_next_timer_id s = 2 ^ 31 - 1) then (Undef, s)
  else
    let '(now, s) := tm_now s in
    let id := tm_next_timer_id s + 1 in
    let s := Timers id (tm_clock s) (tm_timers s) (tm_cancelled s) (tm_addr s) (tm_reads s) (tm_fired s) in
    (Done (inl id), tm_insert (u64 (now + interval)) (Timer id interval handler arg) s).

Definition match_by_id (id : Z) (n : node) : bool := bool_decide (ti_id (nd_timer n) = id).

Definition timers_cancel (id : Z) (s : timers_t) : rc_t * timers_t :=
  match list_find (match_by_id id) (tm_timers s) with
  | None => (RcErr EINVAL, s)
  | Some _ => if decide (id ∈ tm_cancelled s) then (RcErr EINVAL, s) else (RcOk, tm_with (tm_timers s) ({[id]} ∪ tm_cancelled s) s)
  end.

Definition timers_set_interval (id interval : Z) (s : timers_t) : rc_t * timers_t :=
  match list_find (match_by_id id) (tm_timers s) with
  | None => (RcErr EINVAL, s)
  | Some (i, n) =>
      let t := Timer (ti_id (nd_timer n)) interval (ti_handler (nd_timer n)) (ti_arg (nd_timer n)) in
      let '(now, s) := tm_now s in
      (RcOk, tm_insert (u64 (now + interval)) t (tm_with (delete i (tm_timers s)) (tm_cancelled s) s))
  end.

Definition timers_reset (id : Z) (s : timers_t) : rc_t * timers_t :=
  match list_find (match_by_id id) (tm_timers s) with
  | None => (RcErr EINVAL, s)
  | Some (i, n) =>
      let t := nd_timer n in
      let '(now, s) := tm_now s in
      (RcOk, tm_insert (u64 (now + ti_interval t)) t (tm_with (delete i (tm_timers s)) (tm_cancelled s) s))
  end.

(** [static_cast<long>] of an unsigned 64-bit value *)
Definition s64 (z : Z) : Z := (z + 2 ^ 63) `mod` 2 ^ 64 - 2 ^ 63.

(** The first timer that is not cancelled; the ones before it go. *)
Fixpoint timeout_loop (l : list node) (c : gset Z) : list node * gset Z :=
  match l with
  | [] => ([], c)
  | n :: l' => if decide (ti_id (nd_timer n) ∈ c) then timeout_loop l' (c ∖ {[ti_id (nd_timer n)]}) else (l, c)
  end.

Definition timers_timeout (s : timers_t) : Z * timers_t :=
  let '(now, s) := tm_now s in
  let '(l, c) := timeout_loop (tm_timers s) (tm_cancelled s) in
  (match l with n :: _ => Z.max (s64 (u64 (nd_when n - now))) 0 | [] => -1 end, tm_with l c s).

(** *** Handlers *)

Inductive hcall := HAdd (interval handler arg : Z) | HCancel (id : Z) | HSetInterval (id interval : Z) | HReset (id : Z).

Context (script : nat → list hcall).

Definition do_hcall (h : hcall) (s : timers_t) : outcome timers_t :=
  match h with
  | HAdd i f a => let '(r, s) := timers_add i f a s in _ ← r; Done s
  | HCancel id => Done (timers_cancel id s).2
  | HSetInterval id i => Done (timers_set_interval id i s).2
  | HReset id => Done (timers_reset id s).2
  end.

Fixpoint do_hcalls (l : list hcall) (s : timers_t) : outcome timers_t :=
  match l with [] => Done s | h :: l => s ← do_hcall h s; do_hcalls l s end.

Definition call_handler (t : timer_t) (s : timers_t) : outcome timers_t :=
  do_hcalls (script (length (tm_fired s))) (Timers (tm_next_timer_id s) (tm_clock s) (tm_timers s) (tm_cancelled s) (tm_addr s) (tm_reads s) (tm_fired s ++ [t])).

(** *** execute *)

(** An iterator is the address of its node, or the end; a node that is gone is undefined behaviour. *)
Definition at_addr (a : nat) (l : list node) : option (nat * node) := list_find (λ n, nd_addr n = a) l.

Definition it_next (a : nat) (l : list node) : option nat :=
  match at_addr a l with Some (i, _) => nd_addr <$> l !! S i | None => None end.

(** None if the fuel is used up. *)
Fixpoint exec_loop (fuel : nat) (now : Z) (it : option nat) (s : timers_t) : option (outcome (option nat * timers_t)) :=
  match it, fuel with
  | None, _ => Some (Done (None, s))
  | Some _, O => None
  | Some a, S fuel =>
      match at_addr a (tm_timers s) with
      | None => Some Undef
      | Some (_, n) =>
          let id := ti_id (nd_timer n) in
          if decide (id ∈ tm_cancelled s) then exec_loop fuel now (it_next a (tm_timers s)) (tm_with (tm_timers s) (tm_cancelled s ∖ {[id]}) s)
          else if decide (nd_when n > now) then Some (Done (it, s))
          else match call_handler (nd_timer n) s with
               | Done s =>
                   match at_addr a (tm_timers s) with
                   | None => Some Undef
                   | Some (_, n) =>
                       let s := tm_insert (u64 (now + ti_interval (nd_timer n))) (nd_timer n) s in
                       exec_loop fuel now (it_next a (tm_timers s)) s
                   end
               | Abort => Some Abort
               | Undef => Some Undef
               end
      end
  end.

(** [_timers.erase (begin, it)] *)
Definition erase_range (first it : option nat) (l : list node) : outcome (list node) :=
  match first with
  | None => Done l
  | Some b =>
      match at_addr b l, (match it with Some a => fst <$> at_addr a l | None => Some (length l) end) with
      | Some (i, _), Some j => if decide (i ≤ j)%nat then Done (take i l ++ drop j l) else Undef
      | _, _ => Undef
      end
  end.

Definition timers_execute (fuel : nat) (s : timers_t) : option (outcome timers_t) :=
  let '(now, s) := tm_now s in
  let first := nd_addr <$> head (tm_timers s) in
  r ← exec_loop fuel now first s;
  Some ('(it, s) ← r; l ← erase_range first it (tm_timers s); Done (tm_with l (tm_cancelled s) s)).

(** *** Calls of the program *)

Inductive tcall := TCall (h : hcall) | TTimeout | TExecute.
Inductive tout := OId (r : Z + errno_t) | ORc (rc : rc_t) | OTime (t : Z).

Definition timers_step (fuel : nat) (c : tcall) (s : timers_t) : option (outcome (tout * timers_t)) :=
  match c with
  | TCall (HAdd i f a) => let '(r, s) := timers_add i f a s in Some (r ← r; Done (OId r, s))
  | TCall (HCancel id) => let '(rc, s) := timers_cancel id s in Some (Done (ORc rc, s))
  | TCall (HSetInterval id i) => let '(rc, s) := timers_set_interval id i s in Some (Done (ORc rc, s))
  | TCall (HReset id) => let '(rc, s) := timers_reset id s in Some (Done (ORc rc, s))
  | TTimeout => let '(t, s) := timers_timeout s in Some (Done (OTime t, s))
  | TExecute => r ← timers_execute fuel s; Some (s ← r; Done (ORc RcOk, s))
  end.

Fixpoint timers_run (fuel : nat) (cs : list tcall) (s : timers_t) : option (outcome (list tout * timers_t)) :=
  match cs with
  | [] => Some (Done ([], s))
  | c :: cs =>
      r ← timers_step fuel c s;
      match r with
      | Done (o, s) => r ← timers_run fuel cs s; Some ('(os, s) ← r; Done (o :: os, s))
      | Abort => Some Abort
      | Undef => Some Undef
      end
  end.

(** ** What timers are

    The timers that are due at some time, in the order of these times; no cancelled ones. *)

Record atimers := ATimers {
  at_next : Z;
  at_clock : clock_t * nat;
  at_live : list (Z * timer_t);
  at_fired : list timer_t;
}.

Definition a_now (c : clock_t * nat) : Z * (clock_t * nat) := let '(t, k) := clock_now_ms (readings c.2) c.1 in (t, (k, S c.2)).

Fixpoint a_ins (x : Z * timer_t) (l : list (Z * timer_t)) : list (Z * timer_t) :=
  match l with [] => [x] | y :: l => if decide (y.1 ≤ x.1) then y :: a_ins x l else x :: y :: l end.

Definition is_live (id : Z) (l : list (Z * timer_t)) : Prop := id ∈ (ti_id ∘ snd <$> l).
#[global] Instance is_live_dec id l : Decision (is_live id l).
Proof. unfold is_live. apply _. Defined.

Definition a_without (id : Z) (l : list (Z * timer_t)) : list (Z * timer_t) := filter (λ x, ti_id x.2 ≠ id) l.
Definition a_with (l : list (Z * timer_t)) (st : atimers) : atimers := ATimers (at_next st) (at_clock st) l (at_fired st).

(** The timer is due after its interval. *)
Definition a_schedule (now : Z) (t : timer_t) (st : atimers) : atimers := a_with (a_ins (now + ti_interval t, t) (a_without (ti_id t) (at_live st))) st.

Definition a_add (i f a : Z) (st : atimers) : atimers :=
  let '(now, k) := a_now (at_clock st) in
  a_schedule now (Timer (at_next st + 1) i f a) (ATimers (at_next st + 1) k (at_live st) (at_fired st)).

Definition a_cancel (id : Z) (st : atimers) : atimers := a_with (a_without id (at_live st)) st.

(** Handlers add and cancel timers. *)
Definition a_hcall (h : hcall) (st : atimers) : atimers :=
  match h with
  | HAdd i f a => if decide (f = 0) then st else a_add i f a st
  | HCancel id => a_cancel id st
  | _ => st
  end.

(** [execute]: while the first timer is due its handler is called, and then, unless that has cancelled it, it is scheduled again. *)
Inductive fires (now : Z) : atimers → atimers → Prop :=
| fires_stop st : (∀ w t, head (at_live st) = Some (w, t) → now < w) → fires now st st
| fires_one st st1 st2 w t l :
    at_live st = (w, t) :: l → w ≤ now →
    st1 = foldl (flip a_hcall) (ATimers (at_next st) (at_clock st) (at_live st) (at_fired st ++ [t])) (script (length (at_fired st))) →
    fires now (if decide (is_live (ti_id t) (at_live st1)) then a_schedule now t st1 else st1) st2 →
    fires now st st2.

Inductive a_step : tcall → atimers → tout → atimers → Prop :=
| as_add_null i a st : a_step (TCall (HAdd i 0 a)) st (OId (inr EFAULT)) st
| as_add i f a st : f ≠ 0 → a_step (TCall (HAdd i f a)) st (OId (inl (at_next st + 1))) (a_add i f a st)
| as_cancel id st : a_step (TCall (HCancel id)) st (ORc (if decide (is_live id (at_live st)) then RcOk else RcErr EINVAL)) (a_cancel id st)
| as_set_interval id i st w t now k : (w, t) ∈ at_live st → ti_id t = id → a_now (at_clock st) = (now, k) →
    a_step (TCall (HSetInterval id i)) st (ORc RcOk) (a_schedule now (Timer id i (ti_handler t) (ti_arg t)) (ATimers (at_next st) k (at_live st) (at_fired st)))
| as_reset id st w t now k : (w, t) ∈ at_live st → ti_id t = id → a_now (at_clock st) = (now, k) →
    a_step (TCall (HReset id)) st (ORc RcOk) (a_schedule now t (ATimers (at_next st) k (at_live st) (at_fired st)))
| as_dead h id st rc k : h = HReset id ∨ (∃ i, h = HSetInterval id i) → ¬ is_live id (at_live st) → k = at_clock st ∨ k = (a_now (at_clock st)).2 →
    a_step (TCall h) st (ORc rc) (ATimers (at_next st) k (at_live st) (at_fired st))
| as_timeout st now k : a_now (at_clock st) = (now, k) →
    a_step TTimeout st (OTime (match at_live st with (w, _) :: _ => Z.max (w - now) 0 | [] => -1 end)) (ATimers (at_next st) k (at_live st) (at_fired st))
| as_execute st st' now k : a_now (at_clock st) = (now, k) → fires now (ATimers (at_next st) k (at_live st) (at_fired st)) st' → a_step TExecute st (ORc RcOk) st'.

Inductive a_steps : list tcall → atimers → list tout → atimers → Prop :=
| ass_nil st : a_steps [] st [] st
| ass_cons c cs st o st1 os st2 : a_step c st o st1 → a_steps cs st1 os st2 → a_steps (c :: cs) st (o :: os) st2.

(** ** Sorted lists *)

Definition nd_id (n : node) : Z := ti_id (nd_timer n).
Definition entry (n : node) : Z * timer_t := (nd_when n, nd_timer n).

(** The timers among [l] that are not cancelled. *)
Definition live (c : gset Z) (l : list node) : list (Z * timer_t) := entry <$> filter (λ n, nd_id n ∉ c) l.

Definition sorted : list node → Prop := StronglySorted (λ x y, nd_when x ≤ nd_when y).

Lemma sorted_app l1 l2 : sorted (l1 ++ l2) ↔ sorted l1 ∧ sorted l2 ∧ ∀ x y, x ∈ l1 → y ∈ l2 → nd_when x ≤ nd_when y.
Proof.
  unfold sorted. induction l1 as [|z l1 IH]; simpl.
  { split; [intros H; split_and!; [constructor|done|]; intros ? ? ?%elem_of_nil; done|tauto]. }
  split.
  - intros H. apply StronglySorted_inv in H as [H1 H2]. apply IH in H1 as (? & ? & Hx). rewrite Forall_app, !Forall_forall in H2. destruct H2 as [H2 H3].
    split_and!; [constructor; [done|by rewrite Forall_forall]|done|]. intros x y [->|Hin]%elem_of_cons Hy; auto.
  - intros (H1 & H2 & H3). apply StronglySorted_inv in H1 as [H1 H4]. constructor.
    + apply IH. split_and!; [done|done|]. intros x y Hx Hy. apply H3; [by right|done].
    + rewrite Forall_app. split; [done|]. rewrite Forall_forall. intros y Hy. apply H3; [by left|done].
Qed.

Lemma mm_insert_perm n l : mm_insert n l ≡ₚ n :: l.
Proof. induction l as [|x l IH]; simpl; [done|]. case_decide; [|done]. rewrite IH. by apply Permutation_swap. Qed.

Lemma mm_insert_sorted n l : sorted l → sorted (mm_insert n l).
Proof.
  intros H. induction H as [|x l Hs IH Hx]; simpl; [repeat constructor|]. case_decide as Hd.
  - constructor; [done|]. rewrite mm_insert_perm. by constructor.
  - constructor; [by constructor|]. constructor; [lia|]. eapply Forall_impl; [exact Hx|]. simpl. intros; lia.
Qed.

(** Behind everything that is not later. *)
Lemma mm_insert_app n l1 l2 : (∀ x, x ∈ l1 → nd_when x ≤ nd_when n) → mm_insert n (l1 ++ l2) = l1 ++ mm_insert n l2.
Proof.
  induction l1 as [|x l1 IH]; intros H; simpl; [done|]. rewrite decide_True by (apply H; by left). f_equal. apply IH. intros y Hy. apply H. by right.
Qed.

Lemma live_insert c n l : sorted l → live c (mm_insert n l) = if decide (nd_id n ∈ c) then live c l else a_ins (entry n) (live c l).
Proof.
  unfold live. intros Hs. induction l as [|x l IH].
  { simpl. rewrite filter_cons, filter_nil. repeat case_decide; done. }
  apply StronglySorted_inv in Hs as [Hs Hx]. specialize (IH Hs). cbn [mm_insert]. destruct (decide (nd_when x ≤ nd_when n)) as [Hd|Hd].
  - rewrite !filter_cons. destruct (decide (nd_id x ∉ c)).
    + rewrite !fmap_cons, IH. destruct (decide (nd_id n ∈ c)); [done|]. cbn [a_ins]. by rewrite decide_True.
    + done.
  - rewrite filter_cons. destruct (decide (nd_id n ∈ c)).
    + by rewrite decide_False by tauto.
    + rewrite decide_True by done. rewrite fmap_cons. destruct (filter (λ n0, nd_id n0 ∉ c) (x :: l)) as [|y k] eqn:E; [done|]. rewrite fmap_cons. cbn [a_ins]. rewrite decide_False; [done|].
      assert (Hy : y ∈ x :: l) by (apply (list_elem_of_filter (λ n0, nd_id n0 ∉ c)); rewrite E; by left).
      simpl. apply elem_of_cons in Hy as [->|Hy]; [lia|]. rewrite Forall_forall in Hx. specialize (Hx y Hy). lia.
Qed.

Lemma live_without c id l : live ({[id]} ∪ c) l = a_without id (live c l).
Proof.
  unfold live, a_without. induction l as [|x l IH]; [done|]. rewrite !filter_cons. destruct (decide (nd_id x ∉ c)) as [Hc|Hc].
  - rewrite fmap_cons, filter_cons. simpl. destruct (decide (ti_id (nd_timer x) ≠ id)) as [Hi|Hi].
    + rewrite decide_True by (unfold nd_id in *; set_solver). by rewrite fmap_cons, IH.
    + rewrite decide_False by (unfold nd_id in *; set_solver). done.
  - rewrite decide_False by set_solver. done.
Qed.

Lemma without_id id l : id ∉ (ti_id ∘ snd <$> l) → a_without id l = l.
Proof.
  unfold a_without. intros H. induction l as [|x l IH]; [done|]. rewrite fmap_cons, not_elem_of_cons in H. destruct H as [H1 H2]. rewrite filter_cons, decide_True by done. by rewrite IH.
Qed.

Lemma live_ids c l : ti_id ∘ snd <$> live c l = nd_id <$> filter (λ n, nd_id n ∉ c) l.
Proof. unfold live. rewrite <- list_fmap_compose. done. Qed.

Lemma live_elem c l id : is_live id (live c l) ↔ id ∉ c ∧ id ∈ (nd_id <$> l).
Proof.
  unfold is_live. rewrite live_ids. rewrite !list_elem_of_fmap. split.
  - intros (n & -> & [H1 H2]%list_elem_of_filter). split; [done|]. by exists n.
  - intros (H1 & n & -> & H2). exists n. split; [done|]. by apply list_elem_of_filter.
Qed.

(** A cancelled id that is not there does not matter. *)
Lemma live_forget c id l : id ∉ (nd_id <$> l) → live (c ∖ {[id]}) l = live c l.
Proof.
  unfold live. intros H. f_equal. induction l as [|x l IH]; [done|]. rewrite fmap_cons, not_elem_of_cons in H. destruct H as [H1 H2].
  rewrite !filter_cons, (IH H2). destruct (decide (nd_id x ∉ c)); [rewrite decide_True by set_solver; done|rewrite decide_False by set_solver; done].
Qed.

(** ** The clock does not go back *)

(** The counter is there or not; the time of the operating system is monotone. *)
Record readings_ok : Prop := {
  rk_tsc : (∀ i, rd_tsc (readings i) = 0) ∨ (∀ i, rd_tsc (readings i) ≠ 0);
  rk_us : ∀ i, 0 ≤ rd_us (readings i) < 1000 * 2 ^ 62;
  rk_mono : ∀ i, rd_us (readings i) ≤ rd_us (readings (S i));
}.

(** Nothing before [lo] will be read. *)
Definition clock_ok (lo : Z) (c : clock_t) (i : nat) : Prop :=
  0 ≤ lo ≤ rd_us (readings i) / 1000 ∧ ((∀ i, rd_tsc (readings i) ≠ 0) → lo ≤ ck_last_time c ≤ rd_us (readings i) / 1000).

Lemma clock_ok_le lo lo' c i : clock_ok lo c i → 0 ≤ lo' ≤ lo → clock_ok lo' c i.
Proof. intros [H1 H2] H. split; [lia|]. intros Ht. specialize (H2 Ht). lia. Qed.

Lemma clock_now_mono lo c i t c' : readings_ok → clock_ok lo c i → clock_now_ms (readings i) c = (t, c') → lo ≤ t < 2 ^ 62 ∧ clock_ok t c' (S i).
Proof.
  intros [Htsc Hus Hm] [H1 H2] E.
  assert (Hms : rd_us (readings i) / 1000 ≤ rd_us (readings (S i)) / 1000) by (apply Z.div_le_mono; [lia|apply Hm]).
  assert (Hb : 0 ≤ rd_us (readings i) / 1000 < 2 ^ 62) by (specialize (Hus i); split; [apply Z.div_pos; lia|apply Z.div_lt_upper_bound; lia]).
  unfold clock_now_ms in E. destruct (decide (rd_tsc (readings i) = 0)) as [Hz|Hz].
  - injection E as <- <-. split; [lia|]. split; [lia|]. intros Hn. by specialize (Hn i).
  - assert (Hn : ∀ i, rd_tsc (readings i) ≠ 0) by (destruct Htsc as [Ht|Ht]; [by specialize (Ht i)|done]). specialize (H2 Hn).
    case_decide; injection E as <- <-; (split; [lia|]); split; simpl; lia.
Qed.

(** ** What holds of the map

    [pre] has been passed by [execute]; outside of it there is no such part.  [k] is the number of timers that the running handler will still
    add, [A] that of those that the program has added. *)

Definition is_add (h : hcall) : bool := match h with HAdd _ _ _ => true | _ => false end.
Definition adds (l : list hcall) : Z := Z.of_nat (length (filter is_add l)).
Fixpoint script_adds (n : nat) : Z := match n with O => 0 | S n => script_adds n + adds (script n) end.

Definition node_ok (s : timers_t) (n : node) : Prop :=
  (nd_addr n < tm_addr s)%nat ∧ 1 ≤ nd_id n ≤ tm_next_timer_id s ∧ 0 < ti_interval (nd_timer n) < 2 ^ 62 ∧ 0 ≤ nd_when n < 2 ^ 63.

Record linv (A k now : Z) (pre post : list node) (s : timers_t) : Prop := {
  li_map : tm_timers s = pre ++ post;
  li_sorted : sorted (pre ++ post);
  li_ids : NoDup (nd_id <$> post);
  li_addrs : NoDup (nd_addr <$> pre ++ post);
  li_nodes : Forall (node_ok s) (pre ++ post);
  li_cancelled : ∀ id, id ∈ tm_cancelled s → id ≤ tm_next_timer_id s;
  li_clock : clock_ok now (tm_clock s) (tm_reads s);
  li_next : 0 ≤ tm_next_timer_id s ∧ tm_next_timer_id s + k ≤ A + script_adds (length (tm_fired s));
}.

Definition abs (l : list node) (s : timers_t) : atimers := ATimers (tm_next_timer_id s) (tm_clock s, tm_reads s) (live (tm_cancelled s) l) (tm_fired s).

(** The timers that are due. *)
Definition due (now : Z) (l : list node) : nat := length (filter (λ n, nd_when n ≤ now) l).

Lemma due_insert_later now n l : now < nd_when n → due now (mm_insert n l) = due now l.
Proof. intros H. unfold due. rewrite mm_insert_perm, filter_cons, decide_False by lia. done. Qed.

(** A node is inserted. *)
Lemma linv_insert A k now pre post s w t :
  linv A k now pre post s → (∀ x, x ∈ pre → nd_when x ≤ w) → ti_id t ∉ (nd_id <$> post) → 1 ≤ ti_id t ≤ tm_next_timer_id s → 0 < ti_interval t < 2 ^ 62 → 0 ≤ w < 2 ^ 63 →
  linv A k now pre (mm_insert (Node (tm_addr s) w t) post) (tm_insert w t s)
  ∧ live (tm_cancelled s) (mm_insert (Node (tm_addr s) w t) post) = if decide (ti_id t ∈ tm_cancelled s) then live (tm_cancelled s) post else a_ins (w, t) (live (tm_cancelled s) post).
Proof.
  intros [] Hpre Hid Hn Hi Hw. set (n := Node (tm_addr s) w t). pose proof (proj1 (sorted_app pre post) li_sorted0) as (Hs1 & Hs2 & Hs3).
  assert (Happ : mm_insert n (pre ++ post) = pre ++ mm_insert n post) by (by apply mm_insert_app). split; [|by rewrite live_insert].
  split; simpl; try done.
  - rewrite li_map0. fold n. by rewrite Happ.
  - rewrite <- Happ. by apply mm_insert_sorted.
  - rewrite mm_insert_perm, fmap_cons. by constructor.
  - rewrite <- Happ, mm_insert_perm, fmap_cons. constructor; [|done]. intros (x & Hx & Hin)%list_elem_of_fmap. rewrite Forall_forall in li_nodes0. destruct (li_nodes0 x Hin) as [Hlt _].
    subst n. simpl in Hx. lia.
  - rewrite <- Happ, mm_insert_perm. constructor; [split_and!; simpl; try lia; unfold nd_id; simpl; lia|].
    eapply Forall_impl; [exact li_nodes0|]. intros x (H1 & H2 & H3 & H4). split_and!; simpl; lia.
Qed.

(** Reading the clock. *)
Lemma tm_now_spec A k now pre post s :
  readings_ok → linv A k now pre post s →
  ∃ t s', tm_now s = (t, s') ∧ now ≤ t < 2 ^ 62 ∧ linv A k t pre post s' ∧ a_now (tm_clock s, tm_reads s) = (t, (tm_clock s', tm_reads s'))
    ∧ s' = Timers (tm_next_timer_id s) (tm_clock s') (tm_timers s) (tm_cancelled s) (tm_addr s) (tm_reads s') (tm_fired s).
Proof.
  intros Hr []. unfold tm_now, a_now. simpl. destruct (clock_now_ms (readings (tm_reads s)) (tm_clock s)) as [t c'] eqn:E.
  destruct (clock_now_mono _ _ _ _ _ Hr li_clock0 E) as [Ht Hc]. eexists t, _. split; [done|]. split; [done|]. split; [|done]. by split.
Qed.

Lemma linv_now A k now now' pre post s : linv A k now pre post s → 0 ≤ now' ≤ now → linv A k now' pre post s.
Proof. intros [] H. split; try done. by eapply clock_ok_le. Qed.

Context (A B : Z).
Hypothesis (Hr : readings_ok) (HB : ∀ n, script_adds n ≤ B) (HAB : A + B < 2 ^ 31 - 1).

Definition hcall_ok (h : hcall) : Prop := match h with HAdd i _ _ => 0 < i < 2 ^ 62 | HCancel _ => True | _ => False end.

(** A timer that is added by the program or by a handler. *)
Lemma add_spec k now pre post s i f a :
  linv A (1 + k) now pre post s → 0 ≤ k → (∀ x, x ∈ pre → nd_when x ≤ now) → 0 ≤ now → 0 < i < 2 ^ 62 → f ≠ 0 →
  ∃ s' n, timers_add i f a s = (Done (inl (tm_next_timer_id s + 1)), s') ∧ linv A k now pre (mm_insert n post) s' ∧ now < nd_when n
    ∧ abs (mm_insert n post) s' = a_add i f a (abs post s) ∧ tm_fired s' = tm_fired s.
Proof.
  intros Hl Hk Hpre Hnow Hi Hf. unfold timers_add. rewrite decide_False by done. pose proof (li_next _ _ _ _ _ _ Hl) as [Hn0 Hn]. pose proof (HB (length (tm_fired s))) as HBn.
  rewrite decide_False by lia. destruct (tm_now_spec A (1 + k) now pre post s Hr Hl) as (t & s1 & E & Ht & Hl1 & Ha & Hs1). rewrite E. cbv beta iota zeta.
  set (s2 := Timers _ _ _ _ _ _ _). set (tm := Timer _ _ _ _).
  assert (Hn1 : tm_next_timer_id s1 = tm_next_timer_id s ∧ tm_fired s1 = tm_fired s ∧ tm_cancelled s1 = tm_cancelled s) by (by rewrite Hs1). destruct Hn1 as (Hn1 & Hn2 & Hn3).
  assert (Hl2 : linv A k t pre post s2).
  { destruct Hl1. split; simpl; try done; [| |lia].
    - eapply Forall_impl; [exact li_nodes0|]. intros x (? & ? & ?). split_and!; simpl; try lia; tauto.
    - intros id Hid. specialize (li_cancelled0 id Hid). lia. }
  assert (Hfresh : ti_id tm ∉ (nd_id <$> post)).
  { intros (x & Hx & Hin)%list_elem_of_fmap. pose proof (li_nodes _ _ _ _ _ _ Hl1) as Hnd. rewrite Forall_forall in Hnd. destruct (Hnd x) as (_ & ? & _); [apply elem_of_app; by right|].
    unfold nd_id in *. simpl in Hx. lia. }
  assert (Hw : u64 (t + i) = t + i) by (apply u64_small; lia). rewrite Hw.
  destruct (linv_insert A k t pre post s2 (t + i) tm Hl2) as [Hl3 Hlive]; [intros x Hx; specialize (Hpre x Hx); lia|done|simpl; lia|done|lia|].
  eexists _, (Node (tm_addr s2) (t + i) tm). split; [simpl; by rewrite Hn1|]. split; [by apply (linv_now _ _ t); [|lia]|]. split; [simpl; lia|]. split; [|done].
  assert (Hnc : ti_id tm ∉ tm_cancelled s2) by (intros Hin; pose proof (li_cancelled _ _ _ _ _ _ Hl1 _ Hin); simpl in *; lia).
  unfold a_add, abs. simpl at_clock. simpl at_next. rewrite Ha. cbv beta iota zeta. unfold a_schedule, a_with. simpl at_live. simpl at_next. simpl at_clock. simpl at_fired.
  change (tm_cancelled (tm_insert (t + i) tm s2)) with (tm_cancelled s2). rewrite Hlive, decide_False by done. simpl. rewrite Hn1, Hn2, Hn3.
  assert (Htm : tm = Timer (tm_next_timer_id s + 1) i f a) by (subst tm; by rewrite Hn1). rewrite Htm.
  f_equal. f_equal. symmetry. apply without_id. rewrite live_ids. intros (x & Hx & [_ Hin]%list_elem_of_filter)%list_elem_of_fmap. apply Hfresh. rewrite Htm. simpl. rewrite Hx. by apply list_elem_of_fmap_2.
Qed.

Lemma cancel_spec k now pre post s id :
  linv A k now pre post s →
  ∃ rc s', timers_cancel id s = (rc, s') ∧ linv A k now pre post s' ∧ abs post s' = a_cancel id (abs post s) ∧ tm_fired s' = tm_fired s
    ∧ (pre = [] → rc = if decide (is_live id (live (tm_cancelled s) post)) then RcOk else RcErr EINVAL).
Proof.
  intros Hl. unfold timers_cancel. pose proof Hl as [].
  assert (Hsame : id ∉ (ti_id ∘ snd <$> live (tm_cancelled s) post) → abs post s = a_cancel id (abs post s)).
  { intros H. unfold a_cancel, a_with, abs. simpl. by rewrite without_id. }
  destruct (list_find (match_by_id id) (tm_timers s)) as [[i n]|] eqn:E.
  - apply list_find_Some in E as (E1 & E2 & _). apply bool_decide_unpack in E2. assert (Hn : n ∈ pre ++ post) by (rewrite <- li_map0; by eapply list_elem_of_lookup_2).
    case_decide as Hc.
    + eexists _, s. split; [done|]. split; [done|]. assert (Hnl : ¬ is_live id (live (tm_cancelled s) post)) by (rewrite live_elem; tauto). split; [by apply Hsame|]. split; [done|].
      intros _. by rewrite decide_False.
    + eexists _, _. split; [done|]. split; [split; simpl; try done|].
      * intros id' [->%elem_of_singleton|Hin]%elem_of_union; [|auto]. rewrite Forall_forall in li_nodes0. destruct (li_nodes0 n Hn) as (_ & H & _). unfold nd_id in H. lia.
      * split; [unfold abs, a_cancel, a_with; simpl; by rewrite live_without|]. split; [done|]. intros ->. rewrite decide_True; [done|]. apply live_elem. split; [done|].
        apply list_elem_of_fmap. exists n. split; [done|]. by simpl in Hn.
  - eexists _, s. split; [done|]. split; [done|].
    assert (Hno : id ∉ (nd_id <$> pre ++ post)).
    { intros (x & Hx & Hin)%list_elem_of_fmap. rewrite <- li_map0 in Hin. apply list_find_None in E. rewrite Forall_forall in E. apply (E x Hin). by apply bool_decide_pack. }
    assert (Hnl : ¬ is_live id (live (tm_cancelled s) post)) by (rewrite live_elem; intros [_ H]; apply Hno; rewrite fmap_app; apply elem_of_app; by right).
    split; [by apply Hsame|]. split; [done|]. intros _. by rewrite decide_False.
Qed.

Lemma linv_fewer k k' now pre post s : linv A k now pre post s → k' ≤ k → linv A k' now pre post s.
Proof. intros [] H. split; try done. lia. Qed.

Lemma adds_cons h l : adds (h :: l) = (if is_add h then 1 else 0) + adds l.
Proof. unfold adds. rewrite filter_cons. destruct (is_add h); simpl; lia. Qed.

Lemma adds_pos l : 0 ≤ adds l.
Proof. unfold adds. lia. Qed.

(** What a handler does to the map while the iterator is at [e]. *)
Lemma hcalls_spec l now pre e post s :
  linv A (adds l) now pre (e :: post) s → nd_when e ≤ now → 0 ≤ now → Forall hcall_ok l →
  ∃ s' post', do_hcalls l s = Done s' ∧ linv A 0 now pre (e :: post') s' ∧ abs (e :: post') s' = foldl (flip a_hcall) (abs (e :: post) s) l
    ∧ due now post' = due now post ∧ tm_fired s' = tm_fired s.
Proof.
  revert post s. induction l as [|h l IH]; intros post s Hl He Hnow Hok.
  { exists s, post. split; [done|]. split; [|done]. by apply (linv_fewer (adds [])). }
  apply Forall_cons in Hok as [Hh Hok]. pose proof (adds_pos l). rewrite adds_cons in Hl.
  assert (Hpre : ∀ x, x ∈ pre → nd_when x ≤ now).
  { intros x Hx. pose proof (li_sorted _ _ _ _ _ _ Hl) as (_ & _ & H3)%sorted_app. specialize (H3 x e Hx). rewrite elem_of_cons in H3. specialize (H3 (or_introl eq_refl)). lia. }
  assert (Hstep : ∃ s1 post1, do_hcall h s = Done s1 ∧ linv A (adds l) now pre (e :: post1) s1 ∧ abs (e :: post1) s1 = a_hcall h (abs (e :: post) s)
    ∧ due now post1 = due now post ∧ tm_fired s1 = tm_fired s).
  { destruct h as [i f a|id|id i|id]; simpl in Hh; [| |done|done].
    - simpl do_hcall. simpl a_hcall. destruct (decide (f = 0)) as [->|Hf].
      + exists s, post. split; [done|]. split; [|done]. apply (linv_fewer (1 + adds l)); [done|lia].
      + destruct (add_spec (adds l) now pre (e :: post) s i f a) as (s1 & n & E & Hl1 & Hn & Ha & Hfi); try done. rewrite E. simpl.
        assert (Hins : mm_insert n (e :: post) = e :: mm_insert n post) by (simpl; by rewrite decide_True by lia). rewrite Hins in *.
        exists s1, (mm_insert n post). split; [done|]. split; [done|]. split; [done|]. split; [by apply due_insert_later|done].
    - destruct (cancel_spec (adds l) now pre (e :: post) s id) as (rc & s1 & E & Hl1 & Ha & Hfi & _); [done|]. simpl. rewrite E. by exists s1, post. }
  destruct Hstep as (s1 & post1 & Hd & Hl1 & Ha & Hdue & Hfi). simpl. rewrite Hd, bind_Done. destruct (IH post1 s1 Hl1 He Hnow Hok) as (s' & post' & H1 & H2 & H3 & H4 & H5).
  exists s', post'. split; [done|]. split; [done|]. split; [by rewrite H3, Ha|]. split; congruence.
Qed.

(** *** Iterators *)

Lemma at_addr_app pre e post : NoDup (nd_addr <$> pre ++ e :: post) → at_addr (nd_addr e) (pre ++ e :: post) = Some (length pre, e).
Proof.
  intros Hnd. unfold at_addr. apply list_find_Some. split; [by rewrite lookup_app_r, Nat.sub_diag by lia|]. split; [done|].
  intros j y Hj Hlt Hy. rewrite lookup_app_l in Hj by lia. rewrite fmap_app, fmap_cons in Hnd. apply NoDup_app in Hnd as (_ & Hnd & _).
  apply (Hnd (nd_addr y)); [by apply list_elem_of_fmap_2, list_elem_of_lookup_2 with j|]. rewrite Hy. by left.
Qed.

Definition it_of (post : list node) : option nat := nd_addr <$> head post.

Lemma it_next_app pre e post : NoDup (nd_addr <$> pre ++ e :: post) → it_next (nd_addr e) (pre ++ e :: post) = it_of post.
Proof.
  intros Hnd. unfold it_next. rewrite at_addr_app by done. rewrite lookup_app_r by lia. replace (S (length pre) - length pre)%nat with 1%nat by lia. by destruct post.
Qed.

Lemma linv_pass k now pre e post s : linv A k now pre (e :: post) s → linv A k now (pre ++ [e]) post s.
Proof.
  intros []. rewrite (cons_middle e pre post), app_assoc in *. split; try done. by apply NoDup_cons in li_ids0 as [_ ?].
Qed.

Hypothesis (Hscript : ∀ n, Forall hcall_ok (script n)).

(** The handler of [e] is called. *)
Lemma fire_spec now pre e post s :
  linv A 0 now pre (e :: post) s → nd_when e ≤ now → 0 ≤ now < 2 ^ 62 →
  ∃ s1 post1, call_handler (nd_timer e) s = Done s1 ∧ linv A 0 now pre (e :: post1) s1
    ∧ abs (e :: post1) s1 = foldl (flip a_hcall) (ATimers (tm_next_timer_id s) (tm_clock s, tm_reads s) (live (tm_cancelled s) (e :: post)) (tm_fired s ++ [nd_timer e])) (script (length (tm_fired s)))
    ∧ due now post1 = due now post.
Proof.
  intros Hl He Hnow. unfold call_handler. set (l := script (length (tm_fired s))). set (s0 := Timers _ _ _ _ _ _ _).
  assert (Hl0 : linv A (adds l) now pre (e :: post) s0).
  { destruct Hl. split; try done. simpl. rewrite length_app, Nat.add_comm. simpl. fold l. lia. }
  destruct (hcalls_spec l now pre e post s0 Hl0 He) as (s1 & post1 & H1 & H2 & H3 & H4 & H5); [lia|apply Hscript|]. exists s1, post1. by split_and!.
Qed.

(** It is scheduled again. *)
Lemma again_spec now pre e post s :
  linv A 0 now pre (e :: post) s → nd_when e ≤ now → 0 ≤ now < 2 ^ 62 →
  let w := now + ti_interval (nd_timer e) in let n := Node (tm_addr s) w (nd_timer e) in let s' := tm_insert w (nd_timer e) s in
  u64 w = w ∧ at_addr (nd_addr e) (tm_timers s) = Some (length pre, e) ∧ it_next (nd_addr e) (tm_timers s') = it_of (mm_insert n post)
  ∧ linv A 0 now (pre ++ [e]) (mm_insert n post) s'
  ∧ abs (mm_insert n post) s' = (if decide (is_live (nd_id e) (at_live (abs (e :: post) s))) then a_schedule now (nd_timer e) (abs (e :: post) s) else abs (e :: post) s)
  ∧ now < nd_when n.
Proof.
  intros Hl He Hnow w n s'. pose proof (li_nodes _ _ _ _ _ _ Hl) as Hnodes. apply Forall_app in Hnodes as [Hnp Hnodes]. apply Forall_cons in Hnodes as [(Ha & Hid & Hi & _) _].
  pose proof (linv_pass 0 now pre e post s Hl) as Hl1. pose proof (li_ids _ _ _ _ _ _ Hl) as Hids. rewrite fmap_cons, NoDup_cons in Hids. destruct Hids as [Hni _].
  pose proof (li_sorted _ _ _ _ _ _ Hl) as (_ & _ & Hsp)%sorted_app.
  destruct (linv_insert A 0 now (pre ++ [e]) post s w (nd_timer e) Hl1) as [Hl2 Hlive]; [|done|done|done|lia|].
  { intros x [Hx|Hx]%elem_of_app; [specialize (Hsp x e Hx (list_elem_of_here _ _)); lia|apply list_elem_of_singleton in Hx as ->; lia]. }
  fold s' in Hl2. fold n in Hl2. split; [apply u64_small; lia|]. split; [rewrite (li_map _ _ _ _ _ _ Hl); apply at_addr_app, Hl|]. split.
  { rewrite (li_map _ _ _ _ _ _ Hl2), <- app_assoc. apply it_next_app. pose proof (li_addrs _ _ _ _ _ _ Hl2) as H. by rewrite <- app_assoc in H. }
  split; [done|]. split; [|simpl; lia]. unfold abs at 1. simpl tm_cancelled. fold n in Hlive. rewrite Hlive. unfold abs. simpl at_live. fold (nd_id e).
  destruct (decide (nd_id e ∈ tm_cancelled s)) as [Hc|Hc].
  - rewrite decide_False by (rewrite live_elem; tauto). simpl. unfold live. by rewrite filter_cons, decide_False by tauto.
  - rewrite decide_True by (rewrite live_elem, fmap_cons; split; [done|by left]). unfold a_schedule, a_with. simpl. f_equal. f_equal.
    unfold live. rewrite filter_cons, decide_True by done. rewrite fmap_cons. unfold a_without. rewrite filter_cons, decide_False by (simpl; tauto). fold (live (tm_cancelled s) post). symmetry.
    apply without_id. rewrite live_ids. intros (x & Hx & [_ Hin]%list_elem_of_filter)%list_elem_of_fmap. apply Hni. apply list_elem_of_fmap. by exists x.
Qed.

(** [execute] passes [pre'] and stops. *)
Lemma exec_loop_spec d len now pre post s :
  (due now post ≤ d)%nat → (length post ≤ len)%nat → linv A 0 now pre post s → 0 ≤ now < 2 ^ 62 →
  ∃ n pre' post' s', (∀ fuel, (n ≤ fuel)%nat → exec_loop fuel now (it_of post) s = Some (Done (it_of post', s')))
    ∧ linv A 0 now pre' post' s' ∧ pre `prefix_of` pre' ∧ head (pre' ++ post') = head (pre ++ post) ∧ fires now (abs post s) (abs post' s').
Proof.
  revert len pre post s. induction d as [d IHd] using lt_wf_ind. intros len. induction len as [|len IHlen]; intros pre post s Hd Hlen Hl Hnow.
  { destruct post; [|simpl in Hlen; lia]. exists 0%nat, pre, [], s. split; [intros fuel _; by destruct fuel|]. split; [done|]. split; [done|]. split; [done|]. by apply fires_stop. }
  destruct post as [|e post].
  { exists 0%nat, pre, [], s. split; [intros fuel _; by destruct fuel|]. split; [done|]. split; [done|]. split; [done|]. by apply fires_stop. }
  pose proof (li_addrs _ _ _ _ _ _ Hl) as Hnd. pose proof (li_map _ _ _ _ _ _ Hl) as Hmap.
  assert (Hstep : ∀ fuel, exec_loop (S fuel) now (it_of (e :: post)) s =
    if decide (nd_id e ∈ tm_cancelled s) then exec_loop fuel now (it_of post) (tm_with (tm_timers s) (tm_cancelled s ∖ {[nd_id e]}) s)
    else if decide (nd_when e > now) then Some (Done (it_of (e :: post), s))
    else match call_handler (nd_timer e) s with
         | Done s => match at_addr (nd_addr e) (tm_timers s) with
                     | None => Some Undef
                     | Some (_, n) => let s := tm_insert (u64 (now + ti_interval (nd_timer n))) (nd_timer n) s in exec_loop fuel now (it_next (nd_addr e) (tm_timers s)) s
                     end
         | Abort => Some Abort | Undef => Some Undef end).
  { intros fuel. simpl. by rewrite Hmap, at_addr_app, it_next_app by done. }
  destruct (decide (nd_id e ∈ tm_cancelled s)) as [Hc|Hc].
  - set (s1 := tm_with (tm_timers s) (tm_cancelled s ∖ {[nd_id e]}) s) in *.
    assert (Hl1 : linv A 0 now (pre ++ [e]) post s1).
    { apply linv_pass in Hl. destruct Hl. split; try done. simpl. intros id Hid. apply li_cancelled0. set_solver. }
    assert (Hlv : abs post s1 = abs (e :: post) s).
    { unfold abs. simpl. f_equal. rewrite live_forget; [|pose proof (li_ids _ _ _ _ _ _ Hl) as Hids; by apply NoDup_cons in Hids as [? _]]. unfold live. rewrite filter_cons, decide_False by tauto. done. }
    destruct (IHlen (pre ++ [e]) post s1) as (n & pre' & post' & s' & H1 & H2 & H3 & H4 & H5); [|simpl in Hlen; lia|done|done|].
    { unfold due in *. rewrite filter_cons in Hd. destruct (decide (nd_when e ≤ now)); simpl in Hd; lia. }
    exists (S n), pre', post', s'. split; [intros [|fuel] Hf; [lia|]; rewrite Hstep; apply H1; lia|]. split; [done|]. split; [etrans; [apply prefix_app_r|]; done|].
    split; [by rewrite H4, <- app_assoc|]. by rewrite <- Hlv.
  - destruct (decide (nd_when e > now)) as [Hw|Hw].
    { exists 1%nat, pre, (e :: post), s. split; [intros [|fuel] Hf; [lia|]; by rewrite Hstep|]. split; [done|]. split; [done|]. split; [done|]. apply fires_stop.
      unfold abs, live. simpl. rewrite filter_cons, decide_True by done. intros w t [= <- <-]. lia. }
    destruct (fire_spec now pre e post s Hl) as (s1 & post1 & Hcall & Hl1 & Ha1 & Hdue1); [lia|done|]. set (n1 := Node (tm_addr s1) (now + ti_interval (nd_timer e)) (nd_timer e)).
    destruct (again_spec now pre e post1 s1 Hl1) as (Hw1 & Hat & Hnx & Hl2 & Ha2 & Hn1); [lia|done|]. fold n1 in Hl2, Ha2, Hn1, Hnx.
    set (s2 := tm_insert (now + ti_interval (nd_timer e)) (nd_timer e) s1) in *.
    destruct (IHd (due now post)) with (len := length (mm_insert n1 post1)) (pre := pre ++ [e]) (post := mm_insert n1 post1) (s := s2)
      as (n & pre' & post' & s' & H1 & H2 & H3 & H4 & H5); [|by rewrite due_insert_later, Hdue1|done|done|done|].
    { unfold due in *. rewrite filter_cons, decide_True in Hd by lia. simpl in Hd. lia. }
    exists (S n), pre', post', s'. split; [intros [|fuel] Hf; [lia|]; rewrite Hstep, Hcall, Hat; cbv zeta; rewrite Hw1; fold s2; rewrite Hnx; apply H1; lia|]. split; [done|].
    split; [etrans; [apply prefix_app_r|]; done|]. split; [rewrite H4, <- app_assoc; by destruct pre|].
    assert (Heq : (let st1 := foldl (flip a_hcall) (ATimers (tm_next_timer_id s) (tm_clock s, tm_reads s) (live (tm_cancelled s) (e :: post)) (tm_fired s ++ [nd_timer e]))
        (script (length (tm_fired s))) in if decide (is_live (ti_id (nd_timer e)) (at_live st1)) then a_schedule now (nd_timer e) st1 else st1) = abs (mm_insert n1 post1) s2).
    { cbv zeta. rewrite <- Ha1. symmetry. exact Ha2. }
    eapply fires_one with (w := nd_when e) (t := nd_timer e); [unfold abs, live; simpl; by rewrite filter_cons, decide_True by done|lia|reflexivity|].
    exact (eq_ind_r (λ st, fires now st _) H5 Heq).
Qed.

End timers.

Section refinement.
Context (readings : nat → reading) (script : nat → list hcall) (B : Z).
Hypothesis (Hr : readings_ok readings) (HB : ∀ n, script_adds script n ≤ B) (Hscript : ∀ n, Forall hcall_ok (script n)).

(** Between two calls of the program, of which [A] have added timers. *)
Definition inv (A : Z) (s : timers_t) : Prop := ∃ now, linv readings script A 0 now [] (tm_timers s) s.

Lemma inv_now A s : inv A s → ∃ t s', tm_now readings s = (t, s') ∧ 0 ≤ t < 2 ^ 62 ∧ linv readings script A 0 t [] (tm_timers s) s'
  ∧ a_now readings (tm_clock s, tm_reads s) = (t, (tm_clock s', tm_reads s'))
  ∧ s' = Timers (tm_next_timer_id s) (tm_clock s') (tm_timers s) (tm_cancelled s) (tm_addr s) (tm_reads s') (tm_fired s).
Proof.
  intros [now Hl]. destruct (tm_now_spec readings script A 0 now [] (tm_timers s) s Hr Hl) as (t & s' & H1 & H2 & H3 & H4 & H5). exists t, s'. split_and!; try done; [|lia].
  pose proof (li_clock _ _ _ _ _ _ _ _ Hl) as [H _]. lia.
Qed.

(** *** execute *)

Lemma erase_pre pre post : NoDup (nd_addr <$> pre ++ post) → erase_range (it_of (pre ++ post)) (it_of post) (pre ++ post) = Done post.
Proof.
  intros Hnd. unfold erase_range. destruct pre as [|b pre]; simpl app.
  - destruct post as [|e post]; [done|]. pose proof (at_addr_app [] e post Hnd) as H. cbn [app length] in H. change (it_of (e :: post)) with (Some (nd_addr e)). cbv iota beta. by rewrite H.
  - pose proof (at_addr_app [] b (pre ++ post) Hnd) as H. cbn [app length] in H. change (it_of (b :: pre ++ post)) with (Some (nd_addr b)). cbv iota beta. rewrite H. simpl length.
    assert (Hj : (match it_of post with Some a => fst <$> at_addr a (b :: pre ++ post) | None => Some (S (length (pre ++ post))) end) = Some (length (b :: pre))).
    { destruct post as [|e post]; [simpl; by rewrite app_nil_r|]. change (it_of (e :: post)) with (Some (nd_addr e)). cbv iota beta. pose proof (at_addr_app (b :: pre) e post Hnd) as H'. cbn [app length] in H'. by rewrite H'. }
    rewrite Hj. rewrite decide_True by lia. simpl. by rewrite drop_app_length.
Qed.

Lemma execute_spec A s :
  inv A s → A + B < 2 ^ 31 - 1 →
  ∃ n s' t k, (∀ fuel, (n ≤ fuel)%nat → timers_execute readings script fuel s = Some (Done s')) ∧ inv A s'
    ∧ a_now readings (tm_clock s, tm_reads s) = (t, k) ∧ fires readings script t (ATimers (tm_next_timer_id s) k (live (tm_cancelled s) (tm_timers s)) (tm_fired s)) (abs (tm_timers s') s').
Proof.
  intros Hi HA. destruct (inv_now A s Hi) as (t & s1 & E & Ht & Hl & Ha & Hs1).
  destruct (exec_loop_spec readings script A B Hr HB HA Hscript (due t (tm_timers s)) (length (tm_timers s)) t [] (tm_timers s) s1) as (n & pre & post & s2 & Hx & Hl2 & _ & Hhd & Hf); [lia|lia|done|lia|].
  exists n, (tm_with post (tm_cancelled s2) s2), t, (tm_clock s1, tm_reads s1). split.
  { intros fuel Hfu. unfold timers_execute. rewrite E. cbv beta iota zeta. assert (Hm : tm_timers s1 = tm_timers s) by (by rewrite Hs1). rewrite Hm.
    change (nd_addr <$> head (tm_timers s)) with (it_of (tm_timers s)). rewrite (Hx fuel Hfu). simpl. rewrite (li_map _ _ _ _ _ _ _ _ Hl2).
    assert (Hit : it_of (tm_timers s) = it_of (pre ++ post)) by (unfold it_of; by rewrite Hhd). rewrite Hit, erase_pre by apply Hl2. done. }
  split; [|split; [done|]].
  - exists t. destruct Hl2. pose proof (proj1 (sorted_app pre post) li_sorted0) as (_ & ? & _). apply Forall_app in li_nodes0 as [_ Hn]. rewrite fmap_app in li_addrs0. apply NoDup_app in li_addrs0 as (_ & _ & ?).
    by split.
  - assert (Hb : ATimers (tm_next_timer_id s) (tm_clock s1, tm_reads s1) (live (tm_cancelled s) (tm_timers s)) (tm_fired s) = abs (tm_timers s) s1) by (rewrite Hs1; done).
    rewrite Hb. exact Hf.
Qed.

(** *** timeout *)

Lemma timeout_loop_spec A now l s :
  linv readings script A 0 now [] l s →
  let r := timeout_loop l (tm_cancelled s) in
  linv readings script A 0 now [] r.1 (tm_with r.1 r.2 s) ∧ live r.2 r.1 = live (tm_cancelled s) l ∧ match r.1 with n :: _ => nd_id n ∉ r.2 | [] => True end.
Proof.
  revert s. induction l as [|n l IH]; intros s Hl; simpl.
  { split; [|done]. destruct Hl. by split. }
  fold (nd_id n). destruct (decide (nd_id n ∈ tm_cancelled s)) as [Hc|Hc].
  - pose proof (li_ids _ _ _ _ _ _ _ _ Hl) as Hids. rewrite fmap_cons, NoDup_cons in Hids.
    destruct (IH (tm_with l (tm_cancelled s ∖ {[nd_id n]}) s)) as (H1 & H2 & H3).
    + apply linv_pass in Hl. destruct Hl. rewrite fmap_app in li_addrs0. apply NoDup_app in li_addrs0 as (_ & _ & ?). apply sorted_app in li_sorted0 as (_ & ? & _). apply Forall_app in li_nodes0 as [_ ?].
      split; try done. simpl. intros id Hid. apply li_cancelled0. set_solver.
    + simpl in H1, H2, H3. split; [done|]. split; [|done]. rewrite H2, live_forget by tauto. unfold live. by rewrite filter_cons, decide_False by tauto.
  - simpl. split; [|done]. destruct Hl. by split.
Qed.

Lemma s64_small z : - 2 ^ 63 ≤ z < 2 ^ 63 → s64 (u64 z) = z.
Proof.
  intros H. unfold s64, u64. rewrite Zplus_mod_idemp_l. rewrite Z.mod_small; lia.
Qed.

Lemma timeout_spec A s :
  inv A s → ∃ r s', timers_timeout readings s = (r, s') ∧ inv A s' ∧ a_step readings script TTimeout (abs (tm_timers s) s) (OTime r) (abs (tm_timers s') s').
Proof.
  intros Hi. destruct (inv_now A s Hi) as (t & s1 & E & Ht & Hl & Ha & Hs1). unfold timers_timeout. rewrite E.
  pose proof (timeout_loop_spec A t (tm_timers s) s1 Hl) as H. assert (Hm : tm_timers s1 = tm_timers s) by (by rewrite Hs1). rewrite Hm. destruct (timeout_loop (tm_timers s) (tm_cancelled s1)) as [l c].
  simpl in H. destruct H as (H1 & H2 & H3). eexists _, _. split; [done|]. split; [by exists t|].
  assert (Hres : match l with n :: _ => Z.max (s64 (u64 (nd_when n - t))) 0 | [] => -1 end = match live (tm_cancelled s) (tm_timers s) with (w, _) :: _ => Z.max (w - t) 0 | [] => -1 end).
  { assert (Hc : tm_cancelled s1 = tm_cancelled s) by (by rewrite Hs1). rewrite <- Hc, <- H2. destruct l as [|n l]; [done|]. unfold live. rewrite filter_cons, decide_True by done. simpl.
    pose proof (li_nodes _ _ _ _ _ _ _ _ H1) as Hn. apply Forall_cons in Hn as [(_ & _ & _ & Hw) _]. rewrite s64_small by lia. done. }
  rewrite Hres. assert (Hst : abs l (tm_with l c s1) = ATimers (tm_next_timer_id s) (tm_clock s1, tm_reads s1) (live (tm_cancelled s) (tm_timers s)) (tm_fired s)).
  { unfold abs. simpl. rewrite H2. by rewrite Hs1. }
  simpl tm_timers. rewrite Hst. by apply (as_timeout readings script (abs (tm_timers s) s)).
Qed.

(** *** A timer is moved *)

Lemma live_app c l1 l2 : live c (l1 ++ l2) = live c l1 ++ live c l2.
Proof. unfold live. by rewrite filter_app, fmap_app. Qed.

Lemma live_take_out c l1 n l2 : NoDup (nd_id <$> l1 ++ n :: l2) → a_without (nd_id n) (live c (l1 ++ n :: l2)) = live c (l1 ++ l2).
Proof.
  intros Hnd. rewrite fmap_app, fmap_cons, NoDup_app, NoDup_cons in Hnd. destruct Hnd as (_ & H1 & H2 & _).
  assert (Hw : ∀ l, nd_id n ∉ (nd_id <$> l) → a_without (nd_id n) (live c l) = live c l).
  { intros l Hl. apply without_id. rewrite live_ids. intros (x & Hx & [_ Hin]%list_elem_of_filter)%list_elem_of_fmap. apply Hl, list_elem_of_fmap. by exists x. }
  rewrite !live_app. unfold a_without at 1. rewrite filter_app. fold (a_without (nd_id n) (live c l1)). rewrite Hw by (intros Hin; apply (H1 _ Hin); by left). f_equal.
  unfold live at 1. rewrite filter_cons. destruct (decide (nd_id n ∉ c)); [rewrite fmap_cons, filter_cons, decide_False by (simpl; unfold nd_id; tauto)|]; by apply Hw.
Qed.

Lemma move_spec A s id i n t :
  inv A s → list_find (match_by_id id) (tm_timers s) = Some (i, n) → ti_id t = id → 0 < ti_interval t < 2 ^ 62 →
  let '(now, s1) := tm_now readings s in
  let s' := tm_insert (u64 (now + ti_interval t)) t (tm_with (delete i (tm_timers s1)) (tm_cancelled s1) s1) in
  inv A s' ∧ a_now readings (tm_clock s, tm_reads s) = (now, (tm_clock s', tm_reads s')) ∧ tm_fired s' = tm_fired s ∧ tm_next_timer_id s' = tm_next_timer_id s
  ∧ nd_id n = id
  ∧ (if decide (is_live id (live (tm_cancelled s) (tm_timers s))) then
       (nd_when n, nd_timer n) ∈ live (tm_cancelled s) (tm_timers s)
       ∧ live (tm_cancelled s') (tm_timers s') = a_ins (now + ti_interval t, t) (a_without id (live (tm_cancelled s) (tm_timers s)))
     else live (tm_cancelled s') (tm_timers s') = live (tm_cancelled s) (tm_timers s)).
Proof.
  intros Hi Hf Ht Hint. destruct (inv_now A s Hi) as (now & s1 & -> & Hnow & Hl & Ha & Hs1). cbv zeta. apply list_find_Some in Hf as (Hin & Hid & _). apply bool_decide_unpack in Hid.
  assert (Hm : tm_timers s1 = tm_timers s ∧ tm_cancelled s1 = tm_cancelled s ∧ tm_fired s1 = tm_fired s ∧ tm_next_timer_id s1 = tm_next_timer_id s) by (by rewrite Hs1). destruct Hm as (Hm & Hc & Hfi & Hnx).
  rewrite Hm, Hc. pose proof (take_drop_middle _ _ _ Hin) as Hsplit. remember (take i (tm_timers s)) as l1. remember (drop (S i) (tm_timers s)) as l2.
  assert (Hdel : delete i (tm_timers s) = l1 ++ l2) by (by rewrite delete_take_drop, <- Heql1, <- Heql2). rewrite Hdel. rewrite <- Hsplit in *. clear Heql1 Heql2 Hsplit Hdel.
  set (s2 := tm_with (l1 ++ l2) (tm_cancelled s) s1). pose proof (li_ids _ _ _ _ _ _ _ _ Hl) as Hids.
  assert (Hperm : l1 ++ n :: l2 ≡ₚ n :: l1 ++ l2) by (by rewrite Permutation_middle).
  assert (Hids' : nd_id n ∉ (nd_id <$> l1 ++ l2) ∧ NoDup (nd_id <$> l1 ++ l2)) by (rewrite Hperm, fmap_cons, NoDup_cons in Hids; done). destruct Hids' as [Hnot Hids'].
  pose proof (li_nodes _ _ _ _ _ _ _ _ Hl) as Hnodes. simpl in Hnodes. rewrite Hperm in Hnodes. apply Forall_cons in Hnodes as [(_ & Hnid & _) Hnodes].
  assert (Hl2 : linv readings script A 0 now [] (l1 ++ l2) s2).
  { destruct Hl. split; try done.
    - simpl in *. apply sorted_app in li_sorted0 as (? & Hs2 & Hs3). apply StronglySorted_inv in Hs2 as [? _]. apply sorted_app. split_and!; try done. intros x y Hx Hy. apply Hs3; [done|by right].
    - simpl in *. rewrite Hperm, fmap_cons in li_addrs0. by apply NoDup_cons in li_addrs0 as [_ ?].
    - intros id' Hid'. apply li_cancelled0. by rewrite Hc. }
  assert (Hw : u64 (now + ti_interval t) = now + ti_interval t) by (apply u64_small; lia). rewrite Hw. assert (Hidn : nd_id n = id) by done.
  destruct (linv_insert readings script A 0 now [] (l1 ++ l2) s2 (now + ti_interval t) t Hl2) as [Hl3 Hlive]; [by intros x Hx%elem_of_nil|by rewrite Ht, <- Hidn|rewrite Ht, <- Hidn; exact Hnid|done|lia|].
  split; [exists now; rewrite (li_map _ _ _ _ _ _ _ _ Hl3); exact Hl3|]. split; [done|]. split; [done|]. split; [done|]. split; [done|].
  assert (Hlive' : live (tm_cancelled (tm_insert (now + ti_interval t) t s2)) (tm_timers (tm_insert (now + ti_interval t) t s2))
    = if decide (ti_id t ∈ tm_cancelled s) then live (tm_cancelled s) (l1 ++ l2) else a_ins (now + ti_interval t, t) (live (tm_cancelled s) (l1 ++ l2))).
  { rewrite (li_map _ _ _ _ _ _ _ _ Hl3). exact Hlive. }
  rewrite Hlive', Ht.
  rewrite <- (live_take_out (tm_cancelled s) l1 n l2 Hids), Hidn. destruct (decide (is_live id (live (tm_cancelled s) (l1 ++ n :: l2)))) as [Hlv|Hlv].
  - pose proof (proj1 (live_elem _ _ _) Hlv) as [Hnc _]. rewrite decide_False by done. split; [|done]. unfold live. apply list_elem_of_fmap. exists n. split; [done|]. apply list_elem_of_filter.
    split; [by rewrite Hidn|]. apply elem_of_app. right. by left.
  - assert (Hcn : id ∈ tm_cancelled s). { destruct (decide (id ∈ tm_cancelled s)); [done|]. destruct Hlv. apply live_elem. split; [done|]. apply list_elem_of_fmap. exists n. split; [done|]. apply elem_of_app. right. by left. }
    rewrite decide_True by done. by apply without_id.
Qed.

(** ** Every call *)

Definition tcall_ok (c : tcall) : Prop := match c with TCall (HAdd i _ _) | TCall (HSetInterval _ i) => 0 < i < 2 ^ 62 | _ => True end.
Definition tcall_adds (c : tcall) : Z := match c with TCall (HAdd _ _ _) => 1 | _ => 0 end.
Fixpoint total_adds (cs : list tcall) : Z := match cs with [] => 0 | c :: cs => tcall_adds c + total_adds cs end.

(** The timers as the program sees them. *)
Definition timers_abs (s : timers_t) : atimers := abs (tm_timers s) s.

Lemma inv_more A A' s : inv A s → A ≤ A' → inv A' s.
Proof. intros [now []] H. exists now. split; try done. lia. Qed.

Lemma interval_ok A s i n : inv A s → tm_timers s !! i = Some n → 0 < ti_interval (nd_timer n) < 2 ^ 62.
Proof. intros [now []] Hn. simpl in li_nodes0. rewrite Forall_lookup in li_nodes0. by destruct (li_nodes0 i n Hn) as (_ & _ & ? & _). Qed.

Lemma not_found id A s : inv A s → list_find (match_by_id id) (tm_timers s) = None → ¬ is_live id (live (tm_cancelled s) (tm_timers s)).
Proof.
  intros _ Hf. apply list_find_None in Hf. rewrite live_elem. intros (_ & (x & Hx & Hin)%list_elem_of_fmap). rewrite Forall_forall in Hf. apply (Hf x Hin). by apply bool_decide_pack.
Qed.

(** [set_interval] and [reset] *)
Lemma set_or_reset A s id h (f : timer_t → timer_t) :
  inv A s → (∀ t, ti_id (f t) = ti_id t) → (∀ t, 0 < ti_interval t < 2 ^ 62 → 0 < ti_interval (f t) < 2 ^ 62) →
  h = HReset id ∨ (∃ i, h = HSetInterval id i) →
  (∀ st w t now k, (w, t) ∈ at_live st → ti_id t = id → a_now readings (at_clock st) = (now, k) →
     a_step readings script (TCall h) st (ORc RcOk) (a_schedule now (f t) (ATimers (at_next st) k (at_live st) (at_fired st)))) →
  ∃ rc s', (match list_find (match_by_id id) (tm_timers s) with
            | None => (RcErr EINVAL, s)
            | Some (i, n) => let '(now, s1) := tm_now readings s in
                (RcOk, tm_insert (u64 (now + ti_interval (f (nd_timer n)))) (f (nd_timer n)) (tm_with (delete i (tm_timers s1)) (tm_cancelled s1) s1))
            end) = (rc, s') ∧ inv A s' ∧ a_step readings script (TCall h) (timers_abs s) (ORc rc) (timers_abs s').
Proof.
  intros Hi Hfid Hfi Hh Hstep. destruct (list_find (match_by_id id) (tm_timers s)) as [[i n]|] eqn:E.
  - pose proof E as E'. apply list_find_Some in E' as (Hlk & Hid & _). apply bool_decide_unpack in Hid. pose proof (interval_ok A s i n Hi Hlk) as Hin.
    pose proof (move_spec A s id i n (f (nd_timer n)) Hi E) as Hmv. rewrite Hfid in Hmv. specialize (Hmv Hid (Hfi _ Hin)). destruct (tm_now readings s) as [now s1]. cbv zeta in Hmv.
    set (s' := tm_insert _ _ _) in *. destruct Hmv as (Hi' & Ha & Hfi' & Hnx & _ & Hlv). eexists _, s'. split; [done|]. split; [done|].
    unfold timers_abs, abs. rewrite Hnx, Hfi'. case_decide as Hl.
    + destruct Hlv as [Hin' ->]. pose proof (Hstep (abs (tm_timers s) s) _ _ now (tm_clock s', tm_reads s') Hin' Hid Ha) as Hs. unfold a_schedule, a_with in Hs. simpl in Hs. rewrite Hfid, Hid in Hs. exact Hs.
    + rewrite Hlv. apply (as_dead readings script h id (abs (tm_timers s) s)); [done|done|]. right. simpl at_clock. by rewrite Ha.
  - eexists _, s. split; [done|]. split; [done|]. apply (as_dead readings script h id (abs (tm_timers s) s)); [done|by apply (not_found id A)|by left].
Qed.

Lemma step_spec A c s :
  inv A s → A + tcall_adds c + B < 2 ^ 31 - 1 → tcall_ok c →
  ∃ n o s', (∀ fuel, (n ≤ fuel)%nat → timers_step readings script fuel c s = Some (Done (o, s'))) ∧ inv (A + tcall_adds c) s'
    ∧ a_step readings script c (timers_abs s) o (timers_abs s').
Proof.
  intros Hi HA Hc. destruct c as [[i f a|id|id i|id]| |]; simpl in Hc, HA; rewrite ?Z.add_0_r in *; simpl tcall_adds; rewrite ?Z.add_0_r.
  - simpl timers_step. destruct (decide (f = 0)) as [->|Hf].
    + exists 0%nat. eexists _, s. split; [intros fuel _; unfold timers_add; by rewrite decide_True|]. split; [apply (inv_more A); [done|lia]|]. apply as_add_null.
    + destruct Hi as [now Hl]. assert (Hl1 : linv readings script (A + 1) (1 + 0) now [] (tm_timers s) s) by (destruct Hl; split; try done; lia).
      assert (Hnow : 0 ≤ now) by (pose proof (li_clock _ _ _ _ _ _ _ _ Hl) as [? _]; lia).
      destruct (add_spec readings script (A + 1) B Hr HB ltac:(lia) 0 now [] (tm_timers s) s i f a) as (s' & n & E & Hl' & _ & Habs & _); try done; [by intros ? ?%elem_of_nil|].
      pose proof (li_map _ _ _ _ _ _ _ _ Hl') as Hm. exists 0%nat. eexists _, s'. split; [intros fuel _; by rewrite E|]. split; [exists now; by rewrite Hm|].
      unfold timers_abs at 2. rewrite Hm. simpl app. rewrite Habs. by apply (as_add readings script i f a (timers_abs s)).
  - simpl timers_step. destruct Hi as [now Hl]. destruct (cancel_spec readings script A 0 now [] (tm_timers s) s id Hl) as (rc & s' & E & Hl' & Habs & _ & Hrc).
    pose proof (li_map _ _ _ _ _ _ _ _ Hl') as Hm. exists 0%nat. eexists _, s'. split; [intros fuel _; by rewrite E|]. split; [exists now; by rewrite Hm|].
    unfold timers_abs at 2. rewrite Hm. simpl app. rewrite Habs, (Hrc eq_refl). apply (as_cancel readings script id (timers_abs s)).
  - simpl timers_step. destruct (set_or_reset A s id (HSetInterval id i) (λ t, Timer (ti_id t) i (ti_handler t) (ti_arg t))) as (rc & s' & E & H1 & H2); try done; [by right; exists i| |].
    + intros st w t now k Hin <- Ha. by apply (as_set_interval readings script _ _ _ w).
    + exists 0%nat. eexists _, s'. split; [|done]. intros fuel _. unfold timers_set_interval. cbn [ti_interval] in E. by rewrite E.
  - simpl timers_step. destruct (set_or_reset A s id (HReset id) (λ t, t)) as (rc & s' & E & H1 & H2); try done; [by left| |].
    + intros st w t now k Hin <- Ha. by apply (as_reset readings script _ _ w).
    + exists 0%nat. eexists _, s'. split; [|done]. intros fuel _. unfold timers_reset. cbv zeta. by rewrite E.
  - simpl timers_step. destruct (timeout_spec A s Hi) as (r & s' & E & H1 & H2). exists 0%nat. eexists _, s'. split; [|done]. intros fuel _. by rewrite E.
  - destruct (execute_spec A s Hi ltac:(lia)) as (n & s' & t & k & E & H1 & H2 & H3). exists n. eexists _, s'. split; [intros fuel Hf; simpl; by rewrite (E fuel Hf)|]. split; [done|].
    by eapply (as_execute readings script (timers_abs s)).
Qed.

Lemma run_spec cs A s :
  inv A s → A + total_adds cs + B < 2 ^ 31 - 1 → Forall tcall_ok cs →
  ∃ n os s', (∀ fuel, (n ≤ fuel)%nat → timers_run readings script fuel cs s = Some (Done (os, s'))) ∧ inv (A + total_adds cs) s'
    ∧ a_steps readings script cs (timers_abs s) os (timers_abs s').
Proof.
  revert A s. induction cs as [|c cs IH]; intros A s Hi HA Hok; simpl in *.
  { exists 0%nat, [], s. split; [done|]. rewrite Z.add_0_r. split; [done|]. constructor. }
  apply Forall_cons in Hok as [Hc Hok]. assert (Hp : 0 ≤ total_adds cs) by (clear; induction cs as [|[[]| |]]; simpl; lia).
  destruct (step_spec A c s Hi ltac:(lia) Hc) as (n1 & o & s1 & E1 & H1 & Ha1). destruct (IH (A + tcall_adds c) s1 H1 ltac:(lia) Hok) as (n2 & os & s' & E2 & H2 & Ha2).
  exists (n1 + n2)%nat, (o :: os), s'. split; [|split; [by rewrite Z.add_assoc|by econstructor]]. intros fuel Hf. rewrite (E1 fuel) by lia. simpl. by rewrite (E2 fuel) by lia.
Qed.

Lemma inv_new : inv 0 (timers_new readings).
Proof.
  destruct Hr as [_ Hus Hm]. exists (rd_us (readings 0) / 1000). split; simpl; try done; try constructor; simpl; try done.
  - split; [apply Z.div_pos; [apply Hus|lia]|apply Z.div_le_mono; [lia|apply Hm]].
  - intros _. split; [done|]. apply Z.div_le_mono; [lia|apply Hm].
Qed.

End refinement.

(** ** What is fired *)

Section fired.
Context (readings : nat → reading) (script : nat → list hcall).
Hypothesis (Hr : readings_ok readings) (Hscript : ∀ n, Forall hcall_ok (script n)).

Definition a_sorted : list (Z * timer_t) → Prop := StronglySorted (λ x y, x.1 ≤ y.1).
Definition a_ok (now : Z) (st : atimers) : Prop :=
  clock_ok readings now (at_clock st).1 (at_clock st).2 ∧ Forall (λ x, 0 < ti_interval x.2) (at_live st) ∧ a_sorted (at_live st) ∧ Forall (λ x, ti_id x.2 ≤ at_next st) (at_live st).

Lemma a_ins_perm x l : a_ins x l ≡ₚ x :: l.
Proof. induction l as [|y l IH]; simpl; [done|]. case_decide; [|done]. rewrite IH. by apply Permutation_swap. Qed.

Lemma a_ins_sorted x l : a_sorted l → a_sorted (a_ins x l).
Proof.
  intros H. induction H as [|y l Hs IH Hy]; simpl; [repeat constructor|]. case_decide as Hd.
  - constructor; [done|]. rewrite a_ins_perm. by constructor.
  - constructor; [by constructor|]. constructor; [lia|]. eapply Forall_impl; [exact Hy|]. simpl. intros; lia.
Qed.

Lemma a_without_sorted id l : a_sorted l → a_sorted (a_without id l).
Proof.
  intros H. induction H as [|y l Hs IH Hy]; [constructor|]. unfold a_without in *. rewrite filter_cons. case_decide; [|done]. constructor; [done|].
  apply Forall_forall. intros z [_ Hz]%list_elem_of_filter. rewrite Forall_forall in Hy. auto.
Qed.

Lemma a_schedule_elem now t st w' t' : (w', t') ∈ at_live (a_schedule now t st) ↔ (w', t') = (now + ti_interval t, t) ∨ (w', t') ∈ at_live st ∧ ti_id t' ≠ ti_id t.
Proof. unfold a_schedule, a_with, a_without. simpl. rewrite a_ins_perm, elem_of_cons, list_elem_of_filter. simpl. tauto. Qed.

Lemma a_schedule_ok now now' t st : a_ok now st → 0 < ti_interval t → ti_id t ≤ at_next st → a_ok now (a_schedule now' t st).
Proof.
  intros (H1 & H2 & H3 & H4) Hi Ht. split; [done|]. unfold a_schedule, a_with. simpl. split; [|split; [by apply a_ins_sorted, a_without_sorted|]]; rewrite a_ins_perm;
    (constructor; [done|]); apply Forall_forall; intros x [_ Hin]%list_elem_of_filter; rewrite Forall_forall in H2, H4; auto.
Qed.

(** A call of a handler: due timers are not added, and go only if they are cancelled. *)
Lemma hcall_due now h st :
  a_ok now st → hcall_ok h → 0 ≤ now →
  let st' := a_hcall readings h st in
  a_ok now st' ∧ at_fired st' = at_fired st
  ∧ (∀ w t, w ≤ now → (w, t) ∈ at_live st' → (w, t) ∈ at_live st) ∧ (∀ w t, (w, t) ∈ at_live st → (w, t) ∈ at_live st' ∨ h = HCancel (ti_id t)).
Proof.
  intros Hok Hh Hnow. pose proof Hok as (Hc & Hi & Hs & Hid). destruct h as [i f a|id|id i|id]; simpl in Hh; [| |done|done]; simpl.
  - destruct (decide (f = 0)); [by split_and!; auto|]. unfold a_add, a_now. destruct (at_clock st) as [ck m] eqn:Eck. simpl in Hc |- *. destruct (clock_now_ms (readings m) ck) as [t ck'] eqn:E.
    destruct (clock_now_mono readings now ck m t ck' Hr Hc E) as [Ht Hc']. set (tm := Timer _ _ _ _). set (st1 := ATimers _ _ _ _).
    assert (Hok1 : a_ok now st1).
    { split; [apply (clock_ok_le _ t); [done|lia]|]. split; [done|]. split; [done|]. eapply Forall_impl; [exact Hid|]. simpl. intros; lia. }
    split; [apply a_schedule_ok; [done|simpl; lia|done]|]. split; [done|]. split.
    + intros w t' Hw Hin%a_schedule_elem. destruct Hin as [[= -> ->]|[Hin _]]; [simpl in Hw; lia|done].
    + intros w t' Hin. left. apply a_schedule_elem. right. split; [done|]. rewrite Forall_forall in Hid. specialize (Hid _ Hin). simpl in *. lia.
  - unfold a_cancel, a_with, a_ok. simpl. split; [|split; [done|split]].
    + split; [done|]. split; [|split; [by apply a_without_sorted|]]; apply Forall_forall; intros x [_ Hin]%list_elem_of_filter; rewrite Forall_forall in Hi, Hid; auto.
    + intros w t _ [_ Hin]%list_elem_of_filter. done.
    + intros w t Hin. destruct (decide (ti_id t = id)) as [->|Hne]; [by right|]. left. by apply list_elem_of_filter.
Qed.

Lemma hcalls_due now l st :
  a_ok now st → Forall hcall_ok l → 0 ≤ now →
  let st' := foldl (flip (a_hcall readings)) st l in
  a_ok now st' ∧ at_fired st' = at_fired st
  ∧ (∀ w t, w ≤ now → (w, t) ∈ at_live st' → (w, t) ∈ at_live st) ∧ (∀ w t, (w, t) ∈ at_live st → (w, t) ∈ at_live st' ∨ HCancel (ti_id t) ∈ l).
Proof.
  revert st. induction l as [|h l IH]; intros st Hok Hl Hnow; [by split_and!; auto|]. apply Forall_cons in Hl as [Hh Hl].
  destruct (hcall_due now h st Hok Hh Hnow) as (H1 & H3 & H4 & H5). simpl foldl. change (flip (a_hcall readings) st h) with (a_hcall readings h st).
  destruct (IH _ H1 Hl Hnow) as (I1 & I3 & I4 & I5). split; [done|]. split; [congruence|]. split; [by auto|].
  intros w t Hin. destruct (H5 w t Hin) as [Hin'| ->]; [destruct (I5 w t Hin') as [|]; [by left|right; by right]|right; by left].
Qed.

(** [F] are the timers that are fired. *)
Definition fired_right (now : Z) (st : atimers) (F : list timer_t) (st' : atimers) : Prop :=
  at_fired st' = at_fired st ++ F ∧ (∀ t, t ∈ F → ∃ w, w ≤ now ∧ (w, t) ∈ at_live st) ∧ NoDup (ti_id <$> F)
  ∧ (∀ w t, (w, t) ∈ at_live st → w ≤ now → (∃ t', t' ∈ F ∧ ti_id t' = ti_id t) ∨ ∃ k, (length (at_fired st) ≤ k < length (at_fired st'))%nat ∧ HCancel (ti_id t) ∈ script k)
  ∧ Forall (λ x, now < x.1) (at_live st').

Lemma fires_fired now st st' :
  fires readings script now st st' → a_ok now st → 0 ≤ now → ∃ F, fired_right now st F st'.
Proof.
  intros H. induction H as [st Hst|st st1 st2 w t l Hlive Hw -> _ IH]; intros Hok Hnow.
  { assert (Hall : Forall (λ x, now < x.1) (at_live st)).
    { destruct Hok as (_ & _ & Hs & _). destruct (at_live st) as [|[w0 t0] l]; [done|]. specialize (Hst w0 t0 eq_refl). apply StronglySorted_inv in Hs as [_ Hs]. constructor; [done|].
      eapply Forall_impl; [exact Hs|]. simpl. intros; lia. }
    exists []. unfold fired_right. rewrite app_nil_r. split; [done|]. split; [by intros t ?%elem_of_nil|]. split; [constructor|]. split; [|done].
    intros w t Hin Hw. rewrite Forall_forall in Hall. specialize (Hall _ Hin). simpl in Hall. lia. }
  set (st0 := ATimers (at_next st) (at_clock st) (at_live st) (at_fired st ++ [t])) in *. set (hs := script (length (at_fired st))) in *.
  destruct (hcalls_due now hs st0 Hok (Hscript _) Hnow) as (H1 & H2 & H3 & H4). set (st1 := foldl _ st0 hs) in *.
  assert (Ht : 0 < ti_interval t ∧ ti_id t ≤ at_next st). { destruct Hok as (_ & Hi & _ & Hid). rewrite Hlive in Hi, Hid. apply Forall_cons in Hi as [? _]. by apply Forall_cons in Hid as [? _]. }
  set (st3 := if decide _ then _ else _) in *.
  assert (H5 : a_ok now st3 ∧ at_fired st3 = at_fired st ++ [t]
    ∧ (∀ w' t', w' ≤ now → (w', t') ∈ at_live st3 → (w', t') ∈ at_live st ∧ ti_id t' ≠ ti_id t) ∧ (∀ w' t', (w', t') ∈ at_live st → (w', t') ∈ at_live st3 ∨ ti_id t' = ti_id t ∨ HCancel (ti_id t') ∈ hs)).
  { subst st3. case_decide as Hl.
    - split; [apply a_schedule_ok; [done|tauto|]|].
      + pose proof H1 as (_ & _ & _ & Hid). unfold is_live in Hl. apply list_elem_of_fmap in Hl as (x & Hx & Hin). rewrite Forall_forall in Hid. specialize (Hid x Hin). simpl in *. lia.
      + split; [done|]. split.
        * intros w' t' Hw' Hin%a_schedule_elem. destruct Hin as [[= -> ->]|[Hin Hne]]; [lia|]. split; [by apply H3|done].
        * intros w' t' Hin. destruct (H4 w' t' Hin) as [Hin'|Hc]; [|by auto]. destruct (decide (ti_id t' = ti_id t)); [by auto|]. left. apply a_schedule_elem. by right.
    - split; [done|]. split; [done|]. split.
      + intros w' t' Hw' Hin. split; [by apply H3|]. intros E. apply Hl. unfold is_live. rewrite <- E. apply list_elem_of_fmap. by exists (w', t').
      + intros w' t' Hin. destruct (H4 w' t' Hin) as [Hin'|Hc]; auto. }
  destruct H5 as (K1 & K2 & K3 & K4). destruct (IH K1 Hnow) as (F & F1 & F2 & F3 & F4 & F5). exists (t :: F). split; [by rewrite F1, K2, <- app_assoc|]. split.
  { intros t' [->|Hin]%elem_of_cons; [exists w; rewrite Hlive; split; [done|by left]|]. destruct (F2 t' Hin) as (w' & Hw' & Hin'). exists w'. split; [done|]. by apply (K3 w' t'). }
  split; [rewrite fmap_cons; constructor; [|done]; intros (t' & E & Hin)%list_elem_of_fmap; destruct (F2 t' Hin) as (w' & Hw' & Hin'); by destruct (K3 w' t' Hw' Hin')|].
  split; [|done]. assert (Hlen : length (at_fired st3) = S (length (at_fired st))) by (rewrite K2, length_app; simpl; lia).
  assert (Hlen2 : (S (length (at_fired st)) ≤ length (at_fired st2))%nat) by (rewrite F1, length_app, Hlen; lia).
  intros w' t' Hin Hw'. destruct (K4 w' t' Hin) as [Hin3|[E|Hc]].
  - destruct (F4 w' t' Hin3 Hw') as [(t2 & ? & ?)|(k & Hk & Hc)]; [left; exists t2; split; [by right|done]|right; exists k; split; [lia|done]].
  - left. exists t. split; [by left|done].
  - right. exists (length (at_fired st)). split; [lia|done].
Qed.

End fired.

Lemma abs_ok readings script A k now post s : linv readings script A k now [] post s → a_ok readings now (abs post s).
Proof.
  intros []. simpl in *. assert (Hin : ∀ x, x ∈ live (tm_cancelled s) post → ∃ n, x = entry n ∧ node_ok s n).
  { intros x Hx. unfold live in Hx. apply list_elem_of_fmap in Hx as (n & -> & [_ Hn]%list_elem_of_filter). rewrite Forall_forall in li_nodes0. eauto. }
  split; [done|]. split; [|split].
  - apply Forall_forall. intros x (n & -> & _ & _ & [? _] & _)%Hin. done.
  - change (a_sorted (live (tm_cancelled s) post)). unfold live. clear -li_sorted0. induction li_sorted0 as [|x l Hs IH Hx]; [constructor|]. rewrite filter_cons. case_decide; [|done]. rewrite fmap_cons. constructor; [done|].
    apply Forall_forall. intros y (n & -> & [_ Hn]%list_elem_of_filter)%list_elem_of_fmap. rewrite Forall_forall in Hx. by apply Hx.
  - apply Forall_forall. intros x (n & -> & _ & [_ ?] & _)%Hin. done.
Qed.

(** ** The claims *)

(** What is asked of handlers: they add timers with a positive interval, [B] at most, and cancel timers. *)
Definition handlers_ok (script : nat → list hcall) (B : Z) : Prop := (∀ n, Forall hcall_ok (script n)) ∧ ∀ n, script_adds script n ≤ B.

Definition a_new (readings : nat → reading) : atimers := ATimers 0 (clock_new (readings 0%nat), 1%nat) [] [].

(** An example: a reading every five milliseconds; the first handler cancels the second timer and adds one. *)
Definition ex_readings (n : nat) : reading := Reading 0 (5000 * Z.min (Z.of_nat n) 1000).
Definition ex_script (n : nat) : list hcall := match n with O => [HCancel 2; HAdd 7 1 0] | _ => [] end.
Definition ex_calls : list tcall := [TCall (HAdd 3 1 0); TCall (HAdd 4 1 1); TCall (HAdd 9 1 2); TCall (HReset 3); TTimeout].

Lemma ex_readings_ok : readings_ok ex_readings.
Proof. split; [by left|intros i; simpl; lia|intros i; simpl; lia]. Qed.

Lemma ex_handlers_ok : handlers_ok ex_script 1.
Proof.
  split; [intros [|n]; repeat constructor|]. intros [|n]; [done|]. assert (H : script_adds ex_script (S n) = 1); [|lia]. induction n as [|n IH]; [done|]. cbn [script_adds] in *. rewrite IH. done.
Qed.



Example ex_timers_run :
  (λ r, match r with Done (os, s) => (os, ti_id <$> tm_fired s) | _ => ([], []) end) <$> timers_run ex_readings ex_script 10 (ex_calls ++ [TExecute; TTimeout]) (timers_new ex_readings)
  = Some ([OId (inl 1); OId (inl 2); OId (inl 3); ORc RcOk; OTime 0; ORc RcOk; OTime 0], [1; 3]).
Proof. vm_compute. reflexivity. Qed.

(** One call of [execute] fires exactly the timers that are due. In every state that the program can reach the call returns; each timer that was live and due is fired once, unless
    a handler called earlier in this same call has cancelled it; no other timer is fired, none twice; and afterwards no live timer is due. *)
Lemma timers_execute_due readings script B cs :
  readings_ok readings → handlers_ok script B → Forall tcall_ok cs → total_adds cs + B < 2 ^ 31 - 1 →
  ∃ n os s s' F,
    (∀ fuel, (n ≤ fuel)%nat → timers_run readings script fuel cs (timers_new readings) = Some (Done (os, s)) ∧ timers_execute readings script fuel s = Some (Done s'))
    ∧ fired_right script (tm_now readings s).1 (timers_abs s) F (timers_abs s').
Proof.
  intros Hr [Hs HB] Hc Ha. destruct (run_spec readings script B Hr HB Hs cs 0 (timers_new readings)) as (n & os & s & H1 & Hi & _); [by apply inv_new|lia|done|]. simpl in Hi.
  destruct (execute_spec readings script B Hr HB Hs (total_adds cs) s Hi Ha) as (n' & s' & t & k & H2 & Hi' & Hnow & Hf).
  destruct (inv_now readings script Hr (total_adds cs) s Hi) as (t' & s1 & E & Ht & Hl & Ha' & Hs1). rewrite Hnow in Ha'. injection Ha' as <- ->.
  destruct (fires_fired readings script Hr Hs t _ _ Hf) as (F & HF).
  - pose proof (abs_ok readings script _ _ _ _ _ Hl) as Hok. rewrite Hs1 in Hok. exact Hok.
  - lia.
  - exists (n + n')%nat, os, s, s', F. split; [intros fuel Hfu; split; [apply H1; lia|apply H2; lia]|]. rewrite E. done.
Qed.

Lemma timers_execute_due_witness :
  ∃ n os s s' F,
    (∀ fuel, (n ≤ fuel)%nat → timers_run ex_readings ex_script fuel ex_calls (timers_new ex_readings) = Some (Done (os, s)) ∧ timers_execute ex_readings ex_script fuel s = Some (Done s'))
    ∧ fired_right ex_script (tm_now ex_readings s).1 (timers_abs s) F (timers_abs s').
Proof. apply (timers_execute_due ex_readings ex_script 1); [apply ex_readings_ok|apply ex_handlers_ok|repeat constructor; done|done]. Defined.

(** ** Where handlers go wrong *)

(** A timer with interval 0 is due again at once: [execute] does not return. *)
Lemma zero_interval_loop readings fuel now pre e s :
  tm_timers s = pre ++ [e] → NoDup (nd_addr <$> pre ++ [e]) → Forall (λ n, nd_addr n < tm_addr s)%nat (pre ++ [e]) → Forall (λ n, nd_when n ≤ now) pre → 0 ≤ now < 2 ^ 64 →
  nd_when e ≤ now → ti_interval (nd_timer e) = 0 → nd_id e ∉ tm_cancelled s → exec_loop readings (λ _, []) fuel now (Some (nd_addr e)) s = None.
Proof.
  revert pre e s. induction fuel as [|fuel IH]; intros pre e s Hm Hnd Hlt Hpre Hnow He Hi Hc; [done|]. simpl. rewrite Hm, at_addr_app by done. fold (nd_id e).
  rewrite decide_False by done. rewrite decide_False by lia. simpl. rewrite Hi, Z.add_0_r, u64_small by lia.
  set (n := Node (tm_addr s) now (nd_timer e)).
  assert (Hins : mm_insert n (pre ++ [e]) = (pre ++ [e]) ++ [n]).
  { rewrite <- (app_nil_r (pre ++ [e])) at 1. apply mm_insert_app. intros x [Hx|Hx%list_elem_of_singleton]%elem_of_app; [rewrite Forall_forall in Hpre; by apply Hpre|by subst x]. }
  assert (Hnd' : NoDup (nd_addr <$> (pre ++ [e]) ++ [n])).
  { rewrite (fmap_app _ (pre ++ [e])). apply NoDup_app. split; [done|]. split; [|apply NoDup_singleton]. intros x (y & -> & Hy)%list_elem_of_fmap Hx%list_elem_of_singleton.
    rewrite Forall_forall in Hlt. specialize (Hlt y Hy). subst n. simpl in Hx. lia. }
  rewrite Hins. rewrite <- app_assoc in Hnd'. simpl app in Hnd'. rewrite <- app_assoc. simpl app. rewrite it_next_app by done. simpl. change (tm_addr s) with (nd_addr n). apply (IH (pre ++ [e])); simpl; try done.
  - by rewrite <- app_assoc.
  - apply Forall_app. split; [eapply Forall_impl; [exact Hlt|]; simpl; lia|]. apply Forall_singleton. simpl. lia.
  - apply Forall_app. split; [done|]. by apply Forall_singleton.
Qed.

Lemma zero_interval_never_returns fuel : timers_run ex_readings (λ _, []) fuel [TCall (HAdd 0 1 0); TExecute] (timers_new ex_readings) = None.
Proof.
  set (s1 := Timers 1 (Clock 0 0) [Node 0 5 (Timer 1 0 1 0)] ∅ 1 2 []). set (s2 := Timers 1 (Clock 0 0) [Node 0 5 (Timer 1 0 1 0)] ∅ 1 3 []).
  assert (E1 : timers_step ex_readings (λ _, []) fuel (TCall (HAdd 0 1 0)) (timers_new ex_readings) = Some (Done (OId (inl 1), s1))) by (vm_compute; reflexivity).
  assert (E2 : tm_now ex_readings s1 = (10, s2)) by (vm_compute; reflexivity).
  assert (E3 : timers_execute ex_readings (λ _, []) fuel s1 = None).
  { unfold timers_execute. rewrite E2. cbv beta iota zeta. change (nd_addr <$> head (tm_timers s2)) with (Some (nd_addr (Node 0 5 (Timer 1 0 1 0)))).
    rewrite (zero_interval_loop ex_readings fuel 10 [] (Node 0 5 (Timer 1 0 1 0)) s2); [done|done|apply NoDup_singleton|repeat constructor|constructor|done|done|done|done]. }
  cbn [timers_run]. rewrite E1. cbn [mbind option_bind timers_run timers_step]. by rewrite E3.
Qed.

(** A handler that resets its own timer, or the first one of the map, frees a node that [execute] still uses; resetting another timer that has fired
    in the same call leaves two entries of this timer, which then fires twice as often. *)
Lemma reset_in_handler :
  let three := [TCall (HAdd 1 1 0); TCall (HAdd 1 1 1); TCall (HAdd 1 1 2)] in
  timers_run ex_readings (λ _, [HReset 1]) 20 (three ++ [TExecute]) (timers_new ex_readings) = Some Undef
  ∧ timers_run ex_readings (λ n, match n with 1%nat => [HReset 1] | _ => [] end) 20 (three ++ [TExecute]) (timers_new ex_readings) = Some Undef
  ∧ (λ r, match r with Done (_, s) => nd_id <$> tm_timers s | _ => [] end) <$>
      timers_run ex_readings (λ n, match n with 2%nat => [HReset 2] | _ => [] end) 20 (three ++ [TExecute]) (timers_new ex_readings) = Some [1; 2; 3; 2].
Proof. vm_compute. split_and!; reflexivity. Qed.

(** A timer that has been cancelled can be reset as long as it has not been passed, and not afterwards. *)
Lemma reset_of_cancelled :
  (λ r, match r with Done (os, _) => os | _ => [] end) <$>
    timers_run ex_readings (λ _, []) 20 [TCall (HAdd 1 1 0); TCall (HCancel 1); TCall (HReset 1); TTimeout; TCall (HReset 1)] (timers_new ex_readings)
  = Some [OId (inl 1); ORc RcOk; ORc RcOk; OTime (-1); ORc (RcErr EINVAL)].
Proof. vm_compute. reflexivity. Qed.
