(* ===== verification/Spot.v ===== *)
(** SPOT publish/subscribe (src/spot): the registry of topics, the manager of subscriptions, and
    [spot_pubsub_t], which keeps them in step with the filters of its XSUB socket.

    The two sockets are seen through [SpotSockets]: the filters that the XSUB socket has asked for,
    with how often, and the frames that it has for the program; XPub and XSub model the sockets
    themselves.  Calls are made one after the other: the member functions that change the registry or
    the subscriptions hold the mutex alone, [publish] and [recv] share it. *)
From stdpp Require Import gmap.
From S2P Require Import Prelude.

Local Open Scope sl_scope.

Abbreviation str := (list Z).

(** ** topic_registry_t *)

Module Registry.

Inductive topic_location_t := LOCAL | REMOTE.

#[export] Instance location_eq_dec : EqDecision topic_location_t.
Proof. solve_decision. Defined.

Record topic_entry_t := Entry { te_topic_id : str; te_location : topic_location_t; te_endpoint : str }.

Record topic_registry_t := Reg { tr_topics : gmap str topic_entry_t; tr_counter : Z }.

Definition registry_new : topic_registry_t := Reg ∅ 0.

Definition reg_put (e : topic_entry_t) (r : topic_registry_t) : rc_t * topic_registry_t :=
  match tr_topics r !! te_topic_id e with
  | Some _ => (RcErr EEXIST, r)
  | None => (RcOk, Reg (<[te_topic_id e := e]> (tr_topics r)) (tr_counter r))
  end.

Definition register_local (topic endpoint : str) (r : topic_registry_t) : rc_t * topic_registry_t := reg_put (Entry topic LOCAL endpoint) r.
Definition register_remote (topic endpoint : str) (r : topic_registry_t) : rc_t * topic_registry_t := reg_put (Entry topic REMOTE endpoint) r.

(** "inproc://spot-" and the counter in decimal *)
Fixpoint decimal (fuel : nat) (n : Z) : str :=
  match fuel with O => [] | S fuel => (if decide (n < 10) then [] else decimal fuel (n / 10)) ++ [48 + n `mod` 10] end.
Definition inproc_spot : str := [105; 110; 112; 114; 111; 99; 58; 47; 47; 115; 112; 111; 116; 45].

Definition register_local_auto (topic : str) (r : topic_registry_t) : rc_t * topic_registry_t :=
  match tr_topics r !! topic with
  | Some _ => (RcErr EEXIST, r)
  | None => (RcOk, Reg (<[topic := Entry topic LOCAL (inproc_spot ++ decimal 20 (tr_counter r))]> (tr_topics r)) (u64 (tr_counter r + 1)))
  end.

Definition unregister (topic : str) (r : topic_registry_t) : rc_t * topic_registry_t :=
  match tr_topics r !! topic with
  | None => (RcErr ENOENT, r)
  | Some _ => (RcOk, Reg (delete topic (tr_topics r)) (tr_counter r))
  end.

Definition reg_lookup (topic : str) (r : topic_registry_t) : option topic_entry_t := tr_topics r !! topic.
Definition has_topic (topic : str) (r : topic_registry_t) : bool := bool_decide (is_Some (tr_topics r !! topic)).

Definition get_all_topics (r : topic_registry_t) : list str := fst <$> map_to_list (tr_topics r).
Definition topics_at (l : topic_location_t) (r : topic_registry_t) : list str := fst <$> filter (λ p : str * topic_entry_t, te_location p.2 = l) (map_to_list (tr_topics r)).
Definition topic_count (r : topic_registry_t) : nat := size (tr_topics r).

End Registry.

(** ** subscription_manager_t *)

Module Manager.

(** Two of them are equal if [operator==] says so: a local one is its socket, a remote one its endpoint. *)
Inductive subscriber_t := LocalSub (socket : nat) | RemoteSub (endpoint : str).

#[export] Instance subscriber_eq_dec : EqDecision subscriber_t.
Proof. solve_decision. Defined.

Abbreviation submap := (gmap str (list subscriber_t)).

Record manager_t := Manager { sm_exact : submap; sm_pattern : submap }.

Definition manager_new : manager_t := Manager ∅ ∅.

(** The code of the two kinds of subscriptions is the same. *)
Definition map_add (key : str) (s : subscriber_t) (m : submap) : rc_t * submap :=
  let l := default [] (m !! key) in
  if decide (s ∈ l) then (RcErr EEXIST, <[key := l]> m) else (RcOk, <[key := l ++ [s]]> m).

(** [std::find] and [erase] *)
Fixpoint erase_first (s : subscriber_t) (l : list subscriber_t) : list subscriber_t :=
  match l with [] => [] | x :: l => if decide (x = s) then l else x :: erase_first s l end.

Definition map_remove (key : str) (s : subscriber_t) (m : submap) : rc_t * submap :=
  match m !! key with
  | None => (RcErr ENOENT, m)
  | Some l =>
      if decide (s ∈ l) then (RcOk, match erase_first s l with [] => delete key m | l => <[key := l]> m end)
      else (RcErr ENOENT, m)
  end.

Definition map_remove_all (s : subscriber_t) (m : submap) : submap :=
  omap (λ l, match erase_first s l with [] => None | l => Some l end) m.

Definition add_subscription (topic : str) (s : subscriber_t) (m : manager_t) : rc_t * manager_t :=
  let '(rc, e) := map_add topic s (sm_exact m) in (rc, Manager e (sm_pattern m)).
Definition remove_subscription (topic : str) (s : subscriber_t) (m : manager_t) : rc_t * manager_t :=
  let '(rc, e) := map_remove topic s (sm_exact m) in (rc, Manager e (sm_pattern m)).

(** Patterns are for local subscribers only. *)
Definition add_pattern_subscription (pattern : str) (s : subscriber_t) (m : manager_t) : rc_t * manager_t :=
  match s with
  | RemoteSub _ => (RcErr EINVAL, m)
  | LocalSub _ => let '(rc, p) := map_add pattern s (sm_pattern m) in (rc, Manager (sm_exact m) p)
  end.
Definition remove_pattern_subscription (pattern : str) (s : subscriber_t) (m : manager_t) : rc_t * manager_t :=
  let '(rc, p) := map_remove pattern s (sm_pattern m) in (rc, Manager (sm_exact m) p).

Definition remove_all_subscriptions (s : subscriber_t) (m : manager_t) : manager_t :=
  Manager (map_remove_all s (sm_exact m)) (map_remove_all s (sm_pattern m)).

Definition get_subscribers (topic : str) (m : manager_t) : list subscriber_t := default [] (sm_exact m !! topic).
Definition get_subscriber_count (topic : str) (m : manager_t) : nat := length (default [] (sm_exact m !! topic)).

(** The '*' is 42. *)
Definition star : Z := 42.
Definition before_star (p : str) : str := take (default (length p) (fst <$> list_find (λ c, c = star) p)) p.

Definition matches_pattern (pattern topic : str) : bool :=
  if decide (star ∉ pattern) then bool_decide (pattern = topic)
  else if decide (pattern = [star]) then true
  else bool_decide (take (length (before_star pattern)) topic = before_star pattern).

Definition get_pattern_matched_subscribers (topic : str) (m : manager_t) : list subscriber_t :=
  map_to_list (sm_pattern m) ≫= λ '(p, l), if matches_pattern p topic then l else [].

Definition get_subscribed_topics (s : subscriber_t) (m : manager_t) : list str := fst <$> filter (λ e : str * list subscriber_t, s ∈ e.2) (map_to_list (sm_exact m)).

Definition map_count (m : submap) : nat := sum_list (length <$> (snd <$> map_to_list m)).
Definition total_subscription_count (m : manager_t) : nat := map_count (sm_exact m) + map_count (sm_pattern m).

End Manager.

(** *** The manager is two sets of pairs *)

Module ManagerSets.
Import Manager.

#[export] Instance subscriber_countable : Countable subscriber_t.
Proof.
  apply (inj_countable' (λ s, match s with LocalSub n => inl n | RemoteSub e => inr e end) (λ x, match x with inl n => LocalSub n | inr e => RemoteSub e end)).
  by intros [].
Qed.

Abbreviation pairset := (gset (str * subscriber_t)).

Definition pair_list (m : submap) : list (str * subscriber_t) := map_to_list m ≫= λ '(k, l), (k,.) <$> l.
Definition pairs (m : submap) : pairset := list_to_set (pair_list m).

(** No key without subscribers, none twice. *)
Definition map_wf (m : submap) : Prop := map_Forall (λ _ l, l ≠ [] ∧ NoDup l) m.

Lemma elem_of_pairs m k s : (k, s) ∈ pairs m ↔ s ∈ default [] (m !! k).
Proof.
  unfold pairs, pair_list. rewrite elem_of_list_to_set, list_elem_of_bind. split.
  - intros ([k' l] & (s' & [= <- <-] & Hs)%list_elem_of_fmap & Hin%elem_of_map_to_list). by rewrite Hin.
  - intros H. destruct (m !! k) as [l|] eqn:E; [|by apply elem_of_nil in H]. exists (k, l). split; [by apply list_elem_of_fmap; eauto|by apply elem_of_map_to_list].
Qed.

Lemma pair_list_nodup m : map_wf m → NoDup (pair_list m).
Proof.
  intros Hwf. apply NoDup_bind.
  - intros [k1 l1] [k2 l2] [k s] H1%elem_of_map_to_list H2%elem_of_map_to_list (? & [= <- <-] & _)%list_elem_of_fmap (? & [= <- <-] & _)%list_elem_of_fmap. congruence.
  - intros [k l] H%elem_of_map_to_list. apply NoDup_fmap_2; [by intros ? ? [= ->]|]. by apply (Hwf k l).
  - apply NoDup_map_to_list.
Qed.

Lemma map_count_pairs m : map_wf m → map_count m = size (pairs m).
Proof.
  intros Hwf. unfold pairs. rewrite size_list_to_set by (by apply pair_list_nodup). unfold pair_list, map_count. induction (map_to_list m) as [|[k l] ml IH]; [done|].
  rewrite bind_cons, length_app, length_fmap, <- IH. done.
Qed.

Lemma erase_first_elem s x l : NoDup l → x ∈ erase_first s l ↔ x ∈ l ∧ x ≠ s.
Proof.
  induction l as [|y l IH]; intros Hnd; simpl; [set_solver|]. apply NoDup_cons in Hnd as [Hy Hnd]. case_decide as E.
  - subst y. rewrite elem_of_cons. split; [intros Hx; split; [by right|by intros ->]|intros [[->|Hx] Hne]; done].
  - rewrite !elem_of_cons, (IH Hnd). split; [intros [->|[? ?]]; auto|intros [[->|?] ?]; auto].
Qed.

Lemma erase_first_nodup s l : NoDup l → NoDup (erase_first s l).
Proof.
  induction l as [|y l IH]; intros Hnd; simpl; [constructor|]. apply NoDup_cons in Hnd as [Hy Hnd]. case_decide; [done|]. constructor; [|auto]. by rewrite erase_first_elem; tauto.
Qed.

Lemma map_add_spec k s m : map_wf m →
  let '(rc, m') := map_add k s m in
  map_wf m' ∧ if decide ((k, s) ∈ pairs m) then rc = RcErr EEXIST ∧ m' = m else rc = RcOk ∧ pairs m' = {[(k, s)]} ∪ pairs m.
Proof.
  intros Hwf. unfold map_add. set (l := default [] (m !! k)). destruct (decide (s ∈ l)) as [Hs|Hs].
  - rewrite decide_True by (by apply elem_of_pairs). assert (Hm : <[k := l]> m = m).
    { apply insert_id. unfold l in *. destruct (m !! k); [done|by apply elem_of_nil in Hs]. }
    by rewrite Hm.
  - rewrite decide_False by (by rewrite elem_of_pairs). split.
    + apply map_Forall_insert_2; [|done]. split; [by intros []%app_eq_nil|]. apply NoDup_app. split; [|split; [|apply NoDup_singleton]].
      * unfold l. destruct (m !! k) as [l0|] eqn:E; [by apply (Hwf k l0)|constructor].
      * intros x Hx ->%list_elem_of_singleton. done.
    + split; [done|]. apply set_eq. intros [k' s']. rewrite elem_of_union, elem_of_singleton, !elem_of_pairs. destruct (decide (k' = k)) as [->|Hne].
      * rewrite lookup_insert_eq. simpl. fold l. rewrite elem_of_app, list_elem_of_singleton. split; [intros [?| ->]; auto|intros [[= ->]|?]; auto].
      * rewrite lookup_insert_ne by done. split; [by auto|intros [[= -> ->]|?]; done].
Qed.

Lemma map_remove_spec k s m : map_wf m →
  let '(rc, m') := map_remove k s m in
  map_wf m' ∧ if decide ((k, s) ∈ pairs m) then rc = RcOk ∧ pairs m' = pairs m ∖ {[(k, s)]} else rc = RcErr ENOENT ∧ m' = m.
Proof.
  intros Hwf. unfold map_remove. destruct (m !! k) as [l|] eqn:E.
  2: { split; [done|]. rewrite decide_False; [done|]. rewrite elem_of_pairs, E. apply not_elem_of_nil. }
  destruct (Hwf k l E) as [Hne Hnd]. destruct (decide (s ∈ l)) as [Hs|Hs].
  2: { split; [done|]. rewrite decide_False; [done|]. by rewrite elem_of_pairs, E. }
  rewrite decide_True by (by rewrite elem_of_pairs, E). set (m' := match erase_first s l with [] => delete k m | l => <[k := l]> m end).
  assert (Hlk : ∀ k', default [] (m' !! k') = if decide (k' = k) then erase_first s l else default [] (m !! k')).
  { intros k'. unfold m'. destruct (erase_first s l) as [|x l'] eqn:Ee; case_decide as Hk; subst; rewrite ?lookup_delete_eq, ?lookup_insert_eq, ?lookup_delete_ne, ?lookup_insert_ne by done; done. }
  split; [|split; [done|]].
  - unfold m'. destruct (erase_first s l) as [|x l'] eqn:Ee; [by apply map_Forall_delete|]. apply map_Forall_insert_2; [|done]. split; [done|]. rewrite <- Ee. by apply erase_first_nodup.
  - apply set_eq. intros [k' s']. rewrite elem_of_difference, elem_of_singleton, !elem_of_pairs, Hlk. case_decide as Hk.
    + subst k'. rewrite erase_first_elem, E by done. simpl. split; intros [? Hn]; (split; [done|]); [by intros [= ->]|by intros ->].
    + split; [intros ?; split; [done|by intros [= -> _]]|by intros [? _]].
Qed.

Lemma map_remove_all_spec s m : map_wf m → map_wf (map_remove_all s m) ∧ pairs (map_remove_all s m) = filter (λ p, p.2 ≠ s) (pairs m).
Proof.
  intros Hwf. unfold map_remove_all. split.
  - intros k l. rewrite lookup_omap. destruct (m !! k) as [l0|] eqn:E; simpl; [|done]. destruct (Hwf k l0 E) as [_ Hnd].
    destruct (erase_first s l0) as [|x l'] eqn:Ee; [done|]. intros [= <-]. split; [done|]. rewrite <- Ee. by apply erase_first_nodup.
  - apply set_eq. intros [k' s']. rewrite elem_of_filter, !elem_of_pairs, lookup_omap. simpl. destruct (m !! k') as [l0|] eqn:E; simpl; [|split; [by intros ?%elem_of_nil|by intros [_ ?%elem_of_nil]]].
    destruct (Hwf k' l0 E) as [_ Hnd]. pose proof (erase_first_elem s s' l0 Hnd) as He. destruct (erase_first s l0) as [|x l'] eqn:Ee; simpl; rewrite He; tauto.
Qed.

(** **** The operations as operations on sets *)

Inductive mop := MAdd (t : str) (s : subscriber_t) | MRemove (t : str) (s : subscriber_t) | MAddPattern (p : str) (s : subscriber_t) | MRemovePattern (p : str) (s : subscriber_t)
  | MRemoveAll (s : subscriber_t).

Definition mstep (o : mop) (m : manager_t) : rc_t * manager_t :=
  match o with
  | MAdd t s => add_subscription t s m
  | MRemove t s => remove_subscription t s m
  | MAddPattern p s => add_pattern_subscription p s m
  | MRemovePattern p s => remove_pattern_subscription p s m
  | MRemoveAll s => (RcOk, remove_all_subscriptions s m)
  end.

Definition set_add (x : str * subscriber_t) (E : pairset) : rc_t * pairset := if decide (x ∈ E) then (RcErr EEXIST, E) else (RcOk, {[x]} ∪ E).
Definition set_remove (x : str * subscriber_t) (E : pairset) : rc_t * pairset := if decide (x ∈ E) then (RcOk, E ∖ {[x]}) else (RcErr ENOENT, E).

Definition sstep (o : mop) (EP : pairset * pairset) : rc_t * (pairset * pairset) :=
  let '(E, P) := EP in
  match o with
  | MAdd t s => let '(rc, E) := set_add (t, s) E in (rc, (E, P))
  | MRemove t s => let '(rc, E) := set_remove (t, s) E in (rc, (E, P))
  | MAddPattern p (LocalSub n) => let '(rc, P) := set_add (p, LocalSub n) P in (rc, (E, P))
  | MAddPattern p (RemoteSub _) => (RcErr EINVAL, (E, P))
  | MRemovePattern p s => let '(rc, P) := set_remove (p, s) P in (rc, (E, P))
  | MRemoveAll s => (RcOk, (filter (λ p, p.2 ≠ s) E, filter (λ p, p.2 ≠ s) P))
  end.

Definition manager_wf (m : manager_t) : Prop := map_wf (sm_exact m) ∧ map_wf (sm_pattern m).
Definition manager_sets (m : manager_t) : pairset * pairset := (pairs (sm_exact m), pairs (sm_pattern m)).

Lemma mstep_spec o m : manager_wf m → manager_wf (mstep o m).2 ∧ ((mstep o m).1, manager_sets (mstep o m).2) = sstep o (manager_sets m).
Proof.
  intros [He Hp]. destruct o as [t s|t s|p [n|e]|p s|s]; simpl; unfold add_subscription, remove_subscription, remove_pattern_subscription, set_add, set_remove.
  - pose proof (map_add_spec t s _ He) as H. destruct (map_add t s (sm_exact m)) as [rc e']. destruct H as [H1 H2]. split; [done|]. unfold manager_sets. simpl. destruct (decide _); destruct H2 as [-> H2]; congruence.
  - pose proof (map_remove_spec t s _ He) as H. destruct (map_remove t s (sm_exact m)) as [rc e']. destruct H as [H1 H2]. split; [done|]. unfold manager_sets. simpl. destruct (decide _); destruct H2 as [-> H2]; congruence.
  - pose proof (map_add_spec p (LocalSub n) _ Hp) as H. destruct (map_add p (LocalSub n) (sm_pattern m)) as [rc e']. destruct H as [H1 H2]. split; [done|]. unfold manager_sets. simpl. destruct (decide _); destruct H2 as [-> H2]; congruence.
  - done.
  - pose proof (map_remove_spec p s _ Hp) as H. destruct (map_remove p s (sm_pattern m)) as [rc e']. destruct H as [H1 H2]. split; [done|]. unfold manager_sets. simpl. destruct (decide _); destruct H2 as [-> H2]; congruence.
  - destruct (map_remove_all_spec s _ He) as [? E1], (map_remove_all_spec s _ Hp) as [? E2]. split; [done|]. unfold manager_sets. simpl. by rewrite E1, E2.
Qed.

End ManagerSets.

(** ** spot_pubsub_t *)

(** What it uses of its two sockets: [sw_filter] counts the subscriptions of the XSUB socket, [sw_inbox] are the frames that
    it can receive (with their more flag). *)
Class SpotSockets (W : Type) := {
  sw_filter : W → str → Z;
  sw_inbox : W → list (str * bool);
  sw_subscribe : str → W → rc_t * W;
  sw_cancel : str → W → rc_t * W;
  sw_connect : str → W → rc_t * W;
  sw_term_endpoint : str → W → rc_t * W;
  sw_bind : str → W → rc_t * W;
  sw_set_hwm : bool → Z → W → rc_t * W;
  sw_send : str → bool → W → rc_t * W;
  sw_recv : W → option (str * bool) * W;
}.

(** Some subscription is a prefix of the topic. *)
Definition wanted (f : str → Z) (t : str) : bool := existsb (λ n, bool_decide (0 < f (take n t))) (seq 0 (S (length t))).

Section spot.
Context {W : Type} `{!SpotSockets W}.
Import Registry Manager.

Record spot_t := Spot {
  sp_registry : topic_registry_t;
  sp_manager : manager_t;
  sp_inproc : str;
  sp_bind_endpoint : str;
  sp_bind_endpoints : gset str;
  sp_connected : gset str;
  sp_sndhwm : Z;
  sp_rcvhwm : Z;
  sp_rcvtimeo : Z;
}.

(** The receiving socket as a subscriber; the endpoint of remote ones is never set. *)
Definition recv_socket : nat := 0.
Definition local_sub : subscriber_t := LocalSub recv_socket.
Definition remote_sub : subscriber_t := RemoteSub [].

Definition sp_set_registry (r : topic_registry_t) (s : spot_t) : spot_t :=
  Spot r (sp_manager s) (sp_inproc s) (sp_bind_endpoint s) (sp_bind_endpoints s) (sp_connected s) (sp_sndhwm s) (sp_rcvhwm s) (sp_rcvtimeo s).
Definition sp_set_manager (m : manager_t) (s : spot_t) : spot_t :=
  Spot (sp_registry s) m (sp_inproc s) (sp_bind_endpoint s) (sp_bind_endpoints s) (sp_connected s) (sp_sndhwm s) (sp_rcvhwm s) (sp_rcvtimeo s).
Definition sp_set_connected (c : gset str) (s : spot_t) : spot_t :=
  Spot (sp_registry s) (sp_manager s) (sp_inproc s) (sp_bind_endpoint s) (sp_bind_endpoints s) c (sp_sndhwm s) (sp_rcvhwm s) (sp_rcvtimeo s).

Definition inproc_scheme : str := [105; 110; 112; 114; 111; 99; 58; 47; 47].

(** The constructor throws (None) if one of its steps fails. *)
Definition spot_new (counter : Z) (w : W) : option (spot_t * W) :=
  let inproc := inproc_spot ++ decimal 20 counter in
  let '(_, w) := sw_set_hwm true 1000 w in
  let '(rc, w) := sw_bind inproc w in
  if decide (rc ≠ RcOk) then None
  else
    let '(_, w) := sw_set_hwm false 1000 w in
    let '(rc, w) := sw_connect inproc w in
    if decide (rc ≠ RcOk) then None else Some (Spot registry_new manager_new inproc [] ∅ ∅ 1000 1000 (-1), w).

(** *** Topics *)

Definition topic_create (t : str) (s : spot_t) : rc_t * spot_t :=
  if has_topic t (sp_registry s) then (RcErr EEXIST, s)
  else
    let endpoint := if decide (sp_bind_endpoint s = []) then sp_inproc s else sp_bind_endpoint s in
    let '(rc, r) := register_local t endpoint (sp_registry s) in (rc, sp_set_registry r s).

Definition topic_destroy (t : str) (s : spot_t) : rc_t * spot_t :=
  match reg_lookup t (sp_registry s) with
  | None => (RcErr ENOENT, s)
  | Some e => if decide (te_location e ≠ LOCAL) then (RcErr EINVAL, s) else (RcOk, sp_set_registry (unregister t (sp_registry s)).2 s)
  end.

Definition topic_route (t endpoint : str) (s : spot_t) : rc_t * spot_t :=
  if has_topic t (sp_registry s) then (RcErr EEXIST, s)
  else let '(rc, r) := register_remote t endpoint (sp_registry s) in (rc, sp_set_registry r s).

(** *** Subscriptions *)

(** The end of all three branches of [subscribe]; a subscription that exists is not an error. *)
Definition subscribe_as (sub : subscriber_t) (t : str) (s : spot_t) (w : W) : rc_t * spot_t * W :=
  let '(rc, m) := add_subscription t sub (sp_manager s) in
  let s := sp_set_manager m s in
  match rc with
  | RcErr e => if decide (e = EEXIST) then (RcOk, s, w) else (RcErr e, s, w)
  | RcOk => let '(rc, w) := sw_subscribe t w in (rc, s, w)
  end.

Definition spot_subscribe (t : str) (s : spot_t) (w : W) : rc_t * spot_t * W :=
  match reg_lookup t (sp_registry s) with
  | None => if decide (sp_connected s = ∅) then (RcErr ENOENT, s, w) else subscribe_as remote_sub t s w
  | Some e =>
      match te_location e with
      | LOCAL => subscribe_as local_sub t s w
      | REMOTE =>
          if decide (te_endpoint e ∈ sp_connected s) then subscribe_as remote_sub t s w
          else
            let '(rc, w) := sw_connect (te_endpoint e) w in
            if decide (rc ≠ RcOk) then (rc, s, w)
            else subscribe_as remote_sub t (sp_set_connected ({[te_endpoint e]} ∪ sp_connected s) s) w
      end
  end.

Definition subscribe_pattern (p : str) (s : spot_t) (w : W) : rc_t * spot_t * W :=
  let '(rc, m) := add_pattern_subscription p local_sub (sp_manager s) in
  let s := sp_set_manager m s in
  if decide (rc ≠ RcOk) then (rc, s, w) else let '(rc, w) := sw_subscribe (before_star p) w in (rc, s, w).

(** -1 if one of them has failed; errno is that of the last call that failed. *)
Fixpoint subscribe_many (ts : list str) (s : spot_t) (w : W) : rc_t * spot_t * W :=
  match ts with
  | [] => (RcOk, s, w)
  | t :: ts =>
      let '(rc, s, w) := spot_subscribe t s w in
      let '(rc', s, w) := subscribe_many ts s w in
      (match rc' with RcOk => rc | _ => rc' end, s, w)
  end.

Definition spot_unsubscribe (t : str) (s : spot_t) (w : W) : rc_t * spot_t * W :=
  match reg_lookup t (sp_registry s) with
  | None => (RcErr ENOENT, s, w)
  | Some e =>
      let sub := match te_location e with LOCAL => local_sub | REMOTE => remote_sub end in
      let '(rc, m) := remove_subscription t sub (sp_manager s) in
      let s := sp_set_manager m s in
      if decide (rc ≠ RcOk) then (rc, s, w) else let '(rc, w) := sw_cancel t w in (rc, s, w)
  end.

(** *** Messages *)

Definition publish (t data : str) (s : spot_t) (w : W) : rc_t * W :=
  match reg_lookup t (sp_registry s) with
  | None => (RcErr ENOENT, w)
  | Some e =>
      if decide (te_location e ≠ LOCAL) then (RcErr EINVAL, w)
      else
        let '(rc, w) := sw_send t true w in
        if decide (rc ≠ RcOk) then (rc, w) else sw_send data false w
  end.

(** What others do to the sockets during the sleep after attempt [i], and the clock then. *)
Context (others : nat → W → W) (clock : nat → Z).

(** Received, an error, or waiting for a second frame that does not come. *)
Inductive recv_res := RGot (topic data : str) | RFail (e : errno_t) | RStuck.

(** The two frames, once there is a first one. *)
Definition take_message (topic_size data_size : Z) (topic : str) (w : W) : recv_res * W :=
  if decide (Z.of_nat (length topic) > topic_size) then (RFail EMSGSIZE, w)
  else
    match sw_recv w with
    | (None, w) => (RStuck, w)
    | (Some (data, _), w) => if decide (Z.of_nat (length data) > data_size) then (RFail EMSGSIZE, w) else (RGot topic data, w)
    end.

(** None: not yet *)
Fixpoint spot_recv_loop (fuel : nat) (i : nat) (dontwait : bool) (timeout deadline topic_size data_size : Z) (w : W) : option (recv_res * nat * W) :=
  match fuel with
  | O => None
  | S fuel =>
      match sw_recv w with
      | (Some (topic, _), w) => let '(r, w) := take_message topic_size data_size topic w in Some (r, i, w)
      | (None, w) =>
          if dontwait then Some (RFail EAGAIN, i, w)
          else if decide (0 < timeout) then if decide (deadline ≤ clock i) then Some (RFail EAGAIN, i, w) else spot_recv_loop fuel (S i) dontwait timeout deadline topic_size data_size (others i w)
          else if decide (timeout = 0) then Some (RFail EAGAIN, i, w)
          else spot_recv_loop fuel (S i) dontwait timeout deadline topic_size data_size (others i w)
      end
  end.

Definition spot_recv (fuel : nat) (start : Z) (dontwait : bool) (topic_size data_size : Z) (s : spot_t) (w : W) : option (recv_res * nat * W) :=
  let deadline := if negb dontwait && bool_decide (0 < sp_rcvtimeo s) then u64 (start + sp_rcvtimeo s) else 0 in
  spot_recv_loop fuel 0 dontwait (sp_rcvtimeo s) deadline topic_size data_size w.

(** *** Introspection, options and the cluster *)

Definition list_topics (s : spot_t) : list str := get_all_topics (sp_registry s).
Definition topic_exists (t : str) (s : spot_t) : bool := has_topic t (sp_registry s).
Definition topic_is_local (t : str) (s : spot_t) : bool :=
  match reg_lookup t (sp_registry s) with None => false | Some e => bool_decide (te_location e = LOCAL) end.

Definition set_hwm (snd rcv : Z) (s : spot_t) (w : W) : rc_t * spot_t * W :=
  let s := Spot (sp_registry s) (sp_manager s) (sp_inproc s) (sp_bind_endpoint s) (sp_bind_endpoints s) (sp_connected s) snd rcv (sp_rcvtimeo s) in
  let '(rc, w) := sw_set_hwm false rcv w in
  if decide (rc ≠ RcOk) then (rc, s, w) else let '(rc, w) := sw_set_hwm true snd w in (rc, s, w).

Definition SPOT_RCVTIMEO : Z := 27.

(** The length and the int at the address. *)
Definition spot_setsockopt (opt : Z) (value : option (Z * Z)) (s : spot_t) : rc_t * spot_t :=
  match value with
  | None => (RcErr EINVAL, s)
  | Some (len, x) =>
      if decide (opt = SPOT_RCVTIMEO ∧ len = 4) then
        (RcOk, Spot (sp_registry s) (sp_manager s) (sp_inproc s) (sp_bind_endpoint s) (sp_bind_endpoints s) (sp_connected s) (sp_sndhwm s) (sp_rcvhwm s) x)
      else (RcErr EINVAL, s)
  end.

Definition spot_getsockopt (opt : Z) (len : Z) (s : spot_t) : Z + errno_t := if decide (opt = SPOT_RCVTIMEO ∧ 4 ≤ len) then inl (sp_rcvtimeo s) else inr EINVAL.

Definition tcp_scheme : str := [116; 99; 112; 58; 47; 47].
Fixpoint contains (x l : str) : bool := match l with [] => bool_decide (x = []) | _ :: l' => bool_decide (take (length x) l = x) || contains x l' end.

Definition spot_bind (endpoint : str) (s : spot_t) (w : W) : rc_t * spot_t * W :=
  if decide (endpoint ∈ sp_bind_endpoints s) then (RcErr EEXIST, s, w)
  else
    let '(rc, w) := sw_bind endpoint w in
    if decide (rc ≠ RcOk) then (rc, s, w)
    else
      let first := if decide (sp_bind_endpoint s = [] ∧ contains tcp_scheme endpoint = true) then endpoint else sp_bind_endpoint s in
      (RcOk, Spot (sp_registry s) (sp_manager s) (sp_inproc s) first ({[endpoint]} ∪ sp_bind_endpoints s) (sp_connected s) (sp_sndhwm s) (sp_rcvhwm s) (sp_rcvtimeo s), w).

Definition cluster_add (endpoint : str) (s : spot_t) (w : W) : rc_t * spot_t * W :=
  if decide (endpoint ∈ sp_connected s) then (RcErr EEXIST, s, w)
  else
    let '(rc, w) := sw_connect endpoint w in
    if decide (rc ≠ RcOk) then (rc, s, w) else (RcOk, sp_set_connected ({[endpoint]} ∪ sp_connected s) s, w).

Definition cluster_remove (endpoint : str) (s : spot_t) (w : W) : rc_t * spot_t * W :=
  if decide (endpoint ∉ sp_connected s) then (RcErr ENOENT, s, w)
  else
    let '(rc, w) := sw_term_endpoint endpoint w in
    if decide (rc ≠ RcOk ∧ rc ≠ RcErr ENOENT) then (rc, s, w) else (RcOk, sp_set_connected (sp_connected s ∖ {[endpoint]}) s, w).

(** *** Calls *)

Inductive spot_call :=
| CCreate (t : str) | CDestroy (t : str) | CRoute (t e : str) | CSubscribe (t : str) | CSubscribePattern (p : str) | CSubscribeMany (ts : list str) | CUnsubscribe (t : str)
| CPublish (t d : str) | CBind (e : str) | CClusterAdd (e : str) | CClusterRemove (e : str) | CSetHwm (snd rcv : Z) | CSetTimeout (x : Z).

Definition spot_step (c : spot_call) (s : spot_t) (w : W) : rc_t * spot_t * W :=
  match c with
  | CCreate t => let '(rc, s) := topic_create t s in (rc, s, w)
  | CDestroy t => let '(rc, s) := topic_destroy t s in (rc, s, w)
  | CRoute t e => let '(rc, s) := topic_route t e s in (rc, s, w)
  | CSubscribe t => spot_subscribe t s w
  | CSubscribePattern p => subscribe_pattern p s w
  | CSubscribeMany ts => subscribe_many ts s w
  | CUnsubscribe t => spot_unsubscribe t s w
  | CPublish t d => let '(rc, w) := publish t d s w in (rc, s, w)
  | CBind e => spot_bind e s w
  | CClusterAdd e => cluster_add e s w
  | CClusterRemove e => cluster_remove e s w
  | CSetHwm snd rcv => set_hwm snd rcv s w
  | CSetTimeout x => let '(rc, s) := spot_setsockopt SPOT_RCVTIMEO (Some (4, x)) s in (rc, s, w)
  end.

Fixpoint spot_run (cs : list spot_call) (s : spot_t) (w : W) : list rc_t * spot_t * W :=
  match cs with
  | [] => ([], s, w)
  | c :: cs => let '(rc, s, w) := spot_step c s w in let '(rcs, s, w) := spot_run cs s w in (rc :: rcs, s, w)
  end.

End spot.

(** ** What is proved *)

Import Registry Manager ManagerSets.

(** What the sockets promise: subscribing and cancelling change the filter of the XSUB socket, by one; they do not fail (the XSUB socket sends
    subscriptions to all pipes, and fails only when the context terminates); nothing else changes it, and frames are received in order.  What becomes of a message that is
    published is the business of the sockets: the XPUB socket learns of a subscription when it processes its commands, so a message published before is not delivered. *)
Class SpotSocketsOk (W : Type) `{!SpotSockets W} := {
  sw_subscribe_ok p w : ∃ w', sw_subscribe p w = (RcOk, w') ∧ (∀ q, sw_filter w' q = sw_filter w q + (if decide (q = p) then 1 else 0)) ∧ sw_inbox w' = sw_inbox w;
  sw_cancel_ok p w : ∃ w', sw_cancel p w = (RcOk, w') ∧ (0 < sw_filter w p → ∀ q, sw_filter w' q = sw_filter w q - (if decide (q = p) then 1 else 0)) ∧ sw_inbox w' = sw_inbox w;
  sw_connect_keeps e w : let w' := (sw_connect e w).2 in sw_filter w' = sw_filter w ∧ sw_inbox w' = sw_inbox w;
  sw_term_endpoint_keeps e w : let w' := (sw_term_endpoint e w).2 in sw_filter w' = sw_filter w ∧ sw_inbox w' = sw_inbox w;
  sw_bind_keeps e w : let w' := (sw_bind e w).2 in sw_filter w' = sw_filter w ∧ sw_inbox w' = sw_inbox w;
  sw_set_hwm_keeps b x w : let w' := (sw_set_hwm b x w).2 in sw_filter w' = sw_filter w ∧ sw_inbox w' = sw_inbox w;
  sw_send_keeps d more w : sw_filter (sw_send d more w).2 = sw_filter w;
  sw_recv_next w : ∃ w', sw_recv w = (head (sw_inbox w), w') ∧ sw_filter w' = sw_filter w ∧ sw_inbox w' = tail (sw_inbox w);
}.

Section in_step.
Context {W : Type} `{!SpotSockets W} `{!SpotSocketsOk W}.

(** How often a prefix is subscribed according to the manager: as a topic, and as the part of a pattern before its star. *)
Definition pattern_uses (p : str) (m : submap) : Z := Z.of_nat (sum_list ((λ '(pat, l), if decide (before_star pat = p) then length l else 0%nat) <$> map_to_list m)).
Definition uses (m : manager_t) (p : str) : Z := Z.of_nat (length (default [] (sm_exact m !! p))) + pattern_uses p (sm_pattern m).

(** The sockets have the filters of the subscriptions. *)
Record in_step (s : spot_t) (w : W) : Prop := {
  is_filter : ∀ p, sw_filter w p = uses (sp_manager s) p;
  is_exact : map_wf (sm_exact (sp_manager s));
  is_pattern : map_Forall (λ _ l, l = [local_sub]) (sm_pattern (sp_manager s));
}.

Lemma pattern_uses_add p pat l m : m !! pat = None → pattern_uses p (<[pat := l]> m) = (if decide (before_star pat = p) then Z.of_nat (length l) else 0) + pattern_uses p m.
Proof.
  intros H. unfold pattern_uses. rewrite (map_to_list_insert m pat l H). rewrite fmap_cons. simpl. case_decide; lia.
Qed.

Lemma exact_add t sub m : map_wf (sm_exact m) →
  let '(rc, m') := add_subscription t sub m in
  map_wf (sm_exact m') ∧ sm_pattern m' = sm_pattern m
  ∧ match rc with
    | RcOk => ∀ q, uses m' q = uses m q + (if decide (q = t) then 1 else 0)
    | RcErr e => e = EEXIST ∧ m' = m
    end.
Proof.
  intros Hwf. unfold add_subscription. pose proof (map_add_spec t sub _ Hwf) as H. unfold map_add in *. destruct (decide (sub ∈ default [] (sm_exact m !! t))) as [Hs|Hs].
  - destruct H as [H1 H2]. rewrite decide_True in H2 by (by apply elem_of_pairs). destruct H2 as [_ H2]. simpl. rewrite H2. by destruct m.
  - destruct H as [H1 _]. simpl. split; [done|]. split; [done|]. intros q. unfold uses. simpl. destruct (decide (q = t)) as [->|Hne].
    + rewrite lookup_insert_eq. simpl. rewrite length_app. simpl. lia.
    + rewrite lookup_insert_ne by done. lia.
Qed.

Lemma erase_first_length s l : s ∈ l → S (length (erase_first s l)) = length l.
Proof. induction l as [|x l IH]; [by intros ?%elem_of_nil|]. intros [->|H]%elem_of_cons; simpl; [by rewrite decide_True|]. case_decide; [done|]. simpl. by rewrite IH. Qed.

Lemma exact_remove t sub m : map_wf (sm_exact m) →
  let '(rc, m') := remove_subscription t sub m in
  map_wf (sm_exact m') ∧ sm_pattern m' = sm_pattern m
  ∧ match rc with
    | RcOk => 0 < uses m t ∧ ∀ q, uses m' q = uses m q - (if decide (q = t) then 1 else 0)
    | RcErr e => m' = m
    end.
Proof.
  intros Hwf. unfold remove_subscription. pose proof (map_remove_spec t sub _ Hwf) as H. unfold map_remove in *. destruct (sm_exact m !! t) as [l|] eqn:E; [|by destruct m].
  destruct (decide (sub ∈ l)) as [Hs|Hs]; [|by destruct m]. destruct H as [H1 _]. simpl. split; [done|]. split; [done|]. pose proof (erase_first_length sub l Hs) as Hl.
  assert (Hp : ∀ q, 0 ≤ pattern_uses q (sm_pattern m)) by (intros q; unfold pattern_uses; lia). split; [unfold uses; rewrite E; simpl; specialize (Hp t); lia|].
  intros q. unfold uses. simpl. destruct (decide (q = t)) as [->|Hne].
  - rewrite E. simpl. destruct (erase_first sub l) as [|x l']; rewrite ?lookup_delete_eq, ?lookup_insert_eq; simpl in *; lia.
  - destruct (erase_first sub l) as [|x l']; rewrite ?lookup_delete_ne, ?lookup_insert_ne by done; lia.
Qed.

Lemma subscribe_as_in_step sub t s w : in_step s w → let '(rc, s', w') := subscribe_as sub t s w in rc = RcOk ∧ in_step s' w' ∧ sw_inbox w' = sw_inbox w.
Proof.
  intros []. unfold subscribe_as. pose proof (exact_add t sub (sp_manager s) is_exact0) as H. destruct (add_subscription t sub (sp_manager s)) as [[|e] m].
  - destruct H as (H1 & H2 & H3). destruct (sw_subscribe_ok t w) as (w' & -> & Hf & Hi). split; [done|]. split; [|done]. split; simpl; [|done|by rewrite H2].
    intros p. rewrite Hf, H3, is_filter0. lia.
  - destruct H as (_ & _ & -> & ->). simpl. split; [done|]. split; [by split|done].
Qed.

Lemma in_step_connected c s w : in_step s w → in_step (sp_set_connected c s) w.
Proof. intros []. by split. Qed.

Lemma in_step_world s w w' : in_step s w → sw_filter w' = sw_filter w → in_step s w'.
Proof. intros [] H. split; try done. by rewrite H. Qed.

Lemma subscribe_in_step t s w : in_step s w → let '(rc, s', w') := spot_subscribe t s w in in_step s' w' ∧ sw_inbox w' = sw_inbox w.
Proof.
  intros H. unfold spot_subscribe. destruct (reg_lookup t (sp_registry s)) as [e|].
  - destruct (te_location e); [pose proof (subscribe_as_in_step local_sub t s w H) as Hs; destruct (subscribe_as local_sub t s w) as [[rc s'] w']; by destruct Hs as (_ & ? & ?)|].
    destruct (decide (te_endpoint e ∈ sp_connected s)); [pose proof (subscribe_as_in_step remote_sub t s w H) as Hs; destruct (subscribe_as remote_sub t s w) as [[rc s'] w']; by destruct Hs as (_ & ? & ?)|].
    pose proof (sw_connect_keeps (te_endpoint e) w) as [Hf Hi]. destruct (sw_connect (te_endpoint e) w) as [rc w1]. simpl in Hf, Hi. case_decide; [split; [by apply (in_step_world s w)|done]|].
    pose proof (subscribe_as_in_step remote_sub t (sp_set_connected ({[te_endpoint e]} ∪ sp_connected s) s) w1) as Hs. destruct (subscribe_as remote_sub t _ w1) as [[rc' s'] w'].
    destruct Hs as (_ & Hs & Hi'); [by apply in_step_connected, (in_step_world s w)|]. split; [done|congruence].
  - case_decide; [done|]. pose proof (subscribe_as_in_step remote_sub t s w H) as Hs. destruct (subscribe_as remote_sub t s w) as [[rc s'] w']. by destruct Hs as (_ & ? & ?).
Qed.

Lemma subscribe_many_in_step ts s w : in_step s w → let '(rc, s', w') := subscribe_many ts s w in in_step s' w' ∧ sw_inbox w' = sw_inbox w.
Proof.
  revert s w. induction ts as [|t ts IH]; intros s w H; [done|]. simpl. pose proof (subscribe_in_step t s w H) as Hs. destruct (spot_subscribe t s w) as [[rc s1] w1]. destruct Hs as [Hs Hi].
  pose proof (IH s1 w1 Hs) as H2. destruct (subscribe_many ts s1 w1) as [[rc' s'] w']. destruct H2 as [H2 Hi2]. split; [done|congruence].
Qed.

Lemma pattern_in_step p s w : in_step s w → let '(rc, s', w') := subscribe_pattern p s w in in_step s' w' ∧ sw_inbox w' = sw_inbox w.
Proof.
  intros []. unfold subscribe_pattern, add_pattern_subscription, local_sub, map_add. destruct (sm_pattern (sp_manager s) !! p) as [l|] eqn:E.
  - pose proof (is_pattern0 p l E) as Hl. simpl in Hl. subst l. simpl. split; [|done]. split; simpl; try done.
    + intros q. rewrite is_filter0. unfold uses. simpl. by rewrite (insert_id _ _ _ E).
    + by rewrite (insert_id _ _ _ E).
  - simpl. destruct (sw_subscribe_ok (before_star p) w) as (w' & -> & Hf & Hi). split; [|done]. split; simpl; try done.
    + intros q. rewrite Hf, is_filter0. unfold uses. simpl. rewrite pattern_uses_add by done. simpl. repeat case_decide; subst; try done; lia.
    + by apply map_Forall_insert_2.
Qed.

Lemma unsubscribe_in_step t s w : in_step s w → let '(rc, s', w') := spot_unsubscribe t s w in in_step s' w' ∧ sw_inbox w' = sw_inbox w.
Proof.
  intros []. unfold spot_unsubscribe. destruct (reg_lookup t (sp_registry s)) as [e|]; [|by split].
  set (sub := match te_location e with LOCAL => local_sub | REMOTE => remote_sub end). pose proof (exact_remove t sub (sp_manager s) is_exact0) as H.
  destruct (remove_subscription t sub (sp_manager s)) as [[|e'] m]; destruct H as (H1 & H2 & H3).
  - rewrite decide_False by tauto. destruct H3 as [Hpos H3]. destruct (sw_cancel_ok t w) as (w' & -> & Hf & Hi). split; [|done]. split; simpl; [|done|by rewrite H2]. intros p. rewrite Hf, H3, is_filter0 by (by rewrite is_filter0). done.
  - rewrite decide_True by done. subst m. split; [|done]. by split.
Qed.

(** Every call but [publish] leaves the frames that can be received. *)
Lemma step_in_step c s w : in_step s w →
  let '(rc, s', w') := spot_step c s w in in_step s' w' ∧ (match c with CPublish _ _ => True | _ => sw_inbox w' = sw_inbox w end).
Proof.
  intros H. assert (Hreg : ∀ r, in_step (sp_set_registry r s) w) by (destruct H; by split).
  destruct c as [t|t|t e|t|p|ts|t|t d|e|e|e|x y|x]; simpl.
  - unfold topic_create. destruct (has_topic t (sp_registry s)); [done|]. cbv zeta. destruct (register_local t _ (sp_registry s)) as [rc r]. split; [apply Hreg|done].
  - unfold topic_destroy. destruct (reg_lookup t (sp_registry s)) as [e|]; [|done]. case_decide; [done|]. split; [apply Hreg|done].
  - unfold topic_route. destruct (has_topic t (sp_registry s)); [done|]. destruct (register_remote t e (sp_registry s)) as [rc r]. split; [apply Hreg|done].
  - by apply subscribe_in_step.
  - by apply pattern_in_step.
  - by apply subscribe_many_in_step.
  - by apply unsubscribe_in_step.
  - unfold publish. destruct (reg_lookup t (sp_registry s)) as [e|]; [|done]. case_decide; [done|]. pose proof (sw_send_keeps t true w) as Hf1. destruct (sw_send t true w) as [rc w1]. simpl in Hf1.
    destruct (decide (rc ≠ RcOk)); [|pose proof (sw_send_keeps d false w1) as Hf2; destruct (sw_send d false w1) as [rc' w2]; simpl in Hf2; rewrite Hf1 in Hf2]; (split; [by apply (in_step_world s w)|done]).
  - unfold spot_bind. case_decide; [done|]. pose proof (sw_bind_keeps e w) as [Hf Hi]. destruct (sw_bind e w) as [rc w1]. simpl in Hf, Hi. case_decide; [split; [by apply (in_step_world s w)|done]|].
    split; [|done]. destruct (in_step_world s w w1 H Hf). by split.
  - unfold cluster_add. case_decide; [done|]. pose proof (sw_connect_keeps e w) as [Hf Hi]. destruct (sw_connect e w) as [rc w1]. simpl in Hf, Hi.
    case_decide; (split; [|done]); [by apply (in_step_world s w)|by apply in_step_connected, (in_step_world s w)].
  - unfold cluster_remove. case_decide; [done|]. pose proof (sw_term_endpoint_keeps e w) as [Hf Hi]. destruct (sw_term_endpoint e w) as [rc w1]. simpl in Hf, Hi.
    case_decide; (split; [|done]); [by apply (in_step_world s w)|by apply in_step_connected, (in_step_world s w)].
  - unfold set_hwm. pose proof (sw_set_hwm_keeps false y w) as [Hf Hi]. destruct (sw_set_hwm false y w) as [rc w1]. simpl in Hf, Hi.
    assert (Hs : in_step (Spot (sp_registry s) (sp_manager s) (sp_inproc s) (sp_bind_endpoint s) (sp_bind_endpoints s) (sp_connected s) x y (sp_rcvtimeo s)) w1) by (destruct (in_step_world s w w1 H Hf); by split).
    case_decide; [done|]. pose proof (sw_set_hwm_keeps true x w1) as [Hf2 Hi2]. destruct (sw_set_hwm true x w1) as [rc2 w2]. simpl in Hf2, Hi2. split; [by apply (in_step_world _ w1)|congruence].
  - split; [|done]. destruct H. by split.
Qed.

Lemma run_in_step cs s w : in_step s w → let '(_, s', w') := spot_run cs s w in in_step s' w'.
Proof.
  revert s w. induction cs as [|c cs IH]; intros s w H; [done|]. simpl. pose proof (step_in_step c s w H) as Hs. destruct (spot_step c s w) as [[rc s1] w1]. destruct Hs as [Hs _].
  pose proof (IH s1 w1 Hs) as H2. by destruct (spot_run cs s1 w1) as [[rcs s'] w'].
Qed.

Lemma new_in_step counter w s w' : (∀ p, sw_filter w p = 0) → spot_new counter w = Some (s, w') → in_step s w' ∧ sw_inbox w' = sw_inbox w.
Proof.
  intros H0. unfold spot_new. cbv zeta. set (e := inproc_spot ++ _). pose proof (sw_set_hwm_keeps true 1000 w) as [F1 I1]. destruct (sw_set_hwm true 1000 w) as [rc1 w1].
  pose proof (sw_bind_keeps e w1) as [F2 I2]. destruct (sw_bind e w1) as [rc2 w2]. case_decide; [done|]. pose proof (sw_set_hwm_keeps false 1000 w2) as [F3 I3]. destruct (sw_set_hwm false 1000 w2) as [rc3 w3].
  pose proof (sw_connect_keeps e w3) as [F4 I4]. destruct (sw_connect e w3) as [rc4 w4]. case_decide; [done|]. simpl in *. intros [= <- <-]. split; [|congruence]. split; simpl; [|apply map_Forall_empty..].
  intros p. unfold uses, pattern_uses. simpl. rewrite lookup_empty, map_to_list_empty. simpl. by rewrite F4, F3, F2, F1, H0.
Qed.

(** *** Which messages are delivered *)

Lemma wanted_spec f t : wanted f t = true ↔ ∃ p, p `prefix_of` t ∧ 0 < f p.
Proof.
  unfold wanted. rewrite existsb_exists. split.
  - intros (n & _ & H%bool_decide_eq_true). exists (take n t). split; [|done]. exists (drop n t). by rewrite take_drop.
  - intros (p & [q ->] & H). exists (length p). split; [apply in_seq; rewrite length_app; lia|]. by rewrite take_app_length, bool_decide_eq_true.
Qed.

(** A topic that is subscribed, or the part before the star of a pattern that is, is a prefix of [t]. *)
Definition subscribed (m : manager_t) (t : str) : Prop :=
  (∃ q, q `prefix_of` t ∧ is_Some (sm_exact m !! q)) ∨ (∃ pat, before_star pat `prefix_of` t ∧ is_Some (sm_pattern m !! pat)).

Lemma pattern_uses_pos p m : map_Forall (λ _ l, l = [local_sub]) m → 0 < pattern_uses p m ↔ ∃ pat, before_star pat = p ∧ is_Some (m !! pat).
Proof.
  intros Hm. unfold pattern_uses. split.
  - intros H. assert (Hex : ∃ pat l, (pat, l) ∈ map_to_list m ∧ before_star pat = p).
    { revert H. clear. induction (map_to_list m) as [|[pat l] ml IH]; [simpl; lia|]. rewrite fmap_cons. simpl. case_decide as E; [intros _; exists pat, l; split; [by left|done]|].
      intros H. destruct IH as (pat' & l' & Hin & E'); [lia|]. exists pat', l'. split; [by right|done]. }
    destruct Hex as (pat & l & Hin%elem_of_map_to_list & E). exists pat. split; [done|]. by exists l.
  - intros (pat & E & l & Hl). pose proof (Hm pat l Hl) as ->. apply elem_of_map_to_list in Hl. revert Hl. induction (map_to_list m) as [|[pat' l'] ml IH]; [by intros ?%elem_of_nil|].
    rewrite fmap_cons. intros [[= <- <-]|Hin]%elem_of_cons; simpl; [rewrite decide_True by done; simpl; lia|]. specialize (IH Hin). case_decide; lia.
Qed.

Lemma uses_pos s w p : in_step s w → 0 < uses (sp_manager s) p ↔ is_Some (sm_exact (sp_manager s) !! p) ∨ ∃ pat, before_star pat = p ∧ is_Some (sm_pattern (sp_manager s) !! pat).
Proof.
  intros []. rewrite <- pattern_uses_pos by done. unfold uses. assert (0 ≤ pattern_uses p (sm_pattern (sp_manager s))) by (unfold pattern_uses; lia).
  destruct (sm_exact (sp_manager s) !! p) as [l|] eqn:E; simpl.
  - destruct (is_exact0 p l E) as [Hne _]. destruct l; [done|]. simpl. split; [by left|lia].
  - split; [intros; right; lia|intros [[? ?]|?]; [done|lia]].
Qed.

Lemma wanted_subscribed s w t : in_step s w → wanted (sw_filter w) t = true ↔ subscribed (sp_manager s) t.
Proof.
  intros H. rewrite wanted_spec. unfold subscribed. split.
  - intros (p & Hp & Hf). rewrite (is_filter _ _ H), (uses_pos s w) in Hf by done. destruct Hf as [Hx|(pat & <- & Hx)]; [left; by exists p|right; by exists pat].
  - intros [(q & Hq & Hx)|(pat & Hp & Hx)]; [exists q|exists (before_star pat)]; (split; [done|]); rewrite (is_filter _ _ H), (uses_pos s w) by done; [by left|right; by exists pat].
Qed.

End in_step.

(** ** Receiving *)

Section receiving.
Context {W : Type} `{!SpotSockets W} `{!SpotSocketsOk W} (others : nat → W → W) (clock : nat → Z).

(** The sockets at attempt [i], if all attempts before have found nothing. *)
Fixpoint attempt (i : nat) (w : W) : W := match i with O => w | S i => others i (sw_recv (attempt i w)).2 end.

(** [recv] gives up at attempt [i] if there is no message. *)
Definition gives_up (dontwait : bool) (timeout deadline : Z) (i : nat) : Prop := dontwait = true ∨ timeout = 0 ∨ 0 < timeout ∧ deadline ≤ clock i.

(** What [recv] returns at the attempt that is its last. *)
Definition recv_result (topic_size data_size : Z) (inbox : list (str * bool)) (r : recv_res) (inbox' : list (str * bool)) : Prop :=
  match inbox with
  | [] => r = RFail EAGAIN ∧ inbox' = []
  | (t, _) :: rest =>
      if decide (Z.of_nat (length t) > topic_size) then r = RFail EMSGSIZE ∧ inbox' = rest
      else match rest with
           | [] => r = RStuck ∧ inbox' = []
           | (d, _) :: rest => (r = if decide (Z.of_nat (length d) > data_size) then RFail EMSGSIZE else RGot t d) ∧ inbox' = rest
           end
  end.

Lemma take_message_spec ts ds t b w rest w1 : sw_recv w = (Some (t, b), w1) → sw_inbox w = (t, b) :: rest → sw_inbox w1 = rest →
  ∃ r w', take_message ts ds t w1 = (r, w') ∧ recv_result ts ds (sw_inbox w) r (sw_inbox w').
Proof.
  intros _ Hi H1. unfold take_message, recv_result. rewrite Hi. case_decide; [by eexists _, _|]. destruct (sw_recv_next w1) as (w2 & -> & _ & H2). rewrite H1 in *.
  destruct rest as [|[d b'] rest]; simpl in *; [by eexists _, _|]. case_decide; by eexists _, _.
Qed.

Lemma loop_spec n fuel i dontwait timeout deadline ts ds w :
  (∀ j, (i ≤ j < n)%nat → sw_inbox (attempt j w) = [] ∧ ¬ gives_up dontwait timeout deadline j) → (sw_inbox (attempt n w) ≠ [] ∨ gives_up dontwait timeout deadline n) →
  (i ≤ n)%nat → (n - i < fuel)%nat →
  ∃ r w', spot_recv_loop others clock fuel i dontwait timeout deadline ts ds (attempt i w) = Some (r, n, w') ∧ recv_result ts ds (sw_inbox (attempt n w)) r (sw_inbox w').
Proof.
  revert i. induction fuel as [|fuel IH]; intros i Hbefore Hn Hle Hf; [lia|]. cbn [spot_recv_loop]. destruct (sw_recv_next (attempt i w)) as (w1 & E & _ & Hin). rewrite E.
  destruct (sw_inbox (attempt i w)) as [|[t b] rest] eqn:Ei; simpl in Hin |- *.
  - assert (Hstop : gives_up dontwait timeout deadline i → ∃ r w', Some (RFail EAGAIN, i, w1) = Some (r, n, w') ∧ recv_result ts ds (sw_inbox (attempt n w)) r (sw_inbox w')).
    { intros Hg. assert (n = i) as ->. { destruct (decide (i = n)); [done|]. destruct (Hbefore i) as [_ Hng]; [lia|done]. } exists (RFail EAGAIN), w1. rewrite Ei. by split. }
    assert (Hgo : ¬ gives_up dontwait timeout deadline i → ∃ r w', spot_recv_loop others clock fuel (S i) dontwait timeout deadline ts ds (others i w1) = Some (r, n, w')
      ∧ recv_result ts ds (sw_inbox (attempt n w)) r (sw_inbox w')).
    { intros Hng. assert (i ≠ n) by (intros ->; destruct Hn; [by rewrite Ei in *|done]). specialize (IH (S i)). simpl in IH. rewrite E in IH. apply IH; [intros j Hj; apply Hbefore; lia|done|lia|lia]. }
    destruct dontwait; [apply Hstop; by left|]. case_decide as Ht.
    + case_decide as Hd; [apply Hstop; right; by right|]. apply Hgo. intros [?|[?|[_ ?]]]; [done|lia|done].
    + case_decide as H0; [apply Hstop; right; by left|]. apply Hgo. intros [?|[?|[? _]]]; [done|done|done].
  - assert (n = i) as ->. { destruct (decide (i = n)); [done|]. destruct (Hbefore i) as [He _]; [lia|]. by rewrite Ei in He. }
    destruct (take_message_spec ts ds t b (attempt i w) rest w1) as (r & w' & -> & Hr); [done|done|done|]. by exists r, w'.
Qed.

End receiving.

(** ** Sockets as simple as they can be *)

Module Plain.

Record plain := PlainW { pw_filter : gmap str Z; pw_inbox : list (str * bool); pw_part : list str; pw_cap : nat }.

Definition pw_count (w : plain) (p : str) : Z := default 0 (pw_filter w !! p).

#[export] Instance plain_sockets : SpotSockets plain := {
  sw_filter := pw_count;
  sw_inbox := pw_inbox;
  sw_subscribe p w := (RcOk, PlainW (<[p := pw_count w p + 1]> (pw_filter w)) (pw_inbox w) (pw_part w) (pw_cap w));
  sw_cancel p w := (RcOk, if decide (0 < pw_count w p) then PlainW (<[p := pw_count w p - 1]> (pw_filter w)) (pw_inbox w) (pw_part w) (pw_cap w) else w);
  sw_connect e w := (RcOk, w);
  sw_term_endpoint e w := (RcOk, w);
  sw_bind e w := (RcOk, w);
  sw_set_hwm b x w := (RcOk, w);
  sw_send d more w :=
    if more : bool then (RcOk, PlainW (pw_filter w) (pw_inbox w) [d] (pw_cap w))
    else (RcOk, PlainW (pw_filter w) (pw_inbox w ++ match pw_part w with
      | [t] => if wanted (pw_count w) t && negb (bool_decide (pw_cap w ≤ length (pw_inbox w))%nat) then [(t, true); (d, false)] else []
      | _ => [] end) [] (pw_cap w));
  sw_recv w := (head (pw_inbox w), PlainW (pw_filter w) (tail (pw_inbox w)) (pw_part w) (pw_cap w));
}.

#[export] Instance plain_ok : SpotSocketsOk plain.
Proof.
  split; try done.
  - intros p w. eexists. split; [done|]. split; [|done]. intros q. simpl. unfold pw_count at 1. simpl. case_decide as E; [subst; by rewrite lookup_insert_eq|rewrite lookup_insert_ne by done; unfold pw_count; lia].
  - intros p w. eexists. split; [done|]. simpl. split; [|by case_decide]. intros Hp q. rewrite decide_True by done. unfold pw_count at 1. simpl.
    case_decide as E; [subst; by rewrite lookup_insert_eq|rewrite lookup_insert_ne by done; unfold pw_count; lia].
  - by intros d [] w.
  - intros w. by eexists.
Qed.

End Plain.

(** ** The claims *)

Import Plain.

Fixpoint mrun (os : list mop) (m : manager_t) : list rc_t * manager_t :=
  match os with [] => ([], m) | o :: os => let '(rc, m) := mstep o m in let '(rcs, m) := mrun os m in (rc :: rcs, m) end.
Fixpoint srun (os : list mop) (EP : pairset * pairset) : list rc_t * (pairset * pairset) :=
  match os with [] => ([], EP) | o :: os => let '(rc, EP) := sstep o EP in let '(rcs, EP) := srun os EP in (rc :: rcs, EP) end.

Lemma mrun_spec os m : manager_wf m → manager_wf (mrun os m).2 ∧ ((mrun os m).1, manager_sets (mrun os m).2) = srun os (manager_sets m).
Proof.
  revert m. induction os as [|o os IH]; intros m Hwf; [done|]. simpl. destruct (mstep_spec o m Hwf) as [Hwf1 E]. destruct (mstep o m) as [rc m1]. simpl in Hwf1, E. rewrite <- E.
  destruct (IH m1 Hwf1) as [Hwf2 E2]. destruct (mrun os m1) as [rcs m2]. simpl in Hwf2, E2. by rewrite <- E2.
Qed.

(** C28: the subscription manager is two sets of (topic, subscriber) and (pattern, subscriber) pairs: after any calls the return codes (EEXIST for a pair that
    is there, ENOENT for one that is not, EINVAL for a remote pattern) and the pairs are those of the sets; every query agrees with them, and no empty list and no subscriber twice is kept. *)
Theorem manager_refines os :
  let '(rcs, m) := mrun os manager_new in let '(rcs', (E, P)) := srun os (∅, ∅) in
  rcs = rcs' ∧ manager_wf m
  ∧ (∀ t, NoDup (get_subscribers t m) ∧ get_subscriber_count t m = length (get_subscribers t m) ∧ ∀ s, s ∈ get_subscribers t m ↔ (t, s) ∈ E)
  ∧ (∀ t s, s ∈ get_pattern_matched_subscribers t m ↔ ∃ p, (p, s) ∈ P ∧ matches_pattern p t = true)
  ∧ (∀ s t, t ∈ get_subscribed_topics s m ↔ (t, s) ∈ E)
  ∧ total_subscription_count m = (size E + size P)%nat.
Proof.
  assert (Hnew : manager_wf manager_new) by (split; apply map_Forall_empty). destruct (mrun_spec os manager_new Hnew) as [[He Hp] E].
  destruct (mrun os manager_new) as [rcs m]. simpl in He, Hp, E. change (manager_sets manager_new) with (∅ : pairset, ∅ : pairset) in E. rewrite <- E. unfold manager_sets.
  split; [done|]. split; [done|]. split; [|split; [|split]].
  - intros t. unfold get_subscribers, get_subscriber_count. split; [|split; [done|]; intros s; by rewrite elem_of_pairs]. destruct (sm_exact m !! t) as [l|] eqn:El; [by apply (He t l)|constructor].
  - intros t s. unfold get_pattern_matched_subscribers. rewrite list_elem_of_bind. split.
    + intros ([p l] & Hs & Hin%elem_of_map_to_list). destruct (matches_pattern p t) eqn:Em; [|by apply elem_of_nil in Hs]. simpl in Hin. exists p. rewrite elem_of_pairs, Hin. by split.
    + intros (p & Hs & Em). rewrite elem_of_pairs in Hs. destruct (sm_pattern m !! p) as [l|] eqn:El; [|by apply elem_of_nil in Hs]. exists (p, l). rewrite Em. split; [done|by apply elem_of_map_to_list].
  - intros s t. unfold get_subscribed_topics. rewrite list_elem_of_fmap, elem_of_pairs. split.
    + intros ([t' l] & -> & [Hs Hin%elem_of_map_to_list]%list_elem_of_filter). simpl. by rewrite Hin.
    + intros Hs. destruct (sm_exact m !! t) as [l|] eqn:El; [|by apply elem_of_nil in Hs]. exists (t, l). split; [done|]. apply list_elem_of_filter. split; [simpl in Hs |- *; exact Hs|by apply elem_of_map_to_list].
  - unfold total_subscription_count. by rewrite !map_count_pairs.
Qed.

Definition ex_world : plain := PlainW ∅ [] [] 100.
Definition ex_spot : spot_t * plain := Eval vm_compute in default (Spot registry_new manager_new [] [] ∅ ∅ 0 0 0, ex_world) (spot_new 0 ex_world).

(** What [recv] returns. It looks for a message until there is one or it gives up: at once with SL_DONTWAIT or a timeout of 0, at the first look at or after the deadline with a
    positive timeout, never without one. At the attempt [n] that is the first one at which one of the two holds it returns: EAGAIN if there is no message, the topic and the data of the next message
    if both buffers are large enough, EMSGSIZE if not. *)
Lemma spot_recv_outcomes {W} `{!SpotSockets W} `{!SpotSocketsOk W} (others : nat → W → W) (clock : nat → Z) n fuel start dontwait ts ds s w :
  let deadline := if negb dontwait && bool_decide (0 < sp_rcvtimeo s) then u64 (start + sp_rcvtimeo s) else 0 in
  (∀ j, (j < n)%nat → sw_inbox (attempt others j w) = [] ∧ ¬ gives_up clock dontwait (sp_rcvtimeo s) deadline j) →
  sw_inbox (attempt others n w) ≠ [] ∨ gives_up clock dontwait (sp_rcvtimeo s) deadline n → (n < fuel)%nat →
  ∃ r w', spot_recv others clock fuel start dontwait ts ds s w = Some (r, n, w') ∧ recv_result ts ds (sw_inbox (attempt others n w)) r (sw_inbox w').
Proof.
  intros deadline Hb Hn Hf. unfold spot_recv. fold deadline. apply (loop_spec others clock n fuel 0 dontwait (sp_rcvtimeo s) deadline ts ds w); [intros j Hj; apply Hb; lia|done|lia|lia].
Qed.

(** A message arrives during the second sleep. *)
Definition ex_others (i : nat) (w : plain) : plain := if decide (i = 1%nat) then PlainW (pw_filter w) [([97], true); ([1; 2], false)] [] (pw_cap w) else w.

Lemma spot_recv_outcomes_witness :
  ∃ r w', spot_recv ex_others Z.of_nat 9 0 false 10 10 ex_spot.1 ex_world = Some (r, 2%nat, w') ∧ recv_result 10 10 [([97], true); ([1; 2], false)] r (sw_inbox w').
Proof.
  replace [([97], true); ([1; 2], false)] with (sw_inbox (attempt ex_others 2 ex_world)) by (vm_compute; reflexivity).
  apply (spot_recv_outcomes ex_others Z.of_nat 2 9 0 false 10 10 ex_spot.1 ex_world).
  - intros j Hj. destruct j as [|[|j]]; [| |lia]; (split; [reflexivity|]); intros [?|[?|[? _]]]; done.
  - by left.
  - lia.
Defined.

(** ** Behaviour that surprises *)

(** A topic that does not fit leaves its data frame behind: the next call takes it for a topic, and the topic of the next message for data. *)
Lemma small_topic_buffer_shifts_frames :
  let w := PlainW ∅ [([97; 98], true); ([1], false); ([99], true); ([2], false)] [] 100 in
  match spot_recv (λ _ w, w) (λ _, 0) 1 0 true 1 9 ex_spot.1 w with
  | Some (r, _, w) => r = RFail EMSGSIZE ∧ match spot_recv (λ _ w, w) (λ _, 0) 1 0 true 1 9 ex_spot.1 w with Some (r, _, _) => r = RGot [1] [99] | None => False end
  | None => False
  end.
Proof. split; vm_compute; reflexivity. Qed.

(** A frame that another publisher has sent alone makes [recv] wait for a second one, also with SL_DONTWAIT. *)
Lemma single_frame_blocks s : match spot_recv (λ _ w, w) (λ _, 0) 1 0 true 9 9 s (PlainW ∅ [([97], false)] [] 100) with Some (r, _, _) => r = RStuck | None => False end.
Proof. vm_compute. reflexivity. Qed.

(** After [topic_destroy] the topic can no longer be unsubscribed, and the filter stays. *)
Lemma destroyed_topic_stays_subscribed :
  let '(rcs, s, w) := spot_run [CCreate [97]; CSubscribe [97]; CDestroy [97]; CUnsubscribe [97]] ex_spot.1 ex_spot.2 in
  rcs = [RcOk; RcOk; RcOk; RcErr ENOENT] ∧ sw_filter w [97] = 1.
Proof. vm_compute. done. Qed.

(** The same for a topic that was subscribed through the cluster without being registered. *)
Lemma cluster_topic_stays_subscribed :
  let '(rcs, s, w) := spot_run [CClusterAdd [116]; CSubscribe [97]; CUnsubscribe [97]] ex_spot.1 ex_spot.2 in rcs = [RcOk; RcOk; RcErr ENOENT] ∧ sw_filter w [97] = 1.
Proof. vm_compute. done. Qed.

(** The subscription of the topic "a" receives the messages of the topic "ab". *)
Lemma exact_subscription_is_prefix :
  let '(_, s, w) := spot_run [CCreate [97]; CCreate [97; 98]; CSubscribe [97]] ex_spot.1 ex_spot.2 in
  get_subscribers [97; 98] (sp_manager s) = [] ∧ sw_inbox (publish [97; 98] [1] s w).2 = [([97; 98], true); ([1], false)].
Proof. vm_compute. done. Qed.

(** A subscription whose message cannot be sent fails, but is recorded: the second attempt succeeds without sending it. *)
Lemma failed_subscribe_remembered {W} `{!SpotSockets W} t e err s (w w1 : W) :
  reg_lookup t (sp_registry s) = Some e → te_location e = LOCAL → get_subscribers t (sp_manager s) = [] → sw_subscribe t w = (RcErr err, w1) →
  ∃ s1, spot_subscribe t s w = (RcErr err, s1, w1) ∧ ∃ s2, spot_subscribe t s1 w1 = (RcOk, s2, w1).
Proof.
  intros Hr El Hg Hs. unfold get_subscribers in Hg. eexists. unfold spot_subscribe at 1. rewrite Hr, El. unfold subscribe_as, add_subscription, map_add. rewrite Hg, decide_False by apply not_elem_of_nil. rewrite Hs.
  split; [done|]. unfold spot_subscribe, subscribe_as, add_subscription, map_add. simpl. rewrite Hr, El, lookup_insert_eq. by eexists.
Qed.
