(* ===== verification/Poller.v ===== *)
(** The poller of sockets and file descriptors (src/io/socket_poller.cpp), as built on [poll].

    Sockets are known by a number, file descriptors by their own.  What sockets and the
    operating system answer is the class [PollWorld]; other threads act while [poll] waits.  The clock
    is a parameter.  No socket is thread-safe ([is_thread_safe] is false), so the signaler is
    never made and is left out. *)
From stdpp Require Import gmap.
From S2P Require Import Prelude SocketBase.

Local Open Scope sl_scope.

Definition SL_POLLERR : Z := 4.
Definition retired_fd : Z := -1.

(** <poll.h> *)
Definition POLLIN : Z := 1.
Definition POLLPRI : Z := 2.
Definition POLLOUT : Z := 4.
Definition INT_MAX : Z := 2 ^ 31 - 1.

Inductive poll_key := KSock (s : nat) | KFd (fd : Z).

#[export] Instance poll_key_eq_dec : EqDecision poll_key.
Proof. solve_decision. Defined.

Record item_t := Item { pi_key : poll_key; pi_user_data : Z; pi_events : Z; pi_pollfd_index : Z }.

(** [socket] is None where the code has a null pointer. *)
Record event_t := Event { ev_socket : option nat; ev_fd : Z; ev_user_data : Z; ev_events : Z }.

Record pollfd := Pollfd { pf_fd : Z; pf_events : Z }.

Record poller_t := Poller { po_items : list item_t; po_need_rebuild : bool; po_pollset_size : Z; po_pollfds : list pollfd }.

(** The constructor, with its call of [rebuild]. *)
Definition poller_new : poller_t := Poller [] false 0 [].

(** ** The table of items *)

(** The first item with the key: [find_if2] with [is_socket] or [is_fd]. *)
Definition find_item (k : poll_key) (l : list item_t) : option (nat * item_t) := list_find (λ it, pi_key it = k) l.

(** [add] and [add_fd] *)
Definition poller_add (k : poll_key) (user_data events : Z) (p : poller_t) : rc_t * poller_t :=
  match find_item k (po_items p) with
  | Some _ => (RcErr EINVAL, p)
  | None => (RcOk, Poller (po_items p ++ [Item k user_data events (-1)]) true (po_pollset_size p) (po_pollfds p))
  end.

(** [modify] and [modify_fd] *)
Definition poller_modify (k : poll_key) (events : Z) (p : poller_t) : rc_t * poller_t :=
  match find_item k (po_items p) with
  | None => (RcErr EINVAL, p)
  | Some (i, it) => (RcOk, Poller (<[i := Item (pi_key it) (pi_user_data it) events (pi_pollfd_index it)]> (po_items p)) true (po_pollset_size p) (po_pollfds p))
  end.

(** [remove] and [remove_fd] *)
Definition poller_remove (k : poll_key) (p : poller_t) : rc_t * poller_t :=
  match find_item k (po_items p) with
  | None => (RcErr EINVAL, p)
  | Some (i, _) => (RcOk, Poller (delete i (po_items p)) true (po_pollset_size p) (po_pollfds p))
  end.

Definition poller_size (p : poller_t) : Z := Z.of_nat (length (po_items p)).

(** ** Waiting *)

Inductive poll_answer := PollOk (revents : list Z) | PollInterrupted | PollFailed.

(** [pw_fd] is the option SL_FD of a socket, [pw_events] the option SL_EVENTS, an error if the context has
    been terminated; [pw_usleep] sleeps for so many microseconds, and says whether a signal has interrupted it. *)
Class PollWorld (W : Type) := {
  pw_fd : nat → W → Z;
  pw_events : nat → W → (Z + errno_t) * W;
  pw_poll : list pollfd → Z → W → poll_answer * W;
  pw_usleep : Z → W → bool * W;
}.

Section poller.
Context {W : Type} `{!PollWorld W}.

Definition has (a b : Z) : bool := negb (bool_decide (Z.land a b = 0)).
Definition flag (b : bool) (x : Z) : Z := if b then x else 0.

(** The entry for an item in the set of [poll]. *)
Definition item_pollfd (it : item_t) (w : W) : pollfd :=
  match pi_key it with
  | KSock s => Pollfd (pw_fd s w) POLLIN
  | KFd fd => Pollfd fd (Z.lor (Z.lor (flag (has (pi_events it) SL_POLLIN) POLLIN) (flag (has (pi_events it) SL_POLLOUT) POLLOUT)) (flag (has (pi_events it) SL_POLLERR) POLLPRI))
  end.

(** The second loop of [rebuild]: entries for the items with events; a file descriptor remembers its own. *)
Fixpoint build_pollfds (item_nbr : Z) (l : list item_t) (w : W) : list item_t * list pollfd :=
  match l with
  | [] => ([], [])
  | it :: l =>
      if decide (pi_events it = 0) then let '(l, fds) := build_pollfds item_nbr l w in (it :: l, fds)
      else
        let it' := match pi_key it with KSock _ => it | KFd _ => Item (pi_key it) (pi_user_data it) (pi_events it) item_nbr end in
        let '(l, fds) := build_pollfds (item_nbr + 1) l w in (it' :: l, item_pollfd it w :: fds)
  end.

(** [alloc]: the allocation of the set succeeds. *)
Definition rebuild (alloc : bool) (p : poller_t) (w : W) : rc_t * poller_t :=
  let size := Z.of_nat (length (filter (λ it, pi_events it ≠ 0) (po_items p))) in
  if decide (size = 0) then (RcOk, Poller (po_items p) false 0 [])
  else if alloc then let '(items, fds) := build_pollfds 0 (po_items p) w in (RcOk, Poller items false size fds)
  else (RcErr ENOMEM, Poller (po_items p) true size []).

(** [revents] in the events of the interface *)
Definition from_revents (revents : Z) : Z :=
  Z.lor (Z.lor (flag (has revents POLLIN) SL_POLLIN) (flag (has revents POLLOUT) SL_POLLOUT))
    (Z.lor (flag (has revents POLLPRI) SL_POLLERR) (flag (has revents (Z.lnot (Z.lor (Z.lor POLLIN POLLOUT) POLLPRI))) SL_POLLERR)).

(** The events found, or the error of the socket that failed.  [n]: how many there is still room for. *)
Fixpoint check_events (n : Z) (l : list item_t) (revents : list Z) (w : W) : outcome ((list event_t + errno_t) * W) :=
  match l with
  | [] => Done (inl [], w)
  | it :: l =>
      if decide (n ≤ 0) then Done (inl [], w)
      else
        match pi_key it with
        | KSock s =>
            match pw_events s w with
            | (inr e, w) => Done (inr e, w)
            | (inl events, w) =>
                if has (pi_events it) events then
                  '(r, w) ← check_events (n - 1) l revents w;
                  Done (match r with inl es => inl (Event (Some s) retired_fd (pi_user_data it) (Z.land (pi_events it) events) :: es) | inr e => inr e end, w)
                else check_events n l revents w
            end
        | KFd fd =>
            if decide (pi_events it = 0) then check_events n l revents w
            else
              assert! (bool_decide (0 ≤ pi_pollfd_index it)) ;;
              rev ← geti revents (pi_pollfd_index it);
              let events := from_revents rev in
              if decide (events = 0) then check_events n l revents w
              else
                '(r, w) ← check_events (n - 1) l revents w;
                Done (match r with inl es => inl (Event None fd (pi_user_data it) events :: es) | inr e => inr e end, w)
        end
  end.

(** The entries behind the found ones are cleared. *)
Definition zero_event : event_t := Event None retired_fd 0 0.
Definition zero_trail_events (n_events : Z) (es : list event_t) : list event_t := es ++ replicate (Z.to_nat (n_events - Z.of_nat (length es))) zero_event.

(** [now_ms] at the end of pass [i] *)
Context (clock : nat → Z).

(** Whether to go on, with [now], [end] and [first_pass] *)
Definition adjust_timeout (timeout : Z) (i : nat) (now end_ : Z) (first_pass : bool) : bool * (Z * Z * bool) :=
  if decide (timeout = 0) then (false, (now, end_, first_pass))
  else if decide (timeout < 0) then (true, (now, end_, false))
  else
    let now := clock i in
    if first_pass then (true, (now, u64 (now + timeout), false))
    else if decide (end_ ≤ now) then (false, (now, end_, first_pass))
    else (true, (now, end_, first_pass)).

(** The number of events and the array, or -1 with errno *)
Inductive wait_result := WFound (n : Z) (events : list event_t) | WErr (e : errno_t).

Definition poll_timeout (timeout now end_ : Z) (first_pass : bool) : Z :=
  if first_pass then 0 else if decide (timeout < 0) then -1 else Z.min (u64 (end_ - now)) INT_MAX.

(** Done None: not yet, after [fuel] passes *)
Fixpoint wait_loop (fuel : nat) (i : nat) (n_events timeout now end_ : Z) (first_pass : bool) (p : poller_t) (w : W) : outcome (option (wait_result * nat * W)) :=
  match fuel with
  | O => Done None
  | S fuel =>
      match pw_poll (po_pollfds p) (poll_timeout timeout now end_ first_pass) w with
      | (PollInterrupted, w) => Done (Some (WErr EINTR, i, w))
      | (PollFailed, w) => Abort
      | (PollOk revents, w) =>
          '(r, w) ← check_events n_events (po_items p) revents w;
          match r with
          | inr e => Done (Some (WErr e, i, w))
          | inl (e :: es) => Done (Some (WFound (Z.of_nat (length (e :: es))) (zero_trail_events n_events (e :: es)), i, w))
          | inl [] =>
              let '(go, (now, end_, first_pass)) := adjust_timeout timeout i now end_ first_pass in
              if go : bool then wait_loop fuel (S i) n_events timeout now end_ first_pass p w else Done (Some (WErr EAGAIN, i, w))
          end
      end
  end.

(** Nothing to wait for: the call sleeps until the timeout and reports it.  The argument of [usleep] is an unsigned 32-bit number. *)
Definition empty_wait (timeout : Z) (w : W) : errno_t * W :=
  if decide (timeout < 0) then (EFAULT, w)
  else if decide (timeout = 0) then (EAGAIN, w)
  else let '(interrupted, w) := pw_usleep (u32 (timeout * 1000)) w in (if interrupted then EINTR else EAGAIN, w).

Definition poller_wait (alloc : bool) (fuel : nat) (n_events timeout : Z) (p : poller_t) (w : W) : outcome (option (wait_result * nat * W) * poller_t) :=
  if decide (po_items p = [] ∧ timeout < 0) then Done (Some (WErr EFAULT, 0%nat, w), p)
  else
    let '(rc, p) := if po_need_rebuild p then rebuild alloc p w else (RcOk, p) in
    match rc with
    | RcErr e => Done (Some (WErr e, 0%nat, w), p)
    | RcOk =>
        if decide (po_pollset_size p = 0) then
          let '(e, w) := empty_wait timeout w in Done (Some (WErr e, 0%nat, w), p)
        else r ← wait_loop fuel 0 n_events timeout 0 0 true p w; Done (r, p)
    end.

End poller.

(** ** The table as a list of entries *)

Record entry := Entry { en_key : poll_key; en_user_data : Z; en_events : Z }.

Definition item_entry (it : item_t) : entry := Entry (pi_key it) (pi_user_data it) (pi_events it).
Definition table (p : poller_t) : list entry := item_entry <$> po_items p.

Inductive pop := PAdd (k : poll_key) (user_data events : Z) | PModify (k : poll_key) (events : Z) | PRemove (k : poll_key).

Definition pstep (o : pop) (p : poller_t) : rc_t * poller_t :=
  match o with PAdd k u e => poller_add k u e p | PModify k e => poller_modify k e p | PRemove k => poller_remove k p end.

Definition op_key (o : pop) : poll_key := match o with PAdd k _ _ | PModify k _ | PRemove k => k end.
Definition listed (k : poll_key) (T : list entry) : Prop := k ∈ (en_key <$> T).

#[export] Instance listed_dec k T : Decision (listed k T).
Proof. unfold listed. apply _. Defined.

Definition tstep (o : pop) (T : list entry) : rc_t * list entry :=
  match o with
  | PAdd k u e => if decide (listed k T) then (RcErr EINVAL, T) else (RcOk, T ++ [Entry k u e])
  | PModify k e => if decide (listed k T) then (RcOk, (λ x, if decide (en_key x = k) then Entry k (en_user_data x) e else x) <$> T) else (RcErr EINVAL, T)
  | PRemove k => if decide (listed k T) then (RcOk, filter (λ x, en_key x ≠ k) T) else (RcErr EINVAL, T)
  end.

Lemma filter_none_removed {A} (P : A → Prop) `{∀ x, Decision (P x)} (l : list A) : Forall P l → filter P l = l.
Proof. induction 1 as [|x l Hx _ IH]; [done|]. by rewrite filter_cons, decide_True, IH. Qed.

Lemma find_item_None k l : find_item k l = None ↔ ¬ listed k (item_entry <$> l).
Proof.
  unfold find_item, listed. rewrite list_find_None, Forall_forall, <- list_fmap_compose, list_elem_of_fmap. split.
  - intros H (it & -> & Hin). by apply (H it Hin).
  - intros H it Hin E. apply H. by exists it.
Qed.

Lemma find_item_Some k l i it : find_item k l = Some (i, it) → NoDup (en_key <$> (item_entry <$> l)) →
  l !! i = Some it ∧ pi_key it = k ∧ ∀ j x, l !! j = Some x → pi_key x = k → j = i.
Proof.
  intros (Hi & Hk & _)%list_find_Some Hnd. split; [done|]. split; [done|]. intros j x Hj Hx. rewrite <- list_fmap_compose in Hnd.
  apply (NoDup_lookup _ j i k Hnd); rewrite list_lookup_fmap; [by rewrite Hj; simpl; rewrite Hx|by rewrite Hi; simpl; rewrite Hk].
Qed.

Lemma modify_entries k e (l : list item_t) i it : l !! i = Some it → pi_key it = k → (∀ j x, l !! j = Some x → pi_key x = k → j = i) →
  item_entry <$> <[i := Item (pi_key it) (pi_user_data it) e (pi_pollfd_index it)]> l = (λ x, if decide (en_key x = k) then Entry k (en_user_data x) e else x) <$> (item_entry <$> l).
Proof.
  intros Hi Hk Hu. apply list_eq. intros j. rewrite !list_lookup_fmap. destruct (decide (j = i)) as [->|Hne].
  - rewrite list_lookup_insert_eq by (by eapply lookup_lt_Some). rewrite Hi. simpl. unfold item_entry. simpl. rewrite decide_True by done. by rewrite Hk.
  - rewrite list_lookup_insert_ne by done. destruct (l !! j) as [x|] eqn:Ej; [|done]. simpl. rewrite decide_False; [done|]. intros E. apply Hne, (Hu j x Ej E).
Qed.

Lemma delete_entries k (l : list item_t) i it : l !! i = Some it → pi_key it = k → (∀ j x, l !! j = Some x → pi_key x = k → j = i) →
  item_entry <$> delete i l = filter (λ x, en_key x ≠ k) (item_entry <$> l).
Proof.
  revert i. induction l as [|y l IH]; intros i Hi Hk Hu; [done|]. rewrite fmap_cons, filter_cons. destruct i as [|i]; simpl in Hi |- *.
  - injection Hi as ->. rewrite decide_False by (simpl; tauto). symmetry. apply filter_none_removed, Forall_forall. intros x Hx Hxk. apply list_elem_of_fmap in Hx as (z & -> & [j Hj]%list_elem_of_lookup).
    by specialize (Hu (S j) z Hj Hxk).
  - rewrite decide_True by (intros E; by specialize (Hu 0%nat y eq_refl E)). f_equal. apply IH; [done|done|]. intros j x Hj Hx. specialize (Hu (S j) x Hj Hx). lia.
Qed.

Definition unique (T : list entry) : Prop := NoDup (en_key <$> T).

Lemma pstep_spec o p : unique (table p) →
  (pstep o p).1 = (tstep o (table p)).1 ∧ table (pstep o p).2 = (tstep o (table p)).2 ∧ ((pstep o p).2 = p ∨ po_need_rebuild (pstep o p).2 = true).
Proof.
  intros Hu. destruct o as [k u e|k e|k]; simpl; unfold poller_add, poller_modify, poller_remove; destruct (find_item k (po_items p)) as [[i it]|] eqn:E.
  2, 4, 6: pose proof (proj1 (find_item_None k _) E) as Hl; rewrite decide_False by done; unfold table; simpl; rewrite ?fmap_app; auto.
  all: assert (Hl : listed k (table p)) by (destruct (decide (listed k (table p))) as [|Hn]; [done|by apply find_item_None in Hn; rewrite E in Hn]); rewrite decide_True by done.
  1: by auto.
  all: destruct (find_item_Some _ _ _ _ E Hu) as (Hi & Hk & Hj); split; [done|]; split; [|auto]; unfold table; simpl.
  - by apply modify_entries.
  - by apply delete_entries with it.
Qed.

Lemma tstep_unique o T : unique T → unique (tstep o T).2.
Proof.
  unfold unique. intros Hu. destruct o as [k u e|k e|k]; simpl; case_decide as Hl; simpl; try done.
  - rewrite fmap_app. apply NoDup_app. split; [done|]. split; [|apply NoDup_singleton]. intros x Hx ->%list_elem_of_singleton. done.
  - rewrite <- list_fmap_compose. erewrite list_fmap_ext; [exact Hu|]. intros i x _. simpl. by case_decide.
  - clear Hl. induction T as [|x T IH]; [done|]. rewrite fmap_cons in Hu. apply NoDup_cons in Hu as [Hx Hu]. rewrite filter_cons. case_decide; [|by apply IH]. rewrite fmap_cons. constructor; [|by apply IH].
    intros Hin. apply Hx. apply list_elem_of_fmap in Hin as (y & -> & [_ Hy]%list_elem_of_filter). by apply list_elem_of_fmap_2.
Qed.

(** ** What [wait] reports *)

(** [pw_revents] is what [poll] finds on a descriptor.  The descriptor of a socket stays the same, and [poll] fails only
    when it is interrupted.  Nothing is assumed about what asking a socket for its events does: it processes
    commands, and may change what it or another socket would answer next. *)
Class PollWorldOk (W : Type) `{!PollWorld W} := {
  pw_revents : W → pollfd → Z;
  pw_events_fd s w s' : pw_fd s' (pw_events s w).2 = pw_fd s' w;
  pw_usleep_fd us w s : pw_fd s (pw_usleep us w).2 = pw_fd s w;
  pw_poll_ok fds t w : match pw_poll fds t w with
    | (PollOk revents, w') => revents = pw_revents w' <$> fds ∧ ∀ s, pw_fd s w' = pw_fd s w
    | (PollInterrupted, w') => ∀ s, pw_fd s w' = pw_fd s w
    | (PollFailed, _) => False
    end;
}.

Section waiting.
Context {W : Type} `{!PollWorld W} `{!PollWorldOk W}.

(** The entry of [poll] for an entry of the table. *)
Definition entry_pollfd (w : W) (x : entry) : pollfd := item_pollfd (Item (en_key x) (en_user_data x) (en_events x) (-1)) w.
Definition poll_set (T : list entry) (w : W) : list pollfd := entry_pollfd w <$> filter (λ x, en_events x ≠ 0) T.

(** The event to report for an entry, if any, or the error: a socket is asked now, a descriptor was polled in the world [w0]. *)
Definition entry_event (w0 w : W) (x : entry) : (option event_t + errno_t) * W :=
  match en_key x with
  | KSock s =>
      match pw_events s w with
      | (inr e, w) => (inr e, w)
      | (inl events, w) => (inl (if has (en_events x) events then Some (Event (Some s) retired_fd (en_user_data x) (Z.land (en_events x) events)) else None), w)
      end
  | KFd fd =>
      let events := if decide (en_events x = 0) then 0 else from_revents (pw_revents w0 (entry_pollfd w0 x)) in
      (inl (if decide (events = 0) then None else Some (Event None fd (en_user_data x) events)), w)
  end.

(** The first [n] events of the table, in its order; an error of a socket on the way. *)
Fixpoint scan (n : nat) (T : list entry) (w0 w : W) : (list event_t + errno_t) * W :=
  match T, n with
  | [], _ | _, O => (inl [], w)
  | x :: T, S n' =>
      match entry_event w0 w x with
      | (inr e, w) => (inr e, w)
      | (inl None, w) => scan n T w0 w
      | (inl (Some ev), w) => let '(r, w) := scan n' T w0 w in (match r with inl es => inl (ev :: es) | inr e => inr e end, w)
      end
  end.

Lemma entry_event_fd w0 w x s : pw_fd s (entry_event w0 w x).2 = pw_fd s w.
Proof.
  unfold entry_event. destruct (en_key x) as [s0|fd]; [|done]. pose proof (pw_events_fd s0 w s) as H. destruct (pw_events s0 w) as [[] w']; exact H.
Qed.

Lemma scan_fd n T w0 w s : pw_fd s (scan n T w0 w).2 = pw_fd s w.
Proof.
  revert n w. induction T as [|x T IH]; intros [|n] w; try done. cbn [scan]. pose proof (entry_event_fd w0 w x s) as H. destruct (entry_event w0 w x) as [[[ev|]|e] w1]; cbn [snd] in H.
  - pose proof (IH n w1) as H1. destruct (scan n T w0 w1) as [r w2]. cbn [snd] in *. congruence.
  - by rewrite IH.
  - done.
Qed.

(** Where the items of file descriptors find their entry: at the number of items with events before. *)
Definition built_from (k : nat) (l : list item_t) : Prop :=
  ∀ i it fd, l !! i = Some it → pi_key it = KFd fd → pi_events it ≠ 0 → pi_pollfd_index it = Z.of_nat (k + length (filter (λ x, pi_events x ≠ 0) (take i l))).

Record poller_ok (p : poller_t) (w : W) : Prop := {
  ok_unique : unique (table p);
  ok_built : po_need_rebuild p = false →
    built_from 0 (po_items p) ∧ po_pollfds p = poll_set (table p) w ∧ po_pollset_size p = Z.of_nat (length (po_pollfds p));
}.

Lemma poll_set_fd T w w' : (∀ s, pw_fd s w' = pw_fd s w) → poll_set T w' = poll_set T w.
Proof. intros H. unfold poll_set. apply list_fmap_ext. intros i x _. unfold entry_pollfd, item_pollfd. simpl. destruct (en_key x); [by rewrite H|done]. Qed.

Lemma poller_ok_world p w w' : (∀ s, pw_fd s w' = pw_fd s w) → poller_ok p w → poller_ok p w'.
Proof. intros H [Hu Hb]. split; [done|]. intros Hr. destruct (Hb Hr) as (H1 & H2 & H3). by rewrite (poll_set_fd _ _ _ H). Qed.

Lemma poller_new_ok w : poller_ok poller_new w.
Proof. split; [constructor|]. intros _. split; [|done]. by intros i it fd. Qed.

Lemma pstep_ok o p w : poller_ok p w → poller_ok (pstep o p).2 w.
Proof.
  intros [Hu Hb]. destruct (pstep_spec o p Hu) as (_ & HT & Hr). split; [rewrite HT; by apply tstep_unique|]. destruct Hr as [-> | ->]; [done|done].
Qed.

Lemma build_pollfds_spec k l w :
  let '(l', fds) := build_pollfds (Z.of_nat k) l w in item_entry <$> l' = item_entry <$> l ∧ built_from k l' ∧ fds = poll_set (item_entry <$> l) w.
Proof.
  revert k. induction l as [|it l IH]; intros k; [by split|]. simpl. unfold poll_set. rewrite filter_cons. case_decide as He.
  - specialize (IH k). destruct (build_pollfds (Z.of_nat k) l w) as [l' fds]. destruct IH as (IH1 & IH2 & IH3). split; [by rewrite fmap_cons, IH1|]. split; [|rewrite decide_False by (simpl; tauto); exact IH3].
    intros [|i] x fd; simpl; [intros [= ->]; tauto|]. intros Hi Hk Hx. rewrite filter_cons, decide_False by tauto. by apply (IH2 i x fd).
  - specialize (IH (S k)). replace (Z.of_nat (S k)) with (Z.of_nat k + 1) in IH by lia. destruct (build_pollfds (Z.of_nat k + 1) l w) as [l' fds]. destruct IH as (IH1 & IH2 & IH3).
    assert (Hit : ∀ it', it' = match pi_key it with KSock _ => it | KFd _ => Item (pi_key it) (pi_user_data it) (pi_events it) (Z.of_nat k) end → item_entry it' = item_entry it ∧ pi_events it' ≠ 0).
    { intros it' ->. by destruct (pi_key it) eqn:E; unfold item_entry; simpl; rewrite ?E. }
    destruct (Hit _ eq_refl) as [Hit1 Hit2]. split; [by rewrite fmap_cons, Hit1, IH1|]. split.
    + intros [|i] x fd; cbn [lookup list_lookup take]; [intros [= <-]|].
      * intros Hk _. destruct (pi_key it) eqn:E; [by rewrite E in Hk|]. simpl. by rewrite Nat.add_0_r.
      * intros Hi Hk Hx. rewrite filter_cons, decide_True by done. rewrite (IH2 i x fd Hi Hk Hx). simpl. f_equal. lia.
    + rewrite decide_True by done. rewrite fmap_cons. f_equal. exact IH3.
Qed.

Lemma count_entries l : length (filter (λ it, pi_events it ≠ 0) l) = length (filter (λ x, en_events x ≠ 0) (item_entry <$> l)).
Proof. induction l as [|it l IH]; [done|]. rewrite fmap_cons, !filter_cons. simpl. case_decide; simpl; by rewrite IH. Qed.

Lemma rebuild_spec alloc p w : unique (table p) →
  let '(rc, p') := rebuild alloc p w in
  table p' = table p ∧ poller_ok p' w ∧ (rc = RcOk ∧ po_need_rebuild p' = false ∨ rc = RcErr ENOMEM ∧ alloc = false).
Proof.
  intros Hu. unfold rebuild. rewrite count_entries. set (n := length _). fold (table p) in n.
  assert (Hn : ∀ w, length (poll_set (table p) w) = n) by (intros; unfold poll_set; by rewrite length_fmap). case_decide as H0.
  - split; [done|]. split; [|by left]. split; [done|]. intros _. assert (E : filter (λ x, en_events x ≠ 0) (table p) = []) by (apply nil_length_inv; lia). assert (HP : poll_set (table p) w = []) by (unfold poll_set; by rewrite E). split; [|split; [exact (eq_sym HP)|done]].
    intros i it fd Hi _ Hx. exfalso. assert (item_entry it ∈ filter (λ x, en_events x ≠ 0) (table p)) as Hin; [|rewrite E in Hin; by apply elem_of_nil in Hin].
    apply list_elem_of_filter. split; [done|]. apply list_elem_of_fmap_2, list_elem_of_lookup. by exists i.
  - destruct alloc; [|split; [done|]; split; [by split|by right]]. pose proof (build_pollfds_spec 0 (po_items p) w) as H. change (Z.of_nat 0) with 0 in H.
    destruct (build_pollfds 0 (po_items p) w) as [l' fds]. destruct H as (H1 & H2 & H3). split; [done|]. split; [|by left]. split; [by unfold table; simpl; rewrite H1|].
    intros _. simpl. unfold table. simpl. rewrite H1. split; [done|]. split; [done|]. by rewrite H3, Hn.
Qed.

(** The entries of the file descriptors are found. *)
Definition indexed (l : list item_t) (revents : list Z) (w : W) : Prop :=
  ∀ it fd, it ∈ l → pi_key it = KFd fd → pi_events it ≠ 0 → 0 ≤ pi_pollfd_index it ∧ geti revents (pi_pollfd_index it) = Done (pw_revents w (entry_pollfd w (item_entry it))).

Lemma check_events_spec l n revents w0 w : indexed l revents w0 → check_events n l revents w = Done (scan (Z.to_nat n) (item_entry <$> l) w0 w).
Proof.
  revert n w. induction l as [|it l IH]; intros n w Hidx; [by destruct (Z.to_nat n)|]. rewrite fmap_cons. cbn [check_events]. destruct (decide (n ≤ 0)) as [Hn|Hn].
  { by replace (Z.to_nat n) with 0%nat by lia. }
  assert (Hidx' : indexed l revents w0) by (intros x fd Hx; apply Hidx; by right). replace (Z.to_nat n) with (S (Z.to_nat (n - 1))) by lia. cbn [scan].
  assert (Hgo : ∀ w, check_events n l revents w = Done (scan (S (Z.to_nat (n - 1))) (item_entry <$> l) w0 w)) by (intros w1; rewrite IH by done; by replace (S (Z.to_nat (n - 1))) with (Z.to_nat n) by lia).
  assert (Hfound : ∀ ev w, ('(r, w) ← check_events (n - 1) l revents w; Done (match r with inl es => inl (ev :: es) | inr e => inr e end, w))
    = Done (let '(r, w) := scan (Z.to_nat (n - 1)) (item_entry <$> l) w0 w in (match r with inl es => inl (ev :: es) | inr e => inr e end, w))).
  { intros ev w1. rewrite IH, bind_Done by done. by destruct (scan _ _ _ _). }
  unfold entry_event. cbn [en_key item_entry en_events en_user_data]. destruct (pi_key it) as [s|fd] eqn:Ek.
  - destruct (pw_events s w) as [[events|e] w1]; [|done]. destruct (has (pi_events it) events); [apply Hfound|apply Hgo].
  - destruct (decide (pi_events it = 0)) as [E0|E0]; [rewrite decide_True by done; apply Hgo|].
    destruct (Hidx it fd ltac:(by left) Ek E0) as [Hi Hg]. rewrite slk_assert_bind by done. rewrite Hg, bind_Done. fold (item_entry it).
    set (events := from_revents (pw_revents w0 (entry_pollfd w0 (item_entry it)))). destruct (decide (events = 0)); [apply Hgo|apply Hfound].
Qed.

Lemma count_lookup (l : list item_t) i it : l !! i = Some it → pi_events it ≠ 0 →
  filter (λ x, en_events x ≠ 0) (item_entry <$> l) !! length (filter (λ x, pi_events x ≠ 0) (take i l)) = Some (item_entry it).
Proof.
  revert i. induction l as [|y l IH]; intros [|i] Hi He; simpl in Hi; [done..| |].
  - injection Hi as ->. rewrite fmap_cons, filter_cons, decide_True by done. done.
  - rewrite fmap_cons, filter_cons. cbn [take]. rewrite filter_cons. simpl. case_decide; simpl; by apply IH.
Qed.

Lemma built_indexed p w' : built_from 0 (po_items p) → indexed (po_items p) (pw_revents w' <$> poll_set (table p) w') w'.
Proof.
  intros Hb it fd [i Hi]%list_elem_of_lookup Hk He. rewrite (Hb i it fd Hi Hk He). split; [lia|]. apply geti_Some. simpl. unfold poll_set. rewrite !list_lookup_fmap. unfold table. by rewrite (count_lookup _ _ _ Hi He).
Qed.

(** *** The passes *)

Section passes.
Context (clock : nat → Z) (T : list entry) (n_events timeout : Z) (w : W).

Definition deadline : Z := u64 (clock 0%nat + timeout).

(** What [poll] is called with in pass [i]: no wait in the first one; then until the deadline, or for ever. *)
Definition pass_timeout (i : nat) : Z :=
  match i with O => 0 | S i => if decide (timeout < 0) then -1 else Z.min (u64 (deadline - clock i)) INT_MAX end.

(** The world when pass [i] begins. *)
Fixpoint before (i : nat) : W :=
  match i with O => w | S i => let w' := (pw_poll (poll_set T w) (pass_timeout i) (before i)).2 in (scan (Z.to_nat n_events) T w' w').2 end.

Definition expired (i : nat) : bool := bool_decide (timeout = 0) || bool_decide (0 < timeout) && bool_decide (0 < i)%nat && bool_decide (deadline ≤ clock i).

(** What pass [i] returns; None: nothing yet. *)
Definition pass (i : nat) : option wait_result :=
  match pw_poll (poll_set T w) (pass_timeout i) (before i) with
  | (PollOk _, w') =>
      match (scan (Z.to_nat n_events) T w' w').1 with
      | inr e => Some (WErr e)
      | inl [] => if expired i then Some (WErr EAGAIN) else None
      | inl es => Some (WFound (Z.of_nat (length es)) (zero_trail_events n_events es))
      end
  | _ => Some (WErr EINTR)
  end.

Definition loop_state (i : nat) (now end_ : Z) (first_pass : bool) : Prop :=
  first_pass = bool_decide (i = 0%nat) ∧ (0 < timeout → (0 < i)%nat → now = clock (pred i) ∧ end_ = deadline).

Lemma loop_state_timeout i now end_ first_pass : loop_state i now end_ first_pass → (timeout = 0 → i = 0%nat) → poll_timeout timeout now end_ first_pass = pass_timeout i.
Proof.
  intros [-> H] H0. unfold poll_timeout. destruct i as [|i]; [done|]. simpl. case_decide; [done|]. destruct (H) as [-> ->]; [|lia|done]. assert (timeout ≠ 0) by (intros ?; by specialize (H0 H2)). lia.
Qed.

Lemma adjust_timeout_spec i now end_ first_pass : loop_state i now end_ first_pass →
  let '(go, (now', end', first')) := adjust_timeout clock timeout i now end_ first_pass in
  go = negb (expired i) ∧ (go = true → loop_state (S i) now' end' first' ∧ timeout ≠ 0).
Proof.
  intros [-> H]. unfold adjust_timeout, expired. case_decide as H0; [by rewrite bool_decide_true|]. rewrite (bool_decide_false (timeout = 0)) by done. simpl. case_decide as Hneg.
  - rewrite (bool_decide_false (0 < timeout)) by lia. simpl. split; [done|]. intros _. split; [|done]. split; [done|lia].
  - rewrite (bool_decide_true (0 < timeout)) by lia. destruct i as [|i]; simpl.
    + split; [done|]. intros _. split; [|done]. split; [done|]. by intros _ _.
    + destruct (H ltac:(lia) ltac:(lia)) as [-> ->]. simpl. case_decide as Hd; [by rewrite bool_decide_true|]. rewrite bool_decide_false by done. split; [done|]. intros _. split; [|done]. split; [done|]. by intros _ _.
Qed.

Lemma wait_loop_spec p n r fuel i now end_ first_pass :
  po_pollfds p = poll_set T w → table p = T → built_from 0 (po_items p) → (∀ i s, pw_fd s (before i) = pw_fd s w) →
  (∀ j, (i ≤ j < n)%nat → pass j = None) → pass n = Some r → (i ≤ n)%nat → (n - i < fuel)%nat → loop_state i now end_ first_pass → (timeout = 0 → i = 0%nat) →
  ∃ w', wait_loop clock fuel i n_events timeout now end_ first_pass p (before i) = Done (Some (r, n, w')) ∧ ∀ s, pw_fd s w' = pw_fd s w.
Proof.
  intros Hfds HT Hb Hfd. revert i now end_ first_pass. induction fuel as [|fuel IH]; intros i now end_ first_pass Hbefore Hn Hle Hf Hst H0; [lia|].
  cbn [wait_loop]. rewrite (loop_state_timeout _ _ _ _ Hst H0), Hfds. pose proof (pw_poll_ok (poll_set T w) (pass_timeout i) (before i)) as Hpoll.
  assert (Hpass : pass i = None ∨ n = i). { destruct (decide (i = n)); [by right|]. left. apply Hbefore. lia. } unfold pass in Hpass, Hn.
  assert (Hat : n = i → pass i = Some r) by (by intros <-). unfold pass in Hat.
  destruct (pw_poll (poll_set T w) (pass_timeout i) (before i)) as [[revents| |] w1] eqn:Ep; [|destruct Hpass as [?| ->]; [done|]; injection (Hat eq_refl) as <-; exists w1; split; [done|]; intros s; by rewrite Hpoll, Hfd|done].
  destruct Hpoll as [-> Hf1]. assert (Hf1' : ∀ s, pw_fd s w1 = pw_fd s w) by (intros s; by rewrite Hf1, Hfd).
  assert (Hidx : indexed (po_items p) (pw_revents w1 <$> poll_set T w) w1) by (rewrite <- (poll_set_fd T w w1) by done; rewrite <- HT; by apply built_indexed).
  rewrite (check_events_spec (po_items p) n_events _ w1 w1 Hidx), bind_Done. fold (table p) in *. rewrite HT in *.
  pose proof (scan_fd (Z.to_nat n_events) T w1 w1) as Hf2. destruct (scan (Z.to_nat n_events) T w1 w1) as [[[|ev es]|e] w2] eqn:Escan; cbn [fst snd] in *.
  2, 3: destruct Hpass as [?| ->]; [done|]; injection (Hat eq_refl) as <-; exists w2; split; [done|]; intros s; by rewrite Hf2.
  pose proof (adjust_timeout_spec _ _ _ _ Hst) as Hadj. destruct (adjust_timeout clock timeout i now end_ first_pass) as [go [[now' end'] first']]. destruct Hadj as [-> Hgo].
  destruct (expired i); simpl in *; [destruct Hpass as [?| ->]; [done|]; injection (Hat eq_refl) as <-; exists w2; split; [done|]; intros s; by rewrite Hf2|].
  assert (i ≠ n) by (intros ->; by specialize (Hat eq_refl)). destruct (Hgo eq_refl) as [Hst' Hne].
  assert (E : w2 = before (S i)) by (simpl; by rewrite Ep; cbn [snd]; rewrite Escan). rewrite E. apply IH; [|done|lia|lia|done|done]. intros j Hj. apply Hbefore. lia.
Qed.

Lemma poll_fd fds t w0 s : pw_fd s (pw_poll fds t w0).2 = pw_fd s w0.
Proof. pose proof (pw_poll_ok fds t w0) as H. destruct (pw_poll fds t w0) as [[]]; [by destruct H|done|done]. Qed.

Lemma before_fd i s : pw_fd s (before i) = pw_fd s w.
Proof. induction i as [|i IH]; [done|]. simpl. by rewrite scan_fd, poll_fd. Qed.

End passes.

(** A call of [wait] returns what its first pass with an answer says. *)
Lemma poller_wait_spec clock alloc fuel n_events timeout p w : poller_ok p w → alloc = true ∨ po_need_rebuild p = false →
  match filter (λ x, en_events x ≠ 0) (table p) with
  | [] => ∃ p', poller_wait clock alloc fuel n_events timeout p w = Done (Some (WErr (empty_wait timeout w).1, 0%nat, (empty_wait timeout w).2), p') ∧ table p' = table p ∧ poller_ok p' w
  | _ => ∀ n r, (∀ j, (j < n)%nat → pass clock (table p) n_events timeout w j = None) → pass clock (table p) n_events timeout w n = Some r → (n < fuel)%nat →
      ∃ p' w', poller_wait clock alloc fuel n_events timeout p w = Done (Some (r, n, w'), p') ∧ table p' = table p ∧ poller_ok p' w'
  end.
Proof.
  intros Hok Ha. unfold poller_wait.
  assert (Hre : ∃ p', (if po_need_rebuild p then rebuild alloc p w else (RcOk, p)) = (RcOk, p') ∧ table p' = table p ∧ poller_ok p' w ∧ po_need_rebuild p' = false).
  { destruct (po_need_rebuild p) eqn:Er; [|by exists p]. pose proof (rebuild_spec alloc p w (ok_unique _ _ Hok)) as H. destruct (rebuild alloc p w) as [rc p']. destruct H as (HT & Hok' & [[-> Hr]|[_ ->]]); [by exists p'|naive_solver]. }
  destruct Hre as (p' & -> & HT & Hok' & Hr'). destruct (ok_built _ _ Hok' Hr') as (Hb & Hfds & Hsz).
  destruct (filter _ (table p)) as [|x xs] eqn:Ef.
  - assert (Hps : poll_set (table p') w = []) by (unfold poll_set; by rewrite HT, Ef). case_decide as H1; [exists p; unfold empty_wait; rewrite decide_True by tauto; done|]. rewrite Hsz, Hfds, Hps. exists p'. split; [by destruct (empty_wait timeout w)|done].
  - intros n r Hb' Hn Hf. assert (po_items p ≠ []) by (intros E; unfold table in Ef; by rewrite E in Ef). rewrite decide_False by tauto.
    assert (Hps : poll_set (table p') w ≠ []) by (unfold poll_set; by rewrite HT, Ef). rewrite decide_False by (rewrite Hsz, Hfds; by destruct (poll_set (table p') w)).
    destruct (wait_loop_spec clock (table p) n_events timeout w p' n r fuel 0 0 0 true) as (w' & E & Hf').
    + by rewrite Hfds, HT.
    + done.
    + done.
    + intros. apply before_fd.
    + intros j Hj. apply Hb'. lia.
    + done.
    + lia.
    + lia.
    + split; [done|lia].
    + done.
    + exists p', w'. change (before clock (table p) n_events timeout w 0) with w in E. rewrite E, bind_Done. split; [done|]. split; [done|]. by apply poller_ok_world with w.
Qed.

Lemma check_events_fd n l revents w r w' : check_events n l revents w = Done (r, w') → ∀ s, pw_fd s w' = pw_fd s w.
Proof.
  revert n w r w'. induction l as [|it l IH]; intros n w r w'; cbn [check_events]; [by intros [= _ <-]|]. case_decide; [by intros [= _ <-]|]. destruct (pi_key it) as [s0|fd].
  - pose proof (pw_events_fd s0 w) as Hf. destruct (pw_events s0 w) as [[events|e] w1]; cbn [snd] in Hf; [|by intros [= _ <-]]. case_match; [|intros E s; by rewrite (IH _ _ _ _ E)].
    intros ([r1 w2] & E & [= _ <-])%bind_Done_inv s. by rewrite (IH _ _ _ _ E).
  - case_decide; [apply IH|]. intros (? & _ & (? & _ & E)%bind_Done_inv)%bind_Done_inv. revert E. case_decide; [apply IH|]. intros ([r1 w2] & E & [= _ <-])%bind_Done_inv. by apply (IH _ _ _ _ E).
Qed.

Lemma wait_loop_fd clock fuel i n_events timeout now end_ first_pass p w r k w' :
  wait_loop clock fuel i n_events timeout now end_ first_pass p w = Done (Some (r, k, w')) → ∀ s, pw_fd s w' = pw_fd s w.
Proof.
  revert i now end_ first_pass w. induction fuel as [|fuel IH]; intros i now end_ first_pass w; [done|]. cbn [wait_loop]. set (t := poll_timeout _ _ _ _). pose proof (poll_fd (po_pollfds p) t w) as Hf.
  destruct (pw_poll (po_pollfds p) t w) as [[revents| |] w1]; simpl in Hf; [|by intros [= _ _ <-]|done]. intros ([r1 w2] & E & H)%bind_Done_inv s. pose proof (check_events_fd _ _ _ _ _ _ E s) as Hf2.
  rewrite Hf in Hf2. destruct r1 as [[|ev es]|e]; [|by injection H as _ _ <-|by injection H as _ _ <-]. destruct (adjust_timeout _ _ _ _ _ _) as [[] [[now' end'] first']]; [by rewrite (IH _ _ _ _ _ H s)|by injection H as _ _ <-].
Qed.

Lemma empty_wait_fd timeout w s : pw_fd s (empty_wait timeout w).2 = pw_fd s w.
Proof.
  unfold empty_wait. do 2 (case_decide; [done|]). pose proof (pw_usleep_fd (u32 (timeout * 1000)) w s) as Hf. by destruct (pw_usleep _ w).
Qed.

Lemma poller_wait_keeps clock alloc fuel n_events timeout p w r k w' p' : poller_ok p w → poller_wait clock alloc fuel n_events timeout p w = Done (Some (r, k, w'), p') → table p' = table p ∧ poller_ok p' w'.
Proof.
  intros Hok. unfold poller_wait. case_decide; [by intros [= _ _ <- <-]|].
  assert (Hre : ∃ rc p1, (if po_need_rebuild p then rebuild alloc p w else (RcOk, p)) = (rc, p1) ∧ table p1 = table p ∧ poller_ok p1 w).
  { destruct (po_need_rebuild p) eqn:Er; [|by exists RcOk, p]. pose proof (rebuild_spec alloc p w (ok_unique _ _ Hok)) as H1. destruct (rebuild alloc p w) as [rc p1]. destruct H1 as (HT & Hok' & _). by exists rc, p1. }
  destruct Hre as (rc & p1 & -> & HT & Hok1). destruct rc; [|by intros [= _ _ <- <-]]. case_decide.
  { pose proof (empty_wait_fd timeout w) as Hf. destruct (empty_wait timeout w) as [e w1]. intros [= _ _ <- <-]. split; [done|]. by apply poller_ok_world with w. }
  intros (r1 & E & [= -> ->])%bind_Done_inv. split; [done|]. apply poller_ok_world with w; [by apply (wait_loop_fd _ _ _ _ _ _ _ _ _ _ _ _ _ E)|done].
Qed.

(** What a program does with a poller, with the table that it has built; other threads may do anything in between. *)
Inductive reach (clock : nat → Z) : list entry → poller_t → W → Prop :=
| reach_new w : reach clock [] poller_new w
| reach_op o T p w : reach clock T p w → reach clock (tstep o T).2 (pstep o p).2 w
| reach_wait alloc fuel n_events timeout r k T p p' w w' : reach clock T p w → poller_wait clock alloc fuel n_events timeout p w = Done (Some (r, k, w'), p') → reach clock T p' w'
| reach_world T p w w' : reach clock T p w → (∀ s, pw_fd s w' = pw_fd s w) → reach clock T p w'.

Lemma reach_ok clock T p w : reach clock T p w → table p = T ∧ poller_ok p w.
Proof.
  induction 1 as [w|o T p w _ [<- Hok]|alloc fuel n_events timeout r k T p p' w w' _ [<- Hok] E|T p w w' _ [<- Hok] Hf].
  - split; [done|apply poller_new_ok].
  - destruct (pstep_spec o p (ok_unique _ _ Hok)) as (_ & HT & _). split; [done|by apply pstep_ok].
  - by apply (poller_wait_keeps _ _ _ _ _ _ _ _ _ _ _ Hok E).
  - split; [done|by apply poller_ok_world with w].
Qed.

End waiting.

(** The first of the passes that have an answer. *)
Lemma first_answer {A} (f : nat → option A) k : is_Some (f k) → ∃ n r, (n ≤ k)%nat ∧ (∀ j, (j < n)%nat → f j = None) ∧ f n = Some r.
Proof.
  induction k as [k IH] using lt_wf_ind. intros [r Hr]. destruct (decide (Exists (λ j, is_Some (f j)) (seq 0 k))) as [(j & Hj & Hs)%Exists_exists|Hn].
  - apply elem_of_seq in Hj. destruct (IH j ltac:(lia) Hs) as (n & r' & Hle & H). exists n, r'. split; [lia|done].
  - exists k, r. split; [done|]. split; [|done]. intros j Hj. apply eq_None_not_Some. intros Hs. apply Hn, Exists_exists. exists j. split; [apply elem_of_seq; lia|done].
Qed.

(** A pass at which the timeout is over has one. *)
Lemma expired_answer {W} `{!PollWorld W} `{!PollWorldOk W} clock T n_events timeout (w : W) i : expired clock timeout i = true → is_Some (pass clock T n_events timeout w i).
Proof. intros E. unfold pass. rewrite E. destruct (pw_poll _ _ _) as [[] w1]; [|done|done]. by destruct (scan _ _ _ _).1 as [[]|]. Qed.

(** ** The claim *)

(** C34: a poller is the list of what was added to it, no key twice, and [wait] reports it truthfully. Whatever calls were made, adding a listed key and changing or
    removing one that is not fail with EINVAL and the others do as they say. A [wait] for events that nothing in the list asks for fails at once with EFAULT if there is no timeout, and otherwise
    reports a timeout (EAGAIN), at once or after having slept for the timeout, in 32-bit microseconds (EINTR if the sleep is interrupted). Otherwise it returns in the first pass in which there is something to
    say: the first [n_events] items with events they ask for, in the order of the list, each socket with the events it has when it is asked (asking it may change what sockets asked later
    answer) and each descriptor with those that [poll] found, and the rest of the array cleared; the error of a socket, EINTR; EAGAIN if nothing has happened and the timeout is 0 or over.
    It never reads outside its tables, and a pass after the deadline is such a pass. The descriptor that a socket has as SL_FD does not change, [poll] fails only when it is interrupted, and memory for
    the set of [poll] is there. *)
Theorem poller_wait_reports {W} `{!PollWorld W} `{!PollWorldOk W} clock T p (w : W) : reach clock T p w →
  NoDup (en_key <$> T) ∧ (∀ o, (pstep o p).1 = (tstep o T).1)
  ∧ (∀ n_events timeout i, expired clock timeout i = true → is_Some (pass clock T n_events timeout w i))
  ∧ ∀ alloc fuel n_events timeout, alloc = true ∨ po_need_rebuild p = false →
    if decide (Forall (λ x, en_events x = 0) T)
    then ∃ p', let '(e, w') := if decide (timeout < 0) then (EFAULT, w) else if decide (timeout = 0) then (EAGAIN, w)
           else let '(interrupted, w') := pw_usleep ((timeout * 1000) `mod` 2 ^ 32) w in (if interrupted then EINTR else EAGAIN, w') in
         poller_wait clock alloc fuel n_events timeout p w = Done (Some (WErr e, 0%nat, w'), p')
    else ∀ k, is_Some (pass clock T n_events timeout w k) → (k < fuel)%nat →
      ∃ n r p' w', (n ≤ k)%nat ∧ (∀ j, (j < n)%nat → pass clock T n_events timeout w j = None) ∧ pass clock T n_events timeout w n = Some r
        ∧ poller_wait clock alloc fuel n_events timeout p w = Done (Some (r, n, w'), p').
Proof.
  intros [<- Hok]%reach_ok. split; [exact (ok_unique _ _ Hok)|]. split; [intros o; by apply pstep_spec, (ok_unique _ _ Hok)|]. split; [intros; by apply expired_answer|]. intros alloc fuel n_events timeout Ha.
  pose proof (poller_wait_spec clock alloc fuel n_events timeout p w Hok Ha) as H. destruct (decide (Forall _ _)) as [HF|HF].
  - assert (E : filter (λ x, en_events x ≠ 0) (table p) = []).
    { apply elem_of_nil_inv. intros x [Hx Hin]%list_elem_of_filter. by apply Hx, (proj1 (Forall_forall _ _) HF). }
    rewrite E in H. destruct H as (p' & H & _). exists p'. change (if decide (timeout < 0) then _ else _) with (empty_wait timeout w). by destruct (empty_wait timeout w).
  - destruct (filter _ (table p)) as [|x xs] eqn:E.
    + destruct HF. apply Forall_forall. intros x Hx. destruct (decide (en_events x = 0)) as [|He]; [done|]. assert (Hin : x ∈ filter (λ x, en_events x ≠ 0) (table p)) by (by apply list_elem_of_filter). rewrite E in Hin. by apply elem_of_nil in Hin.
    + intros k Hk Hf. destruct (first_answer _ k Hk) as (n & r & Hle & Hb & Hn). destruct (H n r Hb Hn ltac:(lia)) as (p' & w' & H' & _). by exists n, r, p', w'.
Qed.

(** A program with one socket and one descriptor: the socket has input at the third [poll]. *)
Record toy := Toy { ty_polls : nat }.

#[export] Instance toy_world : PollWorld toy := {
  pw_fd s w := 100 + Z.of_nat s;
  pw_events s w := (inl (if decide (3 ≤ ty_polls w)%nat then SL_POLLIN else 0), w);
  pw_poll fds t w := let w := Toy (S (ty_polls w)) in (PollOk ((λ _, 0) <$> fds), w);
  pw_usleep us w := (false, w);
}.

#[export] Instance toy_ok : PollWorldOk toy.
Proof. by refine {| pw_revents := λ w f, 0 |}. Defined.

Definition toy_ops : list pop := [PAdd (KFd 5) 7 SL_POLLIN; PAdd (KSock 1) 8 SL_POLLOUT; PModify (KSock 1) (Z.lor SL_POLLIN SL_POLLOUT)].
Definition toy_run : list entry * poller_t := foldl (λ Tp o, ((tstep o Tp.1).2, (pstep o Tp.2).2)) ([], poller_new) toy_ops.

Lemma poller_wait_reports_witness : ∃ p' w', poller_wait Z.of_nat true 9 4 (-1) toy_run.2 (Toy 0) = Done (Some (WFound 1 (Event (Some 1%nat) (-1) 8 1 :: replicate 3 zero_event), 2%nat, w'), p').
Proof.
  assert (H : reach Z.of_nat toy_run.1 toy_run.2 (Toy 0)) by (repeat apply reach_op; apply reach_new).
  destruct (poller_wait_reports Z.of_nat _ _ _ H) as (_ & _ & _ & Hw). specialize (Hw true 9%nat 4 (-1) (or_introl eq_refl)). rewrite decide_False in Hw by (vm_compute; by inversion 1).
  destruct (Hw 2%nat) as (n & r & p' & w' & Hle & Hb & Hn & E); [by eexists|lia|]. assert (n = 2%nat) as ->. { destruct n as [|[|[|n]]]; [discriminate Hn|discriminate Hn|done|lia]. }
  exists p', w'. rewrite E. injection Hn as <-. reflexivity.
Defined.
