(* ===== verification/Proxy.v ===== *)
(** The proxy (src/core/proxy.cpp): it moves messages between a frontend and a backend socket, copies
    them to a capture socket, and takes commands from a control socket.

    The sockets and the waiting of the pollers are the class [ProxyWorld]; the tables of the seven
    pollers are built with the operations of Poller.  The two sockets may be the same one. *)
From stdpp Require Import gmap.
From S2P Require Import Prelude SocketBase Poller.

Local Open Scope sl_scope.

Definition proxy_burst_size : nat := 1000.

Record stats_socket := StatsSocket { ss_count : Z; ss_bytes : Z }.
Record stats_endpoint := StatsEndpoint { se_send : stats_socket; se_recv : stats_socket }.
Record stats_proxy := StatsProxy { sp_frontend : stats_endpoint; sp_backend : stats_endpoint }.

Inductive proxy_state_t := active | paused | terminated.

#[export] Instance proxy_state_eq_dec : EqDecision proxy_state_t.
Proof. solve_decision. Defined.

(** The pollers by their names in the code: all, in, receive_blocked, ... *)
Inductive poller_id := PAll | PIn | PReceiveBlocked | PSendBlocked | PBothBlocked | PFrontendOnly | PBackendOnly.

#[export] Instance poller_id_eq_dec : EqDecision poller_id.
Proof. solve_decision. Defined.

(** [recv (SL_DONTWAIT)], the option SL_RCVMORE, [send] with SL_SNDMORE or not, and [wait] of a poller with the
    given table, for ever or not at all. *)
Class ProxyWorld (W : Type) := {
  px_recv : nat → W → (list Z + errno_t) * W;
  px_rcvmore : nat → W → bool + errno_t;
  px_send : nat → list Z → bool → W → rc_t * W;
  px_wait : list entry → Z → W → (list (nat * Z) + errno_t) * W;
}.

Section proxy.
Context {W : Type} `{!ProxyWorld W} (frontend backend : nat) (capture control : option nat).

Definition equal : bool := bool_decide (frontend = backend).

(** ** Forwarding *)

Definition capture_message (m : list Z) (more : bool) (w : W) : rc_t * W :=
  match capture with None => (RcOk, w) | Some c => px_send c m more w end.

Definition count_in (n : Z) (s : stats_socket) : stats_socket := StatsSocket (u64 (ss_count s + 1)) (u64 (ss_bytes s + n)).

(** A call that has returned, or one that is still at work after [fuel] frames. *)
Inductive forward_res := FReturned (rc : rc_t) | FBusy.

Fixpoint forward (fuel : nat) (i : nat) (from to : nat) (recving sending : stats_socket) (w : W) : forward_res * (stats_socket * stats_socket) * W :=
  match fuel with
  | O => (FBusy, (recving, sending), w)
  | S fuel =>
      match px_recv from w with
      | (inr e, w) => (FReturned (if decide (e = EAGAIN ∧ (0 < i)%nat) then RcOk else RcErr e), (recving, sending), w)
      | (inl m, w) =>
          let recving := count_in (Z.of_nat (length m)) recving in
          match px_rcvmore from w with
          | inr e => (FReturned (RcErr e), (recving, sending), w)
          | inl more =>
              let '(rc, w) := capture_message m more w in
              match rc with
              | RcErr e => (FReturned (RcErr e), (recving, sending), w)
              | RcOk =>
                  let '(rc, w) := px_send to m more w in
                  match rc with
                  | RcErr e => (FReturned (RcErr e), (recving, sending), w)
                  | RcOk =>
                      let sending := count_in (Z.of_nat (length m)) sending in
                      if more : bool then forward fuel i from to recving sending w
                      else if decide (S i < proxy_burst_size)%nat then forward fuel (S i) from to recving sending w
                      else (FReturned RcOk, (recving, sending), w)
                  end
              end
          end
      end
  end.

(** ** Commands *)

Definition cmd_statistics : list Z := [83; 84; 65; 84; 73; 83; 84; 73; 67; 83].
Definition cmd_pause : list Z := [80; 65; 85; 83; 69].
Definition cmd_resume : list Z := [82; 69; 83; 85; 77; 69].
Definition cmd_terminate : list Z := [84; 69; 82; 77; 73; 78; 65; 84; 69].

(** A [uint64_t] in memory, the low byte first *)
Fixpoint le_bytes (n : nat) (x : Z) : list Z := match n with O => [] | S n => x `mod` 256 :: le_bytes n (x / 256) end.

Definition stat_vals (s : stats_proxy) : list Z :=
  let f := sp_frontend s in let b := sp_backend s in
  [ss_count (se_recv f); ss_bytes (se_recv f); ss_count (se_send f); ss_bytes (se_send f);
   ss_count (se_recv b); ss_bytes (se_recv b); ss_count (se_send b); ss_bytes (se_send b)].

(** The parts of the answer *)
Fixpoint send_parts (to : nat) (parts : list (list Z)) (w : W) : rc_t * W :=
  match parts with
  | [] => (RcOk, w)
  | m :: parts => let '(rc, w) := px_send to m (negb (bool_decide (parts = []))) w in match rc with RcOk => send_parts to parts w | RcErr e => (RcErr e, w) end
  end.

Definition handle_control (ctl : nat) (state : proxy_state_t) (stats : stats_proxy) (w : W) : rc_t * proxy_state_t * W :=
  match px_recv ctl w with
  | (inr e, w) => (RcErr e, state, w)
  | (inl command, w) =>
      if decide (command = cmd_statistics) then let '(rc, w) := send_parts ctl (le_bytes 8 <$> stat_vals stats) w in (rc, state, w)
      else
        let state :=
          if decide (command = cmd_pause) then paused
          else if decide (command = cmd_resume) then active
          else if decide (command = cmd_terminate) then terminated
          else state in
        let '(rc, w) := px_send ctl [] false w in (rc, state, w)
  end.

(** ** The pollers *)

Definition both_ways : Z := Z.lor SL_POLLIN SL_POLLOUT.

(** The calls of [add], in their order *)
Definition adds : list (poller_id * nat * Z) :=
  [(PAll, frontend, both_ways); (PIn, frontend, SL_POLLIN)]
  ++ (if equal then [(PReceiveBlocked, frontend, SL_POLLOUT)]
      else [(PAll, backend, both_ways); (PIn, backend, SL_POLLIN); (PBothBlocked, frontend, SL_POLLOUT); (PBothBlocked, backend, SL_POLLOUT);
            (PSendBlocked, backend, SL_POLLOUT); (PSendBlocked, frontend, both_ways); (PReceiveBlocked, frontend, SL_POLLOUT); (PReceiveBlocked, backend, both_ways);
            (PFrontendOnly, frontend, both_ways); (PBackendOnly, backend, both_ways)])
  ++ match control with
     | None => []
     | Some c =>
         [(PAll, c, SL_POLLIN); (PIn, c, SL_POLLIN); (PReceiveBlocked, c, SL_POLLIN)]
         ++ (if equal then [] else [(PSendBlocked, c, SL_POLLIN); (PBothBlocked, c, SL_POLLIN); (PFrontendOnly, c, SL_POLLIN); (PBackendOnly, c, SL_POLLIN)])
     end.

Definition pollers : Type := poller_id → poller_t.

Fixpoint setup (l : list (poller_id * nat * Z)) (ps : pollers) : rc_t * pollers :=
  match l with
  | [] => (RcOk, ps)
  | (id, s, events) :: l =>
      let '(rc, p) := poller_add (KSock s) 0 events (ps id) in
      match rc with RcOk => setup l (λ x, if decide (x = id) then p else ps x) | RcErr e => (RcErr e, ps) end
  end.

(** The four pollers that are only made for two different sockets. *)
Definition poller_null (id : poller_id) : bool :=
  equal && match id with PSendBlocked | PBothBlocked | PFrontendOnly | PBackendOnly => true | _ => false end.

(** ** The loop *)

Record loop_t := Loop {
  lp_state : proxy_state_t;
  lp_frontend_in : bool; lp_frontend_out : bool; lp_backend_in : bool; lp_backend_out : bool;
  lp_wait : poller_id;
  lp_request_processed : bool; lp_reply_processed : bool;
  lp_stats : stats_proxy;
}.

Definition no_stats : stats_socket := StatsSocket 0 0.
Definition loop_new : loop_t := Loop active false false false false PIn false false (StatsProxy (StatsEndpoint no_stats no_stats) (StatsEndpoint no_stats no_stats)).

Definition lp_set_state (s : proxy_state_t) (l : loop_t) : loop_t :=
  Loop s (lp_frontend_in l) (lp_frontend_out l) (lp_backend_in l) (lp_backend_out l) (lp_wait l) (lp_request_processed l) (lp_reply_processed l) (lp_stats l).

(** [for (i = 0; i < rc; i++)]: the answer of [handle_control] overwrites [rc], so that the loop ends there. *)
Fixpoint process_events (es : list (nat * Z)) (l : loop_t) (w : W) : rc_t * loop_t * W :=
  match es with
  | [] => (RcOk, l, w)
  | (s, ev) :: es =>
      if decide (control = Some s) then let '(rc, st, w) := handle_control s (lp_state l) (lp_stats l) w in (rc, lp_set_state st l, w)
      else
        let i := has ev SL_POLLIN in let o := has ev SL_POLLOUT in
        let l :=
          if decide (s = frontend) then Loop (lp_state l) i o (lp_backend_in l) (lp_backend_out l) (lp_wait l) (lp_request_processed l) (lp_reply_processed l) (lp_stats l)
          else if decide (s = backend) then Loop (lp_state l) (lp_frontend_in l) (lp_frontend_out l) i o (lp_wait l) (lp_request_processed l) (lp_reply_processed l) (lp_stats l)
          else l in
        process_events es l w
  end.

(** The end of an iteration: which poller to wait with. *)
Definition after_processing (request reply : bool) (id : poller_id) : poller_id :=
  if decide (id = PIn) then id
  else
    let id := if request then (if decide (id = PBothBlocked) then PSendBlocked else if decide (id = PReceiveBlocked ∨ id = PFrontendOnly) then PIn else id) else id in
    if reply then (if decide (id = PBothBlocked) then PReceiveBlocked else if decide (id = PSendBlocked ∨ id = PBackendOnly) then PIn else id) else id.

Definition after_nothing (fin fout bin bout : bool) (id : poller_id) : poller_id :=
  let id :=
    if fin then (if fout then PBackendOnly else if decide (id = PSendBlocked) then PBothBlocked else if decide (id = PIn) then PReceiveBlocked else id)
    else id in
  if bin then (if bout then PFrontendOnly else if decide (id = PReceiveBlocked) then PBothBlocked else if decide (id = PIn) then PSendBlocked else id)
  else id.

Inductive step_res := SGo | SReturned (rc : rc_t) | SBusy.

(** [if (state == active) ...] *)
Definition forward_both (fuel : nat) (l : loop_t) (w : W) : step_res * loop_t * W :=
  let st := lp_stats l in
  let '(r1, l, w) :=
    if lp_frontend_in l && (lp_backend_out l || equal) then
      let '(r, (rv, sn), w) := forward fuel 0 frontend backend (se_recv (sp_frontend st)) (se_send (sp_backend st)) w in
      let st := StatsProxy (StatsEndpoint (se_send (sp_frontend st)) rv) (StatsEndpoint sn (se_recv (sp_backend st))) in
      (r, Loop (lp_state l) false (lp_frontend_out l) (lp_backend_in l) false (lp_wait l) true (lp_reply_processed l) st, w)
    else (FReturned RcOk, Loop (lp_state l) (lp_frontend_in l) (lp_frontend_out l) (lp_backend_in l) (lp_backend_out l) (lp_wait l) false (lp_reply_processed l) st, w) in
  match r1 with
  | FBusy => (SBusy, l, w)
  | FReturned (RcErr e) => (SReturned (RcErr e), l, w)
  | FReturned RcOk =>
      let st := lp_stats l in
      let '(r2, l, w) :=
        if lp_backend_in l && lp_frontend_out l then
          let '(r, (rv, sn), w) := forward fuel 0 backend frontend (se_recv (sp_backend st)) (se_send (sp_frontend st)) w in
          let st := StatsProxy (StatsEndpoint sn (se_recv (sp_frontend st))) (StatsEndpoint (se_send (sp_backend st)) rv) in
          (r, Loop (lp_state l) (lp_frontend_in l) false false (lp_backend_out l) (lp_wait l) (lp_request_processed l) true st, w)
        else (FReturned RcOk, Loop (lp_state l) (lp_frontend_in l) (lp_frontend_out l) (lp_backend_in l) (lp_backend_out l) (lp_wait l) (lp_request_processed l) false st, w) in
      match r2 with
      | FBusy => (SBusy, l, w)
      | FReturned (RcErr e) => (SReturned (RcErr e), l, w)
      | FReturned RcOk =>
          let id := if lp_request_processed l || lp_reply_processed l then after_processing (lp_request_processed l) (lp_reply_processed l) (lp_wait l)
                    else after_nothing (lp_frontend_in l) (lp_frontend_out l) (lp_backend_in l) (lp_backend_out l) (lp_wait l) in
          (SGo, Loop (lp_state l) (lp_frontend_in l) (lp_frontend_out l) (lp_backend_in l) (lp_backend_out l) id (lp_request_processed l) (lp_reply_processed l) (lp_stats l), w)
      end
  end.

(** EAGAIN of [wait] counts as no events. *)
Definition wait_events (r : list (nat * Z) + errno_t) : list (nat * Z) + errno_t :=
  match r with inl es => inl es | inr e => if decide (e = EAGAIN) then inl [] else inr e end.

(** One iteration; waiting with a poller that was not made is undefined. *)
Definition iteration (fuel : nat) (ps : pollers) (l : loop_t) (w : W) : outcome (step_res * loop_t * W) :=
  if poller_null (lp_wait l) then Undef
  else
    let '(r, w) := px_wait (table (ps (lp_wait l))) (-1) w in
    match wait_events r with
    | inr e => Done (SReturned (RcErr e), l, w)
    | inl _ =>
        let '(r, w) := px_wait (table (ps PAll)) 0 w in
        match wait_events r with
        | inr e => Done (SReturned (RcErr e), l, w)
        | inl es =>
            let '(rc, l, w) := process_events es l w in
            match rc with
            | RcErr e => Done (SReturned (RcErr e), l, w)
            | RcOk => Done (if decide (lp_state l = active) then forward_both fuel l w else (SGo, l, w))
            end
        end
    end.

(** [n] iterations at most. *)
Fixpoint proxy_loop (n fuel : nat) (ps : pollers) (l : loop_t) (w : W) : outcome (step_res * loop_t * W) :=
  match n with
  | O => Done (SBusy, l, w)
  | S n =>
      if decide (lp_state l = terminated) then Done (SReturned RcOk, l, w)
      else
        '(r, l, w) ← iteration fuel ps l w;
        match r with SGo => proxy_loop n fuel ps l w | _ => Done (r, l, w) end
  end.

Definition proxy_steerable (n fuel : nat) (w : W) : outcome (step_res * loop_t * W) :=
  let '(rc, ps) := setup adds (λ _, poller_new) in
  match rc with RcErr e => Done (SReturned (RcErr e), loop_new, w) | RcOk => proxy_loop n fuel ps loop_new w end.

End proxy.

(** [proxy]: without a control socket. *)
Definition proxy {W} `{!ProxyWorld W} (frontend backend : nat) (capture : option nat) (n fuel : nat) (w : W) : outcome (step_res * loop_t * W) :=
  proxy_steerable frontend backend capture None n fuel w.

(** ** What the sockets promise *)

Inductive pev := Got (s : nat) (m : list Z) | Sent (s : nat) (m : list Z) (more : bool).

(** The events that a poller with this table reports. *)
Definition reported (ready : nat → Z) (T : list entry) : list (nat * Z) :=
  omap (λ x, match en_key x with KSock s => if has (en_events x) (ready s) then Some (s, Z.land (en_events x) (ready s)) else None | KFd _ => None end) T.

(** [px_log] is everything received and sent so far, [px_mid] whether the last frame received from a socket has more behind it.  The rest of a
    message is there once its first frame is; waiting receives and sends nothing. *)
Class ProxyWorldOk (W : Type) `{!ProxyWorld W} := {
  px_log : W → list pev;
  px_mid : W → nat → bool;
  px_recv_ok s w : match px_recv s w with
    | (inl m, w') => px_log w' = px_log w ++ [Got s m] ∧ (∀ b, px_rcvmore s w' = inl b → px_mid w' s = b) ∧ ∀ s', s' ≠ s → px_mid w' s' = px_mid w s'
    | (inr e, w') => px_log w' = px_log w ∧ px_mid w' = px_mid w ∧ (px_mid w s = true → e ≠ EAGAIN)
    end;
  px_send_ok s m more w : let '(rc, w') := px_send s m more w in px_mid w' = px_mid w ∧ px_log w' = px_log w ++ match rc with RcOk => [Sent s m more] | RcErr _ => [] end;
  px_wait_keeps T t w : px_log (px_wait T t w).2 = px_log w ∧ px_mid (px_wait T t w).2 = px_mid w;
}.

(** Moreover, with [px_ready] the events of a socket: a poller reports what is ready, and returns EAGAIN only if nothing is; a socket with input
    gives a frame. *)
Class ProxyWorldReady (W : Type) `{!ProxyWorld W} := {
  px_ready : W → nat → Z;
  px_recv_ready s w : has (px_ready w s) SL_POLLIN = true → ∃ m w', px_recv s w = (inl m, w');
  px_wait_ready T t w : let '(r, w') := px_wait T t w in
    match r with inl es => es = reported (px_ready w') T | inr e => e = EAGAIN → reported (px_ready w') T = [] end;
}.

(** ** The tables of the pollers *)

Definition entries (id : poller_id) (l : list (poller_id * nat * Z)) : list entry := (λ x, Entry (KSock x.1.2) 0 x.2) <$> filter (λ x, x.1.1 = id) l.

Lemma setup_spec l ps : (∀ id, unique (table (ps id) ++ entries id l)) →
  ∃ ps', setup l ps = (RcOk, ps') ∧ ∀ id, table (ps' id) = table (ps id) ++ entries id l.
Proof.
  revert ps. induction l as [|[[id s] ev] l IH]; intros ps Hu; [exists ps; split; [done|]; intros id; by rewrite app_nil_r|]. cbn [setup]. unfold poller_add.
  assert (Hid : entries id ((id, s, ev) :: l) = Entry (KSock s) 0 ev :: entries id l) by (unfold entries; by rewrite filter_cons, decide_True).
  assert (Hother : ∀ id', id' ≠ id → entries id' ((id, s, ev) :: l) = entries id' l) by (intros id' Hne; unfold entries; rewrite filter_cons, decide_False; [done|]; simpl; congruence).
  assert (Hn : ¬ listed (KSock s) (table (ps id))).
  { intros Hl. specialize (Hu id). rewrite Hid in Hu. unfold unique in Hu. rewrite fmap_app, fmap_cons in Hu. apply NoDup_app in Hu as (_ & Hd & _). apply (Hd _ Hl). by left. }
  rewrite (proj2 (find_item_None (KSock s) _) Hn). set (p := Poller _ _ _ _). assert (Hp : table p = table (ps id) ++ [Entry (KSock s) 0 ev]) by (unfold table, p; simpl; by rewrite fmap_app).
  destruct (IH (λ x, if decide (x = id) then p else ps x)) as (ps' & E & HT).
  - intros id'. destruct (decide (id' = id)) as [->|Hne]; [rewrite Hp, <- app_assoc; simpl; rewrite <- Hid; apply Hu|rewrite <- Hother by done; apply Hu].
  - exists ps'. split; [done|]. intros id'. rewrite HT. destruct (decide (id' = id)) as [->|Hne]; [rewrite Hp, <- app_assoc, Hid; done|by rewrite Hother].
Qed.

Section sockets.
Context {W : Type} `{!ProxyWorld W} `{!ProxyWorldOk W} (frontend backend : nat) (capture control : option nat).

(** The tables, as a list of sockets and events. *)
Definition poller_table (id : poller_id) : list entry := entries id (adds frontend backend control).

Lemma adds_unique : (∀ c, control = Some c → c ≠ frontend ∧ c ≠ backend) → ∀ id, unique (poller_table id).
Proof.
  intros Hc id. unfold poller_table, adds, equal. destruct (decide (frontend = backend)) as [He|He].
  - rewrite bool_decide_true by done. destruct control as [c|]; [destruct (Hc c eq_refl)|]; destruct id; unfold unique; simpl; repeat (apply NoDup_cons; split; [set_solver|]); apply NoDup_nil_2.
  - rewrite bool_decide_false by done. destruct control as [c|]; [destruct (Hc c eq_refl)|]; destruct id; unfold unique; simpl; repeat (apply NoDup_cons; split; [set_solver|]); apply NoDup_nil_2.
Qed.

Lemma setup_tables : (∀ c, control = Some c → c ≠ frontend ∧ c ≠ backend) → ∃ ps, setup (adds frontend backend control) (λ _, poller_new) = (RcOk, ps) ∧ ∀ id, table (ps id) = poller_table id.
Proof. intros Hc. apply (setup_spec (adds frontend backend control) (λ _, poller_new)). by apply adds_unique. Qed.

(** ** Traces *)

Definition frame_events (from to : nat) (m : list Z) (more : bool) : list pev :=
  Got from m :: match capture with Some c => [Sent c m more] | None => [] end ++ [Sent to m more].

(** A message is its first frame and the others. *)
Fixpoint message_events (from to : nat) (m : list Z) (rest : list (list Z)) : list pev :=
  match rest with [] => frame_events from to m false | m' :: rest => frame_events from to m true ++ message_events from to m' rest end.

Definition burst_events (from to : nat) (ms : list (list Z * list (list Z))) : list pev := ms ≫= λ x, message_events from to x.1 x.2.
Definition count_burst (ms : list (list Z * list (list Z))) (s : stats_socket) : stats_socket := foldl (λ s m, count_in (Z.of_nat (length m)) s) s (ms ≫= λ x, x.1 :: x.2).

Lemma capture_message_spec m more w :
  let '(rc, w') := capture_message capture m more w in px_mid w' = px_mid w ∧
  px_log w' = px_log w ++ match rc, capture with RcOk, Some c => [Sent c m more] | _, _ => [] end.
Proof.
  unfold capture_message. destruct capture as [c|]; [|by rewrite app_nil_r]. pose proof (px_send_ok c m more w) as H. destruct (px_send c m more w) as [[] w']; done.
Qed.

Lemma burst_cons from to m rest ms : burst_events from to ((m, rest) :: ms) = message_events from to m rest ++ burst_events from to ms.
Proof. unfold burst_events. by rewrite bind_cons. Qed.

(** A message that begins with the frame. *)
Lemma burst_begins from to m (more : bool) : ∃ tl, burst_events from to [(m, if more then [[]] else [])] = frame_events from to m more ++ tl.
Proof. rewrite burst_cons. destruct more; simpl; [rewrite <- app_assoc|]; by eexists. Qed.

(** What [forward] does: whole messages, or the beginning of some if it fails or is not done yet. *)
Lemma forward_spec fuel i from to rv sn w :
  let '(r, (rv', sn'), w') := forward capture fuel i from to rv sn w in
  (∀ s, s ≠ from → px_mid w' s = px_mid w s) ∧
  ∃ ms ev, px_log w' = px_log w ++ ev ∧ (px_mid w from = true → ms ≠ []) ∧
    match r with
    | FReturned RcOk => ev = burst_events from to ms ∧ rv' = count_burst ms rv ∧ sn' = count_burst ms sn ∧ px_mid w' from = false
    | _ => ev `prefix_of` burst_events from to ms
    end.
Proof.
  revert i rv sn w. induction fuel as [|fuel IH]; intros i rv sn w; cbn [forward].
  { split; [done|]. exists [([], [])], []. rewrite app_nil_r. split; [done|]. split; [done|]. apply prefix_nil. }
  pose proof (px_recv_ok from w) as Hr. destruct (px_recv from w) as [[m|e] w1].
  2: { destruct Hr as (Hl & Hm & He). split; [by rewrite Hm|]. case_decide as Hd.
       - exists [], []. rewrite Hl, app_nil_r, Hm. split; [done|]. destruct (px_mid w from); [by destruct (He eq_refl), Hd|done].
       - exists [([], [])], []. rewrite Hl, app_nil_r. split; [done|]. split; [done|]. apply prefix_nil. }
  destruct Hr as (Hl & Hmore & Hoth). destruct (px_rcvmore from w1) as [more|e].
  2: { split; [done|]. exists [(m, [])], [Got from m]. split; [done|]. split; [done|]. destruct (burst_begins from to m false) as [tl ->]. by eexists. }
  specialize (Hmore more eq_refl). pose proof (capture_message_spec m more w1) as Hcap. destruct (capture_message capture m more w1) as [rc w2]. destruct Hcap as [Hm2 Hl2].
  set (msg := (m, if more then [[]] else []) : list Z * list (list Z)). destruct (burst_begins from to m more) as [tl Hmsg]. fold msg in Hmsg. destruct rc as [|e].
  2: { split; [intros s Hs; by rewrite Hm2, Hoth|]. exists [msg], [Got from m]. rewrite Hl2, Hl, app_nil_r. split; [done|]. split; [done|]. rewrite Hmsg. by eexists. }
  pose proof (px_send_ok to m more w2) as Hsend. destruct (px_send to m more w2) as [rc w3]. destruct Hsend as [Hm3 Hl3].
  assert (Hl3' : px_log w3 = px_log w ++ Got from m :: match capture with Some c => [Sent c m more] | None => [] end ++ match rc with RcOk => [Sent to m more] | RcErr _ => [] end).
  { rewrite Hl3, Hl2, Hl. rewrite <- !app_assoc. done. }
  assert (Hoth3 : ∀ s, s ≠ from → px_mid w3 s = px_mid w s) by (intros s Hs; by rewrite Hm3, Hm2, Hoth). destruct rc as [|e].
  2: { split; [done|]. eexists [msg], _. split; [exact Hl3'|]. split; [done|]. rewrite Hmsg. exists (Sent to m more :: tl). rewrite app_nil_r. unfold frame_events. by rewrite <- app_comm_cons, <- app_assoc, <- app_comm_cons. }
  change (Got from m :: _ ++ [Sent to m more]) with (frame_events from to m more) in Hl3'. clear Hl Hl2 Hl3. destruct more.
  - specialize (IH i (count_in (Z.of_nat (length m)) rv) (count_in (Z.of_nat (length m)) sn) w3). destruct (forward capture fuel i from to _ _ w3) as [[r [rv' sn']] w']. destruct IH as (Ho & ms & ev & Hlog & Hne & Hres).
    split; [intros s Hs; by rewrite Ho, Hoth3|]. rewrite Hm3, Hm2 in Hne. specialize (Hne Hmore). destruct ms as [|[m1 rest] ms]; [done|]. exists ((m, m1 :: rest) :: ms), (frame_events from to m true ++ ev).
    split; [by rewrite Hlog, Hl3', app_assoc|]. split; [done|].
    assert (HB : burst_events from to ((m, m1 :: rest) :: ms) = frame_events from to m true ++ burst_events from to ((m1, rest) :: ms)) by (rewrite !burst_cons; simpl; by rewrite <- !app_assoc).
    destruct r as [[|e]|]; [destruct Hres as (-> & -> & -> & ?); by rewrite HB|rewrite HB; by apply prefix_app|rewrite HB; by apply prefix_app].
  - case_decide as Hi.
    + specialize (IH (S i) (count_in (Z.of_nat (length m)) rv) (count_in (Z.of_nat (length m)) sn) w3). destruct (forward capture fuel (S i) from to _ _ w3) as [[r [rv' sn']] w']. destruct IH as (Ho & ms & ev & Hlog & _ & Hres).
      split; [intros s Hs; by rewrite Ho, Hoth3|]. exists ((m, []) :: ms), (frame_events from to m false ++ ev). split; [by rewrite Hlog, Hl3', app_assoc|]. split; [done|].
      assert (HB : burst_events from to ((m, []) :: ms) = frame_events from to m false ++ burst_events from to ms) by (by rewrite burst_cons).
      destruct r as [[|e]|]; [destruct Hres as (-> & -> & -> & ?); by rewrite HB|rewrite HB; by apply prefix_app|rewrite HB; by apply prefix_app].
    + split; [done|]. exists [(m, [])], (frame_events from to m false). split; [done|]. split; [done|]. split; [rewrite burst_cons; by rewrite app_nil_r|]. split; [done|]. split; [done|]. by rewrite Hm3, Hm2.
Qed.

(** The answer to a command, and the state after it. *)
Fixpoint parts_events (to : nat) (parts : list (list Z)) : list pev :=
  match parts with [] => [] | m :: parts => Sent to m (negb (bool_decide (parts = []))) :: parts_events to parts end.

Definition answer (ctl : nat) (c : list Z) (st : stats_proxy) : list pev :=
  if decide (c = cmd_statistics) then parts_events ctl (le_bytes 8 <$> stat_vals st) else [Sent ctl [] false].

Definition command_state (c : list Z) (s : proxy_state_t) : proxy_state_t :=
  if decide (c = cmd_pause) then paused else if decide (c = cmd_resume) then active else if decide (c = cmd_terminate) then terminated else s.

Definition count_request (ms : list (list Z * list (list Z))) (st : stats_proxy) : stats_proxy :=
  StatsProxy (StatsEndpoint (se_send (sp_frontend st)) (count_burst ms (se_recv (sp_frontend st)))) (StatsEndpoint (count_burst ms (se_send (sp_backend st))) (se_recv (sp_backend st))).
Definition count_reply (ms : list (list Z * list (list Z))) (st : stats_proxy) : stats_proxy :=
  StatsProxy (StatsEndpoint (count_burst ms (se_send (sp_frontend st))) (se_recv (sp_frontend st))) (StatsEndpoint (se_send (sp_backend st)) (count_burst ms (se_recv (sp_backend st)))).

(** What a proxy may do: while it is active it moves messages; at any time it takes a command and answers it. *)
Inductive trace : proxy_state_t → stats_proxy → list pev → Prop :=
| tr_start : trace active (lp_stats loop_new) []
| tr_request ms st log : trace active st log → trace active (count_request ms st) (log ++ burst_events frontend backend ms)
| tr_reply ms st log : trace active st log → trace active (count_reply ms st) (log ++ burst_events backend frontend ms)
| tr_command ctl c s st log : control = Some ctl → s ≠ terminated → trace s st log → trace (command_state c s) st (log ++ Got ctl c :: answer ctl c st).

(** The beginning of what it may do. *)
Definition extendable (log : list pev) : Prop := ∃ s st log', trace s st log' ∧ log `prefix_of` log'.

Lemma send_parts_spec to parts w :
  let '(rc, w') := send_parts to parts w in
  px_mid w' = px_mid w ∧ ∃ ev, px_log w' = px_log w ++ ev ∧ match rc with RcOk => ev = parts_events to parts | RcErr _ => ev `prefix_of` parts_events to parts end.
Proof.
  revert w. induction parts as [|m parts IH]; intros w; cbn [send_parts]; [split; [done|]; exists []; by rewrite app_nil_r|].
  pose proof (px_send_ok to m (negb (bool_decide (parts = []))) w) as H. destruct (px_send to m _ w) as [[|e] w1]; destruct H as [Hm Hl].
  - specialize (IH w1). destruct (send_parts to parts w1) as [rc w2]. destruct IH as (Hm2 & ev & Hl2 & Hev). split; [congruence|]. eexists. split; [rewrite Hl2, Hl, <- app_assoc; done|].
    destruct rc; [by rewrite Hev|]. by apply prefix_cons.
  - split; [done|]. exists []. split; [done|]. apply prefix_nil.
Qed.

Lemma handle_control_spec ctl s st w :
  let '(rc, s', w') := handle_control ctl s st w in
  (∀ x, x ≠ ctl → px_mid w' x = px_mid w x) ∧
  ∃ c ev, px_log w' = px_log w ++ ev ∧ match rc with RcOk => s' = command_state c s ∧ ev = Got ctl c :: answer ctl c st | RcErr _ => ev `prefix_of` Got ctl c :: answer ctl c st end.
Proof.
  unfold handle_control. pose proof (px_recv_ok ctl w) as Hr. destruct (px_recv ctl w) as [[c|e] w1].
  2: { destruct Hr as (Hl & Hm & _). split; [by rewrite Hm|]. exists [], []. rewrite Hl, app_nil_r. split; [done|]. apply prefix_nil. }
  destruct Hr as (Hl & _ & Ho). unfold answer. destruct (decide (c = cmd_statistics)) as [Hc|Hc].
  - pose proof (send_parts_spec ctl (le_bytes 8 <$> stat_vals st) w1) as H. destruct (send_parts ctl _ w1) as [rc w2]. destruct H as (Hm & ev & Hl2 & Hev). split; [intros x Hx; by rewrite Hm, Ho|].
    exists c, (Got ctl c :: ev). rewrite Hl2, Hl, <- app_assoc, decide_True by done. split; [done|]. destruct rc; [by rewrite Hev, Hc|by apply prefix_cons].
  - pose proof (px_send_ok ctl [] false w1) as H. fold (command_state c s). destruct (px_send ctl [] false w1) as [rc w2]. destruct H as (Hm & Hl2). split; [intros x Hx; by rewrite Hm, Ho|].
    eexists c, _. rewrite Hl2, Hl, <- app_assoc, decide_False by done. split; [done|]. destruct rc; [done|]. apply prefix_cons, prefix_nil.
Qed.

(** ** The loop keeps to the traces *)

Context (Hctl : ∀ c, control = Some c → c ≠ frontend ∧ c ≠ backend).

Record loop_ok (l : loop_t) (w : W) : Prop := {
  lo_trace : trace (lp_state l) (lp_stats l) (px_log w);
  lo_front : px_mid w frontend = false;
  lo_back : px_mid w backend = false;
  lo_wait : lp_wait l ≠ PAll;
  lo_equal : frontend = backend → lp_wait l = PIn ∧ lp_backend_in l = false;
}.

Lemma process_events_spec es l w : loop_ok l w → lp_state l ≠ terminated →
  let '(rc, l', w') := process_events frontend backend control es l w in match rc with RcOk => loop_ok l' w' | RcErr _ => extendable (px_log w') end.
Proof.
  revert l. induction es as [|[s ev] es IH]; intros l Hok Hnt; cbn [process_events]; [done|]. destruct (decide (control = Some s)) as [Hs|Hs].
  - pose proof (handle_control_spec s (lp_state l) (lp_stats l) w) as H. destruct (handle_control s (lp_state l) (lp_stats l) w) as [[rc s'] w']. destruct H as (Hm & c & ev' & Hl & Hres), Hok as [Htr Hf Hb Hw He].
    destruct (Hctl s Hs) as [Hsf Hsb]. pose proof (tr_command s c _ _ _ Hs Hnt Htr) as Htr'. destruct rc as [|e].
    + destruct Hres as [-> ->]. split; simpl; [by rewrite Hl|by rewrite Hm|by rewrite Hm|done|done].
    + eexists _, _, _. split; [exact Htr'|]. rewrite Hl. by apply prefix_app.
  - apply IH; [|by repeat case_decide]. destruct Hok as [Htr Hf Hb Hw He]. destruct (decide (s = frontend)) as [Hsf|Hsf]; [by split|]. destruct (decide (s = backend)) as [Hsb|Hsb]; [|by split].
    split; [done|done|done|done|]. simpl. intros E. congruence.
Qed.

Lemma after_processing_not_all request reply id : id ≠ PAll → after_processing request reply id ≠ PAll.
Proof. by destruct id, request, reply. Qed.
Lemma after_nothing_not_all a b c d id : id ≠ PAll → after_nothing a b c d id ≠ PAll.
Proof. by destruct id, a, b, c, d. Qed.

Lemma forward_request fuel st w : trace active st (px_log w) → px_mid w frontend = false → px_mid w backend = false →
  let '(r, (rv, sn), w') := forward capture fuel 0 frontend backend (se_recv (sp_frontend st)) (se_send (sp_backend st)) w in
  match r with
  | FReturned RcOk => px_mid w' frontend = false ∧ px_mid w' backend = false
      ∧ trace active (StatsProxy (StatsEndpoint (se_send (sp_frontend st)) rv) (StatsEndpoint sn (se_recv (sp_backend st)))) (px_log w')
  | _ => extendable (px_log w')
  end.
Proof.
  intros Htr Hf Hb. pose proof (forward_spec fuel 0 frontend backend (se_recv (sp_frontend st)) (se_send (sp_backend st)) w) as H. destruct (forward _ _ _ _ _ _ _ w) as [[r [rv sn]] w'].
  destruct H as (Ho & ms & ev & Hl & _ & Hres). destruct r as [[|e]|].
  - destruct Hres as (-> & -> & -> & Hm). split; [done|]. split; [|rewrite Hl; by apply tr_request]. destruct (decide (backend = frontend)) as [->|Hne]; [done|by rewrite Ho].
  - eexists _, _, _. split; [by apply (tr_request ms)|]. rewrite Hl. by apply prefix_app.
  - eexists _, _, _. split; [by apply (tr_request ms)|]. rewrite Hl. by apply prefix_app.
Qed.

Lemma forward_reply fuel st w : trace active st (px_log w) → px_mid w frontend = false → px_mid w backend = false →
  let '(r, (rv, sn), w') := forward capture fuel 0 backend frontend (se_recv (sp_backend st)) (se_send (sp_frontend st)) w in
  match r with
  | FReturned RcOk => px_mid w' frontend = false ∧ px_mid w' backend = false
      ∧ trace active (StatsProxy (StatsEndpoint sn (se_recv (sp_frontend st))) (StatsEndpoint (se_send (sp_backend st)) rv)) (px_log w')
  | _ => extendable (px_log w')
  end.
Proof.
  intros Htr Hf Hb. pose proof (forward_spec fuel 0 backend frontend (se_recv (sp_backend st)) (se_send (sp_frontend st)) w) as H. destruct (forward _ _ _ _ _ _ _ w) as [[r [rv sn]] w'].
  destruct H as (Ho & ms & ev & Hl & _ & Hres). destruct r as [[|e]|].
  - destruct Hres as (-> & -> & -> & Hm). split; [|split; [done|rewrite Hl; by apply tr_reply]]. destruct (decide (frontend = backend)) as [->|Hne]; [done|by rewrite Ho].
  - eexists _, _, _. split; [by apply (tr_reply ms)|]. rewrite Hl. by apply prefix_app.
  - eexists _, _, _. split; [by apply (tr_reply ms)|]. rewrite Hl. by apply prefix_app.
Qed.

Lemma forward_both_spec fuel l w : loop_ok l w → lp_state l = active →
  let '(r, l', w') := forward_both frontend backend capture fuel l w in match r with SGo => loop_ok l' w' ∧ lp_state l' = active | _ => extendable (px_log w') end.
Proof.
  intros [Htr Hf Hb Hw He] Ha. rewrite Ha in Htr. unfold forward_both.
  set (req := lp_frontend_in l && (lp_backend_out l || equal frontend backend)).
  assert (H1 : let '(r1, l1, w1) := (if req then
      let '(r, (rv, sn), w) := forward capture fuel 0 frontend backend (se_recv (sp_frontend (lp_stats l))) (se_send (sp_backend (lp_stats l))) w in
      (r, Loop (lp_state l) false (lp_frontend_out l) (lp_backend_in l) false (lp_wait l) true (lp_reply_processed l)
        (StatsProxy (StatsEndpoint (se_send (sp_frontend (lp_stats l))) rv) (StatsEndpoint sn (se_recv (sp_backend (lp_stats l))))), w)
    else (FReturned RcOk, Loop (lp_state l) (lp_frontend_in l) (lp_frontend_out l) (lp_backend_in l) (lp_backend_out l) (lp_wait l) false (lp_reply_processed l) (lp_stats l), w)) in
    match r1 with
    | FReturned RcOk => loop_ok l1 w1 ∧ lp_state l1 = active ∧ (frontend = backend → lp_request_processed l1 = true ∨ lp_frontend_in l1 = false)
    | _ => extendable (px_log w1) end).
  { destruct req eqn:Er.
    - pose proof (forward_request fuel _ w Htr Hf Hb) as H. destruct (forward _ _ _ _ _ _ _ w) as [[r [rv sn]] w']. destruct r as [[|e]|]; [|done|done]. destruct H as (Hf' & Hb' & Htr'). split; [|by auto]. split; simpl; [by rewrite Ha|done..].
    - split; [split; simpl; [by rewrite Ha|done..]|]. split; [done|]. intros E. right. simpl. unfold req, equal in Er. rewrite bool_decide_true, orb_true_r, andb_true_r in Er by done. done. }
  destruct (if req then _ else _) as [[r1 l1] w1]. clear Htr Hf Hb Hw He Ha. destruct r1 as [[|e]|]; [|done|done]. destruct H1 as ([Htr Hf Hb Hw He] & Ha & Heq). rewrite Ha in Htr.
  set (rep := lp_backend_in l1 && lp_frontend_out l1).
  assert (H2 : let '(r2, l2, w2) := (if rep then
      let '(r, (rv, sn), w) := forward capture fuel 0 backend frontend (se_recv (sp_backend (lp_stats l1))) (se_send (sp_frontend (lp_stats l1))) w1 in
      (r, Loop (lp_state l1) (lp_frontend_in l1) false false (lp_backend_out l1) (lp_wait l1) (lp_request_processed l1) true
        (StatsProxy (StatsEndpoint sn (se_recv (sp_frontend (lp_stats l1)))) (StatsEndpoint (se_send (sp_backend (lp_stats l1))) rv)), w)
    else (FReturned RcOk, Loop (lp_state l1) (lp_frontend_in l1) (lp_frontend_out l1) (lp_backend_in l1) (lp_backend_out l1) (lp_wait l1) (lp_request_processed l1) false (lp_stats l1), w1)) in
    match r2 with
    | FReturned RcOk => loop_ok l2 w2 ∧ lp_state l2 = active ∧ (frontend = backend → lp_request_processed l2 = true ∨ lp_frontend_in l2 = false)
    | _ => extendable (px_log w2) end).
  { destruct rep eqn:Er.
    - pose proof (forward_reply fuel _ w1 Htr Hf Hb) as H. destruct (forward _ _ _ _ _ _ _ w1) as [[r [rv sn]] w']. destruct r as [[|e]|]; [|done|done]. destruct H as (Hf' & Hb' & Htr'). split; [|done]. split; simpl; [by rewrite Ha|done..|]. intros E. by destruct (He E).
    - split; [split; simpl; [by rewrite Ha|done..]|done]. }
  destruct (if rep then _ else _) as [[r2 l2] w2]. clear Htr Hf Hb Hw He Ha Heq. destruct r2 as [[|e]|]; [|done|done]. destruct H2 as ([Htr Hf Hb Hw He] & Ha & Heq). split; [|done].
  split; [done|done|done| |]; cbn [lp_wait lp_backend_in].
  - destruct (lp_request_processed l2 || lp_reply_processed l2); [by apply after_processing_not_all|by apply after_nothing_not_all].
  - intros E. destruct (He E) as [-> ->]. split; [|done]. destruct (Heq E) as [-> | ->]; [done|]. by destruct (lp_request_processed l2 || lp_reply_processed l2).
Qed.

Lemma iteration_spec fuel ps l w : loop_ok l w → lp_state l ≠ terminated →
  ∃ r l' w', iteration frontend backend capture control fuel ps l w = Done (r, l', w') ∧ match r with SGo => loop_ok l' w' | _ => extendable (px_log w') ∧ r ≠ SReturned RcOk end.
Proof.
  intros Hok Hnt. unfold iteration. assert (Hnull : poller_null frontend backend (lp_wait l) = false).
  { unfold poller_null, equal. case_bool_decide as E; [|done]. by destruct (lo_equal _ _ Hok E) as [-> _]. }
  rewrite Hnull. assert (Hself : ∀ w1, px_log w1 = px_log w → extendable (px_log w1)) by (intros w1 ->; destruct Hok; by eexists _, _, _).
  pose proof (px_wait_keeps (table (ps (lp_wait l))) (-1) w) as H1. destruct (px_wait (table (ps (lp_wait l))) (-1) w) as [r1 w1]. cbn [snd] in H1; destruct H1 as [Hl1 Hm1].
  destruct (wait_events r1) as [_|e]; [|eexists _, _, _; split; [done|]; split; [by apply Hself|done]].
  pose proof (px_wait_keeps (table (ps PAll)) 0 w1) as H2. destruct (px_wait (table (ps PAll)) 0 w1) as [r2 w2]. cbn [snd] in H2; destruct H2 as [Hl2 Hm2].
  destruct (wait_events r2) as [es|e]; [|eexists _, _, _; split; [done|]; split; [apply Hself; congruence|done]].
  assert (Hok2 : loop_ok l w2) by (destruct Hok; split; [by rewrite Hl2, Hl1|by rewrite Hm2, Hm1|by rewrite Hm2, Hm1|done|done]).
  pose proof (process_events_spec es l w2 Hok2 Hnt) as H3. destruct (process_events frontend backend control es l w2) as [[rc l3] w3]. destruct rc as [|e]; [|eexists _, _, _; split; [done|]; by split].
  case_decide as Ha; [|by eexists _, _, _]. pose proof (forward_both_spec fuel l3 w3 H3 Ha) as H4.
  destruct (forward_both frontend backend capture fuel l3 w3) as [[r l4] w4] eqn:Efb. eexists _, _, _. split; [done|]. destruct r as [|rc|]; [by destruct H4| |by split]. split; [done|].
  intros [= ->]. unfold forward_both in Efb. repeat case_match; simplify_eq.
Qed.

Lemma proxy_loop_spec n fuel ps l w : loop_ok l w →
  ∃ r l' w', proxy_loop frontend backend capture control n fuel ps l w = Done (r, l', w')
    ∧ match r with SGo => False | SReturned RcOk => trace terminated (lp_stats l') (px_log w') | _ => extendable (px_log w') end.
Proof.
  revert l w. induction n as [|n IH]; intros l w Hok; cbn [proxy_loop].
  { eexists _, _, _. split; [done|]. destruct Hok. by eexists _, _, _. }
  case_decide as Ht; [eexists _, _, _; split; [done|]; rewrite <- Ht; by destruct Hok|]. destruct (iteration_spec fuel ps l w Hok Ht) as (r & l1 & w1 & -> & Hr). rewrite bind_Done.
  destruct r as [|rc|]; [by apply IH| |]; eexists _, _, _; (split; [done|]); [destruct rc; [by destruct Hr|by destruct Hr]|by destruct Hr].
Qed.

End sockets.

(** ** What the traces mean *)

(** Of what goes in (by [i]) and what comes out (by [o]) at any time at most one frame is on its way, and nothing overtakes. *)
Definition lagging (i o : pev → option (list Z)) (log : list pev) : Prop := ∃ extra, omap i log = omap o log ++ extra ∧ (length extra ≤ 1)%nat.
Definition tame (i o : pev → option (list Z)) (log : list pev) : Prop := omap i log = omap o log ∧ ∀ p, p `prefix_of` log → lagging i o p.

Lemma omap_step (f : pev → option (list Z)) e log : omap f (e :: log) = match f e with Some m => m :: omap f log | None => omap f log end.
Proof. done. Qed.

Lemma lag_none i o log : omap i log = omap o log → lagging i o log.
Proof. intros E. exists []. rewrite app_nil_r. split; [done|simpl; lia]. Qed.
Lemma lag_one i o log m : omap i log = omap o log ++ [m] → lagging i o log.
Proof. intros E. exists [m]. split; [done|simpl; lia]. Qed.

Lemma prefix_app_cases {A} (p a b : list A) : p `prefix_of` a ++ b → p `prefix_of` a ∨ ∃ q, p = a ++ q ∧ q `prefix_of` b.
Proof. intros [k E]. apply app_eq_inv in E as [(q & -> & ->)|(q & -> & ->)]; [left; by exists q|right; exists q; split; [done|by exists k]]. Qed.

Lemma tame_nil i o : tame i o [].
Proof. split; [done|]. intros p ->%prefix_nil_inv. by apply lag_none. Qed.

Lemma tame_app i o a b : tame i o a → tame i o b → tame i o (a ++ b).
Proof.
  intros [Ea Ha] [Eb Hb]. split; [by rewrite !omap_app, Ea, Eb|]. intros p [Hp|(q & -> & Hq)]%prefix_app_cases; [by apply Ha|]. destruct (Hb q Hq) as (extra & E & Hl). exists extra.
  by rewrite !omap_app, Ea, E, app_assoc.
Qed.

Lemma tame_silent i o log : Forall (λ e, i e = None ∧ o e = None) log → tame i o log.
Proof.
  induction 1 as [|e log [Hi Ho] _ IH]; [apply tame_nil|]. apply (tame_app i o [e] log); [|done]. split; [simpl; by rewrite Hi, Ho|]. intros p [k E]. apply lag_none. destruct p as [|x [|y p]]; [done| |done]. injection E as -> _. simpl.
  by rewrite Hi, Ho.
Qed.

(** One frame: in, perhaps something else, out, perhaps something else. *)
Lemma tame_frame i o e1 e2 m xs ys : i e1 = Some m → o e1 = None → o e2 = Some m → i e2 = None → Forall (λ e, i e = None ∧ o e = None) xs → Forall (λ e, i e = None ∧ o e = None) ys → tame i o (e1 :: xs ++ e2 :: ys).
Proof.
  intros Hi1 Ho1 Ho2 Hi2 Hxs Hys. pose proof (tame_silent i o xs Hxs) as [Ex Hx].
  assert (Hq : ∀ l, Forall (λ e, i e = None ∧ o e = None) l → omap i l = [] ∧ omap o l = []) by (induction 1 as [|e l [He1 He2] _ [IH1 IH2]]; simpl; rewrite ?He1, ?He2; done).
  destruct (Hq xs Hxs) as [Hxi Hxo], (Hq ys Hys) as [Hyi Hyo]. split; [rewrite !omap_step, !omap_app, !omap_step; by rewrite Hi1, Ho1, Hi2, Ho2, Hxi, Hxo, Hyi, Hyo|].
  intros [|x p] Hp; [by apply lag_none|]. pose proof (prefix_cons_inv_1 _ _ _ _ Hp) as ->. apply prefix_cons_inv_2, prefix_app_cases in Hp as [Hp|(q & -> & Hq')].
  - apply (lag_one _ _ _ m). destruct (Hq p) as [Hpi Hpo]; [destruct Hp as [k ->]; by apply Forall_app in Hxs as [? _]|]. rewrite !omap_step. by rewrite Hi1, Ho1, Hpi, Hpo.
  - destruct q as [|x q].
    + apply (lag_one _ _ _ m). rewrite !omap_step. by rewrite app_nil_r, Hi1, Ho1, Hxi, Hxo.
    + pose proof (prefix_cons_inv_1 _ _ _ _ Hq') as ->. apply prefix_cons_inv_2 in Hq'. destruct (Hq q) as [Hqi Hqo]; [destruct Hq' as [k ->]; by apply Forall_app in Hys as [? _]|].
      apply lag_none. rewrite !omap_step, !omap_app, !omap_step. by rewrite Hi1, Ho1, Hi2, Ho2, Hxi, Hxo, Hqi, Hqo.
Qed.

Section meaning.
Context (frontend backend : nat) (capture control : option nat) (i o : pev → option (list Z)).

Lemma tame_burst from to ms : (∀ m more, tame i o (frame_events capture from to m more)) → tame i o (burst_events capture from to ms).
Proof.
  intros Hf. assert (Hm : ∀ m rest, tame i o (message_events capture from to m rest)).
  { intros m rest. revert m. induction rest as [|m' rest IH]; intros m; cbn [message_events]; [done|]. by apply tame_app. }
  induction ms as [|[m rest] ms IH]; [apply tame_nil|]. rewrite burst_cons. by apply tame_app.
Qed.

Lemma tame_trace s st log :
  (∀ m more, tame i o (frame_events capture frontend backend m more)) → (∀ m more, tame i o (frame_events capture backend frontend m more)) →
  (∀ ctl c, control = Some ctl → i (Got ctl c) = None ∧ o (Got ctl c) = None ∧ ∀ more, i (Sent ctl c more) = None ∧ o (Sent ctl c more) = None) →
  trace frontend backend capture control s st log → tame i o log.
Proof.
  intros H1 H2 H3. induction 1 as [|ms st log _ IH|ms st log _ IH|ctl c s st log Hc _ _ IH]; [apply tame_nil|apply tame_app; [done|by apply tame_burst]..|]. apply tame_app; [done|].
  apply tame_silent. constructor; [by destruct (H3 ctl c Hc) as (? & ? & _)|]. unfold answer. case_decide; [|by constructor; [destruct (H3 ctl [] Hc) as (_ & _ & ?)|constructor]].
  generalize (le_bytes 8 <$> stat_vals st). intros parts. induction parts as [|m parts IHp]; [constructor|]. constructor; [by destruct (H3 ctl m Hc) as (_ & _ & ?)|done].
Qed.

End meaning.

Definition got_from (ss : list nat) (e : pev) : option (list Z) := match e with Got s m => if decide (s ∈ ss) then Some m else None | Sent _ _ _ => None end.
Definition sent_to (s : nat) (e : pev) : option (list Z) := match e with Sent s' m _ => if decide (s' = s) then Some m else None | Got _ _ => None end.

(** The sockets are four different ones. *)
Definition distinct (frontend backend : nat) (capture control : option nat) : Prop :=
  frontend ≠ backend ∧ (∀ c, capture = Some c → c ≠ frontend ∧ c ≠ backend ∧ control ≠ Some c) ∧ ∀ c, control = Some c → c ≠ frontend ∧ c ≠ backend.

Lemma extendable_meaning frontend backend capture control log : distinct frontend backend capture control → extendable frontend backend capture control log →
  lagging (got_from [frontend]) (sent_to backend) log ∧ lagging (got_from [backend]) (sent_to frontend) log
  ∧ ∀ c, capture = Some c → lagging (got_from [frontend; backend]) (sent_to c) log.
Proof.
  intros (Hfb & Hcap & Hctl) (s & st & log' & Htr & Hpre).
  assert (Hone : ∀ f b, f ≠ b → (∀ c, capture = Some c → c ≠ f ∧ c ≠ b) → ∀ m more,
    tame (got_from [f]) (sent_to b) (frame_events capture f b m more) ∧ tame (got_from [f]) (sent_to b) (frame_events capture b f m more)).
  { intros f b Hne Hc m more. unfold frame_events. split.
    - apply (tame_frame _ _ _ _ m _ []); simpl; rewrite ?decide_True by set_solver; try done. destruct capture as [c|]; [|constructor]. destruct (Hc c eq_refl). constructor; [|constructor]. simpl. by rewrite decide_False.
    - apply tame_silent. constructor; [simpl; rewrite decide_False by set_solver; done|]. apply Forall_app. split; [|constructor; [simpl; by rewrite decide_False|constructor]].
      destruct capture as [c|]; [|constructor]. destruct (Hc c eq_refl). constructor; [|constructor]. simpl. by rewrite decide_False. }
  split; [|split].
  - eapply tame_trace in Htr as [_ Ht]; [by apply Ht| | |].
    + intros. apply Hone; [done|]. intros c Hc. by destruct (Hcap c Hc) as (? & ? & _).
    + intros. apply Hone; [done|]. intros c Hc. by destruct (Hcap c Hc) as (? & ? & _).
    + intros ctl c Hc. destruct (Hctl ctl Hc). simpl. rewrite !decide_False by set_solver. done.
  - eapply tame_trace in Htr as [_ Ht]; [by apply Ht| | |].
    + intros. apply Hone; [done|]. intros c Hc. by destruct (Hcap c Hc) as (? & ? & _).
    + intros. apply Hone; [done|]. intros c Hc. by destruct (Hcap c Hc) as (? & ? & _).
    + intros ctl c Hc. destruct (Hctl ctl Hc). simpl. rewrite !decide_False by set_solver. done.
  - intros c Hc. destruct (Hcap c Hc) as (Hcf & Hcb & Hcc). assert (Hfr : ∀ f b m more, f ∈ [frontend; backend] → c ≠ b → tame (got_from [frontend; backend]) (sent_to c) (frame_events capture f b m more)).
    { intros f b m more Hf Hb. unfold frame_events. rewrite Hc. apply (tame_frame _ _ _ _ m [] [_]); simpl; rewrite ?decide_True by done; try done. constructor; [|constructor]. simpl. by rewrite decide_False. }
    eapply tame_trace in Htr as [_ Ht]; [by apply Ht| | |].
    + intros. apply Hfr; [set_solver|done].
    + intros. apply Hfr; [set_solver|done].
    + intros ctl x Hx. destruct (Hctl ctl Hx). simpl. rewrite !decide_False; [done| |]; [congruence|set_solver].
Qed.

(** ** Work is not slept on *)

Section serving.
Context {W : Type} `{!ProxyWorld W} `{!ProxyWorldOk W} `{!ProxyWorldReady W} (frontend backend : nat) (capture control : option nat).

Definition request_possible (w : W) : bool := has (px_ready w frontend) SL_POLLIN && (has (px_ready w backend) SL_POLLOUT || bool_decide (frontend = backend)).
Definition reply_possible (w : W) : bool := has (px_ready w backend) SL_POLLIN && has (px_ready w frontend) SL_POLLOUT && negb (bool_decide (frontend = backend)).

Lemma has_land a b : has a b = true ↔ Z.land a b ≠ 0.
Proof. unfold has. case_bool_decide; naive_solver. Qed.

Lemma has_sub (events r : Z) (bit : Z) : Z.land events bit = bit → has r bit = true → has events r = true ∧ has (Z.land events r) bit = true.
Proof.
  rewrite !has_land. intros Hb Hr. assert (E : Z.land (Z.land events r) bit = Z.land r bit) by (rewrite <- Z.land_assoc, (Z.land_comm r bit), Z.land_assoc, Hb; done).
  split; [|by rewrite E]. intros E0. apply Hr. by rewrite <- E, E0, Z.land_0_l.
Qed.

Lemma has_masked (r bit : Z) : Z.land both_ways bit = bit → has (Z.land both_ways r) bit = has r bit.
Proof. intros Hb. unfold has. by rewrite <- Z.land_assoc, (Z.land_comm r bit), Z.land_assoc, Hb. Qed.

Lemma reported_cons (ready : nat → Z) s u ev T : has ev (ready s) = true → reported ready (Entry (KSock s) u ev :: T) = (s, Z.land ev (ready s)) :: reported ready T.
Proof. intros H. unfold reported. cbn. by rewrite H. Qed.

Lemma reported_skip (ready : nat → Z) s u ev T : has ev (ready s) = false → reported ready (Entry (KSock s) u ev :: T) = reported ready T.
Proof. intros H. unfold reported. cbn. by rewrite H. Qed.

Lemma reported_some (ready : nat → Z) T s u ev bit : Entry (KSock s) u ev ∈ T → Z.land ev bit = bit → has (ready s) bit = true → reported ready T ≠ [].
Proof.
  intros Hin Hb Hr E. destruct (has_sub ev (ready s) bit Hb Hr) as [H _]. assert (Hrep : (s, Z.land ev (ready s)) ∈ reported ready T).
  { unfold reported. apply list_elem_of_omap. exists (Entry (KSock s) u ev). split; [done|]. simpl. by rewrite H. }
  rewrite E in Hrep. by apply elem_of_nil in Hrep.
Qed.

Lemma entries_elem id s ev l : (id, s, ev) ∈ l → Entry (KSock s) 0 ev ∈ entries id l.
Proof. intros H. apply (list_elem_of_fmap_2 (λ x : poller_id * nat * Z, Entry (KSock x.1.2) 0 x.2) _ (id, s, ev)), list_elem_of_filter. done. Qed.

Ltac in_list := repeat first [apply list_elem_of_here | apply list_elem_of_further].

(** Whichever poller the proxy waits with, it wakes up for work. *)
Lemma poller_covers id w : id ≠ PAll → (frontend = backend → id = PIn) → request_possible w || reply_possible w = true → reported (px_ready w) (poller_table frontend backend control id) ≠ [].
Proof.
  intros Hall Heq Hwork. unfold request_possible, reply_possible in Hwork. destruct (decide (frontend = backend)) as [E|E].
  - rewrite (Heq E). rewrite !(bool_decide_true _ E), orb_true_r, andb_true_r, andb_false_r, orb_false_r in Hwork. apply (reported_some _ _ frontend 0 SL_POLLIN SL_POLLIN); [|done|done].
    unfold poller_table, adds, equal. rewrite bool_decide_true by done. left.
  - rewrite !(bool_decide_false _ E), orb_false_r, andb_true_r in Hwork. apply orb_true_iff in Hwork.
    assert (Hany : ∀ s ev bit, (id, s, ev) ∈ adds frontend backend control → Z.land ev bit = bit → has (px_ready w s) bit = true → reported (px_ready w) (poller_table frontend backend control id) ≠ []).
    { intros s ev bit Hin. eapply reported_some. by apply entries_elem. }
    unfold adds, equal in Hany. rewrite bool_decide_false in Hany by done.
    destruct id; [done|..]; destruct Hwork as [[Hi Ho]%andb_true_iff|[Hi Ho]%andb_true_iff].
    + apply (Hany frontend SL_POLLIN SL_POLLIN); [in_list|done|done].
    + apply (Hany backend SL_POLLIN SL_POLLIN); [in_list|done|done].
    + apply (Hany backend both_ways SL_POLLOUT); [in_list|done|done].
    + apply (Hany backend both_ways SL_POLLIN); [in_list|done|done].
    + apply (Hany backend SL_POLLOUT SL_POLLOUT); [in_list|done|done].
    + apply (Hany frontend both_ways SL_POLLOUT); [in_list|done|done].
    + apply (Hany backend SL_POLLOUT SL_POLLOUT); [in_list|done|done].
    + apply (Hany frontend SL_POLLOUT SL_POLLOUT); [in_list|done|done].
    + apply (Hany frontend both_ways SL_POLLIN); [in_list|done|done].
    + apply (Hany frontend both_ways SL_POLLOUT); [in_list|done|done].
    + apply (Hany backend both_ways SL_POLLOUT); [in_list|done|done].
    + apply (Hany backend both_ways SL_POLLIN); [in_list|done|done].
Qed.

(** No command is waiting. *)
Definition no_command (w : W) : Prop := ∀ c, control = Some c → has (px_ready w c) SL_POLLIN = false.

Lemma has_comm a b : has a b = has b a.
Proof. unfold has. by rewrite Z.land_comm. Qed.

Lemma reported_control w : no_command w → reported (px_ready w) (entries PAll (match control with None => [] | Some c => [(PAll, c, SL_POLLIN)] end)) = [].
Proof. unfold no_command. intros H. destruct control as [c|]; [|done]. change (reported (px_ready w) [Entry (KSock c) 0 SL_POLLIN] = []). specialize (H c eq_refl). rewrite has_comm in H. by rewrite reported_skip. Qed.

Lemma all_table : poller_table frontend backend control PAll =
  Entry (KSock frontend) 0 both_ways :: (if equal frontend backend then [] else [Entry (KSock backend) 0 both_ways]) ++ entries PAll (match control with None => [] | Some c => [(PAll, c, SL_POLLIN)] end).
Proof. unfold poller_table, adds. by destruct (equal frontend backend), control. Qed.

Context (Hctl : ∀ c, control = Some c → c ≠ frontend ∧ c ≠ backend).

(** If there is work all the flags that matter are fresh. *)
Lemma process_fresh l w : no_command w → request_possible w || reply_possible w = true →
  ∃ l', process_events frontend backend control (reported (px_ready w) (poller_table frontend backend control PAll)) l w = (RcOk, l', w) ∧ lp_state l' = lp_state l ∧ lp_stats l' = lp_stats l
    ∧ lp_frontend_in l' = has (px_ready w frontend) SL_POLLIN ∧ lp_frontend_out l' = has (px_ready w frontend) SL_POLLOUT
    ∧ (frontend ≠ backend → lp_backend_in l' = has (px_ready w backend) SL_POLLIN ∧ lp_backend_out l' = has (px_ready w backend) SL_POLLOUT).
Proof.
  intros Hno Hwork. rewrite all_table. unfold equal. assert (Hnf : control ≠ Some frontend) by (intros E; by destruct (Hctl _ E)). assert (Hnb : control ≠ Some backend) by (intros E; by destruct (Hctl _ E)).
  assert (Hany : ∀ s bit, Z.land both_ways bit = bit → has (px_ready w s) bit = true → has both_ways (px_ready w s) = true) by (intros s bit H1 H2; by destruct (has_sub _ _ _ H1 H2)).
  unfold request_possible, reply_possible in Hwork. destruct (decide (frontend = backend)) as [E|E].
  - rewrite !(bool_decide_true _ E) in *. rewrite orb_true_r, andb_true_r, andb_false_r, orb_false_r in Hwork. rewrite reported_cons by (by apply (Hany _ SL_POLLIN)). cbn [app]. rewrite reported_control by done. cbn [process_events].
    rewrite decide_False by done. rewrite decide_True by done. eexists. split; [done|]. simpl. rewrite !has_masked by done. done.
  - rewrite !(bool_decide_false _ E) in *. rewrite orb_false_r, andb_true_r in Hwork. assert (H2 : has both_ways (px_ready w frontend) = true ∧ has both_ways (px_ready w backend) = true).
    { apply orb_true_iff in Hwork as [[Hi Ho]%andb_true_iff|[Hi Ho]%andb_true_iff]; split; by eapply Hany; [|done]. }
    destruct H2 as [Hf Hb]. rewrite reported_cons by done. cbn [app]. rewrite reported_cons, reported_control by done. cbn [process_events]. 
    rewrite (decide_False (P := control = Some frontend)), (decide_True (P := frontend = frontend)), (decide_False (P := control = Some backend)), (decide_False (P := backend = frontend)),
      (decide_True (P := backend = backend)) by done. eexists. split; [done|]. simpl. rewrite !has_masked by done. done.
Qed.

Lemma forward_takes fuel i from to rv sn w : has (px_ready w from) SL_POLLIN = true → (0 < fuel)%nat →
  ∃ m ev, px_log (forward capture fuel i from to rv sn w).2 = px_log w ++ Got from m :: ev.
Proof.
  intros Hr Hf. destruct fuel as [|fuel]; [lia|]. destruct (px_recv_ready from w Hr) as (m & w1 & E). pose proof (px_recv_ok from w) as Hrec. rewrite E in Hrec. destruct Hrec as (Hl & _ & _).
  exists m. cbn [forward]. rewrite E. assert (Hext : ∀ w', px_log w1 `prefix_of` px_log w' → ∃ ev, px_log w' = px_log w ++ Got from m :: ev) by (intros w' [k Hk]; exists k; by rewrite Hk, Hl, <- app_assoc).
  assert (Hfw : ∀ i rv sn w2, px_log w2 `prefix_of` px_log (forward capture fuel i from to rv sn w2).2).
  { intros i' rv' sn' w2. pose proof (forward_spec capture fuel i' from to rv' sn' w2) as H. destruct (forward capture fuel i' from to rv' sn' w2) as [[r [? ?]] w']. destruct H as (_ & ms & ev & Hl' & _). by exists ev. }
  destruct (px_rcvmore from w1) as [more|e]; [|by apply Hext]. pose proof (capture_message_spec capture m more w1) as Hc. destruct (capture_message capture m more w1) as [rc w2]. destruct Hc as [_ Hl2].
  assert (H2 : px_log w1 `prefix_of` px_log w2) by (by eexists). destruct rc as [|e]; [|by apply Hext]. pose proof (px_send_ok to m more w2) as Hs. destruct (px_send to m more w2) as [rc w3]. destruct Hs as [_ Hl3].
  assert (H3 : px_log w1 `prefix_of` px_log w3) by (etrans; [exact H2|by eexists]). destruct rc as [|e]; [|by apply Hext]. apply Hext. destruct more; [etrans; [exact H3|apply Hfw]|]. case_decide; [etrans; [exact H3|apply Hfw]|done].
Qed.

Lemma forward_both_takes fuel l w : loop_ok frontend backend capture control l w → lp_state l = active → (0 < fuel)%nat → request_possible w || reply_possible w = true →
  lp_frontend_in l = has (px_ready w frontend) SL_POLLIN → lp_frontend_out l = has (px_ready w frontend) SL_POLLOUT →
  (frontend ≠ backend → lp_backend_in l = has (px_ready w backend) SL_POLLIN ∧ lp_backend_out l = has (px_ready w backend) SL_POLLOUT) →
  ∃ s m ev, (s = frontend ∨ s = backend) ∧ px_log (forward_both frontend backend capture fuel l w).2 = px_log w ++ Got s m :: ev.
Proof.
  intros Hok Ha Hfuel Hwork Hfi Hfo Hbk. unfold forward_both. set (req := lp_frontend_in l && (lp_backend_out l || equal frontend backend)).
  assert (Hreq : request_possible w = req).
  { unfold req, request_possible, equal. rewrite Hfi. case_bool_decide as E; [by rewrite !orb_true_r|]. destruct (Hbk E) as [_ ->]. done. }
  destruct req.
  - unfold request_possible in Hreq. apply andb_true_iff in Hreq as [Hin _]. destruct (forward_takes fuel 0 frontend backend (se_recv (sp_frontend (lp_stats l))) (se_send (sp_backend (lp_stats l))) w Hin Hfuel) as (m & ev & Hl).
    destruct (forward capture fuel 0 frontend backend _ _ w) as [[r1 [rv sn]] w1]. simpl in Hl. destruct r1 as [[|e]|]; [|by exists frontend, m, ev; auto|by exists frontend, m, ev; auto].
    cbn [lp_backend_in lp_frontend_out lp_stats]. destruct (lp_backend_in l && lp_frontend_out l); [|by exists frontend, m, ev; auto].
    set (st := StatsProxy _ _). pose proof (forward_spec capture fuel 0 backend frontend (se_recv (sp_backend st)) (se_send (sp_frontend st)) w1) as H.
    destruct (forward capture fuel 0 backend frontend (se_recv (sp_backend st)) (se_send (sp_frontend st)) w1) as [[r2 [rv2 sn2]] w2]. destruct H as (_ & ms & ev2 & Hl2 & _). exists frontend, m, (ev ++ ev2). split; [by left|].
    assert (E : px_log w2 = px_log w ++ Got frontend m :: ev ++ ev2) by (by rewrite Hl2, Hl, <- app_assoc). by destruct r2 as [[]|].
  - rewrite Hreq in Hwork. simpl in Hwork. unfold reply_possible in Hwork. apply andb_true_iff in Hwork as [[Hi Ho]%andb_true_iff Hne]. apply negb_true_iff, bool_decide_eq_false in Hne. destruct (Hbk Hne) as [Hbi _].
    cbn [lp_backend_in lp_frontend_out lp_stats]. rewrite Hbi, Hfo, Hi, Ho. cbn [andb].
    destruct (forward_takes fuel 0 backend frontend (se_recv (sp_backend (lp_stats l))) (se_send (sp_frontend (lp_stats l))) w Hi Hfuel) as (m & ev & Hl).
    destruct (forward capture fuel 0 backend frontend _ _ w) as [[r1 [rv sn]] w1]. simpl in Hl. exists backend, m, ev. split; [by right|]. by destruct r1 as [[]|].
Qed.

End serving.

(** ** The claims *)

(** The answers to a command that have the bytes of these statistics: the counts may be others. *)
Definition same_bytes (st st' : stats_proxy) : Prop :=
  let bytes s := (ss_bytes (se_send (sp_frontend s)), ss_bytes (se_recv (sp_frontend s)), ss_bytes (se_send (sp_backend s)), ss_bytes (se_recv (sp_backend s))) in
  bytes st = bytes st'.

(** What a proxy promises: [trace], with nothing said on the numbers of messages in an answer to STATISTICS. *)
Inductive conversation (frontend backend : nat) (capture control : option nat) : proxy_state_t → stats_proxy → list pev → Prop :=
| cv_start : conversation frontend backend capture control active (lp_stats loop_new) []
| cv_request ms st log : conversation frontend backend capture control active st log →
    conversation frontend backend capture control active (count_request ms st) (log ++ burst_events capture frontend backend ms)
| cv_reply ms st log : conversation frontend backend capture control active st log →
    conversation frontend backend capture control active (count_reply ms st) (log ++ burst_events capture backend frontend ms)
| cv_command ctl c s st st' log : control = Some ctl → s ≠ terminated → same_bytes st st' → conversation frontend backend capture control s st log →
    conversation frontend backend capture control (command_state c s) st (log ++ Got ctl c :: answer ctl c st').

Definition begins_conversation (frontend backend : nat) (capture control : option nat) (log : list pev) : Prop :=
  ∃ s st log', conversation frontend backend capture control s st log' ∧ log `prefix_of` log'.

Lemma trace_conversation frontend backend capture control s st log : trace frontend backend capture control s st log → conversation frontend backend capture control s st log.
Proof. induction 1; [constructor|by constructor|by constructor|by eapply cv_command]. Qed.

(** C36: the proxy moves every message once, whole and in order.  Assumed: nothing was received or sent before and no socket stands in the middle of
    a message; the control socket, if there is one, is neither the frontend nor the backend; once the first frame of a message can be received from a socket, asking for the next one does not answer EAGAIN (it may
    fail otherwise).  Then the registration of the sockets and the loop run without an undefined step, however often the loop is run, and what the proxy has received and sent is the beginning of a sequence of whole messages taken from one of
    the two sockets and, frame by frame, copied to the capture socket (if there is one) and sent to the other one, moved while the state is active, and of commands with their answers: an empty message or, to STATISTICS, eight numbers of which
    the four totals of bytes are those of exactly these messages (the four counts are of frames, and nothing is said on them here).  It returns 0 only after TERMINATE, with nothing cut short.  If moreover all the sockets are different ones
    (frontend and backend, the capture socket and all others), then at any time at most one frame has been received from a side and not yet sent to the other, everything else in order, and likewise for the capture socket. *)
Theorem proxy_forwards {W} `{!ProxyWorld W} `{!ProxyWorldOk W} frontend backend capture control n fuel (w : W) :
  px_log w = [] → (∀ s, px_mid w s = false) → (∀ c, control = Some c → c ≠ frontend ∧ c ≠ backend) →
  ∃ r l w', proxy_steerable frontend backend capture control n fuel w = Done (r, l, w') ∧ begins_conversation frontend backend capture control (px_log w')
    ∧ (r = SReturned RcOk → ∃ st, same_bytes (lp_stats l) st ∧ conversation frontend backend capture control terminated st (px_log w'))
    ∧ (distinct frontend backend capture control →
        lagging (got_from [frontend]) (sent_to backend) (px_log w') ∧ lagging (got_from [backend]) (sent_to frontend) (px_log w')
        ∧ ∀ c, capture = Some c → lagging (got_from [frontend; backend]) (sent_to c) (px_log w')).
Proof.
  intros H0 Hm Hctl. unfold proxy_steerable. destruct (setup_tables frontend backend control Hctl) as (ps & -> & _).
  assert (Hok : loop_ok frontend backend capture control loop_new w) by (split; [rewrite H0; constructor|done..]).
  destruct (proxy_loop_spec frontend backend capture control Hctl n fuel ps loop_new w Hok) as (r & l & w' & E & Hr).
  assert (Hext : extendable frontend backend capture control (px_log w')). { destruct r as [|[|e]|]; [done| |done|done]. by eexists _, _, _. }
  exists r, l, w'. split; [done|]. split; [destruct Hext as (s & st & log' & Ht%trace_conversation & Hp); by exists s, st, log'|].
  split; [intros ->; exists (lp_stats l); split; [done|by apply trace_conversation]|]. intros Hd. by apply (extendable_meaning frontend backend capture control).
Qed.

(** What the loop can come to; [others] may do what they like to the sockets while it waits. *)
Inductive proxy_reach {W} `{!ProxyWorld W} `{!ProxyWorldOk W} (frontend backend : nat) (capture control : option nat) (ps : pollers) : loop_t → W → Prop :=
| pr_start w : px_log w = [] → (∀ s, px_mid w s = false) → proxy_reach frontend backend capture control ps loop_new w
| pr_step fuel l w l' w' : proxy_reach frontend backend capture control ps l w → lp_state l ≠ terminated →
    iteration frontend backend capture control fuel ps l w = Done (SGo, l', w') → proxy_reach frontend backend capture control ps l' w'.

Lemma reach_loop_ok {W} `{!ProxyWorld W} `{!ProxyWorldOk W} frontend backend capture control ps l (w : W) : (∀ c, control = Some c → c ≠ frontend ∧ c ≠ backend) →
  proxy_reach frontend backend capture control ps l w → loop_ok frontend backend capture control l w.
Proof.
  intros Hctl. induction 1 as [w H0 Hm|fuel l w l' w' _ IH Hnt E]; [split; [rewrite H0; constructor|done..]|].
  destruct (iteration_spec frontend backend capture control Hctl fuel ps l w IH Hnt) as (r & l1 & w1 & E1 & Hr). rewrite E1 in E. by injection E as -> -> ->.
Qed.

(** The proxy does not sleep on work. Whichever of its seven pollers it waits with, the poller reports an event whenever one side has input and the other takes output; and if that is so when it looks at all sockets, it is active and no command
    is waiting, the iteration takes a frame from one of the two sides. *)
Lemma proxy_serves_work {W} `{!ProxyWorld W} `{!ProxyWorldOk W} `{!ProxyWorldReady W} frontend backend capture control ps l (w : W) :
  (∀ c, control = Some c → c ≠ frontend ∧ c ≠ backend) → setup (adds frontend backend control) (λ _, poller_new) = (RcOk, ps) → proxy_reach frontend backend capture control ps l w →
  (∀ w1, request_possible frontend backend w1 || reply_possible frontend backend w1 = true → reported (px_ready w1) (table (ps (lp_wait l))) ≠ [])
  ∧ ∀ fuel es w1 es' w2, lp_state l = active → (0 < fuel)%nat → px_wait (table (ps (lp_wait l))) (-1) w = (inl es, w1) → px_wait (table (ps PAll)) 0 w1 = (inl es', w2) →
      no_command control w2 → request_possible frontend backend w2 || reply_possible frontend backend w2 = true →
      ∃ r l' w' s m ev, iteration frontend backend capture control fuel ps l w = Done (r, l', w') ∧ (s = frontend ∨ s = backend) ∧ px_log w' = px_log w ++ Got s m :: ev.
Proof.
  intros Hctl Hps Hreach. pose proof (reach_loop_ok _ _ _ _ _ _ _ Hctl Hreach) as Hok. destruct (setup_tables frontend backend control Hctl) as (ps' & Hps' & HT). rewrite Hps in Hps'. injection Hps' as <-. split.
  - intros w1 Hw. rewrite HT. apply poller_covers; [apply (lo_wait _ _ _ _ _ _ Hok)|intros E; by destruct (lo_equal _ _ _ _ _ _ Hok E)|done].
  - intros fuel es w1 es' w2 Ha Hf E1 E2 Hno Hwork. unfold iteration. assert (Hnull : poller_null frontend backend (lp_wait l) = false).
    { unfold poller_null, equal. case_bool_decide as E; [|done]. by destruct (lo_equal _ _ _ _ _ _ Hok E) as [-> _]. }
    rewrite Hnull, E1. simpl. rewrite E2. simpl. pose proof (px_wait_keeps (table (ps (lp_wait l))) (-1) w) as H1. rewrite E1 in H1. cbn [snd] in H1; destruct H1 as [Hl1 Hm1].
    pose proof (px_wait_keeps (table (ps PAll)) 0 w1) as H2. rewrite E2 in H2. cbn [snd] in H2; destruct H2 as [Hl2 Hm2]. pose proof (px_wait_ready (table (ps PAll)) 0 w1) as H3. rewrite E2 in H3. rewrite H3, HT. clear H3.
    assert (Hok2 : loop_ok frontend backend capture control l w2) by (destruct Hok; split; [by rewrite Hl2, Hl1|by rewrite Hm2, Hm1|by rewrite Hm2, Hm1|done|done]).
    destruct (process_fresh frontend backend control Hctl l w2 Hno Hwork) as (l3 & E3 & Hst & Hss & Hfi & Hfo & Hb). rewrite E3, Hst, decide_True by done.
    pose proof (process_events_spec frontend backend capture control Hctl (reported (px_ready w2) (poller_table frontend backend control PAll)) l w2 Hok2) as Hok3. rewrite E3, Ha in Hok3. specialize (Hok3 ltac:(done)).
    destruct (forward_both_takes frontend backend capture control fuel l3 w2 Hok3) as (s & m & ev & Hs & Hl); [congruence|done|done|done|done|done|].
    destruct (forward_both frontend backend capture fuel l3 w2) as [[r l4] w4]. exists r, l4, w4, s, m, ev. split; [done|]. split; [done|]. simpl in Hl. by rewrite Hl, Hl2, Hl1.
Qed.

(** ** Sockets to run it with *)

Module Queues.

(** What each socket has to be received, with whether more follows, the last such answer, and the log. *)
Record queues := Q { q_in : gmap nat (list (list Z * bool)); q_more : gmap nat bool; q_log : list pev }.

Definition q_ready (w : queues) (s : nat) : Z := if decide (default [] (q_in w !! s) = []) then SL_POLLOUT else both_ways.

#[export] Instance queues_world : ProxyWorld queues := {
  px_recv s w :=
    match default [] (q_in w !! s) with
    | [] => (inr (if default false (q_more w !! s) then ETERM else EAGAIN), w)
    | (m, b) :: l => (inl m, Q (<[s := l]> (q_in w)) (<[s := b]> (q_more w)) (q_log w ++ [Got s m]))
    end;
  px_rcvmore s w := inl (default false (q_more w !! s));
  px_send s m more w := (RcOk, Q (q_in w) (q_more w) (q_log w ++ [Sent s m more]));
  px_wait T t w := match reported (q_ready w) T with [] => (inr EAGAIN, w) | es => (inl es, w) end;
}.

#[export] Instance queues_ok : ProxyWorldOk queues.
Proof.
  refine {| px_log := q_log; px_mid w s := default false (q_more w !! s) |}.
  - intros s w. simpl. destruct (default [] (q_in w !! s)) as [|[m b] l]; simpl.
    + split; [done|]. split; [done|]. by intros ->.
    + split; [done|]. split; [by intros b' [= <-]|]. intros s' Hs. by rewrite lookup_insert_ne.
  - intros s m more w. done.
  - intros T t w. simpl. by destruct (reported (q_ready w) T).
Defined.

#[export] Instance queues_ready : ProxyWorldReady queues.
Proof.
  refine {| px_ready := q_ready |}.
  - intros s w. simpl. unfold q_ready. destruct (default [] (q_in w !! s)) as [|[m b] l]; [done|]. intros _. by eexists _, _.
  - intros T t w. simpl. by destruct (reported (q_ready w) T) eqn:E.
Defined.

End Queues.

Import Queues.

(** A message of two frames from the frontend, and then TERMINATE. *)
Definition ex_queues : queues := Q {[ 1%nat := [([7], true); ([8], false)]; 4%nat := [(cmd_statistics, false); (cmd_terminate, false)] ]} ∅ [].

Lemma proxy_forwards_witness : ∃ r l w', proxy_steerable 1 2 (Some 3%nat) (Some 4%nat) 5 10 ex_queues = Done (r, l, w') ∧ r = SReturned RcOk
  ∧ ∃ st, same_bytes (lp_stats l) st ∧ conversation 1 2 (Some 3%nat) (Some 4%nat) terminated st (q_log w').
Proof.
  destruct (proxy_forwards 1 2 (Some 3%nat) (Some 4%nat) 5 10 ex_queues) as (r & l & w' & E & _ & Ht & _); [reflexivity|reflexivity|by intros c [= <-]|].
  exists r, l, w'. split; [exact E|]. assert (Hr : r = SReturned RcOk) by (vm_compute in E; by injection E as <- _ _). split; [exact Hr|exact (Ht Hr)].
Defined.

Definition ex_pollers : pollers := Eval vm_compute in (setup (adds 1 2 None) (λ _, poller_new)).2.

Lemma proxy_serves_work_witness : ∃ r l' w' s m ev, iteration 1 2 None None 10 ex_pollers loop_new ex_queues = Done (r, l', w') ∧ (s = 1%nat ∨ s = 2%nat) ∧ q_log w' = Got s m :: ev.
Proof.
  destruct (proxy_serves_work 1 2 None None (setup (adds 1 2 None) (λ _, poller_new)).2 loop_new ex_queues) as [_ H]; [by intros c [=]|vm_compute; reflexivity|by constructor|].
  apply (H 10%nat [(1%nat, 1)] ex_queues [(1%nat, 3); (2%nat, 2)] ex_queues); [reflexivity|lia|vm_compute; reflexivity|vm_compute; reflexivity|by intros c [=]|reflexivity].
Defined.

(** While it is paused the proxy does not wait: input that it will not take makes every [wait] return at once. *)
Lemma paused_spins : match iteration 1 2 None None 10 ex_pollers (lp_set_state paused loop_new) ex_queues with Done (SGo, l, w) => lp_state l = paused ∧ lp_wait l = PIn ∧ w = ex_queues | _ => False end.
Proof. vm_compute. done. Qed.
