(* ===== verification/Ctx.v ===== *)
(** The context (src/core/ctx.cpp) and the reaper (src/io/reaper.cpp): thread slots, options, the
    choice of an I/O thread, and the shutdown.  Inproc endpoints are in Endpoints.

    A slot holds the mailbox of its thread: the terminating thread, the reaper, an I/O thread or a socket.
    Sockets are known by a number; whether the mailbox of a new socket can be made is a parameter.  The
    shutdown is a system of the context, the reaper, its mailbox and the sockets in their phases. *)
From stdpp Require Import gmap.
From S2P Require Import Prelude SocketBase.

Local Open Scope sl_scope.

Definition SL_IO_THREADS : Z := 1.
Definition SL_MAX_SOCKETS : Z := 2.
Definition SL_SOCKET_LIMIT : Z := 3.
Definition SL_BLOCKY : Z := 70.
Definition SL_IPV6_CTX : Z := 42.
Definition SL_IO_THREADS_DFLT : Z := 1.
Definition SL_MAX_SOCKETS_DFLT : Z := 1023.

Definition term_tid : Z := 0.
Definition reaper_tid : Z := 1.
Definition slot_count : nat := 1024.

Inductive mbox := MTerm | MReaper | MIo (i : nat) | MSock (s : nat).

Record sock := Sock { sk_id : nat; sk_tid : Z; sk_sid : Z }.

#[export] Instance sock_eq_dec : EqDecision sock.
Proof. solve_decision. Defined.

Record ctx_t := Ctx {
  cx_sockets : list sock;
  cx_empty_slots : list Z;              (* the back of the vector is the last element *)
  cx_starting : bool;
  cx_terminating : bool;
  cx_reaper : bool;                     (* it has been made *)
  cx_io_threads : nat;                  (* how many have been made *)
  cx_slots : list (option mbox);
  cx_max_sockets : Z;
  cx_io_thread_count : Z;
  cx_blocky : bool;
  cx_ipv6 : bool;
  cx_max_socket_id : Z;                 (* static, 32 bits; that its number overflows an [int] after 2^31 sockets is left out *)
  cx_next : nat;                        (* the number of the next socket *)
}.

Definition ctx_new (max_socket_id : Z) : ctx_t := Ctx [] [] true false false 0 [] SL_MAX_SOCKETS_DFLT SL_IO_THREADS_DFLT true false max_socket_id 0.

Definition cx_with (sockets : list sock) (empty : list Z) (slots : list (option mbox)) (msid : Z) (next : nat) (c : ctx_t) : ctx_t :=
  Ctx sockets empty (cx_starting c) (cx_terminating c) (cx_reaper c) (cx_io_threads c) slots (cx_max_sockets c) (cx_io_thread_count c) (cx_blocky c) (cx_ipv6 c) msid next.
Definition cx_set_terminating (c : ctx_t) : ctx_t :=
  Ctx (cx_sockets c) (cx_empty_slots c) (cx_starting c) true (cx_reaper c) (cx_io_threads c) (cx_slots c) (cx_max_sockets c) (cx_io_thread_count c) (cx_blocky c) (cx_ipv6 c) (cx_max_socket_id c) (cx_next c).
Definition cx_set_options (max io : Z) (blocky : bool) (c : ctx_t) : ctx_t :=
  Ctx (cx_sockets c) (cx_empty_slots c) (cx_starting c) (cx_terminating c) (cx_reaper c) (cx_io_threads c) (cx_slots c) max io blocky (cx_ipv6 c) (cx_max_socket_id c) (cx_next c).

(** ** Options *)

(** The length and the [int] at the address.  Other options are those of [thread_ctx_t], which accepts all of them. *)
Definition ctx_set (opt len v : Z) (c : ctx_t) : rc_t * ctx_t :=
  if cx_terminating c then (RcErr ETERM, c)
  else if decide (opt = SL_MAX_SOCKETS) then
    if decide (len ≠ 4 ∨ v < 1) then (RcErr EINVAL, c) else (RcOk, cx_set_options v (cx_io_thread_count c) (cx_blocky c) c)
  else if decide (opt = SL_IO_THREADS) then
    if decide (len ≠ 4 ∨ v < 0) then (RcErr EINVAL, c) else (RcOk, cx_set_options (cx_max_sockets c) v (cx_blocky c) c)
  else if decide (opt = SL_BLOCKY) then
    if decide (len ≠ 4) then (RcErr EINVAL, c) else (RcOk, cx_set_options (cx_max_sockets c) (cx_io_thread_count c) (negb (bool_decide (v = 0))) c)
  else (RcOk, c).

(** [get (option, optval, optvallen)]: a value, success without one, or -1 (errno is not set). *)
Inductive get_res := CGot (v : Z) | CNothing | CFail.

Definition ctx_get (opt len : Z) (c : ctx_t) : get_res :=
  if decide (opt = SL_MAX_SOCKETS) then if decide (len ≠ 4) then CFail else CGot (cx_max_sockets c)
  else if decide (opt = SL_IO_THREADS) then if decide (len ≠ 4) then CFail else CGot (cx_io_thread_count c)
  else if decide (opt = SL_SOCKET_LIMIT) then if decide (len ≠ 4) then CFail else CGot (cx_max_sockets c)
  else CNothing.

(** [get (option)], for new sockets *)
Definition ctx_get_int (opt : Z) (c : ctx_t) : Z :=
  if decide (opt = SL_MAX_SOCKETS) then cx_max_sockets c
  else if decide (opt = SL_IO_THREADS) then cx_io_thread_count c
  else if decide (opt = SL_IPV6_CTX) then (if cx_ipv6 c then 1 else 0)
  else if decide (opt = SL_BLOCKY) then (if cx_blocky c then 1 else 0)
  else -1.

(** ** Slots *)

(** [std::vector::resize] *)
Definition resize {A} (n : nat) (x : A) (l : list A) : list A := take n l ++ replicate (n - length l) x.

Fixpoint fill_io (n : nat) (i : nat) (slots : list (option mbox)) : list (option mbox) :=
  match n with O => slots | S n => fill_io n (S i) (<[(i + 2)%nat := Some (MIo i)]> slots) end.

Definition ctx_start (c : ctx_t) : ctx_t :=
  if cx_starting c then
    let n := Z.to_nat (cx_io_thread_count c) in
    let slots := <[0%nat := Some MTerm]> (resize (n + 2) None (cx_slots c)) in
    let slots := <[1%nat := Some MReaper]> (fill_io n 0 slots) in
    let empty := cx_empty_slots c ++ (Z.of_nat <$> seq (length slots) (slot_count - length slots)) in
    Ctx (cx_sockets c) empty false (cx_terminating c) true n (resize slot_count None slots) (cx_max_sockets c) (cx_io_thread_count c) (cx_blocky c) (cx_ipv6 c) (cx_max_socket_id c) (cx_next c)
  else c.

Definition SL_PAIR : Z := 0.
Definition SL_PUB : Z := 1.
Definition SL_SUB : Z := 2.
Definition SL_ROUTER : Z := 6.
Definition SL_XPUB : Z := 9.
Definition SL_XSUB : Z := 10.

(** [socket_base_t::create]; [mailbox] is the error of making the mailbox, if any. *)
Definition socket_create (type : Z) (mailbox : option errno_t) : rc_t :=
  if decide (type ∈ [SL_PAIR; SL_ROUTER; SL_PUB; SL_SUB; SL_XSUB; SL_XPUB]) then match mailbox with Some e => RcErr e | None => RcOk end else RcErr EINVAL.

Definition create_socket (type : Z) (mailbox : option errno_t) (c : ctx_t) : outcome ((sock + errno_t) * ctx_t) :=
  if cx_terminating c then Done (inr ETERM, c)
  else
    let c := if cx_starting c then ctx_start c else c in
    match last (cx_empty_slots c) with
    | None => Done (inr EMFILE, c)
    | Some slot =>
        let empty := take (pred (length (cx_empty_slots c))) (cx_empty_slots c) in
        let sid := s32 (s32 (cx_max_socket_id c) + 1) in
        let msid := u32 (cx_max_socket_id c + 1) in
        match socket_create type mailbox with
        | RcErr e => Done (inr e, cx_with (cx_sockets c) (empty ++ [slot]) (cx_slots c) msid (cx_next c) c)
        | RcOk =>
            let s := Sock (cx_next c) slot sid in
            slots ← seti (cx_slots c) slot (Some (MSock (cx_next c)));
            Done (inl s, cx_with (cx_sockets c ++ [s]) empty slots msid (S (cx_next c)) c)
        end
    end.

(** The reaper is asked to stop if the last socket goes while the context terminates. *)
Definition destroy_socket (s : sock) (c : ctx_t) : outcome (bool * ctx_t) :=
  slots ← seti (cx_slots c) (sk_tid s) None;
  let c := cx_with (filter (λ x, x ≠ s) (cx_sockets c)) (cx_empty_slots c ++ [sk_tid s]) slots (cx_max_socket_id c) (cx_next c) c in
  Done (cx_terminating c && bool_decide (cx_sockets c = []) && cx_reaper c, c).

(** Whether the reaper is asked to stop *)
Definition ctx_terminate (c : ctx_t) : bool * ctx_t :=
  if cx_terminating c then (false, c) else (bool_decide (cx_sockets c = []) && cx_reaper c, cx_set_terminating c).

Definition ctx_shutdown (c : ctx_t) : ctx_t := cx_set_terminating c.

Definition ctx_send_command (tid : Z) (c : ctx_t) : outcome mbox :=
  assert! (bool_decide (tid < Z.of_nat (length (cx_slots c)))) ;;
  slot ← geti (cx_slots c) tid;
  match slot with Some m => Done m | None => Abort end.

(** ** I/O threads *)

(** The loop from thread [i] on; a shift by 64 or more is undefined. *)
Fixpoint choose_loop (affinity : Z) (i : nat) (loads : list Z) (selected : option (nat * Z)) : outcome (option (nat * Z)) :=
  match loads with
  | [] => Done selected
  | load :: loads =>
      eligible ← (if decide (affinity = 0) then Done true else if decide (64 ≤ i)%nat then Undef else Done (Z.testbit affinity (Z.of_nat i)));
      if eligible : bool then
        choose_loop affinity (S i) loads (match selected with None => Some (i, load) | Some (j, min) => if decide (load < min) then Some (i, load) else Some (j, min) end)
      else choose_loop affinity (S i) loads selected
  end.

Definition choose_io_thread (affinity : Z) (loads : list Z) : outcome (option nat) := r ← choose_loop affinity 0 loads None; Done (match r with Some (i, _) => Some i | None => None end).

(** ** The slots are kept in order *)

(** The threads that take slots for themselves. *)
Definition threads (c : ctx_t) : Z := if cx_starting c then cx_io_thread_count c else Z.of_nat (cx_io_threads c).

Record started (c : ctx_t) : Prop := {
  sd_reaper : cx_reaper c = true;
  sd_length : length (cx_slots c) = slot_count;
  sd_term : cx_slots c !! 0%nat = Some (Some MTerm);
  sd_reap : cx_slots c !! 1%nat = Some (Some MReaper);
  sd_io : ∀ i, (i < cx_io_threads c)%nat → cx_slots c !! (i + 2)%nat = Some (Some (MIo i));
  sd_free : cx_empty_slots c ++ (sk_tid <$> cx_sockets c) ≡ₚ Z.of_nat <$> seq (cx_io_threads c + 2) (slot_count - 2 - cx_io_threads c);
  sd_sock : ∀ s, s ∈ cx_sockets c → cx_slots c !! Z.to_nat (sk_tid s) = Some (Some (MSock (sk_id s)));
  sd_ids : NoDup (sk_id <$> cx_sockets c);
  sd_next : ∀ s, s ∈ cx_sockets c → (sk_id s < cx_next c)%nat;
}.

Definition fresh (c : ctx_t) : Prop := cx_sockets c = [] ∧ cx_empty_slots c = [] ∧ cx_slots c = [] ∧ cx_reaper c = false.

Definition slots_ok (c : ctx_t) : Prop := 0 ≤ cx_io_thread_count c ∧ if cx_starting c then fresh c else (cx_io_threads c ≤ slot_count - 2)%nat → started c.

Lemma fill_io_spec n i slots j : (i + 2 + n ≤ length slots)%nat →
  length (fill_io n i slots) = length slots ∧ fill_io n i slots !! j = if decide (i + 2 ≤ j < i + 2 + n)%nat then Some (Some (MIo (j - 2))) else slots !! j.
Proof.
  revert i slots. induction n as [|n IH]; intros i slots Hl; simpl; [rewrite decide_False by lia; done|].
  destruct (IH (S i) (<[(i + 2)%nat := Some (MIo i)]> slots)) as [IH1 IH2]; [rewrite length_insert; lia|]. rewrite IH1, length_insert. split; [done|]. rewrite IH2. destruct (decide (j = i + 2)%nat) as [->|Hne].
  - rewrite decide_False by lia. rewrite decide_True by lia. rewrite list_lookup_insert_eq by lia. do 3 f_equal. lia.
  - rewrite list_lookup_insert_ne by lia. repeat case_decide; [done|lia|lia|done].
Qed.

Lemma start_ok c : cx_starting c = true → fresh c → 0 ≤ cx_io_thread_count c → cx_starting (ctx_start c) = false ∧ Z.of_nat (cx_io_threads (ctx_start c)) = cx_io_thread_count c
  ∧ cx_io_thread_count (ctx_start c) = cx_io_thread_count c ∧ ((cx_io_threads (ctx_start c) ≤ slot_count - 2)%nat → started (ctx_start c)).
Proof.
  intros Hs (Hsk & He & Hsl & _) Hio. unfold ctx_start. rewrite Hs, He, Hsl. set (n := Z.to_nat (cx_io_thread_count c)). simpl. split; [done|]. split; [lia|]. split; [done|]. intros Hn.
  set (l0 := <[0%nat := Some MTerm]> (resize (n + 2) None [])). assert (Hl0 : length l0 = (n + 2)%nat) by (unfold l0, resize; rewrite length_insert, length_app, length_replicate, length_take; simpl; lia).
  destruct (fill_io_spec n 0 l0 0) as [Hl1 H0]; [lia|]. set (l1 := <[1%nat := Some MReaper]> (fill_io n 0 l0)). assert (Hlen : length l1 = (n + 2)%nat) by (unfold l1; rewrite length_insert; lia).
  assert (Hlk : ∀ j x, l1 !! j = Some x → resize slot_count None l1 !! j = Some x).
  { intros j x Hj. unfold resize. rewrite (take_ge l1) by (rewrite Hlen; unfold slot_count in *; lia). by apply lookup_app_l_Some. }
  rewrite Hlen. split; cbn [cx_reaper cx_slots cx_empty_slots cx_sockets cx_io_threads cx_next]; rewrite ?Hsk.
  - done.
  - unfold resize. rewrite length_app, length_take, length_replicate, Hlen. unfold slot_count in *. lia.
  - apply Hlk. unfold l1. rewrite list_lookup_insert_ne by done. rewrite H0, decide_False by lia. unfold l0. apply list_lookup_insert_eq. unfold resize. rewrite length_app, length_take, length_replicate. simpl. lia.
  - apply Hlk. unfold l1. apply list_lookup_insert_eq. lia.
  - intros i Hi. apply Hlk. unfold l1. rewrite list_lookup_insert_ne by lia. destruct (fill_io_spec n 0 l0 (i + 2)) as [_ ->]; [lia|]. rewrite decide_True by lia. do 3 f_equal. lia.
  - simpl. rewrite app_nil_r. unfold slot_count in *. replace (1024 - (n + 2))%nat with (1024 - 2 - n)%nat by lia. done.
  - intros s Hin. by apply elem_of_nil in Hin.
  - constructor.
  - intros s Hin. by apply elem_of_nil in Hin.
Qed.

Lemma take_pred_last {A} (l : list A) x : last l = Some x → l = take (pred (length l)) l ++ [x].
Proof. intros [l' ->]%last_Some. rewrite length_app. simpl. replace (pred (length l' + 1)) with (length l') by lia. by rewrite take_app_length. Qed.

Lemma in_range (n : nat) t : t ∈ (Z.of_nat <$> seq (n + 2) (slot_count - 2 - n)) → (n + 2 ≤ Z.to_nat t < slot_count)%nat ∧ 0 ≤ t.
Proof. intros (i & -> & Hi%elem_of_seq)%list_elem_of_fmap. unfold slot_count in *. rewrite Nat2Z.id. lia. Qed.

Lemma started_free c : started c → NoDup (cx_empty_slots c ++ (sk_tid <$> cx_sockets c)).
Proof. intros H. rewrite (sd_free _ H). apply NoDup_fmap_2; [intros ? ?; lia|apply NoDup_seq]. Qed.

(** A slot that is given to a socket. *)
Lemma create_started c empty slot s sid msid : started c → (cx_io_threads c ≤ slot_count - 2)%nat → cx_empty_slots c = empty ++ [slot] → s = Sock (cx_next c) slot sid →
  ∃ slots, seti (cx_slots c) slot (Some (MSock (cx_next c))) = Done slots ∧ started (cx_with (cx_sockets c ++ [s]) empty slots msid (S (cx_next c)) c).
Proof.
  intros H Hn He ->. pose proof (started_free c H) as Hnd. assert (Hin : (cx_io_threads c + 2 ≤ Z.to_nat slot < slot_count)%nat ∧ 0 ≤ slot).
  { apply in_range. rewrite <- (sd_free _ H), He. set_solver. }
  destruct Hin as [Hr H0]. eexists. split; [apply seti_in_range; rewrite (sd_length _ H); unfold slot_count in *; lia|].
  assert (Hother : ∀ j x, j ≠ Z.to_nat slot → cx_slots c !! j = x → <[Z.to_nat slot := Some (MSock (cx_next c))]> (cx_slots c) !! j = x) by (intros j x Hj <-; by rewrite list_lookup_insert_ne).
  split; simpl; [apply (sd_reaper _ H)|by rewrite length_insert, (sd_length _ H)|apply Hother; [lia|apply (sd_term _ H)]|apply Hother; [lia|apply (sd_reap _ H)]| | | | |].
  - intros i Hi. apply Hother; [lia|by apply (sd_io _ H)].
  - rewrite <- (sd_free _ H), He, fmap_app. simpl. rewrite <- !app_assoc. apply Permutation_app_head. rewrite Permutation_app_comm. done.
  - intros x [Hx| ->%list_elem_of_singleton]%elem_of_app.
    + apply Hother; [|by apply (sd_sock _ H)]. intros E. assert (Hx2 : sk_tid x = slot).
      { apply Z2Nat.inj; [|lia|done]. assert (Hx2 : sk_tid x ∈ (Z.of_nat <$> seq (cx_io_threads c + 2) (slot_count - 2 - cx_io_threads c))) by (rewrite <- (sd_free _ H); apply elem_of_app; right; by apply list_elem_of_fmap_2). apply in_range in Hx2. lia. }
      rewrite He in Hnd. apply NoDup_app in Hnd as (_ & Hd & _). apply (Hd slot); [set_solver|]. rewrite <- Hx2. by apply list_elem_of_fmap_2.
    + simpl. rewrite list_lookup_insert_eq; [done|]. rewrite (sd_length _ H). lia.
  - rewrite fmap_app. apply NoDup_app. split; [apply (sd_ids _ H)|]. split; [|apply NoDup_singleton]. intros x (y & -> & Hy)%list_elem_of_fmap Hx. apply list_elem_of_singleton in Hx. simpl in Hx. pose proof (sd_next _ H y Hy). lia.
  - intros x [Hx| ->%list_elem_of_singleton]%elem_of_app; simpl; [pose proof (sd_next _ H x Hx); lia|lia].
Qed.

Lemma filter_one (l : list sock) s : NoDup l → s ∈ l → s :: filter (λ x, x ≠ s) l ≡ₚ l.
Proof.
  induction l as [|y l IH]; intros Hnd Hin; [by apply elem_of_nil in Hin|]. apply NoDup_cons in Hnd as [Hy Hnd]. rewrite filter_cons. case_decide as E.
  - apply elem_of_cons in Hin as [Hin|Hin]; [congruence|]. rewrite Permutation_swap. f_equiv. by apply IH.
  - destruct (decide (y = s)) as [->|]; [|tauto]. f_equiv. replace (filter (λ x, x ≠ s) l) with l; [done|]. symmetry. clear IH Hin E. induction l as [|z l IH]; [done|].
    apply NoDup_cons in Hnd as [_ Hnd]. rewrite filter_cons, decide_True by set_solver. f_equal. apply IH; [set_solver|done].
Qed.

Lemma destroy_started c s : started c → (cx_io_threads c ≤ slot_count - 2)%nat → s ∈ cx_sockets c →
  ∃ slots, seti (cx_slots c) (sk_tid s) None = Done slots ∧ started (cx_with (filter (λ x, x ≠ s) (cx_sockets c)) (cx_empty_slots c ++ [sk_tid s]) slots (cx_max_socket_id c) (cx_next c) c).
Proof.
  intros H Hn Hin. assert (Hnd : NoDup (cx_sockets c)) by (apply (NoDup_fmap_1 sk_id), (sd_ids _ H)).
  pose proof (filter_one _ s Hnd Hin) as Hperm. pose proof (started_free c H) as Hfree. apply NoDup_app in Hfree as (_ & _ & Htids).
  assert (Hr : ∀ x, x ∈ cx_sockets c → (cx_io_threads c + 2 ≤ Z.to_nat (sk_tid x) < slot_count)%nat ∧ 0 ≤ sk_tid x).
  { intros x Hx. apply in_range. rewrite <- (sd_free _ H). apply elem_of_app. right. by apply list_elem_of_fmap_2. }
  destruct (Hr s Hin) as [Hrs H0]. eexists. split; [apply seti_in_range; rewrite (sd_length _ H); unfold slot_count in *; lia|].
  assert (Hother : ∀ j x, j ≠ Z.to_nat (sk_tid s) → cx_slots c !! j = x → <[Z.to_nat (sk_tid s) := None]> (cx_slots c) !! j = x) by (intros j x Hj <-; by rewrite list_lookup_insert_ne).
  split; simpl; [apply (sd_reaper _ H)|by rewrite length_insert, (sd_length _ H)|apply Hother; [lia|apply (sd_term _ H)]|apply Hother; [lia|apply (sd_reap _ H)]| | | | |].
  - intros i Hi. apply Hother; [lia|by apply (sd_io _ H)].
  - rewrite <- (sd_free _ H). rewrite <- app_assoc. apply Permutation_app_head. simpl. by rewrite <- Hperm at 2.
  - intros x [Hne Hx]%list_elem_of_filter. apply Hother; [|by apply (sd_sock _ H)]. intros E. apply Hne. destruct (Hr x Hx) as [_ Hx0]. apply Z2Nat.inj in E; [|done|done].
    rewrite <- Hperm in Htids. simpl in Htids. apply NoDup_cons in Htids as [Ht _]. destruct Ht. rewrite <- E. apply list_elem_of_fmap_2, list_elem_of_filter. done.
  - pose proof (sd_ids _ H) as Hids. rewrite <- Hperm in Hids. simpl in Hids. by apply NoDup_cons in Hids as [_ ?].
  - intros x [_ Hx]%list_elem_of_filter. by apply (sd_next _ H).
Qed.

(** What can happen to a context: its owner's calls, and the destruction of sockets by the reaper. *)
Inductive cx_reach : ctx_t → Prop :=
| cr_new msid : cx_reach (ctx_new msid)
| cr_set opt len v c : cx_reach c → cx_reach (ctx_set opt len v c).2
| cr_create type mailbox c r c' : cx_reach c → create_socket type mailbox c = Done (r, c') → cx_reach c'
| cr_destroy s c b c' : cx_reach c → s ∈ cx_sockets c → destroy_socket s c = Done (b, c') → cx_reach c'
| cr_terminate c : cx_reach c → cx_reach (ctx_terminate c).2
| cr_shutdown c : cx_reach c → cx_reach (ctx_shutdown c).

(** A context whose sockets, slots and threads are the same. *)
Lemma slots_ok_same c c' : cx_sockets c' = cx_sockets c → cx_empty_slots c' = cx_empty_slots c → cx_starting c' = cx_starting c → cx_reaper c' = cx_reaper c → cx_io_threads c' = cx_io_threads c →
  cx_slots c' = cx_slots c → cx_next c' = cx_next c → 0 ≤ cx_io_thread_count c' → slots_ok c → slots_ok c'.
Proof.
  intros E1 E2 E3 E4 E5 E6 E7 H0 [_ H]. split; [done|]. rewrite E3. destruct (cx_starting c); [destruct H as (? & ? & ? & ?); split; [congruence|]; split; [congruence|]; split; congruence|].
  rewrite E5. intros Hn. destruct (H Hn). split; rewrite ?E1, ?E2, ?E4, ?E5, ?E6, ?E7; done.
Qed.

Lemma started_context c : slots_ok c → let c' := if cx_starting c then ctx_start c else c in
  cx_starting c' = false ∧ Z.of_nat (cx_io_threads c') = threads c ∧ 0 ≤ cx_io_thread_count c' ∧ ((cx_io_threads c' ≤ slot_count - 2)%nat → started c').
Proof.
  intros [H0 H]. unfold threads. destruct (cx_starting c) eqn:Es; [|done]. destruct (start_ok c Es H H0) as (H1 & H2 & H3 & H4). simpl. rewrite H3. done.
Qed.

(** The outcome of [create_socket]. *)
Lemma create_socket_spec type mailbox c : slots_ok c → threads c ≤ 1022 → cx_terminating c = false →
  let c1 := if cx_starting c then ctx_start c else c in
  ∃ r c', create_socket type mailbox c = Done (r, c') ∧ slots_ok c' ∧ cx_starting c' = false ∧ cx_io_threads c' = cx_io_threads c1 ∧
    if decide (cx_empty_slots c1 = []) then r = inr EMFILE ∧ cx_sockets c' = cx_sockets c1
    else match socket_create type mailbox with
         | RcErr e => r = inr e ∧ cx_sockets c' = cx_sockets c1 ∧ cx_empty_slots c' = cx_empty_slots c1
         | RcOk => ∃ s, r = inl s ∧ cx_sockets c' = cx_sockets c1 ++ [s] ∧ cx_empty_slots c1 = cx_empty_slots c' ++ [sk_tid s]
         end.
Proof.
  intros Hok Hth Ht. pose proof (started_context c Hok) as Hst. unfold create_socket. rewrite Ht. cbv zeta in Hst |- *. set (c1 := if cx_starting c then ctx_start c else c) in *. clearbody c1. destruct Hst as (Hs1 & Hn1 & Hio & Hstd).
  assert (Hn : (cx_io_threads c1 ≤ slot_count - 2)%nat) by (unfold slot_count; lia). specialize (Hstd Hn). pose proof (Permutation_length (sd_free _ Hstd)) as Hlen. rewrite length_app, !length_fmap, length_seq in Hlen.
  unfold slot_count in Hlen. destruct (last (cx_empty_slots c1)) as [slot|] eqn:El.
  - pose proof (take_pred_last _ _ El) as He. set (empty := take _ _) in *. destruct (decide (cx_empty_slots c1 = [])) as [E0|_]; [rewrite E0 in He; by destruct empty|]. destruct (socket_create type mailbox) as [|e].
    + destruct (create_started c1 empty slot (Sock (cx_next c1) slot (s32 (s32 (cx_max_socket_id c1) + 1))) (s32 (s32 (cx_max_socket_id c1) + 1)) (u32 (cx_max_socket_id c1 + 1)) Hstd Hn He eq_refl) as (slots & -> & Hstd').
      rewrite bind_Done. eexists _, _. split; [done|]. split; [split; [done|]; simpl; rewrite Hs1; by intros _|]. split; [done|]. split; [done|]. by eexists.
    + eexists _, _. split; [done|]. rewrite <- He. split; [|done]. apply (slots_ok_same c1); [done..|]. split; [done|]. by rewrite Hs1.
  - apply last_None in El. destruct (decide (cx_empty_slots c1 = [])); [|done]. eexists _, _. split; [done|]. split; [split; [done|]; by rewrite Hs1|done].
Qed.

Lemma create_no_slots type mailbox c r c' : slots_ok c → create_socket type mailbox c = Done (r, c') → threads c > 1022 → slots_ok c' ∧ cx_starting c' = cx_starting (if cx_terminating c then c else ctx_start c) .
Proof.
  intros Hok. unfold create_socket. destruct (cx_terminating c); [intros [= _ <-] _; done|]. pose proof (started_context c Hok) as Hst. cbv zeta in Hst. assert (E : (if cx_starting c then ctx_start c else c) = ctx_start c) by (unfold ctx_start; by destruct (cx_starting c)).
  rewrite E in *. set (c1 := ctx_start c) in *. clearbody c1. destruct Hst as (Hs1 & Hn1 & Hio & _). intros Ec Hth. assert (Hbig : ¬ (cx_io_threads c1 ≤ slot_count - 2)%nat) by (unfold slot_count; lia).
  assert (Hany : ∀ c2, cx_starting c2 = cx_starting c1 → cx_io_threads c2 = cx_io_threads c1 → cx_io_thread_count c2 = cx_io_thread_count c1 → slots_ok c2).
  { intros c2 E1 E2 E3. split; [by rewrite E3|]. rewrite E1, Hs1. intros Hc. rewrite E2 in Hc. done. }
  destruct (last (cx_empty_slots c1)); [|injection Ec as _ <-; split; [by apply Hany|done]]. destruct (socket_create type mailbox); [|injection Ec as _ <-; split; [by apply Hany|done]].
  apply bind_Done_inv in Ec as (slots & _ & [= _ <-]). split; [by apply Hany|done].
Qed.

Lemma reach_slots_ok c : cx_reach c → slots_ok c.
Proof.
  induction 1 as [msid|opt len v c _ IH|type mailbox c r c' _ IH E|s c b c' _ IH Hin E|c _ IH|c _ IH].
  - split; [unfold ctx_new, SL_IO_THREADS_DFLT; simpl; lia|done].
  - unfold ctx_set. pose proof (proj1 IH). repeat case_match; try done; apply (slots_ok_same c); try done; simpl; lia.
  - destruct (decide (threads c ≤ 1022)) as [Hth|Hth]; [|by apply (create_no_slots _ _ _ _ _ IH E); lia]. destruct (cx_terminating c) eqn:Et; [unfold create_socket in E; rewrite Et in E; by injection E as _ <-|].
    destruct (create_socket_spec type mailbox c IH Hth Et) as (r' & c2 & E' & Hok & _). rewrite E in E'. by injection E' as _ <-.
  - destruct IH as [H0 H]. unfold destroy_socket in E. destruct (cx_starting c) eqn:Es; [destruct H as (H & _); rewrite H in Hin; by apply elem_of_nil in Hin|].
    apply bind_Done_inv in E as (slots & Eset & [= _ <-]). split; [done|]. simpl. rewrite Es. intros Hn. destruct (destroy_started c s (H Hn) Hn Hin) as (slots' & E' & Hd). rewrite Eset in E'. by injection E' as <-.
  - unfold ctx_terminate. destruct (cx_terminating c); [done|]. apply (slots_ok_same c); try done. apply IH.
  - apply (slots_ok_same c); try done. apply IH.
Qed.


(** A context with two I/O threads and a socket. *)
Definition ex_ctx0 : ctx_t := (ctx_set SL_IO_THREADS 4 2 (ctx_new 0)).2.
Definition ex_ctx : ctx_t := match create_socket SL_ROUTER None ex_ctx0 with Done (_, c) => c | _ => ex_ctx0 end.


(** ** The choice of an I/O thread *)

Definition eligible (affinity : Z) (i : nat) : Prop := affinity = 0 ∨ Z.testbit affinity (Z.of_nat i) = true.

Lemma choose_loop_spec affinity i loads selected : affinity = 0 ∨ (i + length loads ≤ 64)%nat →
  (∀ j m, selected = Some (j, m) → (j < i)%nat ∧ eligible affinity j) →
  ∃ r, choose_loop affinity i loads selected = Done r ∧
    match r with
    | None => selected = None ∧ ∀ k load, loads !! k = Some load → ¬ eligible affinity (i + k)
    | Some (j, m) => eligible affinity j ∧ (selected = Some (j, m) ∨ ∃ k, j = (i + k)%nat ∧ loads !! k = Some m)
        ∧ (∀ j0 m0, selected = Some (j0, m0) → m < m0 ∨ m = m0 ∧ j = j0) ∧ ∀ k load, loads !! k = Some load → eligible affinity (i + k) → m < load ∨ m = load ∧ (j ≤ i + k)%nat
    end.
Proof.
  revert i selected. induction loads as [|load loads IH]; intros i selected Hi Hsel; cbn [choose_loop].
  { exists selected. split; [done|]. destruct selected as [[j m]|]; [|done]. split; [by apply (Hsel j m)|]. split; [by left|]. split; [intros j0 m0 [= <- <-]; by right|done]. }
  assert (Hel : ∃ b : bool, (if decide (affinity = 0) then Done true else if decide (64 ≤ i)%nat then Undef else Done (Z.testbit affinity (Z.of_nat i))) = Done b ∧ (b = true ↔ eligible affinity i)).
  { unfold eligible. case_decide as H0; [exists true; tauto|]. rewrite decide_False by (simpl in Hi; lia). eexists. split; [done|]. tauto. }
  destruct Hel as (b & -> & Hb). rewrite bind_Done. assert (Hshift : ∀ k x, (load :: loads) !! k = Some x → (k = 0%nat ∧ x = load) ∨ ∃ k', k = S k' ∧ loads !! k' = Some x) by (intros [|k] x; simpl; [intros [= ->]; by left|right; by exists k]).
  destruct b.
  - set (sel := match selected with None => Some (i, load) | Some (j, min) => if decide (load < min) then Some (i, load) else Some (j, min) end).
    assert (Hsel' : ∃ j m, sel = Some (j, m) ∧ (j < S i)%nat ∧ eligible affinity j ∧ (selected = Some (j, m) ∨ j = i ∧ m = load) ∧ (∀ j0 m0, selected = Some (j0, m0) → m < m0 ∨ m = m0 ∧ j = j0) ∧ (m < load ∨ m = load ∧ (j ≤ i)%nat)).
    { unfold sel. destruct selected as [[j m]|]; [|exists i, load; split; [done|]; split; [lia|]; split; [by apply Hb|]; split; [by right|]; split; [done|]; right; lia]. destruct (Hsel j m eq_refl) as [Hj He]. case_decide.
      - exists i, load. split; [done|]. split; [lia|]. split; [by apply Hb|]. split; [by right|]. split; [intros j0 m0 [= <- <-]; by left|right; lia].
      - exists j, m. split; [done|]. split; [lia|]. split; [done|]. split; [by left|]. split; [intros j0 m0 [= <- <-]; by right|lia]. }
    destruct Hsel' as (j1 & m1 & Es & Hj1 & He1 & Hfrom & Hleft & Hload). destruct (IH (S i) sel) as (r & -> & Hr); [simpl in Hi; lia|rewrite Es; by intros j m [= <- <-]|]. exists r. split; [done|].
    destruct r as [[j m]|]; [|destruct Hr as [Hr _]; congruence]. destruct Hr as (He & Hsrc & Hmin & Hall). destruct (Hmin j1 m1 Es) as [Hlt|[-> ->]].
    + split; [done|]. split; [|split].
      * destruct Hsrc as [Hsrc|(k & -> & Hk)]; [rewrite Es in Hsrc; injection Hsrc as -> ->; lia|]. right. exists (S k). split; [lia|done].
      * intros j0 m0 H0. destruct (Hleft j0 m0 H0); lia.
      * intros k x [[-> ->]|(k' & -> & Hk)]%Hshift Hel; [left; lia|]. replace (i + S k')%nat with (S i + k')%nat in * by lia. by apply Hall.
    + split; [done|]. split; [|split; [done|]].
      * destruct Hfrom as [?|[-> ->]]; [by left|]. right. exists 0%nat. split; [lia|done].
      * intros k x [[-> ->]|(k' & -> & Hk)]%Hshift Hel; [destruct Hload as [?|[? ?]]; [by left|right; split; [done|lia]]|]. replace (i + S k')%nat with (S i + k')%nat in * by lia. by apply Hall.
  - assert (Hne : ¬ eligible affinity i) by (intros H%Hb; done). destruct (IH (S i) selected) as (r & -> & Hr); [simpl in Hi; lia|intros j m E; destruct (Hsel j m E); split; [lia|done]|]. exists r. split; [done|].
    destruct r as [[j m]|].
    + destruct Hr as (He & Hsrc & Hmin & Hall). split; [done|]. split; [destruct Hsrc as [?|(k & -> & Hk)]; [by left|right; exists (S k); split; [lia|done]]|]. split; [done|].
      intros k x [[-> ->]|(k' & -> & Hk)]%Hshift Hel; [by rewrite Nat.add_0_r in Hel|]. replace (i + S k')%nat with (S i + k')%nat in * by lia. by apply Hall.
    + destruct Hr as [-> Hall]. split; [done|]. intros k x [[-> ->]|(k' & -> & Hk)]%Hshift; [by rewrite Nat.add_0_r|]. replace (i + S k')%nat with (S i + k')%nat by lia. by apply (Hall k' x).
Qed.

(** The thread that is chosen is the first of the eligible ones with the smallest load. *)
Lemma choose_io_thread_least affinity loads : affinity = 0 ∨ (length loads ≤ 64)%nat →
  ∃ r, choose_io_thread affinity loads = Done r ∧
    match r with
    | None => ∀ k, (k < length loads)%nat → ¬ eligible affinity k
    | Some j => eligible affinity j ∧ ∃ m, loads !! j = Some m ∧ ∀ k load, loads !! k = Some load → eligible affinity k → m < load ∨ m = load ∧ (j ≤ k)%nat
    end.
Proof.
  intros H. destruct (choose_loop_spec affinity 0 loads None) as (r & E & Hr); [done|done|]. unfold choose_io_thread. rewrite E, bind_Done. eexists. split; [done|]. destruct r as [[j m]|].
  - destruct Hr as (He & [?|(k & -> & Hk)] & _ & Hall); [done|]. split; [done|]. exists m. split; [done|]. intros k' load Hk' Hel. by apply Hall.
  - destruct Hr as [_ Hall]. intros k Hk. destruct (lookup_lt_is_Some_2 loads k Hk) as [x Hx]. by apply (Hall k x).
Qed.

(** ** The reaper and the shutdown *)

Inductive rcmd := RStop | RReap (s : sock) | RReaped.

#[export] Instance rcmd_eq_dec : EqDecision rcmd.
Proof. solve_decision. Defined.

(** [rp_done] counts the messages [done] to the terminating thread; the poller runs until then. *)
Record reaper_t := Reaper { rp_sockets : Z; rp_terminating : bool; rp_running : bool; rp_done : nat }.

Definition reaper_new : reaper_t := Reaper 0 false true 0.

Definition process_stop (r : reaper_t) : reaper_t :=
  if decide (rp_sockets r = 0) then Reaper (rp_sockets r) true false (S (rp_done r)) else Reaper (rp_sockets r) true (rp_running r) (rp_done r).

Definition process_reap (r : reaper_t) : reaper_t := Reaper (rp_sockets r + 1) (rp_terminating r) (rp_running r) (rp_done r).

Definition process_reaped (r : reaper_t) : reaper_t :=
  let n := rp_sockets r - 1 in
  if decide (n = 0 ∧ rp_terminating r = true) then Reaper n (rp_terminating r) false (S (rp_done r)) else Reaper n (rp_terminating r) (rp_running r) (rp_done r).

Definition reaper_command (m : rcmd) (r : reaper_t) : reaper_t := match m with RStop => process_stop r | RReap _ => process_reap r | RReaped => process_reaped r end.

(** The sockets that were closed and are not yet with the reaper are those of the commands; [sy_reaping] are the ones with it. *)
Record sys := Sys { sy_ctx : ctx_t; sy_reaper : reaper_t; sy_mail : list rcmd; sy_reaping : list sock }.

Definition stop_if (b : bool) : list rcmd := if b then [RStop] else [].

(** [shutdown] is not among them: after it [terminate] never asks the reaper to stop ([shutdown_then_terminate]), so the claim below would fail.
    The steps: the calls on the context, [close] of a socket, the end of a socket's termination ([check_destroy]), and the next command of the reaper. *)
Inductive sys_step : sys → sys → Prop :=
| ss_create type mailbox c r m q x c' : create_socket type mailbox c = Done (x, c') → sys_step (Sys c r m q) (Sys c' r m q)
| ss_close s c r m q : s ∈ cx_sockets c → s ∉ q → RReap s ∉ m → sys_step (Sys c r m q) (Sys c r (m ++ [RReap s]) q)
| ss_destroy s b c r m q c' : s ∈ q → s ∈ cx_sockets c → destroy_socket s c = Done (b, c') → sys_step (Sys c r m q) (Sys c' r (m ++ stop_if b ++ [RReaped]) (filter (λ x, x ≠ s) q))
| ss_terminate c r m q : sys_step (Sys c r m q) (Sys (ctx_terminate c).2 r (m ++ stop_if (ctx_terminate c).1) q)
| ss_reaper c r x m q : rp_running r = true → sys_step (Sys c r (x :: m) q) (Sys c (reaper_command x r) m (match x with RReap s => s :: q | _ => q end)).

Definition sys_new (msid : Z) : sys := Sys (ctx_new msid) reaper_new [] [].

Inductive sys_reach (msid : Z) : sys → Prop :=
| sr_new : sys_reach msid (sys_new msid)
| sr_step y y' : sys_reach msid y → sys_step y y' → sys_reach msid y'.

(** How often the reaper was asked to stop. *)
Definition count (x : rcmd) (m : list rcmd) : nat := length (filter (λ y, y = x) m).
Definition stops (y : sys) : nat := count RStop (sy_mail y) + if rp_terminating (sy_reaper y) then 1 else 0.

Record sys_ok (y : sys) : Prop := {
  so_slots : slots_ok (sy_ctx y);
  so_nodup : NoDup (cx_sockets (sy_ctx y));
  so_next : ∀ s, s ∈ cx_sockets (sy_ctx y) → (sk_id s < cx_next (sy_ctx y))%nat;
  so_reaping : NoDup (sy_reaping y);
  so_live : ∀ s, s ∈ sy_reaping y ∨ RReap s ∈ sy_mail y → s ∈ cx_sockets (sy_ctx y);
  so_once : ∀ s, s ∈ sy_reaping y → RReap s ∉ sy_mail y;
  so_reaps : NoDup (filter (λ x, x ≠ RStop ∧ x ≠ RReaped) (sy_mail y));
  so_count : rp_sockets (sy_reaper y) = Z.of_nat (length (sy_reaping y) + count RReaped (sy_mail y));
  so_reaper : cx_starting (sy_ctx y) = false → cx_reaper (sy_ctx y) = true;
  so_starting : cx_starting (sy_ctx y) = true → cx_sockets (sy_ctx y) = [] ∧ cx_reaper (sy_ctx y) = false;
  so_stops : stops y = if cx_terminating (sy_ctx y) && bool_decide (cx_sockets (sy_ctx y) = []) && negb (cx_starting (sy_ctx y)) then 1%nat else 0%nat;
  so_done : rp_done (sy_reaper y) = (if rp_running (sy_reaper y) then 0 else 1)%nat;
  so_running : rp_running (sy_reaper y) = negb (rp_terminating (sy_reaper y) && bool_decide (rp_sockets (sy_reaper y) = 0));
}.

Lemma rcount_app x a b : count x (a ++ b) = (count x a + count x b)%nat.
Proof. unfold count. by rewrite filter_app, length_app. Qed.
Lemma rcount_cons x y m : count x (y :: m) = ((if decide (y = x) then 1 else 0) + count x m)%nat.
Proof. unfold count. rewrite filter_cons. by case_decide. Qed.
Lemma rcount_zero x m : count x m = 0%nat ↔ x ∉ m.
Proof.
  unfold count. split; [intros H Hin|intros H].
  - assert (Hf : x ∈ filter (λ y, y = x) m) by (by apply list_elem_of_filter). apply nil_length_inv in H. rewrite H in Hf. by apply elem_of_nil in Hf.
  - apply length_zero_iff_nil, elem_of_nil_inv. intros y [-> Hy]%list_elem_of_filter. done.
Qed.

Lemma create_effect type mailbox c x c' : create_socket type mailbox c = Done (x, c') →
  c' = c ∧ cx_terminating c = true
  ∨ cx_terminating c = false ∧ cx_terminating c' = false ∧ cx_starting c' = false ∧ (cx_starting c = false → cx_reaper c' = cx_reaper c) ∧ (cx_starting c = true → cx_reaper c' = true)
    ∧ (cx_next c ≤ cx_next c')%nat ∧ (cx_sockets c' = cx_sockets c ∨ ∃ s, cx_sockets c' = cx_sockets c ++ [s] ∧ sk_id s = cx_next c ∧ cx_next c' = S (cx_next c)).
Proof.
  unfold create_socket. destruct (cx_terminating c) eqn:Et; [intros [= _ <-]; by left|]. set (c1 := if cx_starting c then ctx_start c else c).
  assert (H1 : cx_terminating c1 = false ∧ cx_starting c1 = false ∧ (cx_starting c = false → cx_reaper c1 = cx_reaper c) ∧ (cx_starting c = true → cx_reaper c1 = true) ∧ cx_next c1 = cx_next c ∧ cx_sockets c1 = cx_sockets c)
    by (unfold c1, ctx_start; destruct (cx_starting c) eqn:Es; simpl; done).
  clearbody c1. destruct H1 as (Ht & Hs & Hr1 & Hr2 & Hn & Hk). intros E. right. split; [done|]. rewrite <- Hn, <- Hk. destruct (last (cx_empty_slots c1)); [|injection E as _ <-; auto 10]. destruct (socket_create type mailbox).
  - apply bind_Done_inv in E as (slots & _ & [= _ <-]). simpl. split; [done|]. split; [done|]. split; [done|]. split; [done|]. split; [lia|]. right. by eexists.
  - injection E as _ <-. simpl. auto 10.
Qed.

Lemma sys_create type mailbox c r m q x c' : sys_ok (Sys c r m q) → create_socket type mailbox c = Done (x, c') → slots_ok c' → sys_ok (Sys c' r m q).
Proof.
  intros [Hsl Hnd Hnx Hrq Hlive Honce Hreaps Hcnt Hreap Hstart Hstops Hdone Hrun] E Hok'. destruct (create_effect _ _ _ _ _ E) as [[-> _]|(Ht & Ht' & Hs' & Hr1 & Hr2 & Hn & Hk)]; [by split|]. unfold stops in *. simpl in *.
  split; unfold stops; simpl; [done| | |done| |done|done|done| | | |done|done].
  - destruct Hk as [-> |(s & -> & Hid & _)]; [done|]. apply NoDup_app. split; [done|]. split; [|apply NoDup_singleton]. intros y Hy ->%list_elem_of_singleton. specialize (Hnx s Hy). lia.
  - destruct Hk as [-> |(s & -> & Hid & Hnx')]; intros y Hy; [specialize (Hnx y Hy); lia|]. apply elem_of_app in Hy as [Hy| ->%list_elem_of_singleton]; [specialize (Hnx y Hy); lia|lia].
  - intros s Hin. destruct Hk as [-> |(s' & -> & _)]; [by apply Hlive|]. apply elem_of_app. left. by apply Hlive.
  - intros _. destruct (cx_starting c) eqn:Es; [by apply Hr2|]. rewrite Hr1 by done. by apply Hreap.
  - congruence.
  - rewrite Ht'. by rewrite Ht in Hstops.
Qed.

Lemma sys_destroy s b c r m q c' : sys_ok (Sys c r m q) → s ∈ q → s ∈ cx_sockets c → destroy_socket s c = Done (b, c') → slots_ok c' → sys_ok (Sys c' r (m ++ stop_if b ++ [RReaped]) (filter (λ x, x ≠ s) q)).
Proof.
  intros [Hsl Hnd Hnx Hrq Hlive Honce Hreaps Hcnt Hreap Hstart Hstops Hdone Hrun] Hq Hin E Hok'. unfold stops in *. simpl in *. unfold destroy_socket in E. apply bind_Done_inv in E as (slots & _ & E). simpl in E. injection E as <- <-. simpl in *.
  assert (Hstart' : cx_starting c = false) by (destruct (cx_starting c); [destruct (Hstart eq_refl) as [E _]; rewrite E in Hin; by apply elem_of_nil in Hin|done]). specialize (Hreap Hstart'). rewrite Hreap, andb_true_r.
  assert (Hne : cx_sockets c ≠ []) by (intros E; rewrite E in Hin; by apply elem_of_nil in Hin). rewrite (bool_decide_false _ Hne), andb_false_r in Hstops. simpl in Hstops.
  pose proof (Permutation_length (filter_one q s Hrq Hq)) as Hlen. simpl in Hlen. set (b := cx_terminating c && bool_decide _).
  split; unfold stops; simpl; [done|by apply NoDup_filter| |by apply NoDup_filter| | | | |done| | |done|done].
  - intros y [_ Hy]%list_elem_of_filter. by apply Hnx.
  - intros y [[Hy Hyq]%list_elem_of_filter|Hy]; [apply list_elem_of_filter; split; [done|apply Hlive; by left]|]. apply elem_of_app in Hy as [Hy|Hy]; [|by destruct b; set_solver].
    apply list_elem_of_filter. split; [intros ->; by apply (Honce s)|apply Hlive; by right].
  - intros y [_ Hy]%list_elem_of_filter Hm. apply elem_of_app in Hm as [Hm|Hm]; [by apply (Honce y)|by destruct b; set_solver].
  - rewrite !filter_app. assert (E0 : filter (λ x, x ≠ RStop ∧ x ≠ RReaped) (stop_if b) ++ filter (λ x, x ≠ RStop ∧ x ≠ RReaped) [RReaped] = []) by (by destruct b). by rewrite E0, app_nil_r.
  - rewrite Hcnt, !rcount_app. assert (E0 : count RReaped (stop_if b) = 0%nat) by (by destruct b). rewrite E0. change (count RReaped [RReaped]) with 1%nat. lia.
  - intros Hc. congruence.
  - rewrite Hstart', andb_true_r, !rcount_app. change (count RStop [RReaped]) with 0%nat. assert (E0 : count RStop (stop_if b) = if b then 1%nat else 0%nat) by (by destruct b). rewrite E0. unfold b. fold b. lia.
Qed.

Lemma sys_reaper c r x m q : sys_ok (Sys c r (x :: m) q) → rp_running r = true → sys_ok (Sys c (reaper_command x r) m (match x with RReap s => s :: q | _ => q end)).
Proof.
  intros [Hsl Hnd Hnx Hrq Hlive Honce Hreaps Hcnt Hreap Hstart Hstops Hdone Hrun] Hr. unfold stops in *. simpl in *. rewrite rcount_cons in Hcnt, Hstops. rewrite Hr in Hdone, Hrun. rewrite filter_cons in Hreaps.
  assert (Hlive' : ∀ s, s ∈ q ∨ RReap s ∈ m → s ∈ cx_sockets c) by (intros s [?|?]; apply Hlive; [by left|right; by right]).
  assert (Honce' : ∀ s, s ∈ q → RReap s ∉ m) by (intros s Hs Hm; apply (Honce s Hs); by right). destruct x as [|s|]; simpl in *.
  - unfold process_stop. destruct (rp_terminating r) eqn:Et; [destruct (_ && _); lia|]. case_decide as H0; split; unfold stops; simpl; try done.
    + rewrite <- Hstops. lia.
    + by rewrite Hdone.
    + by rewrite bool_decide_true.
    + rewrite <- Hstops. lia.
    + by rewrite Hr.
    + by rewrite Hr, bool_decide_false.
  - assert (Hsq : s ∉ q) by (intros Hs; apply (Honce s Hs); left). apply NoDup_cons in Hreaps as [Hsm Hreaps].
    split; unfold stops; simpl; try done; [by constructor| | |lia| |].
    + intros y [[->|Hy]%elem_of_cons|Hy]; [apply Hlive; right; left|apply Hlive'; by left|apply Hlive'; by right].
    + intros y [->|Hy]%elem_of_cons Hm; [|by apply (Honce' y)]. apply Hsm. by apply list_elem_of_filter.
    + by rewrite Hr.
    + rewrite Hr, (bool_decide_false (rp_sockets r + 1 = 0)) by lia. by rewrite andb_false_r.
  - unfold process_reaped. cbv zeta. destruct (decide (rp_sockets r - 1 = 0 ∧ rp_terminating r = true)) as [H0|H0]; split; unfold stops; simpl; try done; try lia.
    + destruct H0 as [H0 Et]. rewrite Et. by rewrite bool_decide_true.
    + by rewrite Hr.
    + rewrite Hr. destruct (rp_terminating r); [|done]. by rewrite bool_decide_false by tauto.
Qed.

Lemma sys_step_ok y y' : sys_ok y → sys_step y y' → sys_ok y'.
Proof.
  intros Hok Hstep. destruct Hstep as [type mailbox c r m q x c' E|s c r m q Hin Hq Hm|s b c r m q c' Hq Hin E|c r m q|c r x m q Hr].
  - apply (sys_create type mailbox c r m q x); [done|done|]. pose proof (so_slots _ Hok) as Hsl. simpl in Hsl. destruct (decide (threads c ≤ 1022)) as [Hth|Hth]; [|apply (create_no_slots _ _ _ _ _ Hsl E); lia].
    destruct (cx_terminating c) eqn:Et; [unfold create_socket in E; rewrite Et in E; by injection E as _ <-|]. destruct (create_socket_spec type mailbox c Hsl Hth Et) as (r' & c2 & E' & Hok' & _). rewrite E in E'. by injection E' as _ <-.
  - destruct Hok as [Hsl Hnd Hnx Hrq Hlive Honce Hreaps Hcnt Hreap Hstart Hstops Hdone Hrun]. unfold stops in *. simpl in *. split; unfold stops; simpl; try done.
    + intros x [Hx|Hx]; [apply Hlive; by left|]. apply elem_of_app in Hx as [Hx|[= ->]%list_elem_of_singleton]; [apply Hlive; by right|done].
    + intros x Hx Hm'. apply elem_of_app in Hm' as [Hm'|[= ->]%list_elem_of_singleton]; [by apply (Honce x)|done].
    + rewrite filter_app. apply NoDup_app. split; [done|]. split; [|apply NoDup_filter, NoDup_singleton]. intros x [_ Hx]%list_elem_of_filter [_ ->%list_elem_of_singleton]%list_elem_of_filter. done.
    + rewrite rcount_app. change (count RReaped [RReap s]) with 0%nat. lia.
    + rewrite rcount_app. change (count RStop [RReap s]) with 0%nat. lia.
  - apply sys_destroy with c; try done. pose proof (so_slots _ Hok) as [H0 H]. simpl in *. unfold destroy_socket in E. apply bind_Done_inv in E as (slots & Eset & [= _ <-]). split; [done|]. simpl.
    destruct (cx_starting c) eqn:Es; [destruct H as (H & _); rewrite H in Hin; by apply elem_of_nil in Hin|]. intros Hn. destruct (destroy_started c s (H Hn) Hn Hin) as (slots' & E' & Hd). rewrite Eset in E'. by injection E' as <-.
  - destruct Hok as [Hsl Hnd Hnx Hrq Hlive Honce Hreaps Hcnt Hreap Hstart Hstops Hdone Hrun]. unfold stops in *. simpl in *. unfold ctx_terminate. destruct (cx_terminating c) eqn:Et; simpl; [rewrite app_nil_r; split; unfold stops; simpl; rewrite ?Et; done|].
    set (b := bool_decide _ && cx_reaper c). assert (Hb : b = bool_decide (cx_sockets c = []) && negb (cx_starting c)) by (unfold b; f_equal; destruct (cx_starting c); [by destruct (Hstart eq_refl)|by apply Hreap]).
    split; unfold stops; simpl; try done.
    + apply (slots_ok_same c); try done. apply Hsl.
    + intros x [Hx|Hx]; [apply Hlive; by left|]. apply elem_of_app in Hx as [Hx|Hx]; [apply Hlive; by right|by destruct b; set_solver].
    + intros x Hx Hm'. apply elem_of_app in Hm' as [Hm'|Hm']; [by apply (Honce x)|by destruct b; set_solver].
    + rewrite filter_app. assert (E0 : filter (λ x, x ≠ RStop ∧ x ≠ RReaped) (stop_if b) = []) by (by destruct b). by rewrite E0, app_nil_r.
    + rewrite rcount_app. assert (E0 : count RReaped (stop_if b) = 0%nat) by (by destruct b). lia.
    + rewrite rcount_app. assert (E0 : count RStop (stop_if b) = if b then 1%nat else 0%nat) by (by destruct b). simpl in Hstops. rewrite E0, <- Hb. destruct b; lia.
  - by apply sys_reaper.
Qed.

Lemma sys_reach_ok msid y : sys_reach msid y → sys_ok y.
Proof.
  induction 1 as [|y y' _ IH Hstep]; [|by apply (sys_step_ok y)]. split; unfold stops; simpl; try done; try constructor; try set_solver.
Qed.

(** C31: the reaper ends when, and only when, everything is done. In every interleaving of the threads that create, close and terminate with the reaper: it tells the terminating thread once at most that it is done, and then no socket is left, none can be made, its
    mailbox is empty and stays so; and once the context terminates, has no socket any more and the reaper's mailbox has been emptied, it has told so. A command never waits for a reaper that has ended. *)
Theorem reaper_shutdown msid y : sys_reach msid y →
  let c := sy_ctx y in let r := sy_reaper y in
  (rp_done r ≤ 1)%nat ∧ (rp_done r = 1%nat → cx_sockets c = [] ∧ cx_terminating c = true ∧ sy_mail y = [] ∧ sy_reaping y = [])
  ∧ (cx_terminating c = true → cx_sockets c = [] → cx_starting c = false → sy_mail y = [] → rp_done r = 1%nat)
  ∧ (sy_mail y ≠ [] → rp_running r = true).
Proof.
  intros [Hsl Hnd Hnx Hrq Hlive Honce Hreaps Hcnt Hreap Hstart Hstops Hdone Hrun]%sys_reach_ok. simpl. unfold stops in Hstops.
  assert (Hall : rp_running (sy_reaper y) = false → cx_sockets (sy_ctx y) = [] ∧ cx_terminating (sy_ctx y) = true ∧ sy_mail y = [] ∧ sy_reaping y = []).
  { intros E. rewrite E in Hrun. symmetry in Hrun. apply negb_false_iff, andb_true_iff in Hrun as [Ht H0%bool_decide_eq_true]. rewrite Ht in Hstops. destruct (cx_terminating (sy_ctx y)); [|simpl in Hstops; lia].
    destruct (decide (cx_sockets (sy_ctx y) = [])) as [Hs|Hs]; [|rewrite (bool_decide_false _ Hs) in Hstops; simpl in Hstops; lia]. split; [done|]. split; [done|].
    assert (Hq : sy_reaping y = []) by (destruct (sy_reaping y); [done|simpl in Hcnt; lia]). split; [|done]. apply elem_of_nil_inv. intros [|s|] Hin.
    - destruct (_ && _); apply (rcount_zero RStop (sy_mail y)); [lia|done|lia|done].
    - assert (s ∈ cx_sockets (sy_ctx y)) as Hx by (apply Hlive; by right). rewrite Hs in Hx. by apply elem_of_nil in Hx.
    - apply (rcount_zero RReaped (sy_mail y)); [lia|done]. }
  split; [rewrite Hdone; destruct (rp_running _); lia|]. split; [intros E; apply Hall; rewrite Hdone in E; by destruct (rp_running _)|]. split.
  - intros Ht Hs Hst Hm. rewrite Ht, Hs, Hst, Hm in Hstops. simpl in Hstops. assert (Hq : sy_reaping y = []) by (apply elem_of_nil_inv; intros s Hin; assert (Hx : s ∈ cx_sockets (sy_ctx y)) by (apply Hlive; by left); rewrite Hs in Hx; by apply elem_of_nil in Hx).
    rewrite Hq, Hm in Hcnt. simpl in Hcnt. destruct (rp_terminating (sy_reaper y)) eqn:Et; [|done]. rewrite Hcnt in Hrun. simpl in Hrun. by rewrite Hdone, Hrun.
  - intros Hm. destruct (rp_running (sy_reaper y)) eqn:E; [done|]. by destruct (Hall eq_refl) as (_ & _ & ? & _).
Qed.

(** A run in which a socket is made and closed after [terminate]. *)
Definition ex_sock : sock := Sock 0 1023 1.

Lemma reaper_shutdown_witness : ∃ y, sys_reach 0 y ∧ rp_done (sy_reaper y) = 1%nat ∧ (rp_done (sy_reaper y) = 1%nat → sy_mail y = []).
Proof.
  set (c1 := match create_socket SL_ROUTER None (ctx_new 0) with Done (_, c) => c | _ => ctx_new 0 end).
  assert (E1 : create_socket SL_ROUTER None (ctx_new 0) = Done (inl ex_sock, c1)) by (vm_compute; reflexivity).
  assert (Hs1 : cx_sockets c1 = [ex_sock]) by (vm_compute; reflexivity). set (c2 := (ctx_terminate c1).2). assert (Hs2 : cx_sockets c2 = [ex_sock]) by (vm_compute; reflexivity). assert (Hb : (ctx_terminate c1).1 = false) by (vm_compute; reflexivity).
  set (c3 := match destroy_socket ex_sock c2 with Done (_, c) => c | _ => c2 end). assert (E3 : destroy_socket ex_sock c2 = Done (true, c3)) by (vm_compute; reflexivity).
  assert (R1 : sys_reach 0 (Sys c1 reaper_new [] [])) by (eapply sr_step; [apply sr_new|]; by apply (ss_create SL_ROUTER None _ _ _ _ (inl ex_sock))).
  assert (R2 : sys_reach 0 (Sys c2 reaper_new [] [])). { eapply sr_step; [exact R1|]. pose proof (ss_terminate c1 reaper_new [] []) as H. by rewrite Hb in H. }
  assert (R3 : sys_reach 0 (Sys c2 reaper_new [RReap ex_sock] [])). { eapply sr_step; [exact R2|]. apply (ss_close ex_sock c2 reaper_new [] []); [rewrite Hs2; left|apply not_elem_of_nil|apply not_elem_of_nil]. }
  assert (R4 : sys_reach 0 (Sys c2 (process_reap reaper_new) [] [ex_sock])) by (eapply sr_step; [exact R3|]; by apply (ss_reaper c2 reaper_new (RReap ex_sock) [] [])).
  assert (R5 : sys_reach 0 (Sys c3 (process_reap reaper_new) [RStop; RReaped] [])). { eapply sr_step; [exact R4|]. pose proof (ss_destroy ex_sock true c2 (process_reap reaper_new) [] [ex_sock] c3) as H. apply H; [left|rewrite Hs2; left|exact E3]. }
  assert (R6 : sys_reach 0 (Sys c3 (process_stop (process_reap reaper_new)) [RReaped] [])) by (eapply sr_step; [exact R5|]; by apply (ss_reaper c3 _ RStop [RReaped] [])).
  assert (R7 : sys_reach 0 (Sys c3 (process_reaped (process_stop (process_reap reaper_new))) [] [])) by (eapply sr_step; [exact R6|]; by apply (ss_reaper c3 _ RReaped [] [])).
  eexists. split; [exact R7|]. split; [reflexivity|]. destruct (reaper_shutdown 0 _ R7) as (_ & H & _). intros Hd. by destruct (H Hd) as (_ & _ & ? & _).
Defined.

(** ** Behaviour that surprises *)

(** After [shutdown] without open sockets, [terminate] does nothing: the reaper is never asked to stop. *)
Lemma shutdown_then_terminate c : (ctx_terminate (ctx_shutdown c)).1 = false.
Proof. done. Qed.

(** The option SL_MAX_SOCKETS does not limit the sockets. *)
Lemma max_sockets_ignored : match create_socket SL_ROUTER None (ctx_set SL_MAX_SOCKETS 4 1 (ctx_new 0)).2 with Done (inl _, c) => match create_socket SL_ROUTER None c with Done (inl _, _) => True | _ => False end | _ => False end.
Proof. vm_compute. done. Qed.

(** More than 1022 I/O threads: the slots of the last ones are cut off, and a command for one of them aborts. *)
Lemma too_many_io_threads : match create_socket SL_ROUTER None (ctx_set SL_IO_THREADS 4 1023 (ctx_new 0)).2 with Done (inr EMFILE, c) => cx_io_threads c = 1023%nat ∧ ctx_send_command 1024 c = Abort | _ => False end.
Proof. vm_compute. done. Qed.

(** An option that is not known is accepted by [set], and [get] succeeds for it, and for SL_BLOCKY, without giving a value. *)
Lemma unknown_option_accepted c : cx_terminating c = false → ctx_set 99 4 7 c = (RcOk, c) ∧ ctx_get 99 4 c = CNothing ∧ ctx_get SL_BLOCKY 4 c = CNothing.
Proof. intros E. unfold ctx_set. by rewrite E. Qed.
