(* ===== verification/Address.v ===== *)
(** Addresses (src/transport): the resolver of names (ip_resolver.cpp), TCP addresses and their
    masks (tcp_address.cpp), IPC and inproc addresses.

    Strings are lists of character codes.  An [ip_addr_t] is a union of socket addresses; the model
    keeps the family, the bytes of the address, the port in host order and the scope.  What the operating system
    answers (getaddrinfo, getifaddrs, if_nametoindex, getnameinfo) is the class [NameService]. *)
From stdpp Require Import gmap.
From S2P Require Import Prelude SocketBase.

Local Open Scope sl_scope.

Definition AF_INET : Z := 2.
Definition AF_INET6 : Z := 10.

Record ip_addr_t := IpAddr { ia_family : Z; ia_bytes : list Z; ia_port : Z; ia_scope : Z }.

#[export] Instance ip_addr_eq_dec : EqDecision ip_addr_t.
Proof. solve_decision. Defined.

(** All zero, as after [memset]. *)
Definition ip_addr_zero : ip_addr_t := IpAddr 0 [] 0 0.

Definition ip_set_port (port : Z) (a : ip_addr_t) : ip_addr_t := IpAddr (ia_family a) (ia_bytes a) port (ia_scope a).
Definition ip_set_scope (scope : Z) (a : ip_addr_t) : ip_addr_t := IpAddr (ia_family a) (ia_bytes a) (ia_port a) scope.

(** [any]; another family fails an assertion. *)
Definition ip_any (family : Z) : outcome ip_addr_t :=
  if decide (family = AF_INET) then Done (IpAddr AF_INET (replicate 4 0) 0 0)
  else if decide (family = AF_INET6) then Done (IpAddr AF_INET6 (replicate 16 0) 0 0)
  else Abort.

Definition is_multicast (a : ip_addr_t) : bool :=
  match ia_bytes a with
  | b :: _ => if decide (ia_family a = AF_INET) then bool_decide (Z.land b 240 = 224) else bool_decide (b = 255)
  | [] => false
  end.

Definition sockaddr_len (a : ip_addr_t) : Z := if decide (ia_family a = AF_INET6) then 28 else 16.

(** ** Strings *)

Definition colon : Z := 58.
Definition semicolon : Z := 59.
Definition slash : Z := 47.
Definition star : Z := 42.
Definition percent : Z := 37.
Definition lbracket : Z := 91.
Definition rbracket : Z := 93.

(** The last and the first position of a character *)
Fixpoint strrchr (c : Z) (s : list Z) : option nat :=
  match s with
  | [] => None
  | x :: s => match strrchr c s with Some i => Some (S i) | None => if decide (x = c) then Some 0%nat else None end
  end.
Definition str_find (c : Z) (s : list Z) : option nat := fst <$> list_find (λ x, x = c) s.

Definition is_digit (c : Z) : bool := bool_decide (48 ≤ c ≤ 57).
Definition is_alpha (c : Z) : bool := bool_decide (65 ≤ c ≤ 90) || bool_decide (97 ≤ c ≤ 122).
Definition is_space (c : Z) : bool := bool_decide (c = 32) || bool_decide (9 ≤ c ≤ 13).

(** The number that a string begins with, as strtol reads it in base 10: white space, a sign, digits. *)
Fixpoint digits (acc : Z) (s : list Z) : Z := match s with c :: s => if is_digit c then digits (10 * acc + (c - 48)) s else acc | [] => acc end.
Fixpoint skip_space (s : list Z) : list Z := match s with c :: s' => if is_space c then skip_space s' else s | [] => [] end.
Definition read_int (s : list Z) : Z :=
  match skip_space s with
  | 43 :: s => digits 0 s
  | 45 :: s => - digits 0 s
  | s => digits 0 s
  end.

Definition LONG_MAX : Z := 2 ^ 63 - 1.
Definition strtol (s : list Z) : Z := Z.max (- LONG_MAX - 1) (Z.min LONG_MAX (read_int s)).

(** The behaviour is undefined if the value is no [int]. *)
Definition atoi (s : list Z) : outcome Z := if decide (- 2 ^ 31 ≤ read_int s < 2 ^ 31) then Done (read_int s) else Undef.

(** ** The operating system *)

Inductive gai_answer := GaiOk (a : ip_addr_t) | GaiMemory | GaiBadFlags | GaiOther.

Record gai_request := GaiReq { gr_family : Z; gr_passive : bool; gr_numerichost : bool; gr_v4mapped : bool }.

(** An attempt of getifaddrs: the interfaces with their addresses, or an error *)
Inductive ifaddrs_answer := IfOk (l : list (list Z * option ip_addr_t)) | IfRefused | IfUnsupported | IfError.

(** [have_ifaddrs], [have_nametoindex]: whether the build defines SL_HAVE_IFADDRS and HAVE_IF_NAMETOINDEX. *)
Class NameService := {
  have_ifaddrs : bool;
  have_nametoindex : bool;
  getaddrinfo : gai_request → list Z → gai_answer;
  getifaddrs : nat → ifaddrs_answer;
  if_nametoindex : list Z → Z;
  getnameinfo : ip_addr_t → option (list Z);
}.

Section names.
Context `{!NameService}.

(** ** ip_resolver_t *)

Record resolver_options := ResolverOptions { ro_bindable : bool; ro_nic_name_allowed : bool; ro_ipv6 : bool; ro_port_expected : bool; ro_dns_allowed : bool; ro_path_allowed : bool }.

Definition do_if_nametoindex (s : list Z) : Z := if have_nametoindex then if_nametoindex s else 0.

Definition resolve_getaddrinfo (o : resolver_options) (name : list Z) : ip_addr_t + errno_t :=
  let req := GaiReq (if ro_ipv6 o then AF_INET6 else AF_INET) (ro_bindable o) (negb (ro_dns_allowed o)) (ro_ipv6 o) in
  let r := getaddrinfo req name in
  let r := match r with GaiBadFlags => if gr_v4mapped req then getaddrinfo (GaiReq (gr_family req) (gr_passive req) (gr_numerichost req) false) name else r | _ => r end in
  match r with
  | GaiOk a => inl a
  | GaiMemory => inr ENOMEM
  | _ => inr (if ro_bindable o then ENODEV else EINVAL)
  end.

(** Ten attempts while the connection is refused *)
Fixpoint getifaddrs_loop (attempts : nat) (i : nat) : ifaddrs_answer :=
  match attempts with O => IfRefused | S attempts => match getifaddrs i with IfRefused => getifaddrs_loop attempts (S i) | r => r end end.

(** An interface of the name, with an address of the family *)
Definition nic_match (family : Z) (nic : list Z) (x : list Z * option ip_addr_t) : bool :=
  match x.2 with Some a => bool_decide (ia_family a = family) && bool_decide (nic = x.1) | None => false end.

Definition resolve_nic_name (o : resolver_options) (nic : list Z) : outcome (ip_addr_t + errno_t) :=
  if have_ifaddrs then
    match getifaddrs_loop 10 0 with
    | IfUnsupported => Done (inr ENODEV)
    | IfRefused | IfError => Abort
    | IfOk l =>
        let family := if ro_ipv6 o then AF_INET6 else AF_INET in
        match list_find (λ x, nic_match family nic x = true) l with
        | Some (_, (_, Some a)) => Done (inl a)
        | _ => Done (inr ENODEV)
        end
    end
  else Done (inr ENODEV).

(** The port of [addr:port] *)
Definition resolve_port (o : resolver_options) (port_str : list Z) : outcome (Z + errno_t) :=
  if decide (port_str = [star]) then Done (if ro_bindable o then inl 0 else inr EINVAL)
  else if decide (port_str = [48]) then Done (inl 0)
  else
    n ← atoi port_str;
    let port := u16 n in Done (if decide (port = 0) then inr EINVAL else inl port).

Definition strip_path (o : resolver_options) (addr : list Z) : list Z :=
  if ro_path_allowed o then match str_find slash addr with Some pos => take pos addr | None => addr end else addr.

Definition strip_brackets (addr : list Z) : list Z :=
  if decide (2 ≤ length addr ∧ head addr = Some lbracket ∧ last addr = Some rbracket)%nat then take (length addr - 2) (drop 1 addr) else addr.

(** The address without its zone, and the zone *)
Definition strip_zone (addr : list Z) : outcome ((list Z * Z) + errno_t) :=
  match strrchr percent addr with
  | None => Done (inl (addr, 0))
  | Some pos =>
      let if_str := drop (S pos) addr in
      match if_str with
      | [] => Done (inr EINVAL)
      | c :: _ =>
          zone ← (if is_alpha c then Done (u32 (do_if_nametoindex if_str)) else n ← atoi if_str; Done (u32 n));
          Done (if decide (zone = 0) then inr EINVAL else inl (take pos addr, zone))
      end
  end.

(** The address of a name without port, path, brackets and zone *)
Definition resolve_host (o : resolver_options) (addr : list Z) : outcome (ip_addr_t + errno_t) :=
  if decide (ro_bindable o = true ∧ addr = [star]) then a ← ip_any (if ro_ipv6 o then AF_INET6 else AF_INET); Done (inl a)
  else
    nic ← (if ro_nic_name_allowed o then resolve_nic_name o addr else Done (inr ENODEV));
    match nic with
    | inl a => Done (inl a)
    | inr e => if decide (e = ENODEV) then Done (resolve_getaddrinfo o addr) else Done (inr e)
    end.

Definition ip_resolve (o : resolver_options) (name : list Z) : outcome (ip_addr_t + errno_t) :=
  ap ← (if ro_port_expected o then
          match strrchr colon name with
          | None => Done (inr EINVAL)
          | Some pos => p ← resolve_port o (drop (S pos) name); Done (match p with inl port => inl (take pos name, port) | inr e => inr e end)
          end
        else Done (inl (name, 0)));
  match ap with
  | inr e => Done (inr e)
  | inl (addr, port) =>
      z ← strip_zone (strip_brackets (strip_path o addr));
      match z with
      | inr e => Done (inr e)
      | inl (addr, zone) =>
          r ← resolve_host o addr;
          Done (match r with
                | inr e => inr e
                | inl a => let a := ip_set_port port a in inl (if decide (ia_family a = AF_INET6) then ip_set_scope zone a else a)
                end)
      end
  end.

(** ** tcp_address_t *)

Record tcp_address_t := TcpAddress { ta_address : ip_addr_t; ta_source : ip_addr_t; ta_has_src : bool }.

Definition tcp_address_new : tcp_address_t := TcpAddress ip_addr_zero ip_addr_zero false.

(** From a socket address of the given length *)
Definition tcp_address_from (sa : ip_addr_t) (len : Z) : outcome tcp_address_t :=
  assert! (bool_decide (0 < len)) ;;
  Done (TcpAddress (if decide (ia_family sa = AF_INET ∧ 16 ≤ len ∨ ia_family sa = AF_INET6 ∧ 28 ≤ len) then sa else ip_addr_zero) ip_addr_zero false).

Definition tcp_resolve (name : list Z) (local ipv6 : bool) (t : tcp_address_t) : outcome (rc_t * tcp_address_t) :=
  src ← (match strrchr semicolon name with
         | None => Done (inl (name, t))
         | Some pos =>
             r ← ip_resolve (ResolverOptions true true ipv6 true false false) (take pos name);
             Done (match r with inl a => inl (drop (S pos) name, TcpAddress (ta_address t) a true) | inr e => inr e end)
         end);
  match src with
  | inr e => Done (RcErr e, t)
  | inl (name, t) =>
      r ← ip_resolve (ResolverOptions local local ipv6 true true false) name;
      Done (match r with inl a => (RcOk, TcpAddress a (ta_source t) (ta_has_src t)) | inr e => (RcErr e, t) end)
  end.

(** "%d" of a port *)
Fixpoint print_dec (fuel : nat) (n : Z) : list Z :=
  match fuel with O => [] | S fuel => (if decide (n < 10) then [] else print_dec fuel (n / 10)) ++ [48 + n `mod` 10] end.

Definition tcp_scheme : list Z := [116; 99; 112; 58; 47; 47].

(** The buffer of the port has room for five digits. *)
Definition make_address_string (hbuf : list Z) (port : Z) (prefix suffix : list Z) : outcome (list Z) :=
  let p := print_dec 10 port in
  assert! (bool_decide (0 < length p < 6)%nat) ;;
  Done (prefix ++ hbuf ++ suffix ++ p).

(** None: -1, or the error of getnameinfo *)
Definition tcp_to_string (t : tcp_address_t) : outcome (option (list Z)) :=
  let a := ta_address t in
  if decide (ia_family a ≠ AF_INET ∧ ia_family a ≠ AF_INET6) then Done None
  else
    match getnameinfo a with
    | None => Done None
    | Some hbuf =>
        s ← (if decide (ia_family a = AF_INET6) then make_address_string hbuf (ia_port a) (tcp_scheme ++ [lbracket]) [rbracket; colon]
             else make_address_string hbuf (ia_port a) tcp_scheme [colon]);
        Done (Some s)
    end.

(** ** tcp_address_mask_t *)

Record tcp_address_mask_t := TcpMask { tm_network : ip_addr_t; tm_mask : Z }.

Definition tcp_mask_new : tcp_address_mask_t := TcpMask ip_addr_zero (-1).

Definition tcp_mask_resolve (name : list Z) (ipv6 : bool) (t : tcp_address_mask_t) : outcome (rc_t * tcp_address_mask_t) :=
  let parts := match strrchr slash name with None => Some (name, []) | Some pos => let m := drop (S pos) name in if decide (m = []) then None else Some (take pos name, m) end in
  match parts with
  | None => Done (RcErr EINVAL, t)
  | Some (addr_str, mask_str) =>
      r ← ip_resolve (ResolverOptions false false ipv6 false false false) addr_str;
      match r with
      | inr e => Done (RcErr e, t)
      | inl a =>
          let full := if decide (ia_family a = AF_INET6) then 128 else 32 in
          Done (if decide (mask_str = []) then (RcOk, TcpMask a full)
                else if decide (mask_str = [48]) then (RcOk, TcpMask a 0)
                else
                  let mask := strtol mask_str in
                  if decide (mask < 1 ∨ full < mask) then (RcErr EINVAL, TcpMask a (tm_mask t)) else (RcOk, TcpMask a mask))
      end
  end.

(** [ss] with its length in bytes *)
Definition match_address (t : tcp_address_mask_t) (ss : ip_addr_t) (ss_len : Z) : outcome bool :=
  assert! (bool_decide (tm_mask t ≠ -1 ∧ 16 ≤ ss_len)) ;;
  if decide (ia_family ss ≠ ia_family (tm_network t)) then Done false
  else if decide (0 < tm_mask t) then
    let size := if decide (ia_family ss = AF_INET6) then 16 else 4 in
    assert! (bool_decide (ss_len = sockaddr_len ss)) ;;
    let ours := ia_bytes (tm_network t) in
    let theirs := ia_bytes ss in
    let mask := Z.min (tm_mask t) (8 * size) in
    let full_bytes := mask / 8 in
    if decide (take (Z.to_nat full_bytes) ours ≠ take (Z.to_nat full_bytes) theirs) then Done false
    else
      let last_byte_bits := u8 (Z.shiftl 255 (8 - mask `mod` 8)) in
      if decide (last_byte_bits = 0) then Done true
      else
        a ← geti theirs full_bytes;
        b ← geti ours full_bytes;
        Done (bool_decide (Z.land a last_byte_bits = Z.land b last_byte_bits))
  else Done true.

End names.

(** ** inproc and IPC addresses *)

Definition inproc_scheme : list Z := [105; 110; 112; 114; 111; 99; 58; 47; 47].

(** The name is stored before it is checked. *)
Definition inproc_resolve (name : option (list Z)) (old : list Z) : rc_t * list Z :=
  match name with None => (RcErr EINVAL, old) | Some n => (if decide (n = []) then RcErr EINVAL else RcOk, n) end.
Definition inproc_to_string (name : list Z) : option (list Z) := if decide (name = []) then None else Some (inproc_scheme ++ name).

(** [sun_path] has 108 bytes; the path ends at its first zero byte. *)
Definition sun_path_size : nat := 108.

Definition ipc_resolve (path old : list Z) : rc_t * list Z := if decide (sun_path_size ≤ length path)%nat then (RcErr ENAMETOOLONG, []) else (RcOk, path).
Definition ipc_to_string (path : list Z) : list Z := path.

(** ** address_t *)

(** What the protocol has resolved the address to, if anything *)
Inductive resolved_t := RNone | RTcp (t : tcp_address_t) | RIpc (path : list Z) | RInproc (name : list Z).

Definition address_to_string `{!NameService} (protocol address : list Z) (r : resolved_t) : outcome (option (list Z)) :=
  match r with
  | RTcp t => tcp_to_string t
  | RIpc path => Done (Some (ipc_to_string path))
  | RInproc name => Done (inproc_to_string name)
  | RNone => Done (if decide (protocol ≠ [] ∧ address ≠ []) then Some (protocol ++ [58; 47; 47] ++ address) else None)
  end.

(** ** Masks *)

(** Bit [i] of an address, the highest of the first byte first. *)
Definition addr_bit (l : list Z) (i : nat) : bool := Z.testbit (default 0 (l !! (i / 8)%nat)) (Z.of_nat (7 - i `mod` 8)).

Lemma byte_high x j : is_byte x → 8 ≤ j → Z.testbit x j = false.
Proof. intros Hx Hj. rewrite <- (Z.mod_small x (2 ^ 8)) by (unfold is_byte in Hx; lia). by apply Z.mod_pow2_bits_high. Qed.

Lemma mask_bit r j : 0 < r < 8 → 0 ≤ j → Z.testbit (u8 (Z.shiftl 255 (8 - r))) j = bool_decide (8 - r ≤ j < 8).
Proof.
  intros Hr Hj. unfold u8. destruct (decide (j < 8)) as [H|H]; [|rewrite Z.mod_pow2_bits_high by lia; by rewrite bool_decide_false by lia].
  rewrite Z.mod_pow2_bits_low, Z.shiftl_spec by lia. change 255 with (Z.ones 8). destruct (decide (8 - r ≤ j)) as [H1|H1]; [rewrite Z.ones_spec_low by lia; by rewrite bool_decide_true by lia|].
  rewrite Z.testbit_neg_r by lia. by rewrite bool_decide_false by lia.
Qed.

Lemma masked_eq x y r : is_byte x → is_byte y → 0 < r < 8 →
  Z.land x (u8 (Z.shiftl 255 (8 - r))) = Z.land y (u8 (Z.shiftl 255 (8 - r))) ↔ ∀ k : nat, Z.of_nat k < r → Z.testbit x (Z.of_nat (7 - k)) = Z.testbit y (Z.of_nat (7 - k)).
Proof.
  intros Hx Hy Hr. split.
  - intros E k Hk. assert (H : ∀ z, Z.testbit (Z.land z (u8 (Z.shiftl 255 (8 - r)))) (Z.of_nat (7 - k)) = Z.testbit z (Z.of_nat (7 - k))).
    { intros z. rewrite Z.land_spec, mask_bit by lia. rewrite bool_decide_true by lia. apply andb_true_r. }
    by rewrite <- H, E, H.
  - intros H. apply Z.bits_inj'. intros j Hj. rewrite !Z.land_spec, mask_bit by lia. case_bool_decide as Hb; [|by rewrite !andb_false_r]. rewrite !andb_true_r. specialize (H (Z.to_nat (7 - j))).
    replace (Z.of_nat (7 - Z.to_nat (7 - j))) with j in H by lia. apply H. lia.
Qed.

Lemma byte_eq x y : is_byte x → is_byte y → (∀ k, (k < 8)%nat → Z.testbit x (Z.of_nat (7 - k)) = Z.testbit y (Z.of_nat (7 - k))) → x = y.
Proof.
  intros Hx Hy H. apply Z.bits_inj'. intros j Hj. destruct (decide (j < 8)) as [Hl|Hl]; [|by rewrite !byte_high by (done || lia)]. specialize (H (Z.to_nat (7 - j))).
  replace (Z.of_nat (7 - Z.to_nat (7 - j))) with j in H by lia. apply H. lia.
Qed.

Lemma addr_bit_byte l q k x : l !! q = Some x → (k < 8)%nat → addr_bit l (8 * q + k) = Z.testbit x (Z.of_nat (7 - k)).
Proof.
  intros Hx Hk. unfold addr_bit. replace ((8 * q + k) / 8)%nat with q; [|symmetry; rewrite Nat.mul_comm, Nat.div_add_l by lia; rewrite (Nat.div_small k 8); lia].
  replace ((8 * q + k) `mod` 8)%nat with k; [by rewrite Hx|]. rewrite Nat.add_comm, Nat.mul_comm, Nat.Div0.mod_add. by rewrite Nat.mod_small.
Qed.

Lemma same_bytes l1 l2 n : bytes_ok l1 → bytes_ok l2 → length l1 = length l2 → (n ≤ length l1)%nat → take n l1 = take n l2 ↔ ∀ i, (i < 8 * n)%nat → addr_bit l1 i = addr_bit l2 i.
Proof.
  intros H1 H2 Hl Hn. split.
  - intros E i Hi. assert (Hq : (i / 8 < n)%nat) by (apply Nat.Div0.div_lt_upper_bound; lia). unfold addr_bit.
    replace (l1 !! (i / 8)%nat) with (l2 !! (i / 8)%nat); [done|]. by rewrite <- (lookup_take_lt l1 n), <- (lookup_take_lt l2 n), E.
  - intros H. apply list_eq. intros q. destruct (decide (q < n)%nat) as [Hq|Hq]; [|by rewrite !lookup_take_ge by lia]. rewrite !lookup_take_lt by done.
    destruct (lookup_lt_is_Some_2 l1 q ltac:(lia)) as [x Hx], (lookup_lt_is_Some_2 l2 q ltac:(lia)) as [y Hy]. rewrite Hx, Hy. f_equal. apply byte_eq; [by apply (Forall_lookup_1 _ _ _ _ H1 Hx)|by apply (Forall_lookup_1 _ _ _ _ H2 Hy)|].
    intros k Hk. rewrite <- (addr_bit_byte l1 q k x Hx Hk), <- (addr_bit_byte l2 q k y Hy Hk). apply H. lia.
Qed.

(** An address of one of the two families. *)
Definition ip_wf (a : ip_addr_t) : Prop := bytes_ok (ia_bytes a) ∧ (ia_family a = AF_INET ∧ length (ia_bytes a) = 4%nat ∨ ia_family a = AF_INET6 ∧ length (ia_bytes a) = 16%nat).

(** C38: an address matches a mask exactly if it is of the same family and agrees with the network in as many leading bits as the mask says, for every mask from 0 to the number of bits; no byte outside the addresses is read. *)
Theorem match_address_bits t ss : ip_wf (tm_network t) → ip_wf ss → 0 ≤ tm_mask t ≤ 8 * Z.of_nat (length (ia_bytes (tm_network t))) →
  ∃ b, match_address t ss (sockaddr_len ss) = Done b ∧
    (b = true ↔ ia_family ss = ia_family (tm_network t) ∧ ∀ i : nat, Z.of_nat i < tm_mask t → addr_bit (ia_bytes (tm_network t)) i = addr_bit (ia_bytes ss) i).
Proof.
  intros [Hb1 Hf1] [Hb2 Hf2] Hm. unfold match_address. assert (Hlen : 16 ≤ sockaddr_len ss) by (unfold sockaddr_len; case_decide; lia). rewrite slk_assert_bind by (split; [lia|done]).
  destruct (decide (ia_family ss ≠ ia_family (tm_network t))) as [Hne|Hfam]; [exists false; split; [done|]; split; [done|by intros [? _]]|]. apply dec_stable in Hfam.
  destruct (decide (0 < tm_mask t)) as [Hpos|Hz]; [|exists true; split; [done|]; split; [|done]; intros _; split; [done|]; intros i Hi; lia]. rewrite slk_assert_bind by done.
  set (ours := ia_bytes (tm_network t)) in *. set (theirs := ia_bytes ss) in *.
  assert (Hsz : Z.of_nat (length ours) = (if decide (ia_family ss = AF_INET6) then 16 else 4) ∧ length theirs = length ours).
  { unfold AF_INET, AF_INET6 in *. destruct Hf1 as [[E1 ->]|[E1 ->]], Hf2 as [[E2 ->]|[E2 ->]]; rewrite E1, E2 in *; try done. }
  destruct Hsz as [Hsz Hl2]. rewrite <- Hsz. rewrite Z.min_l by lia. set (m := tm_mask t) in *. pose proof (Z.div_mod m 8 ltac:(lia)) as Hdm. pose proof (Z.mod_pos_bound m 8 ltac:(lia)) as Hr. set (q := m / 8) in *. set (r := m `mod` 8) in *.
  assert (Hq : (Z.to_nat q ≤ length ours)%nat) by lia. pose proof (same_bytes ours theirs (Z.to_nat q) Hb1 Hb2 ltac:(lia) Hq) as Hsame. clear Hsz. destruct (decide (take (Z.to_nat q) ours ≠ take (Z.to_nat q) theirs)) as [Htk|Htk].
  { exists false. split; [done|]. split; [done|]. intros [_ H]. destruct Htk. apply Hsame. intros i Hi. apply H. lia. }
  apply dec_stable in Htk. destruct (decide (r = 0)) as [Hr0|Hr0].
  - rewrite Hr0. rewrite decide_True by reflexivity. exists true. split; [done|]. split; [|done]. intros _. split; [done|]. intros i Hi. apply Hsame; [done|lia].
  - assert (HM : u8 (Z.shiftl 255 (8 - r)) ≠ 0). { intros E. pose proof (mask_bit r 7 ltac:(lia) ltac:(lia)) as Hbit. rewrite E, Z.testbit_0_l, bool_decide_true in Hbit by lia. done. }
    rewrite decide_False by done. destruct (geti_in_range theirs q ltac:(lia)) as [x Hx], (geti_in_range ours q ltac:(lia)) as [y Hy]. rewrite Hx, bind_Done, Hy, bind_Done. apply geti_Done in Hx as [_ Hx], Hy as [_ Hy].
    pose proof (masked_eq x y r (proj1 (Forall_lookup _ _) Hb2 _ _ Hx) (proj1 (Forall_lookup _ _) Hb1 _ _ Hy) ltac:(lia)) as Hmask. eexists. split; [done|]. rewrite bool_decide_eq_true, Hmask. split.
    + intros Hk. split; [done|]. intros i Hi. destruct (decide (i < 8 * Z.to_nat q)%nat) as [Hlt|Hge]; [by apply Hsame|]. replace i with (8 * Z.to_nat q + (i - 8 * Z.to_nat q))%nat by lia.
      rewrite (addr_bit_byte ours _ _ y), (addr_bit_byte theirs _ _ x) by (done || lia). symmetry. apply Hk. lia.
    + intros [_ H] k Hk. specialize (H (8 * Z.to_nat q + k)%nat ltac:(lia)). by rewrite (addr_bit_byte ours _ _ y), (addr_bit_byte theirs _ _ x) in H by (done || lia).
Qed.

Lemma match_address_bits_witness : match_address (TcpMask (IpAddr AF_INET [10; 1; 64; 0] 0 0) 18) (IpAddr AF_INET [10; 1; 127; 9] 80 0) 16 = Done true.
Proof.
  destruct (match_address_bits (TcpMask (IpAddr AF_INET [10; 1; 64; 0] 0 0) 18) (IpAddr AF_INET [10; 1; 127; 9] 80 0)) as (b & E & Hb).
  - split; [repeat constructor; unfold is_byte; lia|left; done].
  - split; [repeat constructor; unfold is_byte; lia|left; done].
  - simpl. lia.
  - change (sockaddr_len (IpAddr AF_INET [10; 1; 127; 9] 80 0)) with 16 in E. rewrite E. f_equal. apply Hb. split; [done|]. intros i Hi. simpl in Hi. do 18 (destruct i as [|i]; [reflexivity|]). lia.
Defined.

(** ** Printing and resolving *)

Lemma strrchr_none c s : c ∉ s → strrchr c s = None.
Proof. induction s as [|x s IH]; intros H; [done|]. simpl. rewrite IH by set_solver. rewrite decide_False; [done|]. intros ->. apply H. left. Qed.

Lemma strrchr_app c a b : c ∉ b → strrchr c (a ++ c :: b) = Some (length a).
Proof. intros H. induction a as [|x a IH]; simpl; [rewrite (strrchr_none c b H), decide_True; done|]. by rewrite IH. Qed.

Lemma digits_app acc a b : Forall (λ c, is_digit c = true) a → digits acc (a ++ b) = digits (digits acc a) b.
Proof. intros H. revert acc. induction H as [|c a Hc _ IH]; intros acc; simpl; [done|]. by rewrite Hc. Qed.

Lemma print_dec_spec fuel n : 0 ≤ n < 10 ^ Z.of_nat fuel → (0 < fuel)%nat → Forall (λ c, is_digit c = true) (print_dec fuel n) ∧ digits 0 (print_dec fuel n) = n ∧ print_dec fuel n ≠ [].
Proof.
  revert n. induction fuel as [|fuel IH]; intros n Hn Hf; [lia|]. cbn [print_dec]. pose proof (Z.mod_pos_bound n 10 ltac:(lia)) as Hm. pose proof (Z.div_mod n 10 ltac:(lia)) as Hd.
  assert (Hdig : is_digit (48 + n `mod` 10) = true) by (unfold is_digit; apply bool_decide_eq_true; lia). split; [|split; [|by intros []%app_eq_nil]].
  - case_decide as H10; [by constructor; [|constructor]|]. apply Forall_app. split; [|by constructor; [|constructor]]. rewrite Nat2Z.inj_succ, Z.pow_succ_r in Hn by lia. apply IH; [|destruct fuel; [simpl in Hn; lia|lia]].
    split; [apply Z.div_pos; lia|apply Z.div_lt_upper_bound; lia].
  - case_decide as H10; cbn [app digits]; [rewrite Hdig; rewrite Z.mod_small by lia; lia|]. rewrite Nat2Z.inj_succ, Z.pow_succ_r in Hn by lia. destruct (IH (n / 10)) as (H1 & H2 & _); [split; [apply Z.div_pos; lia|apply Z.div_lt_upper_bound; lia]|destruct fuel; [simpl in Hn; lia|lia]|].
    rewrite digits_app, H2 by done. cbn [digits]. rewrite Hdig. lia.
Qed.

Lemma print_dec_length fuel n k : 0 ≤ n < 10 ^ Z.of_nat k → (0 < k)%nat → (length (print_dec fuel n) ≤ k)%nat.
Proof.
  revert n k. induction fuel as [|fuel IH]; intros n k Hn Hk; cbn [print_dec]; [simpl; lia|]. rewrite length_app. simpl. case_decide as H10; [simpl; lia|]. destruct k as [|[|k]]; [lia|simpl in Hn; lia|].
  rewrite Nat2Z.inj_succ, Z.pow_succ_r in Hn by lia. specialize (IH (n / 10) (S k)). assert (0 ≤ n / 10 < 10 ^ Z.of_nat (S k)) by (split; [apply Z.div_pos; lia|apply Z.div_lt_upper_bound; lia]). lia.
Qed.

Lemma read_int_digits s : Forall (λ c, is_digit c = true) s → read_int s = digits 0 s.
Proof.
  intros H. unfold read_int. destruct H as [|c s Hc Hs]; [done|]. unfold is_digit in Hc. apply bool_decide_eq_true in Hc. cbn [skip_space]. unfold is_space. rewrite !bool_decide_false by lia. simpl.
  assert (c = 48 ∨ c = 49 ∨ c = 50 ∨ c = 51 ∨ c = 52 ∨ c = 53 ∨ c = 54 ∨ c = 55 ∨ c = 56 ∨ c = 57) as Hcs by lia. by repeat destruct Hcs as [->|Hcs]; [..|subst].
Qed.

Lemma resolve_port_print `{!NameService} o p : 0 ≤ p < 65536 → resolve_port o (print_dec 10 p) = Done (inl p).
Proof.
  intros Hp. destruct (print_dec_spec 10 p) as (Hd & Hv & Hne); [simpl; lia|lia|]. unfold resolve_port. rewrite decide_False by (intros E; rewrite E in Hd; by apply Forall_cons in Hd as [? _]).
  case_decide as E0; [rewrite E0 in Hv; simpl in Hv; by subst|]. unfold atoi. rewrite (read_int_digits _ Hd), Hv, decide_True, bind_Done by lia. rewrite u16_small by lia. rewrite decide_False; [done|]. intros ->. by destruct E0.
Qed.

(** Numeric hosts: what getnameinfo prints for an address without a scope has none of the characters that structure an address, and getaddrinfo reads it back.
    (With a scope it prints a '%' and the zone behind the host.) *)
Class NumericHosts `{!NameService} := {
  nh_chars a h : getnameinfo a = Some h → ia_scope a = 0 → Forall (λ c, c ∉ [semicolon; percent; lbracket; rbracket]) h;
  nh_back a h (ipv6 : bool) : getnameinfo a = Some h → ia_family a = (if ipv6 then AF_INET6 else AF_INET) → ia_scope a = 0 →
    getaddrinfo (GaiReq (ia_family a) false false ipv6) h = GaiOk (IpAddr (ia_family a) (ia_bytes a) 0 0);
}.

Lemma forall_not_in (cs h : list Z) c : Forall (λ x, x ∉ cs) h → c ∈ cs → c ∉ h.
Proof. intros H Hc Hin. by apply (proj1 (Forall_forall _ _) H c Hin). Qed.

Lemma strip_brackets_in h : strip_brackets (lbracket :: h ++ [rbracket]) = h.
Proof.
  unfold strip_brackets. rewrite decide_True; [|split; [simpl; rewrite length_app; simpl; lia|split; [done|by rewrite last_cons, last_snoc]]].
  simpl. rewrite length_app. simpl. replace (length h + 1 - 1)%nat with (length h) by lia. apply take_app_length.
Qed.

Lemma strip_brackets_out h : lbracket ∉ h → strip_brackets h = h.
Proof. intros H. unfold strip_brackets. rewrite decide_False; [done|]. intros (_ & Hh & _). destruct h as [|c h]; [done|]. simpl in Hh. injection Hh as ->. apply H. left. Qed.

(** C39: [resolve] reads what [to_string] prints. A TCP address of the family that the socket asks for is printed with its port, an IPv6 host in brackets; a socket splits the text into the protocol tcp and a rest, and resolving the rest for a connection gives the same address, for every port.
    This is for addresses without a scope (an IPv6 address with one, as link-local addresses have, is printed with its zone and is not covered), and of the name service it uses that a numeric host without a scope is printed
    without the characters ; % [ ] and is read back as the same bytes ([NumericHosts]). *)
Theorem tcp_address_roundtrip `{!NameService} `{!NumericHosts} a (ipv6 : bool) t t' h :
  ia_family a = (if ipv6 then AF_INET6 else AF_INET) → ia_scope a = 0 → 0 ≤ ia_port a < 65536 → ta_address t = a → getnameinfo a = Some h →
  ∃ text s, tcp_to_string t = Done (Some text) ∧ parse_uri text = Some (protocol_tcp, s) ∧ tcp_resolve s false ipv6 t' = Done (RcOk, TcpAddress a (ta_source t') (ta_has_src t')).
Proof.
  intros Hfam Hsc Hp Ht Hh. pose proof (nh_chars a h Hh Hsc) as Hch. pose proof (nh_back a h ipv6 Hh Hfam Hsc) as Hback. destruct (print_dec_spec 10 (ia_port a)) as (Hd & Hv & Hne); [simpl; lia|lia|].
  assert (Hlen : (0 < length (print_dec 10 (ia_port a)) < 6)%nat).
  { split; [destruct (print_dec 10 (ia_port a)); [done|simpl; lia]|]. pose proof (print_dec_length 10 (ia_port a) 5 ltac:(simpl; lia) ltac:(lia)). lia. }
  set (pd := print_dec 10 (ia_port a)) in *. assert (Hpd : ∀ c, is_digit c = false → c ∉ pd) by (intros c Hc Hin; rewrite Forall_forall in Hd; specialize (Hd c Hin); congruence).
  set (host := if ipv6 then [lbracket] ++ h ++ [rbracket] else h). set (s := host ++ colon :: pd). exists (tcp_scheme ++ s), s. split; [|split].
  - unfold tcp_to_string. rewrite Ht, Hh. rewrite decide_False by (rewrite Hfam; destruct ipv6; tauto). assert (Hms : ∀ pre suf, make_address_string h (ia_port a) pre suf = Done (pre ++ h ++ suf ++ pd)) by (intros; unfold make_address_string; fold pd; by rewrite slk_assert_bind).
    rewrite !Hms. unfold s, host. rewrite Hfam. destruct ipv6; [rewrite decide_True by done|rewrite decide_False by done]; rewrite bind_Done; do 2 f_equal; rewrite <- ?app_assoc; done.
  - apply (parse_uri_print protocol_tcp s); [unfold protocol_tcp; set_solver|done|]. unfold s. by intros []%app_eq_nil.
  - assert (Hcolon : strrchr colon s = Some (length host)) by (apply strrchr_app, Hpd; done).
    assert (Hsemi : semicolon ∉ s). { unfold s. intros [Hin|[E|Hin]%elem_of_cons]%elem_of_app; [|done|by apply (Hpd semicolon)]. assert (semicolon ∉ h) by (apply (forall_not_in _ _ _ Hch); set_solver). unfold host in Hin. destruct ipv6; set_solver. }
    unfold tcp_resolve. rewrite (strrchr_none _ _ Hsemi), bind_Done. unfold ip_resolve at 1. cbn [ro_port_expected]. rewrite Hcolon.
    assert (Hdrop : drop (S (length host)) s = pd) by (unfold s; rewrite drop_app_ge by lia; by replace (S (length host) - length host)%nat with 1%nat by lia). assert (Htake : take (length host) s = host) by (apply take_app_length).
    rewrite Hdrop, Htake. unfold pd. rewrite (resolve_port_print _ _ Hp), !bind_Done. unfold strip_path. cbn [ro_path_allowed].
    assert (Hst : strip_brackets host = h) by (unfold host; destruct ipv6; [apply strip_brackets_in|apply strip_brackets_out, (forall_not_in _ _ _ Hch); set_solver]). rewrite Hst.
    unfold strip_zone. rewrite strrchr_none by (apply (forall_not_in _ _ _ Hch); set_solver). rewrite bind_Done. unfold resolve_host. cbn [ro_bindable ro_nic_name_allowed]. rewrite decide_False by naive_solver. rewrite bind_Done, decide_True by done.
    unfold resolve_getaddrinfo. cbn [ro_ipv6 ro_bindable ro_dns_allowed negb gr_v4mapped]. rewrite Hfam in Hback. rewrite Hback, !bind_Done. f_equal. f_equal. f_equal. unfold ip_set_port. simpl. destruct a as [fam bytes port scope]. simpl in *. subst scope.
    destruct ipv6; [rewrite decide_True by done|rewrite decide_False by done]; unfold ip_set_scope; simpl; congruence.
Qed.

(** ** A name service to run it with *)

Module Names.

(** A host is its bytes, moved away from the characters that have a meaning. *)
Definition host_of (a : ip_addr_t) : option (list Z) := if decide (bytes_ok (ia_bytes a)) then Some ((λ b, b + 1000) <$> ia_bytes a) else None.

#[export] Instance toy_names : NameService := {
  have_ifaddrs := false;
  have_nametoindex := false;
  getaddrinfo r h := GaiOk (IpAddr (gr_family r) ((λ c, c - 1000) <$> h) 0 0);
  getifaddrs _ := IfUnsupported;
  if_nametoindex _ := 0;
  getnameinfo := host_of;
}.

#[export] Instance toy_hosts : NumericHosts.
Proof.
  split.
  - intros a h. simpl. unfold host_of. case_decide as Hb; [|done]. intros [= <-] _. apply Forall_fmap, (Forall_impl _ _ _ Hb). intros b [H1 H2]. simpl. unfold semicolon, percent, lbracket, rbracket.
    rewrite !not_elem_of_cons. split; [lia|]. split; [lia|]. split; [lia|]. split; [lia|apply not_elem_of_nil].
  - intros a h ipv6. simpl. unfold host_of. case_decide; [|done]. intros [= <-] _ _. do 2 f_equal. rewrite <- list_fmap_compose. rewrite <- (list_fmap_id (ia_bytes a)) at 2. apply list_fmap_ext. intros i x _. simpl. lia.
Qed.

End Names.

Import Names.

Lemma tcp_address_roundtrip_witness : ∃ text s, tcp_to_string (TcpAddress (IpAddr AF_INET [127; 0; 0; 1] 5555 0) ip_addr_zero false) = Done (Some text) ∧ parse_uri text = Some (protocol_tcp, s)
  ∧ tcp_resolve s false false tcp_address_new = Done (RcOk, TcpAddress (IpAddr AF_INET [127; 0; 0; 1] 5555 0) ip_addr_zero false).
Proof. apply (tcp_address_roundtrip (IpAddr AF_INET [127; 0; 0; 1] 5555 0) false _ tcp_address_new [1127; 1000; 1000; 1001]); [reflexivity|reflexivity|simpl; lia|reflexivity|vm_compute; reflexivity]. Defined.

(** ** Behaviour that surprises *)

(** The port is reduced to 16 bits, and what follows the digits is ignored: "65537" is port 1, "-1" port 65535, "80x" port 80. *)
Lemma port_wraps o : resolve_port o [54; 53; 53; 51; 55] = Done (inl 1) ∧ resolve_port o [45; 49] = Done (inl 65535) ∧ resolve_port o [56; 48; 120] = Done (inl 80).
Proof. by repeat split. Qed.

(** Without SL_HAVE_IFADDRS and HAVE_IF_NAMETOINDEX no name of an interface is resolved, in an address or as a zone. *)
Lemma no_interface_names `{!NameService} o nic c rest : have_ifaddrs = false → have_nametoindex = false → is_alpha c = true → strrchr percent (c :: rest) = None →
  resolve_nic_name o nic = Done (inr ENODEV) ∧ strip_zone (percent :: c :: rest) = Done (inr EINVAL).
Proof.
  intros H1 H2 Hc Hr. unfold resolve_nic_name. rewrite H1. split; [done|]. unfold strip_zone. cbn [strrchr] in Hr |- *. rewrite Hr. rewrite decide_True by done. cbn [drop]. rewrite Hc, bind_Done. unfold do_if_nametoindex. by rewrite H2.
Qed.

(** What [to_string] prints for IPC is not an endpoint. *)
Lemma ipc_text_is_no_endpoint : parse_uri (ipc_to_string [47; 116; 109; 112; 47; 120]) = None.
Proof. vm_compute. reflexivity. Qed.
