(* ===== verification/Pair.v ===== *)
(** The PAIR socket (src/core/pair.cpp): one peer, messages in both directions.

    The socket uses its pipe through the class [PairPipes].  Its instance is an end of
    the pair of pipes of Pipe, so that two PAIR sockets joined by a pipe are one
    system: [duo], with the steps of the two applications and the arrival of commands
    in any order.  The history of what was sent and received is kept beside it. *)
From S2P Require Import Prelude Msg YPipe Pipe PipeFlow.

(** ** Pipes, as the socket uses them *)

Class PairPipes (W P : Type) := {
  pp_write : W → P → msg_t → outcome (bool * W);
  pp_flush : W → P → outcome W;
  pp_read : W → P → outcome (option msg_t * W);
  pp_check_read : W → P → outcome (bool * W);
  pp_check_write : W → P → outcome (bool * W);
  pp_terminate : W → P → bool → outcome W;
}.

(** ** The socket *)

Record pair_t (P : Type) := PairSock { pr_pipe : option P }.
Arguments PairSock {P} _.
Arguments pr_pipe {P} _.

Definition pair_new {P} : pair_t P := PairSock None.

(** The destructor asserts that the pipe is gone. *)
Definition pair_destroy {P} (s : pair_t P) : outcome () :=
  assert! (match pr_pipe s with None => true | Some _ => false end);; Done ().

Section socket.
Context {W P : Type} `{!PairPipes W P} `{!EqDecision P}.

Definition pair_xattach_pipe (w : W) (s : pair_t P) (p : P) : outcome (W * pair_t P) :=
  match pr_pipe s with
  | None => Done (w, PairSock (Some p))
  | Some _ => w ← pp_terminate w p false; Done (w, s)
  end.

Definition pair_xpipe_terminated (s : pair_t P) (p : P) : pair_t P :=
  if decide (pr_pipe s = Some p) then PairSock None else s.

Definition pair_xsend (w : W) (s : pair_t P) (m : msg_t) : outcome (W * msg_t * rc_t) :=
  match pr_pipe s with
  | None => Done (w, m, RcErr EAGAIN)
  | Some p =>
      '(written, w) ← pp_write w p m;
      if negb written then Done (w, m, RcErr EAGAIN)
      else
        w ← (if has_flag m msg_more then Done w else pp_flush w p);
        Done (w, msg_init, RcOk)
  end.

Definition pair_xrecv (h : heap) (w : W) (s : pair_t P) (m : msg_t) : outcome (heap * W * msg_t * rc_t) :=
  '(rc, h, m) ← msg_close h m;
  assert! bool_decide (rc = RcOk);;
  '(r, w) ← (match pr_pipe s with None => Done (None, w) | Some p => pp_read w p end);
  match r with
  | None => Done (h, w, msg_init, RcErr EAGAIN)
  | Some m => Done (h, w, m, RcOk)
  end.

Definition pair_xhas_in (w : W) (s : pair_t P) : outcome (bool * W) :=
  match pr_pipe s with None => Done (false, w) | Some p => pp_check_read w p end.

Definition pair_xhas_out (w : W) (s : pair_t P) : outcome (bool * W) :=
  match pr_pipe s with None => Done (false, w) | Some p => pp_check_write w p end.

(** A PAIR socket keeps its first peer: further pipes are told to go, and their end
    does not disturb the peer. *)
Lemma pair_keeps_peer w s p q w' s' :
  pr_pipe s = Some p → q ≠ p → pair_xattach_pipe w s q = Done (w', s') →
  pp_terminate w q false = Done w' ∧ s' = s ∧ pair_xpipe_terminated s' q = s.
Proof.
  intros Hp Hq. unfold pair_xattach_pipe, pair_xpipe_terminated. rewrite Hp. intros (w1 & -> & [= <- <-])%bind_Done_inv.
  rewrite Hp, decide_False by congruence. done.
Qed.
End socket.

(** ** An end of a pair of pipes *)

(** An operation of the left end, with its result. *)
Definition at_left {R} (s : psys) (f : penv → outcome (R * penv)) : outcome (R * psys) :=
  match sy_left s with
  | None => Undef
  | Some p => '(r, e) ← f (env_of p s); Done (r, after s (sy_rl s) e)
  end.

#[export] Instance end_pipes : PairPipes psys () := {|
  pp_write s _ m := at_left s (pipe_write m);
  pp_flush s _ := snd <$> at_left s (λ e, e ← pipe_flush e; Done ((), e));
  pp_read s _ := at_left s pipe_read;
  pp_check_read s _ := at_left s pipe_check_read;
  pp_check_write s _ := at_left s (λ e, Done (pipe_check_write e));
  pp_terminate s _ d := snd <$> at_left s (λ e, e ← pipe_terminate d e; Done ((), e));
|}.

(** ** Two sockets *)

(** A socket with the messages its application sent and received. *)
Record peer := Peer { pe_sock : pair_t (); pe_out : list msg_t; pe_in : list msg_t }.

Record duo := Duo { du_sys : psys; du_left : peer; du_right : peer; du_heap : heap }.

Definition swap_duo (d : duo) : duo := Duo (swap_sys (du_sys d)) (du_right d) (du_left d) (du_heap d).

(** Both sockets have attached their end. *)
Definition duo_new (h : heap) (hwm0 hwm1 : Z) : duo :=
  Duo (pipepair hwm0 hwm1) (Peer (PairSock (Some ())) [] []) (Peer (PairSock (Some ())) [] []) h.

Inductive pact := ASend (m : msg_t) | ARecv | AHasIn | AHasOut | AProcess | AClose.

(** The result of a step, as the application sees it. *)
Inductive pres := PNone | PSent (rc : rc_t) | PRecv (rc : rc_t) (m : msg_t) | PHas (b : bool).

(** What the application of the left socket, or its thread, does.  [AProcess] takes
    the next command of the pipe; when the end is gone the socket was told.
    [AClose] is [socket_base_t::process_term] for the pipe. *)
Definition left_act (d : duo) (a : pact) : outcome (pres * duo) :=
  let '(Duo s (Peer k out inn) r h) := d in
  match a with
  | ASend m =>
      '(s, _, rc) ← pair_xsend s k m;
      Done (PSent rc, Duo s (Peer k (if decide (rc = RcOk) then out ++ [m] else out) inn) r h)
  | ARecv =>
      '(h, s, m, rc) ← pair_xrecv h s k msg_init;
      Done (PRecv rc m, Duo s (Peer k out (if decide (rc = RcOk) then inn ++ [m] else inn)) r h)
  | AHasIn => '(b, s) ← pair_xhas_in s k; Done (PHas b, Duo s (Peer k out inn) r h)
  | AHasOut => '(b, s) ← pair_xhas_out s k; Done (PHas b, Duo s (Peer k out inn) r h)
  | AProcess =>
      o ← left_step s UProcess;
      match o with
      | None => Done (PNone, d)
      | Some s' =>
          let k := match sy_left s, sy_left s' with Some _, None => pair_xpipe_terminated k () | _, _ => k end in
          Done (PNone, Duo s' (Peer k out inn) r h)
      end
  | AClose =>
      match pr_pipe k with
      | None => Done (PNone, d)
      | Some p => s ← pp_terminate s p false; Done (PNone, Duo s (Peer k out inn) r h)
      end
  end.

Definition duo_act (d : duo) (on_left : bool) (a : pact) : outcome (pres * duo) :=
  if on_left then left_act d a else '(r, d) ← left_act (swap_duo d) a; Done (r, swap_duo d).

(** Applications send messages: no delimiters and no credentials. *)
Definition act_ok (a : pact) : Prop := match a with ASend m => plain_msg m | _ => True end.

Inductive duo_reachable (h : heap) (hwm0 hwm1 : Z) : duo → Prop :=
| duo_init : duo_reachable h hwm0 hwm1 (duo_new h hwm0 hwm1)
| duo_step d on_left a r d' :
    duo_reachable h hwm0 hwm1 d → act_ok a → duo_act d on_left a = Done (r, d') → duo_reachable h hwm0 hwm1 d'.

(** ** The queue between them *)

(** The last part ends a message. *)
Definition ends_whole (l : list msg_t) : Prop := ∀ m, last l = Some m → has_flag m msg_more = false.

Definition plain_delim (m : msg_t) : Prop := is_delimiter m = true ∧ is_credential m = false.

(** What was sent is what was received, what waits, the parts of a message that is
    being written, and what was rolled back.  Only behind it are delimiters, and
    neither they nor anything rolled back are there while the writer is [active]. *)
Definition queue_ok (act : bool) (u : upipe) (sent recv : list msg_t) : Prop :=
  sp_complete u = [] ∧ ∃ body ds rest,
    sp_flushed u = body ++ ds ∧ Forall plain_msg (body ++ sp_incomplete u) ∧ Forall plain_delim ds
    ∧ sent = recv ++ body ++ sp_incomplete u ++ rest ∧ ends_whole (recv ++ body) ∧ (act = true → ds = [] ∧ rest = []).

Lemma queue_ok_weaken act u sent recv : queue_ok act u sent recv → queue_ok false u sent recv.
Proof. intros (H1 & b & ds & rest & ? & ? & ? & ? & ? & _). split; [done|]. by exists b, ds, rest. Qed.

Lemma ends_whole_snoc l m : has_flag m msg_more = false → ends_whole (l ++ [m]).
Proof. intros Hm m'. rewrite last_snoc. by intros [= <-]. Qed.

Lemma queue_ok_write u sent recv m :
  plain_msg m → queue_ok true u sent recv →
  queue_ok true (if has_flag m msg_more then up_write u m true else (up_flush (up_write u m false)).2) (sent ++ [m]) recv.
Proof.
  intros Hm (H1 & b & ds & rest & H2 & H3 & H4 & H5 & H6 & H7). destruct (H7 eq_refl) as [-> ->].
  destruct u as [fl co inc asl]. simpl in *. subst co. rewrite app_nil_r in *. subst fl.
  destruct (has_flag m msg_more) eqn:Hf; simpl.
  - split; [done|]. exists b, [], []. simpl. rewrite !app_nil_r. split_and!; try done.
    + rewrite app_assoc. apply Forall_app. split; [done|by apply Forall_singleton].
    + subst sent. by rewrite <- !app_assoc.
  - unfold up_flush. simpl. assert (Hne : ∃ x l, inc ++ [m] = x :: l) by (destruct inc; simpl; eauto).
    destruct Hne as (x & l & Hne). rewrite Hne. simpl. split; [done|]. exists (b ++ inc ++ [m]), [], [].
    rewrite Hne. simpl. rewrite !app_nil_r. split_and!; try done.
    + rewrite <- Hne, app_assoc. apply Forall_app. split; [done|by apply Forall_singleton].
    + subst sent. rewrite <- Hne, <- !app_assoc. done.
    + rewrite <- Hne, !app_assoc. by apply ends_whole_snoc.
Qed.

Lemma queue_ok_flush act u sent recv : queue_ok act u sent recv → (up_flush u).2 = u.
Proof. intros [H1 _]. destruct u as [fl co inc asl]. simpl in H1. by subst. Qed.

Definition rolled_back (u : upipe) : upipe := Spec (sp_flushed u) (sp_complete u) [] (sp_asleep u).

Lemma queue_ok_rollback act u sent recv : queue_ok act u sent recv → queue_ok false (rolled_back u) sent recv.
Proof.
  intros (H1 & b & ds & rest & H2 & [H3 H3']%Forall_app & H4 & H5 & H6 & _). split; [done|].
  exists b, ds, (sp_incomplete u ++ rest). simpl. rewrite app_nil_r. split_and!; done.
Qed.

(** The delimiter of a writer that goes. *)
Lemma queue_ok_delim act u sent recv :
  queue_ok act u sent recv → queue_ok false (up_flush (up_write (rolled_back u) msg_init_delimiter false)).2 sent recv.
Proof.
  intros (H1 & b & ds & rest & H2 & H3 & H4 & H5 & H6 & _)%queue_ok_rollback. destruct u as [fl co inc asl]. simpl in *. subst co fl.
  split; [done|]. exists b, (ds ++ [msg_init_delimiter]), rest. simpl. rewrite app_assoc. split_and!; try done.
  apply Forall_app. split; [done|by apply Forall_singleton].
Qed.

Lemma queue_ok_asleep act u sent recv a :
  queue_ok act u sent recv → queue_ok act (Spec (sp_flushed u) (sp_complete u) (sp_incomplete u) a) sent recv.
Proof. done. Qed.

Lemma queue_ok_empty act u sent recv : queue_ok act u sent recv → sp_flushed u = [] → ends_whole recv.
Proof.
  intros (_ & b & ds & rest & H2 & _ & _ & _ & H6 & _) Hfl. rewrite Hfl in H2. symmetry in H2. apply app_eq_nil in H2 as [-> ->].
  by rewrite app_nil_r in H6.
Qed.

Lemma queue_ok_read act u sent recv m fl :
  queue_ok act u sent recv → sp_flushed u = m :: fl →
  let u' := Spec fl (sp_complete u) (sp_incomplete u) (sp_asleep u) in
  (plain_delim m ∧ queue_ok act u' sent recv) ∨ (plain_msg m ∧ queue_ok act u' sent (recv ++ [m])).
Proof.
  intros (H1 & b & ds & rest & H2 & H3 & H4 & H5 & H6 & H7) Hfl u'. rewrite Hfl in H2. destruct b as [|m' b].
  - simpl in H2. subst ds. apply Forall_cons in H4 as [Hm H4]. left. split; [done|]. split; [done|].
    exists [], fl, rest. split_and!; try done. intros Ha. by destruct (H7 Ha).
  - injection H2 as <- H2. simpl in H3. apply Forall_cons in H3 as [Hm H3]. right. split; [done|]. split; [done|].
    exists b, ds, rest. simpl. rewrite <- !app_assoc. split_and!; done.
Qed.

Lemma queue_ok_prefix act u sent recv : queue_ok act u sent recv → recv `prefix_of` sent.
Proof. intros (_ & b & ds & rest & _ & _ & _ & -> & _). by eexists. Qed.

(** ** One direction *)

(** From [x] to [y] over the queue [q]. *)
Record dirq (x y : option pipe_t) (ups : gmap nat upipe) (sent recv : list msg_t) (q : nat) : Prop := {
  dq_prefix : recv `prefix_of` sent;
  dq_out : ∀ p q', x = Some p → pi_out_pipe p = Some q' → q' = q;
  dq_in : ∀ p, y = Some p → pi_in_pipe p = q;
  dq_asleep : ∀ p, y = Some p → pi_in_active p = false → ends_whole recv;
  dq_queue : ∀ u, ups !! q = Some u → queue_ok (bool_decide (state_of x = Some active)) u sent recv;
}.

(** The left end in the middle of an operation, against the right end [y]. *)
Section left_end.
Context {y : option pipe_t} {rr sr : list msg_t} {qo qi : nat} (Hne : qo ≠ qi).

Definition linked (e : penv) (sl rl : list msg_t) : Prop :=
  dirq (Some (pe_pipe e)) y (pe_ups e) sl rr qo ∧ dirq y (Some (pe_pipe e)) (pe_ups e) sr rl qi.

(** The end changes, the queues do not. *)
Lemma linked_pipe e e' sl rl :
  linked e sl rl → pe_ups e' = pe_ups e → pi_in_pipe (pe_pipe e') = pi_in_pipe (pe_pipe e) →
  (pi_out_pipe (pe_pipe e') = None ∨ pi_out_pipe (pe_pipe e') = pi_out_pipe (pe_pipe e)) →
  (st_of e' = active → st_of e = active) →
  (pi_in_active (pe_pipe e') = false → pi_in_active (pe_pipe e) = false ∨ ends_whole rl) → linked e' sl rl.
Proof.
  intros [[A1 A2 A3 A4 A5] [B1 B2 B3 B4 B5]] Hu Hi Ho Hs Ha. split; split; try done.
  - intros p q' [= <-] Hq. destruct Ho as [Ho|Ho]; rewrite Ho in Hq; [done|]. by eapply A2.
  - intros u. rewrite Hu. intros Hq. specialize (A5 u Hq). simpl in *. destruct (decide (st_of e' = active)) as [Hst|Hst].
    + by rewrite (Hs Hst), bool_decide_eq_true_2 in A5 by done; rewrite Hst, bool_decide_eq_true_2.
    + rewrite bool_decide_eq_false_2 by congruence. by eapply queue_ok_weaken.
  - intros p [= <-]. rewrite Hi. by apply B3.
  - intros p [= <-] Hf. destruct (Ha Hf) as [Hf'|?]; [|done]. by eapply B4.
  - intros u. rewrite Hu. apply B5.
Qed.

(** A new content of the queue that is written. *)
Lemma linked_out e e' sl sl' rl q u u' :
  linked e sl rl → pi_out_pipe (pe_pipe e) = Some q → pe_ups e !! q = Some u → pe_ups e' = <[q := u']> (pe_ups e) →
  pe_pipe e' = pe_pipe e → sl `prefix_of` sl' →
  (queue_ok (bool_decide (st_of e = active)) u sl rr → queue_ok (bool_decide (st_of e = active)) u' sl' rr) → linked e' sl' rl.
Proof.
  intros [[A1 A2 A3 A4 A5] [B1 B2 B3 B4 B5]] Hq Hu Hups Hp Hs Hk. assert (q = qo) as -> by (by eapply A2).
  split; split; rewrite ?Hp; try done.
  - by etransitivity.
  - intros v. rewrite Hups, lookup_insert_eq. intros [= <-]. specialize (A5 u Hu). simpl in *.
    rewrite (bool_decide_ext (Some (st_of e) = Some active) (st_of e = active)) in A5 |- * by (split; congruence). auto.
  - intros v. rewrite Hups, lookup_insert_ne by congruence. apply B5.
Qed.

(** A new content of the queue that is read. *)
Lemma linked_in e e' sl rl rl' u u' :
  linked e sl rl → pe_ups e !! pi_in_pipe (pe_pipe e) = Some u →
  pe_ups e' = <[pi_in_pipe (pe_pipe e) := u']> (pe_ups e) → pe_pipe e' = pe_pipe e →
  (pi_in_active (pe_pipe e) = false → rl' = rl) →
  (∀ act, queue_ok act u sr rl → queue_ok act u' sr rl') → linked e' sl rl'.
Proof.
  intros [[A1 A2 A3 A4 A5] [B1 B2 B3 B4 B5]] Hu Hups Hp Ha Hk. rewrite (B3 _ eq_refl) in *.
  assert (Hq' : queue_ok (bool_decide (state_of y = Some active)) u' sr rl') by (by apply Hk, B5).
  split; split; rewrite ?Hp; try done.
  - intros v. rewrite Hups, lookup_insert_ne by congruence. apply A5.
  - by eapply queue_ok_prefix.
  - intros p [= <-] Hf. rewrite (Ha Hf). by eapply B4.
  - intros v. rewrite Hups, lookup_insert_eq. intros [= <-]. done.
Qed.

Lemma linked_check_write e sl rl : linked e sl rl → linked (pipe_check_write e).2 sl rl.
Proof.
  intros Hl. unfold pipe_check_write. repeat case_match; simpl; try done. apply (linked_pipe e); try done; [by right|by left].
Qed.

Lemma linked_rollback e e' sl rl :
  env_ok e → linked e sl rl → st_of e ≠ active → pipe_rollback e = Done e' → pe_pipe e' = pe_pipe e ∧ linked e' sl rl.
Proof.
  intros Hok Hl Hst. unfold pipe_rollback. destruct (pi_out_pipe (pe_pipe e)) as [q|] eqn:Hq; [|by intros [= <-]].
  pose proof Hok as (_ & Ho & Hm). destruct (Ho q Hq) as [u Hu]. rewrite (get_up_done e q u Hu), bind_Done.
  destruct (rollback_loop_spec (S (length (sp_incomplete u))) q e u) as (e1 & -> & Hp & _ & _ & Hups); [done|by eapply Hm|lia|].
  intros [= <-]. split; [done|]. eapply (linked_out e e1 sl sl rl q u (rolled_back u)); try done.
  rewrite bool_decide_eq_false_2 by done. apply queue_ok_rollback.
Qed.

(** The end of [terminate]: roll back, and leave a delimiter. *)
Lemma linked_delim e e1 e' sl rl q :
  env_ok e → linked e sl rl → st_of e ≠ active → st_of e ≠ term_ack_sent → pi_out_pipe (pe_pipe e) = Some q →
  pipe_rollback e = Done e1 → write_out msg_init_delimiter q e1 = Done e' → linked e' sl rl.
Proof.
  intros Hok Hl Hst Hst' Hq Hr Hw. unfold pipe_rollback in Hr. rewrite Hq in Hr.
  pose proof Hok as (_ & Ho & Hm). destruct (Ho q Hq) as [u Hu]. rewrite (get_up_done e q u Hu), bind_Done in Hr.
  destruct (rollback_loop_spec (S (length (sp_incomplete u))) q e u) as (e2 & Hr' & Hp & _ & _ & Hups); [done|by eapply Hm|lia|].
  rewrite Hr' in Hr. injection Hr as <-. fold (rolled_back u) in Hups.
  unfold write_out in Hw. rewrite (get_up_done e2 q (rolled_back u)), bind_Done in Hw by (rewrite Hups; by rewrite lookup_insert_eq).
  unfold pipe_flush in Hw. simpl in Hw. rewrite decide_False in Hw by (by rewrite Hp). rewrite Hp, Hq in Hw.
  set (u1 := up_write (rolled_back u) msg_init_delimiter false) in *.
  rewrite (get_up_done _ q u1), bind_Done in Hw by (simpl; by rewrite lookup_insert_eq).
  destruct (up_flush u1) as [ok u'] eqn:Hf. injection Hw as <-.
  eapply (linked_out e _ sl sl rl q u u'); try done.
  - destruct ok; simpl; by rewrite Hups, !insert_insert_eq.
  - by destruct ok; simpl.
  - rewrite bool_decide_eq_false_2 by done. intros H%queue_ok_delim. fold u1 in H. by rewrite Hf in H.
Qed.

Lemma linked_terminate d e e' sl rl : env_ok e → linked e sl rl → pipe_terminate d e = Done e' → linked e' sl rl.
Proof.
  intros Hok Hl. unfold pipe_terminate. set (e0 := set_pipe (with_delay d) e).
  assert (Hl0 : linked e0 sl rl) by (apply (linked_pipe e); try done; [by right|by left]).
  assert (Hgo : ∀ e1, env_ok e1 → linked e1 sl rl → st_of e1 ≠ active →
    (pi_out_pipe (pe_pipe e1) ≠ None → st_of e1 ≠ term_ack_sent) →
    (let e := set_pipe (λ p, with_active (pi_in_active p) false p) e1 in
     match pi_out_pipe (pe_pipe e) with
     | None => Done e
     | Some q => e ← pipe_rollback e; write_out msg_init_delimiter q e
     end) = Done e' → linked e' sl rl).
  { intros e1 Hok1 Hl1 Hst Hack. set (e2 := set_pipe _ e1).
    assert (Hl2 : linked e2 sl rl) by (apply (linked_pipe e1); try done; [by right|by left]).
    simpl. destruct (pi_out_pipe (pe_pipe e1)) as [q|] eqn:Hq; [|by intros [= <-]].
    intros (e3 & Hr & Hw)%bind_Done_inv. eapply (linked_delim e2 e3 e' sl rl q); try done. by apply Hack. }
  change (st_of e0) with (st_of e). destruct (st_of e) eqn:Hst; try (by intros [= <-]).
  - rewrite bind_Done. apply Hgo; try done. apply (linked_pipe e0); try done; [by right|by left].
  - rewrite bind_Done. apply Hgo; try done. apply (linked_pipe e0); try done; [by right|by left].
  - destruct d; simpl negb; cbv iota.
    + rewrite bind_Done. apply Hgo; try done; simpl; by rewrite Hst.
    + intros (e2 & (e1 & Hr & [= <-])%bind_Done_inv & Hk)%bind_Done_inv.
      destruct (linked_rollback e0 e1 sl rl Hok Hl0) as [Hp Hl1]; [simpl; by rewrite Hst|done|].
      revert Hk. apply Hgo; try done.
      * pose proof (rollback_quiet e0 Hok) as (e3 & Hr' & Hq & _). rewrite Hr in Hr'. injection Hr' as <-.
        pose proof (quiet_env_ok _ _ _ Hq Hok) as (G1 & G2 & G3). by split_and!.
      * apply (linked_pipe e1); try done; [by left|by left].
Qed.

Lemma linked_process_delimiter e e' sl rl :
  env_ok e → linked e sl rl → process_delimiter e = Done e' → linked e' sl rl.
Proof.
  intros Hok Hl. unfold process_delimiter. destruct (st_of e) eqn:Hst; try done.
  - intros [= <-]. apply (linked_pipe e); try done; [by right|by left].
  - intros (e1 & Hr & [= <-])%bind_Done_inv. destruct (linked_rollback e e1 sl rl Hok Hl) as [Hp Hl1]; [by rewrite Hst|done|].
    apply (linked_pipe e1); try done; [by left|by left].
Qed.

Lemma write_facts m e e1 :
  pipe_write m e = Done (true, e1) →
  st_of e = active ∧ ∃ q u, pi_out_pipe (pe_pipe e) = Some q ∧ pe_ups e !! q = Some u
    ∧ pe_ups e1 = <[q := up_write u m (has_flag m msg_more)]> (pe_ups e) ∧ pe_pipe e1 = count_written m (pe_pipe e).
Proof.
  unfold pipe_write, pipe_check_write. destruct (pi_out_active (pe_pipe e)); [|done]. destruct (decide (st_of e = active)) as [Hst|Hst].
  2: { rewrite bool_decide_eq_false_2 by done. done. }
  rewrite bool_decide_eq_true_2 by done. destruct (pipe_check_hwm (pe_pipe e)); [|done]. simpl.
  intros (q & Hq & (u & Hu & [= <-])%bind_Done_inv)%bind_Done_inv. split; [done|]. exists q, u. unfold out_of in Hq.
  destruct (pi_out_pipe (pe_pipe e)) as [q'|]; simplify_eq. unfold get_up in Hu. by destruct (pe_ups e !! q); simplify_eq.
Qed.

Lemma flush_facts e e' q u :
  st_of e ≠ term_ack_sent → pi_out_pipe (pe_pipe e) = Some q → pe_ups e !! q = Some u → pipe_flush e = Done e' →
  pe_pipe e' = pe_pipe e ∧ pe_ups e' = <[q := (up_flush u).2]> (pe_ups e).
Proof.
  intros Hst Hq Hu. unfold pipe_flush. rewrite decide_False by done. rewrite Hq, (get_up_done e q u Hu), bind_Done.
  destruct (up_flush u) as [[] u']; by intros [= <-].
Qed.

Lemma linked_refused m e e1 sl rl : linked e sl rl → pipe_write m e = Done (false, e1) → linked e1 sl rl.
Proof.
  intros Hl%linked_check_write. unfold pipe_write. destruct (pipe_check_write e) as [[] e2]; simpl; [|by intros [= <-]].
  by intros (q & _ & (u & _ & [=])%bind_Done_inv)%bind_Done_inv.
Qed.

(** [xsend]: a last part is flushed. *)
Lemma linked_send m e e1 e2 sl rl :
  linked e sl rl → plain_msg m → pipe_write m e = Done (true, e1) →
  (if has_flag m msg_more then pe_pipe e2 = pe_pipe e1 ∧ pe_ups e2 = pe_ups e1
   else ∃ e1', pe_pipe e1' = pe_pipe e1 ∧ pe_ups e1' = pe_ups e1 ∧ pipe_flush e1' = Done e2) →
  linked e2 (sl ++ [m]) rl.
Proof.
  intros Hl Hm (Hst & q & u & Hq & Hu & Hups & Hp)%write_facts Hfl.
  assert (H2 : pe_pipe e2 = count_written m (pe_pipe e)
    ∧ pe_ups e2 = <[q := if has_flag m msg_more then up_write u m true else (up_flush (up_write u m false)).2]> (pe_ups e)).
  { destruct (has_flag m msg_more) eqn:Hf; [destruct Hfl as [-> ->]; by rewrite Hups|].
    destruct Hfl as (e1' & Hp1 & Hups1 & Hfl). rewrite Hups in Hups1. rewrite Hp in Hp1.
    destruct (flush_facts e1' e2 q (up_write u m false)) as [Hp2 Hups2]; try done.
    - rewrite Hp1. simpl. by rewrite Hst.
    - by rewrite Hp1.
    - by rewrite Hups1, lookup_insert_eq.
    - rewrite Hp2, Hups2, Hups1, insert_insert_eq. done. }
  destruct H2 as [Hp2 Hups2]. set (e3 := PEnv (pe_pipe e) (pe_ups e2) [] [] []).
  assert (Hl3 : linked e3 (sl ++ [m]) rl).
  { eapply (linked_out e e3 sl (sl ++ [m]) rl q u); try done; [by exists [m]|].
    rewrite bool_decide_eq_true_2 by done. by apply queue_ok_write. }
  apply (linked_pipe e3); try done; rewrite Hp2; simpl; auto.
Qed.

Lemma linked_sleeps e u sl rl :
  linked e sl rl → pe_ups e !! pi_in_pipe (pe_pipe e) = Some u → sp_flushed u = [] →
  linked (in_sleeps (put_up (pi_in_pipe (pe_pipe e)) (Spec [] (sp_complete u) (sp_incomplete u) true) e)) sl rl.
Proof.
  intros Hl Hu Hfl. set (e1 := put_up _ _ e).
  assert (Hw : ends_whole rl).
  { destruct Hl as [_ [B1 B2 B3 B4 B5]]. eapply queue_ok_empty; [|done]. apply B5. by rewrite <- (B3 _ eq_refl). }
  apply (linked_pipe e1); try done; [|by right|by right].
  eapply (linked_in e e1 sl rl rl u); try done. intros act (H1 & Hk). rewrite Hfl in Hk. done.
Qed.

(** The head of the queue that is read is a message or a delimiter. *)
Lemma linked_head e u sl rl m fl :
  linked e sl rl → pe_ups e !! pi_in_pipe (pe_pipe e) = Some u → sp_flushed u = m :: fl → pi_in_active (pe_pipe e) = true →
  let e1 := put_up (pi_in_pipe (pe_pipe e)) (Spec fl (sp_complete u) (sp_incomplete u) (sp_asleep u)) e in
  (plain_delim m ∧ linked e1 sl rl) ∨ (plain_msg m ∧ linked e1 sl (rl ++ [m])).
Proof.
  intros Hl Hu Hfl Ha e1. assert (Hk : plain_delim m ∨ plain_msg m).
  { destruct Hl as [_ [B1 B2 B3 B4 B5]]. rewrite (B3 _ eq_refl) in Hu. destruct (queue_ok_read _ _ _ _ _ _ (B5 _ Hu) Hfl) as [[? _]|[? _]]; auto. }
  destruct Hk as [Hd|Hp]; [left|right]; (split; [done|]).
  - eapply (linked_in e e1 sl rl rl u); try done. intros act Hk. destruct (queue_ok_read _ _ _ _ _ _ Hk Hfl) as [[_ ?]|[[Hd' _] _]]; [done|]. destruct Hd; congruence.
  - eapply (linked_in e e1 sl rl (rl ++ [m]) u); try done; [by rewrite Ha|].
    intros act Hk. destruct (queue_ok_read _ _ _ _ _ _ Hk Hfl) as [[[Hd _] _]|[_ ?]]; [|done]. destruct Hp; congruence.
Qed.

Lemma env_ok_read e u fl m :
  env_ok e → pe_ups e !! pi_in_pipe (pe_pipe e) = Some u → sp_flushed u = m :: fl →
  env_ok (put_up (pi_in_pipe (pe_pipe e)) (Spec fl (sp_complete u) (sp_incomplete u) (sp_asleep u)) e).
Proof.
  intros Hok Hu Hfl. eapply (env_ok_step None e); try done. simpl. pose proof (up_read_data None _ _ u Hu) as Hd.
  destruct (up_read_cases u) as [[? _]|(m' & fl' & Hfl' & Hr)]; [congruence|]. rewrite Hr in Hd. simpl in Hd. rewrite Hfl in Hfl'. by injection Hfl' as <- <-.
Qed.

Lemma linked_read e r e' sl rl :
  env_ok e → linked e sl rl → pipe_read e = Done (r, e') →
  match r with None => linked e' sl rl | Some m => linked e' sl (rl ++ [m]) end.
Proof.
  intros Hok Hl. unfold pipe_read. destruct (can_read (pe_pipe e)) eqn:Hc; cbn [negb]; [|by intros [= <- <-]].
  apply andb_true_iff in Hc as [Ha _]. pose proof Hok as ([u Hu] & _ & _). rewrite (get_up_done _ _ u Hu), bind_Done. cbn [read_loop].
  rewrite (get_up_done _ _ u Hu), bind_Done. destruct (up_read_cases u) as [[Hfl ->]|(m & fl & Hfl & ->)].
  - rewrite bind_Done. intros [= <- <-]. by apply linked_sleeps.
  - set (e1 := put_up _ _ e). destruct (linked_head e u sl rl m fl Hl Hu Hfl Ha) as [[Hd Hl1]|[[Hd Hcr] Hl1]].
    + destruct Hd as [Hd Hcr]. rewrite Hcr, bind_Done, Hd. intros (e2 & Hp & [= <- <-])%bind_Done_inv. eapply linked_process_delimiter; [|exact Hl1|exact Hp].
      by eapply env_ok_read.
    + rewrite Hcr, bind_Done, Hd. intros [= <- <-].
      apply (linked_pipe e1); try done; destruct (decide _); simpl; auto.
Qed.

Lemma linked_check_read e r e' sl rl :
  env_ok e → linked e sl rl → pipe_check_read e = Done (r, e') → linked e' sl rl.
Proof.
  intros Hok Hl. unfold pipe_check_read. destruct (can_read (pe_pipe e)) eqn:Hc; cbn [negb]; [|by intros [= <- <-]].
  apply andb_true_iff in Hc as [Ha _]. pose proof Hok as ([u Hu] & _ & _). rewrite (get_up_done _ _ u Hu), bind_Done.
  unfold up_check_read, spec_check_read. destruct (sp_flushed u) as [|m fl] eqn:Hfl; cbn [negb].
  - intros [= <- <-]. by apply linked_sleeps.
  - unfold up_probe. rewrite Hfl, bind_Done. destruct (is_delimiter m) eqn:Hd.
    + destruct (up_read_cases u) as [[? _]|(m' & fl' & Hfl' & ->)]; [congruence|]. rewrite slk_assert_bind by done.
      intros (e2 & Hp & [= <- <-])%bind_Done_inv. rewrite Hfl in Hfl'. injection Hfl' as <- <-.
      destruct (linked_head e u sl rl m fl Hl Hu Hfl Ha) as [[_ Hl1]|[[? _] _]]; [|congruence].
      eapply linked_process_delimiter; [|exact Hl1|].
      * by eapply env_ok_read.
      * rewrite <- Hp. f_equal. unfold put_up, set_ups. simpl. by rewrite insert_insert_eq.
    + intros [= <- <-]. apply (linked_pipe e); try done; [by simpl; rewrite insert_id|by right|by left].
Qed.
End left_end.

(** ** Commands *)

Lemma drain_others fuel count q e e' q' : drain fuel count q e = Done e' → q' ≠ q → pe_ups e' !! q' = pe_ups e !! q'.
Proof.
  intros Hd Hq. revert e Hd. induction fuel as [|fuel IH]; intros e; [done|]. cbn [drain].
  intros (u & _ & Hk)%bind_Done_inv. destruct (up_read u) as [[m|] u'].
  - rewrite (IH _ Hk). simpl. by rewrite lookup_insert_ne.
  - injection Hk as <-. simpl. by rewrite lookup_insert_ne.
Qed.

Section commands.
Context {y : option pipe_t} {rr sr : list msg_t} {qo qi : nat} (Hne : qo ≠ qi).

Lemma linked_cmd c e e' sl rl :
  @linked y rr sr qo qi e sl rl → process_cmd c e = Done e' → c ≠ CPipeTermAck → (∀ q, c ≠ CHiccup q) →
  @linked y rr sr qo qi e' sl rl.
Proof.
  intros Hl Hc Hk Hh.
  assert (Hsame : ∀ f, pi_in_pipe (f (pe_pipe e)) = pi_in_pipe (pe_pipe e) →
    (pi_out_pipe (f (pe_pipe e)) = None ∨ pi_out_pipe (f (pe_pipe e)) = pi_out_pipe (pe_pipe e)) →
    (pi_state (f (pe_pipe e)) = active → st_of e = active) →
    (pi_in_active (f (pe_pipe e)) = true ∨ pi_in_active (f (pe_pipe e)) = pi_in_active (pe_pipe e)) →
    ∀ e1, pe_pipe e1 = f (pe_pipe e) → pe_ups e1 = pe_ups e → @linked y rr sr qo qi e1 sl rl).
  { intros f E1 E2 E3 E4 e1 Hp Hu. apply (linked_pipe e); rewrite ?Hp; try done.
    intros Hf. destruct E4 as [E4|E4]; rewrite E4 in Hf; [done|by left]. }
  destruct c; try done; simpl in Hc.
  - injection Hc as <-. unfold process_activate_read. destruct (_ && _); [|done]. by eapply (Hsame (with_active true _)); try done; auto.
  - injection Hc as <-. unfold process_activate_write. destruct (_ && _); simpl.
    + eapply (Hsame (λ p, with_active _ true (with_counts _ _ _ p))); try done; auto.
    + eapply (Hsame (λ p, with_counts _ _ _ p)); try done; auto.
  - by destruct (Hh p).
  - unfold process_pipe_term in Hc. destruct (st_of e) eqn:Hst; try done.
    + destruct (pi_delay _); injection Hc as <-.
      * eapply (Hsame (with_state waiting_for_delimiter)); try done; auto.
      * eapply (Hsame (λ p, with_out_pipe None (with_state term_ack_sent p))); try done; auto.
    + injection Hc as <-. eapply (Hsame (λ p, with_out_pipe None (with_state term_ack_sent p))); try done; auto.
    + injection Hc as <-. eapply (Hsame (λ p, with_out_pipe None (with_state term_req_sent2 p))); try done; auto.
  - injection Hc as <-. eapply (Hsame (pipe_set_hwms inhwm outhwm)); try done; auto.
Qed.

(** The left end is gone. *)
Lemma linked_ack e e' sl rl :
  @linked y rr sr qo qi e sl rl → process_cmd CPipeTermAck e = Done e' →
  dirq None y (pe_ups e') sl rr qo ∧ dirq y None (pe_ups e') sr rl qi.
Proof.
  intros [[A1 A2 A3 A4 A5] [B1 B2 B3 B4 B5]]. cbn [process_cmd]. unfold process_pipe_term_ack.
  intros (e1 & H1 & (u & Hu & (e2 & Hd & [= <-])%bind_Done_inv)%bind_Done_inv)%bind_Done_inv.
  assert (Hp : pe_ups e1 = pe_ups e ∧ pi_in_pipe (pe_pipe e1) = pi_in_pipe (pe_pipe e)).
  { destruct (st_of (sink EPipeTerminated e)); try done; by injection H1 as <-. }
  destruct Hp as [Hups Hi]. rewrite Hi, (B3 _ eq_refl) in *. split; split; try done.
  - intros v. simpl. rewrite lookup_delete_ne by done. rewrite (drain_others _ _ _ _ _ qo Hd) by done.
    rewrite Hups. intros Hv. by eapply queue_ok_weaken, A5.
  - intros v. simpl. by rewrite lookup_delete_eq.
Qed.
End commands.

(** ** Both sockets *)

Definition own_pipe (x : option pipe_t) : option () := (λ _, ()) <$> x.

Record duo_inv (d : duo) (qo qi : nat) : Prop := {
  du_pipes : sys_inv (du_sys d);
  du_ne : qo ≠ qi;
  du_lr : dirq (sy_left (du_sys d)) (sy_right (du_sys d)) (sy_ups (du_sys d)) (pe_out (du_left d)) (pe_in (du_right d)) qo;
  du_rl : dirq (sy_right (du_sys d)) (sy_left (du_sys d)) (sy_ups (du_sys d)) (pe_out (du_right d)) (pe_in (du_left d)) qi;
  du_lsock : pr_pipe (pe_sock (du_left d)) = own_pipe (sy_left (du_sys d));
  du_rsock : pr_pipe (pe_sock (du_right d)) = own_pipe (sy_right (du_sys d));
}.

Lemma duo_inv_swap d qo qi : duo_inv d qo qi → duo_inv (swap_duo d) qi qo.
Proof. intros []. split; try done. by apply sys_inv_swap. Qed.

(** The queues are never replaced. *)
Lemma no_hiccups s sl rr qo :
  sys_inv s → dirq (sy_left s) (sy_right s) (sy_ups s) sl rr qo → hiccups (sy_rl s) = [].
Proof.
  intros Hs Hd. pose proof (sys_lr_ok _ Hs) as Hok. pose proof (sys_nodup _ Hs) as Hnd. unfold chains in Hnd.
  apply NoDup_app in Hnd as (Hnd & _ & _). destruct Hok as [D1 D2 D3 _ _ _ _]. unfold chain in *.
  destruct (out_ptr (sy_left s)) as [q|] eqn:Hq.
  - destruct (sy_right s) as [p|] eqn:Hr; [|done].
    assert (q = qo) as ->.
    { unfold out_ptr in Hq. destruct (sy_left s) as [x|] eqn:Hx; [|done]. simpl in Hq. by eapply dq_out. }
    rewrite (dq_in _ _ _ _ _ _ Hd p eq_refl) in D1. destruct (hiccups (sy_rl s)) as [|q l] using rev_ind; [done|].
    rewrite app_comm_cons, last_snoc in D1. injection D1 as ->. apply NoDup_cons in Hnd as [Hn _]. exfalso. apply Hn. set_solver.
  - apply D3. intros H. assert (Hk : keeps_out (state_of (sy_left s))) by (unfold keeps_out; tauto). apply D2 in Hk as [? [=]].
Qed.

(** An operation of the left end. *)
Lemma at_left_inv {R} s p op (f : penv → outcome (R * penv)) :
  sys_inv s → sy_left s = Some p → legal p op → op ≠ UHiccup →
  user_op (sy_next s) op (env_of p s) = ('(_, e) ← f (env_of p s); Done e) →
  ∃ r e', f (env_of p s) = Done (r, e') ∧ at_left s f = Done (r, after s (sy_rl s) e') ∧ sys_inv (after s (sy_rl s) e').
Proof.
  intros Hs Hp Hlegal Hop Hf. destruct (user_op_inv s p op Hs Hp Hlegal Hop) as (e' & He & Hi).
  rewrite Hf in He. apply bind_Done_inv in He as ([r e1] & Hr & [= <-]). exists r, e1. split; [done|]. split; [|done].
  unfold at_left. by rewrite Hp, Hr.
Qed.

Section steps.
Context {s : psys} {k : pair_t ()} {sl rl : list msg_t} {r : peer} {h : heap} {qo qi : nat}
  (Hinv : duo_inv (Duo s (Peer k sl rl) r h) qo qi).

Local Abbreviation is_linked := (@linked (sy_right s) (pe_in r) (pe_out r) qo qi).

Lemma duo_linked p : sy_left s = Some p → is_linked (env_of p s) sl rl.
Proof. intros Hp. pose proof (du_lr _ _ _ Hinv). pose proof (du_rl _ _ _ Hinv). simpl in *. rewrite Hp in *. done. Qed.

Lemma duo_env_ok p : sy_left s = Some p → env_ok (env_of p s).
Proof. intros. apply sys_env_ok; [apply Hinv|done]. Qed.

Lemma duo_after p e sl' rl' h' :
  sy_left s = Some p → sys_inv (after s (sy_rl s) e) → is_linked e sl' rl' →
  duo_inv (Duo (after s (sy_rl s) e) (Peer k sl' rl') r h') qo qi.
Proof.
  intros Hp Hs [H1 H2]. split; try done; try apply Hinv.
  pose proof (du_lsock _ _ _ Hinv) as Hk. simpl in *. by rewrite Hp in Hk.
Qed.

Lemma duo_pipe : pr_pipe k = own_pipe (sy_left s).
Proof. apply (du_lsock _ _ _ Hinv). Qed.

Lemma flush_op_eq n e : user_op n UFlush e = ('(_, e) ← (e ← pipe_flush e; Done ((), e)); Done e).
Proof. simpl. by destruct (pipe_flush e). Qed.

Lemma terminate_op_eq n d e : user_op n (UTerminate d) e = ('(_, e) ← (e ← pipe_terminate d e; Done ((), e)); Done e).
Proof. simpl. by destruct (pipe_terminate d e). Qed.

Lemma send_inv m :
  plain_msg m → ∃ s' m' rc, pair_xsend s k m = Done (s', m', rc)
    ∧ duo_inv (Duo s' (Peer k (if decide (rc = RcOk) then sl ++ [m] else sl) rl) r h) qo qi.
Proof.
  intros Hm. unfold pair_xsend. rewrite duo_pipe. destruct (sy_left s) as [p|] eqn:Hp; simpl; [|by eexists _, _, _].
  destruct (at_left_inv s p (UWrite m) (pipe_write m)) as (ok & e1 & Hw & -> & Hs1); [apply Hinv|done|apply Hm|done|done|].
  rewrite bind_Done. destruct ok; simpl negb; cbv iota.
  2: { eexists _, _, _. split; [done|]. rewrite decide_False by done. apply (duo_after p); [done|done|].
       eapply linked_refused; [by apply duo_linked|done]. }
  destruct (has_flag m msg_more) eqn:Hf; rewrite ?bind_Done.
  - eexists _, _, _. split; [done|]. rewrite decide_True by done. apply (duo_after p); [done|done|].
    eapply (linked_send (du_ne _ _ _ Hinv) m); [by apply duo_linked|done|done|]. by rewrite Hf.
  - set (s1 := after s (sy_rl s) e1) in *.
    destruct (at_left_inv s1 (pe_pipe e1) UFlush (λ e, e ← pipe_flush e; Done ((), e))) as ([] & e2 & Hfl & -> & Hs2);
      [done|done|done|done|apply flush_op_eq|]. simpl. eexists _, _, _. split; [done|]. rewrite decide_True by done.
    apply bind_Done_inv in Hfl as (e3 & Hfl & [= ->]).
    pose proof (linked_send (du_ne _ _ _ Hinv) m (env_of p s) e1 e2 sl rl (duo_linked p Hp) Hm Hw) as Hl. rewrite Hf in Hl.
    assert (Hl2 : is_linked e2 (sl ++ [m]) rl) by (apply Hl; exists (env_of (pe_pipe e1) s1); done). destruct Hl2 as [L1 L2].
    split; try done; try apply Hinv. simpl. rewrite duo_pipe. by rewrite Hp.
Qed.

Lemma recv_inv :
  ∃ s' m rc, pair_xrecv h s k msg_init = Done (h, s', m, rc)
    ∧ duo_inv (Duo s' (Peer k sl (if decide (rc = RcOk) then rl ++ [m] else rl)) r h) qo qi.
Proof.
  unfold pair_xrecv. change (msg_close h msg_init) with (Done (RcOk, h, m_set_type 0 (m_set_metadata None msg_init))).
  rewrite bind_Done, slk_assert_bind by done. rewrite duo_pipe.
  destruct (sy_left s) as [p|] eqn:Hp; simpl; [|by eexists _, _, _].
  destruct (at_left_inv s p URead pipe_read) as (res & e1 & Hr & -> & Hs1); [apply Hinv|done|done|done|done|].
  rewrite bind_Done. pose proof (linked_read (du_ne _ _ _ Hinv) _ _ _ _ _ (duo_env_ok p Hp) (duo_linked p Hp) Hr) as Hl.
  destruct res as [m|]; eexists _, _, _; (split; [done|]); by apply (duo_after p).
Qed.

Lemma has_in_inv : ∃ b s', pair_xhas_in s k = Done (b, s') ∧ duo_inv (Duo s' (Peer k sl rl) r h) qo qi.
Proof.
  unfold pair_xhas_in. rewrite duo_pipe. destruct (sy_left s) as [p|] eqn:Hp; simpl; [|by eexists _, _].
  destruct (at_left_inv s p UCheckRead pipe_check_read) as (b & e1 & Hr & -> & Hs1); [apply Hinv|done|done|done|done|].
  eexists _, _. split; [done|]. apply (duo_after p); [done|done|].
  eapply (linked_check_read (du_ne _ _ _ Hinv)); [by apply duo_env_ok|by apply duo_linked|done].
Qed.

Lemma has_out_inv : ∃ b s', pair_xhas_out s k = Done (b, s') ∧ duo_inv (Duo s' (Peer k sl rl) r h) qo qi.
Proof.
  unfold pair_xhas_out. rewrite duo_pipe. destruct (sy_left s) as [p|] eqn:Hp; simpl; [|by eexists _, _].
  destruct (at_left_inv s p UCheckWrite (λ e, Done (pipe_check_write e))) as (b & e1 & Hr & -> & Hs1); [apply Hinv|done|done|done|..].
  { cbn [user_op]. rewrite bind_Done. by destruct (pipe_check_write _). }
  eexists _, _. split; [done|]. apply (duo_after p); [done|done|]. injection Hr as Hr.
  pose proof (linked_check_write (env_of p s) sl rl (duo_linked p Hp)) as Hl. by rewrite Hr in Hl.
Qed.

Lemma close_inv p d :
  sy_left s = Some p → ∃ s', pp_terminate s () d = Done s' ∧ duo_inv (Duo s' (Peer k sl rl) r h) qo qi.
Proof.
  intros Hp. destruct (at_left_inv s p (UTerminate d) (λ e, e ← pipe_terminate d e; Done ((), e))) as ([] & e1 & Hr & Ht & Hs1);
    [apply Hinv|done|done|done|apply terminate_op_eq|]. cbn [pp_terminate end_pipes]. rewrite Ht. eexists. split; [done|].
  apply (duo_after p); [done|done|]. apply bind_Done_inv in Hr as (e2 & Hr & [= ->]).
  eapply (linked_terminate (du_ne _ _ _ Hinv)); [by apply duo_env_ok|by apply duo_linked|done].
Qed.

Lemma process_inv s' :
  left_step s UProcess = Done (Some s') → sys_inv s' →
  let k' := match sy_left s, sy_left s' with Some _, None => pair_xpipe_terminated k () | _, _ => k end in
  duo_inv (Duo s' (Peer k' sl rl) r h) qo qi.
Proof.
  intros Hst Hs' k'. unfold left_step in Hst. destruct (sy_rl s) as [|c cs] eqn:Hrl; [done|].
  destruct (sy_left s) as [p|] eqn:Hp; [|done]. apply bind_Done_inv in Hst as (e' & Hc & [= <-]).
  assert (Hh : ∀ q, c ≠ CHiccup q).
  { intros q ->. pose proof (no_hiccups s sl (pe_in r) qo (du_pipes _ _ _ Hinv) (du_lr _ _ _ Hinv)) as Hh. by rewrite Hrl in Hh. }
  assert (Hcase : c = CPipeTermAck ∨ c ≠ CPipeTermAck) by (destruct c; auto). destruct Hcase as [->|Hk].
  - destruct (linked_ack (du_ne _ _ _ Hinv) _ _ _ _ (duo_linked p Hp) Hc) as [L1 L2].
    split; try done; try apply Hinv. unfold k'. simpl. unfold pair_xpipe_terminated. rewrite duo_pipe, Hp, decide_True by done. done.
  - destruct (linked_cmd _ _ _ _ _ (duo_linked p Hp) Hc Hk Hh) as [L1 L2].
    destruct c; try done; split; try done; try apply Hinv; unfold k'; simpl; by rewrite duo_pipe, Hp.
Qed.
End steps.

Lemma left_act_inv d a qo qi :
  duo_inv d qo qi → act_ok a → ∃ r d', left_act d a = Done (r, d') ∧ duo_inv d' qo qi.
Proof.
  intros Hinv Ha. destruct d as [s [k sl rl] r h]. destruct a as [m| | | | |]; cbn [left_act].
  - destruct (send_inv Hinv m Ha) as (s' & m' & rc & -> & Hi). rewrite bind_Done. eauto.
  - destruct (recv_inv Hinv) as (s' & m & rc & -> & Hi). rewrite bind_Done. eauto.
  - destruct (has_in_inv Hinv) as (b & s' & -> & Hi). rewrite bind_Done. eauto.
  - destruct (has_out_inv Hinv) as (b & s' & -> & Hi). rewrite bind_Done. eauto.
  - destruct (left_step_inv s UProcess (du_pipes _ _ _ Hinv)) as (o & Ho & Hi); [unfold sys_legal; by destruct (sy_left s)|].
    rewrite Ho, bind_Done. destruct o as [s'|]; [|eauto]. eexists _, _. split; [done|]. apply (process_inv Hinv); eauto.
  - rewrite (duo_pipe Hinv). destruct (sy_left s) as [p|] eqn:Hp; simpl; [|eauto].
    destruct (close_inv Hinv p false Hp) as (s' & Ht & Hi). simpl in Ht. rewrite Ht, bind_Done. eauto.
Qed.

Lemma duo_act_inv d l a qo qi :
  duo_inv d qo qi → act_ok a → ∃ r d', duo_act d l a = Done (r, d') ∧ duo_inv d' qo qi.
Proof.
  intros Hinv Ha. destruct l; [by apply left_act_inv|]. unfold duo_act.
  destruct (left_act_inv (swap_duo d) a qi qo (duo_inv_swap _ _ _ Hinv) Ha) as (r & d' & -> & Hi). rewrite bind_Done.
  eexists _, _. split; [done|]. by apply duo_inv_swap.
Qed.

Lemma duo_new_inv h hwm0 hwm1 : duo_inv (duo_new h hwm0 hwm1) 1 0.
Proof.
  assert (Hw : ends_whole []) by done.
  assert (Hk : ∀ q u, sy_ups (pipepair hwm0 hwm1) !! q = Some u → queue_ok true u [] []).
  { intros q u. simpl. rewrite lookup_insert_Some, lookup_singleton_Some. intros [[_ <-]|[_ [_ <-]]]; (split; [done|]); by exists [], [], []. }
  split; try done; [apply pipepair_inv|..]; split; try done; simpl; try (intros p q [= <-]; naive_solver); try (by intros p [= <-]).
  - intros u Hu. by apply (Hk 1%nat).
  - intros u Hu. by apply (Hk 0%nat).
Qed.

Lemma duo_reachable_inv h hwm0 hwm1 d : duo_reachable h hwm0 hwm1 d → duo_inv d 1 0.
Proof.
  induction 1 as [|d l a r d' _ IH Ha Hd]; [apply duo_new_inv|].
  destruct (duo_act_inv d l a _ _ IH Ha) as (r' & d'' & Hd' & Hi). rewrite Hd in Hd'. by injection Hd' as <- <-.
Qed.

(** ** Messages are received whole *)

Lemma recv_ready d qo qi p u m fl :
  duo_inv d qo qi → sy_left (du_sys d) = Some p → can_read p = true →
  sy_ups (du_sys d) !! pi_in_pipe p = Some u → sp_flushed u = m :: fl → is_delimiter m = false → is_credential m = false →
  ∃ e, left_act d ARecv = Done (PRecv RcOk m,
         Duo (after (du_sys d) (sy_rl (du_sys d)) e)
           (Peer (pe_sock (du_left d)) (pe_out (du_left d)) (pe_in (du_left d) ++ [m])) (du_right d) (du_heap d))
    ∧ pe_ups e = <[pi_in_pipe p := Spec fl (sp_complete u) (sp_incomplete u) (sp_asleep u)]> (sy_ups (du_sys d)).
Proof.
  intros Hinv Hp Hc Hu Hfl Hd Hcr. destruct d as [s [k sl rl] r h]. simpl in *. cbn [left_act]. unfold pair_xrecv.
  change (msg_close h msg_init) with (Done (RcOk, h, m_set_type 0 (m_set_metadata None msg_init))).
  rewrite bind_Done, slk_assert_bind by done. rewrite (duo_pipe Hinv), Hp. simpl. unfold at_left. rewrite Hp. unfold pipe_read.
  change (pe_pipe (env_of p s)) with p. rewrite Hc. cbn [negb]. rewrite (get_up_done (env_of p s) _ u Hu), bind_Done. cbn [read_loop].
  rewrite (get_up_done (env_of p s) _ u Hu), bind_Done. destruct (up_read_cases u) as [[? _]|(m' & fl' & Hfl' & ->)]; [congruence|].
  rewrite Hfl in Hfl'. injection Hfl' as <- <-. rewrite Hcr, bind_Done, Hd. simpl. eexists. split; [done|]. by destruct (decide _).
Qed.

(** What a socket that is in the middle of a message can read. *)
Lemma recv_rest d qo qi p :
  duo_inv d qo qi → sy_left (du_sys d) = Some p → pi_state p = active ∨ pi_state p = waiting_for_delimiter →
  ¬ ends_whole (pe_in (du_left d)) → ∃ m d', left_act d ARecv = Done (PRecv RcOk m, d').
Proof.
  intros Hinv Hp Hst Hw. pose proof (du_rl _ _ _ Hinv) as Hd. rewrite Hp in Hd.
  destruct (sys_env_ok _ p (du_pipes _ _ _ Hinv) Hp) as ([u Hu] & _). simpl in Hu. pose proof Hu as Hu'.
  rewrite (dq_in _ _ _ _ _ _ Hd p eq_refl) in Hu'. pose proof (dq_queue _ _ _ _ _ _ Hd u Hu') as (_ & b & ds & rest & H2 & H3 & _ & _ & H6 & _).
  destruct b as [|m b]; [by rewrite app_nil_r in H6|]. simpl in H3. apply Forall_cons in H3 as [[Hm1 Hm2] _].
  destruct (recv_ready d qo qi p u m (b ++ ds) Hinv Hp) as (e & Hr & _); try done; [|by eauto].
  unfold can_read. rewrite bool_decide_eq_true_2, andb_true_r by done. destruct (pi_in_active p) eqn:Ha; [done|].
  destruct Hw. by eapply dq_asleep.
Qed.

(** C15: two PAIR sockets joined by a pipe.  In every interleaving of sends, receives,
    polls, arriving commands and the closing of either socket, no assertion of the
    sockets or the pipe fails and nothing is used after it was deleted; what a socket
    received is always a prefix of what its peer sent, part for part and in order; and
    a socket that received a part with more to follow receives the next part at once,
    unless it was itself told to terminate: messages are delivered whole. *)
Theorem pair_fifo h hwm0 hwm1 d :
  duo_reachable h hwm0 hwm1 d →
  (∀ on_left a, act_ok a → ∃ r d', duo_act d on_left a = Done (r, d'))
  ∧ pe_in (du_right d) `prefix_of` pe_out (du_left d) ∧ pe_in (du_left d) `prefix_of` pe_out (du_right d)
  ∧ ∀ (on_left : bool) p, (if on_left then sy_left (du_sys d) else sy_right (du_sys d)) = Some p →
      pi_state p = active ∨ pi_state p = waiting_for_delimiter →
      ¬ ends_whole (pe_in (if on_left then du_left d else du_right d)) →
      ∃ m d', duo_act d on_left ARecv = Done (PRecv RcOk m, d').
Proof.
  intros Hd%duo_reachable_inv. split; [|split; [apply (du_lr _ _ _ Hd)|split; [apply (du_rl _ _ _ Hd)|]]].
  - intros l a Ha. destruct (duo_act_inv d l a _ _ Hd Ha) as (r & d' & ? & _). eauto.
  - intros [] p Hp Hst Hw; [by eapply recv_rest|].
    destruct (recv_rest (swap_duo d) 0 1 p (duo_inv_swap _ _ _ Hd) Hp Hst Hw) as (m & d' & Hr). unfold duo_act. rewrite Hr. eauto.
Qed.

(** ** Everything arrives *)

Fixpoint duo_run (d : duo) (acts : list (bool * pact)) : outcome duo :=
  match acts with
  | [] => Done d
  | (l, a) :: acts => '(_, d) ← duo_act d l a; duo_run d acts
  end.

Lemma duo_run_app d acts acts' d' : duo_run d acts = Done d' → duo_run d (acts ++ acts') = duo_run d' acts'.
Proof.
  revert d. induction acts as [|[l a] acts IH]; intros d; [by intros [= <-]|]. cbn [duo_run app].
  intros ([r d1] & -> & Hr)%bind_Done_inv. by rewrite bind_Done, IH.
Qed.

(** Runs in which no socket is closed. *)
Definition open_act (a : pact) : Prop := act_ok a ∧ a ≠ AClose.

Inductive open_reachable (h : heap) (hwm0 hwm1 : Z) : duo → Prop :=
| open_init : open_reachable h hwm0 hwm1 (duo_new h hwm0 hwm1)
| open_step d on_left a r d' :
    open_reachable h hwm0 hwm1 d → open_act a → duo_act d on_left a = Done (r, d') → open_reachable h hwm0 hwm1 d'.

Lemma open_duo_reachable h hwm0 hwm1 d : open_reachable h hwm0 hwm1 d → duo_reachable h hwm0 hwm1 d.
Proof. induction 1 as [|d l a r d' _ IH [Ha _] Hd]; [constructor|by econstructor]. Qed.

Section flow.
Context {h0 h1 : Z} (Hh0 : - 2 ^ 31 ≤ h0 < 2 ^ 31 - 1) (Hh1 : - 2 ^ 31 ≤ h1 < 2 ^ 31 - 1).

Lemma at_left_flow {R} s op (f : penv → outcome (R * penv)) r s' :
  @flow_ok h0 h1 s → flow_op op → op ≠ UProcess →
  (∀ e, user_op (sy_next s) op e = ('(_, e) ← f e; Done e)) → at_left s f = Done (r, s') → @flow_ok h0 h1 s'.
Proof.
  intros Hs Hop Hop' Hf. unfold at_left. destruct (sy_left s) as [p|] eqn:Hp; [|done].
  intros ([r' e] & He & [= <- <-])%bind_Done_inv. destruct (flow_left_step Hh0 Hh1 s op Hs Hop) as (o & Ho & Hi). apply Hi.
  assert (Hl : left_step s op = Done (Some (after s (sy_rl s) e))).
  { unfold left_step. rewrite Hp. destruct op; try done; rewrite Hf, He; done. }
  rewrite Hl in Ho. by injection Ho as <-.
Qed.

Lemma left_act_flow d a r d' :
  @flow_ok h0 h1 (du_sys d) → open_act a → left_act d a = Done (r, d') → @flow_ok h0 h1 (du_sys d').
Proof.
  intros Hs [Ha Hc]. destruct d as [s [k sl rl] rr h]. simpl in Hs. destruct a as [m| | | | |]; cbn [left_act]; try done.
  - intros ([[s1 m1] rc] & Hx & [= <- <-])%bind_Done_inv. simpl. unfold pair_xsend in Hx.
    destruct (pr_pipe k) as [[]|]; [|by injection Hx as <- <- <-]. apply bind_Done_inv in Hx as ([ok s2] & Hw & Hx).
    assert (Hs2 : @flow_ok h0 h1 s2) by (by eapply (at_left_flow s (UWrite m) (pipe_write m))).
    destruct ok; simpl negb in Hx; cbv iota in Hx; [|by injection Hx as <- <- <-].
    destruct (has_flag m msg_more); [by injection Hx as <- <- <-|]. apply bind_Done_inv in Hx as (s3 & Hfl & [= <- <- <-]).
    cbn [pp_flush end_pipes] in Hfl. destruct (at_left s2 _) as [[[] s4]| |] eqn:Hl; simplify_eq/=.
    eapply (at_left_flow s2 UFlush); [done|done|done|apply flush_op_eq|done].
  - intros ([[[h' s1] m1] rc] & Hx & [= <- <-])%bind_Done_inv. simpl. unfold pair_xrecv in Hx.
    apply bind_Done_inv in Hx as ([[rc1 h1'] m2] & _ & Hx). apply bind_Done_inv in Hx as (_ & _ & Hx).
    apply bind_Done_inv in Hx as ([o s2] & Hr & Hx).
    assert (s1 = s2) as -> by (by destruct o; simplify_eq). destruct (pr_pipe k) as [[]|]; [|by simplify_eq].
    by eapply (at_left_flow s URead pipe_read).
  - intros ([b s1] & Hx & [= <- <-])%bind_Done_inv. simpl. unfold pair_xhas_in in Hx. destruct (pr_pipe k) as [[]|]; [|by simplify_eq].
    by eapply (at_left_flow s UCheckRead pipe_check_read).
  - intros ([b s1] & Hx & [= <- <-])%bind_Done_inv. simpl. unfold pair_xhas_out in Hx. destruct (pr_pipe k) as [[]|]; [|by simplify_eq].
    eapply (at_left_flow s UCheckWrite (λ e, Done (pipe_check_write e))); try done. intros e. simpl. by destruct (pipe_check_write e).
  - intros (o & Ho & Hk)%bind_Done_inv. destruct o as [s1|]; [|by injection Hk as <- <-].
    injection Hk as <- <-. simpl. destruct (flow_left_step Hh0 Hh1 s UProcess Hs I) as (o & Ho' & Hi). rewrite Ho in Ho'.
    injection Ho' as <-. by apply Hi.
Qed.
End flow.

Lemma open_flow h hwm0 hwm1 d :
  - 2 ^ 31 ≤ hwm0 < 2 ^ 31 - 1 → - 2 ^ 31 ≤ hwm1 < 2 ^ 31 - 1 → open_reachable h hwm0 hwm1 d → @flow_ok hwm0 hwm1 (du_sys d).
Proof.
  intros Hh0 Hh1. induction 1 as [|d l a r d' _ IH Ha Hd]; [by apply flow_pipepair|]. destruct l; cbn [duo_act] in Hd.
  - by eapply (left_act_flow Hh0 Hh1).
  - apply bind_Done_inv in Hd as ([r' d1] & Hd & [= <- <-]). apply (flow_ok_swap hwm1 hwm0 (du_sys d1)).
    eapply (left_act_flow Hh1 Hh0); [|done|exact Hd]. by apply flow_ok_swap.
Qed.

Section catching_up.
Context {h0 h1 : Z} (Hh0 : - 2 ^ 31 ≤ h0 < 2 ^ 31 - 1) (Hh1 : - 2 ^ 31 ≤ h1 < 2 ^ 31 - 1).

Lemma process_one d c cs qo qi :
  duo_inv d qo qi → @flow_ok h0 h1 (du_sys d) → sy_rl (du_sys d) = c :: cs →
  ∃ s', duo_act d true AProcess = Done (PNone, Duo s' (du_left d) (du_right d) (du_heap d))
    ∧ duo_inv (Duo s' (du_left d) (du_right d) (du_heap d)) qo qi ∧ @flow_ok h0 h1 s' ∧ sy_rl s' = cs.
Proof.
  intros Hinv Hf Hrl. destruct d as [s [k sl rl] r h]. simpl in Hf, Hrl. cbn [duo_act left_act du_left du_right du_heap].
  destruct (flow_left_step Hh0 Hh1 s UProcess Hf I) as (o & Ho & Hi). rewrite Ho, bind_Done.
  destruct (left_step_inv s UProcess (du_pipes _ _ _ Hinv)) as (o' & Ho' & Hi'); [unfold sys_legal; by destruct (sy_left s)|].
  assert (o' = o) as -> by congruence. unfold left_step in Ho. rewrite Hrl in Ho. destruct (sy_left s) as [p|] eqn:Hp; [|done].
  apply bind_Done_inv in Ho as (e & He & [= <-]). specialize (Hi _ eq_refl). specialize (Hi' _ eq_refl).
  assert (Hk := process_inv Hinv _ Ho' Hi'). rewrite Hp in Hk. destruct Hi as (x & ? & ? & ? & ? & ? & Hi).
  pose proof (fi_left _ _ _ _ _ _ _ _ _ Hi) as Hx. cbv zeta in Hk. rewrite Hx in Hk |- *.
  eexists. split; [done|]. split; [done|]. split; [|done]. eexists _, _, _, _, _, _. exact Hi.
Qed.

Lemma process_all d qo qi :
  duo_inv d qo qi → @flow_ok h0 h1 (du_sys d) →
  ∃ s', duo_run d (replicate (length (sy_rl (du_sys d))) (true, AProcess)) = Done (Duo s' (du_left d) (du_right d) (du_heap d))
    ∧ duo_inv (Duo s' (du_left d) (du_right d) (du_heap d)) qo qi ∧ @flow_ok h0 h1 s' ∧ sy_rl s' = [].
Proof.
  remember (sy_rl (du_sys d)) as cs eqn:Hcs. symmetry in Hcs. revert d Hcs.
  induction cs as [|c cs IH]; intros d Hcs Hinv Hf; [exists (du_sys d); by destruct d|].
  destruct (process_one d c cs qo qi Hinv Hf Hcs) as (s1 & H1 & Hinv1 & Hf1 & Hcs1).
  destruct (IH (Duo s1 (du_left d) (du_right d) (du_heap d)) Hcs1 Hinv1 Hf1) as (s' & H2 & H3).
  exists s'. split; [|done]. simpl length. cbn [replicate duo_run]. by rewrite H1, bind_Done.
Qed.

(** With no command under way, everything that was flushed can be read. *)
Lemma receive_all d qo qi u :
  duo_inv d qo qi → @flow_ok h0 h1 (du_sys d) → sy_rl (du_sys d) = [] → sy_ups (du_sys d) !! qi = Some u →
  ∃ d', duo_run d (replicate (length (sp_flushed u)) (true, ARecv)) = Done d' ∧ du_right d' = du_right d
    ∧ pe_in (du_left d') = pe_in (du_left d) ++ sp_flushed u.
Proof.
  remember (sp_flushed u) as fl eqn:Hfl. symmetry in Hfl. revert d u Hfl.
  induction fl as [|m fl IH]; intros d u Hfl Hinv Hf Hrl Hu; [exists d; by rewrite app_nil_r|].
  pose proof Hf as (x & y & a & b & ua & ub & Hi). destruct (fi_rl _ _ _ _ _ _ _ _ _ Hi) as (W & R & P & As & Hfw).
  pose proof (fi_left _ _ _ _ _ _ _ _ _ Hi) as Hx. pose proof (du_rl _ _ _ Hinv) as Hd. rewrite Hx in Hd.
  pose proof (dq_in _ _ _ _ _ _ Hd x eq_refl) as Hin. assert (a = qi) as -> by (rewrite <- Hin; symmetry; apply Hi).
  assert (ua = u) as -> by (pose proof (fi_a _ _ _ _ _ _ _ _ _ Hi); congruence).
  destruct (flow_head _ _ _ _ _ _ _ _ _ Hi Hfl) as [Hm1 Hm2].
  destruct (recv_ready d qo qi x u m fl Hinv Hx) as (e & Hr & He); try done; [|by rewrite Hin|].
  { unfold can_read. rewrite (fi_xst _ _ _ _ _ _ _ _ _ Hi), bool_decide_eq_true_2, andb_true_r by auto.
    destruct (pi_in_active x) eqn:Ha; [done|]. destruct (fl_awake _ _ _ _ _ _ _ _ _ _ Hfw Ha) as [[? _]|Hc]; [congruence|].
    rewrite Hrl in Hc. by apply not_elem_of_nil in Hc. }
  set (d1 := Duo _ _ _ _) in Hr.
  destruct (left_act_inv d ARecv qo qi Hinv I) as (r1 & d2 & Hr2 & Hinv1). rewrite Hr in Hr2. injection Hr2 as <- <-.
  pose proof (left_act_flow Hh0 Hh1 d ARecv _ d1 Hf ltac:(done) Hr) as Hf1.
  destruct (IH d1 (Spec fl (sp_complete u) (sp_incomplete u) (sp_asleep u))) as (d' & H1 & H2 & H3); try done.
  - simpl. by rewrite He, Hin, lookup_insert_eq.
  - exists d'. cbn [length replicate duo_run duo_act]. rewrite Hr, bind_Done. split; [done|]. split; [done|].
    rewrite H3. simpl. by rewrite <- app_assoc.
Qed.

Lemma left_catches_up d qo qi :
  duo_inv d qo qi → @flow_ok h0 h1 (du_sys d) →
  ∃ k d' rest, duo_run d (replicate (length (sy_rl (du_sys d))) (true, AProcess) ++ replicate k (true, ARecv)) = Done d'
    ∧ pe_out (du_right d') = pe_out (du_right d) ∧ pe_out (du_right d) = pe_in (du_left d') ++ rest ∧ Forall is_more rest.
Proof.
  intros Hinv Hf. destruct (process_all d qo qi Hinv Hf) as (s1 & H1 & Hinv1 & Hf1 & Hrl1). set (d1 := Duo s1 _ _ _) in *.
  pose proof Hf1 as (x & y & a & b & ua & ub & Hi). pose proof (du_rl _ _ _ Hinv1) as Hd. simpl in Hd.
  rewrite (fi_left _ _ _ _ _ _ _ _ _ Hi), (fi_right _ _ _ _ _ _ _ _ _ Hi) in Hd.
  assert (a = qi) as -> by (rewrite <- (dq_in _ _ _ _ _ _ Hd x eq_refl); symmetry; apply Hi).
  pose proof (fi_a _ _ _ _ _ _ _ _ _ Hi) as Hu.
  destruct (receive_all d1 qo qi ua Hinv1 Hf1 Hrl1 Hu) as (d' & H2 & H3 & H4).
  destruct (dq_queue _ _ _ _ _ _ Hd ua Hu) as (_ & body & ds & rest & K1 & _ & _ & K2 & _ & K3).
  destruct K3 as [-> ->]; [apply bool_decide_eq_true; simpl; by rewrite (fi_yst _ _ _ _ _ _ _ _ _ Hi)|].
  rewrite app_nil_r in K1. subst body. exists (length (sp_flushed ua)), d', (sp_incomplete ua). split_and!.
  - by rewrite (duo_run_app d _ _ d1 H1).
  - by rewrite H3.
  - rewrite H4, K2, app_nil_r. simpl. by rewrite app_assoc.
  - by eapply (sys_more _ (du_pipes _ _ _ Hinv1)).
Qed.
End catching_up.

Definition swap_act (la : bool * pact) : bool * pact := (negb la.1, la.2).

Lemma duo_run_swap d acts d' :
  duo_run (swap_duo d) acts = Done d' → duo_run d (swap_act <$> acts) = Done (swap_duo d').
Proof.
  assert (Hss : ∀ d, swap_duo (swap_duo d) = d) by (intros [[]]; done).
  revert d. induction acts as [|[l a] acts IH]; intros d; [intros [= <-]; by rewrite <- (Hss d) at 1|]. rewrite fmap_cons. cbn [duo_run].
  intros ([r d1] & Hd & Hr)%bind_Done_inv. destruct l; cbn [swap_act fst snd negb duo_act] in Hd |- *.
  - rewrite Hd, !bind_Done. apply IH. by rewrite Hss.
  - rewrite Hss in Hd. apply bind_Done_inv in Hd as ([r' d2] & Hd & [= <- <-]).
    rewrite Hd, bind_Done. by apply IH.
Qed.

(** C16: everything that was sent arrives.  In whatever state two connected PAIR
    sockets are, when the receiving socket processes the commands that are under way
    to it and then receives, it gets every message its peer has sent: all that is
    missing are the parts of a message that is not complete yet. *)
Theorem pair_catches_up h hwm0 hwm1 d :
  - 2 ^ 31 ≤ hwm0 < 2 ^ 31 - 1 → - 2 ^ 31 ≤ hwm1 < 2 ^ 31 - 1 → open_reachable h hwm0 hwm1 d →
  ∃ k d' rest,
    duo_run d (replicate (length (sy_lr (du_sys d))) (false, AProcess) ++ replicate k (false, ARecv)) = Done d'
    ∧ pe_out (du_left d') = pe_out (du_left d) ∧ pe_out (du_left d) = pe_in (du_right d') ++ rest ∧ Forall is_more rest.
Proof.
  intros Hh0 Hh1 Hd. pose proof (duo_reachable_inv _ _ _ _ (open_duo_reachable _ _ _ _ Hd)) as Hinv.
  pose proof (open_flow _ _ _ _ Hh0 Hh1 Hd) as Hf.
  destruct (left_catches_up Hh1 Hh0 (swap_duo d) 0 1 (duo_inv_swap _ _ _ Hinv) (flow_ok_swap _ _ _ Hf)) as (k & d' & rest & H1 & H2 & H3 & H4).
  exists k, (swap_duo d'), rest. split; [|done]. apply duo_run_swap in H1. by rewrite fmap_app, !fmap_replicate in H1.
Qed.

(** ** A run *)

Lemma duo_run_reachable h hwm0 hwm1 d acts d' :
  open_reachable h hwm0 hwm1 d → Forall (λ la, open_act la.2) acts → duo_run d acts = Done d' → open_reachable h hwm0 hwm1 d'.
Proof.
  revert d. induction acts as [|[l a] acts IH]; intros d Hd Hf; [by intros [= <-]|]. cbn [duo_run].
  apply Forall_cons in Hf as [Ha Hf]. intros ([r d1] & H1 & H2)%bind_Done_inv. eapply IH; [|done|exact H2]. by econstructor.
Qed.

Definition part1 : msg_t := set_flags msg_more msg_init.
Definition pair_test : list (bool * pact) := [(true, ASend part1); (true, ASend msg_init); (false, AProcess); (false, ARecv)].
Definition test_duo : duo := duo_new (empty_heap (λ _, true)) 10 10.

Lemma pair_test_open : Forall (λ la, open_act la.2) pair_test.
Proof. repeat constructor; try done; by intros ?. Qed.

(** The right socket has the first part of two. *)
Lemma pair_fifo_witness :
  ∃ d m d', duo_run test_duo pair_test = Done d ∧ pe_in (du_right d) = [part1]
    ∧ duo_act d false ARecv = Done (PRecv RcOk m, d').
Proof.
  destruct (duo_run test_duo pair_test) as [d| |] eqn:E; [|by vm_compute in E..].
  pose proof (open_duo_reachable _ _ _ _ (duo_run_reachable _ _ _ _ _ _ (open_init _ 10 10) pair_test_open E)) as Hd.
  assert (Hin : pe_in (du_right d) = [part1]) by (vm_compute in E; by injection E as <-).
  assert (Hp : ∃ p, sy_right (du_sys d) = Some p ∧ pi_state p = active) by (vm_compute in E; injection E as <-; by eexists).
  destruct Hp as (p & Hp & Hst).
  destruct (pair_fifo _ _ _ d Hd) as (_ & _ & _ & Hr). destruct (Hr false p Hp (or_introl Hst)) as (m & d' & H).
  - rewrite Hin. intros Hw. by specialize (Hw part1 eq_refl).
  - by exists d, m, d'.
Defined.

Lemma pair_catches_up_witness :
  ∃ d k d' rest, duo_run test_duo pair_test = Done d
    ∧ duo_run d (replicate (length (sy_lr (du_sys d))) (false, AProcess) ++ replicate k (false, ARecv)) = Done d'
    ∧ [part1; msg_init] = pe_in (du_right d') ++ rest ∧ Forall is_more rest.
Proof.
  destruct (duo_run test_duo pair_test) as [d| |] eqn:E; [|by vm_compute in E..].
  pose proof (duo_run_reachable _ _ _ _ _ _ (open_init _ 10 10) pair_test_open E) as Hd.
  assert (Hout : pe_out (du_left d) = [part1; msg_init]) by (vm_compute in E; by injection E as <-).
  destruct (pair_catches_up _ 10 10 d ltac:(lia) ltac:(lia) Hd) as (k & d' & rest & H1 & _ & H3 & H4). rewrite Hout in H3.
  by exists d, k, d', rest.
Defined.
