(* ===== verification/Endpoints.v ===== *)
(** The endpoints of a socket (src/core/socket_base.cpp, src/core/endpoint.cpp, and the inproc
    endpoints of src/core/ctx.cpp): bind, connect and term_endpoint.

    The calls are calls of SocketBase.  What the sockets of a context share is [net]: the bound inproc
    names, the pipes and the commands sent.  A pipe is one end of a pair of Pipe, and an access to an end
    that was deleted is [Undef].  Listeners and sessions are numbers; what a listener answers when it
    is given its address is a parameter, as are the load of the I/O threads and the name service. *)
From stdpp Require Import gmap.
From S2P Require Import Prelude Msg YPipe Pipe Pair PipeArray Dist Fq Sockets Options SocketBase Ctx Address.

Local Open Scope sl_scope.

(** ** What sockets share *)

(** An end of a pair: the number of the pair, and whether it is the left end. *)
Definition pref : Type := nat * bool.

(** A socket with a copy of its options at the time of the bind. *)
Record endpoint_t := Endpoint { en_socket : nat; en_options : options_t; en_recv_routing_id : bool }.

Record pending_connection_t := Pending { pn_endpoint : endpoint_t; pn_connect_pipe : pref; pn_bind_pipe : pref }.

Record inproc_t := Inproc { in_endpoints : gmap (list Z) endpoint_t; in_pending : list (list Z * pending_connection_t) }.

(** The commands that concern endpoints; [NCount] and [NAttach] are calls of [inc_seqnum] and [attach_pipe] of another socket. *)
Inductive net_command :=
| NBind (socket : nat) (p : pref) | NPlug (child : nat) | NOwn (owner child : nat) | NTerm (child : nat)
| NCount (socket : nat) | NAttach (socket : nat) (p : pref).

Record net := Net {
  nt_inproc : inproc_t;
  nt_pairs : gmap nat psys;
  nt_next : nat;                       (* the number of the next pair or child *)
  nt_sinks : gset pref;                (* the ends that have an event sink *)
  nt_sent : list net_command;
}.

Definition nt_set_inproc (i : inproc_t) (n : net) : net := Net i (nt_pairs n) (nt_next n) (nt_sinks n) (nt_sent n).
Definition nt_send (c : net_command) (n : net) : net := Net (nt_inproc n) (nt_pairs n) (nt_next n) (nt_sinks n) (nt_sent n ++ [c]).

(** ** Inproc names *)

(** A second registration of a name replaces the first. *)
Definition register_endpoint (addr : list Z) (e : endpoint_t) (i : inproc_t) : rc_t * inproc_t :=
  (RcOk, Inproc (<[addr := e]> (in_endpoints i)) (in_pending i)).

Definition unregister_endpoint (addr : list Z) (socket : nat) (i : inproc_t) : bool * inproc_t :=
  if decide (en_socket <$> in_endpoints i !! addr = Some socket) then (true, Inproc (delete addr (in_endpoints i)) (in_pending i)) else (false, i).

Definition find_endpoint (addr : list Z) (i : inproc_t) : option endpoint_t := in_endpoints i !! addr.

Definition unregister_endpoints (socket : nat) (i : inproc_t) : inproc_t :=
  Inproc (filter (λ x, en_socket x.2 ≠ socket) (in_endpoints i)) (in_pending i).

Definition pend_connection (addr : list Z) (e : endpoint_t) (connect_pipe bind_pipe : pref) (i : inproc_t) : inproc_t :=
  Inproc (in_endpoints i) (in_pending i ++ [(addr, Pending e connect_pipe bind_pipe)]).

(** ** Pipes *)

Definition at_end {R} (n : net) (p : pref) (f : penv → outcome (R * penv)) : outcome (R * net) :=
  match nt_pairs n !! p.1 with
  | None => Undef
  | Some s =>
      '(r, s) ← (if p.2 then at_left s f else '(r, s) ← at_left (swap_sys s) f; Done (r, swap_sys s));
      Done (r, Net (nt_inproc n) (<[p.1 := s]> (nt_pairs n)) (nt_next n) (nt_sinks n) (nt_sent n))
  end.

#[export] Instance net_pipes : PairPipes net pref := {|
  pp_write n p m := at_end n p (pipe_write m);
  pp_flush n p := snd <$> at_end n p (λ e, e ← pipe_flush e; Done ((), e));
  pp_read n p := at_end n p pipe_read;
  pp_check_read n p := at_end n p pipe_check_read;
  pp_check_write n p := at_end n p (λ e, Done (pipe_check_write e));
  pp_terminate n p d := snd <$> at_end n p (λ e, e ← pipe_terminate d e; Done ((), e));
|}.

Definition set_hwms_boost (n : net) (p : pref) (i o : Z) : outcome net :=
  snd <$> at_end n p (λ e, Done ((), set_pipe (pipe_set_hwms_boost i o) e)).

Definition set_event_sink (n : net) (p : pref) : outcome net :=
  assert! bool_decide (p ∉ nt_sinks n);;
  Done (Net (nt_inproc n) (nt_pairs n) (nt_next n) ({[p]} ∪ nt_sinks n) (nt_sent n)).

(** [object_t (object_t *parent_)] reads its parent. *)
Definition object_of_parent (parent : option nat) : outcome nat := match parent with Some p => Done p | None => Undef end.

(** [pipepair (parents, pipes, hwms, conflates)] with two ordinary queues. *)
Definition make_pipepair (parents : option nat * option nat) (hwm0 hwm1 : Z) (n : net) : outcome (pref * pref * net) :=
  _ ← object_of_parent parents.1;
  _ ← object_of_parent parents.2;
  let k := nt_next n in
  Done ((k, true), (k, false), Net (nt_inproc n) (<[k := pipepair hwm0 hwm1]> (nt_pairs n)) (S k) (nt_sinks n) (nt_sent n)).

(** A routing id in a message: [init_size], [memcpy], [set_flags]. *)
Definition routing_id_msg (h : heap) (id : list Z) : outcome (heap * msg_t) :=
  '(rc, h, m) ← msg_init_buffer h (Some id) (Z.of_nat (length id));
  assert! bool_decide (rc = RcOk);;
  Done (h, set_flags msg_routing_id m).

(** [send_routing_id] of pipe.cpp *)
Definition send_routing_id (h : heap) (n : net) (p : pref) (id : list Z) : outcome (heap * net) :=
  '(h, m) ← routing_id_msg h id;
  '(written, n) ← pp_write n p m;
  assert! written;;
  n ← pp_flush n p;
  Done (h, n).

(** The block of [connect_internal]: the message is closed after it was written. *)
Definition write_routing_id (h : heap) (n : net) (p : pref) (id : list Z) : outcome (heap * net) :=
  '(h, m) ← routing_id_msg h id;
  '(ok, n) ← pp_write n p m;
  assert! ok;;
  '(rc, h, _) ← msg_close h m;
  assert! bool_decide (rc = RcOk);;
  Done (h, n).

(** ** Pipes that are alive *)

Definition net_ok (n : net) : Prop := ∀ k s, nt_pairs n !! k = Some s → sys_inv s.

Definition alive (n : net) (p : pref) : Prop :=
  ∃ s x, nt_pairs n !! p.1 = Some s ∧ (if p.2 then sy_left s else sy_right s) = Some x.

Lemma at_end_ok {R} n p op (f : penv → outcome (R * penv)) :
  net_ok n → alive n p → (∀ x, legal x op) → op ≠ UHiccup → (∀ k e, user_op k op e = ('(_, e) ← f e; Done e)) →
  ∃ r n', at_end n p f = Done (r, n') ∧ net_ok n' ∧ ∀ q, alive n q → alive n' q.
Proof.
  intros Hn (s & x & Hs & Hx) Hl Hop Hf. unfold at_end. rewrite Hs. set (s0 := if p.2 then s else swap_sys s).
  assert (Hs0 : sys_inv s0) by (unfold s0; destruct (p.2); [by eapply Hn|by eapply sys_inv_swap, Hn]).
  assert (Hx0 : sy_left s0 = Some x) by (unfold s0; by destruct (p.2)).
  destruct (at_left_inv s0 x op f Hs0 Hx0 (Hl x) Hop (Hf _ _)) as (r & e & _ & Ha & Hi).
  set (s1 := if p.2 then after s0 (sy_rl s0) e else swap_sys (after s0 (sy_rl s0) e)).
  assert (E : (if p.2 then at_left s f else '(r, s) ← at_left (swap_sys s) f; Done (r, swap_sys s)) = Done (r, s1)).
  { unfold s0, s1 in *. destruct (p.2); [done|]. by rewrite Ha. }
  rewrite E, bind_Done. eexists _, _. split; [done|].
  assert (Hs1 : sys_inv s1) by (unfold s1; destruct (p.2); [done|by apply sys_inv_swap]). split.
  - intros k s'. simpl. rewrite lookup_insert_Some. intros [[_ <-]|[_ Hk]]; [done|by eapply Hn].
  - intros q (s' & y & Hs' & Hy). unfold alive. simpl. destruct (decide (q.1 = p.1)) as [Eq|Hne].
    + rewrite Eq, lookup_insert_eq. rewrite Eq, Hs in Hs'. injection Hs' as <-. exists s1. unfold s1, s0. unfold s0 in Hx0.
      destruct (p.2), (q.2); simpl; eauto.
    + rewrite lookup_insert_ne by done. eauto.
Qed.

Lemma terminate_ok n p d : net_ok n → alive n p → ∃ n', pp_terminate n p d = Done n' ∧ net_ok n' ∧ ∀ q, alive n q → alive n' q.
Proof.
  intros Hn Hp. destruct (at_end_ok n p (UTerminate d) (λ e, e ← pipe_terminate d e; Done ((), e)) Hn Hp) as ([] & n' & E & H);
    [done|done|intros; apply terminate_op_eq|]. exists n'. split; [|done]. cbn [pp_terminate net_pipes]. by rewrite E.
Qed.

(** The end has been told to terminate and waits for the acknowledgement of its peer, or has sent its own. *)
Definition terminating (n : net) (p : pref) : Prop :=
  ∃ s x, nt_pairs n !! p.1 = Some s ∧ (if p.2 then sy_left s else sy_right s) = Some x ∧ pi_state x ∈ [term_req_sent1; term_req_sent2; term_ack_sent].

Lemma rollback_loop_pipe fuel q e e' : rollback_loop fuel q e = Done e' → pe_pipe e' = pe_pipe e.
Proof.
  revert e. induction fuel as [|fuel IH]; intros e; [done|]. cbn [rollback_loop]. intros (u & _ & H)%bind_Done_inv. destruct (up_unwrite u) as [[m|] u']; [|by injection H as <-].
  apply bind_Done_inv in H as (_ & _ & H). by apply IH in H.
Qed.

Lemma rollback_pipe e e' : pipe_rollback e = Done e' → pe_pipe e' = pe_pipe e.
Proof. unfold pipe_rollback. destruct (pi_out_pipe _); [|by intros [= <-]]. intros (u & _ & H)%bind_Done_inv. by eapply rollback_loop_pipe. Qed.

Lemma write_out_pipe m q e e' : write_out m q e = Done e' → pe_pipe e' = pe_pipe e.
Proof.
  unfold write_out, pipe_flush. intros (u & _ & H)%bind_Done_inv. case_decide; [by injection H as <-|]. destruct (pi_out_pipe _); [|by injection H as <-].
  apply bind_Done_inv in H as (u2 & _ & H). destruct (up_flush u2) as [[] u3]; by injection H as <-.
Qed.

Lemma pipe_terminate_state e e' : pipe_terminate false e = Done e' → st_of e' ∈ [term_req_sent1; term_req_sent2; term_ack_sent].
Proof.
  unfold pipe_terminate. set (e0 := set_pipe (with_delay false) e). destruct (st_of e0) eqn:Est.
  all: try (intros [= <-]; rewrite Est; set_solver). all: intros (e1 & H1 & H)%bind_Done_inv.
  all: assert (Hst : st_of e1 ∈ [term_req_sent1; term_req_sent2; term_ack_sent]).
  all: try (injection H1 as <-; unfold st_of; simpl; set_solver).
  all: try (cbn [negb] in H1; apply bind_Done_inv in H1 as (e2 & _ & [= <-]); unfold st_of; simpl; set_solver).
  all: set (e3 := set_pipe _ e1) in *; change (st_of e1) with (st_of e3) in Hst; clearbody e3; destruct (pi_out_pipe (pe_pipe e3)); [|by injection H as <-].
  all: apply bind_Done_inv in H as (e4 & H4%rollback_pipe & H%write_out_pipe); unfold st_of in *; by rewrite H, H4.
Qed.

Lemma terminate_terminating n p n' :
  pp_terminate n p false = Done n' → terminating n' p ∧ nt_sent n' = nt_sent n ∧ ∀ q, terminating n q → terminating n' q.
Proof.
  cbn [pp_terminate net_pipes]. destruct (at_end n p _) as [[[] n1]| |] eqn:E; [|done..]. intros [= <-]. unfold at_end in E. destruct (nt_pairs n !! p.1) as [s|] eqn:Hs; [|done].
  set (s0 := if p.2 then s else swap_sys s).
  assert (Hx : ∃ x e, sy_left s0 = Some x ∧ pipe_terminate false (env_of x s0) = Done e
    ∧ n1 = Net (nt_inproc n) (<[p.1 := if p.2 then after s0 (sy_rl s0) e else swap_sys (after s0 (sy_rl s0) e)]> (nt_pairs n)) (nt_next n) (nt_sinks n) (nt_sent n)).
  { unfold s0, at_left in *. destruct (p.2).
    - destruct (sy_left s) as [x|]; [|done]. destruct (pipe_terminate false (env_of x s)) as [e| |] eqn:Ee; [|done..]. exists x, e. simpl in E. by injection E as <-.
    - destruct (sy_left (swap_sys s)) as [x|]; [|done]. destruct (pipe_terminate false (env_of x (swap_sys s))) as [e| |] eqn:Ee; [|done..]. exists x, e. simpl in E. by injection E as <-. }
  destruct Hx as (x & e & Hx & He%pipe_terminate_state & ->). unfold terminating. simpl.
  assert (Hp : terminating (Net (nt_inproc n) (<[p.1 := if p.2 then after s0 (sy_rl s0) e else swap_sys (after s0 (sy_rl s0) e)]> (nt_pairs n)) (nt_next n) (nt_sinks n) (nt_sent n)) p).
  { unfold terminating. simpl. rewrite lookup_insert_eq. eexists _, (pe_pipe e). split; [done|]. split; [by destruct (p.2)|done]. }
  split; [exact Hp|]. split; [done|]. intros q (s' & y & Hs' & Hy & Hst). destruct (decide (q = p)) as [->|Hne]; [exact Hp|].
  destruct (decide (q.1 = p.1)) as [Eq|Hne1]; [|rewrite lookup_insert_ne by done; eauto]. rewrite Eq, lookup_insert_eq. rewrite Eq, Hs in Hs'. injection Hs' as <-.
  eexists _, y. split; [done|]. split; [|done]. unfold s0 in *. destruct p as [k []], q as [k' []]; simpl in *; subst; done.
Qed.

(** ** The socket *)

Record ep (X : Type) := Ep {
  ep_id : nat;
  ep_x : X;                                             (* the members of the socket type *)
  ep_endpoints : list (list Z * (option nat * option pref));   (* a multimap, in the order of insertion *)
  ep_pipes : list pref;
  ep_owned : gset nat;
  ep_terminating : bool;
  ep_term_acks : Z;
  ep_sent_seqnum : Z;                                   (* unbounded: see OwnTree for its width *)
  ep_processed_seqnum : Z;
  ep_destroyed : bool;
  ep_disconnected : bool;
  ep_connected : bool;                                  (* options.connected *)
  ep_recv_routing_id : bool;                            (* options.recv_routing_id *)
}.
Arguments Ep {X}.
Arguments ep_id {X}. Arguments ep_x {X}. Arguments ep_endpoints {X}. Arguments ep_pipes {X}. Arguments ep_owned {X}.
Arguments ep_terminating {X}. Arguments ep_term_acks {X}. Arguments ep_sent_seqnum {X}. Arguments ep_processed_seqnum {X}.
Arguments ep_destroyed {X}. Arguments ep_disconnected {X}. Arguments ep_connected {X}. Arguments ep_recv_routing_id {X}.

Section setters.
Context {X : Type}.
Definition ep_set_x (x : X) (s : ep X) : ep X :=
  Ep (ep_id s) x (ep_endpoints s) (ep_pipes s) (ep_owned s) (ep_terminating s) (ep_term_acks s) (ep_sent_seqnum s) (ep_processed_seqnum s) (ep_destroyed s) (ep_disconnected s) (ep_connected s) (ep_recv_routing_id s).
Definition ep_set_endpoints (l : list (list Z * (option nat * option pref))) (s : ep X) : ep X :=
  Ep (ep_id s) (ep_x s) l (ep_pipes s) (ep_owned s) (ep_terminating s) (ep_term_acks s) (ep_sent_seqnum s) (ep_processed_seqnum s) (ep_destroyed s) (ep_disconnected s) (ep_connected s) (ep_recv_routing_id s).
Definition ep_set_pipes (l : list pref) (s : ep X) : ep X :=
  Ep (ep_id s) (ep_x s) (ep_endpoints s) l (ep_owned s) (ep_terminating s) (ep_term_acks s) (ep_sent_seqnum s) (ep_processed_seqnum s) (ep_destroyed s) (ep_disconnected s) (ep_connected s) (ep_recv_routing_id s).
Definition ep_set_owned (o : gset nat) (s : ep X) : ep X :=
  Ep (ep_id s) (ep_x s) (ep_endpoints s) (ep_pipes s) o (ep_terminating s) (ep_term_acks s) (ep_sent_seqnum s) (ep_processed_seqnum s) (ep_destroyed s) (ep_disconnected s) (ep_connected s) (ep_recv_routing_id s).
Definition ep_add_acks (k : Z) (s : ep X) : ep X :=
  Ep (ep_id s) (ep_x s) (ep_endpoints s) (ep_pipes s) (ep_owned s) (ep_terminating s) (ep_term_acks s + k) (ep_sent_seqnum s) (ep_processed_seqnum s) (ep_destroyed s) (ep_disconnected s) (ep_connected s) (ep_recv_routing_id s).
Definition ep_set_seqnum (sent processed : Z) (s : ep X) : ep X :=
  Ep (ep_id s) (ep_x s) (ep_endpoints s) (ep_pipes s) (ep_owned s) (ep_terminating s) (ep_term_acks s) sent processed (ep_destroyed s) (ep_disconnected s) (ep_connected s) (ep_recv_routing_id s).
Definition ep_set_flags (terminating destroyed disconnected connected : bool) (s : ep X) : ep X :=
  Ep (ep_id s) (ep_x s) (ep_endpoints s) (ep_pipes s) (ep_owned s) terminating (ep_term_acks s) (ep_sent_seqnum s) (ep_processed_seqnum s) destroyed disconnected connected (ep_recv_routing_id s).
Definition ep_set_connected (s : ep X) : ep X := ep_set_flags (ep_terminating s) (ep_destroyed s) (ep_disconnected s) true s.
Definition ep_set_disconnected (s : ep X) : ep X := ep_set_flags (ep_terminating s) (ep_destroyed s) true (ep_connected s) s.
Definition ep_set_destroyed (s : ep X) : ep X := ep_set_flags (ep_terminating s) true (ep_disconnected s) (ep_connected s) s.
Definition ep_set_terminating (s : ep X) : ep X := ep_set_flags true (ep_destroyed s) (ep_disconnected s) (ep_connected s) s.
End setters.

(** What a socket type does with its pipes. *)
Class AttachType (X : Type) := {
  x_attach : heap → net → X → pref → bool → bool → outcome (heap * net * X);
  x_pipe_terminated : heap → net → X → pref → outcome (heap * net * X);
}.

(** ** Addresses *)

Definition is_alnum (c : Z) : bool := is_digit c || is_alpha c.

Definition tcp_char (c : Z) : bool :=
  is_alnum c || bool_decide (c ∈ [46; 45; 58; 37; 91; 93]).

Fixpoint skip_chars (s : list Z) : list Z := match s with c :: s' => if tcp_char c then skip_chars s' else s | [] => [] end.

(** The check of the syntax of a TCP address: no other characters, and a digit after the last colon. *)
Definition tcp_syntax (address : list Z) : bool :=
  let rest := match address with c :: s => if is_alnum c || bool_decide (c = 91) then skip_chars s else address | [] => [] end in
  match rest with
  | [] => match strrchr 58 address with Some i => match drop (S i) address with c :: _ => is_digit c | [] => false end | None => false end
  | _ :: _ => false
  end.

Definition SL_RECONNECT_STOP_AFTER_DISCONNECT : Z := 4.

Section endpoints.
Context {X C : Type} {AT : AttachType X} {ST : SocketType net (ep X) C} {NS : NameService}.
(** Whether the build has IPC, the load of the I/O threads, and what a listener says when it is given an address:
    the endpoint it listens on, or an error. *)
Context (have_ipc : bool) (loads : list Z) (listen : list Z → list Z → options_t → list Z + errno_t).

Notation call := (@SocketBase.call net (ep X) C).
Notation "'call!' x <- m ';;' k" := (c_bind m (λ x, k)) (at level 100, x binder, m at level 50, k at level 200, right associativity).

(** An operation on what the socket shares and on its own members. *)
Definition lift {A} (f : heap → net → ep X → outcome (A * heap * net * ep X)) : call A := λ st,
  '(a, h, n, s) ← f (st_heap st) (st_world st) (sb_sock (st_base st));
  Done (Some (a, State h n (sb_set_sock s (st_base st)) (st_env st))).

Definition set_last_endpoint (l : list Z) : call () :=
  c_modify (λ b, SocketBase (sb_sock b) (sb_ctx_terminated b) (sb_last_tsc b) (sb_ticks b) (sb_rcvmore b) (sb_options b) l (sb_fd b)).

(** ** Pipes and children of the socket *)

Definition sb_attach_pipe (h : heap) (n : net) (s : ep X) (p : pref) (subscribe_to_all locally_initiated : bool) : outcome (heap * net * ep X) :=
  n ← set_event_sink n p;
  let s := ep_set_pipes (ep_pipes s ++ [p]) s in
  '(h, n, x) ← x_attach h n (ep_x s) p subscribe_to_all locally_initiated;
  let s := ep_set_x x s in
  if ep_terminating s then n ← pp_terminate n p false; Done (h, n, ep_add_acks 1 s) else Done (h, n, s).

(** [own_t::launch_child]: plug and own count as commands to come. *)
Definition sb_launch_child (child : nat) (n : net) (s : ep X) : net * ep X :=
  (nt_send (NOwn (ep_id s) child) (nt_send (NPlug child) n), ep_set_seqnum (ep_sent_seqnum s + 1) (ep_processed_seqnum s) s).

(** [own_t::term_child] *)
Definition sb_term_child (child : option nat) (n : net) (s : ep X) : net * ep X :=
  match child with
  | Some c => if negb (ep_terminating s) && bool_decide (c ∈ ep_owned s) then (nt_send (NTerm c) n, ep_add_acks 1 (ep_set_owned (ep_owned s ∖ {[c]}) s)) else (n, s)
  | None => (n, s)
  end.

Definition sb_add_endpoint (key : list Z) (child : option nat) (p : option pref) (n : net) (s : ep X) : net * ep X :=
  let '(n, s) := match child with Some c => sb_launch_child c n s | None => (n, s) end in
  (n, ep_set_endpoints (ep_endpoints s ++ [(key, (child, p))]) s).

(** [own_t::check_term_acks] marks the socket ([process_destroy]). *)
Definition sb_check_term_acks (s : ep X) : ep X :=
  if ep_terminating s && bool_decide (ep_processed_seqnum s = ep_sent_seqnum s) && bool_decide (ep_term_acks s = 0) then ep_set_destroyed s else s.

Definition sb_process_seqnum (s : ep X) : ep X :=
  sb_check_term_acks (ep_set_seqnum (ep_sent_seqnum s) (ep_processed_seqnum s + 1) s).

(** The commands own and bind, as [object_t::process_command] runs them. *)
Definition sb_process_own (child : nat) (n : net) (s : ep X) : net * ep X :=
  let '(n, s) := if ep_terminating s then (nt_send (NTerm child) n, ep_add_acks 1 s) else (n, ep_set_owned ({[child]} ∪ ep_owned s) s) in
  (n, sb_process_seqnum s).

Definition sb_process_bind (h : heap) (n : net) (s : ep X) (p : pref) : outcome (heap * net * ep X) :=
  '(h, n, s) ← sb_attach_pipe h n s p false false;
  Done (h, n, sb_process_seqnum s).

Definition sb_process_term (n : net) (s : ep X) : outcome (net * ep X) :=
  let n := nt_set_inproc (unregister_endpoints (ep_id s) (nt_inproc n)) n in
  n ← (fix go ps n := match ps with [] => Done n | p :: ps => n ← pp_terminate n p false; go ps n end) (ep_pipes s) n;
  let s := ep_add_acks (Z.of_nat (length (ep_pipes s))) s in
  assert! negb (ep_terminating s);;
  let n := foldl (λ n c, nt_send (NTerm c) n) n (elements (ep_owned s)) in
  let s := ep_set_owned ∅ (ep_add_acks (Z.of_nat (size (ep_owned s))) s) in
  Done (n, sb_check_term_acks (ep_set_terminating s)).

(** The pipe is deleted afterwards. *)
Definition sb_pipe_terminated (h : heap) (n : net) (s : ep X) (p : pref) : outcome (heap * net * ep X) :=
  '(h, n, x) ← x_pipe_terminated h n (ep_x s) p;
  let s := ep_set_pipes (filter (λ q, q ≠ p) (ep_pipes s)) (ep_set_x x s) in
  if ep_terminating s then
    assert! bool_decide (0 < ep_term_acks s);;
    Done (h, n, sb_check_term_acks (ep_add_acks (-1) s))
  else Done (h, n, s).

(** ** bind *)

(** The endpoints of a call: checked, with pending commands processed; the error otherwise. *)
Definition checked_endpoint (uri : list Z) : call ((list Z * list Z) + errno_t) :=
  call! b <- c_base;;
  if sb_ctx_terminated b then c_ret (inr ETERM)
  else
    call! rc <- process_commands 0 false;;
    match rc with
    | RcErr e => c_ret (inr e)
    | RcOk =>
        match parse_uri uri with
        | None => c_ret (inr EINVAL)
        | Some (protocol, address) => match check_protocol have_ipc protocol with RcOk => c_ret (inl (protocol, address)) | RcErr e => c_ret (inr e) end
        end
    end.

(** [choose_io_thread] *)
Definition io_thread : call (option nat) := λ st, r ← choose_io_thread (o_affinity (sb_options (st_base st))) loads; Done (Some (r, st)).

Definition new_child (n : net) : nat * net := (nt_next n, Net (nt_inproc n) (nt_pairs n) (S (nt_next n)) (nt_sinks n) (nt_sent n)).

(** The listener of bind for tcp and ipc. *)
Definition bind_listener (protocol address : list Z) : call rc_t :=
  call! t <- io_thread;;
  match t with
  | None => c_ret (RcErr EMTHREAD)
  | Some _ =>
      call! b <- c_base;;
      match listen protocol address (sb_options b) with
      | inr e => c_ret (RcErr e)
      | inl local =>
          call! _ <- set_last_endpoint local;;
          lift (λ h n s,
            let '(c, n) := new_child n in
            let '(n, s) := sb_add_endpoint local (Some c) None n s in
            Done (RcOk, h, n, ep_set_connected s))
      end
  end.

Definition pending_of (addr : list Z) (i : inproc_t) : list pending_connection_t := snd <$> filter (λ x, x.1 = addr) (in_pending i).

(** [connect_inproc_sockets] for every pending connection: both sockets count, and each gets its end. *)
Fixpoint attach_pending (l : list pending_connection_t) (h : heap) (n : net) (s : ep X) : outcome (heap * net * ep X) :=
  match l with
  | [] => Done (h, n, s)
  | c :: l =>
      let other := en_socket (pn_endpoint c) in
      let s := ep_set_seqnum (ep_sent_seqnum s + 1) (ep_processed_seqnum s) s in
      let n := nt_send (NCount other) n in
      '(h, n, s) ← sb_attach_pipe h n s (pn_bind_pipe c) true false;
      attach_pending l h (nt_send (NAttach other (pn_connect_pipe c)) n) s
  end.

Definition connect_pending (addr : list Z) (h : heap) (n : net) (s : ep X) : outcome (heap * net * ep X) :=
  '(h, n, s) ← attach_pending (pending_of addr (nt_inproc n)) h n s;
  Done (h, nt_set_inproc (Inproc (in_endpoints (nt_inproc n)) (filter (λ x, x.1 ≠ addr) (in_pending (nt_inproc n)))) n, s).

Definition bind_inproc (protocol address : list Z) : call rc_t :=
  call! b <- c_base;;
  let uri := protocol ++ [58; 47; 47] ++ address in
  let e := Endpoint (ep_id (sb_sock b)) (sb_options b) (ep_recv_routing_id (sb_sock b)) in
  call! rc <- lift (λ h n s, let '(rc, i) := register_endpoint address e (nt_inproc n) in Done (rc, h, nt_set_inproc i n, s));;
  match rc with
  | RcErr er => c_ret (RcErr er)
  | RcOk =>
      call! _ <- set_last_endpoint uri;;
      lift (λ h n s,
        let '(n, s) := sb_add_endpoint uri None None n s in
        '(h, n, s) ← connect_pending address h n s;
        Done (RcOk, h, n, ep_set_connected s))
  end.

Definition sb_bind (uri : list Z) : call rc_t :=
  call! r <- checked_endpoint uri;;
  match r with
  | inr e => c_ret (RcErr e)
  | inl (protocol, address) =>
      if decide (protocol = protocol_tcp) then bind_listener protocol address
      else if have_ipc && bool_decide (protocol = protocol_ipc) then bind_listener protocol address
      else if decide (protocol = protocol_inproc) then bind_inproc protocol address
      else λ _, Abort
  end.

(** ** connect *)

(** The name is not bound yet: the second parent of the pipes is NULL. *)
Definition connect_unbound (uri address : list Z) (o : options_t) (h : heap) (n : net) (s : ep X) : outcome (rc_t * heap * net * ep X) :=
  '(p0, p1, n) ← make_pipepair (Some (ep_id s), None) (o_int o sndhwm) (o_int o rcvhwm) n;
  '(h, n) ← send_routing_id h n p0 (o_routing_id o);
  let '(n, s) := sb_add_endpoint uri None (Some p0) n s in
  Done (RcOk, h, nt_set_inproc (pend_connection address (Endpoint (ep_id s) o (ep_recv_routing_id s)) p0 p1 (nt_inproc n)) n, s).

(** The pipes between the two sockets, with the routing ids that they ask for. *)
Definition join_pipes (peer : endpoint_t) (o : options_t) (h : heap) (n : net) (s : ep X) : outcome (pref * pref * heap * net) :=
  let po := en_options peer in
  '(p0, p1, n) ← make_pipepair (Some (ep_id s), Some (en_socket peer)) (o_int o sndhwm) (o_int po rcvhwm) n;
  n ← set_hwms_boost n p0 (o_int po sndhwm) (o_int po rcvhwm);
  n ← set_hwms_boost n p1 (o_int o sndhwm) (o_int o rcvhwm);
  '(h, n) ← (if en_recv_routing_id peer then write_routing_id h n p0 (o_routing_id o) else Done (h, n));
  '(h, n) ← (if ep_recv_routing_id s then write_routing_id h n p1 (o_routing_id po) else Done (h, n));
  n ← (if en_recv_routing_id peer then pp_flush n p0 else Done n);
  n ← (if ep_recv_routing_id s then pp_flush n p1 else Done n);
  Done (p0, p1, h, n).

Definition connect_bound (uri : list Z) (peer : endpoint_t) (o : options_t) (h : heap) (n : net) (s : ep X) : outcome (rc_t * heap * net * ep X) :=
  '(p0, p1, h, n) ← join_pipes peer o h n s;
  let n := nt_send (NBind (en_socket peer) p1) n in
  '(h, n, s) ← sb_attach_pipe h n s p0 false true;
  let '(n, s) := sb_add_endpoint uri None (Some p0) n s in
  Done (RcOk, h, n, s).

Definition connect_inproc (protocol address : list Z) : call rc_t :=
  call! b <- c_base;;
  let uri := protocol ++ [58; 47; 47] ++ address in
  call! rc <- lift (λ h n s,
    match find_endpoint address (nt_inproc n) with
    | None => connect_unbound uri address (sb_options b) h n s
    | Some peer => connect_bound uri peer (sb_options b) h n s
    end);;
  call! _ <- set_last_endpoint uri;;
  c_ret rc.

(** A session in an I/O thread; unless the option says to wait for the connection, with a pipe to it. *)
Definition connect_session (uri protocol address : list Z) : call rc_t :=
  call! t <- io_thread;;
  match t with
  | None => c_ret (RcErr EMTHREAD)
  | Some _ =>
      if bool_decide (protocol = protocol_tcp) && negb (tcp_syntax address) then c_ret (RcErr EINVAL)
      else
        call! b <- c_base;;
        let o := sb_options b in
        call! r <- lift (λ h n s,
          let '(c, n) := new_child n in
          if decide (o_int o immediate ≠ 1) then
            '(p0, p1, n) ← make_pipepair (Some (ep_id s), Some c) (o_int o sndhwm) (o_int o rcvhwm) n;
            '(h, n, s) ← sb_attach_pipe h n s p0 false true;
            n ← set_event_sink n p1;
            Done ((c, Some p0), h, n, s)
          else Done ((c, None), h, n, s));;
        call! _ <- (λ st, text ← address_to_string protocol address RNone; set_last_endpoint (default [] text) st);;
        lift (λ h n s, let '(n, s) := sb_add_endpoint uri (Some r.1) r.2 n s in Done (RcOk, h, n, s))
  end.

Definition sb_connect (uri : list Z) : call rc_t :=
  call! r <- checked_endpoint uri;;
  match r with
  | inr e => c_ret (RcErr e)
  | inl (protocol, address) =>
      if decide (protocol = protocol_inproc) then connect_inproc protocol address else connect_session uri protocol address
  end.

(** ** term_endpoint *)

Definition has_endpoint (key : list Z) (s : ep X) : bool := bool_decide (key ∈ (ep_endpoints s).*1).

(** The text of the address, empty when it has none. *)
Definition tcp_text (t : tcp_address_t) : outcome (list Z) := r ← tcp_to_string t; Done (default [] r).

Definition resolve_tcp_addr (uri address : list Z) (ipv6 : bool) (s : ep X) : outcome (list Z) :=
  if has_endpoint uri s then Done uri
  else
    '(rc, t) ← tcp_resolve address false ipv6 tcp_address_new;
    if decide (rc = RcOk) then
      uri ← tcp_text t;
      if has_endpoint uri s then Done uri
      else
        '(rc, t) ← tcp_resolve address true ipv6 t;
        if decide (rc = RcOk) then tcp_text t else Done uri
    else Done uri.

(** The loop over the entries of the key. *)
Fixpoint term_entries (l : list (option nat * option pref)) (n : net) (s : ep X) : outcome (net * ep X) :=
  match l with
  | [] => Done (n, s)
  | (child, p) :: l =>
      n ← match p with Some p => pp_terminate n p false | None => Done n end;
      let '(n, s) := sb_term_child child n s in
      term_entries l n s
  end.

Definition entries_of (key : list Z) (s : ep X) : list (option nat * option pref) := snd <$> filter (λ x, x.1 = key) (ep_endpoints s).

Definition sb_term_endpoint (uri : option (list Z)) : call rc_t :=
  call! b <- c_base;;
  if sb_ctx_terminated b then c_ret (RcErr ETERM)
  else match uri with
  | None => c_ret (RcErr EINVAL)
  | Some uri =>
      call! r <- checked_endpoint uri;;
      match r with
      | inr e => c_ret (RcErr e)
      | inl (protocol, address) =>
          call! b <- c_base;;
          lift (λ h n s,
            key ← (if decide (protocol = protocol_tcp) then resolve_tcp_addr uri address (o_ipv6 (sb_options b)) s else Done uri);
            match entries_of key s with
            | [] => Done (RcErr ENOENT, h, n, s)
            | l =>
                '(n, s) ← term_entries l n s;
                let s := ep_set_endpoints (filter (λ x, x.1 ≠ key) (ep_endpoints s)) s in
                let s := if decide (Z.land (o_int (sb_options b) reconnect_stop) SL_RECONNECT_STOP_AFTER_DISCONNECT ≠ 0) then ep_set_disconnected s else s in
                Done (RcOk, h, n, s)
            end)
      end
  end.

(** ** The table of endpoints *)

Definition table (st : state net (ep X) C) : list (list Z * (option nat * option pref)) := ep_endpoints (sb_sock (st_base st)).

(** Commands leave the table alone ([term_endpoint] as a command is the call). *)
Definition commands_keep_table : Prop :=
  ∀ h n (s : ep X) (c : C) h' n' s', x_command h n s c = Done (h', n', s') → ep_endpoints s' = ep_endpoints s.


Section keeping.
Context (Hkeep : commands_keep_table).

Lemma drain_table fuel a (st st' : state net (ep X) C) : drain_commands fuel a st = Done (Some ((), st')) → table st' = table st.
Proof.
  revert a st. induction fuel as [|fuel IH]; intros a st; [done|]. cbn [drain_commands]. destruct a as [c| |].
  - intros ([] & st1 & Hp & Hr)%c_bind_inv. apply c_bind_inv in Hr as (a & st2 & Hm & Hr). apply IH in Hr. rewrite Hr.
    apply mailbox_recv_inv in Hm as (E & _). unfold table in *. rewrite E. destruct c as [|c]; cbn [process_command] in Hp; [by injection Hp as <-|].
    apply bind_Done_inv in Hp as ([[h n] s] & Hx & [= <-]). by eapply Hkeep.
  - by intros [= <-].
  - intros (a & st1 & (E & _)%mailbox_recv_inv & H)%c_bind_inv. apply IH in H. rewrite H. unfold table. by rewrite E.
Qed.

Lemma process_commands_table timeout throttle (st st' : state net (ep X) C) rc :
  process_commands timeout throttle st = Done (Some (rc, st')) → table st' = table st.
Proof.
  unfold process_commands. intros (t & st1 & H1 & H)%c_bind_inv.
  assert (E1 : table st1 = table st).
  { unfold table. destruct (decide _); [|by injection H1 as <- <-]. apply c_bind_inv in H1 as (tsc & st2 & (E & _)%rdtsc_inv & H1).
    apply c_bind_inv in H1 as (b & st3 & H3 & H1). injection H3 as <- <-. destruct (_ && _); [|injection H1 as <- <-; by rewrite E].
    destruct (decide _); [injection H1 as <- <-; by rewrite E|]. apply c_bind_inv in H1 as ([] & st4 & H4 & H1). injection H4 as <-.
    injection H1 as <- <-. simpl. by rewrite E. }
  rewrite <- E1. destruct t; [by injection H as <- <-|]. apply c_bind_inv in H as (a & st2 & (E2 & _)%mailbox_recv_inv & H).
  assert (E2' : table st2 = table st1) by (unfold table; by rewrite E2). rewrite <- E2'.
  assert (Hd : ∀ st3, c_bind (λ st, drain_commands (mail_fuel st) a st) (λ _, c_bind c_base (λ b, c_ret (if sb_ctx_terminated b then RcErr ETERM else RcOk))) st2 = Done (Some (rc, st3)) → table st3 = table st2).
  { intros st3 ([] & st4 & H4 & H3)%c_bind_inv. apply drain_table in H4. apply c_bind_inv in H3 as (b & st5 & [= <- <-] & [= _ <-]). done. }
  destruct a; [by apply Hd|by apply Hd|by injection H as <- <-].
Qed.

(** What the checks at the start of a call say. *)
Lemma checked_endpoint_inv uri st r st' :
  checked_endpoint uri st = Done (Some (r, st')) →
  table st' = table st ∧ sb_options (st_base st') = sb_options (st_base st)
  ∧ match r with
    | inl (protocol, address) => parse_uri uri = Some (protocol, address) ∧ check_protocol have_ipc protocol = RcOk
        ∧ process_commands 0 false st = Done (Some (RcOk, st'))
    | inr _ => True
    end.
Proof.
  unfold checked_endpoint. intros (b & st1 & [= <- <-] & H)%c_bind_inv. destruct (sb_ctx_terminated _); [by injection H as <- <-|].
  apply c_bind_inv in H as (rc & st1 & Hp & H). pose proof (process_commands_table _ _ _ _ _ Hp) as Ht.
  pose proof (process_commands_inv _ _ _ _ _ Hp) as ([Ho _ _] & _).
  destruct rc as [|e]; [|injection H as <- <-; done]. destruct (parse_uri uri) as [[protocol address]|]; [|injection H as <- <-; done].
  destruct (check_protocol have_ipc protocol) eqn:Hc; injection H as <- <-; done.
Qed.

Lemma checked_endpoint_ok uri st st' protocol address :
  sb_ctx_terminated (st_base st) = false → process_commands 0 false st = Done (Some (RcOk, st')) →
  parse_uri uri = Some (protocol, address) → check_protocol have_ipc protocol = RcOk →
  checked_endpoint uri st = Done (Some (inl (protocol, address), st')).
Proof. intros Ht Hp Hu Hc. unfold checked_endpoint, c_bind, c_base. rewrite Ht, Hp, Hu, Hc. done. Qed.

Lemma lift_inv {A} (f : heap → net → ep X → outcome (A * heap * net * ep X)) (st st' : state net (ep X) C) a :
  lift f st = Done (Some (a, st')) →
  f (st_heap st) (st_world st) (sb_sock (st_base st)) = Done (a, st_heap st', st_world st', sb_sock (st_base st')).
Proof. unfold lift. intros ([[[a' h] n] s] & -> & [= <- <-])%bind_Done_inv. done. Qed.

Lemma attach_pipe_table h n (s : ep X) p all loc h' n' s' :
  sb_attach_pipe h n s p all loc = Done (h', n', s') → ep_endpoints s' = ep_endpoints s.
Proof.
  unfold sb_attach_pipe. intros (n1 & _ & ([[h2 n2] x] & _ & H)%bind_Done_inv)%bind_Done_inv. simpl in H.
  destruct (ep_terminating s); [apply bind_Done_inv in H as (n3 & _ & [= <- <- <-])|injection H as <- <- <-]; done.
Qed.

Lemma add_endpoint_table key child p n (s : ep X) : ep_endpoints (sb_add_endpoint key child p n s).2 = ep_endpoints s ++ [(key, (child, p))].
Proof. by destruct child. Qed.

Lemma connect_table uri st st' :
  sb_connect uri st = Done (Some (RcOk, st')) → ∃ child p, table st' = table st ++ [(uri, (child, p))].
Proof.
  unfold sb_connect. intros (r & st1 & Hc & H)%c_bind_inv. apply checked_endpoint_inv in Hc as (<- & _ & Hr).
  destruct r as [[protocol address]|e]; [|by injection H]. destruct Hr as (Hu & _ & _). apply parse_uri_inv in Hu as (-> & _ & _).
  destruct (decide _).
  - unfold connect_inproc in H. apply c_bind_inv in H as (b & st2 & [= <- <-] & H). apply c_bind_inv in H as (rc & st2 & H2%lift_inv & H).
    apply c_bind_inv in H as ([] & st3 & [= <-] & [= -> <-]). unfold table. simpl. set (uri := protocol ++ _ ++ address) in *.
    destruct (find_endpoint address _) as [peer|].
    + unfold connect_bound in H2. apply bind_Done_inv in H2 as ([[[p0 p1] h1] n1] & _ & H2). apply bind_Done_inv in H2 as ([[h2 n2] s2] & Ha%attach_pipe_table & H2).
      pose proof (add_endpoint_table uri None (Some p0) n2 s2) as Ht. destruct (sb_add_endpoint _ _ _ _ _) as [n3 s3]. injection H2 as _ _ Hs.
      rewrite <- Ha, <- Hs. by eexists _, _.
    + unfold connect_unbound in H2. by apply bind_Done_inv in H2 as ([[p0 p1] n1] & H2 & _).
  - unfold connect_session in H. apply c_bind_inv in H as (t & st2 & Ht & H).
    assert (st2 = st1) as -> by (unfold io_thread in Ht; apply bind_Done_inv in Ht as (r & _ & [= _ <-]); done).
    destruct t; [|by injection H]. destruct (_ && _); [by injection H|]. apply c_bind_inv in H as (b & st2 & [= <- <-] & H).
    apply c_bind_inv in H as ([c p] & st2 & H2%lift_inv & H). apply c_bind_inv in H as ([] & st3 & H3 & H4%lift_inv).
    assert (E3 : table st3 = table st2) by (apply bind_Done_inv in H3 as (t & _ & [= <-]); done).
    assert (E2 : table st2 = table st1).
    { unfold table. simpl in H2. destruct (decide _).
      - simpl in H2. apply bind_Done_inv in H2 as ([[h5 n5] s5] & Ha%attach_pipe_table & H2). apply bind_Done_inv in H2 as (n6 & _ & [= _ _ _ _ <-]). done.
      - by injection H2 as _ _ _ _ <-. }
    pose proof (add_endpoint_table (protocol ++ [58; 47; 47] ++ address) (Some (c, p).1) (c, p).2 (st_world st3) (sb_sock (st_base st3))) as Hend.
    destruct (sb_add_endpoint _ _ _ _ _) as [n6 s6]. cbn [fst snd] in Hend. injection H4 as _ _ Hs. exists (Some c), p. unfold table in *. by rewrite <- Hs, Hend, E3, E2.
Qed.

Lemma term_child_pairs child n (s : ep X) : nt_pairs (sb_term_child child n s).1 = nt_pairs n ∧ ep_endpoints (sb_term_child child n s).2 = ep_endpoints s.
Proof. destruct child as [c|]; [|done]. simpl. by destruct (_ && _). Qed.

(** What becomes of entries that are terminated: their pipes are told, and so is every child that the socket owns, once. *)
Record entries_ended (l : list (option nat * option pref)) (n : net) (s : ep X) (n' : net) (s' : ep X) : Prop := {
  ee_pipes c p : (c, Some p) ∈ l → terminating n' p;
  ee_children : ∃ cs, nt_sent n' = nt_sent n ++ (NTerm <$> cs) ∧ NoDup cs
    ∧ (∀ c, c ∈ cs ↔ ep_terminating s = false ∧ c ∈ ep_owned s ∧ Some c ∈ l.*1)
    ∧ ep_owned s' = ep_owned s ∖ list_to_set cs ∧ ep_term_acks s' = ep_term_acks s + Z.of_nat (length cs);
}.

Lemma term_child_ended child (p : option pref) n (s : ep X) :
  let '(n', s') := sb_term_child child n s in
  ep_terminating s' = ep_terminating s ∧ ∃ cs, nt_sent n' = nt_sent n ++ (NTerm <$> cs) ∧ NoDup cs
    ∧ (∀ c, c ∈ cs ↔ ep_terminating s = false ∧ c ∈ ep_owned s ∧ Some c ∈ [(child, p)].*1)
    ∧ ep_owned s' = ep_owned s ∖ list_to_set cs ∧ ep_term_acks s' = ep_term_acks s + Z.of_nat (length cs).
Proof.
  clear have_ipc loads listen Hkeep. unfold sb_term_child. destruct child as [c|].
  - destruct (negb (ep_terminating s) && bool_decide (c ∈ ep_owned s)) eqn:E.
    + apply andb_true_iff in E as [E1%negb_true_iff E2%bool_decide_eq_true]. split; [done|]. exists [c]. simpl. split_and!; [done|apply NoDup_singleton| |set_solver|done].
      intros c'. rewrite !list_elem_of_singleton. split; [by intros ->|]. by intros (_ & _ & [= ->]).
    + split; [done|]. exists []. simpl. split_and!; [by rewrite app_nil_r|constructor| |set_solver|lia]. intros c'. split; [by intros ?%not_elem_of_nil|].
      intros (H1 & H2 & [= ->]%list_elem_of_singleton). rewrite H1, bool_decide_eq_true_2 in E by done. done.
  - split; [done|]. exists []. simpl. split_and!; [by rewrite app_nil_r|constructor| |set_solver|lia]. intros c'. split; [by intros ?%not_elem_of_nil|].
    by intros (_ & _ & ?%list_elem_of_singleton).
Qed.

Lemma term_entries_ok l n (s : ep X) :
  net_ok n → (∀ c p, (c, Some p) ∈ l → alive n p) →
  ∃ n' s', term_entries l n s = Done (n', s') ∧ net_ok n' ∧ ep_endpoints s' = ep_endpoints s ∧ entries_ended l n s n' s' ∧ (∀ q, terminating n q → terminating n' q).
Proof.
  clear have_ipc loads listen Hkeep. revert n s. induction l as [|[c p] l IH]; intros n s Hn Hl.
  { eexists _, _. split_and!; try done. split; [by intros ? ? ?%not_elem_of_nil|]. exists []. simpl. split_and!; [by rewrite app_nil_r|constructor| |set_solver|lia].
    intros c. split; [by intros ?%not_elem_of_nil|]. by intros (_ & _ & ?%not_elem_of_nil). }
  cbn [term_entries].
  assert (Hp : ∃ n1, match p with Some p => pp_terminate n p false | None => Done n end = Done n1 ∧ net_ok n1 ∧ (∀ q, alive n q → alive n1 q)
    ∧ nt_sent n1 = nt_sent n ∧ (∀ q, terminating n q → terminating n1 q) ∧ ∀ q, p = Some q → terminating n1 q).
  { destruct p as [p|]; [|by eexists]. destruct (terminate_ok n p false Hn) as (n1 & E & H1 & H2); [apply (Hl c); left|].
    destruct (terminate_terminating n p n1 E) as (H3 & H4 & H5). exists n1. split_and!; try done. by intros q [= <-]. }
  destruct Hp as (n1 & -> & Hn1 & Ha & Hse & Hte & Hpt). rewrite bind_Done. destruct (term_child_pairs c n1 s) as [E1 E2]. pose proof (term_child_ended c p n1 s) as Hch.
  destruct (sb_term_child c n1 s) as [n2 s2]. simpl in E1, E2. destruct Hch as (Ht2 & cs1 & S1 & N1 & C1 & O1 & A1).
  assert (Hte2 : ∀ q, terminating n1 q → terminating n2 q) by (intros q; unfold terminating; by rewrite E1).
  destruct (IH n2 s2) as (n3 & s3 & -> & Hn3 & E3 & [P3 (cs2 & S2 & N2 & C2 & O2 & A2)] & Hte3).
  - intros k x. rewrite E1. apply Hn1.
  - intros c' p' Hin. unfold alive. rewrite E1. apply Ha, (Hl c'). by right.
  - exists n3, s3. split; [done|]. split; [done|]. split; [congruence|]. split; [|auto]. split.
    + intros c' p' [[= <- <-]|Hin]%elem_of_cons; [by apply Hte3, Hte2, Hpt|by eapply P3].
    + rewrite Ht2, O1 in C2. exists (cs1 ++ cs2). split_and!.
      * by rewrite S2, S1, Hse, fmap_app, app_assoc.
      * apply NoDup_app. split; [done|]. split; [|done]. intros x Hx (_ & Hx2 & _)%C2. set_solver.
      * intros c'. rewrite elem_of_app, C1, C2. rewrite !fmap_cons, elem_of_cons. simpl. rewrite elem_of_cons, elem_of_nil.
        destruct (decide (c' ∈ cs1)) as [Hin|Hin].
        -- pose proof Hin as (H1 & H2 & H3)%C1. simpl in H3. rewrite elem_of_cons, elem_of_nil in H3. naive_solver.
        -- rewrite elem_of_difference, elem_of_list_to_set. naive_solver.
      * rewrite O2, O1, list_to_set_app_L. set_solver.
      * rewrite A2, A1, length_app. lia.
Qed.

Lemma term_entries_table l n (s : ep X) n' s' : term_entries l n s = Done (n', s') → ep_endpoints s' = ep_endpoints s.
Proof.
  revert n s. induction l as [|[c p] l IH]; intros n s; [by intros [= _ <-]|]. cbn [term_entries].
  intros (n1 & _ & Ht)%bind_Done_inv. destruct (term_child_pairs c n1 s) as [_ E2]. destruct (sb_term_child c n1 s) as [n2 s2].
  simpl in E2. apply IH in Ht. congruence.
Qed.

(** The pipes of the entries under a key *)
Definition key_pipes (key : list Z) (t : list (list Z * (option nat * option pref))) : list pref :=
  omap (λ x, x.2.2) (filter (λ x, x.1 = key) t).

Lemma key_pipes_in key (s : ep X) c p : (c, Some p) ∈ entries_of key s → p ∈ key_pipes key (ep_endpoints s).
Proof.
  unfold entries_of, key_pipes. intros ([k [c' p']] & [= <- <-] & Hin)%list_elem_of_fmap. apply list_elem_of_omap. by exists (k, (c, Some p)).
Qed.

Lemma entries_of_nil key (s : ep X) : entries_of key s = [] → key ∉ (ep_endpoints s).*1.
Proof.
  intros E ([k e] & -> & Hin)%list_elem_of_fmap. apply fmap_nil_inv in E. apply (filter_nil_not_elem_of _ _ (k, e)) in E; [|done]. done.
Qed.

(** A known endpoint is terminated, and with it every entry under its name. *)
Lemma term_known uri st st1 protocol address :
  sb_ctx_terminated (st_base st) = false → process_commands 0 false st = Done (Some (RcOk, st1)) →
  parse_uri uri = Some (protocol, address) → check_protocol have_ipc protocol = RcOk →
  uri ∈ (table st).*1 → net_ok (st_world st1) → Forall (alive (st_world st1)) (key_pipes uri (table st)) →
  ∃ st', sb_term_endpoint (Some uri) st = Done (Some (RcOk, st')) ∧ table st' = filter (λ x, x.1 ≠ uri) (table st)
    ∧ entries_ended (snd <$> filter (λ x, x.1 = uri) (table st)) (st_world st1) (sb_sock (st_base st1)) (st_world st') (sb_sock (st_base st')).
Proof.
  intros Ht Hp Hu Hc Hin Hn Hal. unfold sb_term_endpoint, c_bind at 1, c_base at 1. rewrite Ht. unfold c_bind at 1.
  rewrite (checked_endpoint_ok uri st st1 protocol address Ht Hp Hu Hc). unfold c_bind, c_base, lift.
  pose proof (process_commands_table _ _ _ _ _ Hp) as Htab. rewrite <- Htab in Hin, Hal |- *. clear Htab. unfold table in Hin, Hal |- *.
  set (s := sb_sock (st_base st1)) in *.
  assert (Hkey : (if decide (protocol = protocol_tcp) then resolve_tcp_addr uri address (o_ipv6 (sb_options (st_base st1))) s else Done uri) = Done uri).
  { destruct (decide _); [|done]. unfold resolve_tcp_addr, has_endpoint. by rewrite bool_decide_eq_true_2. }
  rewrite Hkey, bind_Done. destruct (entries_of uri s) as [|e l] eqn:El; [by apply entries_of_nil in El|]. rewrite <- El.
  destruct (term_entries_ok (entries_of uri s) (st_world st1) s Hn) as (n2 & s2 & -> & _ & E2 & He & _).
  { intros c p Hcp. rewrite Forall_forall in Hal. by eapply Hal, key_pipes_in. }
  rewrite !bind_Done. eexists. split; [done|]. simpl. rewrite <- E2. split; [by destruct (decide (Z.land _ _ ≠ 0))|].
  change (snd <$> filter (λ x, x.1 = uri) (ep_endpoints s2)) with (entries_of uri s2). assert (Hs2 : entries_of uri s2 = entries_of uri s) by (unfold entries_of; by rewrite E2).
  rewrite Hs2. destruct He as [Hep Hec]. split; [done|]. by destruct (decide (Z.land _ _ ≠ 0)).
Qed.

(** Whatever [term_endpoint] answers: on success one endpoint is gone from the table, otherwise nothing is. *)
Lemma term_endpoint_table uri st rc st' :
  sb_term_endpoint uri st = Done (Some (rc, st')) →
  match rc with
  | RcOk => ∃ key, key ∈ (table st).*1 ∧ table st' = filter (λ x, x.1 ≠ key) (table st)
  | RcErr _ => table st' = table st
  end.
Proof.
  unfold sb_term_endpoint. intros (b & st1 & [= <- <-] & Hr)%c_bind_inv. destruct (sb_ctx_terminated _); [by injection Hr as <- <-|].
  destruct uri as [uri|]; [|by injection Hr as <- <-]. apply c_bind_inv in Hr as (r & st1 & Hc & Hr). apply checked_endpoint_inv in Hc as (<- & _ & _).
  destruct r as [[protocol address]|e]; [|by injection Hr as <- <-]. apply c_bind_inv in Hr as (b & st2 & [= <- <-] & Hr).
  apply lift_inv in Hr. apply bind_Done_inv in Hr as (key & _ & Hr). unfold table. destruct (entries_of key _) as [|e l] eqn:El.
  - by injection Hr as <- _ _ <-.
  - rewrite <- El in Hr. apply bind_Done_inv in Hr as ([n2 s2] & Ht%term_entries_table & [= <- _ _ <-]). exists key. split.
    + destruct (decide (key ∈ (ep_endpoints (sb_sock (st_base st1))).*1)) as [|Hno]; [done|]. exfalso.
      assert (Hin : e ∈ entries_of key (sb_sock (st_base st1))) by (rewrite El; left). apply list_elem_of_fmap in Hin as ([k e'] & -> & [Hk Hin]%list_elem_of_filter).
      apply Hno, list_elem_of_fmap. exists (k, e'). by rewrite <- Hk.
    + rewrite <- Ht. by destruct (decide (Z.land _ _ ≠ 0)).
Qed.
End keeping.

End endpoints.

Section results.
Context {X C : Type} {AT : AttachType X} {ST : SocketType net (ep X) C} {NS : NameService}.

(** C32: connecting and disconnecting.  A connect that succeeds adds one entry to the table of endpoints, under the
    name the application gave, whatever the protocol; and [term_endpoint] with that name, as long as the context does not terminate, the table has not
    been changed since by other calls, the commands that it processes first succeed, and the pipes of the entries exist, finds them: it succeeds without failing an
    assertion; every pipe of an entry under the name has then been told to terminate (it waits for the acknowledgement of its peer, or has sent its
    own), every session of an entry that the socket owns has been sent one command to terminate, belongs to the socket no more and is waited for, and the table is as if
    the entries had never been added. Commands themselves do not change the table ([commands_keep_table]). *)
Theorem connect_disconnect have_ipc loads uri (st st1 : state net (ep X) C) :
  commands_keep_table → sb_connect have_ipc loads uri st = Done (Some (RcOk, st1)) →
  (∃ child p, table st1 = table st ++ [(uri, (child, p))])
  ∧ ∀ st2 st3, table st2 = table st1 → sb_ctx_terminated (st_base st2) = false →
      process_commands 0 false st2 = Done (Some (RcOk, st3)) →
      net_ok (st_world st3) → Forall (alive (st_world st3)) (key_pipes uri (table st1)) →
      ∃ st4, sb_term_endpoint have_ipc (Some uri) st2 = Done (Some (RcOk, st4))
        ∧ table st4 = filter (λ x, x.1 ≠ uri) (table st)
        ∧ entries_ended (snd <$> filter (λ x, x.1 = uri) (table st1)) (st_world st3) (sb_sock (st_base st3)) (st_world st4) (sb_sock (st_base st4)).
Proof.
  intros Hkeep Hc. destruct (connect_table have_ipc loads Hkeep uri st st1 Hc) as (child & p & Ht). split; [by exists child, p|].
  intros st2 st3 Ht2 Hterm Hp Hn Hal. unfold sb_connect in Hc. apply c_bind_inv in Hc as (r & st0 & Hc & Hr).
  apply (checked_endpoint_inv have_ipc Hkeep) in Hc as (_ & _ & Hr'). destruct r as [[protocol address]|e]; [|by injection Hr].
  destruct Hr' as (Hu & Hpr & _).
  destruct (term_known have_ipc Hkeep uri st2 st3 protocol address Hterm Hp Hu Hpr) as (st4 & E & E4 & He); [..|done|by rewrite Ht2|].
  - rewrite Ht2, Ht, fmap_app. set_solver.
  - exists st4. split; [done|]. split; [|by rewrite <- Ht2]. rewrite E4, Ht2, Ht, filter_app. rewrite filter_cons_False by (by intros []). by rewrite filter_nil, app_nil_r.
Qed.
End results.

(** ** The pipe between two inproc sockets *)

(** A routing id that fits into the message. *)
Definition id_msg (id : list Z) : msg_t :=
  Msg type_vsm msg_routing_id None 0 (GShort []) (BVsm (id ++ drop (length id) (replicate 33 0)) (Z.of_nat (length id))).

Lemma routing_id_msg_small h id : Z.of_nat (length id) ≤ max_vsm_size → routing_id_msg h id = Done (h, id_msg id).
Proof.
  intros Hl. assert (Hvs : max_vsm_size = 33) by done. unfold routing_id_msg, msg_init_buffer, msg_init_size. rewrite decide_True by done.
  rewrite u8_small by lia. unfold id_msg, msg_memcpy, overwrite. destruct (decide (Z.of_nat (length id) ≠ 0)) as [Hne|He].
  - rewrite decide_True by lia. rewrite Nat2Z.id, firstn_all. simpl. rewrite decide_True by (simpl; lia). done.
  - destruct id; [done|simpl in He; lia].
Qed.

Lemma id_msg_bytes h id : Z.of_nat (length id) ≤ max_vsm_size → msg_bytes h (id_msg id) = Done id.
Proof.
  intros Hl. assert (Hvs : max_vsm_size = 33) by done. unfold msg_bytes, id_msg, msg_size, msg_data. simpl.
  rewrite decide_True by (rewrite length_app, length_drop; simpl; lia). by rewrite Nat2Z.id, take_app_length.
Qed.

Lemma id_msg_close h id : msg_close h (id_msg id) = Done (RcOk, h, m_set_type 0 (id_msg id)).
Proof. done. Qed.

Lemma at_end_eq {R} n k (side : bool) s (f : penv → outcome (R * penv)) r s' :
  nt_pairs n !! k = Some s → (if side then at_left s f else '(r, s) ← at_left (swap_sys s) f; Done (r, swap_sys s)) = Done (r, s') →
  at_end n (k, side) f = Done (r, Net (nt_inproc n) (<[k := s']> (nt_pairs n)) (nt_next n) (nt_sinks n) (nt_sent n)).
Proof. intros Hs Hf. unfold at_end. simpl. by rewrite Hs, Hf. Qed.

(** The two ends with their watermarks and the queues to the left and to the right. *)
Definition joined (hwm0 hwm1 b0i b0o b1i b1o : Z) (ul ur : upipe) : psys :=
  PSys (Some (pipe_set_hwms_boost b0i b0o (pipe_new 0 1 hwm1 hwm0))) (Some (pipe_set_hwms_boost b1i b1o (pipe_new 1 0 hwm0 hwm1)))
    {[0%nat := ul; 1%nat := ur]} [] [] 2.

Section joining.
Context (hwm0 hwm1 b0i b0o b1i b1o : Z).
Local Abbreviation J := (joined hwm0 hwm1 b0i b0o b1i b1o).

Lemma fresh_hwm p : pi_msgs_written p = 0 → pi_peers_msgs_read p = 0 → pipe_check_hwm p = true.
Proof. intros Hw Hr. unfold pipe_check_hwm. rewrite Hw, Hr. change (u64 (0 - 0)) with 0. destruct (Z.ltb_spec 0 (pi_hwm p)); simpl; [|done]. destruct (Z.leb_spec (pi_hwm p) 0); [lia|done]. Qed.

Lemma write_left ul ur id : at_left (J ul ur) (pipe_write (id_msg id)) = Done (true, J ul (up_write ur (id_msg id) false)).
Proof. unfold at_left. cbn [sy_left joined]. unfold pipe_write, pipe_check_write. cbn -[pipe_check_hwm up_write id_msg compute_lwm]. rewrite fresh_hwm by done. reflexivity. Qed.

Lemma write_right ul ur id : at_left (swap_sys (J ul ur)) (pipe_write (id_msg id)) = Done (true, swap_sys (J (up_write ul (id_msg id) false) ur)).
Proof. unfold at_left. cbn [sy_left swap_sys sy_right joined]. unfold pipe_write, pipe_check_write. cbn -[pipe_check_hwm up_write id_msg compute_lwm]. rewrite fresh_hwm by done. reflexivity. Qed.

Lemma flush_left ul m : at_left (J ul (up_write up_new m false)) (λ e, e ← pipe_flush e; Done ((), e)) = Done ((), J ul (Spec [m] [] [] false)).
Proof. reflexivity. Qed.

Lemma flush_right ur m : at_left (swap_sys (J (up_write up_new m false) ur)) (λ e, e ← pipe_flush e; Done ((), e)) = Done ((), swap_sys (J (Spec [m] [] [] false) ur)).
Proof. reflexivity. Qed.

Lemma joined_inv ul ur :
  Forall no_delim (sp_all ul ++ sp_all ur) → sp_incomplete ul = [] → sp_incomplete ur = [] → sys_inv (J ul ur).
Proof.
  intros [Hl Hr]%Forall_app Hil Hir.
  assert (Hu : ∀ q u, sy_ups (J ul ur) !! q = Some u → Forall no_delim (sp_all u) ∧ sp_incomplete u = []).
  { intros q u. simpl. rewrite lookup_insert_Some, lookup_singleton_Some. naive_solver. }
  split.
  - left. constructor.
  - split; try done; simpl; [by split; [left|eexists]| |by intros p m [= <-]]. intros _ q u _ Hq. apply (Hu q u Hq).
  - split; try done; simpl; [by split; [left|eexists]| |by intros p m [= <-]]. intros _ q u _ Hq. apply (Hu q u Hq).
  - simpl. unfold chains, chain. simpl. repeat constructor; set_solver.
  - intros q. unfold chains, chain. simpl. rewrite !elem_of_cons, elem_of_nil. split.
    + intros [u Hq]. apply lookup_insert_Some in Hq as [[<- _]|[_ [<- _]%lookup_singleton_Some]]; auto.
    + intros [->|[->|[]]]; by eexists.
  - intros q. unfold chains, chain. simpl. rewrite !elem_of_cons, elem_of_nil. lia.
  - intros q u Hq. destruct (Hu q u Hq) as [_ ->]. constructor.
Qed.
End joining.

(** A queue with a routing id, if it is wanted. *)
Definition id_queue (wanted : bool) (id : list Z) : upipe := if wanted then Spec [id_msg id] [] [] false else up_new.

(** What the first read of an end gives: the routing id if the socket asked for it, nothing otherwise. *)
Definition first_read (h : heap) (n : net) (p : pref) (wanted : bool) (id : list Z) : Prop :=
  ∃ r n', pp_read n p = Done (r, n') ∧
    if wanted then ∃ m, r = Some m ∧ is_routing_id m = true ∧ msg_bytes h m = Done id else r = None.

Lemma read_first hwm0 hwm1 b0i b0o b1i b1o ul ur (side wanted : bool) id h n k :
  Z.of_nat (length id) ≤ max_vsm_size → nt_pairs n !! k = Some (joined hwm0 hwm1 b0i b0o b1i b1o ul ur) →
  (if side then ul else ur) = id_queue wanted id → first_read h n (k, side) wanted id.
Proof.
  intros Hl Hn Hq. set (s := joined _ _ _ _ _ _ _ _) in Hn.
  assert (E : ∃ r s', (if side then at_left s pipe_read else '(r, s) ← at_left (swap_sys s) pipe_read; Done (r, swap_sys s)) = Done (r, s')
    ∧ r = if wanted then Some (id_msg id) else None).
  { unfold s. destruct side; subst; destruct wanted; eexists _, _; (split; [reflexivity|done]). }
  destruct E as (r & s' & E & Hr). unfold first_read. cbn [pp_read net_pipes]. rewrite (at_end_eq n k side s pipe_read r s' Hn E).
  eexists _, _. split; [done|]. destruct wanted; [|done]. exists (id_msg id). split; [done|]. split; [done|]. by apply id_msg_bytes.
Qed.

Section inproc.
Context {X : Type}.

Lemma write_id_end h n k side s m s' id :
  Z.of_nat (length id) ≤ max_vsm_size → m = id_msg id → nt_pairs n !! k = Some s →
  (if side : bool then at_left s (pipe_write m) else '(r, s) ← at_left (swap_sys s) (pipe_write m); Done (r, swap_sys s)) = Done (true, s') →
  write_routing_id h n (k, side) id = Done (h, Net (nt_inproc n) (<[k := s']> (nt_pairs n)) (nt_next n) (nt_sinks n) (nt_sent n)).
Proof.
  intros Hl -> Hs Hw. unfold write_routing_id. rewrite routing_id_msg_small, bind_Done by done. cbn [pp_write net_pipes].
  rewrite (at_end_eq n k side s _ true s' Hs Hw), bind_Done. cbn [slk_assert]. rewrite bind_Done, id_msg_close, bind_Done. done.
Qed.

Lemma join_pipes_eq (peer : endpoint_t) o h n (s : ep X) :
  Z.of_nat (length (o_routing_id o)) ≤ max_vsm_size → Z.of_nat (length (o_routing_id (en_options peer))) ≤ max_vsm_size →
  let k := nt_next n in let po := en_options peer in
  join_pipes peer o h n s = Done ((k, true), (k, false), h,
    Net (nt_inproc n)
      (<[k := joined (o_int o sndhwm) (o_int po rcvhwm) (o_int po sndhwm) (o_int po rcvhwm) (o_int o sndhwm) (o_int o rcvhwm)
                (id_queue (ep_recv_routing_id s) (o_routing_id po)) (id_queue (en_recv_routing_id peer) (o_routing_id o))]> (nt_pairs n))
      (S k) (nt_sinks n) (nt_sent n)).
Proof.
  intros Hl0 Hl1 k po. unfold join_pipes. fold po in Hl1 |- *. unfold make_pipepair. cbn [object_of_parent fst snd]. rewrite !bind_Done. fold k.
  set (J := joined (o_int o sndhwm) (o_int po rcvhwm) (o_int po sndhwm) (o_int po rcvhwm) (o_int o sndhwm) (o_int o rcvhwm)).
  set (net_of := λ ps, Net (nt_inproc n) (<[k := ps]> (nt_pairs n)) (S k) (nt_sinks n) (nt_sent n)).
  assert (Hat : ∀ ps, nt_pairs (net_of ps) !! k = Some ps) by (intros; apply lookup_insert_eq).
  assert (Hset : ∀ ps ps', Net (nt_inproc (net_of ps)) (<[k := ps']> (nt_pairs (net_of ps))) (nt_next (net_of ps)) (nt_sinks (net_of ps)) (nt_sent (net_of ps)) = net_of ps').
  { intros. unfold net_of. simpl. by rewrite insert_insert_eq. }
  assert (Hb : ∀ ps ps' side i b, (if side : bool then at_left ps (λ e, Done ((), set_pipe (pipe_set_hwms_boost i b) e))
      else '(r, s) ← at_left (swap_sys ps) (λ e, Done ((), set_pipe (pipe_set_hwms_boost i b) e)); Done (r, swap_sys s)) = Done ((), ps') →
    set_hwms_boost (net_of ps) (k, side) i b = Done (net_of ps')).
  { intros ps ps' side i b E. unfold set_hwms_boost. rewrite (at_end_eq _ k side ps _ () ps' (Hat ps) E). exact (f_equal Done (Hset ps ps')). }
  assert (Hw : ∀ ps ps' side id, Z.of_nat (length id) ≤ max_vsm_size →
    (if side : bool then at_left ps (pipe_write (id_msg id)) else '(r, s) ← at_left (swap_sys ps) (pipe_write (id_msg id)); Done (r, swap_sys s)) = Done (true, ps') →
    write_routing_id h (net_of ps) (k, side) id = Done (h, net_of ps')).
  { intros ps ps' side id Hid E. by rewrite (write_id_end h (net_of ps) k side ps (id_msg id) ps' id Hid eq_refl (Hat ps) E), Hset. }
  assert (Hf : ∀ ps ps' side, (if side : bool then at_left ps (λ e, e ← pipe_flush e; Done ((), e))
      else '(r, s) ← at_left (swap_sys ps) (λ e, e ← pipe_flush e; Done ((), e)); Done (r, swap_sys s)) = Done ((), ps') →
    pp_flush (P:=pref) (net_of ps) (k, side) = Done (net_of ps')).
  { intros ps ps' side E. cbn [pp_flush net_pipes]. rewrite (at_end_eq _ k side ps _ () ps' (Hat ps) E). exact (f_equal Done (Hset ps ps')). }
  fold (net_of (pipepair (o_int o sndhwm) (o_int po rcvhwm))).
  set (j0 := joined (o_int o sndhwm) (o_int po rcvhwm) (o_int po sndhwm) (o_int po rcvhwm) (-1) (-1) up_new up_new).
  rewrite (Hb _ j0 true) by reflexivity. rewrite bind_Done. rewrite (Hb j0 (J up_new up_new) false) by reflexivity. rewrite bind_Done.
  fold (net_of (J (id_queue (ep_recv_routing_id s) (o_routing_id po)) (id_queue (en_recv_routing_id peer) (o_routing_id o)))).
  set (w0 := if en_recv_routing_id peer then up_write up_new (id_msg (o_routing_id o)) false else up_new).
  set (w1 := if ep_recv_routing_id s then up_write up_new (id_msg (o_routing_id po)) false else up_new).
  assert (E0 : (if en_recv_routing_id peer then write_routing_id h (net_of (J up_new up_new)) (k, true) (o_routing_id o) else Done (h, net_of (J up_new up_new)))
    = Done (h, net_of (J up_new w0))).
  { unfold w0. destruct (en_recv_routing_id peer); [|done]. by rewrite (Hw _ (J up_new (up_write up_new (id_msg (o_routing_id o)) false)) true) by (done || apply write_left). }
  rewrite E0, bind_Done.
  assert (E1 : (if ep_recv_routing_id s then write_routing_id h (net_of (J up_new w0)) (k, false) (o_routing_id po) else Done (h, net_of (J up_new w0)))
    = Done (h, net_of (J w1 w0))).
  { unfold w1. destruct (ep_recv_routing_id s); [|done]. rewrite (Hw _ (J (up_write up_new (id_msg (o_routing_id po)) false) w0) false); [done|done|].
    unfold J. by rewrite write_right. }
  rewrite E1, bind_Done.
  assert (E2 : (if en_recv_routing_id peer then pp_flush (P:=pref) (net_of (J w1 w0)) (k, true) else Done (net_of (J w1 w0)))
    = Done (net_of (J w1 (id_queue (en_recv_routing_id peer) (o_routing_id o))))).
  { unfold w0, id_queue. destruct (en_recv_routing_id peer); [|done]. apply Hf. apply flush_left. }
  cbv beta iota. rewrite E2, bind_Done.
  set (q0 := id_queue (en_recv_routing_id peer) (o_routing_id o)).
  assert (E3 : (if ep_recv_routing_id s then pp_flush (P:=pref) (net_of (J w1 q0)) (k, false) else Done (net_of (J w1 q0)))
    = Done (net_of (J (id_queue (ep_recv_routing_id s) (o_routing_id po)) q0))).
  { unfold w1, id_queue. destruct (ep_recv_routing_id s); [|done]. apply Hf. unfold J. by rewrite flush_right. }
  by rewrite E3, bind_Done.
Qed.

(** The pipe that an inproc connect makes.  For routing ids of at most 33 bytes the pipe is made without failing an
    assertion and without allocating: both ends live and are in order (so everything the theorems on pipes say holds of
    them), messages to the peer are limited by the sender's watermark, and the first thing each end reads is the routing
    id of the other socket exactly if its socket asks for routing ids. *)
Lemma inproc_join (peer : endpoint_t) o h n (s : ep X) :
  Z.of_nat (length (o_routing_id o)) ≤ max_vsm_size → Z.of_nat (length (o_routing_id (en_options peer))) ≤ max_vsm_size → net_ok n →
  ∃ p0 p1 n', join_pipes peer o h n s = Done (p0, p1, h, n') ∧ net_ok n' ∧ alive n' p0 ∧ alive n' p1
    ∧ first_read h n' p0 (ep_recv_routing_id s) (o_routing_id (en_options peer)) ∧ first_read h n' p1 (en_recv_routing_id peer) (o_routing_id o)
    ∧ ∀ q, q.1 ≠ p0.1 → alive n q → alive n' q.
Proof.
  intros Hl0 Hl1 Hn. rewrite (join_pipes_eq peer o h n s Hl0 Hl1). eexists _, _, _. split; [done|]. set (ps := joined _ _ _ _ _ _ _ _).
  assert (Hps : sys_inv ps).
  { apply joined_inv; unfold id_queue; destruct (ep_recv_routing_id s), (en_recv_routing_id peer); simpl; try done; by repeat constructor. }
  split_and!.
  - intros k s'. simpl. rewrite lookup_insert_Some. intros [[_ <-]|[_ Hk]]; [done|by eapply Hn].
  - eexists ps, _. simpl. by rewrite lookup_insert_eq.
  - eexists ps, _. simpl. by rewrite lookup_insert_eq.
  - eapply read_first; [done|simpl; by rewrite lookup_insert_eq|done].
  - eapply read_first; [done|simpl; by rewrite lookup_insert_eq|done].
  - intros q Hq (s' & x & Hs & Hx). exists s', x. simpl. by rewrite lookup_insert_ne by done.
Qed.
End inproc.

(** ** The syntax of TCP addresses *)

Lemma skip_chars_nil s : skip_chars s = [] ↔ Forall (λ c, tcp_char c = true) s.
Proof.
  induction s as [|c s IH]; simpl; [by split|]. rewrite Forall_cons. destruct (tcp_char c); [rewrite IH; tauto|]. split; [done|]. by intros [? _].
Qed.

Lemma strrchr_split c s i : strrchr c s = Some i → ∃ a b, s = a ++ c :: b ∧ length a = i ∧ c ∉ b.
Proof.
  revert i. induction s as [|x s IH]; intros i; [done|]. simpl. destruct (strrchr c s) as [j|] eqn:Hj.
  - intros [= <-]. destruct (IH j eq_refl) as (a & b & -> & <- & Hb). by exists (x :: a), b.
  - case_decide; [|done]. intros [= <-]. subst x. exists [], s. split; [done|]. split; [done|]. intros Hin.
    apply list_elem_of_split in Hin as (a & b & ->). clear IH. assert (Hs : strrchr c (a ++ c :: b) ≠ None); [|done].
    clear Hj. induction a as [|y a IH]; simpl; [destruct (strrchr c b); by rewrite ?decide_True|]. by destruct (strrchr c (a ++ c :: b)).
Qed.

(** A host that starts with a letter, a digit or a bracket, a colon, and a port that starts with a digit; only letters,
    digits and the characters . - : % [ ] *)
Lemma tcp_syntax_spec address :
  tcp_syntax address = true ↔
  ∃ c host d port, address = c :: host ++ 58 :: d :: port ∧ (is_alnum c = true ∨ c = 91) ∧ is_digit d = true ∧ 58 ∉ port
    ∧ Forall (λ c, tcp_char c = true) (host ++ d :: port).
Proof.
  unfold tcp_syntax. split.
  - destruct address as [|c s]; [done|]. destruct (is_alnum c || bool_decide (c = 91)) eqn:Hc; [|done].
    destruct (skip_chars s) as [|? ?] eqn:Hs; [|done]. apply skip_chars_nil in Hs. cbn [strrchr].
    destruct (strrchr 58 s) as [i|] eqn:Hi.
    + cbn [drop]. destruct (drop (S i) s) as [|d port] eqn:Hd; [done|]. intros Hdig. apply strrchr_split in Hi as (h1 & h2 & -> & <- & Hno).
      rewrite drop_app_ge in Hd by lia. replace (S (length h1) - length h1)%nat with 1%nat in Hd by lia. simpl in Hd. rewrite drop_0 in Hd. subst h2.
      exists c, h1, d, port. split; [done|]. split.
      * apply orb_true_iff in Hc as [Hc|Hc%bool_decide_eq_true]; auto.
      * split; [done|]. split; [set_solver|]. apply Forall_app in Hs as [Hs1 Hs2]. apply Forall_cons in Hs2 as [_ Hs2]. by apply Forall_app.
    + destruct (decide (c = 58)) as [->|_]; [|by intros [=]]. by vm_compute in Hc.
  - intros (c & host & d & port & -> & Hc & Hd & Hno & Hall).
    assert (Hc' : is_alnum c || bool_decide (c = 91) = true) by (destruct Hc as [->| ->]; [done|by rewrite orb_true_r]). rewrite Hc'.
    apply Forall_app in Hall as [Hh Hp]. assert (E : skip_chars (host ++ 58 :: d :: port) = []).
    { apply skip_chars_nil, Forall_app. split; [done|]. by constructor. }
    rewrite E. change (c :: host ++ 58 :: d :: port) with ((c :: host) ++ 58 :: d :: port).
    rewrite strrchr_app; [|rewrite not_elem_of_cons; split; [intros <-; done|done]].
    rewrite drop_app_ge by lia. replace (S (length (c :: host)) - length (c :: host))%nat with 1%nat by lia. done.
Qed.

(** ** PAIR sockets with endpoints *)

Module PairEndpoints.

Abbreviation psock := (ep (pair_t pref)).

#[export] Instance pair_attach : AttachType (pair_t pref) := {|
  x_attach h n x p _ _ := '(n, x) ← pair_xattach_pipe n x p; Done (h, n, x);
  x_pipe_terminated h n x p := Done (h, n, pair_xpipe_terminated x p);
|}.

(** A command for the socket, or for one of its pipes. *)
Inductive pair_cmd := PBind (p : pref) | PPipe (p : pref).

(** A pipe takes its next command; whether it is gone. *)
Definition pipe_command (n : net) (p : pref) : outcome (bool * net) :=
  match nt_pairs n !! p.1 with
  | None => Undef
  | Some s =>
      r ← Pipe.sys_step s p.2 UProcess;
      match r with
      | None => Done (false, n)
      | Some s' =>
          let gone := match (if p.2 then sy_left s' else sy_right s') with None => true | Some _ => false end in
          Done (gone, Net (nt_inproc n) (<[p.1 := s']> (nt_pairs n)) (nt_next n) (nt_sinks n) (nt_sent n))
      end
  end.

Definition pair_command (h : heap) (n : net) (s : psock) (c : pair_cmd) : outcome (heap * net * psock) :=
  match c with
  | PBind p => sb_process_bind h n s p
  | PPipe p => '(gone, n) ← pipe_command n p; if gone : bool then sb_pipe_terminated h n s p else Done (h, n, s)
  end.

#[export] Instance pair_type : SocketType net psock pair_cmd := {|
  x_send h n s m := '(n, m, rc) ← pair_xsend n (ep_x s) m; Done (h, n, s, m, rc);
  x_recv h n s m := '(h, n, m, rc) ← pair_xrecv h n (ep_x s) m; Done (h, n, s, m, rc);
  x_has_in h n s := '(b, n) ← pair_xhas_in n (ep_x s); Done (h, n, s, b);
  x_has_out h n s := '(b, n) ← pair_xhas_out n (ep_x s); Done (h, n, s, b);
  x_setsockopt := default_xsetsockopt;
  x_getsockopt := default_xgetsockopt;
  x_command := pair_command;
  x_set_hwms n s i o := foldl (λ n p, match at_end n p (λ e, Done ((), set_pipe (pipe_set_hwms i o) e)) with Done (_, n) => n | _ => n end) n (ep_pipes s);
|}.

Lemma check_term_acks_table {X} (s : ep X) : ep_endpoints (sb_check_term_acks s) = ep_endpoints s.
Proof. unfold sb_check_term_acks. by destruct (_ && _). Qed.

Lemma pair_keeps_table : commands_keep_table (X:=pair_t pref) (C:=pair_cmd).
Proof.
  intros h n s [p|p] h' n' s'; simpl.
  - intros ([[h1 n1] s1] & Ha%attach_pipe_table & [= <- <- <-])%bind_Done_inv. unfold sb_process_seqnum. by rewrite check_term_acks_table.
  - intros ([gone n1] & _ & Hr)%bind_Done_inv. destruct gone; [|by injection Hr as <- <- <-]. unfold sb_pipe_terminated in Hr. simpl in Hr.
    destruct (ep_terminating s); [|by injection Hr as <- <- <-]. apply bind_Done_inv in Hr as ([] & _ & [= <- <- <-]). by rewrite check_term_acks_table.
Qed.

(** Socket 1 is bound to the name x; socket 2 is new. *)
Definition name_x : list Z := [120].
Definition uri_x : list Z := protocol_inproc ++ [58; 47; 47] ++ name_x.
Definition bound_net : net := Net (Inproc {[name_x := Endpoint 1 options_new false]} []) ∅ 0 ∅ [].
Definition new_sock (id : nat) : psock := Ep id pair_new [] [] ∅ false 0 0 0 false false false false.
Definition sock_state (n : net) (s : psock) (mail : list (mail_answer pair_cmd)) : state net psock pair_cmd :=
  State (empty_heap (λ _, true)) n (SocketBase s false 0 0 false options_new [] 7) (Env [1; 2; 3; 4] mail []).

Definition connected : outcome (option (rc_t * state net psock pair_cmd)) :=
  sb_connect (NS:=Names.toy_names) false [0] uri_x (sock_state bound_net (new_sock 2) [MNone]).

(** The same socket with other answers of the mailbox. *)
Definition with_mail (mail : list (mail_answer pair_cmd)) (st : state net psock pair_cmd) : state net psock pair_cmd :=
  State (st_heap st) (st_world st) (st_base st) (Env [1; 2; 3; 4] mail []).

End PairEndpoints.

Import PairEndpoints Names.

Lemma connect_disconnect_witness :
  ∃ st1 st4, connected = Done (Some (RcOk, st1)) ∧ table st1 = [(uri_x, (None, Some (0%nat, true)))]
    ∧ sb_term_endpoint false (Some uri_x) (with_mail [MNone] st1) = Done (Some (RcOk, st4)) ∧ table st4 = []
    ∧ terminating (st_world st4) (0%nat, true).
Proof.
  destruct connected as [[[[|e] st1]|]| |] eqn:E; [|by vm_compute in E..].
  destruct (connect_disconnect false [0] uri_x (sock_state bound_net (new_sock 2) [MNone]) st1 pair_keeps_table E) as [_ Hd].
  destruct (process_commands 0 false (with_mail [MNone] st1)) as [[[[|e] st3]|]| |] eqn:E3;
    [|vm_compute in E; injection E as <-; by vm_compute in E3..].
  destruct (Hd (with_mail [MNone] st1) st3 eq_refl) as (st4 & H4 & T4 & N4); [..|exact E3| | |].
  - vm_compute in E. by injection E as <-.
  - intros k s Hk. assert (Hj : k = 0%nat ∧ s = joined 1000 1000 1000 1000 1000 1000 up_new up_new).
    { vm_compute in E. injection E as <-. vm_compute in E3. injection E3 as <-. simpl in Hk.
      apply elem_of_map_to_list in Hk. vm_compute in Hk. apply elem_of_cons in Hk as [Hk|Hk]; [|by apply not_elem_of_nil in Hk]. injection Hk as -> ->. done. }
    destruct Hj as [_ ->]. by apply joined_inv.
  - vm_compute in E. injection E as <-. vm_compute in E3. injection E3 as <-. constructor; [|constructor]. eexists _, _. split; reflexivity.
  - exists st1, st4. split; [done|]. split; [vm_compute in E; by injection E as <-|]. split; [done|]. split; [by rewrite T4|].
    destruct N4 as [N4 _]. apply (N4 None). vm_compute in E. injection E as <-. apply (bool_decide_unpack _). vm_compute. exact I.
Defined.

Lemma inproc_join_witness :
  ∃ p0 p1 n', join_pipes (Endpoint 1 options_new true) options_new (empty_heap (λ _, true)) bound_net (new_sock 2) = Done (p0, p1, empty_heap (λ _, true), n')
    ∧ first_read (empty_heap (λ _, true)) n' p1 true [].
Proof.
  destruct (inproc_join (Endpoint 1 options_new true) options_new (empty_heap (λ _, true)) bound_net (new_sock 2)) as (p0 & p1 & n' & E & _ & _ & _ & _ & H & _);
    [vm_compute; discriminate|vm_compute; discriminate|intros k s; vm_compute; discriminate|]. by exists p0, p1, n'.
Defined.

(** ** What the code does against its intention *)

(** A connection to an inproc name that is not bound yet reads a null pointer; so nothing is ever pending. *)
Lemma connect_before_bind {X} uri address o h n (s : ep X) : connect_unbound uri address o h n s = Undef.
Proof. done. Qed.

(** The second socket that is bound to a name takes it over. *)
Lemma bind_twice addr e1 e2 i : find_endpoint addr (register_endpoint addr e2 (register_endpoint addr e1 i).2).2 = Some e2.
Proof. apply lookup_insert_eq. Qed.

(** The peer closes its socket, and its pipe to the connected socket is taken down. *)
Definition peer_closes (n : net) : outcome net :=
  n ← pp_terminate n (0%nat, false) false;
  '(_, n) ← pipe_command n (0%nat, true);
  '(_, n) ← pp_read n (0%nat, true);
  '(_, n) ← pipe_command n (0%nat, false);
  Done n.

(** The socket with the last command of the pipe to come. *)
Definition peer_closed (st : state net psock pair_cmd) (n : net) : state net psock pair_cmd :=
  with_mail [MCommand (COther (PPipe (0%nat, true))); MNone] (State (st_heap st) n (st_base st) (st_env st)).

(** The table of endpoints keeps the pipe after the peer has closed and the pipe was deleted: disconnecting uses it. *)
Lemma disconnect_after_peer_closed :
  ∃ st n st3, connected = Done (Some (RcOk, st)) ∧ peer_closes (st_world st) = Done n
    ∧ process_commands 0 false (peer_closed st n) = Done (Some (RcOk, st3))
    ∧ pr_pipe (ep_x (sb_sock (st_base st3))) = None ∧ table st3 = [(uri_x, (None, Some (0%nat, true)))]
    ∧ sb_term_endpoint false (Some uri_x) (peer_closed st n) = Undef.
Proof.
  eexists _, _, _. split; [by vm_compute|]. split; [by vm_compute|]. split; [by vm_compute|]. split; [by vm_compute|]. split; by vm_compute.
Qed.

(** A routing id of 34 bytes *)
Definition long_id : options_t := match options_setsockopt options_new SL_ROUTING_ID (Some (replicate 34 65)) with (o, _) => o end.

(** The content of a long routing id is released while the message is in the pipe. *)
Lemma long_routing_id_released :
  ∃ p0 p1 h n m n', join_pipes (Endpoint 1 options_new true) long_id (empty_heap (λ _, true)) bound_net (new_sock 2) = Done (p0, p1, h, n)
    ∧ pp_read n p1 = Done (Some m, n') ∧ msg_bytes h m = Undef ∧ msg_close h m = Undef.
Proof. eexists _, _, _, _, _, _. split; [by vm_compute|]. split; [by vm_compute|]. split; by vm_compute. Qed.

(** Connecting sends the command bind without counting it, and the bound socket counts it as processed: it never has as
    many commands to process as it has processed, and is never destroyed. *)
Lemma inproc_bind_unbalanced {X} {AT : AttachType X} h n (s : ep X) p h' n' s' :
  ep_terminating s = false → ep_processed_seqnum s = ep_sent_seqnum s → sb_process_bind h n s p = Done (h', n', s') →
  ep_processed_seqnum s' = ep_sent_seqnum s' + 1.
Proof.
  intros Ht Hq. unfold sb_process_bind. intros ([[h1 n1] s1] & Ha & [= <- <- <-])%bind_Done_inv.
  unfold sb_attach_pipe in Ha. apply bind_Done_inv in Ha as (n2 & _ & Ha). apply bind_Done_inv in Ha as ([[h3 n3] x] & _ & Ha).
  simpl in Ha. rewrite Ht in Ha. injection Ha as <- <- <-. unfold sb_process_seqnum, sb_check_term_acks. simpl. rewrite Ht. simpl. lia.
Qed.

Lemma unbalanced_never_destroyed {X} (s : ep X) : ep_sent_seqnum s < ep_processed_seqnum s → sb_check_term_acks s = s.
Proof. intros Hlt. unfold sb_check_term_acks. rewrite (bool_decide_eq_false_2 (_ = ep_sent_seqnum s)) by lia. by rewrite andb_false_r. Qed.

(** Messages from the bound socket are limited by its receive watermark: neither its own send watermark nor the receive
    watermark of the connecting socket counts. *)
Lemma inproc_watermarks {X} peer o h n (s : ep X) :
  Z.of_nat (length (o_routing_id o)) ≤ max_vsm_size → Z.of_nat (length (o_routing_id (en_options peer))) ≤ max_vsm_size →
  ∃ n' ps x y, join_pipes peer o h n s = Done ((nt_next n, true), (nt_next n, false), h, n') ∧ nt_pairs n' !! nt_next n = Some ps
    ∧ sy_left ps = Some x ∧ sy_right ps = Some y ∧ pi_hwm x = o_int o sndhwm ∧ pi_hwm y = o_int (en_options peer) rcvhwm.
Proof.
  intros Hl0 Hl1. rewrite (join_pipes_eq peer o h n s Hl0 Hl1). eexists _, _, _, _. split; [done|]. simpl. rewrite lookup_insert_eq. done.
Qed.

(** A TCP address with a source address, which [tcp_address_t::resolve] reads, and a name with an underscore are refused. *)
Lemma source_address_refused : tcp_syntax [49; 48; 46; 48; 46; 48; 46; 49; 59; 104; 58; 53] = false ∧ tcp_syntax [97; 95; 98; 58; 53] = false.
Proof. done. Qed.

(** Unbinding an inproc endpoint leaves the name registered. *)
Lemma unbound_name_stays :
  match sb_bind false [0] (λ _ a _, inl a) uri_x (sock_state (Net (Inproc ∅ []) ∅ 0 ∅ []) (new_sock 1) [MNone]) with
  | Done (Some (RcOk, st)) =>
      match sb_term_endpoint false (Some uri_x) (with_mail [MNone] st) with
      | Done (Some (RcOk, st')) => table st' = [] ∧ find_endpoint name_x (nt_inproc (st_world st')) ≠ None
      | _ => False
      end
  | _ => False
  end.
Proof. vm_compute. split; [done|discriminate]. Qed.
