(* ===== verification/Api.v ===== *)
(** The C interface (src/serverlink.cpp): sending, receiving and polling with the error codes of the interface.

    Sending and receiving are calls of SocketBase.  [slk_poll] is over an interface of its sockets and of
    [poll], as the poller of Poller; the clock is a parameter.  C++ exceptions (the catch blocks) do not occur in
    the model. *)
From S2P Require Import Prelude Msg PipeArray Dist Fq Sockets Options SocketBase Poller.

Local Open Scope sl_scope.

(** ** Error codes *)

Definition SLK_EINVAL : Z := 1.
Definition SLK_ENOMEM : Z := 2.
Definition SLK_EAGAIN : Z := 3.
Definition SLK_ENOTSOCK : Z := 4.
Definition SLK_EPROTO : Z := 5.
Definition SLK_ETERM : Z := 6.
Definition SLK_EMTHREAD : Z := 7.
Definition SLK_EHOSTUNREACH : Z := 10.

(** errno on Linux; EFSM, ETERM and EMTHREAD are those of err.hpp. *)
Definition errno_code (e : errno_t) : Z :=
  match e with
  | EAGAIN => 11 | EFAULT => 14 | EINVAL => 22 | ENOMEM => 12 | EMSGSIZE => 90 | EPROTO => 71 | EHOSTUNREACH => 113
  | EFSM => 156 | ENOTSUP => 95 | EADDRINUSE => 98 | ENOENT => 2 | ECONNREFUSED => 111 | ENOTCONN => 107 | EINTR => 4
  | ETERM => 158 | EPROTONOSUPPORT => 93 | EEXIST => 17 | ENODEV => 19 | EMFILE => 24 | ENOTSOCK => 88 | EMTHREAD => 159
  | ENAMETOOLONG => 36
  end.

(** [map_errno]: errors without a code of the interface keep their number. *)
Definition map_errno (e : errno_t) : Z :=
  match e with
  | EINVAL => SLK_EINVAL
  | ENOMEM => SLK_ENOMEM
  | EAGAIN => SLK_EAGAIN
  | ENOTSOCK => SLK_ENOTSOCK
  | EPROTO => SLK_EPROTO
  | ETERM => SLK_ETERM
  | EMTHREAD => SLK_EMTHREAD
  | EHOSTUNREACH => SLK_EHOSTUNREACH
  | e => errno_code e
  end.

(** What a function of the interface returns: a value, or -1.  [code] is what [set_errno] makes of [slk_errno ()];
    [None]: it keeps the value that it had. *)
Inductive api_result := ApiRet (n : Z) | ApiErr (code : option Z).

Definition api_error (code : Z) : api_result := ApiErr (Some code).
Definition api_rc (rc : rc_t) : api_result := match rc with RcOk => ApiRet 0 | RcErr e => api_error (map_errno e) end.

(** ** Messages *)

(** [slk_msg_get], [slk_msg_set]: property 0 is the flag more, [len] the size at [value]. *)
Definition slk_msg_get (m : msg_t) (property len : Z) : api_result * option Z :=
  if decide (property = 0) then
    if decide (len < 4) then (api_error SLK_EINVAL, None) else (ApiRet 0, Some (if has_flag m msg_more then 1 else 0))
  else (api_error SLK_EINVAL, None).

Definition slk_msg_set (m : msg_t) (property value len : Z) : api_result * msg_t :=
  if decide (property = 0) then
    if decide (len < 4) then (api_error SLK_EINVAL, m)
    else (ApiRet 0, if decide (value ≠ 0) then set_flags msg_more m else reset_flags msg_more m)
  else (api_error SLK_EINVAL, m).

Definition slk_msg_get_routing_id (m : msg_t) (size : Z) : api_result * option Z :=
  if decide (size < 4) then (api_error SLK_EINVAL, None) else (ApiRet 0, Some (m_routing_id m)).

Definition slk_msg_set_routing_id (m : msg_t) (id size : Z) : api_result * msg_t :=
  if decide (size ≠ 4) then (api_error SLK_EINVAL, m)
  else match msg_set_routing_id m id with (RcOk, m) => (ApiRet 0, m) | (RcErr _, m) => (api_error SLK_EPROTO, m) end.

(** [slk_msg_init_data] and the message of [slk_msg_new_data]; [data] is NULL where it is [None]. *)
Definition slk_msg_init_data (h : heap) (data : option (list Z)) (size : Z) : outcome (api_result * heap * option msg_t) :=
  if decide (0 < size ∧ data = None) then Done (api_error SLK_EINVAL, h, None)
  else
    '(rc, h, m) ← msg_init_buffer h data size;
    match rc with RcOk => Done (ApiRet 0, h, Some m) | RcErr _ => Done (api_error SLK_ENOMEM, h, None) end.

Definition slk_msg_close (h : heap) (m : msg_t) : outcome (api_result * heap * msg_t) :=
  '(rc, h, m) ← msg_close h m;
  Done (match rc with RcOk => ApiRet 0 | RcErr _ => api_error SLK_EPROTO end, h, m).

Definition slk_msg_copy (h : heap) (dest src : msg_t) : outcome (api_result * heap * msg_t * msg_t) :=
  '(rc, h, d, s) ← msg_copy h dest src;
  Done (match rc with RcOk => ApiRet 0 | RcErr _ => api_error SLK_EPROTO end, h, d, s).

Definition slk_msg_move (h : heap) (dest src : msg_t) : outcome (api_result * heap * msg_t * msg_t) :=
  '(rc, h, d, s) ← msg_move h dest src;
  Done (match rc with RcOk => ApiRet 0 | RcErr _ => api_error SLK_EPROTO end, h, d, s).

(** ** Sockets *)

Section sockets.
Context {W S C : Type} {ST : SocketType W S C}.

Notation call := (@SocketBase.call W S C).
Notation "'call!' x <- m ';;' k" := (c_bind m (λ x, k)) (at level 100, x binder, m at level 50, k at level 200, right associativity).

Definition on_heap {A} (f : heap → outcome (A * heap)) : call A := λ st,
  '(a, h) ← f (st_heap st);
  Done (Some (a, State h (st_world st) (st_base st) (st_env st))).

Definition init_buffer (data : option (list Z)) (size : Z) : call (rc_t * msg_t) :=
  on_heap (λ h, '(rc, h, m) ← msg_init_buffer h data size; Done ((rc, m), h)).

(** [msg.close ()], whose result is not looked at *)
Definition close_message (m : msg_t) : call () := on_heap (λ h, '(_, h, _) ← msg_close h m; Done ((), h)).

Definition slk_send (data : option (list Z)) (len flags : Z) : call api_result :=
  if decide (0 < len ∧ data = None) then c_ret (api_error SLK_EINVAL)
  else
    call! '(rc, m) <- init_buffer data len;;
    match rc with
    | RcErr _ => c_ret (api_error SLK_ENOMEM)
    | RcOk =>
        call! '(m, rc) <- send m flags;;
        call! _ <- close_message m;;
        c_ret (match rc with RcOk => ApiRet (s32 len) | RcErr e => api_error (map_errno e) end)
    end.

(** The bytes of the message that go to the buffer, and the whole size *)
Definition copy_out (m : msg_t) (len : Z) : call (list Z * Z) := λ st,
  size ← msg_size (st_heap st) m;
  let n := Z.min size len in
  bytes ← (if decide (0 < n) then
             d ← msg_data (st_heap st) m;
             if decide (n ≤ Z.of_nat (length d)) then Done (take (Z.to_nat n) d) else Undef
           else Done []);
  Done (Some ((bytes, size), st)).

(** The result, and the bytes written to the buffer, of which there are [len]; [None] is NULL. *)
Definition slk_recv (buf : option ()) (len flags : Z) : call (api_result * list Z) :=
  if decide (0 < len ∧ buf = None) then c_ret (api_error SLK_EINVAL, [])
  else
    call! '(m, rc) <- recv msg_init flags;;
    match rc with
    | RcErr e => (call! _ <- close_message m;; c_ret (api_error (map_errno e), []))
    | RcOk =>
        call! '(bytes, size) <- copy_out m len;;
        call! _ <- close_message m;;
        c_ret (ApiRet (s32 size), bytes)
    end.

Definition slk_msg_send (m : msg_t) (flags : Z) : call (api_result * msg_t) :=
  call! '(m, rc) <- send m flags;; c_ret (api_rc rc, m).
Definition slk_msg_recv (m : msg_t) (flags : Z) : call (api_result * msg_t) :=
  call! '(m, rc) <- recv m flags;; c_ret (api_rc rc, m).

(** [SLK_SNDMORE] for the routing id, the flags of the caller for the data *)
Definition slk_send_to (id : list Z) (id_len : Z) (data : list Z) (data_len flags : Z) : call api_result :=
  call! '(rc, m) <- init_buffer (Some id) id_len;;
  match rc with
  | RcErr _ => c_ret (api_error SLK_ENOMEM)
  | RcOk =>
      call! '(m, rc) <- send m SL_SNDMORE;;
      call! _ <- close_message m;;
      match rc with
      | RcErr e => c_ret (api_error (map_errno e))
      | RcOk =>
          call! '(rc, m) <- init_buffer (Some data) data_len;;
          match rc with
          | RcErr _ => c_ret (api_error SLK_ENOMEM)
          | RcOk =>
              call! '(m, rc) <- send m flags;;
              call! _ <- close_message m;;
              c_ret (match rc with RcOk => ApiRet (s32 data_len) | RcErr e => api_error (map_errno e) end)
          end
      end
  end.

Definition slk_setsockopt (opt : Z) (val : option (list Z)) : call api_result :=
  match val with None => c_ret (api_error SLK_EINVAL) | Some _ => (call! rc <- setsockopt opt val;; c_ret (api_rc rc)) end.

End sockets.

(** ** slk_poll *)

Definition POLLERR : Z := 8.
Definition POLLHUP : Z := 16.
Definition POLLNVAL : Z := 32.

Record pollitem := PollItem { it_socket : option nat; it_fd : Z; it_events : Z }.

(** What sockets and [poll] answer.  [aw_fd] is the option SL_FD, [None] when it fails. *)
Class ApiWorld (W : Type) := {
  aw_commands : nat → W → rc_t * W;
  aw_has_in : nat → W → bool * W;
  aw_has_out : nat → W → bool * W;
  aw_fd : nat → W → option Z;
  aw_poll : list pollfd → Z → W → poll_answer * W;
}.

Section poll.
Context {W : Type} {AW : ApiWorld W}.

(** Commands first; the first error ends the call. *)
Fixpoint first_commands (items : list pollitem) (w : W) : rc_t * W :=
  match items with
  | [] => (RcOk, w)
  | it :: items =>
      match it_socket it with
      | None => first_commands items w
      | Some s => match aw_commands s w with (RcOk, w) => first_commands items w | (RcErr e, w) => (RcErr e, w) end
      end
  end.

(** The events of a socket and how many they are. *)
Definition socket_events (s : nat) (events : Z) (w : W) : Z * Z * W :=
  let '(i, w) := if has events SL_POLLIN then aw_has_in s w else (false, w) in
  let '(o, w) := if has events SL_POLLOUT then aw_has_out s w else (false, w) in
  (Z.lor (flag i SL_POLLIN) (flag o SL_POLLOUT), flag i 1 + flag o 1, w).

(** The events of a file descriptor. *)
Definition fd_events (events revents : Z) : Z :=
  Z.lor (Z.lor (flag (has revents POLLIN && has events SL_POLLIN) SL_POLLIN) (flag (has revents POLLOUT && has events SL_POLLOUT) SL_POLLOUT))
    (flag (has revents (Z.lor POLLERR (Z.lor POLLHUP POLLNVAL))) SL_POLLERR).

(** The first check: [revents] of file descriptors is 0. *)
Fixpoint check_sockets (items : list pollitem) (w : W) : list Z * Z * W :=
  match items with
  | [] => ([], 0, w)
  | it :: items =>
      let '(r, k, w) := match it_socket it with Some s => socket_events s (it_events it) w | None => (0, 0, w) end in
      let '(rs, n, w) := check_sockets items w in
      (r :: rs, k + n, w)
  end.

(** The array for [poll], with an entry for every item, and the number of entries that are in use. *)
Fixpoint make_pollfds (items : list pollitem) (w : W) : list pollfd * Z :=
  match items with
  | [] => ([], 0)
  | it :: items =>
      let '(fds, n) := make_pollfds items w in
      match it_socket it with
      | Some s => match aw_fd s w with Some fd => (Pollfd fd POLLIN :: fds, n + 1) | None => (Pollfd (-1) 0 :: fds, n) end
      | None =>
          if decide (0 ≤ it_fd it) then
            (Pollfd (it_fd it) (Z.lor (flag (has (it_events it) SL_POLLIN) POLLIN) (flag (has (it_events it) SL_POLLOUT) POLLOUT)) :: fds, n + 1)
          else (Pollfd (-1) 0 :: fds, n)
      end
  end.

(** Commands of the sockets whose entry is in use; errors are not looked at. *)
Fixpoint poll_commands (items : list pollitem) (fds : list pollfd) (w : W) : W :=
  match items, fds with
  | it :: items, f :: fds =>
      match it_socket it with
      | Some s => poll_commands items fds (if decide (pf_fd f ≠ -1) then (aw_commands s w).2 else w)
      | None => poll_commands items fds w
      end
  | _, _ => w
  end.

(** The check after [poll], with the [revents] of the array. *)
Fixpoint check_items (items : list pollitem) (fds : list pollfd) (revents : list Z) (w : W) : list Z * Z * W :=
  match items, fds, revents with
  | it :: items, f :: fds, rev :: revents =>
      let '(r, k, w) :=
        match it_socket it with
        | Some s => socket_events s (it_events it) w
        | None =>
            if decide (0 ≤ it_fd it ∧ 0 ≤ pf_fd f) then
              let r := fd_events (it_events it) rev in (r, if decide (r ≠ 0) then 1 else 0, w)
            else (0, 0, w)
        end in
      let '(rs, n, w) := check_items items fds revents w in
      (r :: rs, k + n, w)
  | _, _, _ => ([], 0, w)
  end.

(** The readings of the clock, in order *)
Context (clock : nat → Z).

(** The result with the [revents] of the items; [None] while it waits, after [fuel] calls of [poll]. *)
Fixpoint poll_loop (fuel i : nat) (items : list pollitem) (fds : list pollfd) (count timeout end_ poll_timeout : Z) (rs : list Z) (w : W)
    : option (api_result * list Z * W) :=
  match fuel with
  | O => None
  | S fuel =>
      let again (rs : list Z) (w : W) :=
        if decide (0 < timeout) then
          let now := clock i in
          if decide (end_ ≤ now) then Some (ApiRet 0, rs, w)
          else poll_loop fuel (S i) items fds count timeout end_ (s32 (u64 (end_ - now))) rs w
        else poll_loop fuel i items fds count timeout end_ poll_timeout rs w in
      match aw_poll (take (Z.to_nat count) fds) poll_timeout w with
      | (PollInterrupted, w) => again rs w
      | (PollFailed, w) => Some (api_error SLK_EPROTO, rs, w)
      | (PollOk revents, w) =>
          if decide (Forall (λ r, r = 0) revents) then Some (ApiRet 0, rs, w)
          else
            let w := poll_commands items fds w in
            let '(rs, n, w) := check_items items fds (revents ++ replicate (length fds - length revents) 0) w in
            if decide (0 < n) then Some (ApiRet n, rs, w) else again rs w
      end
  end.

(** [alloc]: the array can be allocated. *)
Definition slk_poll (alloc : bool) (fuel : nat) (items : option (list pollitem)) (timeout : Z) (w : W) : option (api_result * list Z * W) :=
  match items with
  | None => Some (api_error SLK_EINVAL, [], w)
  | Some items =>
      if decide (items = []) then Some (api_error SLK_EINVAL, [], w)
      else
        match first_commands items w with
        | (RcErr _, w) => Some (ApiErr None, [], w)
        | (RcOk, w) =>
            let '(rs, n, w) := check_sockets items w in
            if decide (0 < n ∨ timeout = 0) then Some (ApiRet n, rs, w)
            else if negb alloc then Some (api_error SLK_ENOMEM, rs, w)
            else
              let '(fds, count) := make_pollfds items w in
              let poll_timeout := if decide (timeout < 0) then -1 else Z.min timeout INT_MAX in
              let end_ := if decide (0 < timeout) then u64 (clock 0%nat + timeout) else 0 in
              poll_loop fuel 1 items fds count timeout end_ poll_timeout rs w
        end
  end.
End poll.

(** ** The poller functions

    Their errors are in errno only: [slk_errno ()] keeps its value. *)

Definition api_check_events (events : Z) : bool := bool_decide (Z.land events (Z.lnot (Z.lor SL_POLLIN (Z.lor SL_POLLOUT SL_POLLERR))) = 0).

Definition poller_rc (rc : rc_t) : api_result := match rc with RcOk => ApiRet 0 | RcErr _ => ApiErr None end.

(** [None] is a null pointer, or an object without the tag of a poller. *)
Definition slk_poller_add (p : option poller_t) (socket : option nat) (user_data events : Z) : api_result * option poller_t :=
  match p, socket with
  | Some p, Some s => if api_check_events events then let '(rc, p) := poller_add (KSock s) user_data events p in (poller_rc rc, Some p) else (ApiErr None, Some p)
  | p, _ => (ApiErr None, p)
  end.

Definition slk_poller_modify (p : option poller_t) (socket : option nat) (events : Z) : api_result * option poller_t :=
  match p, socket with
  | Some p, Some s => if api_check_events events then let '(rc, p) := poller_modify (KSock s) events p in (poller_rc rc, Some p) else (ApiErr None, Some p)
  | p, _ => (ApiErr None, p)
  end.

Definition slk_poller_remove (p : option poller_t) (socket : option nat) : api_result * option poller_t :=
  match p, socket with
  | Some p, Some s => let '(rc, p) := poller_remove (KSock s) p in (poller_rc rc, Some p)
  | p, _ => (ApiErr None, p)
  end.

Definition slk_poller_add_fd (p : option poller_t) (fd user_data events : Z) : api_result * option poller_t :=
  match p with
  | Some p => if negb (bool_decide (fd < 0)) && api_check_events events then let '(rc, p) := poller_add (KFd fd) user_data events p in (poller_rc rc, Some p) else (ApiErr None, Some p)
  | None => (ApiErr None, p)
  end.

Definition slk_poller_modify_fd (p : option poller_t) (fd events : Z) : api_result * option poller_t :=
  match p with
  | Some p => if negb (bool_decide (fd < 0)) && api_check_events events then let '(rc, p) := poller_modify (KFd fd) events p in (poller_rc rc, Some p) else (ApiErr None, Some p)
  | None => (ApiErr None, p)
  end.

Definition slk_poller_remove_fd (p : option poller_t) (fd : Z) : api_result * option poller_t :=
  match p with
  | Some p => if decide (fd < 0) then (ApiErr None, Some p) else let '(rc, p) := poller_remove (KFd fd) p in (poller_rc rc, Some p)
  | None => (ApiErr None, p)
  end.

(** ** Receiving into a buffer *)

Section receiving.
Context {W S C : Type} {ST : SocketType W S C}.

(** C0: receiving into a buffer.  When the socket has a message for [slk_recv], the buffer gets as many bytes of it as it
    has room for and no more, the result is the size of the whole message (up to the limit of an [int]), and the message
    is released: the heap is in order for the messages that are left. *)
Theorem slk_recv_truncates ext (st st1 : state W S C) buf len flags m bs ms :
  recv msg_init flags st = Done (Some ((m, RcOk), st1)) →
  msg_size (st_heap st1) m = Done (Z.of_nat (length bs)) → msg_bytes (st_heap st1) m = Done bs →
  heap_inv ext (st_heap st1) (m :: ms) → msg_check m = true → 0 ≤ len → (len = 0 ∨ buf = Some ()) →
  ∃ st2, slk_recv buf len flags st = Done (Some ((ApiRet (s32 (Z.of_nat (length bs))), take (Z.to_nat len) bs), st2))
    ∧ heap_inv ext (st_heap st2) ms.
Proof.
  intros Hr Hn Hb Hh Hck Hl Hbuf. unfold slk_recv. rewrite decide_False by (destruct Hbuf as [->| ->]; [lia|naive_solver]).
  unfold c_bind at 1. rewrite Hr. cbv beta iota. unfold msg_bytes in Hb. rewrite Hn, bind_Done in Hb. apply bind_Done_inv in Hb as (d & Hd & Hb).
  destruct (decide (Z.of_nat (length bs) ≤ Z.of_nat (length d))) as [Hle|]; [|done]. injection Hb as Hb. rewrite Nat2Z.id in Hb.
  unfold c_bind at 1, copy_out. rewrite Hn, bind_Done.
  set (n := Z.of_nat (length bs)) in *.
  assert (E : (if decide (0 < Z.min n len) then d ← msg_data (st_heap st1) m; if decide (Z.min n len ≤ Z.of_nat (length d)) then Done (take (Z.to_nat (Z.min n len)) d) else Undef else Done [])
    = Done (take (Z.to_nat len) bs)).
  { rewrite <- Hb at 1. rewrite take_take. replace (Z.to_nat len `min` length bs)%nat with (Z.to_nat (Z.min n len)) by lia.
    destruct (decide (0 < Z.min n len)); [|replace (Z.to_nat (Z.min n len)) with 0%nat by lia; done]. rewrite Hd, bind_Done. by rewrite decide_True by lia. }
  rewrite E, bind_Done. destruct (msg_close_spec ext (st_heap st1) m ms Hh Hck) as (h' & Hcl & Hh' & _).
  unfold c_bind, close_message, on_heap. rewrite Hcl, !bind_Done. unfold c_ret. eexists. split; [done|exact Hh'].
Qed.
End receiving.

(** A message of five bytes in a buffer of three. *)
Definition hello : list Z := [104; 101; 108; 108; 111].
Definition hello_msg : msg_t := msg_base type_vsm (BVsm (hello ++ replicate 28 0) 5).
Definition hello_state : state () (list msg_t) msg_t := example_state 5 options_new [hello_msg] (Env [1] [MNone] []).

Lemma hello_heap : heap_inv (λ _, 0) (empty_heap (λ _, true)) [hello_msg].
Proof.
  apply heap_inv_idle; [by constructor| |by intros ? [? [|]]|by intros ? []|by intros ? []|done|done].
  split_and!; [intros _|by intros [|]|done|done]. eexists _, _. split; [done|]. vm_compute. split; [done|]. split; congruence.
Qed.

Lemma slk_recv_truncates_witness : ∃ st2,
  slk_recv (ST:=queue_socket) (Some ()) 3 0 hello_state = Done (Some ((ApiRet 5, [104; 101; 108]), st2)) ∧ heap_inv (λ _, 0) (st_heap st2) [].
Proof.
  destruct (recv (SocketType0:=queue_socket) msg_init 0 hello_state) as [[[[m rc] st1]|]| |] eqn:E; try (by vm_compute in E).
  apply (slk_recv_truncates (ST:=queue_socket) (λ _, 0) hello_state st1 (Some ()) 3 0 hello_msg hello []).
  all: vm_compute in E; injection E as <- <- <-.
  - by vm_compute.
  - by vm_compute.
  - by vm_compute.
  - exact hello_heap.
  - by vm_compute.
  - lia.
  - by right.
Defined.

(** ** What slk_poll reports *)

Section reports.
Context {W : Type} {AW : ApiWorld W}.

(** The socket [s] is asked in the world [w] for the events that are wanted, first for input and then for output, and answers [r].  Asking
    may change the world, and what this or another socket answers next. *)
Definition answers (s : nat) (events : Z) (w : W) (r : Z) (w' : W) : Prop :=
  ∃ i o w1, (if has events SL_POLLIN then aw_has_in s w = (i, w1) else i = false ∧ w1 = w)
    ∧ (if has events SL_POLLOUT then aw_has_out s w1 = (o, w') else o = false ∧ w' = w1)
    ∧ r = Z.lor (flag i SL_POLLIN) (flag o SL_POLLOUT).

(** How many an item adds to the result: the events of a socket, one for a file descriptor. *)
Definition events_count (it : pollitem) (r : Z) : Z :=
  match it_socket it with Some _ => flag (has r SL_POLLIN) 1 + flag (has r SL_POLLOUT) 1 | None => if decide (r ≠ 0) then 1 else 0 end.

(** What the item is found to have: the answer of its socket, or what is reported for some events of its file descriptor. *)
Definition item_events (it : pollitem) (w : W) (r : Z) (w' : W) : Prop :=
  match it_socket it with Some s => answers s (it_events it) w r w' | None => w' = w ∧ ∃ revents, r = fd_events (it_events it) revents end.

(** One look at the items from the first to the last, in the world [w] and up to [w']: [rs] has what every socket has answered, and [n] is the
    number of events. *)
Inductive reported : W → list pollitem → list Z → Z → W → Prop :=
| reported_nil w : reported w [] [] 0 w
| reported_cons it r items rs n w w1 w2 :
    item_events it w r w1 → reported w1 items rs n w2 →
    reported w (it :: items) (r :: rs) (events_count it r + n) w2.

Lemma events_count_pos w w' it r :
  item_events it w r w' → 0 ≤ events_count it r ∧ (events_count it r = 0 → r = 0).
Proof.
  unfold events_count, item_events. destruct (it_socket it) as [s|]; [|intros _; case_decide as Hd; [lia|split; [lia|intros _; by destruct (decide (r = 0))]]].
  intros (i & o & w1 & _ & _ & ->). destruct i, o; by vm_compute.
Qed.

Lemma reported_zero w items rs n w' : reported w items rs n w' → 0 ≤ n ∧ (n = 0 → Forall (λ r, r = 0) rs).
Proof.
  induction 1 as [|it r items rs n w w1 w2 Hr H [IH1 IH2]]; [split; [lia|constructor]|].
  destruct (events_count_pos w w1 it r Hr) as [H1 H2]. split; [lia|]. intros. constructor; [apply H2; lia|apply IH2; lia].
Qed.

Lemma socket_events_spec s events w : ∃ r w', socket_events s events w = (r, flag (has r SL_POLLIN) 1 + flag (has r SL_POLLOUT) 1, w') ∧ answers s events w r w'.
Proof.
  unfold socket_events, answers. destruct (if has events SL_POLLIN then aw_has_in s w else (false, w)) as [i w1] eqn:E1.
  destruct (if has events SL_POLLOUT then aw_has_out s w1 else (false, w1)) as [o w2] eqn:E2.
  exists (Z.lor (flag i SL_POLLIN) (flag o SL_POLLOUT)), w2. split; [by destruct i, o|]. exists i, o, w1. split; [revert E1; by destruct (has events SL_POLLIN); [|intros [= <- <-]]|].
  split; [revert E2; by destruct (has events SL_POLLOUT); [|intros [= <- <-]]|done].
Qed.

Lemma check_sockets_spec items w : ∃ rs n w', check_sockets items w = (rs, n, w') ∧ reported w items rs n w'.
Proof.
  revert w. induction items as [|it items IH]; intros w; cbn [check_sockets]; [eexists _, _, _; split; [done|constructor]|].
  destruct (it_socket it) as [s|] eqn:Es.
  - destruct (socket_events_spec s (it_events it) w) as (r & w1 & -> & Ha). destruct (IH w1) as (rs & n & w' & -> & H). eexists _, _, w'. split; [done|].
    replace (flag (has r SL_POLLIN) 1 + flag (has r SL_POLLOUT) 1) with (events_count it r) by (unfold events_count; by rewrite Es).
    apply reported_cons with w1; [unfold item_events; by rewrite Es|done].
  - destruct (IH w) as (rs & n & w' & -> & H). eexists _, _, w'. split; [done|].
    replace (0 + n) with (events_count it 0 + n) by (unfold events_count; by rewrite Es, decide_False by naive_solver). apply reported_cons with w; [unfold item_events; rewrite Es; split; [done|by exists 0]|done].
Qed.

Lemma check_items_spec items fds revents w : length fds = length items → (length items ≤ length revents)%nat →
  ∃ rs n w', check_items items fds revents w = (rs, n, w') ∧ reported w items rs n w'.
Proof.
  revert fds revents w. induction items as [|it items IH]; intros [|f fds] [|rev revents] w Hf Hr; simpl in Hf, Hr; try lia; cbn [check_items];
    try (eexists _, _, _; split; [done|constructor]).
  assert (E : ∃ r w1, match it_socket it with Some s => socket_events s (it_events it) w
      | None => if decide (0 ≤ it_fd it ∧ 0 ≤ pf_fd f) then (fd_events (it_events it) rev, if decide (fd_events (it_events it) rev ≠ 0) then 1 else 0, w) else (0, 0, w) end = (r, events_count it r, w1)
    ∧ item_events it w r w1).
  { unfold events_count, item_events. destruct (it_socket it) as [s|].
    - destruct (socket_events_spec s (it_events it) w) as (r & w1 & -> & Ha). by exists r, w1.
    - destruct (decide (0 ≤ it_fd it ∧ 0 ≤ pf_fd f)); [eexists _, w|exists 0, w]; (split; [done|]); (split; [done|]); [by eexists|by exists 0]. }
  destruct E as (r & w1 & -> & Hs). destruct (IH fds revents w1) as (rs & n & w' & -> & H); [lia..|].
  eexists _, _, w'. split; [done|]. by apply reported_cons with w1.
Qed.

Lemma make_pollfds_length items w : length (make_pollfds items w).1 = length items.
Proof.
  induction items as [|it items IH]; cbn [make_pollfds]; [done|]. destruct (make_pollfds items w) as [fds n]. simpl in IH.
  destruct (it_socket it) as [s|]; [destruct (aw_fd s w)|destruct (decide (0 ≤ it_fd it))]; simpl; lia.
Qed.

Context (clock : nat → Z) (alloc : bool).

(** What a result says: a positive number goes with the events of a last look at every item, 0 with none at all. *)
Definition tells (items : list pollitem) (r : api_result * list Z * W) : Prop :=
  match r with
  | (ApiRet n, rs, w) => 0 ≤ n ∧ (n = 0 → Forall (λ r, r = 0) rs) ∧ (0 < n → ∃ w0, reported w0 items rs n w)
  | (ApiErr _, _, _) => True
  end.

Lemma poll_loop_tells fuel i items fds count timeout end_ poll_timeout rs w r :
  length fds = length items → Forall (λ r, r = 0) rs → poll_loop clock fuel i items fds count timeout end_ poll_timeout rs w = Some r → tells items r.
Proof.
  intros Hf. revert i poll_timeout rs w. induction fuel as [|fuel IH]; intros i poll_timeout rs w Hz; [done|]. cbn [poll_loop].
  assert (Hagain : ∀ rs w, Forall (λ r, r = 0) rs → (if decide (0 < timeout) then if decide (end_ ≤ clock i) then Some (ApiRet 0, rs, w)
      else poll_loop clock fuel (Datatypes.S i) items fds count timeout end_ (s32 (u64 (end_ - clock i))) rs w else poll_loop clock fuel i items fds count timeout end_ poll_timeout rs w) = Some r → tells items r).
  { intros rs' w' Hz'. destruct (decide (0 < timeout)); [destruct (decide (end_ ≤ clock i))|]; [|by apply IH..].
    intros [= <-]. simpl. split; [lia|]. split; [done|lia]. }
  destruct (aw_poll _ _ _) as [[revents| |] w1]; [|by apply Hagain|by intros [= <-]].
  destruct (decide (Forall _ revents)) as [|_]; [intros [= <-]; simpl; split; [lia|]; split; [done|lia]|].
  destruct (check_items_spec items fds (revents ++ replicate (length fds - length revents) 0) (poll_commands items fds w1)) as (rs' & n & w' & -> & H);
    [done|rewrite length_app, length_replicate; lia|].
  destruct (reported_zero _ _ _ _ _ H) as [Hn Hz']. destruct (decide (0 < n)).
  - intros [= <-]. simpl. split; [lia|]. split; [lia|]. intros _. by eexists.
  - apply Hagain, Hz'. lia.
Qed.

Lemma poll_loop_returns fuel i items fds count timeout end_ poll_timeout rs w :
  0 < timeout → (∃ k, (i ≤ k < i + fuel)%nat ∧ end_ ≤ clock k) → is_Some (poll_loop clock fuel i items fds count timeout end_ poll_timeout rs w).
Proof.
  intros Ht. revert i poll_timeout rs w. induction fuel as [|fuel IH]; intros i poll_timeout rs w (k & Hk & He); [lia|]. cbn [poll_loop].
  assert (Hagain : ∀ rs w, is_Some (if decide (0 < timeout) then if decide (end_ ≤ clock i) then Some (ApiRet 0, rs, w)
      else poll_loop clock fuel (Datatypes.S i) items fds count timeout end_ (s32 (u64 (end_ - clock i))) rs w else poll_loop clock fuel i items fds count timeout end_ poll_timeout rs w)).
  { intros rs' w'. rewrite decide_True by done. destruct (decide (end_ ≤ clock i)) as [|Hc]; [done|]. apply IH. exists k. split; [|done].
    destruct (decide (k = i)) as [->|]; [done|lia]. }
  destruct (aw_poll _ _ _) as [[revents| |] w1]; [|apply Hagain|done].
  destruct (decide (Forall _ revents)) as [|_]; [done|]. destruct (check_items _ _ _ _) as [[rs' n] w']. destruct (decide (0 < n)); [done|apply Hagain].
Qed.

End reports.

(** ** Examples *)

(** A world whose state is the number of calls of [poll]; the socket [s] is readable after [s] of them, and every call
    finds its first entry readable. *)
#[local] Instance toy_world : ApiWorld nat := {|
  aw_commands s w := (RcOk, w);
  aw_has_in s w := (bool_decide (s ≤ w)%nat, w);
  aw_has_out s w := (false, w);
  aw_fd s w := Some (10 + Z.of_nat s);
  aw_poll fds t w := (PollOk (match fds with [] => [] | _ :: fds => 1 :: replicate (length fds) 0 end), Datatypes.S w);
|}.


(** ** Against the intention *)

(** Without a timeout file descriptors are never asked: the result is 0, whatever [poll] would answer. *)
Lemma slk_poll_fds_now {W} {AW : ApiWorld W} clock alloc fuel items (w : W) : items ≠ [] → Forall (λ it, it_socket it = None) items →
  slk_poll clock alloc fuel (Some items) 0 w = Some (ApiRet 0, replicate (length items) 0, w).
Proof.
  intros Hne Hf. unfold slk_poll. rewrite decide_False by done.
  assert (E : ∀ w : W, first_commands items w = (RcOk, w) ∧ check_sockets items w = (replicate (length items) 0, 0, w)).
  { clear Hne. induction Hf as [|it items Hit _ IH]; intros w'; [done|]. cbn [first_commands check_sockets length replicate]. rewrite Hit. destruct (IH w') as [-> ->]. done. }
  destruct (E w) as [-> ->]. by rewrite decide_True by (by right).
Qed.

(** The number of entries in use is taken for the end of the array: after an item without a socket and without a file
    descriptor, which has an entry but is not counted, the last item is not polled. *)
Lemma slk_poll_hole {W} {AW : ApiWorld W} fd events e (w : W) : 0 ≤ fd →
  let '(fds, count) := make_pollfds [PollItem None (-1) e; PollItem None fd events] w in take (Z.to_nat count) fds = [Pollfd (-1) 0].
Proof. intros Hfd. cbn. by rewrite decide_True. Qed.

(** While it waits, an error of a socket does not end the call: the only error is that of [poll]. *)
Lemma slk_poll_waits_on {W} {AW : ApiWorld W} clock fuel i items fds count timeout end_ poll_timeout rs (w : W) c rs' w' :
  poll_loop clock fuel i items fds count timeout end_ poll_timeout rs w = Some (ApiErr c, rs', w') → c = Some SLK_EPROTO.
Proof.
  revert i poll_timeout rs w. induction fuel as [|fuel IH]; intros i poll_timeout rs w; [done|]. cbn [poll_loop].
  destruct (aw_poll _ _ _) as [[revents| |] w1]; [|repeat case_decide; eauto; done|by intros [= <- _ _]].
  case_decide; [done|]. destruct (check_items _ _ _ _) as [[rs1 n1] w2]. repeat case_decide; eauto; done.
Qed.

(** A context that has been terminated before the call: -1, and [slk_errno ()] does not say why. *)
Lemma slk_poll_terminated {W} {AW : ApiWorld W} clock alloc fuel items timeout (w w' : W) e : items ≠ [] →
  first_commands items w = (RcErr e, w') → slk_poll clock alloc fuel (Some items) timeout w = Some (ApiErr None, [], w').
Proof. intros Hne H. unfold slk_poll. by rewrite decide_False, H. Qed.

(** Errors without a code of their own keep their number, and two of them are then other errors of the interface. *)
Lemma map_errno_clashes : map_errno ENOENT = SLK_ENOMEM ∧ map_errno EINTR = SLK_ENOTSOCK.
Proof. done. Qed.
