(* ===== verification/Session.v ===== *)
(** Sessions and their connecters (src/core/session_base.cpp, src/transport/stream_connecter_base.cpp,
    tcp_connecter.cpp, ipc_connecter.cpp), the accept loop of the listeners, and the timers of an I/O thread (src/io/poller_base.cpp).

    A session and what belongs to it run in I/O threads.  The commands to them, the completions of
    asynchronous operations, the events of the engine and of the pipe are the actions of a step function; they come in any
    order.  What other threads do with the pipe is an interface, of whose messages only the flag more matters.  A
    connecter that is destroyed takes its handlers with it (_lifetime_sentinel). *)
From stdpp Require Import gmap.
From S2P Require Import Prelude.

Local Open Scope sl_scope.

Definition int_max : Z := 2 ^ 31 - 1.

(** ** The timers of an I/O thread *)

(** The multimap: sorted by expiration, equal ones in the order of their insertion; a timer is a sink and an id. *)
Definition timer_map : Type := list (Z * (nat * Z)).

Fixpoint timers_insert (t : Z) (x : nat * Z) (l : timer_map) : timer_map :=
  match l with
  | [] => [(t, x)]
  | (t', x') :: l' => if decide (t' ≤ t) then (t', x') :: timers_insert t x l' else (t, x) :: l
  end.

Definition add_timer (now timeout : Z) (sink : nat) (id : Z) (l : timer_map) : timer_map := timers_insert (u64 (now + timeout)) (sink, id) l.

Fixpoint cancel_timer (sink : nat) (id : Z) (l : timer_map) : timer_map :=
  match l with
  | [] => []
  | (t, x) :: l => if decide (x = (sink, id)) then l else (t, x) :: cancel_timer sink id l
  end.

(** [execute_timers] over a state with timers, whose handlers are [fire]; [None]: still running after [fuel] handlers. *)
Section execute.
Context {S : Type} (timers : S → timer_map) (set_timers : timer_map → S → S) (fire : nat → Z → S → outcome S).

Fixpoint execute_loop (fuel : nat) (current : Z) (s : S) : outcome (option (Z * S)) :=
  match timers s with
  | [] => Done (Some (0, s))
  | (t, (sink, id)) :: l =>
      if decide (current < t) then Done (Some (u64 (t - current), s))
      else match fuel with O => Done None | Datatypes.S fuel => s ← fire sink id (set_timers l s); execute_loop fuel current s end
  end.

Definition execute_timers (fuel : nat) (now : Z) (s : S) : outcome (option (Z * S)) :=
  match timers s with [] => Done (Some (0, s)) | _ => execute_loop fuel now s end.
End execute.

(** ** Connecters *)

(** The asynchronous operations, and how they complete. *)
Inductive async_op := AWait (interval : Z) | AResolve | AConnect.
Inductive asio_ec := EcOk | EcAborted | EcError.

(** The options that connecters and sessions look at; [co_tcp]: the protocol is tcp, else ipc;
    [co_endpoint]: there is an address, and memory for its name. *)
Record conn_opts := ConnOpts { co_reconnect_ivl : Z; co_reconnect_ivl_max : Z; co_immediate : bool; co_tcp : bool; co_active : bool; co_endpoint : bool }.

(** [cn_pending]: the operations under way.  [cn_plugged]: the command plug was processed.  [cn_done]: it asked its owner to be
    terminated. *)
Record connecter_t := Connecter { cn_delayed_start : bool; cn_plugged : bool; cn_current_reconnect_ivl : Z; cn_pending : list async_op; cn_done : bool }.

Definition connecter_new (delayed_start : bool) : connecter_t := Connecter delayed_start false (-1) [] false.

Definition start_op (a : async_op) (c : connecter_t) : connecter_t :=
  Connecter (cn_delayed_start c) (cn_plugged c) (cn_current_reconnect_ivl c) (cn_pending c ++ [a]) (cn_done c).
Definition set_ivl (i : Z) (c : connecter_t) : connecter_t := Connecter (cn_delayed_start c) (cn_plugged c) i (cn_pending c) (cn_done c).

Section connecter.
Context (o : conn_opts).

(** [random] is what [generate_random] returns. *)
Definition get_new_reconnect_ivl (random : Z) (c : connecter_t) : Z * connecter_t :=
  let cur := cn_current_reconnect_ivl c in
  if decide (0 < co_reconnect_ivl_max o) then
    let candidate := if decide (cur = -1) then co_reconnect_ivl o else if decide (int_max / 2 < cur) then int_max else cur * 2 in
    let i := if decide (co_reconnect_ivl_max o < candidate) then co_reconnect_ivl_max o else candidate in
    (i, set_ivl i c)
  else
    let cur := if decide (cur = -1) then co_reconnect_ivl o else cur in
    let random_jitter := random `mod` co_reconnect_ivl o in
    (if decide (cur < int_max - random_jitter) then cur + random_jitter else int_max, set_ivl cur c).

Definition add_reconnect_timer (random : Z) (c : connecter_t) : connecter_t :=
  if decide (0 < co_reconnect_ivl o) then let '(i, c) := get_new_reconnect_ivl random c in start_op (AWait i) c else c.

(** [start_connecting] of tcp_connecter_t and of ipc_connecter_t *)
Definition connecter_start (c : connecter_t) : connecter_t := start_op (if co_tcp o then AResolve else AConnect) c.

Definition connecter_process_plug (random : Z) (c : connecter_t) : connecter_t :=
  let c := Connecter (cn_delayed_start c) true (cn_current_reconnect_ivl c) (cn_pending c) (cn_done c) in
  if cn_delayed_start c then add_reconnect_timer random c else connecter_start c.

Definition handle_reconnect_timer (ec : asio_ec) (c : connecter_t) : connecter_t :=
  match ec with EcAborted => c | _ => connecter_start c end.

Definition handle_resolve (ec : asio_ec) (random : Z) (c : connecter_t) : connecter_t :=
  match ec with
  | EcOk => start_op AConnect c
  | EcAborted => c
  | EcError => add_reconnect_timer random c
  end.

(** With [create_engine]: an engine for the session, and [terminate] *)
Definition handle_connect (ec : asio_ec) (random : Z) (c : connecter_t) : connecter_t * bool :=
  match ec with
  | EcOk => (Connecter (cn_delayed_start c) (cn_plugged c) (cn_current_reconnect_ivl c) (cn_pending c) true, true)
  | EcAborted => (c, false)
  | EcError => (add_reconnect_timer random c, false)
  end.

(** The handler of the oldest operation; true: an engine goes to the session. *)
Definition complete (ec : asio_ec) (random : Z) (c : connecter_t) : connecter_t * bool :=
  match cn_pending c with
  | [] => (c, false)
  | a :: l =>
      let c := Connecter (cn_delayed_start c) (cn_plugged c) (cn_current_reconnect_ivl c) l (cn_done c) in
      match a with
      | AWait _ => (handle_reconnect_timer ec c, false)
      | AResolve => (handle_resolve ec random c, false)
      | AConnect => handle_connect ec random c
      end
  end.
End connecter.

(** ** Sessions *)

(** What a session does with the end of a pipe.  [sp_parts] is what can be read, the flag more of every part; [sp_new] is the
    pair that [engine_ready] makes. *)
Class SessionPipes (W : Type) := {
  sp_parts : nat → W → list bool;
  sp_read : nat → W → option bool * W;
  sp_flush : nat → W → W;
  sp_rollback : nat → W → W;
  sp_check_read : nat → W → W;
  sp_hiccup : nat → W → W;
  sp_terminate : nat → bool → W → W;
  sp_new : nat → W → W;
}.

Inductive engine_error_reason := ErrProtocol | ErrConnection | ErrTimeout.

(** Commands of a session to its socket; the term_req of [terminate] is one. *)
Inductive to_socket := ToBind (p : nat) | ToTermEndpoint | ToTermReq.

(** [se_terminating] is that of own_t. *)
Record sess_t := Sess {
  se_pipe : option nat;
  se_incomplete_in : bool;
  se_pending : bool;
  se_engine : bool;
  se_has_linger_timer : bool;
  se_terminating_pipes : gset nat;
  se_terminating : bool;
}.

Definition sess_new : sess_t := Sess None false false false false ∅ false.

Definition linger_timer_id : Z := 32.

(** The session, what it owns and what is on its way to it: [ss_attach] attach commands.  [ss_next]: the pipes below
    have been used. *)
Record sess_sys (W : Type) := SessSys {
  ss_sess : sess_t;
  ss_alive : bool;
  ss_plugged : bool;
  ss_term : bool;                       (* the command term has been processed *)
  ss_connecters : list connecter_t;
  ss_attach : nat;
  ss_timers : timer_map;
  ss_world : W;
  ss_sent : list to_socket;
  ss_next : nat;
}.
Arguments SessSys {W} _ _ _ _ _ _ _ _ _ _.
Arguments ss_sess {W} _. Arguments ss_alive {W} _. Arguments ss_plugged {W} _. Arguments ss_term {W} _. Arguments ss_connecters {W} _.
Arguments ss_attach {W} _. Arguments ss_timers {W} _. Arguments ss_world {W} _. Arguments ss_sent {W} _. Arguments ss_next {W} _.

Section session.
Context {W : Type} {SP : SessionPipes W} (o : conn_opts) (me : nat).
Implicit Types (s : sess_sys W) (e : sess_t).

Definition on_sess (f : sess_t → sess_t) s : sess_sys W :=
  SessSys (f (ss_sess s)) (ss_alive s) (ss_plugged s) (ss_term s) (ss_connecters s) (ss_attach s) (ss_timers s) (ss_world s) (ss_sent s) (ss_next s).
Definition on_pipe (f : W → W) s : sess_sys W :=
  SessSys (ss_sess s) (ss_alive s) (ss_plugged s) (ss_term s) (ss_connecters s) (ss_attach s) (ss_timers s) (f (ss_world s)) (ss_sent s) (ss_next s).
Definition on_timers (f : timer_map → timer_map) s : sess_sys W :=
  SessSys (ss_sess s) (ss_alive s) (ss_plugged s) (ss_term s) (ss_connecters s) (ss_attach s) (f (ss_timers s)) (ss_world s) (ss_sent s) (ss_next s).
Definition on_conns (f : list connecter_t → list connecter_t) s : sess_sys W :=
  SessSys (ss_sess s) (ss_alive s) (ss_plugged s) (ss_term s) (f (ss_connecters s)) (ss_attach s) (ss_timers s) (ss_world s) (ss_sent s) (ss_next s).
Definition on_attach (f : nat → nat) s : sess_sys W :=
  SessSys (ss_sess s) (ss_alive s) (ss_plugged s) (ss_term s) (ss_connecters s) (f (ss_attach s)) (ss_timers s) (ss_world s) (ss_sent s) (ss_next s).
Definition sess_send (c : to_socket) s : sess_sys W :=
  SessSys (ss_sess s) (ss_alive s) (ss_plugged s) (ss_term s) (ss_connecters s) (ss_attach s) (ss_timers s) (ss_world s) (ss_sent s ++ [c]) (ss_next s).

Definition set_pipe (p : option nat) e : sess_t := Sess p (se_incomplete_in e) (se_pending e) (se_engine e) (se_has_linger_timer e) (se_terminating_pipes e) (se_terminating e).
Definition set_incomplete_in (b : bool) e : sess_t := Sess (se_pipe e) b (se_pending e) (se_engine e) (se_has_linger_timer e) (se_terminating_pipes e) (se_terminating e).
Definition set_pending (b : bool) e : sess_t := Sess (se_pipe e) (se_incomplete_in e) b (se_engine e) (se_has_linger_timer e) (se_terminating_pipes e) (se_terminating e).
Definition set_engine (b : bool) e : sess_t := Sess (se_pipe e) (se_incomplete_in e) (se_pending e) b (se_has_linger_timer e) (se_terminating_pipes e) (se_terminating e).
Definition set_has_linger (b : bool) e : sess_t := Sess (se_pipe e) (se_incomplete_in e) (se_pending e) (se_engine e) b (se_terminating_pipes e) (se_terminating e).
Definition set_terminating_pipes (l : gset nat) e : sess_t := Sess (se_pipe e) (se_incomplete_in e) (se_pending e) (se_engine e) (se_has_linger_timer e) l (se_terminating e).
Definition set_terminating (b : bool) e : sess_t := Sess (se_pipe e) (se_incomplete_in e) (se_pending e) (se_engine e) (se_has_linger_timer e) (se_terminating_pipes e) b.

(** [if (_has_linger_timer) { cancel_timer; _has_linger_timer = false; }] *)
Definition cancel_linger s : sess_sys W :=
  if se_has_linger_timer (ss_sess s) then on_sess (set_has_linger false) (on_timers (cancel_timer me linger_timer_id) s) else s.

(** The session calls own_t: the connecters are asked to terminate. *)
Definition own_term s : outcome (sess_sys W) :=
  assert! negb (se_terminating (ss_sess s));; Done (on_sess (set_terminating true) s).

(** Called by the socket before the session is launched *)
Definition sess_attach_pipe (p : nat) s : outcome (sess_sys W) :=
  assert! negb (se_terminating (ss_sess s));;
  assert! bool_decide (se_pipe (ss_sess s) = None);;
  Done (on_sess (set_pipe (Some p)) s).

Definition sess_pull_msg s : option bool * sess_sys W :=
  match se_pipe (ss_sess s) with
  | None => (None, s)
  | Some p =>
      let '(r, w) := sp_read p (ss_world s) in
      let s := on_pipe (λ _, w) s in
      match r with None => (None, s) | Some more => (Some more, on_sess (set_incomplete_in more) s) end
  end.

Definition sess_flush s : sess_sys W := match se_pipe (ss_sess s) with Some p => on_pipe (sp_flush p) s | None => s end.
Definition sess_rollback s : sess_sys W := match se_pipe (ss_sess s) with Some p => on_pipe (sp_rollback p) s | None => s end.

(** The loop of [clean_pipes]; [fuel] is more than the parts that can be read. *)
Fixpoint drain_message (fuel : nat) s : outcome (sess_sys W) :=
  if se_incomplete_in (ss_sess s) then
    match fuel with
    | O => Undef
    | Datatypes.S fuel => match sess_pull_msg s with (None, _) => Abort | (Some _, s) => drain_message fuel s end
    end
  else Done s.

Definition clean_pipes s : outcome (sess_sys W) :=
  match se_pipe (ss_sess s) with
  | None => Abort
  | Some p => let s := on_pipe (λ w, sp_flush p (sp_rollback p w)) s in drain_message (Datatypes.S (length (sp_parts p (ss_world s)))) s
  end.

Definition sess_check_read s : sess_sys W := match se_pipe (ss_sess s) with Some p => on_pipe (sp_check_read p) s | None => s end.

Definition sess_pipe_terminated (p : nat) s : outcome (sess_sys W) :=
  let e := ss_sess s in
  assert! bool_decide (se_pipe e = Some p ∨ p ∈ se_terminating_pipes e);;
  let s := if decide (se_pipe e = Some p) then cancel_linger (on_sess (set_pipe None) s)
           else on_sess (set_terminating_pipes (se_terminating_pipes e ∖ {[p]})) s in
  let e := ss_sess s in
  if decide (se_pending e = true ∧ se_pipe e = None ∧ se_terminating_pipes e = ∅) then own_term (on_sess (set_pending false) s) else Done s.

(** [read_activated] and [write_activated]; with an engine they are calls of the engine. *)
Definition sess_read_activated (p : nat) s : outcome (sess_sys W) :=
  let e := ss_sess s in
  if decide (se_pipe e ≠ Some p) then assert! bool_decide (p ∈ se_terminating_pipes e);; Done s
  else Done (if se_engine e then s else on_pipe (sp_check_read p) s).
Definition sess_write_activated (p : nat) s : outcome (sess_sys W) :=
  let e := ss_sess s in
  if decide (se_pipe e ≠ Some p) then assert! bool_decide (p ∈ se_terminating_pipes e);; Done s else Done s.

(** [start_connecting]: a connecter for the protocol of the address, launched *)
Definition sess_start_connecting (wait : bool) s : outcome (sess_sys W) :=
  assert! co_active o;; Done (on_conns (λ l, l ++ [connecter_new wait]) s).

Definition sess_process_plug s : outcome (sess_sys W) := if co_active o then sess_start_connecting false s else Done s.

Definition sess_engine_ready s : outcome (sess_sys W) :=
  let e := ss_sess s in
  if decide (se_pipe e = None ∧ se_terminating e = false) then
    let p := ss_next s in
    let s := SessSys (set_pipe (Some p) e) (ss_alive s) (ss_plugged s) (ss_term s) (ss_connecters s) (ss_attach s) (ss_timers s)
               (sp_check_read p (sp_new p (ss_world s))) (ss_sent s) (Datatypes.S p) in
    Done (sess_send (ToBind p) s)
  else Done s.

(** [ready]: the engine has no handshake *)
Definition sess_process_attach (ready : bool) s : outcome (sess_sys W) :=
  assert! negb (se_engine (ss_sess s));;
  let s := on_sess (set_engine true) s in
  if ready then sess_engine_ready s else Done s.

(** The request to the socket to forget the endpoint: not without an address, nor without memory for its name *)
Definition sess_term_endpoint s : sess_sys W := if co_endpoint o then sess_send ToTermEndpoint s else s.

Definition sess_reconnect s : outcome (sess_sys W) :=
  let s :=
    match se_pipe (ss_sess s) with
    | Some p =>
        if co_immediate o then
          cancel_linger (on_sess (λ e, set_pipe None (set_terminating_pipes (se_terminating_pipes e ∪ {[p]}) e))
            (on_pipe (λ w, sp_terminate p false (sp_hiccup p w)) s))
        else s
    | None => s
    end in
  if decide (0 < co_reconnect_ivl o) then sess_start_connecting true s else Done (sess_term_endpoint s).

(** [terminate] of own_t: a request to the socket, which is the owner *)
Definition sess_terminate s : sess_sys W := if se_terminating (ss_sess s) then s else sess_send ToTermReq s.

Definition sess_engine_error (reason : engine_error_reason) s : outcome (sess_sys W) :=
  let s := on_sess (set_engine false) s in
  s ← (match se_pipe (ss_sess s) with Some _ => clean_pipes s | None => Done s end);
  let close_it :=
    if se_pending (ss_sess s) then Done (match se_pipe (ss_sess s) with Some p => on_pipe (sp_terminate p false) s | None => s end)
    else Done (sess_terminate s) in
  s ← (match reason with ErrProtocol => close_it | _ => if co_active o then sess_reconnect s else close_it end);
  Done (sess_check_read s).

Definition sess_process_term (now linger : Z) s : outcome (sess_sys W) :=
  let e := ss_sess s in
  assert! negb (se_pending e);;
  if decide (se_pipe e = None ∧ se_terminating_pipes e = ∅) then own_term s
  else
    let s := on_sess (set_pending true) s in
    match se_pipe e with
    | None => Done s
    | Some p =>
        s ← (if decide (0 < linger) then
               assert! negb (se_has_linger_timer (ss_sess s));;
               Done (on_sess (set_has_linger true) (on_timers (add_timer now linger me linger_timer_id) s))
             else Done s);
        let s := on_pipe (sp_terminate p (bool_decide (linger ≠ 0))) s in
        Done (if se_engine e then s else sess_check_read s)
    end.

Definition sess_timer_event (id : Z) s : outcome (sess_sys W) :=
  assert! bool_decide (id = linger_timer_id);;
  let s := on_sess (set_has_linger false) s in
  match se_pipe (ss_sess s) with None => Abort | Some p => Done (on_pipe (sp_terminate p false) s) end.

Definition sess_process_conn_failed s : sess_sys W := sess_term_endpoint s.

(** A timer of the poller: a dead session must not have one; the others are not of this session. *)
Definition fire_timer (sink : nat) (id : Z) s : outcome (sess_sys W) :=
  if decide (sink = me) then if ss_alive s then sess_timer_event id s else Undef else Done s.

(** The destructor *)
Definition sess_destroy s : outcome (sess_sys W) :=
  assert! bool_decide (se_pipe (ss_sess s) = None);;
  let s := cancel_linger s in
  Done (SessSys (ss_sess s) false (ss_plugged s) (ss_term s) (ss_connecters s) (ss_attach s) (ss_timers s) (ss_world s) (ss_sent s) (ss_next s)).

(** ** Steps *)

Inductive sess_act :=
| SAttachPipe                                                     (* the socket, before the launch *)
| SPlug | STerm (now linger : Z) | SAttach (ready : bool) | SConnFailed      (* commands *)
| SReady | SPull | SFlush | SRollback | SEngineError (reason : engine_error_reason)           (* calls of the engine *)
| SReadActivated (p : nat) | SWriteActivated (p : nat) | SPipeTerminated (p : nat)   (* events of a pipe *)
| SConnPlug (k : nat) (random : Z) | SComplete (k : nat) (ec : asio_ec) (random : Z)     (* of a connecter: plug, a completion *)
| SReap (k : nat)                                                (* a connecter processes term *)
| STimers (now : Z)                                              (* the loop of the I/O thread *)
| SOther (f : W → W)                                             (* other threads *)
| SDestroy.

Definition knows (p : nat) s : bool := bool_decide (se_pipe (ss_sess s) = Some p ∨ p ∈ se_terminating_pipes (ss_sess s)).

Definition guard (b : bool) s (r : outcome (sess_sys W)) : outcome (sess_sys W) := if b then r else Done s.

(** What cannot happen now leaves the state as it is. *)
Definition sess_step s (a : sess_act) : outcome (sess_sys W) :=
  let up := ss_alive s && ss_plugged s in
  match a with
  | SAttachPipe =>
      guard (ss_alive s && negb (ss_plugged s) && bool_decide (se_pipe (ss_sess s) = None)) s
        (sess_attach_pipe (ss_next s) (SessSys (ss_sess s) (ss_alive s) (ss_plugged s) (ss_term s) (ss_connecters s) (ss_attach s) (ss_timers s) (ss_world s) (ss_sent s) (Datatypes.S (ss_next s))))
  | SConnFailed => guard up s (Done (sess_process_conn_failed s))
  | SPlug =>
      guard (ss_alive s && negb (ss_plugged s)) s
        (sess_process_plug (SessSys (ss_sess s) (ss_alive s) true (ss_term s) (ss_connecters s) (ss_attach s) (ss_timers s) (ss_world s) (ss_sent s) (ss_next s)))
  | STerm now linger =>
      guard (up && negb (ss_term s)) s
        (sess_process_term now linger (SessSys (ss_sess s) (ss_alive s) (ss_plugged s) true (ss_connecters s) (ss_attach s) (ss_timers s) (ss_world s) (ss_sent s) (ss_next s)))
  | SAttach ready => guard (up && bool_decide (0 < ss_attach s)%nat) s (sess_process_attach ready (on_attach pred s))
  | SReady => guard (up && se_engine (ss_sess s)) s (sess_engine_ready s)
  | SPull => guard (up && se_engine (ss_sess s)) s (Done (sess_pull_msg s).2)
  | SFlush => guard (up && se_engine (ss_sess s)) s (Done (sess_flush s))
  | SRollback => guard (up && se_engine (ss_sess s)) s (Done (sess_rollback s))
  | SEngineError reason => guard (up && se_engine (ss_sess s)) s (sess_engine_error reason s)
  | SReadActivated p => guard (up && knows p s) s (sess_read_activated p s)
  | SWriteActivated p => guard (up && knows p s) s (sess_write_activated p s)
  | SPipeTerminated p => guard (up && knows p s) s (sess_pipe_terminated p s)
  | SConnPlug k random =>
      match ss_connecters s !! k with
      | Some c => if cn_plugged c then Done s else Done (on_conns (<[k := connecter_process_plug o random c]>) s)
      | None => Done s
      end
  | SComplete k ec random =>
      match ss_connecters s !! k with
      | Some c => let '(c, engine) := complete o ec random c in Done (on_attach (λ n, if engine then Datatypes.S n else n) (on_conns (<[k := c]>) s))
      | None => Done s
      end
  | SReap k =>
      match ss_connecters s !! k with
      | Some c => if cn_plugged c && (cn_done c || se_terminating (ss_sess s)) then Done (on_conns (delete k) s) else Done s
      | None => Done s
      end
  | STimers now =>
      r ← execute_timers ss_timers (λ l, on_timers (λ _, l)) fire_timer (length (ss_timers s)) now s;
      match r with Some (_, s) => Done s | None => Undef end
  | SOther f => Done (on_pipe f s)
  | SDestroy => guard (up && se_terminating (ss_sess s) && bool_decide (ss_connecters s = []) && bool_decide (ss_attach s = 0%nat)) s (sess_destroy s)
  end.

Fixpoint sess_run s (acts : list sess_act) : outcome (sess_sys W) :=
  match acts with [] => Done s | a :: acts => s ← sess_step s a; sess_run s acts end.

(** [session_base_t::create] and [launch_child]; an engine is on its way to a session of a listener. *)
Definition sess_start (timers : timer_map) (w : W) : sess_sys W := SessSys sess_new true false false [] (if co_active o then 0 else 1) timers w [] 0.
End session.
Arguments sess_act _ : clear implicits.

(** ** Timers *)

(** The timers of a sink *)
Definition timers_of (sink : nat) (l : timer_map) : list (nat * Z) := filter (λ x, x.1 = sink) l.*2.

Lemma timers_of_insert t x l sink : timers_of sink (timers_insert t x l) ≡ₚ timers_of sink ((t, x) :: l).
Proof.
  induction l as [|[t' x'] l IH]; [done|]. cbn [timers_insert]. destruct (decide (t' ≤ t)); [|done].
  unfold timers_of in *. cbn [fmap list_fmap snd] in *. transitivity (filter (λ y : nat * Z, y.1 = sink) (x' :: x :: l.*2)); [|by rewrite Permutation_swap].
  rewrite filter_cons, (filter_cons _ x'). by destruct (decide (x'.1 = sink)); rewrite IH.
Qed.

Lemma timers_of_mine t sink id l : timers_of sink ((t, (sink, id)) :: l) = (sink, id) :: timers_of sink l.
Proof. by apply filter_cons_True. Qed.
Lemma timers_of_other t sink x l : x.1 ≠ sink → timers_of sink ((t, x) :: l) = timers_of sink l.
Proof. intros Hx. exact (filter_cons_False (λ x : nat * Z, x.1 = sink) x l.*2 Hx). Qed.

Lemma timers_of_cancel sink id l : timers_of sink l = [(sink, id)] → timers_of sink (cancel_timer sink id l) = [].
Proof.
  induction l as [|[t x] l IH]; [done|]. cbn [cancel_timer]. unfold timers_of in *. cbn [fmap list_fmap]. rewrite filter_cons. cbn [snd fst] in *. intros H.
  destruct (decide (x = (sink, id))) as [->|Hx].
  - rewrite decide_True in H by done. by injection H.
  - cbn [fmap list_fmap]. rewrite filter_cons. cbn [snd] in *. destruct (decide (x.1 = sink)) as [Hs|]; [|by apply IH]. injection H as -> _. done.
Qed.

Section executing.
Context {S : Type} (timers : S → timer_map) (set_timers : timer_map → S → S) (fire : nat → Z → S → outcome S).

Definition due (current : Z) (l : timer_map) : timer_map := filter (λ x, x.1 ≤ current) l.

(** The handlers of due timers keep [I] and leave the others to come; no more than [fuel] timers are due. *)
Lemma execute_loop_spec (I : S → Prop) current :
  (∀ t sink id l s, I s → timers s = (t, (sink, id)) :: l → t ≤ current →
    ∃ s', fire sink id (set_timers l s) = Done s' ∧ I s' ∧ (length (due current (timers s')) ≤ length (due current l))%nat) →
  ∀ fuel s, I s → (length (due current (timers s)) ≤ fuel)%nat →
  ∃ r s', execute_loop timers set_timers fire fuel current s = Done (Some (r, s')) ∧ I s'
    ∧ match timers s' with [] => r = 0 | (t, _) :: _ => current < t ∧ r = u64 (t - current) end.
Proof.
  intros Hf fuel. induction fuel as [|fuel IH]; intros s HI Hl.
  all: cbn [execute_loop]; destruct (timers s) as [|[t [sink id]] l] eqn:El; [eexists _, s; split; [done|]; by rewrite El|].
  all: destruct (decide (current < t)) as [Ht|Ht]; [eexists _, s; split; [done|]; by rewrite El|].
  all: assert (Hd0 : due current ((t, (sink, id)) :: l) = (t, (sink, id)) :: due current l) by (apply filter_cons_True; simpl; lia).
  all: rewrite Hd0 in Hl; simpl in Hl.
  { lia. }
  destruct (Hf t sink id l s HI El) as (s' & -> & HI' & Hd); [lia|]. rewrite bind_Done. apply IH; [done|]. lia.
Qed.
End executing.

(** ** The pipe at the end of an engine *)

(** What the pipe promises: reading takes the first part; the other direction has no part in it. *)
Class SessionPipesOk (W : Type) {SP : SessionPipes W} := {
  sp_read_ok p w b l : sp_parts p w = b :: l → ∃ w', sp_read p w = (Some b, w') ∧ sp_parts p w' = l;
  sp_write_side p w : sp_parts p (sp_flush p (sp_rollback p w)) = sp_parts p w;
}.

Section safe.
Context {W : Type} {SP : SessionPipes W} {SPO : SessionPipesOk W} (o : conn_opts) (me : nat).
Implicit Types (s : sess_sys W) (e : sess_t).

(** The rest of a message that the engine has begun to read is in the pipe. *)
Definition whole s : Prop := se_incomplete_in (ss_sess s) = true → ∀ p, se_pipe (ss_sess s) = Some p → false ∈ sp_parts p (ss_world s).

(** The parts that are left after the rest of the message *)
Fixpoint after_message (l : list bool) : list bool := match l with [] => [] | b :: l => if b then after_message l else l end.

Lemma drain_message_spec fuel s p : se_pipe (ss_sess s) = Some p → se_incomplete_in (ss_sess s) = true → false ∈ sp_parts p (ss_world s) →
  (length (sp_parts p (ss_world s)) ≤ fuel)%nat →
  ∃ w, drain_message fuel s = Done (on_sess (set_incomplete_in false) (on_pipe (λ _, w) s)) ∧ sp_parts p w = after_message (sp_parts p (ss_world s)).
Proof.
  revert s. induction fuel as [|fuel IH]; intros s Hp Hi Hin Hl.
  { destruct (sp_parts p (ss_world s)); [by apply elem_of_nil in Hin|simpl in Hl; lia]. }
  cbn [drain_message]. rewrite Hi. unfold sess_pull_msg. rewrite Hp. destruct (sp_parts p (ss_world s)) as [|b l] eqn:El; [by apply elem_of_nil in Hin|].
  destruct (sp_read_ok p (ss_world s) b l El) as (w' & -> & El'). destruct b.
  - destruct (IH (on_sess (set_incomplete_in true) (on_pipe (λ _, w') s))) as (w & E & Ew); cbn; [done|done| | |].
    + rewrite El'. by apply elem_of_cons in Hin as [|].
    + rewrite El'. simpl in Hl. lia.
    + exists w. rewrite E. split; [done|]. rewrite Ew. cbn. by rewrite El'.
  - exists w'. split; [by destruct fuel|]. by rewrite El'.
Qed.

(** After an engine the pipe is at the beginning of a message. *)
Lemma clean_pipes_spec s p : se_pipe (ss_sess s) = Some p → whole s →
  ∃ w, clean_pipes s = Done (on_sess (set_incomplete_in false) (on_pipe (λ _, w) s))
    ∧ sp_parts p w = if se_incomplete_in (ss_sess s) then after_message (sp_parts p (ss_world s)) else sp_parts p (ss_world s).
Proof.
  intros Hp Hw. unfold clean_pipes. rewrite Hp.
  destruct (se_incomplete_in (ss_sess s)) eqn:Hi.
  - destruct (drain_message_spec (Datatypes.S (length (sp_parts p (sp_flush p (sp_rollback p (ss_world s)))))) (on_pipe (λ w, sp_flush p (sp_rollback p w)) s) p) as (w & E & Ew);
      cbn; [done|done|rewrite sp_write_side; by apply Hw|lia|]. cbn in Ew. rewrite sp_write_side in Ew. exists w. split; [exact E|exact Ew].
  - exists (sp_flush p (sp_rollback p (ss_world s))). split; [|apply sp_write_side]. cbn [drain_message]. cbn [on_pipe ss_sess]. rewrite Hi.
    f_equal. destruct s as [[]]. cbn in *. by rewrite Hi.
Qed.

(** ** Engines, connecters and the timer of a session *)

(** What may still give the session an engine: at most one. *)
Definition busy (c : connecter_t) : nat := if cn_plugged c then length (cn_pending c) else 1.
Definition sources s : nat := (if se_engine (ss_sess s) then 1 else 0) + ss_attach s + sum_list_with busy (ss_connecters s).

Definition conn_ok (c : connecter_t) : Prop := cn_plugged c = false → cn_pending c = [].

Record sess_inv s : Prop := {
  iv_one : (sources s ≤ 1)%nat;
  iv_conns : Forall conn_ok (ss_connecters s);
  iv_unplugged : ss_plugged s = false → co_active o = true → sources s = 0%nat;
  iv_passive : co_active o = false → ss_connecters s = [];
  iv_timer : timers_of me (ss_timers s) = if se_has_linger_timer (ss_sess s) then [(me, linger_timer_id)] else [];
  iv_linger : se_has_linger_timer (ss_sess s) = true → is_Some (se_pipe (ss_sess s)) ∧ ss_alive s = true;
  iv_pending : se_pending (ss_sess s) = true → se_terminating (ss_sess s) = false;
  iv_terminating : se_terminating (ss_sess s) = true → se_pipe (ss_sess s) = None ∧ se_terminating_pipes (ss_sess s) = ∅;
  iv_term : se_pending (ss_sess s) = true ∨ se_terminating (ss_sess s) = true ∨ se_has_linger_timer (ss_sess s) = true → ss_term s = true;
  iv_order : ss_term s = true → ss_plugged s = true;
}.

Lemma unplugged_quiet s : sess_inv s → ss_plugged s = false →
  se_pending (ss_sess s) = false ∧ se_terminating (ss_sess s) = false ∧ se_has_linger_timer (ss_sess s) = false.
Proof.
  intros H Hp. assert (Ht := iv_term s H). assert (Ho := iv_order s H). rewrite Hp in Ho.
  split_and!; apply not_true_is_false; intros E; discriminate Ho; apply Ht; auto.
Qed.

(** A connecter has at most one operation under way, and hands over an engine at its end. *)
Lemma add_reconnect_timer_pending r c : (length (cn_pending (add_reconnect_timer o r c)) ≤ Datatypes.S (length (cn_pending c)))%nat
  ∧ cn_plugged (add_reconnect_timer o r c) = cn_plugged c.
Proof.
  unfold add_reconnect_timer, get_new_reconnect_ivl. destruct (decide (0 < co_reconnect_ivl o)); [|split; [lia|done]].
  destruct (decide (0 < co_reconnect_ivl_max o)); cbn; rewrite length_app; cbn; split; (lia || done).
Qed.

Lemma connecter_plug_busy r c : conn_ok c → cn_plugged c = false → conn_ok (connecter_process_plug o r c) ∧ (busy (connecter_process_plug o r c) ≤ busy c)%nat.
Proof.
  intros Hc Hp. unfold connecter_process_plug. cbn [cn_delayed_start]. set (c1 := Connecter _ true _ _ _).
  assert (H1 : cn_pending c1 = []) by (by apply Hc). unfold busy, conn_ok. rewrite Hp.
  destruct (cn_delayed_start c).
  - destruct (add_reconnect_timer_pending r c1) as [Hl Hq]. rewrite Hq. rewrite H1 in Hl. cbn in *. split; [done|lia].
  - cbn. rewrite (Hc Hp). split; [done|cbn; lia].
Qed.

Lemma complete_busy ec r c c' b : conn_ok c → complete o ec r c = (c', b) → conn_ok c' ∧ ((if b then 1 else 0) + busy c' ≤ busy c)%nat.
Proof.
  intros Hc. unfold complete. destruct (cn_pending c) as [|a l] eqn:El; [intros [= <- <-]; split; [done|lia]|].
  assert (Hp : cn_plugged c = true) by (destruct (cn_plugged c) eqn:E; [done|]; by rewrite (Hc E) in El).
  set (c1 := Connecter _ _ _ l _).
  assert (HA : ∀ r, conn_ok (add_reconnect_timer o r c1) ∧ (busy (add_reconnect_timer o r c1) ≤ busy c)%nat).
  { intros r'. destruct (add_reconnect_timer_pending r' c1) as [Hl Hq]. unfold busy, conn_ok. rewrite Hq. cbn [c1 cn_plugged cn_pending] in *. rewrite Hp, El. cbn. split; [done|lia]. }
  assert (HS : ∀ a, conn_ok (start_op a c1) ∧ (busy (start_op a c1) ≤ busy c)%nat).
  { intros a'. unfold busy, conn_ok, start_op. cbn. rewrite Hp, El, length_app. cbn. split; [done|lia]. }
  assert (H0 : conn_ok c1 ∧ (1 + busy c1 ≤ busy c)%nat).
  { unfold busy, conn_ok. cbn. rewrite Hp, El. cbn. split; [done|lia]. }
  destruct a, ec; cbn [handle_reconnect_timer handle_resolve handle_connect]; intros [= <- <-]; unfold connecter_start;
    first [apply HS|apply HA|exact H0|destruct H0; split; [done|lia]].
Qed.

Lemma sum_insert (l : list connecter_t) k c c' : l !! k = Some c → (sum_list_with busy (<[k := c']> l) + busy c = sum_list_with busy l + busy c')%nat.
Proof. revert k. induction l as [|x l IH]; intros [|k] H; [done|done| |]; simpl in *; [injection H as ->; lia|]. specialize (IH k H). lia. Qed.

Lemma sum_delete (l : list connecter_t) k : (sum_list_with busy (delete k l) ≤ sum_list_with busy l)%nat.
Proof. revert k. induction l as [|x l IH]; intros [|k]; simpl; [lia..|]. specialize (IH k). lia. Qed.

Ltac inv_split :=
  constructor; unfold sources in *; cbn in *; try done; try (intros; congruence);
  try (intros [?|[?|?]]; solve [congruence|match goal with H : _ → ss_term _ = true |- _ => apply H; auto end]).

#[local] Arguments timers_of : simpl never.
#[local] Arguments linger_timer_id : simpl never.

(** What does not touch the fields of the invariant *)
Lemma inv_on_pipe f s : sess_inv s → sess_inv (on_pipe f s).
Proof. by intros []. Qed.
Lemma inv_send c s : sess_inv s → sess_inv (sess_send c s).
Proof. by intros []. Qed.
Lemma inv_incomplete b s : sess_inv s → sess_inv (on_sess (set_incomplete_in b) s).
Proof. by intros []. Qed.

Lemma inv_pull s : sess_inv s → sess_inv (sess_pull_msg s).2.
Proof.
  intros H. unfold sess_pull_msg. destruct (se_pipe (ss_sess s)) as [p|]; [|done]. destruct (sp_read p (ss_world s)) as [[b|] w]; [apply inv_incomplete|]; by apply inv_on_pipe.
Qed.

Lemma inv_cancel s : sess_inv s → sess_inv (cancel_linger me s) ∧ se_has_linger_timer (ss_sess (cancel_linger me s)) = false.
Proof.
  intros H. unfold cancel_linger. destruct (se_has_linger_timer (ss_sess s)) eqn:Hl; [|done]. split; [|done].
  destruct H. rewrite Hl in *. inv_split. by apply timers_of_cancel.
Qed.

(** Dropping the pipe together with its timer *)
Lemma inv_drop_pipe s (f : gset nat → gset nat) : sess_inv s → se_terminating (ss_sess s) = false →
  sess_inv (cancel_linger me (on_sess (λ e, set_pipe None (set_terminating_pipes (f (se_terminating_pipes e)) e)) s)).
Proof.
  intros H Ht. unfold cancel_linger. cbn. destruct (se_has_linger_timer (ss_sess s)) eqn:Hl; destruct H; rewrite Hl in *; inv_split; rewrite ?Hl; try done.
  by apply timers_of_cancel.
Qed.

Lemma inv_own_term s : sess_inv s → se_terminating (ss_sess s) = false → se_pipe (ss_sess s) = None → se_terminating_pipes (ss_sess s) = ∅ → se_pending (ss_sess s) = false →
  ss_term s = true → ∃ s', own_term s = Done s' ∧ sess_inv s'.
Proof.
  intros H Ht Hp Htp Hpe Htm. unfold own_term. rewrite Ht. cbn. eexists. split; [done|]. destruct H. inv_split.
Qed.

Lemma inv_pending_off s : sess_inv s → sess_inv (on_sess (set_pending false) s).
Proof. intros []. inv_split. Qed.

Lemma inv_pipe_terminated p s : sess_inv s → knows p s = true → ∃ s', sess_pipe_terminated me p s = Done s' ∧ sess_inv s'.
Proof.
  intros H Hk. unfold knows in Hk. unfold sess_pipe_terminated. rewrite Hk. cbn [slk_assert]. rewrite bind_Done. apply bool_decide_eq_true in Hk.
  assert (Ht : se_terminating (ss_sess s) = false).
  { destruct (se_terminating (ss_sess s)) eqn:Ht; [|done]. destruct (iv_terminating s H Ht) as [E1 E2]. rewrite E1, E2 in Hk. set_solver. }
  set (s1 := if decide (se_pipe (ss_sess s) = Some p) then _ else _).
  assert (H1 : sess_inv s1 ∧ se_terminating (ss_sess s1) = false ∧ (se_pending (ss_sess s1) = true → ss_term s1 = true)).
  { subst s1. destruct (decide (se_pipe (ss_sess s) = Some p)).
    - split; [|unfold cancel_linger; cbn; destruct (se_has_linger_timer (ss_sess s)); cbn; (split; [done|]); intros; apply (iv_term s H); auto].
      assert (HD := inv_drop_pipe s (λ l, l) H Ht). replace (on_sess _ s) with (on_sess (set_pipe None) s) in HD; [done|]. by destruct s as [[]].
    - split; [|cbn; split; [done|]; intros; apply (iv_term s H); auto]. destruct H. inv_split. }
  clearbody s1. destruct H1 as (H1 & Ht1 & Htm1).
  destruct (decide (se_pending (ss_sess s1) = true ∧ se_pipe (ss_sess s1) = None ∧ se_terminating_pipes (ss_sess s1) = ∅)) as [(Hpe & Hp & Htp)|]; [|eauto].
  apply inv_own_term; [by apply inv_pending_off|done..|by apply Htm1].
Qed.

Lemma inv_new_connecter b s : sess_inv s → co_active o = true → ss_plugged s = true → sources s = 0%nat → ∃ s', sess_start_connecting o b s = Done s' ∧ sess_inv s'.
Proof.
  intros H Ha Hp H0. unfold sess_start_connecting. rewrite Ha. cbn. eexists. split; [done|]. destruct H. inv_split.
  - rewrite sum_list_with_app. cbn. lia.
  - apply Forall_app. split; [done|]. by repeat constructor.
Qed.

Lemma inv_term_endpoint s : sess_inv s → sess_inv (sess_term_endpoint o s).
Proof. intros H. unfold sess_term_endpoint. destruct (co_endpoint o); [by apply inv_send|done]. Qed.

Lemma inv_reconnect s : sess_inv s → co_active o = true → ss_plugged s = true → sources s = 0%nat → ∃ s', sess_reconnect o me s = Done s' ∧ sess_inv s'.
Proof.
  intros H Ha Hp H0. unfold sess_reconnect. set (s1 := match se_pipe (ss_sess s) with Some _ => _ | None => _ end).
  assert (H1 : sess_inv s1 ∧ ss_plugged s1 = true ∧ sources s1 = 0%nat).
  { subst s1. destruct (se_pipe (ss_sess s)) as [p|] eqn:Epi; [|done]. destruct (co_immediate o); [|done].
    assert (Ht : se_terminating (ss_sess s) = false).
    { destruct (se_terminating (ss_sess s)) eqn:Ht; [|done]. destruct (iv_terminating s H Ht). congruence. }
    split; [by apply (inv_drop_pipe (on_pipe _ s) (λ l, l ∪ {[p]})); [apply inv_on_pipe|]|].
    unfold cancel_linger, sources. cbn. by destruct (se_has_linger_timer (ss_sess s)). }
  clearbody s1. destruct H1 as (H1 & Hp1 & H01). destruct (decide (0 < co_reconnect_ivl o)); [by apply inv_new_connecter|].
  eexists. split; [done|by apply inv_term_endpoint].
Qed.

Lemma inv_engine_ready s : sess_inv s → ∃ s', sess_engine_ready s = Done s' ∧ sess_inv s'.
Proof.
  intros H. unfold sess_engine_ready. destruct (decide (se_pipe (ss_sess s) = None ∧ se_terminating (ss_sess s) = false)) as [[Hp Ht]|]; [|eauto].
  eexists. split; [done|]. apply inv_send. destruct H. inv_split. intros Hl. destruct (iv_linger0 Hl). eauto.
Qed.

Lemma inv_process_attach ready s : sess_inv s → (0 < ss_attach s)%nat → ∃ s', sess_process_attach ready (on_attach pred s) = Done s' ∧ sess_inv s'.
Proof.
  intros H Ha. unfold sess_process_attach. cbn. assert (H1 := iv_one s H). unfold sources in H1.
  destruct (se_engine (ss_sess s)) eqn:He; [lia|]. cbn.
  assert (H' : sess_inv (on_sess (set_engine true) (on_attach pred s))).
  { destruct H. inv_split; rewrite ?He in *; [lia|]. intros Hp Hac. specialize (iv_unplugged0 Hp Hac). lia. }
  destruct ready; [by apply inv_engine_ready|]. eauto.
Qed.

Lemma inv_engine_off s : sess_inv s → se_engine (ss_sess s) = true → sess_inv (on_sess (set_engine false) s) ∧ sources (on_sess (set_engine false) s) = 0%nat.
Proof.
  intros H He. assert (H1 := iv_one s H). unfold sources in *. rewrite He in H1. cbn. split; [|lia]. destruct H. rewrite ?He in *. inv_split; lia.
Qed.

Lemma inv_check_read s : sess_inv s → sess_inv (sess_check_read s).
Proof. intros H. unfold sess_check_read. destruct (se_pipe (ss_sess s)); [by apply inv_on_pipe|done]. Qed.

Lemma inv_engine_error reason s : sess_inv s → ss_plugged s = true → se_engine (ss_sess s) = true → whole s → ∃ s', sess_engine_error o me reason s = Done s' ∧ sess_inv s'.
Proof.
  intros H Hp He Hw. unfold sess_engine_error. destruct (inv_engine_off s H He) as [H1 H0]. set (s1 := on_sess (set_engine false) s) in *.
  assert (E : ∃ s2, match se_pipe (ss_sess s1) with Some _ => clean_pipes s1 | None => Done s1 end = Done s2 ∧ sess_inv s2 ∧ ss_plugged s2 = true ∧ sources s2 = 0%nat).
  { destruct (se_pipe (ss_sess s1)) as [p|] eqn:Epi; [|by exists s1]. destruct (clean_pipes_spec s1 p) as (w & -> & _); [done|exact Hw|].
    eexists. split; [done|]. split; [by apply inv_incomplete, inv_on_pipe|done]. }
  destruct E as (s2 & -> & H2 & Hp2 & H02). rewrite bind_Done.
  assert (G : ∃ s3, (if se_pending (ss_sess s2) then Done (match se_pipe (ss_sess s2) with Some p => on_pipe (sp_terminate p false) s2 | None => s2 end) else Done (sess_terminate s2)) = Done s3 ∧ sess_inv s3).
  { destruct (se_pending (ss_sess s2)); (eexists; split; [done|]).
    - destruct (se_pipe (ss_sess s2)); [by apply inv_on_pipe|done].
    - unfold sess_terminate. destruct (se_terminating (ss_sess s2)); [done|by apply inv_send]. }
  assert (R : ∃ s3, (match reason with ErrProtocol => if se_pending (ss_sess s2) then Done (match se_pipe (ss_sess s2) with Some p => on_pipe (sp_terminate p false) s2 | None => s2 end) else Done (sess_terminate s2)
     | _ => if co_active o then sess_reconnect o me s2 else if se_pending (ss_sess s2) then Done (match se_pipe (ss_sess s2) with Some p => on_pipe (sp_terminate p false) s2 | None => s2 end) else Done (sess_terminate s2) end) = Done s3 ∧ sess_inv s3).
  { destruct reason; [exact G|..]; (destruct (co_active o) eqn:Ha; [by apply inv_reconnect|exact G]). }
  destruct R as (s3 & R & H3). rewrite R, bind_Done. eexists. split; [done|by apply inv_check_read].
Qed.

Lemma inv_process_term now linger s : sess_inv s → ss_alive s = true → ss_plugged s = true → ss_term s = false →
  ∃ s', sess_process_term me now linger (SessSys (ss_sess s) (ss_alive s) (ss_plugged s) true (ss_connecters s) (ss_attach s) (ss_timers s) (ss_world s) (ss_sent s) (ss_next s)) = Done s' ∧ sess_inv s'.
Proof.
  intros H Hal Hpl Htm. set (s0 := SessSys _ _ _ true _ _ _ _ _ _).
  assert (H0 : sess_inv s0) by (destruct H; by constructor).
  assert (Hn := iv_term s H). rewrite Htm in Hn.
  assert (Hpe : se_pending (ss_sess s0) = false) by (apply not_true_is_false; intros ?; discriminate Hn; auto).
  assert (Ht : se_terminating (ss_sess s0) = false) by (apply not_true_is_false; intros ?; discriminate Hn; auto).
  assert (Hl : se_has_linger_timer (ss_sess s0) = false) by (apply not_true_is_false; intros ?; discriminate Hn; auto).
  unfold sess_process_term. rewrite Hpe. cbn [negb slk_assert]. rewrite bind_Done.
  destruct (decide (se_pipe (ss_sess s0) = None ∧ se_terminating_pipes (ss_sess s0) = ∅)) as [[Hp Htp]|]; [by apply inv_own_term|].
  assert (H1 : sess_inv (on_sess (set_pending true) s0)) by (destruct H0; inv_split).
  destruct (se_pipe (ss_sess s0)) as [p|] eqn:Epi; [|eauto].
  assert (E : ∃ s1, (if decide (0 < linger) then assert! negb (se_has_linger_timer (ss_sess (on_sess (set_pending true) s0)));;
      Done (on_sess (set_has_linger true) (on_timers (add_timer now linger me linger_timer_id) (on_sess (set_pending true) s0))) else Done (on_sess (set_pending true) s0)) = Done s1 ∧ sess_inv s1).
  { destruct (decide (0 < linger)); [|eauto]. change (se_has_linger_timer (ss_sess (on_sess (set_pending true) s0))) with (se_has_linger_timer (ss_sess s0)). rewrite Hl. cbn [negb slk_assert]. rewrite bind_Done.
    eexists. split; [done|]. destruct H1. cbn in Hl. inv_split.
    rewrite Hl in iv_timer0. apply Permutation_singleton_r. unfold add_timer. by rewrite timers_of_insert, timers_of_mine, iv_timer0. }
  destruct E as (s1 & E & H2). rewrite E, bind_Done. eexists. split; [done|]. destruct (se_engine (ss_sess s0)); [|apply inv_check_read]; by apply inv_on_pipe.
Qed.

(** A timer of the loop: it is the linger timer of a session that is alive and has a pipe. *)
Lemma inv_fire t sink id l s : sess_inv s → ss_timers s = (t, (sink, id)) :: l →
  ∃ s', fire_timer me sink id (on_timers (λ _, l) s) = Done s' ∧ sess_inv s' ∧ ss_timers s' = l.
Proof.
  intros H El. unfold fire_timer. assert (Hm := iv_timer s H). rewrite El in Hm. destruct (decide (sink = me)) as [->|Hne].
  - rewrite timers_of_mine in Hm. destruct (se_has_linger_timer (ss_sess s)) eqn:Hl; [|done]. injection Hm as -> Hm.
    destruct (iv_linger s H Hl) as [[p Hp] Ha]. cbn [on_timers ss_alive]. rewrite Ha. unfold sess_timer_event. rewrite bool_decide_eq_true_2 by done. cbn [slk_assert]. rewrite bind_Done.
    cbn. rewrite Hp. eexists. split; [done|]. split; [|done]. destruct H. inv_split.
  - rewrite timers_of_other in Hm by done. eexists. split; [done|]. split; [|done]. destruct H. inv_split.
Qed.

Lemma inv_timers now s : sess_inv s → ∃ r s', execute_timers ss_timers (λ l, on_timers (λ _, l)) (fire_timer me) (length (ss_timers s)) now s = Done (Some (r, s')) ∧ sess_inv s'.
Proof.
  intros H. unfold execute_timers. destruct (ss_timers s) as [|x l] eqn:El; [by eexists _, s|]. rewrite <- El. clear El x l.
  destruct (execute_loop_spec ss_timers (λ l, on_timers (λ _, l)) (fire_timer me) sess_inv now) with (fuel := length (ss_timers s)) (s := s) as (r & s' & E & H' & _); [|done|apply length_filter|by eauto].
  intros t sink id l s1 H1 El _. destruct (inv_fire t sink id l s1 H1 El) as (s' & -> & H' & El'). exists s'. split; [done|]. split; [done|]. by rewrite El'.
Qed.

Lemma inv_insert_connecter s k c c' n : sess_inv s → ss_connecters s !! k = Some c → conn_ok c' → (n + busy c' ≤ busy c)%nat →
  sess_inv (on_attach (λ m, n + m)%nat (on_conns (<[k := c']>) s)).
Proof.
  intros H Hk Hc Hb. assert (Hs := sum_insert (ss_connecters s) k c c' Hk). destruct H. inv_split.
  - lia.
  - by apply Forall_insert.
  - intros Hp Ha. specialize (iv_unplugged0 Hp Ha). lia.
  - intros Ha. by rewrite (iv_passive0 Ha) in Hk.
Qed.

(** Engine errors find the rest of the message. *)
Definition act_ok s (a : sess_act W) : Prop := match a with SEngineError _ => whole s | _ => True end.

Lemma sess_step_inv s a : sess_inv s → act_ok s a → ∃ s', sess_step o me s a = Done s' ∧ sess_inv s'.
Proof.
  intros H Hok. unfold sess_step, guard. destruct a as [| |now linger|ready| | | | | |reason|p|p|p|k r|k ec r|k|now|f|].
  - destruct (ss_alive s && negb (ss_plugged s) && _) eqn:E; [|eauto]. apply andb_true_iff in E as [E Hp]. apply andb_true_iff in E as [_ E]. apply negb_true_iff in E. unfold sess_attach_pipe. cbn [ss_sess].
    destruct (unplugged_quiet s H E) as (Hpe & Ht & Hl). rewrite Ht. cbn [negb slk_assert]. rewrite bind_Done, Hp. cbn [slk_assert]. rewrite bind_Done. eexists. split; [done|]. destruct H. inv_split.
  - destruct (ss_alive s && negb (ss_plugged s)) eqn:E; [|eauto]. apply andb_true_iff in E as [_ E]. apply negb_true_iff in E.
    unfold sess_process_plug. set (s1 := SessSys _ _ true _ _ _ _ _ _ _). assert (H1 : sess_inv s1) by (destruct H; constructor; try done).
    destruct (co_active o) eqn:Ha; [|eauto]. apply inv_new_connecter; [done..|]. by apply (iv_unplugged s H).
  - destruct (ss_alive s && ss_plugged s && negb (ss_term s)) eqn:E; [|eauto]. apply andb_true_iff in E as [E1 E2]. apply andb_true_iff in E1 as [E1 E3]. apply negb_true_iff in E2. by apply inv_process_term.
  - destruct (ss_alive s && ss_plugged s && _) eqn:E; [|eauto]. apply andb_true_iff in E as [_ E]. apply bool_decide_eq_true in E. by apply inv_process_attach.
  - destruct (ss_alive s && ss_plugged s); [|eauto]. eexists. split; [done|by apply inv_term_endpoint].
  - destruct (ss_alive s && ss_plugged s && _); [|eauto]. by apply inv_engine_ready.
  - destruct (ss_alive s && ss_plugged s && _); [|eauto]. eexists. split; [done|by apply inv_pull].
  - destruct (ss_alive s && ss_plugged s && _); [|eauto]. eexists. split; [done|]. unfold sess_flush. destruct (se_pipe (ss_sess s)); [by apply inv_on_pipe|done].
  - destruct (ss_alive s && ss_plugged s && _); [|eauto]. eexists. split; [done|]. unfold sess_rollback. destruct (se_pipe (ss_sess s)); [by apply inv_on_pipe|done].
  - destruct (ss_alive s && ss_plugged s && _) eqn:E; [|eauto]. apply andb_true_iff in E as [E1 E2]. apply andb_true_iff in E1 as [_ E1]. by apply inv_engine_error.
  - destruct (ss_alive s && ss_plugged s && _) eqn:E; [|eauto]. apply andb_true_iff in E as [_ E]. unfold sess_read_activated, knows in *. apply bool_decide_eq_true in E.
    destruct (decide (se_pipe (ss_sess s) ≠ Some p)); [rewrite slk_assert_bind by naive_solver; eauto|]. eexists. split; [done|]. destruct (se_engine (ss_sess s)); [done|by apply inv_on_pipe].
  - destruct (ss_alive s && ss_plugged s && _) eqn:E; [|eauto]. apply andb_true_iff in E as [_ E]. unfold sess_write_activated, knows in *. apply bool_decide_eq_true in E.
    destruct (decide (se_pipe (ss_sess s) ≠ Some p)); [rewrite slk_assert_bind by naive_solver; eauto|eauto].
  - destruct (ss_alive s && ss_plugged s && _) eqn:E; [|eauto]. apply andb_true_iff in E as [_ E]. by apply inv_pipe_terminated.
  - destruct (ss_connecters s !! k) as [c|] eqn:Ek; [|eauto]. destruct (cn_plugged c) eqn:Ep; [eauto|]. eexists. split; [done|].
    assert (Hc : conn_ok c) by (by eapply Forall_lookup_1; [apply iv_conns|]). destruct (connecter_plug_busy r c Hc Ep) as [Hc' Hb]. by apply (inv_insert_connecter s k c _ 0).
  - destruct (ss_connecters s !! k) as [c|] eqn:Ek; [|eauto]. destruct (complete o ec r c) as [c' b] eqn:Ec. eexists. split; [done|].
    assert (Hc : conn_ok c) by (by eapply Forall_lookup_1; [apply iv_conns|]). destruct (complete_busy ec r c c' b Hc Ec) as [Hc' Hb].
    destruct b; [by apply (inv_insert_connecter s k c _ 1)|by apply (inv_insert_connecter s k c _ 0)].
  - destruct (ss_connecters s !! k) as [c|] eqn:Ek; [|eauto]. destruct (cn_plugged c && _); [|eauto]. eexists. split; [done|].
    assert (Hs := sum_delete (ss_connecters s) k). destruct H. inv_split; [lia|by apply Forall_delete| |].
    + intros Hp Ha. specialize (iv_unplugged0 Hp Ha). lia.
    + intros Ha. by rewrite (iv_passive0 Ha).
  - destruct (inv_timers now s H) as (r & s' & -> & H'). rewrite bind_Done. eauto.
  - eexists. split; [done|by apply inv_on_pipe].
  - destruct (ss_alive s && ss_plugged s && _ && _ && _) eqn:E; [|eauto]. apply andb_true_iff in E as [E _]. apply andb_true_iff in E as [E _]. apply andb_true_iff in E as [_ E].
    destruct (iv_terminating s H E) as [Hp _]. unfold sess_destroy. rewrite slk_assert_bind by done. eexists. split; [done|].
    destruct (inv_cancel s H) as [H1 Hl]. destruct H1. inv_split. 
Qed.

(** Every engine error of the run finds the rest of the message that the engine was reading. *)
Fixpoint run_ok s (acts : list (sess_act W)) : Prop :=
  match acts with [] => True | a :: acts => act_ok s a ∧ ∀ s', sess_step o me s a = Done s' → run_ok s' acts end.

Lemma sess_run_inv acts s : sess_inv s → run_ok s acts → ∃ s', sess_run o me s acts = Done s' ∧ sess_inv s'.
Proof.
  revert s. induction acts as [|a acts IH]; intros s H Hok; cbn [sess_run run_ok] in *; [eauto|]. destruct Hok as [Ha Hr].
  destruct (sess_step_inv s a H Ha) as (s' & E & H'). rewrite E, bind_Done. by apply IH; [|apply Hr].
Qed.

Lemma sess_start_inv l w : timers_of me l = [] → sess_inv (sess_start o l w).
Proof. intros Hl. constructor; unfold sources; cbn; try done; [by destruct (co_active o); cbn; lia|by intros _ ->|by intros [|[|]]]. Qed.

(** C14: a session for its whole life.  Commands, completions of the connecters, events of the engine and of the pipes, timers
    and the end of the linger time come in any order; engine errors find the rest of a message that was being read.
    No assertion of the session fails, and no timer of the I/O thread is for a session that is gone: the session never
    gets a second engine (at most one engine, attach command or operation of a connecter exists), its timers in the I/O
    thread are exactly its linger timer, if it has one, which has a pipe to end; and a dead session has none. *)
Theorem session_safe l w acts : timers_of me l = [] → run_ok (sess_start o l w) acts →
  ∃ s, sess_run o me (sess_start o l w) acts = Done s
    ∧ ((if se_engine (ss_sess s) then 1 else 0) + ss_attach s + sum_list_with (λ c, length (cn_pending c)) (ss_connecters s) ≤ 1)%nat
    ∧ timers_of me (ss_timers s) = (if se_has_linger_timer (ss_sess s) then [(me, linger_timer_id)] else [])
    ∧ (se_has_linger_timer (ss_sess s) = true → ss_alive s = true ∧ is_Some (se_pipe (ss_sess s))).
Proof.
  intros Hl Hok. destruct (sess_run_inv acts _ (sess_start_inv l w Hl) Hok) as (s & E & H). exists s. split; [exact E|]. split; [|split; [apply H|]].
  - assert (H1 := iv_one s H). unfold sources in H1.
    assert (Hb : (sum_list_with (λ c, length (cn_pending c)) (ss_connecters s) ≤ sum_list_with busy (ss_connecters s))%nat); [|lia].
    assert (Hc := iv_conns s H). clear -Hc. induction Hc as [|c cs Hc _ IH]; [done|]. simpl. unfold busy at 1. destruct (cn_plugged c) eqn:Ep; [lia|]. rewrite (Hc Ep). simpl. lia.
  - intros Hh. by destruct (iv_linger s H Hh).
Qed.
End safe.

(** ** Connecting again *)

Section backoff.
Context (o : conn_opts).

(** An attempt that fails, at the connect or (of tcp) already at the resolver, and the wait after it *)
Definition fail_attempt (at_connect : bool) (random : Z) (c : connecter_t) : connecter_t :=
  let c := if co_tcp o && at_connect then (complete o EcOk random c).1 else c in (complete o EcError random c).1.

(** The intervals waited in a list of failing attempts, and the connecter after them *)
Fixpoint attempts (l : list (bool * Z)) (c : connecter_t) : list Z * connecter_t :=
  match l with
  | [] => ([], c)
  | (at_connect, random) :: l =>
      let c := fail_attempt at_connect random c in
      match cn_pending c with
      | [AWait i] => let '(ivls, c) := attempts l (complete o EcOk random c).1 in (i :: ivls, c)
      | _ => ([], c)
      end
  end.

Definition connecting (c : connecter_t) : Prop := cn_pending c = [if co_tcp o then AResolve else AConnect] ∧ cn_done c = false.

Lemma fail_attempt_spec b r c : connecting c → 0 < co_reconnect_ivl o →
  let '(i, c') := get_new_reconnect_ivl o r c in
  cn_pending (fail_attempt b r c) = [AWait i] ∧ connecting (complete o EcOk r (fail_attempt b r c)).1
  ∧ cn_current_reconnect_ivl (complete o EcOk r (fail_attempt b r c)).1 = cn_current_reconnect_ivl c'.
Proof.
  intros [Hp Hd] Hi. destruct c as [ds pl cur pend done]. cbn in Hp, Hd. subst. unfold fail_attempt, connecting.
  destruct (co_tcp o) eqn:Et, b; cbn; unfold add_reconnect_timer; rewrite decide_True by done; unfold get_new_reconnect_ivl, connecter_start; rewrite ?Et; cbn;
    destruct (decide (0 < co_reconnect_ivl_max o)); cbn; rewrite ?Et; done.
Qed.

(** The current interval before the attempt [k] *)
Definition at_attempt (k : nat) (c : connecter_t) : Prop :=
  match k with
  | O => cn_current_reconnect_ivl c = -1
  | Datatypes.S k => cn_current_reconnect_ivl c = Z.min (co_reconnect_ivl_max o) (co_reconnect_ivl o * 2 ^ Z.of_nat k)
  end.

Lemma backoff_step k r c : 0 < co_reconnect_ivl o → 0 < co_reconnect_ivl_max o ≤ int_max → at_attempt k c →
  let '(i, c') := get_new_reconnect_ivl o r c in
  i = Z.min (co_reconnect_ivl_max o) (co_reconnect_ivl o * 2 ^ Z.of_nat k) ∧ cn_current_reconnect_ivl c' = i.
Proof.
  intros Hi Hm Hk. unfold get_new_reconnect_ivl. rewrite decide_True by lia. cbn. split; [|done].
  assert (E : (if decide (cn_current_reconnect_ivl c = -1) then co_reconnect_ivl o else if decide (int_max / 2 < cn_current_reconnect_ivl c) then int_max else cn_current_reconnect_ivl c * 2) = 
    if decide (k = 0%nat) then co_reconnect_ivl o else if decide (int_max / 2 < cn_current_reconnect_ivl c) then int_max else cn_current_reconnect_ivl c * 2).
  { destruct k as [|k]; cbn in Hk; [by rewrite Hk|]. rewrite decide_False; [done|]. assert (0 < 2 ^ Z.of_nat k) by (apply Z.pow_pos_nonneg; lia). nia. }
  rewrite E. clear E. destruct k as [|k]; cbn in Hk.
  - rewrite (decide_True (P := 0%nat = 0%nat)) by done. change (2 ^ Z.of_nat 0) with 1. destruct (decide (co_reconnect_ivl_max o < co_reconnect_ivl o)); lia.
  - rewrite (decide_False (P := Datatypes.S k = 0%nat)) by done. rewrite Hk. replace (Z.of_nat (Datatypes.S k)) with (Z.of_nat k + 1) by lia. rewrite Z.pow_add_r by lia.
    assert (Hp : 0 < 2 ^ Z.of_nat k) by (apply Z.pow_pos_nonneg; lia). set (q := 2 ^ Z.of_nat k) in *. assert (Hq : int_max / 2 = 1073741823) by done. assert (int_max = 2147483647) by done.
    destruct (decide (int_max / 2 < _)); (destruct (decide (co_reconnect_ivl_max o < _))); lia.
Qed.

Lemma attempts_spec l c k : 0 < co_reconnect_ivl o → 0 < co_reconnect_ivl_max o ≤ int_max → connecting c → at_attempt k c →
  ∃ c', attempts l c = ((λ j, Z.min (co_reconnect_ivl_max o) (co_reconnect_ivl o * 2 ^ Z.of_nat j)) <$> seq k (length l), c') ∧ connecting c'.
Proof.
  intros Hi Hm. revert c k. induction l as [|[b r] l IH]; intros c k Hc Hk; [by exists c|]. cbn [attempts].
  assert (H1 := fail_attempt_spec b r c Hc Hi). assert (H2 := backoff_step k r c Hi Hm Hk). destruct (get_new_reconnect_ivl o r c) as [i c'].
  destruct H1 as (-> & H1 & H3), H2 as (-> & H2). destruct (IH _ (Datatypes.S k) H1) as (c2 & -> & Hc2); [cbn; by rewrite H3|]. by exists c2.
Qed.

Lemma jitter_spec l c : 0 < co_reconnect_ivl o ≤ int_max → co_reconnect_ivl_max o ≤ 0 → connecting c →
  cn_current_reconnect_ivl c = -1 ∨ cn_current_reconnect_ivl c = co_reconnect_ivl o →
  ∃ ivls c', attempts l c = (ivls, c') ∧ connecting c' ∧ length ivls = length l
    ∧ Forall (λ i, co_reconnect_ivl o ≤ i < 2 * co_reconnect_ivl o ∧ i ≤ int_max) ivls.
Proof.
  intros Hi Hm. revert c. induction l as [|[b r] l IH]; intros c Hc Hk; [by exists [], c|]. cbn [attempts].
  assert (H1 := fail_attempt_spec b r c Hc (proj1 Hi)). unfold get_new_reconnect_ivl in H1. rewrite decide_False in H1 by lia.
  assert (E : (if decide (cn_current_reconnect_ivl c = -1) then co_reconnect_ivl o else cn_current_reconnect_ivl c) = co_reconnect_ivl o).
  { destruct (decide (cn_current_reconnect_ivl c = -1)); lia. }
  rewrite E in H1. destruct H1 as (-> & H1 & H3). cbn in H3.
  destruct (IH _ H1) as (ivls & c' & -> & Hc' & Hl & Hf); [by right|]. eexists _, c'. split; [done|]. split; [done|]. split; [cbn; lia|].
  constructor; [|done]. assert (Hr := Z.mod_pos_bound r (co_reconnect_ivl o) (proj1 Hi)). destruct (decide (co_reconnect_ivl o < int_max - r `mod` co_reconnect_ivl o)); lia.
Qed.

(** C37: connecting again, with a reconnect interval that is positive (with 0 or -1, which SL_RECONNECT_IVL accepts too, the first failure is
    final, see [failure_is_final]).  However many attempts fail, and wherever they fail, the connecter waits and tries again, and the
    first attempt that succeeds hands one engine to the session.  With a maximal interval, the wait after failure k
    (from 0) is exactly the reconnect interval times 2^k, but at most the maximum; without one it is between the
    interval and twice the interval.  No interval exceeds the range of an int. *)
Theorem connecter_backoff l : 0 < co_reconnect_ivl o ≤ int_max → co_reconnect_ivl_max o ≤ int_max →
  let '(ivls, c) := attempts l (connecter_process_plug o 0 (connecter_new false)) in
  length ivls = length l
  ∧ Forall (λ i, 0 < i ≤ int_max) ivls
  ∧ (0 < co_reconnect_ivl_max o → ∀ k i, ivls !! k = Some i → i = Z.min (co_reconnect_ivl_max o) (co_reconnect_ivl o * 2 ^ Z.of_nat k))
  ∧ (co_reconnect_ivl_max o ≤ 0 → Forall (λ i, co_reconnect_ivl o ≤ i < 2 * co_reconnect_ivl o) ivls)
  ∧ ∀ r, let '(c, engine) := complete o EcOk r (if co_tcp o then (complete o EcOk r c).1 else c) in engine = true ∧ cn_done c = true ∧ cn_pending c = [].
Proof.
  intros Hi Hm. assert (Hc : connecting (connecter_process_plug o 0 (connecter_new false))) by (by split).
  assert (Hend : ∀ c, connecting c → ∀ r, let '(c, engine) := complete o EcOk r (if co_tcp o then (complete o EcOk r c).1 else c) in engine = true ∧ cn_done c = true ∧ cn_pending c = []).
  { intros [ds pl cur pend d] [Hp Hd] r. cbn in Hp, Hd. subst. by destruct (co_tcp o) eqn:Et. }
  destruct (decide (0 < co_reconnect_ivl_max o)) as [Hmp|Hmp].
  - destruct (attempts_spec l _ 0 (proj1 Hi) (conj Hmp Hm) Hc) as (c' & -> & Hc'); [done|]. split; [by rewrite length_fmap, length_seq|]. split_and!; [| |lia|by apply Hend].
    + apply Forall_fmap, Forall_forall. intros k _. cbn. assert (0 < 2 ^ Z.of_nat k) by (apply Z.pow_pos_nonneg; lia). nia.
    + intros _ k i Hk. apply list_lookup_fmap_Some in Hk as (j & -> & Hj). apply lookup_seq in Hj as [-> _]. done.
  - apply Z.nlt_ge in Hmp. destruct (jitter_spec l _ Hi Hmp Hc) as (ivls & c' & -> & Hc' & Hl & Hf); [by left|]. split; [done|]. split_and!; [|lia| |by apply Hend].
    + eapply Forall_impl; [exact Hf|]. intros i Hx. cbv beta in *. lia.
    + intros _. eapply Forall_impl; [exact Hf|]. intros i Hx. cbv beta in *. lia.
Qed.

(** Without an interval the first failure is the last: nothing is tried any more, and the session is not told. *)
Lemma failure_is_final b r c : co_reconnect_ivl o ≤ 0 → connecting c → cn_pending (fail_attempt b r c) = [] ∧ cn_done (fail_attempt b r c) = false.
Proof.
  intros Hi [Hp Hd]. destruct c as [ds pl cur pend done]. cbn in Hp, Hd. subst. unfold fail_attempt.
  destruct (co_tcp o) eqn:Et, b; cbn; unfold add_reconnect_timer; rewrite decide_False by lia; done.
Qed.
End backoff.

(** ** Examples *)

(** A pipe that is a list of parts; a termination without delay takes them away. *)
#[local] Instance toy_pipes : SessionPipes (list bool) := {|
  sp_parts p w := w;
  sp_read p w := match w with [] => (None, []) | b :: w => (Some b, w) end;
  sp_flush p w := w;
  sp_rollback p w := w;
  sp_check_read p w := w;
  sp_hiccup p w := w;
  sp_terminate p delay w := if delay then w else [];
  sp_new p w := [];
|}.

#[local] Instance toy_pipes_ok : SessionPipesOk (list bool).
Proof. split; [intros p w b l H; cbn in *; subst; by exists l|done]. Qed.

Definition toy_opts (immediate : bool) : conn_opts := ConnOpts 100 1000 immediate true true true.

(** The first attempt fails, the second gives an engine, which fails in the middle of a message; the session is closed with
    a linger time of 50 ms while it connects again. *)
Definition toy_connect : list (sess_act (list bool)) := [SComplete 0 EcOk 0; SComplete 0 EcOk 0; SReap 0; SAttach false; SReady].
Definition toy_life : list (sess_act (list bool)) :=
  [SPlug; SConnPlug 0 0; SComplete 0 EcError 0; SComplete 0 EcOk 0] ++ toy_connect
  ++ [SOther (λ _, [true; false; false]); SPull; SEngineError ErrConnection; SConnPlug 0 0; STerm 1000 50; STimers 1049; STimers 1050; SPipeTerminated 0; SReap 0; SDestroy; STimers 9999].

Lemma session_safe_witness :
  (∃ s, sess_run (toy_opts false) 7 (sess_start (toy_opts false) [(2000, (3%nat, 32))] []) toy_life = Done s
    ∧ timers_of 7 (ss_timers s) = (if se_has_linger_timer (ss_sess s) then [(7%nat, linger_timer_id)] else []))
  ∧ match sess_run (toy_opts false) 7 (sess_start (toy_opts false) [(2000, (3%nat, 32))] []) toy_life with Done s => ss_alive s = false | _ => False end.
Proof.
  split; [|by vm_compute].
  destruct (session_safe (toy_opts false) 7 [(2000, (3%nat, 32))] [] toy_life) as (s & E & _ & H & _); [vm_compute; reflexivity| |exists s; exact (conj E H)].
  unfold toy_life, toy_connect. cbn [app].
  repeat (split; [first [exact I|intros _ p _; cbn; set_solver]|intros s' E; vm_compute in E; injection E as <-]). exact I.
Defined.

Lemma connecter_backoff_witness :
  (attempts (toy_opts false) [(true, 0); (false, 0); (true, 0); (true, 0); (true, 0)] (connecter_process_plug (toy_opts false) 0 (connecter_new false))).1 !! 4%nat = Some 1000
  ∧ length (attempts (toy_opts false) [(true, 0); (false, 0); (true, 0); (true, 0); (true, 0)] (connecter_process_plug (toy_opts false) 0 (connecter_new false))).1 = 5%nat.
Proof.
  assert (H := connecter_backoff (toy_opts false) [(true, 0); (false, 0); (true, 0); (true, 0); (true, 0)]).
  split; [by vm_compute|]. destruct (attempts _ _ _) as [ivls c]. apply H; [by vm_compute|by vm_compute].
Defined.

(** ** Against the intention *)

(** An engine that fails in the middle of a message whose rest cannot be read any more, because the pipe is already ending,
    stops the process: the loop of [clean_pipes] asserts that it can. *)
Lemma engine_error_mid_message {W} {SP : SessionPipes W} o me reason (s : sess_sys W) p w' :
  se_pipe (ss_sess s) = Some p → se_incomplete_in (ss_sess s) = true → sp_read p (sp_flush p (sp_rollback p (ss_world s))) = (None, w') →
  sess_engine_error o me reason s = Abort.
Proof. intros Hp Hi Hr. unfold sess_engine_error. cbn. rewrite Hp. unfold clean_pipes. cbn. rewrite Hp. cbn. rewrite Hi. unfold sess_pull_msg. cbn. rewrite Hp, Hr. done. Qed.

(** So it happens when a session is closed without a linger time and the engine fails before the pipe has ended. *)
Lemma closed_mid_message :
  sess_run (toy_opts false) 7 (sess_start (toy_opts false) [] [])
    ([SPlug; SConnPlug 0 0] ++ toy_connect ++ [SOther (λ _, [true; false]); SPull; STerm 1000 0; SEngineError ErrConnection]) = Abort.
Proof. by vm_compute. Qed.

(** A session that is asked to terminate while its pipe lingers makes a new pipe when its connection is restored
    (option SL_IMMEDIATE): the end of the old pipe then does not end the session, and the socket has a pipe again that it
    had disconnected. *)
Lemma disconnected_reconnects :
  match sess_run (toy_opts true) 7 (sess_start (toy_opts true) [] [])
    ([SPlug; SConnPlug 0 0] ++ toy_connect ++ [STerm 1000 (-1); SEngineError ErrConnection; SConnPlug 0 0; SComplete 0 EcOk 0] ++ toy_connect ++ [SPipeTerminated 0; STimers 99999]) with
  | Done s => ss_sent s = [ToBind 0; ToBind 1] ∧ se_pending (ss_sess s) = true ∧ se_terminating (ss_sess s) = false ∧ se_pipe (ss_sess s) = Some 1%nat
  | _ => False
  end.
Proof. by vm_compute. Qed.

(** ** Listeners *)

(** [li_accepting]: accepts under way.  [li_sessions]: the sessions that were launched with an engine each. *)
Record listener_t := Listener { li_open : bool; li_accepting : nat; li_sessions : nat }.

Definition start_accept (l : listener_t) : listener_t := Listener (li_open l) (Datatypes.S (li_accepting l)) (li_sessions l).

(** [create_engine]: an engine, a session for it, and the command attach *)
Definition listener_create_engine (l : listener_t) : listener_t := Listener (li_open l) (li_accepting l) (Datatypes.S (li_sessions l)).

Definition handle_accept (ec : asio_ec) (l : listener_t) : listener_t :=
  match ec with EcOk => start_accept (listener_create_engine l) | _ => l end.

(** [close]: what is under way is aborted *)
Definition listener_close (l : listener_t) : listener_t := Listener false (li_accepting l) (li_sessions l).

(** An accept completes. *)
Definition accept_completes (ec : asio_ec) (l : listener_t) : listener_t :=
  match li_accepting l with O => l | Datatypes.S n => handle_accept ec (Listener (li_open l) n (li_sessions l)) end.

(** Every connection gets a session, until the first error; the listener is then open but deaf for good. *)
Lemma accept_error_is_final (k : nat) l ecs : li_accepting l = 1%nat →
  let l' := foldl (λ l ec, accept_completes ec l) l (replicate k EcOk) in
  li_accepting l' = 1%nat ∧ li_sessions l' = (k + li_sessions l)%nat
  ∧ foldl (λ l ec, accept_completes ec l) (accept_completes EcError l') ecs = Listener (li_open l) 0 (k + li_sessions l).
Proof.
  revert l. induction k as [|k IH]; intros l Hl l'.
  - subst l'. cbn. split; [done|]. split; [done|]. unfold accept_completes at 2. rewrite Hl. cbn. induction ecs; done.
  - subst l'. cbn [replicate foldl]. destruct (IH (accept_completes EcOk l)) as (E1 & E2 & E3); [unfold accept_completes; by rewrite Hl|].
    split; [exact E1|]. rewrite E3, E2. unfold accept_completes. rewrite Hl. cbn. split; [lia|]. f_equal. lia.
Qed.
