(* ===== verification/IoThread.v ===== *)
(** The poller of an I/O thread (src/io/asio/poller.cpp) and the I/O thread on it (src/io/io_thread.cpp).

    The poller keeps an entry for every descriptor and waits for it with asynchronous operations of asio; a handler that is
    called gives the event to the sink and waits again.  A wait that has been cancelled completes later, with an error; others may fail too, and asio
    may refuse a descriptor.  The waits complete in any order; what sinks do with the poller in their events is part of the action.  Of asio this uses: a
    wait completes at most once, and [cancel] makes the waits of the descriptor complete with an error. *)
From stdpp Require Import gmap.
From S2P Require Import Prelude.

Local Open Scope sl_scope.

(** Reading or writing *)
Inductive wait_dir := WRead | WWrite.
#[export] Instance wait_dir_eq_dec : EqDecision wait_dir.
Proof. solve_decision. Defined.

(** [fe_socket]: the descriptor has been given to asio. *)
Record fd_entry := FdEntry { fe_sink : nat; fe_pollin : bool; fe_pollout : bool; fe_reading : bool; fe_writing : bool; fe_socket : bool }.

(** A wait under way: its handle, its direction, and whether it was cancelled. *)
Record wait_t := Wait { wt_handle : Z; wt_dir : wait_dir; wt_cancelled : bool }.

#[export] Instance wait_eq_dec : EqDecision wait_t.
Proof. solve_decision. Defined.

Record asio_poller := AsioPoller { ap_entries : gmap Z fd_entry; ap_load : Z; ap_waits : list wait_t }.

Definition poller_empty : asio_poller := AsioPoller ∅ 0 [].

Definition fe_poll (d : wait_dir) (e : fd_entry) : bool := match d with WRead => fe_pollin e | WWrite => fe_pollout e end.
Definition fe_waiting (d : wait_dir) (e : fd_entry) : bool := match d with WRead => fe_reading e | WWrite => fe_writing e end.
Definition set_poll (d : wait_dir) (b : bool) (e : fd_entry) : fd_entry :=
  match d with
  | WRead => FdEntry (fe_sink e) b (fe_pollout e) (fe_reading e) (fe_writing e) (fe_socket e)
  | WWrite => FdEntry (fe_sink e) (fe_pollin e) b (fe_reading e) (fe_writing e) (fe_socket e)
  end.
Definition set_waiting (d : wait_dir) (b : bool) (e : fd_entry) : fd_entry :=
  match d with
  | WRead => FdEntry (fe_sink e) (fe_pollin e) (fe_pollout e) b (fe_writing e) (fe_socket e)
  | WWrite => FdEntry (fe_sink e) (fe_pollin e) (fe_pollout e) (fe_reading e) b (fe_socket e)
  end.
Definition set_socket (b : bool) (e : fd_entry) : fd_entry := FdEntry (fe_sink e) (fe_pollin e) (fe_pollout e) (fe_reading e) (fe_writing e) b.

Definition put_entry (h : Z) (e : fd_entry) (p : asio_poller) : asio_poller := AsioPoller (<[h := e]> (ap_entries p)) (ap_load p) (ap_waits p).

(** The handle of a descriptor is its number. *)
Definition add_fd (fd : Z) (sink : nat) (p : asio_poller) : asio_poller :=
  AsioPoller (<[fd := FdEntry sink false false false false false]> (ap_entries p)) (ap_load p + 1) (ap_waits p).

(** [cancel]: the waits of the handle complete with an error. *)
Definition cancel_waits (h : Z) (ws : list wait_t) : list wait_t := (λ w, if decide (wt_handle w = h) then Wait h (wt_dir w) true else w) <$> ws.

Definition rm_fd (h : Z) (p : asio_poller) : asio_poller :=
  match ap_entries p !! h with
  | None => p
  | Some e => AsioPoller (delete h (ap_entries p)) (ap_load p - 1) (if fe_socket e then cancel_waits h (ap_waits p) else ap_waits p)
  end.

Section polling.
(** [assign h]: asio takes the descriptor. *)
Context (assign : Z → bool).

(** One direction of [start_polling] *)
Definition arm (h : Z) (d : wait_dir) (p : asio_poller) : asio_poller :=
  match ap_entries p !! h with
  | None => p
  | Some e =>
      if fe_poll d e && negb (fe_waiting d e) then
        AsioPoller (<[h := set_waiting d true e]> (ap_entries p)) (ap_load p) (ap_waits p ++ [Wait h d false])
      else p
  end.

Definition start_polling (h : Z) (p : asio_poller) : asio_poller :=
  match ap_entries p !! h with
  | None => p
  | Some e =>
      if fe_socket e then arm h WWrite (arm h WRead p)
      else if assign h then arm h WWrite (arm h WRead (put_entry h (set_socket true e) p))
      else p
  end.

Definition set_poll_on (d : wait_dir) (h : Z) (p : asio_poller) : asio_poller :=
  start_polling h (match ap_entries p !! h with Some e => put_entry h (set_poll d true e) p | None => p end).
Definition reset_poll (d : wait_dir) (h : Z) (p : asio_poller) : asio_poller :=
  match ap_entries p !! h with Some e => put_entry h (set_poll d false e) p | None => p end.

Definition set_pollin := set_poll_on WRead.
Definition set_pollout := set_poll_on WWrite.
Definition reset_pollin := reset_poll WRead.
Definition reset_pollout := reset_poll WWrite.

(** What sinks and others do with a poller *)
Inductive poller_op :=
| OpAdd (fd : Z) (sink : nat) | OpRm (h : Z) | OpSetIn (h : Z) | OpSetOut (h : Z) | OpResetIn (h : Z) | OpResetOut (h : Z).

Definition run_op (p : asio_poller) (x : poller_op) : asio_poller :=
  match x with
  | OpAdd fd sink => add_fd fd sink p
  | OpRm h => rm_fd h p
  | OpSetIn h => set_pollin h p
  | OpSetOut h => set_pollout h p
  | OpResetIn h => reset_pollin h p
  | OpResetOut h => reset_pollout h p
  end.

(** The handler of a wait: the sink to be called, and the poller before the call.  [ec]: an error. *)
Definition wait_handler (ec : bool) (h : Z) (d : wait_dir) (p : asio_poller) : option nat * asio_poller :=
  match ap_entries p !! h with
  | None => (None, p)
  | Some e => (if negb ec && fe_poll d e then Some (fe_sink e) else None, put_entry h (set_waiting d false e) p)
  end.

(** The wait number [i] completes, with an error ([ec]) or not; one that was cancelled has an error.  [event] is what the sink does in [in_event]
    or [out_event]. *)
Definition wait_completes (i : nat) (ec : bool) (event : list poller_op) (p : asio_poller) : asio_poller :=
  match ap_waits p !! i with
  | None => p
  | Some w =>
      let p := AsioPoller (ap_entries p) (ap_load p) (delete i (ap_waits p)) in
      match wait_handler (wt_cancelled w || ec) (wt_handle w) (wt_dir w) p with
      | (None, p) => p
      | (Some _, p) => start_polling (wt_handle w) (foldl run_op p event)
      end
  end.

Inductive poller_act := POp (x : poller_op) | PWait (i : nat) (ec : bool) (event : list poller_op).

Definition poller_step (p : asio_poller) (a : poller_act) : asio_poller :=
  match a with POp x => run_op p x | PWait i ec event => wait_completes i ec event p end.

(** ** Always waiting *)

(** The waits of a handle and a direction that were not cancelled; those that were. *)
Definition live (h : Z) (d : wait_dir) (ws : list wait_t) : nat := length (filter (λ w, w = Wait h d false) ws).
#[local] Arguments live : simpl never.
Definition stale (h : Z) (ws : list wait_t) : Prop := ∃ d, Wait h d true ∈ ws.
#[export] Instance stale_dec h ws : Decision (stale h ws).
Proof. refine (cast_if (decide (Wait h WRead true ∈ ws ∨ Wait h WWrite true ∈ ws))); [abstract (destruct o; eexists; eauto)|abstract (intros [[] ?]; auto)]. Defined.

(** [F]: the handles and directions that need not be waited for. *)
Record poller_inv (F : Z → wait_dir → Prop) (p : asio_poller) : Prop := {
  pi_waits h d : live h d (ap_waits p) = match ap_entries p !! h with Some e => if fe_waiting d e then 1%nat else 0%nat | None => 0%nat end;
  pi_armed h d e : ap_entries p !! h = Some e → fe_poll d e = true → fe_waiting d e = true ∨ F h d;
  pi_socket h d e : ap_entries p !! h = Some e → fe_waiting d e = true → fe_socket e = true;
  pi_stale h e : ap_entries p !! h = Some e → ¬ stale h (ap_waits p);
  pi_load : ap_load p = Z.of_nat (size (ap_entries p));
}.

(** A descriptor is added once, and not before the waits of an older one with its number have completed. *)
Definition op_ok (p : asio_poller) (x : poller_op) : Prop :=
  match x with OpAdd fd _ => ap_entries p !! fd = None ∧ ¬ stale fd (ap_waits p) | _ => True end.

Lemma live_snoc h d ws w : live h d (ws ++ [w]) = (live h d ws + if decide (w = Wait h d false) then 1 else 0)%nat.
Proof. unfold live. rewrite filter_app, length_app, filter_cons. by destruct (decide (w = Wait h d false)). Qed.

Lemma live_delete_wait h d ws i w : ws !! i = Some w → live h d ws = (live h d (delete i ws) + if decide (w = Wait h d false) then 1 else 0)%nat.
Proof.
  intros Hi. unfold live. rewrite <- (take_drop_middle ws i w Hi) at 1. rewrite delete_take_drop, !filter_app, !length_app, filter_cons.
  destruct (decide (w = Wait h d false)); cbn; lia.
Qed.

Lemma live_cancel h h' d ws : live h d (cancel_waits h' ws) = if decide (h = h') then 0%nat else live h d ws.
Proof.
  unfold live, cancel_waits. induction ws as [|w ws IH]; cbn [fmap list_fmap]; [by destruct (decide (h = h'))|]. rewrite !filter_cons.
  destruct (decide (wt_handle w = h')) as [Hw|Hw], (decide (h = h')) as [Hh|Hh].
  - by rewrite decide_False by congruence.
  - rewrite decide_False by congruence. rewrite decide_False; [done|]. intros ->. by cbn in Hw.
  - rewrite decide_False; [done|]. intros ->. by cbn in Hw.
  - destruct (decide (w = Wait h d false)); cbn; by rewrite IH.
Qed.

Lemma stale_cancel h h' ws : h ≠ h' → stale h (cancel_waits h' ws) → stale h ws.
Proof.
  intros Hne [d Hd]. apply list_elem_of_fmap in Hd as (w & Hw & Hin). exists d. destruct (decide (wt_handle w = h')); [by injection Hw as ->|by rewrite Hw].
Qed.

Lemma stale_app h ws w : wt_cancelled w = false → stale h (ws ++ [w]) → stale h ws.
Proof. intros Hw [d Hd]. apply elem_of_app in Hd as [Hd|Hd]; [by exists d|]. apply list_elem_of_singleton in Hd. by subst w. Qed.

Lemma stale_delete h i ws : stale h (delete i ws) → stale h ws.
Proof. intros [d Hd]. exists d. eapply elem_of_submseteq; [exact Hd|apply submseteq_delete]. Qed.

Lemma set_waiting_waiting d d' b e : fe_waiting d' (set_waiting d b e) = if decide (d = d') then b else fe_waiting d' e.
Proof. by destruct d, d'. Qed.
Lemma set_waiting_poll d d' b e : fe_poll d' (set_waiting d b e) = fe_poll d' e.
Proof. by destruct d, d'. Qed.
Lemma set_poll_poll d d' b e : fe_poll d' (set_poll d b e) = if decide (d = d') then b else fe_poll d' e.
Proof. by destruct d, d'. Qed.
Lemma set_poll_waiting d d' b e : fe_waiting d' (set_poll d b e) = fe_waiting d' e.
Proof. by destruct d, d'. Qed.
Lemma set_poll_socket d b e : fe_socket (set_poll d b e) = fe_socket e.
Proof. by destruct d. Qed.
Lemma set_waiting_socket d b e : fe_socket (set_waiting d b e) = fe_socket e.
Proof. by destruct d. Qed.

Lemma inv_weaken (F G : Z → wait_dir → Prop) p : (∀ h d, F h d → G h d) → poller_inv F p → poller_inv G p.
Proof. intros HFG []. constructor; try done. intros h d e He Hp. destruct (pi_armed0 h d e He Hp); auto. Qed.

(** Replacing an entry by one that waits for the same *)
Lemma inv_put F G h e e' p : poller_inv F p → ap_entries p !! h = Some e → (∀ d, fe_waiting d e' = fe_waiting d e) → (fe_socket e = true → fe_socket e' = true) →
  (∀ h' d, h' ≠ h → F h' d → G h' d) → (∀ d, fe_poll d e' = true → fe_waiting d e' = true ∨ G h d) → poller_inv G (put_entry h e' p).
Proof.
  intros [] He Hw Hs HF Hg. constructor; cbn.
  - intros h' d. rewrite pi_waits0. destruct (decide (h' = h)) as [->|]; [by rewrite lookup_insert_eq, He, Hw|by rewrite lookup_insert_ne].
  - intros h' d e1. destruct (decide (h' = h)) as [->|]; [rewrite lookup_insert_eq; intros [= <-]; auto|rewrite lookup_insert_ne by done]. intros H1 H2. destruct (pi_armed0 h' d e1 H1 H2); auto.
  - intros h' d e1. destruct (decide (h' = h)) as [->|]; [rewrite lookup_insert_eq; intros [= <-]; rewrite Hw; eauto|rewrite lookup_insert_ne by done; eauto].
  - intros h' e1. destruct (decide (h' = h)) as [->|]; [eauto|rewrite lookup_insert_ne by done; eauto].
  - rewrite map_size_insert, He. done.
Qed.

(** The direction is waited for. *)
Lemma inv_arm F h d p e : poller_inv F p → ap_entries p !! h = Some e → fe_socket e = true →
  poller_inv (λ h' d', F h' d' ∧ (h', d') ≠ (h, d)) (arm h d p)
  ∧ ∃ e', ap_entries (arm h d p) !! h = Some e' ∧ fe_socket e' = true.
Proof.
  intros H He Hs. unfold arm. rewrite He. destruct (fe_poll d e && negb (fe_waiting d e)) eqn:E.
  - apply andb_true_iff in E as [Ep Ew]. apply negb_true_iff in Ew. destruct H. split; [|eexists; split; [apply lookup_insert_eq|by rewrite set_waiting_socket]]. constructor; cbn.
    + intros h' d'. rewrite live_snoc, pi_waits0. destruct (decide (h' = h)) as [->|].
      * rewrite lookup_insert_eq, He, set_waiting_waiting. destruct (decide (d = d')) as [->|]; [rewrite Ew, decide_True by done; done|rewrite decide_False by congruence; lia].
      * rewrite lookup_insert_ne by done. rewrite decide_False by congruence. lia.
    + intros h' d' e1. destruct (decide (h' = h)) as [->|].
      * rewrite lookup_insert_eq. intros [= <-]. rewrite set_waiting_poll, set_waiting_waiting. destruct (decide (d = d')); [auto|]. intros Hp. destruct (pi_armed0 h d' e He Hp); [auto|right]. split; [done|congruence].
      * rewrite lookup_insert_ne by done. intros H1 H2. destruct (pi_armed0 h' d' e1 H1 H2); [auto|right]. split; [done|congruence].
    + intros h' d' e1. destruct (decide (h' = h)) as [->|]; [rewrite lookup_insert_eq; intros [= <-] _; by rewrite set_waiting_socket|rewrite lookup_insert_ne by done; eauto].
    + intros h' e1 H1 Hst. apply stale_app in Hst; [|done]. destruct (decide (h' = h)) as [->|]; [by eapply pi_stale0|rewrite lookup_insert_ne in H1 by done; by eapply pi_stale0].
    + rewrite map_size_insert, He. done.
  - split; [|eauto]. destruct H. constructor; try done. intros h' d' e1 H1 H2. destruct (pi_armed0 h' d' e1 H1 H2) as [|HF]; [auto|].
    destruct (decide ((h', d') = (h, d))) as [[= -> ->]|]; [|auto]. left. rewrite He in H1. injection H1 as <-. rewrite H2 in E. by destruct (fe_waiting d e).
Qed.

Lemma inv_arm_both F h p e : poller_inv F p → ap_entries p !! h = Some e → fe_socket e = true →
  poller_inv (λ h' d', F h' d' ∧ h' ≠ h) (arm h WWrite (arm h WRead p)).
Proof.
  intros H He Hs. destruct (inv_arm F h WRead p e H He Hs) as [H1 (e1 & He1 & Hs1)]. destruct (inv_arm _ h WWrite _ e1 H1 He1 Hs1) as [H2 _].
  eapply inv_weaken; [|exact H2]. intros h' d' [[HF Hr] Hw]. split; [done|]. intros ->. by destruct d'.
Qed.

(** A descriptor that asio does not take is not waited for. *)
Definition unassigned_in (F : Z → wait_dir → Prop) : Prop := ∀ h d, assign h = false → F h d.

Lemma inv_start_polling F h p : poller_inv F p → unassigned_in F → poller_inv (λ h' d', F h' d' ∧ (h' ≠ h ∨ assign h' = false)) (start_polling h p).
Proof.
  intros H HF. unfold start_polling. destruct (ap_entries p !! h) as [e|] eqn:He.
  - destruct (fe_socket e) eqn:Hs; [eapply inv_weaken; [|by eapply inv_arm_both]; naive_solver|]. destruct (assign h) eqn:Ha.
    + eapply inv_weaken; [|eapply inv_arm_both; [|apply lookup_insert_eq|done]; apply (inv_put F F h e); [done..|]]; [naive_solver|].
      intros d Hp. exact (pi_armed F p H h d e He Hp).
    + destruct H. constructor; try done. intros h' d e1 H1 H2. destruct (pi_armed0 h' d e1 H1 H2); [auto|right]. split; [done|]. destruct (decide (h' = h)); subst; auto.
  - destruct H. constructor; try done. intros h' d e1 H1 H2. destruct (pi_armed0 h' d e1 H1 H2); [auto|right]. split; [done|]. left. intros ->. by rewrite He in H1.
Qed.

Lemma inv_set_poll F d h p : poller_inv F p → unassigned_in F → poller_inv F (set_poll_on d h p).
Proof.
  intros H HF. unfold set_poll_on.
  assert (H1 : poller_inv (λ h' d', F h' d' ∨ h' = h) (match ap_entries p !! h with Some e => put_entry h (set_poll d true e) p | None => p end)).
  { destruct (ap_entries p !! h) as [e|] eqn:He; [|eapply inv_weaken; [|exact H]; auto].
    eapply (inv_put F); [done|exact He|by intros; rewrite set_poll_waiting|by rewrite set_poll_socket|auto|auto]. }
  eapply inv_weaken; [|apply inv_start_polling; [exact H1|by left; apply HF]]. intros h' d' [[|] [?|?]]; [done|done|done|by apply HF].
Qed.

Lemma inv_reset_poll F d h p : poller_inv F p → poller_inv F (reset_poll d h p).
Proof.
  intros H. unfold reset_poll. destruct (ap_entries p !! h) as [e|] eqn:He; [|done].
  eapply (inv_put F F); [done|exact He|by intros; rewrite set_poll_waiting|by rewrite set_poll_socket|auto|].
  intros d'. rewrite set_poll_poll, set_poll_waiting. destruct (decide (d = d')); [done|]. intros Hp. exact (pi_armed F p H h d' e He Hp).
Qed.

Lemma inv_add F fd sink p : poller_inv F p → ap_entries p !! fd = None → ¬ stale fd (ap_waits p) → poller_inv F (add_fd fd sink p).
Proof.
  intros [] Hn Hst. constructor; cbn.
  - intros h d. rewrite pi_waits0. destruct (decide (h = fd)) as [->|]; [by rewrite lookup_insert_eq, Hn; destruct d|by rewrite lookup_insert_ne].
  - intros h d e. destruct (decide (h = fd)) as [->|]; [rewrite lookup_insert_eq; intros [= <-]; by destruct d|rewrite lookup_insert_ne by done; eauto].
  - intros h d e. destruct (decide (h = fd)) as [->|]; [rewrite lookup_insert_eq; intros [= <-]; by destruct d|rewrite lookup_insert_ne by done; eauto].
  - intros h e. destruct (decide (h = fd)) as [->|]; [done|rewrite lookup_insert_ne by done; eauto].
  - rewrite map_size_insert, Hn. lia.
Qed.

Lemma inv_rm F h p : poller_inv F p → poller_inv F (rm_fd h p).
Proof.
  intros H. unfold rm_fd. destruct (ap_entries p !! h) as [e|] eqn:He; [|done].
  assert (Hlive : ∀ h' d, live h' d (if fe_socket e then cancel_waits h (ap_waits p) else ap_waits p) = if decide (h' = h) then 0%nat else live h' d (ap_waits p)).
  { intros h' d. destruct (fe_socket e) eqn:Hs; [apply live_cancel|]. destruct (decide (h' = h)) as [->|]; [|done].
    rewrite (pi_waits F p H h d), He. destruct (fe_waiting d e) eqn:Hw; [|done]. by rewrite (pi_socket F p H h d e He Hw) in Hs. }
  destruct H. constructor; cbn.
  - intros h' d. rewrite Hlive, pi_waits0. destruct (decide (h' = h)) as [->|]; [by rewrite lookup_delete_eq|by rewrite lookup_delete_ne].
  - intros h' d e1 H1%lookup_delete_Some. naive_solver.
  - intros h' d e1 H1%lookup_delete_Some. naive_solver.
  - intros h' e1 [Hne H1]%lookup_delete_Some Hst. apply (pi_stale0 h' e1 H1). destruct (fe_socket e); [by eapply stale_cancel|done].
  - rewrite map_size_delete, He. assert (size (ap_entries p) ≠ 0%nat) by (intros E0%map_size_empty_inv; rewrite E0 in He; done). lia.
Qed.

Lemma inv_op F p x : poller_inv F p → unassigned_in F → op_ok p x → poller_inv F (run_op p x).
Proof.
  intros H HF Hok. destruct x as [fd sink|h|h|h|h|h]; cbn; [by destruct Hok; apply inv_add|by apply inv_rm|by apply inv_set_poll..|by apply inv_reset_poll|by apply inv_reset_poll].
Qed.

Fixpoint ops_ok (p : asio_poller) (xs : list poller_op) : Prop :=
  match xs with [] => True | x :: xs => op_ok p x ∧ ops_ok (run_op p x) xs end.

#[export] Instance op_ok_dec p x : Decision (op_ok p x).
Proof. destruct x; apply _. Defined.
#[export] Instance ops_ok_dec p xs : Decision (ops_ok p xs).
Proof. revert p. induction xs; apply _. Defined.

Lemma inv_ops F xs p : poller_inv F p → unassigned_in F → ops_ok p xs → poller_inv F (foldl run_op p xs).
Proof. intros H HF. revert p H. induction xs as [|x xs IH]; intros p H Hok; [done|]. destruct Hok. apply IH; [by apply inv_op|done]. Qed.

Definition act_ok (p : asio_poller) (a : poller_act) : Prop :=
  match a with
  | POp x => op_ok p x
  | PWait i ec event =>
      match ap_waits p !! i with
      | None => True
      | Some w => ops_ok (wait_handler (wt_cancelled w || ec) (wt_handle w) (wt_dir w) (AsioPoller (ap_entries p) (ap_load p) (delete i (ap_waits p)))).2 event
      end
  end.

#[export] Instance act_ok_dec p a : Decision (act_ok p a).
Proof. destruct a as [x|i ec event]; cbn; [apply _|]. destruct (ap_waits p !! i); apply _. Defined.

(** The wait that an action ends with an error although it was not cancelled *)
Definition failed_wait (p : asio_poller) (a : poller_act) : list (Z * wait_dir) :=
  match a with
  | PWait i true _ => match ap_waits p !! i with Some (Wait h d false) => [(h, d)] | _ => [] end
  | _ => []
  end.

Lemma inv_wait F i ec event p : poller_inv F p → unassigned_in F → (∀ h d, (h, d) ∈ failed_wait p (PWait i ec event) → F h d) → act_ok p (PWait i ec event) → poller_inv F (wait_completes i ec event p).
Proof.
  intros H HF Hfail Hok. unfold wait_completes. cbn in Hok. destruct (ap_waits p !! i) as [w|] eqn:Hi; [|done]. destruct w as [h d c]. cbn [wt_cancelled wt_handle wt_dir] in *.
  set (p1 := AsioPoller (ap_entries p) (ap_load p) (delete i (ap_waits p))) in *. unfold wait_handler in *. cbn [ap_entries p1] in *.
  destruct c.
  - (* cancelled: its descriptor has been removed *)
    assert (Hn : ap_entries p !! h = None).
    { destruct (ap_entries p !! h) as [e|] eqn:He; [|done]. destruct (pi_stale _ p H h e He). exists d. by eapply list_elem_of_lookup_2. }
    rewrite Hn. destruct H. constructor; cbn; try done.
    + intros h' d'. rewrite <- pi_waits0, (live_delete_wait h' d' (ap_waits p) i _ Hi). rewrite decide_False by congruence. lia.
    + intros h' e1 H1 Hst%stale_delete. by eapply pi_stale0.
  - assert (Hl := live_delete_wait h d (ap_waits p) i _ Hi). rewrite decide_True in Hl by done. rewrite (pi_waits _ p H h d) in Hl.
    destruct (ap_entries p !! h) as [e|] eqn:He; [|lia]. destruct (fe_waiting d e) eqn:Hw; [|lia].
    assert (H1 : poller_inv (λ h' d', F h' d' ∨ (h', d') = (h, d) ∧ fe_poll d e = true) (put_entry h (set_waiting d false e) p1)).
    { destruct H. constructor; cbn.
      - intros h' d'. specialize (pi_waits0 h' d'). rewrite (live_delete_wait h' d' (ap_waits p) i _ Hi) in pi_waits0. destruct (decide (h' = h)) as [->|].
        + rewrite lookup_insert_eq, set_waiting_waiting. rewrite He in pi_waits0. destruct (decide (d = d')) as [<-|].
          * rewrite decide_True in pi_waits0 by done. rewrite Hw in pi_waits0. lia.
          * rewrite decide_False in pi_waits0 by congruence. lia.
        + rewrite lookup_insert_ne by done. rewrite decide_False in pi_waits0 by congruence. lia.
      - intros h' d' e1. destruct (decide (h' = h)) as [->|].
        + rewrite lookup_insert_eq. intros [= <-]. rewrite set_waiting_poll, set_waiting_waiting. destruct (decide (d = d')) as [<-|]; [auto|]. intros Hp. destruct (pi_armed0 h d' e He Hp); auto.
        + rewrite lookup_insert_ne by done. intros H1 H2. destruct (pi_armed0 h' d' e1 H1 H2); auto.
      - intros h' d' e1. destruct (decide (h' = h)) as [->|]; [rewrite lookup_insert_eq; intros [= <-] _; rewrite set_waiting_socket; by eapply pi_socket0|rewrite lookup_insert_ne by done; eauto].
      - intros h' e1 H1 Hst%stale_delete. destruct (decide (h' = h)) as [->|]; [by eapply pi_stale0|rewrite lookup_insert_ne in H1 by done; by eapply pi_stale0].
      - rewrite map_size_insert, He. done. }
    cbn [orb] in *. destruct ec; cbn [negb andb].
    { eapply inv_weaken; [|exact H1]. intros h' d' [?|[[= -> ->] _]]; [done|]. apply Hfail. cbn. rewrite Hi. by left. }
    destruct (fe_poll d e) eqn:Hp.
    + eapply inv_weaken; [|apply inv_start_polling; [apply inv_ops; [exact H1| |exact Hok]|]]; [|by left; apply HF..].
      cbn. intros h' d' [[?|[[= -> ->] _]] [?|?]]; [done..|by apply HF].
    + eapply inv_weaken; [|exact H1]. by intros h' d' [?|[_ ?]].
Qed.

Lemma inv_empty F : poller_inv F poller_empty.
Proof. by constructor. Qed.

Fixpoint acts_ok (p : asio_poller) (acts : list poller_act) : Prop :=
  match acts with [] => True | a :: acts => act_ok p a ∧ acts_ok (poller_step p a) acts end.

#[export] Instance acts_ok_dec p acts : Decision (acts_ok p acts).
Proof. revert p. induction acts; apply _. Defined.

(** The waits that have failed in a run *)
Fixpoint failed_waits (p : asio_poller) (acts : list poller_act) : list (Z * wait_dir) :=
  match acts with [] => [] | a :: acts => failed_wait p a ++ failed_waits (poller_step p a) acts end.

Lemma inv_run F acts p : poller_inv F p → unassigned_in F → (∀ h d, (h, d) ∈ failed_waits p acts → F h d) → acts_ok p acts → poller_inv F (foldl poller_step p acts).
Proof.
  revert p. induction acts as [|a acts IH]; intros p H HF Hfail Hok; [done|]. destruct Hok as [Ha Hok]. cbn in Hfail. setoid_rewrite elem_of_app in Hfail.
  apply IH; [|done|auto|done]. destruct a; [by apply inv_op|apply inv_wait; auto].
Qed.

(** C29: an I/O thread does not go deaf.  Whatever is added, removed, switched on and off, by others or by the sinks in
    their events, and in whatever order the waits complete: a descriptor whose input (or output) is switched on is
    waited for exactly once, if asio takes the descriptor and no wait for its input (or output) has failed without being cancelled; no descriptor
    is ever waited for twice in one direction, one that has been removed not at all, and the load is the number of descriptors.
    After a wait that failed, or while asio does not take the descriptor, the code does not wait although the descriptor is switched on
    ([failed_wait_is_deaf]).  A descriptor is added once, and its number must not be used again before the cancelled waits of the old one have completed. *)
Theorem poller_never_deaf acts : acts_ok poller_empty acts →
  let p := foldl poller_step poller_empty acts in
  (∀ h d e, ap_entries p !! h = Some e → fe_poll d e = true → assign h = true → (h, d) ∉ failed_waits poller_empty acts → live h d (ap_waits p) = 1%nat)
  ∧ (∀ h d, (live h d (ap_waits p) ≤ 1)%nat)
  ∧ (∀ h d, ap_entries p !! h = None → live h d (ap_waits p) = 0%nat)
  ∧ ap_load p = Z.of_nat (size (ap_entries p)).
Proof.
  intros Hok p. assert (H : poller_inv (λ h d, assign h = false ∨ (h, d) ∈ failed_waits poller_empty acts) p) by (apply inv_run; [apply inv_empty|by left|by right|done]).
  clearbody p. destruct H. split_and!; [| |intros h d Hn; by rewrite pi_waits0, Hn|done].
  - intros h d e He Hp Ha Hf. rewrite pi_waits0, He. destruct (pi_armed0 h d e He Hp) as [->|[?|?]]; [done|congruence|done].
  - intros h d. rewrite pi_waits0. destruct (ap_entries p !! h) as [e|]; [destruct (fe_waiting d e)|]; lia.
Qed.
End polling.

(** ** The I/O thread *)

(** The constructor: its mailbox is a descriptor of the poller; [process_stop] removes it. *)
Definition io_thread_new (assign : Z → bool) (mailbox : Z) : asio_poller := set_pollin assign mailbox (add_fd mailbox 0 poller_empty).
Definition io_thread_stop (mailbox : Z) (p : asio_poller) : asio_poller := rm_fd mailbox p.

Section io_thread.
(** The mailbox, and what commands do *)
Context {W C : Type} (recv : W → (C + errno_t) * W) (process_command : C → W → W).

(** [in_event]; [None]: not at the end after [fuel] calls of [recv].  With another error the code would use a command that it
    has not received. *)
Fixpoint in_event (fuel : nat) (w : W) : outcome (option W) :=
  match fuel with
  | O => Done None
  | S fuel =>
      match recv w with
      | (inr e, w) => if decide (e = EAGAIN) then Done (Some w) else if decide (e = EINTR) then in_event fuel w else Undef
      | (inl c, w) => in_event fuel (process_command c w)
      end
  end.
End io_thread.

(** A mailbox that is a list of commands, with interruptions ([None]) *)
Definition list_recv {W C} (x : W * list (option C)) : (C + errno_t) * (W * list (option C)) :=
  match x with
  | (w, []) => (inr EAGAIN, (w, []))
  | (w, None :: l) => (inr EINTR, (w, l))
  | (w, Some c :: l) => (inl c, (w, l))
  end.

(** All commands that have arrived are processed, in their order, those that commands send to this thread included. *)
Lemma in_event_all {W C} (process : C → W → W) (l : list (option C)) (w : W) :
  in_event list_recv (λ c x, (process c x.1, x.2)) (S (length l)) (w, l) = Done (Some (foldl (λ w c, process c w) w (omap id l), [])).
Proof. revert w. induction l as [|[c|] l IH]; intros w; [done|..]; [exact (IH (process c w))|exact (IH w)]. Qed.

(** ** Examples *)

(** A mailbox is 5; a sink adds 9 in an event and removes it in a later one; the mailbox is removed at the end. *)
Definition toy_acts : list poller_act :=
  [POp (OpAdd 5 0); POp (OpSetIn 5); PWait 0 false [OpAdd 9 1; OpSetIn 9; OpSetOut 9]; PWait 1 false [OpResetOut 9]; PWait 0 true []; PWait 0 false [OpRm 9]].

Lemma poller_never_deaf_witness :
  acts_ok (λ _, true) poller_empty toy_acts
  ∧ live 5 WRead (ap_waits (foldl (poller_step (λ _, true)) poller_empty toy_acts)) = 1%nat.
Proof.
  assert (Hok : acts_ok (λ _, true) poller_empty toy_acts).
  { apply (bool_decide_unpack _). vm_compute. exact I. }
  split; [exact Hok|].
  destruct (poller_never_deaf (λ _, true) toy_acts Hok) as (H & _).
  eapply H; [by vm_compute..|]. apply (bool_decide_unpack _). vm_compute. exact I.
Defined.

(** A number that is used again while the cancelled wait of the old descriptor is still to complete: the handler of the old wait
    takes the new entry for its own, and the next switch starts a second wait for the same descriptor. *)
Lemma reused_handle_waits_twice :
  live 5 WRead (ap_waits (foldl (poller_step (λ _, true)) poller_empty
    [POp (OpAdd 5 0); POp (OpSetIn 5); POp (OpRm 5); POp (OpAdd 5 1); POp (OpSetIn 5); PWait 0 false []; POp (OpSetIn 5)])) = 2%nat.
Proof. by vm_compute. Qed.

(** A wait fails without having been cancelled, or asio does not take the descriptor: it stays switched on and is not waited for. *)
Lemma failed_wait_is_deaf :
  let p := foldl (poller_step (λ _, true)) poller_empty [POp (OpAdd 5 0); POp (OpSetIn 5); PWait 0 true []] in
  let q := foldl (poller_step (λ _, false)) poller_empty [POp (OpAdd 5 0); POp (OpSetIn 5)] in
  fe_pollin <$> ap_entries p !! 5 = Some true ∧ ap_waits p = [] ∧ fe_pollin <$> ap_entries q !! 5 = Some true ∧ ap_waits q = [].
Proof. by vm_compute. Qed.
